(* ===== verification/_CoqProject ===== *)
-Q . S2P
Prelude.v
Bytes.v
Header.v
Control.v
HandshakeCodec.v
OpenCodec.v
Api.v
Resources.v
Framing.v
FramingProps.v
Ports.v
Handshake.v
HandshakeProps.v
Integrity.v
IntegrityProps.v
StreamIds.v
Registry.v
Session.v
SchedulerProps.v
SessionSteps.v
SessionMachine.v
SessionProps.v
SessionBounds.v
SessionReservations.v
Connection.v
ConnectionProps.v
ConnectionRuns.v
Driver.v
DriverInv.v
DriverProps.v
Arcs.v
BoardBase.v
Json.v
Document.v
DocumentProps.v
IdentityText.v
AddressText.v
Contact.v
Offering.v
Schema.v
ServiceDef.v
Prepared.v
PreparedProps.v
RecordCodec.v
Publication.v
PublicationInv.v
PublicationProps.v
Files.v
Durability.v
BoardStore.v
Cache.v
CacheProps.v
Crypto.v
Envelope.v
EnvelopeProps.v
Keys.v
Contacts.v
Authority.v
Identity.v
IdentityProps.v
IdentityStore.v
ContactStore.v
Recipients.v
Adapters.v
ServerConfig.v
Server.v
ServerRun.v
ServerProps.v
ServerRunProps.v
Ledger.v
Help.v
Cli.v
CliRun.v
CliBoard.v
Main.v
Reactor.v
Tcp.v
ReactorProps.v
Doubles.v
Fixtures.v
