(* ===== verification/Prelude.v ===== *)
(** * The TalkSphere verification library

    TalkSphere is a peer-to-peer node written in Rust ([src/src]).  Its core is
    a set of modules that communicate through explicit ports: a Transport that
    turns sockets into authenticated, ordered, bounded stream connections
    ([modules/transport]); a Board that publishes, caches and selects offerings
    with their service definitions ([modules/board], with
    [modules/services/schema]); and the Identity, Cryptography and Ledger modules
    behind them, which the composition layer wires together behind a command
    line.

    ** How code becomes definitions

    A method taking [&mut self] is a function of the monad [M S E] of this
    file, from a state to a result and the state written so far: an error keeps
    what was written before it.  [?] is the bind of the monad, [ensure] a guard
    with an early return, [try_] a result that is inspected instead of
    propagated.  Integers are [N] with the width's overflow written out
    ([checked_add], [saturating_add], ...), bytes are [list byte], a [BTreeMap]
    is a [gmap] that iterates in key order, and shared [Arc]s are cells of an
    explicit store with their reference counts, so that drops, [Weak]
    references and pointer equality mean what they mean in the source.  Traits
    are type classes; the code behind a port (operating system, cryptographic
    crates, serde_json, the application's capability object) is an instance a
    theorem quantifies over, with the documented behaviour it relies on as the
    laws of a class; concrete instances discharge the laws in the witnesses.

    ** Files

    Foundations: [Prelude] (results, the monad, integers, ordered maps,
    automation), [Bytes] (big-endian integers, UTF-8, slices), [Arcs]
    (reference-counted cells), [Json] (serde_json values and key order).

    Transport, from the wire up ([src/src/modules/transport]):
    - [Header], [Control], [HandshakeCodec], [OpenCodec]: [codec/*.rs];
    - [Api]: [api.rs], [handles.rs], [config.rs], [error.rs];
    - [Resources]: [resources.rs], the shared admission budgets;
    - [Framing]: [framing/*.rs]; [FramingProps]: the reader against a one-shot
      parser, and writer and reader over any link;
    - [Ports]: the identity and cryptography ports;
    - [Handshake], [HandshakeProps]: [handshake/*.rs];
    - [Integrity], [IntegrityProps]: [integrity/mod.rs];
    - [StreamIds], [Registry]: [stream/ids.rs], [stream/registry.rs];
    - [Session]: [stream/session.rs] and [stream/session/*.rs];
      [SchedulerProps], [SessionSteps] (a coarse step relation that invariants
      are proved against), [SessionMachine] (the exact guarded transitions of
      every call and the refinement to them), [SessionProps] (the consumer's
      log), [SessionBounds], [SessionReservations];
    - [Connection], [ConnectionProps], [ConnectionRuns]: [failure.rs] and
      [connection/*.rs], one socket composed with all of the above;
    - [Driver], [DriverInv], [DriverProps]: [driver/*.rs], every connection of
      one instance;
    - [Reactor], [Tcp], [ReactorProps]: [adapters/*.rs], sockets and timers over
      the readiness worker, at its critical sections.

    Board ([src/src/modules/board], [services/schema]):
    - [BoardBase]: [mod.rs], [config.rs], [authority.rs], [contract.rs];
    - [Document], [DocumentProps]: [document.rs], the bounded JSON preflight;
    - [Offering]: [offering.rs], [terms.rs] and exact JSON integers;
    - [Schema]: [services/schema/mod.rs];
    - [ServiceDef]: [definition.rs], [semantics.rs], [response.rs];
    - [Prepared], [PreparedProps] (with a concrete Board), [RecordCodec]:
      [prepared.rs], [persistence.rs], [record_codec.rs];
    - [Publication], [PublicationInv], [PublicationProps]: [state.rs] and the
      local part of [selection.rs];
    - [Files]: the file system as a port, what the stores rely on of it down to
      a loss of power, and a concrete one; [Durability]: the Board's register
      over a storage that survives or not; [BoardStore]: [linux.rs];
    - [Cache], [CacheProps]: [cache.rs], [cache_definitions.rs] and the remote
      part of [selection.rs].

    Cryptography and Identity ([src/src/modules/{cryptography,identity}]):
    - [Crypto]: primitives over the crates as a port, with their bounds;
    - [Envelope], [EnvelopeProps]: credentials, the encrypted object, its key
      derivation and the provider;
    - [IdentityText], [AddressText], [Contact]: [text.rs], IP addresses as text,
      [contact.rs];
    - [Keys]: key pairs, their credential and [record.rs];
    - [Authority]: [authority.rs]; [Identity], [IdentityProps]: [provider.rs],
      [operations.rs], [recovery.rs] over the key store port;
    - [IdentityStore]: [storage/{file,atomic}.rs], which serves that port;
    - [Contacts], [ContactStore]: [contacts.rs] and [storage/contacts.rs];
    - [Recipients]: [id.rs], [proof.rs], [selection.rs], [crypto.rs];
    - [Ledger]: [modules/ledger], its contract.

    Composition and command line ([src/src/composition], [src/src/cli]):
    - [Adapters]: [cryptography.rs], [identity.rs], the transport's two ports
      served from Cryptography and Identity;
    - [ServerConfig]: [server/{mod,config,credentials}.rs]; [Server]:
      [server/{transport,contacts,shutdown}.rs]; [ServerRun]:
      [server/{routing,pump,run}.rs]; [ServerProps] (with the transport driver as
      the server's control), [ServerRunProps];
    - [Help]: [help.rs]; [Cli]: [args.rs], [server_args.rs]; [CliRun]:
      [identity.rs]; [CliBoard]: [board.rs];
    - [Main]: [main.rs], [cli/{mod,serve}.rs], [composition/logging.rs] and the
      construction of the real driver: a process from its arguments to its exit
      status, its standard output and the files it leaves.

    What the unit tests put behind the ports ([test_support/]):
    - [Doubles]: the Transport's scripts, sockets, queues, clock, consumer and
      scripted cryptography, with the ports they serve;
    - [Fixtures]: the published vectors, the handshake scripts built from them,
      and the doubles of Identity, Cryptography, Board, Ledger and the server.

    ** How the parts interact

    A connection's state pairs its own fields with a world of shared objects;
    its poll reads frames ([Framing]), verifies them ([Integrity]), routes them
    ([Handshake] until authentication, then [Session]) and seals, writes and
    accounts for what they queue ([Resources]).  The driver admits connections
    against the shared budgets and forwards requests and events.  Sockets arm
    their task's waker in the shared readiness state before every attempt; the
    worker takes wakers out of it to wake them.  A Board owner checks every call
    against an authority domain and the clock, prepares a candidate
    ([Document], [Offering], [Schema], [ServiceDef], [Prepared]), commits its
    record through the persistence port, and hands out snapshots that pin
    revisions; the cache does the same for receipts of other publishers; both
    select terms for the future Ledger.  An identity provider creates or loads
    the one record of its store and hands out handles and grants; the transport
    signs through an adapter that holds both.  Every store publishes by writing
    and syncing a staging file, renaming it and syncing the directory; a record
    is installed once, a contact snapshot replaced whole.  The server loads
    credentials before any socket, owns a control (the driver), routes its
    events to consumers by stream owner and drains when it is told to stop; the
    command line turns words into a validated policy for it.  A process composes
    all of it: command, logging, credentials, the driver over the real adapters,
    forwarded signals, and the lines that report what the server did.

    ** What the theorems show

    - Authentication and integrity: [handshake_sound], [handshake_agreement],
      [auth_message_binds], [verified_is_prefix], [integrity_roundtrip],
      [integrity_failure_final], [sequence_discipline].
    - One story per connection: [connections_accounted], [end_reported_once],
      [stream_lifecycle], [closure_final], [session_refines_steps],
      [draining_final], [bounded_waiting], [drain_preserves_order].
    - Capacity: [capacity_returned], [reservations_linear], [driver_bounded],
      [queues_bounded] (with the queue no limit bounds: results of the
      consumer's own probes), [budgets_exact].
    - Scheduling: [no_lost_wakeup]; [arming_races_failure] and
      [timers_ignore_failure] exhibit runs with what a failed worker leaves
      behind.
    - Framing and codecs: [reader_refines_parser], [frames_survive_link], and
      the exact accepted set of every codec.
    - Publications: [prepared_complete], [recovery_exact],
      [publication_refines] (an owner implements an atomic durable register),
      [snapshots_pinned], [selection_exact], [publications_survive];
      receipts: [cache_receipts], [attach_exact], [cache_select_exact].
    - Documents: [document_exact], [integer_exact], [schema_exact],
      [record_codec_exact].
    - Identities: [identity_text_exact], [envelope_roundtrip], [decrypt_exact],
      [credential_record_exact], [one_identity_per_store],
      [private_operations_confined], [capabilities_exact], [pins_kept],
      [identity_permanent], [transport_identity_serves]; contacts:
      [contact_text_exact], [contact_book_exact], [contacts_kept];
      the Ledger's contract: [ledger_calls_exact], [ledger_limits_exact].
    - The server: [config_exact], [credentials_loaded], [shutdown_controlled],
      [server_terminates], [server_run_sound], [routed_to_owner],
      [signals_kept]; the command line: [command_forms_exact],
      [server_words_exact], [help_complete], [overview_complete],
      [documented_defaults], [identity_commands_keep], [inspection_exact].
    - The process: [process_sound] (what it prints is true, and its exit status
      says what came of it), [process_stops] (a signalled server ends),
      [ready_line_exact] and [parse_display_socket_addr] (its ready line reads
      back).
    - The doubles: [script_exact], [reads_in_order], [sleepers_woken],
      [scripted_frames] (a scripted socket is one of the streams of the framing
      theorems), [accepts_in_order], [attempt_answers_once],
      [deadline_wakes_once], [deliveries_kept], [restarted_identity],
      [cuts_keep_durable_effects]; [handshake_reproduces_vectors] and
      [sealing_reproduces_vectors] run the models on the published vectors.

    ** Bounds and fuel

    Fuel appears only where the source loops: the 64 operations of an I/O poll
    and the 32 turns of a connection poll are the source's own bounds; draining
    a queue has the queue's length as fuel, the driver's loops the length of
    the list they visit; the document scan has the nesting limit as room and
    the remaining bytes as loop fuel, and [document_exact] proves the answer of
    an exhausted scan irrelevant; schemas have the source's own 32 levels.  The
    server's run recurses over the rounds its surroundings give it, and
    [server_terminates] and [process_stops] bound them once a shutdown was
    requested; a turn of the
    readiness worker is one step of [ReactorProps].

    ** Not modelled

    The operating system and the crates behind the ports ([mio], the file
    system, cryptographic primitives, serde_json, the filter language of
    [tracing]); creating the readiness worker, its clock and the signal thread,
    whose outcomes are given; [Debug] and [Display] texts other than those the
    process prints on its standard output, and the texts of diagnostics; tracing
    calls, which have no effect on the state; platforms other than Linux, which
    the source refuses; the poisoning of mutexes is a flag no modelled call sets.
    The unit tests themselves; a scripted adapter that panics is modelled beside
    the ports, not as an instance of them, since a port's call answers. *)

(** ** This file: results, methods on mutable state, integers, ordered maps *)

From stdpp Require Export prelude list gmap sorting.
From Stdlib Require Export Lia ZifyBool ZifyN ZifyNat.

#[global] Set Default Proof Using "Type".

(** ** Results

    Rust's [Result<A, E>], with the error type first so that [result E] is a
    functor and the [?] operator is stdpp's bind notation. *)
Inductive result (E A : Type) : Type :=
| Ok (a : A)
| Err (e : E).
Arguments Ok {E A} a.
Arguments Err {E A} e.

#[global] Instance result_ret {E} : MRet (result E) := λ A a, Ok a.
#[global] Instance result_bind {E} : MBind (result E) := λ A B f r,
  match r with Ok a => f a | Err e => Err e end.
#[global] Instance result_fmap {E} : FMap (result E) := λ A B f r,
  match r with Ok a => Ok (f a) | Err e => Err e end.
#[global] Instance result_eq_dec `{EqDecision E, EqDecision A} : EqDecision (result E A).
Proof. solve_decision. Defined.

(** [Result::map_err] and [Option::ok_or]. *)
Definition map_err {E F A} (f : E → F) (r : result E A) : result F A :=
  match r with Ok a => Ok a | Err e => Err (f e) end.
Definition ok_or {E A} (o : option A) (e : E) : result E A :=
  match o with Some a => Ok a | None => Err e end.
Definition is_ok {E A} (r : result E A) : bool :=
  match r with Ok _ => true | Err _ => false end.
Definition is_err {E A} (r : result E A) : bool := negb (is_ok r).

(** Rust's [Poll<A>]. *)
Inductive Poll (A : Type) : Type :=
| Ready (a : A)
| Pending.
Arguments Ready {A} a.
Arguments Pending {A}.

#[global] Instance Poll_eq_dec `{EqDecision A} : EqDecision (Poll A).
Proof. solve_decision. Defined.

(** ** Methods on mutable state

    A method taking [&mut self] (and possibly other mutable borrows, paired in
    the state) and returning [Result<A, E>]: on an error the state written so
    far is kept, as in the source. *)
Definition M (S E A : Type) : Type := S → result E A * S.

#[global] Instance M_ret {S E} : MRet (M S E) := λ A a s, (Ok a, s).
#[global] Instance M_bind {S E} : MBind (M S E) := λ A B f m s,
  match m s with
  | (Ok a, s') => f a s'
  | (Err e, s') => (Err e, s')
  end.

Definition throw {S E A} (e : E) : M S E A := λ s, (Err e, s).
Definition gets {S E A} (f : S → A) : M S E A := λ s, (Ok (f s), s).
Definition modify {S E} (f : S → S) : M S E unit := λ s, (Ok tt, f s).
Definition lift {S E A} (r : result E A) : M S E A := λ s, (r, s).
(** A call to a mutating, or to a read-only, fallible method of the state. *)
Definition call {S E A} (f : S → result E A * S) : M S E A := f.
Definition query {S E A} (f : S → result E A) : M S E A := λ s, (f s, s).
Definition run {S E A} (f : S → A * S) : M S E A := λ s,
  let '(a, s') := f s in (Ok a, s').
(** [let r = m; ...]: observe the result of a fallible call without [?]. *)
Definition try_ {S E F A} (m : M S E A) : M S F (result E A) := λ s,
  let '(r, s') := m s in (Ok r, s').
(** An early [return Err(e)] under a guard. *)
Definition ensure {S E} (b : bool) (e : E) : M S E unit :=
  if b then mret tt else throw e.

Lemma bind_Ok {S E A B} (m : M S E A) (f : A → M S E B) s a s' :
  m s = (Ok a, s') → (m ≫= f) s = f a s'.
Proof. unfold mbind, M_bind. by intros ->. Qed.
Lemma bind_Err {S E A B} (m : M S E A) (f : A → M S E B) s e s' :
  m s = (Err e, s') → (m ≫= f) s = (Err e, s').
Proof. unfold mbind, M_bind. by intros ->. Qed.

Lemma bind_ext {S E A B} (m : M S E A) (f g : A → M S E B) s :
  (∀ a s', m s = (Ok a, s') → f a s' = g a s') → (m ≫= f) s = (m ≫= g) s.
Proof. unfold mbind, M_bind. destruct (m s) as [[a | e] s']; [by intros -> | done]. Qed.

(** Reading a successful run backwards. *)
Lemma bind_Ok_inv {S E A B} (m : M S E A) (f : A → M S E B) s b s' :
  (m ≫= f) s = (Ok b, s') → ∃ a s1, m s = (Ok a, s1) ∧ f a s1 = (Ok b, s').
Proof. unfold mbind, M_bind. destruct (m s) as [[a | e] s1]; [eauto | done]. Qed.
Lemma ensure_Ok_inv {S E} b (e : E) (s s' : S) u :
  ensure b e s = (Ok u, s') → b = true ∧ s' = s.
Proof. destruct b; cbv; [by intros [= _ <-] | done]. Qed.
Lemma lift_Ok_inv {S E A} (r : result E A) (s s' : S) a :
  lift r s = (Ok a, s') → r = Ok a ∧ s' = s.
Proof. by intros [= -> <-]. Qed.
Lemma result_bind_Ok_inv {E A B} (r : result E A) (f : A → result E B) b :
  r ≫= f = Ok b → ∃ a, r = Ok a ∧ f a = Ok b.
Proof. destruct r as [a | e]; [by exists a | done]. Qed.
Lemma ok_or_Ok {E A} (o : option A) (e : E) a : ok_or o e = Ok a ↔ o = Some a.
Proof. destruct o; cbv; split; congruence. Qed.
Lemma map_err_Ok {E F A} (f : E → F) (r : result E A) a : map_err f r = Ok a ↔ r = Ok a.
Proof. destruct r; cbv; split; congruence. Qed.

(** Preservation of a state predicate by a method, whatever it returns. *)
Definition preserves {S E A} (I : S → Prop) (m : M S E A) : Prop :=
  ∀ s, I s → I (m s).2.

Create HintDb preserves discriminated.

Section preserves.
Context {S E : Type} (I : S → Prop).

Lemma preserves_ret {A} (a : A) : preserves (E := E) I (mret a).
Proof. intros s Hs; exact Hs. Qed.
Lemma preserves_throw {A} (e : E) : preserves (A := A) I (throw e).
Proof. intros s Hs; exact Hs. Qed.
Lemma preserves_gets {A} (f : S → A) : preserves (E := E) I (gets f).
Proof. intros s Hs; exact Hs. Qed.
Lemma preserves_lift {A} (r : result E A) : preserves I (lift r).
Proof. intros s Hs; exact Hs. Qed.
Lemma preserves_ensure b (e : E) : preserves I (ensure b e).
Proof. destruct b; intros s Hs; exact Hs. Qed.
Lemma preserves_modify (f : S → S) :
  (∀ s, I s → I (f s)) → preserves (E := E) I (modify f).
Proof. intros Hf s Hs; exact (Hf s Hs). Qed.
Lemma preserves_bind {A B} (m : M S E A) (f : A → M S E B) :
  preserves I m → (∀ a, preserves I (f a)) → preserves I (m ≫= f).
Proof.
  intros Hm Hf s Hs. unfold mbind, M_bind. specialize (Hm s Hs).
  destruct (m s) as [[a | e] s']; [exact (Hf a s' Hm) | exact Hm].
Qed.
Lemma preserves_try {F A} (m : M S E A) :
  preserves I m → preserves I (try_ (F := F) m).
Proof.
  intros Hm s Hs. unfold try_. specialize (Hm s Hs). by destruct (m s).
Qed.
Lemma preserves_if {A} (b : bool) (m1 m2 : M S E A) :
  preserves I m1 → preserves I m2 → preserves I (if b then m1 else m2).
Proof. by destruct b. Qed.
End preserves.

#[export] Hint Resolve preserves_ret preserves_throw preserves_gets preserves_lift
  preserves_ensure preserves_bind preserves_try preserves_if : preserves.

(** ** Machine integers

    [u8] is [byte]; wider unsigned integers are [N] with their range stated.
    [usize] is 64 bits wide. *)
Abbreviation u16_limit := 65536%N.
Abbreviation u32_limit := 4294967296%N.
Abbreviation u64_limit := 18446744073709551616%N.

(** [checked_add] at a width whose values are those below [limit]. *)
Definition checked_add (limit a b : N) : option N :=
  if (a + b <? limit)%N then Some (a + b)%N else None.
Definition checked_mul (limit a b : N) : option N :=
  if (a * b <? limit)%N then Some (a * b)%N else None.
(** [saturating_add] and [saturating_mul]. *)
Definition saturating_add (limit a b : N) : N := N.min (a + b) (limit - 1).
Definition saturating_mul (limit a b : N) : N := N.min (a * b) (limit - 1).

Lemma checked_add_Some limit a b c :
  checked_add limit a b = Some c ↔ c = (a + b)%N ∧ (a + b < limit)%N.
Proof.
  unfold checked_add. destruct (N.ltb_spec (a + b) limit) as [Hlt | Hge]; split.
  - intros [= <-]. done.
  - by intros [-> _].
  - done.
  - intros [_ Hlt]. lia.
Qed.
Lemma checked_add_None limit a b :
  checked_add limit a b = None ↔ (limit ≤ a + b)%N.
Proof.
  unfold checked_add. destruct (N.ltb_spec (a + b) limit) as [Hlt | Hge]; split;
    intros H; try done; lia.
Qed.

Lemma checked_mul_Some limit a b c :
  checked_mul limit a b = Some c ↔ c = (a * b)%N ∧ (a * b < limit)%N.
Proof.
  unfold checked_mul. destruct (N.ltb_spec (a * b) limit) as [Hlt | Hge]; split.
  - intros [= <-]. done.
  - by intros [-> _].
  - done.
  - intros [_ Hlt]. lia.
Qed.

(** [slice.len()] as a [usize]. *)
Definition len {A} (l : list A) : N := N.of_nat (length l).

Lemma len_nil {A} : len (@nil A) = 0%N.
Proof. done. Qed.
Lemma len_cons {A} (x : A) l : len (x :: l) = (1 + len l)%N.
Proof. unfold len. simpl. lia. Qed.
Lemma len_app {A} (l k : list A) : len (l ++ k) = (len l + len k)%N.
Proof. unfold len. rewrite length_app. lia. Qed.
Lemma len_length {A} (l : list A) n : length l = n → len l = N.of_nat n.
Proof. by intros <-. Qed.
Lemma len_zero {A} (l : list A) : len l = 0%N ↔ l = [].
Proof. unfold len. destruct l; simpl; split; try done; lia. Qed.

(** [Vec::is_empty]. *)
Definition is_empty {A} (l : list A) : bool :=
  match l with [] => true | _ => false end.

(** ** Ordered maps

    A [BTreeMap] is a [gmap]; where the source iterates over it, its keys come
    in increasing order. *)
Definition keys {K V} `{Countable K} (R : relation K) `{!∀ x y, Decision (R x y)}
    (m : gmap K V) : list K :=
  merge_sort R (map fst (map_to_list m)).

Lemma keys_elem {K V} `{Countable K} (R : relation K) `{!∀ x y, Decision (R x y)}
    (m : gmap K V) k : k ∈ keys R m ↔ is_Some (m !! k).
Proof.
  unfold keys. rewrite merge_sort_Permutation, list_elem_of_fmap. split.
  - intros ([k' v] & -> & Hin). apply elem_of_map_to_list in Hin. by exists v.
  - intros [v Hv]. exists (k, v). split; [done |]. by apply elem_of_map_to_list.
Qed.
Lemma keys_NoDup {K V} `{Countable K} (R : relation K) `{!∀ x y, Decision (R x y)}
    (m : gmap K V) : NoDup (keys R m).
Proof. unfold keys. rewrite merge_sort_Permutation. apply NoDup_fst_map_to_list. Qed.

Lemma keys_length {K V} `{Countable K} (R : relation K) `{!∀ x y, Decision (R x y)}
    (m : gmap K V) : length (keys R m) = size m.
Proof. unfold keys. by rewrite merge_sort_Permutation, length_map, length_map_to_list. Qed.

Lemma length_omap_le {A B} (f : A → option B) l : (length (omap f l) ≤ length l)%nat.
Proof. induction l as [| x l IH]; [done |]. cbn. destruct (f x); cbn; lia. Qed.

(** ** Tactics *)

(** Open a method's monadic plumbing. *)
Ltac unfold_m :=
  unfold mbind, mret, M_bind, M_ret, result_bind, result_ret,
    throw, gets, modify, lift, call, query, run, try_, ensure in *.

(** Decompose every successful run and bind of the context. *)
Ltac inv_ok := repeat match goal with
  | H : (_ ≫= _) _ = (Ok _, _) |- _ =>
    destruct (bind_Ok_inv _ _ _ _ _ H) as (? & ? & ? & ?); clear H
  | H : _ ≫= _ = Ok _ |- _ =>
    destruct (result_bind_Ok_inv _ _ _ H) as (? & ? & ?); clear H
  | H : ensure _ _ _ = (Ok _, _) |- _ =>
    destruct (ensure_Ok_inv _ _ _ _ _ H) as [? ->]; clear H
  | H : lift _ _ = (Ok _, _) |- _ =>
    destruct (lift_Ok_inv _ _ _ _ H) as [? ->]; clear H
  | H : ok_or _ _ = Ok _ |- _ => apply ok_or_Ok in H
  | H : map_err _ _ = Ok _ |- _ => apply map_err_Ok in H
  | H : mret _ _ = (Ok _, _) |- _ => injection H as [= <- <-]
  | H : mret _ = Ok _ |- _ => injection H as [= <-]
  | H : modify _ _ = (Ok _, _) |- _ => injection H as [= _ <-]
  | H : gets _ _ = (Ok _, _) |- _ => injection H as [= <- <-]
  end.

(** Case analysis on every scrutinee, dropping impossible cases. *)
Ltac break := repeat (case_match; simplify_eq/=; try done).
