(* ===== verification/Bytes.v ===== *)
(** * Bytes: big-endian integers, UTF-8 and byte slices

    The primitive conversions the codecs use: [uN::from_be_bytes] and
    [uN::to_be_bytes], [std::str::from_utf8], fixed-size slice patterns. *)

From Stdlib Require Export Strings.Byte.
From S2P Require Import Prelude.

#[local] Open Scope N_scope.

Abbreviation bytes := (list byte).

(** ** Bytes as numbers *)

Definition b2N (b : byte) : N := Byte.to_N b.
(** [n as u8]: truncation. *)
Definition N2b (n : N) : byte :=
  match Byte.of_N (n mod 256) with Some b => b | None => x00 end.

#[global] Instance byte_eq_decision : EqDecision byte := byte_eq_dec.
#[global] Program Instance byte_countable : Countable byte :=
  inj_countable Byte.to_N Byte.of_N _.
Next Obligation. intros b. apply Byte.of_to_N. Qed.

Lemma b2N_lt b : b2N b < 256.
Proof. unfold b2N. pose proof (Byte.to_N_bounded b). lia. Qed.
Lemma N2b_b2N b : N2b (b2N b) = b.
Proof.
  unfold N2b. rewrite N.mod_small by apply b2N_lt. unfold b2N. by rewrite Byte.of_to_N.
Qed.
Lemma b2N_N2b n : b2N (N2b n) = n mod 256.
Proof.
  unfold N2b, b2N. pose proof (N.mod_lt n 256 ltac:(done)) as Hlt.
  destruct (Byte.of_N (n mod 256)) as [b |] eqn:Hb.
  - by apply Byte.to_of_N in Hb.
  - apply Byte.of_N_None_iff in Hb. lia.
Qed.
Lemma b2N_inj a b : b2N a = b2N b → a = b.
Proof. intros H. by rewrite <- (N2b_b2N a), <- (N2b_b2N b), H. Qed.

(** ** Big-endian integers *)

(** [to_be k n]: the [k] low bytes of [n], most significant first. *)
Fixpoint to_be (k : nat) (n : N) : bytes :=
  match k with
  | O => []
  | S k => N2b (n / 256 ^ N.of_nat k) :: to_be k n
  end.
Fixpoint from_be (l : bytes) : N :=
  match l with
  | [] => 0
  | b :: l => b2N b * 256 ^ len l + from_be l
  end.

Lemma to_be_length k n : length (to_be k n) = k.
Proof. induction k; simpl; congruence. Qed.
Lemma to_be_len k n : len (to_be k n) = N.of_nat k.
Proof. unfold len. by rewrite to_be_length. Qed.

Lemma from_be_bound l : from_be l < 256 ^ len l.
Proof.
  induction l as [| b l IH]; [done |]. cbn [from_be]. rewrite len_cons, N.pow_add_r.
  change (256 ^ 1) with 256. pose proof (b2N_lt b). nia.
Qed.

Lemma from_to_be k n : from_be (to_be k n) = n mod 256 ^ N.of_nat k.
Proof.
  induction k as [| k IH].
  - simpl. by rewrite N.mod_1_r.
  - cbn [to_be from_be]. rewrite IH, b2N_N2b, to_be_len, Nat2N.inj_succ, N.pow_succ_r'.
    rewrite (N.mul_comm 256), N.Div0.mod_mul_r. lia.
Qed.
Lemma from_to_be_small k n : n < 256 ^ N.of_nat k → from_be (to_be k n) = n.
Proof. intros H. by rewrite from_to_be, N.mod_small. Qed.

Lemma to_be_mod k n m :
  n mod 256 ^ N.of_nat k = m mod 256 ^ N.of_nat k → to_be k n = to_be k m.
Proof.
  revert n m. induction k as [| k IH]; intros n m H; [done |]. cbn [to_be].
  rewrite Nat2N.inj_succ, N.pow_succ_r', (N.mul_comm 256) in H.
  rewrite !N.Div0.mod_mul_r in H.
  pose proof (N.mod_lt n (256 ^ N.of_nat k) ltac:(apply N.pow_nonzero; lia)).
  pose proof (N.mod_lt m (256 ^ N.of_nat k) ltac:(apply N.pow_nonzero; lia)).
  set (p := 256 ^ N.of_nat k) in *.
  destruct (N.div_mod_unique p ((n / p) mod 256) ((m / p) mod 256) (n mod p) (m mod p))
    as [Hhi Hlo]; [done | done | by rewrite !(N.add_comm (p * _)) |].
  f_equal.
  - unfold N2b. by rewrite Hhi.
  - apply IH. exact Hlo.
Qed.

Lemma to_from_be l : to_be (length l) (from_be l) = l.
Proof.
  induction l as [| b l IH]; [done |]. cbn [length to_be from_be].
  pose proof (from_be_bound l) as Hb. unfold len in *. f_equal.
  - rewrite N.div_add_l by (apply N.pow_nonzero; lia).
    rewrite (N.div_small (from_be l)) by done. rewrite N.add_0_r. apply N2b_b2N.
  - transitivity (to_be (length l) (from_be l)); [| exact IH]. apply to_be_mod.
    rewrite N.add_comm. by rewrite N.Div0.mod_add.
Qed.
Lemma to_from_be_n k l : length l = k → to_be k (from_be l) = l.
Proof. intros <-. apply to_from_be. Qed.

Lemma from_be_inj l k : length l = length k → from_be l = from_be k → l = k.
Proof. intros Hl H. by rewrite <- (to_from_be l), <- (to_from_be k), Hl, H. Qed.
Lemma to_be_inj k n m :
  n < 256 ^ N.of_nat k → m < 256 ^ N.of_nat k → to_be k n = to_be k m → n = m.
Proof.
  intros Hn Hm H. by rewrite <- (from_to_be_small k n), <- (from_to_be_small k m), H.
Qed.

#[global] Arguments to_be : simpl never.
#[global] Arguments from_be : simpl never.

(** ** UTF-8

    [std::str::from_utf8] accepts exactly the well-formed sequences of the
    Unicode standard (table 3-7): no overlong forms, no surrogates, nothing
    above U+10FFFF.  A Rust [&str] is a byte list that passes this test. *)
Definition in_range (lo hi : N) (b : byte) : bool := (lo <=? b2N b) && (b2N b <=? hi).
Definition is_cont (b : byte) : bool := in_range 0x80 0xBF b.

Fixpoint from_utf8 (l : bytes) : bool :=
  match l with
  | [] => true
  | b0 :: l0 =>
    if in_range 0x00 0x7F b0 then from_utf8 l0 else
    match l0 with
    | [] => false
    | b1 :: l1 =>
      if in_range 0xC2 0xDF b0 then is_cont b1 && from_utf8 l1 else
      match l1 with
      | [] => false
      | b2 :: l2 =>
        let second3 :=
          if b2N b0 =? 0xE0 then in_range 0xA0 0xBF b1
          else if b2N b0 =? 0xED then in_range 0x80 0x9F b1
          else is_cont b1 in
        if in_range 0xE0 0xEF b0 then second3 && is_cont b2 && from_utf8 l2 else
        match l2 with
        | [] => false
        | b3 :: l3 =>
          let second4 :=
            if b2N b0 =? 0xF0 then in_range 0x90 0xBF b1
            else if b2N b0 =? 0xF4 then in_range 0x80 0x8F b1
            else is_cont b1 in
          in_range 0xF0 0xF4 b0 && second4 && is_cont b2 && is_cont b3 && from_utf8 l3
        end
      end
    end
  end.

(** [str::starts_with('\u{feff}')] on the UTF-8 bytes of a string. *)
Definition starts_with_bom (s : bytes) : bool :=
  match s with
  | xef :: xbb :: xbf :: _ => true
  | _ => false
  end.

Lemma from_utf8_ascii l : Forall (λ b, b2N b < 0x80) l → from_utf8 l = true.
Proof.
  induction 1 as [| b l Hb _ IH]; [done |]. cbn [from_utf8].
  unfold in_range. assert ((0 <=? b2N b) && (b2N b <=? 127) = true) as -> by lia. done.
Qed.

(** ** Slices *)

(** [&l[from..to]]; in range at every use. *)
Definition slice (from to : nat) (l : bytes) : bytes := take (to - from) (drop from l).
(** [l[i]]; in range at every use. *)
Definition byte_at (i : nat) (l : bytes) : byte := nth i l x00.

Lemma slice_length from to l :
  (from ≤ to)%nat → (to ≤ length l)%nat → length (slice from to l) = (to - from)%nat.
Proof. intros. unfold slice. rewrite length_take, length_drop. lia. Qed.

Lemma list_of_length_S {A} n (l : list A) :
  length l = S n → ∃ x k, l = x :: k ∧ length k = n.
Proof. destruct l as [| x k]; simpl; intros [=]. by exists x, k. Qed.

(** Split a list of known numeral length into its elements. *)
Ltac explode_list l H :=
  repeat (let x := fresh "b" in let k := fresh "l" in
          apply list_of_length_S in H as (x & k & -> & H));
  try (apply nil_length_inv in H as ->).
