(* ===== verification/Header.v ===== *)
(** * Frame headers

    [src/modules/transport/codec/{frame_type,error,header}.rs]: the version-1
    frame-type registry, the preliminary header errors and the immutable
    twelve-byte header with its encoder and decoder. *)

From S2P Require Import Prelude Bytes.

#[local] Open Scope N_scope.

Definition VERSION : byte := x01.
Definition HEADER_BYTES : N := 12.
Definition INTEGRITY_TAG_BYTES : N := 16.
Definition MAX_PAYLOAD_BYTES : N := 65536.

Inductive FrameType : Type :=
| Hello_t | Auth_t | Ping_t | Pong_t | GoAway_t | Error_t
| Open_t | Data_t | End_t | Cancel_t.

#[global] Instance FrameType_eq_dec : EqDecision FrameType.
Proof. solve_decision. Defined.

(** The discriminants of [#[repr(u8)] enum FrameType]: [self as u8]. *)
Definition FrameType_as_u8 (t : FrameType) : byte :=
  match t with
  | Hello_t => x01 | Auth_t => x02 | Ping_t => x03 | Pong_t => x04
  | GoAway_t => x05 | Error_t => x06
  | Open_t => x10 | Data_t => x11 | End_t => x12 | Cancel_t => x13
  end.

Inductive HeaderError : Type :=
| InvalidLength (actual : N)
| UnsupportedVersion (version : byte)
| NonzeroFlags (flags : N)
| UnknownType (value : byte)
| PayloadTooLarge (length : N)
| InvalidStreamId (frame_type : FrameType) (stream_id : N)
| SizeOverflow.

#[global] Instance HeaderError_eq_dec : EqDecision HeaderError.
Proof. solve_decision. Defined.

Definition FrameType_try_from (value : byte) : result HeaderError FrameType :=
  match value with
  | x01 => Ok Hello_t
  | x02 => Ok Auth_t
  | x03 => Ok Ping_t
  | x04 => Ok Pong_t
  | x05 => Ok GoAway_t
  | x06 => Ok Error_t
  | x10 => Ok Open_t
  | x11 => Ok Data_t
  | x12 => Ok End_t
  | x13 => Ok Cancel_t
  | _ => Err (UnknownType value)
  end.

Definition FrameType_validate_stream_id (self : FrameType) (stream_id : N)
    : result HeaderError unit :=
  let valid :=
    match self with
    | Hello_t | Auth_t | Ping_t | Pong_t | GoAway_t => stream_id =? 0
    | Open_t | Data_t | End_t | Cancel_t => negb (stream_id =? 0)
    | Error_t => true
    end in
  if valid then Ok tt else Err (InvalidStreamId self stream_id).

(** Direction-specific wire overhead. *)
Inductive FrameProtection : Type := Untagged | Tagged.

#[global] Instance FrameProtection_eq_dec : EqDecision FrameProtection.
Proof. solve_decision. Defined.

Record FrameHeader : Type := mkFrameHeader {
  frame_type : FrameType;
  stream_id : N;
  payload_len : N;
}.

#[global] Instance FrameHeader_eq_dec : EqDecision FrameHeader.
Proof. solve_decision. Defined.

Definition validate_payload_len (length : N) : result HeaderError unit :=
  if MAX_PAYLOAD_BYTES <? length then Err (PayloadTooLarge length) else Ok tt.

Definition FrameHeader_new (t : FrameType) (id plen : N) : result HeaderError FrameHeader :=
  validate_payload_len plen ≫= λ _,
  FrameType_validate_stream_id t id ≫= λ _,
  Ok (mkFrameHeader t id plen).

(** The source's order of checks: width, version, flags, size, type, stream. *)
Definition FrameHeader_decode (l : bytes) : result HeaderError FrameHeader :=
  match l with
  | [v; t; f0; f1; s0; s1; s2; s3; p0; p1; p2; p3] =>
    if bool_decide (v ≠ VERSION) then Err (UnsupportedVersion v) else
    let flags := from_be [f0; f1] in
    if negb (flags =? 0) then Err (NonzeroFlags flags) else
    let plen := from_be [p0; p1; p2; p3] in
    validate_payload_len plen ≫= λ _,
    FrameType_try_from t ≫= λ ft,
    let id := from_be [s0; s1; s2; s3] in
    FrameHeader_new ft id plen
  | _ => Err (InvalidLength (len l))
  end.

Definition FrameHeader_encode (h : FrameHeader) : bytes :=
  [VERSION; FrameType_as_u8 (frame_type h); x00; x00] ++
  to_be 4 (stream_id h) ++ to_be 4 (payload_len h).

Definition FrameHeader_frame_len (h : FrameHeader) (protection : FrameProtection)
    : result HeaderError N :=
  let payload := payload_len h in
  let tag := match protection with Untagged => 0 | Tagged => INTEGRITY_TAG_BYTES end in
  ok_or (checked_add u64_limit HEADER_BYTES payload ≫= λ size,
         checked_add u64_limit size tag) SizeOverflow.

(** What every header built by [FrameHeader_new] from [u32] fields satisfies. *)
Record header_wf (h : FrameHeader) : Prop := {
  header_stream_u32 : stream_id h < u32_limit;
  header_len_max : payload_len h ≤ MAX_PAYLOAD_BYTES;
  header_stream_scope : FrameType_validate_stream_id (frame_type h) (stream_id h) = Ok tt;
}.

(** ** Lemmas *)

Lemma FrameType_try_from_as_u8 t : FrameType_try_from (FrameType_as_u8 t) = Ok t.
Proof. by destruct t. Qed.
Lemma FrameType_as_u8_try_from b t : FrameType_try_from b = Ok t → FrameType_as_u8 t = b.
Proof. destruct b; simpl; intros [= <-]; done. Qed.

Lemma FrameHeader_new_Ok t id plen h :
  FrameHeader_new t id plen = Ok h ↔
  h = mkFrameHeader t id plen ∧ plen ≤ MAX_PAYLOAD_BYTES ∧
  FrameType_validate_stream_id t id = Ok tt.
Proof.
  unfold FrameHeader_new, validate_payload_len, mbind, result_bind.
  destruct (N.ltb_spec MAX_PAYLOAD_BYTES plen) as [Hlt | Hle].
  - split; [done |]. intros (_ & Hle & _). lia.
  - destruct (FrameType_validate_stream_id t id) as [[] | e].
    + split; [by intros [= <-] | by intros (-> & _)].
    + split; [done | by intros (_ & _ & [=])].
Qed.

Lemma FrameHeader_new_wf t id plen h :
  id < u32_limit → FrameHeader_new t id plen = Ok h → header_wf h.
Proof. intros Hid (-> & Hlen & Hv)%FrameHeader_new_Ok. by split. Qed.

Lemma FrameHeader_new_wf_inv h :
  header_wf h → FrameHeader_new (frame_type h) (stream_id h) (payload_len h) = Ok h.
Proof. intros [_ Hl Hv]. apply FrameHeader_new_Ok. by destruct h. Qed.

Lemma FrameHeader_encode_length h : length (FrameHeader_encode h) = 12%nat.
Proof. done. Qed.

Lemma FrameHeader_decode_length l h : FrameHeader_decode l = Ok h → length l = 12%nat.
Proof. do 13 (destruct l as [| ? l]; [done |]). done. Qed.

Lemma from_be_4_lt a b c d : from_be [a; b; c; d] < u32_limit.
Proof. exact (from_be_bound [a; b; c; d]). Qed.

Lemma validate_payload_len_Ok n u :
  validate_payload_len n = Ok u → n ≤ MAX_PAYLOAD_BYTES.
Proof. unfold validate_payload_len. destruct (N.ltb_spec MAX_PAYLOAD_BYTES n); done. Qed.

(** A decoded header is well formed and re-encodes to the bytes it came from. *)
Lemma FrameHeader_decode_Ok l h :
  FrameHeader_decode l = Ok h → header_wf h ∧ FrameHeader_encode h = l.
Proof.
  intros H. pose proof (FrameHeader_decode_length l h H) as Hl. explode_list l Hl.
  cbn [FrameHeader_decode] in H. case_bool_decide as Hv; [done |].
  assert (b = VERSION) as -> by (destruct (decide (b = VERSION)); tauto).
  destruct (N.eqb_spec (from_be [b1; b2]) 0) as [Hf | Hf]; [| done]. cbn [negb] in H.
  assert ([b1; b2] = [x00; x00]) as [= -> ->] by (by apply from_be_inj).
  unfold mbind, result_bind in H. case_match; [| done].
  destruct (FrameType_try_from b0) as [ft |] eqn:Ht; [| done].
  pose proof (FrameHeader_new_wf _ _ _ _ (from_be_4_lt b3 b4 b5 b6) H) as Hwf.
  apply FrameHeader_new_Ok in H as (-> & _ & _). split; [done |].
  unfold FrameHeader_encode. cbn [frame_type stream_id payload_len].
  rewrite !to_from_be_n, (FrameType_as_u8_try_from _ _ Ht) by done. done.
Qed.

Lemma FrameHeader_decode_encode h :
  header_wf h → FrameHeader_decode (FrameHeader_encode h) = Ok h.
Proof.
  intros Hwf. pose proof Hwf as [Hid Hlen _].
  pose proof (from_to_be_small 4 (stream_id h) Hid) as E1.
  pose proof (from_to_be_small 4 (payload_len h)) as E2.
  change (256 ^ N.of_nat 4) with u32_limit in E2. unfold MAX_PAYLOAD_BYTES in Hlen.
  specialize (E2 ltac:(lia)). unfold FrameHeader_encode.
  pose proof (to_be_length 4 (stream_id h)) as L1.
  pose proof (to_be_length 4 (payload_len h)) as L2.
  destruct (to_be 4 (stream_id h)) as [| s0 [| s1 [| s2 [| s3 []]]]]; try done.
  destruct (to_be 4 (payload_len h)) as [| p0 [| p1 [| p2 [| p3 []]]]]; try done.
  cbn [app FrameHeader_decode]. rewrite bool_decide_eq_false_2 by tauto.
  change (from_be [x00; x00] =? 0) with true. cbn [negb].
  rewrite E1, E2, FrameType_try_from_as_u8. unfold validate_payload_len.
  destruct (N.ltb_spec MAX_PAYLOAD_BYTES (payload_len h)); [unfold MAX_PAYLOAD_BYTES in *; lia |].
  cbn. by apply FrameHeader_new_wf_inv.
Qed.

Lemma FrameHeader_encode_inj h1 h2 :
  header_wf h1 → header_wf h2 → FrameHeader_encode h1 = FrameHeader_encode h2 → h1 = h2.
Proof.
  intros H1 H2 E. apply FrameHeader_decode_encode in H1, H2. congruence.
Qed.

Definition tag_len (p : FrameProtection) : N :=
  match p with Untagged => 0 | Tagged => INTEGRITY_TAG_BYTES end.

(** A well-formed header always has a representable frame length. *)
Lemma FrameHeader_frame_len_wf h p :
  header_wf h → FrameHeader_frame_len h p = Ok (HEADER_BYTES + payload_len h + tag_len p).
Proof.
  intros [_ Hl _]. unfold MAX_PAYLOAD_BYTES in Hl. unfold FrameHeader_frame_len.
  assert (checked_add u64_limit HEADER_BYTES (payload_len h) =
          Some (HEADER_BYTES + payload_len h)) as ->.
  { apply checked_add_Some. unfold HEADER_BYTES. lia. }
  cbn. assert (checked_add u64_limit (HEADER_BYTES + payload_len h) (tag_len p) =
          Some (HEADER_BYTES + payload_len h + tag_len p)) as E.
  { apply checked_add_Some. unfold HEADER_BYTES. destruct p; cbn;
      unfold INTEGRITY_TAG_BYTES; lia. }
  unfold tag_len in *. by rewrite E.
Qed.

(** ** Properties *)

(** The header codec is exact.  Every header the constructor admits decodes
    back from its twelve encoded bytes, and conversely any byte slice the
    decoder accepts is precisely the canonical encoding of the header it
    returns: there are no two wire forms of one header and no slack bytes. *)
Theorem header_codec_exact (l : bytes) (h : FrameHeader) :
  FrameHeader_decode l = Ok h ↔ header_wf h ∧ l = FrameHeader_encode h.
Proof.
  split.
  - intros H. apply FrameHeader_decode_Ok in H as [Hwf <-]. done.
  - intros [Hwf ->]. by apply FrameHeader_decode_encode.
Qed.
