(* ===== verification/Control.v ===== *)
(** * Control payloads

    [src/modules/transport/codec/control/*.rs]: the version-1 error-code
    registry, the bounded diagnostics shared by ERROR, CANCEL and GOAWAY, the
    GOAWAY payload and the opaque PING token. *)

From S2P Require Import Prelude Bytes.

#[local] Open Scope N_scope.

Definition MAX_REASON_BYTES : N := 1024.

Inductive ErrorCode : Type :=
| NoError | ProtocolError | AuthenticationFailed | FrameSizeError
| UnsupportedProtocol | StreamStateError | RefusedStream | InternalError
| IdExhausted | Cancelled | ResourceLimit.

#[global] Instance ErrorCode_eq_dec : EqDecision ErrorCode.
Proof. solve_decision. Defined.

(** The discriminants of [#[repr(u16)] enum ErrorCode]: [self as u16]. *)
Definition ErrorCode_as_u16 (c : ErrorCode) : N :=
  match c with
  | NoError => 0 | ProtocolError => 1 | AuthenticationFailed => 2
  | FrameSizeError => 3 | UnsupportedProtocol => 4 | StreamStateError => 5
  | RefusedStream => 6 | InternalError => 7 | IdExhausted => 8
  | Cancelled => 9 | ResourceLimit => 10
  end.

Inductive PayloadError : Type :=
| TooShort (minimum actual : N)
| LengthMismatch (expected actual : N)
| ReasonTooLong (actual : N)
| InvalidUtf8
| ByteOrderMark
| UnknownCode (code : N)
| NoErrorForbidden.

#[global] Instance PayloadError_eq_dec : EqDecision PayloadError.
Proof. solve_decision. Defined.

Definition ErrorCode_try_from (value : N) : result PayloadError ErrorCode :=
  match value with
  | 0 => Ok NoError
  | 1 => Ok ProtocolError
  | 2 => Ok AuthenticationFailed
  | 3 => Ok FrameSizeError
  | 4 => Ok UnsupportedProtocol
  | 5 => Ok StreamStateError
  | 6 => Ok RefusedStream
  | 7 => Ok InternalError
  | 8 => Ok IdExhausted
  | 9 => Ok Cancelled
  | 10 => Ok ResourceLimit
  | _ => Err (UnknownCode value)
  end.

(** [Diagnostic<'a>]: a code and a borrowed UTF-8 reason. *)
Record Diagnostic : Type := mkDiagnostic {
  code : ErrorCode;
  reason : bytes;
}.

#[global] Instance Diagnostic_eq_dec : EqDecision Diagnostic.
Proof. solve_decision. Defined.

Definition Diagnostic_new (c : ErrorCode) (r : bytes) (allow_no_error : bool)
    : result PayloadError Diagnostic :=
  if MAX_REASON_BYTES <? len r then Err (ReasonTooLong (len r)) else
  if starts_with_bom r then Err ByteOrderMark else
  if bool_decide (c = NoError) && negb allow_no_error then Err NoErrorForbidden else
  Ok (mkDiagnostic c r).

Definition Diagnostic_decode (payload : bytes) (allow_no_error : bool)
    : result PayloadError Diagnostic :=
  match payload with
  | c0 :: c1 :: r0 :: r1 :: text =>
    let raw := from_be [c0; c1] in
    let reason_len := from_be [r0; r1] in
    if MAX_REASON_BYTES <? reason_len then Err (ReasonTooLong reason_len) else
    let expected := 4 + reason_len in
    if negb (len payload =? expected) then Err (LengthMismatch expected (len payload)) else
    if negb (from_utf8 text) then Err InvalidUtf8 else
    ErrorCode_try_from raw ≫= λ c,
    Diagnostic_new c text allow_no_error
  | _ => Err (TooShort 4 (len payload))
  end.

(** [append_to] onto [out]; [reason.len() as u16] truncates. *)
Definition Diagnostic_append_to (d : Diagnostic) (out : bytes) : bytes :=
  out ++ to_be 2 (ErrorCode_as_u16 (code d))
      ++ to_be 2 (len (reason d) mod u16_limit)
      ++ reason d.

(** [ErrorPayload] wraps a diagnostic that never carries NO_ERROR. *)
Definition ErrorPayload_new (c : ErrorCode) (r : bytes) : result PayloadError Diagnostic :=
  Diagnostic_new c r false.
Definition ErrorPayload_decode (payload : bytes) : result PayloadError Diagnostic :=
  Diagnostic_decode payload false.
Definition ErrorPayload_encode (d : Diagnostic) : bytes := Diagnostic_append_to d [].

Record GoAway : Type := mkGoAway {
  last_accepted_remote_stream_id : N;
  diagnostic : Diagnostic;
}.

Definition GoAway_new (last : N) (c : ErrorCode) (r : bytes) : result PayloadError GoAway :=
  Diagnostic_new c r true ≫= λ d, Ok (mkGoAway last d).

Definition GoAway_decode (payload : bytes) : result PayloadError GoAway :=
  match payload with
  | i0 :: i1 :: i2 :: i3 :: ((_ :: _ :: _ :: _ :: _) as rest) =>
    let last := from_be [i0; i1; i2; i3] in
    map_err (λ error,
      match error with
      | LengthMismatch expected actual => LengthMismatch (expected + 4) (actual + 4)
      | other => other
      end) (Diagnostic_decode rest true) ≫= λ d,
    Ok (mkGoAway last d)
  | _ => Err (TooShort 8 (len payload))
  end.

Definition GoAway_encode (g : GoAway) : bytes :=
  Diagnostic_append_to (diagnostic g) (to_be 4 (last_accepted_remote_stream_id g)).

(** [PingToken([u8; 8])]. *)
Definition PingToken_decode (payload : bytes) : result PayloadError bytes :=
  if len payload =? 8 then Ok payload else Err (LengthMismatch 8 (len payload)).
Definition PingToken_encode (token : bytes) : bytes := token.

(** ** Lemmas *)

Lemma ErrorCode_try_from_as_u16 c : ErrorCode_try_from (ErrorCode_as_u16 c) = Ok c.
Proof. by destruct c. Qed.
Lemma ErrorCode_as_u16_try_from n c : ErrorCode_try_from n = Ok c → ErrorCode_as_u16 c = n.
Proof.
  unfold ErrorCode_try_from. intros H. repeat case_match; simplify_eq; done.
Qed.
Lemma ErrorCode_as_u16_lt c : ErrorCode_as_u16 c < u16_limit.
Proof. by destruct c. Qed.

(** The diagnostics [Diagnostic_new] admits from a [&str]. *)
Record diagnostic_wf (allow_no_error : bool) (d : Diagnostic) : Prop := {
  diag_bound : len (reason d) ≤ MAX_REASON_BYTES;
  diag_bom : starts_with_bom (reason d) = false;
  diag_code : allow_no_error = true ∨ code d ≠ NoError;
  diag_utf8 : from_utf8 (reason d) = true;
}.

Lemma Diagnostic_new_Ok c r allow d :
  Diagnostic_new c r allow = Ok d ↔
  d = mkDiagnostic c r ∧ len r ≤ MAX_REASON_BYTES ∧ starts_with_bom r = false ∧
  (allow = true ∨ c ≠ NoError).
Proof.
  unfold Diagnostic_new. destruct (N.ltb_spec MAX_REASON_BYTES (len r)) as [Hl | Hl].
  { split; [done |]. intros (_ & ? & _). lia. }
  destruct (starts_with_bom r); [naive_solver |].
  case_bool_decide as Hc; destruct allow; simpl; naive_solver.
Qed.

Lemma Diagnostic_decode_append allow d :
  diagnostic_wf allow d → Diagnostic_decode (Diagnostic_append_to d []) allow = Ok d.
Proof.
  intros [Hlen Hbom Hcode Hutf]. unfold Diagnostic_append_to. rewrite app_nil_l.
  unfold MAX_REASON_BYTES in Hlen. rewrite N.mod_small by lia.
  pose proof (from_to_be_small 2 (ErrorCode_as_u16 (code d)) (ErrorCode_as_u16_lt _)) as E1.
  pose proof (from_to_be_small 2 (len (reason d))) as E2.
  change (256 ^ N.of_nat 2) with u16_limit in E2. specialize (E2 ltac:(lia)).
  pose proof (to_be_length 2 (ErrorCode_as_u16 (code d))) as L1.
  pose proof (to_be_length 2 (len (reason d))) as L2.
  destruct (to_be 2 (ErrorCode_as_u16 (code d))) as [| c0 [| c1 []]]; try done.
  destruct (to_be 2 (len (reason d))) as [| r0 [| r1 []]]; try done.
  cbn [app Diagnostic_decode]. rewrite E1, E2, !len_cons.
  destruct (N.ltb_spec MAX_REASON_BYTES (len (reason d))); [unfold MAX_REASON_BYTES in *; lia |].
  destruct (N.eqb_spec (1 + (1 + (1 + (1 + len (reason d))))) (4 + len (reason d))); [| lia].
  rewrite Hutf, ErrorCode_try_from_as_u16. cbn.
  apply Diagnostic_new_Ok. by destruct d.
Qed.

Lemma Diagnostic_decode_Ok payload allow d :
  Diagnostic_decode payload allow = Ok d →
  diagnostic_wf allow d ∧ payload = Diagnostic_append_to d [].
Proof.
  destruct payload as [| c0 [| c1 [| r0 [| r1 text]]]]; try done. cbn [Diagnostic_decode].
  destruct (N.ltb_spec MAX_REASON_BYTES (from_be [r0; r1])) as [? | Hlen]; [done |].
  destruct (N.eqb_spec (len (c0 :: c1 :: r0 :: r1 :: text)) (4 + from_be [r0; r1]))
    as [Heq | ?]; [| done]. cbn [negb].
  destruct (from_utf8 text) eqn:Hutf; [| done]. cbn [negb].
  destruct (ErrorCode_try_from (from_be [c0; c1])) as [c |] eqn:Hc; [| done].
  cbn. intros (-> & Hl & Hbom & Hcode)%Diagnostic_new_Ok. split; [by split |].
  apply ErrorCode_as_u16_try_from in Hc. unfold Diagnostic_append_to. cbn [code reason].
  rewrite !len_cons in Heq. assert (from_be [r0; r1] = len text) as Ht by lia.
  unfold MAX_REASON_BYTES in Hl. rewrite N.mod_small by lia.
  rewrite Hc, <- Ht.
  by rewrite (to_from_be_n 2 [c0; c1]), (to_from_be_n 2 [r0; r1]).
Qed.

Lemma Diagnostic_append_app d out :
  Diagnostic_append_to d out = out ++ Diagnostic_append_to d [].
Proof. done. Qed.

Lemma Diagnostic_append_shape d :
  ∃ a b c e l, Diagnostic_append_to d [] = a :: b :: c :: e :: l.
Proof.
  unfold Diagnostic_append_to. rewrite app_nil_l.
  pose proof (to_be_length 2 (ErrorCode_as_u16 (code d))) as L1.
  pose proof (to_be_length 2 (len (reason d) mod u16_limit)) as L2.
  destruct (to_be 2 (ErrorCode_as_u16 (code d))) as [| c0 [| c1 []]]; try done.
  destruct (to_be 2 (len (reason d) mod u16_limit)) as [| r0 [| r1 []]]; try done.
  by repeat eexists.
Qed.

Lemma GoAway_decode_encode g :
  last_accepted_remote_stream_id g < u32_limit → diagnostic_wf true (diagnostic g) →
  GoAway_decode (GoAway_encode g) = Ok g.
Proof.
  intros Hid Hd. unfold GoAway_encode. rewrite Diagnostic_append_app.
  pose proof (Diagnostic_decode_append _ _ Hd) as Hdec.
  destruct (Diagnostic_append_shape (diagnostic g)) as (a & b & c & e & l & El).
  rewrite El in *. pose proof (from_to_be_small 4 _ Hid) as E.
  pose proof (to_be_length 4 (last_accepted_remote_stream_id g)) as L.
  destruct (to_be 4 (last_accepted_remote_stream_id g)) as [| i0 [| i1 [| i2 [| i3 []]]]];
    try done.
  cbn [app GoAway_decode]. rewrite Hdec, E. by destruct g.
Qed.

Lemma GoAway_decode_Ok payload g :
  GoAway_decode payload = Ok g →
  last_accepted_remote_stream_id g < u32_limit ∧ diagnostic_wf true (diagnostic g) ∧
  payload = GoAway_encode g.
Proof.
  destruct payload as [| i0 [| i1 [| i2 [| i3 [| a [| b [| c [| e l]]]]]]]]; try done.
  cbn [GoAway_decode]. destruct (Diagnostic_decode (a :: b :: c :: e :: l) true) as [d |] eqn:Hd;
    [| done]. cbn. intros [= <-]. cbn [last_accepted_remote_stream_id diagnostic].
  apply Diagnostic_decode_Ok in Hd as [Hwf Ed]. split_and!; [| done |].
  - exact (from_be_bound [i0; i1; i2; i3]).
  - unfold GoAway_encode. cbn [last_accepted_remote_stream_id diagnostic].
    rewrite Diagnostic_append_app, to_from_be_n, <- Ed by done. done.
Qed.

(** ** Properties *)

(** The diagnostic codecs accept exactly their canonical encodings.  An
    ERROR or CANCEL payload decodes to a diagnostic iff the diagnostic has a
    UTF-8 reason of at most 1024 bytes without a leading byte-order mark and a
    code other than NO_ERROR, and the payload is its encoding; GOAWAY likewise,
    with NO_ERROR allowed and its stream identifier a u32. *)
Theorem diagnostic_codecs_exact :
  (∀ payload d, ErrorPayload_decode payload = Ok d ↔
     diagnostic_wf false d ∧ payload = ErrorPayload_encode d) ∧
  (∀ payload g, GoAway_decode payload = Ok g ↔
     last_accepted_remote_stream_id g < u32_limit ∧
     diagnostic_wf true (diagnostic g) ∧ payload = GoAway_encode g).
Proof.
  split; intros payload x; split.
  - apply Diagnostic_decode_Ok.
  - intros [Hwf ->]. by apply Diagnostic_decode_append.
  - apply GoAway_decode_Ok.
  - intros (Hid & Hwf & ->). by apply GoAway_decode_encode.
Qed.
