(* ===== verification/HandshakeCodec.v ===== *)
(** * HELLO and AUTH payloads

    [src/modules/transport/codec/handshake.rs]: the exact shapes of the two
    handshake payloads.  Fixed-size arrays are byte lists of that length. *)

From S2P Require Import Prelude Bytes.

#[local] Open Scope N_scope.

Inductive HandshakePayloadError : Type :=
| HsLength (expected actual : N)
| HsSelector (offset : N) (value : byte).

#[global] Instance HandshakePayloadError_eq_dec : EqDecision HandshakePayloadError.
Proof. solve_decision. Defined.

Record Hello : Type := mkHello {
  identity_public_key : bytes;
  ephemeral_public_key : bytes;
  hello_nonce : bytes;
}.

#[global] Instance Hello_eq_dec : EqDecision Hello.
Proof. solve_decision. Defined.

(** The widths Rust's [[u8; 32]] fields carry in their type. *)
Record hello_wf (h : Hello) : Prop := {
  hello_identity_32 : length (identity_public_key h) = 32%nat;
  hello_ephemeral_32 : length (ephemeral_public_key h) = 32%nat;
  hello_nonce_32 : length (hello_nonce h) = 32%nat;
}.

Definition Hello_encode (h : Hello) : bytes :=
  replicate 3 x01 ++ identity_public_key h ++ [x01] ++ ephemeral_public_key h ++ hello_nonce h.

(** The selector loop over offsets 0, 1, 2 and 35. *)
Fixpoint check_selectors (offsets : list nat) (l : bytes) : result HandshakePayloadError unit :=
  match offsets with
  | [] => Ok tt
  | offset :: rest =>
    if bool_decide (byte_at offset l ≠ x01)
    then Err (HsSelector (N.of_nat offset) (byte_at offset l))
    else check_selectors rest l
  end.

Definition Hello_decode (l : bytes) : result HandshakePayloadError Hello :=
  if negb (len l =? 100) then Err (HsLength 100 (len l)) else
  check_selectors [0; 1; 2; 35]%nat l ≫= λ _,
  Ok (mkHello (slice 3 35 l) (slice 36 68 l) (slice 68 100 l)).

(** [Auth([u8; 64])]. *)
Definition Auth_decode (l : bytes) : result HandshakePayloadError bytes :=
  if len l =? 64 then Ok l else Err (HsLength 64 (len l)).
Definition Auth_encode (auth : bytes) : bytes := auth.

(** ** Lemmas *)

Lemma Hello_encode_length h : hello_wf h → length (Hello_encode h) = 100%nat.
Proof.
  intros [H1 H2 H3]. unfold Hello_encode. rewrite !length_app, H1, H2, H3. done.
Qed.

Lemma check_selectors_Ok offsets l u :
  check_selectors offsets l = Ok u ↔ Forall (λ i, byte_at i l = x01) offsets.
Proof.
  destruct u. induction offsets as [| i offsets IH]; cbn [check_selectors].
  - split; [constructor | done].
  - rewrite Forall_cons, <- IH. case_bool_decide as Hb.
    + split; [done |]. tauto.
    + split; [| by intros [_ H]]. intros H. split; [| done].
      by destruct (decide (byte_at i l = x01)).
Qed.

Lemma Hello_decode_encode h : hello_wf h → Hello_decode (Hello_encode h) = Ok h.
Proof.
  intros Hwf. unfold Hello_decode. rewrite (len_length _ _ (Hello_encode_length h Hwf)).
  change (negb (N.of_nat 100 =? 100)) with false. cbv match.
  destruct Hwf as [H1 H2 H3]. destruct h as [i e n].
  cbn [identity_public_key ephemeral_public_key hello_nonce] in *.
  unfold Hello_encode. cbn [identity_public_key ephemeral_public_key hello_nonce replicate app].
  assert (check_selectors [0; 1; 2; 35]%nat
    (x01 :: x01 :: x01 :: i ++ x01 :: e ++ n) = Ok tt) as ->.
  { apply check_selectors_Ok. repeat constructor. unfold byte_at. cbn [nth].
    rewrite app_nth2 by lia. by rewrite H1. }
  unfold mbind, result_bind, slice. cbn [drop Nat.sub]. do 2 f_equal.
  - by rewrite drop_0, take_app_length'.
  - rewrite drop_app, drop_ge, H1 by lia. cbn [app Nat.sub drop].
    by rewrite drop_0, take_app_length'.
  - rewrite drop_app, drop_ge, H1 by lia. cbn [app Nat.sub drop].
    rewrite drop_app_length' by done. apply take_ge. lia.
Qed.

Lemma take_drop_slice l (a b : nat) :
  (a ≤ b)%nat → drop a l = slice a b l ++ drop b l.
Proof.
  intros. unfold slice. rewrite <- (take_drop (b - a) (drop a l)) at 1.
  rewrite drop_drop. by replace (a + (b - a))%nat with b by lia.
Qed.

Lemma drop_byte_at l i : (i < length l)%nat → drop i l = byte_at i l :: drop (S i) l.
Proof.
  intros H. unfold byte_at. destruct (lookup_lt_is_Some_2 l i H) as [x Hx].
  rewrite (drop_S l x i Hx). f_equal. symmetry. by apply nth_lookup_Some.
Qed.

Lemma Hello_decode_Ok l h : Hello_decode l = Ok h → hello_wf h ∧ l = Hello_encode h.
Proof.
  unfold Hello_decode. destruct (N.eqb_spec (len l) 100) as [Hl | ?]; [| done].
  cbn [negb]. assert (length l = 100%nat) as Hlen by (unfold len in Hl; lia).
  destruct (check_selectors [0; 1; 2; 35]%nat l) as [u |] eqn:Hs; [| done].
  apply check_selectors_Ok in Hs. repeat (apply Forall_cons in Hs as [? Hs]).
  unfold mbind, result_bind. intros [= <-]. split.
  { split; cbn [identity_public_key ephemeral_public_key hello_nonce];
      rewrite slice_length; lia. }
  unfold Hello_encode. cbn [identity_public_key ephemeral_public_key hello_nonce replicate].
  transitivity (drop 0 l); [done |].
  rewrite (drop_byte_at l 0), (drop_byte_at l 1), (drop_byte_at l 2) by lia.
  rewrite (take_drop_slice l 3 35), (drop_byte_at l 35) by lia.
  rewrite (take_drop_slice l 36 68), (take_drop_slice l 68 100) by lia.
  rewrite (drop_ge l 100), app_nil_r by lia. cbn [app]. congruence.
Qed.

Lemma Hello_encode_inj h1 h2 :
  hello_wf h1 → hello_wf h2 → Hello_encode h1 = Hello_encode h2 → h1 = h2.
Proof. intros H1 H2 E. apply Hello_decode_encode in H1, H2. congruence. Qed.

(** ** Properties *)

(** HELLO is exact.  A payload is accepted iff it is the hundred-byte
    encoding of three 32-byte fields with every version-1 selector equal to
    one; decoding recovers exactly the fields that were encoded. *)
Theorem hello_codec_exact (l : bytes) (h : Hello) :
  Hello_decode l = Ok h ↔ hello_wf h ∧ l = Hello_encode h.
Proof.
  split; [apply Hello_decode_Ok |]. intros [Hwf ->]. by apply Hello_decode_encode.
Qed.
