(* ===== verification/OpenCodec.v ===== *)
(** * OPEN protocol selection

    [src/modules/transport/codec/open.rs]: a protocol identifier in an ASCII
    namespace grammar and a nonzero version. *)

From S2P Require Import Prelude Bytes.

#[local] Open Scope N_scope.

Inductive OpenError : Type := OpenLength | OpenIdentifier | OpenVersion.

#[global] Instance OpenError_eq_dec : EqDecision OpenError.
Proof. solve_decision. Defined.

Record Open : Type := mkOpen {
  open_id : bytes;
  open_version : N;
}.

#[global] Instance Open_eq_dec : EqDecision Open.
Proof. solve_decision. Defined.

(** [u8::is_ascii_lowercase() || u8::is_ascii_digit()]. *)
Definition alphanumeric (b : byte) : bool := in_range 0x61 0x7A b || in_range 0x30 0x39 b.

(** [bytes.windows(2).any(|pair| pair == b"..")]. *)
Fixpoint has_double_dot (l : bytes) : bool :=
  match l with
  | a :: ((b :: _) as rest) =>
    (bool_decide (a = x2e) && bool_decide (b = x2e)) || has_double_dot rest
  | _ => false
  end.

Definition Open_new (id : bytes) (version : N) : result OpenError Open :=
  if negb ((1 <=? len id) && (len id <=? 255)) then Err OpenLength else
  if negb (alphanumeric (byte_at 0 id))
     || negb (alphanumeric (byte_at (length id - 1) id))
     || negb (forallb (λ b, alphanumeric b || bool_decide (b = x2e) || bool_decide (b = x2d)) id)
     || has_double_dot id
  then Err OpenIdentifier else
  if version =? 0 then Err OpenVersion else
  Ok (mkOpen id version).

Definition Open_decode (l : bytes) : result OpenError Open :=
  if len l <? 7 then Err OpenLength else
  let length := from_be (slice 0 2 l) in
  if negb ((1 <=? length) && (length <=? 255)) || negb (len l =? length + 6)
  then Err OpenLength else
  let offset := (2 + N.to_nat length)%nat in
  let id := slice 2 offset l in
  if negb (from_utf8 id) then Err OpenIdentifier else
  let version := from_be (slice offset (offset + 4) l) in
  Open_new id version.

Definition Open_encode (o : Open) : bytes :=
  to_be 2 (len (open_id o) mod u16_limit) ++ open_id o ++ to_be 4 (open_version o).

(** ** The identifier grammar, stated independently of the checks *)

Definition ident_char (b : byte) : Prop := alphanumeric b = true ∨ b = x2e ∨ b = x2d.

Record namespace (id : bytes) : Prop := {
  ns_length : (1 ≤ length id ≤ 255)%nat;
  ns_chars : Forall ident_char id;
  ns_first : ∀ b, head id = Some b → alphanumeric b = true;
  ns_last : ∀ b, last id = Some b → alphanumeric b = true;
  ns_dots : ∀ i, ¬ (id !! i = Some x2e ∧ id !! S i = Some x2e);
}.

Record open_wf (o : Open) : Prop := {
  open_wf_id : namespace (open_id o);
  open_wf_version : 1 ≤ open_version o < u32_limit;
}.

(** ** Lemmas *)

Lemma has_double_dot_spec l :
  has_double_dot l = true ↔ ∃ i, l !! i = Some x2e ∧ l !! S i = Some x2e.
Proof.
  induction l as [| a l IH]; cbn [has_double_dot].
  { split; [done |]. intros (i & H & _). by rewrite lookup_nil in H. }
  destruct l as [| b l]; cbn [has_double_dot].
  { split; [done |]. intros (i & _ & H). by destruct i. }
  rewrite orb_true_iff, andb_true_iff, !bool_decide_eq_true, IH. split.
  - intros [[-> ->] | (i & Hi)]; [by exists 0%nat | by exists (S i)].
  - intros ([| i] & H1 & H2).
    + left. cbn in H1, H2. by simplify_eq.
    + right. by exists i.
Qed.

Lemma ident_char_spec b :
  alphanumeric b || bool_decide (b = x2e) || bool_decide (b = x2d) = true ↔ ident_char b.
Proof.
  unfold ident_char. rewrite !orb_true_iff, !bool_decide_eq_true. tauto.
Qed.

Lemma ident_chars_spec id :
  forallb (λ b, alphanumeric b || bool_decide (b = x2e) || bool_decide (b = x2d)) id = true ↔
  Forall ident_char id.
Proof.
  induction id as [| b id IH]; cbn [forallb]; [done |].
  by rewrite andb_true_iff, ident_char_spec, IH, Forall_cons.
Qed.

Lemma ident_char_ascii b : ident_char b → b2N b < 0x80.
Proof.
  unfold ident_char, alphanumeric, in_range. intros [H | [-> | ->]]; [lia | done | done].
Qed.

Lemma namespace_utf8 id : namespace id → from_utf8 id = true.
Proof.
  intros [_ Hc _ _ _]. apply from_utf8_ascii. eapply Forall_impl; [exact Hc |].
  apply ident_char_ascii.
Qed.

Lemma byte_at_last (l : bytes) b : last l = Some b → byte_at (length l - 1) l = b.
Proof.
  intros H. apply nth_lookup_Some. rewrite last_lookup in H.
  by replace (length l - 1)%nat with (pred (length l)) by lia.
Qed.

Lemma Open_new_Ok id version o :
  Open_new id version = Ok o ↔
  o = mkOpen id version ∧ namespace id ∧ version ≠ 0.
Proof.
  unfold Open_new. destruct ((1 <=? len id) && (len id <=? 255)) eqn:Hl; cbn [negb].
  2:{ split; [done |]. intros (_ & [Hn _ _ _ _] & _). unfold len in Hl. lia. }
  assert ((1 ≤ length id ≤ 255)%nat) as Hlen by (unfold len in Hl; lia).
  destruct id as [| b0 id'] eqn:Eid; [simpl in Hlen; lia |]. rewrite <- Eid in *.
  assert (head id = Some b0) as Hhd by (by rewrite Eid).
  assert (byte_at 0 id = b0) as -> by (by rewrite Eid).
  destruct (last id) as [bl |] eqn:Hlast.
  2:{ apply last_None in Hlast. by rewrite Hlast in Eid. }
  rewrite (byte_at_last _ _ Hlast). clear Eid.
  destruct (alphanumeric b0) eqn:A0; cbn [negb orb].
  2:{ split; [done |]. intros (_ & [_ _ Hf _ _] & _). specialize (Hf _ Hhd). congruence. }
  destruct (alphanumeric bl) eqn:Al; cbn [negb orb].
  2:{ split; [done |]. intros (_ & [_ _ _ Hf _] & _). specialize (Hf _ Hlast). congruence. }
  set (F := forallb _ _). destruct F eqn:EF; subst F; cbn [negb orb].
  2:{ split; [done |]. intros (_ & [_ Hc _ _ _] & _).
      apply ident_chars_spec in Hc. congruence. }
  destruct (has_double_dot id) eqn:Hd; cbn [negb orb].
  { split; [done |]. apply has_double_dot_spec in Hd as [i Hi].
    intros (_ & [_ _ _ _ Hn] & _). by destruct (Hn i). }
  assert (namespace id) as Hns.
  { split; [done | | intros b Hb; congruence | intros b Hb; congruence |].
    - by apply ident_chars_spec.
    - intros i Hi. assert (has_double_dot id = true) as Ht; [| congruence].
      apply has_double_dot_spec. by exists i. }
  destruct (N.eqb_spec version 0).
  - split; [done | by intros (_ & _ & ?)].
  - split; [by intros [= <-] | by intros (-> & _)].
Qed.

Lemma Open_decode_encode o : open_wf o → Open_decode (Open_encode o) = Ok o.
Proof.
  intros [Hns Hv]. pose proof (ns_length _ Hns) as Hlen. destruct o as [id v].
  cbn [open_id open_version] in *. unfold Open_decode, Open_encode.
  cbn [open_id open_version]. assert (len id < u16_limit) as Hl16 by (unfold len; lia).
  rewrite N.mod_small by done. set (w := to_be 2 (len id) ++ id ++ to_be 4 v).
  assert (length w = (length id + 6)%nat) as Hw.
  { unfold w. rewrite !length_app, !to_be_length. lia. }
  destruct (N.ltb_spec (len w) 7); [unfold len in *; lia |].
  assert (slice 0 2 w = to_be 2 (len id)) as ->.
  { unfold slice, w. rewrite drop_0. by apply take_app_length'. }
  rewrite from_to_be_small by done.
  assert (negb ((1 <=? len id) && (len id <=? 255)) || negb (len w =? len id + 6) = false)
    as -> by (unfold len in *; lia).
  assert (N.to_nat (len id) = length id) as -> by (unfold len; lia).
  assert (slice 2 (2 + length id) w = id) as ->.
  { unfold slice, w. replace (2 + length id - 2)%nat with (length id) by lia.
    rewrite drop_app_length' by (by rewrite to_be_length). by rewrite take_app_length. }
  assert (slice (2 + length id) (2 + length id + 4) w = to_be 4 v) as ->.
  { unfold slice, w. rewrite <- drop_drop, drop_app_length' by (by rewrite to_be_length).
    rewrite drop_app_length. apply take_ge. rewrite to_be_length. lia. }
  rewrite (namespace_utf8 _ Hns). cbn [negb]. rewrite from_to_be_small by apply Hv.
  apply Open_new_Ok. split_and!; [done | done | lia].
Qed.

Lemma Open_decode_Ok l o : Open_decode l = Ok o → open_wf o ∧ l = Open_encode o.
Proof.
  unfold Open_decode. destruct (N.ltb_spec (len l) 7) as [? | Hl7]; [done |].
  set (n := from_be (slice 0 2 l)).
  destruct (negb ((1 <=? n) && (n <=? 255)) || negb (len l =? n + 6)) eqn:Hn; [done |].
  assert (1 ≤ n ≤ 255 ∧ len l = n + 6) as [Hn1 Hn2] by lia.
  set (k := N.to_nat n). assert (length l = (k + 6)%nat) as Hll by (unfold len, k in *; lia).
  destruct (from_utf8 (slice 2 (2 + k) l)) eqn:Hutf; [| done]. cbn [negb].
  intros (-> & Hns & Hv)%Open_new_Ok.
  assert (length (slice (2 + k) (2 + k + 4) l) = 4%nat) as L4 by (rewrite slice_length; lia).
  split.
  - split; cbn [open_id open_version]; [done |].
    pose proof (from_be_bound (slice (2 + k) (2 + k + 4) l)) as Hb.
    unfold len in Hb. rewrite L4 in Hb. change (256 ^ N.of_nat 4) with u32_limit in Hb. lia.
  - unfold Open_encode. cbn [open_id open_version].
    assert (len (slice 2 (2 + k) l) = n) as Hlen.
    { unfold len. rewrite slice_length by lia. unfold k. lia. }
    rewrite Hlen, N.mod_small by lia. unfold n.
    rewrite (to_from_be_n 2), (to_from_be_n 4 _ L4) by (rewrite slice_length; lia).
    unfold slice. rewrite drop_0. replace (2 - 0)%nat with 2%nat by lia.
    replace (2 + k - 2)%nat with k by lia. replace (2 + k + 4 - (2 + k))%nat with 4%nat by lia.
    rewrite (take_ge (drop (2 + k) l)) by (rewrite length_drop; lia).
    rewrite <- (drop_drop l k 2), take_drop, take_drop. done.
Qed.

(** ** Properties *)

(** OPEN selections are exact and the identifier checks are the namespace
    grammar.  The decoder accepts a payload iff it is the encoding of a
    selection whose identifier has 1-255 bytes of lowercase letters, digits,
    dots and hyphens, starts and ends alphanumerically, has no two adjacent
    dots, and whose version is a nonzero u32. *)
Theorem open_codec_exact (l : bytes) (o : Open) :
  Open_decode l = Ok o ↔ open_wf o ∧ l = Open_encode o.
Proof. split; [apply Open_decode_Ok |]. intros [Hwf ->]. by apply Open_decode_encode. Qed.
