(* ===== verification/Api.v ===== *)
(** * The Transport contract types

    [src/modules/transport/{api,handles,config,error}.rs] and the error types
    of [ports/mod.rs]: roles, failures, outcomes and events, the in-process
    capabilities with their authorization check, and the validated local
    policy. *)

From S2P Require Import Prelude Bytes Header.

#[local] Open Scope N_scope.

(** ** Time

    [std::time::Duration] and a monotonic [Instant], in nanoseconds.  On Unix
    an [Instant] holds a signed 64-bit number of seconds, which bounds
    [Instant::checked_add]. *)
Abbreviation Duration := N (only parsing).
Abbreviation Instant := N (only parsing).
Definition instant_limit : N := 2 ^ 63 * 10 ^ 9.
Definition Instant_checked_add (now : Instant) (d : Duration) : option Instant :=
  checked_add instant_limit now d.
Definition Instant_checked_duration_since (now earlier : Instant) : option Duration :=
  if earlier <=? now then Some (now - earlier) else None.

(** [std::net]: IPv4 octets, IPv6 segments, and socket addresses. *)
Record Ipv4Addr : Type := mkIpv4 { octet_1 : byte; octet_2 : byte; octet_3 : byte; octet_4 : byte }.
Abbreviation Ipv6Addr := (list N) (only parsing).
Inductive IpAddr : Type := IpV4 (ip : Ipv4Addr) | IpV6 (segments : Ipv6Addr).
Inductive SocketAddr : Type :=
| SocketAddrV4 (ip : Ipv4Addr) (port : N)
| SocketAddrV6 (ip : Ipv6Addr) (port flowinfo scope_id : N).
#[global] Instance Ipv4Addr_eq_dec : EqDecision Ipv4Addr.
Proof. solve_decision. Defined.
#[global] Instance IpAddr_eq_dec : EqDecision IpAddr.
Proof. solve_decision. Defined.
#[global] Instance SocketAddr_eq_dec : EqDecision SocketAddr.
Proof. solve_decision. Defined.

Definition addr_port (a : SocketAddr) : N :=
  match a with SocketAddrV4 _ port | SocketAddrV6 _ port _ _ => port end.
Definition addr_ip (a : SocketAddr) : IpAddr :=
  match a with SocketAddrV4 ip _ => IpV4 ip | SocketAddrV6 ip _ _ _ => IpV6 ip end.
Definition SocketAddr_new (ip : IpAddr) (port : N) : SocketAddr :=
  match ip with IpV4 ip => SocketAddrV4 ip port | IpV6 ip => SocketAddrV6 ip port 0 0 end.

(** [std::io::ErrorKind]: the kinds the transport distinguishes, and the rest. *)
Inductive ErrorKind : Type :=
| Interrupted | WriteZero | InvalidDataKind | TimedOut | OtherKind (n : N).

#[global] Instance ErrorKind_eq_dec : EqDecision ErrorKind.
Proof. solve_decision. Defined.

(** ** Roles, identities, reasons and failures *)

Inductive ConnectionRole : Type := Initiator | Acceptor.

#[global] Instance ConnectionRole_eq_dec : EqDecision ConnectionRole.
Proof. solve_decision. Defined.

(** [IdentityId([u8; 32])]. *)
Abbreviation IdentityId := bytes (only parsing).

Inductive ExpectedPeer : Type := Known (id : IdentityId) | Unpinned.

#[global] Instance ExpectedPeer_eq_dec : EqDecision ExpectedPeer.
Proof. solve_decision. Defined.

Record Protocol : Type := mkProtocol {
  protocol_id : bytes;
  protocol_version : N;
}.

#[global] Instance Protocol_eq_dec : EqDecision Protocol.
Proof. solve_decision. Defined.

Inductive CancellationReason : Type := CrCancelled | CrResourceLimit | CrInternalError.

Inductive ShutdownReason : Type := SrNormal | SrIdExhausted | SrResourceLimit | SrInternalError.

Inductive Dependency : Type := DepSocket | DepClock | DepIdentity | DepCryptography.

Inductive DependencyError : Type :=
| Unavailable | Denied | InvalidInput | VerificationFailed.

Inductive FailureOrigin : Type := Local | Peer | FromDependency (d : Dependency).

Inductive FailureCode : Type :=
| FcProtocolViolation | FcAuthenticationFailed | FcIntegrityFailed | FcFrameTooLarge
| FcUnsupportedProtocol | FcStreamState | FcRefused | FcCancelled | FcResourceLimit
| FcIdExhausted | FcSequenceExhausted | FcTruncatedFrame | FcConnectionLost
| FcDeadlineExceeded | FcDependencyUnavailable | FcInternal.

Record Failure : Type := mkFailure {
  origin : FailureOrigin;
  failure_code_of : FailureCode;
}.

Inductive StreamOutcome : Type :=
| OutCompleted
| OutCancelled (o : FailureOrigin) (r : CancellationReason)
| OutFailed (f : Failure).

#[global] Instance CancellationReason_eq_dec : EqDecision CancellationReason.
Proof. solve_decision. Defined.
#[global] Instance ShutdownReason_eq_dec : EqDecision ShutdownReason.
Proof. solve_decision. Defined.
#[global] Instance Dependency_eq_dec : EqDecision Dependency.
Proof. solve_decision. Defined.
#[global] Instance DependencyError_eq_dec : EqDecision DependencyError.
Proof. solve_decision. Defined.
#[global] Instance FailureOrigin_eq_dec : EqDecision FailureOrigin.
Proof. solve_decision. Defined.
#[global] Instance FailureCode_eq_dec : EqDecision FailureCode.
Proof. solve_decision. Defined.
#[global] Instance Failure_eq_dec : EqDecision Failure.
Proof. solve_decision. Defined.
#[global] Instance StreamOutcome_eq_dec : EqDecision StreamOutcome.
Proof. solve_decision. Defined.

(** ** Capabilities

    [Instance(Arc<()>)] compares by pointer; an instance is the number of the
    allocation it came from. *)
Abbreviation Instance_ := N (only parsing).
Abbreviation ConnectionId := Instance_ (only parsing).
Abbreviation StreamOwner := Instance_ (only parsing).
Abbreviation ListenerHandle := Instance_ (only parsing).

Record ConnectionHandle : Type := mkConnectionHandle { handle_id : ConnectionId }.

Record StreamHandle : Type := mkStreamHandle {
  sh_connection : ConnectionId;
  sh_owner : StreamOwner;
  wire_id : N;
}.

#[global] Instance ConnectionHandle_eq_dec : EqDecision ConnectionHandle.
Proof. solve_decision. Defined.
#[global] Instance StreamHandle_eq_dec : EqDecision StreamHandle.
Proof. solve_decision. Defined.

Definition StreamHandle_new (connection : ConnectionHandle) (owner : StreamOwner) (id : N)
    : StreamHandle :=
  mkStreamHandle (handle_id connection) owner id.

(** ** Policy *)

Definition MAX_FRAME_BYTES : N := HEADER_BYTES + MAX_PAYLOAD_BYTES + INTEGRITY_TAG_BYTES.

Record ResourceLimits : Type := mkResourceLimits {
  max_connections : N;
  streams_per_connection : N;
  outbound_bytes : N;
  buffered_bytes_per_stream : N;
}.

Inductive Limit : Type :=
| LimConnections | LimStreamsPerConnection | LimOutboundBytes | LimBufferedBytesPerStream.

Inductive ConfigError : Type :=
| ZeroHandshakeTimeout
| LimitTooSmall (limit : Limit) (minimum : N).

Record TransportConfig : Type := mkTransportConfig {
  config_limits : ResourceLimits;
  handshake_timeout : Duration;
}.

(** The checking loop of [TransportConfig::new]. *)
Fixpoint check_limits (table : list (Limit * N * N)) : result ConfigError unit :=
  match table with
  | [] => Ok tt
  | (limit, value, minimum) :: rest =>
    if value <? minimum then Err (LimitTooSmall limit minimum) else check_limits rest
  end.

Definition TransportConfig_new (l : ResourceLimits) (timeout : Duration)
    : result ConfigError TransportConfig :=
  if timeout =? 0 then Err ZeroHandshakeTimeout else
  check_limits
    [ (LimConnections, max_connections l, 1);
      (LimStreamsPerConnection, streams_per_connection l, 1);
      (LimOutboundBytes, outbound_bytes l, MAX_FRAME_BYTES);
      (LimBufferedBytesPerStream, buffered_bytes_per_stream l, MAX_PAYLOAD_BYTES) ] ≫= λ _,
  Ok (mkTransportConfig l timeout).

(** ** Local errors *)

Inductive TransportError : Type :=
| RuntimeUnavailable
| InvalidConfig (e : ConfigError)
| WrongConnection
| WrongStreamOwner
| InvalidEndpoint
| InvalidRequest
| TeIo (k : ErrorKind)
| Startup (f : Failure)
| TeDependency (d : Dependency) (e : DependencyError)
| Backpressure
| TeClosed.

#[global] Instance Limit_eq_dec : EqDecision Limit.
Proof. solve_decision. Defined.
#[global] Instance ConfigError_eq_dec : EqDecision ConfigError.
Proof. solve_decision. Defined.
#[global] Instance TransportError_eq_dec : EqDecision TransportError.
Proof. solve_decision. Defined.

Definition StreamHandle_authorize (self : StreamHandle) (connection : ConnectionId)
    (owner : StreamOwner) : result TransportError unit :=
  if bool_decide (sh_connection self ≠ connection) then Err WrongConnection else
  if bool_decide (sh_owner self ≠ owner) then Err WrongStreamOwner else
  Ok tt.

(** ** Events *)

Record PeerContext : Type := mkPeerContext {
  pc_connection : ConnectionId;
  pc_role : ConnectionRole;
  pc_local_identity : IdentityId;
  pc_peer_identity : IdentityId;
}.

Inductive Event : Type :=
| IncomingConnection (h : ConnectionHandle)
| Authenticated (context : PeerContext)
| StreamOpened (context : PeerContext) (stream : StreamHandle) (protocol : Protocol)
| Data (stream : StreamHandle) (data : bytes)
| RemoteEnd (stream : StreamHandle)
| StreamClosed (stream : StreamHandle) (outcome : StreamOutcome)
| PingFinished (connection : ConnectionId) (token : bytes) (elapsed : result Failure Duration)
| ConnectionClosed (connection : ConnectionId) (failure : option Failure)
| ListenerClosed (listener : ListenerHandle) (failure : option Failure).

#[global] Instance PeerContext_eq_dec : EqDecision PeerContext.
Proof. solve_decision. Defined.
#[global] Instance Event_eq_dec : EqDecision Event.
Proof. solve_decision. Defined.

(** ** Lemmas *)

Lemma StreamHandle_authorize_Ok h c o u :
  StreamHandle_authorize h c o = Ok u ↔ sh_connection h = c ∧ sh_owner h = o.
Proof.
  destruct u. unfold StreamHandle_authorize. repeat case_bool_decide; split; try done; tauto.
Qed.

Lemma TransportConfig_new_Ok l t c :
  TransportConfig_new l t = Ok c ↔
  c = mkTransportConfig l t ∧ 0 < t ∧ 1 ≤ max_connections l ∧ 1 ≤ streams_per_connection l ∧
  MAX_FRAME_BYTES ≤ outbound_bytes l ∧ MAX_PAYLOAD_BYTES ≤ buffered_bytes_per_stream l.
Proof.
  unfold TransportConfig_new, check_limits. destruct (N.eqb_spec t 0) as [-> | Ht].
  { split; [done |]. intros (_ & ? & _). lia. }
  repeat match goal with
  | |- context [ ?a <? ?b ] => destruct (N.ltb_spec a b) as [? | ?]; cbn
  end; (split; [try done | intros (-> & _ & ? & ? & ? & ?); try done; lia]).
  intros [= <-]. split_and!; [done | lia..].
Qed.
