(* ===== verification/Resources.v ===== *)
(** * Shared admission budgets

    [src/modules/transport/resources.rs]: instance-wide counters behind
    [Arc<Counter>], and reservations behind [Arc<Lease>] whose last drop gives
    the capacity back.  The store holds both kinds of shared objects, with the
    leases' reference counts; a [Reservation] is the name of a lease.  The same
    allocator issues the pointer identities of the capabilities. *)

From S2P Require Import Prelude Bytes Header Api.

#[local] Open Scope N_scope.

Record Counter : Type := mkCounter {
  used : N;
  limit : N;
}.

Record Lease : Type := mkLease {
  lease_counter : N;
  amount : N;
  refs : nat;
}.

Record Store : Type := mkStore {
  counters : gmap N Counter;
  leases : gmap N Lease;
  next : N;
}.

Abbreviation Reservation := N (only parsing).

Record Resources : Type := mkResources {
  limits : ResourceLimits;
  connections_counter : N;
  outbound_counter : N;
}.

(** A fresh allocation: [Arc::new]. *)
Definition alloc (st : Store) : N * Store :=
  (next st, mkStore (counters st) (leases st) (next st + 1)).

Definition Store_empty : Store := mkStore ∅ ∅ 0.

Definition set_counter (c : N) (k : Counter) (st : Store) : Store :=
  mkStore (<[c := k]> (counters st)) (leases st) (next st).

Definition Resources_new (l : ResourceLimits) (st : Store) : Resources * Store :=
  let '(c, st) := alloc st in
  let st := set_counter c (mkCounter 0 (max_connections l)) st in
  let '(o, st) := alloc st in
  let st := set_counter o (mkCounter 0 (outbound_bytes l)) st in
  (mkResources l c o, st).

(** [counter.used.load()]. *)
Definition counter_used (c : N) (st : Store) : N :=
  match counters st !! c with Some k => used k | None => 0 end.
Definition Resources_connections (r : Resources) (st : Store) : N :=
  counter_used (connections_counter r) st.
Definition Resources_outbound_bytes (r : Resources) (st : Store) : N :=
  counter_used (outbound_counter r) st.

(** [reserve]: [fetch_update] with a checked addition filtered by the limit,
    then a fresh lease. *)
Definition reserve (c : N) (amt : N) (st : Store) : option Reservation * Store :=
  match counters st !! c with
  | None => (None, st)
  | Some k =>
    match checked_add u64_limit (used k) amt with
    | None => (None, st)
    | Some next_used =>
      if negb (next_used <=? limit k) then (None, st) else
      let st := set_counter c (mkCounter next_used (limit k)) st in
      let '(r, st) := alloc st in
      (Some r, mkStore (counters st) (<[r := mkLease c amt 1]> (leases st)) (next st))
    end
  end.

Definition Resources_connection (r : Resources) (st : Store) : option Reservation * Store :=
  reserve (connections_counter r) 1 st.
Definition Resources_outbound (r : Resources) (amt : N) (st : Store)
    : option Reservation * Store :=
  reserve (outbound_counter r) amt st.

(** [Reservation::retain]: one more owner of the same lease. *)
Definition retain (r : Reservation) (st : Store) : Store :=
  match leases st !! r with
  | None => st
  | Some l =>
    mkStore (counters st) (<[r := mkLease (lease_counter l) (amount l) (S (refs l))]> (leases st))
      (next st)
  end.

(** [fetch_sub] wraps at the counter's width. *)
Definition wrapping_sub (a b : N) : N := (a + u64_limit - b mod u64_limit) mod u64_limit.

(** Dropping one owner; the last one runs [Drop for Lease]. *)
Definition drop_reservation (r : Reservation) (st : Store) : Store :=
  match leases st !! r with
  | None => st
  | Some l =>
    if decide (refs l ≤ 1)%nat then
      let st := mkStore (counters st) (delete r (leases st)) (next st) in
      match counters st !! lease_counter l with
      | None => st
      | Some k =>
        set_counter (lease_counter l) (mkCounter (wrapping_sub (used k) (amount l)) (limit k)) st
      end
    else
      mkStore (counters st)
        (<[r := mkLease (lease_counter l) (amount l) (pred (refs l))]> (leases st)) (next st)
  end.

(** Dropping an [Option<Reservation>], or every reservation of a collection. *)
Definition drop_option (r : option Reservation) (st : Store) : Store :=
  match r with None => st | Some r => drop_reservation r st end.
Definition drop_all (rs : list Reservation) (st : Store) : Store :=
  foldl (λ st r, drop_reservation r st) st rs.
Definition retain_option (r : option Reservation) (st : Store) : Store :=
  match r with None => st | Some r => retain r st end.

(** ** The accounting invariant *)

(** Capacity held from counter [c] by live leases. *)
Definition held (ls : gmap N Lease) (c : N) : N :=
  map_fold (λ _ l acc, (if decide (lease_counter l = c) then amount l else 0) + acc) 0 ls.

Record store_wf (st : Store) : Prop := {
  wf_used : ∀ c k, counters st !! c = Some k →
    used k = held (leases st) c ∧ used k ≤ limit k ∧ limit k < u64_limit;
  wf_lease : ∀ r l, leases st !! r = Some l →
    (1 ≤ refs l)%nat ∧ is_Some (counters st !! lease_counter l) ∧ r < next st;
  wf_fresh : ∀ c, is_Some (counters st !! c) → c < next st;
}.

(** Number of owners of a lease; zero when it is not live. *)
Definition refs_of (st : Store) (r : Reservation) : nat :=
  match leases st !! r with Some l => refs l | None => 0%nat end.

Section held.

Let f (c : N) := λ (_ : N) (l : Lease) (acc : N),
  (if decide (lease_counter l = c) then amount l else 0) + acc.

Lemma held_insert ls r l c :
  ls !! r = None →
  held (<[r := l]> ls) c =
  (if decide (lease_counter l = c) then amount l else 0) + held ls c.
Proof.
  intros Hr. unfold held. rewrite (map_fold_insert_L (f c)); [done | | done].
  intros j1 j2 z1 z2 y _ _ _. unfold f. lia.
Qed.

Lemma held_delete ls r l c :
  ls !! r = Some l →
  held ls c = (if decide (lease_counter l = c) then amount l else 0) + held (delete r ls) c.
Proof.
  intros Hr. rewrite <- (insert_delete_id ls r l Hr) at 1.
  rewrite <- held_insert with (r := r) by apply lookup_delete_eq. done.
Qed.

Lemma held_replace ls r l l' c :
  ls !! r = Some l → lease_counter l' = lease_counter l → amount l' = amount l →
  held (<[r := l']> ls) c = held ls c.
Proof.
  intros Hr Hc Ha. rewrite <- insert_delete_eq.
  rewrite held_insert by apply lookup_delete_eq.
  rewrite Hc, Ha. symmetry. by apply held_delete.
Qed.
End held.

Lemma held_empty c : held ∅ c = 0.
Proof. apply map_fold_empty. Qed.

Lemma held_none ls c : (∀ r l, ls !! r = Some l → lease_counter l ≠ c) → held ls c = 0.
Proof.
  induction ls as [| r l ls Hr IH] using map_ind; intros H; [apply held_empty |].
  rewrite held_insert by done. rewrite decide_False.
  2:{ apply (H r). apply lookup_insert_eq. }
  apply IH. intros r' l' Hl'. apply (H r'). rewrite lookup_insert_ne by congruence. done.
Qed.

Lemma Store_empty_wf : store_wf Store_empty.
Proof.
  split; cbn.
  - intros c k H. by rewrite lookup_empty in H.
  - intros c k H. by rewrite lookup_empty in H.
  - intros c [k H]. by rewrite lookup_empty in H.
Qed.

Lemma alloc_wf st : store_wf st → store_wf (alloc st).2.
Proof.
  intros [Hu Hl Hf]. split; cbn.
  - done.
  - intros r l H. destruct (Hl r l H) as (? & ? & ?). split_and!; [done | done | lia].
  - intros c H. specialize (Hf c H). lia.
Qed.

Lemma new_counter_wf st c l :
  store_wf st → counters st !! c = None → c < next st → l < u64_limit →
  (∀ r k, leases st !! r = Some k → lease_counter k ≠ c) →
  store_wf (set_counter c (mkCounter 0 l) st).
Proof.
  intros [Hu Hl Hf] Hc Hlt Hlim Hno. split; cbn.
  - intros c' k. rewrite lookup_insert. case_decide as E; [subst c' |]; intros Hk.
    + simplify_eq. cbn. rewrite held_none by done. split_and!; lia.
    + by apply Hu.
  - intros r k H. destruct (Hl r k H) as (? & ? & ?). split_and!; [done | | done].
    rewrite lookup_insert. case_decide; [by eexists | done].
  - intros c'. rewrite lookup_insert. case_decide as E; [by subst c' | apply Hf].
Qed.

Lemma wf_fresh_counter st : store_wf st → counters st !! next st = None.
Proof.
  intros H. destruct (counters st !! next st) eqn:E; [| done].
  assert (next st < next st); [| lia]. apply (wf_fresh _ H). by eexists.
Qed.

Lemma wf_fresh_lease_counter st r k :
  store_wf st → leases st !! r = Some k → lease_counter k < next st.
Proof. intros H Hk. apply (wf_fresh _ H). by destruct (wf_lease _ H r k Hk) as (_ & ? & _). Qed.

Lemma Resources_new_wf l st :
  store_wf st → max_connections l < u64_limit → outbound_bytes l < u64_limit →
  store_wf (Resources_new l st).2.
Proof.
  intros H Hc Ho. unfold Resources_new. cbn [alloc].
  assert (∀ s lim, store_wf s → lim < u64_limit →
    store_wf (set_counter (next s) (mkCounter 0 lim) (alloc s).2)) as Hstep.
  { intros s lim Hs Hlim. apply new_counter_wf; [by apply alloc_wf | | cbn; lia | done |].
    - cbn. by apply wf_fresh_counter.
    - intros r k Hk. pose proof (wf_fresh_lease_counter s r k Hs Hk). lia. }
  apply (Hstep (set_counter (next st) (mkCounter 0 (max_connections l)) (alloc st).2)); [| done].
  by apply Hstep.
Qed.

Lemma reserve_wf c amt st : store_wf st → store_wf (reserve c amt st).2.
Proof.
  intros H. unfold reserve. destruct (counters st !! c) as [k |] eqn:Ek; [| done].
  destruct (checked_add u64_limit (used k) amt) as [nu |] eqn:Ea; [| done].
  apply checked_add_Some in Ea as [-> Ha].
  destruct (N.leb_spec (used k + amt) (limit k)) as [Hle | ?]; [| done]. cbn.
  assert (leases st !! next st = None) as Hfresh.
  { destruct (leases st !! next st) eqn:E; [| done].
    destruct (wf_lease _ H _ _ E) as (_ & _ & ?). lia. }
  destruct H as [Hu Hl Hf]. destruct (Hu c k Ek) as (Eu & _ & Hlim). split; cbn.
  - intros c' k'. rewrite held_insert by done. cbn. rewrite lookup_insert.
    case_decide as E; intros Hk.
    + simplify_eq. cbn. lia.
    + by apply Hu.
  - intros r l. rewrite lookup_insert. case_decide as E; intros Hr.
    + simplify_eq. cbn. split_and!; [lia | | lia]. rewrite lookup_insert_eq. by eexists.
    + destruct (Hl r l Hr) as (? & ? & ?). split_and!; [done | | lia].
      rewrite lookup_insert. case_decide; [by eexists | done].
  - intros c'. rewrite lookup_insert. case_decide as E; intros Hs.
    + subst c'. specialize (Hf c ltac:(by eexists)). lia.
    + specialize (Hf c' Hs). lia.
Qed.

(** Changing only the reference count of a live lease. *)
Lemma rerefs_wf st r l n :
  store_wf st → leases st !! r = Some l → (1 ≤ n)%nat →
  store_wf (mkStore (counters st)
    (<[r := mkLease (lease_counter l) (amount l) n]> (leases st)) (next st)).
Proof.
  intros H Hr Hn. destruct (wf_lease _ H r l Hr) as (_ & Hc & Hlt).
  destruct H as [Hu Hl Hf]. split; cbn.
  - intros c k Hk. erewrite held_replace by done. by apply Hu.
  - intros r' l'. rewrite lookup_insert. case_decide; intros; simplify_eq; cbn; [done | by apply Hl].
  - done.
Qed.

Lemma retain_wf r st : store_wf st → store_wf (retain r st).
Proof.
  intros H. unfold retain. destruct (leases st !! r) as [l |] eqn:E; [| done].
  apply rerefs_wf; [done | done | lia].
Qed.

Lemma wrapping_sub_small a b : b ≤ a → a < u64_limit → wrapping_sub a b = a - b.
Proof.
  intros. unfold wrapping_sub. rewrite (N.mod_small b) by lia.
  replace (a + u64_limit - b) with ((a - b) + 1 * u64_limit) by lia.
  rewrite N.Div0.mod_add. apply N.mod_small. lia.
Qed.

Lemma drop_reservation_wf r st : store_wf st → store_wf (drop_reservation r st).
Proof.
  intros H. unfold drop_reservation. destruct (leases st !! r) as [l |] eqn:E; [| done].
  destruct (wf_lease _ H r l E) as (Hr & [k Hk] & _).
  case_decide as Hrefs; [| apply rerefs_wf; [done | done | lia]].
  cbn. rewrite Hk. destruct H as [Hu Hl Hf]. destruct (Hu _ _ Hk) as (Eu & Hle & Hlim).
  pose proof (held_delete _ _ _ (lease_counter l) E) as Hd. rewrite decide_True in Hd by done.
  rewrite wrapping_sub_small by lia. split; cbn.
  - intros c k'. rewrite lookup_insert. case_decide as Ec; intros Hk'.
    + simplify_eq. cbn. lia.
    + destruct (Hu _ _ Hk') as (-> & ? & ?). split_and!; [| done | done].
      rewrite (held_delete _ _ _ c E), decide_False by done. lia.
  - intros r' l' Hl'. apply lookup_delete_Some in Hl' as [_ Hl'].
    destruct (Hl _ _ Hl') as (? & ? & ?). split_and!; [done | | done].
    rewrite lookup_insert. case_decide; [by eexists | done].
  - intros c. rewrite lookup_insert. case_decide as Ec; intros Hs; [subst c |]; apply Hf; [| done].
    by eexists.
Qed.

Lemma drop_option_wf r st : store_wf st → store_wf (drop_option r st).
Proof. destruct r; [apply drop_reservation_wf | done]. Qed.
Lemma retain_option_wf r st : store_wf st → store_wf (retain_option r st).
Proof. destruct r; [apply retain_wf | done]. Qed.
Lemma drop_all_wf rs st : store_wf st → store_wf (drop_all rs st).
Proof.
  revert st. induction rs as [| r rs IH]; intros st H; [done |].
  cbn. apply IH. by apply drop_reservation_wf.
Qed.

Create HintDb resources discriminated.
#[export] Hint Resolve Store_empty_wf alloc_wf Resources_new_wf reserve_wf retain_wf
  drop_reservation_wf drop_option_wf retain_option_wf drop_all_wf : resources.

(** A well-formed store that has issued at least the ids below [base]. *)
Record store_from (base : N) (st : Store) : Prop := {
  from_wf : store_wf st;
  from_next : base ≤ next st;
}.

Lemma drop_reservation_next r st : next (drop_reservation r st) = next st.
Proof. unfold drop_reservation. by repeat case_match. Qed.
Lemma retain_next r st : next (retain r st) = next st.
Proof. unfold retain. by case_match. Qed.
Lemma reserve_next c amt st : next st ≤ next (reserve c amt st).2.
Proof. unfold reserve, alloc. repeat case_match; cbn; try done; simplify_eq/=; lia. Qed.

Section store_from.
Context (base : N).

Lemma alloc_from st : store_from base st → store_from base (alloc st).2.
Proof. intros [H ?]. split; [by apply alloc_wf | cbn; lia]. Qed.
Lemma reserve_from c amt st : store_from base st → store_from base (reserve c amt st).2.
Proof. intros [H ?]. pose proof (reserve_next c amt st). split; [by apply reserve_wf | lia]. Qed.
Lemma retain_from r st : store_from base st → store_from base (retain r st).
Proof. intros [H ?]. split; [by apply retain_wf | by rewrite retain_next]. Qed.
Lemma drop_reservation_from r st : store_from base st → store_from base (drop_reservation r st).
Proof. intros [H ?]. split; [by apply drop_reservation_wf | by rewrite drop_reservation_next]. Qed.
Lemma drop_all_from rs : ∀ st, store_from base st → store_from base (drop_all rs st).
Proof. induction rs as [| r rs IH]; intros st H; [done |]. by apply IH, drop_reservation_from. Qed.
Lemma Resources_new_from l st :
  store_from base st → max_connections l < u64_limit → outbound_bytes l < u64_limit →
  store_from base (Resources_new l st).2.
Proof. intros [H ?] Hc Ho. split; [by apply Resources_new_wf | cbn; lia]. Qed.
End store_from.

(** ** Reference counts *)

Lemma refs_of_drop r r' st :
  refs_of (drop_reservation r st) r' =
  (refs_of st r' - if decide (r = r') then 1 else 0)%nat.
Proof.
  unfold refs_of, drop_reservation. destruct (leases st !! r) as [l |] eqn:E.
  - case_decide as Hr.
    + assert (∀ s, leases (match counters s !! lease_counter l with
        | Some k => set_counter (lease_counter l)
            (mkCounter (wrapping_sub (used k) (amount l)) (limit k)) s
        | None => s end) = leases s) as -> by (intros s; by case_match).
      cbn. rewrite lookup_delete. case_decide as Hrr; [subst; rewrite E | by case_match; lia]. lia.
    + cbn. rewrite lookup_insert. case_decide as Hrr; [subst; rewrite E; cbn; lia |].
      case_match; lia.
  - case_decide; [subst; rewrite E; lia |]. case_match; lia.
Qed.

Lemma refs_of_retain r r' st :
  (0 < refs_of st r)%nat →
  refs_of (retain r st) r' = (refs_of st r' + if decide (r = r') then 1 else 0)%nat.
Proof.
  unfold refs_of, retain. destruct (leases st !! r) as [l |] eqn:E; [| lia].
  intros _. cbn. rewrite lookup_insert. case_decide; [subst; rewrite E; cbn; lia |].
  case_match; lia.
Qed.

Lemma reserve_None c amt st st' : reserve c amt st = (None, st') → st' = st.
Proof. unfold reserve, alloc. intros H. repeat case_match; simplify_eq; done. Qed.

Lemma reserve_Some c amt st r st' :
  reserve c amt st = (Some r, st') →
  ∃ k, counters st !! c = Some k ∧ used k + amt ≤ limit k ∧
    r = next st ∧ next st' = next st + 1 ∧
    counters st' = <[c := mkCounter (used k + amt) (limit k)]> (counters st) ∧
    leases st' = <[r := mkLease c amt 1]> (leases st).
Proof.
  unfold reserve, alloc. intros H. destruct (counters st !! c) as [k |]; [| done].
  destruct (checked_add u64_limit (used k) amt) as [nu |] eqn:Ea; [| done].
  apply checked_add_Some in Ea as [-> _].
  destruct (N.leb_spec (used k + amt) (limit k)); [| done]. cbn in H. simplify_eq.
  by exists k.
Qed.

Lemma refs_of_fresh st r : store_wf st → next st ≤ r → refs_of st r = 0%nat.
Proof.
  intros H Hr. unfold refs_of. destruct (leases st !! r) as [l |] eqn:E; [| done].
  destruct (wf_lease _ H r l E) as (_ & _ & ?). lia.
Qed.

Lemma refs_of_reserve c amt st r st' r' :
  store_wf st → reserve c amt st = (Some r, st') →
  refs_of st' r' = (refs_of st r' + if decide (r = r') then 1 else 0)%nat.
Proof.
  intros Hwf H. apply reserve_Some in H as (k & _ & _ & Er & _ & _ & El).
  pose proof (refs_of_fresh st (next st) Hwf ltac:(lia)) as Hz.
  unfold refs_of in *. rewrite El, lookup_insert. case_decide as E.
  - rewrite <- E, Er, Hz. done.
  - case_match; lia.
Qed.

(** ** Properties *)

(** The operations other components perform on the shared store. *)
Inductive res_step : Store → Store → Prop :=
| res_new st l :
    max_connections l < u64_limit → outbound_bytes l < u64_limit →
    res_step st (Resources_new l st).2
| res_alloc st : res_step st (alloc st).2
| res_reserve st c amt : res_step st (reserve c amt st).2
| res_retain st r : res_step st (retain r st)
| res_drop st r : res_step st (drop_reservation r st).

Lemma res_step_wf st st' : store_wf st → res_step st st' → store_wf st'.
Proof. intros H Hs. destruct Hs; eauto with resources. Qed.

(** Shared budgets are never oversubscribed and never leak.  After any
    interleaving of instance creations, reservations, clones and drops, the
    usage of every counter is exactly the capacity of its live leases and stays
    within the configured limit; with no live lease left it is zero. *)
Theorem budgets_exact (st : Store) (c : N) (k : Counter) :
  rtc res_step Store_empty st → counters st !! c = Some k →
  used k = held (leases st) c ∧ used k ≤ limit k ∧
  ((∀ r l, leases st !! r = Some l → lease_counter l ≠ c) → used k = 0).
Proof.
  intros Hr Hk. assert (store_wf st) as Hwf.
  { revert Hr. apply (rtc_ind_r (λ s, store_wf s)); [apply Store_empty_wf |].
    intros x y _ Hxy Hx. by eapply res_step_wf. }
  destruct (wf_used _ Hwf _ _ Hk) as (-> & ? & _). split_and!; [done | done |].
  apply held_none.
Qed.

Lemma budgets_exact_witness :
  let l := mkResourceLimits 1 1 100 1 in
  let st := (reserve 1 60 (Resources_new l Store_empty).2).2 in
  counters st !! 1 = Some (mkCounter 60 100) ∧ 60 = held (leases st) 1.
Proof.
  intros l st. split; [vm_compute; reflexivity |].
  refine (proj1 (budgets_exact st 1 (mkCounter 60 100) _ _)); [| vm_compute; reflexivity].
  eapply rtc_l; [apply (res_new _ l); vm_compute; reflexivity |].
  eapply rtc_l; [apply (res_reserve _ 1 60) |]. apply rtc_refl.
Defined.

(** A reservation's capacity returns with its last owner and not before.
    For a lease with [n] owners, dropping fewer than [n] of them leaves every
    counter unchanged; dropping all [n] gives exactly the lease's amount back
    to its counter and removes the lease. *)
Theorem last_drop_releases (st : Store) (r : Reservation) (l : Lease) (k : Counter) :
  store_wf st → leases st !! r = Some l → counters st !! lease_counter l = Some k →
  (∀ m, (m < refs l)%nat → counters (drop_all (replicate m r) st) = counters st) ∧
  let st' := drop_all (replicate (refs l) r) st in
  counters st' = <[lease_counter l := mkCounter (used k - amount l) (limit k)]> (counters st) ∧
  leases st' = delete r (leases st).
Proof.
  intros Hwf. remember (refs l) as n eqn:En. revert st l En Hwf.
  induction n as [| n IH]; intros st l En Hwf Hr Hk.
  { destruct (wf_lease _ Hwf _ _ Hr) as (? & _). lia. }
  destruct (decide (n = 0%nat)) as [-> | Hn].
  - split; [intros [| m]; [done | lia] |]. cbn.
    unfold drop_reservation. rewrite Hr, decide_True by lia. cbn. rewrite Hk. cbn.
    pose proof (held_delete _ _ _ (lease_counter l) Hr) as Hd. rewrite decide_True in Hd by done.
    destruct (wf_used _ Hwf _ _ Hk) as (? & ? & ?). by rewrite wrapping_sub_small by lia.
  - set (st1 := drop_reservation r st).
    assert (st1 = mkStore (counters st)
      (<[r := mkLease (lease_counter l) (amount l) n]> (leases st)) (next st)) as E1.
    { unfold st1, drop_reservation. rewrite Hr, decide_False by lia. by rewrite <- En. }
    destruct (IH st1 (mkLease (lease_counter l) (amount l) n)) as [IH1 IH2]; [done | | | |].
    + unfold st1. by apply drop_reservation_wf.
    + rewrite E1. apply lookup_insert_eq.
    + by rewrite E1.
    + split.
      * intros [| m] Hm; [done |]. cbn [replicate drop_all foldl].
        change (counters (drop_all (replicate m r) st1) = counters st). rewrite IH1 by lia. by rewrite E1.
      * cbn [replicate drop_all foldl]. fold st1.
        change (foldl _ st1 _) with (drop_all (replicate n r) st1).
        cbn in IH2. destruct IH2 as [-> ->]. rewrite E1. cbn. split; [done |].
        apply delete_insert_eq.
Qed.

Lemma last_drop_releases_witness :
  let lim := mkResourceLimits 1 1 100 1 in
  let st := retain 2 (reserve 1 60 (Resources_new lim Store_empty).2).2 in
  counters (drop_all [2; 2] st) =
  <[1 := mkCounter 0 100]> (counters st).
Proof.
  intros lim st.
  destruct (last_drop_releases st 2 (mkLease 1 60 2) (mkCounter 60 100)) as [_ [H _]].
  - unfold st. apply retain_wf, reserve_wf, Resources_new_wf;
      [apply Store_empty_wf | reflexivity | reflexivity].
  - vm_compute. reflexivity.
  - vm_compute. reflexivity.
  - exact H.
Defined.
