(* ===== verification/Framing.v ===== *)
(** * Complete-frame I/O

    [src/modules/transport/framing/{mod,reader,writer}.rs] over the polling
    interface of [ports/io.rs]: wire frames, the incremental reader and the
    single-frame writer. *)

From S2P Require Import Prelude Bytes Header Api Resources.

#[local] Open Scope N_scope.

Inductive FramingError : Type :=
| FrHeader (e : HeaderError)
| FrTruncated
| FrIo (k : ErrorKind)
| FrClosed
| FrPhaseChanged
| FrShape
| FrBusy.

#[global] Instance FramingError_eq_dec : EqDecision FramingError.
Proof. solve_decision. Defined.

Record WireFrame : Type := mkWireFrame {
  reservation : option Reservation;
  header : FrameHeader;
  payload : bytes;
  tag : option bytes;
}.

#[global] Instance WireFrame_eq_dec : EqDecision WireFrame.
Proof. solve_decision. Defined.

Definition WireFrame_new (h : FrameHeader) (p : bytes) (t : option bytes)
    : result FramingError WireFrame :=
  if negb (len p =? payload_len h) then Err FrShape else
  Ok (mkWireFrame None h p t).

Definition with_reservation (r : option Reservation) (f : WireFrame) : WireFrame :=
  mkWireFrame r (header f) (payload f) (tag f).

(** ** The socket port

    [poll_read] writes into a caller-supplied slice, which cannot change its
    length, and reports a byte count of its own. *)
Class Socket (S : Type) : Type := {
  poll_read : S → bytes → Poll (result ErrorKind N) * bytes * S;
  poll_write : S → bytes → Poll (result ErrorKind N) * S;
  socket_close : S → result ErrorKind unit * S;
  poll_read_length : ∀ s buffer, length (poll_read s buffer).1.2 = length buffer;
}.

(** A task context, as the number of wake-ups requested through it. *)
Abbreviation Context := N (only parsing).

(** ** The reader *)

Record FrameReader : Type := mkFrameReader {
  rd_bytes : bytes;
  rd_offset : nat;
  rd_header : option FrameHeader;
  rd_phase : option FrameProtection;
  rd_failed : bool;
  rd_eof : bool;
}.

Definition FrameReader_default : FrameReader := mkFrameReader [] 0 None None false false.

(** [Vec::resize] with zero fill. *)
Definition vec_resize (n : N) (l : bytes) : bytes :=
  take (N.to_nat n) l ++ replicate (N.to_nat n - length l) x00.

Abbreviation ReadResult := (Poll (result FramingError (option WireFrame))) (only parsing).

Definition FrameReader_fail (r : FrameReader) (e : FramingError) : ReadResult * FrameReader :=
  (Ready (Err e),
   mkFrameReader [] (rd_offset r) (rd_header r) (rd_phase r) true (rd_eof r)).

Section reader.
Context {Sk : Type} `{!Socket Sk}.

(** The bounded [for _ in 0..64] loop; the last component is the context. *)
Fixpoint read_loop (fuel : nat) (phase : FrameProtection) (r : FrameReader) (s : Sk)
    (cx : Context) : ReadResult * FrameReader * Sk * Context :=
  match fuel with
  | O => (Pending, r, s, cx + 1)
  | S fuel =>
    if (rd_offset r =? length (rd_bytes r))%nat then
      match rd_header r with
      | Some h =>
        let b := rd_bytes r in
        let '(b, t) :=
          if bool_decide (phase = Tagged)
          then (take (length b - 16) b, Some (drop (length b - 16) b))
          else (b, None) in
        (Ready (Ok (Some (mkWireFrame None h (drop 12 b) t))),
         mkFrameReader [] 0 None None (rd_failed r) (rd_eof r), s, cx)
      | None =>
        match FrameHeader_decode (rd_bytes r) with
        | Err e => (FrameReader_fail r (FrHeader e), s, cx)
        | Ok h =>
          match FrameHeader_frame_len h phase with
          | Err e => (FrameReader_fail r (FrHeader e), s, cx)
          | Ok n =>
            read_loop fuel phase
              (mkFrameReader (vec_resize n (rd_bytes r)) (rd_offset r) (Some h) (rd_phase r)
                 (rd_failed r) (rd_eof r)) s cx
          end
        end
      end
    else
      let remaining := (length (rd_bytes r) - rd_offset r)%nat in
      let '(res, buffer, s) := poll_read s (drop (rd_offset r) (rd_bytes r)) in
      let r := mkFrameReader (take (rd_offset r) (rd_bytes r) ++ buffer) (rd_offset r)
                 (rd_header r) (rd_phase r) (rd_failed r) (rd_eof r) in
      match res with
      | Pending => (Pending, r, s, cx)
      | Ready (Err Interrupted) => read_loop fuel phase r s cx
      | Ready (Err k) => (FrameReader_fail r (FrIo k), s, cx)
      | Ready (Ok count) =>
        if count =? 0 then
          if (rd_offset r =? 0)%nat then
            (Ready (Ok None),
             mkFrameReader [] (rd_offset r) (rd_header r) (rd_phase r) (rd_failed r) true, s, cx)
          else (FrameReader_fail r FrTruncated, s, cx)
        else if count <=? N.of_nat remaining then
          read_loop fuel phase
            (mkFrameReader (rd_bytes r) (rd_offset r + N.to_nat count) (rd_header r) (rd_phase r)
               (rd_failed r) (rd_eof r)) s cx
        else (FrameReader_fail r (FrIo InvalidDataKind), s, cx)
      end
  end.

(** [poll_frame] with the loop's iteration budget as an argument. *)
Definition poll_frame_within (budget : nat) (r : FrameReader) (s : Sk) (cx : Context)
    (phase : FrameProtection) : ReadResult * FrameReader * Sk * Context :=
  if rd_failed r then (Ready (Err FrClosed), r, s, cx) else
  if rd_eof r then (Ready (Ok None), r, s, cx) else
  if match rd_phase r with Some old => bool_decide (old ≠ phase) | None => false end
  then (FrameReader_fail r FrPhaseChanged, s, cx) else
  let r := mkFrameReader
             (if is_empty (rd_bytes r) then vec_resize 12 (rd_bytes r) else rd_bytes r)
             (rd_offset r) (rd_header r) (Some phase) (rd_failed r) (rd_eof r) in
  read_loop budget phase r s cx.

Definition FrameReader_poll_frame := poll_frame_within 64.

End reader.

(** ** The writer *)

Record FrameWriter : Type := mkFrameWriter {
  wr_reservation : option Reservation;
  wr_bytes : bytes;
  wr_offset : nat;
  wr_failed : bool;
}.

Definition FrameWriter_default : FrameWriter := mkFrameWriter None [] 0 false.

Definition FrameWriter_is_busy (w : FrameWriter) : bool := negb (is_empty (wr_bytes w)).

(** The wire form of a frame. *)
Definition frame_bytes (f : WireFrame) : bytes :=
  FrameHeader_encode (header f) ++ payload f ++ match tag f with Some t => t | None => [] end.

(** [start] takes the frame by value: it is dropped when the call returns, and
    the writer keeps a clone of its reservation. *)
Definition FrameWriter_start (f : WireFrame) (phase : FrameProtection)
    (ws : FrameWriter * Store) : result FramingError unit * (FrameWriter * Store) :=
  let '(w, st) := ws in
  if wr_failed w then (Err FrClosed, (w, drop_option (reservation f) st)) else
  if negb (is_empty (wr_bytes w)) then (Err FrBusy, (w, drop_option (reservation f) st)) else
  if negb (Bool.eqb (bool_decide (is_Some (tag f))) (bool_decide (phase = Tagged)))
  then (Err FrShape, (w, drop_option (reservation f) st)) else
  match FrameHeader_frame_len (header f) phase with
  | Err e => (Err (FrHeader e), (w, drop_option (reservation f) st))
  | Ok _ =>
    let st := retain_option (reservation f) st in
    let st := drop_option (wr_reservation w) st in
    let w := mkFrameWriter (reservation f) (frame_bytes f) 0 (wr_failed w) in
    (Ok tt, (w, drop_option (reservation f) st))
  end.

Section writer.
Context {Sk : Type} `{!Socket Sk}.

Fixpoint flush_loop (fuel : nat) (w : FrameWriter) (s : Sk) (st : Store) (cx : Context)
    : Poll (result FramingError unit) * FrameWriter * Sk * Store * Context :=
  let stop w s st k :=
    (Ready (Err (FrIo k)), mkFrameWriter None [] (wr_offset w) true, s,
     drop_option (wr_reservation w) st, cx) in
  match fuel with
  | O => (Pending, w, s, st, cx + 1)
  | S fuel =>
    if (wr_offset w =? length (wr_bytes w))%nat then
      (Ready (Ok tt), mkFrameWriter None [] 0 (wr_failed w), s,
       drop_option (wr_reservation w) st, cx)
    else
      let remaining := (length (wr_bytes w) - wr_offset w)%nat in
      let '(res, s) := poll_write s (drop (wr_offset w) (wr_bytes w)) in
      match res with
      | Pending => (Pending, w, s, st, cx)
      | Ready (Err Interrupted) => flush_loop fuel w s st cx
      | Ready (Err k) => stop w s st k
      | Ready (Ok count) =>
        if count =? 0 then stop w s st WriteZero
        else if count <=? N.of_nat remaining then
          flush_loop fuel
            (mkFrameWriter (wr_reservation w) (wr_bytes w) (wr_offset w + N.to_nat count)
               (wr_failed w)) s st cx
        else stop w s st InvalidDataKind
      end
  end.

Definition poll_flush_within (budget : nat) (w : FrameWriter) (s : Sk) (st : Store)
    (cx : Context) : Poll (result FramingError unit) * FrameWriter * Sk * Store * Context :=
  if wr_failed w then (Ready (Err FrClosed), w, s, st, cx) else
  flush_loop budget w s st cx.

Definition FrameWriter_poll_flush := poll_flush_within 64.

End writer.

(** ** An adversarial byte stream

    A peer and a kernel that deliver a byte stream in any chunks, with any
    number of not-ready and interrupted calls in between, and that accept
    output in any portions. *)
Inductive ReadStep : Type := RBytes (b0 : byte) (l : bytes) | RPending | RInterrupted | REof.
Inductive WriteStep : Type := WAccept (n : N) | WPending | WInterrupted | WError (k : ErrorKind).

Record Script : Type := mkScript {
  reads : list ReadStep;
  writes : list WriteStep;
  written : bytes;
  script_closed : bool;
}.

Definition script_read (s : Script) (buffer : bytes)
    : Poll (result ErrorKind N) * bytes * Script :=
  let next rs := mkScript rs (writes s) (written s) (script_closed s) in
  match reads s with
  | [] => (Pending, buffer, s)
  | RPending :: rs => (Pending, buffer, next rs)
  | RInterrupted :: rs => (Ready (Err Interrupted), buffer, next rs)
  | REof :: _ => (Ready (Ok 0), buffer, s)
  | RBytes b0 l :: rs =>
    let count := Nat.min (length buffer) (S (length l)) in
    (Ready (Ok (N.of_nat count)),
     take count (b0 :: l) ++ drop count buffer,
     next (match drop count (b0 :: l) with [] => rs | b :: l => RBytes b l :: rs end))
  end.

Definition script_write (s : Script) (l : bytes) : Poll (result ErrorKind N) * Script :=
  let next ws out := mkScript (reads s) ws (written s ++ out) (script_closed s) in
  match writes s with
  | [] => (Pending, s)
  | WPending :: ws => (Pending, next ws [])
  | WInterrupted :: ws => (Ready (Err Interrupted), next ws [])
  | WError k :: ws => (Ready (Err k), next ws [])
  | WAccept n :: ws =>
    let count := Nat.min (N.to_nat n) (length l) in
    (Ready (Ok (N.of_nat count)), next ws (take count l))
  end.

Definition script_close (s : Script) : result ErrorKind unit * Script :=
  (Ok tt, mkScript (reads s) (writes s) (written s) true).

#[global] Program Instance Script_socket : Socket Script := {|
  poll_read := script_read;
  poll_write := script_write;
  socket_close := script_close;
|}.
Next Obligation.
  intros s buffer. unfold script_read. destruct (reads s) as [| [] ?]; try done. cbn.
  rewrite length_app, length_take, length_drop. cbn. lia.
Qed.
