(* ===== verification/FramingProps.v ===== *)
(** * Framing properties

    The incremental reader refines a pure parser of the byte stream, for every
    way the stream can be cut into reads; the writer emits exactly a frame's
    bytes, for every way the socket accepts them; and the two compose. *)

From S2P Require Import Prelude Bytes Header Api Resources Framing.

#[local] Open Scope nat_scope.

(** ** The reference parser *)

Inductive parse_result : Type :=
| PFrame (f : WireFrame) (rest : bytes)
| PBad (e : HeaderError)
| PMore.

(** Size on the wire of a frame with header [h]. *)
Definition wire_size (h : FrameHeader) (phase : FrameProtection) : nat :=
  N.to_nat (HEADER_BYTES + payload_len h + tag_len phase).

Definition parse_frame (phase : FrameProtection) (data : bytes) : parse_result :=
  if length data <? 12 then PMore else
  match FrameHeader_decode (take 12 data) with
  | Err e => PBad e
  | Ok h =>
    let body := 12 + N.to_nat (payload_len h) in
    let n := wire_size h phase in
    if length data <? n then PMore else
    PFrame (mkWireFrame None h (slice 12 body data)
              (match phase with Tagged => Some (slice body n data) | Untagged => None end))
           (drop n data)
  end.

(** The bytes a script will still deliver, and a bound on the calls it takes. *)
Fixpoint stream (rs : list ReadStep) : bytes :=
  match rs with
  | [] => []
  | RBytes b l :: rs => b :: l ++ stream rs
  | RPending :: rs | RInterrupted :: rs => stream rs
  | REof :: _ => []
  end.
Fixpoint read_cost (rs : list ReadStep) : nat :=
  match rs with
  | [] => 0
  | RBytes _ l :: rs => 2 + length l + read_cost rs
  | _ :: rs => 1 + read_cost rs
  end.

(** Poll until the reader is ready, at most [n] times. *)
Fixpoint poll_reader (n : nat) (phase : FrameProtection) (r : FrameReader) (s : Script)
    (cx : Context) : ReadResult * FrameReader * Script * Context :=
  match n with
  | O => (Pending, r, s, cx)
  | S n =>
    match FrameReader_poll_frame r s cx phase with
    | (Pending, r, s, cx) => poll_reader n phase r s cx
    | done => done
    end
  end.

(** What a ready poll must have produced for the stream [data]. *)
Definition outcome (phase : FrameProtection) (data : bytes)
    (x : result FramingError (option WireFrame)) (r : FrameReader) (s : Script) : Prop :=
  match parse_frame phase data with
  | PFrame f rest =>
    x = Ok (Some f) ∧ r = FrameReader_default ∧ stream (reads s) = rest ∧ REof ∈ reads s
  | PBad e => x = Err (FrHeader e) ∧ rd_failed r = true
  | PMore =>
    match data with
    | [] => x = Ok None ∧ rd_eof r = true
    | _ => x = Err FrTruncated ∧ rd_failed r = true
    end
  end.

(** ** The reader's invariant *)

Record reading (phase : FrameProtection) (data : bytes) (r : FrameReader) (s : Script) : Prop := {
  rg_failed : rd_failed r = false;
  rg_eof : rd_eof r = false;
  rg_phase : rd_phase r = Some phase;
  rg_offset : rd_offset r ≤ length (rd_bytes r);
  rg_data : take (rd_offset r) (rd_bytes r) ++ stream (reads s) = data;
  rg_more : REof ∈ reads s;
  rg_shape :
    match rd_header r with
    | None => length (rd_bytes r) = 12
    | Some h =>
      12 ≤ rd_offset r ∧ FrameHeader_decode (take 12 (rd_bytes r)) = Ok h ∧
      length (rd_bytes r) = wire_size h phase
    end;
}.

Definition reading_cost (r : FrameReader) (s : Script) : nat :=
  read_cost (reads s) + match rd_header r with None => 1 | Some _ => 0 end.

Lemma wire_size_ge h phase : wire_size h phase = 12 + N.to_nat (payload_len h) + N.to_nat (tag_len phase).
Proof. unfold wire_size, HEADER_BYTES. lia. Qed.

Lemma parse_frame_short phase data : length data < 12 → parse_frame phase data = PMore.
Proof. intros H. unfold parse_frame. by rewrite (proj2 (Nat.ltb_lt _ _) H). Qed.

Lemma parse_frame_body phase h bs rest :
  12 ≤ length bs → FrameHeader_decode (take 12 bs) = Ok h →
  parse_frame phase (bs ++ rest) =
    if length (bs ++ rest) <? wire_size h phase then PMore else
    PFrame (mkWireFrame None h (slice 12 (12 + N.to_nat (payload_len h)) (bs ++ rest))
      (match phase with
       | Tagged => Some (slice (12 + N.to_nat (payload_len h)) (wire_size h phase) (bs ++ rest))
       | Untagged => None end))
      (drop (wire_size h phase) (bs ++ rest)).
Proof.
  intros Hl Hd. unfold parse_frame. rewrite take_app_le by done. rewrite Hd.
  destruct (Nat.ltb_spec (length (bs ++ rest)) 12) as [Hlt | _]; [| done].
  rewrite length_app in Hlt. lia.
Qed.

Lemma vec_resize_grow n l :
  length l ≤ N.to_nat n → vec_resize n l = l ++ replicate (N.to_nat n - length l) x00.
Proof. intros H. unfold vec_resize. by rewrite take_ge. Qed.

(** A completed body: the frame the reader builds is the parser's. *)
Lemma body_complete phase data r s h :
  reading phase data r s → rd_header r = Some h → rd_offset r = length (rd_bytes r) →
  outcome phase data
    (Ok (Some (
      let '(b, t) := if bool_decide (phase = Tagged)
        then (take (length (rd_bytes r) - 16) (rd_bytes r),
              Some (drop (length (rd_bytes r) - 16) (rd_bytes r)))
        else (rd_bytes r, None) in
      mkWireFrame None h (drop 12 b) t)))
    (mkFrameReader [] 0 None None (rd_failed r) (rd_eof r)) s.
Proof.
  intros H Hh Ho. destruct H as [Hf He Hp Hoff Hdata Hmore Hshape]. rewrite Hh in Hshape.
  destruct Hshape as (H12 & Hdec & Hlen). rewrite Ho, take_ge in Hdata by done. subst data.
  unfold outcome. rewrite (parse_frame_body phase h) by (done || lia).
  destruct (Nat.ltb_spec (length (rd_bytes r ++ stream (reads s))) (wire_size h phase)) as [Hlt | _].
  { rewrite length_app in Hlt. lia. }
  rewrite Hf, He. pose proof (wire_size_ge h phase) as Hw. split_and!; [| done | | done].
  - do 2 f_equal. unfold slice. rewrite drop_app_le by lia. rewrite take_app_le by (rewrite length_drop; lia).
    destruct phase.
    + rewrite bool_decide_eq_false_2 by done. change (N.to_nat (tag_len Untagged)) with 0 in Hw.
      f_equal. symmetry. apply take_ge. rewrite length_drop. lia.
    + rewrite bool_decide_eq_true_2 by done. change (N.to_nat (tag_len Tagged)) with 16 in Hw.
      f_equal.
      * rewrite take_drop_commute. do 2 f_equal. lia.
      * f_equal. rewrite drop_app_le by lia. rewrite take_app_le by (rewrite length_drop; lia).
        rewrite take_ge by (rewrite length_drop; lia). f_equal. lia.
  - rewrite drop_app_length' by lia. done.
Qed.

(** A complete header: either it is rejected as the parser does, or reading goes on. *)
Lemma header_complete phase data r s :
  reading phase data r s → rd_header r = None → rd_offset r = length (rd_bytes r) →
  match FrameHeader_decode (rd_bytes r) with
  | Err e => parse_frame phase data = PBad e
  | Ok h =>
    ∃ n, FrameHeader_frame_len h phase = Ok n ∧
      reading phase data (mkFrameReader (vec_resize n (rd_bytes r)) (rd_offset r) (Some h)
        (rd_phase r) (rd_failed r) (rd_eof r)) s
  end.
Proof.
  intros H Hh Ho. destruct H as [Hf He Hp Hoff Hdata Hmore Hshape]. rewrite Hh in Hshape.
  rewrite Ho, take_ge in Hdata by done. subst data.
  destruct (FrameHeader_decode (rd_bytes r)) as [h | e] eqn:Hd.
  - pose proof (FrameHeader_decode_Ok _ _ Hd) as [Hwf _].
    eexists. split; [by apply FrameHeader_frame_len_wf |].
    pose proof (wire_size_ge h phase) as Hw. unfold wire_size in Hw.
    rewrite vec_resize_grow by lia. split; cbn; try done.
    + rewrite length_app. lia.
    + rewrite Ho, take_app_length. done.
    + split_and!; [lia | | rewrite length_app, length_replicate; unfold wire_size; lia].
      by rewrite take_app_length' by lia.
  - unfold parse_frame. rewrite take_app_length' by lia. rewrite Hd.
    destruct (Nat.ltb_spec (length (rd_bytes r ++ stream (reads s))) 12) as [Hlt | _]; [| done].
    rewrite length_app in Hlt. lia.
Qed.

(** End of stream inside a frame. *)
Lemma eof_outcome phase data r s :
  reading phase data r s → rd_offset r < length (rd_bytes r) → stream (reads s) = [] →
  parse_frame phase data = PMore ∧ (rd_offset r = 0 ↔ data = []).
Proof.
  intros [Hf He Hp Hoff Hdata Hmore Hshape] Hlt Hs. rewrite Hs, app_nil_r in Hdata.
  assert (length data = rd_offset r) as Hl by (subst data; rewrite length_take; lia).
  split.
  - destruct (rd_header r) as [h |].
    + destruct Hshape as (H12 & Hdec & Hlen).
      rewrite <- (app_nil_r data), (parse_frame_body phase h); [| lia |].
      * rewrite app_nil_r. destruct (Nat.ltb_spec (length data) (wire_size h phase)); [done | lia].
      * subst data. rewrite take_take. by rewrite Nat.min_l by lia.
    + apply parse_frame_short. lia.
  - rewrite <- Hl. split; [apply nil_length_inv | by intros ->].
Qed.

(** Storing [count] bytes of a chunk at the offset. *)
Lemma take_stored (pre buf chunk : bytes) (off count : nat) :
  off ≤ length pre → count ≤ length chunk →
  take (off + count) (take off pre ++ take count chunk ++ buf) = take off pre ++ take count chunk.
Proof.
  intros H1 H2. rewrite app_assoc. apply take_app_length'.
  rewrite length_app, !length_take. lia.
Qed.

(** A call that transfers nothing leaves the reader where it was. *)
Lemma reading_idle step phase data r s rs :
  step = RPending ∨ step = RInterrupted →
  reading phase data r s → reads s = step :: rs →
  reading phase data
    (mkFrameReader (take (rd_offset r) (rd_bytes r) ++ drop (rd_offset r) (rd_bytes r))
       (rd_offset r) (rd_header r) (rd_phase r) (rd_failed r) (rd_eof r))
    (mkScript rs (writes s) (written s) (script_closed s)) ∧
  read_cost rs < read_cost (step :: rs).
Proof.
  intros Hstep [Hf He Hp Hoff Hdata Hmore Hshape] Ers. rewrite take_drop. rewrite Ers in *.
  split; [| destruct Hstep as [-> | ->]; cbn; lia].
  split; cbn; try done.
  - by destruct Hstep as [-> | ->].
  - apply elem_of_cons in Hmore as [E | ?]; [| done]. by destruct Hstep as [-> | ->].
Qed.

Lemma reading_step phase data r s res buffer s' :
  reading phase data r s → rd_offset r < length (rd_bytes r) →
  script_read s (drop (rd_offset r) (rd_bytes r)) = (res, buffer, s') →
  let r' off := mkFrameReader (take (rd_offset r) (rd_bytes r) ++ buffer) off (rd_header r)
    (rd_phase r) (rd_failed r) (rd_eof r) in
  match res with
  | Pending | Ready (Err Interrupted) =>
    reading phase data (r' (rd_offset r)) s' ∧ read_cost (reads s') < read_cost (reads s)
  | Ready (Err _) => False
  | Ready (Ok count) =>
    if (count =? 0)%N then stream (reads s) = [] else
    (count <= N.of_nat (length (rd_bytes r) - rd_offset r))%N ∧
    reading phase data (r' (rd_offset r + N.to_nat count)) s' ∧
    read_cost (reads s') < read_cost (reads s)
  end.
Proof.
  intros H Hlt Hs. pose proof H as [Hf He Hp Hoff Hdata Hmore Hshape].
  unfold script_read in Hs. destruct (reads s) as [| [b0 l | | |] rs] eqn:Ers.
  - by apply not_elem_of_nil in Hmore.
  - set (count := Nat.min (length (drop (rd_offset r) (rd_bytes r))) (S (length l))) in *.
    simplify_eq. cbv zeta.
    assert (1 ≤ count ≤ length (rd_bytes r) - rd_offset r ∧ count ≤ S (length l)) as (Hc1 & Hc2).
    { unfold count. rewrite length_drop. lia. }
    destruct (N.eqb_spec (N.of_nat count) 0) as [? | _]; [lia |]. rewrite Nat2N.id.
    split; [lia |].
    assert (stream (reads s) = take count (b0 :: l) ++ drop count (b0 :: l) ++ stream rs) as Hst.
    { rewrite Ers, app_assoc, take_drop. done. }
    apply list_elem_of_In in Hmore. destruct Hmore as [? | Hmore]; [done |].
    apply list_elem_of_In in Hmore. cbn [reads]. split.
    + split; cbn [rd_failed rd_eof rd_phase rd_offset rd_bytes rd_header reads]; try done.
      * rewrite !length_app, !length_take, length_drop, length_drop. cbn [length]. lia.
      * rewrite take_stored by (cbn; lia). rewrite Ers in Hst. rewrite <- app_assoc, Hst. do 2 f_equal.
        by destruct (drop count (b0 :: l)).
      * destruct (drop count (b0 :: l)); [done | by apply list_elem_of_further].
      * destruct (rd_header r) as [h |].
        -- destruct Hshape as (H12 & Hdec & Hlen). split_and!; [lia | |].
           ++ rewrite take_app_le by (rewrite length_take; lia).
              rewrite take_take, Nat.min_l by lia. done.
           ++ rewrite !length_app, !length_take, !length_drop. cbn [length]. lia.
        -- rewrite !length_app, !length_take, !length_drop. cbn [length]. lia.
    + pose proof (length_drop (b0 :: l) count) as Hld. cbn [length] in Hld.
      destruct (drop count (b0 :: l)); cbn [read_cost length] in *; lia.
  - simplify_eq. by apply (reading_idle RPending); auto.
  - simplify_eq. by apply (reading_idle RInterrupted); auto.
  - simplify_eq. done.
Qed.

(** ** The loop refines the parser *)

Definition loop_post (phase : FrameProtection) (data : bytes) (cost fuel : nat)
    (res : ReadResult) (r : FrameReader) (s : Script) : Prop :=
  match res with
  | Pending =>
    reading phase data r s ∧ reading_cost r s ≤ cost ∧ (0 < fuel → reading_cost r s < cost)
  | Ready x => outcome phase data x r s
  end.

Lemma read_loop_refines phase data fuel r s cx res r' s' cx' :
  reading phase data r s → read_loop fuel phase r s cx = (res, r', s', cx') →
  loop_post phase data (reading_cost r s) fuel res r' s'.
Proof.
  revert r s cx. induction fuel as [| fuel IH]; intros r s cx H Hl; cbn [read_loop] in Hl.
  { simplify_eq. split_and!; [done | lia | lia]. }
  destruct (Nat.eqb_spec (rd_offset r) (length (rd_bytes r))) as [Ho | Ho].
  - destruct (rd_header r) as [h |] eqn:Hh.
    + pose proof (body_complete phase data r s h H Hh Ho) as Hb.
      destruct (bool_decide (phase = Tagged)); simplify_eq; exact Hb.
    + pose proof (header_complete phase data r s H Hh Ho) as Hc.
      destruct (FrameHeader_decode (rd_bytes r)) as [h | e].
      * destruct Hc as (n & Hn & Hc). rewrite Hn in Hl. specialize (IH _ _ _ Hc Hl).
        destruct res; [done |]. destruct IH as (? & Hle & ?). unfold loop_post, reading_cost in *.
        rewrite Hh. cbn [rd_header] in Hle. split_and!; [done | lia | lia].
      * unfold FrameReader_fail in Hl. simplify_eq. unfold loop_post, outcome. by rewrite Hc.
  - assert (rd_offset r < length (rd_bytes r)) as Hlt by (pose proof (rg_offset _ _ _ _ H); lia).
    cbn [poll_read Script_socket] in Hl.
    destruct (script_read s (drop (rd_offset r) (rd_bytes r))) as [[rres buffer] s1] eqn:Hr.
    pose proof (reading_step phase data r s rres buffer s1 H Hlt Hr) as Hstep. cbv zeta in Hstep.
    assert (∀ off rr, rr = mkFrameReader (take (rd_offset r) (rd_bytes r) ++ buffer) off
      (rd_header r) (rd_phase r) (rd_failed r) (rd_eof r) →
      reading phase data rr s1 → read_cost (reads s1) < read_cost (reads s) →
      read_loop fuel phase rr s1 cx = (res, r', s', cx') →
      loop_post phase data (reading_cost r s) (S fuel) res r' s') as Hgo.
    { intros off rr -> Hrd Hc Hl'. specialize (IH _ _ _ Hrd Hl').
      destruct res; [done |]. destruct IH as (? & Hle & ?). unfold loop_post, reading_cost in *.
      cbn [rd_header] in Hle. split_and!; [done | lia | lia]. }
    destruct rres as [[count | k] |].
    + destruct (N.eqb_spec count 0) as [-> | Hcount].
      * cbn [rd_offset] in Hl. destruct (eof_outcome _ _ _ _ H Hlt Hstep) as [Hpm Hz].
        destruct (Nat.eqb_spec (rd_offset r) 0) as [Hzero | Hnz];
          unfold FrameReader_fail in Hl; simplify_eq; unfold loop_post, outcome; rewrite Hpm.
        -- by rewrite (proj1 Hz Hzero).
        -- destruct data; [| done]. by destruct Hnz; apply Hz.
      * destruct Hstep as (Hle & Hrd & Hc).
        rewrite (proj2 (N.leb_le _ _) Hle) in Hl. by eapply Hgo.
    + destruct k; try done. destruct Hstep as (Hrd & Hc). by eapply Hgo.
    + simplify_eq. destruct Hstep as (Hrd & Hc). unfold loop_post, reading_cost. cbn [rd_header].
      split_and!; [done | lia | lia].
Qed.

(** ** Whole polls *)

(** A reader at a frame boundary, or in the middle of a frame. *)
Definition in_progress (phase : FrameProtection) (data : bytes) (r : FrameReader) (s : Script)
    : Prop :=
  reading phase data r s ∨
  (r = FrameReader_default ∧ stream (reads s) = data ∧ REof ∈ reads s).

Lemma poll_frame_refines budget phase data r s cx res r' s' cx' :
  in_progress phase data r s →
  poll_frame_within budget r s cx phase = (res, r', s', cx') →
  loop_post phase data (reading_cost r s) budget res r' s'.
Proof.
  intros Hin Hp.
  assert (∃ r0, reading phase data r0 s ∧ read_loop budget phase r0 s cx = (res, r', s', cx') ∧
            reading_cost r0 s ≤ reading_cost r s) as (r0 & Hr & Hl & Hc).
  { unfold poll_frame_within in Hp. destruct Hin as [H | (-> & Hd & Hm)].
    - pose proof H as [Hf He Hph Hoff Hdata Hmore Hshape]. rewrite Hf, He, Hph in Hp.
      rewrite bool_decide_eq_false_2 in Hp by tauto.
      assert (is_empty (rd_bytes r) = false) as Hne.
      { destruct (rd_bytes r) eqn:E; [| done]. exfalso. clear Hp. cbn in Hoff, Hshape.
        destruct (rd_header r); [| done]. lia. }
      rewrite Hne in Hp. exists r. split; [done |].
      split; [| done].
      rewrite <- Hp. f_equal. clear Hp. destruct r. cbn in *. by subst.
    - cbn [rd_failed rd_eof rd_phase rd_bytes is_empty FrameReader_default] in Hp.
      eexists. split; [| split; [exact Hp | unfold reading_cost; cbn; lia]].
      split; cbn; try done. lia. }
  pose proof (read_loop_refines _ _ _ _ _ _ _ _ _ _ Hr Hl) as Hpost.
  unfold loop_post in *. destruct res; [done |]. destruct Hpost as (? & ? & ?).
  split_and!; [done | lia | lia].
Qed.

Lemma poll_reader_refines n phase data r s cx :
  in_progress phase data r s → reading_cost r s < n →
  ∃ x r' s' cx', poll_reader n phase r s cx = (Ready x, r', s', cx') ∧
    outcome phase data x r' s'.
Proof.
  revert r s cx. induction n as [| n IH]; intros r s cx H Hn; [lia |]. cbn [poll_reader].
  destruct (FrameReader_poll_frame r s cx phase) as [[[res r1] s1] cx1] eqn:Hp.
  pose proof (poll_frame_refines 64 _ _ _ _ _ _ _ _ _ H Hp) as Hpost.
  destruct res as [x |]; [by eauto 10 |].
  destruct Hpost as (Hr & _ & Hlt). specialize (Hlt ltac:(lia)). apply IH; [by left | lia].
Qed.

(** C25: fragmentation never changes what is read.  However a byte stream ending
    in EOF is cut into reads, and however many not-ready or interrupted calls
    come in between, polling the reader finitely often (a bound computable from
    the schedule) produces exactly the outcome of parsing the whole stream at
    once: the first frame with the rest of the stream untouched, the header
    error, EOF at a boundary, or truncation; the reader is then fresh, at EOF,
    or permanently failed. *)
Theorem reader_refines_parser (phase : FrameProtection) (s : Script) (cx : Context) (n : nat) :
  REof ∈ reads s → read_cost (reads s) + 1 < n →
  ∃ x r' s' cx', poll_reader n phase FrameReader_default s cx = (Ready x, r', s', cx') ∧
    outcome phase (stream (reads s)) x r' s'.
Proof. intros He Hn. apply poll_reader_refines; [right |]; done. Qed.

Lemma reader_refines_parser_witness :
  ∃ x r' s' cx', poll_reader 40 Untagged FrameReader_default
    (mkScript [RBytes x01 [x12; x00]; RPending; RBytes x00 [x00; x00; x00; x01; x00];
               RInterrupted; RBytes x00 [x00; x00]; REof] [] [] false) 0%N
    = (Ready x, r', s', cx') ∧
    outcome Untagged [x01; x12; x00; x00; x00; x00; x00; x01; x00; x00; x00; x00] x r' s'.
Proof.
  apply (reader_refines_parser Untagged
    (mkScript [RBytes x01 [x12; x00]; RPending; RBytes x00 [x00; x00; x00; x01; x00];
               RInterrupted; RBytes x00 [x00; x00]; REof] [] [] false)).
  - cbn. repeat first [apply list_elem_of_here | apply list_elem_of_further].
  - cbn. lia.
Defined.

(** ** Sequences of frames *)

(** A frame the writer accepts in [phase] and the reader can return. *)
Record frame_ok (phase : FrameProtection) (f : WireFrame) : Prop := {
  fo_header : header_wf (header f);
  fo_payload : len (payload f) = payload_len (header f);
  fo_tag :
    match phase with
    | Tagged => ∃ t, tag f = Some t ∧ length t = 16
    | Untagged => tag f = None
    end;
}.

Lemma frame_bytes_length phase f :
  frame_ok phase f → length (frame_bytes f) = wire_size (header f) phase.
Proof.
  intros [_ Hp Ht]. unfold frame_bytes. rewrite !length_app, FrameHeader_encode_length.
  rewrite wire_size_ge. unfold len in Hp. destruct phase.
  - rewrite Ht. cbn. lia.
  - destruct Ht as (t & -> & Hl). change (N.to_nat (tag_len Tagged)) with 16. lia.
Qed.

Lemma parse_frame_bytes phase f rest :
  frame_ok phase f → parse_frame phase (frame_bytes f ++ rest) = PFrame (with_reservation None f) rest.
Proof.
  intros Hok. pose proof (frame_bytes_length _ _ Hok) as Hlen.
  pose proof Hok as [Hwf Hp Ht]. pose proof (wire_size_ge (header f) phase) as Hw.
  assert (take 12 (frame_bytes f) = FrameHeader_encode (header f)) as Htake.
  { unfold frame_bytes. apply take_app_length'. by rewrite FrameHeader_encode_length. }
  rewrite (parse_frame_body phase (header f)).
  2: lia.
  2:{ rewrite Htake. by apply FrameHeader_decode_encode. }
  destruct (Nat.ltb_spec (length (frame_bytes f ++ rest)) (wire_size (header f) phase)) as [Hlt | _].
  { rewrite length_app in Hlt. lia. }
  rewrite drop_app_length' by done. f_equal. unfold with_reservation.
  assert (N.to_nat (payload_len (header f)) = length (payload f)) as Hpl.
  { unfold len in Hp. lia. }
  assert (drop 12 (frame_bytes f) =
    payload f ++ match tag f with Some t => t | None => [] end) as Hd12.
  { unfold frame_bytes. apply drop_app_length'. by rewrite FrameHeader_encode_length. }
  f_equal.
  - unfold slice. rewrite drop_app_le, Hd12, Hpl by lia. rewrite <- app_assoc.
    apply take_app_length'. lia.
  - destruct phase; [done |]. destruct Ht as (t & Et & Hl). rewrite Et in *. f_equal.
    unfold slice. rewrite Hpl, <- drop_drop, drop_app_le, Hd12 by lia.
    rewrite <- app_assoc, drop_app_length. apply take_app_length'.
    change (N.to_nat (tag_len Tagged)) with 16 in Hw. lia.
Qed.

(** Read [k] frames one after the other, with [n] polls for each. *)
Fixpoint read_frames (k n : nat) (phase : FrameProtection) (r : FrameReader) (s : Script)
    (cx : Context) : list (result FramingError (option WireFrame)) :=
  match k with
  | O => []
  | S k =>
    match poll_reader n phase r s cx with
    | (Ready x, r, s, cx) => x :: read_frames k n phase r s cx
    | (Pending, _, _, _) => []
    end
  end.

(** Reading never makes the remaining schedule longer. *)
Lemma script_read_cost s buffer res buffer' s' :
  script_read s buffer = (res, buffer', s') → read_cost (reads s') ≤ read_cost (reads s).
Proof.
  unfold script_read. destruct (reads s) as [| [b0 l | | |] rs] eqn:E; intros [= <- <- <-];
    cbn [reads read_cost]; rewrite ?E; cbn [read_cost]; try lia.
  set (count := Nat.min _ _).
  pose proof (length_drop (b0 :: l) count) as Hld. cbn [length] in Hld.
  destruct (drop count (b0 :: l)); cbn [read_cost length] in *; lia.
Qed.

Lemma read_loop_cost fuel phase r s cx res r' s' cx' :
  read_loop fuel phase r s cx = (res, r', s', cx') → read_cost (reads s') ≤ read_cost (reads s).
Proof.
  revert r s cx. induction fuel as [| fuel IH]; intros r s cx Hl; cbn [read_loop] in Hl.
  { by simplify_eq. }
  case_match.
  - unfold FrameReader_fail in Hl.
    repeat case_match; simplify_eq; try lia; by eapply IH.
  - cbn [poll_read Script_socket] in Hl.
    destruct (script_read s (drop (rd_offset r) (rd_bytes r))) as [[rres buffer] s1] eqn:Hr.
    apply script_read_cost in Hr. unfold FrameReader_fail in Hl.
    repeat case_match; simplify_eq; try lia; (etransitivity; [by eapply IH | done]).
Qed.

Lemma poll_frame_cost budget phase r s cx res r' s' cx' :
  poll_frame_within budget r s cx phase = (res, r', s', cx') →
  read_cost (reads s') ≤ read_cost (reads s).
Proof.
  unfold poll_frame_within, FrameReader_fail. intros H.
  destruct (rd_failed r); [by simplify_eq |]. destruct (rd_eof r); [by simplify_eq |].
  case_match; [by simplify_eq |]. by eapply read_loop_cost.
Qed.

Lemma poll_reader_cost n phase r s cx res r' s' cx' :
  poll_reader n phase r s cx = (res, r', s', cx') → read_cost (reads s') ≤ read_cost (reads s).
Proof.
  revert r s cx. induction n as [| n IH]; intros r s cx H; cbn [poll_reader] in H.
  { by simplify_eq. }
  destruct (FrameReader_poll_frame r s cx phase) as [[[res1 r1] s1] cx1] eqn:Hp.
  pose proof (poll_frame_cost 64 _ _ _ _ _ _ _ _ Hp) as Hc.
  destruct res1; simplify_eq; [done |]. etransitivity; [by eapply IH | done].
Qed.

Lemma read_frames_exact n phase fs s cx :
  Forall (frame_ok phase) fs → REof ∈ reads s → stream (reads s) = concat (map frame_bytes fs) →
  read_cost (reads s) + 1 < n →
  read_frames (S (length fs)) n phase FrameReader_default s cx =
  map (λ f, Ok (Some (with_reservation None f))) fs ++ [Ok None].
Proof.
  revert s cx. induction fs as [| f fs IH]; intros s cx Hok He Hs Hn.
  - cbn [length read_frames map app].
    destruct (poll_reader_refines n phase [] FrameReader_default s cx) as (x & r' & s' & cx' & -> & Ho).
    { right. done. } { unfold reading_cost. cbn. lia. }
    unfold outcome in Ho. rewrite parse_frame_short in Ho by (cbn; lia).
    by destruct Ho as [-> _].
  - apply Forall_cons in Hok as [Hf Hok]. cbn [map concat] in Hs.
    cbn [length read_frames map app].
    destruct (poll_reader_refines n phase (frame_bytes f ++ concat (map frame_bytes fs))
      FrameReader_default s cx) as (x & r' & s' & cx' & Hp & Ho).
    { right. done. } { unfold reading_cost. cbn. lia. }
    rewrite Hp. unfold outcome in Ho. rewrite parse_frame_bytes in Ho by done.
    destruct Ho as (-> & -> & Hs' & He'). f_equal. apply poll_reader_cost in Hp.
    apply IH; [done | done | done | lia].
Qed.

(** ** The writer *)

(** A schedule that keeps accepting, and how many bytes it accepts at least. *)
Definition good_write (w : WriteStep) : Prop :=
  match w with WAccept n => (0 < n)%N | WPending | WInterrupted => True | WError _ => False end.
Fixpoint write_capacity (ws : list WriteStep) : nat :=
  match ws with
  | [] => 0
  | WAccept _ :: ws => S (write_capacity ws)
  | _ :: ws => write_capacity ws
  end.

(** Poll until the writer is ready, at most [n] times. *)
Fixpoint poll_writer (n : nat) (w : FrameWriter) (s : Script) (st : Store) (cx : Context)
    : Poll (result FramingError unit) * FrameWriter * Script * Store * Context :=
  match n with
  | O => (Pending, w, s, st, cx)
  | S n =>
    match FrameWriter_poll_flush w s st cx with
    | (Pending, w, s, st, cx) => poll_writer n w s st cx
    | done => done
    end
  end.

(** Output so far is [base] followed by the first [wr_offset] bytes of the frame. *)
Record writing (base wire : bytes) (r : option Reservation) (w : FrameWriter) (s : Script)
    : Prop := {
  wg_failed : wr_failed w = false;
  wg_bytes : wr_bytes w = wire;
  wg_offset : wr_offset w ≤ length wire;
  wg_reservation : wr_reservation w = r;
  wg_written : written s = base ++ take (wr_offset w) wire;
}.

Definition flush_post (base wire : bytes) (r : option Reservation) (spare cost fuel : nat)
    (st0 : Store) (res : Poll (result FramingError unit)) (w : FrameWriter) (s : Script)
    (st : Store) : Prop :=
  Forall good_write (writes s) ∧ length (writes s) ≤ cost ∧
  match res with
  | Ready (Ok tt) =>
    w = FrameWriter_default ∧ written s = base ++ wire ∧ st = drop_option r st0 ∧
    spare ≤ write_capacity (writes s)
  | Ready (Err _) => False
  | Pending =>
    writing base wire r w s ∧ st = st0 ∧
    length wire - wr_offset w + spare ≤ write_capacity (writes s) ∧
    (0 < fuel → length (writes s) < cost)
  end.

Lemma flush_loop_spec base wire r spare fuel w s st cx res w' s' st' cx' :
  writing base wire r w s → Forall good_write (writes s) →
  length wire - wr_offset w + spare ≤ write_capacity (writes s) →
  flush_loop fuel w s st cx = (res, w', s', st', cx') →
  flush_post base wire r spare (length (writes s)) fuel st res w' s' st'.
Proof.
  revert w s. induction fuel as [| fuel IH]; intros w s Hw Hg Hcap Hl; cbn [flush_loop] in Hl.
  { simplify_eq. unfold flush_post. split_and!; done || lia. }
  pose proof Hw as [Hf Hb Ho Hr Hwr].
  destruct (Nat.eqb_spec (wr_offset w) (length (wr_bytes w))) as [He | He].
  { simplify_eq. rewrite Hf. unfold flush_post. rewrite Hwr, He, take_ge by done.
    split_and!; done || lia. }
  rewrite Hb in *. cbn [poll_write Script_socket] in Hl. unfold script_write in Hl.
  assert (∀ w1 s1, writing base wire r w1 s1 → Forall good_write (writes s1) →
    length wire - wr_offset w1 + spare ≤ write_capacity (writes s1) →
    length (writes s1) < length (writes s) →
    flush_loop fuel w1 s1 st cx = (res, w', s', st', cx') →
    flush_post base wire r spare (length (writes s)) (S fuel) st res w' s' st') as Hgo.
  { intros w1 s1 Hw1 Hg1 Hc1 Hlt Hl1. pose proof (IH _ _ Hw1 Hg1 Hc1 Hl1) as (? & ? & Hm).
    split_and!; [done | lia |]. destruct res as [[[] |] |]; [done | done |].
    destruct Hm as (? & ? & ? & ?). split_and!; [done.. | lia]. }
  destruct (writes s) as [| step ws] eqn:Ews; [cbn in Hcap; lia |].
  apply Forall_cons in Hg as [Hg1 Hg].
  destruct step as [n | | | k]; cbn [good_write write_capacity] in *; [| | | done].
  - set (count := Nat.min (N.to_nat n) (length (drop (wr_offset w) wire))) in *.
    assert (1 ≤ count ≤ length wire - wr_offset w) as Hc.
    { unfold count. rewrite length_drop. lia. }
    destruct (N.eqb_spec (N.of_nat count) 0) as [? | _]; [lia |].
    destruct (N.leb_spec (N.of_nat count) (N.of_nat (length wire - wr_offset w))) as [_ | ?]; [| lia].
    rewrite Nat2N.id in Hl. eapply Hgo; [| | | | exact Hl]; cbn; [| done | lia | lia].
    split; cbn; [done | done | lia | done |]. rewrite Hwr, <- app_assoc. f_equal.
    by rewrite take_take_drop.
  - simplify_eq. rewrite app_nil_r. unfold flush_post. cbn. split_and!; done || lia.
  - rewrite app_nil_r in Hl. eapply Hgo; [| | | | exact Hl]; cbn; [by split | done | lia | lia].
Qed.

Lemma poll_writer_spec n base wire r spare w s st cx :
  writing base wire r w s → Forall good_write (writes s) →
  length wire - wr_offset w + spare ≤ write_capacity (writes s) → length (writes s) < n →
  ∃ s' cx', poll_writer n w s st cx =
    (Ready (Ok tt), FrameWriter_default, s', drop_option r st, cx') ∧
    written s' = base ++ wire ∧ Forall good_write (writes s') ∧
    spare ≤ write_capacity (writes s') ∧ length (writes s') ≤ length (writes s).
Proof.
  revert w s cx. induction n as [| n IH]; intros w s cx Hw Hg Hc Hn; [lia |].
  cbn [poll_writer]. unfold FrameWriter_poll_flush, poll_flush_within.
  rewrite (wg_failed _ _ _ _ _ Hw).
  destruct (flush_loop 64 w s st cx) as [[[[res w1] s1] st1] cx1] eqn:Hl.
  destruct (flush_loop_spec _ _ _ _ 64 _ _ _ _ _ _ _ _ _ Hw Hg Hc Hl) as (Hg1 & Hlen & Hp).
  destruct res as [[[] | e] |]; [| done |].
  - destruct Hp as (-> & Hwr & -> & Hs). by eauto 10.
  - destruct Hp as (Hw1 & -> & Hc1 & Hlt). specialize (Hlt ltac:(lia)).
    destruct (IH w1 s1 cx1 Hw1 Hg1 Hc1 ltac:(lia)) as (s' & cx' & -> & ? & ? & ? & ?).
    exists s', cx'. split_and!; done || lia.
Qed.

(** Send a list of frames through one writer, each flushed with up to [n] polls. *)
Fixpoint write_frames (fs : list WireFrame) (n : nat) (phase : FrameProtection)
    (w : FrameWriter) (s : Script) (st : Store) (cx : Context) : option (FrameWriter * Script) :=
  match fs with
  | [] => Some (w, s)
  | f :: fs =>
    match FrameWriter_start f phase (w, st) with
    | (Ok _, (w, st)) =>
      match poll_writer n w s st cx with
      | (Ready (Ok _), w, s, st, cx) => write_frames fs n phase w s st cx
      | _ => None
      end
    | _ => None
    end
  end.

Lemma FrameWriter_start_ok f phase st :
  frame_ok phase f →
  ∃ st', FrameWriter_start f phase (FrameWriter_default, st) =
    (Ok tt, (mkFrameWriter (reservation f) (frame_bytes f) 0 false, st')).
Proof.
  intros [Hwf _ Ht]. unfold FrameWriter_start. cbn [wr_failed wr_bytes FrameWriter_default is_empty negb].
  assert (Bool.eqb (bool_decide (is_Some (tag f))) (bool_decide (phase = Tagged)) = true) as ->.
  { destruct phase.
    - by rewrite Ht.
    - destruct Ht as (t & -> & _). by rewrite bool_decide_eq_true_2. }
  rewrite FrameHeader_frame_len_wf by done. by eexists.
Qed.

Lemma write_frames_exact fs n phase s st cx :
  Forall (frame_ok phase) fs → Forall good_write (writes s) →
  length (concat (map frame_bytes fs)) ≤ write_capacity (writes s) → length (writes s) < n →
  ∃ s', write_frames fs n phase FrameWriter_default s st cx = Some (FrameWriter_default, s') ∧
    written s' = written s ++ concat (map frame_bytes fs).
Proof.
  revert s st cx. induction fs as [| f fs IH]; intros s st cx Hok Hg Hc Hn.
  { exists s. by rewrite app_nil_r. }
  apply Forall_cons in Hok as [Hf Hok]. cbn [map concat] in *. rewrite length_app in Hc.
  cbn [write_frames]. destruct (FrameWriter_start_ok f phase st Hf) as [st1 ->].
  destruct (poll_writer_spec n (written s) (frame_bytes f) (reservation f)
    (length (concat (map frame_bytes fs)))
    (mkFrameWriter (reservation f) (frame_bytes f) 0 false) s st1 cx)
    as (s1 & cx1 & -> & Hw1 & Hg1 & Hc1 & Hl1).
  { split; cbn; [done | done | lia | done | by rewrite app_nil_r]. }
  { done. } { cbn [wr_offset]. lia. } { done. }
  destruct (IH s1 (drop_option (reservation f) st1) cx1 Hok Hg1 Hc1 ltac:(lia)) as (s2 & -> & Hw2).
  exists s2. split; [done |]. by rewrite Hw2, Hw1, app_assoc.
Qed.

(** Frames survive the link.  Any sequence of frames of one phase, written
    one at a time through the writer under any schedule of partial, interrupted
    and not-ready writes that accepts enough in total, puts exactly the
    concatenation of their wire forms on the socket; and a reader that receives
    those bytes in any fragmentation, followed by EOF, returns exactly the same
    frames in order and then EOF. *)
Theorem frames_survive_link (phase : FrameProtection) (fs : list WireFrame)
    (out inp : Script) (st : Store) (cx : Context) (n : nat) :
  Forall (frame_ok phase) fs →
  Forall good_write (writes out) → written out = [] →
  length (concat (map frame_bytes fs)) ≤ write_capacity (writes out) →
  length (writes out) < n → read_cost (reads inp) + 1 < n → REof ∈ reads inp →
  ∃ out', write_frames fs n phase FrameWriter_default out st cx = Some (FrameWriter_default, out') ∧
    (stream (reads inp) = written out' →
     read_frames (S (length fs)) n phase FrameReader_default inp cx =
     map (λ f, Ok (Some (with_reservation None f))) fs ++ [Ok None]).
Proof.
  intros Hok Hg Hw Hc Hn1 Hn2 He.
  destruct (write_frames_exact fs n phase out st cx Hok Hg Hc Hn1) as (out' & Hwf & Hwr).
  exists out'. split; [done |]. intros Hs. apply read_frames_exact; [done | done | | done].
  by rewrite Hs, Hwr, Hw.
Qed.

Definition example_end : WireFrame :=
  mkWireFrame None (mkFrameHeader End_t 1 0) [] None.

Lemma example_end_ok : frame_ok Untagged example_end.
Proof. split; [split |  |]; done. Qed.

Lemma frames_survive_link_witness :
  let out := mkScript [] (replicate 20 (WAccept 3) ++ [WPending; WInterrupted]) [] false in
  let inp := mkScript [RBytes x01 [x12]; RPending; RBytes x00 [x00; x00; x00; x00; x01];
                       RBytes x00 [x00; x00; x00]; REof] [] [] false in
  ∃ out', write_frames [example_end] 30 Untagged FrameWriter_default out Store_empty 0%N
            = Some (FrameWriter_default, out') ∧
    (stream (reads inp) = written out' →
     read_frames 2 30 Untagged FrameReader_default inp 0%N = [Ok (Some example_end); Ok None]).
Proof.
  intros out inp.
  apply (frames_survive_link Untagged [example_end] out inp Store_empty 0%N 30).
  - constructor; [apply example_end_ok | constructor].
  - repeat constructor.
  - reflexivity.
  - apply Nat.leb_le. vm_compute. reflexivity.
  - apply Nat.leb_le. vm_compute. reflexivity.
  - apply Nat.leb_le. vm_compute. reflexivity.
  - cbn. repeat first [apply list_elem_of_here | apply list_elem_of_further].
Defined.
