(* ===== verification/Ports.v ===== *)
(** * Identity and Cryptography ports

    [src/modules/transport/ports/{crypto,identity}.rs] as type classes: the
    transport is proved against these interfaces, and the adapters behind them
    are parameters.  A [&mut self] method threads the adapter's state.  The
    laws in the classes are the array widths that Rust's types carry. *)

From S2P Require Import Prelude Bytes Api.

Class Cryptography (C : Type) : Type := {
  EphemeralSecret : Type;
  SharedSecret : Type;
  PseudorandomKey : Type;
  IntegrityKey : Type;
  random_nonce : C → result DependencyError bytes * C;
  ephemeral_key : C → result DependencyError (bytes * EphemeralSecret) * C;
  sha256 : C → bytes → result DependencyError bytes;
  verify_signature : C → bytes → bytes → bytes → result DependencyError unit;
  agree : C → EphemeralSecret → bytes → result DependencyError SharedSecret * C;
  extract : C → bytes → SharedSecret → result DependencyError PseudorandomKey * C;
  expand_key : C → PseudorandomKey → bytes → result DependencyError IntegrityKey * C;
  expand_nonce_prefix : C → PseudorandomKey → bytes → result DependencyError bytes;
  mac_tag : C → IntegrityKey → bytes → bytes → result DependencyError bytes;
  verify_tag : C → IntegrityKey → bytes → bytes → bytes → result DependencyError unit;
  random_nonce_32 : ∀ c n, (random_nonce c).1 = Ok n → length n = 32;
  ephemeral_key_32 : ∀ c p k, (ephemeral_key c).1 = Ok (p, k) → length p = 32;
  nonce_prefix_16 : ∀ c k i p, expand_nonce_prefix c k i = Ok p → length p = 16;
  mac_tag_16 : ∀ c k n a t, mac_tag c k n a = Ok t → length t = 16;
}.

Record PublicIdentity : Type := mkPublicIdentity {
  pi_id : IdentityId;
  signing_public_key : bytes;
}.

(** [AuthenticationMessage] is the byte string only the handshake constructs. *)
Class Identity (I : Type) : Type := {
  public_identity : I → result DependencyError PublicIdentity;
  identify : I → bytes → result DependencyError IdentityId;
  sign_authentication : I → bytes → result DependencyError bytes * I;
  public_identity_32 : ∀ i p, public_identity i = Ok p → length (signing_public_key p) = 32;
  sign_authentication_64 : ∀ i m s, (sign_authentication i m).1 = Ok s → length s = 64;
}.

(** ** Correct adapters

    What the documentation of the ports promises: Diffie-Hellman agreement
    commutes, hashing, extraction and expansion are functions of their inputs,
    a computed tag verifies, a signature verifies under the signer's published
    key, and an identity is a function of its public key.  Adapters serve the
    inputs within an immutable local ceiling, and identities sign messages
    below a budget. *)
Class CryptographyLaws (C : Type) `{!Cryptography C} : Type := {
  ceiling : C → N;
  hash : bytes → bytes;
  hash_32 : ∀ m, length (hash m) = 32;
  hash_spec : ∀ c m, (len m ≤ ceiling c)%N → sha256 c m = Ok (hash m);
  prk_of : bytes → SharedSecret → PseudorandomKey;
  extract_spec : ∀ c salt s, (len salt ≤ ceiling c)%N → (extract c salt s).1 = Ok (prk_of salt s);
  key_of : PseudorandomKey → bytes → IntegrityKey;
  expand_key_spec : ∀ c k info, (len info ≤ ceiling c)%N → (expand_key c k info).1 = Ok (key_of k info);
  prefix_of : PseudorandomKey → bytes → bytes;
  expand_nonce_prefix_spec : ∀ c k info, (len info ≤ ceiling c)%N →
    expand_nonce_prefix c k info = Ok (prefix_of k info);
  agree_commutes : ∀ c1 c2 p k q l,
    (ephemeral_key c1).1 = Ok (p, k) → (ephemeral_key c2).1 = Ok (q, l) →
    ∀ c c', ∃ s, (agree c k q).1 = Ok s ∧ (agree c' l p).1 = Ok s;
  tag_verifies : ∀ c k n a, (len a ≤ ceiling c)%N →
    ∃ t, mac_tag c k n a = Ok t ∧ ∀ c', (len a ≤ ceiling c')%N → verify_tag c' k n a t = Ok tt;
  ceiling_agree : ∀ c k q, ceiling (agree c k q).2 = ceiling c;
  ceiling_extract : ∀ c salt s, ceiling (extract c salt s).2 = ceiling c;
  ceiling_expand : ∀ c k info, ceiling (expand_key c k info).2 = ceiling c;
}.

Class IdentityLaws (C I : Type) `{!Cryptography C, !CryptographyLaws C, !Identity I} : Type := {
  signing_budget : I → N;
  identify_published : ∀ i j p, public_identity i = Ok p →
    identify j (signing_public_key p) = Ok (pi_id p);
  sign_verifies : ∀ i p m, public_identity i = Ok p → (len m < signing_budget i)%N →
    ∃ s, (sign_authentication i m).1 = Ok s ∧
      ∀ c : C, (len m ≤ ceiling c)%N → verify_signature c (signing_public_key p) m s = Ok tt;
}.

(** ** Executable adapters

    A concrete, insecure implementation of both ports on which the
    development's definitions run.  The state of either adapter is a number:
    the next ephemeral secret, or the signing key. *)
Definition byte_sum (l : bytes) : N := foldr (λ b acc, (b2N b + acc)%N) 0%N l.
Definition toy_mac (k n a : bytes) : bytes :=
  to_be 8 (from_be (drop 16 n)) ++ to_be 8 (byte_sum (k ++ a)).

#[local] Obligation Tactic := idtac.
#[local] Ltac widths :=
  cbn -[to_be toy_mac]; intros;
  repeat match goal with H : Ok _ = Ok _ |- _ => injection H as; subst end; cbn -[to_be];
  unfold toy_mac;
  by rewrite ?length_app, ?to_be_length.

#[export] Program Instance toy_cryptography : Cryptography N := {|
  EphemeralSecret := N;
  SharedSecret := N;
  PseudorandomKey := bytes;
  IntegrityKey := bytes;
  random_nonce := λ c, (Ok (to_be 32 c), (c + 1)%N);
  ephemeral_key := λ c, (Ok (to_be 32 c, c), (c + 1)%N);
  sha256 := λ _ m, Ok (to_be 32 (byte_sum m));
  verify_signature := λ _ key m s,
    if bool_decide (s = key ++ to_be 32 (byte_sum m)) then Ok tt else Err VerificationFailed;
  agree := λ c k q, (Ok (k mod 256 ^ 32 + from_be q)%N, c);
  extract := λ c salt s, (Ok (salt ++ to_be 32 s), c);
  expand_key := λ c k info, (Ok (k ++ info), c);
  expand_nonce_prefix := λ _ k info, Ok (to_be 16 (byte_sum (k ++ info)));
  mac_tag := λ _ k n a, Ok (toy_mac k n a);
  verify_tag := λ _ k n a t,
    if bool_decide (t = toy_mac k n a) then Ok tt else Err VerificationFailed;
|}.
Solve Obligations with (widths).

#[export] Program Instance toy_identity : Identity N := {|
  public_identity := λ i, Ok (mkPublicIdentity (to_be 32 i) (to_be 32 i));
  identify := λ _ key, Ok key;
  sign_authentication := λ i m, (Ok (to_be 32 i ++ to_be 32 (byte_sum m)), i);
|}.
Solve Obligations with (widths).

#[export] Program Instance toy_cryptography_laws : CryptographyLaws N := {|
  ceiling := λ _, u32_limit;
  hash := λ m, to_be 32 (byte_sum m);
  prk_of := λ salt s, salt ++ to_be 32 s;
  key_of := λ k info, k ++ info;
  prefix_of := λ k info, to_be 16 (byte_sum (k ++ info));
|}.
Next Obligation. intros m. apply to_be_length. Qed.
Next Obligation. done. Qed.
Next Obligation. done. Qed.
Next Obligation. done. Qed.
Next Obligation. done. Qed.
Next Obligation.
  intros c1 c2 p k q l [= <- <-] [= <- <-] c c'. eexists. split; [reflexivity |].
  cbn [fst agree toy_cryptography]. f_equal. rewrite !from_to_be. apply N.add_comm.
Qed.
Next Obligation.
  intros c k n a _. eexists. split; [done |]. intros c' _. cbn. by rewrite bool_decide_true.
Qed.
Next Obligation. done. Qed.
Next Obligation. done. Qed.
Next Obligation. done. Qed.

#[export] Program Instance toy_identity_laws : IdentityLaws N N := {| signing_budget := λ _, u32_limit |}.
Next Obligation. intros i j p [= <-]. done. Qed.
Next Obligation.
  intros i p m [= <-] _. eexists. split; [done |]. intros c _. cbn. by rewrite bool_decide_true.
Qed.
