(* ===== verification/Handshake.v ===== *)
(** * The handshake

    [src/modules/transport/handshake/{transcript,keys,state}.rs]: the
    role-ordered transcript and its signed messages, the derivation of
    directional keys, and the HELLO/AUTH state machine of one connection. *)

From Stdlib Require Import Strings.String.
From S2P Require Import Prelude Bytes Header Control HandshakeCodec Api Framing Ports.

#[local] Open Scope N_scope.

(** ** Transcript *)

Abbreviation Transcript := bytes (only parsing).

Definition Transcript_new (initiator acceptor : Hello) : Transcript :=
  to_be 4 100 ++ Hello_encode initiator ++ to_be 4 100 ++ Hello_encode acceptor.

Definition auth_label : bytes := list_byte_of_string "CR2SE-NETWORK-AUTH-V1".
Definition keys_label : bytes := list_byte_of_string "CR2SE-NETWORK-KEYS-V1".

Definition Transcript_authentication (t : Transcript) (role : ConnectionRole) : bytes :=
  let role := match role with Initiator => x01 | Acceptor => x02 end in
  auth_label ++ [x00; role] ++ t.

Definition Transcript_sign {I} `{!Identity I} (t : Transcript) (role : ConnectionRole)
    (identity : I) : result DependencyError bytes * I :=
  sign_authentication identity (Transcript_authentication t role).

Definition Transcript_verify {C} `{!Cryptography C} (t : Transcript) (role : ConnectionRole)
    (public_key auth : bytes) (crypto : C) : result DependencyError unit :=
  verify_signature crypto public_key (Transcript_authentication t role) auth.

(** ** Directional keys *)

Record DirectionKeys (K : Type) : Type := mkDirectionKeys {
  dk_key : K;
  nonce_prefix : bytes;
}.
Arguments mkDirectionKeys {K}.
Arguments dk_key {K}.
Arguments nonce_prefix {K}.

Record SessionKeys (K : Type) : Type := mkSessionKeys {
  sk_send : DirectionKeys K;
  sk_receive : DirectionKeys K;
}.
Arguments mkSessionKeys {K}.
Arguments sk_send {K}.
Arguments sk_receive {K}.

Definition derive_keys {C} `{!Cryptography C} (role : ConnectionRole)
    (private : EphemeralSecret) (remote : bytes) (transcript : Transcript)
    : M C DependencyError (SessionKeys IntegrityKey) :=
  shared ← call (λ c, agree c private remote);
  let salt_input := keys_label ++ [x00] ++ transcript in
  salt ← query (λ c, sha256 c salt_input);
  prk ← call (λ c, extract c salt shared);
  i2a_key ← call (λ c, expand_key c prk (list_byte_of_string "CR2SE-NETWORK-V1-I2A-KEY"));
  a2i_key ← call (λ c, expand_key c prk (list_byte_of_string "CR2SE-NETWORK-V1-A2I-KEY"));
  i2a_prefix ← query (λ c,
    expand_nonce_prefix c prk (list_byte_of_string "CR2SE-NETWORK-V1-I2A-NONCE"));
  a2i_prefix ← query (λ c,
    expand_nonce_prefix c prk (list_byte_of_string "CR2SE-NETWORK-V1-A2I-NONCE"));
  let i2a := mkDirectionKeys i2a_key i2a_prefix in
  let a2i := mkDirectionKeys a2i_key a2i_prefix in
  mret (match role with
        | Initiator => mkSessionKeys i2a a2i
        | Acceptor => mkSessionKeys a2i i2a
        end).

Definition nonce (prefix : bytes) (sequence : N) : bytes := prefix ++ to_be 8 sequence.

(** ** The state machine *)

Inductive HandshakeError : Type :=
| HsOrder
| HsPeer (c : ErrorCode)
| HsPayload (e : HandshakePayloadError)
| HsUnexpectedIdentity
| HsDependency (e : DependencyError)
| HsFraming (e : FramingError).

#[global] Instance HandshakeError_eq_dec : EqDecision HandshakeError.
Proof. solve_decision. Defined.

Record Established (K : Type) : Type := mkEstablished {
  est_role : ConnectionRole;
  est_local_identity : IdentityId;
  est_peer_identity : IdentityId;
  est_keys : SessionKeys K;
}.
Arguments mkEstablished {K}.
Arguments est_role {K}.
Arguments est_local_identity {K}.
Arguments est_peer_identity {K}.
Arguments est_keys {K}.

Definition raw_frame (kind : FrameType) (p : bytes) : result HandshakeError WireFrame :=
  map_err (λ e, HsFraming (FrHeader e)) (FrameHeader_new kind 0 (len p mod u32_limit)) ≫= λ h,
  map_err HsFraming (WireFrame_new h p None).

Definition opposite (role : ConnectionRole) : ConnectionRole :=
  match role with Initiator => Acceptor | Acceptor => Initiator end.

Section handshake.
Context {C : Type} `{!Cryptography C} {I : Type} `{!Identity I}.

Record Handshake : Type := mkHandshake {
  hs_role : ConnectionRole;
  hs_expected : ExpectedPeer;
  hs_local_identity : IdentityId;
  hs_local : Hello;
  hs_remote : option (Hello * IdentityId);
  hs_private : option EphemeralSecret;
  hs_keys : option (SessionKeys IntegrityKey);
  hello_sent : bool;
  auth_sent : bool;
  peer_verified : bool;
  hs_closed : bool;
}.

Definition set_remote (r : Hello * IdentityId) (h : Handshake) : Handshake :=
  mkHandshake (hs_role h) (hs_expected h) (hs_local_identity h) (hs_local h) (Some r)
    (hs_private h) (hs_keys h) (hello_sent h) (auth_sent h) (peer_verified h) (hs_closed h).
Definition set_private (p : option EphemeralSecret) (h : Handshake) : Handshake :=
  mkHandshake (hs_role h) (hs_expected h) (hs_local_identity h) (hs_local h) (hs_remote h)
    p (hs_keys h) (hello_sent h) (auth_sent h) (peer_verified h) (hs_closed h).
Definition set_keys (k : option (SessionKeys IntegrityKey)) (h : Handshake) : Handshake :=
  mkHandshake (hs_role h) (hs_expected h) (hs_local_identity h) (hs_local h) (hs_remote h)
    (hs_private h) k (hello_sent h) (auth_sent h) (peer_verified h) (hs_closed h).
Definition set_hello_sent (h : Handshake) : Handshake :=
  mkHandshake (hs_role h) (hs_expected h) (hs_local_identity h) (hs_local h) (hs_remote h)
    (hs_private h) (hs_keys h) true (auth_sent h) (peer_verified h) (hs_closed h).
Definition set_auth_sent (h : Handshake) : Handshake :=
  mkHandshake (hs_role h) (hs_expected h) (hs_local_identity h) (hs_local h) (hs_remote h)
    (hs_private h) (hs_keys h) (hello_sent h) true (peer_verified h) (hs_closed h).
Definition set_peer_verified (h : Handshake) : Handshake :=
  mkHandshake (hs_role h) (hs_expected h) (hs_local_identity h) (hs_local h) (hs_remote h)
    (hs_private h) (hs_keys h) (hello_sent h) (auth_sent h) true (hs_closed h).

Definition Handshake_close (h : Handshake) : Handshake :=
  mkHandshake (hs_role h) (hs_expected h) (hs_local_identity h) (hs_local h) (hs_remote h)
    None None (hello_sent h) (auth_sent h) (peer_verified h) true.

Definition Handshake_begin (role : ConnectionRole) (expected : ExpectedPeer) (identity : I)
    : M C HandshakeError (Handshake * WireFrame) :=
  public ← lift (map_err HsDependency (public_identity identity));
  ephemeral ← call (λ c, let '(r, c) := ephemeral_key c in (map_err HsDependency r, c));
  nonce ← call (λ c, let '(r, c) := random_nonce c in (map_err HsDependency r, c));
  let local := mkHello (signing_public_key public) ephemeral.1 nonce in
  frame ← lift (raw_frame Hello_t (Hello_encode local));
  mret (mkHandshake role expected (pi_id public) local None (Some ephemeral.2) None
          false false false false, frame).

Definition Handshake_sent (kind : FrameType) (h : Handshake)
    : result HandshakeError unit * Handshake :=
  match kind with
  | Hello_t =>
    if negb (hs_closed h) && negb (hello_sent h) then (Ok tt, set_hello_sent h)
    else (Err HsOrder, Handshake_close h)
  | Auth_t =>
    if negb (hs_closed h) && hello_sent h && negb (auth_sent h)
       && bool_decide (is_Some (hs_remote h))
    then (Ok tt, set_auth_sent h)
    else (Err HsOrder, Handshake_close h)
  | _ => (Err HsOrder, Handshake_close h)
  end.

Definition Handshake_transcript (h : Handshake) (remote : Hello) : Transcript :=
  match hs_role h with
  | Initiator => Transcript_new (hs_local h) remote
  | Acceptor => Transcript_new remote (hs_local h)
  end.

(** The mutable borrows of [process]: the handshake, identity and crypto. *)
Abbreviation HsState := (Handshake * I * C)%type.

Definition on_identity {A} (f : I → result DependencyError A * I) : M HsState HandshakeError A :=
  λ '(h, i, c), let '(r, i) := f i in (map_err HsDependency r, (h, i, c)).
Definition on_crypto {A} (m : M C DependencyError A) : M HsState HandshakeError A :=
  λ '(h, i, c), let '(r, c) := m c in (map_err HsDependency r, (h, i, c)).
Definition on_handshake (f : Handshake → Handshake) : M HsState HandshakeError unit :=
  λ '(h, i, c), (Ok tt, (f h, i, c)).
Definition get_handshake : M HsState HandshakeError Handshake := λ '(h, i, c), (Ok h, (h, i, c)).

Definition process_hello (frame : WireFrame) : M HsState HandshakeError (option WireFrame) :=
  h ← get_handshake;
  remote ← lift (map_err HsPayload (Hello_decode (payload frame)));
  id ← on_identity (λ i, (identify i (identity_public_key remote), i));
  ensure (match hs_expected h with Known expected => bool_decide (expected = id) | Unpinned => true end)
    HsUnexpectedIdentity;;
  let transcript := Handshake_transcript h remote in
  auth ← on_identity (Transcript_sign transcript (hs_role h));
  on_handshake (set_remote (remote, id));;
  out ← lift (raw_frame Auth_t (Auth_encode auth));
  mret (Some out).

Definition process_auth (frame : WireFrame) (remote : Hello)
    : M HsState HandshakeError (option WireFrame) :=
  h ← get_handshake;
  let transcript := Handshake_transcript h remote in
  auth ← lift (map_err HsPayload (Auth_decode (payload frame)));
  on_crypto (query (Transcript_verify transcript (opposite (hs_role h))
    (identity_public_key remote) auth));;
  on_handshake (set_private None);;
  private ← lift (ok_or (hs_private h) HsOrder);
  keys ← on_crypto (derive_keys (hs_role h) private (ephemeral_public_key remote) transcript);
  on_handshake (set_keys (Some keys));;
  on_handshake set_peer_verified;;
  mret None.

Definition Handshake_process (frame : WireFrame) : M HsState HandshakeError (option WireFrame) :=
  h ← get_handshake;
  if hs_closed h || peer_verified h || negb (stream_id (header frame) =? 0)
     || bool_decide (is_Some (tag frame))
  then throw HsOrder else
  match frame_type (header frame), hs_remote h with
  | Error_t, _ =>
    error ← lift (map_err (λ _, HsOrder) (ErrorPayload_decode (payload frame)));
    throw (HsPeer (code error))
  | Hello_t, None => process_hello frame
  | Auth_t, Some (remote, _) => process_auth frame remote
  | _, _ => throw HsOrder
  end.

Definition Handshake_receive (frame : WireFrame) : M HsState HandshakeError (option WireFrame) :=
  λ s,
  let '(result, s) := Handshake_process frame s in
  match result with
  | Ok _ => (result, s)
  | Err _ => let '(h, i, c) := s in (result, (Handshake_close h, i, c))
  end.

Definition send_protection (h : Handshake) : FrameProtection :=
  if auth_sent h then Tagged else Untagged.
Definition receive_protection (h : Handshake) : FrameProtection :=
  if peer_verified h then Tagged else Untagged.
Definition is_authenticated (h : Handshake) : bool :=
  negb (hs_closed h) && auth_sent h && peer_verified h.

Definition take_established (h : Handshake) : option (Established IntegrityKey) * Handshake :=
  if negb (is_authenticated h) then (None, h) else
  match hs_remote h with
  | None => (None, h)
  | Some (_, peer_identity) =>
    match hs_keys h with
    | None => (None, set_keys None h)
    | Some keys =>
      (Some (mkEstablished (hs_role h) (hs_local_identity h) peer_identity keys), set_keys None h)
    end
  end.

End handshake.
Arguments Handshake C {_}.
