(* ===== verification/HandshakeProps.v ===== *)
(** * Handshake properties

    What a transferred [Established] certifies, over every sequence of calls a
    connection can make; injectivity of the signed messages; and the agreement
    of two honest endpoints. *)

From Stdlib Require Import Strings.String.
From S2P Require Import Prelude Bytes Header Control HandshakeCodec Api Framing Ports Handshake.

#[local] Open Scope nat_scope.

(** ** The signed messages *)

Lemma Transcript_new_length i a :
  hello_wf i → hello_wf a → length (Transcript_new i a) = 208.
Proof.
  intros Hi Ha. unfold Transcript_new.
  by rewrite !length_app, !to_be_length, !Hello_encode_length.
Qed.

Lemma Transcript_new_inj i a i' a' :
  hello_wf i → hello_wf a → hello_wf i' → hello_wf a' →
  Transcript_new i a = Transcript_new i' a' → i = i' ∧ a = a'.
Proof.
  intros Hi Ha Hi' Ha' E. unfold Transcript_new in E.
  apply app_inj_1 in E as [_ E]; [| done].
  apply app_inj_1 in E as [E1 E]; [| by rewrite !Hello_encode_length].
  apply app_inj_1 in E as [_ E2]; [| done].
  split; by apply Hello_encode_inj.
Qed.

Lemma Transcript_authentication_inj t r t' r' :
  Transcript_authentication t r = Transcript_authentication t' r' → t = t' ∧ r = r'.
Proof.
  unfold Transcript_authentication. intros E. apply app_inv_head in E.
  destruct r, r'; cbn in E; by simplify_eq.
Qed.

(** A signed message determines everything it vouches for.  Two AUTH
    messages are equal only if both HELLOs agree in every field (identity key,
    ephemeral key and nonce of initiator and acceptor) and the signer's role
    agrees; in particular an initiator's proof is never an acceptor's. *)
Theorem auth_message_binds (i a i' a' : Hello) (r r' : ConnectionRole) :
  hello_wf i → hello_wf a → hello_wf i' → hello_wf a' →
  Transcript_authentication (Transcript_new i a) r =
  Transcript_authentication (Transcript_new i' a') r' →
  i = i' ∧ a = a' ∧ r = r'.
Proof.
  intros Hi Ha Hi' Ha' [E ->]%Transcript_authentication_inj.
  apply Transcript_new_inj in E as [-> ->]; done.
Qed.

Definition example_hello (b : byte) : Hello :=
  mkHello (replicate 32 b) (replicate 32 b) (replicate 32 b).
Lemma example_hello_wf b : hello_wf (example_hello b).
Proof. done. Qed.

Lemma auth_message_binds_witness :
  example_hello x01 = example_hello x01 ∧ example_hello x02 = example_hello x02 ∧
  Initiator = Initiator.
Proof.
  apply (auth_message_binds (example_hello x01) (example_hello x02)
           (example_hello x01) (example_hello x02) Initiator Initiator);
    [apply example_hello_wf | apply example_hello_wf | apply example_hello_wf
    | apply example_hello_wf | reflexivity].
Defined.

(** ** Runs of one handshake *)

Section run.
Context {C : Type} `{!Cryptography C} {I : Type} `{!Identity I}.

Abbreviation HsSt := (Handshake C * I * C)%type.

(** What the owning connection can do, and what other connections can do to the
    shared adapters in between. *)
Inductive hs_call : Type :=
| CallSent (kind : FrameType)
| CallReceive (frame : WireFrame)
| CallTake
| CallClose
| CallOther (i : I) (c : C).

Definition hs_exec (call : hs_call) (s : HsSt) : list (Established IntegrityKey) * HsSt :=
  let '(h, i, c) := s in
  match call with
  | CallSent kind => ([], ((Handshake_sent kind h).2, i, c))
  | CallReceive frame => ([], (Handshake_receive frame s).2)
  | CallTake => (option_list (take_established h).1, ((take_established h).2, i, c))
  | CallClose => ([], (Handshake_close h, i, c))
  | CallOther i' c' => ([], (h, i', c'))
  end.

Fixpoint hs_run (calls : list hs_call) (s : HsSt) : list (Established IntegrityKey) * HsSt :=
  match calls with
  | [] => ([], s)
  | call :: calls =>
    let '(e, s) := hs_exec call s in
    let '(es, s) := hs_run calls s in
    (e ++ es, s)
  end.

(** A peer proof that verified for the HELLO [remote]. *)
Definition proved (role : ConnectionRole) (local remote : Hello) : Prop :=
  ∃ auth c,
    verify_signature c (identity_public_key remote)
      (Transcript_authentication
         (match role with
          | Initiator => Transcript_new local remote
          | Acceptor => Transcript_new remote local
          end) (opposite role)) auth = Ok tt.

Definition pinned (expected : ExpectedPeer) (id : IdentityId) : Prop :=
  match expected with Known e => e = id | Unpinned => True end.

Record hs_inv (past : list hs_call) (role : ConnectionRole) (expected : ExpectedPeer)
    (lid : IdentityId) (local : Hello) (h : Handshake C) : Prop := {
  hi_role : hs_role h = role;
  hi_expected : hs_expected h = expected;
  hi_lid : hs_local_identity h = lid;
  hi_local : hs_local h = local;
  hi_remote : ∀ remote id, hs_remote h = Some (remote, id) →
    hello_wf remote ∧ pinned expected id ∧
    ∃ i : I, identify i (identity_public_key remote) = Ok id;
  hi_verified : peer_verified h = true →
    hs_private h = None ∧
    ∃ remote id, hs_remote h = Some (remote, id) ∧ proved role local remote;
  hi_keys : is_Some (hs_keys h) → peer_verified h = true;
  hi_hello : hello_sent h = true → CallSent Hello_t ∈ past;
  hi_auth : auth_sent h = true → hello_sent h = true ∧ CallSent Auth_t ∈ past;
}.

Lemma hs_inv_close past role expected lid local h :
  hs_inv past role expected lid local h → hs_inv past role expected lid local (Handshake_close h).
Proof.
  intros [H1 H2 H3 H4 H5 H6 H7 H8 H9]. split; cbn; try done.
  intros Hv. destruct (H6 Hv) as (_ & ?). done.
Qed.

Lemma hs_inv_past past past' role expected lid local h :
  past ⊆ past' → hs_inv past role expected lid local h → hs_inv past' role expected lid local h.
Proof.
  intros Hsub [H1 H2 H3 H4 H5 H6 H7 H8 H9]. split; try done.
  - intros Hh. by apply Hsub, H8.
  - intros Hh. destruct (H9 Hh) as [? ?]. split; [done | by apply Hsub].
Qed.

Lemma process_hello_state frame h i c r h' i' c' :
  process_hello frame (h, i, c) = (r, (h', i', c')) →
  h' = h ∨ ∃ remote id, h' = set_remote (remote, id) h ∧ hello_wf remote ∧
    pinned (hs_expected h) id ∧ ∃ i0 : I, identify i0 (identity_public_key remote) = Ok id.
Proof.
  unfold process_hello, get_handshake, on_identity, on_handshake. unfold_m. cbn.
  destruct (Hello_decode (payload frame)) as [remote |] eqn:Hd; cbn; [| intros [=]; auto].
  destruct (identify i (identity_public_key remote)) as [id |] eqn:Hi; cbn; [| intros [=]; auto].
  apply Hello_decode_Ok in Hd as [Hwf _].
  destruct (hs_expected h) as [e |] eqn:He; [case_bool_decide; [| intros [=]; auto] |];
    (cbn; destruct (Transcript_sign (Handshake_transcript h remote) (hs_role h) i)
      as [[auth |] i1]; cbn; [| intros [=]; auto]);
    (destruct (raw_frame Auth_t (Auth_encode auth)); cbn; intros [=]; subst; right;
     exists remote, id; unfold pinned; rewrite ?He; by eauto 10).
Qed.

Lemma process_auth_state frame remote (h : Handshake C) (i : I) (c : C) r h' i' c' :
  process_auth frame remote (h, i, c) = (r, (h', i', c')) →
  h' = h ∨
  (∃ auth, verify_signature c (identity_public_key remote)
     (Transcript_authentication (Handshake_transcript h remote) (opposite (hs_role h))) auth = Ok tt) ∧
  (h' = set_private None h ∨
   ∃ keys, h' = set_peer_verified (set_keys (Some keys) (set_private None h))).
Proof.
  unfold process_auth, get_handshake, on_crypto, on_handshake, Transcript_verify. unfold_m. cbn.
  destruct (Auth_decode (payload frame)) as [auth |]; cbn; [| intros [=]; auto].
  destruct (verify_signature c (identity_public_key remote) _ auth) as [[] |] eqn:Hv; cbn;
    [| intros [=]; auto].
  intros H. right. split; [by eauto |].
  destruct (hs_private h) as [private |]; cbn in H; [| simplify_eq; auto].
  destruct (derive_keys _ _ _ _ c) as [[keys |] c1]; cbn in H; simplify_eq; eauto.
Qed.

Lemma hs_inv_receive past role expected lid local frame (h : Handshake C) (i : I) (c : C) :
  hs_inv past role expected lid local h →
  hs_inv past role expected lid local (Handshake_receive frame (h, i, c)).2.1.1.
Proof.
  intros Hinv. unfold Handshake_receive.
  destruct (Handshake_process frame (h, i, c)) as [r [[h' i'] c']] eqn:Hp.
  assert (hs_inv past role expected lid local h') as Hinv'.
  2:{ destruct r; cbn; [done | by apply hs_inv_close]. }
  unfold Handshake_process, get_handshake in Hp. unfold mbind at 1 in Hp. unfold M_bind at 1 in Hp.
  cbv beta iota in Hp. destruct (hs_closed h); [unfold throw in Hp; cbn in Hp; by simplify_eq |].
  destruct (peer_verified h) eqn:Hnv; [unfold throw in Hp; cbn in Hp; by simplify_eq |].
  destruct (stream_id (header frame) =? 0)%N; [| unfold throw in Hp; cbn in Hp; by simplify_eq].
  cbn in Hp. case_bool_decide; [unfold throw in Hp; by simplify_eq |].
  destruct (frame_type (header frame)), (hs_remote h) as [[remote id] |] eqn:Hr;
    try (unfold throw in Hp; by simplify_eq).
  - apply process_hello_state in Hp as [-> | (remote & id & -> & Hwf & Hpin & Hi)]; [done |].
    destruct Hinv as [H1 H2 H3 H4 H5 H6 H7 H8 H9]. split; cbn; try done.
    + intros remote' id' [= <- <-]. rewrite <- H2. done.
    + congruence.
  - apply process_auth_state in Hp as [-> | [[auth Hv] Hp]]; [done |].
    destruct Hinv as [H1 H2 H3 H4 H5 H6 H7 H8 H9].
    destruct Hp as [-> | [keys ->]]; split; cbn; try done.
    + congruence.
    + intros _. split; [done |]. exists remote, id. split; [done |].
      exists auth, c. rewrite <- Hv. unfold Handshake_transcript. by rewrite H1, H4.
  - unfold lift, mbind, M_bind, throw in Hp. cbn in Hp.
    destruct (ErrorPayload_decode (payload frame)); cbn in Hp; by simplify_eq.
  - unfold lift, mbind, M_bind, throw in Hp. cbn in Hp.
    destruct (ErrorPayload_decode (payload frame)); cbn in Hp; by simplify_eq.
Qed.

Lemma hs_inv_sent past role expected lid local kind (h : Handshake C) :
  hs_inv past role expected lid local h →
  hs_inv (past ++ [CallSent kind]) role expected lid local (Handshake_sent kind h).2.
Proof.
  intros Hinv. apply (hs_inv_past _ (past ++ [CallSent kind])) in Hinv.
  2:{ intros x Hx. by apply elem_of_app; left. }
  pose proof (hs_inv_close _ _ _ _ _ _ Hinv) as Hclose.
  unfold Handshake_sent. destruct kind; try exact Hclose.
  - destruct (negb (hs_closed h) && negb (hello_sent h)); [| exact Hclose].
    destruct Hinv as [H1 H2 H3 H4 H5 H6 H7 H8 H9]. split; cbn; try done.
    + intros _. apply elem_of_app. right. apply list_elem_of_here.
    + intros Ha. by destruct (H9 Ha).
  - destruct (negb (hs_closed h) && hello_sent h && negb (auth_sent h)
       && bool_decide (is_Some (hs_remote h))) eqn:Hg; [| exact Hclose].
    destruct Hinv as [H1 H2 H3 H4 H5 H6 H7 H8 H9]. split; cbn; try done.
    intros _. split; [by repeat (apply andb_true_iff in Hg as [Hg ?]) |].
    apply elem_of_app. right. apply list_elem_of_here.
Qed.

Lemma hs_inv_set_keys_None past role expected lid local (h : Handshake C) :
  hs_inv past role expected lid local h →
  hs_inv past role expected lid local (set_keys None h).
Proof.
  intros [H1 H2 H3 H4 H5 H6 H7 H8 H9]. split; cbn; try done.
Qed.

Lemma take_established_state (h : Handshake C) :
  (take_established h).2 = h ∨ (take_established h).2 = set_keys None h.
Proof.
  unfold take_established. repeat case_match; cbn; auto.
Qed.

Lemma take_established_Some (h : Handshake C) e :
  (take_established h).1 = Some e →
  is_authenticated h = true ∧
  ∃ remote keys, hs_remote h = Some (remote, est_peer_identity e) ∧ hs_keys h = Some keys ∧
    e = mkEstablished (hs_role h) (hs_local_identity h) (est_peer_identity e) keys ∧
    (take_established h).2 = set_keys None h.
Proof.
  unfold take_established. destruct (is_authenticated h); [| done]. cbn.
  destruct (hs_remote h) as [[remote id] |]; [| done].
  destruct (hs_keys h) as [keys |]; [| done]. cbn. intros [= <-]. cbn. split; [done |].
  by exists remote, keys.
Qed.

Lemma hs_inv_exec past role expected lid local call (h : Handshake C) (i : I) (c : C) :
  hs_inv past role expected lid local h →
  hs_inv (past ++ [call]) role expected lid local (hs_exec call (h, i, c)).2.1.1.
Proof.
  intros Hinv.
  assert (past ⊆ past ++ [call]) as Hsub by (intros x Hx; by apply elem_of_app; left).
  destruct call; cbn [hs_exec snd fst].
  - by apply hs_inv_sent.
  - apply hs_inv_receive. by eapply hs_inv_past.
  - destruct (take_established_state h) as [-> | ->]; [| apply hs_inv_set_keys_None];
      by eapply hs_inv_past.
  - apply hs_inv_close. by eapply hs_inv_past.
  - by eapply hs_inv_past.
Qed.

(** Once the keys are gone after verification nothing brings them back. *)
Definition spent (h : Handshake C) : Prop := hs_keys h = None ∧ peer_verified h = true.

Lemma spent_exec call (h : Handshake C) (i : I) (c : C) :
  spent h → (hs_exec call (h, i, c)).1 = [] ∧ spent (hs_exec call (h, i, c)).2.1.1.
Proof.
  intros [Hk Hv]. destruct call; cbn [hs_exec snd fst].
  - split; [done |]. unfold Handshake_sent, spent. by repeat case_match.
  - split; [done |]. unfold Handshake_receive, Handshake_process, get_handshake.
    unfold mbind at 1. unfold M_bind at 1. cbv beta iota. rewrite Hv.
    rewrite orb_true_r. cbn. done.
  - unfold take_established. destruct (is_authenticated h); [| done]. cbn.
    destruct (hs_remote h) as [[? ?] |]; [| done]. by rewrite Hk.
  - done.
  - done.
Qed.

Lemma spent_run calls (h : Handshake C) (i : I) (c : C) :
  spent h → (hs_run calls (h, i, c)).1 = [].
Proof.
  revert h i c. induction calls as [| call calls IH]; intros h i c Hs; [done |]. cbn [hs_run].
  destruct (spent_exec call h i c Hs) as [He Hs'].
  destruct (hs_exec call (h, i, c)) as [e [[h' i'] c']]. cbn in He, Hs'. subst e.
  specialize (IH h' i' c' Hs'). by destruct (hs_run calls (h', i', c')).
Qed.

(** What a transferred [Established] certifies. *)
Definition certified (past : list hs_call) (role : ConnectionRole) (expected : ExpectedPeer)
    (lid : IdentityId) (local : Hello) (e : Established IntegrityKey) : Prop :=
  est_role e = role ∧ est_local_identity e = lid ∧ pinned expected (est_peer_identity e) ∧
  CallSent Hello_t ∈ past ∧ CallSent Auth_t ∈ past ∧
  ∃ remote, hello_wf remote ∧ proved role local remote ∧
    ∃ i : I, identify i (identity_public_key remote) = Ok (est_peer_identity e).

Lemma hs_inv_taken past role expected lid local (h : Handshake C) e :
  hs_inv past role expected lid local h → (take_established h).1 = Some e →
  certified past role expected lid local e ∧ spent (take_established h).2.
Proof.
  intros [H1 H2 H3 H4 H5 H6 H7 H8 H9] (Ha & remote & keys & Hr & Hk & He & ->)%take_established_Some.
  unfold is_authenticated in Ha. apply andb_true_iff in Ha as [Ha Hv].
  apply andb_true_iff in Ha as [_ Has]. destruct (H5 _ _ Hr) as (Hwf & Hpin & Hi).
  destruct (H9 Has) as [Hhs Hap]. destruct (H6 Hv) as (_ & remote' & id' & Hr' & Hproved).
  simplify_eq. split; [| done]. rewrite He. unfold certified. cbn.
  split_and!; eauto.
Qed.

Lemma certified_past past past' role expected lid local e :
  past ⊆ past' → certified past role expected lid local e → certified past' role expected lid local e.
Proof. intros Hs (? & ? & ? & ? & ? & ?). split_and!; auto. Qed.

Lemma hs_run_sound calls past role expected lid local (h : Handshake C) (i : I) (c : C) :
  hs_inv past role expected lid local h →
  let taken := (hs_run calls (h, i, c)).1 in
  length taken ≤ 1 ∧ Forall (certified (past ++ calls) role expected lid local) taken.
Proof.
  revert past h i c. induction calls as [| call calls IH]; intros past h i c Hinv; cbn [hs_run].
  { cbn. split; [lia | constructor]. }
  pose proof (hs_inv_exec _ _ _ _ _ call h i c Hinv) as Hinv'.
  destruct (hs_exec call (h, i, c)) as [e [[h' i'] c']] eqn:He. cbn [snd fst] in Hinv'.
  pose proof (IH _ _ i' c' Hinv') as [Hlen Hall]. rewrite <- app_assoc in Hall. cbn [app] in Hall.
  destruct e as [| x e].
  { by destruct (hs_run calls (h', i', c')). }
  destruct call; cbn [hs_exec] in He; try discriminate He.
  injection He as He1 He2 <- <-. destruct (take_established h).1 as [x' |] eqn:Ht; [| done].
  cbn in He1. injection He1 as -> <-. rewrite <- He2 in *.
  destruct (hs_inv_taken _ _ _ _ _ _ _ Hinv Ht) as [Hc Hs].
  pose proof (spent_run calls _ i c Hs) as Hnil.
  destruct (hs_run calls (_, i, c)) as [es s']. cbn in Hnil. subst es. cbn. split; [lia |].
  constructor; [| constructor]. eapply certified_past; [| exact Hc].
  intros y Hy. apply elem_of_app. by left.
Qed.

Lemma Handshake_begin_inv role expected (i : I) (c c0 : C) h f :
  Handshake_begin role expected i c = (Ok (h, f), c0) →
  hs_inv [] role expected (hs_local_identity h) (hs_local h) h.
Proof.
  unfold Handshake_begin. unfold_m. intros H. repeat case_match; simplify_eq.
  by split; cbn; try done; intros [].
Qed.

(** C1: authentication is sound.  Over any sequence of completed writes,
    received frames, transfers and closures on one handshake, interleaved with
    any other use of the shared identity and crypto adapters, at most one
    [Established] is ever released; and it is released only after HELLO and AUTH
    were completely written, for the role and local identity the connection
    began with, for a remote HELLO whose identity key derives the reported peer
    identity, matching the pinned contact if there is one, and for which a
    signature over this connection's transcript in the opposite role verified. *)
Theorem handshake_sound (role : ConnectionRole) (expected : ExpectedPeer) (i : I) (c c0 : C)
    (h : Handshake C) (f : WireFrame) (calls : list hs_call) :
  Handshake_begin role expected i c = (Ok (h, f), c0) →
  let taken := (hs_run calls (h, i, c0)).1 in
  length taken ≤ 1 ∧
  Forall (certified calls role expected (hs_local_identity h) (hs_local h)) taken.
Proof. intros Hb. apply (hs_run_sound calls []). by eapply Handshake_begin_inv. Qed.

End run.

(** ** Two honest endpoints *)

Section agreement.
#[local] Set Default Proof Using "Type*".
Context {C : Type} `{!Cryptography C, !CryptographyLaws C}.
Context {I : Type} `{!Identity I, !IdentityLaws C I}.

Abbreviation HsSt := (Handshake C * I * C)%type.

(** One endpoint's side of the exchange: its HELLO is written, the peer's HELLO
    arrives, the AUTH it answers with is written; then the peer's AUTH arrives
    and the session is taken over. *)
Definition mark_sent (kind : FrameType) : M HsSt HandshakeError unit :=
  λ '(h, i, c), let '(r, h) := Handshake_sent kind h in (r, (h, i, c)).
Definition greet (peer_hello : WireFrame) : M HsSt HandshakeError (option WireFrame) :=
  mark_sent Hello_t;;
  auth ← Handshake_receive peer_hello;
  mark_sent Auth_t;;
  mret auth.
Definition conclude (peer_auth : WireFrame)
    : M HsSt HandshakeError (option (Established IntegrityKey)) :=
  Handshake_receive peer_auth;;
  call (λ '(h, i, c), let '(e, h) := take_established h in (Ok e, (h, i, c))).

Definition control_frame (kind : FrameType) (p : bytes) : WireFrame :=
  mkWireFrame None (mkFrameHeader kind 0 (len p)) p None.

Lemma raw_frame_hello l :
  hello_wf l → raw_frame Hello_t (Hello_encode l) = Ok (control_frame Hello_t (Hello_encode l)).
Proof.
  intros Hwf. unfold raw_frame, control_frame, WireFrame_new.
  rewrite (len_length _ _ (Hello_encode_length l Hwf)). reflexivity.
Qed.

Lemma raw_frame_auth s :
  length s = 64 → raw_frame Auth_t (Auth_encode s) = Ok (control_frame Auth_t s).
Proof.
  intros Hs. unfold raw_frame, control_frame, WireFrame_new, Auth_encode.
  rewrite (len_length _ _ Hs). reflexivity.
Qed.

Definition started (role : ConnectionRole) (expected : ExpectedPeer) (p : PublicIdentity)
    (eph : bytes * EphemeralSecret) (n : bytes) : Handshake C :=
  mkHandshake role expected (pi_id p) (mkHello (signing_public_key p) eph.1 n) None
    (Some eph.2) None false false false false.

Lemma Handshake_begin_Ok role expected (i : I) (c c0 : C) h f :
  Handshake_begin role expected i c = (Ok (h, f), c0) →
  ∃ p eph n, public_identity i = Ok p ∧ (ephemeral_key c).1 = Ok eph ∧
    h = started role expected p eph n ∧ hello_wf (hs_local h) ∧
    f = control_frame Hello_t (Hello_encode (hs_local h)).
Proof.
  unfold Handshake_begin. unfold_m. intros H.
  destruct (public_identity i) as [p |] eqn:Hp; cbn -[raw_frame Hello_encode] in H; [| done].
  destruct (ephemeral_key c) as [[eph |] c1] eqn:He; cbn -[raw_frame Hello_encode] in H; [| done].
  destruct (random_nonce c1) as [[n |] c2] eqn:Hn; cbn -[raw_frame Hello_encode] in H; [| done].
  assert (hello_wf (mkHello (signing_public_key p) eph.1 n)) as Hwf.
  { split; cbn.
    - by eapply public_identity_32.
    - apply (ephemeral_key_32 c _ eph.2). rewrite He. by destruct eph.
    - apply (random_nonce_32 c1). by rewrite Hn. }
  rewrite raw_frame_hello in H by done. cbn in H. injection H as <- <- <-.
  exists p, eph, n. done.
Qed.

(** The state after [greet]: both HELLOs known, AUTH written. *)
Definition greeted (role : ConnectionRole) (expected : ExpectedPeer) (p : PublicIdentity)
    (eph : bytes * EphemeralSecret) (n : bytes) (remote : Hello) (id : IdentityId) : Handshake C :=
  mkHandshake role expected (pi_id p) (mkHello (signing_public_key p) eph.1 n)
    (Some (remote, id)) (Some eph.2) None true true false false.

(** The longest input of a handshake: an authentication message. *)
Definition handshake_bytes : N := 231.

Lemma transcript_len a b : hello_wf a → hello_wf b → len (Transcript_new a b) = 208%N.
Proof.
  intros Ha Hb. unfold Transcript_new, len.
  rewrite !length_app, !to_be_length, (Hello_encode_length a Ha), (Hello_encode_length b Hb). done.
Qed.
Lemma handshake_transcript_len (h : Handshake C) remote :
  hello_wf (hs_local h) → hello_wf remote → len (Handshake_transcript h remote) = 208%N.
Proof. intros Hl Hr. unfold Handshake_transcript. by case_match; apply transcript_len. Qed.
Lemma authentication_len (h : Handshake C) remote role :
  hello_wf (hs_local h) → hello_wf remote →
  len (Transcript_authentication (Handshake_transcript h remote) role) = handshake_bytes.
Proof.
  intros Hl Hr. unfold Transcript_authentication. rewrite !len_app, handshake_transcript_len by done. done.
Qed.

Lemma greet_Ok role expected p eph n remote q (i j : I) (c : C) :
  hello_wf (mkHello (signing_public_key p) eph.1 n) → (handshake_bytes < signing_budget i)%N →
  public_identity i = Ok p → public_identity j = Ok q → hello_wf remote →
  identity_public_key remote = signing_public_key q → pinned expected (pi_id q) →
  let h := started role expected p eph n in
  ∃ s i', greet (control_frame Hello_t (Hello_encode remote)) (h, i, c) =
      (Ok (Some (control_frame Auth_t s)), (greeted role expected p eph n remote (pi_id q), i', c)) ∧
    length s = 64 ∧
    ∀ d : C, (handshake_bytes ≤ ceiling d)%N → verify_signature d (signing_public_key p)
      (Transcript_authentication (Handshake_transcript h remote) role) s = Ok tt.
Proof.
  intros Hwl Hbud Hp Hq Hwf Hk Hpin h. pose proof (authentication_len h remote role Hwl Hwf) as Hal.
  destruct (sign_verifies i p (Transcript_authentication (Handshake_transcript h remote) role) Hp)
    as (s & Hs & Hv); [by rewrite Hal |]. rewrite Hal in Hv.
  destruct (sign_authentication i _) as [r i'] eqn:Hsign. cbn in Hs. subst r.
  exists s, i'. assert (length s = 64) as Hlen.
  { eapply (sign_authentication_64 i). by rewrite Hsign. }
  split_and!; [| done | done].
  assert (process_hello (control_frame Hello_t (Hello_encode remote)) (set_hello_sent h, i, c) =
    (Ok (Some (control_frame Auth_t s)),
      (set_remote (remote, pi_id q) (set_hello_sent h), i', c))) as Hph.
  { unfold process_hello, get_handshake, on_identity, on_handshake. unfold_m.
    cbn -[Hello_decode Hello_encode raw_frame].
    rewrite Hello_decode_encode by done. cbn -[raw_frame]. rewrite Hk, (identify_published j i q Hq). cbn -[raw_frame].
    replace (match expected with Known e => bool_decide (e = pi_id q) | Unpinned => true end)
      with true by (destruct expected; [by rewrite bool_decide_true | done]).
    cbn -[raw_frame]. unfold Transcript_sign.
    change (Handshake_transcript (set_hello_sent h) remote) with (Handshake_transcript h remote).
    rewrite Hsign. cbn -[raw_frame Auth_encode]. by rewrite raw_frame_auth. }
  assert (Handshake_receive (control_frame Hello_t (Hello_encode remote)) (set_hello_sent h, i, c) =
    (Ok (Some (control_frame Auth_t s)),
      (set_remote (remote, pi_id q) (set_hello_sent h), i', c))) as Hr.
  { unfold Handshake_receive.
    change (Handshake_process _ (set_hello_sent h, i, c)) with
      (process_hello (control_frame Hello_t (Hello_encode remote)) (set_hello_sent h, i, c)).
    by rewrite Hph. }
  unfold greet. rewrite (bind_Ok (mark_sent Hello_t) _ _ tt (set_hello_sent h, i, c)) by done.
  rewrite (bind_Ok _ _ _ _ _ Hr). done.
Qed.

(** The keys of one side, from the shared secret and the transcript. *)
Definition keys_of (role : ConnectionRole) (s : SharedSecret) (t : Transcript)
    : SessionKeys IntegrityKey :=
  let prk := prk_of (hash (keys_label ++ [x00] ++ t)) s in
  let dir (k n : bytes) := mkDirectionKeys (key_of prk k) (prefix_of prk n) in
  let i2a := dir (list_byte_of_string "CR2SE-NETWORK-V1-I2A-KEY")
    (list_byte_of_string "CR2SE-NETWORK-V1-I2A-NONCE") in
  let a2i := dir (list_byte_of_string "CR2SE-NETWORK-V1-A2I-KEY")
    (list_byte_of_string "CR2SE-NETWORK-V1-A2I-NONCE") in
  match role with
  | Initiator => mkSessionKeys i2a a2i
  | Acceptor => mkSessionKeys a2i i2a
  end.

Lemma derive_keys_Ok role k remote t s (c : C) :
  len t = 208%N → (handshake_bytes ≤ ceiling c)%N →
  (∀ d : C, (agree d k remote).1 = Ok s) →
  (derive_keys role k remote t c).1 = Ok (keys_of role s t).
Proof.
  intros Ht Hc Ha. unfold handshake_bytes in Hc. unfold derive_keys. unfold_m. specialize (Ha c).
  pose proof (ceiling_agree c k remote) as K1.
  destruct (agree c k remote) as [r c1]. cbn in Ha, K1. subst r.
  assert (len (keys_label ++ [x00] ++ t) = 230%N) as Hkl by (rewrite !len_app, Ht; reflexivity).
  rewrite hash_spec by (rewrite Hkl, K1; lia).
  set (t' := hash _). assert (len t' = 32%N) as Ht' by apply (len_length _ _ (hash_32 _)).
  pose proof (extract_spec c1 t' s ltac:(rewrite Ht', K1; lia)) as He.
  pose proof (ceiling_extract c1 t' s) as K2.
  destruct (extract c1 t' s) as [r c2]. cbn in He, K2. subst r.
  set (l1 := list_byte_of_string "CR2SE-NETWORK-V1-I2A-KEY").
  assert (len l1 = 24%N) as L1 by reflexivity.
  pose proof (expand_key_spec c2 (prk_of t' s) l1 ltac:(rewrite L1; lia)) as H1.
  pose proof (ceiling_expand c2 (prk_of t' s) l1) as K3.
  destruct (expand_key c2 (prk_of t' s) l1) as [r c3]. cbn in H1, K3. subst r.
  set (l2 := list_byte_of_string "CR2SE-NETWORK-V1-A2I-KEY").
  assert (len l2 = 24%N) as L2 by reflexivity.
  pose proof (expand_key_spec c3 (prk_of t' s) l2 ltac:(rewrite L2; lia)) as H2.
  pose proof (ceiling_expand c3 (prk_of t' s) l2) as K4.
  destruct (expand_key c3 (prk_of t' s) l2) as [r c4]. cbn in H2, K4. subst r.
  assert (len (list_byte_of_string "CR2SE-NETWORK-V1-I2A-NONCE") = 26%N) as L3 by reflexivity.
  assert (len (list_byte_of_string "CR2SE-NETWORK-V1-A2I-NONCE") = 26%N) as L4 by reflexivity.
  rewrite !expand_nonce_prefix_spec by (rewrite ?L3, ?L4; lia). cbn. by destruct role.
Qed.

Lemma conclude_Ok role expected p eph n remote id (i : I) (c : C) s auth :
  length auth = 64 → (handshake_bytes ≤ ceiling c)%N →
  (let h := greeted role expected p eph n remote id in
   hello_wf (hs_local h) → hello_wf remote →
   verify_signature c (identity_public_key remote)
     (Transcript_authentication (Handshake_transcript h remote) (opposite role)) auth = Ok tt →
   (∀ d : C, (agree d eph.2 (ephemeral_public_key remote)).1 = Ok s) →
   (conclude (control_frame Auth_t auth) (h, i, c)).1 =
   Ok (Some (mkEstablished role (pi_id p) id (keys_of role s (Handshake_transcript h remote))))).
Proof.
  intros Hlen Hc h Hwl Hwr Hv Ha.
  pose proof (derive_keys_Ok role eph.2 (ephemeral_public_key remote)
    (Handshake_transcript h remote) s c (handshake_transcript_len h remote Hwl Hwr) Hc Ha) as Hk.
  destruct (derive_keys role eph.2 (ephemeral_public_key remote) (Handshake_transcript h remote) c)
    as [r c'] eqn:Hd. cbn in Hk. subst r.
  assert (process_auth (control_frame Auth_t auth) remote (h, i, c) =
    (Ok None, (set_peer_verified (set_keys (Some (keys_of role s (Handshake_transcript h remote)))
      (set_private None h)), i, c'))) as Hpa.
  { unfold process_auth. rewrite (bind_Ok get_handshake _ _ h (h, i, c)) by done.
    rewrite (bind_Ok _ _ _ auth (h, i, c)).
    2:{ unfold Auth_decode, lift. cbn. by rewrite (len_length _ _ Hlen). }
    rewrite (bind_Ok _ _ _ tt (h, i, c)).
    2:{ unfold on_crypto, query, Transcript_verify. change (hs_role h) with role. by rewrite Hv. }
    rewrite (bind_Ok _ _ _ tt (set_private None h, i, c)) by done.
    rewrite (bind_Ok _ _ _ eph.2 (set_private None h, i, c)) by done.
    rewrite (bind_Ok _ _ _ (keys_of role s (Handshake_transcript h remote))
      (set_private None h, i, c')); [done |].
    unfold on_crypto. change (hs_role h) with role. by rewrite Hd. }
  unfold conclude. erewrite bind_Ok.
  2:{ unfold Handshake_receive.
      change (Handshake_process _ (h, i, c)) with
        (process_auth (control_frame Auth_t auth) remote (h, i, c)).
      by rewrite Hpa. }
  done.
Qed.

(** C2: two honest endpoints agree.  When initiator and acceptor begin over
    correct adapters whose budgets take a handshake's messages, and each either pins the other's identity or
    pins nobody, then delivering each side's frames to the other takes both to
    [Established]; each reports the other's identity as its peer, and each
    side's sending key and nonce prefix are the other's receiving ones. *)
Theorem handshake_agreement (exp_i exp_a : ExpectedPeer) (ii ia : I) (ci ca ci0 ca0 : C)
    (hi ha : Handshake C) (fi fa : WireFrame) :
  Handshake_begin Initiator exp_i ii ci = (Ok (hi, fi), ci0) →
  Handshake_begin Acceptor exp_a ia ca = (Ok (ha, fa), ca0) →
  (handshake_bytes < signing_budget ii)%N → (handshake_bytes < signing_budget ia)%N →
  (handshake_bytes ≤ ceiling ci0)%N → (handshake_bytes ≤ ceiling ca0)%N →
  pinned exp_i (hs_local_identity ha) → pinned exp_a (hs_local_identity hi) →
  ∃ auth_i auth_a si sa ei ea,
    greet fa (hi, ii, ci0) = (Ok (Some auth_i), si) ∧
    greet fi (ha, ia, ca0) = (Ok (Some auth_a), sa) ∧
    (conclude auth_a si).1 = Ok (Some ei) ∧
    (conclude auth_i sa).1 = Ok (Some ea) ∧
    est_role ei = Initiator ∧ est_role ea = Acceptor ∧
    est_peer_identity ei = est_local_identity ea ∧
    est_peer_identity ea = est_local_identity ei ∧
    sk_send (est_keys ei) = sk_receive (est_keys ea) ∧
    sk_send (est_keys ea) = sk_receive (est_keys ei).
Proof.
  intros (p & e & n & Hp & He & -> & Hwf & ->)%Handshake_begin_Ok
    (q & f & m & Hq & Hf & -> & Hwf' & ->)%Handshake_begin_Ok Hbi Hba Hci Hca Hpi Hpa.
  set (li := mkHello (signing_public_key p) e.1 n). set (la := mkHello (signing_public_key q) f.1 m).
  change (hs_local (started Initiator exp_i p e n)) with li in *.
  change (hs_local (started Acceptor exp_a q f m)) with la in *.
  destruct (greet_Ok Initiator exp_i p e n la q ii ia ci0) as (s & i' & Hg & Hs & Hv); [done.. |].
  destruct (greet_Ok Acceptor exp_a q f m li p ia ii ca0) as (t & j' & Hg' & Ht & Hv'); [done.. |].
  destruct e as [ep ek], f as [fp fk].
  destruct (agree_commutes ci ca ep ek fp fk He Hf ci0 ca0) as (z & Hz & Hz').
  assert (∀ c, (agree c ek fp).1 = Ok z) as Hai.
  { intros c. destruct (agree_commutes ci ca ep ek fp fk He Hf c ca0) as (y & Hy & Hy'). congruence. }
  assert (∀ c, (agree c fk ep).1 = Ok z) as Haa.
  { intros c. destruct (agree_commutes ci ca ep ek fp fk He Hf ci0 c) as (y & Hy & Hy'). congruence. }
  eexists _, _, _, _, _, _. split; [exact Hg |]. split; [exact Hg' |].
  split; [apply (conclude_Ok _ _ _ _ _ _ _ _ _ z t Ht Hci Hwf Hwf'); [by apply Hv' | exact Hai] |].
  split; [apply (conclude_Ok _ _ _ _ _ _ _ _ _ z s Hs Hca Hwf' Hwf); [by apply Hv | exact Haa] |].
  split_and!; done.
Qed.

End agreement.

(** ** Witnesses *)

(** Endpoint 5 dials, endpoint 9 accepts; 5 pins 9. *)
Definition dial : result HandshakeError (Handshake N * WireFrame) * N :=
  Handshake_begin Initiator (Known (to_be 32 9)) 5%N 100%N.
Definition answer : result HandshakeError (Handshake N * WireFrame) * N :=
  Handshake_begin Acceptor Unpinned 9%N 200%N.
Definition outcome {E A} (d : A) (r : result E A) : A :=
  match r with Ok a => a | Err _ => d end.
Definition no_handshake : Handshake N * WireFrame :=
  (started Initiator Unpinned (mkPublicIdentity [] []) ([], 0%N) [], control_frame Hello_t []).
Definition dialled : Handshake N * WireFrame := outcome no_handshake dial.1.
Definition answered : Handshake N * WireFrame := outcome no_handshake answer.1.

Lemma handshake_agreement_witness :
  ∃ auth_i auth_a si sa ei ea,
    greet answered.2 (dialled.1, 5%N, 102%N) = (Ok (Some auth_i), si) ∧
    greet dialled.2 (answered.1, 9%N, 202%N) = (Ok (Some auth_a), sa) ∧
    (conclude auth_a si).1 = Ok (Some ei) ∧
    (conclude auth_i sa).1 = Ok (Some ea) ∧
    est_role ei = Initiator ∧ est_role ea = Acceptor ∧
    est_peer_identity ei = est_local_identity ea ∧
    est_peer_identity ea = est_local_identity ei ∧
    sk_send (est_keys ei) = sk_receive (est_keys ea) ∧
    sk_send (est_keys ea) = sk_receive (est_keys ei).
Proof.
  apply (handshake_agreement (Known (to_be 32 9)) Unpinned 5%N 9%N 100%N 200%N 102%N 202%N);
    vm_compute; first [reflexivity | exact I | discriminate].
Defined.

(** The dialler's calls, against the AUTH the acceptor computes; a second
    transfer yields nothing. *)
Definition dial_calls : list (hs_call (C := N) (I := N)) :=
  let auth := match (greet dialled.2 (answered.1, 9%N, 202%N)).1 with
              | Ok (Some f) => f
              | _ => control_frame Auth_t []
              end in
  [CallSent Hello_t; CallReceive answered.2; CallSent Auth_t; CallReceive auth; CallTake; CallTake].

Lemma handshake_sound_witness :
  let taken := (hs_run dial_calls (dialled.1, 5%N, 102%N)).1 in
  length taken = 1 ∧
  Forall (certified (C := N) (I := N) dial_calls Initiator (Known (to_be 32 9))
    (hs_local_identity dialled.1) (hs_local dialled.1)) taken.
Proof.
  split; [vm_compute; reflexivity |].
  apply (handshake_sound Initiator (Known (to_be 32 9)) 5%N 100%N 102%N dialled.1 dialled.2 dial_calls).
  vm_compute. reflexivity.
Defined.
