(* ===== verification/Integrity.v ===== *)
(** * Frame integrity

    [src/modules/transport/integrity/mod.rs]: per-connection directional keys
    and independent implicit sequence counters.  A method's state pairs the
    [Integrity] with the shared store, because sealing moves a frame's
    outbound reservation and every rejected frame drops it. *)

From S2P Require Import Prelude Bytes Header Api Resources Framing Ports Handshake.

#[local] Open Scope N_scope.

Inductive IntegrityError : Type :=
| IntClosed
| IntBusy
| IntShape
| IntExhausted
| IntDependency (e : DependencyError)
| IntFraming (e : FramingError).

#[global] Instance IntegrityError_eq_dec : EqDecision IntegrityError.
Proof. solve_decision. Defined.

Record Integrity (K : Type) : Type := mkIntegrity {
  int_send : option (DirectionKeys K);
  int_receive : option (DirectionKeys K);
  send_sequence : N;
  receive_sequence : N;
  pending_send : bool;
}.
Arguments mkIntegrity {K}.
Arguments int_send {K}.
Arguments int_receive {K}.
Arguments send_sequence {K}.
Arguments receive_sequence {K}.
Arguments pending_send {K}.

(** [VerifiedFrame(WireFrame)]: only [Integrity_verify] produces one. *)
Record VerifiedFrame : Type := mkVerifiedFrame { verified : WireFrame }.

Definition VerifiedFrame_into_payload (v : VerifiedFrame) (st : Store) : bytes * Store :=
  (payload (verified v), drop_option (reservation (verified v)) st).

(** The authenticated bytes: canonical header, then payload. *)
Definition frame_aad (f : WireFrame) : bytes := FrameHeader_encode (header f) ++ payload f.
#[global] Arguments frame_aad : simpl never.

Section integrity.
Context {C : Type} `{!Cryptography C}.

Definition Integrity_new (keys : SessionKeys IntegrityKey) : Integrity IntegrityKey :=
  mkIntegrity (Some (sk_send keys)) (Some (sk_receive keys)) 0 0 false.

Definition Integrity_close (g : Integrity IntegrityKey) : Integrity IntegrityKey :=
  mkIntegrity None None (send_sequence g) (receive_sequence g) false.

Definition Integrity_is_closed (g : Integrity IntegrityKey) : bool :=
  bool_decide (int_send g = None).

Definition Integrity_fail {A} (e : IntegrityError) (g : Integrity IntegrityKey)
    : result IntegrityError A * Integrity IntegrityKey :=
  (Err e, Integrity_close g).

Definition set_pending (g : Integrity IntegrityKey) : Integrity IntegrityKey :=
  mkIntegrity (int_send g) (int_receive g) (send_sequence g) (receive_sequence g) true.

Definition Integrity_seal (frame : WireFrame) (crypto : C)
    : M (Integrity IntegrityKey * Store) IntegrityError WireFrame :=
  λ '(g, st),
  let dropped := drop_option (reservation frame) st in
  match int_send g with
  | None => (Err IntClosed, (g, dropped))
  | Some direction =>
    if pending_send g then (Err IntBusy, (g, dropped)) else
    if bool_decide (is_Some (tag frame)) then
      let '(r, g) := Integrity_fail IntShape g in (r, (g, dropped)) else
    if send_sequence g =? u64_limit - 1 then
      let '(r, g) := Integrity_fail IntExhausted g in (r, (g, dropped)) else
    match mac_tag crypto (dk_key direction)
            (nonce (nonce_prefix direction) (send_sequence g)) (frame_aad frame) with
    | Err error => let '(r, g) := Integrity_fail (IntDependency error) g in (r, (g, dropped))
    | Ok t =>
      let st := retain_option (reservation frame) st in
      (* [frame.into_payload()] drops the original owner. *)
      let st := drop_option (reservation frame) st in
      match WireFrame_new (header frame) (payload frame) (Some t) with
      | Err e => (Err (IntFraming e), (g, drop_option (reservation frame) st))
      | Ok f => (Ok (with_reservation (reservation frame) f), (set_pending g, st))
      end
    end
  end.

Definition Integrity_sent (g : Integrity IntegrityKey)
    : result IntegrityError unit * Integrity IntegrityKey :=
  match int_send g with
  | None => (Err IntClosed, g)
  | Some _ =>
    if negb (pending_send g) then Integrity_fail IntShape g else
    match checked_add u64_limit (send_sequence g) 1 with
    | None => (Err IntExhausted, g)
    | Some next =>
      (Ok tt, mkIntegrity (int_send g) (int_receive g) next (receive_sequence g) false)
    end
  end.

Definition Integrity_verify (frame : WireFrame) (crypto : C)
    : M (Integrity IntegrityKey * Store) IntegrityError VerifiedFrame :=
  λ '(g, st),
  let dropped := drop_option (reservation frame) st in
  match int_receive g with
  | None => (Err IntClosed, (g, dropped))
  | Some direction =>
    match tag frame with
    | None => let '(r, g) := Integrity_fail IntShape g in (r, (g, dropped))
    | Some t =>
      match verify_tag crypto (dk_key direction)
              (nonce (nonce_prefix direction) (receive_sequence g)) (frame_aad frame) t with
      | Err error => let '(r, g) := Integrity_fail (IntDependency error) g in (r, (g, dropped))
      | Ok _ =>
        match checked_add u64_limit (receive_sequence g) 1 with
        | None => let '(r, g) := Integrity_fail IntExhausted g in (r, (g, dropped))
        | Some next =>
          (Ok (mkVerifiedFrame frame),
           (mkIntegrity (int_send g) (int_receive g) (send_sequence g) next (pending_send g), st))
        end
      end
    end
  end.

End integrity.
