(* ===== verification/IntegrityProps.v ===== *)
(** * Integrity properties

    Sequence discipline over arbitrary runs, ordered authentic delivery under
    an unforgeable tag, lockstep round trip, and the finality of failures. *)

From S2P Require Import Prelude Bytes Header Api Resources Framing Ports Handshake Integrity.

#[local] Open Scope N_scope.

Lemma nonce_inj prefix a b :
  a < u64_limit → b < u64_limit → nonce prefix a = nonce prefix b → a = b.
Proof.
  intros Ha Hb E. unfold nonce in E. apply app_inv_head in E.
  by rewrite <- (from_to_be_small 8 a), <- (from_to_be_small 8 b), E.
Qed.

Lemma frame_aad_inj f g :
  header_wf (header f) → header_wf (header g) → frame_aad f = frame_aad g →
  header f = header g ∧ payload f = payload g.
Proof.
  intros Hf Hg E. unfold frame_aad in E.
  apply app_inj_1 in E as [E ->]; [| by rewrite !FrameHeader_encode_length].
  split; [by apply FrameHeader_encode_inj | done].
Qed.

(** What two frames must share to say the same. *)
Definition content (f : WireFrame) : FrameHeader * bytes := (header f, payload f).

Lemma prefix_lookup {A} (l k : list A) :
  (∀ i x, l !! i = Some x → k !! i = Some x) → l `prefix_of` k.
Proof.
  revert k. induction l as [| x l IH]; intros k H; [apply prefix_nil |].
  destruct k as [| y k]; [by specialize (H 0%nat x eq_refl) |].
  pose proof (H 0%nat x eq_refl) as [= ->]. apply prefix_cons, IH.
  intros i z Hi. exact (H (S i) z Hi).
Qed.

Section runs.
Context {C : Type} `{!Cryptography C}.

Inductive int_call : Type :=
| CallSeal (frame : WireFrame) (crypto : C)
| CallSentFrame
| CallVerify (frame : WireFrame) (crypto : C)
| CallCloseKeys.

Abbreviation IntSt := (Integrity IntegrityKey * Store)%type.

(** The frame a call released, sealed or verified, if it succeeded. *)
Definition int_exec (call : int_call) (s : IntSt)
    : option WireFrame * option WireFrame * IntSt :=
  match call with
  | CallSeal frame crypto =>
    let '(r, s) := Integrity_seal frame crypto s in
    (match r with Ok f => Some f | Err _ => None end, None, s)
  | CallSentFrame => (None, None, ((Integrity_sent s.1).2, s.2))
  | CallVerify frame crypto =>
    let '(r, s) := Integrity_verify frame crypto s in
    (None, match r with Ok v => Some (verified v) | Err _ => None end, s)
  | CallCloseKeys => (None, None, (Integrity_close s.1, s.2))
  end.

(** All frames sealed, and all frames verified, in order. *)
Fixpoint int_run (calls : list int_call) (s : IntSt)
    : list WireFrame * list WireFrame * IntSt :=
  match calls with
  | [] => ([], [], s)
  | call :: calls =>
    let '(sealed, verified, s) := int_exec call s in
    let '(sealed', verified', s) := int_run calls s in
    (option_list sealed ++ sealed', option_list verified ++ verified', s)
  end.

Definition sealed_at (d : DirectionKeys IntegrityKey) (k : nat) (f : WireFrame) : Prop :=
  N.of_nat k < u64_limit - 1 ∧
  ∃ c t, tag f = Some t ∧
    mac_tag c (dk_key d) (nonce (nonce_prefix d) (N.of_nat k)) (frame_aad f) = Ok t.
Definition verified_at (d : DirectionKeys IntegrityKey) (k : nat) (f : WireFrame) : Prop :=
  N.of_nat k < u64_limit - 1 ∧
  ∃ c t, tag f = Some t ∧
    verify_tag c (dk_key d) (nonce (nonce_prefix d) (N.of_nat k)) (frame_aad f) t = Ok tt.

(** [n] frames sealed and [m] verified so far. *)
Record int_inv (keys : SessionKeys IntegrityKey) (n m : nat) (g : Integrity IntegrityKey)
    : Prop := {
  ii_send : int_send g = None ∨
    int_send g = Some (sk_send keys) ∧
    send_sequence g + (if pending_send g then 1 else 0) = N.of_nat n ∧ N.of_nat n < u64_limit;
  ii_receive : int_receive g = None ∨
    int_receive g = Some (sk_receive keys) ∧
    receive_sequence g = N.of_nat m ∧ N.of_nat m < u64_limit;
}.

Lemma int_inv_close keys n m n' m' g : int_inv keys n m g → int_inv keys n' m' (Integrity_close g).
Proof. intros _. split; by left. Qed.

Definition count {A} (o : option A) : nat := match o with Some _ => 1 | None => 0 end.

Lemma int_exec_inv keys n m call g st sealed verified s :
  int_inv keys n m g → int_exec call (g, st) = (sealed, verified, s) →
  int_inv keys (n + count sealed) (m + count verified) s.1 ∧
  (∀ f, sealed = Some f → sealed_at (sk_send keys) n f) ∧
  (∀ f, verified = Some f → verified_at (sk_receive keys) m f).
Proof.
  intros Hinv He. pose proof (int_inv_close _ _ _ n m _ Hinv) as Hc.
  destruct call as [frame crypto | | frame crypto |]; cbn [int_exec fst snd] in He.
  - destruct (Integrity_seal frame crypto (g, st)) as [r s'] eqn:Hs. injection He as <- <- <-.
    destruct r as [f | e]; cbn [count]; rewrite ?Nat.add_0_r.
    2:{ split_and!; [| done | done]. unfold Integrity_seal, Integrity_fail in Hs.
        repeat case_match; simplify_eq/=; done. }
    unfold Integrity_seal in Hs. destruct (int_send g) as [d |] eqn:Hd; [| done].
    destruct (pending_send g) eqn:Hp; [done |]. case_bool_decide; [done |].
    destruct (N.eqb_spec (send_sequence g) (u64_limit - 1)) as [| Hne]; [done |].
    destruct (mac_tag _ _ _ _) as [t |] eqn:Ht; [| done].
    unfold WireFrame_new in Hs. destruct (len (payload frame) =? payload_len (header frame)); [| done].
    cbn in Hs. simplify_eq/=. destruct Hinv as [[Hx | (Hx & Hseq & Hlt)] Hr]; [congruence |].
    rewrite Hd in Hx. rewrite Hp, N.add_0_r in Hseq. simplify_eq. split_and!; [| | done].
    + split; cbn; [right | done]. rewrite Hd. split_and!; [done | lia | lia].
    + intros f [= <-]. split; [lia |]. exists crypto, t. rewrite <- Hseq. done.
  - injection He as <- <- <-. cbn [count]. rewrite !Nat.add_0_r. split_and!; [| done | done].
    unfold Integrity_sent, Integrity_fail. cbn [fst].
    destruct Hinv as [[Hx | (Hx & Hseq & Hlt)] Hr]; rewrite Hx; [by split; [left |] |].
    destruct (pending_send g) eqn:Hp; [| done]. cbn.
    destruct (checked_add _ _ _) as [nx |] eqn:Ha; cbn.
    + apply checked_add_Some in Ha as [-> Ha].
      split; cbn; [right; split_and!; [done | lia | done] | done].
    + apply checked_add_None in Ha. lia.
  - destruct (Integrity_verify frame crypto (g, st)) as [r s'] eqn:Hs. injection He as <- <- <-.
    destruct r as [f | e]; cbn [count]; rewrite ?Nat.add_0_r.
    2:{ split_and!; [| done | done]. unfold Integrity_verify, Integrity_fail in Hs.
        repeat case_match; simplify_eq/=; done. }
    unfold Integrity_verify in Hs. destruct (int_receive g) as [d |] eqn:Hd; [| done].
    destruct (tag frame) as [t |] eqn:Ht; [| done].
    destruct (verify_tag _ _ _ _ _) as [[] |] eqn:Hv; [| done].
    destruct (checked_add _ _ _) as [nx |] eqn:Ha; [| done].
    apply checked_add_Some in Ha as [-> Ha].
    simplify_eq/=. destruct Hinv as [Hx [Hr | (Hr & Hseq & Hlt)]]; [congruence |].
    rewrite Hd in Hr. simplify_eq. split_and!; [| done |].
    + split; cbn; [done | right]. split_and!; [done | lia | lia].
    + intros f [= <-]. split; [lia |]. exists crypto, t. rewrite <- Hseq. done.
  - injection He as <- <- <-. cbn [count]. by rewrite !Nat.add_0_r.
Qed.

Lemma int_run_inv keys calls : ∀ n m g st sealed verified s,
  int_inv keys n m g → int_run calls (g, st) = (sealed, verified, s) →
  (∀ k f, sealed !! k = Some f → sealed_at (sk_send keys) (n + k) f) ∧
  (∀ k f, verified !! k = Some f → verified_at (sk_receive keys) (m + k) f).
Proof.
  induction calls as [| call calls IH]; intros n m g st sealed verified s Hinv Hrun; cbn [int_run] in Hrun.
  { by simplify_eq. }
  destruct (int_exec call (g, st)) as [[sl vf] [g1 st1]] eqn:He.
  destruct (int_run calls (g1, st1)) as [[sl' vf'] s'] eqn:Hrun'. injection Hrun as <- <- <-.
  destruct (int_exec_inv _ _ _ _ _ _ _ _ _ Hinv He) as (Hinv' & Hsl & Hvf).
  destruct (IH _ _ _ _ _ _ _ Hinv' Hrun') as [IHs IHv]. split.
  - intros k f. destruct sl as [x |]; cbn in *; [| rewrite <- (Nat.add_0_r n); apply IHs].
    destruct k as [| k]; cbn; [intros [= <-]; rewrite Nat.add_0_r; by apply Hsl |].
    intros Hk. replace (n + S k)%nat with (n + 1 + k)%nat by lia. by apply IHs.
  - intros k f. destruct vf as [x |]; cbn in *; [| rewrite <- (Nat.add_0_r m); apply IHv].
    destruct k as [| k]; cbn; [intros [= <-]; rewrite Nat.add_0_r; by apply Hvf |].
    intros Hk. replace (m + S k)%nat with (m + 1 + k)%nat by lia. by apply IHv.
Qed.

Lemma Integrity_new_inv keys : int_inv keys 0 0 (Integrity_new keys).
Proof. split; right; done. Qed.

(** No nonce is ever used for two frames.  Over any run of sealing,
    completed writes, verifications and closures of one session, the [k]-th
    frame ever sealed carries a tag computed under the sending key with
    sequence number [k], the [k]-th frame ever verified was checked under the
    receiving key with sequence number [k], and the numbers stay below
    [u64::MAX]; the nonces of different positions differ. *)
Theorem sequence_discipline (keys : SessionKeys IntegrityKey) (st : Store)
    (calls : list int_call) (sealed verified : list WireFrame) (s : IntSt) :
  int_run calls (Integrity_new keys, st) = (sealed, verified, s) →
  (∀ k f, sealed !! k = Some f → sealed_at (sk_send keys) k f) ∧
  (∀ k f, verified !! k = Some f → verified_at (sk_receive keys) k f) ∧
  (∀ j k f g, sealed !! j = Some f → sealed !! k = Some g → j ≠ k →
     nonce (nonce_prefix (sk_send keys)) (N.of_nat j) ≠
     nonce (nonce_prefix (sk_send keys)) (N.of_nat k)).
Proof.
  intros Hrun. destruct (int_run_inv keys calls 0 0 _ _ _ _ _ (Integrity_new_inv keys) Hrun) as [Hs Hv].
  split_and!; [exact Hs | exact Hv |]. intros j k f g Hj Hk Hne E.
  destruct (Hs _ _ Hj) as [? _], (Hs _ _ Hk) as [? _]. apply nonce_inj in E; lia.
Qed.

(** The frames handed to [verify] in a run. *)
Definition presented (calls : list int_call) : list WireFrame :=
  omap (λ call, match call with CallVerify f _ => Some f | _ => None end) calls.
Definition submitted (calls : list int_call) : list WireFrame :=
  omap (λ call, match call with CallSeal f _ => Some f | _ => None end) calls.

Lemma int_exec_origin call s sealed verified s' :
  int_exec call s = (sealed, verified, s') →
  (∀ f, sealed = Some f → ∃ f0, f0 ∈ submitted [call] ∧ header f = header f0) ∧
  (∀ f, verified = Some f → f ∈ presented [call]).
Proof.
  destruct s as [g st]. destruct call as [frame crypto | | frame crypto |]; cbn [int_exec].
  - destruct (Integrity_seal frame crypto (g, st)) as [r s''] eqn:Hs. intros [= <- <- <-].
    split; [| done]. intros f Hf. exists frame. split; [apply list_elem_of_here |].
    destruct r as [f' |]; [| done]. simplify_eq. unfold Integrity_seal, Integrity_fail in Hs.
    repeat case_match; simplify_eq/=; try done. unfold WireFrame_new in *.
    by repeat case_match; simplify_eq/=.
  - by intros [= <- <- <-].
  - destruct (Integrity_verify frame crypto (g, st)) as [r s''] eqn:Hs. intros [= <- <- <-].
    split; [done |]. intros f Hf. destruct r as [v |]; [| done]. simplify_eq.
    unfold Integrity_verify, Integrity_fail in Hs.
    repeat case_match; simplify_eq/=; apply list_elem_of_here.
  - by intros [= <- <- <-].
Qed.

Lemma submitted_cons call calls : submitted (call :: calls) = submitted [call] ++ submitted calls.
Proof. by destruct call. Qed.
Lemma presented_cons call calls : presented (call :: calls) = presented [call] ++ presented calls.
Proof. by destruct call. Qed.

Lemma int_run_origin calls : ∀ s sealed verified s',
  int_run calls s = (sealed, verified, s') →
  (∀ f, f ∈ sealed → ∃ f0, f0 ∈ submitted calls ∧ header f = header f0) ∧
  (∀ f, f ∈ verified → f ∈ presented calls).
Proof.
  induction calls as [| call calls IH]; intros s sealed verified s' Hrun; cbn [int_run] in Hrun.
  { simplify_eq. split; intros f Hf; by apply elem_of_nil in Hf. }
  destruct (int_exec call s) as [[sl vf] s1] eqn:He.
  destruct (int_run calls s1) as [[sl' vf'] s2] eqn:Hr. injection Hrun as <- <- <-.
  apply int_exec_origin in He as [He1 He2]. apply IH in Hr as [IH1 IH2].
  rewrite submitted_cons, presented_cons. split; intros f [Hf | Hf]%elem_of_app.
  - destruct sl; [| by apply elem_of_nil in Hf]. apply list_elem_of_singleton in Hf as ->.
    destruct (He1 _ eq_refl) as (f0 & ? & ?). exists f0. split; [set_solver | done].
  - destruct (IH1 _ Hf) as (f0 & ? & ?). exists f0. split; [set_solver | done].
  - destruct vf; [| by apply elem_of_nil in Hf]. apply list_elem_of_singleton in Hf as ->.
    pose proof (He2 _ eq_refl). set_solver.
  - pose proof (IH2 _ Hf). set_solver.
Qed.

(** C3: authentic, ordered delivery.  Let one endpoint seal frames in any run
    and let anyone present any frames to the other endpoint, whose receiving
    keys are the first one's sending keys.  If no presented tag verifies except
    for a nonce and bytes the sender tagged (unforgeability), the frames the
    receiver releases are, in order and content, an initial segment of the
    frames the sender sealed: nothing injected, altered, reordered, replayed or
    skipped is ever released. *)
Theorem verified_is_prefix (ks kr : SessionKeys IntegrityKey) (st st' : Store)
    (sender receiver : list int_call)
    (sealed verified ignored ignored' : list WireFrame) (s s' : IntSt) :
  sk_send ks = sk_receive kr →
  int_run sender (Integrity_new ks, st) = (sealed, ignored, s) →
  int_run receiver (Integrity_new kr, st') = (ignored', verified, s') →
  Forall (λ f, header_wf (header f)) (submitted sender) →
  Forall (λ f, header_wf (header f)) (presented receiver) →
  (∀ c n f t, f ∈ presented receiver → tag f = Some t → n < u64_limit →
     verify_tag c (dk_key (sk_receive kr)) (nonce (nonce_prefix (sk_receive kr)) n)
       (frame_aad f) t = Ok tt →
     ∃ j g, sealed !! j = Some g ∧ frame_aad g = frame_aad f ∧
       nonce (nonce_prefix (sk_send ks)) (N.of_nat j) = nonce (nonce_prefix (sk_receive kr)) n) →
  content <$> verified `prefix_of` content <$> sealed.
Proof.
  intros Hk Hs Hr Hwfs Hwfr Hunf. apply prefix_lookup. intros k x Hx.
  rewrite list_lookup_fmap in Hx. destruct (verified !! k) as [f |] eqn:Hf; [| done].
  injection Hx as <-.
  destruct (int_run_inv ks sender 0 0 _ _ _ _ _ (Integrity_new_inv ks) Hs) as [Hsl _].
  destruct (int_run_inv kr receiver 0 0 _ _ _ _ _ (Integrity_new_inv kr) Hr) as [_ Hvf].
  destruct (int_run_origin _ _ _ _ _ Hs) as [Hso _]. destruct (int_run_origin _ _ _ _ _ Hr) as [_ Hro].
  destruct (Hvf _ _ Hf) as (Hlt & c & t & Ht & Hv). cbn in Hlt, Hv.
  pose proof (Hro f ltac:(by eapply list_elem_of_lookup_2)) as Hfp.
  destruct (Hunf c (N.of_nat k) f t Hfp Ht ltac:(lia) Hv) as (j & g & Hg & Ha & Hn).
  destruct (Hsl _ _ Hg) as [Hj _]. cbn in Hj. rewrite <- Hk in Hn. apply nonce_inj in Hn; [| lia..].
  assert (j = k) as -> by lia. rewrite list_lookup_fmap, Hg. cbn. f_equal. unfold content.
  destruct (Hso g ltac:(by eapply list_elem_of_lookup_2)) as (g0 & Hg0 & Hh).
  destruct (frame_aad_inj g f) as [-> ->]; [| | done | done].
  - rewrite Hh. by eapply Forall_forall in Hg0; [| exact Hwfs].
  - by eapply Forall_forall in Hfp; [| exact Hwfr].
Qed.

(** Keys released by a failure are never used again. *)
Definition keyless (g : Integrity IntegrityKey) : Prop := int_send g = None ∧ int_receive g = None.

Lemma keyless_close g : keyless (Integrity_close g).
Proof. done. Qed.

Lemma keyless_exec call g st :
  keyless g → let '(sealed, verified, s) := int_exec call (g, st) in
  sealed = None ∧ verified = None ∧ keyless s.1.
Proof.
  intros [H1 H2]. destruct call; cbn [int_exec fst snd].
  - unfold Integrity_seal. by rewrite H1.
  - unfold Integrity_sent. by rewrite H1.
  - unfold Integrity_verify. by rewrite H2.
  - done.
Qed.

Lemma keyless_run calls : ∀ g st,
  keyless g → (int_run calls (g, st)).1 = ([], []).
Proof.
  induction calls as [| call calls IH]; intros g st Hk; [done |]. cbn [int_run].
  pose proof (keyless_exec call g st Hk) as He.
  destruct (int_exec call (g, st)) as [[sl vf] [g' st']]. destruct He as (-> & -> & Hk').
  specialize (IH g' st' Hk'). destruct (int_run calls (g', st')) as [[a b] s']. cbn in IH.
  by injection IH as -> ->.
Qed.

(** Integrity failures are final.  A frame that fails verification for any
    reason, or a frame that fails sealing for any reason but an unfinished
    previous write (which changes nothing), leaves the session without keys; no
    later call of any kind ever releases a frame, sealed or verified. *)
Theorem integrity_failure_final (g : Integrity IntegrityKey) (st : Store) (frame : WireFrame)
    (c : C) (later : list int_call) :
  (int_send g = None ↔ int_receive g = None) →
  len (payload frame) = payload_len (header frame) →
  (∀ e, (Integrity_verify frame c (g, st)).1 = Err e →
     (int_run later (Integrity_verify frame c (g, st)).2).1 = ([], [])) ∧
  (∀ e, (Integrity_seal frame c (g, st)).1 = Err e →
     e = IntBusy ∧ (Integrity_seal frame c (g, st)).2.1 = g ∨
     (int_run later (Integrity_seal frame c (g, st)).2).1 = ([], [])).
Proof.
  intros Hsame Hshape. split; intros e He.
  - unfold Integrity_verify, Integrity_fail in *.
    destruct (int_receive g) as [d |] eqn:Hd; cbn.
    2:{ apply keyless_run. split; [by apply Hsame | done]. }
    repeat case_match; simplify_eq/=; apply keyless_run, keyless_close.
  - unfold Integrity_seal, Integrity_fail, WireFrame_new in *. rewrite Hshape, N.eqb_refl in *.
    destruct (int_send g) as [d |] eqn:Hd; cbn.
    2:{ right. apply keyless_run. split; [done | by apply Hsame]. }
    repeat case_match; simplify_eq/=; (by left) || (right; apply keyless_run, keyless_close).
Qed.

End runs.

Arguments int_call C : clear implicits.

(** ** Lockstep round trip *)

Section lockstep.
#[local] Set Default Proof Using "Type*".
Context {C : Type} `{!Cryptography C, !CryptographyLaws C}.

Abbreviation IntSt := (Integrity IntegrityKey * Store)%type.

(** Seal and completely write each frame in turn; verify each in turn. *)
Fixpoint seal_all (c : C) (fs : list WireFrame) : M IntSt IntegrityError (list WireFrame) :=
  match fs with
  | [] => mret []
  | f :: fs =>
    x ← Integrity_seal f c;
    call (λ '(g, st), let '(r, g) := Integrity_sent g in (r, (g, st)));;
    xs ← seal_all c fs;
    mret (x :: xs)
  end.
Fixpoint verify_all (c : C) (fs : list WireFrame) : M IntSt IntegrityError (list VerifiedFrame) :=
  match fs with
  | [] => mret []
  | f :: fs =>
    v ← Integrity_verify f c;
    vs ← verify_all c fs;
    mret (v :: vs)
  end.

Definition sealable (f : WireFrame) : Prop :=
  tag f = None ∧ len (payload f) = payload_len (header f).
(** The visible bytes of a frame are within an adapter's ceiling. *)
Definition taken_by (c : C) (f : WireFrame) : Prop := len (frame_aad f) ≤ ceiling c.

Lemma seal_verify_step (c c' : C) f gs gr st st' d :
  sealable f → taken_by c f → taken_by c' f → int_send gs = Some d → int_receive gr = Some d → pending_send gs = false →
  send_sequence gs = receive_sequence gr → send_sequence gs < u64_limit - 1 →
  ∃ x gs1 st1 gr1,
    Integrity_seal f c (gs, st) = (Ok x, (set_pending gs, st1)) ∧
    Integrity_sent (set_pending gs) = (Ok tt, gs1) ∧
    Integrity_verify x c' (gr, st') = (Ok (mkVerifiedFrame x), (gr1, st')) ∧
    content x = content f ∧
    int_send gs1 = Some d ∧ int_receive gr1 = Some d ∧ pending_send gs1 = false ∧
    send_sequence gs1 = send_sequence gs + 1 ∧ receive_sequence gr1 = receive_sequence gr + 1.
Proof.
  intros [Ht Hl] Hc Hc' Hs Hr Hp Hq Hlt.
  destruct (tag_verifies c (dk_key d) (nonce (nonce_prefix d) (send_sequence gs)) (frame_aad f) Hc)
    as (t & Htag & Hver).
  eexists (mkWireFrame (reservation f) (header f) (payload f) (Some t)), _, _, _.
  split. { unfold Integrity_seal. rewrite Hs, Hp, bool_decide_false by (rewrite Ht; by intros []).
    destruct (N.eqb_spec (send_sequence gs) (u64_limit - 1)); [lia |]. rewrite Htag.
    unfold WireFrame_new. rewrite Hl, N.eqb_refl. done. }
  assert (∀ n, n < u64_limit - 1 → checked_add u64_limit n 1 = Some (n + 1)) as Hadd.
  { intros n Hn. apply checked_add_Some. lia. }
  split. { unfold Integrity_sent. cbn [set_pending int_send pending_send negb send_sequence].
    rewrite Hs, Hadd by done. done. }
  split. { unfold Integrity_verify. rewrite Hr. cbn [tag reservation]. rewrite <- Hq.
    change (frame_aad (mkWireFrame _ (header f) (payload f) _)) with (frame_aad f).
    rewrite (Hver c' Hc'), Hadd by done. done. }
  cbn. rewrite Hq. done.
Qed.

Lemma seal_verify_all (c c' : C) fs : ∀ gs gr st st' d,
  Forall sealable fs → Forall (taken_by c) fs → Forall (taken_by c') fs →
  int_send gs = Some d → int_receive gr = Some d → pending_send gs = false →
  send_sequence gs = receive_sequence gr → send_sequence gs + len fs < u64_limit →
  ∃ xs vs, (seal_all c fs (gs, st)).1 = Ok xs ∧ (verify_all c' xs (gr, st')).1 = Ok vs ∧
    content ∘ verified <$> vs = content <$> fs.
Proof.
  induction fs as [| f fs IH]; intros gs gr st st' d Hf Hc Hc' Hs Hr Hp Hq Hlt.
  { by exists [], []. }
  inversion_clear Hf as [| ? ? Hf1 Hf2]. apply Forall_cons in Hc as [Hc1 Hc2], Hc' as [Hc1' Hc2']. rewrite len_cons in Hlt.
  destruct (seal_verify_step c c' f gs gr st st' d) as
    (x & gs1 & st1 & gr1 & E1 & E2 & E3 & Ec & Es & Er & Ep & Eq1 & Eq2); [done.. | lia |].
  destruct (IH gs1 gr1 st1 st' d) as (xs & vs & F1 & F2 & F3); [done.. | lia | lia |].
  exists (x :: xs), (mkVerifiedFrame x :: vs). cbn [seal_all verify_all].
  rewrite (bind_Ok _ _ _ _ _ E1), (bind_Ok _ _ _ tt (gs1, st1)), (bind_Ok _ _ _ _ _ E3).
  2:{ unfold call. by rewrite E2. }
  destruct (seal_all c fs (gs1, st1)) as [r s] eqn:G1.
  destruct (verify_all c' xs (gr1, st')) as [r' s'] eqn:G2. cbn in F1, F2. subst r r'.
  rewrite (bind_Ok _ _ _ _ _ G1), (bind_Ok _ _ _ _ _ G2). split_and!; [done | done |].
  rewrite !fmap_cons, F3. cbn. by rewrite Ec.
Qed.

(** C24: a healthy link loses nothing.  Whatever frames a session seals and
    writes one after the other, the peer session with the matching keys
    verifies every one of them, with the same headers and payloads, in order,
    as long as they are within both adapters' ceilings and fewer than
    [u64::MAX] frames are exchanged. *)
Theorem integrity_roundtrip (ks kr : SessionKeys IntegrityKey) (c c' : C) (st st' : Store)
    (fs : list WireFrame) :
  sk_send ks = sk_receive kr → Forall sealable fs → Forall (taken_by c) fs → Forall (taken_by c') fs →
  len fs < u64_limit →
  ∃ xs vs, (seal_all c fs (Integrity_new ks, st)).1 = Ok xs ∧
    (verify_all c' xs (Integrity_new kr, st')).1 = Ok vs ∧
    content ∘ verified <$> vs = content <$> fs.
Proof.
  intros Hk Hf Hc Hc' Hl. apply (seal_verify_all c c' fs _ _ _ _ (sk_send ks)); try done.
  cbn. by rewrite Hk.
Qed.

End lockstep.

(** ** Witnesses, over the executable adapters *)

Definition toy_keys : SessionKeys (IntegrityKey (C := N)) :=
  mkSessionKeys (mkDirectionKeys [x61] (replicate 16 x00)) (mkDirectionKeys [x62] (replicate 16 x01)).
Definition toy_mirror : SessionKeys (IntegrityKey (C := N)) :=
  mkSessionKeys (sk_receive toy_keys) (sk_send toy_keys).
Definition data_frame (p : bytes) (t : option bytes) : WireFrame :=
  mkWireFrame None (mkFrameHeader Data_t 1 (len p)) p t.
Definition toy_sealed (k : N) (p : bytes) : WireFrame :=
  data_frame p (Some (toy_mac [x61] (nonce (replicate 16 x00) k) (frame_aad (data_frame p None)))).
(** The second frame with its payload altered and the tag kept. *)
Definition toy_forged : WireFrame := data_frame [x09] (tag (toy_sealed 1 [x02])).

Definition toy_sender : list (int_call N) :=
  [CallSeal (data_frame [x01] None) 0; CallSentFrame; CallSeal (data_frame [x02] None) 0].
Definition toy_receiver : list (int_call N) :=
  [CallVerify (toy_sealed 0 [x01]) 0; CallVerify toy_forged 0; CallVerify (toy_sealed 1 [x02]) 0].

Lemma sequence_discipline_witness :
  let run := int_run toy_sender (Integrity_new toy_keys, Store_empty) in
  run.1 = ([toy_sealed 0 [x01]; toy_sealed 1 [x02]], []) ∧
  (∀ k f, run.1.1 !! k = Some f → sealed_at (sk_send toy_keys) k f).
Proof.
  intros run. split; [vm_compute; reflexivity |].
  destruct run as [[sealed verified] s] eqn:E.
  exact (proj1 (sequence_discipline toy_keys Store_empty toy_sender sealed verified s E)).
Defined.

Lemma toy_mac_sequence k a k' a' n j :
  n < u64_limit → j < u64_limit →
  toy_mac k (nonce (replicate 16 x00) n) a = toy_mac k' (nonce (replicate 16 x00) j) a' → n = j.
Proof.
  intros Hn Hj E. unfold toy_mac, nonce in E.
  rewrite !(drop_app_length' (replicate 16 x00)), !from_to_be_small in E by done.
  apply app_inj_1 in E as [E _]; [| by rewrite !to_be_length].
  by rewrite <- (from_to_be_small 8 n), <- (from_to_be_small 8 j), E.
Qed.

Lemma verified_is_prefix_witness :
  content <$> [toy_sealed 0 [x01]] `prefix_of` content <$> [toy_sealed 0 [x01]; toy_sealed 1 [x02]].
Proof.
  refine (verified_is_prefix (C := N) toy_keys toy_mirror Store_empty Store_empty
    toy_sender toy_receiver _ _ [] []
    (int_run toy_sender (Integrity_new toy_keys, Store_empty)).2
    (int_run toy_receiver (Integrity_new toy_mirror, Store_empty)).2 _ _ _ _ _ _).
  - reflexivity.
  - vm_compute. reflexivity.
  - vm_compute. reflexivity.
  - repeat (constructor; [split; vm_compute; done |]). constructor.
  - repeat (constructor; [split; vm_compute; done |]). constructor.
  - intros c n f t Hf Ht Hn Hv.
    cbn -[toy_mac nonce frame_aad toy_sealed toy_forged] in Hv. case_bool_decide as E; [| done].
    subst t. cbn [presented toy_receiver omap list_omap] in Hf.
    apply elem_of_cons in Hf as [-> | Hf]; [| apply elem_of_cons in Hf as [-> | Hf]].
    + apply (inj Some) in Ht. apply toy_mac_sequence in Ht as <-; [| done | done].
      exists 0%nat. eexists. split_and!; [reflexivity | reflexivity | reflexivity].
    + exfalso. apply (inj Some) in Ht. pose proof Ht as E. apply toy_mac_sequence in E as <-; [| done | done].
      vm_compute in Ht. discriminate Ht.
    + apply elem_of_cons in Hf as [-> | Hf]; [| by apply elem_of_nil in Hf].
      apply (inj Some) in Ht. apply toy_mac_sequence in Ht as <-; [| done | done].
      exists 1%nat. eexists. split_and!; [reflexivity | reflexivity | reflexivity].
Defined.

Lemma integrity_failure_final_witness :
  (Integrity_verify toy_forged 0 (Integrity_new toy_mirror, Store_empty)).1 =
    Err (IntDependency VerificationFailed) ∧
  (int_run [CallVerify (toy_sealed 0 [x01]) 0]
     (Integrity_verify toy_forged 0 (Integrity_new toy_mirror, Store_empty)).2).1 = ([], []).
Proof.
  split; [vm_compute; reflexivity |].
  refine (proj1 (integrity_failure_final (Integrity_new toy_mirror) Store_empty toy_forged 0
    [CallVerify (toy_sealed 0 [x01]) 0] _ _) (IntDependency VerificationFailed) _).
  - split; intros H; discriminate H.
  - reflexivity.
  - vm_compute. reflexivity.
Defined.

Lemma integrity_roundtrip_witness :
  ∃ xs vs, (seal_all 0 [data_frame [x01] None; data_frame [] None]
      (Integrity_new toy_keys, Store_empty)).1 = Ok xs ∧
    (verify_all 0 xs (Integrity_new toy_mirror, Store_empty)).1 = Ok vs ∧
    content ∘ verified <$> vs = content <$> [data_frame [x01] None; data_frame [] None].
Proof.
  apply (integrity_roundtrip (C := N) toy_keys toy_mirror 0 0 Store_empty Store_empty).
  - reflexivity.
  - repeat constructor.
  - repeat (constructor; [by vm_compute |]). constructor.
  - repeat (constructor; [by vm_compute |]). constructor.
  - reflexivity.
Defined.
