(* ===== verification/StreamIds.v ===== *)
(** * Stream identifiers

    [src/modules/transport/stream/ids.rs]: constant-space allocation history of
    one connection.  The specification is the history itself, a pair of lists
    of consumed identifiers; the two watermarks implement it. *)

From S2P Require Import Prelude Api.

#[local] Open Scope N_scope.

Inductive IdError : Type := IeExhausted | IeUnexpected.

Record StreamIds : Type := mkStreamIds {
  local_odd : bool;
  next_local : option N;
  next_remote : option N;
  greatest_local : N;
  greatest_remote : N;
}.

Definition StreamIds_new (role : ConnectionRole) : StreamIds :=
  let local_odd := bool_decide (role = Initiator) in
  mkStreamIds local_odd
    (Some (if local_odd then 1 else 2)) (Some (if local_odd then 2 else 1)) 0 0.

Definition allocate : M StreamIds IdError N := λ s,
  match next_local s with
  | None => (Err IeExhausted, s)
  | Some id =>
    (Ok id, mkStreamIds (local_odd s) (checked_add u32_limit id 2) (next_remote s) id
              (greatest_remote s))
  end.

Definition accept (id : N) : M StreamIds IdError unit := λ s,
  if negb (bool_decide (next_remote s = Some id)) then (Err IeUnexpected, s) else
  (Ok tt, mkStreamIds (local_odd s) (next_local s) (checked_add u32_limit id 2)
            (greatest_local s) id).

Definition is_local (s : StreamIds) (id : N) : bool :=
  negb (id =? 0) && eqb (id mod 2 =? 1) (local_odd s).

Definition was_created (s : StreamIds) (id : N) : bool :=
  negb (id =? 0) && (id <=? if is_local s id then greatest_local s else greatest_remote s).

(** ** The history the watermarks stand for *)

(** The first [n] identifiers of one side. *)
Definition side_ids (odd : bool) (n : nat) : list N :=
  (λ k, N.of_nat k * 2 + (if odd then 1 else 2)) <$> seq 0 n.

(** [n] local and [m] remote identifiers have been consumed. *)
Definition side_wf (odd : bool) (n : nat) (nxt : option N) (greatest : N) : Prop :=
  let first := if odd then 1 else 2 in
  nxt = (if N.of_nat n * 2 + first <? u32_limit then Some (N.of_nat n * 2 + first) else None) ∧
  greatest = (if decide (n = 0%nat) then 0 else N.of_nat n * 2 + first - 2) ∧
  (n = 0%nat ∨ N.of_nat n * 2 + first - 2 < u32_limit).

Record ids_wf (s : StreamIds) (n m : nat) : Prop := {
  ids_local : side_wf (local_odd s) n (next_local s) (greatest_local s);
  ids_remote : side_wf (negb (local_odd s)) m (next_remote s) (greatest_remote s);
}.

Lemma StreamIds_new_wf role : ids_wf (StreamIds_new role) 0 0.
Proof. destruct role; split; repeat split; by left. Qed.

Lemma side_wf_step odd n id g :
  side_wf odd n (Some id) g →
  id = N.of_nat n * 2 + (if odd then 1 else 2) ∧ id < u32_limit ∧
  side_wf odd (S n) (checked_add u32_limit id 2) id.
Proof.
  intros (Hn & Hg & Hb).
  destruct (N.ltb_spec (N.of_nat n * 2 + (if odd then 1 else 2)) u32_limit); [| done].
  injection Hn as ->. split_and!; [done | done |]. unfold side_wf, checked_add.
  rewrite decide_False by done. split_and!; [| lia | right; lia].
  replace (N.of_nat (S n) * 2 + (if odd then 1 else 2))
    with (N.of_nat n * 2 + (if odd then 1 else 2) + 2) by lia. done.
Qed.

Lemma allocate_Ok s n m id s' :
  ids_wf s n m → allocate s = (Ok id, s') →
  id = N.of_nat n * 2 + (if local_odd s then 1 else 2) ∧ id < u32_limit ∧
  local_odd s' = local_odd s ∧ ids_wf s' (S n) m.
Proof.
  intros [Hl Hr] H. unfold allocate in H. destruct (next_local s) as [nx |]; [| done].
  simplify_eq. apply side_wf_step in Hl as (? & ? & ?). by split_and!.
Qed.

Lemma accept_Ok id s n m s' :
  ids_wf s n m → accept id s = (Ok tt, s') →
  id = N.of_nat m * 2 + (if negb (local_odd s) then 1 else 2) ∧ id < u32_limit ∧
  local_odd s' = local_odd s ∧ ids_wf s' n (S m).
Proof.
  intros [Hl Hr] H. unfold accept in H. case_bool_decide as E; [| done]. cbn in H.
  simplify_eq. rewrite E in Hr. apply side_wf_step in Hr as (? & ? & ?). by split_and!.
Qed.

Lemma allocate_Err s e s' : allocate s = (Err e, s') → s' = s ∧ next_local s = None.
Proof. unfold allocate. intros H. destruct (next_local s); by simplify_eq. Qed.
Lemma accept_Err id s e s' : accept id s = (Err e, s') → s' = s.
Proof. unfold accept. intros H. case_bool_decide; by simplify_eq/=. Qed.

Lemma elem_of_side_ids odd n id :
  id ∈ side_ids odd n ↔
  0 < id ∧ (id mod 2 =? 1) = odd ∧ id < N.of_nat n * 2 + (if odd then 1 else 2).
Proof.
  unfold side_ids. rewrite list_elem_of_fmap. split.
  - intros (k & -> & Hk%elem_of_seq). destruct odd; lia.
  - intros (Hp & Ho & Hl). exists (N.to_nat ((id - 1) / 2)). split; [destruct odd; lia |].
    apply elem_of_seq. destruct odd; lia.
Qed.

Lemma side_ids_NoDup odd n : NoDup (side_ids odd n).
Proof. apply NoDup_fmap_2; [intros x y; destruct odd; lia | apply NoDup_seq]. Qed.

Lemma was_created_spec s n m id :
  ids_wf s n m →
  was_created s id = true ↔
  id ∈ side_ids (local_odd s) n ∨ id ∈ side_ids (negb (local_odd s)) m.
Proof.
  intros [(_ & Hl & _) (_ & Hr & _)]. rewrite !elem_of_side_ids. unfold was_created, is_local.
  destruct (N.eqb_spec id 0) as [-> | Hz]; cbn; [split; [done | lia] |]. rewrite N.leb_le.
  pose proof (N.mod_lt id 2 ltac:(done)).
  destruct (local_odd s); cbn in *; destruct (N.eqb_spec (id mod 2) 1); cbn;
    rewrite ?Hl, ?Hr; repeat case_decide; subst; lia.
Qed.

(** ** Runs *)

Inductive id_call : Type := CallAllocate | CallAccept (id : N).

(** The identifier a call consumed, tagged with whether it is local. *)
Definition id_exec (call : id_call) (s : StreamIds) : option (bool * N) * StreamIds :=
  match call with
  | CallAllocate => let '(r, s) := allocate s in
    (match r with Ok id => Some (true, id) | Err _ => None end, s)
  | CallAccept id => let '(r, s) := accept id s in
    (match r with Ok _ => Some (false, id) | Err _ => None end, s)
  end.

Fixpoint id_run (calls : list id_call) (s : StreamIds) : list (bool * N) * StreamIds :=
  match calls with
  | [] => ([], s)
  | call :: calls =>
    let '(x, s) := id_exec call s in
    let '(xs, s) := id_run calls s in
    (option_list x ++ xs, s)
  end.

Definition locals (xs : list (bool * N)) : list N := (filter (λ x, x.1 = true) xs).*2.
Definition remotes (xs : list (bool * N)) : list N := (filter (λ x, x.1 = false) xs).*2.

Lemma locals_app xs ys : locals (xs ++ ys) = locals xs ++ locals ys.
Proof. unfold locals. by rewrite filter_app, fmap_app. Qed.
Lemma remotes_app xs ys : remotes (xs ++ ys) = remotes xs ++ remotes ys.
Proof. unfold remotes. by rewrite filter_app, fmap_app. Qed.

Lemma side_ids_S odd n : side_ids odd (S n) = side_ids odd n ++ [N.of_nat n * 2 + (if odd then 1 else 2)].
Proof. unfold side_ids. by rewrite seq_S, fmap_app. Qed.

Lemma id_exec_spec call s n m x s' :
  ids_wf s n m → id_exec call s = (x, s') →
  local_odd s' = local_odd s ∧ ∃ n' m', ids_wf s' n' m' ∧
    side_ids (local_odd s) n' = side_ids (local_odd s) n ++ locals (option_list x) ∧
    side_ids (negb (local_odd s)) m' = side_ids (negb (local_odd s)) m ++ remotes (option_list x).
Proof.
  intros Hwf. destruct call as [| id]; cbn [id_exec].
  - destruct (allocate s) as [[id | e] s1] eqn:Ha; intros [= <- <-].
    + apply (allocate_Ok _ _ _ _ _ Hwf) in Ha as (-> & _ & Ho & Hwf'). split; [done |].
      exists (S n), m. rewrite side_ids_S. cbn. by rewrite app_nil_r.
    + apply allocate_Err in Ha as [-> _]. split; [done |]. exists n, m. cbn. by rewrite !app_nil_r.
  - destruct (accept id s) as [[[] | e] s1] eqn:Ha; intros [= <- <-].
    + apply (accept_Ok _ _ _ _ _ Hwf) in Ha as (-> & _ & Ho & Hwf'). split; [done |].
      exists n, (S m). rewrite side_ids_S. cbn. by rewrite app_nil_r.
    + apply accept_Err in Ha as ->. split; [done |]. exists n, m. cbn. by rewrite !app_nil_r.
Qed.

Lemma id_run_spec calls : ∀ s n m xs s',
  ids_wf s n m → id_run calls s = (xs, s') →
  local_odd s' = local_odd s ∧ ∃ n' m', ids_wf s' n' m' ∧
    side_ids (local_odd s) n' = side_ids (local_odd s) n ++ locals xs ∧
    side_ids (negb (local_odd s)) m' = side_ids (negb (local_odd s)) m ++ remotes xs.
Proof.
  induction calls as [| call calls IH]; intros s n m xs s' Hwf Hrun; cbn [id_run] in Hrun.
  { simplify_eq. split; [done |]. exists n, m. by rewrite !app_nil_r. }
  destruct (id_exec call s) as [x s1] eqn:He. destruct (id_run calls s1) as [ys s2] eqn:Hr.
  injection Hrun as <- <-.
  destruct (id_exec_spec _ _ _ _ _ _ Hwf He) as (Ho & n1 & m1 & Hwf1 & El & Er).
  destruct (IH _ _ _ _ _ Hwf1 Hr) as (Ho' & n2 & m2 & Hwf2 & El' & Er').
  split; [congruence |]. exists n2, m2. rewrite Ho in El', Er'.
  split; [done |]. by rewrite El', Er', El, Er, locals_app, remotes_app, !app_assoc.
Qed.

(** Stream numbering is contiguous and never reuses an identifier.  After
    any sequence of allocations and peer OPENs, the identifiers consumed by each
    side are, in order, exactly the first ones of that side's parity; none
    repeats, on either side; and [was_created], which keeps only two
    watermarks, answers exactly whether an identifier is in that history. *)
Theorem stream_ids_exact (role : ConnectionRole) (calls : list id_call)
    (xs : list (bool * N)) (s : StreamIds) :
  id_run calls (StreamIds_new role) = (xs, s) →
  let odd := bool_decide (role = Initiator) in
  locals xs = side_ids odd (length (locals xs)) ∧
  remotes xs = side_ids (negb odd) (length (remotes xs)) ∧
  NoDup (locals xs ++ remotes xs) ∧
  ∀ id, was_created s id = true ↔ id ∈ locals xs ++ remotes xs.
Proof.
  intros Hrun odd.
  destruct (id_run_spec _ _ _ _ _ _ (StreamIds_new_wf role) Hrun) as (Ho & n & m & Hwf & El & Er).
  change (local_odd (StreamIds_new role)) with odd in *. cbn in El, Er.
  assert (∀ o k, length (side_ids o k) = k) as Hlen.
  { intros o k. unfold side_ids. by rewrite length_fmap, length_seq. }
  rewrite <- El, <- Er, !Hlen. split_and!; [done | done | |].
  - apply NoDup_app. split_and!; [apply side_ids_NoDup | | apply side_ids_NoDup].
    intros x (_ & H1 & _)%elem_of_side_ids (_ & H2 & _)%elem_of_side_ids. rewrite H1 in H2.
    by destruct odd.
  - intros id. rewrite elem_of_app, (was_created_spec _ _ _ _ Hwf), Ho. done.
Qed.

Lemma stream_ids_exact_witness :
  id_run [CallAllocate; CallAccept 2; CallAccept 2; CallAllocate] (StreamIds_new Initiator) =
    ([(true, 1); (false, 2); (true, 3)], mkStreamIds true (Some 5) (Some 4) 3 2) ∧
  ∀ id, was_created (mkStreamIds true (Some 5) (Some 4) 3 2) id = true ↔ id ∈ [1; 3; 2].
Proof.
  split; [reflexivity |].
  apply (stream_ids_exact Initiator [CallAllocate; CallAccept 2; CallAccept 2; CallAllocate]
    [(true, 1); (false, 2); (true, 3)]).
  reflexivity.
Defined.

(** ** One consumed identifier *)

Lemma was_created_grow s n m s' n' m' :
  ids_wf s n m → ids_wf s' n' m' → local_odd s' = local_odd s → (n ≤ n')%nat → (m ≤ m')%nat →
  ∀ i, was_created s' i = false → was_created s i = false.
Proof.
  intros Hwf Hwf' Ho Hn Hm i Hi. destruct (was_created s i) eqn:E; [| done].
  apply (was_created_spec _ _ _ _ Hwf) in E. rewrite <- Hi. symmetry.
  apply (was_created_spec _ _ _ _ Hwf'). rewrite Ho. rewrite !elem_of_side_ids in *. lia.
Qed.

Lemma side_not_created s n m odd k id :
  ids_wf s n m → id = N.of_nat k * 2 + (if odd : bool then 1 else 2) →
  k = (if eqb odd (local_odd s) then n else m) → was_created s id = false.
Proof.
  intros Hwf Hid Hk. destruct (was_created s id) eqn:E; [| done].
  apply (was_created_spec _ _ _ _ Hwf) in E. rewrite !elem_of_side_ids in E.
  destruct odd, (local_odd s); cbn in *; lia.
Qed.

Definition consumes (s s' : StreamIds) (id : N) : Prop :=
  was_created s id = false ∧ was_created s' id = true ∧ (∃ n m, ids_wf s' n m) ∧
  (∀ i, was_created s' i = false → was_created s i = false).

Lemma allocate_consumes s n m id s' :
  ids_wf s n m → allocate s = (Ok id, s') → consumes s s' id.
Proof.
  intros Hwf Ha. destruct (allocate_Ok _ _ _ _ _ Hwf Ha) as (Hid & _ & Ho & Hwf').
  unfold consumes. split_and!.
  - apply (side_not_created s n m (local_odd s) n id Hwf Hid). by destruct (local_odd s).
  - apply (was_created_spec _ _ _ _ Hwf'). left. rewrite Ho, side_ids_S, elem_of_app, Hid. right.
    apply list_elem_of_here.
  - by eauto.
  - apply (was_created_grow s n m s' (S n) m); [done | done | done | lia | lia].
Qed.

Lemma accept_consumes s n m id s' :
  ids_wf s n m → accept id s = (Ok tt, s') → consumes s s' id.
Proof.
  intros Hwf Ha. destruct (accept_Ok _ _ _ _ _ Hwf Ha) as (Hid & _ & Ho & Hwf').
  unfold consumes. split_and!.
  - apply (side_not_created s n m (negb (local_odd s)) m id Hwf Hid). by destruct (local_odd s).
  - apply (was_created_spec _ _ _ _ Hwf'). right. rewrite Ho, side_ids_S, elem_of_app, Hid. right.
    apply list_elem_of_here.
  - by eauto.
  - apply (was_created_grow s n m s' n (S m)); [done | done | done | lia | lia].
Qed.
