(* ===== verification/Registry.v ===== *)
(** * Protocol registrations

    [src/modules/transport/stream/registry.rs]: the ordered list of registered
    selections with their owner capabilities.  [StreamOwner::new] allocates a
    fresh pointer identity from the shared store. *)

From S2P Require Import Prelude Bytes Header Api Resources OpenCodec.

#[local] Open Scope N_scope.

Inductive RegistrationError : Type := RegInvalid (e : OpenError) | RegDuplicate.

Record Registry : Type := mkRegistry { entries : list (Protocol * StreamOwner) }.

Definition Registry_default : Registry := mkRegistry [].

(** [iter().find(...)] on the entries. *)
Definition find_entry (p : Protocol * StreamOwner → bool) (r : Registry)
    : option (Protocol * StreamOwner) :=
  snd <$> list_find (λ e, p e = true) (entries r).

Definition resolve (r : Registry) (selection : Open) : option StreamOwner :=
  snd <$> find_entry (λ '(p, _), bool_decide (protocol_id p = open_id selection)
                                 && (protocol_version p =? open_version selection)) r.

Definition Registry_protocol (r : Registry) (owner : StreamOwner) : option Protocol :=
  fst <$> find_entry (λ '(_, candidate), bool_decide (candidate = owner)) r.

Definition register (protocol : Protocol) : M (Registry * Store) RegistrationError StreamOwner :=
  selection ← lift (map_err RegInvalid (Open_new (protocol_id protocol) (protocol_version protocol)));
  call (λ '(r, st),
    if bool_decide (is_Some (resolve r selection)) then (Err RegDuplicate, (r, st)) else
    let '(owner, st) := alloc st in
    (Ok owner, (mkRegistry (entries r ++ [(protocol, owner)]), st))).

(** ** The registration map *)

Record registry_wf (r : Registry) (st : Store) : Prop := {
  reg_protocols : NoDup (entries r).*1;
  reg_owners : NoDup (entries r).*2;
  reg_issued : Forall (λ o, o < next st) (entries r).*2;
}.

Lemma find_entry_Some p r e : find_entry p r = Some e → e ∈ entries r ∧ p e = true.
Proof.
  unfold find_entry. destruct (list_find _ _) as [[i x] |] eqn:E; [| done]. intros [= <-].
  apply list_find_Some in E as (Hi & Hp & _). split; [by eapply list_elem_of_lookup_2 | done].
Qed.

Lemma find_entry_unique p r e :
  e ∈ entries r → p e = true → (∀ e', e' ∈ entries r → p e' = true → e' = e) →
  find_entry p r = Some e.
Proof.
  intros He Hp Hu. destruct (find_entry p r) as [e' |] eqn:E.
  - apply find_entry_Some in E as [He' Hp']. f_equal. by apply Hu.
  - exfalso. unfold find_entry in E. destruct (list_find _ _) eqn:F; [done |].
    apply list_find_None in F. rewrite Forall_forall in F. by apply (F e).
Qed.

Lemma NoDup_key {A B} (f : A → B) (l : list A) x y :
  NoDup (f <$> l) → x ∈ l → y ∈ l → f x = f y → x = y.
Proof.
  intros Hd Hx Hy E. apply list_elem_of_lookup in Hx as [i Hi], Hy as [j Hj].
  enough (i = j) by congruence. eapply NoDup_lookup; [exact Hd | |]; rewrite list_lookup_fmap.
  - by rewrite Hi.
  - rewrite Hj. cbn. by rewrite E.
Qed.

Lemma resolve_spec r st p o :
  registry_wf r st →
  resolve r (mkOpen (protocol_id p) (protocol_version p)) = Some o ↔ (p, o) ∈ entries r.
Proof.
  intros [Hp Ho _]. unfold resolve. split.
  - destruct (find_entry _ r) as [[p' o'] |] eqn:E; [| done]. intros [= <-].
    apply find_entry_Some in E as [He Hm]. cbn in Hm. apply andb_true_iff in Hm as [H1 H2].
    apply bool_decide_eq_true in H1. apply N.eqb_eq in H2.
    destruct p, p'; cbn in *; by subst.
  - intros He. rewrite (find_entry_unique _ _ (p, o)); [done | done | |].
    + cbn. by rewrite bool_decide_true, N.eqb_refl.
    + intros [p' o'] He' Hm. cbn in Hm. apply andb_true_iff in Hm as [H1 H2].
      apply bool_decide_eq_true in H1. apply N.eqb_eq in H2.
      apply (NoDup_key fst (entries r)); [done | done | done |].
      destruct p, p'; cbn in *; by subst.
Qed.

Lemma Registry_protocol_spec r st p o :
  registry_wf r st → Registry_protocol r o = Some p ↔ (p, o) ∈ entries r.
Proof.
  intros [Hp Ho _]. unfold Registry_protocol. split.
  - destruct (find_entry _ r) as [[p' o'] |] eqn:E; [| done]. intros [= <-].
    apply find_entry_Some in E as [He Hm]. cbn in Hm. apply bool_decide_eq_true in Hm. by subst.
  - intros He. rewrite (find_entry_unique _ _ (p, o)); [done | done | |].
    + cbn. by rewrite bool_decide_true.
    + intros [p' o'] He' Hm. cbn in Hm. apply bool_decide_eq_true in Hm.
      by apply (NoDup_key snd (entries r)).
Qed.

Lemma registry_wf_store r st st' : next st ≤ next st' → registry_wf r st → registry_wf r st'.
Proof.
  intros Hn [H1 H2 H3]. split; [done | done |]. eapply Forall_impl; [exact H3 |].
  intros o Ho. cbn in Ho. lia.
Qed.

Lemma register_Ok p r st o r' st' :
  registry_wf r st → register p (r, st) = (Ok o, (r', st')) →
  entries r' = entries r ++ [(p, o)] ∧ registry_wf r' st' ∧ next st' = next st + 1 ∧
  o = next st ∧ is_ok (Open_new (protocol_id p) (protocol_version p)) = true.
Proof.
  intros Hwf H. unfold register in H. unfold_m. destruct Hwf as [H1 H2 H3] eqn:Hw.
  destruct (Open_new (protocol_id p) (protocol_version p)) as [sel |] eqn:Hn; cbn in H; [| done].
  assert (sel = mkOpen (protocol_id p) (protocol_version p)) as ->.
  { unfold Open_new in Hn. by repeat case_match; simplify_eq. }
  case_bool_decide as Hr; [done |]. simplify_eq/=. split_and!; try done.
  assert (p ∉ (entries r).*1) as Hnew.
  { intros Hin. apply list_elem_of_fmap in Hin as ([p' o] & -> & Hin). apply Hr. exists o.
    by apply (resolve_spec r st). }
  split; cbn; rewrite !fmap_app.
  - apply NoDup_app. split_and!; [done | | apply NoDup_singleton].
    intros x Hx ->%list_elem_of_singleton. done.
  - apply NoDup_app. split_and!; [done | | apply NoDup_singleton].
    intros x Hx ->%list_elem_of_singleton. cbn in Hx.
    rewrite Forall_forall in H3. specialize (H3 _ Hx). lia.
  - apply Forall_app. split; [| constructor; [cbn; lia | constructor]].
    eapply Forall_impl; [exact H3 |]. intros x Hx. cbn in Hx |- *. lia.
Qed.

Lemma register_Err p r st e s : register p (r, st) = (Err e, s) → s = (r, st).
Proof.
  unfold register. unfold_m. intros H. repeat case_match; by simplify_eq/=.
Qed.

Lemma register_wf p r st :
  registry_wf r st → registry_wf (register p (r, st)).2.1 (register p (r, st)).2.2.
Proof.
  intros Hwf. destruct (register p (r, st)) as [[o | e] [r' st']] eqn:E.
  - by apply register_Ok in E as (_ & ? & _); [| done].
  - apply register_Err in E. by simplify_eq.
Qed.

(** Registrations, with other allocations from the shared store in between. *)
Inductive reg_step : Registry * Store → Registry * Store → Prop :=
| reg_register p s : reg_step s (register p s).2
| reg_other r st st' : next st ≤ next st' → reg_step (r, st) (r, st').

(** Routing is a bijection between selections and capabilities.  After any
    registrations, a peer's selection resolves to an owner exactly when that
    owner's registered protocol is that selection; so no two selections share
    an owner, no owner serves two selections, and a capability that was never
    issued (any number the store has not allocated) owns nothing. *)
Theorem registry_bijection (st : Store) (r : Registry) (st' : Store) :
  rtc reg_step (Registry_default, st) (r, st') →
  (∀ p o, resolve r (mkOpen (protocol_id p) (protocol_version p)) = Some o ↔
     Registry_protocol r o = Some p) ∧
  (∀ o, next st' ≤ o → Registry_protocol r o = None).
Proof.
  intros Hs. assert (registry_wf r st') as Hwf.
  { change (registry_wf (r, st').1 (r, st').2). revert Hs.
    generalize (r, st'). apply (rtc_ind_r (λ s, registry_wf s.1 s.2)).
    - split; cbn; constructor.
    - intros y z _ Hyz Hy. destruct Hyz as [p [r1 st1] | r1 st1 st2 Hle].
      + by apply register_wf.
      + by eapply registry_wf_store. }
  split.
  - intros p o. by rewrite (resolve_spec r st'), (Registry_protocol_spec r st').
  - intros o Ho. destruct (Registry_protocol r o) as [p |] eqn:E; [| done].
    apply (Registry_protocol_spec r st') in E; [| done].
    pose proof (reg_issued _ _ Hwf) as Hi. rewrite Forall_forall in Hi.
    specialize (Hi o). enough (o < next st') by lia. apply Hi. apply list_elem_of_fmap.
    by exists (p, o).
Qed.

Definition chat : Protocol := mkProtocol [x63; x68; x61; x74] 1.

Lemma registry_bijection_witness :
  let s := (register chat (register chat (Registry_default, Store_empty)).2).2 in
  entries s.1 = [(chat, 0)] ∧
  (∀ p o, resolve s.1 (mkOpen (protocol_id p) (protocol_version p)) = Some o ↔
     Registry_protocol s.1 o = Some p).
Proof.
  intros s. split; [vm_compute; reflexivity |].
  refine (proj1 (registry_bijection Store_empty s.1 s.2 _)).
  eapply rtc_l; [apply (reg_register chat) |].
  eapply rtc_l; [apply (reg_register chat) |].
  apply rtc_refl.
Defined.
