(* ===== verification/Session.v ===== *)
(** * Stream sessions

    [src/modules/transport/stream/session.rs] and
    [session/{lifecycle,receive,drain,ping,scheduler}.rs]: routing of one
    authenticated connection, with its queue of consumer events and its queue
    of unsealed output.  A method's state pairs the session with the shared
    store its reservations live in. *)

From S2P Require Import Prelude Bytes Header Control OpenCodec Api Resources Framing.
From S2P Require Import Integrity StreamIds Registry.

#[local] Open Scope N_scope.

Inductive SessionError : Type :=
| SeId (e : IdError)
| SeOwner
| SeClosed
| SeDraining
| SeAuthority (e : TransportError)
| SeInvalidData
| SeCapacity
| SeProtocol
| SeFraming (e : FramingError).

#[global] Instance IdError_eq_dec : EqDecision IdError.
Proof. solve_decision. Defined.
#[global] Instance SessionError_eq_dec : EqDecision SessionError.
Proof. solve_decision. Defined.

Record StreamState : Type := mkStreamState {
  ss_handle : StreamHandle;
  local_open : bool;
  remote_open : bool;
  local_end_written : bool;
}.

Record Session : Type := mkSession {
  last_output : option N;
  resources : Resources;
  accepted_remote : N;
  peer_goaway : option N;
  drain_failure : option Failure;
  goaway_sent : bool;
  goaway_written : bool;
  pings : gmap bytes (Instant * Instant);
  now : option Instant;
  closed : bool;
  handle : ConnectionHandle;
  context : PeerContext;
  ids : StreamIds;
  streams : gmap N StreamState;
  events : list Event;
  outbound : list WireFrame;
}.

(** ** Field assignment *)

Definition set_last_output x (s : Session) : Session :=
  mkSession x (resources s) (accepted_remote s) (peer_goaway s) (drain_failure s) (goaway_sent s)
    (goaway_written s) (pings s) (now s) (closed s) (handle s) (context s) (ids s) (streams s)
    (events s) (outbound s).
Definition set_resources_field x (s : Session) : Session :=
  mkSession (last_output s) x (accepted_remote s) (peer_goaway s) (drain_failure s) (goaway_sent s)
    (goaway_written s) (pings s) (now s) (closed s) (handle s) (context s) (ids s) (streams s)
    (events s) (outbound s).
Definition set_accepted_remote x (s : Session) : Session :=
  mkSession (last_output s) (resources s) x (peer_goaway s) (drain_failure s) (goaway_sent s)
    (goaway_written s) (pings s) (now s) (closed s) (handle s) (context s) (ids s) (streams s)
    (events s) (outbound s).
Definition set_peer_goaway x (s : Session) : Session :=
  mkSession (last_output s) (resources s) (accepted_remote s) x (drain_failure s) (goaway_sent s)
    (goaway_written s) (pings s) (now s) (closed s) (handle s) (context s) (ids s) (streams s)
    (events s) (outbound s).
Definition set_drain_failure x (s : Session) : Session :=
  mkSession (last_output s) (resources s) (accepted_remote s) (peer_goaway s) x (goaway_sent s)
    (goaway_written s) (pings s) (now s) (closed s) (handle s) (context s) (ids s) (streams s)
    (events s) (outbound s).
Definition set_goaway_sent x (s : Session) : Session :=
  mkSession (last_output s) (resources s) (accepted_remote s) (peer_goaway s) (drain_failure s) x
    (goaway_written s) (pings s) (now s) (closed s) (handle s) (context s) (ids s) (streams s)
    (events s) (outbound s).
Definition set_goaway_written x (s : Session) : Session :=
  mkSession (last_output s) (resources s) (accepted_remote s) (peer_goaway s) (drain_failure s)
    (goaway_sent s) x (pings s) (now s) (closed s) (handle s) (context s) (ids s) (streams s)
    (events s) (outbound s).
Definition set_pings x (s : Session) : Session :=
  mkSession (last_output s) (resources s) (accepted_remote s) (peer_goaway s) (drain_failure s)
    (goaway_sent s) (goaway_written s) x (now s) (closed s) (handle s) (context s) (ids s)
    (streams s) (events s) (outbound s).
Definition set_now x (s : Session) : Session :=
  mkSession (last_output s) (resources s) (accepted_remote s) (peer_goaway s) (drain_failure s)
    (goaway_sent s) (goaway_written s) (pings s) x (closed s) (handle s) (context s) (ids s)
    (streams s) (events s) (outbound s).
Definition set_closed x (s : Session) : Session :=
  mkSession (last_output s) (resources s) (accepted_remote s) (peer_goaway s) (drain_failure s)
    (goaway_sent s) (goaway_written s) (pings s) (now s) x (handle s) (context s) (ids s)
    (streams s) (events s) (outbound s).
Definition set_ids x (s : Session) : Session :=
  mkSession (last_output s) (resources s) (accepted_remote s) (peer_goaway s) (drain_failure s)
    (goaway_sent s) (goaway_written s) (pings s) (now s) (closed s) (handle s) (context s) x
    (streams s) (events s) (outbound s).
Definition set_streams x (s : Session) : Session :=
  mkSession (last_output s) (resources s) (accepted_remote s) (peer_goaway s) (drain_failure s)
    (goaway_sent s) (goaway_written s) (pings s) (now s) (closed s) (handle s) (context s) (ids s)
    x (events s) (outbound s).
Definition set_events x (s : Session) : Session :=
  mkSession (last_output s) (resources s) (accepted_remote s) (peer_goaway s) (drain_failure s)
    (goaway_sent s) (goaway_written s) (pings s) (now s) (closed s) (handle s) (context s) (ids s)
    (streams s) x (outbound s).
Definition set_outbound x (s : Session) : Session :=
  mkSession (last_output s) (resources s) (accepted_remote s) (peer_goaway s) (drain_failure s)
    (goaway_sent s) (goaway_written s) (pings s) (now s) (closed s) (handle s) (context s) (ids s)
    (streams s) (events s) x.

(** [events.push_back], [outbound.push_back]. *)
Definition push_event (e : Event) (s : Session) : Session := set_events (events s ++ [e]) s.
Definition push_outbound (f : WireFrame) (s : Session) : Session :=
  set_outbound (outbound s ++ [f]) s.

Abbreviation SessSt := (Session * Store)%type.
Abbreviation SM := (M SessSt SessionError).

Definition on_session (f : Session → Session) : SM unit := modify (λ '(s, st), (f s, st)).
Definition on_store (f : Store → Store) : SM unit := modify (λ '(s, st), (s, f st)).
Definition read {A} (f : Session → A) : SM A := gets (λ '(s, _), f s).
(** A call to a method that cannot fail. *)
Definition perform (f : SessSt → SessSt) : SM unit := modify f.

(** ** Construction *)

Definition with_handle (h : ConnectionHandle) (role : ConnectionRole)
    (local_identity peer_identity : IdentityId) (st : Store) : SessSt :=
  let ctx := mkPeerContext (handle_id h) role local_identity peer_identity in
  let '(res, st) :=
    Resources_new (mkResourceLimits 1 256 (4 * (MAX_PAYLOAD_BYTES + 28)) MAX_PAYLOAD_BYTES) st in
  (mkSession None res 0 None None false false ∅ None false h ctx (StreamIds_new role) ∅
     [Authenticated ctx] [], st).

Definition Session_new (role : ConnectionRole) (local_identity peer_identity : IdentityId)
    (st : Store) : SessSt :=
  let '(c, st) := alloc st in
  with_handle (mkConnectionHandle c) role local_identity peer_identity st.

Definition event_limit (s : Session) : N :=
  saturating_add u64_limit
    (saturating_mul u64_limit (streams_per_connection (limits (resources s))) 4) 130.

Definition set_resources (r : Resources) (s : Session) : Session := set_resources_field r s.

(** ** Output *)

Definition frame (kind : FrameType) (id : N) (p : bytes) : result SessionError WireFrame :=
  map_err (λ e, SeFraming (FrHeader e)) (FrameHeader_new kind id (len p mod u32_limit)) ≫= λ h,
  map_err SeFraming (WireFrame_new h p None).

(** [self.resources.outbound(n).ok_or(Capacity)?]. *)
Definition reserve_outbound (n : N) : SM Reservation :=
  λ '(s, st),
  let '(r, st) := Resources_outbound (resources s) n st in
  (ok_or r SeCapacity, (s, st)).

Definition queue (output : WireFrame) : SM unit :=
  r ← reserve_outbound (len (payload output) + 28);
  on_session (push_outbound (with_reservation (Some r) output)).

Definition refuse (id : N) (code : ErrorCode) : SM unit :=
  d ← lift (map_err (λ _, SeProtocol) (ErrorPayload_new code []));
  f ← lift (frame Error_t id (ErrorPayload_encode d));
  queue f.

Definition failure_code (c : ErrorCode) : FailureCode :=
  match c with
  | AuthenticationFailed => FcAuthenticationFailed
  | FrameSizeError => FcFrameTooLarge
  | UnsupportedProtocol => FcUnsupportedProtocol
  | StreamStateError => FcStreamState
  | RefusedStream => FcRefused
  | InternalError => FcInternal
  | IdExhausted => FcIdExhausted
  | ResourceLimit => FcResourceLimit
  | Cancelled => FcCancelled
  | ProtocolError | NoError => FcProtocolViolation
  end.

(** ** Termination: [lifecycle.rs] *)

(** [outbound.retain(keep)]: rejected frames drop their reservations in order. *)
Definition retain_outbound (keep : WireFrame → bool) : SessSt → SessSt :=
  λ '(s, st),
  (set_outbound (filter (λ f, keep f = true) (outbound s)) s,
   drop_all (omap reservation (filter (λ f, keep f = false) (outbound s))) st).

Definition terminate (id : N) (outcome : StreamOutcome) : SessSt → SessSt :=
  λ x,
  let '(s, st) :=
    retain_outbound (λ f, negb (stream_id (header f) =? id)
                          || bool_decide (frame_type (header f) = Open_t)) x in
  match streams s !! id with
  | None => (s, st)
  | Some state =>
    (push_event (StreamClosed (ss_handle state) outcome)
       (set_streams (delete id (streams s)) s), st)
  end.

Definition fail_stream (id : N) (wire : ErrorCode) (code : FailureCode) : SM unit :=
  perform (terminate id (OutFailed (mkFailure Local code)));;
  refuse id wire.

Definition complete (id : N) (s : Session) : Session :=
  match streams s !! id with
  | Some state =>
    if negb (remote_open state) && local_end_written state then
      push_event (StreamClosed (ss_handle state) OutCompleted)
        (set_streams (delete id (streams s)) s)
    else s
  | None => s
  end.

(** Iteration orders of the two [BTreeMap]s: numeric identifiers, and eight-byte
    tokens, whose lexicographic order is that of the numbers they denote. *)
Definition token_le (a b : bytes) : Prop := from_be a ≤ from_be b.
#[global] Instance token_le_dec a b : Decision (token_le a b).
Proof. unfold token_le. apply _. Defined.
Definition stream_keys (m : gmap N StreamState) : list N := keys N.le m.
Definition ping_keys (m : gmap bytes (Instant * Instant)) : list bytes := keys token_le m.

Definition Session_close (failure : option Failure) (response : option ErrorCode)
    : SessSt → SessSt :=
  λ '(s, st),
  if closed s then (s, st) else
  let s := set_closed true s in
  let failure := match failure with Some f => Some f | None => drain_failure s end in
  let st := drop_all (omap reservation (outbound s)) st in
  let s := set_outbound [] s in
  let unfinished := default (mkFailure Local FcConnectionLost) failure in
  let tokens := ping_keys (pings s) in
  let s := set_pings ∅ s in
  let s := set_events (events s ++
    map (λ token, PingFinished (handle_id (handle s)) token (Err unfinished)) tokens) s in
  let taken := streams s in
  let s := set_streams ∅ s in
  let s := set_events (events s ++
    omap (λ id, state ← taken !! id; Some (StreamClosed (ss_handle state) (OutFailed unfinished)))
      (stream_keys taken)) s in
  let s := push_event (ConnectionClosed (handle_id (handle s)) failure) s in
  match response with
  | None => (s, st)
  | Some code =>
    match ErrorPayload_new code [] with
    | Err _ => (s, st)
    | Ok payload =>
      match frame Error_t 0 (ErrorPayload_encode payload) with
      | Err _ => (s, st)
      | Ok f => (queue f (s, st)).2
      end
    end
  end.

Definition Session_is_closed (s : Session) : bool := closed s.

Definition Session_end (owner : StreamOwner) (stream : StreamHandle) : SM unit :=
  c ← read closed;
  ensure (negb c) SeClosed;;
  h ← read handle;
  lift (map_err SeAuthority (StreamHandle_authorize stream (handle_id h) owner));;
  found ← read (λ s, streams s !! wire_id stream);
  state ← lift (ok_or found SeProtocol);
  ensure (local_open state) SeProtocol;;
  output ← lift (frame End_t (wire_id stream) []);
  r ← reserve_outbound 28;
  on_session (λ s, set_streams
    (<[wire_id stream := mkStreamState (ss_handle state) false (remote_open state)
                           (local_end_written state)]> (streams s)) s);;
  on_session (push_outbound (with_reservation (Some r) output)).

Definition cancel (owner : StreamOwner) (stream : StreamHandle) (reason : CancellationReason)
    : SM unit :=
  c ← read closed;
  ensure (negb c) SeClosed;;
  h ← read handle;
  lift (map_err SeAuthority (StreamHandle_authorize stream (handle_id h) owner));;
  let id := wire_id stream in
  found ← read (λ s, streams s !! id);
  ensure (bool_decide (is_Some found)) SeProtocol;;
  let code := match reason with
              | CrCancelled => Cancelled
              | CrResourceLimit => ResourceLimit
              | CrInternalError => InternalError
              end in
  perform (terminate id (OutCancelled Local reason));;
  d ← lift (map_err (λ _, SeProtocol) (ErrorPayload_new code []));
  f ← lift (frame Cancel_t id (ErrorPayload_encode d));
  queued ← try_ (queue f);
  (if is_err queued
   then perform (Session_close (Some (mkFailure Local FcResourceLimit)) None)
   else mret tt);;
  mret tt.

Definition Session_sent (kind : FrameType) (id : N) (s : Session) : Session :=
  let s := if bool_decide (kind = GoAway_t) then set_goaway_written true s else s in
  if bool_decide (kind = End_t) then
    let s := match streams s !! id with
             | Some state =>
               set_streams (<[id := mkStreamState (ss_handle state) (local_open state)
                 (remote_open state) (negb (local_open state))]> (streams s)) s
             | None => s
             end in
    complete id s
  else s.

(** ** Draining: [drain.rs] *)

Definition drain (reason : ShutdownReason) : SM unit :=
  c ← read closed;
  ensure (negb c) SeClosed;;
  sent ← read goaway_sent;
  if sent : bool then mret tt else
  let code := match reason with
              | SrNormal => NoError
              | SrIdExhausted => IdExhausted
              | SrResourceLimit => ResourceLimit
              | SrInternalError => InternalError
              end in
  last ← read accepted_remote;
  g ← lift (map_err (λ _, SeProtocol) (GoAway_new last code []));
  f ← lift (frame GoAway_t 0 (GoAway_encode g));
  queue f;;
  on_session (set_goaway_sent true).

Definition ready_to_close (s : Session) : bool :=
  negb (closed s) && goaway_written s && bool_decide (streams s = ∅) && is_empty (outbound s).

(** [for id in refused { self.terminate(...) }]. *)
Definition terminate_all (refused : list N) (outcome : StreamOutcome) (x : SessSt) : SessSt :=
  foldl (λ x id, terminate id outcome x) x refused.

Definition receive_goaway (payload : bytes) : SM unit :=
  goaway ← lift (map_err (λ _, SeProtocol) (GoAway_decode payload));
  let last := last_accepted_remote_stream_id goaway in
  d ← read ids;
  previous ← read peer_goaway;
  ensure (negb ((negb (last =? 0) && negb (is_local d last))
                || (greatest_local d <? last)
                || match previous with Some p => p <? last | None => false end)) SeProtocol;;
  on_session (set_peer_goaway (Some last));;
  (if bool_decide (code (diagnostic goaway) ≠ NoError)
   then on_session
     (set_drain_failure (Some (mkFailure Peer (failure_code (code (diagnostic goaway))))))
   else mret tt);;
  active ← read streams;
  let refused := filter (λ id, is_local d id && (last <? id) = true) (stream_keys active) in
  perform (terminate_all refused (OutFailed (mkFailure Peer FcRefused)));;
  drain SrNormal.

(** ** Opening and sending: [session.rs] *)

Definition add (id : N) (owner : StreamOwner) (protocol : Protocol) : SM StreamHandle :=
  d ← read ids;
  (if negb (is_local d id) then on_session (set_accepted_remote id) else mret tt);;
  ensure (negb (id =? 0)) SeProtocol;;
  h ← read handle;
  let stream := StreamHandle_new h owner id in
  on_session (λ s, set_streams (<[id := mkStreamState stream true true false]> (streams s)) s);;
  on_session (λ s, push_event (StreamOpened (context s) stream protocol) s);;
  mret stream.

(** [self.ids.allocate()] and [self.ids.accept(id)]. *)
Definition on_ids {A} (m : M StreamIds IdError A) : SM (result IdError A) :=
  λ '(s, st), let '(r, d) := m (ids s) in (Ok r, (set_ids d s, st)).

Definition Session_open (registry : Registry) (owner : StreamOwner) : SM StreamHandle :=
  c ← read closed;
  ensure (negb c) SeClosed;;
  draining ← read (λ s, goaway_sent s || bool_decide (is_Some (peer_goaway s)));
  ensure (negb draining) SeDraining;;
  protocol ← lift (ok_or (Registry_protocol registry owner) SeOwner);
  selection ← lift (map_err (λ _, SeProtocol)
    (Open_new (protocol_id protocol) (protocol_version protocol)));
  let payload := Open_encode selection in
  full ← read (λ s, (event_limit s <=? len (events s))
    || (streams_per_connection (limits (resources s)) <=? N.of_nat (size (streams s))));
  ensure (negb full) SeCapacity;;
  reservation ← reserve_outbound (len payload + 28);
  allocated ← on_ids allocate;
  match allocated with
  | Err error =>
    drained ← try_ (drain SrIdExhausted);
    on_store (drop_reservation reservation);;
    lift drained;;
    throw (SeId error)
  | Ok id =>
    added ← try_ (add id owner protocol);
    match added, frame Open_t id payload with
    | Err e, _ => on_store (drop_reservation reservation);; throw e
    | Ok _, Err e => on_store (drop_reservation reservation);; throw e
    | Ok h, Ok output =>
      on_session (push_outbound (with_reservation (Some reservation) output));;
      mret h
    end
  end.

Definition Session_send (owner : StreamOwner) (stream : StreamHandle) (data : bytes) : SM unit :=
  c ← read closed;
  ensure (negb c) SeClosed;;
  h ← read handle;
  lift (map_err SeAuthority (StreamHandle_authorize stream (handle_id h) owner));;
  found ← read (λ s, streams s !! wire_id stream);
  ensure (match found with Some state => local_open state | None => false end) SeProtocol;;
  ensure (negb (is_empty data || (MAX_PAYLOAD_BYTES <? len data))) SeInvalidData;;
  f ← lift (frame Data_t (wire_id stream) data);
  queue f.

(** ** Liveness probes: [ping.rs] *)

Definition ping (token : bytes) (timeout : Duration) (at_ : Instant) : SM unit :=
  c ← read closed;
  ensure (negb c) SeClosed;;
  pending ← read pings;
  ensure (negb ((timeout =? 0) || bool_decide (is_Some (pending !! token)))) SeProtocol;;
  ensure (negb (64 <=? N.of_nat (size pending))) SeCapacity;;
  deadline ← lift (ok_or (Instant_checked_add at_ timeout) SeProtocol);
  f ← lift (frame Ping_t 0 token);
  queue f;;
  on_session (λ s, set_pings (<[token := (at_, deadline)]> (pings s)) s).

Definition expire (s : Session) (token : bytes) : Session :=
  push_event (PingFinished (handle_id (handle s)) token (Err (mkFailure Local FcDeadlineExceeded)))
    (set_pings (delete token (pings s)) s).

Definition tick (at_ : Instant) (s : Session) : Session :=
  let s := set_now (Some at_) s in
  let expired := filter (λ token,
    match pings s !! token with Some (_, deadline) => deadline <=? at_ | None => false end = true)
    (ping_keys (pings s)) in
  foldl expire s expired.

Definition next_deadline (s : Session) : option Instant :=
  foldr (λ token acc,
    match pings s !! token, acc with
    | Some (_, d), Some m => Some (N.min d m)
    | Some (_, d), None => Some d
    | None, _ => acc
    end) None (ping_keys (pings s)).

Definition receive_ping (kind : FrameType) (payload : bytes) : SM unit :=
  token ← lift (map_err (λ _, SeProtocol) (PingToken_decode payload));
  let token := PingToken_encode token in
  if bool_decide (kind = Ping_t) then
    f ← lift (frame Pong_t 0 token);
    queue f
  else
    pending ← read pings;
    match pending !! token with
    | None => mret tt
    | Some (started, _) =>
      on_session (λ s, set_pings (delete token (pings s)) s);;
      t ← read now;
      elapsed ← lift (ok_or (n ← t; Instant_checked_duration_since n started) SeProtocol);
      on_session (λ s, push_event (PingFinished (handle_id (handle s)) token (Ok elapsed)) s)
    end.

(** ** Dispatch: [receive.rs] *)

Definition data_len (id : N) (e : Event) : N :=
  match e with
  | Data stream bytes => if wire_id stream =? id then len bytes else 0
  | _ => 0
  end.
(** The [filter_map(...).sum()] over queued events. *)
Definition buffered (id : N) (evs : list Event) : N := foldr (λ e n, data_len id e + n) 0 evs.
#[global] Arguments buffered : simpl never.

Definition peer_outcome (kind : FrameType) (c : ErrorCode) : StreamOutcome :=
  if bool_decide (kind = Cancel_t)
     && bool_decide (c = Cancelled ∨ c = ResourceLimit ∨ c = InternalError)
  then OutCancelled Peer (match c with
                          | ResourceLimit => CrResourceLimit
                          | InternalError => CrInternalError
                          | _ => CrCancelled
                          end)
  else OutFailed (mkFailure Peer (failure_code c)).

Definition receive_end (id : N) (payload : bytes) : SM unit :=
  found ← read (λ s, streams s !! id);
  state ← lift (ok_or found SeProtocol);
  if negb (is_empty payload) || negb (remote_open state)
  then fail_stream id StreamStateError FcStreamState else
  on_session (λ s, set_streams (<[id := mkStreamState (ss_handle state) (local_open state) false
                                    (local_end_written state)]> (streams s)) s);;
  on_session (push_event (RemoteEnd (ss_handle state)));;
  on_session (complete id).

Definition receive_data (id : N) (payload : bytes) : SM unit :=
  found ← read (λ s, streams s !! id);
  state ← lift (ok_or found SeProtocol);
  if negb (remote_open state) then fail_stream id StreamStateError FcStreamState else
  if is_empty payload || (MAX_PAYLOAD_BYTES <? len payload)
  then fail_stream id StreamStateError FcStreamState else
  over ← read (λ s, buffered_bytes_per_stream (limits (resources s))
                    <? buffered id (events s) + len payload);
  if over : bool then fail_stream id ResourceLimit FcResourceLimit else
  on_session (push_event (Data (ss_handle state) payload)).

Definition receive_open (id : N) (payload : bytes) (registry : Registry) : SM unit :=
  accepted ← on_ids (accept id);
  lift (map_err SeId accepted);;
  draining ← read (λ s, goaway_sent s || bool_decide (is_Some (peer_goaway s)));
  if draining : bool then refuse id RefusedStream else
  full ← read (λ s, streams_per_connection (limits (resources s)) <=? N.of_nat (size (streams s)));
  if full : bool then refuse id ResourceLimit else
  match Open_decode payload with
  | Err _ => refuse id ProtocolError
  | Ok selection =>
    match resolve registry selection with
    | None => refuse id UnsupportedProtocol
    | Some owner =>
      add id owner (mkProtocol (open_id selection) (open_version selection));;
      mret tt
    end
  end.

(** The remaining frames of an active stream, or OPEN. *)
Definition receive_stream (kind : FrameType) (id : N) (payload : bytes) (registry : Registry)
    : SM unit :=
  if bool_decide (kind = Cancel_t ∨ kind = Error_t) && negb (id =? 0) then
    d ← lift (map_err (λ _, SeProtocol) (ErrorPayload_decode payload));
    perform (terminate id (peer_outcome kind (code d)))
  else if bool_decide (kind = End_t) then receive_end id payload
  else if bool_decide (kind = Data_t) then receive_data id payload
  else if bool_decide (kind ≠ Open_t) then throw SeProtocol
  else receive_open id payload registry.

Definition receive_parts (kind : FrameType) (id : N) (payload : bytes) (registry : Registry)
    : SM unit :=
  if bool_decide (kind = GoAway_t) && (id =? 0) then receive_goaway payload else
  if bool_decide (kind = Ping_t ∨ kind = Pong_t) && (id =? 0) then receive_ping kind payload else
  if bool_decide (kind = Error_t) && (id =? 0) then
    error ← lift (map_err (λ _, SeProtocol) (ErrorPayload_decode payload));
    perform (Session_close (Some (mkFailure Peer (failure_code (code error)))) None)
  else
  if bool_decide (kind ≠ Open_t) && negb (id =? 0) then
    created ← read (λ s, was_created (ids s) id);
    ensure created SeProtocol;;
    active ← read (λ s, bool_decide (is_Some (streams s !! id)));
    if active : bool then receive_stream kind id payload registry else mret tt
  else receive_stream kind id payload registry.

(** The failure and response [receive] closes with. *)
Definition close_on (e : SessionError) : SessSt → SessSt :=
  let capacity := bool_decide (e = SeCapacity) in
  Session_close
    (Some (mkFailure Local (if capacity then FcResourceLimit else FcProtocolViolation)))
    (Some (if capacity then ResourceLimit else ProtocolError)).

Definition Session_receive (f : VerifiedFrame) (registry : Registry) (at_ : Instant) : SM unit :=
  c ← read closed;
  (if c : bool then on_store (drop_option (reservation (verified f)));; throw SeClosed else mret tt);;
  on_session (tick at_);;
  full ← read (λ s, event_limit s <=? len (events s));
  if full : bool then
    perform (Session_close (Some (mkFailure Local FcResourceLimit)) None);;
    on_store (drop_option (reservation (verified f)));;
    throw SeCapacity
  else
  let h := header (verified f) in
  p ← call (λ '(s, st), let '(p, st) := VerifiedFrame_into_payload f st in (Ok p, (s, st)));
  result ← try_ (receive_parts (frame_type h) (stream_id h) p registry);
  match result with
  | Err e => perform (close_on e);; throw e
  | Ok tt => mret tt
  end.

(** ** Scheduling: [scheduler.rs] *)

Definition is_open_frame (f : WireFrame) : bool := bool_decide (frame_type (header f) = Open_t).

Definition first_open (q : list WireFrame) : option nat :=
  fst <$> list_find (λ f, is_open_frame f = true) q.

(** The loop over [outbound.iter().enumerate()]. *)
Fixpoint eligible (first : option nat) (index : nat) (seen : gset N) (q : list WireFrame)
    : list (N * nat) :=
  match q with
  | [] => []
  | f :: q =>
    let id := stream_id (header f) in
    let kind := frame_type (header f) in
    if bool_decide (id ∈ seen) then eligible first (S index) seen q else
    let seen := {[ id ]} ∪ seen in
    if bool_decide (kind = Open_t) && bool_decide (first ≠ Some index)
    then eligible first (S index) seen q else
    if bool_decide (kind = GoAway_t)
       && match first with Some open => bool_decide (open < index)%nat | None => false end
    then eligible first (S index) seen q else
    (id, index) :: eligible first (S index) seen q
  end.

(** [iter().min_by_key(|(id, _)| *id)]: the first of the least. *)
Fixpoint min_by_id (l : list (N * nat)) : option (N * nat) :=
  match l with
  | [] => None
  | x :: l =>
    match min_by_id l with
    | None => Some x
    | Some y => Some (if y.1 <? x.1 then y else x)
    end
  end.

Definition next_output (s : Session) : option WireFrame * Session :=
  let q := eligible (first_open (outbound s)) 0 ∅ (outbound s) in
  let after := filter (λ x, match last_output s with None => true | Some last => last <? x.1 end = true) q in
  let next := match min_by_id after with Some x => Some x | None => min_by_id q end in
  match next with
  | None => (None, s)
  | Some (id, index) =>
    (outbound s !! index, set_outbound (delete index (outbound s)) (set_last_output (Some id) s))
  end.

Definition pop_outbound (s : Session) : option WireFrame * Session := next_output s.

Definition pop_event (s : Session) : option Event * Session :=
  match events s with
  | [] => (None, s)
  | e :: rest => (Some e, set_events rest s)
  end.

Definition stream_of (e : Event) : option StreamHandle :=
  match e with
  | StreamOpened _ h _ | Data h _ | RemoteEnd h | StreamClosed h _ => Some h
  | _ => None
  end.

Definition pop_stream_event (owner : StreamOwner) (s : Session) : option Event * Session :=
  match list_find (λ e, match stream_of e with
                        | Some h => is_ok (StreamHandle_authorize h (handle_id (handle s)) owner)
                        | None => false
                        end = true) (events s) with
  | None => (None, s)
  | Some (index, _) => (events s !! index, set_events (delete index (events s)) s)
  end.
