(* ===== verification/SchedulerProps.v ===== *)
(** * Scheduler properties

    [session/scheduler.rs] keeps the order within each stream, the order of
    OPENs and the GOAWAY barrier, always makes progress, and starves nobody. *)

From S2P Require Import Prelude Bytes Header Api Resources Framing Session.

#[local] Open Scope N_scope.

Definition frame_id (f : WireFrame) : N := stream_id (header f).
Definition is_goaway_frame (f : WireFrame) : bool := bool_decide (frame_type (header f) = GoAway_t).

(** ** The eligible heads *)

(** Whether the frame at [i] may overtake the frames before it. *)
Definition allowed (first : option nat) (i : nat) (f : WireFrame) : Prop :=
  (is_open_frame f = true → first = Some i) ∧
  (is_goaway_frame f = true → ∀ o, first = Some o → ¬ (o < i)%nat).

#[global] Instance allowed_dec first i f : Decision (allowed first i f).
Proof.
  unfold allowed. destruct first as [o |].
  - destruct (decide (is_goaway_frame f = true → ¬ (o < i)%nat)) as [H | H];
      destruct (decide (is_open_frame f = true → Some o = Some i)) as [H' | H'].
    + left. split; [done |]. intros Hg o' [= <-]. by apply H.
    + right. intros [? _]. done.
    + right. intros [_ Hx]. apply H. intros Hg. by apply Hx.
    + right. intros [? _]. done.
  - destruct (decide (is_open_frame f = true → @None nat = Some i)) as [H' | H'].
    + left. by split.
    + right. intros [? _]. done.
Defined.

Lemma eligible_cons first index seen f q :
  eligible first index seen (f :: q) =
  if decide (frame_id f ∈ seen) then eligible first (S index) seen q else
  if decide (allowed first index f)
  then (frame_id f, index) :: eligible first (S index) ({[ frame_id f ]} ∪ seen) q
  else eligible first (S index) ({[ frame_id f ]} ∪ seen) q.
Proof.
  cbn [eligible]. fold (frame_id f).
  destruct (decide (frame_id f ∈ seen)) as [Hs | Hs]; [by rewrite bool_decide_true |].
  rewrite (bool_decide_false (_ ∈ seen)) by done.
  destruct (decide (allowed first index f)) as [[H1 H2] | H];
    unfold allowed, is_open_frame, is_goaway_frame in *; set (k := frame_type (header f)) in *;
    destruct (decide (k = Open_t)) as [Ho | Ho].
  - rewrite (bool_decide_true (k = Open_t)), (bool_decide_false (k = GoAway_t)) by congruence.
    rewrite bool_decide_false; [done |]. rewrite bool_decide_true in H1 by done. auto.
  - rewrite (bool_decide_false (k = Open_t)) by done. cbn [andb].
    case_bool_decide; [| done]. destruct first as [o |]; [| done].
    rewrite bool_decide_false; [done |]. by apply H2.
  - rewrite (bool_decide_true (k = Open_t)) by done. cbn [andb].
    rewrite bool_decide_true; [done |]. intros E. apply H. split; [done |].
    rewrite bool_decide_false by congruence. done.
  - rewrite (bool_decide_false (k = Open_t)) by done. cbn [andb].
    destruct (decide (k = GoAway_t)) as [Hg | Hg].
    + rewrite (bool_decide_true (k = GoAway_t)) by done.
      rewrite (bool_decide_false (k = Open_t)) in H by done.
      destruct first as [o |]; [destruct (decide (o < index)%nat) |].
      * by rewrite bool_decide_true.
      * exfalso. apply H. split; [done |]. by intros _ o' [= <-].
      * exfalso. by apply H.
    + exfalso. apply H. rewrite !bool_decide_false by done. done.
Qed.

Lemma eligible_elem first q : ∀ index seen id i,
  (id, i) ∈ eligible first index seen q ↔
  ∃ pre f post, q = pre ++ f :: post ∧ i = (index + length pre)%nat ∧ id = frame_id f ∧
    (id ∉ seen) ∧ Forall (λ g, frame_id g ≠ id) pre ∧ allowed first i f.
Proof.
  induction q as [| f q IH]; intros index seen id i.
  { split; [intros H; by apply elem_of_nil in H |]. intros (pre & f & post & H & _).
    by destruct pre. }
  rewrite eligible_cons. split.
  - intros H. assert ((id, i) = (frame_id f, index) ∧ (frame_id f ∉ seen) ∧ allowed first index f ∨
      (id ∉ seen) ∧ id ≠ frame_id f ∧ ∃ pre g post, q = pre ++ g :: post ∧
        i = (S index + length pre)%nat ∧ id = frame_id g ∧
        Forall (λ g, frame_id g ≠ id) pre ∧ allowed first i g) as [(E & Hs & Ha) | (Hs & Hn & He)].
    { destruct (decide (frame_id f ∈ seen)).
      - apply IH in H as (pre & g & post & ? & ? & ? & ? & ? & ?). right.
        split_and!; [done | congruence | by eauto 10].
      - destruct (decide (allowed first index f)); [apply elem_of_cons in H as [H | H]; [by left |] |];
          apply IH in H as (pre & g & post & ? & ? & ? & Hnin & ? & ?); right;
          (split_and!; [set_solver | set_solver | by eauto 10]). }
    + simplify_eq. exists [], f, q. cbn. rewrite Nat.add_0_r. by split_and!.
    + destruct He as (pre & g & post & -> & -> & -> & Hp & Ha).
      exists (f :: pre), g, post. cbn. split_and!; [done | lia | done | done | |].
      * constructor; [congruence | done].
      * by replace (index + S (length pre))%nat with (S index + length pre)%nat by lia.
  - intros (pre & g & post & E & -> & -> & Hs & Hp & Ha). destruct pre as [| f' pre]; cbn in E.
    + simplify_eq. cbn in Ha |- *. rewrite Nat.add_0_r in Ha |- *.
      rewrite decide_False by done. rewrite decide_True by done. apply list_elem_of_here.
    + simplify_eq. inversion_clear Hp as [| ? ? Hf Hp'].
      assert ((frame_id g, (index + length (f' :: pre))%nat) ∈
        eligible first (S index) ({[ frame_id f' ]} ∪ seen) (pre ++ g :: post)) as Hin.
      { apply IH. exists pre, g, post. split_and!; [done | cbn; lia | done | set_solver | done | done]. }
      destruct (decide (frame_id f' ∈ seen)).
      { apply IH. exists pre, g, post. split_and!; [done | cbn; lia | done | done | done | done]. }
      destruct (decide (allowed first index f')); [by apply elem_of_cons; right | done].
Qed.

Lemma first_open_Some q i :
  first_open q = Some i ↔
  ∃ pre f post, q = pre ++ f :: post ∧ i = length pre ∧ is_open_frame f = true ∧
    Forall (λ g, is_open_frame g = false) pre.
Proof.
  unfold first_open. split.
  - destruct (list_find _ _) as [[j f] |] eqn:E; [| done]. intros [= <-].
    apply list_find_Some in E as (Hj & Ho & Hb). exists (take j q), f, (drop (S j) q).
    split_and!; [by rewrite take_drop_middle | | done |].
    + rewrite length_take. apply lookup_lt_Some in Hj. lia.
    + apply Forall_forall. intros g Hg. apply list_elem_of_lookup in Hg as [k Hk].
      pose proof (lookup_lt_Some _ _ _ Hk) as Hlt. rewrite length_take in Hlt.
      rewrite lookup_take_lt in Hk by lia. specialize (Hb k g Hk ltac:(lia)).
      by destruct (is_open_frame g).
  - intros (pre & f & post & -> & -> & Ho & Hp).
    enough (list_find (λ f, is_open_frame f = true) (pre ++ f :: post) = Some (length pre, f)) as ->
      by done.
    apply list_find_Some. split_and!; [by rewrite list_lookup_middle | done |].
    intros j y Hj Hlt. rewrite lookup_app_l in Hj by done.
    rewrite Forall_forall in Hp. rewrite (Hp y); [done |]. by eapply list_elem_of_lookup_2.
Qed.

Lemma first_open_None q : first_open q = None ↔ Forall (λ g, is_open_frame g = false) q.
Proof.
  unfold first_open. destruct (list_find _ _) as [[j f] |] eqn:E; cbn.
  - split; [done |]. intros Hf. apply list_find_Some in E as (Hj & Ho & _).
    rewrite Forall_forall in Hf. rewrite (Hf f) in Ho; [done |]. by eapply list_elem_of_lookup_2.
  - apply list_find_None in E. split; [| done]. intros _. eapply Forall_impl; [exact E |].
    intros g Hg. cbn in Hg. by destruct (is_open_frame g).
Qed.

(** What [allowed] means of a queue's own first OPEN. *)
Definition no_open (pre : list WireFrame) : Prop := Forall (λ g, is_open_frame g = false) pre.

Lemma allowed_spec pre f post :
  allowed (first_open (pre ++ f :: post)) (length pre) f ↔
  (is_open_frame f || is_goaway_frame f = true → no_open pre).
Proof.
  unfold allowed, no_open. split.
  - intros [H1 H2] [Ho | Hg]%orb_true_iff.
    + specialize (H1 Ho). apply first_open_Some in H1 as (pre' & f' & post' & E & El & _ & Hp).
      apply app_inj_1 in E as [-> _]; [done | done].
    + apply Forall_forall. intros g Hg'. destruct (is_open_frame g) eqn:Eg; [| done].
      destruct (first_open (pre ++ f :: post)) as [o |] eqn:Ef.
      * specialize (H2 Hg o eq_refl).
        apply first_open_Some in Ef as (pre' & f' & post' & E & -> & _ & Hp).
        exfalso. apply H2. destruct (decide (length pre ≤ length pre')%nat) as [Hle | ?]; [| lia].
        exfalso. apply app_eq_app in E as [l [[-> _] | [-> _]]].
        -- rewrite length_app in Hle. destruct l; [| cbn in Hle; lia]. rewrite app_nil_r in Hg'.
           rewrite Forall_forall in Hp. specialize (Hp g Hg'). congruence.
        -- apply Forall_app in Hp as [Hp _]. rewrite Forall_forall in Hp. specialize (Hp g Hg'). congruence.
      * apply first_open_None in Ef. rewrite Forall_forall in Ef.
        rewrite (Ef g) in Eg; [done |]. apply elem_of_app. by left.
  - intros H. split.
    + intros Ho. rewrite Ho in H. apply first_open_Some. exists pre, f, post. by split_and!; auto.
    + intros Hg o Ho Hlt. rewrite Hg, orb_true_r in H. specialize (H eq_refl).
      apply first_open_Some in Ho as (pre' & f' & post' & E & -> & Ho & _).
      assert ((pre ++ f :: post) !! length pre' = Some f') as Hl by (rewrite E; apply list_lookup_middle; done).
      rewrite lookup_app_l in Hl by done. rewrite Forall_forall in H.
      rewrite (H f') in Ho; [done |]. by eapply list_elem_of_lookup_2.
Qed.

(** ** Selection *)

Lemma min_by_id_None l : min_by_id l = None ↔ l = [].
Proof. destruct l as [| x l]; cbn; [done |]. by destruct (min_by_id l). Qed.

Lemma min_by_id_Some l x :
  min_by_id l = Some x → x ∈ l ∧ ∀ y, y ∈ l → x.1 ≤ y.1.
Proof.
  revert x. induction l as [| z l IH]; intros x; cbn; [done |].
  destruct (min_by_id l) as [m |] eqn:E.
  - destruct (IH m eq_refl) as [Hm Hle]. destruct (N.ltb_spec m.1 z.1); intros [= <-].
    + split; [by apply elem_of_cons; right |]. intros y [-> | Hy]%elem_of_cons; [lia | auto].
    + split; [apply list_elem_of_here |]. intros y [-> | Hy]%elem_of_cons; [lia |].
      specialize (Hle y Hy). lia.
  - apply min_by_id_None in E as ->. intros [= <-]. split; [apply list_elem_of_here |].
    intros y [-> | Hy]%elem_of_cons; [lia | by apply elem_of_nil in Hy].
Qed.

(** The streams whose head may be sent now. *)
Definition eligible_ids (q : list WireFrame) : list N := (eligible (first_open q) 0 ∅ q).*1.

Lemma eligible_ids_elem q id :
  id ∈ eligible_ids q ↔
  ∃ pre f post, q = pre ++ f :: post ∧ id = frame_id f ∧
    Forall (λ g, frame_id g ≠ id) pre ∧
    (is_open_frame f || is_goaway_frame f = true → no_open pre).
Proof.
  unfold eligible_ids. rewrite list_elem_of_fmap. split.
  - intros ([id' i] & -> & H). cbn. apply eligible_elem in H as (pre & f & post & -> & -> & -> & _ & Hp & Ha).
    exists pre, f, post. split_and!; try done. by apply (allowed_spec pre f post).
  - intros (pre & f & post & -> & -> & Hp & Ha). exists (frame_id f, length pre). split; [done |].
    apply eligible_elem. exists pre, f, post.
    split_and!; [done | done | done | set_solver | done | by apply allowed_spec].
Qed.

(** [x] comes no later than [y] in the rotation that starts after [last]. *)
Definition rotation_le (last : option N) (x y : N) : Prop :=
  match last with
  | None => x ≤ y
  | Some l => (l < x ∧ (l < y → x ≤ y)) ∨ (x ≤ l ∧ y ≤ l ∧ x ≤ y)
  end.

Lemma next_output_Some s f s' :
  next_output s = (Some f, s') →
  ∃ pre post, outbound s = pre ++ f :: post ∧
    s' = set_outbound (pre ++ post) (set_last_output (Some (frame_id f)) s) ∧
    Forall (λ g, frame_id g ≠ frame_id f) pre ∧
    (is_open_frame f || is_goaway_frame f = true → no_open pre) ∧
    ∀ j, j ∈ eligible_ids (outbound s) → rotation_le (last_output s) (frame_id f) j.
Proof.
  unfold next_output. set (q := eligible _ _ _ _).
  set (later := λ x : N * nat, match last_output s with None => true | Some l => l <? x.1 end).
  intros H. change (filter _ q) with (filter (λ x, later x = true) q) in H.
  assert (∃ x, x ∈ q ∧ outbound s !! x.2 = Some f ∧
      s' = set_outbound (delete x.2 (outbound s)) (set_last_output (Some x.1) s) ∧
      ∀ j, j ∈ q.*1 → rotation_le (last_output s) x.1 j) as (x & Hx & El & -> & Hr).
  { destruct (min_by_id (filter (λ x, later x = true) q)) as [[id i] |] eqn:E1; cbv beta iota in H.
    - exists (id, i). apply min_by_id_Some in E1 as [Hin Hmin].
      apply list_elem_of_filter in Hin as [Hlt Hin]. unfold later in Hlt. cbn in Hlt, Hmin.
      cbv beta iota in H. injection H as H <-. split_and!; [done | done | done |].
      + intros j Hj. apply list_elem_of_fmap in Hj as (y & -> & Hy). cbn. unfold rotation_le.
        destruct (last_output s) as [l |] eqn:El.
        * left. split; [lia |]. intros Hly. apply (Hmin y). apply list_elem_of_filter.
          split; [unfold later; rewrite ?El; lia | done].
        * apply (Hmin y). apply list_elem_of_filter. split; [unfold later; by rewrite ?El | done].
    - apply min_by_id_None in E1. destruct (min_by_id q) as [[id i] |] eqn:E2; [| done].
      exists (id, i). apply min_by_id_Some in E2 as [Hin Hmin].
      assert (∀ y, y ∈ q → ∃ l, last_output s = Some l ∧ y.1 ≤ l) as Hno.
      { intros y Hy. destruct (later y) eqn:Ey.
        - exfalso. apply (not_elem_of_nil y). rewrite <- E1. by apply list_elem_of_filter.
        - unfold later in Ey. destruct (last_output s) as [l |]; [| done]. exists l. split; [done | lia]. }
      cbv beta iota in H. injection H as H <-. split_and!; [done | done | done |].
      + intros j Hj. apply list_elem_of_fmap in Hj as (y & -> & Hy). cbn. unfold rotation_le.
        destruct (Hno _ Hin) as (l & El & Hle), (Hno _ Hy) as (l' & El' & Hle'). cbn in Hle.
        rewrite El in El' |- *. injection El' as ->. right. specialize (Hmin y Hy). cbn in Hmin.
        lia. }
  clear H. destruct x as [id i]. cbn in El, Hr |- *. unfold q in Hx.
  apply eligible_elem in Hx as (pre & g & post & Eq & -> & -> & _ & Hp & Ha).
  rewrite Eq in Ha. pose proof (proj1 (allowed_spec _ _ _) Ha) as Hopen. cbn [plus] in El |- *.
  rewrite Eq, list_lookup_middle in El by done. injection El as ->.
  exists pre, post. split_and!; [done | | done | done | done].
  f_equal. by rewrite Eq, delete_middle.
Qed.

Lemma eligible_head f q : eligible_ids (f :: q) ≠ [].
Proof.
  intros E. assert (frame_id f ∈ eligible_ids (f :: q)) as H; [| by rewrite E in H; apply elem_of_nil in H].
  apply eligible_ids_elem. exists [], f, q. split_and!; [done | done | constructor | constructor].
Qed.

Lemma next_output_progress s : outbound s ≠ [] → ∃ f s', next_output s = (Some f, s').
Proof.
  intros Hne. unfold next_output. set (q := eligible _ _ _ _).
  assert (q ≠ []) as Hq.
  { destruct (outbound s) as [| f l] eqn:E; [done |]. pose proof (eligible_head f l) as Hh.
    unfold eligible_ids in Hh. unfold q. by intros Hx; apply Hh; rewrite Hx. }
  assert (∃ x, x ∈ q ∧ match min_by_id (filter (λ x : N * nat, match last_output s with
      None => true | Some l => l <? x.1 end = true) q) with Some x => Some x | None => min_by_id q end
      = Some x) as ([id i] & Hx & ->).
  { destruct (min_by_id (filter _ q)) as [x |] eqn:E1.
    - exists x. apply min_by_id_Some in E1 as [Hin _]. by apply list_elem_of_filter in Hin as [_ ?].
    - destruct (min_by_id q) as [x |] eqn:E2; [| by apply min_by_id_None in E2].
      exists x. by apply min_by_id_Some in E2 as [? _]. }
  unfold q in Hx. apply eligible_elem in Hx as (pre & g & post & Eq & -> & _).
  cbn [plus]. rewrite Eq, list_lookup_middle by done. by eauto.
Qed.

(** ** Draining the queue *)

(** Pop until the queue is empty; its length is enough fuel. *)
Fixpoint drain_all (fuel : nat) (s : Session) : list WireFrame :=
  match fuel with
  | O => []
  | S fuel =>
    match pop_outbound s with
    | (None, _) => []
    | (Some f, s) => f :: drain_all fuel s
    end
  end.

Lemma Forall_filter_nil {A} (P : A → Prop) `{!∀ x, Decision (P x)} l :
  Forall (λ x, ¬ P x) l → filter P l = [].
Proof.
  induction 1 as [| x l Hx _ IH]; [done |]. by rewrite filter_cons_False.
Qed.

(** Deleting the first element of a class keeps the order of that class, and
    keeps every class the element is not in. *)
Lemma filter_delete {A} (P : A → Prop) `{!∀ x, Decision (P x)} pre f post :
  (P f → Forall (λ g, ¬ P g) pre) →
  filter P (pre ++ f :: post) = filter P [f] ++ filter P (pre ++ post).
Proof.
  intros Hpre. rewrite !filter_app, !filter_cons, filter_nil.
  destruct (decide (P f)) as [Hf | Hf]; [| done].
  assert (filter P pre = []) as ->; [| done].
  apply Forall_filter_nil. by apply Hpre.
Qed.

(** One step of the drain. *)
Lemma drain_all_step n s :
  length (outbound s) = S n →
  ∃ pre f post s', outbound s = pre ++ f :: post ∧ outbound s' = pre ++ post ∧
    length (outbound s') = n ∧ drain_all (S n) s = f :: drain_all n s' ∧
    Forall (λ g, frame_id g ≠ frame_id f) pre ∧
    (is_open_frame f || is_goaway_frame f = true → no_open pre).
Proof.
  intros Hn. cbn [drain_all]. unfold pop_outbound.
  destruct (next_output_progress s) as (f & s' & Hs); [by destruct (outbound s) |]. rewrite Hs.
  destruct (next_output_Some _ _ _ Hs) as (pre & post & Eq & -> & Hp & Ho & _).
  exists pre, f, post, (set_outbound (pre ++ post) (set_last_output (Some (frame_id f)) s)).
  split_and!; [done | done | | done | done | done]. cbn.
  rewrite Eq in Hn. rewrite !length_app in *. cbn in Hn. lia.
Qed.

Lemma drain_all_permutation n : ∀ s, length (outbound s) = n → drain_all n s ≡ₚ outbound s.
Proof.
  induction n as [| n IH]; intros s Hn; [by destruct (outbound s) |].
  destruct (drain_all_step n s Hn) as (pre & f & post & s' & -> & Eq' & Hn' & -> & _).
  by rewrite (IH s' Hn'), Eq', Permutation_middle.
Qed.

(** A class of frames none of which is overtaken keeps its order. *)
Lemma drain_all_class (P : WireFrame → Prop) `{!∀ x, Decision (P x)} n :
  (∀ pre f, Forall (λ g, frame_id g ≠ frame_id f) pre →
     (is_open_frame f || is_goaway_frame f = true → no_open pre) →
     P f → Forall (λ g, ¬ P g) pre) →
  ∀ s, length (outbound s) = n → filter P (drain_all n s) = filter P (outbound s).
Proof.
  intros HP. induction n as [| n IH]; intros s Hn; [by destruct (outbound s) |].
  destruct (drain_all_step n s Hn) as (pre & f & post & s' & -> & Eq' & Hn' & -> & Hp & Ho).
  rewrite (filter_delete P) by (by eapply HP). rewrite <- Eq', <- (IH s' Hn').
  rewrite !filter_cons, filter_nil. by destruct (decide (P f)).
Qed.

Lemma open_not_goaway f : is_open_frame f = true → is_goaway_frame f = false.
Proof. unfold is_open_frame, is_goaway_frame. repeat case_bool_decide; congruence. Qed.

Abbreviation opens := (filter (λ f, is_open_frame f = true)).

Lemma no_open_opens pre : no_open pre → opens pre = [].
Proof.
  intros H. apply Forall_filter_nil. eapply Forall_impl; [exact H |]. intros g Hg. cbn in Hg.
  by rewrite Hg.
Qed.

Lemma drain_all_barrier n : ∀ s pre f post,
  length (outbound s) = n → outbound s = pre ++ f :: post → is_goaway_frame f = true →
  Forall (λ g, is_goaway_frame g = false) pre →
  ∃ l f' r, drain_all n s = l ++ f' :: r ∧ is_goaway_frame f' = true ∧
    Forall (λ g, is_goaway_frame g = false) l ∧ opens pre `prefix_of` opens l.
Proof.
  induction n as [| n IH]; intros s pre f post Hn E Hf Hpre.
  { rewrite E, length_app in Hn. cbn in Hn. lia. }
  destruct (drain_all_step n s Hn) as (p & g & q & s' & Eq & Eq' & Hn' & -> & _ & Ho).
  destruct (is_goaway_frame g) eqn:Hg.
  { exists [], g, (drain_all n s'). split_and!; [done | done | constructor |].
    rewrite E in Eq. rewrite orb_true_r in Ho. specialize (Ho eq_refl). unfold no_open in Ho.
    apply app_eq_app in Eq as [k [[-> Ek] | [-> Ek]]].
    - destruct k as [| x k]; cbn in Ek; simplify_eq.
      + rewrite app_nil_r, no_open_opens; [apply prefix_nil | done].
      + apply Forall_app in Hpre as [_ Hpre]. inversion Hpre. congruence.
    - apply Forall_app in Ho as [Ho _]. rewrite no_open_opens; [apply prefix_nil | done]. }
  assert (∃ pre' post', outbound s' = pre' ++ f :: post' ∧ Forall (λ g, is_goaway_frame g = false) pre' ∧
    opens pre `prefix_of` opens [g] ++ opens pre') as (pre' & post' & E' & Hpre' & Hpo).
  { rewrite E in Eq. apply app_eq_app in Eq as [k [[-> Ek] | [-> Ek]]].
    - destruct k as [| x k]; cbn in Ek; simplify_eq; [congruence |].
      exists (p ++ k), post. rewrite Eq', <- app_assoc. split_and!; [done | |].
      + apply Forall_app in Hpre as [? Hpre]. inversion Hpre. by apply Forall_app.
      + rewrite (filter_delete (λ f, is_open_frame f = true)); [done |].
        intros Hx. rewrite Hx in Ho. eapply Forall_impl; [by apply Ho |]. intros y Hy. cbn in Hy.
        by rewrite Hy.
    - destruct k as [| x k]; cbn in Ek; simplify_eq; [congruence |].
      exists pre, (k ++ q). rewrite Eq', <- app_assoc. split_and!; [done | done |].
      destruct (is_open_frame g) eqn:Hog.
      + specialize (Ho eq_refl). apply Forall_app in Ho as [Ho _].
        rewrite (no_open_opens pre) by done. apply prefix_nil.
      + rewrite filter_cons_False, filter_nil by (by rewrite Hog). done. }
  destruct (IH s' pre' f post' Hn' E' Hf Hpre') as (l & f' & r & -> & Hf' & Hl & Hpl).
  exists (g :: l), f', r. split_and!; [done | done | by constructor |].
  etrans; [exact Hpo |]. change (g :: l) with ([g] ++ l). rewrite filter_app. by apply prefix_app.
Qed.

(** Scheduling reorders across streams only.  Popping a queue until it is
    empty yields every queued frame exactly once; the frames of each stream come
    out in the order they were queued; so do the OPENs, so that the peer sees
    contiguous identifiers; and every OPEN queued before a GOAWAY leaves before
    any GOAWAY does. *)
Theorem drain_preserves_order (s : Session) :
  let out := drain_all (length (outbound s)) s in
  out ≡ₚ outbound s ∧
  (∀ id, filter (λ f, frame_id f = id) out = filter (λ f, frame_id f = id) (outbound s)) ∧
  opens out = opens (outbound s) ∧
  (∀ pre f post, outbound s = pre ++ f :: post → is_goaway_frame f = true →
     Forall (λ g, is_goaway_frame g = false) pre →
     ∃ l f' r, out = l ++ f' :: r ∧ is_goaway_frame f' = true ∧
       Forall (λ g, is_goaway_frame g = false) l ∧ opens pre `prefix_of` opens l).
Proof.
  cbn zeta. split_and!.
  - by apply drain_all_permutation.
  - intros id. apply drain_all_class; [| done]. intros pre f Hp _ <-. done.
  - apply drain_all_class; [| done]. intros pre f _ Ho Hf. rewrite Hf in Ho.
    eapply Forall_impl; [by apply Ho |]. intros g Hg. cbn in Hg. by rewrite Hg.
  - intros pre f post. by apply drain_all_barrier.
Qed.

(** ** Nobody starves *)

(** Stream [j] keeps an eligible head while other streams are served, in the
    order [served]; anything else may happen to the session in between. *)
Inductive waits (j : N) : Session → list N → Prop :=
| waits_done s : waits j s []
| waits_change s s' served :
    last_output s' = last_output s → waits j s' served → waits j s served
| waits_serve s f s' served :
    j ∈ eligible_ids (outbound s) → pop_outbound s = (Some f, s') → frame_id f ≠ j →
    waits j s' served → waits j s (frame_id f :: served).

(** How far the rotation has to go from [l] to reach [j]. *)
Definition distance (j : N) (last : option N) : N :=
  match last with
  | None => j + u32_limit
  | Some l => if l <? j then j - l else j + u32_limit - l
  end.

Lemma serve_closer j s f s' :
  j ∈ eligible_ids (outbound s) → next_output s = (Some f, s') → frame_id f ≠ j →
  j < u32_limit → (∀ l, last_output s = Some l → l < u32_limit) → frame_id f < u32_limit →
  last_output s' = Some (frame_id f) ∧
  distance j (Some (frame_id f)) < distance j (last_output s) ∧
  (last_output s = None → frame_id f < j).
Proof.
  intros Hj Hs Hne Hj32 Hl Hf.
  destruct (next_output_Some _ _ _ Hs) as (pre & post & Eq & -> & _ & _ & Hr).
  split; [done |]. specialize (Hr j Hj). unfold rotation_le, distance in *.
  destruct (last_output s) as [l |].
  - specialize (Hl l eq_refl). split; [| done].
    destruct (N.ltb_spec l j), (N.ltb_spec (frame_id f) j); lia.
  - split; [destruct (N.ltb_spec (frame_id f) j); lia | intros _; lia].
Qed.

Lemma waits_closer j s served :
  waits j s served → j < u32_limit → (∀ l, last_output s = Some l → l < u32_limit) →
  Forall (λ x, x < u32_limit) served →
  Forall (λ x, x ≠ j ∧ distance j (Some x) < distance j (last_output s)) served ∧ NoDup served.
Proof.
  intros Hw Hj. induction Hw as [s | s s' served El Hw IH | s f s' served Hin Hs Hne Hw IH]; intros Hl Hb.
  - split; constructor.
  - rewrite <- El in *. by apply IH.
  - inversion_clear Hb as [| ? ? Hf Hb'].
    destruct (serve_closer j s f s' Hin Hs Hne Hj Hl Hf) as (El & Hd & _).
    destruct IH as [IH1 IH2]; [rewrite El; by intros l [= <-] | done |]. rewrite El in IH1.
    split; [constructor; [done |] | constructor; [| done]].
    + eapply Forall_impl; [exact IH1 |]. intros x [? ?]. split; [done | lia].
    + intros Hx. rewrite Forall_forall in IH1. destruct (IH1 _ Hx) as [_ ?]. lia.
Qed.

(** C40: no stream starves.  While a stream has a frame ready at its head,
    however the queue changes in between, no other stream is served twice
    before it is served: the streams served meanwhile are pairwise distinct, so
    a ready stream waits for at most one frame of each other stream. *)
Theorem bounded_waiting (j : N) (s : Session) (served : list N) :
  waits j s served → j < u32_limit → (∀ l, last_output s = Some l → l < u32_limit) →
  Forall (λ x, x < u32_limit) served → NoDup (j :: served).
Proof.
  intros Hw Hj Hl Hb. destruct (waits_closer j s served Hw Hj Hl Hb) as [H1 H2].
  constructor; [| done]. intros Hx. rewrite Forall_forall in H1. by destruct (H1 _ Hx) as [[] _].
Qed.

(** Three streams have frames ready and stream 1 was served last. *)
Definition ready_frame (id : N) : WireFrame :=
  mkWireFrame None (mkFrameHeader Data_t id 1) [x01] None.
Definition busy_session : Session :=
  set_last_output (Some 1)
    (set_outbound (ready_frame <$> [1; 1; 3; 5; 3])
       (with_handle (mkConnectionHandle 0) Initiator [] [] Store_empty).1).

Lemma bounded_waiting_witness : NoDup [1; 3; 5].
Proof.
  apply (bounded_waiting 1 busy_session [3; 5]).
  - eapply (waits_serve 1 _ (ready_frame 3) _ [5]); [| vm_compute; reflexivity | discriminate |].
    { vm_compute. apply list_elem_of_here. }
    eapply (waits_serve 1 _ (ready_frame 5) _ []); [| vm_compute; reflexivity | discriminate |].
    { vm_compute. apply list_elem_of_here. }
    apply waits_done.
  - reflexivity.
  - intros l H. injection H as <-. reflexivity.
  - repeat constructor.
Defined.
