(* ===== verification/SessionSteps.v ===== *)
(** * Session steps

    An over-approximation of what the methods of [session.rs] do: a step relation
    on sessions coarse enough that invariants are short to prove against its
    rules, with every method a sequence of such steps.  Queueing and withdrawing
    output are free here; [SessionMachine] has the exact machine, with the guards
    of every call. *)

From S2P Require Import Prelude Bytes Header Control OpenCodec Api Resources Framing.
From S2P Require Import Integrity StreamIds Registry Session.

#[local] Open Scope N_scope.

Definition draining (s : Session) : bool := goaway_sent s || bool_decide (is_Some (peer_goaway s)).
Definition max_streams (s : Session) : N := streams_per_connection (limits (resources s)).
Definition max_buffered (s : Session) : N := buffered_bytes_per_stream (limits (resources s)).

(** The state an opened stream leaves, before its event. *)
Definition note_accepted (ds : StreamIds) (id : N) (s : Session) : Session :=
  let s := set_ids ds s in if is_local ds id then s else set_accepted_remote id s.

(** The terminal state, before a response is queued. *)
Definition closing (failure : option Failure) (s : Session) : Session :=
  let failure := match failure with Some f => Some f | None => drain_failure s end in
  let unfinished := default (mkFailure Local FcConnectionLost) failure in
  set_events (events s
    ++ map (λ token, PingFinished (handle_id (handle s)) token (Err unfinished)) (ping_keys (pings s))
    ++ omap (λ id, state ← streams s !! id;
         Some (StreamClosed (ss_handle state) (OutFailed unfinished))) (stream_keys (streams s))
    ++ [ConnectionClosed (handle_id (handle s)) failure])
    (set_streams ∅ (set_pings ∅ (set_outbound [] (set_closed true s)))).

Inductive step (s : Session) : Session → Prop :=
| step_push f : step s (push_outbound f s)
| step_keep keep : step s (set_outbound (filter (λ f : WireFrame, keep f = true) (outbound s)) s)
| step_goaway_sent : closed s = false → step s (set_goaway_sent true s)
| step_goaway_written : step s (set_goaway_written true s)
| step_peer_goaway last :
    last = 0 ∨ is_local (ids s) last = true → last ≤ greatest_local (ids s) →
    (∀ p, peer_goaway s = Some p → last ≤ p) →
    step s (set_peer_goaway (Some last) s)
| step_drain_failure f : step s (set_drain_failure f s)
| step_now t : step s (set_now t s)
| step_flags id state lo le :
    streams s !! id = Some state →
    step s (set_streams
      (<[id := mkStreamState (ss_handle state) lo (remote_open state) le]> (streams s)) s)
| step_terminal id state outcome :
    closed s = false → streams s !! id = Some state →
    (outcome = OutCompleted → remote_open state = false ∧ local_end_written state = true) →
    step s (push_event (StreamClosed (ss_handle state) outcome)
              (set_streams (delete id (streams s)) s))
| step_refused id ds :
    closed s = false → accept id (ids s) = (Ok tt, ds) → step s (set_ids ds s)
| step_opened id ds owner protocol :
    closed s = false → draining s = false → N.of_nat (size (streams s)) < max_streams s →
    len (events s) < event_limit s →
    accept id (ids s) = (Ok tt, ds) ∨ allocate (ids s) = (Ok id, ds) → id ≠ 0 →
    let h := StreamHandle_new (handle s) owner id in
    step s (push_event (StreamOpened (context s) h protocol)
              (set_streams (<[id := mkStreamState h true true false]> (streams s))
                 (note_accepted ds id s)))
| step_data id state data :
    closed s = false → streams s !! id = Some state → remote_open state = true →
    1 ≤ len data ≤ MAX_PAYLOAD_BYTES → buffered id (events s) + len data ≤ max_buffered s →
    len (events s) < event_limit s →
    step s (push_event (Data (ss_handle state) data) s)
| step_remote_end id state :
    closed s = false → streams s !! id = Some state → remote_open state = true →
    len (events s) < event_limit s →
    step s (push_event (RemoteEnd (ss_handle state))
              (set_streams (<[id := mkStreamState (ss_handle state) (local_open state) false
                                      (local_end_written state)]> (streams s)) s))
| step_ping token started deadline :
    closed s = false → pings s !! token = None → (size (pings s) < 64)%nat →
    step s (set_pings (<[token := (started, deadline)]> (pings s)) s)
| step_ping_finished token probe result :
    closed s = false → pings s !! token = Some probe →
    step s (push_event (PingFinished (handle_id (handle s)) token result)
              (set_pings (delete token (pings s)) s))
| step_ping_lost token : closed s = false → step s (set_pings (delete token (pings s)) s)
| step_closed failure : closed s = false → step s (closing failure s).

Abbreviation steps := (rtc step).

(** ** Composition *)

Section composition.
Context {A B : Type} (s : Session) (st : Store).

Lemma steps_read {X} (f : Session → X) (k : X → SM B) :
  steps s (k (f s) (s, st)).2.1 → steps s ((read f ≫= k) (s, st)).2.1.
Proof. done. Qed.
Lemma steps_ensure b e (k : unit → SM B) :
  (b = true → steps s (k tt (s, st)).2.1) → steps s ((ensure b e ≫= k) (s, st)).2.1.
Proof. intros H. destruct b; [by apply H | apply rtc_refl]. Qed.
Lemma steps_lift (r : result SessionError A) (k : A → SM B) :
  (∀ a, r = Ok a → steps s (k a (s, st)).2.1) → steps s ((lift r ≫= k) (s, st)).2.1.
Proof. intros H. destruct r; [by apply H | apply rtc_refl]. Qed.
Lemma steps_reserve n (k : Reservation → SM B) :
  (∀ r st', steps s (k r (s, st')).2.1) → steps s ((reserve_outbound n ≫= k) (s, st)).2.1.
Proof.
  intros H. unfold mbind, M_bind, reserve_outbound.
  destruct (Resources_outbound (resources s) n st) as [[r |] st']; [apply H | apply rtc_refl].
Qed.
Lemma steps_store f (k : unit → SM B) :
  (∀ st', steps s (k tt (s, st')).2.1) → steps s ((on_store f ≫= k) (s, st)).2.1.
Proof. intros H. apply H. Qed.
Lemma steps_session f (k : unit → SM B) :
  step s (f s) → steps (f s) (k tt (f s, st)).2.1 → steps s ((on_session f ≫= k) (s, st)).2.1.
Proof. intros H1 H2. by eapply rtc_l. Qed.
Lemma steps_bind (m : SM A) (k : A → SM B) :
  steps s (m (s, st)).2.1 →
  (∀ a s' st', m (s, st) = (Ok a, (s', st')) → steps s' (k a (s', st')).2.1) →
  steps s ((m ≫= k) (s, st)).2.1.
Proof.
  intros H1 H2. unfold mbind, M_bind. destruct (m (s, st)) as [[a | e] [s' st']] eqn:E; [| done].
  etrans; [exact H1 |]. by apply H2.
Qed.
Lemma steps_try_bind (m : SM A) (k : result SessionError A → SM B) :
  steps s (m (s, st)).2.1 →
  (∀ r s' st', m (s, st) = (r, (s', st')) → steps s' (k r (s', st')).2.1) →
  steps s ((try_ m ≫= k) (s, st)).2.1.
Proof.
  intros H1 H2. unfold mbind, M_bind, try_. destruct (m (s, st)) as [r [s' st']] eqn:E.
  etrans; [exact H1 |]. by apply H2.
Qed.
End composition.

Ltac ms := repeat
  match goal with
  | |- steps _ ((read _ ≫= _) _).2.1 => apply steps_read
  | |- steps _ ((ensure _ _ ≫= _) _).2.1 => apply steps_ensure; intros ?
  | |- steps _ ((lift _ ≫= _) _).2.1 => apply steps_lift; intros ? ?
  | |- steps _ ((reserve_outbound _ ≫= _) _).2.1 => apply steps_reserve; intros ? ?
  | |- steps _ ((on_store _ ≫= _) _).2.1 => apply steps_store; intros ?
  end.

Lemma steps_once s s' : step s s' → steps s s'.
Proof. apply rtc_once. Qed.

(** ** Output methods *)

Lemma queue_steps f s st : steps s (queue f (s, st)).2.1.
Proof. unfold queue. ms. apply steps_once, step_push. Qed.
Lemma refuse_steps id c s st : steps s (refuse id c (s, st)).2.1.
Proof. unfold refuse. ms. apply queue_steps. Qed.
Lemma send_steps owner stream data s st : steps s (Session_send owner stream data (s, st)).2.1.
Proof. unfold Session_send. ms. apply queue_steps. Qed.

Lemma queue_closed f s st s' st' : queue f (s, st) = (Ok tt, (s', st')) → closed s' = closed s.
Proof.
  unfold queue, reserve_outbound, on_session. unfold_m. intros H.
  destruct (Resources_outbound _ _ _) as [[r |] st1]; cbn in H; by simplify_eq.
Qed.

Lemma drain_steps reason s st : steps s (drain reason (s, st)).2.1.
Proof.
  unfold drain. ms. destruct (goaway_sent s); [apply rtc_refl |]. ms.
  apply steps_bind; [apply queue_steps |]. intros [] s' st' Hq. apply steps_once, step_goaway_sent.
  apply queue_closed in Hq. rewrite Hq. by apply negb_true_iff.
Qed.

(** ** Termination *)

Lemma terminate_steps id outcome s st :
  closed s = false → outcome ≠ OutCompleted →
  steps s (terminate id outcome (s, st)).1 ∧ closed (terminate id outcome (s, st)).1 = false.
Proof.
  intros Hc Ho. unfold terminate, retain_outbound. set (s1 := set_outbound _ s).
  assert (steps s s1) as H1 by apply steps_once, step_keep.
  assert (closed s1 = false) as Hc1 by done. clearbody s1.
  destruct (streams s1 !! id) as [state |] eqn:Hs; [| done]. split; [| done].
  eapply rtc_r; [exact H1 |]. by apply step_terminal.
Qed.

Lemma terminate_all_steps outcome refused : ∀ s st,
  closed s = false → outcome ≠ OutCompleted →
  steps s (terminate_all refused outcome (s, st)).1 ∧
  closed (terminate_all refused outcome (s, st)).1 = false.
Proof.
  induction refused as [| id refused IH]; intros s st Hc Ho; [done |].
  unfold terminate_all in *. cbn [foldl].
  destruct (terminate_steps id outcome s st Hc Ho) as [H1 Hc1].
  destruct (terminate id outcome (s, st)) as [s1 st1]. destruct (IH s1 st1 Hc1 Ho) as [H2 Hc2].
  split; [etrans; [exact H1 | exact H2] | done].
Qed.

Lemma fail_stream_steps id wire c s st :
  closed s = false → steps s (fail_stream id wire c (s, st)).2.1.
Proof.
  intros Hc. unfold fail_stream. apply steps_bind.
  - by refine (proj1 (terminate_steps id (OutFailed (mkFailure Local c)) s st Hc _)).
  - intros [] s' st' _. apply refuse_steps.
Qed.

Lemma complete_steps id s : closed s = false → steps s (complete id s).
Proof.
  intros Hc. unfold complete. destruct (streams s !! id) as [state |] eqn:Hs; [| done].
  destruct (negb (remote_open state) && local_end_written state) eqn:Hb; [| done].
  apply andb_true_iff in Hb as [Hr Hl]. apply negb_true_iff in Hr.
  apply steps_once. by apply step_terminal.
Qed.

Lemma sent_steps kind id s : (closed s = true → streams s = ∅) → steps s (Session_sent kind id s).
Proof.
  intros Hc. unfold Session_sent.
  set (s0 := if bool_decide (kind = GoAway_t) then set_goaway_written true s else s).
  assert (steps s s0) as H0.
  { unfold s0. destruct (bool_decide _); [apply steps_once, step_goaway_written | apply rtc_refl]. }
  assert (closed s0 = true → streams s0 = ∅) as Hc0 by (unfold s0; by destruct (bool_decide _)).
  clearbody s0. etrans; [exact H0 |]. destruct (bool_decide (kind = End_t)); [| apply rtc_refl].
  destruct (closed s0) eqn:Ec.
  - unfold complete. rewrite Hc0, lookup_empty by done. rewrite Hc0, lookup_empty by done. apply rtc_refl.
  - destruct (streams s0 !! id) as [state |] eqn:Hs; [| by apply complete_steps].
    eapply rtc_l; [by apply (step_flags _ id state (local_open state) (negb (local_open state))) |].
    by apply complete_steps.
Qed.

Lemma sent_closed kind id s : closed (Session_sent kind id s) = closed s.
Proof.
  unfold Session_sent, complete. by destruct (bool_decide (kind = GoAway_t)), (bool_decide (kind = End_t));
    repeat case_match.
Qed.

Lemma close_steps failure response s st : steps s (Session_close failure response (s, st)).1.
Proof.
  unfold Session_close. destruct (closed s) eqn:Hc; [apply rtc_refl |]. set (y := push_event _ _).
  assert (steps s y) as Hy.
  { assert (y = closing failure s) as ->; [| by apply steps_once, step_closed].
    unfold y, closing, push_event. cbn. by rewrite <- !app_assoc. }
  clearbody y. destruct response as [c |]; [| done].
  destruct (ErrorPayload_new c []); [| done]. destruct (frame _ _ _); [| done].
  etrans; [exact Hy | apply queue_steps].
Qed.

Lemma Session_close_closed failure response s st :
  closed (Session_close failure response (s, st)).1 = true.
Proof.
  unfold Session_close. destruct (closed s) eqn:Hc; [done |]. destruct response as [c |]; [| done].
  destruct (ErrorPayload_new c []); [| done]. destruct (frame _ _ _) as [f |]; [| done].
  unfold queue, reserve_outbound, on_session. unfold_m.
  by destruct (Resources_outbound _ _ _) as [[r |] st1].
Qed.

Lemma end_steps owner stream s st : steps s (Session_end owner stream (s, st)).2.1.
Proof.
  unfold Session_end. ms. destruct (streams s !! wire_id stream) as [state' |] eqn:Hs; [| done].
  match goal with H : ok_or _ _ = Ok _ |- _ => injection H as <- end.
  apply steps_session; [by apply step_flags |]. apply steps_once, step_push.
Qed.

Lemma cancel_steps owner stream reason s st : steps s (cancel owner stream reason (s, st)).2.1.
Proof.
  unfold cancel. ms. destruct (closed s) eqn:Hc; [done |]. ms. apply steps_bind.
  { by refine (proj1 (terminate_steps (wire_id stream) (OutCancelled Local reason) s st Hc _)). }
  intros [] s1 st1 _. ms. apply steps_try_bind; [apply queue_steps |]. intros r s2 st2 _.
  destruct (is_err r); [| apply rtc_refl].
  apply steps_bind; [| intros; apply rtc_refl].
  exact (close_steps (Some (mkFailure Local FcResourceLimit)) None s2 st2).
Qed.

(** ** Draining and probes *)

Lemma goaway_steps payload s st :
  closed s = false → steps s (receive_goaway payload (s, st)).2.1.
Proof.
  intros Hc. unfold receive_goaway. ms.
  match goal with H : negb (?a || ?b || ?c) = true |- _ => rename H into Hg end.
  apply negb_true_iff in Hg. apply orb_false_iff in Hg as [Hg Hp]. apply orb_false_iff in Hg as [Hl Hgr].
  match goal with H : map_err _ (GoAway_decode payload) = Ok ?g |- _ => set (goaway := g) in * end.
  set (last := last_accepted_remote_stream_id goaway) in *.
  apply steps_session.
  { apply step_peer_goaway.
    - destruct (N.eqb_spec last 0); [by left | right]. cbn in Hl. by apply negb_false_iff.
    - lia.
    - intros p Ep. rewrite Ep in Hp. lia. }
  set (s1 := set_peer_goaway (Some last) s). assert (closed s1 = false) as Hc1 by done. clearbody s1.
  apply steps_bind.
  { destruct (bool_decide _); [apply steps_once, step_drain_failure | apply rtc_refl]. }
  intros [] s2 st2 E. assert (closed s2 = false) as Hc2.
  { destruct (bool_decide _); injection E as <- <-; done. }
  ms. apply steps_bind.
  { by refine (proj1 (terminate_all_steps (OutFailed (mkFailure Peer FcRefused)) _ s2 st2 Hc2 _)). }
  intros [] s3 st3 _. apply drain_steps.
Qed.

Lemma ping_steps token timeout t s st : steps s (ping token timeout t (s, st)).2.1.
Proof.
  unfold ping. ms.
  repeat match goal with H : negb _ = true |- _ => apply negb_true_iff in H end.
  apply steps_bind; [apply queue_steps |]. intros [] s' st' Hq.
  assert (closed s' = closed s ∧ pings s' = pings s) as [E1 E2].
  { unfold queue, reserve_outbound, on_session in Hq. unfold_m.
    destruct (Resources_outbound _ _ _) as [[r |] st1]; cbn in Hq; by simplify_eq. }
  apply steps_once, step_ping; rewrite ?E1, ?E2; [done | |].
  - match goal with H : _ || _ = false |- _ => apply orb_false_iff in H as [_ H];
      apply bool_decide_eq_false in H; by apply eq_None_not_Some end.
  - match goal with H : (64 <=? _) = false |- _ => apply N.leb_gt in H end. lia.
Qed.

(** Expiry removes tokens that are pending, each once. *)
Lemma expire_steps ts : ∀ s,
  closed s = false → NoDup ts → (∀ t, t ∈ ts → is_Some (pings s !! t)) →
  steps s (foldl expire s ts) ∧ closed (foldl expire s ts) = false.
Proof.
  induction ts as [| t ts IH]; intros s Hc Hd Hin; [done |]. apply NoDup_cons in Hd as [Hn Hd].
  destruct (Hin t (list_elem_of_here t ts)) as [probe Hp]. cbn [foldl].
  destruct (IH (expire s t)) as [H1 H2]; [done | done | |].
  { intros t' Ht'. cbn. rewrite lookup_delete_ne by (intros ->; done). apply Hin.
    by apply elem_of_cons; right. }
  split; [| done]. eapply rtc_l; [by eapply step_ping_finished | exact H1].
Qed.

Lemma tick_steps t s :
  closed s = false → steps s (tick t s) ∧ closed (tick t s) = false.
Proof.
  intros Hc. unfold tick. set (s0 := set_now (Some t) s).
  destruct (expire_steps (filter (λ token,
    match pings s0 !! token with Some (_, d) => d <=? t | None => false end = true)
    (ping_keys (pings s0))) s0) as [H1 H2]; [done | | |].
  - apply NoDup_filter, keys_NoDup.
  - intros t' Ht'. apply list_elem_of_filter in Ht' as [_ Ht']. by apply keys_elem in Ht'.
  - split; [| done]. eapply rtc_l; [apply step_now | exact H1].
Qed.

Lemma tick_events_limit t s : event_limit (tick t s) = event_limit s.
Proof.
  unfold tick. set (s0 := set_now (Some t) s). change (event_limit s) with (event_limit s0).
  generalize (filter (λ token,
    match pings s0 !! token with Some (_, d) => d <=? t | None => false end = true)
    (ping_keys (pings s0))) as l. intros l. generalize s0. clear s0.
  induction l as [| x l IH]; intros s0; [done |]. cbn [foldl]. by rewrite IH.
Qed.

Lemma receive_ping_steps kind payload s st :
  closed s = false → steps s (receive_ping kind payload (s, st)).2.1.
Proof.
  intros Hc. unfold receive_ping. ms. destruct (bool_decide (kind = Ping_t)).
  { ms. apply queue_steps. }
  ms. destruct (pings s !! PingToken_encode _) as [[started d] |] eqn:Hp; [| apply rtc_refl].
  set (token := PingToken_encode _) in *.
  set (s1 := set_pings (delete token (pings s)) s).
  rewrite (bind_Ok _ _ _ tt (s1, st)) by done.
  destruct (ok_or (n ← now s; Instant_checked_duration_since n started) SeProtocol) as [elapsed | e] eqn:He.
  - erewrite bind_Ok by done. rewrite (bind_Ok _ _ _ elapsed (s1, st)).
    2:{ unfold lift. change (now s1) with (now s). by rewrite He. }
    apply steps_once. by apply (step_ping_finished s token (started, d)).
  - erewrite bind_Ok by done. rewrite (bind_Err _ _ _ e (s1, st)).
    2:{ unfold lift. change (now s1) with (now s). by rewrite He. }
    by apply steps_once, step_ping_lost.
Qed.

(** ** Dispatch *)

Section dispatch.
Context (s : Session) (st : Store) (Hc : closed s = false) (Hroom : len (events s) < event_limit s).

Lemma data_steps id payload : steps s (receive_data id payload (s, st)).2.1.
Proof using Hc Hroom.
  unfold receive_data. apply steps_read. destruct (streams s !! id) as [state |] eqn:Hs; [| apply rtc_refl].
  rewrite (bind_Ok _ _ _ state (s, st)) by done.
  destruct (remote_open state) eqn:Hr; [cbn [negb] | by apply fail_stream_steps].
  destruct (is_empty payload || (MAX_PAYLOAD_BYTES <? len payload)) eqn:Hl; [by apply fail_stream_steps |].
  apply orb_false_iff in Hl as [Hl1 Hl2]. apply steps_read.
  destruct (buffered_bytes_per_stream _ <? _) eqn:Hb; [by apply fail_stream_steps |].
  apply steps_once. apply (step_data s id state); try done.
  - split; [| lia]. destruct payload; [done |]. rewrite len_cons. lia.
  - unfold max_buffered. lia.
Qed.

Lemma remote_end_steps id payload : steps s (receive_end id payload (s, st)).2.1.
Proof using Hc Hroom.
  unfold receive_end. apply steps_read. destruct (streams s !! id) as [state |] eqn:Hs; [| apply rtc_refl].
  rewrite (bind_Ok _ _ _ state (s, st)) by done.
  destruct (negb (is_empty payload) || negb (remote_open state)) eqn:Hb; [by apply fail_stream_steps |].
  apply orb_false_iff in Hb as [_ Hr]. apply negb_false_iff in Hr.
  unfold mbind, M_bind, on_session, modify. cbn -[complete].
  eapply rtc_l; [by apply (step_remote_end s id state) | by apply complete_steps].
Qed.

(** The effect of [add] on a consumed identifier. *)
Lemma add_opened ds id owner protocol st' :
  draining s = false → N.of_nat (size (streams s)) < max_streams s →
  accept id (ids s) = (Ok tt, ds) ∨ allocate (ids s) = (Ok id, ds) →
  steps s (add id owner protocol (set_ids ds s, st')).2.1 ∨
  (id = 0 ∧ (add id owner protocol (set_ids ds s, st')).1 = Err SeProtocol).
Proof using Hc Hroom.
  intros Hd Hs Hi. unfold add. erewrite bind_Ok by done.
  rewrite (bind_Ok _ _ _ tt (note_accepted ds id s, st')).
  2:{ unfold note_accepted. cbn [ids set_ids]. by destruct (is_local ds id). }
  destruct (N.eqb_spec id 0) as [-> | Hz]; [by right |]. left.
  erewrite bind_Ok by done. erewrite bind_Ok by done. unfold_m. unfold on_session, modify. cbn -[note_accepted].
  pose proof (step_opened s id ds owner protocol Hc Hd Hs Hroom Hi Hz) as Hstep. cbn zeta in Hstep.
  apply steps_once. replace (streams (note_accepted ds id s)) with (streams s)
    by (unfold note_accepted; by destruct (is_local ds id)).
  replace (handle (note_accepted ds id s)) with (handle s)
    by (unfold note_accepted; by destruct (is_local ds id)).
  replace (context (note_accepted ds id s)) with (context s)
    by (unfold note_accepted; by destruct (is_local ds id)).
  exact Hstep.
Qed.

End dispatch.

(** Identifiers in use are never zero. *)
Definition ids_positive (ds : StreamIds) : Prop := next_local ds ≠ Some 0 ∧ next_remote ds ≠ Some 0.

Lemma ids_wf_positive ds n m : ids_wf ds n m → ids_positive ds.
Proof.
  intros [(Hl & _) (Hr & _)]. split; rewrite ?Hl, ?Hr; destruct (local_odd ds); cbn [negb];
    intros E; (case_match; [apply (inj Some) in E; lia | done]).
Qed.

Lemma consumed_positive ds id ds' :
  ids_positive ds → accept id ds = (Ok tt, ds') ∨ allocate ds = (Ok id, ds') → id ≠ 0.
Proof.
  intros [Hl Hr] [Ha | Ha] ->.
  - unfold accept in Ha. case_bool_decide; by simplify_eq.
  - unfold allocate in Ha. destruct (next_local ds) as [x |]; by simplify_eq.
Qed.

Lemma open_frame_steps s st id payload registry :
  closed s = false → len (events s) < event_limit s → ids_positive (ids s) →
  steps s (receive_open id payload registry (s, st)).2.1.
Proof.
  intros Hc Hroom Hpos. unfold receive_open. destruct (accept id (ids s)) as [r ds] eqn:Ha.
  rewrite (bind_Ok _ _ _ r (set_ids ds s, st)) by (unfold on_ids; by rewrite Ha).
  destruct r as [[] | e].
  2:{ apply accept_Err in Ha as ->. destruct s. apply rtc_refl. }
  assert (steps s (set_ids ds s)) as Hr by (apply steps_once; by eapply step_refused).
  rewrite (bind_Ok _ _ _ tt (set_ids ds s, st)) by done. erewrite bind_Ok by done.
  change (goaway_sent (set_ids ds s) || bool_decide (is_Some (peer_goaway (set_ids ds s))))
    with (draining s).
  destruct (draining s) eqn:Hd; [etrans; [exact Hr | apply refuse_steps] |].
  erewrite bind_Ok by done. destruct (_ <=? N.of_nat _) eqn:Hs.
  { etrans; [exact Hr | apply refuse_steps]. }
  destruct (Open_decode payload) as [sel |]; [| etrans; [exact Hr | apply refuse_steps]].
  destruct (resolve registry sel) as [owner |]; [| etrans; [exact Hr | apply refuse_steps]].
  destruct (add_opened s Hc Hroom ds id owner (mkProtocol (open_id sel) (open_version sel)) st)
    as [H | [Hz _]]; [done | | by left | | exfalso; eapply consumed_positive; eauto].
  - unfold max_streams. cbn in Hs. lia.
  - unfold mbind, M_bind. by destruct (add _ _ _ _) as [[] x].
Qed.

Lemma receive_stream_steps s st kind id payload registry :
  closed s = false → len (events s) < event_limit s → ids_positive (ids s) →
  steps s (receive_stream kind id payload registry (s, st)).2.1.
Proof.
  intros Hc Hroom Hpos. unfold receive_stream. destruct (_ && _).
  { ms. refine (proj1 (terminate_steps id (peer_outcome kind _) s st Hc _)).
    unfold peer_outcome. by destruct (_ && _). }
  destruct (bool_decide (kind = End_t)); [by apply remote_end_steps |].
  destruct (bool_decide (kind = Data_t)); [by apply data_steps |].
  destruct (bool_decide (kind ≠ Open_t)); [apply rtc_refl | by apply open_frame_steps].
Qed.

Lemma receive_parts_steps s st kind id payload registry :
  closed s = false → len (events s) < event_limit s → ids_positive (ids s) →
  steps s (receive_parts kind id payload registry (s, st)).2.1.
Proof.
  intros Hc Hroom Hpos. unfold receive_parts.
  destruct (_ && _); [by apply goaway_steps |]. destruct (_ && _); [by apply receive_ping_steps |].
  destruct (_ && _).
  { ms. apply (close_steps _ None s st). }
  destruct (_ && _); [| by apply receive_stream_steps]. ms.
  destruct (bool_decide _); [by apply receive_stream_steps | apply rtc_refl].
Qed.

Lemma step_limits s s' : step s s' → limits (resources s') = limits (resources s).
Proof. intros Hs. destruct Hs; try done. unfold note_accepted. by destruct (is_local ds id). Qed.
Lemma steps_limits s s' : steps s s' → limits (resources s') = limits (resources s).
Proof. induction 1 as [| s s1 s2 Hs _ IH]; [done |]. by rewrite IH, (step_limits _ _ Hs). Qed.

Lemma step_ids_stable s s' : step s s' → closed s' = closed s ∨ closed s' = true.
Proof. intros Hs. destruct Hs; auto. unfold note_accepted. left. by destruct (is_local ds id). Qed.

Lemma tick_ids t s : ids (tick t s) = ids s.
Proof.
  unfold tick. set (s0 := set_now (Some t) s). change (ids s) with (ids s0).
  generalize (filter (λ token,
    match pings s0 !! token with Some (_, d) => d <=? t | None => false end = true)
    (ping_keys (pings s0))) as l. intros l. generalize s0. clear s0.
  induction l as [| x l IH]; intros s0; [done |]. cbn [foldl]. by rewrite IH.
Qed.

Lemma receive_steps f registry t s st :
  ids_positive (ids s) → steps s (Session_receive f registry t (s, st)).2.1.
Proof.
  intros Hpos. unfold Session_receive. apply steps_read. destruct (closed s) eqn:Hc.
  { unfold mbind, M_bind, throw, on_store, modify. cbn. apply rtc_refl. }
  rewrite (bind_Ok _ _ _ tt (s, st)) by done. rewrite (bind_Ok _ _ _ tt (tick t s, st)) by done.
  destruct (tick_steps t s Hc) as [H1 Hc1]. rewrite <- (tick_ids t s) in Hpos.
  set (s1 := tick t s) in *. clearbody s1. etrans; [exact H1 |]. apply steps_read.
  destruct (event_limit s1 <=? len (events s1)) eqn:Hl.
  { apply steps_bind; [apply (close_steps _ None s1 st) |]. intros [] s2 st2 _. apply rtc_refl. }
  apply N.leb_gt in Hl. erewrite bind_Ok by done.
  apply steps_try_bind; [by apply receive_parts_steps |].
  intros [[] | e] s2 st2 _; [apply rtc_refl |]. apply steps_bind; [| intros; apply rtc_refl].
  apply (close_steps _ _ s2 st2).
Qed.

Lemma open_steps registry owner s st :
  ids_positive (ids s) → steps s (Session_open registry owner (s, st)).2.1.
Proof.
  intros Hpos. unfold Session_open. ms.
  repeat match goal with H : negb _ = true |- _ => apply negb_true_iff in H end.
  match goal with H : _ || (_ <=? N.of_nat _) = false |- _ => apply orb_false_iff in H as [Hroom Hsize] end.
  match goal with H : goaway_sent s || _ = false |- _ => rename H into Hd end.
  match goal with |- steps s ((on_ids allocate ≫= _) (s, ?x)).2.1 => set (st1 := x) end.
  match goal with H : ok_or _ SeOwner = Ok ?p |- _ => set (protocol := p) in * end.
  destruct (allocate (ids s)) as [res ds] eqn:Ha.
  rewrite (bind_Ok _ _ _ res (set_ids ds s, st1)) by (unfold on_ids; by rewrite Ha).
  destruct res as [id | e].
  2:{ apply allocate_Err in Ha as [-> _]. assert (set_ids (ids s) s = s) as -> by by destruct s.
      apply steps_try_bind; [apply drain_steps |]. intros q s2 st2 _. ms. apply rtc_refl. }
  destruct (add_opened s ltac:(done) ltac:(lia) ds id owner protocol st1) as [Hadd | [Hz _]];
    [done | unfold max_streams; lia | by right | | exfalso; eapply consumed_positive; eauto].
  unfold mbind at 1, M_bind at 1, try_.
  destruct (add id owner protocol (set_ids ds s, st1)) as [q [s2 st2]]. cbn in Hadd. etrans; [exact Hadd |].
  destruct q as [h |]; [destruct (frame Open_t id _) as [f |] |].
  - eapply rtc_l; [apply step_push | apply rtc_refl].
  - apply rtc_refl.
  - apply rtc_refl.
Qed.

(** ** Calls *)

(** What an owner, a driver and a peer can do to a session. *)
Inductive sess_call : Type :=
| SOpen (registry : Registry) (owner : StreamOwner)
| SSend (owner : StreamOwner) (stream : StreamHandle) (data : bytes)
| SEnd (owner : StreamOwner) (stream : StreamHandle)
| SCancel (owner : StreamOwner) (stream : StreamHandle) (reason : CancellationReason)
| SReceive (f : VerifiedFrame) (registry : Registry) (t : Instant)
| SSent (kind : FrameType) (id : N)
| SDrain (reason : ShutdownReason)
| SPing (token : bytes) (timeout : Duration) (t : Instant)
| STick (t : Instant)
| SClose (failure : option Failure) (response : option ErrorCode)
| SPopOutbound
| SPopEvent
| SPopStream (owner : StreamOwner).

Definition sess_exec (call : sess_call) (x : SessSt) : SessSt :=
  match call with
  | SOpen registry owner => (Session_open registry owner x).2
  | SSend owner stream data => (Session_send owner stream data x).2
  | SEnd owner stream => (Session_end owner stream x).2
  | SCancel owner stream reason => (cancel owner stream reason x).2
  | SReceive f registry t => (Session_receive f registry t x).2
  | SSent kind id => (Session_sent kind id x.1, x.2)
  | SDrain reason => (drain reason x).2
  | SPing token timeout t => (ping token timeout t x).2
  | STick t => (tick t x.1, x.2)
  | SClose failure response => Session_close failure response x
  | SPopOutbound => ((pop_outbound x.1).2, x.2)
  | SPopEvent => ((pop_event x.1).2, x.2)
  | SPopStream owner => ((pop_stream_event owner x.1).2, x.2)
  end.

(** Calls that deliver what is queued. *)
Definition is_pop (call : sess_call) : bool :=
  match call with SPopOutbound | SPopEvent | SPopStream _ => true | _ => false end.

(** What the refinement needs of a session, itself an invariant of the steps. *)
Record session_ok (s : Session) : Prop := {
  ok_ids : ∃ n m, ids_wf (ids s) n m;
  ok_closed : closed s = true → streams s = ∅ ∧ pings s = ∅;
  ok_zero : streams s !! 0 = None;
}.

Lemma insert_zero (m : gmap N StreamState) id x : id ≠ 0 → m !! 0 = None → <[id := x]> m !! 0 = None.
Proof. intros Hz Hm. by rewrite lookup_insert_ne. Qed.
Lemma live_nonzero (m : gmap N StreamState) id state : m !! 0 = None → m !! id = Some state → id ≠ 0.
Proof. intros Hm Hs ->. by rewrite Hm in Hs. Qed.

Lemma step_ok s s' : step s s' → session_ok s → session_ok s'.
Proof.
  intros Hs [(n & m & Hwf) Hc Hn].
  destruct Hs as [| | | | | | | id state lo le Hl | id state outcome Hcl Hl Ho | id ds Hcl Ha
    | id ds owner protocol Hcl Hd Hsz Hroom Ha Hz h | | id state Hcl Hl Hr Hroom | | | | failure Hcl];
    split; cbn; try (by eauto); try congruence.
  - intros E. destruct (Hc E) as [E' _]. by rewrite E', lookup_empty in Hl.
  - apply insert_zero; [by eapply live_nonzero | done].
  - rewrite lookup_delete_None. by right.
  - pose proof (accept_Ok _ _ _ _ _ Hwf Ha) as (_ & _ & _ & ?). eauto.
  - destruct Ha as [Ha | Ha].
    + pose proof (accept_Ok _ _ _ _ _ Hwf Ha) as (_ & _ & _ & ?). unfold note_accepted.
      destruct (is_local ds id); cbn; eauto.
    + pose proof (allocate_Ok _ _ _ _ _ Hwf Ha) as (_ & _ & _ & ?). unfold note_accepted.
      destruct (is_local ds id); cbn; eauto.
  - unfold note_accepted. destruct (is_local ds id); cbn; congruence.
  - unfold note_accepted. destruct (is_local ds id); cbn; by apply insert_zero.
  - apply insert_zero; [by eapply live_nonzero | done].
Qed.

Lemma steps_ok s s' : steps s s' → session_ok s → session_ok s'.
Proof. induction 1 as [| s s1 s2 Hs _ IH]; [done |]. intros H. by apply IH, (step_ok s). Qed.

Lemma session_ok_positive s : session_ok s → ids_positive (ids s).
Proof. intros [(n & m & Hwf) _]. by eapply ids_wf_positive. Qed.

Lemma exec_steps call s st :
  session_ok s → is_pop call = false → steps s (sess_exec call (s, st)).1.
Proof.
  intros Hok Hp. pose proof (session_ok_positive s Hok) as Hpos.
  destruct call; try done; cbn [sess_exec fst].
  - by apply open_steps.
  - apply send_steps.
  - apply end_steps.
  - apply cancel_steps.
  - by apply receive_steps.
  - apply sent_steps. intros Hc. by apply (ok_closed s Hok).
  - apply drain_steps.
  - apply ping_steps.
  - destruct (closed s) eqn:Hc; [| by apply tick_steps].
    destruct (ok_closed s Hok Hc) as [_ E]. unfold tick. cbn [pings set_now]. rewrite E.
    apply steps_once, step_now.
  - apply close_steps.
Qed.

(** Delivery takes from one queue and touches nothing else. *)
Definition delivered (s s' : Session) : Prop :=
  ∃ evs out last, s' = set_last_output last (set_outbound out (set_events evs s)) ∧
    evs `sublist_of` events s ∧ out `sublist_of` outbound s ∧
    (evs = events s ∨ out = outbound s ∧ last = last_output s).

Lemma delivered_nothing s : delivered s s.
Proof.
  exists (events s), (outbound s), (last_output s). split_and!; [by destruct s | done | done | by left].
Qed.

Lemma exec_pop call s st :
  is_pop call = true → delivered s (sess_exec call (s, st)).1 ∧ (sess_exec call (s, st)).2 = st.
Proof.
  intros Hp. split; [| by destruct call]. destruct call; try done; cbn [sess_exec fst].
  - unfold pop_outbound, next_output.
    match goal with |- delivered s (snd match ?o with Some _ => _ | None => _ end) =>
      destruct o as [[id i] |] end; cbn [snd].
    + exists (events s), (delete i (outbound s)), (Some id).
      split_and!; [by destruct s | done | apply sublist_delete | by left].
    + by apply delivered_nothing.
  - unfold pop_event. destruct (events s) as [| e rest] eqn:E; cbn [snd].
    + by apply delivered_nothing.
    + exists rest, (outbound s), (last_output s).
      split_and!; [by destruct s | rewrite E; by apply sublist_cons | done | by right].
  - unfold pop_stream_event. destruct (list_find _ _) as [[i e] |]; cbn [snd].
    + exists (delete i (events s)), (outbound s), (last_output s).
      split_and!; [by destruct s | apply sublist_delete | done | by right].
    + by apply delivered_nothing.
Qed.

Lemma delivered_ok s s' : delivered s s' → session_ok s → session_ok s'.
Proof. intros (evs & out & last & -> & _) [H1 H2 H3]. by split. Qed.

Lemma exec_ok call s st : session_ok s → session_ok (sess_exec call (s, st)).1.
Proof.
  intros Hok. destruct (is_pop call) eqn:Hp.
  - eapply delivered_ok; [| exact Hok]. by apply exec_pop.
  - eapply steps_ok; [| exact Hok]. by apply exec_steps.
Qed.

Definition demo_limits : ResourceLimits := mkResourceLimits 4 2 1000 65536.
Definition demo_store : Resources * Store := Resources_new demo_limits Store_empty.
Definition demo_session : SessSt :=
  let '(s, st) := with_handle (mkConnectionHandle 7) Initiator [x0a] [x0b] demo_store.2 in
  (set_resources demo_store.1 s, st).

Lemma demo_session_ok : session_ok demo_session.1.
Proof. split; [exists 0%nat, 0%nat; apply StreamIds_new_wf | done | done]. Qed.
