(* ===== verification/SessionMachine.v ===== *)
(** * The session machine

    The methods of [session.rs] and [session/*.rs] as guarded transitions: what
    each call may do to a session, under which conditions, with the whole effect
    and the answer.  [session_refines_steps]: every call performs exactly one of
    its transitions. *)

From S2P Require Import Prelude Bytes Header Control OpenCodec Api Resources Framing.
From S2P Require Import Integrity StreamIds Registry Session SchedulerProps SessionSteps.

#[local] Open Scope N_scope.

(** ** Transitions

    The same methods with nothing left over: for every call a relation of the
    state before, the answer and the state after, whose rules carry the guards
    of the code and state the whole effect.  Failures are rules too, so a call
    may only be refused where none of its transitions is enabled or where the
    instance has no room left for output. *)

(** A frame of exact length that holds a reservation of the output budget. *)
Definition framed (kind : FrameType) (id : N) (p : bytes) (r : Reservation) : WireFrame :=
  mkWireFrame (Some r) (mkFrameHeader kind id (len p)) p None.
Definition error_payload (c : ErrorCode) : bytes := ErrorPayload_encode (mkDiagnostic c []).
Definition goaway_payload (c : ErrorCode) (s : Session) : bytes :=
  GoAway_encode (mkGoAway (accepted_remote s) (mkDiagnostic c [])).

(** A stream that ends takes its unsent output with it, except an unsent OPEN. *)
Definition withdraw (id : N) (s : Session) : Session :=
  set_outbound (filter (λ f, stream_id (header f) ≠ id ∨ frame_type (header f) = Open_t) (outbound s)) s.
Definition finished (id : N) (state : StreamState) (outcome : StreamOutcome) (s : Session) : Session :=
  push_event (StreamClosed (ss_handle state) outcome) (set_streams (delete id (streams s)) s).
Definition terminated (id : N) (state : StreamState) (outcome : StreamOutcome) (s : Session) : Session :=
  finished id state outcome (withdraw id s).
Definition with_stream (id : N) (state : StreamState) (s : Session) : Session :=
  set_streams (<[id := state]> (streams s)) s.

Definition opened (ds : StreamIds) (id : N) (owner : StreamOwner) (protocol : Protocol) (s : Session) : Session :=
  let h := mkStreamHandle (handle_id (handle s)) owner id in
  push_event (StreamOpened (context s) h protocol)
    (set_streams (<[id := mkStreamState h true true false]> (streams s)) (note_accepted ds id s)).

(** A probe ends with its result. *)
Definition probed_out (result : result Failure Duration) (token : bytes) (s : Session) : Session :=
  push_event (PingFinished (handle_id (handle s)) token result) (set_pings (delete token (pings s)) s).
Definition due (t : Instant) (s : Session) : list bytes :=
  filter (λ token, match pings s !! token with Some (_, deadline) => deadline <=? t | None => false end = true)
    (ping_keys (pings s)).
Definition ticked (t : Instant) (s : Session) : Session :=
  set_events (events s ++ map (λ token, PingFinished (handle_id (handle s)) token
                                 (Err (mkFailure Local FcDeadlineExceeded))) (due t s))
    (set_pings (filter (λ p, t < p.2.2) (pings s)) (set_now (Some t) s)).

(** The right of a consumer to act on a stream: the connection is open, and the
    stream is live, of this connection, and its own. *)
Record may_use (owner : StreamOwner) (stream : StreamHandle) (state : StreamState) (s : Session) : Prop := {
  mu_open : closed s = false;
  mu_connection : sh_connection stream = handle_id (handle s);
  mu_owner : sh_owner stream = owner;
  mu_live : streams s !! wire_id stream = Some state;
}.

(** What answering a frame queues; a GOAWAY also starts the drain. *)
Definition answered (answer : option (FrameType * N * bytes)) (s s' : Session) : Prop :=
  match answer with
  | None => s' = s
  | Some (kind, id, p) => ∃ r,
      let q := push_outbound (framed kind id p r) s in
      s' = if bool_decide (kind = GoAway_t) then set_goaway_sent true q else q
  end.
(** A closure with a response, which is left out where it cannot be reserved. *)
Definition responded (response : option ErrorCode) (s s' : Session) : Prop :=
  s' = s ∨ ∃ code r, response = Some code ∧ code ≠ NoError ∧
                     s' = push_outbound (framed Error_t 0 (error_payload code) r) s.

(** A GOAWAY of the peer: the bound it may name, its failure, and the end of every
    local stream above the bound, in order. *)
Definition bounds_streams (last : N) (s : Session) : Prop :=
  (last = 0 ∨ is_local (ids s) last = true) ∧ last ≤ greatest_local (ids s) ∧
  ∀ bound, peer_goaway s = Some bound → last ≤ bound.
Definition noted (g : GoAway) (s : Session) : Session :=
  let s := set_peer_goaway (Some (last_accepted_remote_stream_id g)) s in
  if bool_decide (code (diagnostic g) ≠ NoError)
  then set_drain_failure (Some (mkFailure Peer (failure_code (code (diagnostic g))))) s else s.
Definition drop_stream (outcome : StreamOutcome) (s : Session) (id : N) : Session :=
  match streams s !! id with
  | Some state => terminated id state outcome s
  | None => withdraw id s
  end.
Definition refuse_above (last : N) (s : Session) : Session :=
  foldl (drop_stream (OutFailed (mkFailure Peer FcRefused))) s
    (filter (λ id, is_local (ids s) id && (last <? id) = true) (stream_keys (streams s))).

(** The frames of a live stream that fail it. *)
Inductive violates (id : N) (state : StreamState) (s : Session) :
    FrameType → bytes → ErrorCode → FailureCode → Prop :=
| vi_end p : p ≠ [] ∨ remote_open state = false →
    violates id state s End_t p StreamStateError FcStreamState
| vi_data p : remote_open state = false ∨ ¬ (1 ≤ len p ≤ MAX_PAYLOAD_BYTES) →
    violates id state s Data_t p StreamStateError FcStreamState
| vi_flood p : remote_open state = true → 1 ≤ len p ≤ MAX_PAYLOAD_BYTES →
    max_buffered s < buffered id (events s) + len p →
    violates id state s Data_t p ResourceLimit FcResourceLimit.

(** Why the peer's next stream is refused, in the order of the checks. *)
Inductive refuses (registry : Registry) (p : bytes) (s : Session) : ErrorCode → Prop :=
| rf_draining : draining s = true → refuses registry p s RefusedStream
| rf_count : draining s = false → max_streams s ≤ N.of_nat (size (streams s)) → refuses registry p s ResourceLimit
| rf_payload e : draining s = false → N.of_nat (size (streams s)) < max_streams s →
    Open_decode p = Err e → refuses registry p s ProtocolError
| rf_protocol o : draining s = false → N.of_nat (size (streams s)) < max_streams s →
    Open_decode p = Ok o → resolve registry o = None → refuses registry p s UnsupportedProtocol.

(** The reaction to a verified frame: the state it leaves and what it answers. *)
Inductive reacts (registry : Registry) (s : Session) : FrameType → N → bytes →
    Session → option (FrameType * N * bytes) → Prop :=
| re_goaway p g : GoAway_decode p = Ok g → bounds_streams (last_accepted_remote_stream_id g) s →
    reacts registry s GoAway_t 0 p (refuse_above (last_accepted_remote_stream_id g) (noted g s))
      (if goaway_sent s then None else Some (GoAway_t, 0, goaway_payload NoError s))
| re_ping p : len p = 8 → reacts registry s Ping_t 0 p s (Some (Pong_t, 0, p))
| re_pong p started deadline n : len p = 8 → pings s !! p = Some (started, deadline) →
    now s = Some n → started ≤ n →
    reacts registry s Pong_t 0 p (probed_out (Ok (n - started)) p s) None
| re_pong_unknown p : len p = 8 → pings s !! p = None → reacts registry s Pong_t 0 p s None
| re_connection_error p d : ErrorPayload_decode p = Ok d →
    reacts registry s Error_t 0 p (closing (Some (mkFailure Peer (failure_code (code d)))) s) None
| re_ended_before kind id p : kind ≠ Open_t → was_created (ids s) id = true → streams s !! id = None →
    reacts registry s kind id p s None
| re_aborted kind id p state d : kind = Cancel_t ∨ kind = Error_t → was_created (ids s) id = true →
    streams s !! id = Some state → ErrorPayload_decode p = Ok d →
    reacts registry s kind id p (terminated id state (peer_outcome kind (code d)) s) None
| re_end id state : was_created (ids s) id = true → streams s !! id = Some state → remote_open state = true →
    let state' := mkStreamState (ss_handle state) (local_open state) false (local_end_written state) in
    let s1 := push_event (RemoteEnd (ss_handle state)) (with_stream id state' s) in
    reacts registry s End_t id [] (if local_end_written state then finished id state' OutCompleted s1 else s1) None
| re_data id p state : was_created (ids s) id = true → streams s !! id = Some state → remote_open state = true →
    1 ≤ len p ≤ MAX_PAYLOAD_BYTES → buffered id (events s) + len p ≤ max_buffered s →
    reacts registry s Data_t id p (push_event (Data (ss_handle state) p) s) None
| re_failed kind id p state wire cause : was_created (ids s) id = true → streams s !! id = Some state →
    violates id state s kind p wire cause →
    reacts registry s kind id p (terminated id state (OutFailed (mkFailure Local cause)) s)
      (Some (Error_t, id, error_payload wire))
| re_refused id p ds wire : accept id (ids s) = (Ok tt, ds) → refuses registry p s wire →
    reacts registry s Open_t id p (set_ids ds s) (Some (Error_t, id, error_payload wire))
| re_opened id p ds o owner : accept id (ids s) = (Ok tt, ds) → draining s = false →
    N.of_nat (size (streams s)) < max_streams s → Open_decode p = Ok o → resolve registry o = Some owner →
    reacts registry s Open_t id p (opened ds id owner (mkProtocol (open_id o) (open_version o)) s) None.

(** What a PONG that comes before its own PING has cost when it is rejected. *)
Definition rejected (kind : FrameType) (p : bytes) (s s' : Session) : Prop :=
  s' = s ∨ (kind = Pong_t ∧ is_Some (pings s !! p) ∧ s' = set_pings (delete p (pings s)) s).

Definition goaway_code (reason : ShutdownReason) : ErrorCode :=
  match reason with
  | SrNormal => NoError
  | SrIdExhausted => IdExhausted
  | SrResourceLimit => ResourceLimit
  | SrInternalError => InternalError
  end.
Definition cancel_code (reason : CancellationReason) : ErrorCode :=
  match reason with
  | CrCancelled => Cancelled
  | CrResourceLimit => ResourceLimit
  | CrInternalError => InternalError
  end.
Definition announced (reason : ShutdownReason) (r : Reservation) (s : Session) : Session :=
  set_goaway_sent true (push_outbound (framed GoAway_t 0 (goaway_payload (goaway_code reason) s) r) s).

(** What the next stream of a registered owner needs. *)
Record may_open (registry : Registry) (owner : StreamOwner) (protocol : Protocol) (s : Session) : Prop := {
  mo_open : closed s = false;
  mo_still : draining s = false;
  mo_owner : Registry_protocol registry owner = Some protocol;
  mo_named : namespace (protocol_id protocol) ∧ protocol_version protocol ≠ 0;
  mo_events : len (events s) < event_limit s;
  mo_streams : N.of_nat (size (streams s)) < max_streams s;
}.

(** An event about a stream of this connection that this consumer owns. *)
Definition for_owner (h : ConnectionHandle) (owner : StreamOwner) (e : Event) : Prop :=
  match stream_of e with
  | Some stream => sh_connection stream = handle_id h ∧ sh_owner stream = owner
  | None => False
  end.

(** The transitions of each call, with what the call answers. *)
Inductive does (s : Session) : sess_call → result SessionError unit → Session → Prop :=
| does_open registry owner protocol id ds r :
    may_open registry owner protocol s → allocate (ids s) = (Ok id, ds) →
    let selection := mkOpen (protocol_id protocol) (protocol_version protocol) in
    does s (SOpen registry owner) (Ok tt)
      (push_outbound (framed Open_t id (Open_encode selection) r) (opened ds id owner protocol s))
| does_exhaust registry owner protocol e ds r :
    may_open registry owner protocol s → allocate (ids s) = (Err e, ds) →
    does s (SOpen registry owner) (Err (SeId e)) (announced SrIdExhausted r s)
| does_send owner stream data state r :
    may_use owner stream state s → local_open state = true → 1 ≤ len data ≤ MAX_PAYLOAD_BYTES →
    does s (SSend owner stream data) (Ok tt) (push_outbound (framed Data_t (wire_id stream) data r) s)
| does_end owner stream state r :
    may_use owner stream state s → local_open state = true →
    does s (SEnd owner stream) (Ok tt)
      (push_outbound (framed End_t (wire_id stream) [] r)
        (with_stream (wire_id stream)
          (mkStreamState (ss_handle state) false (remote_open state) (local_end_written state)) s))
| does_cancel owner stream reason state r :
    may_use owner stream state s →
    does s (SCancel owner stream reason) (Ok tt)
      (push_outbound (framed Cancel_t (wire_id stream) (error_payload (cancel_code reason)) r)
        (terminated (wire_id stream) state (OutCancelled Local reason) s))
| does_cancel_unsent owner stream reason state :
    may_use owner stream state s →
    does s (SCancel owner stream reason) (Ok tt)
      (closing (Some (mkFailure Local FcResourceLimit))
        (terminated (wire_id stream) state (OutCancelled Local reason) s))
| does_drain reason r : closed s = false → goaway_sent s = false →
    does s (SDrain reason) (Ok tt) (announced reason r s)
| does_drain_again reason : closed s = false → goaway_sent s = true → does s (SDrain reason) (Ok tt) s
| does_ping token timeout t r :
    closed s = false → 0 < timeout → pings s !! token = None → (size (pings s) < 64)%nat →
    t + timeout < instant_limit → len token ≤ MAX_PAYLOAD_BYTES →
    does s (SPing token timeout t) (Ok tt)
      (set_pings (<[token := (t, t + timeout)]> (pings s)) (push_outbound (framed Ping_t 0 token r) s))
| does_goaway_written id : does s (SSent GoAway_t id) (Ok tt) (set_goaway_written true s)
| does_end_written id state : streams s !! id = Some state →
    let state' := mkStreamState (ss_handle state) (local_open state) (remote_open state) (negb (local_open state)) in
    does s (SSent End_t id) (Ok tt)
      (if negb (remote_open state) && negb (local_open state) then finished id state' OutCompleted s
       else with_stream id state' s)
| does_written kind id : kind ≠ GoAway_t → (kind = End_t → streams s !! id = None) →
    does s (SSent kind id) (Ok tt) s
| does_tick t : does s (STick t) (Ok tt) (ticked t s)
| does_close failure response s' : closed s = false → responded response (closing failure s) s' →
    does s (SClose failure response) (Ok tt) s'
| does_close_again failure response : closed s = true → does s (SClose failure response) (Ok tt) s
| does_receive f registry t s2 answer s' : closed s = false →
    len (events (ticked t s)) < event_limit s →
    reacts registry (ticked t s) (frame_type (header (verified f))) (stream_id (header (verified f)))
      (payload (verified f)) s2 answer →
    answered answer s2 s' → does s (SReceive f registry t) (Ok tt) s'
| does_receive_unanswered f registry t s2 answer s' : closed s = false →
    len (events (ticked t s)) < event_limit s →
    reacts registry (ticked t s) (frame_type (header (verified f))) (stream_id (header (verified f)))
      (payload (verified f)) s2 (Some answer) →
    responded (Some ResourceLimit) (closing (Some (mkFailure Local FcResourceLimit)) s2) s' →
    does s (SReceive f registry t) (Err SeCapacity) s'
| does_receive_violation f registry t e s2 s' : closed s = false → e ≠ SeCapacity →
    len (events (ticked t s)) < event_limit s →
    (∀ s2 answer, ¬ reacts registry (ticked t s) (frame_type (header (verified f)))
       (stream_id (header (verified f))) (payload (verified f)) s2 answer) →
    rejected (frame_type (header (verified f))) (payload (verified f)) (ticked t s) s2 →
    responded (Some ProtocolError) (closing (Some (mkFailure Local FcProtocolViolation)) s2) s' →
    does s (SReceive f registry t) (Err e) s'
| does_receive_full f registry t : closed s = false → event_limit s ≤ len (events (ticked t s)) →
    does s (SReceive f registry t) (Err SeCapacity)
      (closing (Some (mkFailure Local FcResourceLimit)) (ticked t s))
| does_receive_closed f registry t : closed s = true → does s (SReceive f registry t) (Err SeClosed) s
| does_pop_outbound pre f post : outbound s = pre ++ f :: post →
    Forall (λ g, stream_id (header g) ≠ stream_id (header f)) pre →
    (frame_type (header f) = Open_t ∨ frame_type (header f) = GoAway_t →
     Forall (λ g, frame_type (header g) ≠ Open_t) pre) →
    does s SPopOutbound (Ok tt)
      (set_outbound (pre ++ post) (set_last_output (Some (stream_id (header f))) s))
| does_pop_no_outbound : outbound s = [] → does s SPopOutbound (Ok tt) s
| does_pop_event e rest : events s = e :: rest → does s SPopEvent (Ok tt) (set_events rest s)
| does_pop_no_event : events s = [] → does s SPopEvent (Ok tt) s
| does_pop_stream owner pre e post : events s = pre ++ e :: post →
    for_owner (handle s) owner e → Forall (λ e, ¬ for_owner (handle s) owner e) pre →
    does s (SPopStream owner) (Ok tt) (set_events (pre ++ post) s)
| does_pop_no_stream owner : Forall (λ e, ¬ for_owner (handle s) owner e) (events s) →
    does s (SPopStream owner) (Ok tt) s.

(** A request is refused where nothing it could do is enabled, or where no output
    can be reserved for it. *)
Definition requests (call : sess_call) : bool :=
  match call with SOpen _ _ | SSend _ _ _ | SEnd _ _ | SCancel _ _ _ | SDrain _ | SPing _ _ _ => true | _ => false end.
Definition reserves (call : sess_call) : bool :=
  match call with SCancel _ _ _ => false | _ => requests call end.
Inductive performs (s : Session) (call : sess_call) : result SessionError unit → Session → Prop :=
| performs_does r s' : does s call r s' → performs s call r s'
| performs_disabled e : requests call = true → (∀ r s', ¬ does s call r s') → performs s call (Err e) s
| performs_full r s' : reserves call = true → does s call r s' → len (outbound s) < len (outbound s') →
    performs s call (Err SeCapacity) s.

(** ** Every call performs one of its transitions *)

Lemma frame_framed kind id p :
  len p ≤ MAX_PAYLOAD_BYTES → FrameType_validate_stream_id kind id = Ok tt →
  frame kind id p = Ok (mkWireFrame None (mkFrameHeader kind id (len p)) p None).
Proof.
  intros Hl Hv. unfold frame. assert (len p mod u32_limit = len p) as -> by (apply N.mod_small; unfold MAX_PAYLOAD_BYTES in Hl; lia).
  rewrite (proj2 (FrameHeader_new_Ok kind id (len p) (mkFrameHeader kind id (len p)))) by done.
  unfold map_err, mbind, result_bind, WireFrame_new. cbn [payload_len]. by rewrite N.eqb_refl.
Qed.
Lemma frame_Ok kind id p f :
  frame kind id p = Ok f → len p ≤ MAX_PAYLOAD_BYTES ∧ f = mkWireFrame None (mkFrameHeader kind id (len p)) p None.
Proof.
  unfold frame. intros H. apply result_bind_Ok_inv in H as (h & Hh & H).
  apply map_err_Ok, FrameHeader_new_Ok in Hh as (-> & Hl & _). apply map_err_Ok in H. unfold WireFrame_new in H.
  cbn [payload_len] in H. destruct (N.eqb_spec (len p) (len p mod u32_limit)) as [E |]; [| done].
  rewrite <- E in *. injection H as <-. done.
Qed.
Lemma stream_scope kind id : id ≠ 0 →
  kind = Open_t ∨ kind = Data_t ∨ kind = End_t ∨ kind = Cancel_t ∨ kind = Error_t →
  FrameType_validate_stream_id kind id = Ok tt.
Proof.
  intros Hz H. unfold FrameType_validate_stream_id. apply N.eqb_neq in Hz. rewrite Hz.
  by destruct H as [-> | [-> | [-> | [-> | ->]]]].
Qed.
Lemma error_payload_new c : c ≠ NoError → ErrorPayload_new c [] = Ok (mkDiagnostic c []).
Proof. by destruct c. Qed.
Lemma error_payload_len c : len (error_payload c) = 4.
Proof. by destruct c. Qed.
Lemma frame_error id c :
  frame Error_t id (error_payload c) = Ok (mkWireFrame None (mkFrameHeader Error_t id 4) (error_payload c) None).
Proof. rewrite frame_framed; rewrite ?error_payload_len; done. Qed.

(** Queueing reserves, and leaves everything as it was where it cannot. *)
Lemma queue_cases kind id p s st :
  (∃ r st', queue (mkWireFrame None (mkFrameHeader kind id (len p)) p None) (s, st) =
     (Ok tt, (push_outbound (framed kind id p r) s, st'))) ∨
  (∃ st', queue (mkWireFrame None (mkFrameHeader kind id (len p)) p None) (s, st) = (Err SeCapacity, (s, st'))).
Proof.
  unfold queue, reserve_outbound. unfold_m. cbn.
  destruct (Resources_outbound _ _ _) as [[r |] st']; cbn; [left | right]; by eauto.
Qed.
Lemma reserve_cases n s st :
  (∃ r st', reserve_outbound n (s, st) = (Ok r, (s, st'))) ∨
  (∃ st', reserve_outbound n (s, st) = (Err SeCapacity, (s, st'))).
Proof.
  unfold reserve_outbound. destruct (Resources_outbound _ _ _) as [[r |] st']; cbn; [left | right]; by eauto.
Qed.
Lemma refuse_cases id c s st : c ≠ NoError →
  (∃ r st', refuse id c (s, st) = (Ok tt, (push_outbound (framed Error_t id (error_payload c) r) s, st'))) ∨
  (∃ st', refuse id c (s, st) = (Err SeCapacity, (s, st'))).
Proof.
  intros Hc. unfold refuse. rewrite error_payload_new by done.
  erewrite bind_Ok by reflexivity. fold (error_payload c). rewrite frame_error. erewrite bind_Ok by reflexivity.
  rewrite <- (error_payload_len c). apply queue_cases.
Qed.

Lemma withdraw_retain id s st :
  (retain_outbound (λ f, negb (stream_id (header f) =? id) || bool_decide (frame_type (header f) = Open_t)) (s, st)).1
    = withdraw id s.
Proof.
  unfold withdraw, retain_outbound. cbn. f_equal. apply list_filter_iff. intros f.
  rewrite orb_true_iff, negb_true_iff, N.eqb_neq, bool_decide_eq_true. done.
Qed.
Lemma terminate_live id outcome state s st : streams s !! id = Some state →
  ∃ st', terminate id outcome (s, st) = (terminated id state outcome s, st').
Proof.
  intros Hl. unfold terminate. pose proof (withdraw_retain id s st) as E.
  destruct (retain_outbound _ (s, st)) as [s1 st1]. cbn in E. subst s1. eexists.
  unfold terminated, finished. change (streams (withdraw id s)) with (streams s). by rewrite Hl.
Qed.
Lemma terminate_drop id outcome s st : ∃ st', terminate id outcome (s, st) = (drop_stream outcome s id, st').
Proof.
  unfold drop_stream. destruct (streams s !! id) as [state |] eqn:Hl; [by apply terminate_live |].
  unfold terminate. pose proof (withdraw_retain id s st) as E.
  destruct (retain_outbound _ (s, st)) as [s1 st1]. cbn in E. subst s1. eexists.
  change (streams (withdraw id s)) with (streams s). by rewrite Hl.
Qed.
Lemma terminate_all_drop ids outcome : ∀ s st,
  ∃ st', terminate_all ids outcome (s, st) = (foldl (drop_stream outcome) s ids, st').
Proof.
  induction ids as [| id ids IH]; intros s st; [by exists st |]. unfold terminate_all in *. cbn [foldl].
  destruct (terminate_drop id outcome s st) as [st1 ->]. apply IH.
Qed.

Lemma close_open failure response s st : closed s = false →
  ∃ s' st', Session_close failure response (s, st) = (s', st') ∧ responded response (closing failure s) s'.
Proof.
  intros Hc. unfold Session_close. rewrite Hc. set (y := push_event _ _).
  assert (y = closing failure s) as -> by (unfold y, closing, push_event; cbn; by rewrite <- !app_assoc).
  unfold responded. destruct response as [c |]; [| by eauto].
  destruct (decide (c = NoError)) as [-> | Hn]; [cbn; by eauto |]. rewrite error_payload_new by done.
  fold (error_payload c). rewrite frame_error. rewrite <- (error_payload_len c).
  match goal with |- context [queue _ (?a, ?b)] =>
    destruct (queue_cases Error_t 0 (error_payload c) a b) as [(r & st' & ->) | (st' & ->)] end; cbn [snd].
  - do 2 eexists. split; [reflexivity |]. right. by exists c, r.
  - by eauto.
Qed.
Lemma close_closed failure response s st : closed s = true → Session_close failure response (s, st) = (s, st).
Proof. intros Hc. unfold Session_close. by rewrite Hc. Qed.

Lemma expire_all ts : ∀ s,
  foldl expire s ts =
  set_events (events s ++ map (λ token, PingFinished (handle_id (handle s)) token
                                 (Err (mkFailure Local FcDeadlineExceeded))) ts)
    (set_pings (foldl (λ m token, delete token m) (pings s) ts) s).
Proof.
  induction ts as [| token ts IH]; intros s; cbn [foldl map].
  - rewrite app_nil_r. by destruct s.
  - rewrite IH. unfold expire, push_event. cbn. by rewrite <- app_assoc.
Qed.
Lemma delete_each (ts : list bytes) (m : gmap bytes (Instant * Instant)) (P : bytes * (Instant * Instant) → Prop)
    `{PD : !∀ x, Decision (P x)} :
  (∀ k v, m !! k = Some v → k ∈ ts ↔ ¬ P (k, v)) → foldl (λ m token, delete token m) m ts = filter P m.
Proof.
  revert m. induction ts as [| token ts IH]; intros m H; cbn [foldl].
  - symmetry. apply map_filter_id. intros k v Hk. destruct (decide (P (k, v))) as [| Hn]; [done |].
    apply (H _ _ Hk) in Hn. by apply not_elem_of_nil in Hn.
  - destruct (decide (token ∈ ts)) as [Hin | Hin].
    + assert (foldl (λ m t, delete t m) (delete token m) ts = foldl (λ m t, delete t m) m ts) as ->.
      { clear -Hin. revert m. induction ts as [| t ts IH]; intros m; [by apply not_elem_of_nil in Hin |]. cbn [foldl].
        apply elem_of_cons in Hin as [-> | Hin]; [by rewrite delete_delete_eq |].
        rewrite delete_delete. by apply IH. }
      apply IH. intros k v Hk. rewrite <- (H _ _ Hk), elem_of_cons. naive_solver.
    + rewrite IH.
      * apply map_eq. intros k. apply option_eq. intros v. rewrite !map_lookup_filter_Some, lookup_delete_Some.
        split; [naive_solver |]. intros [Hk HP]. split; [| done]. split; [| done]. intros <-.
        by apply (H _ _ Hk); [left |].
      * intros k v [Hne Hk]%lookup_delete_Some. rewrite <- (H _ _ Hk), elem_of_cons. naive_solver.
Qed.
Lemma tick_ticked t s : tick t s = ticked t s.
Proof.
  unfold tick, ticked. rewrite expire_all. cbn [events handle pings set_now]. change (pings (set_now (Some t) s)) with (pings s).
  fold (due t s). rewrite (delete_each (due t s) (pings s) (λ p, t < p.2.2)); [by destruct s |].
  intros k [a d] Hk. unfold due. rewrite list_elem_of_filter, Hk. unfold ping_keys. rewrite keys_elem. cbn.
  rewrite N.leb_le. split; [lia |]. intros. split; [lia | by eexists].
Qed.

(** What a call answers, its value left out. *)
Definition answer {A} (r : result SessionError A) : result SessionError unit :=
  match r with Ok _ => Ok tt | Err e => Err e end.
Definition sess_result (call : sess_call) (x : SessSt) : result SessionError unit :=
  match call with
  | SOpen registry owner => answer (Session_open registry owner x).1
  | SSend owner stream data => (Session_send owner stream data x).1
  | SEnd owner stream => (Session_end owner stream x).1
  | SCancel owner stream reason => (cancel owner stream reason x).1
  | SReceive f registry t => (Session_receive f registry t x).1
  | SDrain reason => (drain reason x).1
  | SPing token timeout t => (ping token timeout t x).1
  | _ => Ok tt
  end.

(** The run of a method from here on performs the call. *)
Abbreviation performing call s x := (performs s call (answer (fst x)) (fst (snd x))).

Section running.
Context {A B : Type} (call : sess_call) (s0 s : Session) (st : Store).

Lemma run_read {X} (f : Session → X) (k : X → SM B) :
  performing call s0 (k (f s) (s, st)) → performing call s0 ((read f ≫= k) (s, st)).
Proof. done. Qed.
Lemma run_ensure b e (k : unit → SM B) :
  (b = true → performing call s0 (k tt (s, st))) → (b = false → performs s0 call (Err e) s) →
  performing call s0 ((ensure b e ≫= k) (s, st)).
Proof. destruct b; auto. Qed.
Lemma run_lift (r : result SessionError A) (k : A → SM B) :
  (∀ a, r = Ok a → performing call s0 (k a (s, st))) → (∀ e, r = Err e → performs s0 call (Err e) s) →
  performing call s0 ((lift r ≫= k) (s, st)).
Proof. unfold mbind, M_bind, lift. destruct r; cbn; auto. Qed.
Lemma run_reserve n (k : Reservation → SM B) :
  (∀ r st', performing call s0 (k r (s, st'))) → performs s0 call (Err SeCapacity) s →
  performing call s0 ((reserve_outbound n ≫= k) (s, st)).
Proof.
  intros H1 H2. destruct (reserve_cases n s st) as [(r & st' & E) | (st' & E)].
  - rewrite (bind_Ok _ _ _ _ _ E). apply H1.
  - by rewrite (bind_Err _ _ _ _ _ E).
Qed.
Lemma run_queue kind id p (k : unit → SM B) :
  (∀ r st', performing call s0 (k tt (push_outbound (framed kind id p r) s, st'))) →
  performs s0 call (Err SeCapacity) s →
  performing call s0 ((queue (mkWireFrame None (mkFrameHeader kind id (len p)) p None) ≫= k) (s, st)).
Proof.
  intros H1 H2. destruct (queue_cases kind id p s st) as [(r & st' & E) | (st' & E)].
  - rewrite (bind_Ok _ _ _ _ _ E). apply H1.
  - by rewrite (bind_Err _ _ _ _ _ E).
Qed.
End running.
Lemma run_last_queue call s0 s st kind id p :
  (∀ r, performs s0 call (Ok tt) (push_outbound (framed kind id p r) s)) →
  performs s0 call (Err SeCapacity) s →
  performing call s0 (queue (mkWireFrame None (mkFrameHeader kind id (len p)) p None) (s, st)).
Proof. intros H1 H2. destruct (queue_cases kind id p s st) as [(r & st' & ->) | (st' & ->)]; [apply H1 | exact H2]. Qed.

(** No transition of the call is enabled. *)
Ltac disabled :=
  apply performs_disabled; [reflexivity |];
  let Hd := fresh in intros ? ? Hd; inversion Hd; subst; clear Hd;
  repeat match goal with
  | H : may_use _ _ _ _ |- _ => destruct H
  | H : may_open _ _ _ _ |- _ => destruct H
  | H : _ ∨ _ |- _ => destruct H
  end; simplify_eq; try congruence; try lia.

Lemma map_err_Err {E F X} (f : E → F) (r : result E X) e : map_err f r = Err e → ∃ e', r = Err e' ∧ e = f e'.
Proof. destruct r; cbn; [done |]. intros [= <-]. by eexists. Qed.
Lemma ok_or_Err {E X} (o : option X) (e e' : E) : ok_or o e = Err e' → o = None.
Proof. by destruct o. Qed.
Lemma StreamHandle_authorize_Err h c o e :
  StreamHandle_authorize h c o = Err e → sh_connection h ≠ c ∨ sh_owner h ≠ o.
Proof. unfold StreamHandle_authorize. repeat case_bool_decide; auto; done. Qed.
Lemma between_len {A} (l : list A) m : is_empty l || (m <? len l) = false ↔ 1 ≤ len l ≤ m.
Proof.
  rewrite orb_false_iff, N.ltb_ge. destruct l; cbn [is_empty]; [split; [by intros [] | intros [H _]; unfold len in H; cbn in H; lia] |].
  rewrite len_cons. split; [intros [_ ?]; lia | intros ?; split; [done | lia]].
Qed.

Lemma outbound_grows f s : len (outbound s) < len (outbound (push_outbound f s)).
Proof. unfold len. cbn. rewrite length_app. cbn. lia. Qed.

Lemma send_performs owner stream data s st :
  session_ok s → performing (SSend owner stream data) s (Session_send owner stream data (s, st)).
Proof.
  intros Hok. unfold Session_send. apply run_read, run_ensure; intros Hc;
    [apply negb_true_iff in Hc | apply negb_false_iff in Hc; disabled].
  apply run_read, run_lift; [intros [] Ha | intros e Ha].
  2: { apply map_err_Err in Ha as (e' & Ha & _). apply StreamHandle_authorize_Err in Ha. disabled. }
  apply map_err_Ok, StreamHandle_authorize_Ok in Ha as [Hh Hw].
  apply run_read, run_ensure; intros Hl.
  2: { disabled. rewrite mu_live0 in Hl. congruence. }
  destruct (streams s !! wire_id stream) as [state |] eqn:Hs; [| done].
  apply run_ensure; intros Hlen; [apply negb_true_iff in Hlen | apply negb_false_iff in Hlen].
  2: { disabled. match goal with H : 1 ≤ len _ ≤ _ |- _ => apply between_len in H end. congruence. }
  apply between_len in Hlen.
  rewrite frame_framed; [| lia | apply stream_scope; [| by auto]; by eapply live_nonzero, Hs; apply Hok].
  erewrite bind_Ok by reflexivity.
  assert (∀ r, does s (SSend owner stream data) (Ok tt) (push_outbound (framed Data_t (wire_id stream) data r) s)) as Hdo.
  { intros r. by apply (does_send s owner stream data state r). }
  apply run_last_queue; [intros r; apply performs_does, Hdo |].
  eapply performs_full; [done | apply (Hdo 0) | apply (outbound_grows _ s)].
Qed.

Lemma end_performs owner stream s st :
  session_ok s → performing (SEnd owner stream) s (Session_end owner stream (s, st)).
Proof.
  intros Hok. unfold Session_end. apply run_read, run_ensure; intros Hc;
    [apply negb_true_iff in Hc | apply negb_false_iff in Hc; disabled].
  apply run_read, run_lift; [intros [] Ha | intros e Ha].
  2: { apply map_err_Err in Ha as (e' & Ha & _). apply StreamHandle_authorize_Err in Ha. disabled. }
  apply map_err_Ok, StreamHandle_authorize_Ok in Ha as [Hh Hw]. apply run_read.
  apply run_lift; [intros state Hs%ok_or_Ok | intros e Hs%ok_or_Err; disabled].
  apply run_ensure; intros Hl; [| disabled].
  rewrite frame_framed; [| done | apply stream_scope; [| by auto]; by eapply live_nonzero, Hs; apply Hok].
  erewrite bind_Ok by reflexivity.
  assert (∀ r, does s (SEnd owner stream) (Ok tt)
    (push_outbound (framed End_t (wire_id stream) [] r) (with_stream (wire_id stream)
       (mkStreamState (ss_handle state) false (remote_open state) (local_end_written state)) s))) as Hdo.
  { intros r. by apply (does_end s owner stream state r). }
  apply run_reserve; [intros r st'; apply performs_does, Hdo |].
  eapply performs_full; [done | apply (Hdo 0) | apply (outbound_grows _ s)].
Qed.

Lemma cancel_performs owner stream reason s st :
  session_ok s → performing (SCancel owner stream reason) s (cancel owner stream reason (s, st)).
Proof.
  intros Hok. unfold cancel. apply run_read, run_ensure; intros Hc;
    [apply negb_true_iff in Hc | apply negb_false_iff in Hc; disabled].
  apply run_read, run_lift; [intros [] Ha | intros e Ha].
  2: { apply map_err_Err in Ha as (e' & Ha & _). apply StreamHandle_authorize_Err in Ha. disabled. }
  apply map_err_Ok, StreamHandle_authorize_Ok in Ha as [Hh Hw]. apply run_read.
  apply run_ensure; intros Hs; [apply bool_decide_eq_true in Hs as [state Hs]
    | apply bool_decide_eq_false, eq_None_not_Some in Hs; disabled].
  destruct (terminate_live (wire_id stream) (OutCancelled Local reason) state s st Hs) as [st1 Ht].
  set (s1 := terminated (wire_id stream) state (OutCancelled Local reason) s) in *.
  rewrite (bind_Ok _ _ _ tt (s1, st1)) by (unfold perform, modify; by rewrite Ht).
  match goal with |- context [ErrorPayload_new ?c []] => replace c with (cancel_code reason) by (by destruct reason) end.
  rewrite error_payload_new by (by destruct reason). erewrite bind_Ok by reflexivity. fold (error_payload (cancel_code reason)).
  rewrite frame_framed; [| by rewrite error_payload_len | apply stream_scope; [| by auto 6]; by eapply live_nonzero, Hs; apply Hok].
  erewrite bind_Ok by reflexivity.
  destruct (queue_cases Cancel_t (wire_id stream) (error_payload (cancel_code reason)) s1 st1)
    as [(r & st' & E) | (st' & E)]; unfold mbind, M_bind, try_; rewrite E.
  - apply performs_does. by apply (does_cancel s owner stream reason state r).
  - cbn [is_err is_ok negb]. unfold perform, modify.
    destruct (close_open (Some (mkFailure Local FcResourceLimit)) None s1 st') as (s2 & st2 & -> & [-> | (? & ? & ? & _)]);
      [done | | done].
    apply performs_does. by apply (does_cancel_unsent s owner stream reason state).
Qed.

(** A drain, as a call or within another. *)
Lemma drain_cases reason s st : closed s = false → goaway_sent s = false →
  (∃ r st', drain reason (s, st) = (Ok tt, (announced reason r s, st'))) ∨
  (∃ st', drain reason (s, st) = (Err SeCapacity, (s, st'))).
Proof.
  intros Hc Hg. unfold drain. erewrite bind_Ok by reflexivity. rewrite Hc. erewrite bind_Ok by reflexivity.
  erewrite bind_Ok by reflexivity. rewrite Hg. erewrite bind_Ok by reflexivity.
  match goal with |- context [GoAway_new _ ?c []] => replace c with (goaway_code reason) by (by destruct reason) end.
  assert (GoAway_new (accepted_remote s) (goaway_code reason) [] =
    Ok (mkGoAway (accepted_remote s) (mkDiagnostic (goaway_code reason) []))) as -> by (by destruct reason).
  erewrite bind_Ok by reflexivity. fold (goaway_payload (goaway_code reason) s).
  assert (len (goaway_payload (goaway_code reason) s) = 8) as Hl by (by destruct reason).
  rewrite frame_framed by (by rewrite ?Hl). erewrite bind_Ok by reflexivity.
  destruct (queue_cases GoAway_t 0 (goaway_payload (goaway_code reason) s) s st) as [(r & st' & E) | (st' & E)].
  - left. exists r, st'. by rewrite (bind_Ok _ _ _ _ _ E).
  - right. exists st'. by rewrite (bind_Err _ _ _ _ _ E).
Qed.
Lemma drain_sent reason s st : closed s = false → goaway_sent s = true → drain reason (s, st) = (Ok tt, (s, st)).
Proof.
  intros Hc Hg. unfold drain. erewrite bind_Ok by reflexivity. rewrite Hc. erewrite bind_Ok by reflexivity.
  erewrite bind_Ok by reflexivity. by rewrite Hg.
Qed.
Lemma drain_performs reason s st : performing (SDrain reason) s (drain reason (s, st)).
Proof.
  destruct (closed s) eqn:Hc.
  { unfold drain. apply run_read, run_ensure; [by rewrite Hc | intros _; disabled]. }
  destruct (goaway_sent s) eqn:Hg; [rewrite drain_sent by done; by apply performs_does, does_drain_again |].
  destruct (drain_cases reason s st Hc Hg) as [(r & st' & ->) | (st' & ->)]; [by apply performs_does, does_drain |].
  eapply performs_full; [done | by apply (does_drain s reason 0) | apply (outbound_grows _ s)].
Qed.

Lemma ping_performs token timeout t s st : performing (SPing token timeout t) s (ping token timeout t (s, st)).
Proof.
  unfold ping. apply run_read, run_ensure; intros Hc;
    [apply negb_true_iff in Hc | apply negb_false_iff in Hc; disabled].
  apply run_read, run_ensure; intros Hp; [apply negb_true_iff in Hp | apply negb_false_iff in Hp].
  2: { apply orb_true_iff in Hp as [Hp%N.eqb_eq | [? Hp]%bool_decide_eq_true]; disabled. }
  apply orb_false_iff in Hp as [Hp%N.eqb_neq Hn%bool_decide_eq_false].
  apply run_ensure; intros Hs; [apply negb_true_iff in Hs | apply negb_false_iff in Hs]; apply N.leb_le in Hs || apply N.leb_gt in Hs.
  2: { disabled. }
  apply run_lift; [intros d Hd | intros e Hd].
  2: { disabled. unfold Instant_checked_add, checked_add in Hd. case_match; [done | lia]. }
  apply ok_or_Ok in Hd. unfold Instant_checked_add in Hd. apply checked_add_Some in Hd as [-> Hd].
  apply run_lift; [intros f Hf | intros e Hf].
  2: { disabled. rewrite frame_framed in Hf; done. }
  apply frame_Ok in Hf as [Hl ->].
  assert (∀ r, does s (SPing token timeout t) (Ok tt)
      (set_pings (<[token := (t, t + timeout)]> (pings s)) (push_outbound (framed Ping_t 0 token r) s))) as Hdo.
  { intros r. apply does_ping; try done; try lia. by apply eq_None_not_Some. }
  apply run_queue; [intros r st'; apply performs_does, Hdo |]. eapply performs_full; [done | apply (Hdo 0) | apply (outbound_grows _ s)].
Qed.

(** ** Opening *)

Lemma add_eq ds id owner protocol s st : id ≠ 0 →
  add id owner protocol (set_ids ds s, st) =
  (Ok (mkStreamHandle (handle_id (handle s)) owner id), (opened ds id owner protocol s, st)).
Proof.
  intros Hz. apply N.eqb_neq in Hz. unfold add, opened, note_accepted, on_session. unfold_m. cbn.
  destruct (is_local ds id); cbn; rewrite Hz; reflexivity.
Qed.
Lemma Open_encode_len p : namespace (protocol_id p) →
  len (Open_encode (mkOpen (protocol_id p) (protocol_version p))) ≤ MAX_PAYLOAD_BYTES.
Proof.
  intros [Hl _ _ _ _]. unfold Open_encode, len. cbn [open_id open_version]. rewrite !length_app, !to_be_length.
  unfold MAX_PAYLOAD_BYTES. lia.
Qed.

Lemma open_performs registry owner s st :
  session_ok s → performing (SOpen registry owner) s (Session_open registry owner (s, st)).
Proof.
  intros Hok. pose proof (session_ok_positive s Hok) as Hpos. unfold Session_open.
  apply run_read, run_ensure; intros Hc; [apply negb_true_iff in Hc | apply negb_false_iff in Hc; disabled].
  apply run_read. fold (draining s).
  apply run_ensure; intros Hd; [apply negb_true_iff in Hd | apply negb_false_iff in Hd; disabled].
  apply run_lift; [intros protocol Hp%ok_or_Ok | intros e Hp%ok_or_Err; disabled].
  apply run_lift; [intros o Ho%map_err_Ok | intros e (e' & Ho & _)%map_err_Err].
  2: { disabled. all: match goal with H : namespace _ ∧ _ |- _ => destruct H as [Hns Hv] end.
       all: by rewrite (proj2 (Open_new_Ok _ _ (mkOpen (protocol_id protocol) (protocol_version protocol)))) in Ho. }
  apply Open_new_Ok in Ho as (-> & Hns & Hv). apply run_read.
  apply run_ensure; intros Hf; [apply negb_true_iff in Hf | apply negb_false_iff in Hf].
  2: { fold (max_streams s) in Hf. apply orb_true_iff in Hf as [Hf%N.leb_le | Hf%N.leb_le]; disabled. }
  apply orb_false_iff in Hf as [He%N.leb_gt Hm%N.leb_gt].
  assert (may_open registry owner protocol s) as Hmay by done.
  destruct (allocate (ids s)) as [res ds] eqn:Ha.
  assert (∃ r s', does s (SOpen registry owner) r s' ∧ len (outbound s) < len (outbound s')) as (r0 & s0 & Hdo & Hgrow).
  { destruct res as [id | e]; do 2 eexists.
    - split; [exact (does_open s registry owner protocol id ds 0 Hmay Ha) |].
      replace (outbound s) with (outbound (opened ds id owner protocol s)); [apply outbound_grows |].
      unfold opened, note_accepted. by destruct (is_local ds id).
    - split; [exact (does_exhaust s registry owner protocol e ds 0 Hmay Ha) | apply (outbound_grows _ s)]. }
  apply run_reserve; [intros r st1 | by eapply performs_full; [| exact Hdo | exact Hgrow]].
  rewrite (bind_Ok _ _ _ res (set_ids ds s, st1)) by (unfold on_ids; by rewrite Ha).
  destruct res as [id | e].
  - assert (id ≠ 0) as Hz by (eapply consumed_positive; eauto).
    erewrite (bind_Ok (try_ (add id owner protocol))) by (unfold try_; rewrite add_eq by done; reflexivity). cbv beta iota.
    rewrite frame_framed; [| by apply Open_encode_len | apply stream_scope; auto].
    apply performs_does. exact (does_open s registry owner protocol id ds r Hmay Ha).
  - apply allocate_Err in Ha as Hds. destruct Hds as [-> _]. replace (set_ids (ids s) s) with s by by destruct s.
    assert (goaway_sent s = false) as Hg by (by apply orb_false_iff in Hd as [? _]).
    destruct (drain_cases SrIdExhausted s st1 Hc Hg) as [(r1 & st2 & E) | (st2 & E)];
      erewrite (bind_Ok (try_ (drain SrIdExhausted))) by (unfold try_; rewrite E; reflexivity).
    + apply performs_does. by apply (does_exhaust s registry owner protocol e (ids s) r1).
    + by eapply performs_full; [| exact Hdo | exact Hgrow].
Qed.

(** ** What happens without a request *)

Lemma sent_performs kind id s : performs s (SSent kind id) (Ok tt) (Session_sent kind id s).
Proof.
  apply performs_does. unfold Session_sent. destruct (decide (kind = GoAway_t)) as [-> | Hg]; [apply does_goaway_written |].
  rewrite (bool_decide_false (kind = GoAway_t)) by done. destruct (decide (kind = End_t)) as [-> | He].
  2: { rewrite (bool_decide_false (kind = End_t)) by done. by apply does_written. }
  rewrite bool_decide_true by done.
  destruct (streams s !! id) as [state |] eqn:Hs.
  - pose proof (does_end_written s id state Hs) as H. cbn zeta in H. unfold complete.
    cbn [streams set_streams]. rewrite lookup_insert_eq. cbn [remote_open local_end_written].
    destruct (negb (remote_open state) && negb (local_open state)); [| exact H].
    unfold finished in H. rewrite <- (delete_insert_eq (streams s) id
      (mkStreamState (ss_handle state) (local_open state) (remote_open state) (negb (local_open state)))) in H. exact H.
  - unfold complete. rewrite Hs. by apply does_written.
Qed.
Lemma close_performs failure response s st :
  performs s (SClose failure response) (Ok tt) (Session_close failure response (s, st)).1.
Proof.
  apply performs_does. destruct (closed s) eqn:Hc.
  - rewrite close_closed by done. by apply does_close_again.
  - destruct (close_open failure response s st Hc) as (s' & st' & -> & H). by apply does_close.
Qed.

Lemma pop_outbound_performs s : performs s SPopOutbound (Ok tt) (pop_outbound s).2.
Proof.
  apply performs_does. unfold pop_outbound. destruct (outbound s) as [| f0 q] eqn:Eq.
  - assert (next_output s = (None, s)) as -> by (unfold next_output; by rewrite Eq). by apply does_pop_no_outbound.
  - destruct (next_output_progress s ltac:(by rewrite Eq)) as (f & s' & E). rewrite E.
    apply next_output_Some in E as (pre & post & E & -> & Hpre & Hopen & _).
    apply (does_pop_outbound s pre f post E Hpre). intros H. eapply Forall_impl; [apply Hopen |].
    + unfold is_open_frame, is_goaway_frame. apply orb_true_iff. by destruct H as [-> | ->]; [left | right].
    + intros g Hg. cbn in Hg. by apply bool_decide_eq_false in Hg.
Qed.
Lemma pop_event_performs s : performs s SPopEvent (Ok tt) (pop_event s).2.
Proof.
  apply performs_does. unfold pop_event. destruct (events s) as [| e rest] eqn:E.
  - by apply does_pop_no_event.
  - by apply (does_pop_event s e rest).
Qed.
Lemma pop_stream_performs owner s : performs s (SPopStream owner) (Ok tt) (pop_stream_event owner s).2.
Proof.
  apply performs_does. unfold pop_stream_event.
  match goal with |- context [list_find ?P _] => assert (∀ e, P e ↔ for_owner (handle s) owner e) as HP end.
  { intros e. cbn. unfold for_owner. destruct (stream_of e) as [h |]; [| done].
    destruct (StreamHandle_authorize h (handle_id (handle s)) owner) as [u | x] eqn:E.
    - apply StreamHandle_authorize_Ok in E. by split.
    - apply StreamHandle_authorize_Err in E. split; [done | tauto]. }
  destruct (list_find _ (events s)) as [[i e] |] eqn:E.
  - apply list_find_Some in E as (Hi & He & Hpre). apply HP in He. cbn [snd].
    pose proof (take_drop_middle _ _ _ Hi) as Hsplit. rewrite delete_take_drop.
    apply (does_pop_stream s owner (take i (events s)) e (drop (S i) (events s))); [done | done |].
    apply Forall_lookup. intros j y Hj. apply lookup_take_Some in Hj as [Hj Hlt]. rewrite <- HP. by eapply Hpre.
  - apply does_pop_no_stream. apply list_find_None in E. eapply Forall_impl; [exact E |].
    intros e He. by rewrite <- HP.
Qed.

(** ** Reactions *)

(** What dispatching a frame comes to: a reaction that was answered, one whose
    answer found no room, or a frame that nothing reacts to. *)
Inductive reacted (registry : Registry) (s : Session) (kind : FrameType) (id : N) (p : bytes) :
    result SessionError unit * SessSt → Prop :=
| reacted_answered s2 a s' st' : reacts registry s kind id p s2 a → answered a s2 s' →
    reacted registry s kind id p (Ok tt, (s', st'))
| reacted_unanswered s2 a st' : reacts registry s kind id p s2 (Some a) → closed s2 = false →
    reacted registry s kind id p (Err SeCapacity, (s2, st'))
| reacted_violation e s2 st' : e ≠ SeCapacity → (∀ s2 a, ¬ reacts registry s kind id p s2 a) →
    rejected kind p s s2 → closed s2 = false → reacted registry s kind id p (Err e, (s2, st')).

Lemma was_created_zero ds : was_created ds 0 = false.
Proof. done. Qed.

Ltac unreacted :=
  let Hr := fresh in intros ? ? Hr; inversion Hr; subst; clear Hr;
  repeat match goal with
  | H : was_created _ 0 = true |- _ => by rewrite was_created_zero in H
  | H : violates _ _ _ _ _ _ _ |- _ => inversion H; subst; clear H
  | H : refuses _ _ _ _ |- _ => inversion H; subst; clear H
  | H : _ ∨ _ |- _ => destruct H
  end; simplify_eq; try congruence; try lia.

Lemma drop_streams_same outcome ids : ∀ s,
  closed (foldl (drop_stream outcome) s ids) = closed s ∧
  goaway_sent (foldl (drop_stream outcome) s ids) = goaway_sent s ∧
  accepted_remote (foldl (drop_stream outcome) s ids) = accepted_remote s.
Proof.
  induction ids as [| id ids IH]; intros s; [done |]. cbn [foldl]. destruct (IH (drop_stream outcome s id)) as (-> & -> & ->).
  unfold drop_stream. by destruct (streams s !! id).
Qed.

Lemma refuse_above_same last s :
  closed (refuse_above last s) = closed s ∧ goaway_sent (refuse_above last s) = goaway_sent s ∧
  accepted_remote (refuse_above last s) = accepted_remote s.
Proof. apply drop_streams_same. Qed.
Lemma noted_same g s :
  streams (noted g s) = streams s ∧ ids (noted g s) = ids s ∧ closed (noted g s) = closed s ∧
  goaway_sent (noted g s) = goaway_sent s ∧ accepted_remote (noted g s) = accepted_remote s.
Proof. unfold noted. by destruct (bool_decide (code (diagnostic g) ≠ NoError)). Qed.
Lemma bounds_streams_spec last s :
  negb ((negb (last =? 0) && negb (is_local (ids s) last)) || (greatest_local (ids s) <? last)
        || match peer_goaway s with Some p => p <? last | None => false end) = true ↔ bounds_streams last s.
Proof.
  rewrite negb_true_iff, !orb_false_iff, andb_false_iff, !negb_false_iff, N.eqb_eq, N.ltb_ge. unfold bounds_streams.
  split.
  - intros [[H1 H2] H3]. split_and!; [done | done |]. intros q Hq. rewrite Hq in H3. by apply N.ltb_ge.
  - intros (H1 & H2 & H3). split; [done |]. destruct (peer_goaway s) as [q |]; [| done]. apply N.ltb_ge. by apply H3.
Qed.

Section reactions.
Context (registry : Registry) (s : Session) (st : Store) (Hok : session_ok s) (Hc : closed s = false).

Lemma violation kind id p e s2 st' : e ≠ SeCapacity → (∀ s2 a, ¬ reacts registry s kind id p s2 a) →
  rejected kind p s s2 → closed s2 = false → reacted registry s kind id p (Err e, (s2, st')).
Proof. apply reacted_violation. Qed.
Lemma rejected_same kind p : rejected kind p s s.
Proof. by left. Qed.

Lemma goaway_reacted p : reacted registry s GoAway_t 0 p (receive_goaway p (s, st)).
Proof using Hok Hc.
  unfold receive_goaway. destruct (GoAway_decode p) as [g | e] eqn:Hg.
  2: { apply reacted_violation; [done | unreacted | apply rejected_same | done]. }
  erewrite bind_Ok by reflexivity. do 2 erewrite bind_Ok by reflexivity. cbv beta.
  set (last := last_accepted_remote_stream_id g).
  match goal with |- context [ensure ?b _] => assert (b = true ↔ bounds_streams last s) as Hb;
    [by apply bounds_streams_spec | destruct b eqn:E] end; cbn [ensure].
  2: { apply reacted_violation; [done | | apply rejected_same | done]. intros ? ? Hr. inversion Hr; subst.
       all: try by rewrite was_created_zero in *.
       match goal with Hd : GoAway_decode p = Ok ?x, Ha : bounds_streams _ _ |- _ =>
         assert (x = g) as -> by congruence; by apply Hb in Ha end. }
  pose proof (proj1 Hb eq_refl) as Hall. erewrite bind_Ok by reflexivity.
  erewrite bind_Ok by reflexivity. cbv beta.
  rewrite (bind_Ok _ _ _ tt (noted g s, st)).
  2: { unfold noted. by destruct (bool_decide (code (diagnostic g) ≠ NoError)). }
  do 2 erewrite bind_Ok by reflexivity. cbv beta.
  destruct (noted_same g s) as (Es & Ei & Hn1 & Hn2 & Hn3). rewrite Hc in Hn1.
  set (outcome := OutFailed (mkFailure Peer FcRefused)). cbn [snd fst].
  match goal with |- context [terminate_all ?l outcome] =>
    destruct (terminate_all_drop l outcome (noted g s) st) as [st1 Et];
    assert (foldl (drop_stream outcome) (noted g s) l = refuse_above last (noted g s)) as Ef end.
  { unfold refuse_above. by rewrite Es, Ei. }
  rewrite Ef in Et. rewrite Et.
  pose proof (re_goaway registry s p g Hg Hall) as Hr. fold last in Hr.
  destruct (refuse_above_same last (noted g s)) as (Hc2 & Hg2 & Ha2).
  rewrite Hn1 in Hc2. rewrite Hn2 in Hg2. rewrite Hn3 in Ha2. set (s2 := refuse_above last (noted g s)) in *.
  destruct (goaway_sent s) eqn:Hgs.
  - rewrite drain_sent by done. by eapply reacted_answered.
  - assert (goaway_payload NoError s2 = goaway_payload NoError s) as Hp by (unfold goaway_payload; by rewrite Ha2).
    destruct (drain_cases SrNormal s2 st1 Hc2 Hg2) as [(r & st' & ->) | (st' & ->)].
    + eapply reacted_answered; [exact Hr |]. exists r. unfold announced. cbn [goaway_code]. by rewrite Hp.
    + by eapply reacted_unanswered.
Qed.

Lemma ping_reacted kind p : kind = Ping_t ∨ kind = Pong_t → reacted registry s kind 0 p (receive_ping kind p (s, st)).
Proof using Hok Hc.
  intros Hk. unfold receive_ping, PingToken_decode. destruct (N.eqb_spec (len p) 8) as [Hl | Hl].
  2: { apply reacted_violation; [done | | apply rejected_same | done]. destruct Hk as [-> | ->]; unreacted. }
  erewrite bind_Ok by reflexivity. unfold PingToken_encode. destruct Hk as [-> | ->]; cbn [bool_decide decide].
  - rewrite bool_decide_true by done. rewrite frame_framed; [| by rewrite Hl | done]. erewrite bind_Ok by reflexivity.
    pose proof (re_ping registry s p Hl) as Hr.
    destruct (queue_cases Pong_t 0 p s st) as [(r & st' & ->) | (st' & ->)].
    + eapply reacted_answered; [exact Hr |]. by exists r.
    + by eapply reacted_unanswered.
  - rewrite bool_decide_false by done. erewrite bind_Ok by reflexivity. cbv beta.
    destruct (pings s !! p) as [[started deadline] |] eqn:Hp.
    2: { eapply reacted_answered; [by apply re_pong_unknown | done]. }
    set (s1 := set_pings (delete p (pings s)) s). rewrite (bind_Ok _ _ _ tt (s1, st)) by done.
    erewrite bind_Ok by reflexivity. cbv beta.
    destruct (now s) as [n |] eqn:Hn; [destruct (N.le_gt_cases started n) as [Hle | Hlt] |].
    + rewrite (bind_Ok _ _ _ (n - started) (s1, st)).
      2: { change (now s1) with (now s). rewrite Hn. unfold lift. cbn. unfold Instant_checked_duration_since.
           by rewrite (proj2 (N.leb_le started n)). }
      eapply reacted_answered; [by eapply re_pong | done].
    + rewrite (bind_Err _ _ _ SeProtocol (s1, st)).
      2: { change (now s1) with (now s). rewrite Hn. unfold lift. cbn. unfold Instant_checked_duration_since.
           by rewrite (proj2 (N.leb_gt started n)). }
      apply reacted_violation; [done | unreacted | right; by split_and! | done].
    + rewrite (bind_Err _ _ _ SeProtocol (s1, st)).
      2: { change (now s1) with (now s). by rewrite Hn. }
      apply reacted_violation; [done | unreacted | right; by split_and! | done].
Qed.

Lemma error_reacted p : reacted registry s Error_t 0 p
  ((error ← lift (map_err (λ _, SeProtocol) (ErrorPayload_decode p));
    perform (Session_close (Some (mkFailure Peer (failure_code (code error)))) None)) (s, st)).
Proof using Hok Hc.
  destruct (ErrorPayload_decode p) as [d | e] eqn:Hd.
  - erewrite bind_Ok by reflexivity. unfold perform, modify.
    destruct (close_open (Some (mkFailure Peer (failure_code (code d)))) None s st Hc) as (s' & st' & -> & [-> | (? & ? & ? & _)]); [| done].
    eapply reacted_answered; [by apply re_connection_error | done].
  - apply reacted_violation; [done | unreacted | apply rejected_same | done].
Qed.

(** *** Frames of a live stream *)

Section live.
Context (id : N) (state : StreamState) (Hcr : was_created (ids s) id = true) (Hs : streams s !! id = Some state).

Lemma fail_stream_reacted kind p wire cause : violates id state s kind p wire cause → wire ≠ NoError →
  reacted registry s kind id p (fail_stream id wire cause (s, st)).
Proof using Hok Hc Hcr Hs.
  intros Hv Hw. unfold fail_stream.
  destruct (terminate_live id (OutFailed (mkFailure Local cause)) state s st Hs) as [st1 Ht].
  set (s1 := terminated id state (OutFailed (mkFailure Local cause)) s) in *.
  rewrite (bind_Ok _ _ _ tt (s1, st1)) by (unfold perform, modify; by rewrite Ht).
  pose proof (re_failed registry s kind id p state wire cause Hcr Hs Hv) as Hr.
  destruct (refuse_cases id wire s1 st1 Hw) as [(r & st' & ->) | (st' & ->)].
  - eapply reacted_answered; [exact Hr |]. by exists r.
  - by eapply reacted_unanswered.
Qed.

Lemma end_reacted p : reacted registry s End_t id p (receive_end id p (s, st)).
Proof using Hok Hc Hcr Hs.
  unfold receive_end. erewrite bind_Ok by reflexivity. cbv beta. rewrite Hs. erewrite bind_Ok by reflexivity.
  destruct (negb (is_empty p) || negb (remote_open state)) eqn:Hb.
  - apply fail_stream_reacted; [| done]. apply vi_end. apply orb_true_iff in Hb as [Hb | Hb%negb_true_iff]; [left | by right].
    by intros ->.
  - apply orb_false_iff in Hb as [Hp Hr%negb_false_iff]. destruct p; [| done].
    pose proof (re_end registry s id state Hcr Hs Hr) as H. cbv zeta in H.
    do 2 erewrite bind_Ok by reflexivity. cbn [snd fst].
    match goal with |- reacted _ _ _ _ _ (on_session (complete id) (?a, _)) => set (s1 := a) end.
    assert (complete id s1 = if local_end_written state then finished id
      (mkStreamState (ss_handle state) (local_open state) false (local_end_written state)) OutCompleted s1 else s1) as E.
    { unfold complete, s1, push_event. cbn [streams set_streams set_events]. rewrite lookup_insert_eq. cbn. by destruct (local_end_written state). }
    unfold on_session, modify. rewrite E. eapply reacted_answered; [exact H | done].
Qed.

Lemma data_reacted p : reacted registry s Data_t id p (receive_data id p (s, st)).
Proof using Hok Hc Hcr Hs.
  unfold receive_data. erewrite bind_Ok by reflexivity. cbv beta. rewrite Hs. erewrite bind_Ok by reflexivity.
  destruct (remote_open state) eqn:Hr; cbn [negb].
  2: { apply fail_stream_reacted; [| done]. apply vi_data. by left. }
  destruct (is_empty p || (MAX_PAYLOAD_BYTES <? len p)) eqn:Hl.
  { apply fail_stream_reacted; [| done]. apply vi_data. right. intros H%between_len. congruence. }
  apply between_len in Hl. erewrite bind_Ok by reflexivity. cbv beta. fold (max_buffered s).
  destruct (N.ltb_spec (max_buffered s) (buffered id (events s) + len p)) as [Hb | Hb].
  - apply fail_stream_reacted; [| done]. by apply vi_flood.
  - eapply reacted_answered; [by eapply re_data | done].
Qed.

Lemma abort_reacted kind p : kind = Cancel_t ∨ kind = Error_t → reacted registry s kind id p
  ((d ← lift (map_err (λ _, SeProtocol) (ErrorPayload_decode p));
    perform (terminate id (peer_outcome kind (code d)))) (s, st)).
Proof using Hok Hc Hcr Hs.
  intros Hk. destruct (ErrorPayload_decode p) as [d | e] eqn:Hd.
  - erewrite bind_Ok by reflexivity. unfold perform, modify.
    destruct (terminate_live id (peer_outcome kind (code d)) state s st Hs) as [st1 ->].
    eapply reacted_answered; [by eapply re_aborted | done].
  - apply reacted_violation; [done | | apply rejected_same | done]. destruct Hk as [-> | ->]; unreacted.
Qed.
End live.

Lemma open_reacted id p : reacted registry s Open_t id p (receive_open id p registry (s, st)).
Proof using Hok Hc.
  unfold receive_open. destruct (accept id (ids s)) as [res ds] eqn:Ha.
  rewrite (bind_Ok _ _ _ res (set_ids ds s, st)) by (unfold on_ids; by rewrite Ha).
  destruct res as [[] | e].
  2: { apply accept_Err in Ha as Hds. rewrite Hds. replace (set_ids (ids s) s) with s by by destruct s.
       apply reacted_violation; [done | unreacted | apply rejected_same | done]. }
  assert (id ≠ 0) as Hz by (eapply consumed_positive; [by apply session_ok_positive | by left]).
  do 2 erewrite bind_Ok by reflexivity. cbv beta.
  change (goaway_sent (set_ids ds s) || bool_decide (is_Some (peer_goaway (set_ids ds s)))) with (draining s).
  assert (∀ wire, refuses registry p s wire → wire ≠ NoError →
    reacted registry s Open_t id p (refuse id wire (set_ids ds s, st))) as Hrefuse.
  { intros wire Hw Hn. pose proof (re_refused registry s id p ds wire Ha Hw) as Hr.
    destruct (refuse_cases id wire (set_ids ds s) st Hn) as [(r & st' & ->) | (st' & ->)].
    - eapply reacted_answered; [exact Hr |]. by exists r.
    - by eapply reacted_unanswered. }
  destruct (draining s) eqn:Hd; [apply Hrefuse; [by apply rf_draining | done] |].
  erewrite bind_Ok by reflexivity. cbv beta.
  change (streams_per_connection (limits (resources (set_ids ds s)))) with (max_streams s).
  change (streams (set_ids ds s)) with (streams s).
  destruct (N.leb_spec (max_streams s) (N.of_nat (size (streams s)))) as [Hm | Hm].
  { apply Hrefuse; [by apply rf_count | done]. }
  destruct (Open_decode p) as [o | e] eqn:Ho; [| apply Hrefuse; [by eapply rf_payload | done]].
  destruct (resolve registry o) as [owner |] eqn:Hw; [| apply Hrefuse; [by eapply rf_protocol | done]].
  erewrite bind_Ok by (by apply add_eq). eapply reacted_answered; [by eapply re_opened | done].
Qed.

Lemma stream_reacted kind id p : (kind ≠ Open_t → was_created (ids s) id = true ∧ is_Some (streams s !! id)) →
  reacted registry s kind id p (receive_stream kind id p registry (s, st)).
Proof using Hok Hc.
  intros H. unfold receive_stream.
  destruct (decide (kind = Open_t)) as [-> | Hn].
  { rewrite !bool_decide_false by (try done; by intros [? | ?]). cbn [andb negb]. rewrite ?bool_decide_false by tauto. apply open_reacted. }
  destruct (H Hn) as [Hcr [state Hs]]. assert (id ≠ 0) as Hz by (intros ->; by rewrite was_created_zero in Hcr).
  apply N.eqb_neq in Hz. rewrite Hz. cbn [negb]. rewrite andb_true_r.
  case_bool_decide as Hk; [by eapply abort_reacted |].
  case_bool_decide as Hk2; [subst; by eapply end_reacted |].
  case_bool_decide as Hk3; [subst; by eapply data_reacted |].
  rewrite bool_decide_true by done. apply reacted_violation; [done | | apply rejected_same | done]. 
  unreacted. all: tauto.
Qed.

Lemma parts_reacted kind id p : reacted registry s kind id p (receive_parts kind id p registry (s, st)).
Proof using Hok Hc.
  unfold receive_parts. destruct (bool_decide (kind = GoAway_t) && (id =? 0)) eqn:H1.
  { apply andb_true_iff in H1 as [->%bool_decide_eq_true ->%N.eqb_eq]. apply goaway_reacted. }
  destruct (bool_decide (kind = Ping_t ∨ kind = Pong_t) && (id =? 0)) eqn:H2.
  { apply andb_true_iff in H2 as [Hk%bool_decide_eq_true ->%N.eqb_eq]. by apply ping_reacted. }
  destruct (bool_decide (kind = Error_t) && (id =? 0)) eqn:H3.
  { apply andb_true_iff in H3 as [->%bool_decide_eq_true ->%N.eqb_eq]. apply error_reacted. }
  destruct (bool_decide (kind ≠ Open_t) && negb (id =? 0)) eqn:H4.
  - apply andb_true_iff in H4 as [Hk%bool_decide_eq_true Hz]. erewrite bind_Ok by reflexivity. cbv beta.
    destruct (was_created (ids s) id) eqn:Hcr; cbn [ensure].
    2: { apply reacted_violation; [done | | apply rejected_same | done]. apply negb_true_iff, N.eqb_neq in Hz. unreacted. }
    do 2 erewrite bind_Ok by reflexivity. cbv beta. destruct (decide (is_Some (streams s !! id))) as [Hs | Hs];
      [rewrite bool_decide_true by done; by apply stream_reacted | rewrite bool_decide_false by done].
    apply eq_None_not_Some in Hs. eapply reacted_answered; [by apply re_ended_before | done].
  - destruct (decide (kind = Open_t)) as [-> | Hk]; [by apply stream_reacted |]. rewrite bool_decide_true in H4 by done.
    apply negb_false_iff, N.eqb_eq in H4 as ->. rewrite !andb_true_r in *.
    apply bool_decide_eq_false in H1, H2, H3. unfold receive_stream. rewrite andb_false_r.
    assert (∀ e, e ≠ SeCapacity → reacted registry s kind 0 p (Err e, (s, st))) as Herr.
    { intros e He. apply reacted_violation; [done | unreacted; tauto | apply rejected_same | done]. }
    case_bool_decide; [| case_bool_decide; [| rewrite bool_decide_true by done; by apply Herr]].
    + unfold receive_end. erewrite bind_Ok by reflexivity. cbv beta. rewrite (ok_zero s Hok). by apply Herr.
    + unfold receive_data. erewrite bind_Ok by reflexivity. cbv beta. rewrite (ok_zero s Hok). by apply Herr.
Qed.
End reactions.

Lemma receive_performs f registry t s st :
  session_ok s → performing (SReceive f registry t) s (Session_receive f registry t (s, st)).
Proof.
  intros Hok. unfold Session_receive. apply run_read. destruct (closed s) eqn:Hc.
  { apply performs_does. exact (does_receive_closed s f registry t Hc). }
  do 2 erewrite bind_Ok by reflexivity. rewrite tick_ticked.
  assert (closed (ticked t s) = false) as Hc1 by done.
  assert (session_ok (ticked t s)) as Hok1.
  { rewrite <- tick_ticked. eapply steps_ok; [by apply tick_steps | done]. }
  apply run_read. change (event_limit (ticked t s)) with (event_limit s).
  destruct (event_limit s <=? len (events (ticked t s))) eqn:Hl.
  { apply N.leb_le in Hl. unfold mbind at 1 3, M_bind at 1 3, perform, modify.
    destruct (close_open (Some (mkFailure Local FcResourceLimit)) None (ticked t s) st Hc1) as (s' & st' & -> & [-> | (? & ? & ? & _)]); [| done].
    apply performs_does. exact (does_receive_full s f registry t Hc Hl). }
  apply N.leb_gt in Hl. apply performs_does.
  match goal with |- context [call ?m] => assert (∃ st1, call m (ticked t s, st) = (Ok (payload (verified f)), (ticked t s, st1))) as [st1 E] end.
  { unfold call, VerifiedFrame_into_payload. by eexists. }
  rewrite (bind_Ok _ _ _ _ _ E).
  pose proof (parts_reacted registry (ticked t s) st1 Hok1 Hc1 (frame_type (header (verified f)))
    (stream_id (header (verified f))) (payload (verified f))) as H. inversion H as [s2 a s' st' Hr Ha E2 | s2 a st' Hr Hc2 E2 | e s2 st' He Hn Hr Hc2 E2].
  - erewrite bind_Ok by (unfold try_; rewrite <- E2; reflexivity). by eapply does_receive.
  - erewrite bind_Ok by (unfold try_; rewrite <- E2; reflexivity). unfold close_on, perform, modify. cbn [bool_decide].
    rewrite bool_decide_true by done. erewrite bind_Ok by reflexivity.
    destruct (close_open (Some (mkFailure Local FcResourceLimit)) (Some ResourceLimit) s2 st' Hc2) as (s' & st2 & E3 & Hp).
    rewrite E3. by eapply does_receive_unanswered.
  - erewrite bind_Ok by (unfold try_; rewrite <- E2; reflexivity). unfold close_on, perform, modify. cbn [bool_decide].
    rewrite bool_decide_false by done. erewrite bind_Ok by reflexivity.
    destruct (close_open (Some (mkFailure Local FcProtocolViolation)) (Some ProtocolError) s2 st' Hc2) as (s' & st2 & E3 & Hp).
    rewrite E3. by eapply does_receive_violation.
Qed.

Lemma exec_performs call s st :
  session_ok s → performs s call (sess_result call (s, st)) (sess_exec call (s, st)).1.
Proof.
  assert (∀ r : result SessionError unit, answer r = r) as Ha by (by intros [[] |]).
  intros Hok. destruct call; cbn [sess_result sess_exec fst snd].
  - by apply open_performs.
  - pose proof (send_performs owner stream data s st Hok) as H. by rewrite Ha in H.
  - pose proof (end_performs owner stream s st Hok) as H. by rewrite Ha in H.
  - pose proof (cancel_performs owner stream reason s st Hok) as H. by rewrite Ha in H.
  - pose proof (receive_performs f registry t s st Hok) as H. by rewrite Ha in H.
  - apply sent_performs.
  - pose proof (drain_performs reason s st) as H. by rewrite Ha in H.
  - pose proof (ping_performs token timeout t s st) as H. by rewrite Ha in H.
  - rewrite tick_ticked. apply performs_does, does_tick.
  - apply close_performs.
  - apply pop_outbound_performs.
  - apply pop_event_performs.
  - apply pop_stream_performs.
Qed.


(** A probe starts; data on a stream that was never opened is refused. *)
Definition demo_ping : sess_call := SPing (replicate 8 x00) 5 0.
Definition demo_send : sess_call := SSend 3 (mkStreamHandle 7 3 1) [x01].
