(* ===== verification/SessionProps.v ===== *)
(** * Session properties

    The consumer's view of a session: the log of every event it ever queued.
    Each stream's events follow one lifecycle, the connection's events are
    framed by authentication and closure, and the queues are bounded. *)

From S2P Require Import Prelude Bytes Header Control OpenCodec Api Resources Framing.
From S2P Require Import Integrity StreamIds Registry Session SessionSteps.

#[local] Open Scope N_scope.

(** ** The lifecycle a stream's consumer relies on *)

Inductive phase : Type :=
| Fresh
| Live (h : StreamHandle) (remote_open : bool)
| Done.

(** One event's effect on the phase of stream [id]; [None] is a violation. *)
Definition advance (id : N) (p : option phase) (e : Event) : option phase :=
  match stream_of e with
  | None => p
  | Some h =>
    if decide (wire_id h = id) then
      match e, p with
      | StreamOpened _ _ _, Some Fresh => Some (Live h true)
      | Data _ _, Some (Live h' true) => if decide (h = h') then p else None
      | RemoteEnd _, Some (Live h' true) => if decide (h = h') then Some (Live h false) else None
      | StreamClosed _ outcome, Some (Live h' remote) =>
        if decide (h = h' ∧ (outcome = OutCompleted → remote = false)) then Some Done else None
      | _, _ => None
      end
    else p
  end.
Definition phase_of (id : N) (log : list Event) : option phase := foldl (advance id) (Some Fresh) log.

Lemma phase_of_snoc id log e : phase_of id (log ++ [e]) = advance id (phase_of id log) e.
Proof. unfold phase_of. by rewrite foldl_app. Qed.

Lemma advance_other id p e :
  (∀ h, stream_of e = Some h → wire_id h ≠ id) → advance id p e = p.
Proof.
  intros H. unfold advance. destruct (stream_of e) as [h |]; [| done].
  rewrite decide_False; [done |]. by apply H.
Qed.

(** Events a running session may queue. *)
Definition plain (e : Event) : bool :=
  match e with
  | IncomingConnection _ | Authenticated _ | ConnectionClosed _ _ | ListenerClosed _ _ => false
  | _ => true
  end.

Definition log_shape (log : list Event) (cl : bool) (ctx : PeerContext) (hd : ConnectionHandle) : Prop :=
  ∃ mid, Forall (λ e, plain e = true) mid ∧
    if cl then ∃ f, log = Authenticated ctx :: mid ++ [ConnectionClosed (handle_id hd) f]
    else log = Authenticated ctx :: mid.

Record inv (log : list Event) (sts : gmap N StreamState) (ds : StreamIds) (cl : bool)
    (pgs : gmap bytes (Instant * Instant)) (hd : ConnectionHandle) (ctx : PeerContext) : Prop := {
  inv_ids : ∃ n m, ids_wf ds n m;
  inv_live : ∀ id state, sts !! id = Some state →
    phase_of id log = Some (Live (ss_handle state) (remote_open state)) ∧
    wire_id (ss_handle state) = id ∧ sh_connection (ss_handle state) = handle_id hd;
  inv_none : ∀ id, sts !! id = None → phase_of id log = Some Fresh ∨ phase_of id log = Some Done;
  inv_new : ∀ id, was_created ds id = false → phase_of id log = Some Fresh;
  inv_shape : log_shape log cl ctx hd;
  inv_closed : cl = true → sts = ∅ ∧ pgs = ∅;
}.

Abbreviation sinv log s := (inv log (streams s) (ids s) (closed s) (pings s) (handle s) (context s)).

(** ** Single updates *)

Lemma log_shape_snoc log e ctx hd :
  log_shape log false ctx hd → plain e = true → log_shape (log ++ [e]) false ctx hd.
Proof.
  intros (mid & Hm & ->) He. exists (mid ++ [e]). split; [| done].
  apply Forall_app. split; [done | by constructor].
Qed.

(** An event about no stream. *)
Lemma inv_note log sts ds pgs pgs' hd ctx e :
  inv log sts ds false pgs hd ctx → plain e = true → stream_of e = None →
  inv (log ++ [e]) sts ds false pgs' hd ctx.
Proof.
  intros [H1 H2 H3 H4 H5 H6] Hp He.
  assert (∀ id, phase_of id (log ++ [e]) = phase_of id log) as Hs.
  { intros id. rewrite phase_of_snoc. apply advance_other. by rewrite He. }
  split; try done.
  - intros id state. rewrite Hs. apply H2.
  - intros id. rewrite Hs. apply H3.
  - intros id. rewrite Hs. apply H4.
  - by apply log_shape_snoc.
Qed.

Lemma inv_pings log sts ds pgs pgs' hd ctx :
  inv log sts ds false pgs hd ctx → inv log sts ds false pgs' hd ctx.
Proof. intros [H1 H2 H3 H4 H5 H6]. by split. Qed.

(** An event about a live stream that leaves it live. *)
Lemma inv_progress log sts ds pgs hd ctx e id state state' :
  inv log sts ds false pgs hd ctx → plain e = true → sts !! id = Some state →
  ss_handle state' = ss_handle state → stream_of e = Some (ss_handle state) →
  advance id (Some (Live (ss_handle state) (remote_open state))) e =
    Some (Live (ss_handle state) (remote_open state')) →
  inv (log ++ [e]) (<[id := state']> sts) ds false pgs hd ctx.
Proof.
  intros [H1 H2 H3 H4 H5 H6] Hp Hst Hh He Ha. destruct (H2 _ _ Hst) as (Hph & Hw & Hc).
  assert (∀ id', id' ≠ id → phase_of id' (log ++ [e]) = phase_of id' log) as Hs.
  { intros id' Hne. rewrite phase_of_snoc. apply advance_other. intros h. rewrite He.
    intros [= <-]. congruence. }
  split; try done.
  - intros id' state0 [[-> <-] | [Hne Hl]]%lookup_insert_Some.
    + rewrite phase_of_snoc, Hph, Ha, Hh. done.
    + rewrite Hs by done. by apply H2.
  - intros id' [Hl Hne]%lookup_insert_None. rewrite Hs by done. by apply H3.
  - intros id' Hn. destruct (decide (id' = id)) as [-> |]; [| rewrite Hs by done; by apply H4].
    specialize (H4 _ Hn). congruence.
  - by apply log_shape_snoc.
Qed.

(** A live stream's direction flags that the consumer does not see. *)
Lemma inv_flags log sts ds cl pgs hd ctx id state lo le :
  inv log sts ds cl pgs hd ctx → sts !! id = Some state →
  inv log (<[id := mkStreamState (ss_handle state) lo (remote_open state) le]> sts) ds cl pgs hd ctx.
Proof.
  intros [H1 H2 H3 H4 H5 H6] Hst. split; try done.
  - intros id' state0 [[-> <-] | [Hne Hl]]%lookup_insert_Some; [| by apply H2].
    by apply (H2 _ _ Hst).
  - intros id' [Hl Hne]%lookup_insert_None. by apply H3.
  - intros Hc. destruct (H6 Hc) as [-> _]. by rewrite lookup_empty in Hst.
Qed.

(** The terminal event of a live stream. *)
Lemma inv_terminal log sts ds pgs hd ctx id state outcome :
  inv log sts ds false pgs hd ctx → sts !! id = Some state →
  (outcome = OutCompleted → remote_open state = false) →
  inv (log ++ [StreamClosed (ss_handle state) outcome]) (delete id sts) ds false pgs hd ctx.
Proof.
  intros [H1 H2 H3 H4 H5 H6] Hst Ho. destruct (H2 _ _ Hst) as (Hph & Hw & Hc).
  assert (∀ id', id' ≠ id →
    phase_of id' (log ++ [StreamClosed (ss_handle state) outcome]) = phase_of id' log) as Hs.
  { intros id' Hne. rewrite phase_of_snoc. apply advance_other. intros h [= <-]. congruence. }
  split; try done.
  - intros id' state0 [Hne Hl]%lookup_delete_Some. rewrite Hs by done. by apply H2.
  - intros id'. rewrite lookup_delete_None. destruct (decide (id = id')) as [<- | Hne].
    + intros _. right. rewrite phase_of_snoc, Hph. cbn. rewrite decide_True by done.
      by rewrite decide_True.
    + intros [? | Hl]; [done |]. rewrite Hs by done. by apply H3.
  - intros id' Hn. destruct (decide (id' = id)) as [-> |]; [| rewrite Hs by done; by apply H4].
    specialize (H4 _ Hn). congruence.
  - by apply log_shape_snoc.
Qed.

(** Consuming an identifier, and then opening its stream. *)
Lemma inv_consume log sts ds ds' cl pgs hd ctx :
  inv log sts ds cl pgs hd ctx → (∃ n m, ids_wf ds' n m) →
  (∀ id, was_created ds' id = false → was_created ds id = false) →
  inv log sts ds' cl pgs hd ctx.
Proof. intros [H1 H2 H3 H4 H5 H6] Hwf Hsub. split; try done. auto. Qed.

Lemma inv_opened log sts ds pgs hd ctx id h p :
  inv log sts ds false pgs hd ctx → phase_of id log = Some Fresh → was_created ds id = true →
  wire_id h = id → sh_connection h = handle_id hd →
  inv (log ++ [StreamOpened ctx h p]) (<[id := mkStreamState h true true false]> sts)
    ds false pgs hd ctx.
Proof.
  intros [H1 H2 H3 H4 H5 H6] Hph Hc Hw Hh.
  assert (∀ id', id' ≠ id → phase_of id' (log ++ [StreamOpened ctx h p]) = phase_of id' log) as Hs.
  { intros id' Hne. rewrite phase_of_snoc. apply advance_other. intros h' [= <-]. congruence. }
  split; try done.
  - intros id' state0 [[-> <-] | [Hne Hl]]%lookup_insert_Some.
    + rewrite phase_of_snoc, Hph. cbn. by rewrite decide_True.
    + rewrite Hs by done. by apply H2.
  - intros id' [Hl Hne]%lookup_insert_None. rewrite Hs by done. by apply H3.
  - intros id' Hn. rewrite Hs by congruence. by apply H4.
  - by apply log_shape_snoc.
Qed.

(** ** Closing *)

Lemma inv_notes log sts ds pgs hd ctx es :
  inv log sts ds false pgs hd ctx → Forall (λ e, plain e = true ∧ stream_of e = None) es →
  inv (log ++ es) sts ds false pgs hd ctx.
Proof.
  intros Hi Hes. revert log Hi. induction Hes as [| e es [Hp He] _ IH]; intros log Hi.
  { by rewrite app_nil_r. }
  rewrite cons_middle, app_assoc. apply IH. by eapply inv_note.
Qed.

Lemma inv_close_streams ds pgs hd ctx (taken : gmap N StreamState) f ks : ∀ log sts,
  inv log sts ds false pgs hd ctx → NoDup ks → (∀ k, k ∈ ks → sts !! k = taken !! k) →
  inv (log ++ omap (λ id, state ← taken !! id; Some (StreamClosed (ss_handle state) (OutFailed f))) ks)
    (foldl (λ m k, delete k m) sts ks) ds false pgs hd ctx.
Proof.
  induction ks as [| k ks IH]; intros log sts Hi Hd Hk; cbn [omap list_omap foldl].
  { by rewrite app_nil_r. }
  apply NoDup_cons in Hd as [Hnk Hd]. pose proof (Hk k (list_elem_of_here k ks)) as Hkk.
  assert (∀ k', k' ∈ ks → delete k sts !! k' = taken !! k') as Hk'.
  { intros k' Hin. rewrite lookup_delete_ne by (intros <-; done). apply Hk. by apply elem_of_cons; right. }
  destruct (taken !! k) as [state |]; cbn.
  - rewrite cons_middle, app_assoc. apply IH; [| done | done]. by apply inv_terminal.
  - apply IH; [| done | done]. by rewrite delete_id.
Qed.

Lemma delete_keys {V} (m : gmap N V) ks :
  (∀ k, is_Some (m !! k) → k ∈ ks) → foldl (λ m k, delete k m) m ks = ∅.
Proof.
  revert m. induction ks as [| k ks IH]; intros m Hk; cbn.
  - apply map_empty. intros i. destruct (m !! i) eqn:E; [| done].
    specialize (Hk i ltac:(by eauto)). by apply elem_of_nil in Hk.
  - apply IH. intros k' [v Hv]. apply lookup_delete_Some in Hv as [Hne Hv].
    specialize (Hk k' ltac:(by eauto)). apply elem_of_cons in Hk as [-> | ?]; done.
Qed.

Lemma inv_closing log ds pgs hd ctx f :
  inv log ∅ ds false pgs hd ctx →
  inv (log ++ [ConnectionClosed (handle_id hd) f]) ∅ ds true ∅ hd ctx.
Proof.
  intros [H1 H2 H3 H4 H5 H6].
  assert (∀ id, phase_of id (log ++ [ConnectionClosed (handle_id hd) f]) = phase_of id log) as Hs.
  { intros id. rewrite phase_of_snoc. by apply advance_other. }
  split; try done.
  - intros id _. rewrite Hs. by apply H3.
  - intros id. rewrite Hs. apply H4.
  - destruct H5 as (mid & Hm & ->). exists mid. split; [done |]. by exists f.
Qed.

(** ** Steps keep the invariant *)

Lemma consumed_consumes log sts ds cl pgs hd ctx id ds' :
  inv log sts ds cl pgs hd ctx →
  accept id ds = (Ok tt, ds') ∨ allocate ds = (Ok id, ds') → consumes ds ds' id.
Proof.
  intros Hi [Ha | Ha]; destruct (inv_ids _ _ _ _ _ _ _ Hi) as (n & m & Hwf).
  - by eapply accept_consumes.
  - by eapply allocate_consumes.
Qed.

Lemma inv_closing_all log s failure :
  closed s = false → sinv log s →
  ∃ new, events (closing failure s) = events s ++ new ∧ sinv (log ++ new) (closing failure s).
Proof.
  intros Hc Hi. rewrite Hc in Hi. eexists. split; [reflexivity |]. cbn.
  set (failure' := match failure with Some f => Some f | None => drain_failure s end).
  rewrite !app_assoc. apply (inv_closing _ _ (pings s)).
  rewrite <- (delete_keys (streams s) (stream_keys (streams s))).
  2:{ intros k Hk. by apply keys_elem. }
  apply inv_close_streams; [| apply keys_NoDup | done].
  apply inv_notes; [done |].
  apply Forall_forall. intros e Hin. apply list_elem_of_fmap in Hin as (t & -> & _). done.
Qed.

(** The log is extended by what the step queues. *)
Lemma step_inv s s' log :
  step s s' → sinv log s → ∃ new, events s' = events s ++ new ∧ sinv (log ++ new) s'.
Proof.
  intros Hs Hi.
  assert (events s = events s ++ [] ∧ sinv (log ++ []) s) as Hsame by by rewrite !app_nil_r.
  destruct Hs as [| | | | | | | id state lo le Hl | id state outcome Hc Hl Ho | id ds Hc Ha
    | id ds owner protocol Hc Hd Hsz Hroom Ha Hz h | id state data Hc Hl Hr Hlen Hbuf Hroom
    | id state Hc Hl Hr Hroom | token t d Hc Hn Hsz | token probe r Hc Hl | token Hc | failure Hc];
    try (exists []; exact Hsame).
  - exists []. split; [apply Hsame |]. rewrite app_nil_r. by apply inv_flags.
  - eexists [_]. split; [done |]. cbn. rewrite Hc in *. apply inv_terminal; [done | done |].
    intros E. by apply Ho.
  - exists []. split; [apply Hsame |]. rewrite app_nil_r. cbn.
    destruct (consumed_consumes _ _ _ _ _ _ _ id ds Hi (or_introl Ha)) as (_ & _ & Hwf & Hsub).
    by eapply inv_consume.
  - destruct (consumed_consumes _ _ _ _ _ _ _ id ds Hi Ha) as (Hnew & Hcr & Hwf & Hsub).
    rewrite Hc in Hi. eexists [StreamOpened (context s) h protocol].
    assert (inv (log ++ [StreamOpened (context s) h protocol])
      (<[id := mkStreamState h true true false]> (streams s)) ds false (pings s) (handle s) (context s)) as G.
    { apply inv_opened; [by eapply inv_consume | | done | done | done].
      by apply (inv_new _ _ _ _ _ _ _ Hi). }
    unfold note_accepted. destruct (is_local ds id); cbn; rewrite Hc; done.
  - eexists [_]. split; [done |]. cbn. rewrite Hc in *.
    rewrite <- (insert_id (streams s) id state) by done.
    destruct (inv_live _ _ _ _ _ _ _ Hi _ _ Hl) as (_ & Hw & _).
    eapply inv_progress; [done | done | done | done | done |].
    unfold advance. cbn [stream_of]. rewrite decide_True by done. rewrite Hr. by rewrite decide_True.
  - eexists [_]. split; [done |]. cbn. rewrite Hc in *.
    destruct (inv_live _ _ _ _ _ _ _ Hi _ _ Hl) as (_ & Hw & _).
    eapply inv_progress; [done | done | done | done | done |].
    unfold advance. cbn [stream_of]. rewrite decide_True by done. rewrite Hr. by rewrite decide_True.
  - exists []. split; [apply Hsame |]. rewrite app_nil_r. cbn. rewrite Hc in *. by eapply inv_pings.
  - eexists [_]. split; [done |]. cbn. rewrite Hc in *. by eapply inv_note.
  - exists []. split; [apply Hsame |]. rewrite app_nil_r. cbn. rewrite Hc in *. by eapply inv_pings.
  - by apply inv_closing_all.
Qed.

Lemma steps_inv s s' : steps s s' → ∀ log,
  sinv log s → ∃ new, events s' = events s ++ new ∧ sinv (log ++ new) s'.
Proof.
  induction 1 as [s | s s1 s2 Hs _ IH]; intros log Hi.
  { exists []. by rewrite !app_nil_r. }
  destruct (step_inv _ _ _ Hs Hi) as (n1 & E1 & Hi1). destruct (IH _ Hi1) as (n2 & E2 & Hi2).
  exists (n1 ++ n2). by rewrite E2, E1, !app_assoc.
Qed.

Lemma sinv_ok log s : sinv log s → session_ok s.
Proof.
  intros Hi. split; [apply (inv_ids _ _ _ _ _ _ _ Hi) | apply (inv_closed _ _ _ _ _ _ _ Hi) |].
  destruct (streams s !! 0) as [state |] eqn:Hl; [| done].
  pose proof (proj1 (inv_live _ _ _ _ _ _ _ Hi _ _ Hl)) as Hph.
  by rewrite (inv_new _ _ _ _ _ _ _ Hi 0) in Hph.
Qed.

(** ** Runs *)

(** The events a call appended to the queue; a delivery appends nothing. *)
Definition emitted (call : sess_call) (x : SessSt) : list Event :=
  if is_pop call then [] else drop (length (events x.1)) (events (sess_exec call x).1).

Lemma exec_inv call x log : sinv log x.1 → sinv (log ++ emitted call x) (sess_exec call x).1.
Proof.
  intros Hi. destruct x as [s st]. unfold emitted. destruct (is_pop call) eqn:Hp.
  - rewrite app_nil_r. destruct (exec_pop call s st Hp) as [(evs & out & last & -> & _) _]. exact Hi.
  - pose proof (exec_steps call s st (sinv_ok _ _ Hi) Hp) as Hs.
    destruct (steps_inv _ _ Hs _ Hi) as (new & E & Hi'). cbn [fst]. by rewrite E, drop_app_length.
Qed.

(** Sessions as they run: attached to the instance's budgets, then called in any
    order, with other components using the shared store in between. *)
Inductive reachable : list Event → SessSt → Prop :=
| reach_new h role local peer r st :
    let s := set_resources r (with_handle h role local peer st).1 in
    reachable (events s) (s, (with_handle h role local peer st).2)
| reach_call log x call :
    reachable log x → reachable (log ++ emitted call x) (sess_exec call x)
| reach_store log s st st' :
    reachable log (s, st) → reachable log (s, st').

Lemma reachable_inv log x : reachable log x → sinv log x.1.
Proof.
  induction 1 as [h role local peer r st s | log x call _ IH | log s st st' _ IH].
  - cbn. split.
    + exists 0%nat, 0%nat. apply StreamIds_new_wf.
    + intros id state Hs. by rewrite lookup_empty in Hs.
    + by left.
    + done.
    + exists []. by split.
    + done.
  - by apply exec_inv.
  - done.
Qed.

(** C37: every consumer sees one well-formed lifecycle per stream.  However
    calls, frames and deliveries interleave, the events a session ever queues
    for a stream are: it is opened once; then data; then possibly one remote end
    and no data after it; then one terminal outcome and nothing after it; all
    for the same capability, and completion is only reported after the remote
    end.  The live streams are exactly the opened ones without an outcome. *)
Theorem stream_lifecycle (log : list Event) (x : SessSt) :
  reachable log x → ∀ id,
  match streams x.1 !! id with
  | Some state => phase_of id log = Some (Live (ss_handle state) (remote_open state))
  | None => phase_of id log = Some Fresh ∨ phase_of id log = Some Done
  end.
Proof.
  intros Hr id. pose proof (reachable_inv _ _ Hr) as Hi.
  destruct (streams x.1 !! id) as [state |] eqn:Hs.
  - by apply (inv_live _ _ _ _ _ _ _ Hi).
  - by apply (inv_none _ _ _ _ _ _ _ Hi).
Qed.

(** Closure is final and complete.  A session's log starts with the
    authentication of its peer; while the session is open it never reports
    closure; once it is closed the log ends with exactly one connection closure,
    after which nothing is ever queued, and every stream that was ever opened
    has received its terminal outcome. *)
Theorem closure_final (log : list Event) (x : SessSt) :
  reachable log x →
  log_shape log (closed x.1) (context x.1) (handle x.1) ∧
  (closed x.1 = true → ∀ id, phase_of id log = Some Fresh ∨ phase_of id log = Some Done).
Proof.
  intros Hr. pose proof (reachable_inv _ _ Hr) as Hi. split; [by apply (inv_shape _ _ _ _ _ _ _ Hi) |].
  intros Hc id. destruct (inv_closed _ _ _ _ _ _ _ Hi Hc) as [E _].
  apply (inv_none _ _ _ _ _ _ _ Hi). by rewrite E.
Qed.

(** ** A run: the peer opens a stream, sends data and ends it *)

Fixpoint sess_run (calls : list sess_call) (y : list Event * SessSt) : list Event * SessSt :=
  match calls with
  | [] => y
  | call :: calls => sess_run calls (y.1 ++ emitted call y.2, sess_exec call y.2)
  end.

Lemma sess_run_reachable calls : ∀ y, reachable y.1 y.2 → reachable (sess_run calls y).1 (sess_run calls y).2.
Proof.
  induction calls as [| call calls IH]; intros y Hy; [done |]. cbn [sess_run]. apply IH. cbn.
  by apply reach_call.
Qed.

Definition peer_frame (kind : FrameType) (id : N) (p : bytes) : sess_call :=
  SReceive (mkVerifiedFrame (mkWireFrame None (mkFrameHeader kind id (len p)) p (Some [])))
    (mkRegistry [(chat, 3)]) 1.
Definition peer_opens : sess_call := peer_frame Open_t 2 (Open_encode (mkOpen (protocol_id chat) 1)).
Definition demo_start : list Event * SessSt := (events demo_session.1, demo_session).
Definition demo_run : list Event * SessSt :=
  sess_run [peer_opens; peer_frame Data_t 2 [x01; x02]; peer_frame End_t 2 []] demo_start.

Lemma demo_start_reachable : reachable demo_start.1 demo_start.2.
Proof. apply (reach_new (mkConnectionHandle 7) Initiator [x0a] [x0b] demo_store.1 demo_store.2). Qed.
Lemma demo_reachable : reachable demo_run.1 demo_run.2.
Proof. apply sess_run_reachable, demo_start_reachable. Qed.

Lemma stream_lifecycle_witness :
  phase_of 2 demo_run.1 = Some (Live (mkStreamHandle 7 3 2) false) ∧
  match streams demo_run.2.1 !! 2 with
  | Some state => phase_of 2 demo_run.1 = Some (Live (ss_handle state) (remote_open state))
  | None => phase_of 2 demo_run.1 = Some Fresh ∨ phase_of 2 demo_run.1 = Some Done
  end.
Proof.
  split; [vm_compute; reflexivity |].
  exact (stream_lifecycle demo_run.1 demo_run.2 demo_reachable 2).
Defined.

Lemma closure_final_witness :
  let y := sess_run [SClose None None] demo_run in
  closed y.2.1 = true ∧ phase_of 2 y.1 = Some Done ∧
  log_shape y.1 (closed y.2.1) (context y.2.1) (handle y.2.1).
Proof.
  intros y. split; [vm_compute; reflexivity |]. split; [vm_compute; reflexivity |].
  refine (proj1 (closure_final y.1 y.2 _)). apply sess_run_reachable, demo_reachable.
Defined.
