(* ===== verification/SessionBounds.v ===== *)
(** * Session bounds and draining

    Every queue a peer can fill is bounded by the configured limits, with the
    results of the consumer's own probes counted apart, and a session that has
    begun to drain admits no further stream. *)

From S2P Require Import Prelude Bytes Header Control OpenCodec Api Resources Framing.
From S2P Require Import Integrity StreamIds Registry Session SchedulerProps SessionSteps SessionProps SessionMachine.

#[local] Open Scope N_scope.

(** ** Queue bounds *)

Lemma buffered_app id l k : buffered id (l ++ k) = buffered id l + buffered id k.
Proof.
  induction l as [| e l IH]; [done |]. cbn [app].
  change (data_len id e + buffered id (l ++ k) = data_len id e + buffered id l + buffered id k). lia.
Qed.

Lemma buffered_one id e : buffered id [e] = data_len id e.
Proof. unfold buffered. cbn [foldr]. lia. Qed.

Lemma buffered_sublist id l k : l `sublist_of` k → buffered id l ≤ buffered id k.
Proof. unfold buffered. induction 1 as [| e l k _ IH | e l k _ IH]; cbn [foldr]; lia. Qed.

Lemma buffered_omap id {A} (f : A → option Event) l :
  (∀ a e, f a = Some e → data_len id e = 0) → buffered id (omap f l) = 0.
Proof.
  intros H. induction l as [| a l IH]; [done |]. cbn [omap list_omap].
  destruct (f a) as [e |] eqn:E; [| done].
  change (data_len id e + buffered id (omap f l) = 0). by rewrite IH, (H _ _ E).
Qed.

(** Events that are not results of the consumer's own probes. *)
Definition is_probe (e : Event) : bool := match e with PingFinished _ _ _ => true | _ => false end.
Definition unprobed (l : list Event) : N := len (filter (λ e, is_probe e = false) l).

Lemma unprobed_app l k : unprobed (l ++ k) = unprobed l + unprobed k.
Proof. unfold unprobed. by rewrite filter_app, len_app. Qed.
Lemma unprobed_one e : unprobed [e] = if is_probe e then 0 else 1.
Proof. unfold unprobed. rewrite filter_cons, filter_nil. by destruct (is_probe e). Qed.
Lemma unprobed_le l : unprobed l ≤ len l.
Proof. unfold unprobed, len. pose proof (length_filter (λ e, is_probe e = false) l). lia. Qed.
Lemma unprobed_sublist l k : l `sublist_of` k → unprobed l ≤ unprobed k.
Proof.
  intros H. unfold unprobed, len.
  enough (length (filter (λ e, is_probe e = false) l) ≤ length (filter (λ e, is_probe e = false) k))%nat by lia.
  induction H as [| e l k H IH | e l k H IH]; [done | |]; rewrite !filter_cons; case_decide; cbn; lia.
Qed.

Record bounded (s : Session) : Prop := {
  bounded_bytes : ∀ id, buffered id (events s) ≤ max_buffered s;
  bounded_streams : N.of_nat (size (streams s)) ≤ max_streams s;
  bounded_pings : (size (pings s) ≤ 64)%nat;
  bounded_events : unprobed (events s) + N.of_nat (size (streams s)) + (if closed s then 0 else 1)
    ≤ event_limit s + max_streams s + 1;
}.

(** An event that adds no data and replaces a stream, or nothing. *)
Lemma bounded_push (s : Session) (e : Event) (sts : gmap N StreamState) (pgs : gmap bytes (Instant * Instant)) :
  bounded s → (∀ id, data_len id e = 0) →
  (size sts ≤ size (streams s))%nat → (size pgs ≤ size (pings s))%nat →
  is_probe e = true ∨ (size sts < size (streams s))%nat ∨ len (events s) < event_limit s →
  bounded (push_event e (set_pings pgs (set_streams sts s))).
Proof.
  intros [H1 H2 H3 H4] Hd Hs Hp He. split.
  - intros id. cbn. rewrite buffered_app, buffered_one, Hd. specialize (H1 id).
    change (max_buffered _) with (max_buffered s). lia.
  - cbn. change (max_streams _) with (max_streams s). lia.
  - cbn. lia.
  - cbn. rewrite unprobed_app, unprobed_one. change (event_limit _) with (event_limit s).
    change (max_streams _) with (max_streams s). pose proof (unprobed_le (events s)).
    destruct (is_probe e), (closed s), He as [He | [He | He]]; try done; lia.
Qed.

Lemma bounded_closing s failure : closed s = false → bounded s → bounded (closing failure s).
Proof.
  intros Hc [H1 H2 H3 H4]. split.
  - intros id. cbn. rewrite !buffered_app, buffered_one. cbn [data_len]. rewrite buffered_omap.
    + enough (∀ f (l : list bytes), buffered id (map (λ t, PingFinished (handle_id (handle s)) t (Err f)) l) = 0) as ->.
      { specialize (H1 id). change (max_buffered _) with (max_buffered s). lia. }
      intros f l. induction l as [| t l IH]; [done |].
      unfold buffered in *. cbn [map foldr data_len]. by rewrite IH.
    + intros a e. destruct (streams s !! a); [| done]. by intros [= <-].
  - cbn. change (max_streams _) with (max_streams s). rewrite map_size_empty. lia.
  - cbn. rewrite map_size_empty. lia.
  - cbn. rewrite !unprobed_app, map_size_empty, Hc in *. change (event_limit _) with (event_limit s).
    change (max_streams _) with (max_streams s).
    match goal with |- context [unprobed (map ?f ?l)] => assert (unprobed (map f l) = 0) as -> end.
    { induction (ping_keys (pings s)) as [| t l IH]; [done |]. unfold unprobed in *. cbn [map].
      by rewrite filter_cons_False. }
    match goal with |- context [unprobed (omap ?f ?l)] =>
      pose proof (unprobed_le (omap f l)) as Ho; pose proof (length_omap_le f l) as Hl end.
    unfold stream_keys in *. rewrite keys_length in Hl. unfold len in Ho.
    rewrite unprobed_one. cbn [is_probe]. lia.
Qed.

Lemma size_insert_same {V} (m : gmap N V) k (v w : V) :
  m !! k = Some v → size (<[k := w]> m) = size m.
Proof. intros H. rewrite map_size_insert. by rewrite H. Qed.
Lemma size_delete_present `{Countable K} {V} (m : gmap K V) k (v : V) :
  m !! k = Some v → S (size (delete k m)) = size m.
Proof.
  intros Hk. rewrite map_size_delete, Hk. assert (size m ≠ 0)%nat; [| lia].
  intros E. apply map_size_empty_inv in E. subst m. by rewrite lookup_empty in Hk.
Qed.
Lemma size_delete_le `{Countable K} {V} (m : gmap K V) k : (size (delete k m) ≤ size m)%nat.
Proof. rewrite map_size_delete. destruct (m !! k); cbn; lia. Qed.

Lemma step_bounded s s' :
  step s s' → (∀ id state, streams s !! id = Some state → wire_id (ss_handle state) = id) →
  bounded s → bounded s'.
Proof.
  intros Hs Hw Hb. pose proof Hb as [H1 H2 H3 H4].
  destruct Hs as [| | | | | | | id state lo le Hl | id state outcome Hc Hl Ho | id ds Hc Ha
    | id ds owner protocol Hc Hd Hsz Hroom Ha Hz h | id state data Hc Hl Hr Hlen Hbuf Hroom
    | id state Hc Hl Hr Hroom | token t d Hc Hn Hsz | token probe r Hc Hl | token Hc | failure Hc];
    try (split; [exact H1 | exact H2 | exact H3 | exact H4]).
  - split; cbn; rewrite ?(size_insert_same _ _ _ _ Hl); done.
  - pose proof (size_delete_present _ _ _ Hl).
    apply (bounded_push s _ (delete id (streams s)) (pings s)); [done | done | lia | done | lia].
  - assert (size (<[id := mkStreamState h true true false]> (streams s)) ≤ S (size (streams s)))%nat as Hi.
    { rewrite map_size_insert. destruct (streams s !! id); cbn; lia. }
    pose proof (unprobed_le (events s)).
    assert (bounded (push_event (StreamOpened (context s) h protocol)
      (set_streams (<[id := mkStreamState h true true false]> (streams s)) s))) as G.
    { split; cbn; rewrite ?unprobed_app; try done.
      - intros id'. rewrite buffered_app, buffered_one. cbn. specialize (H1 id').
        change (max_buffered _) with (max_buffered s). lia.
      - change (max_streams _) with (max_streams s). lia.
      - change (event_limit _) with (event_limit s). change (max_streams _) with (max_streams s).
        rewrite unprobed_one, Hc. cbn [is_probe]. lia. }
    unfold note_accepted. destruct (is_local ds id); destruct G as [G1 G2 G3 G4];
      (split; [exact G1 | exact G2 | exact G3 | exact G4]).
  - pose proof (unprobed_le (events s)). split; cbn; rewrite ?unprobed_app; try done.
    + intros id'. rewrite buffered_app, buffered_one. cbn. change (max_buffered _) with (max_buffered s).
      destruct (N.eqb_spec (wire_id (ss_handle state)) id') as [<- |]; [| specialize (H1 id'); lia].
      by rewrite (Hw _ _ Hl).
    + change (event_limit _) with (event_limit s). change (max_streams _) with (max_streams s).
      rewrite unprobed_one, Hc. cbn [is_probe]. lia.
  - apply (bounded_push s _ (<[id := _]> (streams s)) (pings s)); try done.
    + by rewrite (size_insert_same _ _ _ _ Hl).
    + by right; right.
  - split; cbn; try done. rewrite map_size_insert, Hn. lia.
  - pose proof (size_delete_present _ _ _ Hl).
    apply (bounded_push s _ (streams s) (delete token (pings s))); try done; [lia | by left].
  - split; cbn; try done. pose proof (size_delete_le (pings s) token). lia.
  - by apply bounded_closing.
Qed.

Lemma steps_bounded s s' : steps s s' → ∀ log, sinv log s → bounded s → bounded s'.
Proof.
  induction 1 as [| s s1 s2 Hs _ IH]; intros log Hi Hb; [done |].
  destruct (step_inv _ _ _ Hs Hi) as (new & _ & Hi'). apply (IH _ Hi').
  apply (step_bounded s); [done | | done].
  intros id state Hl. by apply (inv_live _ _ _ _ _ _ _ Hi).
Qed.

Lemma delivered_bounded s s' : delivered s s' → bounded s → bounded s'.
Proof.
  intros (evs & out & last & -> & He & _) [H1 H2 H3 H4]. split; cbn; try done.
  - intros id. specialize (H1 id). pose proof (buffered_sublist id _ _ He).
    change (max_buffered _) with (max_buffered s). lia.
  - pose proof (unprobed_sublist _ _ He). change (event_limit _) with (event_limit s).
    change (max_streams _) with (max_streams s). lia.
Qed.

Lemma event_limit_large s : 130 ≤ event_limit s.
Proof. unfold event_limit, saturating_add, saturating_mul. lia. Qed.

Lemma reachable_bounded log x : reachable log x → bounded x.1.
Proof.
  induction 1 as [h role local peer r st s | log x call Hr IH | log s st st' _ IH]; [| | done].
  - pose proof (event_limit_large s). split; cbn; try done.
    + intros id. rewrite buffered_one. cbn. lia.
    + rewrite map_size_empty. lia.
    + rewrite map_size_empty. lia.
    + rewrite map_size_empty, unprobed_one. cbn [is_probe]. lia.
  - destruct x as [s st]. pose proof (reachable_inv _ _ Hr) as Hi. destruct (is_pop call) eqn:Hp.
    + eapply delivered_bounded; [| exact IH]. by apply exec_pop.
    + eapply steps_bounded; [| exact Hi | exact IH]. apply exec_steps; [| done].
      by eapply sinv_ok.
Qed.

(** ** Results of probes

    No limit is compared when a probe expires, so the results a consumer leaves
    in the queue are as many as the probes it started, and no fewer. *)

Definition probes (l : list Event) : N := len (filter (λ e, is_probe e = true) l).
(** Probes that are outstanding or whose result is undelivered. *)
Definition weight (s : Session) : N := probes (events s) + N.of_nat (size (pings s)).

Lemma probes_app l k : probes (l ++ k) = probes l + probes k.
Proof. unfold probes. by rewrite filter_app, len_app. Qed.
Lemma probes_one e : probes [e] = if is_probe e then 1 else 0.
Proof. unfold probes. rewrite filter_cons, filter_nil. by destruct (is_probe e). Qed.
Lemma probes_nil l : Forall (λ e, is_probe e = false) l → probes l = 0.
Proof.
  induction 1 as [| e l He _ IH]; [done |]. unfold probes in *. by rewrite filter_cons_False by congruence.
Qed.
Lemma probes_all l : Forall (λ e, is_probe e = true) l → probes l = len l.
Proof.
  induction 1 as [| e l He _ IH]; [done |]. unfold probes, len in *. rewrite filter_cons_True by done. cbn in *. lia.
Qed.
Lemma len_split l : len l = probes l + unprobed l.
Proof.
  unfold probes, unprobed, len. induction l as [| e l IH]; [done |]. rewrite !filter_cons.
  destruct (is_probe e); cbn [length]; repeat case_decide; try done; cbn [length]; lia.
Qed.
Lemma probes_sublist l k : l `sublist_of` k → probes l ≤ probes k.
Proof.
  intros H. unfold probes, len.
  enough (length (filter (λ e, is_probe e = true) l) ≤ length (filter (λ e, is_probe e = true) k))%nat by lia.
  induction H as [| e l k H IH | e l k H IH]; [done | |]; rewrite !filter_cons; case_decide; cbn; lia.
Qed.

Ltac weigh := unfold weight; cbn; rewrite ?probes_app, ?probes_one; cbn [is_probe]; lia.
Lemma weight_event e s : is_probe e = false → weight (push_event e s) = weight s.
Proof. intros He. unfold weight. cbn. rewrite probes_app, probes_one, He. lia. Qed.
Lemma weight_terminated id state outcome s : weight (terminated id state outcome s) = weight s.
Proof. unfold terminated, finished. by rewrite weight_event. Qed.
Lemma weight_drop outcome ids : ∀ s, weight (foldl (drop_stream outcome) s ids) = weight s.
Proof.
  induction ids as [| id ids IH]; intros s; [done |]. cbn [foldl]. rewrite IH. unfold drop_stream.
  destruct (streams s !! id); [by apply weight_terminated | done].
Qed.
Lemma weight_finished result token s v : pings s !! token = Some v → weight (probed_out result token s) = weight s.
Proof.
  intros Hp. unfold weight, probed_out. cbn. rewrite probes_app, probes_one. cbn [is_probe].
  pose proof (size_delete_present _ _ _ Hp). lia.
Qed.
Lemma weight_expired ts : ∀ s, NoDup ts → (∀ t, t ∈ ts → is_Some (pings s !! t)) → weight (foldl expire s ts) = weight s.
Proof.
  induction ts as [| t ts IH]; intros s Hd Hin; [done |]. apply NoDup_cons in Hd as [Hn Hd].
  destruct (Hin t (list_elem_of_here t ts)) as [v Hv]. cbn [foldl]. rewrite IH; [by eapply weight_finished | done |].
  intros t' Ht'. cbn. rewrite lookup_delete_ne by (intros ->; done). apply Hin. by apply elem_of_cons; right.
Qed.
Lemma weight_ticked t s : weight (ticked t s) = weight s.
Proof.
  rewrite <- tick_ticked. unfold tick. rewrite weight_expired; [done | apply NoDup_filter, keys_NoDup |].
  intros t' [_ Ht']%list_elem_of_filter. by apply keys_elem in Ht'.
Qed.
Lemma weight_closing failure s : weight (closing failure s) = weight s.
Proof.
  unfold weight, closing. cbn. rewrite !probes_app, probes_one, map_size_empty. cbn [is_probe].
  rewrite (probes_all (map _ _)) by (apply Forall_fmap, Forall_true; done).
  rewrite (probes_nil (omap _ _)).
  - unfold len. rewrite length_map. unfold ping_keys. rewrite keys_length. lia.
  - apply Forall_forall. intros e (id & _ & He)%list_elem_of_omap. destruct (streams s !! id); [| done]. by injection He as <-.
Qed.
Lemma weight_responded response s s' : responded response s s' → weight s' = weight s.
Proof. intros [-> | (code & r & _ & _ & ->)]; done. Qed.
Lemma weight_answered answer s s' : answered answer s s' → weight s' = weight s.
Proof.
  destruct answer as [[[kind id] p] |]; [| by intros ->]. intros [r ->]. by destruct (bool_decide (kind = GoAway_t)).
Qed.
Lemma weight_opened ds id owner protocol s : weight (opened ds id owner protocol s) = weight s.
Proof. unfold opened. rewrite weight_event by done. unfold note_accepted. by destruct (is_local ds id). Qed.
Lemma weight_reacts registry s kind id p s2 a : reacts registry s kind id p s2 a → weight s2 = weight s.
Proof.
  intros H. destruct H; try done.
  - unfold refuse_above. rewrite weight_drop. unfold noted. by destruct (bool_decide _).
  - by eapply weight_finished.
  - apply weight_closing.
  - apply weight_terminated.
  - subst s1 state'. destruct (local_end_written state); weigh.
  - by rewrite weight_event.
  - apply weight_terminated.
  - apply weight_opened.
Qed.

(** Only a probe the consumer starts adds to them. *)
Definition starts (call : sess_call) (r : result SessionError unit) : N :=
  match call with SPing _ _ _ => if is_ok r then 1 else 0 | _ => 0 end.
Lemma does_weight s call r s' : does s call r s' → weight s' ≤ weight s + starts call r.
Proof.
  intros H. destruct H; cbn [starts is_ok]; rewrite ?N.add_0_r;
    try (by apply N.eq_le_incl).
  - apply N.eq_le_incl. exact (weight_opened ds id owner protocol s).
  - apply N.eq_le_incl. exact (weight_terminated (wire_id stream) state (OutCancelled Local reason) s).
  - apply N.eq_le_incl. by rewrite weight_closing, weight_terminated.
  - unfold weight. cbn. rewrite map_size_insert. destruct (pings s !! token); cbn; lia.
  - apply N.eq_le_incl. subst state'. destruct (_ && _); weigh.
  - apply N.eq_le_incl, weight_ticked.
  - apply N.eq_le_incl. erewrite weight_responded by done. apply weight_closing.
  - apply N.eq_le_incl. erewrite weight_answered, weight_reacts by done. apply weight_ticked.
  - apply N.eq_le_incl. erewrite weight_responded, weight_closing, weight_reacts by done. apply weight_ticked.
  - erewrite weight_responded, weight_closing by done. rewrite <- (weight_ticked t s).
    match goal with H : rejected _ _ _ _ |- _ => destruct H as [-> | (_ & _ & ->)] end; [done |].
    unfold weight. cbn [pings events set_pings]. pose proof (size_delete_le (pings (ticked t s)) (payload (verified f))). lia.
  - apply N.eq_le_incl. by rewrite weight_closing, weight_ticked.
  - unfold weight. cbn. match goal with H : events s = _ |- _ => rewrite H end.
    change (e :: rest) with ([e] ++ rest). rewrite probes_app. lia.
  - unfold weight. cbn. match goal with H : events s = _ |- _ => rewrite H end.
    change (e :: post) with ([e] ++ post). rewrite !probes_app. lia.
Qed.
Lemma exec_weight call x : session_ok x.1 →
  weight (sess_exec call x).1 ≤ weight x.1 + starts call (sess_result call x).
Proof.
  destruct x as [s st]. intros Hok. pose proof (exec_performs call s st Hok) as H.
  destruct H as [r s' Hd | e Hr Hn | r s' Hr Hd Hg]; [by apply does_weight | |]; cbn [fst]; lia.
Qed.

(** A run, with the number of probes the consumer has started. *)
Inductive probed : N → list Event → SessSt → Prop :=
| probed_new h role local peer r st :
    let s := set_resources r (with_handle h role local peer st).1 in
    probed 0 (events s) (s, (with_handle h role local peer st).2)
| probed_call n log x call :
    probed n log x → probed (n + starts call (sess_result call x)) (log ++ emitted call x) (sess_exec call x)
| probed_store n log s st st' : probed n log (s, st) → probed n log (s, st').

Lemma probed_reachable n log x : probed n log x → reachable log x.
Proof. induction 1; [apply reach_new | by apply reach_call | by eapply reach_store]. Qed.
Lemma reachable_probed log x : reachable log x → ∃ n, probed n log x.
Proof.
  induction 1 as [h role local peer r st s | log x call _ [n IH] | log s st st' _ [n IH]].
  - exists 0. apply probed_new.
  - eexists. by apply probed_call.
  - exists n. by eapply probed_store.
Qed.
Lemma probed_weight n log x : probed n log x → weight x.1 ≤ n.
Proof.
  induction 1 as [h role local peer r st s | n log x call H IH | n log s st st' _ IH]; [done | | done].
  etrans; [apply exec_weight; eapply sinv_ok, reachable_inv, probed_reachable, H | lia].
Qed.

(** *** Probes that expire one after the other *)

Definition probe_token : bytes := replicate 8 x00.
(** Between two probes: nothing outstanding, nothing unwritten. *)
Record resting (n : N) (s : Session) : Prop := {
  rest_open : closed s = false;
  rest_pings : pings s = ∅;
  rest_outbound : outbound s = [];
  rest_resources : resources s = resources demo_session.1;
  rest_results : probes (events s) = n;
}.

Lemma probe_starts s n t : resting n s → t + 1 < instant_limit →
  ∃ r st', ping probe_token 1 t (s, demo_session.2) =
    (Ok tt, (set_pings {[probe_token := (t, t + 1)]} (set_outbound [framed Ping_t 0 probe_token r] s), st')).
Proof.
  intros [Hc Hp Ho Hr _] Ht. unfold ping. erewrite bind_Ok by reflexivity. rewrite Hc. do 2 erewrite bind_Ok by reflexivity.
  cbv beta. rewrite Hp. erewrite bind_Ok by reflexivity. erewrite bind_Ok by reflexivity.
  assert (Instant_checked_add t 1 = Some (t + 1)) as ->.
  { unfold Instant_checked_add, checked_add. destruct (N.ltb_spec (t + 1) instant_limit); [done | lia]. }
  erewrite bind_Ok by reflexivity. rewrite frame_framed by done. erewrite bind_Ok by reflexivity.
  destruct (queue_cases Ping_t 0 probe_token s demo_session.2) as [(r & st' & E) | (st' & E)].
  - rewrite (bind_Ok _ _ _ _ _ E). exists r, st'. unfold on_session, modify, push_outbound.
    rewrite Ho. cbn [pings set_outbound]. by rewrite Hp.
  - exfalso. unfold queue, reserve_outbound in E. unfold_m. rewrite Hr in E. vm_compute in E. discriminate E.
Qed.

Lemma probe_expires s n t r : resting n s →
  resting (n + 1) (ticked (t + 1) (pop_outbound
    (set_pings {[probe_token := (t, t + 1)]} (set_outbound [framed Ping_t 0 probe_token r] s))).2).
Proof.
  intros [Hc Hp Ho Hr Hn]. set (s1 := set_pings _ _).
  destruct (next_output_progress s1) as (f & s2 & E); [done |]. unfold pop_outbound. rewrite E.
  apply next_output_Some in E as (pre & post & Eq & -> & _). cbn [snd].
  change (outbound s1) with [framed Ping_t 0 probe_token r] in Eq.
  assert (pre = [] ∧ post = []) as [-> ->] by (destruct pre as [| ? [|]]; by simplify_eq/=).
  set (s2 := set_outbound _ _).
  assert (pings (ticked (t + 1) s2) = ∅) as Ep.
  { cbn. apply map_eq. intros k. rewrite lookup_empty. apply map_lookup_filter_None. right.
    intros v [<- <-]%lookup_singleton_Some. cbn. lia. }
  split; [exact Hc | exact Ep | done | exact Hr |].
  pose proof (weight_ticked (t + 1) s2) as W. unfold weight in W. rewrite Ep, map_size_empty in W.
  change (pings s2) with ({[probe_token := (t, t + 1)]} : gmap bytes (Instant * Instant)) in W.
  rewrite map_size_singleton in W. change (events s2) with (events s) in W. lia.
Qed.

(** Each probe is written and released, and expires; nobody takes its result. *)
Lemma results_pile_up (n : nat) : N.of_nat n < instant_limit →
  ∃ log s, reachable log (s, demo_session.2) ∧ resting (N.of_nat n) s.
Proof.
  induction n as [| n IH]; intros Hn.
  { exists demo_start.1, demo_session.1. split; [apply demo_start_reachable | by split]. }
  destruct IH as (log & s & Hr & Hs); [lia |].
  destruct (probe_starts s _ (N.of_nat n) Hs ltac:(lia)) as (r & st' & E).
  apply (reach_call _ _ (SPing probe_token 1 (N.of_nat n))) in Hr. cbn [sess_exec] in Hr. rewrite E in Hr. cbn [snd] in Hr.
  apply (reach_call _ _ SPopOutbound) in Hr. cbn [sess_exec fst snd] in Hr.
  apply (reach_store _ _ _ demo_session.2) in Hr.
  apply (reach_call _ _ (STick (N.of_nat n + 1))) in Hr. cbn [sess_exec fst snd] in Hr. rewrite tick_ticked in Hr.
  do 2 eexists. split; [exact Hr |]. replace (N.of_nat (S n)) with (N.of_nat n + 1) by lia. by apply probe_expires.
Qed.

(** C38: what bounds a session's queues.  However frames, calls and deliveries
    interleave, and however slowly the consumer takes events: each stream's
    undelivered data stays within the configured bytes per stream; live streams
    stay within the configured count; at most 64 probes are outstanding; and the
    undelivered events other than results of probes stay within the event limit
    plus one terminal outcome per stream and one for the connection.  Results of
    probes come on top, and together with the outstanding ones they are at most
    as many as the probes the consumer itself has started: no frame of the peer
    adds to them.  That term is needed, since the event limit is not compared
    when a probe expires: a consumer that keeps probing under a limit of 138
    events and takes none reaches any number of them the clock can count. *)
Theorem queues_bounded :
  (∀ log x, reachable log x →
     (∀ id, buffered id (events x.1) ≤ max_buffered x.1) ∧
     N.of_nat (size (streams x.1)) ≤ max_streams x.1 ∧
     (size (pings x.1) ≤ 64)%nat ∧
     unprobed (events x.1) ≤ event_limit x.1 + max_streams x.1 + 1 ∧
     ∃ started, probed started log x) ∧
  (∀ started log x, probed started log x →
     reachable log x ∧
     probes (events x.1) + N.of_nat (size (pings x.1)) ≤ started ∧
     len (events x.1) ≤ event_limit x.1 + max_streams x.1 + 1 + started) ∧
  (∀ n, n < instant_limit → ∃ log x,
     reachable log x ∧ event_limit x.1 = 138 ∧ n ≤ len (events x.1)).
Proof.
  split_and!.
  - intros log x Hr. destruct (reachable_bounded _ _ Hr) as [H1 H2 H3 H4].
    split_and!; [done | done | done | lia | by apply reachable_probed].
  - intros n log x Hp. apply probed_reachable in Hp as Hr. apply probed_weight in Hp. unfold weight in Hp.
    destruct (reachable_bounded _ _ Hr) as [_ _ _ H4]. rewrite len_split. split_and!; [done | done | lia].
  - intros n Hn. destruct (results_pile_up (N.to_nat n)) as (log & s & Hr & Hs); [lia |].
    exists log, (s, demo_session.2). split; [done |]. cbn [fst]. destruct Hs as [_ _ _ Hres Hprobes]. split.
    + unfold event_limit. rewrite Hres. vm_compute. reflexivity.
    + rewrite len_split. lia.
Qed.

(** ** Draining *)

(** One thing that happens to a running session. *)
Inductive run1 : list Event * SessSt → list Event * SessSt → Prop :=
| run_call log x call : run1 (log, x) (log ++ emitted call x, sess_exec call x)
| run_store log s st st' : run1 (log, (s, st)) (log, (s, st')).

Definition is_opened (e : Event) : bool := match e with StreamOpened _ _ _ => true | _ => false end.

(** What draining fixes for good. *)
Record drained (s s' : Session) : Prop := {
  drained_still : draining s' = true;
  drained_accepted : accepted_remote s' = accepted_remote s;
  drained_peer : ∀ p, peer_goaway s = Some p → ∃ p', peer_goaway s' = Some p' ∧ p' ≤ p;
}.

Lemma drained_refl s : draining s = true → drained s s.
Proof. intros H. split; [done | done |]. intros p Hp. by exists p. Qed.

Lemma drained_trans s1 s2 s3 : drained s1 s2 → drained s2 s3 → drained s1 s3.
Proof.
  intros [A1 A2 A3] [B1 B2 B3]. split; [done | congruence |]. intros p Hp.
  destruct (A3 p Hp) as (p' & Hp' & ?). destruct (B3 p' Hp') as (p'' & ? & ?).
  exists p''. split; [done | lia].
Qed.

Lemma step_drained s s' :
  step s s' → draining s = true →
  drained s s' ∧ ∃ new, events s' = events s ++ new ∧ Forall (λ e, is_opened e = false) new.
Proof.
  intros Hs Hd. assert (∃ new, events s = events s ++ new ∧ Forall (λ e, is_opened e = false) new) as Hn.
  { exists []. by rewrite app_nil_r. }
  pose proof (drained_refl s Hd) as Hr.
  destruct Hs as [| | | | last Hl Hg Hp | | | | | |id ds owner protocol Hc Hd' Hsz Hroom Ha Hz h | | | | | | failure Hc];
    try (split; [destruct Hr; by split | first [exact Hn | eexists [_]; split; [reflexivity | by repeat constructor]]]).
  - split; [| exact Hn]. split; cbn; [| done |].
    + unfold draining. cbn. by rewrite orb_true_r.
    + intros p E. specialize (Hp p E). by exists last.
  - congruence.
  - split; [destruct Hr; by split |]. eexists. split; [reflexivity |].
    rewrite !Forall_app. split_and!; [| | by repeat constructor].
    + apply Forall_forall. intros e He. apply list_elem_of_fmap in He as (t & -> & _). done.
    + apply Forall_forall. intros e He. apply list_elem_of_omap in He as (id & _ & He).
      destruct (streams s !! id); [| done]. by injection He as <-.
Qed.

Lemma steps_drained s s' :
  steps s s' → draining s = true →
  drained s s' ∧ ∃ new, events s' = events s ++ new ∧ Forall (λ e, is_opened e = false) new.
Proof.
  induction 1 as [s | s s1 s2 Hs _ IH]; intros Hd.
  { split; [by apply drained_refl |]. exists []. by rewrite app_nil_r. }
  destruct (step_drained _ _ Hs Hd) as (H1 & n1 & E1 & F1).
  destruct (IH (drained_still _ _ H1)) as (H2 & n2 & E2 & F2).
  split; [by eapply drained_trans |]. exists (n1 ++ n2). rewrite E2, E1, app_assoc. split; [done |].
  by apply Forall_app.
Qed.

Lemma run1_drained log x b :
  run1 (log, x) b → sinv log x.1 → draining x.1 = true →
  sinv b.1 b.2.1 ∧ drained x.1 b.2.1 ∧
  ∃ new, b.1 = log ++ new ∧ Forall (λ e, is_opened e = false) new.
Proof.
  remember (log, x) as a eqn:Ea. intros Hr Hi Hd.
  destruct Hr as [log0 x0 call | log0 s st st']; injection Ea as -> <-; cbn [fst snd] in *.
  - split; [by apply exec_inv |]. destruct x0 as [s st]. unfold emitted.
    destruct (is_pop call) eqn:Hp; cbn [fst].
    + destruct (exec_pop call s st Hp) as [(evs & out & last & -> & _) _].
      split; [by destruct (drained_refl s Hd); split |]. exists []. by rewrite app_nil_r.
    + pose proof (exec_steps call s st (sinv_ok _ _ Hi) Hp) as Hs.
      destruct (steps_drained _ _ Hs Hd) as (H1 & new & E & F). split; [done |].
      exists new. by rewrite E, drop_app_length.
  - split; [done |]. split; [by apply drained_refl |]. exists []. by rewrite app_nil_r.
Qed.

(** Draining is final.  Once a session has sent or received GOAWAY, no
    later call or frame ever opens a stream, in either direction; the session
    keeps draining; the last accepted remote stream its GOAWAY names never
    changes; and the bound the peer announced never increases. *)
Theorem draining_final (log log' : list Event) (x x' : SessSt) :
  reachable log x → draining x.1 = true → rtc run1 (log, x) (log', x') →
  draining x'.1 = true ∧ accepted_remote x'.1 = accepted_remote x.1 ∧
  (∀ p, peer_goaway x.1 = Some p → ∃ p', peer_goaway x'.1 = Some p' ∧ p' ≤ p) ∧
  ∃ new, log' = log ++ new ∧ Forall (λ e, is_opened e = false) new.
Proof.
  intros Hr Hd Hs. pose proof (reachable_inv _ _ Hr) as Hi. clear Hr.
  remember (log, x) as a eqn:Ea. remember (log', x') as b eqn:Eb.
  revert log x Ea Hi Hd. induction Hs as [a | a c b Hac _ IH]; intros log x -> Hi Hd.
  { injection Eb as -> ->. split_and!; [done | done | intros p Hp; by exists p |].
    exists []. by rewrite app_nil_r. }
  destruct c as [log1 x1].
  destruct (run1_drained _ _ _ Hac Hi Hd) as (Hi1 & H1 & n1 & E1 & F1). cbn [fst snd] in *. subst log1.
  destruct (IH Eb _ x1 eq_refl Hi1 (drained_still _ _ H1)) as (A & B & P & n2 & -> & F2).
  split_and!; [done | rewrite B; apply H1 | |].
  - intros p Hp. destruct (drained_peer _ _ H1 p Hp) as (p1 & Hp1 & ?).
    destruct (P p1 Hp1) as (p2 & ? & ?). exists p2. split; [done | lia].
  - exists (n1 ++ n2). rewrite app_assoc. split; [done |]. by apply Forall_app.
Qed.

(** ** Witnesses *)

Lemma queues_bounded_witness :
  buffered 2 (events demo_run.2.1) = 2 ∧
  (∀ id, buffered id (events demo_run.2.1) ≤ max_buffered demo_run.2.1) ∧
  ∃ log x, reachable log x ∧ event_limit x.1 = 138 ∧ 1000000 ≤ len (events x.1).
Proof.
  split; [vm_compute; reflexivity |].
  split; [exact (proj1 (proj1 queues_bounded demo_run.1 demo_run.2 demo_reachable)) |].
  apply (proj2 (proj2 queues_bounded)). vm_compute. reflexivity.
Defined.

(** After a local drain the peer's next OPEN is refused, not opened. *)
Definition drain_run : list Event * SessSt := sess_run [SDrain SrNormal] demo_run.
Definition refused_run : list Event * SessSt :=
  sess_run [peer_frame Open_t 4 (Open_encode (mkOpen (protocol_id chat) 1))] drain_run.

Lemma draining_final_witness :
  draining refused_run.2.1 = true ∧ accepted_remote refused_run.2.1 = 2.
Proof.
  destruct (draining_final drain_run.1 refused_run.1 drain_run.2 refused_run.2) as (H1 & H2 & _).
  - apply sess_run_reachable, demo_reachable.
  - vm_compute. reflexivity.
  - apply rtc_once, run_call.
  - split; [exact H1 |]. rewrite H2. vm_compute. reflexivity.
Defined.
