(* ===== verification/SessionReservations.v ===== *)
(** * Session reservations

    Outbound capacity is owned linearly: each queued frame owns one reference
    to its lease, a call moves references between the store, the queue and its
    caller, and none is ever leaked or released twice. *)

From S2P Require Import Prelude Bytes Header Control OpenCodec Api Resources Framing.
From S2P Require Import Integrity StreamIds Registry Session SessionSteps.

#[local] Open Scope N_scope.

(** How many of the given owners name lease [r]. *)
Fixpoint count_owner (r : Reservation) (l : list Reservation) : nat :=
  match l with
  | [] => 0
  | x :: l => (if decide (x = r) then 1 else 0) + count_owner r l
  end.

Lemma count_owner_app r l k : count_owner r (l ++ k) = (count_owner r l + count_owner r k)%nat.
Proof. induction l as [| x l IH]; cbn; [done |]. rewrite IH. lia. Qed.

(** The owners in a queue. *)
Definition queue_owners (q : list WireFrame) : list Reservation := omap reservation q.

Lemma queue_owners_cons f q : queue_owners (f :: q) = option_list (reservation f) ++ queue_owners q.
Proof. unfold queue_owners. cbn. by destruct (reservation f). Qed.

Lemma queue_owners_filter r (keep : WireFrame → bool) q :
  count_owner r (queue_owners q) =
  (count_owner r (queue_owners (filter (λ f, keep f = true) q)) +
   count_owner r (queue_owners (filter (λ f, keep f = false) q)))%nat.
Proof.
  induction q as [| f q IH]; [done |]. rewrite !filter_cons.
  destruct (keep f) eqn:E; cbn [decide];
    [rewrite decide_True, decide_False by done | rewrite decide_False, decide_True by done];
    rewrite !queue_owners_cons, !count_owner_app, IH; lia.
Qed.

Lemma refs_of_drop_all r rs : ∀ st,
  refs_of (drop_all rs st) r = (refs_of st r - count_owner r rs)%nat.
Proof.
  induction rs as [| x rs IH]; intros st; cbn; [lia |].
  change (foldl _ (drop_reservation x st) rs) with (drop_all rs (drop_reservation x st)).
  rewrite IH, refs_of_drop. lia.
Qed.

Section issued.
Context (base : N).

(** The session's queue and the owners [ext] elsewhere account for every
    reference of every lease, and no id below [base] is issued again. *)
Definition balanced (ext : list Reservation) (x : SessSt) : Prop :=
  store_from base x.2 ∧
  ∀ r, refs_of x.2 r = (count_owner r ext + count_owner r (queue_owners (outbound x.1)))%nat.

Abbreviation keeps ext := (preserves (balanced ext)).

(** ** Primitive operations *)

Lemma keeps_read ext {A} (f : Session → A) : keeps ext (read f).
Proof. by intros [s st]. Qed.

Lemma keeps_session ext f : (∀ s, outbound (f s) = outbound s) → keeps ext (on_session f).
Proof. intros Hf [s st] [H1 H2]. split; [done |]. intros r. cbn. rewrite Hf. apply H2. Qed.

Lemma keeps_ids ext {A} (m : M StreamIds IdError A) : keeps ext (on_ids m).
Proof. intros [s st] H. unfold on_ids. by destruct (m (ids s)). Qed.

#[local] Hint Resolve keeps_read keeps_session keeps_ids : preserves.

Lemma reserve_balanced ext n x r x' :
  balanced ext x → reserve_outbound n x = (Ok r, x') →
  balanced (r :: ext) x' ∧ x'.1 = x.1.
Proof.
  destruct x as [s st]. unfold reserve_outbound, Resources_outbound. intros [H1 H2].
  destruct (reserve (outbound_counter (resources s)) n st) as [[r' |] st'] eqn:E; cbn; [| done].
  intros [= <- <-]. split; [| done]. split.
  - pose proof (reserve_from base (outbound_counter (resources s)) n st H1) as Hw. by rewrite E in Hw.
  - intros r. cbn. rewrite (refs_of_reserve _ _ _ _ _ _ (from_wf _ _ H1) E), H2. cbn. lia.
Qed.

Lemma reserve_failed ext n x e x' :
  balanced ext x → reserve_outbound n x = (Err e, x') → balanced ext x'.
Proof.
  destruct x as [s st]. unfold reserve_outbound, Resources_outbound. intros H.
  destruct (reserve _ n st) as [[r' |] st'] eqn:E; cbn; [done |]. intros [= _ <-].
  by apply reserve_None in E as ->.
Qed.

(** A reservation taken for the rest of a method. *)
Lemma keeps_reserve_bind ext {A} n (k : Reservation → SM A) :
  (∀ r x, balanced (r :: ext) x → balanced ext (k r x).2) → keeps ext (reserve_outbound n ≫= k).
Proof.
  intros Hk x Hx. destruct (reserve_outbound n x) as [[r | e] x'] eqn:E.
  - rewrite (bind_Ok _ _ _ _ _ E). apply Hk. by eapply reserve_balanced.
  - rewrite (bind_Err _ _ _ _ _ E). by eapply reserve_failed.
Qed.

Lemma push_balanced ext r f x :
  balanced (r :: ext) x →
  balanced ext (on_session (push_outbound (with_reservation (Some r) f)) x).2.
Proof.
  destruct x as [s st]. intros [H1 H2]. split; [done |]. intros r'. specialize (H2 r'). cbn in *.
  unfold queue_owners in *. rewrite omap_app, count_owner_app, H2. cbn. lia.
Qed.

Lemma drop_balanced ext r s st :
  balanced (r :: ext) (s, st) → balanced ext (s, drop_reservation r st).
Proof.
  intros [H1 H2]. split; [by apply drop_reservation_from |]. intros r'. specialize (H2 r'). cbn in *.
  rewrite refs_of_drop, H2. lia.
Qed.

Lemma drop_option_balanced ext r s st :
  balanced (option_list r ++ ext) (s, st) → balanced ext (s, drop_option r st).
Proof. destruct r as [r |]; cbn; [apply drop_balanced | done]. Qed.

Lemma retain_outbound_balanced ext keep x :
  balanced ext x → balanced ext (retain_outbound keep x).
Proof.
  destruct x as [s st]. intros [H1 H2]. split; [by apply drop_all_from |]. intros r.
  specialize (H2 r). cbn in *. rewrite refs_of_drop_all, H2, (queue_owners_filter r keep).
  unfold queue_owners. lia.
Qed.

(** ** Methods *)

Lemma keeps_queue ext f : keeps ext (queue f).
Proof. apply keeps_reserve_bind. intros r x Hx. by apply push_balanced. Qed.
#[local] Hint Resolve keeps_queue : preserves.

Lemma keeps_refuse ext id c : keeps ext (refuse id c).
Proof. unfold refuse. auto with preserves. Qed.

Lemma keeps_terminate ext id outcome x : balanced ext x → balanced ext (terminate id outcome x).
Proof.
  intros Hx. unfold terminate.
  pose proof (retain_outbound_balanced ext
    (λ f, negb (stream_id (header f) =? id) || bool_decide (frame_type (header f) = Open_t)) x Hx) as H.
  destruct (retain_outbound _ x) as [s st]. by destruct (streams s !! id).
Qed.

Lemma keeps_perform_terminate ext id outcome : keeps ext (perform (terminate id outcome)).
Proof. intros x. apply keeps_terminate. Qed.
#[local] Hint Resolve keeps_refuse keeps_perform_terminate : preserves.

Lemma keeps_terminate_all ext outcome refused : ∀ x,
  balanced ext x → balanced ext (terminate_all refused outcome x).
Proof.
  induction refused as [| id refused IH]; intros x Hx; [done |].
  unfold terminate_all in *. cbn [foldl]. by apply IH, keeps_terminate.
Qed.
Lemma keeps_perform_terminate_all ext outcome refused :
  keeps ext (perform (terminate_all refused outcome)).
Proof. intros x. apply keeps_terminate_all. Qed.

Lemma complete_outbound id s : outbound (complete id s) = outbound s.
Proof. unfold complete. by repeat case_match. Qed.

Lemma keeps_fail_stream ext id wire c : keeps ext (fail_stream id wire c).
Proof. unfold fail_stream. auto with preserves. Qed.

Lemma keeps_close ext failure response x :
  balanced ext x → balanced ext (Session_close failure response x).
Proof.
  destruct x as [s st]. intros Hx. unfold Session_close. destruct (closed s); [done |].
  set (y := push_event _ _).
  assert (balanced ext (y, drop_all (omap reservation (outbound s)) st)) as Hy.
  { destruct Hx as [H1 H2]. split; [by apply drop_all_from |]. intros r. specialize (H2 r). cbn in *.
    rewrite refs_of_drop_all, H2. unfold queue_owners. lia. }
  destruct response as [c |]; [| done]. destruct (ErrorPayload_new c []); [| done].
  destruct (frame _ _ _); [| done]. by apply (keeps_queue ext).
Qed.
Lemma keeps_perform_close ext failure response : keeps ext (perform (Session_close failure response)).
Proof. intros x. apply keeps_close. Qed.

Lemma keeps_drain ext reason : keeps ext (drain reason).
Proof. unfold drain. auto 12 with preserves. Qed.
#[local] Hint Resolve keeps_perform_terminate_all keeps_fail_stream keeps_perform_close
  keeps_drain : preserves.

Lemma keeps_send ext owner stream data : keeps ext (Session_send owner stream data).
Proof. unfold Session_send. auto 12 with preserves. Qed.

(** A method that ends by pushing a frame under a reservation it holds. *)
Lemma push_after ext {A} r f (m : SM A) x :
  keeps (r :: ext) m → is_ok (m x).1 = true → balanced (r :: ext) x →
  balanced ext ((m ≫= λ _, on_session (push_outbound (with_reservation (Some r) f))) x).2.
Proof.
  intros Hm Hok Hx. specialize (Hm x Hx). unfold mbind, M_bind.
  destruct (m x) as [[a | e] y]; [by apply push_balanced | done].
Qed.

Lemma keeps_end ext owner stream : keeps ext (Session_end owner stream).
Proof.
  unfold Session_end. repeat (apply preserves_bind; [solve [auto with preserves] | intros ?]).
  apply keeps_reserve_bind. intros r x Hx. apply push_after; [| by destruct x | done].
  by apply keeps_session.
Qed.

Lemma keeps_cancel ext owner stream reason : keeps ext (cancel owner stream reason).
Proof. unfold cancel. auto 20 with preserves. Qed.

Lemma keeps_goaway ext payload : keeps ext (receive_goaway payload).
Proof. unfold receive_goaway. auto 20 with preserves. Qed.

Lemma keeps_ping ext token timeout t : keeps ext (ping token timeout t).
Proof. unfold ping. auto 20 with preserves. Qed.

Lemma keeps_receive_ping ext kind payload : keeps ext (receive_ping kind payload).
Proof.
  unfold receive_ping. apply preserves_bind; [auto with preserves | intros token].
  apply preserves_if; [auto with preserves |]. apply preserves_bind; [auto with preserves | intros p].
  destruct (p !! PingToken_encode token) as [[started d] |]; auto 12 with preserves.
Qed.

Lemma keeps_add ext id owner protocol : keeps ext (add id owner protocol).
Proof. unfold add. auto 20 with preserves. Qed.

Lemma keeps_receive_data ext id payload : keeps ext (receive_data id payload).
Proof. unfold receive_data. auto 20 with preserves. Qed.

Lemma keeps_receive_end ext id payload : keeps ext (receive_end id payload).
Proof.
  unfold receive_end. repeat (apply preserves_bind; [solve [auto with preserves] | intros ?]).
  apply preserves_if; [auto with preserves |].
  apply preserves_bind; [by apply keeps_session | intros []].
  apply preserves_bind; [by apply keeps_session | intros []].
  apply keeps_session, complete_outbound.
Qed.

Lemma keeps_receive_open ext id payload registry : keeps ext (receive_open id payload registry).
Proof.
  unfold receive_open. apply preserves_bind; [auto with preserves | intros a].
  apply preserves_bind; [auto with preserves | intros []].
  apply preserves_bind; [auto with preserves | intros d]. apply preserves_if; [auto with preserves |].
  apply preserves_bind; [auto with preserves | intros full]. apply preserves_if; [auto with preserves |].
  destruct (Open_decode payload) as [sel |]; [| auto with preserves].
  destruct (resolve registry sel) as [owner |]; [| auto with preserves].
  apply preserves_bind; [apply keeps_add | auto with preserves].
Qed.
#[local] Hint Resolve keeps_goaway keeps_receive_ping keeps_receive_data keeps_receive_end
  keeps_receive_open : preserves.

Lemma keeps_receive_stream ext kind id payload registry :
  keeps ext (receive_stream kind id payload registry).
Proof. unfold receive_stream. auto 12 with preserves. Qed.
#[local] Hint Resolve keeps_receive_stream : preserves.

Lemma keeps_receive_parts ext kind id payload registry :
  keeps ext (receive_parts kind id payload registry).
Proof. unfold receive_parts. auto 20 with preserves. Qed.

Lemma tick_outbound t s : outbound (tick t s) = outbound s.
Proof.
  unfold tick. set (s0 := set_now (Some t) s). change (outbound s) with (outbound s0).
  generalize (filter (λ token,
    match pings s0 !! token with Some (_, d) => d <=? t | None => false end = true)
    (ping_keys (pings s0))) as l. intros l. generalize s0. clear s0.
  induction l as [| x l IH]; intros s0; [done |]. cbn [foldl]. by rewrite IH.
Qed.

Lemma sent_outbound kind id s : outbound (Session_sent kind id s) = outbound s.
Proof.
  unfold Session_sent. destruct (bool_decide (kind = GoAway_t)), (bool_decide (kind = End_t)); try done;
    rewrite complete_outbound; by repeat case_match.
Qed.

Lemma balanced_frame ext s s' st : outbound s' = outbound s → balanced ext (s, st) → balanced ext (s', st).
Proof. intros E [H1 H2]. split; [done |]. intros r. specialize (H2 r). cbn in *. by rewrite E. Qed.

(** Receipt consumes the frame it is given. *)
Lemma keeps_receive ext f registry t x :
  balanced (option_list (reservation (verified f)) ++ ext) x →
  balanced ext (Session_receive f registry t x).2.
Proof.
  destruct x as [s st]. intros Hx. unfold Session_receive. erewrite bind_Ok by done.
  destruct (closed s).
  { unfold mbind, M_bind, throw, on_store, modify. cbn. by apply drop_option_balanced. }
  rewrite (bind_Ok _ _ _ tt (s, st)) by done. rewrite (bind_Ok _ _ _ tt (tick t s, st)) by done.
  apply (balanced_frame _ _ (tick t s)) in Hx; [| apply tick_outbound].
  set (s1 := tick t s) in *. clearbody s1. erewrite bind_Ok by done.
  match goal with |- context [if ?b then _ else _] => destruct b end.
  { unfold mbind, M_bind, throw, on_store, perform, modify.
    pose proof (keeps_close _ (Some (mkFailure Local FcResourceLimit)) None _ Hx) as Hc.
    destruct (Session_close _ _ (s1, st)) as [s2 st2]. cbn. by apply drop_option_balanced. }
  erewrite bind_Ok by done. apply drop_option_balanced in Hx.
  set (st1 := (VerifiedFrame_into_payload f st).2). set (p := (VerifiedFrame_into_payload f st).1).
  change (drop_option (reservation (verified f)) st) with st1 in *.
  change (payload (verified f)) with p.
  pose proof (keeps_receive_parts ext (frame_type (header (verified f)))
    (stream_id (header (verified f))) p registry _ Hx) as Hp.
  destruct (receive_parts _ _ p registry (s1, st1)) as [r y] eqn:Hr.
  rewrite (bind_Ok _ _ _ r y) by (unfold try_; by rewrite Hr).
  destruct r as [[] | e]; [done |]. by apply keeps_close.
Qed.

Lemma keeps_open ext registry owner : keeps ext (Session_open registry owner).
Proof.
  unfold Session_open. repeat (apply preserves_bind; [solve [auto with preserves] | intros ?]).
  apply keeps_reserve_bind. intros r x Hx.
  destruct (on_ids allocate x) as [res x1] eqn:E1.
  pose proof (keeps_ids (r :: ext) allocate x Hx) as Hx1. rewrite E1 in Hx1. cbn in Hx1.
  assert (∃ q, res = Ok q) as [q ->].
  { destruct x. unfold on_ids in E1. destruct (allocate _). injection E1 as <- _. by eexists. }
  rewrite (bind_Ok _ _ _ _ _ E1).
  assert (∀ {B} (m : SM B) y, balanced (r :: ext) y → keeps ext m →
    balanced ext ((on_store (drop_reservation r);; m) y).2) as Hdrop.
  { intros B m [s st] Hy Hm. erewrite bind_Ok by done. by apply Hm, drop_balanced. }
  destruct q as [id | e].
  - destruct (try_ (F := SessionError) (add id owner a3) x1) as [res x2] eqn:E2.
    pose proof (preserves_try (F := SessionError) _ _ (keeps_add (r :: ext) id owner a3) x1 Hx1) as Hx2.
    rewrite E2 in Hx2. cbn in Hx2. assert (∃ q, res = Ok q) as [q ->].
    { unfold try_ in E2. destruct (add _ _ _ x1). injection E2 as <- _. by eexists. }
    rewrite (bind_Ok _ _ _ _ _ E2). destruct q as [h | e]; [destruct (frame _ _ _) as [f | e] |];
      [| apply Hdrop; auto with preserves | apply Hdrop; auto with preserves].
    rewrite (bind_Ok _ _ _ tt (on_session (push_outbound (with_reservation (Some r) f)) x2).2)
      by (by destruct x2).
    by apply push_balanced.
  - destruct (try_ (F := SessionError) (drain SrIdExhausted) x1) as [res x2] eqn:E2.
    pose proof (preserves_try (F := SessionError) _ _ (keeps_drain (r :: ext) SrIdExhausted) x1 Hx1) as Hx2.
    rewrite E2 in Hx2. cbn in Hx2. assert (∃ q, res = Ok q) as [q ->].
    { unfold try_ in E2. destruct (drain SrIdExhausted x1). injection E2 as <- _. by eexists. }
    rewrite (bind_Ok _ _ _ _ _ E2). apply Hdrop; auto with preserves.
Qed.

(** ** Calls *)

(** References a call receives from its caller, and hands to it. *)
Definition given (call : sess_call) : list Reservation :=
  match call with SReceive f _ _ => option_list (reservation (verified f)) | _ => [] end.
Definition handed (call : sess_call) (x : SessSt) : list Reservation :=
  match call with
  | SPopOutbound => match (pop_outbound x.1).1 with
                    | Some f => option_list (reservation f)
                    | None => []
                    end
  | _ => []
  end.

Lemma count_owner_delete r q i f :
  q !! i = Some f →
  count_owner r (queue_owners q) =
  (count_owner r (option_list (reservation f)) + count_owner r (queue_owners (delete i q)))%nat.
Proof.
  intros Hi. rewrite <- (take_drop_middle q i f Hi) at 1. rewrite delete_take_drop.
  unfold queue_owners. rewrite !omap_app, !count_owner_app. cbn.
  destruct (reservation f); cbn; lia.
Qed.

Lemma next_output_cases s :
  next_output s = (None, s) ∨
  ∃ id i, next_output s =
    (outbound s !! i, set_outbound (delete i (outbound s)) (set_last_output (Some id) s)).
Proof.
  unfold next_output.
  match goal with |- context [match ?o with Some _ => _ | None => (None, s) end] =>
    destruct o as [[id i] |] end; [right; by exists id, i | by left].
Qed.

(** Outbound capacity is neither leaked nor released twice.  If every
    reference to every lease is held either by a queued frame or by some other
    owner, then after any call, successful or not, the same holds: with the
    references the call was given no longer held by the caller, and those it
    handed out with a frame now held by the caller.  In particular a stream that
    ends, a cancelled send or a closed connection releases exactly what its
    frames held.  No instance id is ever issued twice. *)
Theorem reservations_linear (call : sess_call) (ext : list Reservation) (x : SessSt) :
  balanced (given call ++ ext) x → balanced (handed call x ++ ext) (sess_exec call x).
Proof.
  intros Hx. destruct call; cbn [given handed sess_exec app] in *.
  - by apply keeps_open.
  - by apply keeps_send.
  - by apply keeps_end.
  - by apply keeps_cancel.
  - by apply keeps_receive.
  - destruct x. eapply balanced_frame; [apply sent_outbound | done].
  - by apply keeps_drain.
  - by apply keeps_ping.
  - destruct x. eapply balanced_frame; [apply tick_outbound | done].
  - by apply keeps_close.
  - destruct x as [s st]. unfold pop_outbound. cbn [fst].
    destruct (next_output_cases s) as [-> | (id & i & ->)]; cbn [fst snd]; [done |].
    destruct Hx as [H1 H2]. split; [done |]. intros r. specialize (H2 r). cbn in *.
    rewrite H2, count_owner_app. destruct (outbound s !! i) as [f |] eqn:Ei.
    + rewrite (count_owner_delete r _ i f Ei). unfold queue_owners. lia.
    + cbn. apply lookup_ge_None in Ei.
      by rewrite delete_take_drop, take_ge, drop_ge, app_nil_r by lia.
  - destruct x as [s st]. unfold pop_event. cbn [fst snd]. destruct (events s); [done |].
    by eapply balanced_frame.
  - destruct x as [s st]. unfold pop_stream_event. cbn [fst snd]. destruct (list_find _ _) as [[i e] |]; [| done].
    by eapply balanced_frame.
Qed.

End issued.

Lemma demo_session_balanced : balanced 4 [] demo_session.
Proof.
  split.
  - split; [| vm_compute; by intros]. apply (Resources_new_wf _ demo_store.2); [| done | done].
    apply Resources_new_wf; [apply Store_empty_wf | done | done].
  - intros r. unfold refs_of. cbn. by rewrite lookup_empty.
Qed.

(** A queued PING owns lease 4; once popped, its new holder does. *)
Definition pinged : SessSt := sess_exec (SPing (replicate 8 x00) 5 0) demo_session.

Lemma reservations_linear_witness :
  handed SPopOutbound pinged = [4] ∧ balanced 4 [4] (sess_exec SPopOutbound pinged).
Proof.
  split; [vm_compute; reflexivity |].
  refine (reservations_linear 4 SPopOutbound [] pinged _).
  refine (reservations_linear 4 (SPing (replicate 8 x00) 5 0) [] demo_session _).
  exact demo_session_balanced.
Defined.
