(* ===== verification/Connection.v ===== *)
(** * Connections

    [src/modules/transport/connection/{mod,io}.rs], with the failure
    classification of [src/modules/transport/failure.rs]: one socket composed
    with framing, handshake, integrity and stream state.  A connection's methods run
    in a world of shared objects: the reservation store, the waker's wake count
    and the sockets whose owners have dropped them. *)

From S2P Require Import Prelude Bytes Header Control HandshakeCodec Api Resources Framing Ports.
From S2P Require Import Handshake Integrity StreamIds Registry Session.

(** ** Failures: [failure.rs]

    The terminal cause a connection reports and the best-effort wire response it
    may send. *)

Record Disposition : Type := mkDisposition {
  failure : Failure;
  response : option ErrorCode;
}.

#[global] Instance Disposition_eq_dec : EqDecision Disposition.
Proof. solve_decision. Defined.

Definition Disposition_framing (error : FramingError) : Disposition :=
  let '(code, response) :=
    match error with
    | FrHeader (UnsupportedVersion _) => (FcProtocolViolation, None)
    | FrHeader (PayloadTooLarge _) => (FcFrameTooLarge, Some FrameSizeError)
    | FrHeader _ => (FcProtocolViolation, Some ProtocolError)
    | FrTruncated => (FcTruncatedFrame, None)
    | FrIo _ | FrClosed => (FcConnectionLost, None)
    | FrPhaseChanged | FrShape | FrBusy => (FcInternal, None)
    end in
  mkDisposition (mkFailure Local code) response.

Definition Disposition_handshake (error : HandshakeError) : Disposition :=
  match error with
  | HsPeer code => mkDisposition (mkFailure Peer (failure_code code)) None
  | HsFraming error => Disposition_framing error
  | _ =>
    let code := match error with
                | HsOrder | HsPayload _ => FcProtocolViolation
                | _ => FcAuthenticationFailed
                end in
    mkDisposition (mkFailure Local code)
      (Some (if bool_decide (code = FcAuthenticationFailed)
             then AuthenticationFailed else ProtocolError))
  end.

Definition Disposition_integrity (error : IntegrityError) : Disposition :=
  mkDisposition
    (mkFailure Local (if bool_decide (error = IntExhausted)
                      then FcSequenceExhausted else FcIntegrityFailed))
    None.

Definition with_safe_output (safe : bool) (d : Disposition) : Disposition :=
  if negb safe then mkDisposition (failure d) None else d.

#[local] Open Scope N_scope.

(** ** The connection *)

Record Options : Type := mkOptions {
  opt_role : ConnectionRole;
  opt_expected_peer : ExpectedPeer;
}.

Definition local_failure (code : FailureCode) : Disposition :=
  mkDisposition (mkFailure Local code) None.

Definition error_frame (code : ErrorCode) : option WireFrame :=
  match ErrorPayload_new code [] with
  | Err _ => None
  | Ok d =>
    let payload := ErrorPayload_encode d in
    match FrameHeader_new Error_t 0 (len payload mod u32_limit) with
    | Err _ => None
    | Ok h => match WireFrame_new h payload None with Err _ => None | Ok f => Some f end
    end
  end.

Section connection.
Context {Sk : Type} `{!Socket Sk} {C : Type} `{!Cryptography C} {I : Type} `{!Identity I}.

Record World : Type := mkWorld {
  w_store : Store;
  w_released : list Sk;
  w_cx : Context;
}.

Definition set_store (st : Store) (w : World) : World := mkWorld st (w_released w) (w_cx w).
Definition on_world (f : Store → Store) (w : World) : World := set_store (f (w_store w)) w.

Record Connection : Type := mkConnection {
  c_resources : Resources;
  admission : option Reservation;
  c_handle : ConnectionHandle;
  socket : option Sk;
  reader : FrameReader;
  writer : FrameWriter;
  handshake : option (Handshake C);
  integrity : option (Integrity IntegrityKey);
  session : option Session;
  handshake_output : list WireFrame;
  writing : option (FrameType * N * FrameProtection);
  c_events : list Event;
  deadline : Instant;
  timeout : Duration;
  c_closing : bool;
}.

(** ** Field assignment *)

Definition set_admission x c := mkConnection (c_resources c) x (c_handle c) (socket c) (reader c)
  (writer c) (handshake c) (integrity c) (session c) (handshake_output c) (writing c) (c_events c)
  (deadline c) (timeout c) (c_closing c).
Definition set_c_handle x c := mkConnection (c_resources c) (admission c) x (socket c) (reader c)
  (writer c) (handshake c) (integrity c) (session c) (handshake_output c) (writing c) (c_events c)
  (deadline c) (timeout c) (c_closing c).
Definition set_socket x c := mkConnection (c_resources c) (admission c) (c_handle c) x (reader c)
  (writer c) (handshake c) (integrity c) (session c) (handshake_output c) (writing c) (c_events c)
  (deadline c) (timeout c) (c_closing c).
Definition set_reader x c := mkConnection (c_resources c) (admission c) (c_handle c) (socket c) x
  (writer c) (handshake c) (integrity c) (session c) (handshake_output c) (writing c) (c_events c)
  (deadline c) (timeout c) (c_closing c).
Definition set_writer x c := mkConnection (c_resources c) (admission c) (c_handle c) (socket c)
  (reader c) x (handshake c) (integrity c) (session c) (handshake_output c) (writing c) (c_events c)
  (deadline c) (timeout c) (c_closing c).
Definition set_handshake x c := mkConnection (c_resources c) (admission c) (c_handle c) (socket c)
  (reader c) (writer c) x (integrity c) (session c) (handshake_output c) (writing c) (c_events c)
  (deadline c) (timeout c) (c_closing c).
Definition set_integrity x c := mkConnection (c_resources c) (admission c) (c_handle c) (socket c)
  (reader c) (writer c) (handshake c) x (session c) (handshake_output c) (writing c) (c_events c)
  (deadline c) (timeout c) (c_closing c).
Definition set_session x c := mkConnection (c_resources c) (admission c) (c_handle c) (socket c)
  (reader c) (writer c) (handshake c) (integrity c) x (handshake_output c) (writing c) (c_events c)
  (deadline c) (timeout c) (c_closing c).
Definition set_handshake_output x c := mkConnection (c_resources c) (admission c) (c_handle c)
  (socket c) (reader c) (writer c) (handshake c) (integrity c) (session c) x (writing c) (c_events c)
  (deadline c) (timeout c) (c_closing c).
Definition set_writing x c := mkConnection (c_resources c) (admission c) (c_handle c) (socket c)
  (reader c) (writer c) (handshake c) (integrity c) (session c) (handshake_output c) x (c_events c)
  (deadline c) (timeout c) (c_closing c).
Definition set_c_events x c := mkConnection (c_resources c) (admission c) (c_handle c) (socket c)
  (reader c) (writer c) (handshake c) (integrity c) (session c) (handshake_output c) (writing c) x
  (deadline c) (timeout c) (c_closing c).
Definition set_deadline x c := mkConnection (c_resources c) (admission c) (c_handle c) (socket c)
  (reader c) (writer c) (handshake c) (integrity c) (session c) (handshake_output c) (writing c)
  (c_events c) x (timeout c) (c_closing c).
Definition set_c_closing x c := mkConnection (c_resources c) (admission c) (c_handle c) (socket c)
  (reader c) (writer c) (handshake c) (integrity c) (session c) (handshake_output c) (writing c)
  (c_events c) (deadline c) (timeout c) x.

Abbreviation CSt := (Connection * World)%type.

(** Closing a socket and dropping its owner; the error, if any, is ignored. *)
Definition drop_socket (s : Sk) (w : World) : World :=
  mkWorld (w_store w) (w_released w ++ [(socket_close s).2]) (w_cx w).

(** ** Admission *)

(** [begin_shared]; early returns drop the reservations taken so far, in the
    reverse order of their declaration. *)
Definition begin_shared (s : Sk) (options : Options) (config : TransportConfig) (now : Instant)
    (identity : I) (resources : Resources)
    : C * World → result Disposition Connection * (C * World) :=
  λ '(crypto, w),
  match Resources_connection resources (w_store w) with
  | (None, st) => (Err (local_failure FcResourceLimit), (crypto, drop_socket s (set_store st w)))
  | (Some adm, st) =>
    match Resources_outbound resources 112 st with
    | (None, st) =>
      (Err (local_failure FcResourceLimit),
       (crypto, on_world (drop_reservation adm) (drop_socket s (set_store st w))))
    | (Some hello_reservation, st) =>
      let w := set_store st w in
      let discard w := on_world (drop_reservation adm) (on_world (drop_reservation hello_reservation)
                         (drop_socket s w)) in
      match Instant_checked_add now (handshake_timeout config) with
      | None => (Err (local_failure FcInternal), (crypto, discard w))
      | Some d =>
        match Handshake_begin (opt_role options) (opt_expected_peer options) identity crypto with
        | (Err error, crypto) => (Err (Disposition_handshake error), (crypto, discard w))
        | (Ok (hs, hello), crypto) =>
          let hello := with_reservation (Some hello_reservation) hello in
          let '(id, st) := alloc (w_store w) in
          (Ok (mkConnection resources (Some adm) (mkConnectionHandle id) (Some s)
                 FrameReader_default FrameWriter_default (Some hs) None None [hello] None [] d
                 (handshake_timeout config) false),
           (crypto, set_store st w))
        end
      end
    end
  end.

Definition begin (s : Sk) (options : Options) (config : TransportConfig) (now : Instant)
    (identity : I) : C * World → result Disposition Connection * (C * World) :=
  λ '(crypto, w),
  let '(resources, st) := Resources_new (config_limits config) (w_store w) in
  begin_shared s options config now identity resources (crypto, set_store st w).

Definition set_handle (h : ConnectionHandle) (c : Connection) : Connection := set_c_handle h c.

(** ** Termination *)

(** [while session.pop_outbound().is_some() {}], dropping each frame. *)
Fixpoint discard_output (fuel : nat) (x : SessSt) : SessSt :=
  match fuel with
  | O => x
  | S fuel =>
    let '(s, st) := x in
    match pop_outbound s with
    | (None, s) => (s, st)
    | (Some f, s) => discard_output fuel (s, drop_option (reservation f) st)
    end
  end.

Definition release : CSt → CSt :=
  λ '(c, w),
  let '(c, w) := match socket c with
                 | Some s => (set_socket None c, drop_socket s w)
                 | None => (c, w)
                 end in
  let w := on_world (drop_option (admission c)) w in
  let c := set_admission None c in
  let c := set_integrity None (set_handshake None c) in
  let w := on_world (drop_all (omap reservation (handshake_output c))) w in
  let c := set_handshake_output [] c in
  let '(c, w) := match session c with
                 | Some s =>
                   let '(s, st) := discard_output (length (outbound s)) (s, w_store w) in
                   (set_session (Some s) c, set_store st w)
                 | None => (c, w)
                 end in
  let c := set_reader FrameReader_default c in
  let w := on_world (drop_option (wr_reservation (writer c))) w in
  let c := set_writer FrameWriter_default c in
  (set_writing None c, w).

Definition close_session (f : option Failure) (response : option ErrorCode) (s : Session) : CSt → CSt :=
  λ '(c, w),
  let '(s, st) := Session_close f response (s, w_store w) in
  (set_session (Some s) c, set_store st w).

Definition push_closed (f : Failure) (c : Connection) : Connection :=
  set_c_events (c_events c ++ [ConnectionClosed (handle_id (c_handle c)) (Some f)]) c.

Definition abort (d : Disposition) : CSt → CSt :=
  λ '(c, w),
  match socket c with
  | None => (c, w)
  | Some _ =>
    let x := match session c with
             | Some s => close_session (Some (failure d)) None s (c, w)
             | None => if negb (c_closing c) then (push_closed (failure d) c, w) else (c, w)
             end in
    release x
  end.

Definition Connection_close : CSt → CSt := abort (local_failure FcConnectionLost).

Definition fail (d : Disposition) (now : Instant) : CSt → CSt :=
  λ '(c, w),
  let safe := negb (FrameWriter_is_busy (writer c))
    && (bool_decide (is_Some (integrity c))
        || match handshake c with
           | Some h => bool_decide (send_protection h = Untagged)
           | None => false
           end) in
  let d := with_safe_output safe d in
  match response d with
  | None => abort d (c, w)
  | Some code =>
    match Instant_checked_add now (timeout c) with
    | None => abort d (c, w)
    | Some limit =>
      let c := set_c_closing true (set_deadline limit c) in
      let w := on_world (drop_all (omap reservation (handshake_output c))) w in
      let c := set_handshake_output [] c in
      match session c with
      | Some s => close_session (Some (failure d)) (Some code) s (c, w)
      | None =>
        let c := push_closed (failure d) c in
        match error_frame code with
        | None => (c, w)
        | Some f =>
          let '(r, st) := Resources_outbound (c_resources c) (len (payload f) + 12) (w_store w) in
          let w := set_store st w in
          match r with
          | None => (c, w)
          | Some _ => (set_handshake_output (handshake_output c ++ [with_reservation r f]) c, w)
          end
        end
      end
    end
  end.

(** ** Handoff *)

Definition establish : CSt → CSt :=
  λ '(c, w),
  match handshake c with
  | None => (c, w)
  | Some h =>
    let '(taken, h) := take_established h in
    let c := set_handshake (Some h) c in
    match taken with
    | None => (c, w)
    | Some e =>
      let '(s, st) := with_handle (c_handle c) (est_role e) (est_local_identity e)
                        (est_peer_identity e) (w_store w) in
      let s := set_resources (c_resources c) s in
      (set_handshake None (set_integrity (Some (Integrity_new (est_keys e)))
         (set_session (Some s) c)), set_store st w)
    end
  end.

(** ** Output: [io.rs] *)

(** The frame to write next, from the session or the handshake. *)
Definition next_frame (c : Connection) : option WireFrame * Connection :=
  match session c with
  | Some s => let '(f, s) := pop_outbound s in (f, set_session (Some s) c)
  | None =>
    match handshake_output c with
    | [] => (None, c)
    | f :: rest => (Some f, set_handshake_output rest c)
    end
  end.

(** The block that prepares the writer; [false] is an early [return false]. *)
Definition start_output (crypto : C) : CSt → bool * CSt :=
  λ '(c, w),
  if FrameWriter_is_busy (writer c) then (true, (c, w)) else
  let '(next, c) := next_frame c in
  match next with
  | None => (false, if c_closing c then release (c, w) else (c, w))
  | Some frame =>
    let kind := frame_type (header frame) in
    let id := stream_id (header frame) in
    let '(sealed, phase, (c, w)) :=
      match integrity c with
      | None => (Ok frame, Untagged, (c, w))
      | Some g =>
        let '(r, (g, st)) := Integrity_seal frame crypto (g, w_store w) in
        (r, Tagged, (set_integrity (Some g) c, set_store st w))
      end in
    match sealed with
    | Err error => (false, abort (Disposition_integrity error) (c, w))
    | Ok frame =>
      let '(started, (wr, st)) := FrameWriter_start frame phase (writer c, w_store w) in
      let c := set_writer wr c in
      let w := set_store st w in
      match started with
      | Err error => (false, abort (Disposition_framing error) (c, w))
      | Ok _ => (true, (set_writing (Some (kind, id, phase)) c, w))
      end
    end
  end.

(** The completion of a written frame. *)
Definition finish_output (now : Instant) : CSt → bool * CSt :=
  λ '(c, w),
  match writing c with
  | None => (true, (c, w))
  | Some (kind, id, phase) =>
    let c := set_writing None c in
    let report c := match session c with
                    | Some s => set_session (Some (Session_sent kind id s)) c
                    | None => c
                    end in
    if bool_decide (phase = Tagged) then
      match integrity c with
      | None => (true, (report c, w))
      | Some g =>
        let '(r, g) := Integrity_sent g in
        let c := set_integrity (Some g) c in
        match r with
        | Err error => (false, abort (Disposition_integrity error) (c, w))
        | Ok _ => (true, (report c, w))
        end
      end
    else if negb (c_closing c) then
      match handshake c with
      | None => (true, (report c, w))
      | Some h =>
        let '(r, h) := Handshake_sent kind h in
        let c := set_handshake (Some h) c in
        match r with
        | Err error => (false, fail (Disposition_handshake error) now (c, w))
        | Ok _ => (true, (report c, w))
        end
      end
    else (true, (report c, w))
  end.

Definition write (crypto : C) (now : Instant) : CSt → bool * CSt :=
  λ '(c, w),
  match socket c with
  | None => (false, (c, w))
  | Some _ =>
    let '(go, (c, w)) := start_output crypto (c, w) in
    if negb go then (false, (c, w)) else
    match socket c with
    | None => (false, (c, w))
    | Some s =>
      let '(flushed, wr, s, st, cx) := FrameWriter_poll_flush (writer c) s (w_store w) (w_cx w) in
      let c := set_socket (Some s) (set_writer wr c) in
      let w := mkWorld st (w_released w) cx in
      match flushed with
      | Pending => (false, (c, w))
      | Ready (Err error) => (false, abort (Disposition_framing error) (c, w))
      | Ready (Ok _) => finish_output now (c, w)
      end
    end
  end.

(** ** Input: [io.rs] *)

Abbreviation RSt := (Connection * I * C * World)%type.

(** The frame's consumer: the handshake, or integrity and then the session. *)
Definition receive_handshake (h : Handshake C) (frame : WireFrame) (now : Instant) : RSt → RSt :=
  λ '(c, i, cr, w),
  let w := on_world (drop_option (reservation frame)) w in
  let '(result, (h, i, cr)) := Handshake_receive frame (h, i, cr) in
  let c := set_handshake (Some h) c in
  match result with
  | Ok (Some auth) =>
    let '(r, st) := Resources_outbound (c_resources c) (len (payload auth) + 12) (w_store w) in
    let w := set_store st w in
    match r with
    | Some _ => (set_handshake_output (handshake_output c ++ [with_reservation r auth]) c, i, cr, w)
    | None => let '(c, w) := abort (local_failure FcResourceLimit) (c, w) in (c, i, cr, w)
    end
  | Ok None => (c, i, cr, w)
  | Err error => let '(c, w) := fail (Disposition_handshake error) now (c, w) in (c, i, cr, w)
  end.

Definition receive_session (g : Integrity IntegrityKey) (frame : WireFrame) (now : Instant)
    (registry : Registry) (crypto : C) : CSt → CSt :=
  λ '(c, w),
  let '(result, (g, st)) := Integrity_verify frame crypto (g, w_store w) in
  let c := set_integrity (Some g) c in
  let w := set_store st w in
  match result with
  | Err error => abort (Disposition_integrity error) (c, w)
  | Ok verified =>
    match session c with
    | None => (c, on_world (drop_option (reservation (Integrity.verified verified))) w)
    | Some s =>
      let '(_, (s, st)) := Session_receive verified registry now (s, w_store w) in
      let c := set_session (Some s) c in
      let w := set_store st w in
      if Session_is_closed s then
        if FrameWriter_is_busy (writer c) then release (c, w) else
        (set_deadline (default now (Instant_checked_add now (timeout c))) (set_c_closing true c), w)
      else (c, w)
    end
  end.

Definition read (now : Instant) (registry : Registry) : RSt → bool * RSt :=
  λ '(c, i, cr, w),
  let phase := match handshake c with Some h => receive_protection h | None => Tagged end in
  if bool_decide (phase = Tagged) && bool_decide (integrity c = None) then (false, (c, i, cr, w)) else
  match socket c with
  | None => (false, (c, i, cr, w))
  | Some s =>
    let '(polled, rd, s, cx) := FrameReader_poll_frame (reader c) s (w_cx w) phase in
    let c := set_socket (Some s) (set_reader rd c) in
    let w := mkWorld (w_store w) (w_released w) cx in
    match polled with
    | Pending => (false, (c, i, cr, w))
    | Ready (Err error) =>
      let '(c, w) := fail (Disposition_framing error) now (c, w) in (true, (c, i, cr, w))
    | Ready (Ok None) =>
      let '(c, w) :=
        match session c with
        | Some s =>
          if ready_to_close s && negb (FrameWriter_is_busy (writer c))
          then release (close_session None None s (c, w))
          else abort (local_failure FcConnectionLost) (c, w)
        | None => abort (local_failure FcConnectionLost) (c, w)
        end in
      (true, (c, i, cr, w))
    | Ready (Ok (Some frame)) =>
      match handshake c, integrity c with
      | Some h, _ => (true, receive_handshake h frame now (c, i, cr, w))
      | None, Some g =>
        let '(c, w) := receive_session g frame now registry cr (c, w) in (true, (c, i, cr, w))
      | None, None => (true, (c, i, cr, on_world (drop_option (reservation frame)) w))
      end
    end
  end.

(** ** Polling *)

Inductive Turn : Type := TurnReady | TurnPending | TurnAgain.

(** One iteration of the [for _ in 0..32] loop. *)
Definition turn (now : Instant) (registry : Registry) : RSt → Turn * RSt :=
  λ '(c, i, cr, w),
  let '(progressed, (c, w)) := write cr now (c, w) in
  let '(c, w) := establish (c, w) in
  match socket c with
  | None => (TurnReady, (c, i, cr, w))
  | Some _ =>
    let '(progressed, (c, i, cr, w)) :=
      if negb (c_closing c) then
        let '(more, x) := read now registry (c, i, cr, w) in (progressed || more, x)
      else (progressed, (c, i, cr, w)) in
    let '(c, w) := establish (c, w) in
    let '(c, w) :=
      match session c with
      | Some s =>
        if ready_to_close s && negb (FrameWriter_is_busy (writer c))
        then release (close_session None None s (c, w))
        else (c, w)
      | None => (c, w)
      end in
    match socket c with
    | None => (TurnReady, (c, i, cr, w))
    | Some _ => (if progressed : bool then TurnAgain else TurnPending, (c, i, cr, w))
    end
  end.

Fixpoint turns (fuel : nat) (now : Instant) (registry : Registry) (x : RSt) : Poll unit * RSt :=
  match fuel with
  | O => let '(c, i, cr, w) := x in
         (Pending, (c, i, cr, mkWorld (w_store w) (w_released w) (w_cx w + 1)))
  | S fuel =>
    match turn now registry x with
    | (TurnReady, x) => (Ready tt, x)
    | (TurnPending, x) => (Pending, x)
    | (TurnAgain, x) => turns fuel now registry x
    end
  end.

Definition Connection_poll_within (budget : nat) (now : Instant) (registry : Registry)
    : RSt → Poll unit * RSt :=
  λ '(c, i, cr, w),
  match socket c with
  | None => (Ready tt, (c, i, cr, w))
  | Some _ =>
    if (bool_decide (is_Some (handshake c)) || c_closing c) && (deadline c <=? now) then
      let '(c, w) := abort (local_failure FcDeadlineExceeded) (c, w) in (Ready tt, (c, i, cr, w))
    else
      let c := match session c with
               | Some s => set_session (Some (tick now s)) c
               | None => c
               end in
      turns budget now registry (c, i, cr, w)
  end.

Definition Connection_poll := Connection_poll_within 32.

Definition Connection_next_deadline (c : Connection) : option Instant :=
  match socket c with
  | None => None
  | Some _ =>
    if bool_decide (is_Some (handshake c)) || c_closing c then Some (deadline c)
    else match session c with Some s => next_deadline s | None => None end
  end.

Definition Connection_pop_event (c : Connection) : option Event * Connection :=
  match c_events c with
  | e :: rest => (Some e, set_c_events rest c)
  | [] =>
    match session c with
    | Some s => let '(e, s) := pop_event s in (e, set_session (Some s) c)
    | None => (None, c)
    end
  end.

End connection.
Arguments World Sk : clear implicits.
Arguments Connection Sk C {_}.
