(* ===== verification/ConnectionProps.v ===== *)
(** * Connection properties

    Ownership of shared capacity across a connection's layers, complete cleanup,
    and the single terminal event its consumer relies on. *)

From S2P Require Import Prelude Bytes Header Control HandshakeCodec Api Resources Framing Ports.
From S2P Require Import Handshake Integrity StreamIds Registry Session SessionSteps.
From S2P Require Import SchedulerProps SessionProps SessionReservations Connection.

#[local] Open Scope N_scope.

Section issued.
Context {base : N}.

(** ** Ownership in the store *)

(** [l] lists every owner of every live lease; the ids below [base] are taken. *)
Definition owns (l : list Reservation) (st : Store) : Prop :=
  store_from base st ∧ ∀ r, refs_of st r = count_owner r l.

Lemma owns_eq l k st : (∀ r, count_owner r l = count_owner r k) → owns k st → owns l st.
Proof. intros H [H1 H2]. split; [done |]. intros r. by rewrite H2, H. Qed.

Lemma owns_drop r l st : owns (r :: l) st → owns l (drop_reservation r st).
Proof.
  intros [H1 H2]. split; [by apply drop_reservation_from |]. intros r'.
  rewrite refs_of_drop, H2. cbn. lia.
Qed.
Lemma owns_drop_option o l st : owns (option_list o ++ l) st → owns l (drop_option o st).
Proof. destruct o as [r |]; cbn; [apply owns_drop | done]. Qed.
Lemma owns_drop_all rs l st : owns (rs ++ l) st → owns l (drop_all rs st).
Proof.
  intros [H1 H2]. split; [by apply drop_all_from |]. intros r.
  rewrite refs_of_drop_all, H2, count_owner_app. lia.
Qed.
Lemma owns_retain_option o l st :
  owns (option_list o ++ l) st → owns (option_list o ++ option_list o ++ l) (retain_option o st).
Proof.
  destruct o as [r |]; cbn; [| done]. intros [H1 H2]. split; [by apply retain_from |]. intros r'.
  rewrite refs_of_retain, H2; [cbn; lia |]. rewrite H2. cbn. rewrite decide_True by done. lia.
Qed.
Lemma owns_reserve res n l st :
  owns l st → owns (option_list (Resources_outbound res n st).1 ++ l) (Resources_outbound res n st).2.
Proof.
  intros [H1 H2]. unfold Resources_outbound.
  pose proof (reserve_from base (outbound_counter res) n st H1) as Hw.
  destruct (reserve (outbound_counter res) n st) as [[r |] st'] eqn:E; cbn in *.
  - split; [done |]. intros r'. rewrite (refs_of_reserve _ _ _ _ _ _ (from_wf _ _ H1) E), H2. cbn. lia.
  - apply reserve_None in E as ->. by split.
Qed.
Lemma owns_new limits l st :
  max_connections limits < u64_limit → outbound_bytes limits < u64_limit →
  owns l st → owns l (Resources_new limits st).2.
Proof. intros Hc Ho [H1 H2]. split; [by apply Resources_new_from | exact H2]. Qed.

End issued.
Arguments owns : clear implicits.

Lemma owns_weaken b b' l st : b' ≤ b → owns b l st → owns b' l st.
Proof. intros ? [[H1 ?] H2]. split; [split; [done | lia] | done]. Qed.
Lemma alloc_owns b l st :
  owns b l st → b ≤ (alloc st).1 ∧ owns ((alloc st).1 + 1) l (alloc st).2.
Proof. intros [[H1 ?] H2]. split; [done |]. split; [split; [by apply alloc_wf | done] | done]. Qed.

(** Rearranging and regrouping owners. *)
Ltac owners :=
  intros ?; unfold queue_owners in *; cbn; rewrite ?omap_app, ?count_owner_app; cbn;
  rewrite ?count_owner_app; lia.
Ltac own H := eapply owns_eq; [| exact H]; owners.

Section layers.
Context (base : N).

Abbreviation owns := (owns base).

(** ** Layers *)

Lemma seal_owns {C} `{!Cryptography C} frame (c : C) g st l :
  owns (option_list (reservation frame) ++ l) st →
  let '(r, (_, st')) := Integrity_seal frame c (g, st) in
  match r with
  | Ok f => owns (option_list (reservation f) ++ l) st'
  | Err _ => owns l st'
  end.
Proof.
  intros H. pose proof (owns_drop_option _ _ _ H) as Hd. unfold Integrity_seal, Integrity_fail.
  destruct (int_send g) as [d |]; [| done]. destruct (pending_send g); [done |].
  case_bool_decide; [done |]. destruct (send_sequence g =? u64_limit - 1); [done |].
  destruct (mac_tag _ _ _ _) as [t |]; [| done].
  pose proof (owns_retain_option _ _ _ H) as Hr. apply owns_drop_option in Hr.
  unfold WireFrame_new. destruct (negb _); cbn; [by apply owns_drop_option | done].
Qed.

Lemma start_owns frame phase wr st l :
  owns (option_list (reservation frame) ++ option_list (wr_reservation wr) ++ l) st →
  let '(_, (wr', st')) := FrameWriter_start frame phase (wr, st) in
  owns (option_list (wr_reservation wr') ++ l) st'.
Proof.
  intros H. pose proof (owns_drop_option _ _ _ H) as Hd. unfold FrameWriter_start.
  destruct (wr_failed wr); [done |]. destruct (negb (is_empty (wr_bytes wr))); [done |].
  destruct (negb _); [done |]. destruct (FrameHeader_frame_len _ _); [| done]. cbn.
  apply owns_retain_option in H. apply owns_drop_option, owns_drop_option. own H.
Qed.

Lemma flush_loop_owns {Sk} `{!Socket Sk} fuel : ∀ wr (s : Sk) st cx l,
  owns (option_list (wr_reservation wr) ++ l) st →
  let '(_, wr', _, st', _) := flush_loop fuel wr s st cx in
  owns (option_list (wr_reservation wr') ++ l) st'.
Proof.
  induction fuel as [| fuel IH]; intros wr s st cx l H; [done |]. cbn [flush_loop].
  destruct (wr_offset wr =? length (wr_bytes wr))%nat; [by apply owns_drop_option |].
  destruct (poll_write s _) as [[[count | k] |] s']; [| | done].
  - destruct (count =? 0); [by apply owns_drop_option |].
    destruct (count <=? _); [by apply IH | by apply owns_drop_option].
  - destruct k; try (by apply owns_drop_option). by apply IH.
Qed.

Lemma poll_flush_owns {Sk} `{!Socket Sk} budget wr (s : Sk) st cx l :
  owns (option_list (wr_reservation wr) ++ l) st →
  let '(_, wr', _, st', _) := poll_flush_within budget wr s st cx in
  owns (option_list (wr_reservation wr') ++ l) st'.
Proof.
  intros H. unfold poll_flush_within. destruct (wr_failed wr); [done |]. by apply flush_loop_owns.
Qed.

(** Frames from the socket own nothing. *)
Lemma read_loop_unowned {Sk} `{!Socket Sk} fuel phase : ∀ rd (s : Sk) cx f rd' s' cx',
  read_loop fuel phase rd s cx = (Ready (Ok (Some f)), rd', s', cx') → reservation f = None.
Proof.
  induction fuel as [| fuel IH]; intros rd s cx f rd' s' cx' H; cbn [read_loop] in H; [done |].
  unfold FrameReader_fail in H.
  destruct (rd_offset rd =? length (rd_bytes rd))%nat.
  - destruct (rd_header rd) as [h |].
    + by destruct (bool_decide (phase = Tagged)); simplify_eq/=.
    + destruct (FrameHeader_decode _); [| done]. destruct (FrameHeader_frame_len _ _); [| done].
      by eapply IH.
  - destruct (poll_read s _) as [[[[count | k] |] buffer] s1]; [| | done].
    + destruct (count =? 0); [case_match; simplify_eq |].
      case_match; [by eapply IH | simplify_eq].
    + destruct k; simplify_eq; by eapply IH.
Qed.

Lemma poll_frame_unowned {Sk} `{!Socket Sk} budget rd (s : Sk) cx phase f rd' s' cx' :
  poll_frame_within budget rd s cx phase = (Ready (Ok (Some f)), rd', s', cx') → reservation f = None.
Proof.
  unfold poll_frame_within. destruct (rd_failed rd); [done |]. destruct (rd_eof rd); [done |].
  match goal with |- context [if ?b then (FrameReader_fail _ _, _, _) else _] => destruct b end;
    [done | apply read_loop_unowned].
Qed.

(** Session calls, in terms of [owns]. *)
Lemma balanced_owns ext s st : balanced base ext (s, st) ↔ owns (ext ++ queue_owners (outbound s)) st.
Proof.
  unfold balanced, owns. cbn [fst snd]. split; intros [H1 H2]; (split; [done |]); intros r;
    rewrite H2, count_owner_app; done.
Qed.

Lemma close_owns f response s st l :
  owns (l ++ queue_owners (outbound s)) st →
  owns (l ++ queue_owners (outbound (Session_close f response (s, st)).1)) (Session_close f response (s, st)).2.
Proof.
  intros H. apply balanced_owns in H. apply (keeps_close base l f response) in H.
  destruct (Session_close f response (s, st)). by apply balanced_owns.
Qed.

Lemma pop_owns s st l :
  owns (l ++ queue_owners (outbound s)) st →
  owns (l ++ match (pop_outbound s).1 with Some f => option_list (reservation f) | None => [] end
    ++ queue_owners (outbound (pop_outbound s).2)) st.
Proof.
  intros H. eapply owns_eq; [| exact H]. intros r. rewrite !count_owner_app. unfold pop_outbound.
  destruct (next_output_cases s) as [-> | (id & i & ->)]; cbn [fst snd]; [done |]. cbn [outbound set_outbound].
  destruct (outbound s !! i) as [f |] eqn:Ei.
  - rewrite (count_owner_delete r _ i f Ei). lia.
  - apply lookup_ge_None in Ei. by rewrite delete_take_drop, take_ge, drop_ge, app_nil_r by lia.
Qed.

Lemma pop_shrinks s : outbound s ≠ [] → S (length (outbound (pop_outbound s).2)) = length (outbound s).
Proof.
  intros Hne. unfold pop_outbound. destruct (next_output_progress s Hne) as (f & s' & E).
  destruct (next_output_Some _ _ _ E) as (pre & post & Eq & -> & _). rewrite E. cbn.
  rewrite Eq, !length_app. cbn. lia.
Qed.

Lemma discard_owns n : ∀ s st l,
  length (outbound s) = n → owns (l ++ queue_owners (outbound s)) st →
  outbound (discard_output n (s, st)).1 = [] ∧ owns l (discard_output n (s, st)).2.
Proof.
  induction n as [| n IH]; intros s st l Hn H; cbn [discard_output].
  { destruct (outbound s) eqn:E; [| done]. cbn. split; [done |]. own H. }
  assert (outbound s ≠ []) as Hne by (by destruct (outbound s)).
  pose proof (pop_shrinks s Hne) as Hl. pose proof (pop_owns s st l H) as Hp.
  destruct (next_output_progress s Hne) as (f & s' & E). unfold pop_outbound in *. rewrite E in *.
  cbn [fst snd] in *. apply IH; [lia |]. apply owns_drop_option. own Hp.
Qed.

Lemma discard_closed n : ∀ x, closed (discard_output n x).1 = closed x.1.
Proof.
  induction n as [| n IH]; intros [s st]; [done |]. cbn [discard_output]. unfold pop_outbound.
  destruct (next_output_cases s) as [-> | (id & i & ->)]; [done |].
  destruct (outbound s !! i); [by rewrite IH | done].
Qed.

(** ** Sessions over time *)

(** [log] may be everything [s] ever queued for its consumer. *)
Definition known (log : list Event) (s : Session) : Prop := ∃ st, reachable log (s, st).

(** [s'] is [s] after calls that deliver nothing to its consumer. *)
Definition later (s s' : Session) : Prop :=
  ∀ log, known log s →
  handle s' = handle s ∧ ∃ new, events s' = events s ++ new ∧ known (log ++ new) s'.

(** A session started for [h], whose consumer has seen nothing yet. *)
Definition born (h : ConnectionHandle) (s : Session) : Prop := handle s = h ∧ known (events s) s.

Definition linked (h : ConnectionHandle) (o o' : option Session) : Prop :=
  match o, o' with
  | None, None => True
  | None, Some s' => born h s'
  | Some s, Some s' => later s s'
  | Some _, None => False
  end.
Definition stays (o o' : option Session) : Prop :=
  match o, o' with None, None => True | Some s, Some s' => later s s' | _, _ => False end.

#[global] Instance later_refl : Reflexive later.
Proof. intros s log H. split; [done |]. exists []. by rewrite !app_nil_r. Qed.
#[global] Instance later_trans : Transitive later.
Proof.
  intros s1 s2 s3 A B log H. destruct (A _ H) as (H1 & n1 & E1 & K1).
  destruct (B _ K1) as (H2 & n2 & E2 & K2). split; [congruence |]. exists (n1 ++ n2). by rewrite E2, E1, !app_assoc.
Qed.
#[global] Instance stays_refl : Reflexive stays.
Proof. intros [s |]; [apply later_refl | done]. Qed.

#[global] Instance stays_trans : Transitive stays.
Proof. intros [s1 |] [s2 |] [s3 |]; cbn; try done. apply later_trans. Qed.

Lemma stays_linked h o o' : stays o o' → linked h o o'.
Proof. by destruct o, o'. Qed.
Lemma stays_None o o' : stays o o' → o = None → o' = None.
Proof. by destruct o, o'. Qed.
Lemma born_later h s s' : born h s → later s s' → born h s'.
Proof.
  intros [H1 K] L. destruct (L _ K) as (H2 & new & E & K'). split; [congruence | by rewrite E].
Qed.
Lemma linked_trans h o1 o2 o3 : linked h o1 o2 → linked h o2 o3 → linked h o1 o3.
Proof.
  destruct o1, o2, o3; cbn; try done; [apply later_trans | apply born_later].
Qed.

Lemma born_new h role local peer r st : born h (set_resources r (with_handle h role local peer st).1).
Proof. split; [done |]. eexists. apply reach_new. Qed.

Lemma step_handle s s' : step s s' → handle s' = handle s.
Proof. destruct 1; try done. unfold note_accepted. cbn. by destruct (is_local ds id). Qed.
Lemma steps_handle s s' : steps s s' → handle s' = handle s.
Proof. induction 1 as [| s s1 s2 Hs _ IH]; [done |]. rewrite IH. by apply step_handle. Qed.

(** Session calls that deliver no event. *)
Definition quiet (call : sess_call) : bool :=
  match call with SPopEvent | SPopStream _ => false | _ => true end.

Lemma later_exec call s st : quiet call = true → later s (sess_exec call (s, st)).1.
Proof.
  intros Hq log [st0 Hk]. apply (reach_store _ _ _ st) in Hk.
  pose proof (reachable_inv _ _ Hk) as Hi. pose proof (sinv_ok _ _ Hi) as Hok.
  apply (reach_call _ _ call) in Hk.
  unfold emitted in Hk. destruct (is_pop call) eqn:Hp.
  - destruct call; try done. cbn [sess_exec fst snd] in *. unfold pop_outbound in *.
    rewrite app_nil_r in Hk.
    assert (handle (next_output s).2 = handle s ∧ events (next_output s).2 = events s) as [E1 E2]
      by (by destruct (next_output_cases s) as [-> | (? & ? & ->)]).
    split; [done |]. exists []. rewrite !app_nil_r. split; [done |]. by eexists.
  - pose proof (exec_steps call s st Hok Hp) as Hs. split; [by apply steps_handle |].
    destruct (steps_inv _ _ Hs log Hi) as (new & E & _). exists new. split; [done |]. cbn [fst] in Hk. rewrite E, drop_app_length in Hk.
    exists (sess_exec call (s, st)).2. by rewrite <- surjective_pairing.
Qed.

Lemma discard_later n : ∀ x, later x.1 (discard_output n x).1.
Proof.
  induction n as [| n IH]; intros [s st]; [done |]. cbn [discard_output].
  pose proof (later_exec SPopOutbound s st eq_refl) as Hl. cbn [sess_exec fst] in Hl.
  destruct (pop_outbound s) as [[f |] s']; [| done]. etrans; [exact Hl |].
  exact (IH (s', drop_option (reservation f) st)).
Qed.

Section connection.
Context {Sk : Type} `{!Socket Sk} {C : Type} `{!Cryptography C} {I : Type} `{!Identity I}.

Abbreviation Conn := (Connection Sk C).
Abbreviation CSt := (Conn * World Sk)%type.

(** ** The connection's invariant *)

(** Every reservation a connection owns. *)
Definition cowners (c : Conn) : list Reservation :=
  option_list (admission c) ++ queue_owners (handshake_output c)
  ++ option_list (wr_reservation (writer c))
  ++ match session c with Some s => queue_owners (outbound s) | None => [] end.

Definition conn_owns (l : list Reservation) (x : CSt) : Prop := owns (l ++ cowners x.1) (w_store x.2).

Definition session_closed (c : Conn) : Prop := ∀ s, session c = Some s → closed s = true.

Definition absent {A} (o : option A) : bool := match o with None => true | Some _ => false end.

(** A terminal state: the socket is released, or only the final response is left. *)
Definition ended (c : Conn) : bool := c_closing c || absent (socket c).

Record conn_inv (c : Conn) : Prop := {
  ci_quiet : socket c = None →
    cowners c = [] ∧ handshake c = None ∧ integrity c = None ∧ session_closed c;
  ci_handshake : ∀ h, handshake c = Some h → session c = None ∧ integrity c = None;
  ci_authenticated : handshake c = None → socket c ≠ None →
    is_Some (session c) ∧ is_Some (integrity c);
  ci_closing : c_closing c = true →
    session_closed c ∧ ∀ h, handshake c = Some h → auth_sent h = false;
}.

(** The events [new] that may be added while [c] becomes [c']. *)
Definition reported (c c' : Conn) (new : list Event) : Prop :=
  if ended c then new = [] ∧ ended c' = true ∧ (session c = None → session c' = None)
  else if ended c' && absent (session c')
  then ∃ f, new = [ConnectionClosed (handle_id (c_handle c)) (Some f)]
  else new = [].

(** What may change between two moments, as the consumer sees it. *)
Record evolves (c c' : Conn) : Prop := {
  ev_handle : c_handle c' = c_handle c;
  ev_session : linked (c_handle c) (session c) (session c');
  ev_events : ∃ new, c_events c' = c_events c ++ new ∧ reported c c' new;
}.

(** The visible fields are the same. *)
Definition same_view (c c' : Conn) : Prop :=
  c_handle c' = c_handle c ∧ c_events c' = c_events c ∧ ended c' = ended c ∧
  stays (session c) (session c').

Lemma same_evolves c c' : same_view c c' → evolves c c'.
Proof.
  intros (H1 & H2 & H3 & H4). split; [done | by apply stays_linked |].
  exists []. rewrite app_nil_r. split; [done |]. unfold reported. rewrite H3.
  destruct (ended c); [| done]. split_and!; [done | done |]. by apply stays_None.
Qed.

Lemma evolves_refl c : evolves c c.
Proof. by apply same_evolves. Qed.

Lemma evolves_trans c1 c2 c3 : evolves c1 c2 → evolves c2 c3 → evolves c1 c3.
Proof.
  intros [A1 A2 (n1 & A3 & A4)] [B1 B2 (n2 & B3 & B4)].
  split; [congruence | eapply linked_trans; [exact A2 |]; by rewrite <- A1 |].
  exists (n1 ++ n2). rewrite B3, A3, app_assoc. split; [done |]. unfold reported in *.
  destruct (ended c1).
  - destruct A4 as (-> & E2 & A4). rewrite E2 in B4. destruct B4 as (-> & E3 & B4). by split_and!; auto.
  - destruct (ended c2); cbn [andb] in A4.
    + destruct B4 as (-> & E3 & B4). rewrite E3, app_nil_r. cbn [andb].
      destruct (session c2) as [s |] eqn:Es; cbn [absent] in A4.
      * cbn in B2. by destruct (session c3).
      * by rewrite (B4 eq_refl).
    + subst n1. cbn [app]. by rewrite <- A1.
Qed.

(** Progress of a method: ownership, invariant and visible evolution. *)
Definition fine (l : list Reservation) (c0 : Conn) (x : CSt) : Prop :=
  conn_owns l x ∧ conn_inv x.1 ∧ evolves c0 x.1.

(** ** Release and abort *)

Lemma release_spec l c w :
  conn_owns l (c, w) →
  let x := release (c, w) in
  conn_owns l x ∧ cowners x.1 = [] ∧ socket x.1 = None ∧ handshake x.1 = None ∧
  integrity x.1 = None ∧ c_handle x.1 = c_handle c ∧ c_events x.1 = c_events c ∧
  c_closing x.1 = c_closing c ∧
  match session c, session x.1 with
  | Some s, Some s' => closed s' = closed s
  | None, None => True
  | _, _ => False
  end ∧ stays (session c) (session x.1).
Proof.
  intros H. unfold conn_owns, cowners in H. cbn [fst snd] in H. unfold release.
  set (cw := match socket c with Some s => _ | None => _ end).
  assert (∃ w1, cw = (set_socket None c, w1) ∧ w_store w1 = w_store w) as (w1 & Ecw & Ew).
  { unfold cw. destruct (socket c) eqn:Es; [by eexists |]. exists w. split; [| done].
    destruct c; cbn in *; by subst. }
  rewrite Ecw. clear cw Ecw. cbn -[discard_output drop_all drop_option]. rewrite Ew.
  set (st1 := drop_option (admission c) (w_store w)).
  set (st2 := drop_all (omap reservation (handshake_output c)) st1).
  assert (owns (l ++ option_list (wr_reservation (writer c)) ++
    match session c with Some s => queue_owners (outbound s) | None => [] end) st2) as H2.
  { apply owns_drop_all, owns_drop_option. own H. }
  destruct (session c) as [s |] eqn:Es.
  - destruct (discard_owns (length (outbound s)) s st2 (l ++ option_list (wr_reservation (writer c))))
      as [Ho H3]; [done | own H2 |].
    pose proof (discard_closed (length (outbound s)) (s, st2)) as Hcl.
    pose proof (discard_later (length (outbound s)) (s, st2)) as Hla.
    destruct (discard_output (length (outbound s)) (s, st2)) as [s' st3]. cbn in Ho, H3, Hcl, Hla.
    cbn -[drop_option]. split_and!; try done.
    + unfold conn_owns, cowners. cbn -[drop_option]. rewrite Ho. apply owns_drop_option. own H3.
    + unfold cowners. cbn. by rewrite Ho.
  - cbn -[drop_option]. rewrite Es. split_and!; try done.
    + unfold conn_owns, cowners. cbn -[drop_option drop_all]. rewrite Es, Ew.
      apply owns_drop_option. own H2.
Qed.

(** Releasing a connection whose session, if any, has ended; [c] need not yet
    look terminal. *)
Lemma release_fine l c0 c w :
  conn_owns l (c, w) → session_closed c →
  (∀ c', c_handle c' = c_handle c → c_events c' = c_events c → ended c' = true →
     stays (session c) (session c') → evolves c0 c') →
  fine l c0 (release (c, w)) ∧ socket (release (c, w)).1 = None.
Proof.
  intros H Hcl Hev.
  destruct (release_spec l c w H) as (H1 & H2 & H3 & H4 & H5 & H6 & H7 & H8 & H9 & H10).
  destruct (release (c, w)) as [c' w']. cbn [fst] in *. split; [| done].
  assert (session_closed c') as Hcl'.
  { intros s' Es'. rewrite Es' in H9. destruct (session c) as [s |] eqn:Es; [| done].
    rewrite H9. by apply Hcl. }
  split_and!; [done | |].
  - split; cbn [fst]; [done | congruence | done | intros _; split; [done | congruence]].
  - cbn [fst]. apply (Hev c'); [exact H6 | exact H7 | |].
    + unfold ended. rewrite H3. apply orb_true_r.
    + exact H10.
Qed.

Lemma close_session_spec l f r s c w :
  conn_owns l (c, w) → session c = Some s →
  let x := close_session f r s (c, w) in
  conn_owns l x ∧ ∃ s', x.1 = set_session (Some s') c ∧ closed s' = true ∧ later s s'.
Proof.
  intros H Es. unfold conn_owns, cowners in H. cbn [fst snd] in H. rewrite Es in H.
  unfold close_session.
  pose proof (close_owns f r s (w_store w) (l ++ option_list (admission c) ++
    queue_owners (handshake_output c) ++ option_list (wr_reservation (writer c)))
    ltac:(own H)) as Hc.
  pose proof (Session_close_closed f r s (w_store w)) as Hcl.
  pose proof (later_exec (SClose f r) s (w_store w) eq_refl) as Hla. cbn [sess_exec] in Hla.
  destruct (Session_close f r (s, w_store w)) as [s' st']. cbn [fst snd] in *. split.
  - unfold conn_owns, cowners. cbn. own Hc.
  - by exists s'.
Qed.

Lemma inv_unended c : conn_inv c → ended c = false → ∃ s, socket c = Some s.
Proof.
  intros _ H. unfold ended in H. apply orb_false_iff in H as [_ H].
  destruct (socket c) as [s |]; [by exists s | done].
Qed.

Lemma abort_fine l c0 d c w :
  conn_owns l (c, w) → conn_inv c → evolves c0 c →
  fine l c0 (abort d (c, w)) ∧ socket (abort d (c, w)).1 = None.
Proof.
  intros H Hi Hev. unfold abort. destruct (socket c) as [sk |] eqn:Esk; [| by split].
  destruct (session c) as [s |] eqn:Es.
  - destruct (close_session_spec l (Some (failure d)) None s c w H Es) as (H1 & s' & E & Hcl & Hla).
    destruct (close_session _ _ _ _) as [c1 w1]. cbn [fst] in E. subst c1.
    apply release_fine; [done | by intros s0 [= <-] |].
    intros c' E1 E2 E3 E4. eapply evolves_trans; [exact Hev |]. cbn in E1, E2, E4.
    destruct (session c') as [s0 |] eqn:Es0; [| done]. split; [done | |].
    { rewrite Es, Es0. exact (later_trans _ _ _ Hla E4). }
    exists []. rewrite app_nil_r. split; [done |]. unfold reported. rewrite E3, Es, Es0.
    by destruct (ended c).
  - destruct (c_closing c) eqn:Ec; cbn [negb].
    + apply release_fine; [done | by intros s0; rewrite Es |].
      intros c' E1 E2 E3 E4. eapply evolves_trans; [exact Hev |].
      split; [done | by apply stays_linked |].
      exists []. rewrite app_nil_r. split; [done |]. unfold reported, ended at 1. rewrite Ec. cbn [orb].
      split_and!; [done | done |]. by apply stays_None.
    + apply release_fine; [done | intros s0; cbn; by rewrite Es |].
      intros c' E1 E2 E3 E4. eapply evolves_trans; [exact Hev |]. cbn in E1, E2, E4.
      split; [done | by apply stays_linked |].
      eexists. split; [exact E2 |]. unfold reported, ended at 1. rewrite Ec, Esk. cbn [orb absent].
      rewrite E3, (stays_None _ _ E4 Es). cbn. by eexists.
Qed.

(** [fail] is reached with the socket held and no final response pending. *)
Lemma fail_fine l c0 d now c w :
  conn_owns l (c, w) → conn_inv c → evolves c0 c → ended c = false →
  fine l c0 (fail d now (c, w)).
Proof.
  intros H Hi Hev Hne. destruct (inv_unended c Hi Hne) as [sk Esk].
  unfold fail. set (safe := negb (FrameWriter_is_busy (writer c)) && _).
  destruct (response (with_safe_output safe d)) as [code |] eqn:Er; [| by apply abort_fine].
  destruct (Instant_checked_add now (timeout c)) as [limit |]; [| by apply abort_fine].
  assert (safe = true) as Hsafe by (destruct safe; [done | by destruct d]).
  set (c1 := set_handshake_output [] (set_c_closing true (set_deadline limit c))).
  set (w1 := on_world (drop_all (omap reservation (handshake_output c))) w).
  assert (conn_owns l (c1, w1)) as H1.
  { unfold conn_owns, cowners in *. cbn -[drop_all] in *. apply owns_drop_all. own H. }
  change (session (set_c_closing true (set_deadline limit c))) with (session c).
  change (session c1) with (session c).
  destruct (session c) as [s |] eqn:Es.
  - destruct (close_session_spec l (Some (failure (with_safe_output safe d))) (Some code) s c1 w1 H1 Es)
      as (H2 & s' & E & Hcl & Hla).
    destruct (close_session _ _ _ _) as [c2 w2]. cbn [fst] in E. subst c2. split_and!; [done | |].
    + split; cbn; try done.
      * intros Hx. congruence.
      * intros h Eh. destruct (ci_handshake _ Hi h Eh) as [? _]. congruence.
      * intros Eh _. split; [by eexists |]. apply (ci_authenticated _ Hi Eh). by rewrite Esk.
      * intros _. split; [by intros s0 [= <-] |]. intros h Eh.
        destruct (ci_handshake _ Hi h Eh) as [? _]. congruence.
    + eapply evolves_trans; [exact Hev |]. split; [done | by rewrite Es |].
      exists []. rewrite app_nil_r. split; [done |]. unfold reported. rewrite Hne. done.
  - assert (∃ h, handshake c = Some h ∧ auth_sent h = false) as (h & Eh & Ha).
    { unfold safe in Hsafe. apply andb_true_iff in Hsafe as [_ Hsafe].
      destruct (handshake c) as [h |] eqn:Eh.
      - exists h. split; [done |]. destruct (ci_handshake _ Hi h Eh) as [_ Ei].
        rewrite Ei, bool_decide_false in Hsafe by (by intros []). cbn in Hsafe.
        unfold send_protection in Hsafe. by destruct (auth_sent h).
      - destruct (ci_authenticated _ Hi Eh) as [Hs _]; [by rewrite Esk |]. rewrite Es in Hs. by destruct Hs. }
    assert (∀ out, conn_inv (set_handshake_output out (push_closed (failure (with_safe_output safe d)) c1))) as Hinv.
    { intros out. split; cbn; try done.
      - intros Hx. congruence.
      - intros h' Eh'. apply (ci_handshake _ Hi h' Eh').
      - intros Ex. congruence.
      - intros _. split; [intros s0; cbn; by rewrite Es |]. intros h' Eh'. congruence. }
    assert (∀ out, evolves c0 (set_handshake_output out (push_closed (failure (with_safe_output safe d)) c1))) as Hev'.
    { intros out. eapply evolves_trans; [exact Hev |]. split; [done | by apply stays_linked |].
      eexists. split; [reflexivity |]. unfold reported. rewrite Hne. cbn. rewrite Es. cbn. by eexists. }
    destruct (error_frame code) as [f |]; [| by split_and!; [| apply (Hinv []) | apply (Hev' [])]].
    pose proof (owns_reserve (c_resources c) (len (payload f) + 12) _ _ H1) as Hr. cbn [snd] in Hr.
    match goal with |- context [Resources_outbound ?a ?b ?x] =>
      change (Resources_outbound a b x) with
        (Resources_outbound (c_resources c) (len (payload f) + 12) (w_store w1)) end.
    destruct (Resources_outbound _ _ _) as [r st]. cbn [fst snd] in Hr.
    destruct r as [r |].
    + split_and!; [| apply Hinv | apply Hev']. unfold conn_owns, cowners in *. cbn in *. own Hr.
    + split_and!; [exact Hr | apply (Hinv []) | apply (Hev' [])].
Qed.

Lemma take_established_unsent (h : Handshake C) :
  auth_sent h = false → take_established h = (None, h).
Proof. intros Ha. unfold take_established, is_authenticated. by rewrite Ha, andb_false_r. Qed.

Lemma establish_fine l c0 c w :
  conn_owns l (c, w) → conn_inv c → evolves c0 c → fine l c0 (establish (c, w)).
Proof.
  intros H Hi Hev. unfold establish. destruct (handshake c) as [h |] eqn:Eh; [| by split_and!].
  destruct (ci_handshake _ Hi h Eh) as [Es Eg].
  assert (socket c ≠ None) as Esk by (intros Hx; destruct (ci_quiet _ Hi Hx) as (_ & ? & _); congruence).
  destruct (take_established h) as [taken h'] eqn:Et.
  assert (conn_inv (set_handshake (Some h') c)) as Hi1.
  { split; cbn; try done.
    - intros Hc. destruct (ci_closing _ Hi Hc) as [Hcl Hn]. split; [exact Hcl |].
      intros h0 [= <-]. specialize (Hn h Eh). rewrite take_established_unsent in Et by done.
      by injection Et as _ <-. }
  destruct taken as [e |].
  2:{ split_and!; [exact H | exact Hi1 |]. eapply evolves_trans; [exact Hev |]. by apply same_evolves. }
  destruct (c_closing c) eqn:Ec.
  { destruct (ci_closing _ Hi Ec) as [_ Hn]. rewrite take_established_unsent in Et by auto. done. }
  cbn [c_handle set_handshake].
  pose proof (born_new (c_handle c) (est_role e) (est_local_identity e) (est_peer_identity e)
    (c_resources c) (w_store w)) as Hb. unfold with_handle in *.
  set (lim := mkResourceLimits 1 256 _ _).
  pose proof (owns_new lim (l ++ cowners c) (w_store w) eq_refl eq_refl H) as Hn.
  destruct (Resources_new lim (w_store w)) as [res st]. cbn [snd] in Hn. split_and!.
  - unfold conn_owns, cowners in *. cbn in *. rewrite Es in Hn. own Hn.
  - split; cbn; try done; try congruence.
  - eapply evolves_trans; [exact Hev |]. split; [done | by rewrite Es |].
    exists []. rewrite app_nil_r. split; [done |]. unfold reported, ended. cbn. rewrite Ec.
    destruct (socket c); done.
Qed.

(** ** Output *)

(** Taking the next frame moves its reservation out of the connection. *)
Lemma next_frame_spec l c w :
  conn_owns l (c, w) → conn_inv c → ended c = false ∨ socket c ≠ None →
  let '(f, c') := next_frame c in
  owns (l ++ match f with Some f => option_list (reservation f) | None => [] end ++ cowners c') (w_store w) ∧
  conn_inv c' ∧ same_view c c' ∧ socket c' = socket c ∧ integrity c' = integrity c ∧
  c_closing c' = c_closing c.
Proof.
  intros H Hi Hs0. assert (socket c ≠ None) as Hs.
  { destruct Hs0 as [Hs0 | ?]; [| done]. by destruct (inv_unended c Hi Hs0) as [sk ->]. }
  unfold next_frame. destruct (session c) as [s |] eqn:Es.
  - pose proof (pop_owns s (w_store w) (l ++ option_list (admission c) ++
      queue_owners (handshake_output c) ++ option_list (wr_reservation (writer c)))) as Hp.
    unfold conn_owns, cowners in H. cbn [fst snd] in H. rewrite Es in H.
    specialize (Hp ltac:(own H)).
    assert (closed (pop_outbound s).2 = closed s) as Hcl.
    { unfold pop_outbound. by destruct (next_output_cases s) as [-> | (? & ? & ->)]. }
    pose proof (later_exec SPopOutbound s (w_store w) eq_refl) as Hla. cbn [sess_exec fst] in Hla.
    destruct (pop_outbound s) as [f s']. cbn [fst snd] in *. split_and!; try done.
    + unfold cowners. cbn. own Hp.
    + split; cbn; try done.
      * intros h Eh. destruct (ci_handshake _ Hi h Eh) as [? _]. congruence.
      * intros Eh _. split; [by eexists |]. by apply (ci_authenticated _ Hi Eh).
      * intros Hc. destruct (ci_closing _ Hi Hc) as [Hc1 Hc2]. split; [| done].
        intros s0. unfold session_closed. cbn. intros [= <-]. rewrite Hcl. by apply Hc1.
    + split_and!; try done. cbn. by rewrite Es.
  - unfold conn_owns, cowners in H. cbn [fst snd] in H. rewrite Es in H.
    destruct (handshake_output c) as [| f rest] eqn:Eo.
    + split_and!; try done. unfold cowners. rewrite Eo, Es. own H.
    + split_and!; try done.
      * unfold cowners. cbn. rewrite Es. rewrite queue_owners_cons in H. own H.
      * split; cbn; try done; [apply (ci_handshake _ Hi) | apply (ci_authenticated _ Hi) |].
        apply (ci_closing _ Hi).
Qed.

Lemma conn_inv_writer wr c :
  socket c ≠ None → conn_inv c → conn_inv (set_writer wr c).
Proof. intros Hs [H1 H2 H3 H4]. by split. Qed.
Lemma conn_inv_writing x c : conn_inv c → conn_inv (set_writing x c).
Proof. intros [H1 H2 H3 H4]. by split. Qed.
Lemma conn_inv_integrity g c :
  integrity c ≠ None → conn_inv c → conn_inv (set_integrity (Some g) c).
Proof.
  intros Hg [H1 H2 H3 H4]. split; cbn.
  - intros Hs. destruct (H1 Hs) as (_ & _ & ? & _). done.
  - intros h Eh. by destruct (H2 h Eh).
  - intros Eh Hs. split; [by apply H3 | by eexists].
  - exact H4.
Qed.

Lemma conn_inv_session s s' c :
  conn_inv c → session c = Some s →
  (closed s = true → outbound s' = outbound s) → (closed s = true → closed s' = true) →
  conn_inv (set_session (Some s') c).
Proof.
  intros [A1 A2 A3 A4] Es Ho Hc. split; cbn.
  - intros Hs. destruct (A1 Hs) as (B1 & B2 & B3 & B4). unfold cowners in *. cbn. rewrite Es in B1.
    rewrite Ho by by apply B4. split_and!; try done. intros s0 [= <-]. by apply Hc, B4.
  - intros h Eh. destruct (A2 h Eh). congruence.
  - intros Eh Hs. split; [by eexists | by apply A3].
  - intros Hx. destruct (A4 Hx) as [B1 B2]. split; [| done]. intros s0 [= <-]. by apply Hc, B1.
Qed.

Lemma start_output_fine l cr c w :
  conn_owns l (c, w) → conn_inv c → socket c ≠ None →
  fine l c (start_output cr (c, w)).2 ∧
  (c_closing c = c_closing (start_output cr (c, w)).2.1 ∨ (start_output cr (c, w)).1 = false).
Proof.
  intros H Hi Hs. unfold start_output.
  destruct (FrameWriter_is_busy (writer c)); [by split; [split_and!; [| | apply evolves_refl] | left] |].
  pose proof (next_frame_spec l c w H Hi (or_intror Hs)) as Hn.
  destruct (next_frame c) as [[frame |] c1]; destruct Hn as (Ho & Hi1 & Hv & Es1 & Eg1 & Ec1).
  2:{ cbn [app] in Ho. split; [| by right]. rewrite Ec1. destruct (c_closing c) eqn:Ec.
      - destruct (ci_closing _ Hi1 Ec1) as [Hcl _]. apply release_fine; [exact Ho | done |].
        intros c' E1 E2 E3 E4. apply same_evolves. destruct Hv as (V1 & V2 & V3 & V4).
        split_and!; [congruence | congruence | | by etrans]. rewrite E3. unfold ended. by rewrite Ec.
      - split_and!; [exact Ho | exact Hi1 | by apply same_evolves]. }
  set (prep := match integrity c1 with None => _ | Some g => _ end).
  assert (∃ sealed phase c2 w2, prep = (sealed, phase, (c2, w2)) ∧ conn_inv c2 ∧ same_view c c2 ∧
    socket c2 = socket c ∧ c_closing c2 = c_closing c ∧ writer c2 = writer c1 ∧
    owns (l ++ match sealed with Ok f => option_list (reservation f) | Err _ => [] end ++ cowners c2) (w_store w2))
    as (sealed & phase & c2 & w2 & -> & Hi2 & Hv2 & Es2 & Ec2 & _ & Ho2).
  { unfold prep. destruct (integrity c1) as [g |] eqn:Eg.
    - pose proof (seal_owns frame cr g (w_store w) (l ++ cowners c1) ltac:(own Ho)) as Hsl.
      destruct (Integrity_seal frame cr (g, w_store w)) as [r [g' st']].
      exists r, Tagged, (set_integrity (Some g') c1), (set_store st' w).
      split_and!; try done; [by apply conn_inv_integrity; [rewrite Eg |] |].
      change (cowners (set_integrity (Some g') c1)) with (cowners c1). cbn. destruct r; own Hsl.
    - exists (Ok frame), Untagged, c1, w. by split_and!. }
  destruct sealed as [f | error].
  2:{ split; [| by right]. apply abort_fine; [exact Ho2 | done | by apply same_evolves]. }
  assert (socket c2 ≠ None) as Hs2 by (by rewrite Es2).
  pose proof (start_owns f phase (writer c2) (w_store w2) (l ++ option_list (admission c2) ++
    queue_owners (handshake_output c2) ++ match session c2 with Some s => queue_owners (outbound s) | None => [] end)
    ltac:(unfold cowners in Ho2; own Ho2)) as Hst.
  destruct (FrameWriter_start f phase (writer c2, w_store w2)) as [started [wr st]].
  assert (conn_owns l (set_writer wr c2, set_store st w2)) as H3.
  { unfold conn_owns, cowners. cbn. own Hst. }
  destruct started as [[] | error].
  - split; [| by left]. split_and!; [exact H3 | by apply conn_inv_writing, conn_inv_writer |].
    by apply same_evolves.
  - split; [| by right]. apply abort_fine; [exact H3 | by apply conn_inv_writer | by apply same_evolves].
Qed.

(** Replacing the session by one with the same queue and liveness. *)
Lemma report_fine l c0 c w s s' :
  fine l c0 (c, w) → session c = Some s → outbound s' = outbound s → closed s' = closed s →
  later s s' → fine l c0 (set_session (Some s') c, w).
Proof.
  intros (H & Hi & Hev) Es Eo Ec Hla. split_and!.
  - unfold conn_owns, cowners in *. cbn in *. by rewrite Eo; rewrite Es in H.
  - destruct Hi as [H1 H2 H3 H4]. split; cbn in *.
    + intros Hs. destruct (H1 Hs) as (A & B & D & F). unfold cowners in *. cbn. rewrite Es in A.
      rewrite Eo. split_and!; try done. intros s0. cbn. intros [= <-]. rewrite Ec. by apply F.
    + intros h Eh. destruct (H2 h Eh) as [? ?]. congruence.
    + intros Eh Hs. split; [by eexists | by apply H3].
    + intros Hc. destruct (H4 Hc) as [A B]. split; [| done]. intros s0. cbn. intros [= <-]. rewrite Ec.
      by apply A.
  - eapply evolves_trans; [exact Hev |]. apply same_evolves. split_and!; try done. cbn. by rewrite Es.
Qed.

Lemma finish_output_fine l c0 now c w :
  fine l c0 (c, w) → socket c ≠ None → fine l c0 (finish_output now (c, w)).2.
Proof.
  intros Hf Hs. unfold finish_output. destruct (writing c) as [[[kind id] phase] |]; [| done].
  assert (fine l c0 (set_writing None c, w)) as Hf1.
  { destruct Hf as (H & Hi & Hev). split_and!; [done | by apply conn_inv_writing |].
    eapply evolves_trans; [exact Hev | by apply same_evolves]. }
  set (c1 := set_writing None c) in *. assert (socket c1 ≠ None) as Hs1 by done. clearbody c1. clear Hf.
  set (report := λ c0 : Conn, match session c0 with
    | Some s => set_session (Some (Session_sent kind id s)) c0 | None => c0 end).
  change (fine l c0 (if bool_decide (phase = Tagged) then
      match integrity c1 with
      | None => (true, (report c1, w))
      | Some g => let '(r, g) := Integrity_sent g in
        let c := set_integrity (Some g) c1 in
        match r with
        | Err error => (false, abort (Disposition_integrity error) (c, w))
        | Ok _ => (true, (report c, w))
        end
      end
    else if negb (c_closing c1) then
      match handshake c1 with
      | None => (true, (report c1, w))
      | Some h => let '(r, h) := Handshake_sent kind h in
        let c := set_handshake (Some h) c1 in
        match r with
        | Err error => (false, fail (Disposition_handshake error) now (c, w))
        | Ok _ => (true, (report c, w))
        end
      end
    else (true, (report c1, w))).2).
  assert (∀ c2 w2, fine l c0 (c2, w2) → fine l c0 (report c2, w2)) as Hrep.
  { intros c2 w2 Hf2. unfold report. destruct (session c2) as [s |] eqn:Es; [| done].
    eapply report_fine; [done | done | apply sent_outbound | apply sent_closed |].
    exact (later_exec (SSent kind id) s (w_store w2) eq_refl). }
  clearbody report. destruct Hf1 as (H & Hi & Hev). destruct (bool_decide (phase = Tagged)).
  - destruct (integrity c1) as [g |] eqn:Eg; [| by apply Hrep; split_and!].
    destruct (Integrity_sent g) as [r g'].
    assert (fine l c0 (set_integrity (Some g') c1, w)) as (H2 & Hi2 & Hev2).
    { split_and!; [done | by apply conn_inv_integrity; [rewrite Eg |] |].
      eapply evolves_trans; [exact Hev | by apply same_evolves]. }
    destruct r as [[] | error]; [by apply Hrep; split_and! | by apply abort_fine].
  - destruct (c_closing c1) eqn:Ec; cbn [negb]; [by apply Hrep; split_and! |].
    destruct (handshake c1) as [h |] eqn:Eh; [| by apply Hrep; split_and!].
    destruct (Handshake_sent kind h) as [r h'].
    assert (fine l c0 (set_handshake (Some h') c1, w)) as (H2 & Hi2 & Hev2).
    { destruct (ci_handshake _ Hi h Eh) as [E1 E2]. split_and!; [done | |].
      - split; cbn; try done. by rewrite Ec.
      - eapply evolves_trans; [exact Hev | by apply same_evolves]. }
    destruct r as [[] | error]; [by apply Hrep; split_and! |].
    apply fail_fine; try done. unfold ended. cbn. rewrite Ec. by destruct (socket c1).
Qed.

Lemma write_fine l cr now c w :
  conn_owns l (c, w) → conn_inv c → fine l c (write cr now (c, w)).2.
Proof.
  intros H Hi. unfold write. destruct (socket c) as [sk |] eqn:Es;
    [| split_and!; [done | done | apply evolves_refl]].
  destruct (start_output_fine l cr c w H Hi) as [(H1 & Hi1 & Hev1) _]; [by rewrite Es |].
  destruct (start_output cr (c, w)) as [go [c1 w1]]. cbn [snd fst] in *.
  destruct (negb go); [by split_and! |]. destruct (socket c1) as [sk1 |] eqn:Es1; [| by split_and!].
  pose proof (poll_flush_owns 64 (writer c1) sk1 (w_store w1) (w_cx w1) (l ++ option_list (admission c1) ++
    queue_owners (handshake_output c1) ++ match session c1 with Some s => queue_owners (outbound s) | None => [] end)
    ltac:(unfold conn_owns, cowners in H1; own H1)) as Hfl.
  unfold FrameWriter_poll_flush. destruct (poll_flush_within 64 _ _ _ _) as [[[[flushed wr] sk2] st] cx].
  set (c2 := set_socket (Some sk2) (set_writer wr c1)).
  assert (fine l c (c2, mkWorld st (w_released w1) cx)) as (H2 & Hi2 & Hev2).
  { split_and!.
    - unfold conn_owns, cowners. cbn. own Hfl.
    - destruct Hi1 as [A1 A2 A3 A4]. split; cbn; try done. intros Eh _. apply A3; [done |]. by rewrite Es1.
    - eapply evolves_trans; [exact Hev1 |]. apply same_evolves. split_and!; try done.
      unfold ended. cbn. by rewrite Es1. }
  destruct flushed as [[[] | error] |]; [| by apply abort_fine | by split_and!].
  by apply finish_output_fine; [split_and! |].
Qed.

(** ** Input *)

Abbreviation RSt := (Conn * I * C * World Sk)%type.

Definition fine_r (l : list Reservation) (c0 : Conn) (x : RSt) : Prop :=
  fine l c0 (x.1.1.1, x.2).

Lemma on_world_nothing (w : World Sk) : on_world (drop_option None) w = w.
Proof. by destruct w. Qed.

Lemma receive_handshake_fine l c0 h frame now c (i : I) (cr : C) w :
  fine l c0 (c, w) → ended c = false → handshake c = Some h → reservation frame = None →
  fine_r l c0 (receive_handshake h frame now (c, i, cr, w)).
Proof.
  intros (H & Hi & Hev) Hne Eh Hres. cbn [fst] in Hi, Hev. unfold receive_handshake. rewrite Hres, on_world_nothing.
  destruct (Handshake_receive frame (h, i, cr)) as [result [[h' i'] cr']].
  destruct (ci_handshake _ Hi h Eh) as [Es Eg]. set (c1 := set_handshake (Some h') c).
  assert (conn_owns l (c1, w) ∧ conn_inv c1 ∧ evolves c0 c1) as (H1 & Hi1 & Hev1).
  { split_and!; [done | |].
    - split; cbn; try done.
      + intros Hx. destruct (ci_quiet _ Hi Hx) as (_ & ? & _). congruence.
      + intros Hc. unfold ended in Hne. by rewrite Hc in Hne.
    - eapply evolves_trans; [exact Hev | by apply same_evolves]. }
  destruct result as [[auth |] | error]; [| by split_and! |].
  - pose proof (owns_reserve (c_resources c1) (len (payload auth) + 12) _ _ H1) as Hr. cbn [snd] in Hr.
    destruct (Resources_outbound _ _ _) as [r st]. cbn [fst snd] in Hr. destruct r as [r |].
    + unfold fine_r. cbn [fst snd]. split_and!.
      * unfold conn_owns, cowners in *. cbn in *. own Hr.
      * destruct Hi1 as [A1 A2 A3 A4]. split; cbn; try done.
        intros Hx. destruct (ci_quiet _ Hi Hx) as (_ & ? & _). congruence.
      * eapply evolves_trans; [exact Hev1 | by apply same_evolves].
    + pose proof (proj1 (abort_fine l c0 (local_failure FcResourceLimit) c1 (set_store st w) Hr Hi1 Hev1)) as Ha.
      by destruct (abort _ _).
  - pose proof (fail_fine l c0 (Disposition_handshake error) now c1 w H1 Hi1 Hev1 Hne) as Ha.
    by destruct (fail _ _ _).
Qed.

Lemma verify_unowned frame cr g st :
  reservation frame = None →
  let '(r, (g', st')) := Integrity_verify (C := C) frame cr (g, st) in
  st' = st ∧ match r with Ok v => verified v = frame | Err _ => True end.
Proof.
  intros Hres. unfold Integrity_verify, Integrity_fail. rewrite Hres. cbn.
  destruct (int_receive g); [| done]. destruct (tag frame); [| done].
  destruct (verify_tag _ _ _ _ _); [| done]. by destruct (checked_add _ _ _).
Qed.

Lemma receive_session_fine l c0 g frame now registry (cr : C) c w :
  fine l c0 (c, w) → ended c = false → handshake c = None → integrity c = Some g →
  reservation frame = None → fine l c0 (receive_session g frame now registry cr (c, w)).
Proof.
  intros (H & Hi & Hev) Hne Eh Eg Hres. cbn [fst] in Hi, Hev. unfold receive_session.
  pose proof (verify_unowned frame cr g (w_store w) Hres) as Hv.
  destruct (Integrity_verify frame cr (g, w_store w)) as [result [g' st']]. destruct Hv as [-> Hv].
  set (c1 := set_integrity (Some g') c).
  assert (fine l c0 (c1, set_store (w_store w) w)) as (H1 & Hi1 & Hev1).
  { split_and!; [done | by apply conn_inv_integrity; [rewrite Eg |] |].
    eapply evolves_trans; [exact Hev | by apply same_evolves]. }
  destruct result as [v | error]; [| by apply abort_fine].
  assert (socket c ≠ None) as Hsk by (by destruct (inv_unended c Hi Hne) as [sk ->]).
  destruct (ci_authenticated _ Hi Eh Hsk) as [[s Es] _].
  change (session c1) with (session c). rewrite Es.
  assert (owns ((l ++ option_list (admission c) ++ queue_owners (handshake_output c) ++
    option_list (wr_reservation (writer c))) ++ queue_owners (outbound s)) (w_store w)) as Ho.
  { unfold conn_owns, cowners in H. cbn [fst snd] in H. rewrite Es in H. own H. }
  apply balanced_owns in Ho. rewrite <- (app_nil_l (l ++ _)) in Ho.
  change [] with (option_list (@None Reservation)) in Ho. rewrite <- Hres, <- Hv in Ho.
  apply (keeps_receive base _ v registry now) in Ho.
  change (w_store (set_store (w_store w) w)) with (w_store w).
  pose proof (later_exec (SReceive v registry now) s (w_store w) eq_refl) as Hla. cbn [sess_exec] in Hla.
  destruct (Session_receive v registry now (s, w_store w)) as [r [s' st'']]. cbn [snd fst] in Ho, Hla.
  apply balanced_owns in Ho. set (c2 := set_session (Some s') c1).
  assert (conn_owns l (c2, set_store st'' w)) as H2 by (unfold conn_owns, cowners; cbn; own Ho).
  assert (∀ c', c_handle c' = c_handle c → c_events c' = c_events c →
    stays (Some s') (session c') → evolves c0 c') as Hev2.
  { intros c' E1 E2 E3. eapply evolves_trans; [exact Hev |]. split; [done | |].
    - rewrite Es. apply stays_linked. by transitivity (Some s').
    - exists []. rewrite E2, app_nil_r. split; [done |]. unfold reported. rewrite Hne.
      destruct (session c'); [by rewrite andb_false_r | done]. }
  unfold Session_is_closed. destruct (closed s') eqn:Hc'.
  - destruct (FrameWriter_is_busy (writer c2)).
    + apply release_fine; [exact H2 | by intros s0 [= <-] |]. intros c' E1 E2 E3 E4. by apply Hev2.
    + split_and!; [exact H2 | | by apply Hev2]. split; cbn; try done.
      * intros h Eh'. congruence.
      * intros _. split; [by intros s0 [= <-] |]. intros h Eh'. congruence.
  - split_and!; [exact H2 | | by apply Hev2]. split; cbn; try done.
    + intros h Eh'. congruence.
    + intros Hx. unfold ended in Hne. by rewrite Hx in Hne.
Qed.

(** A graceful close: the session has drained and nothing is being written. *)
Lemma graceful_fine l c0 s c w :
  fine l c0 (c, w) → session c = Some s →
  fine l c0 (release (close_session None None s (c, w))).
Proof.
  intros (H & Hi & Hev) Es. cbn [fst] in Hi, Hev.
  destruct (close_session_spec l None None s c w H Es) as (H1 & s' & E & Hcl & Hla).
  destruct (close_session _ _ _ _) as [c1 w1]. cbn [fst] in E. subst c1.
  apply release_fine; [exact H1 | by intros s0 [= <-] |]. intros c' E1 E2 E3 E4.
  eapply evolves_trans; [exact Hev |]. cbn in E1, E2, E4.
  destruct (session c') as [s0 |] eqn:Es0; [| done]. split; [done | |].
  { rewrite Es, Es0. exact (later_trans _ _ _ Hla E4). }
  exists []. rewrite app_nil_r. split; [done |]. unfold reported. rewrite E3, Es0.
  destruct (ended c); [| done]. split_and!; [done | done |]. intros Hx. congruence.
Qed.

Lemma read_fine l now registry c (i : I) (cr : C) w :
  conn_owns l (c, w) → conn_inv c → ended c = false →
  fine_r l c (read now registry (c, i, cr, w)).2.
Proof.
  intros H Hi Hne. unfold read. set (phase := match handshake c with Some h => _ | None => _ end).
  assert (fine_r l c (c, i, cr, w)) as Hsame by (by split_and!; [| | apply evolves_refl]).
  destruct (bool_decide (phase = Tagged) && bool_decide (integrity c = None)); [exact Hsame |].
  destruct (inv_unended c Hi Hne) as [sk Esk]. rewrite Esk.
  unfold FrameReader_poll_frame.
  destruct (poll_frame_within 64 (reader c) sk (w_cx w) phase) as [[[polled rd] sk'] cx] eqn:Ep.
  set (c1 := set_socket (Some sk') (set_reader rd c)).
  assert (fine l c (c1, mkWorld (w_store w) (w_released w) cx)) as Hf1.
  { split_and!; [done | |].
    - destruct Hi as [A1 A2 A3 A4]. split; cbn; try done. intros Eh _. apply A3; [done |]. by rewrite Esk.
    - apply same_evolves. split_and!; try done. unfold ended. cbn. by rewrite Esk. }
  assert (ended c1 = false) as Hne1.
  { unfold ended in *. cbn. rewrite Esk in Hne. exact Hne. }
  destruct polled as [[[frame |] | error] |]; [| | | exact Hf1].
  - apply poll_frame_unowned in Ep. destruct (handshake c1) as [h |] eqn:Eh.
    + by apply receive_handshake_fine.
    + destruct (integrity c1) as [g |] eqn:Eg.
      * pose proof (receive_session_fine l c g frame now registry cr c1 _ Hf1 Hne1 Eh Eg Ep) as Hr.
        by destruct (receive_session _ _ _ _ _ _).
      * rewrite Ep, on_world_nothing. exact Hf1.
  - destruct Hf1 as (H1 & Hi1 & Hev1). destruct (session c1) as [s |] eqn:Es.
    + destruct (ready_to_close s && negb (FrameWriter_is_busy (writer c1))).
      * pose proof (graceful_fine l c s c1 _ (conj H1 (conj Hi1 Hev1)) Es) as Hg. by destruct (release _).
      * pose proof (proj1 (abort_fine l c (local_failure FcConnectionLost) c1 _ H1 Hi1 Hev1)) as Ha.
        by destruct (abort _ _).
    + pose proof (proj1 (abort_fine l c (local_failure FcConnectionLost) c1 _ H1 Hi1 Hev1)) as Ha.
      by destruct (abort _ _).
  - destruct Hf1 as (H1 & Hi1 & Hev1).
    pose proof (fail_fine l c (Disposition_framing error) now c1 _ H1 Hi1 Hev1 Hne1) as Ha.
    by destruct (fail _ _ _).
Qed.

Lemma fine_trans l c0 c w x : fine l c0 (c, w) → fine l c x → fine l c0 x.
Proof.
  intros (_ & _ & H1) (H2 & H3 & H4). split_and!; [done | done |]. by eapply evolves_trans.
Qed.

(** ** Polling *)

Lemma turn_fine l c0 now registry c (i : I) (cr : C) w :
  fine l c0 (c, w) →
  let '(t, x) := turn now registry (c, i, cr, w) in
  fine_r l c0 x ∧ (t = TurnReady → socket x.1.1.1 = None).
Proof.
  intros Hf. unfold turn. pose proof Hf as (H & Hi & _).
  pose proof (fine_trans _ _ _ _ _ Hf (write_fine l cr now c w H Hi)) as H1.
  destruct (write cr now (c, w)) as [p [c1 w1]]. cbn [snd] in H1. destruct H1 as (A1 & B1 & E1).
  pose proof (establish_fine l c0 c1 w1 A1 B1 E1) as H2.
  destruct (establish (c1, w1)) as [c2 w2]. destruct (socket c2) as [sk |] eqn:Es2; [| by split].
  set (rx := if negb (c_closing c2) then _ else _).
  assert (fine_r l c0 rx.2) as H3.
  { unfold rx. destruct (c_closing c2) eqn:Ec; cbn [negb]; [exact H2 |].
    pose proof H2 as (A2 & B2 & _).
    pose proof (read_fine l now registry c2 i cr w2 A2 B2) as Hr.
    specialize (Hr ltac:(unfold ended; by rewrite Ec, Es2)).
    destruct (read now registry (c2, i, cr, w2)) as [more x]. cbn [snd] in *.
    by eapply fine_trans. }
  destruct rx as [p' [[[c3 i3] cr3] w3]]. cbn [snd fst] in H3. destruct H3 as (A3 & B3 & E3).
  pose proof (establish_fine l c0 c3 w3 A3 B3 E3) as H4.
  destruct (establish (c3, w3)) as [c4 w4].
  set (rx := match session c4 with Some s => _ | None => _ end).
  assert (fine l c0 rx) as H5.
  { unfold rx. destruct (session c4) as [s |] eqn:Es; [| exact H4].
    destruct (ready_to_close s && _); [by apply graceful_fine | exact H4]. }
  destruct rx as [c5 w5]. destruct (socket c5) as [sk5 |] eqn:Es5; [| by split].
  split; [exact H5 |]. by destruct p'.
Qed.

Lemma turns_fine l c0 now registry fuel : ∀ x,
  fine_r l c0 x →
  let '(t, y) := turns fuel now registry x in
  fine_r l c0 y ∧ (t = Ready tt → socket y.1.1.1 = None).
Proof.
  induction fuel as [| fuel IH]; intros [[[c i] cr] w] Hf; cbn [turns]; [by split |].
  pose proof (turn_fine l c0 now registry c i cr w Hf) as Ht.
  destruct (turn now registry (c, i, cr, w)) as [t x]. destruct Ht as [H1 H2].
  destruct t; [split; [done | by intros _; apply H2] | done | by apply IH].
Qed.

Lemma tick_closed t s : closed (tick t s) = closed s.
Proof.
  unfold tick. set (s0 := set_now (Some t) s). change (closed s) with (closed s0).
  generalize (filter (λ token,
    match pings s0 !! token with Some (_, d) => d <=? t | None => false end = true)
    (ping_keys (pings s0))) as l. intros l. generalize s0. clear s0.
  induction l as [| x l IH]; intros s0; [done |]. cbn [foldl]. by rewrite IH.
Qed.

Lemma poll_fine l budget now registry c (i : I) (cr : C) w :
  conn_owns l (c, w) → conn_inv c →
  let '(t, y) := Connection_poll_within budget now registry (c, i, cr, w) in
  fine_r l c y ∧ (t = Ready tt → socket y.1.1.1 = None).
Proof.
  intros H Hi. assert (fine l c (c, w)) as Hf by (split_and!; [done | done | apply evolves_refl]).
  unfold Connection_poll_within. destruct (socket c) as [sk |] eqn:Es; [| by split].
  destruct (_ && _).
  - pose proof (abort_fine l c (local_failure FcDeadlineExceeded) c w H Hi (evolves_refl c)) as [Ha Hb].
    by destruct (abort _ _).
  - apply turns_fine. unfold fine_r. cbn [fst snd]. destruct (session c) as [s |] eqn:Ess; [| done].
    eapply report_fine; [exact Hf | done | apply tick_outbound | apply tick_closed |].
    exact (later_exec (STick now) s (w_store w) eq_refl).
Qed.

End connection.

End layers.
