(* ===== verification/ConnectionRuns.v ===== *)
(** * Connection runs

    A whole connection's life: admission, any sequence of polls, closes, session
    requests and event deliveries, and what its consumer may rely on throughout. *)

From S2P Require Import Prelude Bytes Header Control HandshakeCodec Api Resources Framing Ports.
From S2P Require Import Handshake Integrity StreamIds Registry Session SessionSteps.
From S2P Require Import SchedulerProps SessionProps SessionReservations Connection ConnectionProps.

#[local] Open Scope N_scope.

(** ** A closed session queues nothing *)

(** The operations of [Connection::session] that the driver uses. *)
Definition is_request (call : sess_call) : bool :=
  match call with
  | SOpen _ _ | SSend _ _ _ | SEnd _ _ | SCancel _ _ _ | SDrain _ | SPing _ _ _ => true
  | _ => false
  end.

Lemma request_outbound call s st :
  is_request call = true → closed s = true →
  outbound (sess_exec call (s, st)).1 = outbound s ∧ closed (sess_exec call (s, st)).1 = true.
Proof.
  intros Hr Hc. assert (∀ {A} (k : unit → SM A), (c ← Session.read closed; ensure (negb c) SeClosed;; k tt) (s, st)
      = (Err SeClosed, (s, st))) as Hclosed.
  { intros A k. erewrite bind_Ok by done. rewrite Hc. by erewrite bind_Err. }
  destruct call as [registry owner | owner stream data | owner stream | owner stream reason | | |
    reason | token timeout t | | | | |]; try done; cbn [sess_exec fst snd];
    unfold Session_open, Session_send, Session_end, cancel, drain, ping;
    by rewrite (Hclosed _ (λ _, _)).
Qed.

Section issued.
Context (base : N).

Abbreviation owns := (owns base).
Abbreviation conn_owns := (conn_owns base).

Lemma request_balanced call s st l :
  is_request call = true →
  owns (l ++ queue_owners (outbound s)) st →
  owns (l ++ queue_owners (outbound (sess_exec call (s, st)).1)) (sess_exec call (s, st)).2.
Proof.
  intros Hr H. apply balanced_owns in H. destruct call; try done; cbn [sess_exec].
  - apply (keeps_open base l registry owner) in H. destruct (Session_open _ _ _) as [? []]. by apply balanced_owns.
  - apply (keeps_send base l owner stream data) in H. destruct (Session_send _ _ _ _) as [? []].
    by apply balanced_owns.
  - apply (keeps_end base l owner stream) in H. destruct (Session_end _ _ _) as [? []]. by apply balanced_owns.
  - apply (keeps_cancel base l owner stream reason) in H. destruct (cancel _ _ _ _) as [? []].
    by apply balanced_owns.
  - apply (keeps_drain base l reason) in H. destruct (drain _ _) as [? []]. by apply balanced_owns.
  - apply (keeps_ping base l token timeout t) in H. destruct (ping _ _ _ _) as [? []]. by apply balanced_owns.
Qed.

Section runs.
Context {Sk : Type} `{!Socket Sk} {C : Type} `{!Cryptography C} {I : Type} `{!Identity I}.

Abbreviation Conn := (Connection Sk C).
Abbreviation RSt := (Conn * I * C * World Sk)%type.

(** ** Admission *)

Lemma begin_owns l (s : Sk) options config now (i : I) resources crypto w :
  owns l (w_store w) →
  let '(r, (_, w')) := begin_shared s options config now i resources (crypto, w) in
  match r with
  | Ok c =>
    base ≤ handle_id (c_handle c) ∧ ConnectionProps.conn_owns (handle_id (c_handle c) + 1) l (c, w') ∧
    conn_inv c ∧ c_events c = [] ∧ session c = None ∧ ended c = false
  | Err _ => owns l (w_store w') ∧ w_released w' = w_released w ++ [(socket_close s).2]
  end.
Proof.
  intros H. unfold begin_shared, Resources_connection.
  destruct (reserve (connections_counter resources) 1 (w_store w)) as [[adm |] st] eqn:E1;
    [| by apply reserve_None in E1 as ->].
  assert (owns (adm :: l) st) as H1.
  { destruct H as [A B]. split.
    - change st with (Some adm, st).2. rewrite <- E1. by apply reserve_from.
    - intros r. rewrite (refs_of_reserve _ _ _ _ _ _ (from_wf _ _ A) E1), B. cbn. lia. }
  pose proof (owns_reserve resources 112 _ _ H1) as H2.
  destruct (Resources_outbound resources 112 st) as [[hr |] st2]; cbn [fst snd option_list app] in H2;
    [| split; [by apply owns_drop | done]].
  assert (owns l (drop_reservation adm (drop_reservation hr st2))) as Hd
    by (apply owns_drop, owns_drop, H2).
  destruct (Instant_checked_add now (handshake_timeout config)) as [d |]; [| by split].
  destruct (Handshake_begin _ _ _ _) as [[[hs hello] | error] crypto'] eqn:Eb; [| by split].
  destruct (alloc_owns _ _ _ H2) as [Hb Ha]. cbn in Hb, Ha. split_and!; try done.
  unfold ConnectionProps.conn_owns, cowners. cbn. eapply owns_eq; [| exact Ha]. owners.
Qed.

(** ** Runs *)

(** What a connection's owner does with it. *)
Inductive conn_call : Type :=
| CPoll (now : Instant) (registry : Registry)
| CClose
| CRequest (call : sess_call)
| CPopEvent.

Definition request (call : sess_call) (c : Conn) (w : World Sk) : Conn * World Sk :=
  match is_request call, session c with
  | true, Some s =>
    let '(s, st) := sess_exec call (s, w_store w) in
    (set_session (Some s) c, set_store st w)
  | _, _ => (c, w)
  end.

(** The event a call delivers, if any, and the state after it. *)
Definition conn_exec (call : conn_call) : RSt → list Event * RSt :=
  λ '(c, i, cr, w),
  match call with
  | CPoll now registry => ([], (Connection_poll now registry (c, i, cr, w)).2)
  | CClose => let '(c, w) := Connection_close (c, w) in ([], (c, i, cr, w))
  | CRequest call => let '(c, w) := request call c w in ([], (c, i, cr, w))
  | CPopEvent => let '(e, c) := Connection_pop_event c in (option_list e, (c, i, cr, w))
  end.

Fixpoint conn_run (calls : list conn_call) (x : RSt) : list Event * RSt :=
  match calls with
  | [] => ([], x)
  | call :: calls =>
    let '(log, x) := conn_exec call x in
    let '(rest, x) := conn_run calls x in (log ++ rest, x)
  end.

(** ** The invariant of a run *)

Lemma request_same call c w l :
  conn_owns l (c, w) → conn_inv c →
  conn_owns l (request call c w) ∧ conn_inv (request call c w).1 ∧
  same_view c (request call c w).1.
Proof.
  intros H Hi. unfold request. destruct (is_request call) eqn:Hr; [| done].
  destruct (session c) as [s |] eqn:Es; [| done].
  unfold conn_owns, cowners in H. cbn [fst snd] in H. rewrite Es in H.
  pose proof (request_balanced call s (w_store w) (l ++ option_list (admission c) ++
    queue_owners (handshake_output c) ++ option_list (wr_reservation (writer c))) Hr ltac:(own H)) as Hb.
  pose proof (request_outbound call s (w_store w) Hr) as Hc.
  assert (later s (sess_exec call (s, w_store w)).1) as Hla by (apply later_exec; by destruct call).
  destruct (sess_exec call (s, w_store w)) as [s' st']. cbn [fst snd] in *. split_and!.
  - unfold conn_owns, cowners. cbn. own Hb.
  - apply (conn_inv_session s); [done | done | |].
    + intros E. by apply Hc.
    + intros E. by apply Hc.
  - split_and!; try done. cbn. by rewrite Es.
Qed.

Definition queued (o : option Session) : list Event :=
  match o with Some s => events s | None => [] end.

(** [log] is what was delivered so far. *)
Definition told (h : ConnectionHandle) (log : list Event) (c : Conn) : Prop :=
  c_handle c = h ∧
  match session c with
  | None =>
    if ended c then ∃ f, log ++ c_events c = [ConnectionClosed (handle_id h) (Some f)]
    else log ++ c_events c = []
  | Some s => handle s = h ∧ c_events c = [] ∧ known (log ++ events s) s
  end.

Lemma told_evolves h log c c' : told h log c → evolves c c' → told h log c'.
Proof.
  intros [<- H] [E1 E2 (new & E3 & Hn)]. split; [done |]. rewrite E3. unfold reported in Hn.
  destruct (session c) as [s |].
  - destruct H as (Hh & He & K). destruct (session c') as [s' |]; [| done]. cbn in E2.
    destruct (E2 _ K) as (Hh' & n & E & K'). rewrite andb_false_r in Hn. split_and!; [congruence | |].
    + rewrite He. destruct (ended c); [by destruct Hn | done].
    + rewrite E, app_assoc. done.
  - destruct (ended c).
    + destruct Hn as (-> & -> & Hs). rewrite (Hs eq_refl), app_nil_r. done.
    + apply app_eq_nil in H as [-> H]. rewrite H. destruct (session c') as [s' |].
      * rewrite andb_false_r in Hn. subst new. cbn in E2. destruct E2 as [Hh K]. by split_and!.
      * rewrite andb_true_r in Hn. destruct (ended c'); [exact Hn | done].
Qed.

Lemma told_same h log c c' :
  told h log c → same_view c c' → told h log c'.
Proof. intros H Hv. eapply told_evolves; [exact H | by apply same_evolves]. Qed.

Lemma pop_told c w l h log :
  conn_owns l (c, w) → conn_inv c → told h log c →
  let '(e, c') := Connection_pop_event (Sk := Sk) c in
  conn_owns l (c', w) ∧ conn_inv c' ∧ told h (log ++ option_list e) c'.
Proof.
  intros H Hi [Hh Ht]. unfold Connection_pop_event. destruct (session c) as [s |] eqn:Es.
  - destruct Ht as (Hs & He & st & K). rewrite He.
    assert (outbound (pop_event s).2 = outbound s ∧ closed (pop_event s).2 = closed s ∧
      handle (pop_event s).2 = handle s) as (E1 & E2 & E3) by (unfold pop_event; by destruct (events s)).
    pose proof (reach_call _ _ SPopEvent K) as K'. unfold emitted in K'. cbn [is_pop sess_exec fst snd] in K'.
    assert (events s = option_list (pop_event s).1 ++ events (pop_event s).2) as E4.
    { unfold pop_event. destruct (events s) eqn:E; cbn; by rewrite ?E. }
    destruct (pop_event s) as [e s']. cbn [fst snd] in *. split_and!.
    + unfold conn_owns, cowners in *. cbn in *. by rewrite E1; rewrite Es in H.
    + by apply (conn_inv_session s); [done | done | intros _ | congruence].
    + split; [done |]. cbn. split_and!; [congruence | done |]. eexists.
      rewrite app_nil_r, E4, app_assoc in K'. exact K'.
  - destruct (c_events c) as [| e rest] eqn:Ee.
    + cbn [option_list]. rewrite app_nil_r. split_and!; [done | done |]. split; [done |]. rewrite Es, Ee.
      exact Ht.
    + split_and!; [done | by destruct Hi as [A1 A2 A3 A4]; split |]. split; [done |].
      cbn [session set_c_events c_events option_list]. rewrite Es, <- app_assoc. exact Ht.
Qed.

(** Everything a run preserves. *)
Definition sound (l : list Reservation) (h : ConnectionHandle) (log : list Event) (x : RSt) : Prop :=
  conn_owns l (x.1.1.1, x.2) ∧ conn_inv x.1.1.1 ∧ told h log x.1.1.1.

Lemma exec_sound l h log call x :
  sound l h log x → sound l h (log ++ (conn_exec call x).1) (conn_exec call x).2.
Proof.
  destruct x as [[[c i] cr] w]. intros (H & Hi & Ht). cbn [fst snd] in *.
  destruct call as [now registry | | call |]; cbn [conn_exec].
  - pose proof (poll_fine base l 32 now registry c i cr w H Hi) as Hp. unfold Connection_poll.
    destruct (Connection_poll_within 32 now registry (c, i, cr, w)) as [t x]. destruct Hp as [(A & B & D) _].
    cbn [fst snd]. rewrite app_nil_r. split_and!; [done | done | by eapply told_evolves].
  - destruct (abort_fine base l c (local_failure FcConnectionLost) c w H Hi (evolves_refl c)) as [(A & B & D) _].
    unfold Connection_close. destruct (abort _ _) as [c' w']. cbn [fst snd] in *. rewrite app_nil_r.
    split_and!; [done | done | by eapply told_evolves].
  - destruct (request_same call c w l H Hi) as (A & B & D). destruct (request call c w) as [c' w'].
    cbn [fst snd] in *. rewrite app_nil_r. split_and!; [done | done | by eapply told_same].
  - pose proof (pop_told c w l h log H Hi Ht) as Hp. destruct (Connection_pop_event c) as [e c'].
    exact Hp.
Qed.

Lemma run_sound l h calls : ∀ log x,
  sound l h log x → sound l h (log ++ (conn_run calls x).1) (conn_run calls x).2.
Proof.
  induction calls as [| call calls IH]; intros log x H; cbn [conn_run]; [by rewrite app_nil_r |].
  apply (exec_sound l h log call) in H. destruct (conn_exec call x) as [new y].
  specialize (IH _ _ H). cbn [fst snd] in *. destruct (conn_run calls y) as [rest z]. cbn [fst snd] in *.
  rewrite <- app_assoc in IH. exact IH.
Qed.

Lemma begin_sound l s options config now i resources crypto w c crypto' w' j :
  owns l (w_store w) →
  begin_shared s options config now i resources (crypto, w) = (Ok c, (crypto', w')) →
  sound l (c_handle c) [] (c, j, crypto', w').
Proof.
  intros H E. pose proof (begin_owns l s options config now i resources crypto w H) as Hb. rewrite E in Hb.
  destruct Hb as (? & A & B & D & F & G).
  split; [eapply owns_weaken; [| exact A]; lia |]. split; [done |]. split; [done |].
  cbn [fst]. by rewrite F, G, D.
Qed.

(** C23: a connection neither leaks nor steals shared capacity.  If [l] lists
    the owners of all live reservations before admission, a refused admission
    leaves exactly those and closes the socket it was given; after a successful
    one, whatever its owner does and whatever the peer and the kernel do, the
    owners of live reservations are exactly [l] and the connection's own, and
    once a poll has reported that the connection is over the connection owns
    nothing. *)
Theorem capacity_returned l (s : Sk) options config now (i : I) resources crypto w :
  owns l (w_store w) →
  match begin_shared s options config now i resources (crypto, w) with
  | (Err _, (_, w')) => owns l (w_store w') ∧ w_released w' = w_released w ++ [(socket_close s).2]
  | (Ok c, (crypto', w')) => ∀ calls now' registry,
    let x := (conn_run calls (c, i, crypto', w')).2 in
    let '(t, y) := Connection_poll now' registry x in
    owns (l ++ cowners y.1.1.1) (w_store y.2) ∧
    (t = Ready tt → cowners y.1.1.1 = [] ∧ socket y.1.1.1 = None)
  end.
Proof.
  intros H. pose proof (begin_owns l s options config now i resources crypto w H) as Hb.
  destruct (begin_shared _ _ _ _ _ _ _) as [[c | error] [crypto' w']] eqn:E; [| done].
  intros calls now' registry.
  pose proof (run_sound _ _ calls _ _ (begin_sound _ _ _ _ _ _ _ _ _ _ _ _ i H E)) as (A & B & _).
  destruct (conn_run calls _) as [log [[[c1 i1] cr1] w1]]. cbn [fst snd] in *.
  pose proof (poll_fine base l 32 now' registry c1 i1 cr1 w1 A B) as Hp. unfold Connection_poll.
  destruct (Connection_poll_within 32 now' registry _) as [t y]. destruct Hp as [(D & F & _) G].
  split; [exact D |]. intros Ht. specialize (G Ht). split; [by apply (ci_quiet _ F) | done].
Qed.

(** C5: a connection tells its consumer one complete story.  After any
    sequence of polls, closes, requests and deliveries, the events delivered and
    queued are, in order: nothing before the connection ends unauthenticated and
    then exactly one closure with its failure; or, once authenticated, the
    authentication of its peer, then stream and probe events, and as soon as its
    session is closed one closure as the last event ever; all for the handle the
    connection was admitted under.  A connection whose socket is gone has ended
    in one of these ways. *)
Theorem end_reported_once (s : Sk) options config now (i : I) resources crypto w c crypto' w' calls :
  owns [] (w_store w) →
  begin_shared s options config now i resources (crypto, w) = (Ok c, (crypto', w')) →
  let '(log, (c', _, _, _)) := conn_run calls (c, i, crypto', w') in
  let all := log ++ c_events c' ++ queued (session c') in
  match session c' with
  | None =>
    if ended c' then ∃ f, all = [ConnectionClosed (handle_id (c_handle c)) (Some f)] else all = []
  | Some s => log_shape all (closed s) (context s) (c_handle c)
  end ∧
  (socket c' = None → ended c' = true ∧ ∀ s, session c' = Some s → closed s = true).
Proof.
  intros H E. pose proof (run_sound _ _ calls _ _ (begin_sound _ _ _ _ _ _ _ _ _ _ _ _ i H E)) as (_ & B & D).
  destruct (conn_run calls _) as [log [[[c1 i1] cr1] w1]]. cbn [fst snd app] in *.
  split; [| by intros Hs; split; [unfold ended; rewrite Hs; apply orb_true_r | apply (ci_quiet _ B)]].
  destruct D as [_ D]. destruct (session c1) as [s1 |]; cbn [queued].
  - destruct D as (<- & -> & st & K). apply (inv_shape _ _ _ _ _ _ _ (reachable_inv _ _ K)).
  - by rewrite app_nil_r.
Qed.

End runs.

End issued.

(** ** Witnesses: a dialled connection whose peer hangs up *)

Definition demo_config : TransportConfig := mkTransportConfig demo_limits 10.
Definition demo_world : World Script := mkWorld demo_store.2 [] 0.
Definition demo_socket : Script := mkScript [RPending; REof] [WAccept 7; WAccept 1000] [] false.
Definition demo_begin := begin_shared demo_socket (mkOptions Initiator Unpinned) demo_config 0 5 demo_store.1
  (100, demo_world).
Definition demo_calls : list conn_call := [CPoll 1 Registry_default; CPoll 2 Registry_default; CPopEvent].

Lemma demo_owns : owns 0 [] demo_store.2.
Proof.
  split.
  - by apply Resources_new_from; [split; [apply Store_empty_wf |] | |].
  - intros r. unfold refs_of. cbn. by rewrite lookup_empty.
Qed.

(** The number of live reservations, and whether the socket is gone. *)
Definition occupancy (x : Connection Script N * N * N * World Script) : nat * bool :=
  (length (cowners x.1.1.1), match socket x.1.1.1 with None => true | Some _ => false end).

(** The admitted connection. *)
Definition admitted (P : Connection Script N * N * N * World Script → bool) : bool :=
  match demo_begin with (Ok c, (crypto, w)) => P (c, 5, crypto, w) | _ => false end.

Lemma capacity_returned_witness :
  match demo_begin with
  | (Err _, _) => False
  | (Ok c, (crypto, w)) =>
    occupancy (c, 5, crypto, w) = (2%nat, false) ∧
    let x := (conn_run (take 1 demo_calls) (c, 5, crypto, w)).2 in
    let '(t, y) := Connection_poll 2 Registry_default x in
    owns 0 (cowners y.1.1.1) (w_store y.2) ∧ t = Ready tt ∧ occupancy y = (0%nat, true)
  end.
Proof.
  pose proof (capacity_returned 0 [] demo_socket (mkOptions Initiator Unpinned) demo_config 0 5 demo_store.1
    100 demo_world demo_owns) as H.
  change (begin_shared _ _ _ _ _ _ _) with demo_begin in H.
  assert (admitted (λ x, bool_decide (occupancy x = (2%nat, false))) = true) as H1 by (vm_compute; reflexivity).
  assert (admitted (λ x, let '(t, y) := Connection_poll 2 Registry_default (conn_run (take 1 demo_calls) x).2 in
    bool_decide (t = Ready tt) && bool_decide (occupancy y = (0%nat, true))) = true) as H2
    by (vm_compute; reflexivity).
  unfold admitted in H1, H2. destruct demo_begin as [[c | error] [crypto w]]; [| discriminate H1].
  split; [by apply bool_decide_eq_true in H1 |].
  specialize (H (take 1 demo_calls) 2 Registry_default). cbv zeta in *.
  destruct (Connection_poll 2 Registry_default _) as [t y].
  apply andb_true_iff in H2 as [H2 H3]. apply bool_decide_eq_true in H2, H3.
  split; [exact (proj1 H) | by split].
Defined.

Lemma end_reported_once_witness :
  match demo_begin with
  | (Err _, _) => False
  | (Ok c, (crypto, w)) =>
    let '(log, (c', _, _, _)) := conn_run demo_calls (c, 5, crypto, w) in
    ended c' && absent (session c') = true ∧
    ∃ f, log ++ c_events c' ++ queued (session c') = [ConnectionClosed (handle_id (c_handle c)) (Some f)]
  end.
Proof.
  assert (admitted (λ x, let '(_, (c', _, _, _)) := conn_run demo_calls x in
    ended c' && absent (session c')) = true) as H1 by (vm_compute; reflexivity).
  unfold admitted in H1. destruct demo_begin as [[c | error] [crypto w]] eqn:E; [| discriminate H1].
  pose proof (end_reported_once 0 demo_socket (mkOptions Initiator Unpinned) demo_config 0 5 demo_store.1
    100 demo_world c crypto w demo_calls demo_owns E) as H.
  destruct (conn_run demo_calls _) as [log [[[c' i'] cr'] w']].
  split; [exact H1 |]. destruct H as [H _]. destruct (session c'); [by rewrite andb_false_r in H1 |].
  rewrite andb_true_r in H1. by rewrite H1 in H.
Defined.
