(* ===== verification/Driver.v ===== *)
(** * The Transport driver

    [src/modules/transport/driver/{mod,requests}.rs] and the requests of
    [api.rs]: the trusted control port over every connection of one instance,
    with shared budgets, one protocol registry and queued observations.  The
    network and the clock are interfaces ([ports/io.rs]); a task is woken
    through the world's wake count. *)

From S2P Require Import Prelude Bytes Header Control HandshakeCodec Api Resources Framing Ports.
From S2P Require Import Handshake Integrity StreamIds Registry Session Connection.

#[local] Open Scope N_scope.

(** ** Ports: [ports/io.rs] *)

Class SocketProvider (P At Li : Type) : Type := {
  provider_connect : P → SocketAddr → result ErrorKind At * P;
  provider_listen : P → SocketAddr → result ErrorKind Li * P;
}.
Class Connecting (At Sk : Type) : Type :=
  poll_connected : At → Poll (result ErrorKind Sk) * At.
Class Listener (Li Sk : Type) : Type := {
  local_addr : Li → result ErrorKind SocketAddr;
  poll_accept : Li → Poll (result ErrorKind Sk) * Li;
  listener_close : Li → result ErrorKind unit * Li;
}.
(** Reading the clock lets time pass; [poll_deadline] tells whether the
    deadline has been reached. *)
Class Clock (T : Type) : Type := {
  clock_now : T → Instant * T;
  poll_deadline : T → Instant → bool * T;
}.

(** ** Requests: [api.rs] *)

Record ConnectRequest : Type := mkConnectRequest {
  endpoint : SocketAddr;
  expected_peer : ExpectedPeer;
}.

Definition ConnectRequest_new (a : SocketAddr) (e : ExpectedPeer)
    : result TransportError ConnectRequest :=
  if addr_port a =? 0 then Err InvalidEndpoint else Ok (mkConnectRequest a e).

Inductive StreamAction : Type :=
| ActData (data : bytes) | ActEnd | ActCancel (reason : CancellationReason).

Inductive Request (Sk : Type) : Type :=
| ReqConnect (r : ConnectRequest)
| ReqListen (a : SocketAddr)
| ReqAccept (socket : Sk) (e : ExpectedPeer)
| ReqStopListening (listener : ListenerHandle)
| ReqRegisterProtocol (p : Protocol)
| ReqOpenStream (connection : ConnectionHandle) (owner : StreamOwner)
| ReqStream (owner : StreamOwner) (stream : StreamHandle) (action : StreamAction)
| ReqPing (connection : ConnectionHandle) (token : bytes) (timeout : Duration)
| ReqDrain (connection : ConnectionHandle) (reason : ShutdownReason)
| ReqClose (connection : ConnectionHandle).
Arguments ReqConnect {Sk}. Arguments ReqListen {Sk}. Arguments ReqAccept {Sk}.
Arguments ReqStopListening {Sk}. Arguments ReqRegisterProtocol {Sk}. Arguments ReqOpenStream {Sk}.
Arguments ReqStream {Sk}. Arguments ReqPing {Sk}. Arguments ReqDrain {Sk}. Arguments ReqClose {Sk}.

Inductive Accepted : Type :=
| AccConnection (h : ConnectionHandle)
| AccListener (h : ListenerHandle) (a : SocketAddr)
| AccRegistration (owner : StreamOwner)
| AccStream (h : StreamHandle)
| AccQueued.

(** [session_error]. *)
Definition session_error (e : SessionError) : TransportError :=
  match e with
  | SeCapacity => Backpressure
  | SeAuthority e => e
  | SeOwner => WrongStreamOwner
  | SeClosed => TeClosed
  | _ => InvalidRequest
  end.

Definition connection_lost : Failure := mkFailure Local FcConnectionLost.

Section driver.
Context {Sk : Type} `{!Socket Sk} {C : Type} `{!Cryptography C} {I : Type} `{!Identity I}.
Context {P At Li T : Type} `{!SocketProvider P At Li, !Connecting At Sk, !Listener Li Sk, !Clock T}.

Record Attempt : Type := mkAttempt {
  p_handle : ConnectionHandle;
  attempt : At;
  p_expected : ExpectedPeer;
  p_deadline : Instant;
  p_reservation : Reservation;
}.

Record Driver : Type := mkDriver {
  sockets : P;
  clock : T;
  identity : I;
  cryptography : C;
  config : TransportConfig;
  d_resources : Resources;
  d_registry : Registry;
  registrations : N;
  connections : list (Connection Sk C);
  pending : list Attempt;
  listeners : list (ListenerHandle * Li);
  d_events : list Event;
  waker : bool;
}.

(** ** Field assignment *)

Definition set_sockets x d := mkDriver x (clock d) (identity d) (cryptography d) (config d)
  (d_resources d) (d_registry d) (registrations d) (connections d) (pending d) (listeners d) (d_events d) (waker d).
Definition set_clock x d := mkDriver (sockets d) x (identity d) (cryptography d) (config d)
  (d_resources d) (d_registry d) (registrations d) (connections d) (pending d) (listeners d) (d_events d) (waker d).
Definition set_identity x d := mkDriver (sockets d) (clock d) x (cryptography d) (config d)
  (d_resources d) (d_registry d) (registrations d) (connections d) (pending d) (listeners d) (d_events d) (waker d).
Definition set_cryptography x d := mkDriver (sockets d) (clock d) (identity d) x (config d)
  (d_resources d) (d_registry d) (registrations d) (connections d) (pending d) (listeners d) (d_events d) (waker d).
Definition set_registry x n d := mkDriver (sockets d) (clock d) (identity d) (cryptography d) (config d)
  (d_resources d) x n (connections d) (pending d) (listeners d) (d_events d) (waker d).
Definition set_connections x d := mkDriver (sockets d) (clock d) (identity d) (cryptography d) (config d)
  (d_resources d) (d_registry d) (registrations d) x (pending d) (listeners d) (d_events d) (waker d).
Definition set_pending x d := mkDriver (sockets d) (clock d) (identity d) (cryptography d) (config d)
  (d_resources d) (d_registry d) (registrations d) (connections d) x (listeners d) (d_events d) (waker d).
Definition set_listeners x d := mkDriver (sockets d) (clock d) (identity d) (cryptography d) (config d)
  (d_resources d) (d_registry d) (registrations d) (connections d) (pending d) x (d_events d) (waker d).
Definition set_d_events x d := mkDriver (sockets d) (clock d) (identity d) (cryptography d) (config d)
  (d_resources d) (d_registry d) (registrations d) (connections d) (pending d) (listeners d) x (waker d).
Definition set_waker x d := mkDriver (sockets d) (clock d) (identity d) (cryptography d) (config d)
  (d_resources d) (d_registry d) (registrations d) (connections d) (pending d) (listeners d) (d_events d) x.

Definition push_d_event (e : Event) (d : Driver) : Driver := set_d_events (d_events d ++ [e]) d.
Definition push_connection (c : Connection Sk C) (d : Driver) : Driver :=
  set_connections (connections d ++ [c]) d.

Abbreviation DSt := (Driver * World Sk)%type.
Abbreviation DM := (M DSt TransportError).

(** [cx.waker().wake_by_ref()]. *)
Definition wake (w : World Sk) : World Sk := mkWorld (w_store w) (w_released w) (w_cx w + 1).

Definition limit_connections (d : Driver) : N := max_connections (config_limits (config d)).
Definition admitted (d : Driver) : N := len (connections d) + len (pending d).

Definition Driver_new (cfg : TransportConfig) (ps : P) (t : T) (i : I) (c : C) (st : Store)
    : Driver * Store :=
  let '(resources, st) := Resources_new (config_limits cfg) st in
  (mkDriver ps t i c cfg resources Registry_default 0 [] [] [] [] false, st).

(** ** Local requests: [requests.rs] *)

(** The first connection that satisfies [p], with its session's method [m]. *)
Definition on_session_of {A} (p : Connection Sk C → bool) (m : SM A) : DM A :=
  λ '(d, w),
  match list_find (λ c, p c = true) (connections d) with
  | None => (Err WrongConnection, (d, w))
  | Some (i, c) =>
    match session c with
    | None => (Err InvalidRequest, (d, w))
    | Some s =>
      let '(r, (s, st)) := m (s, w_store w) in
      (map_err session_error r,
       (set_connections (<[i := set_session (Some s) c]> (connections d)) d, set_store st w))
    end
  end.

Definition has_handle (h : ConnectionHandle) (c : Connection Sk C) : bool := bool_decide (c_handle c = h).

Definition request_connect (request : ConnectRequest) : DM Accepted :=
  λ '(d, w),
  if limit_connections d <=? admitted d then (Err Backpressure, (d, w)) else
  match Resources_connection (d_resources d) (w_store w) with
  | (None, st) => (Err Backpressure, (d, set_store st w))
  | (Some reservation, st) =>
    let w := set_store st w in
    let '(now, t) := clock_now (clock d) in
    let d := set_clock t d in
    match Instant_checked_add now (handshake_timeout (config d)) with
    | None => (Err InvalidRequest, (d, on_world (drop_reservation reservation) w))
    | Some deadline =>
      let '(r, ps) := provider_connect (sockets d) (endpoint request) in
      let d := set_sockets ps d in
      match r with
      | Err e => (Err (TeIo e), (d, on_world (drop_reservation reservation) w))
      | Ok a =>
        let '(id, st) := alloc (w_store w) in
        let handle := mkConnectionHandle id in
        (Ok (AccConnection handle),
         (set_pending (pending d ++ [mkAttempt handle a (expected_peer request) deadline reservation]) d,
          set_store st w))
      end
    end
  end.

(** [Connection::begin_shared] with the driver's policy, identity, adapters and
    budgets. *)
Definition begin_connection (s : Sk) (options : Options) (now : Instant)
    : DSt → result Disposition (Connection Sk C) * DSt :=
  λ '(d, w),
  let '(r, (cr, w)) := begin_shared s options (config d) now (identity d) (d_resources d)
                         (cryptography d, w) in
  (r, (set_cryptography cr d, w)).

Definition accept_socket (s : Sk) (e : ExpectedPeer) : DM Accepted :=
  λ '(d, w),
  if limit_connections d <=? admitted d then (Err Backpressure, (d, drop_socket s w)) else
  let '(now, t) := clock_now (clock d) in
  match begin_connection s (mkOptions Acceptor e) now (set_clock t d, w) with
  | (Err disposition, x) =>
    (Err (if bool_decide (failure_code_of (failure disposition) = FcResourceLimit) then Backpressure
          else Startup (failure disposition)), x)
  | (Ok c, (d, w)) => (Ok (AccConnection (c_handle c)), (push_connection c d, w))
  end.

Definition request_listen (a : SocketAddr) : DM Accepted :=
  λ '(d, w),
  if limit_connections d <=? len (listeners d) then (Err Backpressure, (d, w)) else
  let '(r, ps) := provider_listen (sockets d) a in
  let d := set_sockets ps d in
  match r with
  | Err e => (Err (TeIo e), (d, w))
  | Ok li =>
    match local_addr li with
    | Err e => (Err (TeIo e), (d, w))
    | Ok local =>
      let '(id, st) := alloc (w_store w) in
      (Ok (AccListener id local), (set_listeners (listeners d ++ [(id, li)]) d, set_store st w))
    end
  end.

Definition request_stop (listener : ListenerHandle) : DM Accepted :=
  λ '(d, w),
  match list_find (λ l, l.1 = listener) (listeners d) with
  | None => (Err TeClosed, (d, w))
  | Some (i, (_, li)) =>
    let d := set_listeners (delete i (listeners d)) d in
    let failure := match (listener_close li).1 with Ok _ => None | Err _ => Some connection_lost end in
    (Ok AccQueued, (push_d_event (ListenerClosed listener failure) d, w))
  end.

Definition request_register (p : Protocol) : DM Accepted :=
  λ '(d, w),
  if 256 <=? registrations d then (Err Backpressure, (d, w)) else
  match register p (d_registry d, w_store w) with
  | (Err _, (g, st)) => (Err InvalidRequest, (set_registry g (registrations d) d, set_store st w))
  | (Ok owner, (g, st)) =>
    (Ok (AccRegistration owner), (set_registry g (registrations d + 1) d, set_store st w))
  end.

(** Removing a pending attempt drops its reservation and cancels it. *)
Definition request_close (h : ConnectionHandle) : DM Accepted :=
  λ '(d, w),
  match list_find (λ p, p_handle p = h) (pending d) with
  | Some (i, p) =>
    (Ok AccQueued,
     (push_d_event (ConnectionClosed (handle_id h) (Some connection_lost))
        (set_pending (delete i (pending d)) d),
      on_world (drop_reservation (p_reservation p)) w))
  | None =>
    match list_find (λ c, has_handle h c = true) (connections d) with
    | None => (Err WrongConnection, (d, w))
    | Some (i, c) =>
      let '(c, w) := Connection_close (c, w) in
      (Ok AccQueued, (set_connections (<[i := c]> (connections d)) d, w))
    end
  end.

Definition request (r : Request Sk) : DM Accepted :=
  match r with
  | ReqRegisterProtocol p => request_register p
  | ReqConnect r => request_connect r
  | ReqAccept s e => accept_socket s e
  | ReqListen a => request_listen a
  | ReqStopListening l => request_stop l
  | ReqOpenStream connection owner =>
    registry ← gets (λ x : DSt, d_registry x.1);
    stream ← on_session_of (has_handle connection) (Session_open registry owner);
    mret (AccStream stream)
  | ReqStream owner stream action =>
    on_session_of (λ c, bool_decide (handle_id (c_handle c) = sh_connection stream))
      match action with
      | ActData bytes => Session_send owner stream bytes
      | ActEnd => Session_end owner stream
      | ActCancel reason => cancel owner stream reason
      end;;
    mret AccQueued
  | ReqPing connection token timeout =>
    now ← run (λ x : DSt, let '(now, t) := clock_now (clock x.1) in (now, (set_clock t x.1, x.2)));
    on_session_of (has_handle connection) (ping token timeout now);;
    mret AccQueued
  | ReqDrain connection reason =>
    on_session_of (has_handle connection) (drain reason);; mret AccQueued
  | ReqClose h => request_close h
  end.

(** [TransportControl::submit].  A refused [Accept] drops the caller's socket. *)
Definition submit (r : Request Sk) : DM Accepted :=
  λ '(d, w),
  if saturating_add u64_limit (saturating_mul u64_limit (limit_connections d) 4) 16
       <=? len (d_events d)
  then (Err Backpressure, (d, match r with ReqAccept s _ => drop_socket s w | _ => w end)) else
  let '(result, (d, w)) := request r (d, w) in
  if is_ok result && waker d then (result, (set_waker false d, wake w)) else (result, (d, w)).

(** ** Polling: [mod.rs] *)

(** An attempt's outcome: its deadline is checked before the attempt is polled. *)
Definition poll_attempt (now : Instant) (p : Attempt) : Poll (result ErrorKind Sk) * At :=
  if p_deadline p <=? now then (Ready (Err TimedOut), attempt p) else poll_connected (attempt p).

(** One pending attempt: kept, or removed with its outcome applied. *)
Definition poll_connect (now : Instant) (p : Attempt) : DSt → option Attempt * DSt :=
  λ '(d, w),
  match poll_attempt now p with
  | (Pending, a) => (Some (mkAttempt (p_handle p) a (p_expected p) (p_deadline p) (p_reservation p)), (d, w))
  | (Ready result, _) =>
    let w := on_world (drop_reservation (p_reservation p)) w in
    let failed f := push_d_event (ConnectionClosed (handle_id (p_handle p)) (Some f)) in
    match result with
    | Err error =>
      let code := if bool_decide (error = TimedOut) then FcDeadlineExceeded else FcConnectionLost in
      (None, (failed (mkFailure Local code) d, w))
    | Ok s =>
      match begin_connection s (mkOptions Initiator (p_expected p)) now (d, w) with
      | (Err disposition, (d, w)) => (None, (failed (failure disposition) d, w))
      | (Ok c, (d, w)) => (None, (push_connection (set_handle (p_handle p) c) d, w))
      end
    end
  end.

(** The [while index < self.pending.len()] loop: [kept] are the attempts before
    [index] and [todo] those from it on. *)
Fixpoint poll_connects_loop (now : Instant) (kept todo : list Attempt) (x : DSt) : DSt :=
  match todo with
  | [] => (set_pending kept x.1, x.2)
  | p :: todo =>
    let '(remaining, x) := poll_connect now p x in
    poll_connects_loop now (kept ++ option_list remaining) todo x
  end.
Definition poll_connects (now : Instant) (x : DSt) : DSt :=
  poll_connects_loop now [] (pending x.1) x.

(** One listener; [None] when it is removed. *)
Definition poll_listener (now : Instant) (l : ListenerHandle * Li)
    : DSt → option (ListenerHandle * Li) * DSt :=
  λ '(d, w),
  match poll_accept l.2 with
  | (Pending, li) => (Some (l.1, li), (d, w))
  | (Ready (Err _), _) => (None, (push_d_event (ListenerClosed l.1 (Some connection_lost)) d, w))
  | (Ready (Ok s), li) =>
    match begin_connection s (mkOptions Acceptor Unpinned) now (d, w) with
    | (Ok c, (d, w)) =>
      (Some (l.1, li), (push_connection c (push_d_event (IncomingConnection (c_handle c)) d), wake w))
    | (Err disposition, (d, w)) =>
      let '(id, st) := alloc (w_store w) in
      (Some (l.1, li),
       (push_d_event (ConnectionClosed id (Some (failure disposition))) d, wake (set_store st w)))
    end
  end.

Fixpoint poll_listeners_loop (now : Instant) (kept todo : list (ListenerHandle * Li)) (pendings : N)
    (x : DSt) : DSt :=
  match todo with
  | [] => (set_listeners kept x.1, x.2)
  | l :: rest =>
    let '(d, w) := x in
    if (limit_connections d <=? Resources_connections (d_resources d) (w_store w))
       || (limit_connections d <=? len (connections d) + pendings)
    then (set_listeners (kept ++ todo) d, w)
    else
      let '(remaining, x) := poll_listener now l x in
      poll_listeners_loop now (kept ++ option_list remaining) rest pendings x
  end.
Definition poll_listeners (now : Instant) (x : DSt) : DSt :=
  poll_listeners_loop now [] (listeners x.1) (len (pending x.1)) x.

Definition arm_timer : DSt → DSt :=
  λ '(d, w),
  let deadlines := map p_deadline (pending d) ++ omap Connection_next_deadline (connections d) in
  match deadlines with
  | [] => (d, w)
  | first :: rest =>
    let '(reached, t) := poll_deadline (clock d) (foldr N.min first rest) in
    (set_clock t d, if reached : bool then wake w else w)
  end.

(** One iteration of the connection loop: the front connection is polled,
    rotated to the back or dropped, and its next event is taken. *)
Definition poll_front (now : Instant) : DSt → option Event * DSt :=
  λ '(d, w),
  match connections d with
  | [] => (None, (d, w))
  | c :: rest =>
    let '(polled, (c, i, cr, w)) :=
      Connection_poll now (d_registry d) (c, identity d, cryptography d, w) in
    let d := set_cryptography cr (set_identity i (set_connections rest d)) in
    let '(event, c) := Connection_pop_event c in
    let closed := bool_decide (polled = Ready tt) in
    if negb closed || bool_decide (is_Some event) then (event, (push_connection c d, w))
    else (event, (d, wake (release (c, w)).2))
  end.

Fixpoint poll_rotation (n : nat) (now : Instant) (x : DSt) : option Event * DSt :=
  match n with
  | O => (None, x)
  | S n =>
    match connections x.1 with
    | [] => (None, x)
    | _ =>
      match poll_front now x with
      | (Some e, x) => (Some e, x)
      | (None, x) => poll_rotation n now x
      end
    end
  end.

Definition pop_d_event : DSt → option Event * DSt :=
  λ '(d, w),
  match d_events d with
  | [] => (None, (d, w))
  | e :: rest => (Some e, (set_d_events rest d, w))
  end.

(** [TransportControl::poll_event]; it never ends the stream of observations. *)
Definition poll_event : DSt → Poll Event * DSt :=
  λ '(d, w),
  let d := set_waker true d in
  match pop_d_event (d, w) with
  | (Some e, x) => (Ready e, x)
  | (None, (d, w)) =>
    let '(now, t) := clock_now (clock d) in
    let x := poll_listeners now (poll_connects now (set_clock t d, w)) in
    match pop_d_event x with
    | (Some e, x) => (Ready e, arm_timer x)
    | (None, x) =>
      match poll_rotation (length (connections x.1)) now x with
      | (Some e, x) => (Ready e, arm_timer x)
      | (None, x) =>
        match pop_d_event (arm_timer x) with
        | (Some e, x) => (Ready e, x)
        | (None, x) => (Pending, x)
        end
      end
    end
  end.

End driver.
