(* ===== verification/DriverInv.v ===== *)
(** * The driver's invariant

    One story per connection: for every handle the driver ever admits, what its
    consumer is told, in which order, and that nothing is lost, repeated or
    attributed to another connection; and the driver's budgets. *)

From S2P Require Import Prelude Bytes Header Control HandshakeCodec Api Resources Framing Ports.
From S2P Require Import Handshake Integrity StreamIds Registry Session SessionSteps.
From S2P Require Import SchedulerProps SessionProps SessionReservations Connection.
From S2P Require Import ConnectionProps ConnectionRuns Driver.

#[local] Open Scope N_scope.

(** ** Attribution of events *)

(** The connection an event reports on. *)
Definition event_connection (e : Event) : option ConnectionId :=
  match e with
  | IncomingConnection _ | ListenerClosed _ _ => None
  | Authenticated ctx => Some (pc_connection ctx)
  | StreamOpened _ h _ | Data h _ | RemoteEnd h | StreamClosed h _ => Some (sh_connection h)
  | PingFinished id _ _ | ConnectionClosed id _ => Some id
  end.

(** The part of a log that reports on connection [id]. *)
Definition about (id : ConnectionId) (log : list Event) : list Event :=
  filter (λ e, event_connection e = Some id) log.

Lemma about_app id l k : about id (l ++ k) = about id l ++ about id k.
Proof. apply filter_app. Qed.
Lemma about_all id l : Forall (λ e, event_connection e = Some id) l → about id l = l.
Proof. induction 1 as [| e l He _ IH]; [done |]. unfold about in *. by rewrite filter_cons_True, IH. Qed.
Lemma about_none id l : Forall (λ e, event_connection e ≠ Some id) l → about id l = [].
Proof. induction 1 as [| e l He _ IH]; [done |]. unfold about in *. by rewrite filter_cons_False. Qed.

Section own_events.
Context (id : ConnectionId).

Abbreviation ours := (Forall (λ e, event_connection e = Some id)).

Definition self (s : Session) : Prop := handle_id (handle s) = id ∧ pc_connection (context s) = id.

Lemma step_self s s' log :
  step s s' → sinv log s → self s →
  self s' ∧ ∃ new, events s' = events s ++ new ∧ ours new.
Proof.
  intros Hs Hi [Hh Hc].
  assert (events s = events s ++ [] ∧ ours []) as Hsame by by rewrite app_nil_r.
  assert (∀ k state, streams s !! k = Some state → sh_connection (ss_handle state) = id) as Hst.
  { intros k state Hk. destruct (inv_live _ _ _ _ _ _ _ Hi _ _ Hk) as (_ & _ & E). congruence. }
  destruct Hs as [| | | | | | | k state lo le Hl | k state outcome Hcl Hl Ho | k ds Hcl Ha
    | k ds owner protocol Hcl Hd Hsz Hroom Ha Hz h | k state data Hcl Hl Hr Hlen Hbuf Hroom
    | k state Hcl Hl Hr Hroom | token t d Hcl Hn Hsz | token probe r Hcl Hl | token Hcl | failure Hcl];
    try (split; [done | exists []; exact Hsame]).
  - split; [done |]. eexists [_]. split; [done |]. constructor; [| done]. cbn. f_equal. by eapply Hst.
  - split; [unfold note_accepted; by destruct (is_local ds k) |]. eexists [_].
    split; [unfold note_accepted; by destruct (is_local ds k) |]. constructor; [| done]. cbn. by rewrite Hh.
  - split; [done |]. eexists [_]. split; [done |]. constructor; [| done]. cbn. f_equal. by eapply Hst.
  - split; [done |]. eexists [_]. split; [done |]. constructor; [| done]. cbn. f_equal. by eapply Hst.
  - split; [done |]. eexists [_]. split; [done |]. constructor; [| done]. cbn. by rewrite Hh.
  - split; [done |]. eexists. split; [reflexivity |]. rewrite !Forall_app. split_and!.
    + apply Forall_forall. intros e (k & -> & _)%list_elem_of_fmap. cbn. by rewrite Hh.
    + apply Forall_forall. intros e (k & _ & E)%list_elem_of_omap.
      destruct (streams s !! k) as [state |] eqn:Hk; [| done]. injection E as <-. cbn. f_equal. by eapply Hst.
    + constructor; [| done]. cbn. by rewrite Hh.
Qed.

Lemma steps_self s s' : steps s s' → ∀ log,
  sinv log s → self s → self s' ∧ ∃ new, events s' = events s ++ new ∧ ours new.
Proof.
  induction 1 as [s | s s1 s2 Hs _ IH]; intros log Hi Ho.
  { split; [done |]. exists []. by rewrite app_nil_r. }
  destruct (step_inv _ _ _ Hs Hi) as (n & _ & Hi1).
  destruct (step_self _ _ _ Hs Hi Ho) as (Ho1 & n1 & E1 & F1).
  destruct (IH _ Hi1 Ho1) as (Ho2 & n2 & E2 & F2). split; [done |].
  exists (n1 ++ n2). rewrite E2, E1, app_assoc. split; [done |]. by apply Forall_app.
Qed.
End own_events.

Lemma reachable_self log x :
  reachable log x → let id := handle_id (handle x.1) in
  self id x.1 ∧ Forall (λ e, event_connection e = Some id) log.
Proof.
  induction 1 as [h role local peer r st s | log [s st] call Hr IH | log s st st' _ IH].
  - split; [done |]. by constructor.
  - cbn in IH. destruct IH as [Ho Hf]. pose proof (reachable_inv _ _ Hr) as Hi.
    unfold emitted. destruct (is_pop call) eqn:Hp.
    + destruct (exec_pop call s st Hp) as [(evs & out & last & -> & _) _]. by rewrite app_nil_r.
    + pose proof (exec_steps call s st (sinv_ok _ _ Hi) Hp) as Hs. cbn [fst].
      destruct (steps_self (handle_id (handle s)) _ _ Hs log Hi Ho) as (Ho' & new & E & F).
      rewrite (steps_handle _ _ Hs), E, drop_app_length. split; [done |]. by apply Forall_app.
  - done.
Qed.

(** ** The invariant of a driver *)

Section driver.
Context {Sk : Type} `{!Socket Sk} {C : Type} `{!Cryptography C} {I : Type} `{!Identity I}.
Context {P At Li T : Type} `{!SocketProvider P At Li, !Connecting At Sk, !Listener Li Sk, !Clock T}.

Abbreviation Conn := (Connection Sk C).
Abbreviation Att := (Attempt (At := At)).
Abbreviation Drv := (Driver (Sk := Sk) (C := C) (I := I) (P := P) (At := At) (Li := Li) (T := T)).
Abbreviation DSt := (Drv * World Sk)%type.

Definition conn_ids (cs : list Conn) : list ConnectionId := map (λ c, handle_id (c_handle c)) cs.
Definition pending_ids (ps : list Att) : list ConnectionId := map (λ p, handle_id (p_handle p)) ps.
Definition live (cs : list Conn) (ps : list Att) : list ConnectionId := pending_ids ps ++ conn_ids cs.

(** Every reservation a driver owns. *)
Definition downers (cs : list Conn) (ps : list Att) : list Reservation :=
  map p_reservation ps ++ concat (map cowners cs).

(** All a consumer is ever told of a connection. *)
Definition complete (id : ConnectionId) (l : list Event) : Prop :=
  (∃ f, l = [ConnectionClosed id (Some f)]) ∨
  (∃ ctx mid f, l = Authenticated ctx :: mid ++ [ConnectionClosed id f] ∧
     pc_connection ctx = id ∧ Forall (λ e, plain e = true) mid).

(** [n] bounds the ids issued, [acc] are the ids announced to the consumer, and
    [log] is what [poll_event] has delivered. *)
Record dinv (n : N) (acc : list ConnectionId) (log : list Event)
    (cs : list Conn) (ps : list Att) (es : list Event) (st : Store) : Prop := {
  di_conns : Forall conn_inv cs;
  di_owns : owns n (downers cs ps) st;
  di_unique : NoDup (live cs ps);
  di_issued : Forall (λ id, id < n) (live cs ps ++ acc);
  di_told : Forall (λ c, told (c_handle c) (about (handle_id (c_handle c)) log) c) cs;
  di_pending : Forall (λ id, about id log = []) (pending_ids ps);
  di_quiet : Forall (λ id, about id es = []) (live cs ps);
  di_past : ∀ id, id ∉ live cs ps →
    complete id (about id (log ++ es)) ∨ about id (log ++ es) = [] ∧ id ∉ acc;
  di_future : ∀ id, n ≤ id → about id (log ++ es) = [];
  di_incoming : ∀ h, IncomingConnection h ∈ log ++ es → handle_id h ∈ acc;
}.

Abbreviation dok n acc log x :=
  (dinv n acc log (connections x.1) (pending x.1) (d_events x.1) (w_store x.2)).

Lemma downers_middle r cs1 c cs2 ps :
  count_owner r (downers (cs1 ++ c :: cs2) ps) =
  (count_owner r (downers (cs1 ++ cs2) ps) + count_owner r (cowners c))%nat.
Proof.
  unfold downers. rewrite !map_app, !concat_app. cbn. rewrite !count_owner_app. lia.
Qed.
Lemma downers_snoc r cs c ps :
  count_owner r (downers (cs ++ [c]) ps) = (count_owner r (downers cs ps) + count_owner r (cowners c))%nat.
Proof. rewrite downers_middle, app_nil_r. done. Qed.
Lemma downers_attempt r cs p ps1 ps2 :
  count_owner r (downers cs (ps1 ++ p :: ps2)) =
  (count_owner r [p_reservation p] + count_owner r (downers cs (ps1 ++ ps2)))%nat.
Proof. unfold downers. rewrite !map_app. cbn. rewrite !count_owner_app. cbn. lia. Qed.

(** Everything queued or delivered by a connection is about it. *)
Lemma told_own h log (c : Conn) :
  told h log c → Forall (λ e, event_connection e = Some (handle_id h)) (log ++ c_events c ++ queued (session c)).
Proof.
  intros [<- Ht]. destruct (session c) as [s |]; cbn [queued].
  - destruct Ht as (<- & -> & st & K). apply reachable_self in K as [_ K]. exact K.
  - rewrite app_nil_r. destruct (ended c); [destruct Ht as [f ->] | rewrite Ht]; by repeat constructor.
Qed.

(** ** One connection changes *)

Lemma dinv_update n acc log cs1 c cs2 c' ps es st st' :
  dinv n acc log (cs1 ++ c :: cs2) ps es st →
  (∀ l, owns n (l ++ cowners c) st → owns n (l ++ cowners c') st') →
  conn_inv c' → evolves c c' →
  dinv n acc log (cs1 ++ c' :: cs2) ps es st'.
Proof.
  intros [H1 H2 H3 H4 H5 H6 H7 H8 H9 H10] Ho Hi Hev.
  assert (live (cs1 ++ c' :: cs2) ps = live (cs1 ++ c :: cs2) ps) as El.
  { unfold live, conn_ids. rewrite !map_app. cbn. by rewrite (ev_handle _ _ Hev). }
  apply Forall_app in H1 as [Ha Hb]. apply Forall_cons in Hb as [_ Hb].
  apply Forall_app in H5 as [Hc Hd]. apply Forall_cons in Hd as [He Hd].
  split; rewrite ?El; try done.
  - apply Forall_app. split; [done |]. by constructor.
  - eapply owns_eq; [intros r; rewrite downers_middle, <- count_owner_app; reflexivity |]. apply Ho.
    eapply owns_eq; [| exact H2]. intros r. by rewrite downers_middle, count_owner_app.
  - apply Forall_app. split; [done |]. constructor; [| done].
    rewrite (ev_handle _ _ Hev). by eapply told_evolves.
Qed.

(** ** A connection or an attempt is added *)

Lemma dinv_add n n' acc log cs ps es st c st' :
  dinv n acc log cs ps es st →
  n ≤ handle_id (c_handle c) → handle_id (c_handle c) < n' →
  owns n' (downers cs ps ++ cowners c) st' → conn_inv c →
  c_events c = [] → session c = None → ended c = false →
  dinv n' (handle_id (c_handle c) :: acc) log (cs ++ [c]) ps es st'.
Proof.
  intros [H1 H2 H3 H4 H5 H6 H7 H8 H9 H10] Hn Hn' Ho Hi Ee Es Ed. set (id := handle_id (c_handle c)) in *.
  assert (∀ k, k ∈ live cs ps → k < n) as Hlt.
  { intros k Hk. rewrite Forall_forall in H4. apply H4. set_solver. }
  assert (∀ k, k ∈ live (cs ++ [c]) ps ↔ k ∈ live cs ps ∨ k = id) as Hin.
  { intros k. unfold live, conn_ids. rewrite map_app. cbn. set_solver. }
  pose proof (H9 id Hn) as Hf. rewrite about_app in Hf. apply app_eq_nil in Hf as [Hf1 Hf2].
  split.
  - apply Forall_app. split; [done |]. by constructor.
  - eapply owns_eq; [| exact Ho]. intros r. by rewrite downers_snoc, count_owner_app.
  - unfold live, conn_ids. rewrite map_app, app_assoc. apply NoDup_app. split_and!; [done | | apply NoDup_singleton].
    intros k Hk. cbn. rewrite list_elem_of_singleton. intros ->. specialize (Hlt _ Hk). lia.
  - rewrite Forall_forall in *. intros k [Hk | [-> | Hk]%elem_of_cons]%elem_of_app; [| lia |].
    + apply Hin in Hk as [Hk | ->]; [specialize (Hlt _ Hk); lia | lia].
    + assert (k < n); [apply H4; set_solver | lia].
  - apply Forall_app. split; [done |]. constructor; [| done]. split; [done |]. rewrite Es, Ed, Ee. fold id. by rewrite Hf1.
  - done.
  - rewrite Forall_forall in *. intros k [Hk | ->]%Hin; [by apply H7 | done].
  - intros k Hk. rewrite Hin in Hk. destruct (H8 k ltac:(tauto)) as [? | [? ?]]; [by left | right].
    split; [done |]. apply not_elem_of_cons. tauto.
  - intros k Hk. apply H9. lia.
  - intros h Hh. apply elem_of_cons. right. by apply H10.
Qed.

Lemma dinv_attempt n n' acc log cs ps es st p st' :
  dinv n acc log cs ps es st →
  n ≤ handle_id (p_handle p) → handle_id (p_handle p) < n' →
  owns n' (p_reservation p :: downers cs ps) st' →
  dinv n' (handle_id (p_handle p) :: acc) log cs (ps ++ [p]) es st'.
Proof.
  intros [H1 H2 H3 H4 H5 H6 H7 H8 H9 H10] Hn Hn' Ho. set (id := handle_id (p_handle p)) in *.
  assert (∀ k, k ∈ live cs ps → k < n) as Hlt.
  { intros k Hk. rewrite Forall_forall in H4. apply H4. set_solver. }
  assert (live cs (ps ++ [p]) ≡ₚ id :: live cs ps) as Hp.
  { unfold live, pending_ids. rewrite map_app. rewrite <- app_assoc. cbn. by rewrite <- Permutation_middle. }
  pose proof (H9 id Hn) as Hf. rewrite about_app in Hf. apply app_eq_nil in Hf as [Hf1 Hf2].
  split; try done.
  - eapply owns_eq; [| exact Ho]. intros r. rewrite downers_attempt, app_nil_r. cbn. lia.
  - rewrite Hp. constructor; [| done]. intros Hk. specialize (Hlt _ Hk). lia.
  - rewrite Hp. rewrite Forall_forall in *. intros k Hk.
    assert (k = id ∨ k ∈ live cs ps ++ acc) as [-> | Hk'] by set_solver; [lia |].
    specialize (H4 k Hk'). lia.
  - unfold pending_ids. rewrite map_app. apply Forall_app. split; [done |]. by constructor.
  - rewrite Hp. by constructor.
  - intros k Hk. rewrite Hp in Hk. apply not_elem_of_cons in Hk as [Hk1 Hk2].
    destruct (H8 k Hk2) as [? | [? ?]]; [by left | right]. split; [done |]. by apply not_elem_of_cons.
  - intros k Hk. apply H9. lia.
  - intros h Hh. apply elem_of_cons. right. by apply H10.
Qed.

(** ** An attempt ends *)

Lemma pending_middle cs ps1 p ps2 :
  live cs (ps1 ++ p :: ps2) ≡ₚ handle_id (p_handle p) :: live cs (ps1 ++ ps2).
Proof.
  unfold live, pending_ids. rewrite !map_app. cbn. rewrite <- !app_assoc. cbn.
  by rewrite <- Permutation_middle.
Qed.
Lemma live_snoc cs c ps : live (cs ++ [c]) ps ≡ₚ handle_id (c_handle c) :: live cs ps.
Proof.
  unfold live, conn_ids. rewrite map_app, app_assoc. cbn. by rewrite <- Permutation_cons_append.
Qed.

(** The id of a live attempt has no history. *)
Lemma attempt_silent n acc log cs ps1 p ps2 es st :
  dinv n acc log cs (ps1 ++ p :: ps2) es st →
  about (handle_id (p_handle p)) log = [] ∧ about (handle_id (p_handle p)) es = [] ∧
  (handle_id (p_handle p) ∉ live cs (ps1 ++ ps2)) ∧ handle_id (p_handle p) < n.
Proof.
  intros [H1 H2 H3 H4 H5 H6 H7 H8 H9 H10]. rewrite pending_middle in H3, H4, H7.
  unfold pending_ids in H6. rewrite map_app in H6. cbn in H4.
  apply NoDup_cons in H3 as [H3 _]. apply Forall_cons in H4 as [H4 _], H7 as [H7 _].
  apply Forall_app in H6 as [_ H6]. apply Forall_cons in H6 as [H6 _]. done.
Qed.

Lemma dinv_fail n acc log cs ps1 p ps2 es st f st' :
  dinv n acc log cs (ps1 ++ p :: ps2) es st →
  owns n (downers cs (ps1 ++ ps2)) st' →
  dinv n acc log cs (ps1 ++ ps2) (es ++ [ConnectionClosed (handle_id (p_handle p)) (Some f)]) st'.
Proof.
  intros H Ho. destruct (attempt_silent _ _ _ _ _ _ _ _ _ H) as (Hl & He & Hn & Hlt).
  destruct H as [H1 H2 H3 H4 H5 H6 H7 H8 H9 H10]. set (id := handle_id (p_handle p)) in *.
  rewrite pending_middle in H3, H4, H7. fold id in H3, H4, H7. cbn in H4.
  apply NoDup_cons in H3 as [_ H3]. apply Forall_cons in H4 as [_ H4], H7 as [_ H7].
  assert (∀ k, k ≠ id → about k (es ++ [ConnectionClosed id (Some f)]) = about k es) as Hk.
  { intros k Hk. rewrite about_app, (about_none k [_]), app_nil_r; [done |].
    constructor; [| done]. cbn. congruence. }
  split; try done.
  - unfold pending_ids in *. rewrite map_app in *. apply Forall_app in H6 as [? H6].
    apply Forall_cons in H6 as [_ ?]. by apply Forall_app.
  - rewrite Forall_forall in *. intros k Hin. rewrite Hk by congruence. by apply H7.
  - intros k Hin. destruct (decide (k = id)) as [-> | Hne].
    + left. left. exists f. rewrite !about_app, Hl, He. apply about_all. by constructor.
    + rewrite about_app, Hk, <- about_app by done. apply H8. rewrite pending_middle.
      fold id. by apply not_elem_of_cons.
  - intros k Hin. rewrite about_app, Hk, <- about_app by lia. by apply H9.
  - intros h. rewrite app_assoc. intros [Hin | Hin]%elem_of_app; [by apply H10 |].
    by apply list_elem_of_singleton in Hin.
Qed.

Lemma dinv_promote n n' acc log cs ps1 p ps2 es st c st' :
  dinv n acc log cs (ps1 ++ p :: ps2) es st → n ≤ n' →
  owns n' (downers cs (ps1 ++ ps2) ++ cowners c) st' → conn_inv c →
  c_handle c = p_handle p → c_events c = [] → session c = None → ended c = false →
  dinv n' acc log (cs ++ [c]) (ps1 ++ ps2) es st'.
Proof.
  intros H Hn' Ho Hi Eh Ee Es Ed. destruct (attempt_silent _ _ _ _ _ _ _ _ _ H) as (Hl & He & Hn & Hlt).
  destruct H as [H1 H2 H3 H4 H5 H6 H7 H8 H9 H10].
  assert (live (cs ++ [c]) (ps1 ++ ps2) ≡ₚ live cs (ps1 ++ p :: ps2)) as Hp.
  { by rewrite live_snoc, pending_middle, Eh. }
  split; rewrite ?Hp; try done.
  - apply Forall_app. split; [done |]. by constructor.
  - eapply owns_eq; [| exact Ho]. intros r. by rewrite downers_snoc, count_owner_app.
  - eapply Forall_impl; [exact H4 |]. intros. cbn in *. lia.
  - apply Forall_app. split; [done |]. constructor; [| done]. split; [done |].
    rewrite Es, Ed, Ee, Eh. by rewrite Hl.
  - unfold pending_ids in *. rewrite map_app in *. apply Forall_app in H6 as [? H6].
    apply Forall_cons in H6 as [_ ?]. by apply Forall_app.
  - intros k Hk. rewrite Hp in Hk. by apply H8.
  - intros k Hk. apply H9. lia.
Qed.

(** ** A connection ends *)

Lemma dinv_over n acc log cs1 c cs2 ps es st st' :
  dinv n acc log (cs1 ++ c :: cs2) ps es st →
  (∀ l, owns n (l ++ cowners c) st → owns n l st') →
  ended c = true → session_closed c → c_events c = [] → queued (session c) = [] →
  dinv n acc log (cs1 ++ cs2) ps es st'.
Proof.
  intros [H1 H2 H3 H4 H5 H6 H7 H8 H9 H10] Ho Ed Hcl Ee Eq. set (id := handle_id (c_handle c)).
  assert (live (cs1 ++ c :: cs2) ps ≡ₚ id :: live (cs1 ++ cs2) ps) as Hp.
  { unfold live, conn_ids. rewrite !map_app. cbn. fold id. rewrite !app_assoc.
    by rewrite <- Permutation_middle. }
  rewrite Hp in H3, H4, H7. cbn in H4. apply NoDup_cons in H3 as [Hn H3].
  apply Forall_cons in H4 as [_ H4], H7 as [He H7].
  apply Forall_app in H1 as [Ha Hb]. apply Forall_cons in Hb as [Hi Hb].
  apply Forall_app in H5 as [Hc Hd]. apply Forall_cons in Hd as [Ht Hd].
  split; try done.
  - by apply Forall_app.
  - apply Ho. eapply owns_eq; [| exact H2]. intros r. by rewrite downers_middle, count_owner_app.
  - by apply Forall_app.
  - intros k Hk. destruct (decide (k = id)) as [-> | Hne].
    + left. rewrite about_app, He, app_nil_r. pose proof (told_own _ _ _ Ht) as Hown.
      rewrite Ee, Eq in Hown. destruct Ht as [_ Ht]. destruct (session c) as [s |] eqn:Es.
      * destruct Ht as (Eh & _ & st0 & K). cbn in Eq. rewrite Eq, app_nil_r in K.
        destruct (inv_shape _ _ _ _ _ _ _ (reachable_inv _ _ K)) as (mid & Hm & E).
        cbn [fst] in E. rewrite (Hcl s Es) in E. destruct E as [f E]. right.
        exists (context s), mid, f. rewrite Eh in E. split; [exact E |]. split; [| exact Hm].
        cbn [app] in Hown. rewrite app_nil_r in Hown. fold id in E, Hown. rewrite E in Hown.
        apply Forall_cons in Hown as [Hown _]. by injection Hown.
      * rewrite Ed, Ee, app_nil_r in Ht. by left.
    + apply H8. rewrite Hp. by apply not_elem_of_cons.
Qed.

(** ** Queued events *)

Lemma dinv_note n acc log cs ps es st e :
  dinv n acc log cs ps es st → event_connection e = None →
  (∀ h, e = IncomingConnection h → handle_id h ∈ acc) →
  dinv n acc log cs ps (es ++ [e]) st.
Proof.
  intros [H1 H2 H3 H4 H5 H6 H7 H8 H9 H10] He Hin.
  assert (∀ k l, about k (l ++ [e]) = about k l) as Hk.
  { intros k l. rewrite about_app, (about_none k [e]), app_nil_r; [done |].
    constructor; [| done]. by rewrite He. }
  split; try done.
  - eapply Forall_impl; [exact H7 |]. intros k. cbn. by rewrite Hk.
  - intros k Hn. rewrite app_assoc, Hk. by apply H8.
  - intros k Hn. rewrite app_assoc, Hk. by apply H9.
  - intros h. rewrite app_assoc. intros [Hx | Hx]%elem_of_app; [by apply H10 |].
    apply list_elem_of_singleton in Hx. by apply Hin.
Qed.

(** A refused socket is reported under an id nobody was given. *)
Lemma dinv_refuse n n' acc log cs ps es st id f st' :
  dinv n acc log cs ps es st → n ≤ id → id < n' → owns n' (downers cs ps) st' →
  dinv n' acc log cs ps (es ++ [ConnectionClosed id (Some f)]) st'.
Proof.
  intros [H1 H2 H3 H4 H5 H6 H7 H8 H9 H10] Hn Hn' Ho.
  assert (∀ k l, k ≠ id → about k (l ++ [ConnectionClosed id (Some f)]) = about k l) as Hk.
  { intros k l Hne. rewrite about_app, (about_none k [_]), app_nil_r; [done |].
    constructor; [| done]. cbn. congruence. }
  rewrite Forall_app in H4. destruct H4 as [H4 H4'].
  split; try done.
  - rewrite Forall_app. split; eapply Forall_impl; [exact H4 | | exact H4' |]; cbn; intros; lia.
  - rewrite Forall_forall in *. intros k Hin. rewrite Hk; [by apply H7 |]. specialize (H4 k Hin). cbn in H4. lia.
  - intros k Hin. rewrite app_assoc. destruct (decide (k = id)) as [-> | Hne].
    + left. left. exists f. rewrite about_app, (H9 id Hn). apply about_all. by constructor.
    + rewrite Hk by done. by apply H8.
  - intros k Hin. rewrite app_assoc, Hk by lia. apply H9. lia.
  - intros h. rewrite app_assoc. intros [Hx | Hx]%elem_of_app; [by apply H10 |].
    by apply list_elem_of_singleton in Hx.
Qed.

Lemma dinv_deliver n acc log cs ps e es st :
  dinv n acc log cs ps (e :: es) st → dinv n acc (log ++ [e]) cs ps es st.
Proof.
  intros [H1 H2 H3 H4 H5 H6 H7 H8 H9 H10].
  assert (∀ k, k ∈ live cs ps → about k (log ++ [e]) = about k log ∧ about k es = []) as Hk.
  { intros k Hk. rewrite Forall_forall in H7. specialize (H7 k Hk).
    change (e :: es) with ([e] ++ es) in H7. rewrite about_app in H7. apply app_eq_nil in H7 as [He ?].
    by rewrite about_app, He, app_nil_r. }
  split; try done; rewrite <- ?app_assoc; try done.
  - rewrite Forall_forall in *. intros c Hc. destruct (Hk (handle_id (c_handle c))) as [-> _]; [| by apply H5].
    apply elem_of_app. right. apply list_elem_of_fmap. by exists c.
  - rewrite Forall_forall in *. intros k Hin. destruct (Hk k) as [-> _]; [| by apply H6].
    apply elem_of_app. by left.
  - rewrite Forall_forall. intros k Hin. by apply Hk.
Qed.

Lemma dinv_permute n acc log cs cs' ps es st :
  cs ≡ₚ cs' → dinv n acc log cs ps es st → dinv n acc log cs' ps es st.
Proof.
  intros Hp [H1 H2 H3 H4 H5 H6 H7 H8 H9 H10].
  assert (live cs' ps ≡ₚ live cs ps) as Hl by (unfold live, conn_ids; by rewrite Hp).
  split; rewrite ?Hl, <- ?Hp; try done.
  - eapply owns_eq; [| exact H2]. intros r. unfold downers. rewrite !count_owner_app. f_equal.
    clear -Hp. induction Hp as [| c l l' _ IH | c c' l | l1 l2 l3 _ IH1 _ IH2]; cbn;
      rewrite ?count_owner_app; [done | by rewrite IH | lia | by rewrite IH2].
  - intros k. rewrite Hl. apply H8.
Qed.

(** Ids and capacity taken by others, and wake-ups, do not matter. *)
Lemma dinv_store n n' acc log cs ps es st st' :
  dinv n acc log cs ps es st → n ≤ n' → owns n' (downers cs ps) st' → dinv n' acc log cs ps es st'.
Proof.
  intros [H1 H2 H3 H4 H5 H6 H7 H8 H9 H10] Hn Ho. split; try done.
  - eapply Forall_impl; [exact H4 |]. intros. cbn in *. lia.
  - intros k Hk. apply H9. lia.
Qed.

(** One event of one connection is delivered. *)
Lemma dinv_pop n acc log cs1 c cs2 ps es (w : World Sk) e c' :
  dinv n acc log (cs1 ++ c :: cs2) ps es (w_store w) →
  Connection_pop_event c = (e, c') →
  dinv n acc (log ++ option_list e) (cs1 ++ c' :: cs2) ps es (w_store w) ∧
  (e = None → c_events c' = [] ∧ queued (session c') = [] ∧ ended c' = ended c ∧
    (session_closed c → session_closed c')).
Proof.
  intros [H1 H2 H3 H4 H5 H6 H7 H8 H9 H10] Ep. set (id := handle_id (c_handle c)) in *.
  apply Forall_app in H1 as [Ha Hb]. apply Forall_cons in Hb as [Hi Hb].
  apply Forall_app in H5 as [Hc Hd]. apply Forall_cons in Hd as [Ht Hd].
  assert (conn_owns n (downers (cs1 ++ cs2) ps) (c, w)) as Ho.
  { unfold conn_owns. eapply owns_eq; [| exact H2]. intros r. by rewrite downers_middle, count_owner_app. }
  pose proof (pop_told n c w _ (c_handle c) _ Ho Hi Ht) as Hp. pose proof (told_own _ _ _ Ht) as Hown.
  rewrite Ep in Hp. destruct Hp as (Ho' & Hi' & Ht').
  pose proof Ht' as [Eh _]. pose proof (told_own _ _ _ Ht') as Hown'. fold id in Hown, Hown'.
  rewrite <- app_assoc in Hown'. apply Forall_app in Hown' as [_ Hown']. apply Forall_app in Hown' as [He _].
  assert (∀ k, k ≠ id → about k (log ++ option_list e) = about k log) as Hk.
  { intros k Hk. rewrite about_app, (about_none k (option_list e)), app_nil_r; [done |].
    eapply Forall_impl; [exact He |]. cbn. intros x ->. congruence. }
  assert (live (cs1 ++ c' :: cs2) ps = live (cs1 ++ c :: cs2) ps) as El.
  { unfold live, conn_ids. rewrite !map_app. cbn. by rewrite Eh. }
  assert (id ∈ live (cs1 ++ c :: cs2) ps) as Hid.
  { unfold live, conn_ids. rewrite map_app. cbn. set_solver. }
  assert (∀ k, k ∈ live (cs1 ++ cs2) ps → k ≠ id) as Hne.
  { assert (live (cs1 ++ c :: cs2) ps ≡ₚ id :: live (cs1 ++ cs2) ps) as Hp.
    { unfold live, conn_ids. rewrite !map_app. cbn. fold id. rewrite !app_assoc.
      by rewrite <- Permutation_middle. }
    rewrite Hp in H3. apply NoDup_cons in H3 as [H3 _]. intros k Hin ->. done. }
  assert (∀ d, d ∈ cs1 ++ cs2 → handle_id (c_handle d) ≠ id) as Hned.
  { intros d Hin. apply Hne. unfold live, conn_ids. apply elem_of_app. right. apply list_elem_of_fmap. by exists d. }
  assert (∀ k, k ≠ id → about k ((log ++ option_list e) ++ es) = about k (log ++ es)) as Hk'.
  { intros k Hn. by rewrite about_app, Hk, <- about_app. }
  split; [split; rewrite ?El; try done |].
  - apply Forall_app. split; [done |]. by constructor.
  - unfold conn_owns in Ho'. eapply owns_eq; [| exact Ho']. intros r.
    by rewrite downers_middle, count_owner_app.
  - rewrite Forall_app, Forall_cons. rewrite Forall_forall in Hc, Hd. split_and!.
    + apply Forall_forall. intros d Hin. rewrite Hk; [by apply Hc |]. apply Hned. set_solver.
    + rewrite Eh. fold id. rewrite about_app, (about_all id (option_list e)) by done. exact Ht'.
    + apply Forall_forall. intros d Hin. rewrite Hk; [by apply Hd |]. apply Hned. set_solver.
  - rewrite Forall_forall in *. intros k Hin. rewrite Hk; [by apply H6 |]. apply Hne.
    unfold live. set_solver.
  - intros k Hn. rewrite Hk' by congruence. by apply H8.
  - intros k Hn. rewrite Hk'; [by apply H9 |]. intros ->. rewrite Forall_forall in H4.
    specialize (H4 id ltac:(set_solver)). cbn in H4. lia.
  - intros h. rewrite <- app_assoc. intros [Hx | [Hx | Hx]%elem_of_app]%elem_of_app.
    + apply H10. set_solver.
    + rewrite Forall_forall in He. by specialize (He _ Hx).
    + apply H10. set_solver.
  - intros ->. unfold Connection_pop_event in Ep. destruct (c_events c) eqn:Ee; [| done].
    destruct (session c) as [s |] eqn:Es.
    + unfold pop_event in Ep. destruct (events s) eqn:Ev; [| done]. injection Ep as <-.
      cbn. split_and!; [done | done | done |]. intros Hcl s0 [= <-]. by apply Hcl.
    + injection Ep as <-. split_and!; [done | by rewrite Es | done | done].
Qed.

(** ** Operations *)

(** [x'] is a legal successor of [x] in which the ids [must] are announced. *)
Definition legal (log : list Event) (must : list ConnectionId) (x x' : DSt) : Prop :=
  ∀ n acc, dok n acc log x → ∃ n' acc', n ≤ n' ∧ acc ⊆ acc' ∧ must ⊆ acc' ∧ dok n' acc' log x'.

Lemma legal_same log x x' : (∀ n acc, dok n acc log x → dok n acc log x') → legal log [] x x'.
Proof. intros H n acc Hx. exists n, acc. split_and!; [done | done | set_solver | by apply H]. Qed.
Lemma legal_trans log m1 m2 x y z :
  legal log m1 x y → legal log m2 y z → legal log (m1 ++ m2) x z.
Proof.
  intros H1 H2 n acc Hx. destruct (H1 _ _ Hx) as (n1 & a1 & ? & ? & ? & Hy).
  destruct (H2 _ _ Hy) as (n2 & a2 & ? & ? & ? & Hz). exists n2, a2. split_and!; [lia | set_solver.. | done].
Qed.

Lemma begin_dok n acc log s options now (d : Drv) w :
  dok n acc log (d, w) →
  let '(r, (d', w')) := begin_connection s options now (d, w) in
  connections d' = connections d ∧ pending d' = pending d ∧ d_events d' = d_events d ∧
  config d' = config d ∧ listeners d' = listeners d ∧
  match r with
  | Ok c =>
    n ≤ handle_id (c_handle c) ∧
    owns (handle_id (c_handle c) + 1) (downers (connections d) (pending d) ++ cowners c) (w_store w') ∧
    conn_inv c ∧ c_events c = [] ∧ session c = None ∧ ended c = false
  | Err _ => owns n (downers (connections d) (pending d)) (w_store w')
  end.
Proof.
  intros H. unfold begin_connection.
  pose proof (begin_owns n (downers (connections d) (pending d)) s options (config d) now (identity d)
    (d_resources d) (cryptography d) w (di_owns _ _ _ _ _ _ _ H)) as Hb.
  destruct (begin_shared _ _ _ _ _ _ _) as [[c | e] [cr w']]; cbn; split_and!; try done; [..| apply Hb]; apply Hb.
Qed.

Lemma request_connect_legal log r (d : Drv) w :
  let '(res, x) := request_connect r (d, w) in
  legal log match res with Ok (AccConnection h) => [handle_id h] | _ => [] end (d, w) x.
Proof.
  unfold request_connect. destruct (limit_connections d <=? admitted d); [by apply legal_same |].
  unfold Resources_connection.
  destruct (reserve (connections_counter (d_resources d)) 1 (w_store w)) as [[r0 |] st] eqn:Er;
    [| apply reserve_None in Er as ->; by apply legal_same].
  destruct (clock_now (clock d)) as [now t]. cbn [handshake_timeout config set_clock].
  assert (∀ n l, owns n l (w_store w) → owns n (r0 :: l) st) as Ho.
  { intros n l [A B]. split.
    - change st with (Some r0, st).2. rewrite <- Er. by apply reserve_from.
    - intros k. rewrite (refs_of_reserve _ _ _ _ _ _ (from_wf _ _ A) Er), B. cbn. lia. }
  assert (∀ d', connections d' = connections d → pending d' = pending d → d_events d' = d_events d →
    legal log [] (d, w) (d', on_world (drop_reservation r0) (set_store st w))) as Hd.
  { intros d' E1 E2 E3. apply legal_same. intros n acc H. cbn [fst snd] in *. rewrite E1, E2, E3.
    eapply dinv_store; [exact H | done |]. by apply owns_drop, Ho, (di_owns _ _ _ _ _ _ _ H). }
  destruct (Instant_checked_add now _) as [deadline |]; [| by apply Hd].
  destruct (provider_connect _ _) as [[a | e] ps]; [| by apply Hd].
  intros n acc H. pose proof (Ho _ _ (di_owns _ _ _ _ _ _ _ H)) as Ha.
  apply alloc_owns in Ha as [Hn Ha]. cbn [alloc fst snd set_store w_store] in *.
  exists (next st + 1), (next st :: acc). split_and!; [lia | set_solver | set_solver |].
  by apply (dinv_attempt n _ acc log _ _ _ (w_store w)
    (mkAttempt (mkConnectionHandle (next st)) a (expected_peer r) deadline r0)); [| | cbn; lia |].
Qed.

Lemma accept_socket_legal log s e (d : Drv) w :
  let '(res, x) := accept_socket s e (d, w) in
  legal log match res with Ok (AccConnection h) => [handle_id h] | _ => [] end (d, w) x.
Proof.
  unfold accept_socket. destruct (limit_connections d <=? admitted d); [by apply legal_same |].
  destruct (clock_now (clock d)) as [now t].
  destruct (begin_connection _ _ _ _) as [r [d' w']] eqn:Eb.
  destruct r as [c | e']; intros n acc H;
    pose proof (begin_dok n acc log s (mkOptions Acceptor e) now (set_clock t d) w H) as Hb; rewrite Eb in Hb;
    destruct Hb as (E1 & E2 & E3 & _ & _ & Hb); cbn [fst snd connections pending d_events push_connection
      set_connections] in *.
  - destruct Hb as (Hn & Ho & Hi & Ee & Es & Ed). rewrite E1, E2, E3.
    exists (handle_id (c_handle c) + 1), (handle_id (c_handle c) :: acc).
    split_and!; [lia | set_solver | set_solver |]. eapply dinv_add; try done. lia.
  - exists n, acc. split_and!; [done | done | set_solver |]. cbn [fst snd]. rewrite E1, E2, E3.
    by eapply dinv_store.
Qed.

Lemma on_session_legal {A} log p (m : SM A) call (d : Drv) w :
  is_request call = true → (∀ y, (m y).2 = sess_exec call y) →
  legal log [] (d, w) (on_session_of p m (d, w)).2.
Proof.
  intros Hr Hm. apply legal_same. intros n acc H. unfold on_session_of.
  destruct (list_find _ (connections d)) as [[i c] |] eqn:Ef; [| done].
  destruct (session c) as [s |] eqn:Es; [| done]. specialize (Hm (s, w_store w)).
  apply list_find_Some in Ef as (Hc & _ & _). pose proof (lookup_lt_Some _ _ _ Hc) as Hlt.
  assert (evolves c (ConnectionRuns.request call c w).1 ∧ conn_inv (ConnectionRuns.request call c w).1 ∧
    ∀ l, conn_owns n l (c, w) → conn_owns n l (ConnectionRuns.request call c w)) as (Hev & Hi & Ho).
  { assert (conn_inv c) as Hi.
    { pose proof (di_conns _ _ _ _ _ _ _ H) as Hall. rewrite Forall_forall in Hall.
      apply Hall. by eapply list_elem_of_lookup_2. }
    assert (∃ l, conn_owns n l (c, w)) as [l0 Hl0].
    { exists (downers (take i (connections d) ++ drop (S i) (connections d)) (pending d)).
      eapply owns_eq; [| exact (di_owns _ _ _ _ _ _ _ H)]. intros r. cbn [fst].
      rewrite <- (take_drop_middle (connections d) i c Hc) at 3.
      by rewrite downers_middle, count_owner_app. }
    destruct (request_same n call c w l0 Hl0 Hi) as (_ & Hi' & Hv).
    split_and!; [by apply same_evolves | done |]. intros l Hl. by apply request_same. }
  unfold ConnectionRuns.request in *. rewrite Hr, Es in *.
  destruct (m (s, w_store w)) as [r [s' st']]. cbn [snd] in Hm. rewrite <- Hm in *. cbn [fst snd] in *.
  cbn [connections set_connections pending d_events w_store set_store].
  rewrite insert_take_drop by done. rewrite <- (take_drop_middle (connections d) i c Hc) in H.
  by eapply dinv_update.
Qed.

Lemma request_close_legal log h (d : Drv) w : legal log [] (d, w) (request_close h (d, w)).2.
Proof.
  apply legal_same. intros n acc H. unfold request_close.
  destruct (list_find _ (pending d)) as [[i p] |] eqn:Ef.
  - apply list_find_Some in Ef as (Hp & <- & _). cbn in *.
    pose proof (take_drop_middle (pending d) i p Hp) as El. rewrite <- El in H. rewrite delete_take_drop.
    eapply dinv_fail; [exact H |]. apply owns_drop.
    eapply owns_eq; [| exact (di_owns _ _ _ _ _ _ _ H)]. intros r. rewrite downers_attempt. cbn. lia.
  - destruct (list_find _ (connections d)) as [[i c] |] eqn:Ec; [| done].
    apply list_find_Some in Ec as (Hc & _ & _). pose proof (lookup_lt_Some _ _ _ Hc) as Hlt.
    cbn [fst snd] in H. rewrite <- (take_drop_middle (connections d) i c Hc) in H.
    assert (conn_inv c) as Hi.
    { pose proof (di_conns _ _ _ _ _ _ _ H) as Hall. rewrite Forall_app, Forall_cons in Hall. apply Hall. }
    assert (∀ l, conn_owns n l (c, w) → fine n l c (Connection_close (c, w))) as Hf.
    { intros l Hl. by apply abort_fine; [| | apply evolves_refl]. }
    assert (∃ l, conn_owns n l (c, w)) as [l0 Hl0].
    { eexists. unfold conn_owns. eapply owns_eq; [| exact (di_owns _ _ _ _ _ _ _ H)]. intros r.
      rewrite downers_middle, count_owner_app. reflexivity. }
    destruct (Hf _ Hl0) as (_ & Hi' & Hev). destruct (Connection_close (c, w)) as [c' w'].
    cbn [fst snd connections set_connections pending d_events].
    rewrite insert_take_drop by done. eapply dinv_update; [exact H | | exact Hi' | exact Hev].
    intros l Hl. by apply Hf.
Qed.

Lemma owns_register n l p (x : Registry * Store) : owns n l x.2 → owns n l (register p x).2.2.
Proof.
  intros H. destruct x as [g st]. unfold register, mbind, M_bind, lift, call.
  destruct (map_err _ _); [| done]. destruct (bool_decide _); [done |]. cbn.
  apply alloc_owns in H as [? H]. cbn in *. eapply owns_weaken; [| exact H]. lia.
Qed.

Lemma on_session_bind {A B} p (m : SM A) (v : A → B) (x : DSt) :
  ((on_session_of p m ≫= λ a, mret (v a)) x).2 = (on_session_of p m x).2.
Proof. unfold mbind, M_bind. by destruct (on_session_of p m x) as [[a | e] y]. Qed.

(** The connection a successful request admits. *)
Definition granted (res : result TransportError Accepted) : list ConnectionId :=
  match res with Ok (AccConnection h) => [handle_id h] | _ => [] end.

Lemma session_granted {A} p (m : SM A) (v : A → Accepted) (x : DSt) :
  (∀ a h, v a ≠ AccConnection h) → granted ((on_session_of p m ≫= λ a, mret (v a)) x).1 = [].
Proof.
  intros Hv. unfold mbind, M_bind. destruct (on_session_of p m x) as [[a | e] y]; [| done].
  unfold granted. cbn. specialize (Hv a). destruct (v a) as [h | | | |]; try done. by destruct (Hv h).
Qed.

Lemma session_request_legal {A} log p (m : SM A) (v : A → Accepted) call (d : Drv) w :
  is_request call = true → (∀ y, (m y).2 = sess_exec call y) → (∀ a h, v a ≠ AccConnection h) →
  let '(res, x) := (on_session_of p m ≫= λ a, mret (v a)) (d, w) in legal log (granted res) (d, w) x.
Proof.
  intros Hr Hm Hv. pose proof (on_session_legal log p m call d w Hr Hm) as Hl.
  rewrite <- (on_session_bind p m v) in Hl. pose proof (session_granted p m v (d, w) Hv) as Hg.
  destruct ((on_session_of p m ≫= λ a, mret (v a)) (d, w)) as [res x].
  cbn [fst snd] in *. by rewrite Hg.
Qed.

Lemma request_legal log r (d : Drv) w :
  let '(res, x) := request r (d, w) in legal log (granted res) (d, w) x.
Proof.
  destruct r as [r | a | s e | l | p | c o | o st act | c tok t | c reason | c]; cbn [request].
  - apply request_connect_legal.
  - unfold request_listen. destruct (limit_connections d <=? len (listeners d)); [by apply legal_same |].
    destruct (provider_listen _ _) as [[li | e] ps]; [| by apply legal_same].
    destruct (local_addr li) as [local | e]; [| by apply legal_same].
    apply legal_same. intros n acc H. cbn in *. eapply dinv_store; [exact H | done |].
    pose proof (di_owns _ _ _ _ _ _ _ H) as Ho. apply alloc_owns in Ho as [? Ho]. cbn in *.
    eapply owns_weaken; [| exact Ho]. lia.
  - apply accept_socket_legal.
  - unfold request_stop. destruct (list_find _ _) as [[i [l' li]] |]; [| by apply legal_same].
    apply legal_same. intros n acc H. cbn in *. by apply dinv_note.
  - unfold request_register. destruct (256 <=? registrations d); [by apply legal_same |].
    pose proof (λ n l, owns_register n l p (d_registry d, w_store w)) as Ho.
    destruct (register _ _) as [res [g st]]. cbn [snd] in Ho.
    destruct res; apply legal_same; intros n acc H; cbn in *;
      (eapply dinv_store; [exact H | done |]); apply Ho, (di_owns _ _ _ _ _ _ _ H).
  - change (let '(res, x) := (on_session_of (has_handle c) (Session_open (d_registry d) o) ≫=
      λ a, mret (AccStream a)) (d, w) in legal log (granted res) (d, w) x).
    by apply (session_request_legal _ _ _ _ (SOpen (d_registry d) o)).
  - destruct act as [data | | reason].
    + by apply (session_request_legal _ _ _ (λ _, AccQueued) (SSend o st data)).
    + by apply (session_request_legal _ _ _ (λ _, AccQueued) (SEnd o st)).
    + by apply (session_request_legal _ _ _ (λ _, AccQueued) (SCancel o st reason)).
  - destruct (clock_now (clock d)) as [now t'] eqn:Et.
    assert ((now ← run (λ x : DSt, let '(now, t) := clock_now (clock x.1) in (now, (set_clock t x.1, x.2)));
      on_session_of (has_handle c) (ping tok t now);; mret AccQueued) (d, w) =
      (on_session_of (has_handle c) (ping tok t now) ≫= λ _, mret AccQueued) (set_clock t' d, w)) as ->.
    { unfold mbind, M_bind, run. cbn [fst]. by rewrite Et. }
    pose proof (session_request_legal log (has_handle c) (ping tok t now) (λ _, AccQueued) (SPing tok t now)
      (set_clock t' d) w eq_refl) as Hl.
    destruct ((on_session_of (has_handle c) (ping tok t now) ≫= λ _, mret AccQueued) (set_clock t' d, w))
      as [res x]. by apply Hl.
  - by apply (session_request_legal _ _ _ (λ _, AccQueued) (SDrain reason)).
  - pose proof (request_close_legal log c d w) as Hl.
    assert (granted (request_close c (d, w)).1 = []) as Hg.
    { unfold request_close. destruct (list_find _ (pending d)) as [[? ?] |]; [done |].
      destruct (list_find _ (connections d)) as [[? ?] |]; [| done]. by destruct (Connection_close _). }
    destruct (request_close c (d, w)) as [res x]. cbn [fst snd] in *. by rewrite Hg.
Qed.

Lemma submit_legal log r (d : Drv) w :
  let '(res, x) := submit r (d, w) in legal log (granted res) (d, w) x.
Proof.
  unfold submit. destruct (_ <=? len (d_events d)).
  { apply legal_same. intros n acc H. cbn in *. by destruct r. }
  pose proof (request_legal log r d w) as Hl. destruct (request r (d, w)) as [res [d' w']].
  destruct (is_ok res && waker d'); exact Hl.
Qed.

(** ** Polling *)

(** [x'] is a legal successor of [x] after delivering [new]. *)
Definition polls (log new : list Event) (x x' : DSt) : Prop :=
  ∀ n acc, dok n acc log x → ∃ n' acc', n ≤ n' ∧ acc ⊆ acc' ∧ dok n' acc' (log ++ new) x'.

Lemma polls_refl log x : polls log [] x x.
Proof. intros n acc H. exists n, acc. by rewrite app_nil_r. Qed.
Lemma polls_trans log n1 n2 x y z : polls log n1 x y → polls (log ++ n1) n2 y z → polls log (n1 ++ n2) x z.
Proof.
  intros H1 H2 n acc Hx. destruct (H1 _ _ Hx) as (m1 & a1 & ? & ? & Hy).
  destruct (H2 _ _ Hy) as (m2 & a2 & ? & ? & Hz). exists m2, a2. rewrite app_assoc.
  split_and!; [lia | set_solver | done].
Qed.

(** An attempt that stays pending keeps its handle and its reservation. *)
Lemma dinv_repolled n acc log cs ps1 p p' ps2 es st :
  p_handle p' = p_handle p → p_reservation p' = p_reservation p →
  dinv n acc log cs (ps1 ++ p :: ps2) es st → dinv n acc log cs (ps1 ++ p' :: ps2) es st.
Proof.
  intros Eh Er [H1 H2 H3 H4 H5 H6 H7 H8 H9 H10].
  assert (pending_ids (ps1 ++ p' :: ps2) = pending_ids (ps1 ++ p :: ps2)) as E1
    by (unfold pending_ids; rewrite !map_app; cbn; by rewrite Eh).
  assert (downers cs (ps1 ++ p' :: ps2) = downers cs (ps1 ++ p :: ps2)) as E2
    by (unfold downers; rewrite !map_app; cbn; by rewrite Er).
  split; unfold live; rewrite ?E1, ?E2; done.
Qed.

(** One attempt [p] among the pending ones. *)
Lemma poll_connect_legal log now kept p todo (d : Drv) w n acc :
  dinv n acc log (connections d) (kept ++ p :: todo) (d_events d) (w_store w) →
  let '(r, (d', w')) := poll_connect now p (d, w) in
  ∃ n', n ≤ n' ∧
    dinv n' acc log (connections d') (kept ++ option_list r ++ todo) (d_events d') (w_store w').
Proof.
  intros H. unfold poll_connect. destruct (poll_attempt now p) as [[result |] a].
  2:{ exists n. split; [done |]. by apply (dinv_repolled _ _ _ _ kept p). }
  set (w0 := on_world (drop_reservation (p_reservation p)) w).
  assert (owns n (downers (connections d) (kept ++ todo)) (w_store w0)) as Ho.
  { apply owns_drop. eapply owns_eq; [| exact (di_owns _ _ _ _ _ _ _ H)]. intros r.
    rewrite downers_attempt. cbn. lia. }
  destruct result as [s | error].
  2:{ exists n. split; [done |]. cbn [option_list app]. by eapply dinv_fail. }
  unfold begin_connection.
  pose proof (begin_owns n _ s (mkOptions Initiator (p_expected p)) (config d) now (identity d)
    (d_resources d) (cryptography d) w0 Ho) as Hb.
  destruct (begin_shared _ _ _ _ _ _ _) as [[c | e] [cr w']]; cbn [option_list app].
  - destruct Hb as (Hn & Hc & Hi & Ee & Es & Ed).
    exists (handle_id (c_handle c) + 1). split; [lia |].
    apply (dinv_promote n _ _ _ _ _ p _ _ (w_store w)); try done; [lia |]. destruct Hi as [A1 A2 A3 A4]. by split.
  - exists n. split; [done |]. by eapply dinv_fail, Hb.
Qed.

Lemma poll_connects_loop_legal log now todo : ∀ kept (d : Drv) w n acc,
  dinv n acc log (connections d) (kept ++ todo) (d_events d) (w_store w) →
  ∃ n', n ≤ n' ∧ dok n' acc log (poll_connects_loop now kept todo (d, w)).
Proof.
  induction todo as [| p todo IH]; intros kept d w n acc H; cbn [poll_connects_loop].
  { exists n. rewrite app_nil_r in H. by split. }
  pose proof (poll_connect_legal log now kept p todo d w n acc H) as Hp.
  destruct (poll_connect now p (d, w)) as [r [d' w']]. destruct Hp as (n1 & ? & H1).
  rewrite app_assoc in H1. destruct (IH _ _ _ _ _ H1) as (n2 & ? & H2).
  exists n2. split; [lia | exact H2].
Qed.

Lemma poll_connects_legal log now x : polls log [] x (poll_connects now x).
Proof.
  intros n acc H. destruct x as [d w]. unfold poll_connects. rewrite app_nil_r.
  destruct (poll_connects_loop_legal log now (pending d) [] d w n acc H) as (n' & ? & ?). by exists n', acc.
Qed.

Lemma poll_listener_legal log now l x : polls log [] x (poll_listener now l x).2.
Proof.
  intros n acc H. destruct x as [d w]. unfold poll_listener. rewrite app_nil_r.
  destruct (poll_accept l.2) as [[[s | e] |] li].
  - pose proof (begin_dok n acc log s (mkOptions Acceptor Unpinned) now d w H) as Hb.
    destruct (begin_connection _ _ _ _) as [r [d' w']]. destruct Hb as (E1 & E2 & E3 & _ & _ & Hb).
    destruct r as [c | e].
    + destruct Hb as (Hn & Ho & Hi & Ee & Es & Ed). cbn. rewrite E1, E2, E3.
      exists (handle_id (c_handle c) + 1), (handle_id (c_handle c) :: acc). split_and!; [lia | set_solver |].
      apply dinv_note; [| done | intros h [= <-]; set_solver]. eapply dinv_add; try done. lia.
    + destruct (alloc_owns _ _ _ Hb) as [Ha1 Ha2]. destruct (alloc (w_store w')) as [id st].
      cbn [fst snd] in *. exists (id + 1), acc. split_and!; [lia | done |]. cbn. rewrite E1, E2, E3.
      eapply dinv_refuse; try done. lia.
  - exists n, acc. split_and!; [done | done |]. cbn. by apply dinv_note.
  - by exists n, acc.
Qed.

Lemma poll_listeners_loop_legal log now pendings todo : ∀ kept x,
  polls log [] x (poll_listeners_loop now kept todo pendings x).
Proof.
  induction todo as [| l todo IH]; intros kept [d w]; cbn [poll_listeners_loop].
  { intros n acc H. exists n, acc. by rewrite app_nil_r. }
  destruct (_ || _). { intros n acc H. exists n, acc. by rewrite app_nil_r. }
  pose proof (poll_listener_legal log now l (d, w)) as Hp.
  destruct (poll_listener now l (d, w)) as [r x]. eapply (polls_trans _ [] []); [exact Hp |].
  rewrite app_nil_r. apply IH.
Qed.

Lemma arm_timer_legal log x : polls log [] x (arm_timer x).
Proof.
  intros n acc H. destruct x as [d w]. exists n, acc. rewrite app_nil_r. split_and!; [done | done |].
  unfold arm_timer. destruct (_ ++ _) as [| a l]; [done |].
  destruct (poll_deadline _ _) as [reached t]. by destruct reached.
Qed.

Lemma pop_d_event_legal log x :
  let '(e, y) := pop_d_event x in polls log (option_list e) x y.
Proof.
  destruct x as [d w]. unfold pop_d_event. destruct (d_events d) as [| e rest] eqn:E; [apply polls_refl |].
  intros n acc H. exists n, acc. split_and!; [done | done |]. cbn in *. rewrite E in H. by apply dinv_deliver.
Qed.

(** The front connection after its poll, delivery and rotation. *)
Lemma poll_front_legal log now x : let '(e, y) := poll_front now x in polls log (option_list e) x y.
Proof.
  destruct x as [d w]. unfold poll_front. destruct (connections d) as [| c rest] eqn:Ec; [apply polls_refl |].
  destruct (Connection_poll now (d_registry d) (c, identity d, cryptography d, w)) as [polled [[[c1 i1] cr1] w1]] eqn:Ep.
  destruct (Connection_pop_event c1) as [e c2] eqn:Ev.
  assert (∀ n acc, dok n acc log (d, w) →
    dinv n acc (log ++ option_list e) (c2 :: rest) (pending d) (d_events d) (w_store w1) ∧
    (e = None → polled = Ready tt →
      ended c2 = true ∧ session_closed c2 ∧ c_events c2 = [] ∧ queued (session c2) = [])) as Hpoll.
  { intros n acc H. cbn [fst snd] in H. rewrite Ec in H.
    assert (conn_inv c) as Hi by (pose proof (di_conns _ _ _ _ _ _ _ H) as Hall; by apply Forall_cons in Hall as []).
    assert (∀ l, conn_owns n l (c, w) → fine n l c (c1, w1) ∧ (polled = Ready tt → socket c1 = None)) as Hf.
    { intros l Hl. pose proof (poll_fine n l 32 now (d_registry d) c (identity d) (cryptography d) w Hl Hi) as Hp.
      unfold Connection_poll in Ep. rewrite Ep in Hp. exact Hp. }
    destruct (Hf (downers rest (pending d))) as [(_ & Hi1 & Hev1) Hr].
    { unfold conn_owns. eapply owns_eq; [| exact (di_owns _ _ _ _ _ _ _ H)]. intros r.
      by rewrite (downers_middle r [] c rest), count_owner_app. }
    assert (dinv n acc log ([] ++ c1 :: rest) (pending d) (d_events d) (w_store w1)) as H1.
    { eapply (dinv_update _ _ _ [] c rest); [exact H | | exact Hi1 | exact Hev1].
      intros l Hl. by apply Hf. }
    destruct (dinv_pop _ _ _ _ _ _ _ _ _ _ _ H1 Ev) as [H2 He]. split; [exact H2 |].
    intros He0 Hr0. destruct (He He0) as (A & B & D & F). cbn [fst] in Hi1. specialize (Hr Hr0).
    rewrite D. split_and!; [unfold ended; rewrite Hr; apply orb_true_r | | done | done].
    apply F. by apply (ci_quiet _ Hi1). }
  case_bool_decide as Hclosed; cbn [negb orb]; [destruct e as [e |] |]; cbn [is_Some]; 
    rewrite ?bool_decide_true by (by eexists); rewrite ?bool_decide_false by (by intros []).
  - intros n acc H. destruct (Hpoll n acc H) as [H2 _]. exists n, acc. split_and!; [done | done |]. cbn.
    eapply dinv_permute; [| exact H2]. apply Permutation_cons_append.
  - intros n acc H. destruct (Hpoll n acc H) as [H2 Hover]. destruct Hover as (A & B & D & F); [done | done |].
    exists n, acc. split_and!; [done | done |]. cbn [fst snd connections set_connections pending d_events wake w_store
      set_cryptography set_identity].
    eapply (dinv_over _ _ _ [] c2 rest); try done.
    intros l Hl. destruct (release_spec n l c2 w1 Hl) as (Hr & Hc & _). unfold conn_owns in Hr.
    rewrite Hc, app_nil_r in Hr. exact Hr.
  - intros n acc H. destruct (Hpoll n acc H) as [H2 _]. exists n, acc. split_and!; [done | done |]. cbn.
    eapply dinv_permute; [| exact H2]. apply Permutation_cons_append.
Qed.

Lemma poll_rotation_legal log now k : ∀ x,
  let '(e, y) := poll_rotation k now x in polls log (option_list e) x y.
Proof.
  induction k as [| k IH]; intros x; cbn [poll_rotation]; [apply polls_refl |].
  destruct (connections x.1); [apply polls_refl |]. pose proof (poll_front_legal log now x) as Hf.
  destruct (poll_front now x) as [[e |] y]; [exact Hf |]. specialize (IH y).
  destruct (poll_rotation k now y) as [e z]. eapply (polls_trans _ []); [exact Hf |]. by rewrite app_nil_r.
Qed.

(** The event a poll delivers. *)
Definition delivered_by (r : Poll Event) : list Event := match r with Ready e => [e] | Pending => [] end.

Lemma poll_event_legal log x : let '(r, y) := poll_event x in polls log (delivered_by r) x y.
Proof.
  destruct x as [d w]. unfold poll_event.
  pose proof (pop_d_event_legal log (set_waker true d, w)) as H0.
  destruct (pop_d_event (set_waker true d, w)) as [[e |] [d1 w1]]; [exact H0 |].
  destruct (clock_now (clock d1)) as [now t].
  set (x1 := poll_listeners now (poll_connects now (set_clock t d1, w1))).
  assert (polls log [] (d, w) x1) as H1.
  { eapply (polls_trans _ [] []); [exact H0 |]. rewrite app_nil_r.
    apply (polls_trans _ [] [] _ (poll_connects now (set_clock t d1, w1)));
      [exact (poll_connects_legal log now (set_clock t d1, w1)) |].
    rewrite app_nil_r. apply poll_listeners_loop_legal. }
  clearbody x1. pose proof (pop_d_event_legal log x1) as H2.
  assert (∀ e y, polls log (option_list e) x1 y → polls log (option_list e) (d, w) (arm_timer y)) as Harm.
  { intros e y Hy. rewrite <- (app_nil_r (option_list e)). eapply (polls_trans _ _ []);
      [eapply (polls_trans _ []); [exact H1 | by rewrite app_nil_r] | apply arm_timer_legal]. }
  destruct (pop_d_event x1) as [[e |] x2]; [by apply (Harm (Some e)) |].
  pose proof (poll_rotation_legal log now (length (connections x2.1)) x2) as H3.
  destruct (poll_rotation _ now x2) as [[e |] x3].
  { apply (Harm (Some e)). eapply (polls_trans _ [] [e]); [exact H2 | by rewrite app_nil_r]. }
  pose proof (pop_d_event_legal log (arm_timer x3)) as H4.
  assert (polls log [] (d, w) (arm_timer x3)) as H5.
  { apply (Harm None). eapply (polls_trans _ [] []); [exact H2 | by rewrite app_nil_r]. }
  destruct (pop_d_event (arm_timer x3)) as [[e |] x4];
    (eapply (polls_trans _ []); [exact H5 | by rewrite app_nil_r]).
Qed.

End driver.
