(* ===== verification/DriverProps.v ===== *)
(** * Driver properties

    The driver's budgets, its runs, and what a run guarantees to its consumer. *)

From S2P Require Import Prelude Bytes Header Control HandshakeCodec Api Resources Framing Ports.
From S2P Require Import Handshake Integrity StreamIds Registry Session SessionSteps.
From S2P Require Import SchedulerProps SessionProps SessionReservations Connection.
From S2P Require Import ConnectionProps ConnectionRuns Driver DriverInv.

#[local] Open Scope N_scope.

Section driver.
Context {Sk : Type} `{!Socket Sk} {C : Type} `{!Cryptography C} {I : Type} `{!Identity I}.
Context {P At Li T : Type} `{!SocketProvider P At Li, !Connecting At Sk, !Listener Li Sk, !Clock T}.

Abbreviation Conn := (Connection Sk C).
Abbreviation Drv := (Driver (Sk := Sk) (C := C) (I := I) (P := P) (At := At) (Li := Li) (T := T)).
Abbreviation DSt := (Drv * World Sk)%type.
Abbreviation dok n acc log x :=
  (dinv n acc log (connections x.1) (pending x.1) (d_events x.1) (w_store x.2)).

(** ** Budgets *)

(** What [x'] may hold, given what [x] held: at most [k] more queued events. *)
Record bounded_by (k : N) (d d' : Drv) : Prop := {
  bb_limit : limit_connections d' = limit_connections d;
  bb_admitted : admitted d ≤ limit_connections d → admitted d' ≤ limit_connections d;
  bb_listeners : len (listeners d) ≤ limit_connections d → len (listeners d') ≤ limit_connections d;
  bb_events : len (d_events d') ≤ len (d_events d) + k;
}.

Lemma bounded_same k (d d' : Drv) :
  config d' = config d → len (connections d') = len (connections d) → len (pending d') = len (pending d) →
  len (listeners d') = len (listeners d) → len (d_events d') ≤ len (d_events d) + k → bounded_by k d d'.
Proof.
  intros E1 E2 E3 E4 E5. unfold admitted, limit_connections in *.
  split; unfold admitted, limit_connections; rewrite ?E1, ?E2, ?E3, ?E4; done.
Qed.

Lemma bounded_trans k1 k2 (d1 d2 d3 : Drv) :
  bounded_by k1 d1 d2 → bounded_by k2 d2 d3 → bounded_by (k1 + k2) d1 d3.
Proof.
  intros [A1 A2 A3 A4] [B1 B2 B3 B4]. rewrite A1 in *. split; [done | auto | auto | lia].
Qed.

Lemma begin_same s options now (d : Drv) w :
  let '(r, (d', w')) := begin_connection s options now (d, w) in
  connections d' = connections d ∧ pending d' = pending d ∧ d_events d' = d_events d ∧
  config d' = config d ∧ listeners d' = listeners d.
Proof. unfold begin_connection. by destruct (begin_shared _ _ _ _ _ _ _) as [r [cr w']]. Qed.

Lemma len_delete {A} (l : list A) i x : l !! i = Some x → len (delete i l) + 1 = len l.
Proof.
  intros H. unfold len. pose proof (length_delete l i ltac:(by eexists)) as Hd.
  pose proof (lookup_lt_Some _ _ _ H). lia.
Qed.
Lemma len_insert {A} (l : list A) i x : len (<[i := x]> l) = len l.
Proof. unfold len. by rewrite length_insert. Qed.

Lemma on_session_bounded {A} p (m : SM A) (d : Drv) w : bounded_by 0 d (on_session_of p m (d, w)).2.1.
Proof.
  unfold on_session_of. destruct (list_find _ _) as [[i c] |]; [| apply bounded_same; done || (cbn; lia)].
  destruct (session c) as [s |]; [| apply bounded_same; done || (cbn; lia)].
  destruct (m (s, w_store w)) as [r [s' st']]. apply bounded_same; cbn; rewrite ?len_insert; done || lia.
Qed.

Ltac lens := unfold len; repeat first [rewrite length_app | progress simpl length].
Ltac counting := unfold admitted, limit_connections in *; cbn in *; rewrite ?len_app in *; cbn in *;
  rewrite ?len_cons, ?len_nil in *; done || lia.

Lemma request_bounded r (d : Drv) w : bounded_by 1 d (request r (d, w)).2.1.
Proof.
  assert (∀ d' : Drv, bounded_by 0 d d' → bounded_by 1 d d') as H01 by (intros d' [? ? ? ?]; split; done || lia).
  assert (bounded_by 1 d d) as Hd by (apply bounded_same; done || lia).
  destruct r as [r | a | s e | l | p | c o | o st act | c tok t | c reason | c]; cbn [request].
  - unfold request_connect. destruct (N.leb_spec (limit_connections d) (admitted d)); [exact Hd |].
    destruct (Resources_connection _ _) as [[r0 |] st]; [| exact Hd].
    destruct (clock_now (clock d)) as [now t]. cbn [handshake_timeout config set_clock].
    destruct (Instant_checked_add now _); [| by apply bounded_same; counting].
    destruct (provider_connect _ _) as [[a | e] ps]; [| by apply bounded_same; counting].
    cbn. split; counting.
  - unfold request_listen. destruct (N.leb_spec (limit_connections d) (len (listeners d))); [exact Hd |].
    destruct (provider_listen _ _) as [[li | e] ps]; [| by apply bounded_same; counting].
    destruct (local_addr li); [| by apply bounded_same; counting]. cbn. split; counting.
  - unfold accept_socket. destruct (N.leb_spec (limit_connections d) (admitted d)); [exact Hd |].
    destruct (clock_now (clock d)) as [now t].
    pose proof (begin_same s (mkOptions Acceptor e) now (set_clock t d) w) as Hb.
    destruct (begin_connection _ _ _ _) as [[c | e'] [d' w']]; destruct Hb as (E1 & E2 & E3 & E4 & E5).
    + split; unfold admitted, limit_connections in *; cbn in *; rewrite ?E1, ?E2, ?E3, ?E4, ?E5, ?len_app in *;
        cbn in *; rewrite ?len_cons, ?len_nil; done || lia.
    + apply bounded_same; cbn in *; rewrite ?E1, ?E2, ?E3, ?E4, ?E5; done || lia.
  - unfold request_stop. destruct (list_find _ _) as [[i [l' li]] |] eqn:Ef; [| exact Hd].
    apply list_find_Some in Ef as (Hi & _). pose proof (len_delete _ _ _ Hi). cbn. split; counting.
  - unfold request_register. destruct (256 <=? registrations d); [exact Hd |].
    destruct (register _ _) as [[o | e] [g st]]; apply bounded_same; counting.
  - change (bounded_by 1 d ((on_session_of (has_handle c) (Session_open (d_registry d) o) ≫=
      λ a, mret (AccStream a)) (d, w)).2.1). rewrite on_session_bind. by apply H01, on_session_bounded.
  - rewrite (on_session_bind _ _ (λ _, AccQueued)). by apply H01, on_session_bounded.
  - unfold mbind at 1, M_bind at 1, run. cbn [fst snd]. destruct (clock_now (clock d)) as [now t'].
    rewrite (on_session_bind _ _ (λ _, AccQueued)). apply H01.
    destruct (on_session_bounded (has_handle c) (ping tok t now) (set_clock t' d) w) as [? ? ? ?]. by split.
  - rewrite (on_session_bind _ _ (λ _, AccQueued)). by apply H01, on_session_bounded.
  - unfold request_close. destruct (list_find _ (pending d)) as [[i p] |] eqn:Ef.
    + apply list_find_Some in Ef as (Hi & _). pose proof (len_delete _ _ _ Hi). cbn. split; counting.
    + destruct (list_find _ (connections d)) as [[i x] |]; [| exact Hd].
      destruct (Connection_close (x, w)) as [x' w']. apply bounded_same; cbn; rewrite ?len_insert; done || lia.
Qed.

(** A failed attempt becomes an event, a successful one a connection. *)
Lemma poll_connects_bounded now (d : Drv) w :
  let d' := (poll_connects now (d, w)).1 in
  limit_connections d' = limit_connections d ∧ listeners d' = listeners d ∧
  len (d_events d') + admitted d' = len (d_events d) + admitted d.
Proof.
  unfold poll_connects. cbn [fst].
  assert (∀ todo kept (d : Drv) w, let d' := (poll_connects_loop now kept todo (d, w)).1 in
    limit_connections d' = limit_connections d ∧ listeners d' = listeners d ∧
    len (d_events d') + admitted d' = len (d_events d) + len (connections d) + len kept + len todo) as Hloop.
  { clear d w. induction todo as [| p todo IH]; intros kept d w; cbn [poll_connects_loop].
    { split_and!; [done | done |]. counting. }
    destruct (poll_connect now p (d, w)) as [r [d1 w1]] eqn:Ep.
    destruct (IH (kept ++ option_list r) d1 w1) as (E1 & E2 & E3). cbv zeta. rewrite E1, E2, E3. clear IH E1 E2 E3.
    unfold poll_connect in Ep. destruct (poll_attempt now p) as [[[s | e] |] a].
    - pose proof (begin_same s (mkOptions Initiator (p_expected p)) now d
        (on_world (drop_reservation (p_reservation p)) w)) as Hb.
      destruct (begin_connection _ _ _ _) as [[c | e] [d2 w2]]; destruct Hb as (E1 & E2 & E3 & E4 & E5);
        simplify_eq/=; unfold limit_connections; cbn; rewrite E1, E3, E4, E5, ?len_app, ?app_nil_r, ?len_cons, ?len_nil;
        (split_and!; [done | done |]); cbn; lens; lia.
    - simplify_eq/=. split_and!; [done | done |]. cbn. lens. lia.
    - simplify_eq/=. split_and!; [done | done |]. cbn. lens. lia. }
  destruct (Hloop (pending d) [] d w) as (E1 & E2 & E3). cbv zeta in *. rewrite E1, E2, E3, len_nil.
  split_and!; [done | done |]. unfold admitted. lia.
Qed.

Lemma poll_listener_bounded now l (d : Drv) w :
  let '(r, (d', w')) := poll_listener now l (d, w) in
  limit_connections d' = limit_connections d ∧ pending d' = pending d ∧
  len (connections d') ≤ len (connections d) + 1 ∧ len (d_events d') ≤ len (d_events d) + 1.
Proof.
  unfold poll_listener. destruct (poll_accept l.2) as [[[s | e] |] li].
  - pose proof (begin_same s (mkOptions Acceptor Unpinned) now d w) as Hb.
    destruct (begin_connection _ _ _ _) as [[c | e] [d' w']]; destruct Hb as (E1 & E2 & E3 & E4 & E5);
      [| destruct (alloc (w_store w')) as [id st]]; unfold limit_connections; cbn;
      rewrite ?E1, ?E2, ?E3, ?E4, ?len_app; cbn; rewrite ?len_cons, ?len_nil; split_and!; done || lia.
  - cbn. split_and!; try done; lens; lia.
  - split_and!; done || lia.
Qed.

Lemma poll_listeners_bounded now (d : Drv) w : bounded_by (len (listeners d)) d (poll_listeners now (d, w)).1.
Proof.
  unfold poll_listeners. cbn [fst].
  assert (∀ todo kept (d : Drv) w, let d' := (poll_listeners_loop now kept todo (len (pending d)) (d, w)).1 in
    limit_connections d' = limit_connections d ∧
    (admitted d ≤ limit_connections d → admitted d' ≤ limit_connections d) ∧
    len (listeners d') ≤ len kept + len todo ∧ len (d_events d') ≤ len (d_events d) + len todo) as Hloop.
  { clear d w. induction todo as [| l todo IH]; intros kept d w; cbn [poll_listeners_loop].
    { split_and!; counting. }
    destruct ((_ <=? _) || (limit_connections d <=? _)) eqn:Eb.
    { split_and!; [done | done | |]; cbn; lens; lia. }
    apply orb_false_iff in Eb as [_ Eb]. apply N.leb_gt in Eb.
    pose proof (poll_listener_bounded now l d w) as Hb.
    destruct (poll_listener now l (d, w)) as [r [d1 w1]]. destruct Hb as (E1 & E2 & E3 & E4).
    rewrite <- E2. destruct (IH (kept ++ option_list r) d1 w1) as (F1 & F2 & F3 & F4). cbv zeta.
    rewrite F1, E1 in *. split_and!; [done | | |].
    - intros _. apply F2. unfold admitted. rewrite E2. lia.
    - rewrite len_app in F3. rewrite len_cons.
      assert (len (option_list r) ≤ 1) by (destruct r; cbn; lens; lia). lia.
    - rewrite len_cons. lia. }
  destruct (Hloop (listeners d) [] d w) as (E1 & E2 & E3 & E4). cbv zeta in *. rewrite len_nil in E3.
  split; try done. intros. lia.
Qed.

Lemma arm_timer_bounded (d : Drv) w : bounded_by 0 d (arm_timer (d, w)).1.
Proof.
  unfold arm_timer. destruct (_ ++ _) as [| a l]; [apply bounded_same; counting |].
  destruct (poll_deadline _ _) as [reached t]. apply bounded_same; counting.
Qed.

Lemma pop_d_event_bounded (d : Drv) w : bounded_by 0 d (pop_d_event (d, w)).2.1.
Proof.
  unfold pop_d_event. destruct (d_events d) as [| e rest] eqn:E; apply bounded_same; cbn; rewrite ?E, ?len_cons;
    done || lia.
Qed.

Lemma poll_rotation_bounded now k : ∀ (d : Drv) w, bounded_by 0 d (poll_rotation k now (d, w)).2.1.
Proof.
  assert (∀ (d : Drv) w, bounded_by 0 d (poll_front now (d, w)).2.1) as Hf.
  { intros d w. unfold poll_front. destruct (connections d) as [| c rest] eqn:Ec; [apply bounded_same; counting |].
    destruct (Connection_poll now (d_registry d) _) as [polled [[[c1 i1] cr1] w1]].
    destruct (Connection_pop_event c1) as [e c2].
    destruct (negb _ || _); split; unfold admitted; cbn; rewrite ?Ec; lens; done || lia. }
  induction k as [| k IH]; intros d w; cbn [poll_rotation]; [apply bounded_same; counting |].
  destruct (connections (d, w).1); [apply bounded_same; counting |].
  specialize (Hf d w). destruct (poll_front now (d, w)) as [[e |] [d1 w1]]; [exact Hf |].
  exact (bounded_trans 0 0 _ _ _ Hf (IH d1 w1)).
Qed.

Record within (d : Drv) : Prop := {
  wi_admitted : admitted d ≤ limit_connections d;
  wi_listeners : len (listeners d) ≤ limit_connections d;
  wi_events : len (d_events d) ≤ 4 * limit_connections d + 16;
}.

Lemma submit_within r (d : Drv) w : within d → within (submit r (d, w)).2.1.
Proof.
  intros [H1 H2 H3]. unfold submit.
  destruct (N.leb_spec (saturating_add u64_limit (saturating_mul u64_limit (limit_connections d) 4) 16)
    (len (d_events d))) as [? | Hlt]; [by destruct r |].
  assert (len (d_events d) + 1 ≤ 4 * limit_connections d + 16) as Hroom.
  { unfold saturating_add, saturating_mul in Hlt. lia. }
  destruct (request_bounded r d w) as [B1 B2 B3 B4]. destruct (request r (d, w)) as [res [d' w']].
  cbn [fst snd] in *. assert (within d') as Hw by (split; rewrite ?B1; auto; lia).
  destruct (is_ok res && waker d'); [| exact Hw]. destruct Hw. by split.
Qed.

Lemma bounded_within k (d d' : Drv) :
  bounded_by k d d' → within d → len (d_events d) + k ≤ 4 * limit_connections d + 16 → within d'.
Proof. intros [B1 B2 B3 B4] [H1 H2 H3] Hk. split; rewrite ?B1; auto; lia. Qed.

Lemma poll_event_within (d : Drv) w : within d → within (poll_event (d, w)).2.1.
Proof.
  intros Hd. unfold poll_event. assert (within (set_waker true d)) as Hd1 by (destruct Hd; by split).
  pose proof (bounded_within 0 _ _ (pop_d_event_bounded (set_waker true d) w) Hd1
    ltac:(destruct Hd1; cbn in *; lia)) as H0.
  destruct (pop_d_event (set_waker true d, w)) as [[e |] [d1 w1]] eqn:E0; [exact H0 |]. cbn [fst snd] in H0.
  assert (d_events d1 = []) as Ee.
  { unfold pop_d_event in E0. destruct (d_events (set_waker true d)) eqn:Ee; by simplify_eq. }
  destruct (clock_now (clock d1)) as [now t].
  pose proof (poll_connects_bounded now (set_clock t d1) w1) as Hc.
  destruct (poll_connects now (set_clock t d1, w1)) as [d2 w2]. destruct Hc as (C1 & C2 & C3).
  cbn [fst d_events set_clock listeners] in C1, C2, C3.
  change (limit_connections (set_clock t d1)) with (limit_connections d1) in C1.
  change (admitted (set_clock t d1)) with (admitted d1) in C3.
  rewrite Ee, len_nil in C3. destruct H0 as [W1 W2 W3].
  assert (within d2) as H2 by (split; rewrite ?C1, ?C2; lia).
  assert (len (d_events d2) + len (listeners d2) ≤ 4 * limit_connections d2 + 16) as Hroom.
  { rewrite C1, C2. lia. }
  pose proof (bounded_within _ _ _ (poll_listeners_bounded now d2 w2) H2 Hroom) as H3.
  destruct (poll_listeners now (d2, w2)) as [d3 w3]. cbn [fst] in H3. clear - H3.
  assert (∀ (da db : Drv), within da → bounded_by 0 da db → within db) as Hb.
  { intros da db Ha H. eapply bounded_within; [exact H | exact Ha |]. destruct Ha. lia. }
  pose proof (Hb _ _ H3 (pop_d_event_bounded d3 w3)) as H4.
  destruct (pop_d_event (d3, w3)) as [[e |] [d4 w4]]; cbn [fst snd] in *;
    [by apply (Hb _ _ H4), arm_timer_bounded |].
  pose proof (Hb _ _ H4 (poll_rotation_bounded now (length (connections d4)) d4 w4)) as H5.
  destruct (poll_rotation _ now (d4, w4)) as [[e |] [d5 w5]]; cbn [fst snd] in *;
    [by apply (Hb _ _ H5), arm_timer_bounded |].
  pose proof (Hb _ _ H5 (arm_timer_bounded d5 w5)) as H6. destruct (arm_timer (d5, w5)) as [d6 w6].
  pose proof (Hb _ _ H6 (pop_d_event_bounded d6 w6)) as H7. by destruct (pop_d_event (d6, w6)) as [[e |] x].
Qed.

(** ** Runs *)

Inductive driver_call : Type := DSubmit (r : Request Sk) | DPoll.

(** The connections granted and the events delivered by a call. *)
Definition driver_exec (call : driver_call) (x : DSt) : list ConnectionId * list Event * DSt :=
  match call with
  | DSubmit r => let '(res, x) := submit r x in (granted res, [], x)
  | DPoll => let '(r, x) := poll_event x in ([], delivered_by r, x)
  end.

Fixpoint driver_run (calls : list driver_call) (x : DSt) : list ConnectionId * list Event * DSt :=
  match calls with
  | [] => ([], [], x)
  | call :: calls =>
    let '(ids, log, x) := driver_exec call x in
    let '(ids', log', x) := driver_run calls x in (ids ++ ids', log ++ log', x)
  end.

Lemma driver_exec_ok call x n acc log :
  dok n acc log x → within x.1 →
  let '(ids, new, y) := driver_exec call x in
  within y.1 ∧ ∃ n' acc', acc ⊆ acc' ∧ ids ⊆ acc' ∧ dok n' acc' (log ++ new) y.
Proof.
  intros H Hw. destruct x as [d w]. destruct call as [r |]; cbn [driver_exec].
  - pose proof (submit_legal log r d w) as Hl. pose proof (submit_within r d w Hw) as Hw'.
    destruct (submit r (d, w)) as [res y]. destruct (Hl _ _ H) as (n' & acc' & ? & ? & ? & ?).
    split; [done |]. exists n', acc'. by rewrite app_nil_r.
  - pose proof (poll_event_legal log (d, w)) as Hl. pose proof (poll_event_within d w Hw) as Hw'.
    destruct (poll_event (d, w)) as [r y]. destruct (Hl _ _ H) as (n' & acc' & ? & ? & ?).
    split; [done |]. exists n', acc'. split_and!; [done | set_solver | done].
Qed.

Lemma driver_run_ok calls : ∀ x n acc log,
  dok n acc log x → within x.1 →
  let '(ids, new, y) := driver_run calls x in
  within y.1 ∧ ∃ n' acc', acc ⊆ acc' ∧ ids ⊆ acc' ∧ dok n' acc' (log ++ new) y.
Proof.
  induction calls as [| call calls IH]; intros x n acc log H Hw; cbn [driver_run].
  { split; [done |]. exists n, acc. rewrite app_nil_r. split_and!; [done | set_solver | done]. }
  pose proof (driver_exec_ok call x n acc log H Hw) as He.
  destruct (driver_exec call x) as [[ids new] y]. destruct He as (Hy & n1 & a1 & S1 & S2 & H1).
  specialize (IH y n1 a1 _ H1 Hy). destruct (driver_run calls y) as [[ids' new'] z].
  destruct IH as (Hz & n2 & a2 & S3 & S4 & H2). split; [done |]. exists n2, a2. rewrite app_assoc.
  split_and!; [set_solver.. | done].
Qed.

Lemma new_ok cfg ps (t : T) (i : I) (c : C) st n :
  owns n [] st → max_connections (config_limits cfg) < u64_limit → outbound_bytes (config_limits cfg) < u64_limit →
  let '(d, st') := Driver_new cfg ps t i c st in
  dok n [] [] ((d, mkWorld st' [] 0) : DSt) ∧ within d.
Proof.
  intros H Hc Ho. unfold Driver_new.
  pose proof (owns_new (config_limits cfg) [] st Hc Ho H) as Hn.
  destruct (Resources_new (config_limits cfg) st) as [r st']. cbn [snd] in Hn. split.
  - split; cbn; try done; try (by constructor). intros h Hh. by apply elem_of_nil in Hh.
  - split; cbn; unfold admitted; cbn; lens; lia.
Qed.

(** ** Properties *)

(** The consumer was given [id] as the handle of a connection. *)
Definition announced (ids : list ConnectionId) (evs : list Event) (id : ConnectionId) : Prop :=
  id ∈ ids ∨ ∃ h, handle_id h = id ∧ IncomingConnection h ∈ evs.

(** All a live connection has told or will tell so far. *)
Definition unfolding (c : Conn) (l : list Event) : Prop :=
  match session c with
  | None =>
    if ended c then ∃ f, l = [ConnectionClosed (handle_id (c_handle c)) (Some f)] else l = []
  | Some s => log_shape l (closed s) (context s) (c_handle c)
  end.

(** C4: no connection is lost, reported twice or confused with another.  After
    any sequence of submitted requests and polls, every connection id is in
    exactly one of these situations: it belongs to a pending attempt and nothing
    was reported about it; it belongs to a live connection, and what was reported
    about it together with what that connection still has queued is a story told
    in order (at most one closure, last; nothing else unless authenticated
    first); or it is over, and what was reported about it is complete and ends
    with its only closure.  An id in none of these was never given to the
    consumer, and nothing was reported about it. *)
Theorem connections_accounted cfg ps (t : T) (i : I) (c : C) st n calls :
  owns n [] st → max_connections (config_limits cfg) < u64_limit → outbound_bytes (config_limits cfg) < u64_limit →
  let '(d, st') := Driver_new cfg ps t i c st in
  let '(ids, log, (d', _)) := driver_run calls ((d, mkWorld st' [] 0) : DSt) in
  let told id := about id (log ++ d_events d') in
  NoDup (live (connections d') (pending d')) ∧
  (∀ p, p ∈ pending d' → told (handle_id (p_handle p)) = []) ∧
  (∀ c, c ∈ connections d' →
    unfolding c (told (handle_id (c_handle c)) ++ c_events c ++ queued (session c))) ∧
  (∀ id, id ∉ live (connections d') (pending d') →
    complete id (told id) ∨ told id = [] ∧ ¬ announced ids (log ++ d_events d') id).
Proof.
  intros H Hc Ho. pose proof (new_ok cfg ps t i c st n H Hc Ho) as Hn.
  destruct (Driver_new cfg ps t i c st) as [d st']. destruct Hn as [Hn Hw].
  pose proof (driver_run_ok calls ((d, mkWorld st' [] 0) : DSt) n [] [] Hn Hw) as Hr.
  destruct (driver_run calls _) as [[ids log] [d' w']]. destruct Hr as (_ & n' & acc & _ & Hs & Hd).
  destruct Hd as [H1 H2 H3 H4 H5 H6 H7 H8 H9 H10]. cbn [app fst snd] in *.
  rewrite Forall_forall in H5. rewrite Forall_forall in H6. rewrite Forall_forall in H7.
  split_and!; [done | | |].
  - intros p Hp. assert (handle_id (p_handle p) ∈ pending_ids (pending d')) as Hin
      by (apply list_elem_of_fmap; by exists p).
    rewrite about_app, (H6 _ Hin), (H7 (handle_id (p_handle p))); [done |]. apply elem_of_app. by left.
  - intros k Hk. assert (handle_id (c_handle k) ∈ live (connections d') (pending d')) as Hin.
    { apply elem_of_app. right. apply list_elem_of_fmap. by exists k. }
    rewrite about_app, (H7 _ Hin), app_nil_r. destruct (H5 k Hk) as [_ Ht]. unfold unfolding.
    destruct (session k) as [s |]; cbn [queued].
    + destruct Ht as (<- & -> & st0 & K). apply (inv_shape _ _ _ _ _ _ _ (reachable_inv _ _ K)).
    + by rewrite app_nil_r.
  - intros id Hid. destruct (H8 id Hid) as [? | [? Hn']]; [by left | right]. split; [done |].
    intros [Hx | (h & <- & Hx)]; apply Hn'; [by apply Hs | by apply H10].
Qed.

(** The driver stays within its budgets.  After any sequence of submitted
    requests and polls, attempts and connections together and listeners do not
    exceed the configured number of connections, the driver's own event queue
    holds at most four per connection and sixteen more, and the live reservations
    of the shared store are exactly those of its attempts and connections. *)
Theorem driver_bounded cfg ps (t : T) (i : I) (c : C) st n calls :
  owns n [] st → max_connections (config_limits cfg) < u64_limit → outbound_bytes (config_limits cfg) < u64_limit →
  let '(d, st') := Driver_new cfg ps t i c st in
  let '(_, (d', w')) := driver_run calls ((d, mkWorld st' [] 0) : DSt) in
  len (connections d') + len (pending d') ≤ limit_connections d' ∧
  len (listeners d') ≤ limit_connections d' ∧
  len (d_events d') ≤ 4 * limit_connections d' + 16 ∧
  store_wf (w_store w') ∧
  ∀ r, refs_of (w_store w') r = count_owner r (downers (connections d') (pending d')).
Proof.
  intros H Hc Ho. pose proof (new_ok cfg ps t i c st n H Hc Ho) as Hn.
  destruct (Driver_new cfg ps t i c st) as [d st']. destruct Hn as [Hn Hw].
  pose proof (driver_run_ok calls ((d, mkWorld st' [] 0) : DSt) n [] [] Hn Hw) as Hr.
  destruct (driver_run calls _) as [[ids log] [d' w']].
  destruct Hr as ([W1 W2 W3] & n' & acc & _ & _ & Hd). destruct (di_owns _ _ _ _ _ _ _ Hd) as [[Hs _] Hr].
  split_and!; done.
Qed.

End driver.

(** ** Witnesses: a dialled connection whose peer hangs up *)

#[export] Instance demo_connecting : Connecting (Poll (result ErrorKind Script)) Script := λ a, (a, a).
#[export] Instance demo_listener : Listener N Script := {|
  local_addr := λ _, Ok (SocketAddrV4 (mkIpv4 x7f x00 x00 x01) 1);
  poll_accept := λ l, (Pending, l);
  listener_close := λ l, (Ok tt, l);
|}.
#[export] Instance demo_network : SocketProvider N (Poll (result ErrorKind Script)) N := {|
  provider_connect := λ n _, (Ok (Ready (Ok demo_socket)), n);
  provider_listen := λ n _, (Ok 0, n);
|}.
(** Each reading of the clock is one unit later. *)
#[export] Instance demo_clock : Clock N := {|
  clock_now := λ t, (t, t + 1);
  poll_deadline := λ t d, (d <=? t, t);
|}.

Definition demo_driver := Driver_new (Sk := Script) (C := N) (I := N) (P := N)
  (At := Poll (result ErrorKind Script)) (Li := N) (T := N) demo_config 0 0 5 100 Store_empty.
Definition demo_dial : list (driver_call (Sk := Script)) :=
  [DSubmit (ReqConnect (mkConnectRequest (SocketAddrV4 (mkIpv4 x7f x00 x00 x01) 4321) Unpinned)); DPoll; DPoll; DPoll].

Lemma empty_owns : owns 0 [] Store_empty.
Proof.
  split; [split; [apply Store_empty_wf | done] |]. intros r. unfold refs_of. cbn. by rewrite lookup_empty.
Qed.

(** What the run granted, and how many attempts and connections remain. *)
Definition demo_end := driver_run demo_dial (demo_driver.1, mkWorld demo_driver.2 [] 0).
Definition demo_summary : list ConnectionId * nat * nat * nat :=
  let '(ids, log, (d, _)) := demo_end in (ids, length log, length (pending d), length (connections d)).

Lemma connections_accounted_witness :
  demo_summary = ([3], 1%nat, 0%nat, 0%nat) ∧
  let '(ids, log, (d', _)) := demo_end in
  ∀ id, id ∉ live (connections d') (pending d') →
    complete id (about id (log ++ d_events d')) ∨
    about id (log ++ d_events d') = [] ∧ ¬ announced ids (log ++ d_events d') id.
Proof.
  split; [vm_compute; reflexivity |].
  pose proof (connections_accounted demo_config 0 0 5 100 Store_empty 0 demo_dial empty_owns eq_refl eq_refl) as H.
  unfold demo_end. fold demo_driver in H. destruct demo_driver as [d st'].
  cbn [fst snd]. destruct (driver_run demo_dial _) as [[ids log] [d' w']]. apply H.
Defined.

Lemma driver_bounded_witness :
  demo_summary = ([3], 1%nat, 0%nat, 0%nat) ∧
  let '(_, (d', w')) := demo_end in
  ∀ r, refs_of (w_store w') r = count_owner r (downers (connections d') (pending d')).
Proof.
  split; [vm_compute; reflexivity |].
  pose proof (driver_bounded demo_config 0 0 5 100 Store_empty 0 demo_dial empty_owns eq_refl eq_refl) as H.
  unfold demo_end. fold demo_driver in H. destruct demo_driver as [d st'].
  cbn [fst snd]. destruct (driver_run demo_dial _) as [ids [d' w']]. apply H.
Defined.
