(* ===== verification/Arcs.v ===== *)
(** * Reference-counted cells

    [std::sync::Arc] and [std::sync::Weak] as an explicit heap: an [Arc] is the
    number of the allocation it points to, [Arc::ptr_eq] is equality of these
    numbers, and an allocation is gone once its last strong reference is
    dropped.  Numbers are never issued twice, so a [Weak] that outlives its
    allocation never upgrades to another one. *)

From S2P Require Import Prelude.

#[local] Open Scope N_scope.

Section arcs.
Context {A : Type}.

Record Cell : Type := mkCell { cell_value : A; strong : nat }.
Record Arcs : Type := mkArcs { cells : gmap N Cell; fresh : N }.

Definition Arcs_empty : Arcs := mkArcs ∅ 0.

Definition arc_new (a : A) (h : Arcs) : N * Arcs :=
  (fresh h, mkArcs (<[fresh h := mkCell a 1]> (cells h)) (fresh h + 1)).
Definition arc_get (r : N) (h : Arcs) : option A := cell_value <$> cells h !! r.
Definition strong_count (r : N) (h : Arcs) : nat := from_option strong O (cells h !! r).
(** [weak.upgrade().is_some()], [weak.strong_count() > 0]. *)
Definition alive (r : N) (h : Arcs) : bool := (0 <? strong_count r h)%nat.
Definition arc_clone (r : N) (h : Arcs) : Arcs :=
  match cells h !! r with
  | None => h
  | Some c => mkArcs (<[r := mkCell (cell_value c) (S (strong c))]> (cells h)) (fresh h)
  end.
Definition arc_drop (r : N) (h : Arcs) : Arcs :=
  match cells h !! r with
  | None => h
  | Some c =>
    if decide (strong c ≤ 1)%nat then mkArcs (delete r (cells h)) (fresh h)
    else mkArcs (<[r := mkCell (cell_value c) (pred (strong c))]> (cells h)) (fresh h)
  end.
(** A write through a shared cell with interior mutability. *)
Definition arc_store (r : N) (a : A) (h : Arcs) : Arcs :=
  match cells h !! r with
  | None => h
  | Some c => mkArcs (<[r := mkCell a (strong c)]> (cells h)) (fresh h)
  end.
Definition arc_drop_option (o : option N) (h : Arcs) : Arcs :=
  match o with None => h | Some r => arc_drop r h end.

(** ** Owners

    [owned h l]: the strong references of the heap are exactly the owners
    listed in [l], with multiplicity. *)
Definition occurrences (r : N) (l : list N) : nat := length (filter (r =.) l).
Record owned (h : Arcs) (l : list N) : Prop := {
  owned_count : ∀ r, strong_count r h = occurrences r l;
  owned_positive : ∀ r c, cells h !! r = Some c → (0 < strong c)%nat;
  owned_fresh : ∀ r, r ∈ l → r < fresh h;
}.

Lemma occurrences_nil r : occurrences r [] = O.
Proof. done. Qed.
Lemma occurrences_cons r x l :
  occurrences r (x :: l) = ((if decide (r = x) then 1 else 0) + occurrences r l)%nat.
Proof. unfold occurrences. rewrite filter_cons. by destruct (decide _). Qed.
Lemma occurrences_app r l k : occurrences r (l ++ k) = (occurrences r l + occurrences r k)%nat.
Proof. unfold occurrences. by rewrite filter_app, length_app. Qed.
Lemma occurrences_perm r l k : l ≡ₚ k → occurrences r l = occurrences r k.
Proof. intros Hp. unfold occurrences. by rewrite Hp. Qed.
Lemma occurrences_elem r l : (0 < occurrences r l)%nat ↔ r ∈ l.
Proof.
  induction l as [| x l IH]; [unfold occurrences; simpl; split; [lia | by intros ?%not_elem_of_nil] |].
  rewrite occurrences_cons, elem_of_cons, <- IH. destruct (decide (r = x)) as [-> | Hne].
  - split; [intros; by left | lia].
  - split; [intros; right; lia | intros [-> | H]; [done | lia]].
Qed.

Lemma owned_empty : owned Arcs_empty [].
Proof. split; [done | done |]. by intros r ?%not_elem_of_nil. Qed.

Lemma owned_perm h l k : l ≡ₚ k → owned h l → owned h k.
Proof.
  intros Hp [Hc Hpos Hf]. split; [| done |].
  - intros r. by rewrite Hc, (occurrences_perm r l k).
  - intros r Hr. apply Hf. by rewrite Hp.
Qed.

Lemma alive_owned h l r : owned h l → alive r h = true ↔ r ∈ l.
Proof.
  intros [Hc _ _]. unfold alive. rewrite Hc, <- occurrences_elem. split; lia.
Qed.

Lemma owned_fresh_None h l : owned h l → cells h !! fresh h = None.
Proof.
  intros [Hc Hpos Hf]. destruct (cells h !! fresh h) as [c |] eqn:E; [| done]. exfalso.
  pose proof (Hpos _ _ E) as Hp. specialize (Hc (fresh h)).
  unfold strong_count in Hc. rewrite E in Hc. simpl in Hc.
  assert (fresh h ∈ l) as Hin by (apply occurrences_elem; lia). apply Hf in Hin. lia.
Qed.

Lemma owned_new h l a : owned h l → owned (arc_new a h).2 ((arc_new a h).1 :: l).
Proof.
  intros Ho. pose proof (owned_fresh_None h l Ho) as Hn. destruct Ho as [Hc Hpos Hf].
  unfold arc_new. cbn [fst snd]. split; cbn [cells fresh].
  - intros r. rewrite occurrences_cons. specialize (Hc r). unfold strong_count in *. cbn [cells].
    destruct (decide (r = fresh h)) as [-> | Hne].
    + rewrite lookup_insert_eq. rewrite Hn in Hc. simpl in *. lia.
    + by rewrite lookup_insert_ne.
  - intros r c. destruct (decide (r = fresh h)) as [-> | Hne].
    + rewrite lookup_insert_eq. intros [= <-]. simpl. lia.
    + rewrite lookup_insert_ne by done. apply Hpos.
  - intros r [-> | Hr]%elem_of_cons; [lia |]. apply Hf in Hr. lia.
Qed.

Lemma owned_clone h l r : r ∈ l → owned h l → owned (arc_clone r h) (r :: l).
Proof.
  intros Hr [Hc Hpos Hf]. pose proof (Hc r) as Hcr. apply occurrences_elem in Hr as Hr'.
  unfold arc_clone, strong_count in *. destruct (cells h !! r) as [c |] eqn:E; [| simpl in *; lia].
  split; cbn [cells fresh].
  - intros k. rewrite occurrences_cons. specialize (Hc k). unfold strong_count in *. cbn [cells].
    destruct (decide (k = r)) as [-> | Hne].
    + rewrite lookup_insert_eq. simpl in *. lia.
    + by rewrite lookup_insert_ne.
  - intros k c'. destruct (decide (k = r)) as [-> | Hne].
    + rewrite lookup_insert_eq. intros [= <-]. simpl. lia.
    + rewrite lookup_insert_ne by done. apply Hpos.
  - intros k [-> | Hk]%elem_of_cons; by apply Hf.
Qed.

Lemma owned_drop h l r : owned h (r :: l) → owned (arc_drop r h) l.
Proof.
  intros [Hc Hpos Hf]. pose proof (Hc r) as Hcr. rewrite occurrences_cons, decide_True in Hcr by done.
  unfold arc_drop, strong_count in *. destruct (cells h !! r) as [c |] eqn:E; [| simpl in *; lia].
  assert (∀ k, k ≠ r → from_option strong O (cells h !! k) = occurrences k l) as Hother.
  { intros k Hne. rewrite Hc, occurrences_cons, decide_False by done. done. }
  simpl in Hcr. destruct (decide (strong c ≤ 1)%nat); split; cbn [cells fresh]; intros k.
  - unfold strong_count. cbn [cells]. destruct (decide (k = r)) as [-> | Hne].
    + rewrite lookup_delete_eq. simpl. lia.
    + rewrite lookup_delete_ne by done. by apply Hother.
  - intros c' [_ Hl]%lookup_delete_Some. by eapply Hpos.
  - intros Hk. apply Hf. by right.
  - unfold strong_count. cbn [cells]. destruct (decide (k = r)) as [-> | Hne].
    + rewrite lookup_insert_eq. simpl. lia.
    + rewrite lookup_insert_ne by done. by apply Hother.
  - intros c'. destruct (decide (k = r)) as [-> | Hne].
    + rewrite lookup_insert_eq. intros [= <-]. simpl. lia.
    + rewrite lookup_insert_ne by done. apply Hpos.
  - intros Hk. apply Hf. by right.
Qed.

Lemma owned_store h l r a : owned h l → owned (arc_store r a h) l.
Proof.
  intros [Hc Hpos Hf]. unfold arc_store. destruct (cells h !! r) as [c |] eqn:E; [| done].
  split; cbn [cells fresh]; intros k.
  - rewrite <- Hc. unfold strong_count. cbn [cells]. destruct (decide (k = r)) as [-> | Hne].
    + by rewrite lookup_insert_eq, E.
    + by rewrite lookup_insert_ne.
  - intros c'. destruct (decide (k = r)) as [-> | Hne].
    + rewrite lookup_insert_eq. intros [= <-]. simpl. by eapply Hpos.
    + rewrite lookup_insert_ne by done. apply Hpos.
  - apply Hf.
Qed.

(** Only an allocation issues a number. *)
Lemma arc_clone_fresh r h : fresh (arc_clone r h) = fresh h.
Proof. unfold arc_clone. by case_match. Qed.
Lemma arc_drop_fresh r h : fresh (arc_drop r h) = fresh h.
Proof. unfold arc_drop. by repeat case_match. Qed.

(** The payload of a cell changes only by a write. *)
Lemma arc_get_new h l r a :
  owned h l → arc_get r (arc_new a h).2 = if decide (r = fresh h) then Some a else arc_get r h.
Proof.
  intros Ho. unfold arc_get, arc_new. cbn [fst snd cells]. destruct (decide (r = fresh h)) as [-> | Hne].
  - by rewrite lookup_insert_eq.
  - by rewrite lookup_insert_ne.
Qed.
Lemma arc_get_clone h r k : arc_get r (arc_clone k h) = arc_get r h.
Proof.
  unfold arc_get, arc_clone. destruct (cells h !! k) as [c |] eqn:E; [| done]. cbn [cells].
  destruct (decide (r = k)) as [-> | Hne]; [by rewrite lookup_insert_eq, E | by rewrite lookup_insert_ne].
Qed.
Lemma arc_get_drop h l r k : owned h (k :: l) → r ∈ l → arc_get r (arc_drop k h) = arc_get r h.
Proof.
  intros Ho Hr. pose proof (owned_count _ _ Ho k) as Hc. unfold arc_get, arc_drop, strong_count in *.
  destruct (cells h !! k) as [c |] eqn:E; [| done].
  rewrite occurrences_cons, decide_True in Hc by done. simpl in Hc.
  destruct (decide (strong c ≤ 1)%nat); cbn [cells].
  - rewrite lookup_delete_ne; [done |]. intros ->. apply occurrences_elem in Hr. lia.
  - destruct (decide (r = k)) as [-> | Hne]; [by rewrite lookup_insert_eq, E | by rewrite lookup_insert_ne].
Qed.
Lemma arc_get_store h r k a :
  arc_get r (arc_store k a h) = if decide (r = k) then (λ _, a) <$> arc_get r h else arc_get r h.
Proof.
  unfold arc_get, arc_store. destruct (cells h !! k) as [c |] eqn:E; cbn [cells];
    destruct (decide (r = k)) as [-> |]; [by rewrite lookup_insert_eq, E | by rewrite lookup_insert_ne | by rewrite E | done].
Qed.
Lemma arc_store_fresh r a h : fresh (arc_store r a h) = fresh h.
Proof. unfold arc_store. by case_match. Qed.
Lemma owned_get h l r : owned h l → r ∈ l → is_Some (arc_get r h).
Proof.
  intros [Hc _ _] Hr. apply occurrences_elem in Hr. rewrite <- Hc in Hr. unfold strong_count, arc_get in *.
  destruct (cells h !! r); [by eexists | simpl in Hr; lia].
Qed.

(** The cells of a heap are among its owners. *)
Lemma size_cells (h : Arcs) l k :
  owned h l → NoDup k → (∀ r, r ∈ l → r ∈ k) → (size (cells h) ≤ length k)%nat.
Proof.
  intros Ho Hnd Hsub. rewrite <- size_dom, <- (size_list_to_set (C := gset N) k) by done.
  apply subseteq_size. intros r Hr. apply elem_of_list_to_set, Hsub.
  apply elem_of_dom in Hr as [c Hc]. apply occurrences_elem. rewrite <- (owned_count _ _ Ho).
  unfold strong_count. rewrite Hc. by apply (owned_positive _ _ Ho r).
Qed.
End arcs.
Arguments Cell A : clear implicits.
Arguments Arcs A : clear implicits.
