(* ===== verification/BoardBase.v ===== *)
(** * Board: errors, limits, authority and call contexts

    [src/modules/board/{mod,config,authority,contract}.rs].  An [Authority] is
    the allocation of its revocation flag and a [Grant] keeps a weak reference
    to it; both live in the heap of authority domains, beside the monotonic
    clock every call context reads. *)

From S2P Require Import Prelude Bytes Api Arcs.

#[local] Open Scope N_scope.

(** ** Errors: [mod.rs] *)

Inductive BoardError : Type :=
| BInvalid | BUnsupported | BDenied | BLimit | BMissing | BStale | BCancelled | BStorage | BUnknown.

#[global] Instance BoardError_eq_dec : EqDecision BoardError.
Proof. solve_decision. Defined.

(** ** Limits: [config.rs] *)

Definition RECORD_FIXED_BYTES : N := 64.
Definition RECORD_ENTRY_BYTES : N := 12.

Record Limits : Type := mkLimits {
  lim_document_bytes : N;
  lim_depth : N;
  lim_nodes : N;
  lim_string_bytes : N;
  lim_array_elements : N;
  lim_definitions : N;
  lim_publication_bytes : N;
  lim_cache_entries : N;
  lim_snapshots : N;
  lim_cache_seconds : N;
}.

Definition Limits_default : Limits :=
  mkLimits 1048576 31 65536 1048576 4096 1024 16777216 64 128 300.

Definition Limits_validate (l : Limits) : result BoardError unit :=
  let values := [lim_document_bytes l; lim_depth l; lim_nodes l; lim_string_bytes l;
                 lim_array_elements l; lim_definitions l; lim_publication_bytes l;
                 lim_cache_entries l; lim_snapshots l] in
  let envelope :=
    n ← (n ← checked_mul u64_limit (lim_publication_bytes l) 2;
         d ← checked_mul u64_limit (lim_definitions l) RECORD_ENTRY_BYTES;
         checked_add u64_limit n d);
    checked_add u64_limit n RECORD_FIXED_BYTES in
  if bool_decide (envelope = None)
     || bool_decide (0 ∈ values)
     || (lim_cache_seconds l =? 0)
     || (31 <? lim_depth l)
     || (1048576 <? lim_document_bytes l)
     || (lim_document_bytes l <? lim_string_bytes l)
     || (lim_publication_bytes l <? lim_document_bytes l)
  then Err BInvalid else Ok tt.

(** What a validated policy promises the rest of the module. *)
Record limits_valid (l : Limits) : Prop := {
  lv_document : 0 < lim_document_bytes l ≤ 1048576;
  lv_depth : 0 < lim_depth l ≤ 31;
  lv_nodes : 0 < lim_nodes l;
  lv_string : 0 < lim_string_bytes l ≤ lim_document_bytes l;
  lv_array : 0 < lim_array_elements l;
  lv_definitions : 0 < lim_definitions l;
  lv_publication : lim_document_bytes l ≤ lim_publication_bytes l;
  lv_entries : 0 < lim_cache_entries l;
  lv_snapshots : 0 < lim_snapshots l;
  lv_seconds : 0 < lim_cache_seconds l;
  lv_envelope : lim_publication_bytes l * 2 + lim_definitions l * RECORD_ENTRY_BYTES
                + RECORD_FIXED_BYTES < u64_limit;
}.

Lemma Limits_validate_ok l : Limits_validate l = Ok tt ↔ limits_valid l.
Proof.
  unfold Limits_validate. cbn -[N.mul N.add].
  set (P := lim_publication_bytes l). set (D := lim_definitions l).
  assert (∀ o : option N, bool_decide (o = None) = false ↔ is_Some o) as Hnone.
  { intros [n |]; split; try done; intros H; by destruct H. }
  destruct (bool_decide (_ = None)) eqn:He.
  { cbn -[N.mul N.add]. split; [done |]. intros [? ? ? ? ? ? ? ? ? ? Henv]. exfalso.
    apply bool_decide_eq_true in He. unfold RECORD_ENTRY_BYTES, RECORD_FIXED_BYTES in *.
    fold P D in Henv. unfold checked_mul, checked_add, mbind, option_bind in He.
    rewrite (proj2 (N.ltb_lt (P * 2) _)) in He by lia.
    rewrite (proj2 (N.ltb_lt (D * 12) _)) in He by lia.
    rewrite (proj2 (N.ltb_lt (P * 2 + D * 12) _)) in He by lia.
    rewrite (proj2 (N.ltb_lt (P * 2 + D * 12 + 64) _)) in He by lia. done. }
  apply Hnone in He as [n He].
  assert (P * 2 + D * 12 + 64 < u64_limit) as Henv.
  { apply bind_Some in He as (a & He & Ha). apply bind_Some in He as (b & Hb & He).
    apply bind_Some in He as (c & Hc & He).
    apply checked_mul_Some in Hb as [-> _]. apply checked_mul_Some in Hc as [-> _].
    apply checked_add_Some in He as [-> _]. apply checked_add_Some in Ha as [_ Ha]. exact Ha. }
  cbn [orb]. rewrite bool_decide_decide. destruct (decide _) as [Hz | Hz].
  { split; [done |]. intros [? ? ? ? ? ? ? ? ? ? _]. exfalso.
    rewrite !elem_of_cons, elem_of_nil in Hz. subst P D.
    repeat destruct Hz as [Hz | Hz]; lia. }
  assert (∀ x, x ∈ [lim_document_bytes l; lim_depth l; lim_nodes l; lim_string_bytes l;
                 lim_array_elements l; D; P; lim_cache_entries l; lim_snapshots l] → 0 < x) as Hpos.
  { intros x Hx. destruct (decide (x = 0)) as [-> | ?]; [done | lia]. }
  cbn [orb]. destruct (_ || _) eqn:E; (split; [intros Hok; try done | intros Hv; try done]).
  - exfalso. destruct Hv. subst P D. lia.
  - pose proof (Hpos (lim_document_bytes l) ltac:(set_solver)).
    pose proof (Hpos (lim_depth l) ltac:(set_solver)). pose proof (Hpos (lim_nodes l) ltac:(set_solver)).
    pose proof (Hpos (lim_string_bytes l) ltac:(set_solver)).
    pose proof (Hpos (lim_array_elements l) ltac:(set_solver)).
    pose proof (Hpos D ltac:(set_solver)). pose proof (Hpos P ltac:(set_solver)).
    pose proof (Hpos (lim_cache_entries l) ltac:(set_solver)).
    pose proof (Hpos (lim_snapshots l) ltac:(set_solver)).
    split; fold P D; unfold RECORD_ENTRY_BYTES, RECORD_FIXED_BYTES; lia.
Qed.

Example Limits_default_valid : Limits_validate Limits_default = Ok tt.
Proof. reflexivity. Qed.

(** ** Time and authority domains *)

(** [Instant::now()]: reading the clock lets time pass. *)
Class MonotonicTime (T : Type) : Type := instant_now : T → Instant * T.

Record Control (T : Type) : Type := mkControl { ctl_clock : T; ctl_domains : Arcs bool }.
Arguments mkControl {T} _ _.
Arguments ctl_clock {T} _.
Arguments ctl_domains {T} _.

(** ** Authority: [authority.rs] *)

Inductive Action : Type := ActPublish | ActRead | ActCache | ActSelect.

#[global] Instance Action_eq_dec : EqDecision Action.
Proof. solve_decision. Defined.

(** [Authority(Arc<AtomicBool>)] *)
Abbreviation Authority := N (only parsing).

Record Grant : Type := mkGrant {
  grant_domain : N;
  grant_publisher : IdentityId;
  grant_action : Action;
  grant_bytes : N;
}.

Section authority.
Context {T : Type} `{!MonotonicTime T}.

Definition Authority_new (c : Control T) : Authority * Control T :=
  let '(a, h) := arc_new true (ctl_domains c) in (a, mkControl (ctl_clock c) h).

(** [load]: the flag of a live domain; [self] is always live. *)
Definition load (a : N) (c : Control T) : bool := default false (arc_get a (ctl_domains c)).

Definition Authority_grant (a : Authority) (publisher : IdentityId) (action : Action) (bytes : N)
    (c : Control T) : result BoardError Grant :=
  if negb (load a c) then Err BDenied else
  if bytes =? 0 then Err BLimit else
  Ok (mkGrant a publisher action bytes).

Definition Authority_check (a : Authority) (g : Grant) (publisher : IdentityId) (action : Action)
    (bytes : N) (c : Control T) : result BoardError unit :=
  if negb (alive (grant_domain g) (ctl_domains c)) then Err BDenied else
  if negb (bool_decide (a = grant_domain g))
     || negb (load (grant_domain g) c)
     || negb (bool_decide (grant_publisher g = publisher))
     || negb (bool_decide (grant_action g = action))
  then Err BDenied else
  if grant_bytes g <? bytes then Err BLimit else Ok tt.

Definition revoke (a : Authority) (c : Control T) : Control T :=
  mkControl (ctl_clock c) (arc_store a false (ctl_domains c)).

(** ** Call contexts: [contract.rs] *)

Record CallContext : Type := mkContext {
  ctx_grant : Grant;
  ctx_deadline : Instant;
  ctx_cancelled : bool;
}.

(** [Instant::now() >= deadline] is not evaluated for a cancelled call. *)
Definition Context_check (x : CallContext) (a : Authority) (publisher : IdentityId) (action : Action)
    (bytes : N) : M (Control T) BoardError unit := λ c,
  if ctx_cancelled x then (Err BCancelled, c) else
  let '(now, t) := instant_now (ctl_clock c) in
  let c := mkControl t (ctl_domains c) in
  if ctx_deadline x <=? now then (Err BCancelled, c) else
  (Authority_check a (ctx_grant x) publisher action bytes c, c).

(** ** What a check establishes *)

Lemma Authority_check_ok a g p act n c :
  Authority_check a g p act n c = Ok tt ↔
  alive a (ctl_domains c) = true ∧ load a c = true ∧
  g = mkGrant a p act (grant_bytes g) ∧ n ≤ grant_bytes g.
Proof.
  unfold Authority_check. destruct g as [d gp ga gn].
  cbn [grant_domain grant_publisher grant_action grant_bytes]. split.
  - destruct (alive d (ctl_domains c)) eqn:Ha; cbn [negb]; [| done].
    destruct (bool_decide_reflect (a = d)) as [-> |]; cbn [negb orb]; [| done].
    destruct (load d c); cbn [negb orb]; [| done].
    destruct (bool_decide_reflect (gp = p)) as [-> |]; cbn [negb orb]; [| done].
    destruct (bool_decide_reflect (ga = act)) as [-> |]; cbn [negb orb]; [| done].
    destruct (N.ltb_spec gn n); [done |]. done.
  - intros (Ha & Hl & [= -> -> ->] & Hn). rewrite Ha, Hl, !bool_decide_true by done. cbn [negb orb].
    by rewrite (proj2 (N.ltb_ge _ _)).
Qed.

Lemma Context_check_domains x a p act n c :
  ctl_domains (Context_check x a p act n c).2 = ctl_domains c.
Proof.
  unfold Context_check. destruct (ctx_cancelled x); [done |].
  destruct (instant_now _). by destruct (_ <=? _).
Qed.

Lemma Context_check_ok x a p act n c c' :
  Context_check x a p act n c = (Ok tt, c') →
  ctx_cancelled x = false ∧ Authority_check a (ctx_grant x) p act n c = Ok tt.
Proof.
  unfold Context_check. destruct (ctx_cancelled x); [done |].
  destruct (instant_now _) as [now t]. destruct (_ <=? _); [done |]. intros [= H _]. split; [done |].
  apply Authority_check_ok. by apply Authority_check_ok in H.
Qed.

(** A revoked domain authorizes nothing, whatever its grants say. *)
Lemma revoke_denies a x p act n c :
  ∃ e, (Context_check x a p act n (revoke a c)).1 = Err e.
Proof.
  unfold Context_check, revoke. cbn [ctl_clock ctl_domains].
  destruct (ctx_cancelled x); [by eexists |]. destruct (instant_now _) as [now t].
  destruct (_ <=? _); [by eexists |]. cbn [fst].
  destruct (Authority_check _ _ _ _ _ _) as [[] | e] eqn:E; [| by eexists]. exfalso.
  apply Authority_check_ok in E as (_ & Hl & _). unfold load, arc_get, arc_store in Hl.
  cbn [ctl_domains] in Hl. destruct (cells (ctl_domains c) !! a) as [k |] eqn:Ek.
  - cbn [cells] in Hl. by rewrite lookup_insert_eq in Hl.
  - by rewrite Ek in Hl.
Qed.

End authority.
