(* ===== verification/Json.v ===== *)
(** * JSON values

    The interface of the serde_json crate the Board and the service schemas
    use: its public [Value] enum, with numbers kept as their source token (the
    crate is built with arbitrary precision) and an object as its entries in
    iteration order, and its parser, a parameter. *)

From stdpp Require Export strings.
From S2P Require Import Prelude Bytes.

#[local] Open Scope N_scope.

(** Byte-string literals. *)
Definition lit (s : string) : bytes := String.list_byte_of_string s.

#[warnings="-register-all"]
Inductive Value : Type :=
| JNull
| JBool (b : bool)
| JNumber (token : bytes)
| JString (s : bytes)
| JArray (items : list Value)
| JObject (entries : list (bytes * Value)).

#[global] Instance Value_eq_dec : EqDecision Value.
Proof.
  refine (fix go a b := let r : EqDecision Value := @go in
    match a, b with
    | JNull, JNull => left eq_refl
    | JBool x, JBool y => cast_if (decide (x = y))
    | JNumber x, JNumber y => cast_if (decide (x = y))
    | JString x, JString y => cast_if (decide (x = y))
    | JArray x, JArray y => cast_if (decide (x = y))
    | JObject x, JObject y => cast_if (decide (x = y))
    | _, _ => right _
    end); clear r go; abstract congruence.
Defined.

(** ** Accessors *)

Definition as_object (v : Value) : option (list (bytes * Value)) :=
  match v with JObject m => Some m | _ => None end.
Definition as_array (v : Value) : option (list Value) :=
  match v with JArray l => Some l | _ => None end.
Definition as_str (v : Value) : option bytes := match v with JString s => Some s | _ => None end.
Definition as_bool (v : Value) : option bool := match v with JBool b => Some b | _ => None end.
Definition as_number (v : Value) : option bytes := match v with JNumber t => Some t | _ => None end.
Definition is_object (v : Value) : bool := bool_decide (is_Some (as_object v)).
Definition is_string (v : Value) : bool := bool_decide (is_Some (as_str v)).

(** [Map::get], [Map::contains_key], [Value::get] with a string index. *)
Fixpoint map_get (key : bytes) (m : list (bytes * Value)) : option Value :=
  match m with
  | [] => None
  | (k, v) :: m => if bool_decide (k = key) then Some v else map_get key m
  end.
Definition contains_key (key : bytes) (m : list (bytes * Value)) : bool :=
  bool_decide (is_Some (map_get key m)).
Definition get (key : bytes) (v : Value) : option Value := as_object v ≫= map_get key.

(** ** The parser and printer

    [serde_json::from_slice] at the two types it is used at, where [None] is an
    error, and [Value::to_string]. *)
Class SerdeJson : Type := {
  from_slice : bytes → option Value;
  string_from_slice : bytes → option bytes;
  to_string : Value → bytes;
}.

(** ** Ordered maps with string keys

    A [BTreeMap<String, V>] is a [gmap]; it iterates over its entries in the
    lexicographic order of the keys' bytes. *)

Fixpoint bytes_leb (l k : bytes) : bool :=
  match l, k with
  | [], _ => true
  | _ :: _, [] => false
  | a :: l, b :: k =>
    (b2N a <? b2N b) || ((b2N a =? b2N b) && bytes_leb l k)
  end.
Definition bytes_le (l k : bytes) : Prop := bytes_leb l k = true.
#[global] Instance bytes_le_dec l k : Decision (bytes_le l k) := decide (bytes_leb l k = true).

Section entries.
Context {V : Type}.
Implicit Types m : gmap bytes V.

(** [map.iter()]. *)
Definition entries (m : gmap bytes V) : list (bytes * V) :=
  omap (λ k, (λ v, (k, v)) <$> m !! k) (keys bytes_le m).

Lemma entries_elem m k v : (k, v) ∈ entries m ↔ m !! k = Some v.
Proof.
  unfold entries. rewrite list_elem_of_omap. split.
  - intros (k' & _ & H). apply fmap_Some in H as (v' & Hv & [= -> ->]). done.
  - intros H. exists k. split; [by apply keys_elem; exists v |]. by rewrite H.
Qed.

Lemma omap_keys_fst m l :
  (∀ k, k ∈ l → is_Some (m !! k)) → (omap (λ k, (λ v, (k, v)) <$> m !! k) l).*1 = l.
Proof.
  induction l as [| k l IH]; intros H; [done |].
  destruct (H k ltac:(by left)) as [v Hv]. cbn. rewrite Hv. cbn. f_equal. apply IH.
  intros k' Hk'. apply H. by right.
Qed.
Lemma entries_keys m : (entries m).*1 = keys bytes_le m.
Proof. apply omap_keys_fst. intros k. apply keys_elem. Qed.
Lemma entries_NoDup m : NoDup (entries m).*1.
Proof. rewrite entries_keys. apply keys_NoDup. Qed.
Lemma entries_length m : length (entries m) = size m.
Proof. by rewrite <- (length_fmap fst), entries_keys, keys_length. Qed.
Lemma entries_map m : list_to_map (entries m) = m.
Proof.
  apply map_eq. intros k. destruct (m !! k) as [v |] eqn:E.
  - apply elem_of_list_to_map; [apply entries_NoDup |]. by apply entries_elem.
  - apply not_elem_of_list_to_map. rewrite entries_keys, keys_elem, E. by intros [? ?].
Qed.
Lemma entries_permutation m : entries m ≡ₚ map_to_list m.
Proof.
  rewrite <- (entries_map m) at 2. symmetry. apply map_to_list_to_map, entries_NoDup.
Qed.
End entries.
