(* ===== verification/Document.v ===== *)
(** * Bounded JSON documents

    [src/modules/board/document.rs]: the preflight scan that counts nodes,
    bounds containers, strings and arrays and refuses duplicate keys before the
    complete tree is built, and [Document::parse]. *)

From S2P Require Import Prelude Bytes Json Arcs Api BoardBase.

#[local] Open Scope N_scope.

Record Document : Type := mkDocument { doc_source : bytes; doc_value : Value }.

(** [Scan]; the borrowed bytes and the limits are the section's. *)
Record Scan : Type := mkScan { scan_pos : nat; scan_nodes : N }.

Definition is_space (b : byte) : bool :=
  match b with x20 | x09 | x0d | x0a => true | _ => false end.
(** The bytes that end a token that is neither a container nor a string. *)
Definition is_delimiter (b : byte) : bool :=
  match b with x20 | x09 | x0d | x0a | x2c | x5d | x7d => true | _ => false end.

(** How many bytes a [while bytes.get(pos).is_some_and(p) { pos += 1 }] consumes. *)
Fixpoint run_length (p : byte → bool) (l : bytes) : nat :=
  match l with
  | b :: l => if p b then S (run_length p l) else O
  | [] => O
  end.

(** The loop of [string]: the bytes consumed up to and including the closing
    quote, [None] when the input ends first.  A backslash skips two bytes. *)
Fixpoint string_length (l : bytes) : option nat :=
  match l with
  | x22 :: _ => Some 1%nat
  | x5c :: l =>
    match l with
    | _ :: l => (λ n, S (S n)) <$> string_length l
    | [] => None
    end
  | _ :: l => S <$> string_length l
  | [] => None
  end.

Section scan.
Context `{SJ : !SerdeJson} (input : bytes) (limits : Limits).

Abbreviation SM := (M Scan BoardError) (only parsing).

Definition advance (n : nat) : SM unit := modify (λ s, mkScan (scan_pos s + n) (scan_nodes s)).
(** [self.bytes.get(self.pos)] and [self.bytes[self.pos..]]. *)
Definition peek : SM (option byte) := gets (λ s, input !! scan_pos s).
Definition rest : SM bytes := gets (λ s, drop (scan_pos s) input).

Definition space : SM unit := l ← rest; advance (run_length is_space l).

Definition node : SM unit :=
  modify (λ s, mkScan (scan_pos s) (scan_nodes s + 1));;
  n ← gets scan_nodes;
  ensure (negb (lim_nodes limits <? n)) BLimit.

Definition scan_string : SM bytes :=
  start ← gets scan_pos;
  advance 1;;
  l ← rest;
  n ← lift (ok_or (string_length l) BInvalid);
  advance n;;
  pos ← gets scan_pos;
  text ← lift (ok_or (string_from_slice (slice start pos input)) BInvalid);
  ensure (negb (lim_string_bytes limits <? len text)) BLimit;;
  mret text.

(** The object branch of the loop: one distinct key and its colon. *)
Definition member_key (keys : gset bytes) (count : N) : SM (gset bytes * N) :=
  space;;
  node;;
  b ← peek;
  ensure (bool_decide (b = Some x22)) BInvalid;;
  key ← scan_string;
  ensure (negb (bool_decide (key ∈ keys))) BInvalid;;
  space;;
  b ← peek;
  ensure (bool_decide (b = Some x3a)) BInvalid;;
  advance 1;;
  mret ({[ key ]} ∪ keys, count).

(** The [loop] over the members of a container: [value] scans one nested value.
    Every round consumes at least one byte, so the remaining length bounds the
    rounds; [exhausted] is the answer of a scan that had too little fuel. *)
Fixpoint members (exhausted : BoardError) (value : SM unit) (fuel : nat) (object : bool)
    (keys : gset bytes) (count : N) : SM unit :=
  match fuel with
  | O => throw exhausted
  | S fuel =>
    next ←
      (if object then member_key keys count
       else
         ensure (negb (lim_array_elements limits <? count + 1)) BLimit;;
         mret (keys, count + 1));
    value;;
    space;;
    b ← peek;
    if bool_decide (b = Some (if object then x7d else x5d)) then advance 1
    else if bool_decide (b = Some x2c) then
      advance 1;;
      members exhausted value fuel object next.1 next.2
    else throw BInvalid
  end.

(** A token that is neither a container nor a string. *)
Definition scan_token : SM unit :=
  l ← rest;
  let n := run_length (λ b, negb (is_delimiter b)) l in
  start ← gets scan_pos;
  advance n;;
  pos ← gets scan_pos;
  ensure (negb (start =? pos)%nat) BInvalid;;
  lift (ok_or (from_slice (slice start pos input)) BInvalid);;
  mret tt.

(** [value], given what it does at an opening brace or bracket. *)
Definition scan_with (container : bool → SM unit) : SM unit :=
  space;;
  node;;
  b ← peek;
  b ← lift (ok_or b BInvalid);
  if bool_decide (b = x7b ∨ b = x5b) then container (bool_decide (b = x7b))
  else if bool_decide (b = x22) then scan_string;; mret tt
  else scan_token.

(** [value] at a depth that leaves room for [room] more containers. *)
Fixpoint scan_value (exhausted : BoardError) (room : nat) : SM unit :=
  scan_with (λ object,
    match room with
    | O => throw BLimit
    | S room =>
      advance 1;;
      space;;
      b ← peek;
      if bool_decide (b = Some (if object then x7d else x5d)) then advance 1
      else
        l ← rest;
        members exhausted (scan_value exhausted room) (S (length l)) object ∅ 0
    end).

End scan.

(** [Document::parse]; the recursion starts with room for [limits.depth]
    containers. *)
Definition Document_parse_with `{!SerdeJson} (exhausted : BoardError) (input : bytes)
    (limits : Limits) : result BoardError Document :=
  _ ← Limits_validate limits;
  if lim_document_bytes limits <? len input then Err BLimit else
  if negb (from_utf8 input) then Err BInvalid else
  let '(scanned, s) :=
    (scan_value input limits exhausted (N.to_nat (lim_depth limits));; space input) (mkScan 0 0) in
  _ ← scanned;
  if negb (scan_pos s =? length input)%nat then Err BInvalid else
  value ← ok_or (from_slice input) BInvalid;
  Ok (mkDocument input value).

(** The fuel is never exhausted, see [Document_parse_fuel]. *)
Definition Document_parse `{!SerdeJson} : bytes → Limits → result BoardError Document :=
  Document_parse_with BInvalid.
