(* ===== verification/DocumentProps.v ===== *)
(** * The preflight scan accepts exactly the bounded documents

    The grammar of JSON texts with the attributes the limits bound: [spells
    room n w] says that [w] is one JSON value with at most [room] nested
    containers and [n] nodes, whose strings, arrays and object keys respect the
    limits.  The scan accepts a document exactly when it is such a value
    surrounded by white space, and its fuel is never exhausted. *)

From S2P Require Import Prelude Bytes Json Arcs Api BoardBase Document.

#[local] Open Scope N_scope.

Abbreviation spaces := (Forall (λ b, is_space b = true)).

(** ** Runs of bytes *)

Lemma run_length_le p l : (run_length p l ≤ length l)%nat.
Proof. induction l as [| b l IH]; cbn; [done |]. destruct (p b); lia. Qed.
Lemma run_length_take p l : Forall (λ b, p b = true) (take (run_length p l) l).
Proof. induction l as [| b l IH]; cbn; [done |]. destruct (p b) eqn:E; cbn; by constructor. Qed.
Lemma run_length_app p l k :
  Forall (λ b, p b = true) l → match k with b :: _ => p b = false | [] => True end →
  run_length p (l ++ k) = length l.
Proof.
  intros Hl Hk. induction Hl as [| b l Hb _ IH]; cbn.
  - destruct k as [| b k]; [done |]. cbn. by rewrite Hk.
  - by rewrite Hb, IH.
Qed.

Lemma string_length_le l n : string_length l = Some n → (0 < n ≤ length l)%nat.
Proof.
  revert n. induction l as [l IH] using (induction_ltof1 _ (@length byte)); unfold ltof in IH.
  intros n. destruct l as [| b l]; [done |].
  assert (∀ k, S <$> string_length l = Some k → (0 < k ≤ S (length l))%nat) as Hplain.
  { intros k (m & Hm & ->)%fmap_Some. apply IH in Hm; cbn; lia. }
  cbn [string_length]. destruct b; try apply Hplain.
  - intros [= <-]. cbn. lia.
  - destruct l as [| c l]; [done |]. intros (m & Hm & ->)%fmap_Some. apply IH in Hm; cbn; lia.
Qed.
Lemma string_length_app l n k :
  string_length l = Some n → string_length (l ++ k) = Some n.
Proof.
  revert n. induction l as [l IH] using (induction_ltof1 _ (@length byte)); unfold ltof in IH.
  intros n. destruct l as [| b l]; [done |].
  assert (∀ m, S <$> string_length l = Some m → S <$> string_length (l ++ k) = Some m) as Hplain.
  { intros m (x & Hx & ->)%fmap_Some. by rewrite (IH l ltac:(cbn; lia) _ Hx). }
  cbn [string_length app]. destruct b; try apply Hplain; [done |].
  destruct l as [| c l]; [done |]. cbn [app]. intros (m & Hm & ->)%fmap_Some.
  by rewrite (IH l ltac:(cbn; lia) _ Hm).
Qed.
Lemma string_length_take l n :
  string_length l = Some n → string_length (take n l) = Some n.
Proof.
  revert n. induction l as [l IH] using (induction_ltof1 _ (@length byte)); unfold ltof in IH.
  intros n. destruct l as [| b l]; [done |].
  assert (∀ m, S <$> string_length l = Some m →
    S <$> string_length (take (pred m) l) = Some m) as Hplain.
  { intros m (x & Hx & ->)%fmap_Some. cbn. by rewrite (IH l ltac:(cbn; lia) _ Hx). }
  cbn [string_length].
  destruct b; try (intros H; pose proof H as (m & _ & ->)%fmap_Some; cbn [take]; by apply Hplain in H).
  - by intros [= <-].
  - destruct l as [| c l]; [done |]. intros (m & Hm & ->)%fmap_Some. cbn [take string_length].
    by rewrite (IH l ltac:(cbn; lia) _ Hm).
Qed.

Section props.
Context `{SJ : !SerdeJson} (limits : Limits).

(** ** The grammar *)

(** A quoted string, and what it decodes to within the string limit. *)
Definition quoted (raw text : bytes) : Prop :=
  ∃ body, raw = x22 :: body ∧ string_length body = Some (length body) ∧
  string_from_slice raw = Some text ∧ len text ≤ lim_string_bytes limits.

(** Any other token: up to the next delimiter, accepted by the parser. *)
Definition plain (w : bytes) : Prop :=
  w ≠ [] ∧ Forall (λ b, is_delimiter b = false) w ∧
  (∀ b, head w = Some b → b ≠ x7b ∧ b ≠ x5b ∧ b ≠ x22) ∧ is_Some (from_slice w).

Inductive spells : nat → N → bytes → Prop :=
| spells_string room raw text : quoted raw text → spells room 1 raw
| spells_plain room w : plain w → spells room 1 w
| spells_empty room (object : bool) ws : spaces ws →
  spells (S room) 1
    ((if object then x7b else x5b) :: ws ++ [if object then x7d else x5d])
| spells_array room n ws w :
  spaces ws → items room 0 n w → spells (S room) (1 + n) (x5b :: ws ++ w)
| spells_object room n ws w :
  spaces ws → fields room ∅ n w → spells (S room) (1 + n) (x7b :: ws ++ w)
(** The elements that follow the first [count], with the closing bracket. *)
with items : nat → N → N → bytes → Prop :=
| items_last room count n w ws :
  count + 1 ≤ lim_array_elements limits → spells room n w → spaces ws →
  items room count n (w ++ ws ++ [x5d])
| items_more room count n m w ws ws' k :
  count + 1 ≤ lim_array_elements limits → spells room n w → spaces ws →
  spaces ws' → items room (count + 1) m k →
  items room count (n + m) (w ++ ws ++ x2c :: ws' ++ k)
(** The members that follow those with the given keys, with the closing brace. *)
with fields : nat → gset bytes → N → bytes → Prop :=
| fields_last room keys n raw key ws1 ws2 w ws3 :
  quoted raw key → key ∉ keys → spaces ws1 → spaces ws2 → spells room n w → spaces ws3 →
  fields room keys (1 + n) (raw ++ ws1 ++ x3a :: ws2 ++ w ++ ws3 ++ [x7d])
| fields_more room keys n m raw key ws1 ws2 w ws3 ws4 k :
  quoted raw key → key ∉ keys → spaces ws1 → spaces ws2 → spells room n w → spaces ws3 →
  spaces ws4 → fields room ({[ key ]} ∪ keys) m k →
  fields room keys (1 + n + m) (raw ++ ws1 ++ x3a :: ws2 ++ w ++ ws3 ++ x2c :: ws4 ++ k).

Scheme spells_mut := Minimality for spells Sort Prop
with items_mut := Minimality for items Sort Prop
with fields_mut := Minimality for fields Sort Prop.
Combined Scheme spells_items_fields from spells_mut, items_mut, fields_mut.

(** ** Single steps of the scan *)

Context (input : bytes).
Abbreviation SMi A := (M Scan BoardError A) (only parsing).

(** [consumes m w n s s']: the run from [s] to [s'] read [w] and counted [n]. *)
Definition consumes (w : bytes) (n : N) (s s' : Scan) : Prop :=
  drop (scan_pos s) input = w ++ drop (scan_pos s') input ∧
  scan_pos s' = (scan_pos s + length w)%nat ∧ scan_nodes s' = scan_nodes s + n.

Lemma consumes_app w w' n n' s1 s2 s3 :
  consumes w n s1 s2 → consumes w' n' s2 s3 → consumes (w ++ w') (n + n') s1 s3.
Proof.
  intros (H1 & P1 & N1) (H2 & P2 & N2). unfold consumes.
  rewrite H1, H2, P2, P1, N2, N1, length_app, <- app_assoc.
  split; [done |]. split; lia.
Qed.
Lemma consumes_cast w w' n n' s s' :
  w = w' → n = n' → consumes w n s s' → consumes w' n' s s'.
Proof. by intros -> ->. Qed.
Lemma consumes_advance w s :
  (∃ k, drop (scan_pos s) input = w ++ k) →
  consumes w 0 s (mkScan (scan_pos s + length w) (scan_nodes s)).
Proof.
  intros [k Hk]. unfold consumes. cbn. rewrite <- drop_drop, Hk, drop_app_length.
  split; [done |]. split; lia.
Qed.
Lemma consumes_left w n s s' :
  consumes w n s s' → w ≠ [] →
  (length (drop (scan_pos s') input) < length (drop (scan_pos s) input))%nat.
Proof. intros (H & _ & _) Hw. rewrite H, length_app. destruct w; [done | cbn; lia]. Qed.
Lemma consumes_le w n s s' :
  consumes w n s s' →
  (length (drop (scan_pos s') input) ≤ length (drop (scan_pos s) input))%nat.
Proof. intros (H & _ & _). rewrite H, length_app. lia. Qed.

Lemma space_run s :
  ∃ ws, spaces ws ∧ space input s = (Ok tt, mkScan (scan_pos s + length ws) (scan_nodes s)) ∧
  ∃ k, drop (scan_pos s) input = ws ++ k ∧
       match k with b :: _ => is_space b = false | [] => True end.
Proof.
  set (l := drop (scan_pos s) input). exists (take (run_length is_space l) l).
  split; [apply run_length_take |]. split.
  - unfold space, rest. cbv -[run_length drop scan_pos scan_nodes length take Nat.add]. fold l.
    rewrite length_take, Nat.min_l by apply run_length_le. done.
  - exists (drop (run_length is_space l) l). split; [by rewrite take_drop |].
    clear. induction l as [| b l IH]; cbn; [done |]. destruct (is_space b) eqn:E; cbn; done.
Qed.

Lemma space_ok s s' u :
  space input s = (Ok u, s') → ∃ ws, spaces ws ∧ consumes ws 0 s s'.
Proof.
  destruct (space_run s) as (ws & Hws & -> & k & Hk & _). intros [= _ <-].
  exists ws. split; [done |]. apply consumes_advance. by exists k.
Qed.

Lemma node_ok s s' u :
  node limits s = (Ok u, s') →
  s' = mkScan (scan_pos s) (scan_nodes s + 1) ∧ scan_nodes s + 1 ≤ lim_nodes limits.
Proof.
  unfold node. intros H. inv_ok.
  cbn in *. split; [done |]. lia.
Qed.
Lemma node_consumes s : consumes [] 1 s (mkScan (scan_pos s) (scan_nodes s + 1)).
Proof. unfold consumes. cbn. split; [done |]. lia. Qed.

Lemma advance_ok b s :
  input !! scan_pos s = Some b →
  consumes [b] 0 s (mkScan (scan_pos s + 1) (scan_nodes s)).
Proof. intros Hb. apply (consumes_advance [b]). exists (drop (S (scan_pos s)) input). by apply drop_S. Qed.

Lemma slice_drop w k (p : nat) :
  drop p input = w ++ k → slice p (p + length w) input = w.
Proof. intros H. unfold slice. rewrite H. replace (p + length w - p)%nat with (length w) by lia. apply take_app_length. Qed.

Lemma peek_ok s s' b : peek input s = (Ok b, s') → b = input !! scan_pos s ∧ s' = s.
Proof. by intros [= <- <-]. Qed.
Lemma rest_ok s s' l : rest input s = (Ok l, s') → l = drop (scan_pos s) input ∧ s' = s.
Proof. by intros [= <- <-]. Qed.
Lemma advance_inv n s s' u :
  advance n s = (Ok u, s') → s' = mkScan (scan_pos s + n) (scan_nodes s).
Proof. by intros [= _ <-]. Qed.

(** Name the results of the scan's elementary steps. *)
Ltac step_ok := inv_ok; repeat match goal with
  | H : peek _ _ = (Ok _, _) |- _ => apply peek_ok in H as [-> ->]
  | H : rest _ _ = (Ok _, _) |- _ => apply rest_ok in H as [-> ->]
  | H : advance _ _ = (Ok _, _) |- _ => apply advance_inv in H as ->
  | H : bool_decide _ = true |- _ => apply bool_decide_eq_true in H
  | H : negb _ = true |- _ => apply negb_true_iff in H
  | H : bool_decide _ = false |- _ => apply bool_decide_eq_false in H
  end.

Lemma scan_string_ok s s' text :
  scan_string input limits s = (Ok text, s') → input !! scan_pos s = Some x22 →
  ∃ raw, quoted raw text ∧ consumes raw 0 s s'.
Proof.
  unfold scan_string. intros H Hq. step_ok. cbn [scan_pos scan_nodes] in *.
  set (l := drop (scan_pos s + 1) input) in *.
  match goal with H : string_length l = Some ?k |- _ => rename k into n, H into Hn end.
  pose proof (string_length_le l n Hn) as Hle. pose proof (string_length_take l n Hn) as Htake.
  assert (drop (scan_pos s) input = (x22 :: take n l) ++ drop n l) as Hdrop.
  { cbn. rewrite take_drop. unfold l. rewrite Nat.add_1_r. by apply drop_S. }
  assert (length (take n l) = n) as Hlen by (rewrite length_take; lia).
  assert (slice (scan_pos s) (scan_pos s + 1 + n) input = x22 :: take n l) as Hs.
  { rewrite <- (slice_drop _ _ _ Hdrop). f_equal. cbn. lia. }
  rewrite Hs in *. exists (x22 :: take n l). split.
  - exists (take n l). rewrite Hlen. repeat split; try done. lia.
  - pose proof (consumes_advance (x22 :: take n l) s (ex_intro _ _ Hdrop)) as Hc.
    cbn in Hc. rewrite Hlen in Hc. by replace (scan_pos s + 1 + n)%nat with (scan_pos s + S n)%nat by lia.
Qed.

(** ** Soundness *)

Definition value_sound (room : nat) (v : M Scan BoardError unit) : Prop :=
  ∀ s s' u, v s = (Ok u, s') →
  ∃ ws w n, spaces ws ∧ spells room n w ∧ consumes (ws ++ w) n s s' ∧
            scan_nodes s' ≤ lim_nodes limits.

Lemma key_ok s s' keys count next :
  member_key input limits keys count s = (Ok next, s') →
  ∃ ws raw key ws', spaces ws ∧ quoted raw key ∧ (key ∉ keys) ∧ spaces ws' ∧
    next = ({[ key ]} ∪ keys, count) ∧ consumes (ws ++ raw ++ ws' ++ [x3a]) 1 s s'.
Proof.
  unfold member_key. intros H. step_ok.
  repeat match goal with H : space _ _ = _ |- _ => apply space_ok in H as (? & ? & ?) end.
  match goal with H : node _ _ = _ |- _ => apply node_ok in H as [-> _] end.
  match goal with H : scan_string _ _ _ = _ |- _ => apply scan_string_ok in H as (raw & Hraw & Hc);
    [| done] end.
  match goal with H : consumes ?a 0 s ?b, H' : consumes ?c 0 ?d ?e |- _ =>
    rename a into ws, c into ws', H into Hc1, H' into Hc2 end.
  exists ws, raw. eexists _, ws'. repeat (split; [eassumption || reflexivity |]).
  match goal with H : input !! _ = Some x3a |- _ => pose proof (advance_ok _ _ H) as Hc3 end.
  pose proof (consumes_app _ _ _ _ _ _ _ Hc1 (consumes_app _ _ _ _ _ _ _ (node_consumes _)
    (consumes_app _ _ _ _ _ _ _ Hc (consumes_app _ _ _ _ _ _ _ Hc2 Hc3)))) as Hall.
  by eapply consumes_cast; [| | exact Hall].
Qed.

Lemma members_ok exhausted room v : value_sound room v → ∀ fuel object keys count s s' u,
  members input limits exhausted v fuel object keys count s = (Ok u, s') →
  ∃ ws w n, spaces ws ∧ (if object then fields room keys n w else items room count n w) ∧
            consumes (ws ++ w) n s s' ∧ scan_nodes s' ≤ lim_nodes limits.
Proof.
  intros Hv fuel. induction fuel as [| fuel IH]; intros object keys count s s' u H; [done |].
  cbn [members] in H. apply bind_Ok_inv in H as (next & s1 & Hnext & H).
  apply bind_Ok_inv in H as ([] & s2 & Hval & H). apply bind_Ok_inv in H as ([] & s3 & Hsp & H).
  apply bind_Ok_inv in H as (b & s4 & Hb & H). apply peek_ok in Hb as [-> ->].
  apply Hv in Hval as (ws & w & n & Hws & Hw & Hc & Hn). apply space_ok in Hsp as (ws' & Hws' & Hc').
  pose proof (consumes_app _ _ _ _ _ _ _ Hc Hc') as Hcc.
  assert (scan_nodes s3 ≤ lim_nodes limits) as Hn3 by (destruct Hc' as (_ & _ & ->); lia).
  destruct (bool_decide _) eqn:Hend in H.
  - apply advance_inv in H as ->. apply bool_decide_eq_true in Hend. apply advance_ok in Hend.
    pose proof (consumes_app _ _ _ _ _ _ _ Hcc Hend) as Hall. destruct object.
    + apply key_ok in Hnext as (ws0 & raw & key & ws1 & Hws0 & Hraw & Hkey & Hws1 & -> & Hck).
      eexists ws0, _, _. split; [done |].
      split; [by apply (fields_last room keys n raw key ws1 ws w ws') |]. split; [| done].
      pose proof (consumes_app _ _ _ _ _ _ _ Hck Hall) as Hfull.
      eapply consumes_cast; [| | exact Hfull]; [by rewrite <- !app_assoc | lia].
    + inv_ok. eexists ws, _, _. split; [done |].
      split; [apply (items_last room count n w ws'); try done; lia |]. split; [| done].
      eapply consumes_cast; [| | exact Hall]; [by rewrite <- !app_assoc | lia].
  - destruct (bool_decide (input !! scan_pos s3 = Some x2c)) eqn:Hcomma in H; [| done].
    apply bind_Ok_inv in H as ([] & s4 & Hadv & H). apply advance_inv in Hadv as ->.
    apply bool_decide_eq_true in Hcomma. apply advance_ok in Hcomma.
    pose proof (consumes_app _ _ _ _ _ _ _ Hcc Hcomma) as Hall.
    apply IH in H as (ws2 & k & m & Hws2 & Hk & Hckk & Hm).
    pose proof (consumes_app _ _ _ _ _ _ _ Hall Hckk) as Hall'. destruct object.
    + apply key_ok in Hnext as (ws0 & raw & key & ws1 & Hws0 & Hraw & Hkey & Hws1 & -> & Hck).
      eexists ws0, _, _. split; [done |].
      split; [by apply (fields_more room keys n m raw key ws1 ws w ws' ws2 k) |]. split; [| done].
      pose proof (consumes_app _ _ _ _ _ _ _ Hck Hall') as Hfull.
      eapply consumes_cast; [| | exact Hfull]; [by rewrite <- !app_assoc | lia].
    + inv_ok. eexists ws, _, _. split; [done |].
      split; [apply (items_more room count n m w ws' ws2 k); try done; lia |]. split; [| done].
      eapply consumes_cast; [| | exact Hall']; [by rewrite <- !app_assoc | lia].
Qed.

Lemma scan_token_ok room s s' u :
  scan_token input s = (Ok u, s') →
  (∀ b, input !! scan_pos s = Some b → b ≠ x7b ∧ b ≠ x5b ∧ b ≠ x22) →
  ∃ w, spells room 1 w ∧ consumes w 0 s s'.
Proof.
  unfold scan_token. intros H Hb. step_ok. cbn [scan_pos scan_nodes] in *.
  set (l := drop (scan_pos s) input) in *.
  set (n := run_length _ l) in *.
  pose proof (run_length_le (λ b, negb (is_delimiter b)) l) as Hle. fold n in Hle.
  assert (length (take n l) = n) as Hlen by (rewrite length_take; lia).
  assert (slice (scan_pos s) (scan_pos s + n) input = take n l) as Hs.
  { rewrite <- Hlen at 1. apply (slice_drop _ (drop n l)). by rewrite take_drop. }
  rewrite Hs in *. exists (take n l). split.
  - apply spells_plain. split; [intros E; rewrite E in Hlen; simpl in Hlen; lia |].
    split; [| split; [| by eexists; eassumption]].
    + eapply Forall_impl; [apply run_length_take |]. intros b. cbn. by rewrite negb_true_iff.
    + intros b Hhead. apply Hb. rewrite <- (Nat.add_0_r (scan_pos s)), <- lookup_drop. fold l.
      destruct l as [| c l']; [by rewrite take_nil in Hhead |].
      destruct n; [done |]. by injection Hhead as ->.
  - pose proof (consumes_advance (take n l) s) as Hc. rewrite Hlen in Hc. apply Hc.
    exists (drop n l). by rewrite take_drop.
Qed.

Lemma scan_value_ok exhausted room : value_sound room (scan_value input limits exhausted room).
Proof.
  induction room as [room IH] using lt_wf_ind. intros s s' u H.
  assert (∃ container, scan_value input limits exhausted room = scan_with input limits container ∧
    ∀ object s1 s2 u, container object s1 = (Ok u, s2) → scan_nodes s1 ≤ lim_nodes limits →
    input !! scan_pos s1 = Some (if object then x7b else x5b) →
    ∃ w n, spells room (1 + n) w ∧ consumes w n s1 s2 ∧ scan_nodes s2 ≤ lim_nodes limits)
    as (container & Heq & Hcont).
  { destruct room as [| room]; (eexists; split; [reflexivity |]); [done |].
    intros object s1 s2 u' H' Hn Hb. apply advance_ok in Hb.
    apply bind_Ok_inv in H' as ([] & s3 & Hadv & H'). apply advance_inv in Hadv as ->.
    apply bind_Ok_inv in H' as ([] & s4 & Hsp & H'). apply space_ok in Hsp as (ws & Hws & Hc).
    apply bind_Ok_inv in H' as (b & s5 & Hb' & H'). apply peek_ok in Hb' as [-> ->].
    pose proof (consumes_app _ _ _ _ _ _ _ Hb Hc) as Hcc.
    assert (scan_nodes s4 ≤ lim_nodes limits) as Hn4 by (destruct Hcc as (_ & _ & ->); lia).
    destruct (bool_decide _) eqn:Hend in H'.
    - apply advance_inv in H' as ->. apply bool_decide_eq_true, advance_ok in Hend.
      eexists _, 0. split; [by apply (spells_empty room object ws) |]. split; [| done].
      eapply consumes_cast; [| | exact (consumes_app _ _ _ _ _ _ _ Hcc Hend)]; [done | lia].
    - apply bind_Ok_inv in H' as (l & s5 & Hl & H'). apply rest_ok in Hl as [-> ->].
      apply (members_ok _ room _ (IH room ltac:(lia))) in H' as (ws' & w & n & Hws' & Hw & Hcw & Hnw).
      pose proof (consumes_app _ _ _ _ _ _ _ Hcc Hcw) as Hall. destruct object.
      + exists (x7b :: (ws ++ ws') ++ w), n.
        split; [apply spells_object; [by apply Forall_app | done] |].
        split; [| done]. eapply consumes_cast; [| | exact Hall]; [by rewrite <- !app_assoc | lia].
      + exists (x5b :: (ws ++ ws') ++ w), n.
        split; [apply spells_array; [by apply Forall_app | done] |].
        split; [| done]. eapply consumes_cast; [| | exact Hall]; [by rewrite <- !app_assoc | lia]. }
  rewrite Heq in H. unfold scan_with in H.
  apply bind_Ok_inv in H as ([] & s1 & Hsp & H). apply bind_Ok_inv in H as ([] & s2 & Hno & H).
  apply bind_Ok_inv in H as (b & s3 & Hb & H). apply peek_ok in Hb as [-> ->].
  apply bind_Ok_inv in H as (b & s3 & Hb & H). apply lift_Ok_inv in Hb as [Hb ->].
  apply ok_or_Ok in Hb. apply space_ok in Hsp as (ws & Hws & Hcs). apply node_ok in Hno as [-> Hn].
  pose proof (consumes_app _ _ _ _ _ _ _ Hcs (node_consumes s1)) as Hc0. rewrite app_nil_r in Hc0.
  exists ws. destruct (bool_decide (b = x7b ∨ b = x5b)) eqn:Hopen in H.
  - apply bool_decide_eq_true in Hopen.
    apply Hcont in H as (w & n & Hw & Hc & Hn'); [| done |].
    + exists w, (1 + n). repeat split; try done. all: try apply (consumes_app _ _ _ _ _ _ _ Hc0 Hc).
    + rewrite Hb. f_equal. by destruct Hopen as [-> | ->].
  - apply bool_decide_eq_false in Hopen. destruct (bool_decide (b = x22)) eqn:Hq in H.
    + apply bool_decide_eq_true in Hq as ->. apply bind_Ok_inv in H as (text & s4 & Hst & H).
      inv_ok. apply scan_string_ok in Hst as (raw & Hraw & Hc); [| done].
      exists raw, 1. split; [done |]. split; [by eapply spells_string |].
      pose proof (consumes_app _ _ _ _ _ _ _ Hc0 Hc) as Hall. split; [exact Hall |].
      destruct Hall as (_ & _ & ->). cbn in *. destruct Hcs as (_ & _ & Hcs). lia.
    + apply bool_decide_eq_false in Hq. apply (scan_token_ok room) in H as (w & Hw & Hc).
      * exists w, 1. pose proof (consumes_app _ _ _ _ _ _ _ Hc0 Hc) as Hall.
        repeat split; try done; try apply Hall.
        destruct Hall as (_ & _ & ->). cbn in *. destruct Hcs as (_ & _ & Hcs). lia.
      * intros c Hc. rewrite Hb in Hc. injection Hc as <-. naive_solver.
Qed.

(** ** Completeness *)

Definition follows (k : bytes) : Prop :=
  match k with b :: _ => is_delimiter b = true | [] => True end.
(** The state after reading [w] and counting [n]. *)
Definition after (s : Scan) (w : bytes) (n : N) : Scan :=
  mkScan (scan_pos s + length w) (scan_nodes s + n).

Lemma drop_after s w n k :
  drop (scan_pos s) input = w ++ k → drop (scan_pos (after s w n)) input = k.
Proof. intros H. cbn. by rewrite <- drop_drop, H, drop_app_length. Qed.
Lemma peek_at s b k :
  drop (scan_pos s) input = b :: k → peek input s = (Ok (Some b), s).
Proof.
  intros H. unfold peek, gets. f_equal. f_equal.
  rewrite <- (Nat.add_0_r (scan_pos s)), <- lookup_drop, H. done.
Qed.
Lemma after_nil s : after s [] 0 = s.
Proof. destruct s. unfold after. cbn. f_equal; lia. Qed.
Lemma after_after s w n w' n' : after (after s w n) w' n' = after s (w ++ w') (n + n').
Proof. unfold after. cbn. rewrite length_app. f_equal; lia. Qed.

Lemma after_eq s w w' n n' : w = w' → n = n' → after s w n = after s w' n'.
Proof. by intros -> ->. Qed.

Lemma delimiter_space b : is_space b = true → is_delimiter b = true.
Proof. by destruct b. Qed.

Lemma token_space b : is_delimiter b = false → is_space b = false.
Proof. by destruct b. Qed.

Lemma space_at s ws k :
  drop (scan_pos s) input = ws ++ k → spaces ws →
  match k with b :: _ => is_space b = false | [] => True end →
  space input s = (Ok tt, after s ws 0).
Proof.
  intros H Hws Hk. unfold space, rest, advance, gets, modify. cbv -[run_length drop scan_pos scan_nodes after].
  rewrite H, (run_length_app is_space) by done. unfold after. do 2 f_equal. lia.
Qed.
Lemma node_at s : scan_nodes s + 1 ≤ lim_nodes limits → node limits s = (Ok tt, after s [] 1).
Proof.
  intros H. unfold node. unfold mbind, M_bind, modify, gets, ensure. cbn [scan_nodes].
  rewrite (proj2 (N.ltb_ge _ _)) by lia. cbn. unfold after. cbn. do 2 f_equal. lia.
Qed.
Lemma scan_string_at s raw text k :
  drop (scan_pos s) input = raw ++ k → quoted raw text →
  scan_string input limits s = (Ok text, after s raw 0).
Proof.
  intros H (body & -> & Hlen & Htext & Hle). unfold scan_string.
  erewrite bind_Ok by reflexivity. erewrite bind_Ok by reflexivity. erewrite bind_Ok by reflexivity.
  cbn [scan_pos scan_nodes].
  assert (drop (scan_pos s + 1) input = body ++ k) as Hd by by rewrite <- drop_drop, H.
  rewrite Hd, (string_length_app _ _ _ Hlen). cbn [ok_or].
  erewrite bind_Ok by reflexivity. erewrite bind_Ok by reflexivity. erewrite bind_Ok by reflexivity.
  cbn [scan_pos scan_nodes].
  replace (scan_pos s + 1 + length body)%nat with (scan_pos s + length (x22 :: body))%nat by (cbn; lia).
  rewrite (slice_drop _ _ _ H), Htext. erewrite bind_Ok by reflexivity.
  erewrite bind_Ok; [| rewrite (proj2 (N.ltb_ge _ _)) by lia; reflexivity].
  unfold mret, M_ret, after. do 2 f_equal. lia.
Qed.
Lemma quoted_head raw text : quoted raw text → ∃ body, raw = x22 :: body.
Proof. intros (body & -> & _). by exists body. Qed.

Lemma scan_token_at s w k :
  drop (scan_pos s) input = w ++ k → plain w → follows k →
  scan_token input s = (Ok tt, after s w 0).
Proof.
  intros H (Hne & Hw & _ & [v Hv]) Hk. unfold scan_token.
  erewrite bind_Ok by reflexivity. erewrite bind_Ok by reflexivity. erewrite bind_Ok by reflexivity.
  erewrite bind_Ok by reflexivity. cbn [scan_pos scan_nodes]. rewrite H, run_length_app.
  - rewrite (slice_drop _ _ _ H), Hv. cbn [ok_or].
    erewrite bind_Ok; [| destruct w; [done |]; rewrite (proj2 (Nat.eqb_neq _ _)) by (cbn; lia); reflexivity].
    erewrite bind_Ok by reflexivity. unfold mret, M_ret, after. do 2 f_equal. lia.
  - eapply Forall_impl; [exact Hw |]. intros b Hb. by rewrite Hb.
  - destruct k; [done |]. cbn in *. by rewrite Hk.
Qed.

Lemma scan_with_at container s ws b k :
  drop (scan_pos s) input = ws ++ b :: k → spaces ws → is_space b = false →
  scan_nodes s + 1 ≤ lim_nodes limits →
  scan_with input limits container s =
  (if bool_decide (b = x7b ∨ b = x5b) then container (bool_decide (b = x7b))
   else if bool_decide (b = x22) then scan_string input limits;; mret tt
   else scan_token input) (after s ws 1).
Proof.
  intros H Hws Hb Hn. unfold scan_with.
  erewrite bind_Ok by by eapply space_at. erewrite bind_Ok by (apply node_at; cbn; lia).
  rewrite after_after, app_nil_r, N.add_0_l.
  erewrite bind_Ok by (eapply peek_at, drop_after, H). cbn [ok_or].
  by erewrite bind_Ok by reflexivity.
Qed.

Definition value_complete (room : nat) (n : N) (w : bytes) : Prop := ∀ exhausted s ws k,
  drop (scan_pos s) input = ws ++ w ++ k → spaces ws → follows k →
  scan_nodes s + n ≤ lim_nodes limits →
  scan_value input limits exhausted room s = (Ok tt, after s (ws ++ w) n).
Definition members_complete (object : bool) (room : nat) (keys : gset bytes) (count : N) (n : N)
    (w : bytes) : Prop := ∀ exhausted fuel s ws k,
  drop (scan_pos s) input = ws ++ w ++ k → spaces ws → (length (drop (scan_pos s) input) < fuel)%nat →
  scan_nodes s + n ≤ lim_nodes limits →
  members input limits exhausted (scan_value input limits exhausted room) fuel object keys count s
  = (Ok tt, after s (ws ++ w) n).

Lemma advance_at (b : byte) s : advance 1 s = (Ok tt, after s [b] 0).
Proof. unfold advance, modify, after. cbn. by rewrite N.add_0_r. Qed.

Lemma spells_pos room n w : spells room n w → w ≠ [] ∧ 1 ≤ n.
Proof.
  intros [? ? ? (body & -> & _) | ? ? (? & _) | ? ? ? ? | ? ? ? ? _ _ | ? ? ? ? _ _];
    split; done || lia.
Qed.

Lemma spells_head room n w :
  spells room n w → ∃ b k, w = b :: k ∧ is_space b = false ∧ b ≠ x5d.
Proof.
  intros [? raw ? (body & -> & _) | ? w' (Hne & Hd & _) | ? [] ? ? | ? ? ? ? _ _ | ? ? ? ? _ _];
    try by eexists _, _.
  destruct w' as [| b k]; [done |]. exists b, k. apply Forall_cons in Hd as [Hd _].
  split; [done |]. split; [by apply token_space |]. by intros ->.
Qed.
Lemma items_head room count n w :
  items room count n w → ∃ b k, w = b :: k ∧ is_space b = false ∧ b ≠ x5d.
Proof.
  assert (∀ w k, (∃ room n, spells room n w) → ∃ b k', w ++ k = b :: k' ∧ is_space b = false ∧ b ≠ x5d)
    as Hh.
  { intros w' k (room' & n' & Hw). destruct (spells_head _ _ _ Hw) as (b & k' & -> & Hb & Hb').
    by exists b, (k' ++ k). }
  intros [? ? ? w' | ? ? ? ? w']; apply Hh; eauto.
Qed.
Lemma fields_head room keys n w : fields room keys n w → ∃ k, w = x22 :: k.
Proof. intros [? ? ? ? ? ? ? ? ? (? & -> & _) | ? ? ? ? ? ? ? ? ? ? ? ? (? & -> & _)]; by eexists. Qed.

(** What a container does after its opening bracket, given its members. *)
Lemma container_at exhausted (object : bool) room s ws b w k n :
  drop (scan_pos s) input = [if object then x7b else x5b] ++ ws ++ (b :: w) ++ k →
  spaces ws → is_space b = false → b ≠ (if object then x7d else x5d) →
  scan_nodes s + n ≤ lim_nodes limits →
  members_complete object room ∅ 0 n (b :: w) →
  (advance 1;; space input;; b ← peek input;
   if bool_decide (b = Some (if object then x7d else x5d)) then advance 1
   else
     l ← rest input;
     members input limits exhausted (scan_value input limits exhausted room) (S (length l)) object ∅ 0) s
  = (Ok tt, after s ((if object then x7b else x5b) :: ws ++ b :: w) n).
Proof.
  intros H Hws Hb Hend Hn Hm. pose proof (drop_after s [if object then x7b else x5b] 0 _ H) as H1.
  pose proof (drop_after _ ws 0 _ H1) as H2.
  erewrite (bind_Ok (advance 1) _ s); [| reflexivity].
  replace (mkScan (scan_pos s + 1) (scan_nodes s)) with (after s [if object then x7b else x5b] 0)
    by (unfold after; cbn; f_equal; lia).
  erewrite bind_Ok by by apply (space_at _ ws ((b :: w) ++ k)).
  erewrite bind_Ok by (eapply peek_at; exact H2).
  rewrite bool_decide_false by congruence. erewrite bind_Ok by reflexivity.
  rewrite (Hm _ _ _ [] k); [| done | done | lia | cbn; lia].
  by rewrite !after_after.
Qed.


Lemma follows_spaces ws b k : spaces ws → is_delimiter b = true → follows (ws ++ b :: k).
Proof. intros [| c l Hc _] Hb; [exact Hb |]. by apply delimiter_space. Qed.

(** One round of the loop after its key: the value and what follows it. *)
Definition round_rest (exhausted : BoardError) (v : M Scan BoardError unit) (fuel : nat)
    (object : bool) (next : gset bytes * N) : M Scan BoardError unit :=
  v;;
  space input;;
  b ← peek input;
  if bool_decide (b = Some (if object then x7d else x5d)) then advance 1
  else if bool_decide (b = Some x2c) then
    advance 1;;
    members input limits exhausted v fuel object next.1 next.2
  else throw BInvalid.

Lemma round_last exhausted fuel (object : bool) next room s ws w n ws' k :
  value_complete room n w →
  drop (scan_pos s) input = ws ++ w ++ ws' ++ (if object then x7d else x5d) :: k →
  spaces ws → spaces ws' → scan_nodes s + n ≤ lim_nodes limits →
  round_rest exhausted (scan_value input limits exhausted room) fuel object next s =
  (Ok tt, after s (ws ++ w ++ ws' ++ [if object then x7d else x5d]) n).
Proof.
  intros Hv H Hws Hws' Hn. unfold round_rest.
  erewrite bind_Ok by (eapply Hv; [exact H | done | by apply follows_spaces; destruct object | done]).
  rewrite app_assoc in H. pose proof (drop_after s _ n _ H) as H1.
  erewrite bind_Ok by (apply (space_at _ ws' _ H1); [done | by destruct object]).
  pose proof (drop_after _ _ 0 _ H1) as H2. erewrite bind_Ok by (eapply peek_at, H2).
  rewrite bool_decide_true by done.
  rewrite (advance_at (if object then x7d else x5d)), !after_after. f_equal.
  apply after_eq; [by rewrite <- !app_assoc | lia].
Qed.
Lemma round_more exhausted fuel (object : bool) next room s ws w n ws' k :
  value_complete room n w →
  drop (scan_pos s) input = ws ++ w ++ ws' ++ x2c :: k →
  spaces ws → spaces ws' → scan_nodes s + n ≤ lim_nodes limits →
  round_rest exhausted (scan_value input limits exhausted room) fuel object next s =
  members input limits exhausted (scan_value input limits exhausted room) fuel object next.1 next.2
    (after s (ws ++ w ++ ws' ++ [x2c]) n).
Proof.
  intros Hv H Hws Hws' Hn. unfold round_rest.
  erewrite bind_Ok by (eapply Hv; [exact H | done | by apply follows_spaces | done]).
  rewrite app_assoc in H. pose proof (drop_after s _ n _ H) as H1.
  erewrite bind_Ok by by apply (space_at _ ws' _ H1).
  pose proof (drop_after _ _ 0 _ H1) as H2. erewrite bind_Ok by (eapply peek_at, H2).
  rewrite bool_decide_false, bool_decide_true by (by destruct object).
  erewrite bind_Ok by apply (advance_at x2c). rewrite !after_after. f_equal.
  apply after_eq; [by rewrite <- !app_assoc | lia].
Qed.

Lemma member_key_at s ws0 raw key keys count ws1 k :
  drop (scan_pos s) input = ws0 ++ raw ++ ws1 ++ x3a :: k →
  spaces ws0 → quoted raw key → key ∉ keys → spaces ws1 → scan_nodes s + 1 ≤ lim_nodes limits →
  member_key input limits keys count s =
  (Ok ({[ key ]} ∪ keys, count), after s (ws0 ++ raw ++ ws1 ++ [x3a]) 1).
Proof.
  intros H Hws0 Hq Hkey Hws1 Hn. unfold member_key.
  destruct (quoted_head _ _ Hq) as [body Hbody].
  erewrite bind_Ok by (eapply (space_at _ ws0 _ H); [done | by rewrite Hbody]).
  erewrite bind_Ok by (apply node_at; cbn; lia). rewrite after_after, app_nil_r.
  pose proof (drop_after s _ (0 + 1) _ H) as H1.
  erewrite bind_Ok by (eapply peek_at; rewrite H1, Hbody; reflexivity).
  erewrite bind_Ok by by rewrite bool_decide_true.
  erewrite bind_Ok by (eapply scan_string_at; [exact H1 | done]).
  erewrite bind_Ok by by rewrite bool_decide_false.
  pose proof (drop_after _ _ 0 _ H1) as H2.
  erewrite bind_Ok by by apply (space_at _ ws1 _ H2).
  pose proof (drop_after _ _ 0 _ H2) as H3. erewrite bind_Ok by (eapply peek_at, H3).
  erewrite bind_Ok by by rewrite bool_decide_true.
  erewrite bind_Ok by apply (advance_at x3a). by rewrite !after_after.
Qed.

Lemma spells_complete :
  (∀ room n w, spells room n w → value_complete room n w) ∧
  (∀ room count n w, items room count n w → ∀ keys, members_complete false room keys count n w) ∧
  (∀ room keys n w, fields room keys n w → ∀ count, members_complete true room keys count n w).
Proof.
  apply spells_items_fields.
  - (* a string *)
    intros room raw text Hq exhausted s ws k H Hws Hk Hn.
    destruct (quoted_head _ _ Hq) as [body Hbody].
    assert (∃ c, scan_value input limits exhausted room = scan_with input limits c) as [c ->]
      by (destruct room; by eexists).
    rewrite Hbody in H. rewrite (scan_with_at c s ws x22 (body ++ k)) by done.
    rewrite bool_decide_false, bool_decide_true by naive_solver.
    erewrite bind_Ok by (eapply (scan_string_at _ raw text k); [| done];
      rewrite Hbody; by apply (drop_after s ws 1)).
    unfold mret, M_ret. by rewrite after_after, N.add_0_r.
  - (* a token *)
    intros room w Hp exhausted s ws k H Hws Hk Hn.
    assert (∃ c, scan_value input limits exhausted room = scan_with input limits c) as [c ->]
      by (destruct room; by eexists).
    pose proof Hp as (Hne & Hd & Hhead & _). destruct w as [| b w]; [done |].
    destruct (Hhead b eq_refl) as (H1 & H2 & H3). apply Forall_cons in Hd as [Hb _].
    rewrite (scan_with_at c s ws b (w ++ k)); [| done | done | by apply token_space | done].
    rewrite bool_decide_false by naive_solver. rewrite bool_decide_false by done.
    rewrite (scan_token_at _ (b :: w) k); [by rewrite after_after, N.add_0_r | | done | done].
    by apply (drop_after s ws 1).
  - (* an empty container *)
    intros room object ws Hws exhausted s ws0 k H Hws0 Hk Hn.
    set (o := if object then x7b else x5b) in *. set (c := if object then x7d else x5d) in *.
    assert (bool_decide (o = x7b ∨ o = x5b) = true) as Ho by (by destruct object).
    assert (bool_decide (o = x7b) = object) as Hobj by (by destruct object).
    cbn [scan_value].
    rewrite (scan_with_at _ s ws0 o (ws ++ [c] ++ k)), Ho, Hobj;
      [| by rewrite H; cbn; rewrite <- app_assoc | done | by destruct object | done].
    assert (drop (scan_pos (after (after s ws0 1) [o] 0)) input = ws ++ [c] ++ k) as H1.
    { apply drop_after, drop_after. rewrite H. cbn. by rewrite <- !app_assoc. }
    erewrite bind_Ok by apply (advance_at o).
    erewrite bind_Ok by (apply (space_at _ ws _ H1); [done | by destruct object]).
    erewrite bind_Ok by (eapply peek_at, drop_after, H1).
    rewrite bool_decide_true by done. by rewrite (advance_at c), !after_after.
  - (* an array *)
    intros room n ws w Hws Hi IH exhausted s ws0 k H Hws0 Hk Hn.
    destruct (items_head _ _ _ _ Hi) as (b & w' & -> & Hb & Hend).
    cbn [scan_value]. rewrite (scan_with_at _ s ws0 x5b (ws ++ (b :: w') ++ k));
      [| by rewrite H; cbn; rewrite <- app_assoc | done | done | lia].
    rewrite bool_decide_true, bool_decide_false by (by try right).
    rewrite (container_at exhausted false room _ ws b w' k n); try done.
    + by rewrite after_after.
    + apply (drop_after s ws0 1). rewrite H. cbn. by rewrite <- !app_assoc.
    + cbn. lia.
  - (* an object *)
    intros room n ws w Hws Hi IH exhausted s ws0 k H Hws0 Hk Hn.
    destruct (fields_head _ _ _ _ Hi) as (w' & ->).
    cbn [scan_value]. rewrite (scan_with_at _ s ws0 x7b (ws ++ (x22 :: w') ++ k));
      [| by rewrite H; cbn; rewrite <- app_assoc | done | done | lia].
    rewrite !bool_decide_true by (by try left).
    rewrite (container_at exhausted true room _ ws x22 w' k n); try done.
    + by rewrite after_after.
    + apply (drop_after s ws0 1). rewrite H. cbn. by rewrite <- !app_assoc.
    + cbn. lia.
  - (* the last element *)
    intros room count n w ws Hcount _ IH Hws keys exhausted fuel s ws0 k H Hws0 Hfuel Hn.
    destruct fuel as [| fuel]; [lia |]. cbn [members].
    erewrite bind_Ok; [| erewrite bind_Ok by (rewrite (proj2 (N.ltb_ge _ _)) by lia; reflexivity); reflexivity].
    apply (round_last exhausted fuel false (keys, count + 1) room s ws0 w n ws k); try done.
    rewrite H. by rewrite <- !app_assoc.
  - (* an element and more *)
    intros room count n m w ws ws' k' Hcount _ IHv Hws Hws' _ IH keys exhausted fuel s ws0 k H Hws0 Hfuel Hn.
    destruct fuel as [| fuel]; [lia |]. cbn [members].
    erewrite bind_Ok; [| erewrite bind_Ok by (rewrite (proj2 (N.ltb_ge _ _)) by lia; reflexivity); reflexivity].
    assert (drop (scan_pos s) input = ws0 ++ w ++ ws ++ x2c :: (ws' ++ k' ++ k)) as H1
      by (rewrite H; by rewrite <- !app_assoc; cbn; rewrite <- !app_assoc).
    etransitivity; [apply (round_more exhausted fuel false (keys, count + 1) room s ws0 w n ws _ IHv H1);
      try done; lia |].
    assert (drop (scan_pos (after s (ws0 ++ w ++ ws ++ [x2c]) n)) input = ws' ++ k' ++ k) as H2
      by (apply drop_after; rewrite H1; by rewrite <- !app_assoc).
    cbn [fst snd]. rewrite (IH keys exhausted fuel _ ws' k H2 Hws').
    + rewrite after_after. f_equal. apply after_eq; [by rewrite <- !app_assoc | done].
    + rewrite H2. rewrite H1 in Hfuel. rewrite !length_app in Hfuel. cbn in Hfuel.
      rewrite !length_app in Hfuel. rewrite !length_app. lia.
    + cbn. lia.
  - (* the last member *)
    intros room keys n raw key ws1 ws2 w ws3 Hq Hkey Hws1 Hws2 Hw IH Hws3 count exhausted fuel s ws0 k
      H Hws0 Hfuel Hn.
    destruct fuel as [| fuel]; [lia |]. cbn [members].
    assert (drop (scan_pos s) input = ws0 ++ raw ++ ws1 ++ x3a :: (ws2 ++ w ++ ws3 ++ x7d :: k)) as H1
      by by rewrite H; repeat (rewrite <- app_assoc; cbn).
    pose proof (spells_pos _ _ _ Hw) as [_ Hpos].
    erewrite bind_Ok by (apply (member_key_at s ws0 raw key keys count ws1 _ H1); try done; lia).
    etransitivity; [apply (round_last exhausted fuel true _ room _ ws2 w n ws3 k IH); try done |].
    + apply drop_after. rewrite H1. by repeat (rewrite <- app_assoc; cbn).
    + cbn. lia.
    + rewrite after_after. f_equal. apply after_eq; [by repeat (rewrite <- app_assoc; cbn) | done].
  - (* a member and more *)
    intros room keys n m raw key ws1 ws2 w ws3 ws4 k' Hq Hkey Hws1 Hws2 Hw IHv Hws3 Hws4 _ IH count
      exhausted fuel s ws0 k H Hws0 Hfuel Hn.
    destruct fuel as [| fuel]; [lia |]. cbn [members].
    assert (drop (scan_pos s) input =
      ws0 ++ raw ++ ws1 ++ x3a :: (ws2 ++ w ++ ws3 ++ x2c :: (ws4 ++ k' ++ k))) as H1
      by by rewrite H; repeat (rewrite <- app_assoc; cbn).
    pose proof (spells_pos _ _ _ Hw) as [_ Hpos].
    erewrite bind_Ok by (apply (member_key_at s ws0 raw key keys count ws1 _ H1); try done; lia).
    set (s1 := after s (ws0 ++ raw ++ ws1 ++ [x3a]) 1).
    assert (drop (scan_pos s1) input = ws2 ++ w ++ ws3 ++ x2c :: (ws4 ++ k' ++ k)) as H2.
    { apply drop_after. rewrite H1. by repeat (rewrite <- app_assoc; cbn). }
    etransitivity; [apply (round_more exhausted fuel true ({[key]} ∪ keys, count) room s1 ws2 w n ws3 _ IHv H2);
      try done; cbn; lia |].
    assert (drop (scan_pos (after s1 (ws2 ++ w ++ ws3 ++ [x2c]) n)) input = ws4 ++ k' ++ k) as H3
      by (apply drop_after; rewrite H2; by rewrite <- !app_assoc).
    cbn [fst snd]. rewrite (IH count exhausted fuel _ ws4 k H3 Hws4).
    + unfold s1. rewrite !after_after. f_equal.
      apply after_eq; [by repeat (rewrite <- app_assoc; cbn) | lia].
    + rewrite H3. rewrite H1 in Hfuel. repeat (rewrite length_app in Hfuel; cbn in Hfuel).
      rewrite !length_app. lia.
    + cbn. lia.
Qed.

(** ** The fuel is never exhausted *)

Abbreviation left_in s := (length (drop (scan_pos s) input)) (only parsing).

Lemma head_consumes (object : bool) keys count s s1 next :
  (if object then member_key input limits keys count
   else ensure (negb (lim_array_elements limits <? count + 1)) BLimit;; mret (keys, count + 1)) s
  = (Ok next, s1) → (left_in s1 ≤ left_in s)%nat.
Proof.
  destruct object; intros H.
  - apply key_ok in H as (? & ? & ? & ? & _ & _ & _ & _ & _ & Hc). by eapply consumes_le.
  - by inv_ok.
Qed.

Lemma members_fuel e1 e2 room v1 v2 :
  value_sound room v1 → (∀ s, v1 s = v2 s) → ∀ fuel object keys count s,
  (left_in s < fuel)%nat →
  members input limits e1 v1 fuel object keys count s =
  members input limits e2 v2 fuel object keys count s.
Proof.
  intros Hv Heq fuel. induction fuel as [| fuel IH]; intros object keys count s Hs; [lia |].
  cbn [members]. apply bind_ext. intros next s1 Hnext. apply head_consumes in Hnext.
  trans ((v1;; space input;; b ← peek input;
    if bool_decide (b = Some (if object then x7d else x5d)) then advance 1
    else if bool_decide (b = Some x2c) then
      advance 1;; members input limits e2 v2 fuel object next.1 next.2
    else throw BInvalid) s1); [| unfold mbind at 1 5, M_bind; by rewrite Heq].
  apply bind_ext. intros [] s2 Hval. apply Hv in Hval as (ws & w & n & _ & Hw & Hc & _).
  apply spells_pos in Hw as [Hne _]. apply consumes_left in Hc; [| by destruct ws].
  apply bind_ext. intros [] s3 Hsp. apply space_ok in Hsp as (ws' & _ & Hc'). apply consumes_le in Hc'.
  apply bind_ext. intros b s4 Hb. apply peek_ok in Hb as [-> ->].
  destruct (bool_decide (_ = Some (if object then _ else _))); [done |].
  destruct (bool_decide _); [| done]. apply bind_ext. intros [] s4 Hadv. apply advance_inv in Hadv as ->.
  apply IH. cbn [scan_pos]. rewrite <- drop_drop, length_drop. lia.
Qed.

Lemma scan_value_fuel e1 e2 room s :
  scan_value input limits e1 room s = scan_value input limits e2 room s.
Proof.
  revert s. induction room as [| room IH]; intros s; [done |]. cbn [scan_value]. unfold scan_with.
  do 4 (apply bind_ext; intros ? ? _).
  destruct (bool_decide (_ = x7b ∨ _ = x5b)); [| done]. do 3 (apply bind_ext; intros ? ? _).
  destruct (bool_decide _); [done |]. apply bind_ext. intros l s4 Hl. apply rest_ok in Hl as [-> ->].
  eapply members_fuel; [apply scan_value_ok | exact IH | lia].
Qed.
End props.

Lemma Document_parse_fuel `{SJ : !SerdeJson} e input limits :
  Document_parse_with e input limits = Document_parse input limits.
Proof.
  unfold Document_parse, Document_parse_with. destruct (Limits_validate limits); [| done]. cbn.
  destruct (_ <? _); [done |]. destruct (negb _); [done |].
  assert ((scan_value input limits e (N.to_nat (lim_depth limits));; space input) (mkScan 0 0) =
    (scan_value input limits BInvalid (N.to_nat (lim_depth limits));; space input) (mkScan 0 0)) as ->; [| done].
  unfold mbind, M_bind. by rewrite (scan_value_fuel limits input e BInvalid).
Qed.

(** C30: the parser of bounded documents accepts exactly the UTF-8 texts within
    the byte limit that are one JSON value surrounded by white space, nested at
    most [depth] deep and of at most [nodes] nodes, whose strings, arrays and
    distinct object keys are within their limits and which the JSON library
    accepts; the document keeps its exact source.  The scan's fuel is never
    exhausted: the answer of an exhausted scan is irrelevant. *)
Theorem document_exact `{SJ : !SerdeJson} input limits d :
  (Document_parse input limits = Ok d ↔
   limits_valid limits ∧ len input ≤ lim_document_bytes limits ∧ from_utf8 input = true ∧
   (∃ ws w ws' n, input = ws ++ w ++ ws' ∧ spaces ws ∧ spaces ws' ∧
      spells limits (N.to_nat (lim_depth limits)) n w ∧ n ≤ lim_nodes limits) ∧
   doc_source d = input ∧ from_slice input = Some (doc_value d)) ∧
  (∀ exhausted, Document_parse_with exhausted input limits = Document_parse input limits).
Proof.
  split; [| intros e; apply Document_parse_fuel].
  unfold Document_parse, Document_parse_with. rewrite <- Limits_validate_ok.
  destruct (Limits_validate limits) as [[] | e]; [| by split; [| intros [? _]]]. cbn.
  destruct (N.ltb_spec (lim_document_bytes limits) (len input)); [by split; [| intros (_ & ? & _); lia] |].
  destruct (from_utf8 input) eqn:Hu; [| by split; [| intros (_ & _ & ? & _)]]. cbn.
  split.
  - destruct ((scan_value _ _ _ _ ;; space input) _) as [[[] | e] s] eqn:Hs; [| done]. cbn.
    destruct (Nat.eqb_spec (scan_pos s) (length input)) as [Hpos |]; [| done]. cbn.
    intros H'. apply bind_Ok_inv in Hs as ([] & s1 & Hv & Hsp).
    destruct (from_slice input) as [v |]; [| done]. injection H' as [= <-]. repeat split; try done.
    apply scan_value_ok in Hv as (ws & w & n & Hws & Hw & Hc & Hn).
    apply space_ok in Hsp as (ws' & Hws' & Hc'). exists ws, w, ws', n. destruct Hc as (Hc & _ & Hcn), Hc' as (Hc' & _).
    cbn in Hc, Hcn. rewrite drop_0 in Hc. rewrite Hpos, drop_all in Hc'.
    rewrite Hc, Hc', app_nil_r, <- app_assoc. repeat split; try done. lia.
  - intros (_ & _ & _ & (ws & w & ws' & n & Hin & Hws & Hws' & Hw & Hn) & Hsrc & Hval).
    destruct (spells_complete limits input) as (Hcomplete & _ & _).
    pose proof (Hcomplete _ _ _ Hw BInvalid (mkScan 0 0) ws ws') as Hv. cbn [scan_pos scan_nodes] in Hv.
    erewrite bind_Ok; [| apply Hv; [by rewrite drop_0 | done | | lia]].
    2: { destruct Hws'; [done |]. cbn. by apply delimiter_space. }
    rewrite (space_at input _ ws' []); [| | done | done].
    2: { rewrite app_nil_r. apply drop_after. cbn. by rewrite drop_0, <- app_assoc. }
    cbn. rewrite Hin, !length_app, Nat.add_assoc, Nat.eqb_refl. cbn. rewrite <- Hin, Hval. cbn.
    destruct d; cbn in *. by subst.
Qed.
