(* ===== verification/IdentityText.v ===== *)
(** * Identity text

    [src/modules/identity/{error,text}.rs]: the unpadded Base32 spelling of a
    binary identity, and the theorem that parsing accepts exactly the spellings
    of identities, up to the case of their letters. *)

From S2P Require Import Prelude Bytes Json Api.

#[local] Open Scope N_scope.

(** ** Errors: [error.rs] *)

Inductive IdentityError : Type :=
| IdInvalidInput | IdUnsupported | IdMismatch | IdInvalidProof | IdAccessDenied | IdUnavailable
| IdResourceLimit | IdConflict | IdOutcomeUnknown.

#[global] Instance IdentityError_eq_dec : EqDecision IdentityError.
Proof. solve_decision. Defined.

(** ** Formatting *)

Definition ALPHABET : bytes := Eval cbv in lit "ABCDEFGHIJKLMNOPQRSTUVWXYZ234567".
Definition ID_PREFIX : bytes := Eval cbv in lit "cr2se:".
(** [ALPHABET[usize::from(i)]]; in range at every use. *)
Definition alphabet (i : N) : byte := byte_at (N.to_nat i) ALPHABET.
(** [<<] on [u16] discards the bits above the width. *)
Definition shl16 (a n : N) : N := N.shiftl a n mod u16_limit.

(** [while bits >= 5]; every round takes five bits. *)
Fixpoint push_symbols (fuel : nat) (accumulator bits : N) (output : bytes) : N * bytes :=
  match fuel with
  | O => (bits, output)
  | S fuel =>
    if 5 <=? bits then
      let bits := bits - 5 in
      push_symbols fuel accumulator bits
        (output ++ [alphabet (N.land (N.shiftr accumulator bits) 31)])
    else (bits, output)
  end.

Definition format_byte (s : N * N * bytes) (b : byte) : N * N * bytes :=
  let '(accumulator, bits, output) := s in
  let accumulator := N.lor (shl16 accumulator 8) (b2N b) in
  let bits := bits + 8 in
  let '(bits, output) := push_symbols (N.to_nat bits) accumulator bits output in
  (N.land accumulator (shl16 1 bits - 1), bits, output).

Definition format (id : IdentityId) : bytes :=
  let '(accumulator, bits, output) := foldl format_byte (0, 0, ID_PREFIX) id in
  if negb (bits =? 0) then output ++ [alphabet (shl16 accumulator (5 - bits))] else output.

(** ** Parsing *)

Definition symbol_value (b : byte) : option N :=
  if in_range 65 90 b then Some (b2N b - 65)
  else if in_range 97 122 b then Some (b2N b - 97)
  else if in_range 50 55 b then Some (b2N b - 50 + 26)
  else None.

(** One round of the loop; the decoded bytes fill the array from its start. *)
Definition parse_symbol (s : N * N * bytes) (b : byte) : result IdentityError (N * N * bytes) :=
  let '(accumulator, bits, decoded) := s in
  value ← ok_or (symbol_value b) IdInvalidInput;
  let accumulator := N.lor (shl16 accumulator 5) value in
  let bits := bits + 5 in
  Ok (if 8 <=? bits then
        let bits := bits - 8 in
        (N.land accumulator (shl16 1 bits - 1), bits,
         decoded ++ [N2b (N.shiftr accumulator bits)])
      else (accumulator, bits, decoded)).

Fixpoint parse_symbols (s : N * N * bytes) (l : bytes) : result IdentityError (N * N * bytes) :=
  match l with
  | [] => Ok s
  | b :: l => s ← parse_symbol s b; parse_symbols s l
  end.

Definition parse (text : bytes) : result IdentityError IdentityId :=
  if negb (len text =? 58) || negb (bool_decide (ID_PREFIX `prefix_of` text))
  then Err IdInvalidInput else
  s ← parse_symbols (0, 0, []) (drop 6 text);
  let '(accumulator, _, decoded) := s in
  if negb (accumulator =? 0) then Err IdInvalidInput else Ok decoded.

Definition normalize (text : bytes) : result IdentityError bytes := format <$> parse text.

(** ** Digits of a number *)

Definition digits (base : N) (l : list N) : N := foldl (λ n d, n * base + d) 0 l.

Lemma digits_snoc base l d : digits base (l ++ [d]) = digits base l * base + d.
Proof. unfold digits. by rewrite foldl_app. Qed.

Lemma digits_inj base l k :
  Forall (λ d, d < base) l → Forall (λ d, d < base) k → length l = length k →
  digits base l = digits base k → l = k.
Proof.
  revert k. induction l as [| x l IH] using rev_ind; intros k Hl Hk Hlen Hd.
  - by destruct k.
  - destruct k as [| y k _] using rev_ind; [rewrite length_app in Hlen; simpl in Hlen; lia |].
    rewrite !length_app in Hlen. simpl in Hlen. rewrite !digits_snoc in Hd.
    apply Forall_app in Hl as [Hl Hx]. apply Forall_app in Hk as [Hk Hy].
    rewrite !Forall_singleton in Hx, Hy.
    destruct (N.div_mod_unique base (digits base l) (digits base k) x y) as [E ->]; try done; [lia |].
    f_equal. apply IH; try done. lia.
Qed.

Abbreviation byte_digits l := (digits 256 (b2N <$> l)).

#[local] Instance b2N_Inj : Inj (=) (=) b2N := b2N_inj.
Lemma byte_digits_inj l k : length l = length k → byte_digits l = byte_digits k → l = k.
Proof.
  intros Hlen Hd. apply (inj (fmap (M := list) b2N)), (digits_inj 256); [| | by rewrite !length_fmap | done].
  all: apply Forall_fmap, Forall_forall; intros b _; apply b2N_lt.
Qed.

(** ** Shifts as arithmetic *)

Lemma lor_add a b k : b < 2 ^ k → N.lor (a * 2 ^ k) b = a * 2 ^ k + b.
Proof.
  intros Hb. apply N2Z.inj. rewrite N2Z.inj_lor, N2Z.inj_add, <- Z.add_lor_land.
  rewrite <- N2Z.inj_land. replace (N.land (a * 2 ^ k) b) with 0; [lia |].
  symmetry. apply N.bits_inj_0. intros n. rewrite N.land_spec, <- N.shiftl_mul_pow2.
  destruct (N.ltb_spec n k).
  - by rewrite N.shiftl_spec_low.
  - destruct (decide (b = 0)) as [-> | ?]; [by rewrite N.bits_0, andb_false_r |].
    rewrite (N.bits_above_log2 b n); [apply andb_false_r |].
    apply N.log2_lt_pow2; [lia |]. eapply N.lt_le_trans; [exact Hb |]. by apply N.pow_le_mono_r.
Qed.

Lemma shl16_small a n : a * 2 ^ n < u16_limit → shl16 a n = a * 2 ^ n.
Proof. intros H. unfold shl16. rewrite N.shiftl_mul_pow2. by apply N.mod_small. Qed.

Lemma shl_lor a b bits k :
  a < 2 ^ bits → bits + k ≤ 15 → b < 2 ^ k → N.lor (shl16 a k) b = a * 2 ^ k + b.
Proof.
  intros Ha Hk Hb. assert (2 ^ (bits + k) ≤ 2 ^ 15) by (apply N.pow_le_mono_r; lia).
  rewrite N.pow_add_r in *. rewrite shl16_small by (change u16_limit with (2 * 2 ^ 15); nia).
  by apply lor_add.
Qed.
Lemma mask_low a bits : bits ≤ 15 → N.land a (shl16 1 bits - 1) = a mod 2 ^ bits.
Proof.
  intros H. assert (2 ^ bits ≤ 2 ^ 15) by (apply N.pow_le_mono_r; lia).
  rewrite shl16_small by (change u16_limit with (2 * 2 ^ 15); lia).
  rewrite N.mul_1_l, <- N.pred_sub, <- N.ones_equiv. apply N.land_ones.
Qed.

(** ** Formatting writes the symbols of the identity's number *)

Lemma alphabet_value v : v < 32 → symbol_value (alphabet v) = Some v.
Proof.
  intros Hv. assert (Forall (λ v, symbol_value (alphabet v) = Some v) (N.of_nat <$> seq 0 32)) as H
    by (by vm_compute; repeat constructor).
  rewrite Forall_forall in H. apply H, list_elem_of_fmap. exists (N.to_nat v).
  split; [by rewrite N2Nat.id |]. apply elem_of_seq. lia.
Qed.

(** What has been written: whole symbols, and fewer than eight pending bits. *)
Record written (prefix : bytes) (number : N) (total : N) (accumulator bits : N) (output : bytes)
    : Prop := {
  wr_symbols : ∃ vs, output = prefix ++ (alphabet <$> vs) ∧ Forall (λ v, v < 32) vs ∧
                     5 * len vs + bits = total ∧ digits 32 vs * 2 ^ bits + accumulator = number;
  wr_pending : accumulator < 2 ^ bits;
}.

Lemma push_symbols_written prefix number total accumulator fuel bits output :
  (N.to_nat bits ≤ fuel)%nat → bits ≤ 15 →
  (∃ high, written prefix number total (accumulator mod 2 ^ bits) bits output ∧
           accumulator = high * 2 ^ bits + accumulator mod 2 ^ bits) →
  let '(bits', output') := push_symbols fuel accumulator bits output in
  bits' < 5 ∧ bits' ≤ bits ∧ written prefix number total (accumulator mod 2 ^ bits') bits' output'.
Proof.
  revert bits output. induction fuel as [| fuel IH]; intros bits output Hfuel Hbits (high & Hw & Hacc);
    cbn [push_symbols].
  - replace bits with 0 in * by lia. by split; [lia |].
  - destruct (N.leb_spec 5 bits) as [H5 | H5]; [| by repeat split; [lia | lia | |]; try apply Hw].
    assert (∃ q, bits = q + 5) as [q ->] by (exists (bits - 5); lia). rewrite N.add_sub.
    specialize (IH q (output ++ [alphabet (N.land (N.shiftr accumulator q) 31)])
      ltac:(lia) ltac:(lia)).
    destruct (push_symbols _ _ _ _) as [bits' output']. destruct IH as (H1 & H2 & H3).
    + exists (accumulator / 2 ^ q).
      assert (2 ^ q ≠ 0) as Hq by (apply N.pow_nonzero; lia).
      split; [| pose proof (N.div_mod accumulator (2 ^ q) Hq); lia].
      destruct Hw as [(vs & -> & Hvs & Hlen & Hnum) _].
      rewrite N.shiftr_div_pow2. change 31 with (N.ones 5). rewrite N.land_ones. change (2 ^ 5) with 32.
      set (v := (accumulator / 2 ^ q) mod 32).
      assert (v < 32) as Hv by (apply N.mod_lt; lia).
      assert (accumulator mod 2 ^ (q + 5) = v * 2 ^ q + accumulator mod 2 ^ q) as Hmod.
      { rewrite N.pow_add_r. change (2 ^ 5) with 32. rewrite N.Div0.mod_mul_r. fold v. lia. }
      split; [| apply N.mod_lt; lia].
      exists (vs ++ [v]). rewrite fmap_app, app_assoc. split; [done |].
      split; [by apply Forall_app; split; [| apply Forall_singleton] |].
      split; [rewrite len_app, len_cons, len_nil; lia |].
      rewrite digits_snoc, <- Hnum, Hmod, N.pow_add_r. change (2 ^ 5) with 32. lia.
    + repeat split; [done | lia | apply H3 | apply H3].
Qed.

Lemma format_bytes_written prefix l :
  let '(accumulator, bits, output) := foldl format_byte (0, 0, prefix) l in
  bits < 5 ∧ written prefix (byte_digits l) (8 * len l) accumulator bits output.
Proof.
  induction l as [| b l IH] using rev_ind; cbn.
  - split; [lia |]. split; [| done]. exists []. by rewrite app_nil_r.
  - rewrite foldl_app. cbn. destruct (foldl _ _ l) as [[acc bits] out]. destruct IH as [Hb [(vs & -> & Hvs & Hlen & Hnum) Hacc]].
    unfold format_byte. rewrite (shl_lor acc (b2N b) bits 8) by (try apply b2N_lt; lia || done).
    set (a := acc * 2 ^ 8 + b2N b).
    assert (a < 2 ^ (bits + 8)) as Ha.
    { unfold a. rewrite N.pow_add_r. pose proof (b2N_lt b). change (2 ^ 8) with 256. nia. }
    pose proof (push_symbols_written prefix (byte_digits (l ++ [b])) (8 * len (l ++ [b])) a
      (N.to_nat (bits + 8)) (bits + 8) (prefix ++ (alphabet <$> vs)) ltac:(lia) ltac:(lia)) as Hp.
    destruct (push_symbols _ _ _ _) as [bits' out']. destruct Hp as (H1 & H2 & H3).
    + exists 0. rewrite N.mod_small by done. split; [| lia]. split; [| done].
      exists vs. split; [done |]. split; [done |]. rewrite len_app, len_cons, len_nil.
      split; [lia |].
      rewrite fmap_app. cbn. rewrite digits_snoc, N.pow_add_r. unfold a. change (2 ^ 8) with 256. lia.
    + rewrite mask_low by lia. done.
Qed.

Lemma format_spec id : length id = 32%nat →
  ∃ vs, format id = ID_PREFIX ++ (alphabet <$> vs) ∧ Forall (λ v, v < 32) vs ∧ length vs = 52%nat ∧
        digits 32 vs = byte_digits id * 16.
Proof.
  intros Hid. unfold format. pose proof (format_bytes_written ID_PREFIX id) as H.
  destruct (foldl _ _ _) as [[acc bits] out]. destruct H as [Hb [(vs & -> & Hvs & Hlen & Hnum) Hacc]].
  rewrite (len_length _ _ Hid) in Hlen. assert (bits = 1) as -> by lia. cbn [N.eqb negb Pos.eqb N.sub Pos.sub].
  change (2 ^ 1) with 2 in *. change (5 - 1) with 4. rewrite shl16_small by (cbn; lia). change (2 ^ 4) with 16.
  exists (vs ++ [acc * 16]). rewrite fmap_app, app_assoc. split; [done |].
  split; [apply Forall_app; split; [done |]; apply Forall_singleton; lia |].
  split; [rewrite length_app; unfold len in Hlen; cbn; lia |].
  rewrite digits_snoc. lia.
Qed.

(** ** Parsing reads the number back *)

Record decoded_so_far (vs : list N) (accumulator bits : N) (decoded : bytes) : Prop := {
  dc_total : 8 * len decoded + bits = 5 * len vs;
  dc_bits : bits < 8;
  dc_pending : accumulator < 2 ^ bits;
  dc_number : byte_digits decoded * 2 ^ bits + accumulator = digits 32 vs;
}.

Lemma symbol_value_lt b v : symbol_value b = Some v → v < 32.
Proof.
  unfold symbol_value, in_range. intros H. pose proof (b2N_lt b).
  repeat (destruct (_ && _) eqn:E in H; [injection H as <-; lia |]; clear E). done.
Qed.

Lemma parse_symbol_decoded vs accumulator bits decoded b v :
  decoded_so_far vs accumulator bits decoded → symbol_value b = Some v →
  ∃ accumulator' bits' decoded',
    parse_symbol (accumulator, bits, decoded) b = Ok (accumulator', bits', decoded') ∧
    decoded_so_far (vs ++ [v]) accumulator' bits' decoded'.
Proof.
  intros [Htot Hbits Hacc Hnum] Hv. pose proof (symbol_value_lt _ _ Hv) as Hlt.
  unfold parse_symbol. rewrite Hv. cbn [ok_or mbind result_bind].
  rewrite (shl_lor _ _ bits 5) by (done || lia). change (2 ^ 5) with 32.
  assert (accumulator * 32 + v < 2 ^ (bits + 5)) as Ha.
  { rewrite N.pow_add_r. change (2 ^ 5) with 32. nia. }
  assert (byte_digits decoded * 2 ^ (bits + 5) + (accumulator * 32 + v) = digits 32 (vs ++ [v])) as Hd.
  { rewrite digits_snoc, <- Hnum, N.pow_add_r. change (2 ^ 5) with 32. lia. }
  destruct (N.leb_spec 8 (bits + 5)) as [H8 | H8]; (eexists _, _, _; split; [reflexivity |]).
  - assert (∃ q, bits + 5 = q + 8) as [q Hq] by (exists (bits + 5 - 8); lia).
    rewrite Hq in Ha, Hd |- *. rewrite N.add_sub, mask_low, N.shiftr_div_pow2 by lia.
    set (a := accumulator * 32 + v) in *. assert (2 ^ q ≠ 0) as Hnz by (apply N.pow_nonzero; lia).
    assert (a / 2 ^ q < 256) as Hhi.
    { apply N.Div0.div_lt_upper_bound. rewrite N.pow_add_r in Ha. exact Ha. }
    split; [unfold len in *; rewrite !length_app; cbn [length]; lia | lia | by apply N.mod_lt |].
    rewrite fmap_app. cbn [fmap list_fmap]. rewrite digits_snoc, b2N_N2b, (N.mod_small (a / 2 ^ q)) by done.
    rewrite <- Hd, N.pow_add_r. change (2 ^ 8) with 256.
    pose proof (N.div_mod a (2 ^ q) Hnz). lia.
  - split; [rewrite len_app, len_cons, len_nil; lia | lia | done | done].
Qed.

Lemma parse_symbols_decoded vs0 accumulator bits decoded l vs :
  decoded_so_far vs0 accumulator bits decoded → Forall2 (λ b v, symbol_value b = Some v) l vs →
  ∃ accumulator' bits' decoded',
    parse_symbols (accumulator, bits, decoded) l = Ok (accumulator', bits', decoded') ∧
    decoded_so_far (vs0 ++ vs) accumulator' bits' decoded'.
Proof.
  intros Hd Hl. revert vs0 accumulator bits decoded Hd.
  induction Hl as [| b v l vs Hv _ IH]; intros vs0 accumulator bits decoded Hd.
  - eexists _, _, _. split; [reflexivity |]. by rewrite app_nil_r.
  - destruct (parse_symbol_decoded _ _ _ _ _ _ Hd Hv) as (a & n & d & Hp & Hd').
    destruct (IH _ _ _ _ Hd') as (a' & n' & d' & Hps & Hd''). exists a', n', d'.
    cbn [parse_symbols]. rewrite Hp. cbn [mbind result_bind]. rewrite Hps.
    split; [done |]. by rewrite <- app_assoc in Hd''.
Qed.

Lemma parse_symbols_values s l s' :
  parse_symbols s l = Ok s' → ∃ vs, Forall2 (λ b v, symbol_value b = Some v) l vs.
Proof.
  revert s. induction l as [| b l IH]; intros s H; [by exists [] |]. cbn [parse_symbols] in H. inv_ok.
  destruct (IH _ H1) as [vs Hvs]. destruct s as [[a n] d]. unfold parse_symbol in H0.
  destruct (symbol_value b) as [v |] eqn:Hv; [| done]. exists (v :: vs). by constructor.
Qed.

(** ** The accepted spellings *)

Definition to_upper (b : byte) : byte := if in_range 97 122 b then N2b (b2N b - 32) else b.
(** Upper-case symbols after the exact prefix. *)
Definition canonical (text : bytes) : bytes := take 6 text ++ (to_upper <$> drop 6 text).

Lemma symbol_upper b v : v < 32 → symbol_value b = Some v ↔ to_upper b = alphabet v.
Proof.
  intros Hv. split.
  - intros H. destruct b; try discriminate H; injection H as <-; reflexivity.
  - intros H. apply alphabet_value in Hv. rewrite <- H in Hv. rewrite <- Hv. by destruct b.
Qed.

Lemma symbols_upper l vs :
  Forall (λ v, v < 32) vs →
  Forall2 (λ b v, symbol_value b = Some v) l vs ↔ to_upper <$> l = alphabet <$> vs.
Proof.
  intros Hvs. revert l. induction Hvs as [| v vs Hv _ IH]; intros [| b l].
  - by split.
  - split; [intros H; inversion H | done].
  - split; [intros H; inversion H | done].
  - rewrite Forall2_cons, IH, (symbol_upper b v Hv). cbn. split; [by intros [-> ->] | by intros [= -> ->]].
Qed.

Lemma values_lt l vs : Forall2 (λ b v, symbol_value b = Some v) l vs → Forall (λ v, v < 32) vs.
Proof. induction 1 as [| b v l vs Hv _ IH]; constructor; [by eapply symbol_value_lt | done]. Qed.

(** What a text of 52 symbols parses to. *)
Lemma parse_number text vs :
  len text = 58 → ID_PREFIX `prefix_of` text →
  Forall2 (λ b v, symbol_value b = Some v) (drop 6 text) vs →
  ∃ id accumulator, length id = 32%nat ∧ accumulator < 16 ∧
    byte_digits id * 16 + accumulator = digits 32 vs ∧
    parse text = if accumulator =? 0 then Ok id else Err IdInvalidInput.
Proof.
  intros Hlen Hpre Hvs. pose proof (Forall2_length _ _ _ Hvs) as Hl.
  rewrite length_drop in Hl. unfold len in Hlen.
  destruct (parse_symbols_decoded [] 0 0 [] (drop 6 text) vs) as (a & n & d & Hp & [Ht Hb Ha Hn]);
    [by split | done |]. cbn [app] in *.
  assert (len vs = 52) as Hvl by (unfold len; lia). rewrite Hvl in Ht.
  assert (n = 4) as -> by lia. exists d, a. split; [unfold len in Ht; lia |].
  split; [exact Ha |]. split; [exact Hn |]. unfold parse, len. rewrite Hlen, bool_decide_true by done.
  cbn [N.eqb Pos.eqb negb orb]. rewrite Hp. cbn [mbind result_bind]. by destruct (a =? 0).
Qed.

(** Parsing an identity text accepts exactly the 58-byte spellings of the
    32-byte identities, up to the case of the symbols: a text parses to [id]
    exactly when its canonical form is what formatting [id] prints.  So distinct
    identities print differently, printing then parsing returns the identity,
    and no text with another prefix, alphabet, length or nonzero unused bits is
    accepted. *)
Theorem identity_text_exact text id :
  parse text = Ok id ↔ length id = 32%nat ∧ canonical text = format id.
Proof.
  split.
  - intros H. assert (len text = 58 ∧ ID_PREFIX `prefix_of` text) as [Hlen Hpre].
    { unfold parse in H. destruct (N.eqb_spec (len text) 58); [| done].
      by destruct (bool_decide_reflect (ID_PREFIX `prefix_of` text)). }
    assert (∃ vs, Forall2 (λ b v, symbol_value b = Some v) (drop 6 text) vs) as [vs Hvs].
    { unfold parse in H. rewrite Hlen, bool_decide_true in H by done. cbn [N.eqb Pos.eqb negb orb] in H.
      inv_ok. by eapply parse_symbols_values. }
    destruct (parse_number text vs Hlen Hpre Hvs) as (id' & a & Hid & Ha & Hn & Hp).
    rewrite Hp in H. destruct (N.eqb_spec a 0) as [Hz | ?]; [subst a | done]. injection H as <-.
    split; [done |]. destruct (format_spec id' Hid) as (vs' & -> & Hvs' & Hl' & Hn').
    assert (vs' = vs) as ->.
    { apply (digits_inj 32); try done; [by eapply values_lt | | lia].
      apply Forall2_length in Hvs. rewrite length_drop in Hvs. unfold len in Hlen. lia. }
    unfold canonical. f_equal; [| by apply symbols_upper].
    destruct Hpre as [k ->]. done.
  - intros [Hid Hc]. destruct (format_spec id Hid) as (vs & Hf & Hvs & Hl & Hn).
    rewrite Hf in Hc. unfold canonical in Hc.
    assert (length (drop 6 text) = 52%nat) as Hdrop.
    { apply (f_equal length) in Hc. rewrite !length_app, !length_fmap, length_take, length_drop in Hc.
      rewrite length_drop. change (length ID_PREFIX) with 6%nat in Hc. lia. }
    assert (length text = 58%nat) as Ht by (rewrite length_drop in Hdrop; lia).
    apply app_inj_1 in Hc as [Hpre Hsym]; [| rewrite length_take, Ht; done].
    destruct (parse_number text vs) as (id' & a & Hid' & Ha & Hn' & ->).
    + by apply len_length in Ht.
    + exists (drop 6 text). by rewrite <- Hpre, take_drop.
    + by apply symbols_upper.
    + assert (a = 0) as -> by lia. cbn [N.eqb]. f_equal. apply byte_digits_inj; [lia |]. lia.
Qed.
