(* ===== verification/AddressText.v ===== *)
(** * IP addresses as text

    What the contact codec uses of [core::net]: [Display] and [FromStr] of IP
    addresses, and of the decimal numbers of [core::num].  The theorem that
    every address is read back from its text closes the file. *)

From S2P Require Import Prelude Bytes Json Api IdentityText.

#[local] Open Scope N_scope.

(** ** Numbers *)

(** [char::to_digit], for a radix up to 16. *)
Definition to_digit (radix : N) (b : byte) : option N :=
  v ← (if in_range 48 57 b then Some (b2N b - 48)
       else if in_range 97 122 b then Some (b2N b - 87)
       else if in_range 65 90 b then Some (b2N b - 55)
       else None);
  if v <? radix then Some v else None.
Definition digit_char (v : N) : byte := N2b (if v <? 10 then v + 48 else v + 87).

(** The digits of a number without leading zeros, most significant first. *)
Fixpoint digits_of (fuel : nat) (radix n : N) : list N :=
  match fuel with
  | O => []
  | S fuel => (if n <? radix then [] else digits_of fuel radix (n / radix)) ++ [n mod radix]
  end.
(** [Display] and [LowerHex] of an integer of at most 64 bits. *)
Definition display_number (radix n : N) : bytes := digit_char <$> digits_of 20 radix n.

(** [str::parse::<u16>]: an optional plus, then digits, within the width. *)
Fixpoint number_value (limit n : N) (l : bytes) : option N :=
  match l with
  | [] => Some n
  | b :: l =>
    d ← to_digit 10 b;
    n ← checked_mul limit n 10;
    n ← checked_add limit n d;
    number_value limit n l
  end.
Definition parse_decimal (limit : N) (l : bytes) : option N :=
  match l with
  | [] => None
  | [x2b] | [x2d] => None
  | x2b :: l => number_value limit 0 l
  | _ => number_value limit 0 l
  end.

(** ** The address parser

    A reader that fails leaves the input where it was ([read_atomically]). *)
Abbreviation Reader A := (bytes → option (A * bytes)) (only parsing).

Definition read_given_char (c : byte) : Reader unit := λ rest,
  match rest with
  | b :: rest => if bool_decide (b = c) then Some (tt, rest) else None
  | [] => None
  end.
(** The digit loop: [count] and [result] so far. *)
Fixpoint read_digits (radix max : N) (count result : N) (rest : bytes) : option (N * N * bytes) :=
  match rest with
  | [] => Some (count, result, [])
  | b :: rest' =>
    match to_digit radix b with
    | None => Some (count, result, rest)
    | Some d => if max <? count + 1 then None else read_digits radix max (count + 1) (result * radix + d) rest'
    end
  end.
(** [read_number] of a type with values below [limit]. *)
Definition read_number (radix max : N) (allow_zero_prefix : bool) (limit : N) : Reader N := λ rest,
  let has_leading_zero := bool_decide (head rest = Some x30) in
  '(count, result, rest) ← read_digits radix max 0 0 rest;
  if count =? 0 then None
  else if negb allow_zero_prefix && has_leading_zero && (1 <? count) then None
  else if result <? limit then Some (result, rest) else None.
Definition read_separator {A} (sep : byte) (index : nat) (inner : Reader A) : Reader A := λ rest,
  if (index =? 0)%nat then inner rest else '(_, rest) ← read_given_char sep rest; inner rest.

Definition read_octet (index : nat) : Reader byte := λ rest,
  '(n, rest) ← read_separator x2e index (read_number 10 3 false 256) rest; Some (N2b n, rest).
Definition read_ipv4_addr : Reader Ipv4Addr := λ rest,
  '(a, rest) ← read_octet 0 rest;
  '(b, rest) ← read_octet 1 rest;
  '(c, rest) ← read_octet 2 rest;
  '(d, rest) ← read_octet 3 rest;
  Some (mkIpv4 a b c d, rest).

(** [read_groups] from group [index] on, with [left] groups of the slice left:
    the groups read, and whether they end with an embedded IPv4 address. *)
Fixpoint read_groups (left index : nat) (rest : bytes) : list N * bool * bytes :=
  match left with
  | O => ([], false, rest)
  | S left' =>
    match (if (1 <? left)%nat then read_separator x3a index read_ipv4_addr rest else None) with
    | Some (v4, rest) =>
      ([from_be [octet_1 v4; octet_2 v4]; from_be [octet_3 v4; octet_4 v4]], true, rest)
    | None =>
      match read_separator x3a index (read_number 16 4 true 65536) rest with
      | None => ([], false, rest)
      | Some (g, rest) => let '(gs, v4, rest) := read_groups left' (index + 1) rest in (g :: gs, v4, rest)
      end
    end
  end.
Definition read_ipv6_addr : Reader Ipv6Addr := λ rest,
  let '(head, head_ipv4, rest) := read_groups 8 0 rest in
  if (length head =? 8)%nat then Some (head, rest) else
  if (head_ipv4 : bool) then None else
  '(_, rest) ← read_given_char x3a rest;
  '(_, rest) ← read_given_char x3a rest;
  let '(tail, _, rest) := read_groups (8 - (length head + 1)) 0 rest in
  Some (head ++ replicate (8 - length head - length tail) 0 ++ tail, rest).

Definition read_ip_addr : Reader IpAddr := λ rest,
  match read_ipv4_addr rest with
  | Some (ip, rest) => Some (IpV4 ip, rest)
  | None => '(s, rest) ← read_ipv6_addr rest; Some (IpV6 s, rest)
  end.
(** [IpAddr::from_str]. *)
Definition parse_ip (s : bytes) : option IpAddr :=
  match read_ip_addr s with Some (ip, []) => Some ip | _ => None end.

(** ** Display *)

Definition display_ipv4 (a : Ipv4Addr) : bytes :=
  let d b := display_number 10 (b2N b) in
  d (octet_1 a) ++ [x2e] ++ d (octet_2 a) ++ [x2e] ++ d (octet_3 a) ++ [x2e] ++ d (octet_4 a).

(** [fmt_subslice]. *)
Fixpoint display_groups (s : list N) : bytes :=
  match s with
  | [] => []
  | [g] => display_number 16 g
  | g :: s => display_number 16 g ++ [x3a] ++ display_groups s
  end.

(** The longest span of zero segments, the first of them: [(start, len)]. *)
Fixpoint zero_span (i : nat) (longest current : nat * nat) (s : list N) : nat * nat :=
  match s with
  | [] => longest
  | g :: s =>
    if g =? 0 then
      let current := (if (current.2 =? 0)%nat then i else current.1, S current.2) in
      zero_span (S i) (if (longest.2 <? current.2)%nat then current else longest) current s
    else zero_span (S i) longest (0, 0)%nat s
  end.

(** [to_ipv4_mapped]. *)
Definition to_ipv4_mapped (s : Ipv6Addr) : option Ipv4Addr :=
  match s with
  | [0; 0; 0; 0; 0; 65535; hi; lo] =>
    Some (mkIpv4 (byte_at 0 (to_be 2 hi)) (byte_at 1 (to_be 2 hi))
                 (byte_at 0 (to_be 2 lo)) (byte_at 1 (to_be 2 lo)))
  | _ => None
  end.

Definition display_ipv6 (s : Ipv6Addr) : bytes :=
  match to_ipv4_mapped s with
  | Some v4 => lit "::ffff:" ++ display_ipv4 v4
  | None =>
    let '(start, n) := zero_span 0 (0, 0)%nat (0, 0)%nat s in
    if (1 <? n)%nat
    then display_groups (take start s) ++ [x3a; x3a] ++ display_groups (drop (start + n) s)
    else display_groups s
  end.
(** [IpAddr::to_string]. *)
Definition display_ip (ip : IpAddr) : bytes :=
  match ip with IpV4 a => display_ipv4 a | IpV6 s => display_ipv6 s end.

(** Segments are eight 16-bit integers. *)
Definition ip_wf (ip : IpAddr) : Prop :=
  match ip with
  | IpV4 _ => True
  | IpV6 s => length s = 8%nat ∧ Forall (λ g, g < 65536) s
  end.

Example display_examples :
  display_ip (IpV4 (mkIpv4 x7f x00 x00 x01)) = lit "127.0.0.1" ∧
  display_ip (IpV6 [8193; 3512; 0; 0; 0; 0; 0; 1]) = lit "2001:db8::1" ∧
  display_ip (IpV6 [0; 0; 0; 0; 0; 65535; 258; 772]) = lit "::ffff:1.2.3.4" ∧
  display_ip (IpV6 [0; 0; 1; 0; 0; 0; 1; 0]) = lit "0:0:1::1:0" ∧
  display_ip (IpV6 [1; 0; 2; 3; 4; 5; 6; 7]) = lit "1:0:2:3:4:5:6:7".
Proof. vm_compute. done. Qed.
Example parse_examples :
  parse_ip (lit "127.0.0.01") = None ∧ parse_ip (lit "::1") = Some (IpV6 [0; 0; 0; 0; 0; 0; 0; 1]) ∧
  parse_ip (lit "1::2::3") = None ∧ parse_ip (lit "1:2:3:4:5:6:7::") = Some (IpV6 [1; 2; 3; 4; 5; 6; 7; 0]) ∧
  parse_ip (lit "::1.2.3.4") = Some (IpV6 [0; 0; 0; 0; 0; 0; 258; 772]) ∧ parse_ip (lit "256.0.0.1") = None.
Proof. vm_compute. done. Qed.

(** ** Numbers are read back *)

Lemma to_digit_char radix v : radix = 10 ∨ radix = 16 → v < radix →
  to_digit radix (digit_char v) = Some v ∧ digit_char v ≠ x2e ∧ (digit_char v = x30 → v = 0).
Proof.
  intros Hr Hv.
  assert (forallb (λ k, let v := N.of_nat k in
    ((10 <=? v) || bool_decide (to_digit 10 (digit_char v) = Some v))
    && bool_decide (to_digit 16 (digit_char v) = Some v)
    && bool_decide (digit_char v ≠ x2e) && (negb (bool_decide (digit_char v = x30)) || (v =? 0)))
    (seq 0 16) = true) as H by (vm_compute; reflexivity).
  rewrite forallb_forall in H. specialize (H (N.to_nat v)). cbv zeta in H. rewrite N2Nat.id in H.
  rewrite !andb_true_iff, !orb_true_iff, negb_true_iff, bool_decide_eq_false in H.
  rewrite !bool_decide_eq_true in H. destruct H as [[[H1 H2] H3] H4]; [apply in_seq; lia |].
  split_and!; [| done | intros E; destruct H4 as [H4 | H4]; [done | by apply N.eqb_eq in H4]].
  destruct Hr as [-> | ->]; [| done]. destruct H1 as [H1 | H1]; [apply N.leb_le in H1; lia | done].
Qed.

Lemma digits_of_spec fuel radix n :
  2 ≤ radix → n < radix ^ N.of_nat fuel → (0 < fuel)%nat →
  let ds := digits_of fuel radix n in
  digits radix ds = n ∧ Forall (λ d, d < radix) ds ∧ (1 ≤ length ds)%nat ∧ (head ds = Some 0 → length ds = 1%nat) ∧
  ∀ k, (0 < k)%nat → n < radix ^ N.of_nat k → (length ds ≤ k)%nat.
Proof.
  intros Hr. revert n. induction fuel as [| fuel IH]; intros n Hn Hf; [lia |]. cbn [digits_of]. cbv zeta.
  pose proof (N.mod_lt n radix ltac:(lia)) as Hm. destruct (N.ltb_spec n radix) as [Hlt | Hge].
  - cbn [app]. rewrite N.mod_small by done. unfold digits. cbn. split_and!; [lia | by constructor | lia | done | lia].
  - pose proof (N.div_mod n radix ltac:(lia)) as Hdm. rewrite Nat2N.inj_succ, N.pow_succ_r' in Hn.
    assert (n / radix < radix ^ N.of_nat fuel) as Hq by (apply N.Div0.div_lt_upper_bound; lia).
    assert (1 ≤ n / radix) as H1 by (apply N.div_le_lower_bound; lia).
    assert (0 < fuel)%nat as Hf' by (destruct fuel; [cbn in Hq; lia | lia]).
    destruct (IH _ Hq Hf') as (Hd & Hall & Hlen & Hhead & Hk). split_and!.
    + rewrite digits_snoc, Hd. lia.
    + apply Forall_app. split; [done | by constructor].
    + rewrite length_app. cbn. lia.
    + intros Hh. exfalso. destruct (digits_of fuel radix (n / radix)) as [| d ds] eqn:E; [cbn in Hlen; lia |].
      cbn in Hh. injection Hh as ->. specialize (Hhead eq_refl). destruct ds; [| done].
      unfold digits in Hd. cbn in Hd. lia.
    + intros k Hk0 Hnk. rewrite length_app. cbn [length]. destruct k as [| k]; [lia |].
      rewrite Nat2N.inj_succ, N.pow_succ_r' in Hnk. destruct k as [| k]; [cbn in Hnk; lia |].
      specialize (Hk (S k) ltac:(lia)). assert (n / radix < radix ^ N.of_nat (S k)); [| lia].
      apply N.Div0.div_lt_upper_bound. lia.
Qed.

(** The input goes on with something that is no digit. *)
Definition stops (radix : N) (rest : bytes) : Prop :=
  match rest with b :: _ => to_digit radix b = None | [] => True end.

Lemma read_digits_app radix max ds count r rest :
  radix = 10 ∨ radix = 16 → Forall (λ d, d < radix) ds → stops radix rest → count + len ds ≤ max →
  read_digits radix max count r ((digit_char <$> ds) ++ rest) =
  Some (count + len ds, foldl (λ n d, n * radix + d) r ds, rest).
Proof.
  intros Hr Hds Hs. revert count r. induction Hds as [| d ds Hd Hds IH]; intros count r Hc.
  - rewrite len_nil, N.add_0_r. destruct rest as [| b rest]; [done |]. cbn in Hs |- *. by rewrite Hs.
  - rewrite len_cons in *. cbn. destruct (to_digit_char radix d Hr Hd) as (-> & _).
    rewrite (proj2 (N.ltb_ge _ _)) by lia. rewrite IH by lia. do 3 f_equal. lia.
Qed.

Lemma read_number_display radix max allow limit n rest :
  radix = 10 ∨ radix = 16 → n < limit → limit ≤ radix ^ max → 1 ≤ max ≤ 20 → stops radix rest →
  read_number radix max allow limit (display_number radix n ++ rest) = Some (n, rest).
Proof.
  intros Hr Hn Hl Hm Hs. unfold read_number, display_number.
  assert (n < radix ^ N.of_nat 20) as H20.
  { eapply N.lt_le_trans; [exact Hn |]. etrans; [exact Hl |]. apply N.pow_le_mono_r; destruct Hr; lia. }
  destruct (digits_of_spec 20 radix n ltac:(destruct Hr; lia) H20 ltac:(lia)) as (Hd & Hall & Hlen & Hhead & Hk).
  set (ds := digits_of 20 radix n) in *.
  assert (len ds ≤ max) as Hmax.
  { unfold len. specialize (Hk (N.to_nat max) ltac:(lia)). rewrite N2Nat.id in Hk. specialize (Hk ltac:(lia)). lia. }
  rewrite read_digits_app by done. cbn [mbind option_bind]. rewrite N.add_0_l.
  change (foldl _ 0 ds) with (digits radix ds). rewrite Hd.
  rewrite (proj2 (N.eqb_neq _ _)) by (unfold len; lia).
  assert (negb allow && bool_decide (head ((digit_char <$> ds) ++ rest) = Some x30) && (1 <? len ds) = false) as ->.
  { destruct ds as [| d ds']; [cbn in Hlen; lia |]. destruct (N.ltb_spec 1 (len (d :: ds'))) as [H1 |]; [| by rewrite andb_false_r].
    rewrite bool_decide_eq_false_2; [by rewrite andb_false_r |]. cbn. intros [= E].
    apply Forall_cons in Hall as [Hd0 _]. destruct (to_digit_char radix d Hr Hd0) as (_ & _ & H0).
    specialize (H0 E). subst d. specialize (Hhead eq_refl). unfold len in H1. lia. }
  by rewrite (proj2 (N.ltb_lt _ _)).
Qed.

(** Decimal numbers through [str::parse]. *)
Lemma number_value_digits limit ds n :
  Forall (λ d, d < 10) ds → foldl (λ n d, n * 10 + d) n ds < limit →
  number_value limit n (digit_char <$> ds) = Some (foldl (λ n d, n * 10 + d) n ds).
Proof.
  intros Hds. revert n. induction Hds as [| d ds Hd _ IH]; intros n Hn; [done |]. cbn in Hn |- *.
  destruct (to_digit_char 10 d (or_introl eq_refl) Hd) as (-> & _). cbn.
  assert (n * 10 + d ≤ foldl (λ n d, n * 10 + d) (n * 10 + d) ds) as Hle.
  { generalize (n * 10 + d). intros m. clear. revert m. induction ds as [| x ds IH]; intros m; cbn; [lia |].
    specialize (IH (m * 10 + x)). lia. }
  assert (checked_mul limit n 10 = Some (n * 10)) as -> by (apply checked_mul_Some; lia). cbn.
  assert (checked_add limit (n * 10) d = Some (n * 10 + d)) as -> by (apply checked_add_Some; lia). cbn. by apply IH.
Qed.


(** ** IPv4 addresses are read back *)

Lemma read_octet_display index (b : byte) rest : stops 10 rest →
  read_octet index ((if (index =? 0)%nat then [] else [x2e]) ++ display_number 10 (b2N b) ++ rest) = Some (b, rest).
Proof.
  intros Hs. unfold read_octet, read_separator. pose proof (b2N_lt b) as Hb. destruct (index =? 0)%nat; cbn [app read_given_char].
  all: rewrite ?bool_decide_eq_true_2 by done; cbn [mbind option_bind].
  all: rewrite read_number_display by (first [by left | done | lia]); cbn; by rewrite N2b_b2N.
Qed.

Lemma read_ipv4_display a rest : stops 10 rest → read_ipv4_addr (display_ipv4 a ++ rest) = Some (a, rest).
Proof.
  intros Hs. destruct a as [a b c d]. unfold read_ipv4_addr, display_ipv4. cbn [octet_1 octet_2 octet_3 octet_4].
  rewrite <- !app_assoc. pose proof (read_octet_display 0 a) as H0. cbn [Nat.eqb app] in H0. rewrite H0 by done.
  cbn [mbind option_bind]. pose proof (read_octet_display 1 b) as H1. cbn [Nat.eqb] in H1. rewrite H1 by done.
  cbn [mbind option_bind]. pose proof (read_octet_display 2 c) as H2. cbn [Nat.eqb] in H2. rewrite H2 by done.
  cbn [mbind option_bind]. pose proof (read_octet_display 3 d) as H3. cbn [Nat.eqb] in H3. by rewrite H3.
Qed.

(** Text whose first character after its hexadecimal digits is no dot. *)
Fixpoint undotted (l : bytes) : bool :=
  match l with
  | [] => true
  | b :: l => match to_digit 16 b with Some _ => undotted l | None => bool_decide (b ≠ x2e) end
  end.

Lemma to_digit_16 b d : to_digit 10 b = Some d → to_digit 16 b = Some d.
Proof.
  unfold to_digit. destruct (if in_range 48 57 b then _ else _) as [v |]; cbn; [| done].
  destruct (N.ltb_spec v 10); [| done]. by rewrite (proj2 (N.ltb_lt _ _)) by lia.
Qed.
Lemma undotted_digits ds rest : Forall (λ d, d < 16) ds → undotted ((digit_char <$> ds) ++ rest) = undotted rest.
Proof.
  induction 1 as [| d ds Hd _ IH]; [done |]. cbn. by destruct (to_digit_char 16 d (or_intror eq_refl) Hd) as (-> & _).
Qed.
Lemma read_digits_undotted max count r l c n l' :
  read_digits 10 max count r l = Some (c, n, l') → undotted l = true → undotted l' = true.
Proof.
  revert count r. induction l as [| b l IH]; intros count r; [by intros [= _ _ <-] |]. cbn [read_digits].
  destruct (to_digit 10 b) as [d |] eqn:E; [| by intros [= _ _ <-]].
  destruct (max <? count + 1); [done |]. intros H. cbn [undotted]. rewrite (to_digit_16 _ _ E). by eapply IH.
Qed.
Lemma read_octet_undotted l b l' : read_octet 0 l = Some (b, l') → undotted l = true → undotted l' = true.
Proof.
  unfold read_octet, read_separator, read_number. cbn [Nat.eqb].
  destruct (read_digits 10 3 0 0 l) as [[[c n] rest] |] eqn:E; cbn [mbind option_bind]; [| done].
  destruct (c =? 0); [done |]. destruct (_ && _ && _); [done |]. destruct (n <? 256); [| done].
  intros [= _ <-]. by eapply read_digits_undotted.
Qed.
Lemma read_separated_undotted l : undotted l = true → read_octet 1 l = None.
Proof.
  unfold read_octet, read_separator. destruct l as [| b l]; [done |]. cbn.
  destruct (decide (b = x2e)) as [-> |]; [done |]. intros _. by rewrite (bool_decide_eq_false_2 (b = x2e)).
Qed.
Lemma read_ipv4_undotted l : undotted l = true → read_ipv4_addr l = None.
Proof.
  intros Hu. unfold read_ipv4_addr. destruct (read_octet 0 l) as [[b rest] |] eqn:E; [| done].
  cbn [mbind option_bind]. by rewrite read_separated_undotted by by eapply read_octet_undotted.
Qed.

(** ** IPv6 addresses are read back *)

Lemma display_number_undotted n rest : n < 65536 → undotted (display_number 16 n ++ rest) = undotted rest.
Proof.
  intros Hn. apply undotted_digits.
  assert (n < 16 ^ N.of_nat 20) as H by (etrans; [exact Hn | reflexivity]).
  by destruct (digits_of_spec 20 16 n ltac:(lia) H ltac:(lia)) as (_ & ? & _).
Qed.

Definition tail_groups (gs : list N) : bytes := concat (map (λ g, x3a :: display_number 16 g) gs).
Lemma display_groups_cons g gs : display_groups (g :: gs) = display_number 16 g ++ tail_groups gs.
Proof.
  revert g. induction gs as [| h gs IH]; intros g; [cbn; by rewrite app_nil_r |].
  cbn [display_groups]. change (match gs with [] => _ | _ :: _ => _ end) with (display_groups (h :: gs)). by rewrite IH.
Qed.

(** What may follow an address: nothing, or what closes it in the text of a
    socket address; and what may follow the groups: that, or the two colons. *)
Definition closes (rest : bytes) : Prop := rest = [] ∨ ∃ t, rest = x5d :: t ∨ rest = x25 :: t.
Definition ends (rest : bytes) : Prop := closes rest ∨ ∃ t, rest = x3a :: x3a :: t.
Ltac ends_cases He := destruct He as [[-> | [? [-> | ->]]] | [? ->]].
Lemma closes_stops rest : closes rest → stops 10 rest ∧ undotted rest = true.
Proof. by intros [-> | [t [-> | ->]]]. Qed.
Lemma ends_tail gs rest : ends rest → stops 16 (tail_groups gs ++ rest) ∧ undotted (tail_groups gs ++ rest) = true.
Proof. intros He. destruct gs as [| g gs]; [| done]. by ends_cases He. Qed.

Lemma read_groups_ends left index rest : ends rest → read_groups left index rest = ([], false, rest).
Proof.
  intros He. destruct left as [| left]; [done |]. cbn [read_groups].
  assert (read_separator x3a index (read_number 16 4 true 65536) rest = None) as ->.
  { unfold read_separator. ends_cases He; by destruct (index =? 0)%nat. }
  assert (read_separator x3a index read_ipv4_addr rest = None) as ->.
  { unfold read_separator. ends_cases He; by destruct (index =? 0)%nat. }
  by destruct (1 <? S left)%nat.
Qed.

Lemma read_groups_tail gs left index rest :
  Forall (λ g, g < 65536) gs → (length gs ≤ left)%nat → (0 < index)%nat → ends rest →
  read_groups left index (tail_groups gs ++ rest) = (gs, false, rest).
Proof.
  intros Hg. revert left index. induction Hg as [| g gs Hg _ IH]; intros left index Hl Hi He; [by apply read_groups_ends |].
  cbn [length] in Hl. destruct left as [| left]; [lia |]. cbn [read_groups]. unfold read_separator.
  destruct index as [| index]; [lia |]. cbn [Nat.eqb tail_groups map concat app]. rewrite <- app_assoc.
  fold (tail_groups gs). destruct (ends_tail gs rest He) as [Hs Hu]. cbn [read_given_char].
  rewrite bool_decide_eq_true_2 by done. cbn [mbind option_bind].
  rewrite read_ipv4_undotted by by rewrite display_number_undotted.
  rewrite read_number_display by (first [by right | done]).
  rewrite IH by (done || lia). by destruct (1 <? S left)%nat.
Qed.
Lemma read_groups_display gs left rest :
  Forall (λ g, g < 65536) gs → (length gs ≤ left)%nat → ends rest →
  read_groups left 0 (display_groups gs ++ rest) = (gs, false, rest).
Proof.
  intros Hg Hl He. destruct Hg as [| g gs Hg Hgs]; [by apply read_groups_ends |].
  rewrite display_groups_cons, <- app_assoc. cbn [length] in Hl. destruct left as [| left]; [lia |].
  destruct (ends_tail gs rest He) as [Hs Hu]. cbn [read_groups]. unfold read_separator. cbn [Nat.eqb].
  rewrite read_ipv4_undotted by by rewrite display_number_undotted.
  rewrite read_number_display by (first [by right | done]).
  rewrite read_groups_tail by (done || lia). by destruct (1 <? S left)%nat.
Qed.
Lemma display_groups_undotted gs rest : Forall (λ g, g < 65536) gs → ends rest →
  undotted (display_groups gs ++ rest) = true.
Proof.
  intros [| g gs' Hg Hgs] He; [by destruct (ends_tail [] rest He) |].
  rewrite display_groups_cons, <- app_assoc, display_number_undotted by done. by destruct (ends_tail gs' rest He).
Qed.

(** The span that is left out holds zeros only. *)
Definition zeros (w : list N) (span : nat * nat) : Prop :=
  ∀ j, (span.1 ≤ j < span.1 + span.2)%nat → w !! j = Some 0.
Lemma zero_span_zeros w i longest current s :
  s = drop i w → zeros w longest → zeros w current → (current.2 = 0 ∨ current.1 + current.2 = i)%nat →
  zeros w (zero_span i longest current s).
Proof.
  revert i longest current. induction s as [| g s IH]; intros i longest current Hs Hl Hc Hi; [done |].
  assert (w !! i = Some g) as Hg by by rewrite <- (Nat.add_0_r i), <- lookup_drop, <- Hs.
  assert (s = drop (S i) w) as Hs' by by rewrite <- Nat.add_1_r, <- drop_drop, <- Hs.
  cbn [zero_span]. destruct (N.eqb_spec g 0) as [-> | _].
  - set (c := (_, _)). assert (zeros w c) as Hz.
    { intros j. unfold c. cbn. destruct (Nat.eqb_spec current.2 0) as [E | E]; intros Hj.
      - replace j with i by lia. done.
      - destruct (decide (j = i)) as [-> | Hne]; [done |]. apply Hc. lia. }
    apply IH; [done | by destruct (_ <? _)%nat | done |]. right. unfold c. cbn.
    destruct (Nat.eqb_spec current.2 0); lia.
  - apply IH; [done.. | intros j Hj; cbn in Hj; lia | by left].
Qed.
Lemma zeros_split w a n : zeros w (a, n) → (0 < n)%nat →
  w = take a w ++ replicate n 0 ++ drop (a + n) w ∧ (a + n ≤ length w)%nat.
Proof.
  intros Hz Hn. assert (a + n ≤ length w)%nat as Hl.
  { pose proof (Hz (a + n - 1)%nat ltac:(cbn; lia)) as H%lookup_lt_Some. lia. }
  split; [| done]. rewrite <- (take_drop a w) at 1. f_equal. rewrite <- (take_drop n (drop a w)). rewrite drop_drop. f_equal.
  symmetry. apply replicate_as_Forall. split; [rewrite length_take, length_drop; lia |].
  apply Forall_lookup. intros i x. rewrite lookup_take_Some, lookup_drop. intros [Hx Hi].
  rewrite Hz in Hx by (cbn; lia). by injection Hx as <-.
Qed.

Lemma to_ipv4_mapped_Some s v4 : to_ipv4_mapped s = Some v4 → Forall (λ g, g < 65536) s →
  s = [0; 0; 0; 0; 0; 65535; from_be [octet_1 v4; octet_2 v4]; from_be [octet_3 v4; octet_4 v4]].
Proof.
  unfold to_ipv4_mapped. intros H Hs.
  repeat match type of H with
  | match ?x with _ => _ end = _ => destruct x; try discriminate H
  end.
  injection H as <-. cbn [octet_1 octet_2 octet_3 octet_4].
  do 6 apply Forall_cons in Hs as [_ Hs]. apply Forall_cons in Hs as [H1 Hs]. apply Forall_cons in Hs as [H2 _].
  assert (∀ g, g < 65536 → from_be [byte_at 0 (to_be 2 g); byte_at 1 (to_be 2 g)] = g) as Hb.
  { intros g Hg. etrans; [| apply (from_to_be_small 2 g Hg)]. f_equal. }
  by rewrite !Hb.
Qed.

Lemma read_groups_mapped left g v4 rest : (2 < left)%nat → g < 65536 → closes rest →
  read_groups left 0 (display_number 16 g ++ x3a :: display_ipv4 v4 ++ rest) =
  ([g; from_be [octet_1 v4; octet_2 v4]; from_be [octet_3 v4; octet_4 v4]], true, rest).
Proof.
  intros Hl Hg Hc. pose proof (read_ipv4_display v4 rest (proj1 (closes_stops _ Hc))) as H.
  destruct left as [| [| left]]; [lia.. |]. cbn [read_groups]. unfold read_separator. cbn [Nat.eqb Nat.add].
  rewrite read_ipv4_undotted by by rewrite display_number_undotted.
  rewrite read_number_display by (first [by right | done]). cbn [Nat.ltb Nat.leb].
  destruct left as [| left]; [lia |]. cbn [Nat.leb read_given_char]. rewrite bool_decide_eq_true_2 by done.
  cbn [mbind option_bind]. by rewrite H.
Qed.

Lemma read_ipv6_display s rest : ip_wf (IpV6 s) → closes rest →
  read_ipv6_addr (display_ipv6 s ++ rest) = Some (s, rest) ∧ undotted (display_ipv6 s ++ rest) = true.
Proof.
  intros [Hlen Hs] Hc. unfold display_ipv6.
  destruct (to_ipv4_mapped s) as [v4 |] eqn:Em.
  - apply to_ipv4_mapped_Some in Em as ->; [| done].
    change ((lit "::ffff:" ++ display_ipv4 v4) ++ rest)
      with (x3a :: x3a :: display_number 16 65535 ++ x3a :: display_ipv4 v4 ++ rest).
    split; [| done]. unfold read_ipv6_addr.
    rewrite read_groups_ends by (right; by eexists). cbn [length Nat.eqb read_given_char].
    do 2 (rewrite bool_decide_eq_true_2 by done; cbn [mbind option_bind read_given_char]).
    rewrite read_groups_mapped by (reflexivity || (cbn; lia) || done). reflexivity.
  - destruct (zero_span 0 (0, 0)%nat (0, 0)%nat s) as [a n] eqn:Ez.
    assert (zeros s (a, n)) as Hz.
    { rewrite <- Ez. apply zero_span_zeros; [done | | | by left]; intros j Hj; cbn in Hj; lia. }
    destruct (Nat.ltb_spec 1 n) as [Hn | Hn].
    + destruct (zeros_split _ _ _ Hz ltac:(lia)) as [Hsplit Hb].
      set (h := take a s) in *. set (t := drop (a + n) s) in *.
      assert (Forall (λ g, g < 65536) h ∧ Forall (λ g, g < 65536) t) as [Hh Ht] by by split; [apply Forall_take | apply Forall_drop].
      assert (length h = a ∧ length t = 8 - a - n)%nat as [Lh Lt].
      { unfold h, t. rewrite length_take, length_drop. lia. }
      rewrite <- !app_assoc. assert (ends ([x3a; x3a] ++ display_groups t ++ rest)) as He by (right; by eexists).
      split; [| by apply display_groups_undotted].
      unfold read_ipv6_addr. rewrite read_groups_display by (done || lia).
      rewrite (proj2 (Nat.eqb_neq _ _)) by lia. cbn [app read_given_char].
      do 2 (rewrite bool_decide_eq_true_2 by done; cbn [mbind option_bind read_given_char]).
      rewrite (read_groups_display t (8 - (length h + 1)) rest Ht ltac:(lia) (or_introl Hc)).
      replace (8 - length h - length t)%nat with n by lia. by rewrite <- Hsplit.
    + split; [| apply display_groups_undotted; [done | by left]].
      unfold read_ipv6_addr. rewrite read_groups_display by (done || lia || by left). by rewrite Hlen.
Qed.

(** Every address is read back from its text. *)
Lemma parse_display_ip ip : ip_wf ip → parse_ip (display_ip ip) = Some ip.
Proof.
  intros Hw. unfold parse_ip. destruct ip as [a | s].
  - pose proof (read_ipv4_display a [] I) as H. rewrite app_nil_r in H. cbn [display_ip]. unfold read_ip_addr.
    by rewrite H.
  - cbn [display_ip]. destruct (read_ipv6_display s [] Hw (or_introl eq_refl)) as [H Hu]. rewrite app_nil_r in H, Hu.
    unfold read_ip_addr. by rewrite read_ipv4_undotted, H.
Qed.

(** What is read is an address of the type. *)
Lemma read_number_lt radix max allow limit l n l' :
  read_number radix max allow limit l = Some (n, l') → n < limit.
Proof.
  unfold read_number. destruct (read_digits _ _ _ _ _) as [[[c r] rest] |]; cbn [mbind option_bind]; [| done].
  destruct (c =? 0); [done |]. destruct (_ && _ && _); [done |]. destruct (N.ltb_spec r limit); [| done].
  by intros [= <- _].
Qed.
Lemma read_groups_wf left index l gs v4 l' : read_groups left index l = (gs, v4, l') →
  (length gs ≤ left)%nat ∧ Forall (λ g, g < 65536) gs.
Proof.
  revert index l gs. induction left as [| left IH]; intros index l gs; [by intros [= <- _ _] |]. cbn [read_groups].
  destruct (if (1 <? S left)%nat then _ else None) as [[a rest] |] eqn:E.
  - destruct (Nat.ltb_spec 1 (S left)); [| done]. intros [= <- _ _]. cbn. split; [lia |].
    apply Forall_cons_2; [apply (from_be_bound [_; _]) |]. apply Forall_cons_2; [apply (from_be_bound [_; _]) | done].
  - unfold read_separator.
    destruct (if (index =? 0)%nat then _ else _) as [[g rest] |] eqn:Eg; [| by intros [= <- _ _]; split; [cbn; lia |]].
    assert (g < 65536) as Hg.
    { destruct (index =? 0)%nat; [by eapply read_number_lt |].
      destruct (read_given_char x3a l) as [[[] k] |]; cbn [mbind option_bind] in Eg; [| done]. by eapply read_number_lt. }
    destruct (read_groups left (index + 1) rest) as [[gs' b] rest'] eqn:Er. intros [= <- -> ->].
    apply IH in Er as [Hl Hf]. cbn. split; [lia | by constructor].
Qed.
Lemma parse_ip_wf l ip : parse_ip l = Some ip → ip_wf ip.
Proof.
  unfold parse_ip, read_ip_addr. destruct (read_ipv4_addr l) as [[a rest] |].
  - by destruct rest; intros [= <-].
  - unfold read_ipv6_addr. destruct (read_groups 8 0 l) as [[h b] rest] eqn:Eh. apply read_groups_wf in Eh as [Hl Hf].
    destruct (Nat.eqb_spec (length h) 8); cbn [mbind option_bind]; [by destruct rest; intros [= <-] |].
    destruct b; [done |]. do 2 (destruct (read_given_char _ _) as [[[] ?] |]; cbn [mbind option_bind]; [| done]).
    clear rest. destruct (read_groups _ 0 _) as [[t b] rest] eqn:Et. apply read_groups_wf in Et as [Hl' Hf'].
    cbn [mbind option_bind]. destruct rest; [| done]. intros [= <-]. split.
    + rewrite !length_app, length_replicate. lia.
    + apply Forall_app. split; [done |]. apply Forall_app. split; [by apply Forall_replicate | done].
Qed.

(** The characters of an address. *)
Definition address_char (b : byte) : Prop :=
  match to_digit 16 b with Some _ => true | None => bool_decide (b = x2e ∨ b = x3a) end = true.
Lemma address_digit b : is_Some (to_digit 16 b) → address_char b.
Proof. intros [v Hv]. unfold address_char. by rewrite Hv. Qed.
Lemma display_number_chars radix n : radix = 10 ∨ radix = 16 → n < 65536 →
  Forall (λ b, is_Some (to_digit radix b)) (display_number radix n).
Proof.
  intros Hr Hn. apply Forall_fmap. assert (n < radix ^ N.of_nat 20) as H.
  { etrans; [exact Hn |]. by destruct Hr as [-> | ->]. }
  destruct (digits_of_spec 20 radix n ltac:(destruct Hr; lia) H ltac:(lia)) as (_ & Hd & _).
  eapply Forall_impl; [exact Hd |]. intros d Hlt.
  change (is_Some (to_digit radix (digit_char d))). destruct (to_digit_char radix d Hr Hlt) as [-> _]. by eexists.
Qed.
Lemma display_ip_chars ip : ip_wf ip → Forall address_char (display_ip ip).
Proof.
  assert (∀ a, Forall address_char (display_ipv4 a)) as H4.
  { intros [a b c d]. unfold display_ipv4. cbn [octet_1 octet_2 octet_3 octet_4].
    assert (∀ b : byte, Forall address_char (display_number 10 (b2N b))) as Hb.
    { intros x. pose proof (b2N_lt x). eapply Forall_impl; [apply (display_number_chars 10); [by left | lia] |].
      intros y [v Hv]. apply address_digit. exists v. by apply to_digit_16. }
    assert (Forall address_char [x2e]) as Hdot by by apply Forall_singleton.
    rewrite !Forall_app. by split_and!. }
  assert (∀ s, Forall (λ g, g < 65536) s → Forall address_char (display_groups s)) as H6.
  { intros [| g s] Hs; [done |]. rewrite display_groups_cons. apply Forall_cons in Hs as [Hg Hs].
    assert (∀ g, g < 65536 → Forall address_char (display_number 16 g)) as Hn.
    { intros x Hx. eapply Forall_impl; [apply (display_number_chars 16); [by right | done] |]. apply address_digit. }
    apply Forall_app. split; [by apply Hn |]. unfold tail_groups. apply Forall_concat, Forall_map.
    eapply Forall_impl; [exact Hs |]. intros x Hx. cbn. constructor; [done | by apply Hn]. }
  destruct ip as [a | s]; [intros _; apply H4 |]. intros [_ Hs]. cbn [display_ip]. unfold display_ipv6.
  destruct (to_ipv4_mapped s); [apply Forall_app; split; [| apply H4] |].
  - by repeat constructor.
  - destruct (zero_span _ _ _ s) as [a n]. destruct (1 <? n)%nat; [| by apply H6].
    rewrite !Forall_app. split_and!; [by apply H6, Forall_take | | by apply H6, Forall_drop].
    by repeat constructor.
Qed.
