(* ===== verification/Contact.v ===== *)
(** * Contact text

    [src/modules/identity/contact.rs]: an identity and an optional endpoint as
    the text behind a QR code.  The theorem: every contact the format can carry
    is read back from its text, and everything that is read is such a contact. *)

From S2P Require Import Prelude Bytes Json Api IdentityText AddressText.

#[local] Open Scope N_scope.

Record Contact : Type := mkContact {
  expected_id : IdentityId;
  endpoint : option SocketAddr;
}.
#[global] Instance Contact_eq_dec : EqDecision Contact.
Proof. solve_decision. Defined.

(** ** Strings *)

(** [str::split_once] and [str::split] at a character of one byte. *)
Fixpoint split_once (c : byte) (l : bytes) : option (bytes * bytes) :=
  match l with
  | [] => None
  | b :: l => if bool_decide (b = c) then Some ([], l) else '(h, t) ← split_once c l; Some (b :: h, t)
  end.
Fixpoint split (c : byte) (l : bytes) : list bytes :=
  match l with
  | [] => [[]]
  | b :: l =>
    if bool_decide (b = c) then [] :: split c l
    else match split c l with f :: fs => (b :: f) :: fs | [] => [[b]] end
  end.
(** [str::replace] of a character by a text. *)
Definition replace_all (c : byte) (text l : bytes) : bytes :=
  concat (map (λ b, if bool_decide (b = c) then text else [b]) l).
Definition is_ascii_digit (b : byte) : bool := in_range 48 57 b.
Definition is_ascii_alphanumeric (b : byte) : bool :=
  is_ascii_digit b || in_range 65 90 b || in_range 97 122 b.

(** ** Formatting *)

Definition format (contact : Contact) : result IdentityError bytes :=
  let output := IdentityText.format (expected_id contact) in
  match endpoint contact with
  | None => Ok output
  | Some endpoint =>
    if addr_port endpoint =? 0 then Err IdInvalidInput else
    if match endpoint with
       | SocketAddrV6 _ _ flowinfo scope_id => negb (scope_id =? 0) || negb (flowinfo =? 0)
       | SocketAddrV4 _ _ => false
       end then Err IdInvalidInput else
    Ok (output ++ lit "?address=" ++ replace_all x3a (lit "%3A") (display_ip (addr_ip endpoint))
          ++ lit "&port=" ++ display_number 10 (addr_port endpoint))
  end.

(** ** Parsing *)

Definition hex_digit (b : byte) : result IdentityError N :=
  if in_range 48 57 b then Ok (b2N b - 48)
  else if in_range 97 102 b then Ok (b2N b - 97 + 10)
  else if in_range 65 70 b then Ok (b2N b - 65 + 10)
  else Err IdInvalidInput.

(** The loop of [decode_address]. *)
Fixpoint decode_bytes (decoded l : bytes) : result IdentityError bytes :=
  match l with
  | [] => Ok decoded
  | x25 :: l =>
    match l with
    | a :: b :: l =>
      hi ← hex_digit a;
      lo ← hex_digit b;
      decode_bytes (decoded ++ [N2b (N.lor (N.shiftl hi 4) lo)]) l
    | _ => Err IdInvalidInput
    end
  | b :: l =>
    if negb (is_ascii_alphanumeric b) && negb (bool_decide (b ∈ lit "-._~")) then Err IdInvalidInput
    else decode_bytes (decoded ++ [b]) l
  end.
Definition decode_address (input : bytes) : result IdentityError IpAddr :=
  decoded ← decode_bytes [] input;
  if negb (from_utf8 decoded) then Err IdInvalidInput else ok_or (parse_ip decoded) IdInvalidInput.

(** One round of the loop over the fields. *)
Definition read_field (s : option IpAddr * option N) (field : bytes)
    : result IdentityError (option IpAddr * option N) :=
  let '(address, port) := s in
  '(name, value) ← ok_or (split_once x3d field) IdInvalidInput;
  if bool_decide (name = lit "address") && bool_decide (address = None) then
    a ← decode_address value; Ok (Some a, port)
  else if bool_decide (name = lit "port") && bool_decide (port = None) then
    if is_empty value || bool_decide (head value = Some x30) || negb (forallb is_ascii_digit value)
    then Err IdInvalidInput
    else p ← ok_or (parse_decimal u16_limit value) IdInvalidInput; Ok (address, Some p)
  else Err IdInvalidInput.
Fixpoint read_fields (s : option IpAddr * option N) (fields : list bytes)
    : result IdentityError (option IpAddr * option N) :=
  match fields with
  | [] => Ok s
  | field :: fields => s ← read_field s field; read_fields s fields
  end.

Definition parse (input : bytes) (maximum : N) : result IdentityError Contact :=
  if maximum <? len input then Err IdResourceLimit else
  if bool_decide (x23 ∈ input) then Err IdInvalidInput else
  let '(id, query) := match split_once x3f input with
                      | Some (id, query) => (id, Some query)
                      | None => (input, None)
                      end in
  expected_id ← IdentityText.parse id;
  match query with
  | None => Ok (mkContact expected_id None)
  | Some query =>
    '(address, port) ← read_fields (None, None) (split x26 query);
    a ← ok_or address IdInvalidInput;
    p ← ok_or port IdInvalidInput;
    Ok (mkContact expected_id (Some (SocketAddr_new a p)))
  end.

(** ** The contacts of the type *)

(** What the source's types guarantee of any contact. *)
Definition contact_typed (c : Contact) : Prop :=
  length (expected_id c) = 32%nat ∧
  ∀ a, endpoint c = Some a → ip_wf (addr_ip a) ∧ addr_port a < u16_limit.
(** Contacts the text can carry: a port, and no scope or flow. *)
Definition carried (c : Contact) : Prop :=
  ∀ a, endpoint c = Some a → addr_port a ≠ 0 ∧ a = SocketAddr_new (addr_ip a) (addr_port a).

Example contact_examples :
  let c ip := mkContact (replicate 32 x07) (Some (SocketAddr_new ip 65535)) in
  let p := lit "cr2se:A4DQOBYHA4DQOBYHA4DQOBYHA4DQOBYHA4DQOBYHA4DQOBYHA4DQ" in
  let v6 := IpV6 [8193; 3512; 0; 0; 0; 0; 0; 1] in
  format (c v6) = Ok (p ++ lit "?address=2001%3Adb8%3A%3A1&port=65535") ∧
  parse (p ++ lit "?port=65535&address=2001%3adb8%3A0%3A0%3A0::1") 256 = Err IdInvalidInput ∧
  parse (p ++ lit "?port=65535&address=2001%3adb8%3A0%3A0%3A%3A1") 256 = Ok (c v6) ∧
  map (λ q, parse (p ++ lit q) 256)
    ["?"; "?address=127.0.0.1"; "?address=127.0.0.1&port=0"; "?address=127.0.0.1&port=65536";
     "?address=127.0.0.1&port=+1"; "?address=127.0.0.1&port=1&port=2"; "?address=%&port=1";
     "?address=%FF&port=1"; "?address=%3A%3A1&port=1#f"; "?address=127.0.0.1&port=1&"]%string
  = replicate 10 (Err IdInvalidInput).
Proof. vm_compute. done. Qed.

(** ** Splitting what was joined *)

Lemma split_once_first c l k : c ∉ l → split_once c (l ++ c :: k) = Some (l, k).
Proof.
  induction l as [| b l IH]; cbn; [by rewrite bool_decide_eq_true_2 |]. rewrite not_elem_of_cons.
  intros [Hb Hl]. by rewrite bool_decide_eq_false_2, IH by congruence.
Qed.
Lemma split_once_None c l : c ∉ l → split_once c l = None.
Proof.
  induction l as [| b l IH]; cbn; [done |]. rewrite not_elem_of_cons.
  intros [Hb Hl]. by rewrite bool_decide_eq_false_2, IH by congruence.
Qed.
Lemma split_None c l : c ∉ l → split c l = [l].
Proof.
  induction l as [| b l IH]; cbn; [done |]. rewrite not_elem_of_cons.
  intros [Hb Hl]. by rewrite bool_decide_eq_false_2, IH by congruence.
Qed.
Lemma split_app c l k : c ∉ l → split c (l ++ c :: k) = l :: split c k.
Proof.
  induction l as [| b l IH]; cbn; [by rewrite bool_decide_eq_true_2 |]. rewrite not_elem_of_cons.
  intros [Hb Hl]. by rewrite bool_decide_eq_false_2, IH by congruence.
Qed.

(** Decide a fact of literal text. *)
#[local] Ltac literal := apply (bool_decide_eq_true_1 _); reflexivity.

(** Text without the characters that separate the fields. *)
Definition plain (b : byte) : Prop := bool_decide (b ∉ lit "?#&=") = true.
Lemma plain_not_elem c l : Forall plain l → c ∈ lit "?#&=" → c ∉ l.
Proof. rewrite Forall_forall. intros Hl Hc Hin. by apply Hl, bool_decide_eq_true in Hin. Qed.

Lemma format_plain id : length id = 32%nat → Forall plain (IdentityText.format id).
Proof.
  intros Hid. destruct (format_spec id Hid) as (vs & -> & Hvs & _). apply Forall_app. split; [by repeat constructor |].
  apply Forall_fmap. eapply Forall_impl; [exact Hvs |]. intros v Hv%alphabet_value.
  change (plain (alphabet v)). destruct (alphabet v); done || discriminate Hv.
Qed.
Lemma digits_plain l : Forall (λ b, is_Some (to_digit 10 b)) l → Forall plain l.
Proof. intros H. eapply Forall_impl; [exact H |]. intros b [v Hv]. destruct b; done || discriminate Hv. Qed.
Lemma escaped_plain l : Forall address_char l → Forall plain (replace_all x3a (lit "%3A") l).
Proof.
  intros H. apply Forall_concat, Forall_map. eapply Forall_impl; [exact H |]. intros b Hb.
  destruct b; first [by repeat constructor | discriminate Hb].
Qed.

(** ** The address and the port are read back *)

Lemma decode_bytes_escaped acc l : Forall address_char l →
  decode_bytes acc (replace_all x3a (lit "%3A") l) = Ok (acc ++ l).
Proof.
  intros H. revert acc. induction H as [| b l Hb _ IH]; intros acc; [by rewrite app_nil_r |].
  change (b :: l) with ([b] ++ l) at 2. rewrite app_assoc, <- IH. unfold replace_all. cbn [map concat].
  destruct b; first [discriminate Hb | reflexivity].
Qed.
Lemma decode_address_display ip : ip_wf ip →
  decode_address (replace_all x3a (lit "%3A") (display_ip ip)) = Ok ip.
Proof.
  intros Hw. pose proof (display_ip_chars ip Hw) as Hc. unfold decode_address.
  rewrite decode_bytes_escaped by done. cbn [mbind result_bind app]. rewrite from_utf8_ascii, parse_display_ip; [done.. |].
  eapply Forall_impl; [exact Hc |]. intros b Hb. destruct b; first [done | discriminate Hb].
Qed.

Lemma decimal_digits n : n < u16_limit →
  forallb is_ascii_digit (display_number 10 n) = true ∧ Forall plain (display_number 10 n) ∧
  parse_decimal u16_limit (display_number 10 n) = Some n ∧
  (n ≠ 0 → is_empty (display_number 10 n) = false ∧ head (display_number 10 n) ≠ Some x30).
Proof.
  intros Hn. pose proof (display_number_chars 10 n (or_introl eq_refl) Hn) as Hc.
  split; [| split]; [| by apply digits_plain |].
  { apply forallb_forall. intros b Hb%list_elem_of_In. rewrite Forall_forall in Hc. destruct (Hc b Hb) as [v Hv].
    destruct b; done || discriminate Hv. }
  unfold display_number in *.
  destruct (digits_of_spec 20 10 n ltac:(lia) ltac:(etrans; [exact Hn | done]) ltac:(lia)) as (Hd & Hall & Hlen & Hhead & _).
  set (ds := digits_of 20 10 n) in *. clearbody ds. destruct ds as [| d ds]; [cbn in Hlen; lia |]. split.
  - unfold digits in Hd. rewrite <- Hd in Hn |- *. rewrite <- (number_value_digits u16_limit (d :: ds) 0 Hall Hn).
    apply Forall_cons in Hall as [Hd0 _]. destruct (to_digit_char 10 d (or_introl eq_refl) Hd0) as (Hv & _ & _).
    cbn [fmap list_fmap]. destruct (digit_char d); discriminate Hv || done.
  - intros Hz. split; [done |]. cbn. intros [= E]. apply Forall_cons in Hall as [Hd0 _].
    destruct (to_digit_char 10 d (or_introl eq_refl) Hd0) as (_ & _ & H0). specialize (H0 E). subst d.
    specialize (Hhead eq_refl). destruct ds; [| done]. unfold digits in Hd. cbn in Hd. lia.
Qed.

(** ** Formatting *)

Definition endpoint_text (a : SocketAddr) : bytes :=
  lit "?address=" ++ replace_all x3a (lit "%3A") (display_ip (addr_ip a)) ++ lit "&port="
    ++ display_number 10 (addr_port a).
(** Formatting succeeds exactly for what the text can carry. *)
Lemma format_ok c t : format c = Ok t ↔
  carried c ∧ t = IdentityText.format (expected_id c) ++ default [] (endpoint_text <$> endpoint c).
Proof.
  destruct c as [id [a |]]; unfold format, carried; cbn [expected_id endpoint].
  2: { cbn. rewrite app_nil_r. split; [by intros [= <-] | by intros [_ ->]]. }
  assert ((addr_port a =? 0) || match a with
    | SocketAddrV6 _ _ flowinfo scope_id => negb (scope_id =? 0) || negb (flowinfo =? 0)
    | SocketAddrV4 _ _ => false
    end = false ↔ addr_port a ≠ 0 ∧ a = SocketAddr_new (addr_ip a) (addr_port a)) as Hc.
  { rewrite orb_false_iff, N.eqb_neq. destruct a as [ip p | ip p fl sc]; cbn; [naive_solver |].
    rewrite orb_false_iff, !negb_false_iff, !N.eqb_eq.
    naive_solver. }
  destruct (addr_port a =? 0); cbn [orb] in Hc |- *.
  { split; [done |]. intros [H _]. by specialize (proj2 Hc (H a eq_refl)). }
  destruct (match a with SocketAddrV4 _ _ => _ | _ => _ end).
  { split; [done |]. intros [H _]. by specialize (proj2 Hc (H a eq_refl)). }
  cbn [fmap option_fmap option_map default]. split.
  - intros [= <-]. split; [intros x [= <-]; by apply Hc | done].
  - by intros [_ ->].
Qed.

Lemma read_fields_display ip p : ip_wf ip → p < u16_limit → p ≠ 0 →
  read_fields (None, None) (split x26 (lit "address=" ++ replace_all x3a (lit "%3A") (display_ip ip)
    ++ lit "&port=" ++ display_number 10 p)) = Ok (Some ip, Some p).
Proof.
  intros Hip Hp Hz. destruct (decimal_digits p Hp) as (H1 & H2 & H3 & H4). destruct (H4 Hz) as [H5 H6].
  set (a := replace_all _ _ _). assert (Forall plain a) as Ha by by apply escaped_plain, display_ip_chars.
  rewrite app_assoc. change (lit "&port=" ++ ?x) with (x26 :: lit "port=" ++ x).
  rewrite split_app.
  2: { rewrite not_elem_of_app. split; [literal |]. by apply plain_not_elem; [| literal]. }
  rewrite split_None.
  2: { rewrite not_elem_of_app. split; [literal |]. by apply plain_not_elem; [| literal]. }
  cbn [read_fields]. unfold read_field. change (lit "address=" ++ a) with (lit "address" ++ x3d :: a).
  rewrite split_once_first by literal. cbn [ok_or mbind result_bind].
  rewrite !bool_decide_eq_true_2 by done. cbn [andb]. unfold a. rewrite decode_address_display by done.
  cbn [mbind result_bind].
  change (lit "port=" ++ display_number 10 p) with (lit "port" ++ x3d :: display_number 10 p).
  rewrite split_once_first by literal. cbn [ok_or mbind result_bind].
  rewrite bool_decide_eq_false_2, (bool_decide_eq_true_2 (lit "port" = _)) by done. cbn [andb].
  rewrite bool_decide_eq_true_2 by done. rewrite H5, H1, H3, bool_decide_eq_false_2 by done. done.
Qed.

Lemma parse_format_id id : length id = 32%nat → IdentityText.parse (IdentityText.format id) = Ok id.
Proof.
  intros Hid. apply identity_text_exact. split; [done |]. destruct (format_spec id Hid) as (vs & -> & Hvs & _).
  unfold canonical. change (drop 6 (ID_PREFIX ++ ?l)) with l. change (take 6 (ID_PREFIX ++ ?l)) with ID_PREFIX. f_equal.
  apply symbols_upper; [done |]. apply Forall2_fmap_l, Forall_Forall2_diag.
  eapply Forall_impl; [exact Hvs |]. intros v. apply alphabet_value.
Qed.

(** The text has no fragment, and its first question mark ends the identity. *)
Lemma parse_format c t m : contact_typed c → format c = Ok t →
  parse t m = if m <? len t then Err IdResourceLimit else Ok c.
Proof.
  intros [Hid Ha] [Hc ->]%format_ok. destruct c as [id e]. cbn [expected_id endpoint] in *.
  pose proof (format_plain id Hid) as Hp. unfold parse. destruct (m <? _); [done |].
  destruct e as [a |]; cbn [fmap option_fmap option_map from_option Datatypes.id].
  - destruct (Ha a eq_refl) as [Hip Hport]. destruct (Hc a eq_refl) as [Hz ->].
    set (ip := addr_ip a) in *. set (p := addr_port a) in *.
    assert (addr_ip (SocketAddr_new ip p) = ip ∧ addr_port (SocketAddr_new ip p) = p) as [Hi Hq] by by destruct ip.
    unfold endpoint_text. rewrite Hi, Hq. destruct (decimal_digits p Hport) as (_ & Hd & _).
    pose proof (escaped_plain _ (display_ip_chars ip Hip)) as He. rewrite bool_decide_eq_false_2.
    2: { rewrite !not_elem_of_app. split_and!; first [literal | by apply plain_not_elem; [| literal]]. }
    change (lit "?address=" ++ ?x) with (x3f :: lit "address=" ++ x).
    rewrite split_once_first by by apply plain_not_elem; [| literal]. rewrite parse_format_id by done.
    cbn [mbind result_bind]. by rewrite read_fields_display.
  - rewrite app_nil_r, bool_decide_eq_false_2 by by apply plain_not_elem; [| literal].
    rewrite split_once_None by by apply plain_not_elem; [| literal]. by rewrite parse_format_id.
Qed.

(** ** What is read can be carried *)

Definition sane (s : option IpAddr * option N) : Prop :=
  (∀ ip, s.1 = Some ip → ip_wf ip) ∧ ∀ p, s.2 = Some p → p ≠ 0 ∧ p < u16_limit.

Lemma number_value_bounds limit n l r : n < limit → number_value limit n l = Some r → n ≤ r ∧ r < limit.
Proof.
  revert n. induction l as [| b l IH]; intros n Hn; cbn [number_value]; [by intros [= <-] |].
  destruct (to_digit 10 b) as [d |]; cbn [mbind option_bind]; [| done].
  destruct (checked_mul limit n 10) as [k |] eqn:E1; cbn [mbind option_bind]; [| done].
  destruct (checked_add limit k d) as [j |] eqn:E2; cbn [mbind option_bind]; [| done].
  apply checked_mul_Some in E1 as [-> _]. apply checked_add_Some in E2 as [-> Hj]. intros H.
  apply IH in H as [H1 H2]; [lia | done].
Qed.
Lemma parse_decimal_bounds l p : is_empty l = false → forallb is_ascii_digit l = true → head l ≠ Some x30 →
  parse_decimal u16_limit l = Some p → p ≠ 0 ∧ p < u16_limit.
Proof.
  destruct l as [| b l]; [done |]. cbn [forallb head]. intros _ [Hb _]%andb_true_iff Hz H.
  assert (number_value u16_limit 0 (b :: l) = Some p) as Hv by (destruct b; discriminate Hb || exact H).
  cbn [number_value] in Hv. assert (∃ d, to_digit 10 b = Some d ∧ d ≠ 0 ∧ d < 10) as (d & Hd & Hd0 & Hd1).
  { destruct b; first [discriminate Hb | done | eexists; split; [vm_compute; reflexivity | lia]]. }
  rewrite Hd in Hv. cbn [mbind option_bind] in Hv. change (checked_mul u16_limit 0 10) with (Some 0) in Hv.
  cbn [mbind option_bind] in Hv. destruct (checked_add u16_limit 0 d) as [j |] eqn:E; [| done].
  apply checked_add_Some in E as [-> Hj]. cbn [mbind option_bind] in Hv. apply number_value_bounds in Hv; [lia | done].
Qed.

Lemma read_field_sane s f s' : read_field s f = Ok s' → sane s → sane s'.
Proof.
  destruct s as [address port]. unfold read_field. intros H [Ha Hp]. cbn in Ha, Hp.
  apply result_bind_Ok_inv in H as ([name value] & _ & H).
  destruct (bool_decide (name = lit "address") && _).
  - apply result_bind_Ok_inv in H as (ip & Hd & [= <-]). split; [| done]. intros ip' [= <-]. unfold decode_address in Hd.
    apply result_bind_Ok_inv in Hd as (l & _ & Hd). destruct (negb _); [done |]. by apply ok_or_Ok, parse_ip_wf in Hd.
  - destruct (bool_decide (name = lit "port") && _); [| done].
    destruct (is_empty value || _ || _) eqn:Eb; [done |].
    apply orb_false_iff in Eb as [[E1 E2%bool_decide_eq_false]%orb_false_iff E3%negb_false_iff].
    apply result_bind_Ok_inv in H as (p & Hd%ok_or_Ok & [= <-]). split; [done |]. intros p' [= <-].
    by eapply parse_decimal_bounds.
Qed.
Lemma read_fields_sane fs s s' : read_fields s fs = Ok s' → sane s → sane s'.
Proof.
  revert s. induction fs as [| f fs IH]; intros s H Hs; cbn in H; [by injection H as <- |].
  apply result_bind_Ok_inv in H as (s1 & H1 & H2). eapply IH, read_field_sane; done.
Qed.

Lemma parse_carried t m c : parse t m = Ok c → len t ≤ m ∧ contact_typed c ∧ carried c.
Proof.
  unfold parse. destruct (N.ltb_spec m (len t)); [done |]. destruct (bool_decide _); [done |]. intros H'. split; [done |].
  destruct (match split_once x3f t with Some _ => _ | None => _ end) as [id [query |]].
  all: apply result_bind_Ok_inv in H' as (eid & [Hid _]%identity_text_exact & H').
  - apply result_bind_Ok_inv in H' as ([a p] & [Hip Hp]%read_fields_sane & H'); [| by split].
    apply result_bind_Ok_inv in H' as (ip & ->%ok_or_Ok & H').
    apply result_bind_Ok_inv in H' as (port & ->%ok_or_Ok & [= <-]).
    destruct (Hp port eq_refl) as [Hz Hl]. specialize (Hip ip eq_refl).
    split; [split; [done |] |]; intros a [= <-]; by destruct ip.
  - injection H' as <-. by repeat split.
Qed.

(** C32: contact text is exact.  Formatting succeeds exactly for the contacts
    the text can carry, an identity alone or with an address and a nonzero port
    and without IPv6 scope or flow; what it prints is refused above the caller's
    bound and otherwise parses back to the same contact; and whatever text is
    accepted, within the bound, denotes a contact that formatting prints. *)
Theorem contact_text_exact c : contact_typed c →
  (carried c ↔ ∃ t, format c = Ok t) ∧
  (∀ t m, format c = Ok t → parse t m = if m <? len t then Err IdResourceLimit else Ok c) ∧
  ∀ t m d, parse t m = Ok d → len t ≤ m ∧ contact_typed d ∧ ∃ t', format d = Ok t'.
Proof.
  intros Hc. split_and!.
  - split; [intros H; eexists; by apply format_ok |]. by intros [t [H _]%format_ok].
  - intros t m. by apply parse_format.
  - intros t m d (H1 & H2 & H3)%parse_carried. split_and!; [done.. |]. eexists. by apply format_ok.
Qed.

Module Demo.
Definition contact : Contact :=
  mkContact (replicate 32 x07) (Some (SocketAddrV6 [8193; 3512; 0; 0; 0; 0; 0; 1] 443 0 0)).
Definition text : bytes := match format contact with Ok t => t | Err _ => [] end.
Lemma contact_text_exact_witness : contact_typed contact ∧ format contact = Ok text ∧
  parse text 256 = Ok contact ∧ parse text 64 = Err IdResourceLimit.
Proof.
  assert (contact_typed contact) as Hc.
  { split; [done |]. intros a [= <-]. split; [split; [done | repeat constructor] | done]. }
  assert (format contact = Ok text) as Hf by (vm_compute; reflexivity).
  destruct (contact_text_exact contact Hc) as (_ & Hp & _).
  pose proof (Hp text 256 Hf) as H1. pose proof (Hp text 64 Hf) as H2. vm_compute in H1, H2.
  split; [exact Hc |]. split; [exact Hf |]. split; [vm_compute; reflexivity | vm_compute; reflexivity].
Defined.
End Demo.
