(* ===== verification/Offering.v ===== *)
(** * Offerings

    [src/modules/board/{offering,terms}.rs]: exact JSON integers, economic terms
    and the structural validation of a Board document into offerings indexed by
    identifier. *)

From S2P Require Import Prelude Bytes Json Api Arcs BoardBase Document IdentityText.

#[local] Open Scope N_scope.

(** ** Exact integers: [integer] *)

Definition is_digit (b : byte) : bool := in_range 48 57 b.

(** [str::split_once] at the first byte that satisfies [p]. *)
Fixpoint split_once (p : byte → bool) (l : bytes) : option (bytes * bytes) :=
  match l with
  | [] => None
  | b :: l => if p b then Some ([], l) else prod_map (cons b) id <$> split_once p l
  end.
(** [str::strip_prefix]. *)
Definition strip_prefix (c : byte) (l : bytes) : option bytes :=
  match l with
  | b :: l => if bool_decide (b = c) then Some l else None
  | [] => None
  end.
(** [str::trim_start_matches]. *)
Fixpoint trim_start (p : byte → bool) (l : bytes) : bytes :=
  match l with
  | b :: k => if p b then trim_start p k else l
  | [] => []
  end.

(** The value of a decimal digit string. *)
Definition decimal (l : bytes) : N := digits 10 ((λ b, b2N b - 48) <$> l).

(** [str::parse::<i64>]: an optional sign, then at least one digit. *)
Definition i64_limit : Z := 2 ^ 63.
Definition in_i64 (z : Z) : bool := ((- i64_limit <=? z) && (z <? i64_limit))%Z.
Definition checked_i64 (z : Z) : option Z := if in_i64 z then Some z else None.
Definition parse_i64 (l : bytes) : option Z :=
  let '(negative, ds) := match strip_prefix x2d l with
                         | Some l => (true, l)
                         | None => (false, default l (strip_prefix x2b l))
                         end in
  if is_empty ds || negb (forallb is_digit ds) then None
  else checked_i64 (if negative : bool then - Z.of_N (decimal ds) else Z.of_N (decimal ds))%Z.

(** The two accumulation loops on a [u64]. *)
Fixpoint accumulate (amount : N) (ds : bytes) : option N :=
  match ds with
  | [] => Some amount
  | d :: ds =>
    amount ← checked_mul u64_limit amount 10;
    amount ← checked_add u64_limit amount (b2N d - 48);
    accumulate amount ds
  end.
Fixpoint append_zeros (n : nat) (amount : N) : option N :=
  match n with
  | O => Some amount
  | S n => amount ← checked_mul u64_limit amount 10; append_zeros n amount
  end.

(** What remains of the digits at a decimal shift: the digits and the zeros to
    append to them. *)
Definition shift_digits (ds : bytes) (shift : Z) : option (bytes * nat) :=
  if (shift <? 0)%Z then
    remove ← checked_i64 (- shift);
    let remove := Z.to_nat remove in
    if (length ds <? remove)%nat then None else
    let keep := (length ds - remove)%nat in
    if negb (forallb (λ b, bool_decide (b = x30)) (drop keep ds)) then None
    else Some (take keep ds, O)
  else Some (ds, Z.to_nat shift).

(** [integer] on the token of a number. *)
Definition token_integer (token : bytes) : option N :=
  let '(negative, token) := match strip_prefix x2d token with
                            | Some s => (true, s)
                            | None => (false, token)
                            end in
  let '(mantissa, exponent) :=
    default (token, [x30]) (split_once (λ b, bool_decide (b = x65 ∨ b = x45)) token) in
  let ds := trim_start (λ b, bool_decide (b = x30)) (filter (λ b, b ≠ x2e) mantissa) in
  if is_empty ds then Some 0 else
  if negative : bool then None else
  exponent ← parse_i64 exponent;
  let fraction := match split_once (λ b, bool_decide (b = x2e)) mantissa with
                  | Some (_, f) => Z.of_nat (length f)
                  | None => 0%Z
                  end in
  shift ← checked_i64 (exponent - fraction);
  '(ds, zeros) ← shift_digits ds shift;
  if (20 <? length ds + zeros)%nat then None else
  amount ← accumulate 0 ds;
  append_zeros zeros amount.

Definition integer (value : Value) : option N := as_number value ≫= token_integer.

(** ** Required fields and terms *)

(** [string]: a nonempty string field. *)
Definition required_string (value : Value) (key : bytes) : result BoardError bytes :=
  ok_or (s ← get key value ≫= as_str; if is_empty s then None else Some s) BInvalid.

Definition positive (value : Value) : result BoardError N :=
  ok_or (n ← integer value; if 0 <? n then Some n else None) BInvalid.

(** [for x in l { check(x)?; }] *)
Fixpoint check_all {A} (check : A → result BoardError unit) (l : list A) : result BoardError unit :=
  match l with
  | [] => Ok tt
  | x :: l => _ ← check x; check_all check l
  end.
(** [if let Some(x) = o { check(x)?; }] *)
Definition check_option {A} (check : A → result BoardError unit) (o : option A)
    : result BoardError unit :=
  match o with None => Ok tt | Some x => check x end.
Definition guard_invalid (b : bool) : result BoardError unit := if b then Err BInvalid else Ok tt.

Definition check_precondition (name : Value) : result BoardError unit :=
  name ← ok_or (as_str name) BInvalid;
  guard_invalid (is_empty name).

Definition check_suggestion (hint : Value) : result BoardError unit :=
  _ ← guard_invalid (negb (is_object hint));
  _ ← required_string hint (lit "name");
  check_all (λ field, guard_invalid (from_option (λ v, negb (is_string v)) false (get field hint)))
    [lit "version"; lit "uri"; lit "description"].

(** [terms::validate] *)
Definition validate_terms (value : Value) : result BoardError unit :=
  o ← ok_or (as_object value) BInvalid;
  _ ← guard_invalid (existsb (λ key, contains_key key o) [lit "input"; lit "output"; lit "check"]);
  _ ← guard_invalid (Bool.eqb (contains_key (lit "price") o) (contains_key (lit "pricing") o));
  _ ← check_option (λ price, _ ← positive price; Ok tt) (map_get (lit "price") o);
  _ ← check_option (λ price, _ ← positive price; Ok tt) (map_get (lit "checkPrice") o);
  _ ← check_option (λ pricing,
        _ ← guard_invalid (negb (is_object pricing));
        _ ← required_string pricing (lit "model"); Ok tt) (map_get (lit "pricing") o);
  _ ← guard_invalid (from_option (λ v, negb (is_object v)) false (map_get (lit "info") o));
  _ ← check_option (λ preconditions,
        l ← ok_or (as_array preconditions) BInvalid;
        check_all check_precondition l) (map_get (lit "preconditions") o);
  check_option (λ suggestions,
    l ← ok_or (as_array suggestions) BInvalid;
    check_all check_suggestion l) (map_get (lit "implementationSuggestions") o).

(** ** Boards: [offering.rs] *)

Inductive Direction : Type := Provided | Wanted.

#[global] Instance Direction_eq_dec : EqDecision Direction.
Proof. solve_decision. Defined.

Record Offering : Type := mkOffering {
  off_id : bytes;
  off_service : bytes;
  off_version : N;
  off_description : bytes;
  off_issuer : IdentityId;
  off_direction : Direction;
  off_source : Value;
}.

Record Board : Type := mkBoard { board_document : Document; board_offerings : gmap bytes Offering }.

(** The body of the loop over one list, up to the insertion. *)
Definition parse_offering (direction : Direction) (value : Value) : result BoardError Offering :=
  o ← ok_or (as_object value) BInvalid;
  v ← ok_or (map_get (lit "serviceVersion") o) BInvalid;
  version ← ok_or (n ← integer v; if (0 <? n) && (n <=? u32_limit - 1) then Some n else None) BInvalid;
  _ ← validate_terms value;
  id ← required_string value (lit "id");
  service ← required_string value (lit "service");
  description ← required_string value (lit "description");
  issuer ← required_string value (lit "creditIssuer");
  issuer ← map_err (λ _, BInvalid) (parse issuer);
  Ok (mkOffering id service version description issuer direction value).

Fixpoint parse_offerings (limits : Limits) (direction : Direction) (values : list Value)
    (offerings : gmap bytes Offering) : result BoardError (gmap bytes Offering) :=
  match values with
  | [] => Ok offerings
  | value :: values =>
    o ← parse_offering direction value;
    if bool_decide (is_Some (offerings !! off_id o)) then Err BInvalid else
    let offerings := <[off_id o := o]> offerings in
    if lim_definitions limits <? N.of_nat (size offerings) then Err BLimit else
    parse_offerings limits direction values offerings
  end.

Definition parse_direction (limits : Limits) (root : list (bytes * Value)) (field : bytes)
    (direction : Direction) (offerings : gmap bytes Offering)
    : result BoardError (gmap bytes Offering) :=
  values ← ok_or (map_get field root ≫= as_array) BInvalid;
  parse_offerings limits direction values offerings.

Definition Board_parse `{SJ : !SerdeJson} (input : bytes) (limits : Limits) : result BoardError Board :=
  document ← Document_parse input limits;
  root ← ok_or (as_object (doc_value document)) BInvalid;
  v ← ok_or (map_get (lit "version") root) BInvalid;
  version ← ok_or (integer v) BInvalid;
  if negb (version =? 1) then Err BUnsupported else
  offerings ← parse_direction limits root (lit "providedServices") Provided ∅;
  offerings ← parse_direction limits root (lit "wantedServices") Wanted offerings;
  Ok (mkBoard document offerings).

(** ** Exact integers are exact

    [integer] against the mathematical value of a JSON number: it returns exactly
    the unsigned 64-bit integers, whatever their spelling, and nothing else. *)

(** *** Number tokens and their value *)

Record Token : Type := mkToken {
  tk_negative : bool;
  tk_integer : bytes;
  tk_fraction : option bytes;
  (** The letter, the sign and the digits of the exponent. *)
  tk_exponent : option (byte * bytes * bytes);
}.

Definition spell_exponent (e : option (byte * bytes * bytes)) : bytes :=
  match e with Some (letter, sign, ds) => letter :: sign ++ ds | None => [] end.
Definition spell_mantissa (t : Token) : bytes :=
  tk_integer t ++ from_option (cons x2e) [] (tk_fraction t).
Definition spell (t : Token) : bytes :=
  (if tk_negative t then [x2d] else []) ++ spell_mantissa t ++ spell_exponent (tk_exponent t).

Abbreviation all_digits := (Forall (λ b, is_digit b = true)).

Record token_wf (t : Token) : Prop := {
  tk_integer_digits : tk_integer t ≠ [] ∧ all_digits (tk_integer t);
  tk_fraction_digits : all_digits (default [] (tk_fraction t));
  tk_exponent_shape : ∀ letter sign ds, tk_exponent t = Some (letter, sign, ds) →
    (letter = x65 ∨ letter = x45) ∧ (sign = [] ∨ sign = [x2b] ∨ sign = [x2d]) ∧
    ds ≠ [] ∧ all_digits ds;
}.

Definition token_digits (t : Token) : bytes := tk_integer t ++ default [] (tk_fraction t).
Definition exponent_value (e : option (byte * bytes * bytes)) : Z :=
  match e with
  | Some (_, sign, ds) =>
    if bool_decide (sign = [x2d]) then (- Z.of_N (decimal ds))%Z else Z.of_N (decimal ds)
  | None => 0%Z
  end.
(** The power of ten the digits are scaled by. *)
Definition token_scale (t : Token) : Z :=
  (exponent_value (tk_exponent t) - Z.of_nat (length (default [] (tk_fraction t))))%Z.

(** [t] is a spelling of the natural number [n]. *)
Definition denotes (t : Token) (n : N) : Prop :=
  let m := decimal (token_digits t) in
  (tk_negative t = true → m = 0) ∧
  if (0 <=? token_scale t)%Z then n = m * 10 ^ Z.to_N (token_scale t)
  else m = n * 10 ^ Z.to_N (- token_scale t).

(** *** Decimal strings *)

Lemma digit_lt b : is_digit b = true → 48 ≤ b2N b < 58.
Proof. unfold is_digit, in_range. lia. Qed.

Lemma decimal_snoc l b : decimal (l ++ [b]) = decimal l * 10 + (b2N b - 48).
Proof. unfold decimal. rewrite fmap_app. apply digits_snoc. Qed.
Lemma decimal_app l k : decimal (l ++ k) = decimal l * 10 ^ len k + decimal k.
Proof.
  induction k as [| b k IH] using rev_ind; [rewrite app_nil_r; change (decimal []) with 0; unfold len; simpl; lia |].
  rewrite app_assoc, !decimal_snoc, IH, len_app, N.pow_add_r. change (10 ^ len [b]) with 10. lia.
Qed.
Lemma decimal_cons b l : decimal (b :: l) = (b2N b - 48) * 10 ^ len l + decimal l.
Proof. change (b :: l) with ([b] ++ l). by rewrite decimal_app. Qed.
Lemma decimal_bound l : all_digits l → decimal l < 10 ^ len l.
Proof.
  induction 1 as [| b l Hb _ IH]; [done |]. rewrite decimal_cons, len_cons, N.pow_add_r.
  apply digit_lt in Hb. change (10 ^ 1) with 10. nia.
Qed.
Lemma decimal_zeros l : Forall (λ b, b = x30) l → decimal l = 0.
Proof. induction 1 as [| b l -> _ IH]; [done |]. rewrite decimal_cons, IH. change (b2N x30) with 48. lia. Qed.

Lemma trim_zeros l : all_digits l →
  let ds := trim_start (λ b, bool_decide (b = x30)) l in
  all_digits ds ∧ decimal ds = decimal l ∧ (length ds ≤ length l)%nat ∧
  (ds ≠ [] → 10 ^ (len ds - 1) ≤ decimal ds).
Proof.
  cbn. induction 1 as [| b l Hb Hl IH]; [done |]. cbn [trim_start].
  destruct (bool_decide_reflect (b = x30)) as [-> | Hne].
  - rewrite decimal_cons. change (b2N x30) with 48. destruct IH as (H1 & H2 & H3 & H4).
    repeat split; try done. cbn; lia.
  - split; [by constructor |]. split; [done |]. split; [done |]. intros _.
    rewrite decimal_cons, len_cons. apply digit_lt in Hb. replace (1 + len l - 1) with (len l) by lia.
    assert (b2N b ≠ 48) by (intros E; apply Hne, b2N_inj; by rewrite E). nia.
Qed.

(** *** The shift *)

Lemma zeros_forallb l : forallb (λ b, bool_decide (b = x30)) l = true ↔ Forall (λ b, b = x30) l.
Proof.
  rewrite forallb_forall, Forall_forall. split; intros H x Hx.
  - by apply (bool_decide_eq_true_1 (x = x30)), H, list_elem_of_In.
  - by apply bool_decide_eq_true_2, H, list_elem_of_In.
Qed.

(** Trailing digits are zeros exactly when the number is a multiple. *)
Lemma decimal_multiple l k : all_digits (l ++ k) →
  (∃ n, decimal (l ++ k) = n * 10 ^ len k) ↔ Forall (λ b, b = x30) k.
Proof.
  intros [Hl Hk]%Forall_app. rewrite decimal_app. split.
  - intros [n Hn]. pose proof (decimal_bound k Hk) as Hb.
    assert (decimal k = 0) as Hz.
    { destruct (N.div_mod_unique (10 ^ len k) (decimal l) n (decimal k) 0) as [_ ->]; try done; [| lia].
      apply N.neq_0_lt_0, N.pow_nonzero. lia. }
    clear -Hk Hz. induction Hk as [| b k Hb Hk IH]; [constructor |]. rewrite decimal_cons in Hz.
    assert (10 ^ len k ≠ 0) by (apply N.pow_nonzero; lia). apply digit_lt in Hb as Hb'.
    constructor; [apply b2N_inj; change (b2N x30) with 48; nia | apply IH; nia].
  - intros Hz. exists (decimal l). by rewrite (decimal_zeros k Hz), N.add_0_r.
Qed.

Lemma accumulate_exact ds amount n : all_digits ds → amount < u64_limit →
  accumulate amount ds = Some n ↔ n = amount * 10 ^ len ds + decimal ds ∧ n < u64_limit.
Proof.
  intros Hds. revert amount. induction Hds as [| b ds Hb _ IH]; intros amount Ha.
  - cbn. change (10 ^ len []) with 1. change (decimal []) with 0. split.
    + intros [= ->]. lia.
    + intros [-> _]. f_equal. lia.
  - cbn [accumulate]. rewrite len_cons, N.pow_add_r, decimal_cons. change (10 ^ 1) with 10.
    apply digit_lt in Hb. set (p := 10 ^ len ds). assert (p ≠ 0) by (apply N.pow_nonzero; lia).
    unfold checked_mul, checked_add. destruct (N.ltb_spec (amount * 10) u64_limit); cbn.
    + destruct (N.ltb_spec (amount * 10 + (b2N b - 48)) u64_limit); cbn.
      * rewrite IH by done. fold p. split; intros [-> ?]; split; try done; nia.
      * split; [done |]. intros [-> ?]. nia.
    + split; [done |]. intros [-> ?]. nia.
Qed.
Lemma append_zeros_exact k amount n : amount < u64_limit →
  append_zeros k amount = Some n ↔ n = amount * 10 ^ N.of_nat k ∧ n < u64_limit.
Proof.
  revert amount. induction k as [| k IH]; intros amount Ha; cbn [append_zeros].
  - change (10 ^ N.of_nat 0) with 1. split; [intros [= ->]; lia | intros [-> _]; f_equal; lia].
  - rewrite Nat2N.inj_succ, N.pow_succ_r'. set (p := 10 ^ N.of_nat k) in *.
    assert (p ≠ 0) by (apply N.pow_nonzero; lia). unfold checked_mul.
    destruct (N.ltb_spec (amount * 10) u64_limit); cbn.
    + rewrite IH by done. split; intros [-> ?]; split; try done; nia.
    + split; [done |]. intros [-> ?]. nia.
Qed.

(** *** The shifted digits *)

Lemma shift_digits_exact ds shift ds' zeros :
  all_digits ds → shift_digits ds shift = Some (ds', zeros) →
  all_digits ds' ∧
  if (0 <=? shift)%Z then ds' = ds ∧ zeros = Z.to_nat shift
  else zeros = O ∧ decimal ds = decimal ds' * 10 ^ Z.to_N (- shift) ∧
       len ds = len ds' + Z.to_N (- shift).
Proof.
  intros Hds H. unfold shift_digits in H. destruct (Z.ltb_spec shift 0) as [Hs | Hs].
  - apply bind_Some in H as (remove & Hr & H). rewrite (proj2 (Z.leb_gt _ _)) by lia.
    unfold checked_i64 in Hr. destruct (in_i64 _); [| done]. injection Hr as <-.
    destruct (Nat.ltb_spec (length ds) (Z.to_nat (- shift))) as [| Hle]; [done |].
    set (keep := (length ds - Z.to_nat (- shift))%nat) in *.
    destruct (forallb _ _) eqn:Hz; [| done]. injection H as [= <- <-]. apply zeros_forallb in Hz.
    assert (len (drop keep ds) = Z.to_N (- shift)) as Hlen
      by (unfold len, keep; rewrite length_drop; lia).
    split; [by apply Forall_take |]. split; [done |].
    rewrite <- (take_drop keep ds) at 1 3. rewrite decimal_app, (decimal_zeros _ Hz), N.add_0_r, len_app.
    by rewrite Hlen.
  - injection H as [= <- <-]. by rewrite (proj2 (Z.leb_le _ _)).
Qed.

(** A shift is refused only when nothing is denoted. *)
Lemma shift_digits_None ds shift n :
  all_digits ds → 0 < decimal ds → shift_digits ds shift = None → in_i64 (- shift) = true →
  (0 <=? shift)%Z = false ∧ decimal ds ≠ n * 10 ^ Z.to_N (- shift).
Proof.
  intros Hds Hpos H Hr. unfold shift_digits in H. destruct (Z.ltb_spec shift 0) as [Hs | Hs]; [| done].
  split; [by apply Z.leb_gt |]. unfold checked_i64 in H. rewrite Hr in H. cbn [mbind option_bind] in H.
  pose proof (decimal_bound ds Hds) as Hb. intros Heq.
  destruct (Nat.ltb_spec (length ds) (Z.to_nat (- shift))) as [Hlt | Hle].
  - assert (10 ^ len ds ≤ 10 ^ Z.to_N (- shift)) by (apply N.pow_le_mono_r; unfold len; lia).
    assert (n ≠ 0) by (intros ->; lia). nia.
  - set (keep := (length ds - Z.to_nat (- shift))%nat) in *.
    destruct (forallb _ _) eqn:Hz; [done |].
    assert (len (drop keep ds) = Z.to_N (- shift)) as Hlen by (unfold len, keep; rewrite length_drop; lia).
    assert (Forall (λ b, b = x30) (drop keep ds)) as Hzeros.
    { apply (decimal_multiple (take keep ds)); rewrite take_drop; [done |]. rewrite Hlen. by exists n. }
    apply zeros_forallb in Hzeros. congruence.
Qed.

(** *** Reading the parts of a token back *)

Lemma split_once_app p l b k :
  Forall (λ c, p c = false) l → p b = true → split_once p (l ++ b :: k) = Some (l, k).
Proof.
  intros Hl Hb. induction Hl as [| c l Hc _ IH]; cbn; [by rewrite Hb |]. by rewrite Hc, IH.
Qed.
Lemma split_once_none p l : Forall (λ c, p c = false) l → split_once p l = None.
Proof. induction 1 as [| c l Hc _ IH]; cbn; [done |]. by rewrite Hc, IH. Qed.

Lemma parse_i64_exponent sign ds :
  (sign = [] ∨ sign = [x2b] ∨ sign = [x2d]) → ds ≠ [] → all_digits ds →
  parse_i64 (sign ++ ds) = checked_i64 (exponent_value (Some (x65, sign, ds))).
Proof.
  intros Hs Hne Hds.
  assert (is_empty ds || negb (forallb is_digit ds) = false) as Hok.
  { destruct ds; [done |]. cbn -[is_digit]. apply negb_false_iff, (forallb_forall is_digit (b :: ds)).
    intros x Hx. rewrite Forall_forall in Hds. by apply Hds, list_elem_of_In. }
  assert (strip_prefix x2d ds = None ∧ strip_prefix x2b ds = None) as [Hm Hp].
  { destruct Hds as [| b l Hb _]; [done |]. apply digit_lt in Hb. unfold strip_prefix.
    by rewrite !bool_decide_false by (intros ->; cbn in Hb; lia). }
  destruct Hs as [-> | [-> | ->]]; unfold parse_i64; cbn [app].
  - rewrite Hm, Hp. cbn [from_option]. by rewrite Hok.
  - cbn [strip_prefix]. rewrite bool_decide_false, bool_decide_true by done. cbn [from_option id].
    by rewrite Hok.
  - cbn [strip_prefix]. rewrite bool_decide_true by done. by rewrite Hok.
Qed.

(** *** Bounds on what is denoted *)

Lemma exponent_bound e : all_digits e → decimal e < 10 ^ len e.
Proof. apply decimal_bound. Qed.

Lemma ten_pow_gt k : 20 ≤ k → u64_limit ≤ 10 ^ k.
Proof.
  intros H. transitivity (10 ^ 20); [by vm_compute |]. apply N.pow_le_mono_r; [done | exact H].
Qed.

(** A nonzero number whose scale leaves the signed range denotes no [u64]. *)
Lemma denotes_large m (s : Z) n :
  0 < m → (20 ≤ s)%Z → n = m * 10 ^ Z.to_N s → u64_limit ≤ n.
Proof. intros Hm Hs ->. pose proof (ten_pow_gt (Z.to_N s) ltac:(lia)). nia. Qed.
Lemma denotes_fraction m (s : Z) n k :
  0 < m → m < 10 ^ k → (Z.of_N k ≤ - s)%Z → m ≠ n * 10 ^ Z.to_N (- s).
Proof.
  intros Hm Hk Hs E. assert (10 ^ k ≤ 10 ^ Z.to_N (- s)) by (apply N.pow_le_mono_r; lia).
  assert (n ≠ 0) by (intros ->; lia). nia.
Qed.

(** Accumulating the shifted digits gives the denoted number, or overflows. *)
Lemma amount_exact ds zeros n :
  all_digits ds → (ds ≠ [] → 10 ^ (len ds - 1) ≤ decimal ds) → ds ≠ [] →
  (if (20 <? length ds + zeros)%nat then None
   else amount ← accumulate 0 ds; append_zeros zeros amount) = Some n ↔
  n = decimal ds * 10 ^ N.of_nat zeros ∧ n < u64_limit.
Proof.
  intros Hds Hlow Hne. destruct (Nat.ltb_spec 20 (length ds + zeros)) as [Hlt | Hle].
  - split; [done |]. intros [-> Hn]. exfalso. specialize (Hlow Hne).
    assert (10 ^ (len ds - 1 + N.of_nat zeros) ≤ decimal ds * 10 ^ N.of_nat zeros).
    { rewrite N.pow_add_r. apply N.mul_le_mono_r. exact Hlow. }
    pose proof (ten_pow_gt (len ds - 1 + N.of_nat zeros)) as Hbig. unfold len in *.
    destruct ds; [done |]. cbn [length] in *. lia.
  - rewrite bind_Some. split.
    + intros (a & Ha & Hz). apply accumulate_exact in Ha as [-> Ha]; [| done | done].
      apply append_zeros_exact in Hz; [| lia]. rewrite N.mul_0_l, N.add_0_l in *. exact Hz.
    + intros [-> Hn]. assert (1 ≤ 10 ^ N.of_nat zeros) by (apply (N.pow_le_mono_r 10 0); lia).
      assert (decimal ds < u64_limit) as Hd by nia. exists (decimal ds).
      split; [by apply accumulate_exact |]. by apply append_zeros_exact.
Qed.

Lemma mantissa_digits t : token_wf t →
  filter (λ b, b ≠ x2e) (spell_mantissa t) = token_digits t ∧ all_digits (token_digits t).
Proof.
  intros [[_ Hi] Hf _]. unfold spell_mantissa, token_digits.
  assert (∀ l, all_digits l → filter (λ b, b ≠ x2e) l = l) as Hfilter.
  { induction 1 as [| b l Hb _ IH]; [done |]. rewrite filter_cons_True, IH; [done |].
    intros ->. discriminate Hb. }
  split; [| by apply Forall_app]. destruct (tk_fraction t) as [f |]; cbn in *.
  - rewrite filter_app, filter_cons_False by (intros Hne; by apply Hne). by rewrite !Hfilter.
  - by rewrite !app_nil_r, Hfilter.
Qed.

Lemma strip_sign t : token_wf t →
  match strip_prefix x2d (spell t) with Some s => (true, s) | None => (false, spell t) end
  = (tk_negative t, spell_mantissa t ++ spell_exponent (tk_exponent t)).
Proof.
  intros [[Hne Hi] _ _]. unfold spell. destruct (tk_negative t); cbn [app strip_prefix].
  - by rewrite bool_decide_true.
  - unfold spell_mantissa. destruct Hi as [| b l Hb _]; [done |]. cbn [app strip_prefix].
    rewrite bool_decide_false; [done |]. intros ->. discriminate Hb.
Qed.

Lemma mantissa_letters p t : token_wf t →
  (∀ b, is_digit b = true → p b = false) → p x2e = false →
  Forall (λ b, p b = false) (spell_mantissa t).
Proof.
  intros [[_ Hi] Hf _] Hp Hdot.
  assert (∀ l, all_digits l → Forall (λ b, p b = false) l) as H.
  { intros l Hl. eapply Forall_impl; [exact Hl |]. apply Hp. }
  unfold spell_mantissa. apply Forall_app. split; [by apply H |].
  destruct (tk_fraction t); [| done]. constructor; [done | by apply H].
Qed.

Lemma split_exponent t : token_wf t →
  default (spell_mantissa t ++ spell_exponent (tk_exponent t), [x30])
    (split_once (λ b, bool_decide (b = x65 ∨ b = x45))
       (spell_mantissa t ++ spell_exponent (tk_exponent t))) =
  (spell_mantissa t, from_option (λ '(_, sign, e), sign ++ e) [x30] (tk_exponent t)).
Proof.
  intros Hwf. assert (Forall (λ b, bool_decide (b = x65 ∨ b = x45) = false) (spell_mantissa t)) as Hm.
  { apply mantissa_letters; [done | | done]. intros b Hb. apply bool_decide_eq_false.
    intros [-> | ->]; discriminate Hb. }
  destruct (tk_exponent t) as [[[letter sign] e] |] eqn:He; cbn [spell_exponent from_option].
  - destruct (tk_exponent_shape _ Hwf _ _ _ He) as (Hl & _).
    rewrite split_once_app; [done | done |]. by apply bool_decide_eq_true.
  - rewrite app_nil_r, split_once_none by done. done.
Qed.

Lemma split_fraction t : token_wf t →
  match split_once (λ b, bool_decide (b = x2e)) (spell_mantissa t) with
  | Some (_, f) => Z.of_nat (length f)
  | None => 0%Z
  end = Z.of_nat (length (default [] (tk_fraction t))).
Proof.
  intros [[_ Hi] _ _]. unfold spell_mantissa.
  assert (Forall (λ b, bool_decide (b = x2e) = false) (tk_integer t)) as H.
  { eapply Forall_impl; [exact Hi |]. intros b Hb. apply bool_decide_eq_false. intros ->. discriminate Hb. }
  destruct (tk_fraction t) as [f |]; cbn [from_option].
  - by rewrite split_once_app.
  - by rewrite app_nil_r, split_once_none.
Qed.

Lemma parse_exponent t : token_wf t →
  parse_i64 (from_option (λ '(_, sign, e), sign ++ e) [x30] (tk_exponent t)) =
  checked_i64 (exponent_value (tk_exponent t)).
Proof.
  intros Hwf. destruct (tk_exponent t) as [[[letter sign] e] |] eqn:He; [| done].
  destruct (tk_exponent_shape _ Hwf _ _ _ He) as (_ & Hs & Hne & Hds). cbn [from_option].
  by rewrite parse_i64_exponent.
Qed.

(** The exact integer of a JSON number.  For every spelling of a number
    (sign, integer part, optional fraction, optional exponent) shorter than 2^62
    bytes, [integer] returns [n] exactly when the spelled value is the natural
    number [n] and [n] fits in 64 bits: no rounding, no coercion, no overflow,
    whatever the notation, and every other number is refused. *)
Theorem integer_exact t n :
  token_wf t → len (spell t) < 2 ^ 62 →
  integer (JNumber (spell t)) = Some n ↔ denotes t n ∧ n < u64_limit.
Proof.
  intros Hwf Hlen. pose proof (mantissa_digits t Hwf) as [Hfilter Hds].
  pose proof (trim_zeros _ Hds) as (Hds' & Hdec & Htrim & Hlow).
  set (ds := trim_start _ (token_digits t)) in *.
  change (integer (JNumber (spell t))) with (token_integer (spell t)).
  unfold token_integer. rewrite (strip_sign t Hwf). cbn beta iota.
  rewrite (split_exponent t Hwf). cbn beta iota. rewrite Hfilter. fold ds.
  unfold denotes. rewrite <- Hdec. destruct ds as [| d ds0] eqn:Eds; cbn [is_empty].
  - (* a zero mantissa *)
    change (decimal []) with 0. split.
    + intros [= <-]. split; [| done]. split; [done |]. by destruct (0 <=? _)%Z.
    + intros [[_ H] _]. f_equal. destruct (0 <=? _)%Z; [by rewrite H |].
      symmetry in H. apply N.eq_mul_0 in H as [H | H]; [done |].
      exfalso. revert H. apply N.pow_nonzero. lia.
  - rewrite <- Eds in *. specialize (Hlow ltac:(by rewrite Eds)).
    assert (0 < decimal ds) as Hpos.
    { eapply N.lt_le_trans; [| exact Hlow]. apply N.neq_0_lt_0, N.pow_nonzero. lia. }
    assert (ds ≠ []) as Hne by (by rewrite Eds). clear Eds d ds0.
    destruct (tk_negative t); [split; [done | intros [[H _] _]; specialize (H eq_refl); lia] |].
    rewrite (parse_exponent t Hwf), (split_fraction t Hwf). unfold token_scale.
    set (ev := exponent_value (tk_exponent t)). set (fl := Z.of_nat (length (default [] (tk_fraction t)))).
    assert ((fl < 2 ^ 62)%Z ∧ (Z.of_N (len ds) < 2 ^ 62)%Z) as [Hfl Hdl].
    { assert (length (token_digits t) ≤ length (spell t))%nat.
      { unfold spell, spell_mantissa, token_digits. rewrite !length_app. destruct (tk_fraction t); cbn; lia. }
      unfold token_digits in *. rewrite length_app in *. unfold fl, len in *. split; lia. }
    assert (∀ s, (s = ev - fl)%Z → in_i64 ev = false ∨ in_i64 s = false ∨ in_i64 (- s) = false →
      ¬ ((if (0 <=? s)%Z then n = decimal ds * 10 ^ Z.to_N s else decimal ds = n * 10 ^ Z.to_N (- s))
         ∧ n < u64_limit)) as Hout.
    { intros s Hs Hr [H Hn]. unfold in_i64, i64_limit in Hr. destruct (Z.leb_spec 0 s).
      - apply denotes_large in H; lia.
      - by apply (denotes_fraction _ _ _ (len ds)) in H; [| | apply decimal_bound | lia]. }
    specialize (Hout _ eq_refl). unfold checked_i64 at 1 2.
    destruct (in_i64 ev); cbn [mbind option_bind]; [| split; [done | intros [[_ H] Hn]; exfalso; apply Hout; auto]].
    destruct (in_i64 (ev - fl)); cbn [mbind option_bind];
      [| split; [done | intros [[_ H] Hn]; exfalso; apply Hout; auto]].
    destruct (shift_digits ds (ev - fl)) as [[ds' zeros] |] eqn:Hsh; cbn [mbind option_bind].
    + apply shift_digits_exact in Hsh as [Hds1 Hsh]; [| done]. destruct (Z.leb_spec 0 (ev - fl)).
      * destruct Hsh as [-> ->]. rewrite amount_exact by done. rewrite Z_nat_N. naive_solver.
      * destruct Hsh as (-> & Hdv & Hkept).
        assert (10 ^ Z.to_N (- (ev - fl)) ≠ 0) as Hp by (apply N.pow_nonzero; lia).
        rewrite amount_exact; [| done | |].
        -- rewrite N.mul_1_r, Hdv. rewrite N.mul_cancel_r by done. naive_solver.
        -- intros Hne'. apply (N.mul_le_mono_pos_r _ _ (10 ^ Z.to_N (- (ev - fl)))); [lia |].
           rewrite <- Hdv, <- N.pow_add_r. etransitivity; [| exact Hlow].
           apply N.pow_le_mono_r; [done |]. unfold len in *. destruct ds'; [done |]. cbn [length] in *. lia.
        -- intros ->. change (decimal []) with 0 in Hdv. lia.
    + split; [done |]. intros [[_ H] Hn]. exfalso. destruct (in_i64 (- (ev - fl))) eqn:Hneg.
      * destruct (shift_digits_None ds (ev - fl) n) as [E Hno]; try done. rewrite E in H. done.
      * apply Hout; auto.
Qed.

(** The value 42 in four spellings, the last one with a large exponent. *)
Definition forty_two : Token := mkToken false (lit "4200") (Some (lit "00")) (Some (x65, [x2d], lit "2")).

Lemma integer_exact_witness :
  spell forty_two = lit "4200.00e-2" ∧ integer (JNumber (spell forty_two)) = Some 42 ∧
  denotes forty_two 42.
Proof.
  split; [reflexivity |]. split; [reflexivity |].
  assert (token_wf forty_two) as Hwf.
  { split; cbn.
    - split; [done |]. repeat constructor.
    - repeat constructor.
    - intros letter sign ds [= <- <- <-]. split; [by left |]. split; [by right; right |].
      split; [done |]. repeat constructor. }
  apply (integer_exact forty_two 42 Hwf ltac:(done)). reflexivity.
Defined.
