(* ===== verification/Schema.v ===== *)
(** * Service schemas

    [src/modules/services/schema/mod.rs]: the bounded structural validation of
    schema descriptors, and the grammar it decides. *)

From S2P Require Import Prelude Bytes Json.

#[local] Open Scope N_scope.

Inductive SchemaError : Type := SchInvalid | SchLimit.
Inductive Support : Type := Known | Unknown.

#[global] Instance Support_eq_dec : EqDecision Support.
Proof. solve_decision. Defined.

(** The private [string]. *)
Definition schema_string (value : Value) (key : bytes) : result SchemaError bytes :=
  ok_or (s ← get key value ≫= as_str; if is_empty s then None else Some s) SchInvalid.

Definition primitive_types : list bytes :=
  [lit "bool"; lit "int32"; lit "int64"; lit "uint32"; lit "uint64"; lit "float"; lit "double";
   lit "string"; lit "bytes"].

(** Unknown as soon as one of two is. *)
Definition join (s t : Support) : Support := match s with Unknown => Unknown | Known => t end.

(** The [for (name, child)] loop over the fields of an object. *)
Fixpoint walk_fields (walk : Value → M N SchemaError Support) (fields : list (bytes * Value))
    : M N SchemaError Support :=
  match fields with
  | [] => mret Known
  | (name, child) :: fields =>
    ensure (negb (is_empty name)) SchInvalid;;
    s ← walk child;
    t ← walk_fields walk fields;
    mret (join s t)
  end.

(** The checks before the type is looked at. *)
Definition walk_type (value : Value) (field : bool) : M N SchemaError bytes :=
  remaining ← gets id;
  ensure (negb (remaining =? 0)) SchLimit;;
  modify (λ n, n - 1);;
  ensure (is_object value) SchInvalid;;
  ensure (match get (lit "optional") value with
          | Some optional => field && bool_decide (is_Some (as_bool optional))
          | None => true
          end) SchInvalid;;
  (if field then _ ← lift (schema_string value (lit "description")); mret tt else mret tt);;
  lift (schema_string value (lit "type")).

(** [walk] at a depth that leaves [room] levels of the 32; the state is the
    remaining node budget. *)
Fixpoint walk (room : nat) (value : Value) (field : bool) : M N SchemaError Support :=
  match room with
  | O => throw SchLimit
  | S room =>
    type ← walk_type value field;
    if bool_decide (type = lit "object") then
      fields ← lift (ok_or (get (lit "fields") value ≫= as_object) SchInvalid);
      walk_fields (λ child, walk room child true) fields
    else if bool_decide (type = lit "array") then
      items ← lift (ok_or (get (lit "items") value) SchInvalid);
      walk room items false
    else if bool_decide (type ∈ primitive_types) then mret Known
    else mret Unknown
  end.

Definition schema_nodes : N := 65536.

Definition schema_validate (value : Value) : result SchemaError Support :=
  (walk 32 value false schema_nodes).1.

Definition schema_check (value : Value) : result SchemaError Support :=
  _ ← schema_string value (lit "description");
  input ← ok_or (get (lit "input") value) SchInvalid;
  input ← schema_validate input;
  output ← ok_or (get (lit "output") value) SchInvalid;
  output ← schema_validate output;
  Ok (join input output).

(** ** The grammar of descriptors *)

Definition has_string (value : Value) (key s : bytes) : Prop :=
  get key value = Some (JString s) ∧ s ≠ [].

(** What every descriptor has; optionality and descriptions belong to fields. *)
Definition descriptor (value : Value) (field : bool) (type : bytes) : Prop :=
  is_object value = true ∧
  (∀ o, get (lit "optional") value = Some o → field = true ∧ is_Some (as_bool o)) ∧
  (field = true → ∃ d, has_string value (lit "description") d) ∧
  has_string value (lit "type") type.

(** [describes room field v s n]: [v] is a descriptor nested at most [room]
    deep, of [n] nodes, understood as [s]. *)
Inductive describes : nat → bool → Value → Support → N → Prop :=
| describes_primitive room field v type :
  descriptor v field type → type ∈ primitive_types → describes (S room) field v Known 1
| describes_unknown room field v type :
  descriptor v field type → type ≠ lit "object" → type ≠ lit "array" → type ∉ primitive_types →
  describes (S room) field v Unknown 1
| describes_array room field v items s n :
  descriptor v field (lit "array") → get (lit "items") v = Some items →
  describes room false items s n → describes (S room) field v s (1 + n)
| describes_object room field v fields s n :
  descriptor v field (lit "object") → get (lit "fields") v = Some (JObject fields) →
  describes_fields room fields s n → describes (S room) field v s (1 + n)
with describes_fields : nat → list (bytes * Value) → Support → N → Prop :=
| describes_nil room : describes_fields room [] Known 0
| describes_cons room name child fields s t n m :
  name ≠ [] → describes room true child s n → describes_fields room fields t m →
  describes_fields room ((name, child) :: fields) (join s t) (n + m).

Scheme describes_mut := Minimality for describes Sort Prop
with describes_fields_mut := Minimality for describes_fields Sort Prop.
Combined Scheme describes_both from describes_mut, describes_fields_mut.

Lemma schema_string_ok v key s : schema_string v key = Ok s ↔ has_string v key s.
Proof.
  unfold schema_string, has_string. rewrite ok_or_Ok, bind_Some. split.
  - intros (s' & H & Hs). apply bind_Some in H as (x & Hg & Hx).
    destruct x; try done. injection Hx as ->. destruct s'; [done |]. injection Hs as <-. done.
  - intros [Hg Hne]. exists s. rewrite Hg. by destruct s.
Qed.


Lemma walk_type_ok v field type r r' :
  walk_type v field r = (Ok type, r') ↔ descriptor v field type ∧ 1 ≤ r ∧ r' = r - 1.
Proof.
  unfold walk_type, descriptor. setoid_rewrite <- schema_string_ok.
  unfold mbind, M_bind, gets, modify, ensure, lift, mret, M_ret, throw, id.
  destruct (N.eqb_spec r 0) as [-> | Hr]; cbn [negb]; [split; [done | lia] |].
  destruct (is_object v); [| split; [done | by intros [[? _] _]]].
  assert ((match get (lit "optional") v with
           | Some optional => field && bool_decide (is_Some (as_bool optional)) | None => true end) = true
          ↔ ∀ o, get (lit "optional") v = Some o → field = true ∧ is_Some (as_bool o)) as Hopt.
  { destruct (get (lit "optional") v) as [o |]; [| done]. rewrite andb_true_iff, bool_decide_eq_true.
    split; [by intros H o' [= <-] | intros H; by apply H]. }
  destruct (match get (lit "optional") v with Some _ => _ | None => _ end).
  2: { split; [done |]. intros [(_ & H & _) _]. by apply Hopt in H. }
  pose proof (proj1 Hopt eq_refl) as Ho. destruct field.
  - destruct (schema_string v (lit "description")) as [d | e] eqn:Hd.
    + split; [intros [= H <-]; split; [| lia]; naive_solver | intros ((_ & _ & _ & H) & _ & ->); by rewrite H].
    + split; [done |]. intros ((_ & _ & H & _) & _). by destruct (H eq_refl) as [d H'].
  - split; [intros [= H <-]; split; [| lia]; naive_solver | intros ((_ & _ & _ & H) & _ & ->); by rewrite H].
Qed.

Lemma walk_fields_ok room r fields s r' :
  (∀ v s r r', walk room v true r = (Ok s, r') ↔ ∃ n, describes room true v s n ∧ n ≤ r ∧ r' = r - n) →
  walk_fields (λ child, walk room child true) fields r = (Ok s, r') ↔
  ∃ n, describes_fields room fields s n ∧ n ≤ r ∧ r' = r - n.
Proof.
  intros Hw. revert r s r'. induction fields as [| [name child] fields IH]; intros r s r'; cbn [walk_fields].
  - split.
    + intros [= <- <-]. exists 0. split; [constructor |]. lia.
    + intros (n & H & _ & ->). inversion H. unfold mret, M_ret. f_equal. lia.
  - split.
    + intros H. inv_ok. destruct name as [| b name]; [done |].
      match goal with H : walk _ _ _ _ = _ |- _ => apply Hw in H as (n & Hd & Hn & ->) end.
      match goal with H : walk_fields _ _ _ = _ |- _ => apply IH in H as (m & Hf & Hm & ->) end.
      exists (n + m). split; [by constructor |]. lia.
    + intros (k & H & Hk & ->). inversion H as [| ? ? ? ? s1 t n m Hne Hd Hf]; subst.
      erewrite bind_Ok by (destruct name; [done | reflexivity]).
      erewrite bind_Ok by (apply Hw; exists n; split; [done |]; split; [lia | reflexivity]).
      erewrite bind_Ok by (apply IH; exists m; split; [done |]; split; [lia | reflexivity]).
      unfold mret, M_ret. f_equal. lia.
Qed.

Lemma walk_ok room v field s r r' :
  walk room v field r = (Ok s, r') ↔ ∃ n, describes room field v s n ∧ n ≤ r ∧ r' = r - n.
Proof.
  revert v field s r r'. induction room as [| room IH]; intros v field s r r'.
  { split; [done |]. intros (n & H & _). inversion H. }
  cbn [walk]. split.
  - intros H. apply bind_Ok_inv in H as (type & r1 & Ht & H). apply walk_type_ok in Ht as (Hdesc & Hr & ->).
    destruct (bool_decide_reflect (type = lit "object")) as [-> | Ho].
    { inv_ok. match goal with H : _ ≫= as_object = Some _ |- _ => apply bind_Some in H as (f & Hf & Hm) end.
      destruct f; try done. injection Hm as ->.
      match goal with H : walk_fields _ _ _ = _ |- _ => apply walk_fields_ok in H as (n & Hd & Hn & ->);
        [| intros; apply IH] end.
      exists (1 + n). split; [by eapply describes_object |]. lia. }
    destruct (bool_decide_reflect (type = lit "array")) as [-> | Ha].
    { inv_ok. match goal with H : walk _ _ _ _ = _ |- _ => apply IH in H as (n & Hd & Hn & ->) end.
      exists (1 + n). split; [by eapply describes_array |]. lia. }
    destruct (bool_decide_reflect (type ∈ primitive_types)) as [Hp | Hp]; injection H as [= <- <-];
      exists 1; (split; [| lia]).
    + by eapply describes_primitive.
    + by eapply describes_unknown.
  - intros (k & H & Hk & ->).
    inversion H as [? ? ? type Hdesc Hp | ? ? ? type Hdesc Ho Ha Hp | ? ? ? items ? n Hdesc Hi Hd
      | ? ? ? fields ? n Hdesc Hf Hd]; subst;
      erewrite bind_Ok by (apply walk_type_ok; split; [done |]; split; [lia | reflexivity]); cbn beta.
    + assert (type ≠ lit "object" ∧ type ≠ lit "array") as [Ho Ha]
        by (split; intros ->; apply (bool_decide_eq_true_2 (_ ∈ primitive_types)) in Hp; discriminate Hp).
      by rewrite (bool_decide_false (type = lit "object")), (bool_decide_false (type = lit "array")),
        (bool_decide_true (type ∈ primitive_types)).
    + by rewrite (bool_decide_false (type = lit "object")), (bool_decide_false (type = lit "array")),
        (bool_decide_false (type ∈ primitive_types)).
    + rewrite bool_decide_false, bool_decide_true by done. rewrite Hi.
      erewrite bind_Ok by reflexivity. apply IH. exists n. split; [done |]. lia.
    + rewrite bool_decide_true by done. rewrite Hf. erewrite bind_Ok by reflexivity.
      apply walk_fields_ok; [intros; apply IH |]. exists n. split; [done |]. lia.
Qed.

(** C31: a schema descriptor is accepted exactly when the grammar of descriptors
    derives it within 32 levels and 65536 nodes, and it is reported understood
    exactly when every type in it is: one unknown type anywhere makes the whole
    schema unknown, and nothing else does. *)
Theorem schema_exact value support :
  schema_validate value = Ok support ↔
  ∃ n, describes 32 false value support n ∧ n ≤ schema_nodes.
Proof.
  unfold schema_validate. destruct (walk 32 value false schema_nodes) as [r left] eqn:Hw. cbn [fst]. split.
  - intros ->. apply walk_ok in Hw as (n & Hd & Hn & _). by exists n.
  - intros (n & Hd & Hn). assert (walk 32 value false schema_nodes = (Ok support, schema_nodes - n)) as E
      by (apply walk_ok; eauto). congruence.
Qed.

Example array_of_labels :
  schema_validate (JObject [(lit "type", JString (lit "array"));
    (lit "items", JObject [(lit "type", JString (lit "string"))])]) = Ok Known.
Proof. reflexivity. Qed.
Example array_of_novelties :
  schema_validate (JObject [(lit "type", JString (lit "array"));
    (lit "items", JObject [(lit "type", JString (lit "org.example.new"))])]) = Ok Unknown.
Proof. reflexivity. Qed.
