(* ===== verification/ServiceDef.v ===== *)
(** * Service definitions and local capabilities

    [src/modules/board/{definition,semantics,response}.rs]: a definition bound
    to the exact identity of its offering, the capability port with its
    conservative default, the assessment of a pair, and the sizing of peer
    responses. *)

From S2P Require Import Prelude Bytes Json Api Arcs BoardBase Document Offering Schema.

#[local] Open Scope N_scope.

(** [From<schema::Error> for Error]. *)
Definition of_schema_error (e : SchemaError) : BoardError :=
  match e with SchInvalid => BInvalid | SchLimit => BLimit end.

(** ** Definitions: [definition.rs] *)

Record ServiceDefinition : Type := mkDefinition { def_document : Document; def_support : Support }.

Definition economic_fields : list bytes :=
  [lit "creditIssuer"; lit "price"; lit "pricing"; lit "checkPrice"; lit "info"].

Definition Definition_parse `{SJ : !SerdeJson} (input : bytes) (o : Offering) (limits : Limits)
    : result BoardError ServiceDefinition :=
  document ← Document_parse input limits;
  let v := doc_value document in
  id ← required_string v (lit "id");
  _ ← guard_invalid (negb (bool_decide (id = off_id o)));
  service ← required_string v (lit "service");
  _ ← guard_invalid (negb (bool_decide (service = off_service o)));
  description ← required_string v (lit "description");
  _ ← guard_invalid (negb (bool_decide (description = off_description o))
        || negb (bool_decide ((get (lit "serviceVersion") v ≫= integer) = Some (off_version o)))
        || existsb (λ f, bool_decide (is_Some (get f v))) economic_fields);
  input ← ok_or (get (lit "input") v) BInvalid;
  input ← map_err of_schema_error (schema_validate input);
  output ← ok_or (get (lit "output") v) BInvalid;
  output ← map_err of_schema_error (schema_validate output);
  check ← ok_or (get (lit "check") v) BInvalid;
  check ← map_err of_schema_error (schema_check check);
  Ok (mkDefinition document
        (if bool_decide (Unknown ∈ [input; output; check]) then Unknown else Known)).

(** The closure [equivalent]: every other member of [left] is in [right]. *)
Definition members_in (left right : Value) : bool :=
  match as_object left with
  | Some o =>
    forallb (λ e, bool_decide (get e.1 right = Some e.2))
      (filter (λ e, e.1 ≠ lit "id" ∧ e.1 ≠ lit "serviceVersion") o)
  | None => false
  end.
Definition service_version (v : Value) : option N := get (lit "serviceVersion") v ≫= integer.
Definition same_contract (d e : ServiceDefinition) : bool :=
  let a := doc_value (def_document d) in
  let b := doc_value (def_document e) in
  if negb (bool_decide (service_version a = service_version b)) then false
  else members_in a b && members_in b a.

(** ** Capabilities: [semantics.rs]

    The answers of the capability object may depend on, and change, its state. *)
Class Capabilities (K : Type) : Type := {
  understands : Offering → K → bool * K;
  contract : Offering → ServiceDefinition → M K BoardError unit;
  terms : Offering → M K BoardError unit;
  precondition : bytes → bool → K → bool * K;
  local_capability : Offering → K → bool * K;
}.

(** [Unavailable], with the trait's default [contract]. *)
#[global] Instance Unavailable : Capabilities unit := {|
  understands _ k := (false, k);
  contract _ _ := throw BUnsupported;
  terms _ := throw BUnsupported;
  precondition name authenticated k := (bool_decide (name = lit "cr2se.identity") && authenticated, k);
  local_capability _ k := (false, k);
|}.

Section assess.
Context {K : Type} `{!Capabilities K}.

Fixpoint check_preconditions (authenticated : bool) (names : list Value) : M K BoardError unit :=
  match names with
  | [] => mret tt
  | name :: names =>
    name ← lift (ok_or (as_str name) BInvalid);
    satisfied ← run (precondition name authenticated);
    ensure satisfied BUnsupported;;
    check_preconditions authenticated names
  end.

Definition assess (o : Offering) (d : ServiceDefinition) (authenticated is_local : bool)
    : M K BoardError unit :=
  ensure (bool_decide (def_support d = Known)) BUnsupported;;
  understood ← run (understands o);
  ensure understood BUnsupported;;
  (if is_local then supplied ← run (local_capability o); ensure supplied BUnsupported else mret tt);;
  contract o d;;
  terms o;;
  match get (lit "preconditions") (off_source o) with
  | Some required =>
    names ← lift (ok_or (as_array required) BInvalid);
    check_preconditions authenticated names
  | None => mret tt
  end.
End assess.

(** ** Responses: [response.rs] *)

Definition CONTROL_BYTES : N := 1048576.

(** The wrapper before the document: [{"type":"board","board":] and
    [{"type":"definition","definition":], with the quotes as bytes. *)
Definition quoted_lit (s : string) : bytes := x22 :: lit s ++ [x22].
Definition response_prefix (kind : bytes) : option bytes :=
  if bool_decide (kind = lit "board" ∨ kind = lit "definition") then
    Some ([x7b] ++ quoted_lit "type" ++ [x3a] ++ (x22 :: kind ++ [x22]) ++ [x2c]
          ++ (x22 :: kind ++ [x22]) ++ [x3a])
  else None.

Definition response_encode (kind : bytes) (d : Document) : result BoardError bytes :=
  prefix ← ok_or (response_prefix kind) BUnsupported;
  length ← ok_or (n ← checked_add u64_limit (len prefix) (len (doc_source d));
                  checked_add u64_limit n 1) BLimit;
  if CONTROL_BYTES <? length then Err BLimit
  else Ok (prefix ++ doc_source d ++ [x7d]).
