(* ===== verification/Prepared.v ===== *)
(** * Prepared publications

    [src/modules/board/{prepared,persistence}.rs]: complete validated
    candidates, the record of a publication and the persistence port with its
    volatile adapter. *)

From S2P Require Import Prelude Bytes Json Api Arcs BoardBase Document Offering Schema ServiceDef.

#[local] Open Scope N_scope.

(** ** Candidates: [prepared.rs] *)

Record Prepared : Type := mkPrepared {
  pre_publisher : IdentityId;
  pre_board : Board;
  pre_definitions : gmap bytes ServiceDefinition;
  pre_bytes : N;
}.

(** [try_fold] of the lengths. *)
Fixpoint sum_lengths (total : N) (l : list bytes) : option N :=
  match l with
  | [] => Some total
  | d :: l => total ← checked_add u64_limit total (len d); sum_lengths total l
  end.

Abbreviation Contracts := (gmap (bytes * N) bytes) (only parsing).

Section prepare.
Context `{SJ : !SerdeJson} {K : Type} `{!Capabilities K}.

(** The loop over the offerings, in key order. *)
Fixpoint prepare_definitions (limits : Limits) (definitions : gmap bytes bytes)
    (offerings : list (bytes * Offering)) (validated : gmap bytes ServiceDefinition)
    (contracts : Contracts) : result BoardError (gmap bytes ServiceDefinition) :=
  match offerings with
  | [] => Ok validated
  | (id, o) :: offerings =>
    raw ← ok_or (definitions !! id) BMissing;
    d ← Definition_parse raw o limits;
    _ ← response_encode (lit "definition") (def_document d);
    let contract := (off_service o, off_version o) in
    contracts ←
      match contracts !! contract with
      | Some prior_id =>
        prior ← ok_or (validated !! prior_id) BInvalid;
        if negb (same_contract d prior) then Err BInvalid else Ok contracts
      | None => Ok (<[contract := id]> contracts)
      end;
    prepare_definitions limits definitions offerings (<[id := d]> validated) contracts
  end.

(** [Prepared::new] up to the assessment. *)
Definition prepare_candidate (publisher : IdentityId) (board : bytes) (definitions : gmap bytes bytes)
    (limits : Limits) : result BoardError Prepared :=
  _ ← Limits_validate limits;
  if lim_definitions limits <? N.of_nat (size definitions) then Err BLimit else
  total ← ok_or (sum_lengths (len board) (entries definitions).*2) BLimit;
  if lim_publication_bytes limits <? total then Err BLimit else
  board ← Board_parse board limits;
  _ ← response_encode (lit "board") (board_document board);
  if negb (size definitions =? size (board_offerings board))%nat then Err BInvalid else
  validated ← prepare_definitions limits definitions (entries (board_offerings board)) ∅ ∅;
  Ok (mkPrepared publisher board validated total).

(** [self.definitions[id]] panics on a missing identifier; a candidate has a
    definition for each of its offerings. *)
Fixpoint assess_offerings (definitions : gmap bytes ServiceDefinition)
    (offerings : list (bytes * Offering)) : M K BoardError unit :=
  match offerings with
  | [] => mret tt
  | (id, o) :: offerings =>
    d ← lift (ok_or (definitions !! id) BUnknown);
    assess o d true true;;
    assess_offerings definitions offerings
  end.
Definition Prepared_assess (p : Prepared) : M K BoardError unit :=
  assess_offerings (pre_definitions p) (entries (board_offerings (pre_board p))).

Definition Prepared_new (publisher : IdentityId) (board : bytes) (definitions : gmap bytes bytes)
    (limits : Limits) : M K BoardError Prepared :=
  p ← lift (prepare_candidate publisher board definitions limits);
  Prepared_assess p;;
  mret p.

(** ** Records: [persistence.rs] *)

Record PublicationRecord : Type := mkRecord {
  rec_publisher : IdentityId;
  rec_board : bytes;
  rec_definitions : gmap bytes bytes;
}.

Definition definition_source (d : ServiceDefinition) : bytes := doc_source (def_document d).

Definition Record_from_prepared (p : Prepared) : PublicationRecord :=
  mkRecord (pre_publisher p) (doc_source (board_document (pre_board p)))
    (definition_source <$> pre_definitions p).

Definition Record_prepare (r : PublicationRecord) (limits : Limits) : M K BoardError Prepared :=
  Prepared_new (rec_publisher r) (rec_board r) (rec_definitions r) limits.

(** ** What preparation establishes *)

(** [b] is the same contract as [a]: an equivalence on distinct definitions. *)
Lemma map_get_elem key (m : list (bytes * Value)) v : map_get key m = Some v → (key, v) ∈ m.
Proof.
  induction m as [| [k w] m IH]; [done |]. cbn. destruct (bool_decide_reflect (k = key)) as [-> |].
  - intros [= ->]. by left.
  - intros H. right. by apply IH.
Qed.
Lemma members_in_spec a b : members_in a b = true ↔
  ∃ m, as_object a = Some m ∧
  ∀ k v, (k, v) ∈ m → k ≠ lit "id" → k ≠ lit "serviceVersion" → get k b = Some v.
Proof.
  unfold members_in. destruct (as_object a) as [m |]; [| by split; [| intros (? & ? & _)]].
  rewrite forallb_forall. split.
  - intros H. exists m. split; [done |]. intros k v Hin Hid Hver.
    apply (bool_decide_eq_true_1 (get (k, v).1 b = Some (k, v).2)), H, list_elem_of_In, list_elem_of_filter.
    done.
  - intros (m' & [= <-] & H) [k v] Hin. apply list_elem_of_In, list_elem_of_filter in Hin as [[Hid Hver] Hin].
    apply bool_decide_eq_true_2. by apply H.
Qed.
Lemma members_in_trans a b c : members_in a b = true → members_in b c = true → members_in a c = true.
Proof.
  rewrite !members_in_spec. intros (m & Hm & H1) (m' & Hm' & H2). exists m. split; [done |].
  intros k v Hin Hid Hver. apply H2; [| done | done]. apply map_get_elem.
  specialize (H1 k v Hin Hid Hver). unfold get in H1. by rewrite Hm' in H1.
Qed.
Lemma same_contract_spec d e : same_contract d e = true ↔
  let a := doc_value (def_document d) in let b := doc_value (def_document e) in
  service_version a = service_version b ∧ members_in a b = true ∧ members_in b a = true.
Proof.
  unfold same_contract. cbn. destruct (bool_decide_reflect (service_version (doc_value (def_document d))
    = service_version (doc_value (def_document e)))); cbn.
  - rewrite andb_true_iff. naive_solver.
  - naive_solver.
Qed.
Lemma same_contract_sym d e : same_contract d e = true → same_contract e d = true.
Proof. rewrite !same_contract_spec. cbn. naive_solver. Qed.
Lemma same_contract_trans d e f :
  same_contract d e = true → same_contract e f = true → same_contract d f = true.
Proof.
  rewrite !same_contract_spec. cbn. intros (E1 & H1 & H2) (E2 & H3 & H4).
  split; [congruence |]. split; by eapply members_in_trans.
Qed.
End prepare.
