(* ===== verification/PreparedProps.v ===== *)
(** * Prepared publications are complete and recover exactly

    What [Prepared::new] establishes, and that the durable record of a prepared
    publication prepares to that publication again. *)

From S2P Require Import Prelude Bytes Json Api Arcs BoardBase Document DocumentProps Offering Schema IdentityText.
From S2P Require Import ServiceDef Prepared.

#[local] Open Scope N_scope.

(** ** A concrete Board

    A publication with one offering, read by a JSON library that knows the
    texts of this file, and a capability object that understands its service:
    the inputs of the Board's witnesses. *)

(** *** Texts *)

Definition quote (s : bytes) : bytes := x22 :: s ++ [x22].
Fixpoint separated (l : list bytes) : bytes :=
  match l with
  | [] => []
  | [w] => w
  | w :: l => w ++ x2c :: separated l
  end.
Fixpoint print (v : Value) : bytes :=
  match v with
  | JNull => lit "null"
  | JBool b => if b then lit "true" else lit "false"
  | JNumber t => t
  | JString s => quote s
  | JArray l => x5b :: separated (map print l) ++ [x5d]
  | JObject m => x7b :: separated (map (λ '(k, v), quote k ++ x3a :: print v) m) ++ [x7d]
  end.

Definition str (s : string) : Value := JString (lit s).
Definition num (s : string) : Value := JNumber (lit s).

Definition demo_issuer : IdentityId := replicate 32 x01.
Definition demo_schema : Value := JObject [(lit "type", str "string")].
Definition demo_offering : Value := JObject
  [(lit "creditIssuer", JString (format demo_issuer)); (lit "description", str "Echo.");
   (lit "id", str "echo"); (lit "price", num "7"); (lit "service", str "org.example.echo");
   (lit "serviceVersion", num "1")].
Definition demo_board : Value := JObject
  [(lit "providedServices", JArray [demo_offering]); (lit "version", num "1");
   (lit "wantedServices", JArray [])].
Definition demo_definition : Value := JObject
  [(lit "check", JObject [(lit "description", str "Compare."); (lit "input", demo_schema);
                          (lit "output", demo_schema)]);
   (lit "description", str "Echo."); (lit "id", str "echo"); (lit "input", demo_schema);
   (lit "output", demo_schema); (lit "service", str "org.example.echo");
   (lit "serviceVersion", num "1")].
Definition demo_empty : Value := JObject
  [(lit "providedServices", JArray []); (lit "version", num "1"); (lit "wantedServices", JArray [])].

(** *** The library and the capabilities *)

Definition demo_values : list Value :=
  [demo_board; demo_definition; demo_empty; num "1"; num "7"].
#[local] Instance demo_json : SerdeJson := {|
  from_slice b := snd <$> list_find (λ v, print v = b) demo_values;
  string_from_slice b := Some (removelast (tail b));
  to_string := print;
|}.
#[local] Instance demo_capabilities : Capabilities unit := {|
  understands o k := (bool_decide (off_service o = lit "org.example.echo"), k);
  contract _ _ := mret tt;
  terms _ := mret tt;
  precondition _ authenticated k := (authenticated, k);
  local_capability _ k := (true, k);
|}.

Definition demo_publisher : IdentityId := replicate 32 x02.
Definition demo_definitions : gmap bytes bytes := {[ lit "echo" := print demo_definition ]}.
Definition demo_prepare : result BoardError Prepared * unit :=
  Prepared_new demo_publisher (print demo_board) demo_definitions Limits_default tt.

Example demo_prepared : is_ok demo_prepare.1 = true.
Proof. vm_compute. reflexivity. Qed.
Example demo_unavailable :
  (Prepared_new (Capabilities0 := Unavailable) demo_publisher (print demo_board) demo_definitions
     Limits_default tt).1 = Err BUnsupported.
Proof. vm_compute. reflexivity. Qed.
Example demo_missing_definition :
  (Prepared_new demo_publisher (print demo_board) ∅ Limits_default tt).1 = Err BInvalid.
Proof. vm_compute. reflexivity. Qed.

Definition contract_key (o : Offering) : bytes * N := (off_service o, off_version o).

Section props.
Context `{SJ : !SerdeJson}.

(** [d] is the definition of [o] read from [raw], small enough to be served. *)
Definition defines (limits : Limits) (raw : bytes) (o : Offering) (d : ServiceDefinition) : Prop :=
  Definition_parse raw o limits = Ok d ∧
  is_ok (response_encode (lit "definition") (def_document d)) = true.

(** The state of the loop after the offerings [l]. *)
Record prepared_upto (limits : Limits) (definitions : gmap bytes bytes) (l : list (bytes * Offering))
    (validated : gmap bytes ServiceDefinition) (contracts : gmap (bytes * N) bytes) : Prop := {
  pu_defined : ∀ id o, (id, o) ∈ l → ∃ raw d,
    definitions !! id = Some raw ∧ validated !! id = Some d ∧ defines limits raw o d;
  pu_dom : ∀ id, is_Some (validated !! id) → id ∈ l.*1;
  pu_first : ∀ id o, (id, o) ∈ l → ∃ id0 d d0,
    contracts !! contract_key o = Some id0 ∧ validated !! id = Some d ∧
    validated !! id0 = Some d0 ∧ (id = id0 ∨ same_contract d d0 = true);
}.

Lemma prepare_definitions_upto limits definitions l k validated contracts validated' :
  NoDup (l ++ k).*1 → prepared_upto limits definitions l validated contracts →
  prepare_definitions limits definitions k validated contracts = Ok validated' →
  ∃ contracts', prepared_upto limits definitions (l ++ k) validated' contracts'.
Proof.
  revert l validated contracts. induction k as [| [id o] k IH]; intros l validated contracts Hnd Hpu H.
  { injection H as <-. exists contracts. by rewrite app_nil_r. }
  cbn [prepare_definitions] in H. apply result_bind_Ok_inv in H as (raw & Hraw & H).
  apply ok_or_Ok in Hraw. apply result_bind_Ok_inv in H as (d & Hd & H).
  apply result_bind_Ok_inv in H as (r & Hr & H). apply result_bind_Ok_inv in H as (contracts1 & Hc & H).
  destruct Hpu as [Hdef Hdom Hfirst].
  assert (id ∉ l.*1) as Hfresh.
  { rewrite fmap_app in Hnd. apply NoDup_app in Hnd as (_ & Hnd & _). intros Hin.
    apply (Hnd id Hin). by left. }
  assert (∀ id', id' ∈ l.*1 → id' ≠ id) as Hother by (by intros id' Hin ->).
  replace (l ++ (id, o) :: k) with ((l ++ [(id, o)]) ++ k) in * by by rewrite <- app_assoc.
  eapply IH; [done | | exact H]. split.
  - intros id' o' [Hin | [= -> ->]%list_elem_of_singleton]%elem_of_app.
    + destruct (Hdef _ _ Hin) as (raw' & d' & H1 & H2 & H3). exists raw', d'.
      rewrite lookup_insert_ne; [done |]. intros <-. by apply Hfresh, (list_elem_of_fmap_2 fst _ (id, o')).
    + exists raw, d. rewrite lookup_insert_eq. split; [done |]. split; [done |]. split; [done |]. by rewrite Hr.
  - intros id' [d' Hd']. rewrite fmap_app, elem_of_app. destruct (decide (id' = id)) as [-> | Hne].
    + right. cbn. by left.
    + left. apply Hdom. rewrite lookup_insert_ne in Hd' by done. by exists d'.
  - assert (∀ id' o', (id', o') ∈ l → id' ≠ id) as Hne
      by (intros id' o' Hin; by apply Hother, (list_elem_of_fmap_2 fst _ (id', o'))).
    assert (∀ key id0, contracts !! key = Some id0 → is_Some (validated !! id0) → id0 ≠ id) as Hne0
      by (intros key id0 _ [d0 Hd0]; apply Hother, Hdom; by exists d0).
    intros id' o' [Hin | [= -> ->]%list_elem_of_singleton]%elem_of_app.
    + destruct (Hfirst _ _ Hin) as (id0 & d' & d0 & H1 & H2 & H3 & H4). exists id0, d', d0.
      rewrite !lookup_insert_ne by (intros <-; first [by eapply Hne | by eapply Hne0]).
      split; [| done]. destruct (contracts !! (off_service o, off_version o)) as [prior |] eqn:Hk.
      * apply result_bind_Ok_inv in Hc as (p & _ & Hc). by destruct (negb _); [| injection Hc as <-].
      * injection Hc as <-. rewrite lookup_insert_ne; [done |]. intros E. by rewrite E, H1 in Hk.
    + destruct (contracts !! (off_service o, off_version o)) as [prior |] eqn:Hk.
      * apply result_bind_Ok_inv in Hc as (p & Hp & Hc). apply ok_or_Ok in Hp.
        destruct (same_contract d p) eqn:Hs; [| done]. injection Hc as <-.
        exists prior, d, p. rewrite lookup_insert_eq, lookup_insert_ne
          by (intros <-; by eapply Hne0). by repeat (split; [done |]); right.
      * injection Hc as <-. exists id, d, d. rewrite !lookup_insert_eq. by repeat (split; [done |]); left.
Qed.

(** ** The parts of a candidate *)

Lemma Document_parse_ok input limits d :
  Document_parse input limits = Ok d →
  doc_source d = input ∧ from_slice input = Some (doc_value d) ∧ len input ≤ lim_document_bytes limits.
Proof.
  unfold Document_parse, Document_parse_with. intros H. inv_ok.
  destruct (N.ltb_spec (lim_document_bytes limits) (len input)); [done |].
  destruct (negb (from_utf8 input)); [done |].
  destruct ((scan_value _ _ _ _ ;; space input) _) as [r s]. inv_ok.
  destruct (negb _); [done |]. inv_ok.
  match goal with H : Ok _ = Ok _ |- _ => injection H as <- end. done.
Qed.

(** An offering's identity fields, as its document spells them. *)
Record binds (o : Offering) (d : ServiceDefinition) : Prop := {
  binds_id : get (lit "id") (doc_value (def_document d)) = Some (JString (off_id o));
  binds_service : get (lit "service") (doc_value (def_document d)) = Some (JString (off_service o));
  binds_description :
    get (lit "description") (doc_value (def_document d)) = Some (JString (off_description o));
  binds_version : service_version (doc_value (def_document d)) = Some (off_version o);
  binds_economy : ∀ f, f ∈ economic_fields → get f (doc_value (def_document d)) = None;
}.

Lemma required_string_ok v key s :
  required_string v key = Ok s → get key v = Some (JString s).
Proof.
  unfold required_string. rewrite ok_or_Ok, bind_Some. intros (s' & H & Hs).
  apply bind_Some in H as (x & Hg & Hx). destruct x; try done. injection Hx as ->.
  destruct (is_empty s'); [done |]. by injection Hs as <-.
Qed.
Lemma guard_invalid_ok b u : guard_invalid b = Ok u → b = false.
Proof. by destruct b. Qed.

Lemma Definition_parse_ok raw o limits d :
  Definition_parse raw o limits = Ok d → definition_source d = raw ∧ binds o d.
Proof.
  unfold Definition_parse. intros H. apply result_bind_Ok_inv in H as (doc & Hdoc & H).
  apply Document_parse_ok in Hdoc as (Hsrc & _). inv_ok.
  repeat match goal with
  | H : guard_invalid _ = Ok _ |- _ => apply guard_invalid_ok in H
  | H : required_string _ _ = Ok _ |- _ => apply required_string_ok in H
  | H : negb _ = false |- _ => apply negb_false_iff in H
  | H : _ || _ = false |- _ => apply orb_false_iff in H as [? ?]
  | H : bool_decide _ = true |- _ => apply bool_decide_eq_true in H
  end.
  match goal with H : Ok _ = Ok _ |- _ => injection H as <- end. split; [done |].
  match goal with H : existsb _ _ = false |- _ => rename H into Heco end.
  split; cbn [def_document]; try congruence; [done |].
  intros f Hf. destruct (get f (doc_value doc)) eqn:E; [| done]. exfalso.
  assert (existsb (λ f, bool_decide (is_Some (get f (doc_value doc)))) economic_fields = true); [| congruence].
  apply existsb_exists. exists f. split; [by apply list_elem_of_In |].
  apply bool_decide_eq_true. rewrite E. by eexists.
Qed.

(** What a parsed Board promises of its index. *)
Record offering_at (limits : Limits) (id : bytes) (o : Offering) : Prop := {
  at_id : off_id o = id;
  at_nonempty : id ≠ [];
  at_version : 0 < off_version o < u32_limit;
}.

Lemma parse_offering_at limits direction v o :
  parse_offering direction v = Ok o → offering_at limits (off_id o) o ∧ off_direction o = direction.
Proof.
  unfold parse_offering. intros H. inv_ok.
  match goal with H : Ok _ = Ok _ |- _ => injection H as <- end. cbn. split; [| done].
  match goal with H : (n ← integer _; _) = Some _ |- _ => apply bind_Some in H as (n & _ & Hn) end.
  destruct ((0 <? n) && (n <=? u32_limit - 1)) eqn:E; [| done]. injection Hn as <-.
  split; cbn; [done | | lia].
  match goal with H : required_string _ (lit "id") = Ok _ |- _ => rename H into Hid end.
  unfold required_string in Hid. apply ok_or_Ok, bind_Some in Hid as (s & _ & Hs). by destruct s; [| injection Hs as <-].
Qed.

Lemma parse_offerings_at limits direction values m m' :
  parse_offerings limits direction values m = Ok m' →
  map_Forall (offering_at limits) m → map_Forall (offering_at limits) m'.
Proof.
  revert m. induction values as [| v values IH]; intros m H Hm; [by injection H as <- |].
  cbn [parse_offerings] in H. apply result_bind_Ok_inv in H as (o & Ho & H).
  destruct (bool_decide _); [done |]. destruct (_ <? _); [done |]. eapply IH; [exact H |].
  apply map_Forall_insert_2; [| done]. by apply (parse_offering_at limits direction v).
Qed.

Lemma Board_parse_ok raw limits b :
  Board_parse raw limits = Ok b →
  doc_source (board_document b) = raw ∧ map_Forall (offering_at limits) (board_offerings b).
Proof.
  unfold Board_parse. intros H. apply result_bind_Ok_inv in H as (doc & Hdoc & H).
  apply Document_parse_ok in Hdoc as (Hsrc & _).
  apply result_bind_Ok_inv in H as (root & _ & H). apply result_bind_Ok_inv in H as (v & _ & H).
  apply result_bind_Ok_inv in H as (n & _ & H). destruct (negb _); [done |].
  apply result_bind_Ok_inv in H as (m1 & H1 & H). apply result_bind_Ok_inv in H as (m2 & H2 & H).
  injection H as <-. split; [done |]. cbn [board_offerings].
  unfold parse_direction in H1, H2. apply result_bind_Ok_inv in H1 as (l1 & _ & H1).
  apply result_bind_Ok_inv in H2 as (l2 & _ & H2).
  eapply parse_offerings_at; [exact H2 |]. eapply parse_offerings_at; [exact H1 |]. apply map_Forall_empty.
Qed.

Definition total_length (l : list bytes) : N := foldr (λ d n, len d + n) 0 l.
Lemma sum_lengths_ok total l n : sum_lengths total l = Some n → n = total + total_length l.
Proof.
  revert total. induction l as [| d l IH]; intros total H; cbn [sum_lengths] in H;
    [injection H as <-; symmetry; apply N.add_0_r |].
  change (total_length (d :: l)) with (len d + total_length l).
  apply bind_Some in H as (t & Ht & H). apply checked_add_Some in Ht as [-> _]. apply IH in H. lia.
Qed.

(** ** Candidates *)

Record candidate_ok (publisher : IdentityId) (board : bytes) (definitions : gmap bytes bytes)
    (limits : Limits) (p : Prepared) : Prop := {
  cand_limits : limits_valid limits;
  cand_publisher : pre_publisher p = publisher;
  cand_source : doc_source (board_document (pre_board p)) = board;
  cand_index : map_Forall (offering_at limits) (board_offerings (pre_board p));
  cand_dom : dom (pre_definitions p) = dom (board_offerings (pre_board p));
  cand_given : dom definitions = dom (board_offerings (pre_board p));
  cand_count : N.of_nat (size definitions) ≤ lim_definitions limits;
  cand_defined : ∀ id o, board_offerings (pre_board p) !! id = Some o → ∃ raw d,
    definitions !! id = Some raw ∧ pre_definitions p !! id = Some d ∧ defines limits raw o d;
  cand_contracts : ∀ id1 id2 o1 o2 d1 d2, id1 ≠ id2 →
    board_offerings (pre_board p) !! id1 = Some o1 → board_offerings (pre_board p) !! id2 = Some o2 →
    pre_definitions p !! id1 = Some d1 → pre_definitions p !! id2 = Some d2 →
    contract_key o1 = contract_key o2 → same_contract d1 d2 = true;
  cand_bytes : pre_bytes p = len board + total_length (entries definitions).*2;
  cand_budget : pre_bytes p ≤ lim_publication_bytes limits;
}.

Lemma prepare_candidate_ok publisher board definitions limits p :
  prepare_candidate publisher board definitions limits = Ok p →
  candidate_ok publisher board definitions limits p.
Proof.
  unfold prepare_candidate. intros H. apply result_bind_Ok_inv in H as ([] & Hl & H).
  apply Limits_validate_ok in Hl. destruct (N.ltb_spec (lim_definitions limits) (N.of_nat (size definitions))) as [| Hcount]; [done |].
  apply result_bind_Ok_inv in H as (total & Ht & H). apply ok_or_Ok, sum_lengths_ok in Ht.
  destruct (N.ltb_spec (lim_publication_bytes limits) total) as [| Hbudget]; [done |].
  apply result_bind_Ok_inv in H as (b & Hb & H). apply Board_parse_ok in Hb as [Hsrc Hat].
  apply result_bind_Ok_inv in H as (r & _ & H).
  destruct (Nat.eqb_spec (size definitions) (size (board_offerings b))) as [Hsize |]; [| done].
  apply result_bind_Ok_inv in H as (validated & Hv & H). injection H as <-.
  apply (prepare_definitions_upto limits definitions []) in Hv as [contracts [Hdef Hdom Hfirst]];
    [| apply entries_NoDup | split; [by intros ? ? ?%not_elem_of_nil | by intros ? [? ?]
                             | by intros ? ? ?%not_elem_of_nil]].
  cbn [app] in *. setoid_rewrite entries_elem in Hdef. setoid_rewrite entries_elem in Hfirst.
  rewrite entries_keys in Hdom. setoid_rewrite keys_elem in Hdom.
  split; cbn [pre_publisher pre_board pre_definitions pre_bytes]; try done.
  - apply set_eq. intros id. rewrite !elem_of_dom. split; [apply Hdom |].
    intros [o Ho]. destruct (Hdef _ _ Ho) as (raw & d & _ & Hd & _). by exists d.
  - symmetry. apply set_subseteq_size_eq; [| by rewrite !size_dom; lia].
    intros id. rewrite !elem_of_dom. intros [o Ho].
    destruct (Hdef _ _ Ho) as (raw & d & Hraw & _). by exists raw.
  - intros id1 id2 o1 o2 d1 d2 Hne Ho1 Ho2 Hd1 Hd2 Hkey.
    destruct (Hfirst _ _ Ho1) as (i1 & e1 & p1 & Hk1 & He1 & Hp1 & Hs1).
    destruct (Hfirst _ _ Ho2) as (i2 & e2 & p2 & Hk2 & He2 & Hp2 & Hs2).
    rewrite Hkey, Hk2 in Hk1. injection Hk1 as <-. simplify_eq.
    destruct Hs1 as [-> | Hs1], Hs2 as [-> | Hs2]; simplify_eq.
    + by apply same_contract_sym.
    + done.
    + eapply same_contract_trans; [exact Hs1 |]. by apply same_contract_sym.
Qed.

(** The record of a candidate is exactly what it was prepared from. *)
Lemma record_of_candidate publisher board definitions limits p :
  candidate_ok publisher board definitions limits p →
  Record_from_prepared p = mkRecord publisher board definitions.
Proof.
  intros []. unfold Record_from_prepared. rewrite cand_publisher0, cand_source0. f_equal.
  apply map_eq. intros id. rewrite lookup_fmap.
  destruct (board_offerings (pre_board p) !! id) as [o |] eqn:Ho.
  - destruct (cand_defined0 _ _ Ho) as (raw & d & -> & -> & Hd & _). cbn. f_equal.
    by apply Definition_parse_ok in Hd as [-> _].
  - assert (id ∉ dom (board_offerings (pre_board p))) as Hn by (by apply not_elem_of_dom).
    rewrite (proj1 (not_elem_of_dom (pre_definitions p) id)) by (by rewrite cand_dom0).
    by rewrite (proj1 (not_elem_of_dom definitions id)) by (by rewrite cand_given0).
Qed.

Context {K : Type} `{!Capabilities K}.

Lemma Prepared_new_inv publisher board definitions limits k p k' :
  Prepared_new publisher board definitions limits k = (Ok p, k') →
  prepare_candidate publisher board definitions limits = Ok p ∧ Prepared_assess p k = (Ok tt, k').
Proof.
  unfold Prepared_new. intros H. apply bind_Ok_inv in H as (q & k1 & Hq & H).
  apply lift_Ok_inv in Hq as [Hq ->]. apply bind_Ok_inv in H as ([] & k2 & Ha & H).
  injection H as -> ->. done.
Qed.

(** Every condition under which the capabilities accept one offering with its
    definition, asked in the code's order, each answer leaving the state the
    next one is asked in: a definition of understood schemas, an understood
    contract, local support, the validated contract and terms, and every
    required precondition, each named by a string. *)
Fixpoint satisfied (authenticated : bool) (names : list Value) (k k' : K) : Prop :=
  match names with
  | [] => k' = k
  | name :: names => ∃ n k1, as_str name = Some n ∧
      precondition n authenticated k = (true, k1) ∧ satisfied authenticated names k1 k'
  end.
Definition accepts (authenticated is_local : bool) (o : Offering) (d : ServiceDefinition) (k k' : K) : Prop :=
  def_support d = Known ∧
  ∃ k1 k2 k3 k4,
    understands o k = (true, k1) ∧
    (if is_local then local_capability o k1 = (true, k2) else k2 = k1) ∧
    contract o d k2 = (Ok tt, k3) ∧
    terms o k3 = (Ok tt, k4) ∧
    match get (lit "preconditions") (off_source o) with
    | Some required => ∃ names, as_array required = Some names ∧ satisfied authenticated names k4 k'
    | None => k' = k4
    end.
Fixpoint accepts_all (definitions : gmap bytes ServiceDefinition) (l : list (bytes * Offering)) (k k' : K) : Prop :=
  match l with
  | [] => k' = k
  | (id, o) :: l => ∃ d k1, definitions !! id = Some d ∧ accepts true true o d k k1 ∧
      accepts_all definitions l k1 k'
  end.

Lemma check_preconditions_accepts authenticated names k k' :
  check_preconditions authenticated names k = (Ok tt, k') → satisfied authenticated names k k'.
Proof.
  revert k. induction names as [| name names IH]; intros k H; [by injection H as -> |].
  cbn [check_preconditions] in H. apply bind_Ok_inv in H as (n & k1 & Hn & H).
  apply lift_Ok_inv in Hn as [Hn ->]. apply ok_or_Ok in Hn. apply bind_Ok_inv in H as (b & k2 & Hb & H).
  apply bind_Ok_inv in H as ([] & k3 & Hs & H). apply ensure_Ok_inv in Hs as [-> ->].
  exists n, k2. split; [done |]. split; [| by apply IH]. unfold run in Hb.
  destruct (precondition n authenticated k) as [a k4]. by injection Hb as -> ->.
Qed.
Lemma run_Ok_inv {A} (f : K → A * K) k a k' : run (E := BoardError) f k = (Ok a, k') → f k = (a, k').
Proof. unfold run. destruct (f k) as [b k1]. by intros [= -> ->]. Qed.
Lemma assess_accepts o d authenticated is_local k k' :
  assess o d authenticated is_local k = (Ok tt, k') → accepts authenticated is_local o d k k'.
Proof.
  unfold assess. intros H. apply bind_Ok_inv in H as ([] & k0 & Hs & H).
  apply ensure_Ok_inv in Hs as [Hs ->]. apply bool_decide_eq_true in Hs. split; [done |].
  apply bind_Ok_inv in H as (b & k1 & Hu & H). apply run_Ok_inv in Hu.
  apply bind_Ok_inv in H as ([] & k1' & Hb & H). apply ensure_Ok_inv in Hb as [-> ->].
  apply bind_Ok_inv in H as ([] & k2 & Hl & H). apply bind_Ok_inv in H as ([] & k3 & Hc & H).
  apply bind_Ok_inv in H as ([] & k4 & Ht & H). exists k1, k2, k3, k4. split; [done |].
  split; [| split; [done | split; [done |]]].
  - destruct is_local; [| by injection Hl as ->]. apply bind_Ok_inv in Hl as (b & k5 & Hp & Hl).
    apply run_Ok_inv in Hp. by apply ensure_Ok_inv in Hl as [-> ->].
  - destruct (get (lit "preconditions") (off_source o)) as [required |]; [| by injection H as ->].
    apply bind_Ok_inv in H as (names & k5 & Hn & H). apply lift_Ok_inv in Hn as [Hn ->].
    apply ok_or_Ok in Hn. exists names. split; [done |]. by apply check_preconditions_accepts.
Qed.
Lemma assess_offerings_accepts definitions l k k' :
  assess_offerings definitions l k = (Ok tt, k') → accepts_all definitions l k k'.
Proof.
  revert k. induction l as [| [i o] l IH]; intros k H; [by injection H as -> |].
  cbn [assess_offerings] in H. apply bind_Ok_inv in H as (d & k1 & Hd & H).
  apply lift_Ok_inv in Hd as [Hd ->]. apply ok_or_Ok in Hd. apply bind_Ok_inv in H as ([] & k2 & Ha & H).
  exists d, k2. split; [done |]. split; [by apply assess_accepts | by apply IH].
Qed.
Lemma accepts_all_known definitions l k k' :
  accepts_all definitions l k k' → ∀ id o, (id, o) ∈ l →
  ∃ d, definitions !! id = Some d ∧ def_support d = Known.
Proof.
  revert k. induction l as [| [i o] l IH]; intros k H id o' Hin; [by apply not_elem_of_nil in Hin |].
  destruct H as (d & k1 & Hd & [Hs _] & H).
  apply elem_of_cons in Hin as [[= -> ->] | Hin]; [by exists d | by eapply IH].
Qed.

(** C27: a publication candidate is complete.  When [Prepared::new] accepts a
    Board and its definitions, the Board's offerings are indexed by their own
    nonempty identifiers, there is exactly one definition for each offering and
    no other, every definition is read from the given bytes, repeats the
    identity fields of its offering, carries no economic terms and consists of
    understood schemas, two offerings of the same service version share one
    logical contract, and the charged bytes are the exact total within the
    budget.  Its capabilities were accepted too: going through the offerings in
    key order, the capability object understood each one, had local support for
    it, validated its definition as that contract and its terms, and held every
    precondition the offering requires for an authenticated peer. *)
Theorem prepared_complete publisher board definitions limits k p k' :
  Prepared_new publisher board definitions limits k = (Ok p, k') →
  pre_publisher p = publisher ∧ doc_source (board_document (pre_board p)) = board ∧
  dom definitions = dom (board_offerings (pre_board p)) ∧
  dom (pre_definitions p) = dom (board_offerings (pre_board p)) ∧
  (∀ id o, board_offerings (pre_board p) !! id = Some o →
     off_id o = id ∧ id ≠ [] ∧
     ∃ d, pre_definitions p !! id = Some d ∧ definitions !! id = Some (definition_source d) ∧
          binds o d ∧ def_support d = Known) ∧
  (∀ id1 id2 o1 o2 d1 d2, id1 ≠ id2 →
     board_offerings (pre_board p) !! id1 = Some o1 → board_offerings (pre_board p) !! id2 = Some o2 →
     pre_definitions p !! id1 = Some d1 → pre_definitions p !! id2 = Some d2 →
     contract_key o1 = contract_key o2 → same_contract d1 d2 = true) ∧
  pre_bytes p = len board + total_length (entries definitions).*2 ∧
  pre_bytes p ≤ lim_publication_bytes limits ∧
  accepts_all (pre_definitions p) (entries (board_offerings (pre_board p))) k k'.
Proof.
  intros H. apply Prepared_new_inv in H as [H Ha]. apply prepare_candidate_ok in H.
  apply assess_offerings_accepts in Ha.
  pose proof (accepts_all_known _ _ _ _ Ha) as Hknown. destruct H.
  repeat (split; [done |]). split; [| done].
  intros id o Ho. destruct (cand_defined0 _ _ Ho) as (raw & d & Hraw & Hd & Hdef & _).
  apply Definition_parse_ok in Hdef as [Hsrc Hb].
  destruct (cand_index0 _ _ Ho) as [Hid Hne _]. split; [done |]. split; [done |].
  exists d. rewrite Hsrc. repeat (split; [done |]).
  destruct (Hknown id o) as (d' & Hd' & Hs); [by apply entries_elem | congruence].
Qed.

(** Recovery is exact.  The record stored for a prepared publication is the
    publisher, Board bytes and definition bytes it was prepared from, and
    preparing that record again under the same limits yields the very same
    publication as soon as its capabilities are granted, and their refusal
    otherwise: durable bytes never prepare to anything else. *)
Theorem recovery_exact publisher board definitions limits k p k' :
  Prepared_new publisher board definitions limits k = (Ok p, k') →
  Record_from_prepared p = mkRecord publisher board definitions ∧
  ∀ k1, Record_prepare (Record_from_prepared p) limits k1 = (Prepared_assess p;; mret p) k1.
Proof.
  intros H. apply Prepared_new_inv in H as [H _]. pose proof (prepare_candidate_ok _ _ _ _ _ H) as Hc.
  apply record_of_candidate in Hc as Hr. split; [done |]. intros k1. rewrite Hr.
  unfold Record_prepare, Prepared_new. cbn [rec_publisher rec_board rec_definitions]. rewrite H.
  by erewrite bind_Ok by reflexivity.
Qed.
End props.

(** ** At the demonstration publication *)

#[local] Existing Instance demo_json.
#[local] Existing Instance demo_capabilities.

Lemma prepared_complete_witness :
  ∃ p k', demo_prepare = (Ok p, k') ∧
  dom (pre_definitions p) = dom (board_offerings (pre_board p)) ∧
  pre_bytes p = len (print demo_board) + total_length (entries demo_definitions).*2 ∧
  size (board_offerings (pre_board p)) = 1%nat ∧
  accepts_all (pre_definitions p) (entries (board_offerings (pre_board p))) tt k'.
Proof.
  assert (is_ok demo_prepare.1 = true) as H by (vm_compute; reflexivity).
  destruct demo_prepare as [[p | e] k'] eqn:E; [| discriminate H]. exists p, k'. split; [reflexivity |].
  destruct (prepared_complete demo_publisher (print demo_board) demo_definitions Limits_default tt p k' E)
    as (_ & _ & _ & Hdom & _ & _ & Hbytes & _ & Hall).
  split; [exact Hdom |]. split; [exact Hbytes |]. split; [| exact Hall].
  assert (∀ q, demo_prepare.1 = Ok q → size (board_offerings (pre_board q)) = 1%nat) as Hsize;
    [intros q Hq; vm_compute in Hq; injection Hq as <-; vm_compute; reflexivity |].
  apply Hsize. rewrite E. reflexivity.
Defined.

Lemma recovery_exact_witness :
  ∃ p k', demo_prepare = (Ok p, k') ∧
  Record_prepare (Record_from_prepared p) Limits_default tt = (Prepared_assess p;; mret p) tt.
Proof.
  assert (is_ok demo_prepare.1 = true) as H by (vm_compute; reflexivity).
  destruct demo_prepare as [[p | e] k'] eqn:E; [| discriminate H]. exists p, k'. split; [reflexivity |].
  exact (proj2 (recovery_exact demo_publisher (print demo_board) demo_definitions Limits_default tt p k' E) tt).
Defined.
