(* ===== verification/RecordCodec.v ===== *)
(** * The private record encoding

    [src/modules/board/record_codec.rs]: the bounded length-delimited encoding
    of a publication record, and its round trips. *)

From S2P Require Import Prelude Bytes Json Api Arcs BoardBase Prepared.

#[local] Open Scope N_scope.

Definition RECORD_MAGIC : bytes := Eval cbv in lit "TSBOARD1".

Definition maximum (l : Limits) : result BoardError N :=
  ok_or (n ← (n ← checked_mul u64_limit (lim_publication_bytes l) 2;
              d ← checked_mul u64_limit (lim_definitions l) RECORD_ENTRY_BYTES;
              checked_add u64_limit n d);
         checked_add u64_limit n RECORD_FIXED_BYTES) BLimit.

(** ** Encoding *)

Definition u32_try_from (n : N) : option N := if n <? u32_limit then Some n else None.

(** [put]: what is appended to the output. *)
Definition put (input : bytes) (max : N) : result BoardError bytes :=
  if max <? len input then Err BLimit else
  n ← ok_or (u32_try_from (len input)) BLimit;
  Ok (to_be 4 n ++ input).

Fixpoint put_definitions (l : Limits) (ds : list (bytes * bytes)) : result BoardError bytes :=
  match ds with
  | [] => Ok []
  | (id, d) :: ds =>
    a ← put id (lim_string_bytes l);
    b ← put d (lim_document_bytes l);
    out ← put_definitions l ds;
    Ok (a ++ b ++ out)
  end.

Definition encode (r : PublicationRecord) (l : Limits) : result BoardError bytes :=
  _ ← Limits_validate l;
  if lim_definitions l <? N.of_nat (size (rec_definitions r)) then Err BLimit else
  total ← ok_or (sum_lengths (len (rec_board r)) (entries (rec_definitions r)).*2) BLimit;
  if lim_publication_bytes l <? total then Err BLimit else
  board ← put (rec_board r) (lim_document_bytes l);
  count ← ok_or (u32_try_from (N.of_nat (size (rec_definitions r)))) BLimit;
  ds ← put_definitions l (entries (rec_definitions r));
  let out := RECORD_MAGIC ++ rec_publisher r ++ board ++ to_be 4 count ++ ds in
  m ← maximum l;
  if m <? len out then Err BLimit else Ok out.

(** ** Decoding

    The state of the readers is [rest], the bytes not read yet. *)

Definition take_n (n : nat) : M bytes BoardError bytes := λ rest,
  if (length rest <? n)%nat then (Err BInvalid, rest) else (Ok (take n rest), drop n rest).
Definition number : M bytes BoardError N :=
  b ← take_n 4;
  mret (from_be b).
Definition read_field (max : N) : M bytes BoardError bytes :=
  n ← number;
  if max <? n then throw BLimit else take_n (N.to_nat n).

Fixpoint read_definitions (l : Limits) (count : nat) (definitions : gmap bytes bytes) (total : N)
    : M bytes BoardError (gmap bytes bytes) :=
  match count with
  | O => mret definitions
  | S count =>
    id ← read_field (lim_string_bytes l);
    ensure (from_utf8 id) BInvalid;;
    d ← read_field (lim_document_bytes l);
    total ← lift (ok_or (checked_add u64_limit total (len d)) BLimit);
    ensure (negb (lim_publication_bytes l <? total)) BLimit;;
    ensure (bool_decide (definitions !! id = None)) BInvalid;;
    read_definitions l count (<[id := d]> definitions) total
  end.

Definition read_record (l : Limits) : M bytes BoardError PublicationRecord :=
  magic ← take_n 8;
  ensure (bool_decide (magic = RECORD_MAGIC)) BInvalid;;
  publisher ← take_n 32;
  board ← read_field (lim_document_bytes l);
  count ← number;
  ensure (negb (lim_definitions l <? count)) BLimit;;
  definitions ← read_definitions l (N.to_nat count) ∅ (len board);
  rest ← gets id;
  ensure (is_empty rest) BInvalid;;
  mret (mkRecord publisher board definitions).

Definition decode (input : bytes) (l : Limits) : result BoardError PublicationRecord :=
  _ ← Limits_validate l;
  m ← maximum l;
  if m <? len input then Err BLimit else (read_record l input).1.

(** ** Fields *)

Lemma take_n_app a rest : take_n (length a) (a ++ rest) = (Ok a, rest).
Proof.
  unfold take_n. rewrite length_app, (proj2 (Nat.ltb_ge _ _)) by lia.
  by rewrite take_app_length, drop_app_length.
Qed.
Lemma take_n_ok n rest a rest' :
  take_n n rest = (Ok a, rest') → rest = a ++ rest' ∧ length a = n.
Proof.
  unfold take_n. destruct (Nat.ltb_spec (length rest) n); [done |]. intros [= <- <-].
  rewrite take_drop, length_take. split; [done | lia].
Qed.

Lemma number_app n rest : n < u32_limit → number (to_be 4 n ++ rest) = (Ok n, rest).
Proof.
  intros Hn. unfold number. erewrite bind_Ok by (rewrite <- (to_be_length 4 n); apply take_n_app).
  by rewrite from_to_be_small.
Qed.
Lemma number_ok rest n rest' :
  number rest = (Ok n, rest') → rest = to_be 4 n ++ rest' ∧ n < u32_limit.
Proof.
  unfold number. intros H. inv_ok. match goal with H : take_n _ _ = _ |- _ => apply take_n_ok in H as [-> Hl] end.
  rewrite to_from_be_n by done. split; [done |].
  match goal with |- from_be ?b < _ => pose proof (from_be_bound b) as Hb end.
  unfold len in Hb. by rewrite Hl in Hb.
Qed.

Lemma put_ok d max out :
  put d max = Ok out ↔ len d ≤ max ∧ len d < u32_limit ∧ out = to_be 4 (len d) ++ d.
Proof.
  unfold put, u32_try_from. destruct (N.ltb_spec max (len d)); [split; [done | lia] |].
  destruct (N.ltb_spec (len d) u32_limit); cbn [ok_or mbind result_bind].
  - split; [by intros [= <-] | by intros (_ & _ & ->)].
  - split; [done | lia].
Qed.
Lemma read_field_app d max rest :
  len d ≤ max → len d < u32_limit → read_field max (to_be 4 (len d) ++ d ++ rest) = (Ok d, rest).
Proof.
  intros Hm Hd. unfold read_field. erewrite bind_Ok by by apply number_app.
  rewrite (proj2 (N.ltb_ge _ _)) by done. unfold len. rewrite Nat2N.id. apply take_n_app.
Qed.
Lemma read_field_ok max rest d rest' :
  read_field max rest = (Ok d, rest') →
  rest = to_be 4 (len d) ++ d ++ rest' ∧ len d ≤ max ∧ len d < u32_limit.
Proof.
  unfold read_field. intros H. apply bind_Ok_inv in H as (n & r & Hn & H).
  apply number_ok in Hn as [-> Hn]. destruct (N.ltb_spec max n); [done |].
  apply take_n_ok in H as [-> Hl]. assert (len d = n) as -> by (unfold len; lia). done.
Qed.

(** ** Definitions *)

Definition insert_all (m : gmap bytes bytes) (ds : list (bytes * bytes)) : gmap bytes bytes :=
  foldl (λ m e, <[e.1 := e.2]> m) m ds.

Lemma insert_all_lookup m ds k :
  NoDup ds.*1 → insert_all m ds !! k = match (list_to_map ds : gmap bytes bytes) !! k with
                                      | Some v => Some v | None => m !! k end.
Proof.
  revert m. induction ds as [| [i d] ds IH]; intros m Hnd; [cbn; by rewrite lookup_empty |].
  cbn in Hnd |- *. apply NoDup_cons in Hnd as [Hi Hnd]. rewrite IH by done.
  destruct (decide (k = i)) as [-> | Hne].
  - rewrite lookup_insert_eq, (not_elem_of_list_to_map_1 ds i Hi). by rewrite lookup_insert_eq.
  - by rewrite !lookup_insert_ne.
Qed.
Lemma insert_all_entries m : insert_all ∅ (entries m) = m.
Proof.
  apply map_eq. intros k. rewrite insert_all_lookup by apply entries_NoDup. rewrite entries_map.
  rewrite lookup_empty. by destruct (m !! k).
Qed.

Definition lengths (ds : list (bytes * bytes)) : N := foldr (λ e n, len e.2 + n) 0 ds.

Lemma sum_lengths_spec total l n : n < u64_limit →
  sum_lengths total l = Some n ↔ n = total + foldr (λ d n, len d + n) 0 l.
Proof.
  revert total. induction l as [| d l IH]; intros total Hn; cbn [sum_lengths foldr].
  - rewrite N.add_0_r. split; [by intros [= ->] | by intros ->].
  - rewrite bind_Some. unfold checked_add. destruct (N.ltb_spec (total + len d) u64_limit) as [Ht | Ht].
    + split; [intros (? & [= <-] & H); apply IH in H; [lia | done] |].
      intros ->. eexists. split; [reflexivity |]. apply IH; [done | lia].
    + split; [by intros (? & ? & _) | lia].
Qed.

Lemma read_definitions_app l ds ds_out m total rest :
  put_definitions l ds = Ok ds_out → NoDup ds.*1 → (∀ id, id ∈ ds.*1 → m !! id = None) →
  Forall (λ e, from_utf8 e.1 = true) ds → total + lengths ds ≤ lim_publication_bytes l →
  lim_publication_bytes l < u64_limit →
  read_definitions l (length ds) m total (ds_out ++ rest) = (Ok (insert_all m ds), rest).
Proof.
  revert ds_out m total. induction ds as [| [id d] ds IH]; intros ds_out m total Hp Hnd Hm Hu Ht Hl.
  { by injection Hp as <-. }
  cbn [put_definitions] in Hp. inv_ok. match goal with H : Ok _ = Ok _ |- _ => injection H as <- end.
  repeat match goal with H : put _ _ = Ok _ |- _ => apply put_ok in H as (? & ? & ->) end.
  cbn in Hnd. apply NoDup_cons in Hnd as [Hid Hnd]. apply Forall_cons in Hu as [Hu0 Hu].
  cbn [lengths foldr fst snd] in Ht. fold (lengths ds) in Ht. cbn [length read_definitions fst snd] in *.
  rewrite <- !app_assoc. erewrite bind_Ok by by apply read_field_app.
  erewrite bind_Ok by (by rewrite Hu0). erewrite bind_Ok by by apply read_field_app.
  assert (checked_add u64_limit total (len d) = Some (total + len d)) as Hadd
    by (apply checked_add_Some; split; [done | lia]).
  rewrite Hadd. erewrite bind_Ok by reflexivity.
  erewrite bind_Ok by (rewrite (proj2 (N.ltb_ge _ _)) by lia; reflexivity).
  erewrite bind_Ok by (rewrite bool_decide_true by (apply Hm; by left); reflexivity).
  rewrite IH; try done; [| lia].
  intros id' Hin. rewrite lookup_insert_ne; [apply Hm; by right |]. intros <-. done.
Qed.

Lemma read_definitions_ok l count m total rest m' rest' :
  read_definitions l count m total rest = (Ok m', rest') → total ≤ lim_publication_bytes l →
  ∃ ds out, put_definitions l ds = Ok out ∧ rest = out ++ rest' ∧ length ds = count ∧
    NoDup ds.*1 ∧ (∀ id, id ∈ ds.*1 → m !! id = None) ∧ Forall (λ e, from_utf8 e.1 = true) ds ∧
    total + lengths ds ≤ lim_publication_bytes l ∧ m' = insert_all m ds.
Proof.
  revert m total rest. induction count as [| count IH]; intros m total rest H Htotal.
  { injection H as -> ->. exists [], []. repeat split; try done; [constructor | by intros ? ?%not_elem_of_nil |].
    cbn. lia. }
  cbn [read_definitions] in H. apply bind_Ok_inv in H as (id & r1 & Hid & H).
  apply bind_Ok_inv in H as ([] & r2 & Hu & H). apply ensure_Ok_inv in Hu as [Hu ->].
  apply bind_Ok_inv in H as (d & r3 & Hd & H). apply bind_Ok_inv in H as (t & r4 & Ht & H).
  apply lift_Ok_inv in Ht as [Ht ->]. apply ok_or_Ok, checked_add_Some in Ht as [-> _].
  apply bind_Ok_inv in H as ([] & r5 & Hb & H). apply ensure_Ok_inv in Hb as [Hb ->].
  apply negb_true_iff, N.ltb_ge in Hb.
  apply bind_Ok_inv in H as ([] & r6 & Hn & H). apply ensure_Ok_inv in Hn as [Hn ->].
  apply bool_decide_eq_true in Hn.
  apply read_field_ok in Hid as (-> & Hid1 & Hid2). apply read_field_ok in Hd as (-> & Hd1 & Hd2).
  apply IH in H as (ds & out & Hput & -> & Hlen & Hnd & Hm & Hus & Hsum & ->); [| done].
  exists ((id, d) :: ds). eexists. split; [| split; [| split; [| split; [| split; [| split; [| split]]]]]].
  - cbn [put_definitions]. rewrite (proj2 (put_ok id (lim_string_bytes l) _)) by done.
    cbn [mbind result_bind]. rewrite (proj2 (put_ok d (lim_document_bytes l) _)) by done.
    cbn [mbind result_bind]. rewrite Hput. reflexivity.
  - by rewrite <- !app_assoc.
  - cbn. by rewrite Hlen.
  - cbn. constructor; [| done]. intros Hin. apply Hm in Hin. by rewrite lookup_insert_eq in Hin.
  - cbn. intros id' [-> | Hin]%elem_of_cons; [done |]. pose proof (Hm _ Hin) as Hk.
    destruct (decide (id' = id)) as [-> | Hne]; [done |]. by rewrite lookup_insert_ne in Hk.
  - by constructor.
  - cbn [lengths foldr snd]. fold (lengths ds). lia.
  - done.
Qed.

(** ** The whole record *)

(** The invariants of the record's types: a 32-byte identity, UTF-8 keys. *)
Record record_wf (r : PublicationRecord) : Prop := {
  wf_publisher : length (rec_publisher r) = 32%nat;
  wf_keys : ∀ id, is_Some (rec_definitions r !! id) → from_utf8 id = true;
}.

Definition fits (l : Limits) (e : bytes * bytes) : Prop :=
  (len e.1 ≤ lim_string_bytes l ∧ len e.1 < u32_limit) ∧
  (len e.2 ≤ lim_document_bytes l ∧ len e.2 < u32_limit).
Definition spell_definitions (ds : list (bytes * bytes)) : bytes :=
  ds ≫= λ e, (to_be 4 (len e.1) ++ e.1) ++ to_be 4 (len e.2) ++ e.2.

Lemma put_definitions_ok l ds out :
  put_definitions l ds = Ok out ↔ Forall (fits l) ds ∧ out = spell_definitions ds.
Proof.
  revert out. induction ds as [| [id d] ds IH]; intros out; cbn [put_definitions].
  { split; [by intros [= <-] | by intros [_ ->]]. }
  rewrite Forall_cons. unfold fits at 1. cbn [fst snd]. split.
  - intros H. inv_ok. match goal with H : Ok _ = Ok _ |- _ => injection H as <- end.
    repeat match goal with
    | H : put _ _ = Ok _ |- _ => apply put_ok in H as (? & ? & ->)
    | H : put_definitions _ _ = Ok _ |- _ => apply IH in H as [? ->]
    end.
    split; [done |]. cbn. by rewrite <- !app_assoc.
  - intros [[[[H1 H2] [H3 H4]] Hf] ->].
    rewrite (proj2 (put_ok id (lim_string_bytes l) _)) by done. cbn [mbind result_bind].
    rewrite (proj2 (put_ok d (lim_document_bytes l) _)) by done. cbn [mbind result_bind].
    rewrite (proj2 (IH _)) by done. cbn [mbind result_bind]. f_equal. cbn. by rewrite <- !app_assoc.
Qed.

Lemma spell_definitions_len ds ds' :
  ds ≡ₚ ds' → len (spell_definitions ds) = len (spell_definitions ds').
Proof. intros Hp. unfold len, spell_definitions. f_equal. apply Permutation_length. by rewrite Hp. Qed.

Lemma lengths_snd ds : foldr (λ d n, len d + n) 0 ds.*2 = lengths ds.
Proof. induction ds as [| [id d] ds IH]; [done |]. cbn. by rewrite IH. Qed.
Lemma lengths_perm ds ds' : ds ≡ₚ ds' → lengths ds = lengths ds'.
Proof.
  unfold lengths. induction 1 as [| e l l' _ IH | e e' l | l1 l2 l3 _ IH1 _ IH2]; cbn; [done | by rewrite IH | lia | congruence].
Qed.

Lemma maximum_ok l : limits_valid l →
  maximum l = Ok (lim_publication_bytes l * 2 + lim_definitions l * RECORD_ENTRY_BYTES + RECORD_FIXED_BYTES).
Proof.
  intros Hl. pose proof (lv_envelope _ Hl) as He. unfold maximum. apply ok_or_Ok.
  unfold RECORD_ENTRY_BYTES, RECORD_FIXED_BYTES in *.
  rewrite (proj2 (checked_mul_Some _ (lim_publication_bytes l) 2 _)) by (split; [reflexivity | lia]). cbn [mbind option_bind].
  rewrite (proj2 (checked_mul_Some _ (lim_definitions l) 12 _)) by (split; [reflexivity | lia]). cbn [mbind option_bind].
  rewrite (proj2 (checked_add_Some _ (lim_publication_bytes l * 2) _ _)) by (split; [reflexivity | lia]). cbn [mbind option_bind].
  apply checked_add_Some. split; [reflexivity | lia].
Qed.

(** What an encoding is. *)
Record encodes (l : Limits) (r : PublicationRecord) (ds : list (bytes * bytes)) (out : bytes) : Prop := {
  enc_limits : limits_valid l;
  enc_out : out = RECORD_MAGIC ++ rec_publisher r ++ to_be 4 (len (rec_board r)) ++ rec_board r
                  ++ to_be 4 (len ds) ++ spell_definitions ds;
  enc_board : len (rec_board r) ≤ lim_document_bytes l;
  enc_count : len ds ≤ lim_definitions l ∧ len ds < u32_limit;
  enc_fits : Forall (fits l) ds;
  enc_total : len (rec_board r) + lengths ds ≤ lim_publication_bytes l;
  enc_max : len out ≤ lim_publication_bytes l * 2 + lim_definitions l * RECORD_ENTRY_BYTES + RECORD_FIXED_BYTES;
}.

Lemma entries_len (m : gmap bytes bytes) : N.of_nat (size m) = len (entries m).
Proof. unfold len. by rewrite entries_length. Qed.

Lemma encode_ok r l out : encode r l = Ok out ↔ encodes l r (entries (rec_definitions r)) out.
Proof.
  unfold encode, u32_try_from. rewrite entries_len. split.
  - intros H. apply result_bind_Ok_inv in H as ([] & Hl & H). apply Limits_validate_ok in Hl.
    destruct (N.ltb_spec (lim_definitions l) (len (entries (rec_definitions r)))); [done |].
    apply result_bind_Ok_inv in H as (total & Ht & H).
    destruct (N.ltb_spec (lim_publication_bytes l) total); [done |].
    pose proof (lv_envelope _ Hl) as He. unfold RECORD_ENTRY_BYTES, RECORD_FIXED_BYTES in *.
    apply ok_or_Ok, sum_lengths_spec in Ht as ->; [| lia]. rewrite lengths_snd in *.
    apply result_bind_Ok_inv in H as (b & Hb & H). apply put_ok in Hb as (Hb1 & Hb2 & ->).
    apply result_bind_Ok_inv in H as (n & Hn & H). apply ok_or_Ok in Hn.
    destruct (N.ltb_spec (len (entries (rec_definitions r))) u32_limit); [| done]. injection Hn as <-.
    apply result_bind_Ok_inv in H as (d & Hd & H). apply put_definitions_ok in Hd as [Hf ->].
    rewrite maximum_ok in H by done. cbn [mbind result_bind] in H.
    destruct (N.ltb_spec (lim_publication_bytes l * 2 + lim_definitions l * RECORD_ENTRY_BYTES + RECORD_FIXED_BYTES)
      (len (RECORD_MAGIC ++ rec_publisher r ++ (to_be 4 (len (rec_board r)) ++ rec_board r) ++
        to_be 4 (len (entries (rec_definitions r))) ++ spell_definitions (entries (rec_definitions r))))); [done |].
    injection H as <-. split; try done.
  - intros [Hl Hout Hb [Hc1 Hc2] Hf Ht Hm]. rewrite (proj2 (Limits_validate_ok l)) by done. cbn [mbind result_bind].
    rewrite (proj2 (N.ltb_ge _ _)) by done.
    pose proof (lv_envelope _ Hl) as He. pose proof (lv_document _ Hl) as Hd.
    rewrite (proj2 (sum_lengths_spec _ _ (len (rec_board r) + lengths (entries (rec_definitions r))) ltac:(unfold RECORD_ENTRY_BYTES, RECORD_FIXED_BYTES in *; lia)))
      by (by rewrite lengths_snd).
    cbn [ok_or mbind result_bind]. rewrite (proj2 (N.ltb_ge _ _)) by done.
    rewrite (proj2 (put_ok (rec_board r) _ _)) by (split; [exact Hb |]; split; [lia | reflexivity]).
    cbn [mbind result_bind]. rewrite (proj2 (N.ltb_lt _ u32_limit)) by done. cbn [ok_or mbind result_bind].
    rewrite (proj2 (put_definitions_ok _ _ _)) by done. cbn [mbind result_bind].
    rewrite maximum_ok by done. cbn [mbind result_bind].
    rewrite Hout in Hm. rewrite (proj2 (N.ltb_ge _ _)) by (rewrite <- !app_assoc; exact Hm).
    f_equal. rewrite Hout. by rewrite <- !app_assoc.
Qed.

Lemma insert_all_perm (m : gmap bytes bytes) ds :
  NoDup ds.*1 → insert_all ∅ ds = m ↔ ds ≡ₚ entries m.
Proof.
  intros Hnd. split.
  - intros <-. rewrite entries_permutation.
    assert (insert_all ∅ ds = list_to_map ds) as ->.
    { apply map_eq. intros k. rewrite insert_all_lookup by done. rewrite lookup_empty.
      by destruct (list_to_map ds !! k). }
    by rewrite map_to_list_to_map.
  - intros Hp. apply map_eq. intros k. rewrite insert_all_lookup by done. rewrite lookup_empty.
    rewrite (list_to_map_proper ds (entries m)), entries_map by done. by destruct (m !! k).
Qed.

Lemma read_record_ok l input r rest : limits_valid l →
  read_record l input = (Ok r, rest) → record_wf r ∧ ∃ ds, ds ≡ₚ entries (rec_definitions r) ∧
  input = RECORD_MAGIC ++ rec_publisher r ++ to_be 4 (len (rec_board r)) ++ rec_board r
          ++ to_be 4 (len ds) ++ spell_definitions ds ∧
  len (rec_board r) ≤ lim_document_bytes l ∧ (len ds ≤ lim_definitions l ∧ len ds < u32_limit) ∧
  Forall (fits l) ds ∧ len (rec_board r) + lengths ds ≤ lim_publication_bytes l.
Proof.
  intros Hl H. unfold read_record in H.
  apply bind_Ok_inv in H as (magic & r1 & Hmagic & H). apply take_n_ok in Hmagic as [-> _].
  apply bind_Ok_inv in H as ([] & r2 & Hm & H). apply ensure_Ok_inv in Hm as [Hm ->].
  apply bool_decide_eq_true in Hm as ->.
  apply bind_Ok_inv in H as (publisher & r3 & Hp & H). apply take_n_ok in Hp as [-> Hp].
  apply bind_Ok_inv in H as (board & r4 & Hb & H). apply read_field_ok in Hb as (-> & Hb & Hb').
  apply bind_Ok_inv in H as (count & r5 & Hc & H). apply number_ok in Hc as [-> Hc].
  apply bind_Ok_inv in H as ([] & r6 & Hcl & H). apply ensure_Ok_inv in Hcl as [Hcl ->].
  apply negb_true_iff, N.ltb_ge in Hcl. apply bind_Ok_inv in H as (m & r7 & Hd & H).
  pose proof (lv_publication _ Hl) as Hpub.
  apply read_definitions_ok in Hd as (ds & out & Hput & -> & Hlen & Hnd & _ & Hu & Hsum & ->); [| lia].
  apply bind_Ok_inv in H as (left & r8 & [= <- <-] & H). cbn [id] in H.
  apply bind_Ok_inv in H as ([] & r9 & He & H). apply ensure_Ok_inv in He as [He ->].
  destruct r7; [| done]. injection H as <- <-. apply put_definitions_ok in Hput as [Hf ->].
  cbn [rec_publisher rec_board rec_definitions].
  pose proof (proj1 (insert_all_perm _ ds Hnd) eq_refl) as Hperm. split.
  - split; [done |]. cbn [rec_definitions]. intros id [d Hd]. apply entries_elem in Hd.
    rewrite <- Hperm in Hd. rewrite Forall_forall in Hu. by apply (Hu (id, d)).
  - exists ds. split; [done |]. assert (len ds = count) as -> by (unfold len; lia).
    rewrite app_nil_r. done.
Qed.

Lemma decode_ok l input r :
  decode input l = Ok r ↔ record_wf r ∧ ∃ ds, ds ≡ₚ entries (rec_definitions r) ∧ encodes l r ds input.
Proof.
  unfold decode. split.
  - intros H. apply result_bind_Ok_inv in H as ([] & Hl & H). apply Limits_validate_ok in Hl.
    rewrite maximum_ok in H by done. cbn [mbind result_bind] in H.
    destruct (N.ltb_spec (lim_publication_bytes l * 2 + lim_definitions l * RECORD_ENTRY_BYTES + RECORD_FIXED_BYTES)
      (len input)) as [| Hmax]; [done |].
    destruct (read_record l input) as [x rest] eqn:Hr. cbn [fst] in H. subst x.
    apply read_record_ok in Hr as (Hwf & ds & Hp & Hin & Hb & Hc & Hf & Ht); [| done].
    split; [done |]. by exists ds.
  - intros [[Hpub Hkeys] (ds & Hp & [Hl Hout Hb [Hc1 Hc2] Hf Ht Hmax])].
    rewrite (proj2 (Limits_validate_ok l)) by done. cbn [mbind result_bind].
    rewrite maximum_ok by done. cbn [mbind result_bind]. rewrite (proj2 (N.ltb_ge _ _)) by done.
    assert (read_record l input = (Ok r, [])) as ->; [| done]. subst input. unfold read_record.
    erewrite bind_Ok by apply (take_n_app RECORD_MAGIC).
    erewrite bind_Ok by (rewrite bool_decide_true by done; reflexivity).
    erewrite bind_Ok by (rewrite <- Hpub; apply take_n_app).
    pose proof (lv_document _ Hl) as Hd. erewrite bind_Ok by (apply read_field_app; lia).
    erewrite bind_Ok by (by apply number_app).
    erewrite bind_Ok by (rewrite (proj2 (N.ltb_ge _ _)) by done; reflexivity).
    assert (NoDup ds.*1) as Hnd by (rewrite Hp; apply entries_NoDup).
    erewrite bind_Ok.
    2: { rewrite <- (app_nil_r (spell_definitions ds)). unfold len. rewrite Nat2N.id.
         apply read_definitions_app; try done.
         - by apply put_definitions_ok.
         - rewrite Forall_forall. intros [id d] Hin. rewrite Hp in Hin. apply entries_elem in Hin.
           apply Hkeys. by exists d.
         - pose proof (lv_envelope _ Hl). unfold RECORD_ENTRY_BYTES, RECORD_FIXED_BYTES in *. lia. }
    erewrite bind_Ok by reflexivity. erewrite bind_Ok by reflexivity. unfold mret, M_ret.
    rewrite (proj2 (insert_all_perm _ ds Hnd)) by exact Hp. by destruct r.
Qed.

(** C29: the private record codec.  Every record that is encoded decodes to
    itself; every byte string that decodes is within the record bounds, yields
    a record with UTF-8 identifiers, each once, whose encoding succeeds under
    the same limits with the same length and decodes to the same record again:
    two encodings of one record differ at most in the order of its
    definitions. *)
Theorem record_codec_exact l :
  (∀ r out, record_wf r → encode r l = Ok out → decode out l = Ok r) ∧
  (∀ input r, decode input l = Ok r →
     record_wf r ∧ len input ≤ lim_publication_bytes l * 2 + lim_definitions l * 12 + 64 ∧
     ∃ out, encode r l = Ok out ∧ len out = len input ∧ decode out l = Ok r).
Proof.
  split.
  - intros r out Hwf H. apply decode_ok. split; [done |]. exists (entries (rec_definitions r)).
    split; [done |]. by apply encode_ok.
  - intros input r H. pose proof H as H'. apply decode_ok in H' as [Hwf (ds & Hp & [Hl Hout Hb Hc Hf Ht Hmax])].
    split; [done |]. split; [done |].
    set (es := entries (rec_definitions r)) in *.
    set (out := RECORD_MAGIC ++ rec_publisher r ++ to_be 4 (len (rec_board r)) ++ rec_board r
                ++ to_be 4 (len es) ++ spell_definitions es).
    assert (len es = len ds) as Hlen by (unfold len; by rewrite Hp).
    assert (len out = len input) as Hsame.
    { rewrite Hout. unfold out. rewrite !len_app, !to_be_len. by rewrite (spell_definitions_len es ds). }
    assert (encodes l r es out) as He.
    { split; try done.
      - by rewrite Hlen.
      - by rewrite <- Hp.
      - by rewrite <- (lengths_perm ds es).
      - by rewrite Hsame. }
    exists out. split; [by apply encode_ok |]. split; [done |]. apply decode_ok. split; [done |]. by exists es.
Qed.

Example record_codec_example :
  let r := mkRecord (replicate 32 x01) (lit "{}") {[ lit "x" := lit "{}" ]} in
  match encode r Limits_default with
  | Ok out => bool_decide (len out = 61) && is_ok (decode out Limits_default)
              && is_err (decode (removelast out) Limits_default)
  | Err _ => false
  end = true.
Proof. vm_compute. reflexivity. Qed.
