(* ===== verification/Publication.v ===== *)
(** * Local publications

    [src/modules/board/{state,selection}.rs] and the port of [persistence.rs]:
    the owner of one publisher's Board, with its durable storage, its pinned
    revisions as reference-counted cells, and the selection of exact terms. *)

From S2P Require Import Prelude Bytes Json Api Arcs BoardBase Document Offering Schema ServiceDef.
From S2P Require Import Prepared.

#[local] Open Scope N_scope.

(** ** The persistence port *)

Class Persistence (S : Type) : Type := {
  storage_load : M S BoardError (option PublicationRecord);
  storage_commit : PublicationRecord → M S BoardError unit;
}.

(** [Memory] *)
Definition Memory : Type := option PublicationRecord.
Definition Memory_default : Memory := None.
#[global] Instance Memory_persistence : Persistence Memory := {|
  storage_load m := (Ok m, m);
  storage_commit r _ := (Ok tt, Some r);
|}.

(** ** Snapshots: [contract.rs] *)

(** [data] keeps its revision alive; [domain] is a weak reference. *)
Record Snapshot : Type := mkSnapshot {
  snap_publisher : IdentityId;
  snap_board : bytes;
  snap_data : option N;
  snap_domain : N;
}.

(** ** Selections: [selection.rs] *)

Record SelectRequest : Type := mkRequest {
  req_id : bytes;
  req_service : bytes;
  req_version : N;
  req_description : bytes;
  req_other : IdentityId;
  req_authenticated : bool;
}.

Record Selection : Type := mkSelection {
  sel_offering : Offering;
  sel_definition : ServiceDefinition;
  sel_publisher : IdentityId;
  sel_requester : IdentityId;
  sel_provider : IdentityId;
}.

Definition roles (s : Selection) : IdentityId * IdentityId * IdentityId :=
  (sel_requester s, sel_provider s, off_issuer (sel_offering s)).
Definition contract_matches (s t : Selection) : bool :=
  same_contract (sel_definition s) (sel_definition t).

(** The private [select]. *)
Definition select {K} `{!Capabilities K} (o : Offering) (d : ServiceDefinition)
    (publisher : IdentityId) (r : SelectRequest) : M K BoardError Selection :=
  ensure (bool_decide (off_service o = req_service r) && (off_version o =? req_version r)
          && bool_decide (off_description o = req_description r)) BStale;;
  assess o d (req_authenticated r) false;;
  let '(requester, provider) :=
    match off_direction o with
    | Provided => (req_other r, publisher)
    | Wanted => (publisher, req_other r)
    end in
  mret (mkSelection o d publisher requester provider).

(** ** The owner: [state.rs] *)

(** The clock and authority domains, the capability object, the published
    revisions and the owners' domain tokens. *)
Record BoardWorld (T K : Type) : Type := mkBoardWorld {
  bw_control : Control T;
  bw_capabilities : K;
  bw_revisions : Arcs Prepared;
  bw_tokens : Arcs unit;
}.
Arguments mkBoardWorld {T K} _ _ _ _.
Arguments bw_control {T K} _.
Arguments bw_capabilities {T K} _.
Arguments bw_revisions {T K} _.
Arguments bw_tokens {T K} _.

(** [Provider] with the contents of its mutex; [poisoned] is set when a call
    panics while it holds the lock, which no call of this module does. *)
Record Provider (S : Type) : Type := mkProvider {
  pv_authority : Authority;
  pv_limits : Limits;
  pv_publisher : IdentityId;
  pv_domain : N;
  pv_poisoned : bool;
  pv_storage : S;
  pv_uncertain : bool;
  pv_current : option Snapshot;
  pv_pins : list N;
}.
Arguments mkProvider {S} _ _ _ _ _ _ _ _ _.
Arguments pv_authority {S} _.
Arguments pv_limits {S} _.
Arguments pv_publisher {S} _.
Arguments pv_domain {S} _.
Arguments pv_poisoned {S} _.
Arguments pv_storage {S} _.
Arguments pv_uncertain {S} _.
Arguments pv_current {S} _.
Arguments pv_pins {S} _.

Section provider.
Context {T : Type} `{!MonotonicTime T} {K : Type} `{!Capabilities K} {S : Type} `{!Persistence S}
  `{SJ : !SerdeJson}.

Abbreviation World := (BoardWorld T K) (only parsing).
Abbreviation Pv := (Provider S) (only parsing).
Abbreviation PSt := (Pv * World)%type (only parsing).
Abbreviation PM := (M PSt BoardError) (only parsing).

Definition set_storage (s : S) (p : Pv) : Pv :=
  mkProvider (pv_authority p) (pv_limits p) (pv_publisher p) (pv_domain p) (pv_poisoned p) s
    (pv_uncertain p) (pv_current p) (pv_pins p).
Definition set_uncertain (b : bool) (p : Pv) : Pv :=
  mkProvider (pv_authority p) (pv_limits p) (pv_publisher p) (pv_domain p) (pv_poisoned p)
    (pv_storage p) b (pv_current p) (pv_pins p).
Definition set_current (c : option Snapshot) (p : Pv) : Pv :=
  mkProvider (pv_authority p) (pv_limits p) (pv_publisher p) (pv_domain p) (pv_poisoned p)
    (pv_storage p) (pv_uncertain p) c (pv_pins p).
Definition set_pins (l : list N) (p : Pv) : Pv :=
  mkProvider (pv_authority p) (pv_limits p) (pv_publisher p) (pv_domain p) (pv_poisoned p)
    (pv_storage p) (pv_uncertain p) (pv_current p) l.
Definition set_revisions (h : Arcs Prepared) (w : World) : World :=
  mkBoardWorld (bw_control w) (bw_capabilities w) h (bw_tokens w).

(** Calls on the parts of the state. *)
Definition on_control {A} (m : M (Control T) BoardError A) : PM A := λ '(p, w),
  let '(r, c) := m (bw_control w) in
  (r, (p, mkBoardWorld c (bw_capabilities w) (bw_revisions w) (bw_tokens w))).
Definition on_capabilities {A} (m : M K BoardError A) : PM A := λ '(p, w),
  let '(r, k) := m (bw_capabilities w) in
  (r, (p, mkBoardWorld (bw_control w) k (bw_revisions w) (bw_tokens w))).
Definition on_storage {A} (m : M S BoardError A) : PM A := λ '(p, w),
  let '(r, s) := m (pv_storage p) in (r, (set_storage s p, w)).
Definition on_provider (f : Pv → Pv) : PM unit := λ '(p, w), (Ok tt, (f p, w)).
Definition on_revisions (f : Arcs Prepared → Arcs Prepared) : PM unit := λ '(p, w),
  (Ok tt, (p, set_revisions (f (bw_revisions w)) w)).
Definition self : PM Pv := λ '(p, w), (Ok p, (p, w)).

(** [context.check(&self.authority, self.publisher, action, bytes)]. *)
Definition check (x : CallContext) (action : Action) (n : N) : PM unit :=
  p ← self;
  on_control (Context_check x (pv_authority p) (pv_publisher p) action n).
(** [self.state.lock()]. *)
Definition lock : PM unit := p ← self; ensure (negb (pv_poisoned p)) BUnknown.

(** The revision behind a snapshot; it is alive as long as the snapshot is. *)
Definition revision (s : Snapshot) (w : World) : option Prepared :=
  snap_data s ≫= λ r, arc_get r (bw_revisions w).
Definition get_revision (s : Snapshot) : PM (option Prepared) := gets (λ '(p, w), revision s w).

Definition Snapshot_clone (s : Snapshot) (h : Arcs Prepared) : Arcs Prepared :=
  match snap_data s with Some r => arc_clone r h | None => h end.
Definition Snapshot_drop (s : Snapshot) (h : Arcs Prepared) : Arcs Prepared :=
  arc_drop_option (snap_data s) h.
Definition drop_snapshot_option (o : option Snapshot) (h : Arcs Prepared) : Arcs Prepared :=
  match o with Some s => Snapshot_drop s h | None => h end.

(** [pins.retain(...)], then the admission of one more revision: replacing an
    unpinned current revision releases it. *)
Definition admit_revision : PM unit :=
  (λ '(p, w),
    let pins := filter (λ r, alive r (bw_revisions w) = true) (pv_pins p) in
    let p := set_pins pins p in
    let releases_current :=
      match pv_current p ≫= snap_data with
      | Some r => (strong_count r (bw_revisions w) =? 1)%nat
      | None => false
      end in
    if lim_snapshots (pv_limits p) <=? len pins - (if releases_current then 1 else 0)
    then (Err BLimit, (p, w)) else (Ok tt, (p, w))).

(** [Arc::new(prepared)], and the snapshot that owns it. *)
Definition new_revision (d : Prepared) : PM N := λ '(p, w),
  let '(r, h) := arc_new d (bw_revisions w) in (Ok r, (p, set_revisions h w)).
Definition snapshot_of (p : Pv) (d : Prepared) (r : N) : Snapshot :=
  mkSnapshot (pv_publisher p) (doc_source (board_document (pre_board d))) (Some r) (pv_domain p).
Definition push_pin (r : N) (p : Pv) : Pv := set_pins (pv_pins p ++ [r]) p.
(** [state.current = current]: the replaced snapshot is dropped. *)
Definition replace_current (c : option Snapshot) : PM unit := λ '(p, w),
  (Ok tt, (set_current c p,
           set_revisions (drop_snapshot_option (pv_current p) (bw_revisions w)) w)).
(** An early return after [r] was created drops it. *)
Definition dropping (r : N) {A} (m : PM A) : PM A := λ s,
  match m s with
  | (Ok a, s) => (Ok a, s)
  | (Err e, (p, w)) => (Err e, (p, set_revisions (arc_drop r (bw_revisions w)) w))
  end.

(** [Provider::new] with its storage box; [new] passes [Memory::default()], and
    [open] replaces the box before it is used. *)
Definition Provider_create (publisher : IdentityId) (authority : Authority) (limits : Limits)
    (storage : S) (w : World) : result BoardError (Pv * World) :=
  _ ← Limits_validate limits;
  let '(domain, h) := arc_new tt (bw_tokens w) in
  Ok (mkProvider authority limits publisher domain false storage false None [],
      mkBoardWorld (bw_control w) (bw_capabilities w) (bw_revisions w) h).

(** The body of [open] after the owner was created. *)
Definition open_storage : PM unit :=
  record ← on_storage storage_load;
  match record with
  | None => mret tt
  | Some record =>
    p ← self;
    ensure (bool_decide (rec_publisher record = pv_publisher p)) BDenied;;
    d ← on_capabilities (Record_prepare record (pv_limits p));
    r ← new_revision d;
    on_provider (push_pin r);;
    on_provider (set_current (Some (snapshot_of p d r)))
  end.
(** A failed [open] drops the owner and with it its domain token. *)
Definition Provider_open (publisher : IdentityId) (authority : Authority) (limits : Limits)
    (storage : S) (w : World) : result BoardError Pv * World :=
  match Provider_create publisher authority limits storage w with
  | Err e => (Err e, w)
  | Ok s =>
    match open_storage s with
    | (Ok _, (p, w)) => (Ok p, w)
    | (Err e, (p, w)) =>
      (Err e, mkBoardWorld (bw_control w) (bw_capabilities w) (bw_revisions w)
                (arc_drop (pv_domain p) (bw_tokens w)))
    end
  end.

Definition recover (x : CallContext) : PM unit :=
  check x ActPublish 0;;
  lock;;
  record ← on_storage storage_load;
  p ← self;
  match record with
  | Some record =>
    ensure (bool_decide (rec_publisher record = pv_publisher p)) BDenied;;
    d ← on_capabilities (Record_prepare record (pv_limits p));
    r ← new_revision d;
    dropping r
      (admit_revision;;
       on_provider (push_pin r);;
       check x ActPublish 0);;
    replace_current (Some (snapshot_of p d r))
  | None =>
    check x ActPublish 0;;
    replace_current None
  end;;
  on_provider (set_uncertain false).

Definition publish (x : CallContext) (candidate : Prepared) : PM Snapshot :=
  p ← self;
  check x ActPublish (pre_bytes candidate);;
  ensure (bool_decide (pre_publisher candidate = pv_publisher p)) BDenied;;
  ensure (negb (lim_publication_bytes (pv_limits p) <? pre_bytes candidate)) BLimit;;
  let definitions := definition_source <$> pre_definitions candidate in
  candidate ← on_capabilities (Prepared_new (pv_publisher p)
    (doc_source (board_document (pre_board candidate))) definitions (pv_limits p));
  lock;;
  check x ActPublish (pre_bytes candidate);;
  p ← self;
  ensure (negb (pv_uncertain p)) BUnknown;;
  admit_revision;;
  on_capabilities (Prepared_assess candidate);;
  check x ActPublish (pre_bytes candidate);;
  committed ← try_ (on_storage (storage_commit (Record_from_prepared candidate)));
  match committed with
  | Err error =>
    on_provider (if bool_decide (error = BUnknown) then set_uncertain true else id);;
    throw error
  | Ok _ =>
    data ← new_revision candidate;
    on_revisions (arc_clone data);;
    let snapshot := snapshot_of p candidate data in
    on_provider (push_pin data);;
    on_revisions (Snapshot_clone snapshot);;
    replace_current (Some snapshot);;
    on_revisions (arc_drop data);;
    mret snapshot
  end.

Definition read (x : CallContext) : PM Snapshot :=
  check x ActRead 0;;
  lock;;
  p ← self;
  ensure (negb (pv_uncertain p)) BUnknown;;
  snapshot ← lift (ok_or (pv_current p) BMissing);
  check x ActRead (len (snap_board snapshot));;
  on_revisions (Snapshot_clone snapshot);;
  mret snapshot.

Definition check_snapshot (s : Snapshot) : PM unit := λ '(p, w),
  if negb (alive (snap_domain s) (bw_tokens w)) then (Err BDenied, (p, w)) else
  if negb (snap_domain s =? pv_domain p) || negb (bool_decide (snap_publisher s = pv_publisher p))
  then (Err BDenied, (p, w)) else (Ok tt, (p, w)).

Definition definition (x : CallContext) (s : Snapshot) (id : bytes) : PM ServiceDefinition :=
  check_snapshot s;;
  data ← get_revision s;
  data ← lift (ok_or data BMissing);
  d ← lift (ok_or (pre_definitions data !! id) BMissing);
  check x ActRead (len (definition_source d));;
  mret d.

Definition current_selection (x : CallContext) (selected : Selection) : PM unit :=
  check x ActSelect (len (to_string (off_source (sel_offering selected))));;
  p ← self;
  ensure (bool_decide (sel_publisher selected = pv_publisher p)) BDenied;;
  lock;;
  ensure (negb (pv_uncertain p)) BUnknown;;
  current ← lift (ok_or (pv_current p) BStale);
  data ← get_revision current;
  data ← lift (ok_or data BStale);
  let id := off_id (sel_offering selected) in
  ensure (negb
    (match board_offerings (pre_board data) !! id with
     | None => true
     | Some o => negb (bool_decide (off_source o = off_source (sel_offering selected)))
     end ||
     match pre_definitions data !! id with
     | None => true
     | Some d => negb (bool_decide (doc_value (def_document d)
                                    = doc_value (def_document (sel_definition selected))))
     end)) BStale.

Definition Provider_select (x : CallContext) (s : Snapshot) (r : SelectRequest) : PM Selection :=
  check_snapshot s;;
  check x ActSelect (len (snap_board s));;
  data ← get_revision s;
  data ← lift (ok_or data BMissing);
  o ← lift (ok_or (board_offerings (pre_board data) !! req_id r) BMissing);
  d ← lift (ok_or (pre_definitions data !! req_id r) BMissing);
  p ← self;
  selected ← on_capabilities (select o d (pv_publisher p) r);
  current_selection x selected;;
  mret selected.

End provider.
