(* ===== verification/PublicationInv.v ===== *)
(** * The invariant of local publications

    The register an owner implements, the invariant of an owner, its storage
    and the snapshots its clients hold, and that every call keeps the invariant
    and is served by the register. *)

From S2P Require Import Prelude Bytes Json Api Arcs BoardBase Document Offering Schema ServiceDef.
From S2P Require Import Prepared PreparedProps RecordCodec Publication.

#[local] Open Scope N_scope.

(** ** What the owner relies on of a persistence adapter

    The contract documented at the port: a load returns the committed record
    and changes nothing, an acknowledged commit replaces it, and only an
    unknown outcome leaves it open whether the commit took place.  Records have
    the types of the source: a 32-byte publisher and UTF-8 identifiers. *)
Class PersistenceLaws (S : Type) `{!Persistence S} : Type := {
  stored : S → option PublicationRecord;
  load_exact s : ∀ r, (storage_load s).1 = Ok r → r = stored s;
  load_keeps s : stored (storage_load s).2 = stored s;
  commit_ok s r s' : record_wf r → storage_commit r s = (Ok tt, s') → stored s' = Some r;
  commit_refused s r e s' :
    storage_commit r s = (Err e, s') → e ≠ BUnknown → stored s' = stored s;
  commit_unknown s r s' : record_wf r →
    storage_commit r s = (Err BUnknown, s') → stored s' = stored s ∨ stored s' = Some r;
}.

#[global] Program Instance Memory_laws : PersistenceLaws Memory := {| stored m := m |}.
Next Obligation. by intros m r [= <-]. Qed.
Next Obligation. done. Qed.
Next Obligation. by intros m r s' _ [= <-]. Qed.
Next Obligation. done. Qed.
Next Obligation. done. Qed.

(** ** The specification: an atomic register

    [visible] is what readers see, [durable] what would be recovered; they
    agree until a commit ends with an unknown outcome, after which nothing is
    served until a recovery. *)
Record Register : Type := mkRegister {
  visible : option PublicationRecord;
  durable : option PublicationRecord;
  settled : bool;
}.
Inductive BoardCall : Type :=
| CallPublish (r : PublicationRecord) (answer : result BoardError (option PublicationRecord))
| CallRead (answer : result BoardError (option PublicationRecord))
| CallRecover (answer : result BoardError unit)
| CallOther.

Inductive serves : Register → BoardCall → Register → Prop :=
| serves_publish v r :
    serves (mkRegister v v true) (CallPublish r (Ok (Some r))) (mkRegister (Some r) (Some r) true)
| serves_publish_refused a r e : serves a (CallPublish r (Err e)) a
| serves_publish_unknown v r d : d = v ∨ d = Some r →
    serves (mkRegister v v true) (CallPublish r (Err BUnknown)) (mkRegister v d false)
| serves_read r d :
    serves (mkRegister (Some r) d true) (CallRead (Ok (Some r))) (mkRegister (Some r) d true)
| serves_read_refused a e : serves a (CallRead (Err e)) a
| serves_recover v d b : serves (mkRegister v d b) (CallRecover (Ok tt)) (mkRegister d d true)
| serves_recover_refused a e : serves a (CallRecover (Err e)) a
| serves_other a : serves a CallOther a.

Lemma len_filter {A} (P : A → Prop) `{!∀ x, Decision (P x)} (l : list A) : len (filter P l) ≤ len l.
Proof. pose proof (length_filter P l). unfold len. lia. Qed.

Section props.
Context {T : Type} `{!MonotonicTime T} {K : Type} `{!Capabilities K} {S : Type} `{!Persistence S}
  `{!PersistenceLaws S} `{SJ : !SerdeJson}.

Abbreviation World := (BoardWorld T K) (only parsing).
Abbreviation Pv := (Provider S) (only parsing).
Abbreviation PSt := (Pv * World)%type (only parsing).
Abbreviation PM := (M PSt BoardError) (only parsing).

(** ** Calls that leave the owner alone

    Checks, assessments and reads change the clock and the capability object
    only. *)
Record framed (s s' : PSt) : Prop := {
  framed_provider : s'.1 = s.1;
  framed_revisions : bw_revisions s'.2 = bw_revisions s.2;
  framed_tokens : bw_tokens s'.2 = bw_tokens s.2;
}.
#[global] Instance framed_preorder : PreOrder framed.
Proof.
  split; [by intros s; split |]. intros a b c [E1 E2 E3] [E4 E5 E6]. split; congruence.
Qed.
Definition quiet {A} (m : PM A) : Prop := ∀ s, framed s (m s).2.

Lemma quiet_ret {A} (a : A) : quiet (mret a).
Proof. intros s. reflexivity. Qed.
Lemma quiet_throw {A} e : quiet (throw (A := A) e).
Proof. intros s. reflexivity. Qed.
Lemma quiet_lift {A} (r : result BoardError A) : quiet (lift r).
Proof. intros s. reflexivity. Qed.
Lemma quiet_ensure b e : quiet (ensure b e).
Proof. intros s. by destruct b. Qed.
Lemma quiet_self : quiet self.
Proof. by intros [p w]. Qed.
Lemma quiet_get_revision s : quiet (get_revision s).
Proof. intros s'. reflexivity. Qed.
Lemma quiet_bind {A B} (m : PM A) (f : A → PM B) :
  quiet m → (∀ a, quiet (f a)) → quiet (m ≫= f).
Proof.
  intros Hm Hf s. specialize (Hm s). unfold mbind, M_bind.
  destruct (m s) as [[a | e] s']; [| done]. etrans; [exact Hm | apply Hf].
Qed.
Lemma quiet_on_control {A} (m : M (Control T) BoardError A) : quiet (on_control m).
Proof. intros [p w]. unfold on_control. by destruct (m _). Qed.
Lemma quiet_on_capabilities {A} (m : M K BoardError A) : quiet (on_capabilities m).
Proof. intros [p w]. unfold on_capabilities. by destruct (m _). Qed.
Lemma quiet_check x a n : quiet (check x a n).
Proof. apply quiet_bind; [apply quiet_self |]. intros p. apply quiet_on_control. Qed.
Lemma quiet_lock : quiet lock.
Proof. apply quiet_bind; [apply quiet_self |]. intros p. apply quiet_ensure. Qed.
Lemma quiet_check_snapshot s : quiet (check_snapshot s).
Proof. intros [p w]. unfold check_snapshot. by repeat case_match. Qed.

#[local] Hint Resolve quiet_ret quiet_throw quiet_lift quiet_ensure quiet_self quiet_get_revision
  quiet_bind quiet_on_capabilities quiet_check quiet_lock quiet_check_snapshot : core.

Lemma quiet_definition x s id : quiet (definition x s id).
Proof. unfold definition. eauto 20. Qed.
Lemma quiet_current_selection x sel : quiet (current_selection x sel).
Proof. unfold current_selection. eauto 20. Qed.
#[local] Hint Resolve quiet_current_selection : core.
Lemma quiet_select x s r : quiet (Provider_select x s r).
Proof. unfold Provider_select. eauto 20. Qed.

(** One quiet call of a body: it fails with nothing changed, or the body goes
    on from an equal owner. *)
Lemma quiet_next {A B} (m : PM A) (f : A → PM B) p (w : World) h r p' w' :
  quiet m → bw_revisions w = h → (m ≫= f) (p, w) = (r, (p', w')) →
  (∃ e, r = Err e ∧ p' = p ∧ bw_revisions w' = h) ∨
  ∃ a w1, m (p, w) = (Ok a, (p, w1)) ∧ bw_revisions w1 = h ∧ f a (p, w1) = (r, (p', w')).
Proof.
  intros Hm <- H. specialize (Hm (p, w)). unfold mbind, M_bind in H.
  destruct (m (p, w)) as [[a | e] [p1 w1]]; destruct Hm as [E1 E2 _]; cbn in E1, E2; subst p1.
  - right. by exists a, w1.
  - left. injection H as <- <- <-. by exists e.
Qed.

Lemma quiet_ok {A B} (m : PM A) (f : A → PM B) p (w : World) b s' :
  quiet m → (m ≫= f) (p, w) = (Ok b, s') →
  ∃ a w1, m (p, w) = (Ok a, (p, w1)) ∧ bw_revisions w1 = bw_revisions w ∧ f a (p, w1) = (Ok b, s').
Proof.
  intros Hm H. specialize (Hm (p, w)). apply bind_Ok_inv in H as (a & [p1 w1] & H1 & H).
  rewrite H1 in Hm. destruct Hm as [E1 E2 _]. cbn in E1, E2. subst p1. by exists a, w1.
Qed.

(** ** Deployments

    The owner, its revisions and the snapshots [held] by its clients. *)
Definition owners (p : Pv) (held : list Snapshot) : list N :=
  omap snap_data (option_list (pv_current p) ++ held).

(** [s] is a snapshot of [p] whose revision is the complete publication [d]. *)
Record issues (p : Pv) (h : Arcs Prepared) (s : Snapshot) (d : Prepared) : Prop := {
  issues_publisher : snap_publisher s = pv_publisher p;
  issues_domain : snap_domain s = pv_domain p;
  issues_revision : snap_data s ≫= (λ r, arc_get r h) = Some d;
  issues_board : snap_board s = doc_source (board_document (pre_board d));
  issues_complete : ∃ definitions,
    candidate_ok (pv_publisher p) (snap_board s) definitions (pv_limits p) d;
}.

(** The record of the current revision. *)
Definition record_of (p : Pv) (h : Arcs Prepared) : option PublicationRecord :=
  match pv_current p ≫= snap_data with
  | Some r => Record_from_prepared <$> arc_get r h
  | None => None
  end.

(** The revisions that are still alive, among those the owner has pinned. *)
Definition live_pins (p : Pv) (h : Arcs Prepared) : list N :=
  filter (λ r, alive r h = true) (pv_pins p).

Record deployed (p : Pv) (h : Arcs Prepared) (held : list Snapshot) : Prop := {
  dp_owned : owned h (owners p held);
  dp_nodup : NoDup (pv_pins p);
  dp_pinned : ∀ r, r ∈ owners p held → r ∈ pv_pins p;
  dp_fresh : ∀ r, r ∈ pv_pins p → r < fresh h;
  dp_bound : len (live_pins p h) ≤ lim_snapshots (pv_limits p);
  dp_issued : ∀ s, s ∈ option_list (pv_current p) ++ held → ∃ d, issues p h s d;
  dp_limits : limits_valid (pv_limits p);
  dp_settled : pv_uncertain p = false → stored (pv_storage p) = record_of p h;
}.

Lemma issues_heap p h h' s d :
  (∀ r, snap_data s = Some r → arc_get r h' = arc_get r h) → issues p h s d → issues p h' s d.
Proof.
  intros Hh [Hp Hd Hr Hb Hc]. split; try done. destruct (snap_data s) as [r |]; [| done].
  cbn in *. by rewrite Hh.
Qed.
Lemma issues_data p h s d : issues p h s d → ∃ r, snap_data s = Some r ∧ arc_get r h = Some d.
Proof. intros [_ _ Hr _ _]. by apply bind_Some in Hr. Qed.
Lemma owners_elem p held s r :
  s ∈ option_list (pv_current p) ++ held → snap_data s = Some r → r ∈ owners p held.
Proof. intros Hs Hr. apply list_elem_of_omap. by exists s. Qed.

(** An owner whose pins were just swept and admit one more revision. *)
Record admitted (p : Pv) (h : Arcs Prepared) : Prop := {
  adm_live : ∀ r, r ∈ pv_pins p → alive r h = true;
  adm_room : (length (pv_pins p)
              < N.to_nat (lim_snapshots (pv_limits p))
                + match pv_current p ≫= snap_data with
                  | Some r => if decide (strong_count r h = 1) then 1 else 0
                  | None => 0
                  end)%nat;
}.
(** The bound on live revisions once [r] has replaced the current one. *)
Lemma live_after p (h h' : Arcs Prepared) held held' r :
  deployed p h held → admitted p h → r ∉ pv_pins p → owned h' (r :: omap snap_data held') →
  (∀ k, k ∈ omap snap_data held' → k = r ∨ k ∈ omap snap_data held) →
  len (filter (λ k, alive k h' = true) (pv_pins p ++ [r])) ≤ lim_snapshots (pv_limits p).
Proof.
  intros Hd [Hlive Hroom] Hr Ho' Hheld. rewrite filter_app. unfold len. rewrite length_app.
  pose proof (length_filter (λ k, alive k h' = true) [r]) as H1. cbn [length] in H1.
  pose proof (length_filter (λ k, alive k h' = true) (pv_pins p)) as H2.
  destruct (pv_current p ≫= snap_data) as [c |] eqn:Hc; [| lia].
  destruct (decide (strong_count c h = 1%nat)) as [Hone |]; [| lia].
  apply bind_Some in Hc as (s & Hs & Hc).
  assert (owners p held = c :: omap snap_data held) as Hown by (unfold owners; rewrite Hs; cbn; by rewrite Hc).
  pose proof (dp_owned _ _ _ Hd) as Ho. rewrite Hown in Ho.
  assert (c ∈ pv_pins p) as Hcp by (apply (dp_pinned _ _ _ Hd); rewrite Hown; by left).
  assert (c ∉ omap snap_data held) as Hnot.
  { intros Hin%occurrences_elem. pose proof (owned_count _ _ Ho c) as E.
    rewrite occurrences_cons, decide_True in E by done. lia. }
  assert (¬ alive c h' = true) as Hdead.
  { rewrite (alive_owned _ _ _ Ho'). intros [-> | Hin]%elem_of_cons; [done |].
    by destruct (Hheld _ Hin) as [-> |]. }
  pose proof (length_filter_lt (λ k, alive k h' = true) (pv_pins p) c Hcp Hdead). lia.
Qed.
(** The write to storage, and what is known of it afterwards. *)
Definition settle (storage : S) (uncertain : bool) (p : Pv) : Pv :=
  set_uncertain uncertain (set_storage storage p).
Definition install (r : N) (s : Snapshot) (p : Pv) : Pv := set_current (Some s) (push_pin r p).

(** The new current revision is the fresh cell [r] of [h'], which otherwise
    differs from [h] in the owners of its cells. *)
Lemma deployed_install p h h' held held' storage r s d :
  deployed p h held → admitted p h → r = fresh h → r < fresh h' →
  owned h' (r :: omap snap_data held') → arc_get r h' = Some d →
  (∀ k, k ∈ omap snap_data held → arc_get k h' = arc_get k h) →
  (held' = held ∨ held' = s :: held) →
  s = snapshot_of p d r →
  (∃ definitions, candidate_ok (pv_publisher p) (snap_board s) definitions (pv_limits p) d) →
  stored storage = Some (Record_from_prepared d) →
  deployed (install r s (settle storage false p)) h' held'.
Proof.
  intros Hd Ha Hr Hf Ho' Hget Hsame Hheld Hs Hcand Hsettled.
  assert (r ∉ pv_pins p) as Hnew by (intros Hin%(dp_fresh _ _ _ Hd); lia).
  assert (snap_data s = Some r) as Hdata by by rewrite Hs.
  assert (∀ k, k ∈ omap snap_data held' → k = r ∨ k ∈ omap snap_data held) as Hsub.
  { destruct Hheld as [-> | ->]; [by right |]. intros k. cbn. rewrite Hdata.
    rewrite elem_of_cons. tauto. }
  assert (∀ k, k ∈ omap snap_data held → k ∈ pv_pins p) as Hpin.
  { intros k Hk. apply (dp_pinned _ _ _ Hd). unfold owners. rewrite omap_app. set_solver. }
  split.
  - unfold owners, install. cbn. by rewrite Hdata.
  - unfold install. cbn. apply NoDup_app. split_and!; [apply Hd | | apply NoDup_singleton].
    intros k Hk [= ->]%list_elem_of_singleton. done.
  - intros k. unfold owners, install. cbn. rewrite Hdata, elem_of_cons, elem_of_app, list_elem_of_singleton.
    intros [-> | Hk]; [by right |]. destruct (Hsub _ Hk); [by right | left; auto].
  - intros k. unfold install. cbn. rewrite elem_of_app, list_elem_of_singleton. intros [Hk | ->]; [| done].
    apply (dp_fresh _ _ _ Hd) in Hk. lia.
  - unfold live_pins, install. cbn. eapply live_after; try done.
  - assert (issues (install r s (settle storage false p)) h' s d) as Hnewest.
    { split; [by rewrite Hs | by rewrite Hs | by rewrite Hdata | by rewrite Hs | exact Hcand]. }
    assert (∀ s', s' ∈ held → ∃ d', issues (install r s (settle storage false p)) h' s' d') as Hold.
    { intros s' Hs'. destruct (dp_issued _ _ _ Hd s') as [d' Hd']; [set_solver |]. exists d'.
      assert (issues (install r s (settle storage false p)) h s' d') as Hi by (destruct Hd'; by split).
      eapply issues_heap; [| exact Hi]. intros k Hk. apply Hsame, list_elem_of_omap. eauto. }
    unfold install. cbn. intros s'. rewrite elem_of_cons.
    intros [-> | Hs']; [by exists d |].
    destruct Hheld as [-> | ->]; [by apply Hold |].
    apply elem_of_cons in Hs' as [-> | Hs']; [by exists d | by apply Hold].
  - apply Hd.
  - unfold install. cbn. intros _. rewrite Hsettled.
    unfold record_of. cbn. by rewrite Hdata; cbn; rewrite Hget.
Qed.
(** ** The steps of a replacement *)

Definition sweep (p : Pv) (h : Arcs Prepared) : Pv := set_pins (live_pins p h) p.

Lemma live_pins_sweep p h : live_pins (sweep p h) h = live_pins p h.
Proof.
  unfold live_pins, sweep. cbn. by apply list_filter_filter_l.
Qed.

Lemma deployed_sweep p h held : deployed p h held → deployed (sweep p h) h held.
Proof.
  intros Hd. pose proof (dp_owned _ _ _ Hd) as Ho. split; try apply Hd.
  - unfold sweep, live_pins. cbn. apply NoDup_filter, Hd.
  - intros r Hr. unfold sweep, live_pins. cbn. apply list_elem_of_filter.
    split; [by apply (alive_owned _ _ _ Ho) | by apply (dp_pinned _ _ _ Hd)].
  - intros r. unfold sweep, live_pins. cbn. intros [_ Hr]%list_elem_of_filter. by apply (dp_fresh _ _ _ Hd).
  - rewrite live_pins_sweep. apply Hd.
  - intros s Hs. destruct (dp_issued _ _ _ Hd s Hs) as [d Hi]. exists d. destruct Hi. by split.
Qed.
Lemma deployed_settle p h held storage uncertain :
  deployed p h held → (uncertain = false → stored storage = record_of p h) →
  deployed (settle storage uncertain p) h held.
Proof.
  intros Hd Hs. split; try apply Hd; [| exact Hs].
  intros s Hin. destruct (dp_issued _ _ _ Hd s Hin) as [d Hi]. exists d. destruct Hi. by split.
Qed.

Lemma admit_revision_run p (w : World) r s' :
  admit_revision (p, w) = (r, s') →
  s' = (sweep p (bw_revisions w), w) ∧
  (r = Err BLimit ∨ r = Ok tt ∧ admitted (sweep p (bw_revisions w)) (bw_revisions w)).
Proof.
  unfold admit_revision. set (h := bw_revisions w). fold (live_pins p h). fold (sweep p h).
  destruct (N.leb_spec (lim_snapshots (pv_limits (sweep p h))) (len (live_pins p h) -
    (if match pv_current (sweep p h) ≫= snap_data with
        | Some r => (strong_count r h =? 1)%nat | None => false end then 1 else 0))) as [Hle | Hlt].
  - intros [= <- <-]. split; [done | by left].
  - intros [= <- <-]. split; [done |]. right. split; [done |]. split.
    + intros k. unfold sweep, live_pins. cbn. by intros [? _]%list_elem_of_filter.
    + change (pv_pins (sweep p h)) with (live_pins p h). unfold len in Hlt.
      destruct (pv_current (sweep p h) ≫= snap_data) as [c |]; [| lia].
      destruct (Nat.eqb_spec (strong_count c h) 1); destruct (decide _); try lia.
Qed.
(** ** The heap of a replacement *)

Definition pinned (l : list Snapshot) : list N := omap snap_data l.

Lemma owned_drop_snapshot h cur l :
  owned h (pinned (option_list cur) ++ l) → owned (drop_snapshot_option cur h) l.
Proof.
  destruct cur as [s |]; [| done]. unfold drop_snapshot_option, Snapshot_drop. cbn.
  destruct (snap_data s) as [r |]; [apply owned_drop | done].
Qed.
Lemma get_drop_snapshot h cur l (r : N) :
  owned h (pinned (option_list cur) ++ l) → r ∈ l →
  arc_get r (drop_snapshot_option cur h) = arc_get r h.
Proof.
  destruct cur as [s |]; [| done]. unfold drop_snapshot_option, Snapshot_drop. cbn.
  destruct (snap_data s) as [k |]; [apply arc_get_drop | done].
Qed.

Definition recovered_heap (h : Arcs Prepared) (d : Prepared) (cur : option Snapshot) : Arcs Prepared :=
  drop_snapshot_option cur (arc_new d h).2.
Lemma recovered_heap_ok h d cur l :
  owned h (pinned (option_list cur) ++ l) →
  owned (recovered_heap h d cur) (fresh h :: l) ∧
  arc_get (fresh h) (recovered_heap h d cur) = Some d ∧
  ∀ k, k ∈ l → arc_get k (recovered_heap h d cur) = arc_get k h.
Proof.
  intros Ho. pose proof (owned_new _ _ d Ho) as Hn. cbn [fst arc_new] in Hn.
  assert (owned (arc_new d h).2 (pinned (option_list cur) ++ fresh h :: l)) as Hp.
  { eapply owned_perm; [| exact Hn]. by rewrite Permutation_middle. }
  unfold recovered_heap. split_and!.
  - by apply owned_drop_snapshot.
  - rewrite (get_drop_snapshot _ _ _ _ Hp) by by left.
    by rewrite (arc_get_new _ _ _ _ Ho), decide_True.
  - intros k Hk. rewrite (get_drop_snapshot _ _ _ _ Hp) by by right.
    rewrite (arc_get_new _ _ _ _ Ho), decide_False; [done |].
    intros ->. assert (fresh h < fresh h); [| lia].
    apply (owned_fresh _ _ Ho). apply elem_of_app. by right.
Qed.

Definition published_heap (h : Arcs Prepared) (d : Prepared) (cur : option Snapshot) : Arcs Prepared :=
  arc_drop (fresh h)
    (drop_snapshot_option cur (arc_clone (fresh h) (arc_clone (fresh h) (arc_new d h).2))).
Lemma published_heap_ok h d cur l :
  owned h (pinned (option_list cur) ++ l) →
  owned (published_heap h d cur) (fresh h :: fresh h :: l) ∧
  arc_get (fresh h) (published_heap h d cur) = Some d ∧
  ∀ k, k ∈ l → arc_get k (published_heap h d cur) = arc_get k h.
Proof.
  intros Ho. pose proof (owned_new _ _ d Ho) as Hn. cbn [fst arc_new] in Hn.
  set (r := fresh h) in *. fold r in Hn.
  apply (owned_clone _ _ r) in Hn as Hn1; [| by left].
  apply (owned_clone _ _ r) in Hn1 as Hn2; [| by left].
  assert (owned (arc_clone r (arc_clone r (arc_new d h).2))
            (pinned (option_list cur) ++ r :: r :: r :: l)) as Hp.
  { eapply owned_perm; [| exact Hn2]. by rewrite <- !Permutation_middle. }
  pose proof (owned_drop_snapshot _ _ _ Hp) as Hp1.
  unfold published_heap. fold r. split_and!.
  - by apply owned_drop.
  - rewrite (arc_get_drop _ _ _ _ Hp1), (get_drop_snapshot _ _ _ _ Hp), !arc_get_clone by by left.
    unfold r. by rewrite (arc_get_new _ _ _ _ Ho), decide_True.
  - intros k Hk.
    rewrite (arc_get_drop _ _ _ _ Hp1), (get_drop_snapshot _ _ _ _ Hp), !arc_get_clone
      by (repeat right; done).
    rewrite (arc_get_new _ _ _ _ Ho), decide_False; [done |].
    intros ->. assert (fresh h < fresh h); [| lia].
    apply (owned_fresh _ _ Ho). apply elem_of_app. by right.
Qed.

(** A heap that holds the revisions of fewer snapshots serves the same owner. *)
Lemma deployed_heap p h h' held held' :
  deployed p h held → owned h' (owners p held') → fresh h ≤ fresh h' →
  (∀ s, s ∈ held' → s ∈ option_list (pv_current p) ++ held) →
  (∀ k, k ∈ owners p held' → arc_get k h' = arc_get k h) → deployed p h' held'.
Proof.
  intros Hd Ho' Hf Hsub Hg. pose proof (dp_owned _ _ _ Hd) as Ho.
  assert (∀ s, s ∈ option_list (pv_current p) ++ held' → s ∈ option_list (pv_current p) ++ held) as Hsub'.
  { intros s [Hs | Hs]%elem_of_app; [apply elem_of_app; by left | by apply Hsub]. }
  assert (∀ k, k ∈ owners p held' → k ∈ owners p held) as Hown.
  { intros k (s & Hs & Hk)%list_elem_of_omap. eapply owners_elem; [by apply Hsub' | done]. }
  split; try apply Hd; [done | | | | |].
  - intros r Hr. apply (dp_pinned _ _ _ Hd). by apply Hown.
  - intros r Hr. apply (dp_fresh _ _ _ Hd) in Hr. lia.
  - etrans; [| exact (dp_bound _ _ _ Hd)]. unfold live_pins.
    rewrite <- (list_filter_filter_l _ (λ r, alive r h = true)).
    + apply len_filter.
    + intros r. rewrite (alive_owned _ _ _ Ho), (alive_owned _ _ _ Ho'). apply Hown.
  - intros s Hs. destruct (dp_issued _ _ _ Hd s (Hsub' s Hs)) as [d Hi]. exists d.
    eapply issues_heap; [| exact Hi]. intros r Hr. apply Hg. by eapply owners_elem.
  - intros Hu. rewrite (dp_settled _ _ _ Hd Hu). unfold record_of.
    destruct (pv_current p ≫= snap_data) as [r |] eqn:E; [| done]. rewrite Hg; [done |].
    apply bind_Some in E as (s & Hs & Hr). eapply owners_elem; [| exact Hr]. rewrite Hs. by left.
Qed.

(** Clients copy and discard their snapshots. *)
Lemma deployed_clone p h held s :
  deployed p h held → s ∈ option_list (pv_current p) ++ held →
  deployed p (Snapshot_clone s h) (s :: held) ∧
  ∀ k, arc_get k (Snapshot_clone s h) = arc_get k h.
Proof.
  intros Hd Hs. destruct (dp_issued _ _ _ Hd s Hs) as [d Hi].
  apply issues_data in Hi as (r & Hr & _). unfold Snapshot_clone. rewrite Hr.
  split; [| intros k; apply arc_get_clone].
  eapply deployed_heap; [exact Hd | | by rewrite arc_clone_fresh | | intros; apply arc_get_clone].
  - eapply owned_perm; [| apply (owned_clone _ (owners p held) r); [| exact (dp_owned _ _ _ Hd)]].
    + unfold owners. rewrite <- Permutation_middle. cbn. by rewrite Hr.
    + by eapply owners_elem.
  - intros s' [-> | Hs']%elem_of_cons; [done |]. apply elem_of_app. by right.
Qed.
Lemma deployed_drop p h held held' s :
  deployed p h held → held ≡ₚ s :: held' →
  deployed p (Snapshot_drop s h) held' ∧
  ∀ k, k ∈ owners p held' → arc_get k (Snapshot_drop s h) = arc_get k h.
Proof.
  intros Hd Hp. destruct (dp_issued _ _ _ Hd s) as [d Hi].
  { apply elem_of_app. right. rewrite Hp. by left. }
  apply issues_data in Hi as (r & Hr & _). unfold Snapshot_drop. rewrite Hr. cbn [arc_drop_option].
  assert (owned h (r :: owners p held')) as Ho.
  { eapply owned_perm; [| exact (dp_owned _ _ _ Hd)]. unfold owners.
    rewrite Hp, <- Permutation_middle. cbn. by rewrite Hr. }
  assert (∀ k, k ∈ owners p held' → arc_get k (arc_drop r h) = arc_get k h) as Hg
    by (intros k; by apply arc_get_drop).
  split; [| exact Hg]. eapply deployed_heap; [exact Hd | by apply owned_drop | | | exact Hg].
  - by rewrite arc_drop_fresh.
  - intros s' Hs'. apply elem_of_app. right. rewrite Hp. by right.
Qed.

(** ** The calls refine the register *)

Definition register (p : Pv) (h : Arcs Prepared) : Register :=
  mkRegister (record_of p h) (stored (pv_storage p)) (negb (pv_uncertain p)).
(** The record behind the snapshot a call returned. *)
Definition observed (h : Arcs Prepared) (r : result BoardError Snapshot)
    : result BoardError (option PublicationRecord) :=
  (λ s, Record_from_prepared <$> (snap_data s ≫= λ r, arc_get r h)) <$> r.
Definition issued (r : result BoardError Snapshot) (held : list Snapshot) : list Snapshot :=
  match r with Ok s => s :: held | Err _ => held end.

Record same_owner (p p' : Pv) : Prop := {
  so_authority : pv_authority p' = pv_authority p;
  so_limits : pv_limits p' = pv_limits p;
  so_publisher : pv_publisher p' = pv_publisher p;
  so_domain : pv_domain p' = pv_domain p;
}.

Record advances (p : Pv) (h : Arcs Prepared) (held : list Snapshot) (c : BoardCall)
    (p' : Pv) (h' : Arcs Prepared) (held' : list Snapshot) : Prop := {
  adv_deployed : deployed p' h' held';
  adv_serves : serves (register p h) c (register p' h');
  adv_held : ∀ k, k ∈ pinned held → arc_get k h' = arc_get k h;
  adv_owner : same_owner p p';
}.

Lemma advances_same p h held c :
  deployed p h held → serves (register p h) c (register p h) → advances p h held c p h held.
Proof. intros Hd Hs. by split. Qed.
Lemma advances_sweep p h held c :
  deployed p h held → serves (register p h) c (register p h) → advances p h held c (sweep p h) h held.
Proof. intros Hd Hs. split; [by apply deployed_sweep | exact Hs | done | done]. Qed.

(** A recovered or published candidate is complete. *)
Lemma prepared_candidate_ok publisher board definitions limits k p k' :
  Prepared_new publisher board definitions limits k = (Ok p, k') →
  candidate_ok publisher board definitions limits p.
Proof. intros [H _]%Prepared_new_inv. by apply prepare_candidate_ok. Qed.

Lemma on_capabilities_inv {A} (m : M K BoardError A) p (w : World) a s' :
  on_capabilities (S := S) m (p, w) = (Ok a, s') →
  ∃ k', m (bw_capabilities w) = (Ok a, k').
Proof. unfold on_capabilities. destruct (m _) as [r k']. intros [= -> _]. by exists k'. Qed.
(** The next quiet call of [H], named [Hrun]; a failure is closed by [tac]. *)
#[local] Ltac quiet_call H a Hrun tac :=
  let w1 := fresh "w" in let Hw := fresh "Hw" in let e := fresh "e" in
  match type of H with
  | _ (_, ?w) = _ =>
    match goal with
    | Hw0 : bw_revisions w = _ |- _ =>
      eapply quiet_next in H; [| | exact Hw0]; [| solve [eauto 20]];
      destruct H as [(e & -> & -> & Hw) | (a & w1 & Hrun & Hw & H)]; [rewrite Hw; tac |]
    end
  end.

Lemma read_advances p (w : World) held x r p' w' :
  deployed p (bw_revisions w) held → read x (p, w) = (r, (p', w')) →
  advances p (bw_revisions w) held (CallRead (observed (bw_revisions w') r))
    p' (bw_revisions w') (issued r held).
Proof.
  intros Hd H. remember (bw_revisions w) as h eqn:Hh. symmetry in Hh. unfold read in H.
  quiet_call H u1 Hc1 ltac:(apply advances_same; [assumption | constructor]).
  quiet_call H u2 Hc2 ltac:(apply advances_same; [assumption | constructor]).
  quiet_call H q Hq ltac:(apply advances_same; [assumption | constructor]). injection Hq as <- <-.
  quiet_call H u3 Hu ltac:(apply advances_same; [assumption | constructor]).
  apply ensure_Ok_inv in Hu as [Hu _]. apply negb_true_iff in Hu.
  quiet_call H s Hs ltac:(apply advances_same; [assumption | constructor]).
  apply lift_Ok_inv in Hs as [Hs%ok_or_Ok _].
  quiet_call H u4 Hc4 ltac:(apply advances_same; [assumption | constructor]).
  cbn in H. injection H as <- <- <-. cbn [bw_revisions set_revisions issued]. rewrite Hw4.
  assert (s ∈ option_list (pv_current p) ++ held) as Hin by (rewrite Hs; by left).
  destruct (deployed_clone _ _ _ _ Hd Hin) as [Hd' Hg]. split; [done | | by intros k _ | done].
  destruct (dp_issued _ _ _ Hd s Hin) as [d Hi]. apply issues_data in Hi as (k & Hk & Hget).
  assert (record_of p (Snapshot_clone s h) = record_of p h) as Hsame.
  { unfold record_of. by destruct (_ ≫= _); [rewrite Hg |]. }
  assert (record_of p h = Some (Record_from_prepared d)) as Hrec.
  { unfold record_of. rewrite Hs. cbn. by rewrite Hk, Hget. }
  unfold register, observed. rewrite Hsame, Hrec, Hu. cbn. rewrite Hk. cbn. rewrite Hg, Hget. constructor.
Qed.
Lemma advances_refused p h held c p' :
  deployed p' h held → register p' h = register p h → same_owner p p' →
  serves (register p h) c (register p h) → advances p h held c p' h held.
Proof. intros Hd Hr Ho Hs. split; [done | by rewrite Hr | done | done]. Qed.

(** What an accepted candidate is: the same publication, prepared anew. *)
Lemma publish_candidate (p : Pv) (w : World) cand q s' :
  pre_publisher cand = pv_publisher p →
  on_capabilities (Prepared_new (pv_publisher p) (doc_source (board_document (pre_board cand)))
    (definition_source <$> pre_definitions cand) (pv_limits p)) (p, w) = (Ok q, s') →
  Record_from_prepared q = Record_from_prepared cand ∧
  ∃ definitions, candidate_ok (pv_publisher p) (doc_source (board_document (pre_board q)))
    definitions (pv_limits p) q.
Proof.
  intros Hpub [k' H]%on_capabilities_inv. apply prepared_candidate_ok in H. split.
  - rewrite (record_of_candidate _ _ _ _ _ H). unfold Record_from_prepared. by rewrite Hpub.
  - eexists. by rewrite (cand_source _ _ _ _ _ H).
Qed.

Lemma settle_storage storage p :
  pv_uncertain p = false → set_storage storage p = settle storage false p.
Proof. unfold settle. by intros <-. Qed.

(** The commit of an admitted candidate. *)
Definition commit_body (q : Prepared) (p : Pv) : PM Snapshot :=
  committed ← try_ (on_storage (storage_commit (Record_from_prepared q)));
  match committed with
  | Err error =>
    on_provider (if bool_decide (error = BUnknown) then set_uncertain true else id);;
    throw error
  | Ok _ =>
    data ← new_revision q;
    on_revisions (arc_clone data);;
    let snapshot := snapshot_of p q data in
    on_provider (push_pin data);;
    on_revisions (Snapshot_clone snapshot);;
    replace_current (Some snapshot);;
    on_revisions (arc_drop data);;
    mret snapshot
  end.

Lemma commit_advances p (w : World) held q p0 r p' w' :
  deployed p (bw_revisions w) held → admitted p (bw_revisions w) → pv_uncertain p = false →
  (∀ d r, snapshot_of p0 d r = snapshot_of p d r) →
  (∃ definitions, candidate_ok (pv_publisher p) (doc_source (board_document (pre_board q)))
    definitions (pv_limits p) q) →
  record_wf (Record_from_prepared q) → commit_body q p0 (p, w) = (r, (p', w')) →
  advances p (bw_revisions w) held
    (CallPublish (Record_from_prepared q) (observed (bw_revisions w') r))
    p' (bw_revisions w') (issued r held).
Proof.
  intros Hd Ha Hu Hsnap Hq Hwf H. pose proof (dp_settled _ _ _ Hd Hu) as Hset.
  unfold commit_body in H. unfold mbind, M_bind, try_, on_storage in H. cbn beta iota in H.
  destruct (storage_commit _ _) as [[[] | e] st] eqn:Hcommit; cbn beta iota in H.
  - apply commit_ok in Hcommit; [| done]. unfold new_revision in H. cbn in H. injection H as <- <- <-.
    rewrite Hsnap. cbn [bw_revisions set_revisions].
    set (h := bw_revisions w) in *. set (s := snapshot_of p q (fresh h)).
    destruct (published_heap_ok h q (pv_current p) (pinned held)) as (Ho & Hget & Hsame).
    { pose proof (dp_owned _ _ _ Hd) as Ho. unfold owners in Ho. by rewrite omap_app in Ho. }
    change (arc_drop (fresh h) _) with (published_heap h q (pv_current p)).
    rewrite (settle_storage _ _ Hu). split; [| | exact Hsame | done].
    + eapply (deployed_install p h _ held (s :: held) st); try done; [| by right].
      apply (owned_fresh _ _ Ho). by left.
    + unfold register, observed, record_of at 2. cbn. rewrite Hget, Hcommit, Hset, Hu. constructor.
  - injection H as <- <- <-.
    destruct (bool_decide_reflect (e = BUnknown)) as [-> | Hne].
    + apply commit_unknown in Hcommit; [| done]. split; [| | done | done].
      * apply (deployed_settle p _ held st true); [done | discriminate].
      * unfold register. cbn. rewrite Hset, Hu. constructor. by rewrite Hset in Hcommit.
    + apply commit_refused in Hcommit; [| done]. unfold id. rewrite (settle_storage _ _ Hu).
      apply advances_refused; [| | done | constructor].
      * apply deployed_settle; [done |]. by rewrite Hcommit.
      * unfold register. cbn. by rewrite Hcommit, Hu.
Qed.

Lemma admit_next {A} (f : unit → PM A) p (w : World) h r p' w' :
  bw_revisions w = h → (admit_revision ≫= f) (p, w) = (r, (p', w')) →
  (r = Err BLimit ∧ p' = sweep p h ∧ bw_revisions w' = h) ∨
  (admitted (sweep p h) h ∧ f tt (sweep p h, w) = (r, (p', w'))).
Proof.
  intros <- H. unfold mbind, M_bind in H. destruct (admit_revision (p, w)) as [r0 s0] eqn:Ha.
  apply admit_revision_run in Ha as [-> [-> | [-> Ha]]]; [left | by right].
  by injection H as <- <- <-.
Qed.
Lemma advances_swept p h held c p' h' held' :
  advances (sweep p h) h held c p' h' held' → advances p h held c p' h' held'.
Proof. intros [Hd Hs Hh [? ? ? ?]]. by split. Qed.

Lemma publish_advances p (w : World) held x cand r p' w' :
  deployed p (bw_revisions w) held → record_wf (Record_from_prepared cand) →
  publish x cand (p, w) = (r, (p', w')) →
  advances p (bw_revisions w) held
    (CallPublish (Record_from_prepared cand) (observed (bw_revisions w') r))
    p' (bw_revisions w') (issued r held).
Proof.
  intros Hd Hwf H. remember (bw_revisions w) as h eqn:Hh. symmetry in Hh. unfold publish in H.
  quiet_call H q Hq ltac:(apply advances_same; [assumption | constructor]). injection Hq as <- <-.
  quiet_call H u1 Hc1 ltac:(apply advances_same; [assumption | constructor]).
  quiet_call H u2 Hp ltac:(apply advances_same; [assumption | constructor]).
  apply ensure_Ok_inv in Hp as [Hp _]. apply bool_decide_eq_true in Hp.
  quiet_call H u3 Hc3 ltac:(apply advances_same; [assumption | constructor]).
  quiet_call H q Hq ltac:(apply advances_same; [assumption | constructor]).
  apply (publish_candidate _ _ _ _ _ Hp) in Hq as [Hrec Hq]. rewrite <- Hrec.
  quiet_call H u4 Hc4 ltac:(apply advances_same; [assumption | constructor]).
  quiet_call H u5 Hc5 ltac:(apply advances_same; [assumption | constructor]).
  quiet_call H p1 Hp1 ltac:(apply advances_same; [assumption | constructor]). injection Hp1 as <- _.
  quiet_call H u6 Hu ltac:(apply advances_same; [assumption | constructor]).
  apply ensure_Ok_inv in Hu as [Hu _]. apply negb_true_iff in Hu.
  apply (admit_next _ _ _ h) in H as [(-> & -> & Hw') | [Ha H]];
    [rewrite Hw'; apply advances_sweep; [assumption | constructor] | | done].
  quiet_call H u7 Hc7 ltac:(apply advances_sweep; [assumption | constructor]).
  quiet_call H u8 Hc8 ltac:(apply advances_sweep; [assumption | constructor]).
  apply advances_swept. rewrite <- Hw9 in *. rewrite <- Hrec in Hwf.
  apply (commit_advances _ _ held q p); try done. by apply deployed_sweep.
Qed.
(** ** Recovery *)

(** Nothing is published any more. *)
Lemma deployed_vacate p h held storage :
  deployed p h held → stored storage = None →
  deployed (set_current None (settle storage false p)) (drop_snapshot_option (pv_current p) h) held.
Proof.
  intros Hd Hst. pose proof (dp_owned _ _ _ Hd) as Ho. unfold owners in Ho. rewrite omap_app in Ho.
  pose proof (owned_drop_snapshot _ _ _ Ho) as Ho'.
  assert (∀ k, k ∈ pinned held → k ∈ owners p held) as Hsub
    by (intros k Hk; unfold owners; rewrite omap_app; apply elem_of_app; by right).
  assert (∀ k, k ∈ pinned held →
    arc_get k (drop_snapshot_option (pv_current p) h) = arc_get k h) as Hg
    by (intros k; by apply get_drop_snapshot).
  split; try apply Hd; cbn; [done | | | | | by intros _].
  - intros r Hr. apply (dp_pinned _ _ _ Hd). by apply Hsub.
  - intros r Hr. apply (dp_fresh _ _ _ Hd) in Hr. destruct (pv_current p) as [s |]; [| done].
    cbn. unfold Snapshot_drop. destruct (snap_data s); [| done]. cbn. by rewrite arc_drop_fresh.
  - etrans; [| exact (dp_bound _ _ _ Hd)]. unfold live_pins. cbn.
    rewrite <- (list_filter_filter_l _ (λ r, alive r h = true)).
    + apply len_filter.
    + intros r Hr%(alive_owned _ _ _ Ho'). apply (alive_owned _ _ _ Ho), elem_of_app. by right.
  - intros s Hs. destruct (dp_issued _ _ _ Hd s) as [d Hi]; [apply elem_of_app; by right |].
    exists d. assert (issues (set_current None (settle storage false p)) h s d) as Hi'
      by (destruct Hi; by split).
    eapply issues_heap; [| exact Hi']. intros r Hr. apply Hg, list_elem_of_omap. eauto.
Qed.

(** A pin of a revision that was dropped again. *)
Lemma deployed_dead_pin p h held r :
  deployed p h held → r ∉ pv_pins p → r < fresh h → alive r h ≠ true →
  deployed (push_pin r p) h held.
Proof.
  intros Hd Hr Hf Hdead. split; try apply Hd; unfold push_pin; cbn.
  - apply NoDup_app. split_and!; [apply Hd | | apply NoDup_singleton].
    by intros k Hk ->%list_elem_of_singleton.
  - intros k Hk. apply elem_of_app. left. by apply (dp_pinned _ _ _ Hd).
  - intros k [Hk | ->%list_elem_of_singleton]%elem_of_app; [by apply (dp_fresh _ _ _ Hd) | done].
  - unfold live_pins. cbn. rewrite filter_app, filter_cons, decide_False, filter_nil, app_nil_r by done.
    apply Hd.
  - intros s Hs. destruct (dp_issued _ _ _ Hd s Hs) as [d Hi]. exists d. destruct Hi. by split.
Qed.

(** A revision that is not pinned yet does not count. *)
Lemma strong_count_new (h : Arcs Prepared) d k :
  k ≠ fresh h → strong_count k (arc_new d h).2 = strong_count k h.
Proof. intros Hne. unfold strong_count, arc_new. cbn. by rewrite lookup_insert_ne. Qed.
Lemma live_pins_new p h d :
  (∀ r, r ∈ pv_pins p → r < fresh h) → live_pins p (arc_new d h).2 = live_pins p h.
Proof.
  unfold live_pins. induction (pv_pins p) as [| r l IH]; intros Hf; [done |].
  assert (alive r (arc_new d h).2 = alive r h) as E.
  { unfold alive. rewrite strong_count_new; [done |]. intros ->.
    specialize (Hf (fresh h) ltac:(by left)). lia. }
  rewrite !filter_cons, E, IH; [done |]. intros k Hk. apply Hf. by right.
Qed.
Lemma admitted_new p h held d :
  deployed p h held → admitted (sweep p (arc_new d h).2) (arc_new d h).2 →
  sweep p (arc_new d h).2 = sweep p h ∧ admitted (sweep p h) h.
Proof.
  intros Hd. assert (sweep p (arc_new d h).2 = sweep p h) as E.
  { unfold sweep. rewrite live_pins_new; [done |]. apply (dp_fresh _ _ _ Hd). }
  rewrite E. intros [_ Hroom]. split; [done |]. split.
  - intros k. unfold sweep, live_pins. cbn. by intros [? _]%list_elem_of_filter.
  - change (pv_current (sweep p h)) with (pv_current p) in *.
    destruct (pv_current p ≫= snap_data) as [c |] eqn:Hc; [| done].
    rewrite strong_count_new in Hroom; [done |]. intros ->.
    assert (fresh h < fresh h); [| lia]. apply (dp_fresh _ _ _ Hd), (dp_pinned _ _ _ Hd).
    apply bind_Some in Hc as (s & Hs & Hc). eapply owners_elem; [| exact Hc]. rewrite Hs. by left.
Qed.
(** The revision of a recovery that fails is dropped. *)
Lemma deployed_undone p h held d :
  deployed p h held → deployed p (arc_drop (fresh h) (arc_new d h).2) held ∧
  (∀ k, k ∈ owners p held → arc_get k (arc_drop (fresh h) (arc_new d h).2) = arc_get k h).
Proof.
  intros Hd. pose proof (dp_owned _ _ _ Hd) as Ho. pose proof (owned_new _ _ d Ho) as Hn.
  cbn [fst arc_new] in Hn.
  assert (∀ k, k ∈ owners p held → arc_get k (arc_drop (fresh h) (arc_new d h).2) = arc_get k h) as Hg.
  { intros k Hk. rewrite (arc_get_drop _ _ _ _ Hn Hk), (arc_get_new _ _ _ _ Ho), decide_False; [done |].
    intros ->. apply (owned_fresh _ _ Ho) in Hk. lia. }
  split; [| exact Hg]. eapply deployed_heap; [exact Hd | by apply owned_drop | | | exact Hg].
  - rewrite arc_drop_fresh. cbn. lia.
  - intros s Hs. apply elem_of_app. by right.
Qed.
Lemma M_assoc {A B C} (m : PM A) (f : A → PM B) (g : B → PM C) (s : PSt) :
  ((m ≫= f) ≫= g) s = (m ≫= λ a, f a ≫= g) s.
Proof. unfold mbind, M_bind. by destruct (m s) as [[a | e] s']. Qed.

(** A guarded stretch of a body that owns the revision [r]. *)
Lemma dropping_next {A B} r (m : PM A) (f : A → PM B) s res p' (w' : World) :
  (dropping r m ≫= f) s = (res, (p', w')) →
  (∃ e w1, m s = (Err e, (p', w1)) ∧ res = Err e ∧
     bw_revisions w' = arc_drop r (bw_revisions w1)) ∨
  ∃ a s1, m s = (Ok a, s1) ∧ f a s1 = (res, (p', w')).
Proof.
  unfold mbind, M_bind, dropping. destruct (m s) as [[a | e] [p1 w1]].
  - right. by exists a, (p1, w1).
  - intros [= <- <- <-]. left. by exists e, w1.
Qed.

Definition recover_guard (x : CallContext) (r : N) : PM unit :=
  admit_revision;; on_provider (push_pin r);; check x ActPublish 0.

(** Admitting the fresh revision of [d], whatever comes of it. *)
Lemma recover_guard_run p (w : World) held x d res p' w' :
  deployed p (bw_revisions w) held →
  let h := bw_revisions w in
  recover_guard x (fresh h) (p, set_revisions (arc_new d h).2 w) = (res, (p', w')) →
  bw_revisions w' = (arc_new d h).2 ∧
  (res = Err BLimit ∧ p' = sweep p h ∨
   admitted (sweep p h) h ∧ p' = push_pin (fresh h) (sweep p h)).
Proof.
  intros Hd h H. unfold recover_guard in H.
  apply (admit_next _ _ _ (arc_new d h).2) in H as [(-> & -> & Hw') | [Ha H]]; [| | done].
  { split; [done |]. left. split; [done |]. unfold sweep. rewrite live_pins_new; [done |].
    apply (dp_fresh _ _ _ Hd). }
  apply (admitted_new p h held d Hd) in Ha as [E Ha]. rewrite E in H.
  unfold mbind, M_bind, on_provider in H. cbn beta iota in H.
  pose proof (quiet_check x ActPublish 0 (push_pin (fresh h) (sweep p h),
    set_revisions (arc_new d h).2 w)) as [Hp Hr _].
  unfold mbind, M_bind in Hp, Hr. rewrite H in Hp, Hr. cbn in Hp, Hr. subst p'. by split; [| right].
Qed.
(** Loading changes the adapter's state, never what it stores. *)
Lemma load_next {B} (f : option PublicationRecord → PM B) p (w : World) held r p' w' :
  deployed p (bw_revisions w) held → (on_storage storage_load ≫= f) (p, w) = (r, (p', w')) →
  ∃ p1, deployed p1 (bw_revisions w) held ∧
    register p1 (bw_revisions w) = register p (bw_revisions w) ∧ same_owner p p1 ∧
    ((∃ e, r = Err e ∧ p' = p1 ∧ w' = w) ∨ f (stored (pv_storage p1)) (p1, w) = (r, (p', w'))).
Proof.
  intros Hd H. unfold mbind, M_bind, on_storage in H.
  pose proof (load_keeps (pv_storage p)) as Hk. pose proof (load_exact (pv_storage p)) as Hx.
  destruct (storage_load (pv_storage p)) as [[a | e] st] eqn:E; cbn in Hk, Hx.
  all: exists (set_storage st p); split_and!; [| unfold register; cbn; by rewrite Hk | done |].
  all: try (apply (deployed_settle p _ held st (pv_uncertain p) Hd); intros Hu; rewrite Hk; by apply Hd).
  - right. cbn. by rewrite Hk, <- (Hx a eq_refl).
  - left. injection H as <- <- <-. by exists e.
Qed.

Lemma advances_from p p1 h held c p' h' held' :
  register p1 h = register p h → same_owner p p1 →
  advances p1 h held c p' h' held' → advances p h held c p' h' held'.
Proof.
  intros Hr [E1 E2 E3 E4] [Hd Hs Hh [E5 E6 E7 E8]]. rewrite Hr in Hs. split; [done.. |]. split; congruence.
Qed.

(** A recovered record replaces the current revision. *)
Definition recover_some (x : CallContext) (record : PublicationRecord) (p : Pv) : PM unit :=
  ensure (bool_decide (rec_publisher record = pv_publisher p)) BDenied;;
  d ← on_capabilities (Record_prepare record (pv_limits p));
  r ← new_revision d;
  dropping r (recover_guard x r);;
  replace_current (Some (snapshot_of p d r)).

Lemma recover_undone p h held d e p' :
  deployed p h held → p' = sweep p h ∨ p' = push_pin (fresh h) (sweep p h) →
  advances p h held (CallRecover (Err e)) p' (arc_drop (fresh h) (arc_new d h).2) held.
Proof.
  intros Hd Hp. pose proof (deployed_sweep _ _ _ Hd) as Hd1.
  destruct (deployed_undone _ _ _ d Hd1) as [Hd2 Hg]. pose proof (dp_owned _ _ _ Hd2) as Ho.
  assert (fresh h ∉ owners p held) as Hnew.
  { intros Hin%(dp_pinned _ _ _ Hd)%(dp_fresh _ _ _ Hd). lia. }
  assert (register (sweep p h) (arc_drop (fresh h) (arc_new d h).2) = register p h) as Hreg.
  { unfold register, record_of. cbn. destruct (pv_current p ≫= snap_data) as [c |] eqn:Hc; [| done].
    rewrite Hg; [done |]. apply bind_Some in Hc as (s & Hs & Hc).
    eapply owners_elem; [| exact Hc]. cbn. rewrite Hs. by left. }
  split.
  - destruct Hp as [-> | ->]; [done |]. apply deployed_dead_pin; [done | | |].
    + intros [_ Hin]%list_elem_of_filter. apply (dp_fresh _ _ _ Hd) in Hin. lia.
    + rewrite arc_drop_fresh. cbn. lia.
    + by rewrite (alive_owned _ _ _ Ho).
  - assert (register p' (arc_drop (fresh h) (arc_new d h).2) = register p h) as ->
      by (rewrite <- Hreg; by destruct Hp as [-> | ->]). constructor.
  - intros k Hk. apply Hg. unfold owners. rewrite omap_app. apply elem_of_app. by right.
  - by destruct Hp as [-> | ->].
Qed.

Lemma recover_some_advances p (w : World) held x record r p' w' :
  deployed p (bw_revisions w) held → stored (pv_storage p) = Some record →
  (recover_some x record p;; on_provider (set_uncertain false)) (p, w) = (r, (p', w')) →
  advances p (bw_revisions w) held (CallRecover r) p' (bw_revisions w') held.
Proof.
  intros Hd Hst H. remember (bw_revisions w) as h eqn:Hh. symmetry in Hh. unfold recover_some in H.
  rewrite M_assoc in H. quiet_call H u1 Hp ltac:(apply advances_same; [assumption | constructor]).
  apply ensure_Ok_inv in Hp as [Hp _]. apply bool_decide_eq_true in Hp.
  rewrite M_assoc in H. quiet_call H d Hcap ltac:(apply advances_same; [assumption | constructor]).
  apply on_capabilities_inv in Hcap as [k' Hcap]. apply prepared_candidate_ok in Hcap as Hcand.
  rewrite Hp in Hcand. apply record_of_candidate in Hcand as Hrec.
  rewrite M_assoc in H. unfold new_revision in H. erewrite bind_Ok in H by reflexivity.
  rewrite M_assoc in H. cbn [arc_new fst snd] in H.
  apply dropping_next in H as [(e & w2 & Hg & -> & Hw') | (u2 & [p2 w2] & Hg & H)].
  all: apply recover_guard_run with (held := held) in Hg as [Hw2 Hg]; [| by rewrite Hw0].
  - rewrite Hw', Hw2, Hw0 in *. apply recover_undone; [done |].
    destruct Hg as [[_ ->] | [_ ->]]; [by left | by right].
  - destruct Hg as [[? _] | [Ha ->]]; [done |]. rewrite Hw0 in *.
    cbn in H. injection H as <- <- <-. cbn [bw_revisions set_revisions]. rewrite Hw2.
    change (drop_snapshot_option _ _) with (recovered_heap h d (pv_current p)).
    destruct (recovered_heap_ok h d (pv_current p) (pinned held)) as (Ho & Hget & Hsame).
    { pose proof (dp_owned _ _ _ Hd) as Ho. unfold owners in Ho. by rewrite omap_app in Ho. }
    assert (Record_from_prepared d = record) as Hsame_record by (rewrite Hrec, <- Hp; by destruct record).
    split; [| | exact Hsame | done].
    + eapply (deployed_install (sweep p h) h _ held held (pv_storage p)); try done.
      * by apply deployed_sweep.
      * apply (owned_fresh _ _ Ho). by left.
      * by left.
      * cbn. rewrite (cand_source _ _ _ _ _ Hcand). by eexists.
      * by rewrite Hst, Hsame_record.
    + unfold register, record_of at 2. cbn. rewrite Hget, Hst. cbn. rewrite Hsame_record. constructor.
Qed.

Lemma recover_advances p (w : World) held x r p' w' :
  deployed p (bw_revisions w) held → recover x (p, w) = (r, (p', w')) →
  advances p (bw_revisions w) held (CallRecover r) p' (bw_revisions w') held.
Proof.
  intros Hd H. remember (bw_revisions w) as h eqn:Hh. symmetry in Hh. unfold recover in H.
  quiet_call H u1 Hc1 ltac:(apply advances_same; [assumption | constructor]).
  quiet_call H u2 Hc2 ltac:(apply advances_same; [assumption | constructor]).
  rewrite <- Hw0 in Hd. apply (load_next _ _ _ _ _ _ _ Hd) in H as (p1 & Hd1 & Hreg & Hown & H).
  rewrite Hw0 in *. destruct H as [(e & -> & -> & ->) | H].
  { rewrite Hw0. apply advances_refused; [done.. | constructor]. }
  apply (advances_from p p1); [done.. |]. erewrite bind_Ok in H by reflexivity.
  destruct (stored (pv_storage p1)) as [record |] eqn:Hst.
  - rewrite <- Hw0 in *. by apply (recover_some_advances _ _ _ x record).
  - rewrite M_assoc in H. quiet_call H u3 Hc3 ltac:(apply advances_same; [assumption | constructor]).
    cbn in H. injection H as <- <- <-. cbn [bw_revisions set_revisions]. rewrite Hw1.
    pose proof (deployed_vacate _ _ _ _ Hd1 Hst) as Hd2. split; [exact Hd2 | | | done].
    + unfold register, record_of at 2. cbn. rewrite Hst. constructor.
    + intros k Hk. eapply get_drop_snapshot; [| exact Hk].
      pose proof (dp_owned _ _ _ Hd1) as Ho. unfold owners in Ho. by rewrite omap_app in Ho.
Qed.

End props.
