(* ===== verification/PublicationProps.v ===== *)
(** * Theorems of local publications

    Deployments of one owner and its clients over time: their calls are those
    of an atomic durable register, their snapshots are complete, immutable and
    bounded, and their selections exact. *)

From S2P Require Import Prelude Bytes Json Api Arcs BoardBase Document Offering Schema ServiceDef.
From S2P Require Import Prepared PreparedProps RecordCodec Publication PublicationInv.

#[local] Open Scope N_scope.

Section props.
Context {T : Type} `{!MonotonicTime T} {K : Type} `{!Capabilities K} {S : Type} `{!Persistence S}
  `{!PersistenceLaws S} `{SJ : !SerdeJson}.

Abbreviation World := (BoardWorld T K) (only parsing).
Abbreviation Pv := (Provider S) (only parsing).
Abbreviation PSt := (Pv * World)%type (only parsing).
Abbreviation PM := (M PSt BoardError) (only parsing).

#[local] Hint Resolve quiet_ret quiet_throw quiet_lift quiet_ensure quiet_self quiet_get_revision
  quiet_bind quiet_on_capabilities quiet_check quiet_lock quiet_check_snapshot
  quiet_current_selection quiet_definition quiet_select : core.

(** ** Deployments over time *)

Record Deployment : Type := mkDeployment {
  dep_owner : Pv;
  dep_world : World;
  dep_held : list Snapshot;
}.

(** One call on the owner, one copy or disposal of a snapshot by a client, or
    one change of the clock, the authority domains or the capabilities. *)
Inductive deploys : Deployment → BoardCall → Deployment → Prop :=
| deploys_publish p w held x cand r p' w' : record_wf (Record_from_prepared cand) →
    publish x cand (p, w) = (r, (p', w')) →
    deploys (mkDeployment p w held)
      (CallPublish (Record_from_prepared cand) (observed (bw_revisions w') r))
      (mkDeployment p' w' (issued r held))
| deploys_read p w held x r p' w' : read x (p, w) = (r, (p', w')) →
    deploys (mkDeployment p w held) (CallRead (observed (bw_revisions w') r))
      (mkDeployment p' w' (issued r held))
| deploys_recover p w held x r p' w' : recover x (p, w) = (r, (p', w')) →
    deploys (mkDeployment p w held) (CallRecover r) (mkDeployment p' w' held)
| deploys_definition p w held x s id r p' w' : definition x s id (p, w) = (r, (p', w')) →
    deploys (mkDeployment p w held) CallOther (mkDeployment p' w' held)
| deploys_select p w held x s q r p' w' : Provider_select x s q (p, w) = (r, (p', w')) →
    deploys (mkDeployment p w held) CallOther (mkDeployment p' w' held)
| deploys_current p w held x sel r p' w' : current_selection x sel (p, w) = (r, (p', w')) →
    deploys (mkDeployment p w held) CallOther (mkDeployment p' w' held)
| deploys_clone p w held s : s ∈ held →
    deploys (mkDeployment p w held) CallOther
      (mkDeployment p (set_revisions (Snapshot_clone s (bw_revisions w)) w) (s :: held))
| deploys_drop p w held held' s : held ≡ₚ s :: held' →
    deploys (mkDeployment p w held) CallOther
      (mkDeployment p (set_revisions (Snapshot_drop s (bw_revisions w)) w) held')
| deploys_environment p w held control capabilities :
    deploys (mkDeployment p w held) CallOther
      (mkDeployment p (mkBoardWorld control capabilities (bw_revisions w) (bw_tokens w)) held).

Inductive runs : Deployment → list BoardCall → Deployment → Prop :=
| runs_nil D : runs D [] D
| runs_snoc D l D' c D'' : runs D l D' → deploys D' c D'' → runs D (l ++ [c]) D''.

Definition dep_revisions (D : Deployment) : Arcs Prepared := bw_revisions (dep_world D).
Definition dep_register (D : Deployment) : Register := register (dep_owner D) (dep_revisions D).

(** An opened owner, and what is reachable from it. *)
Definition opened (storage : S) (D : Deployment) : Prop :=
  ∃ publisher authority limits w, owned (bw_revisions w) [] ∧
    Provider_open publisher authority limits storage w = (Ok (dep_owner D), dep_world D) ∧
    dep_held D = [].
Definition reachable (D : Deployment) : Prop :=
  ∃ storage D0 calls, opened storage D0 ∧ runs D0 calls D.

(** A step that touches neither the owner nor the revisions. *)
Lemma deploys_quiet {A} (m : PM A) p w held r p' w' :
  quiet m → deployed p (bw_revisions w) held → m (p, w) = (r, (p', w')) →
  advances p (bw_revisions w) held CallOther p' (bw_revisions w') held.
Proof.
  intros Hm Hd H. specialize (Hm (p, w)). rewrite H in Hm. destruct Hm as [E1 E2 _].
  cbn in E1, E2. subst p'. rewrite E2. apply advances_same; [done | constructor].
Qed.

Lemma register_owners p (h h' : Arcs Prepared) held :
  (∀ k, k ∈ owners p held → arc_get k h' = arc_get k h) → register p h' = register p h.
Proof.
  intros Hg. unfold register, record_of. destruct (pv_current p ≫= snap_data) as [c |] eqn:Hc; [| done].
  rewrite Hg; [done |]. apply bind_Some in Hc as (s & Hs & Hc). eapply owners_elem; [| exact Hc].
  rewrite Hs. by left.
Qed.

(** Every step keeps the invariant, and the register serves its call. *)
Lemma deploys_sound D c D' :
  deployed (dep_owner D) (dep_revisions D) (dep_held D) → deploys D c D' →
  deployed (dep_owner D') (dep_revisions D') (dep_held D') ∧
  serves (dep_register D) c (dep_register D') ∧
  (∀ s, s ∈ dep_held D → s ∈ dep_held D' → revision s (dep_world D') = revision s (dep_world D)) ∧
  same_owner (dep_owner D) (dep_owner D').
Proof.
  intros Hd Hstep.
  assert (∀ p' h' held', advances (dep_owner D) (dep_revisions D) (dep_held D) c p' h' held' →
    deployed p' h' held' ∧ serves (dep_register D) c (register p' h') ∧
    (∀ s, s ∈ dep_held D → s ∈ held' →
       snap_data s ≫= (λ r, arc_get r h') = snap_data s ≫= (λ r, arc_get r (dep_revisions D))) ∧
    same_owner (dep_owner D) p') as Hadv.
  { intros p' h' held' [H1 H2 H3 H4]. split_and!; try done. intros s Hs _.
    destruct (snap_data s) as [k |] eqn:E; [| done]. cbn. apply H3, list_elem_of_omap. by exists s. }
  destruct Hstep as [| | | | | | p w held s Hs | p w held held' s Hp | p w held ctl cap];
    unfold dep_register, dep_revisions in *; cbn in *.
  - apply Hadv. by eapply publish_advances.
  - apply Hadv. by eapply read_advances.
  - apply Hadv. by eapply recover_advances.
  - apply Hadv. eapply deploys_quiet; [| eassumption..]. auto.
  - apply Hadv. eapply deploys_quiet; [| eassumption..]. auto.
  - apply Hadv. eapply deploys_quiet; [| eassumption..]. auto.
  - apply Hadv. destruct (deployed_clone _ _ _ s Hd) as [Hd' Hg]; [apply elem_of_app; by right |].
    split; [done | | by intros k _ | done].
    rewrite (register_owners p _ (Snapshot_clone s (bw_revisions w)) held) by (intros; apply Hg). constructor.
  - destruct (deployed_drop _ _ _ _ _ Hd Hp) as [Hd' Hg]. split_and!; [done | | | done].
    + change (serves (register p (bw_revisions w)) CallOther
        (register p (Snapshot_drop s (bw_revisions w)))).
      rewrite (register_owners p _ (Snapshot_drop s (bw_revisions w)) held') by done. constructor.
    + intros s' Hs Hs'. unfold revision. destruct (snap_data s') as [k |] eqn:E; [| done]. cbn. apply Hg.
      eapply owners_elem; [| exact E]. apply elem_of_app. by right.
  - apply Hadv. apply advances_same; [done | constructor].
Qed.

(** ** Opening *)

(** A new owner, its storage not looked at yet. *)
Definition created (authority : Authority) (limits : Limits) (publisher : IdentityId) (domain : N)
    (storage : S) (uncertain : bool) : Pv :=
  mkProvider authority limits publisher domain false storage uncertain None [].
Lemma created_deployed authority limits publisher domain storage uncertain h :
  limits_valid limits → owned h [] → (uncertain = false → stored storage = None) →
  deployed (created authority limits publisher domain storage uncertain) h [] ∧
  admitted (created authority limits publisher domain storage uncertain) h.
Proof.
  intros Hl Ho Hs. split.
  - split; cbn; try done; try apply NoDup_nil_2; try by intros ? ?%not_elem_of_nil.
    rewrite len_nil. lia.
  - split; cbn; [by intros ? ?%not_elem_of_nil |]. destruct Hl. lia.
Qed.

Lemma open_storage_deployed authority limits publisher domain storage (w : World) p' w' :
  limits_valid limits → owned (bw_revisions w) [] →
  open_storage (created authority limits publisher domain storage false, w) = (Ok tt, (p', w')) →
  deployed p' (bw_revisions w') [] ∧
  register p' (bw_revisions w') = mkRegister (stored storage) (stored storage) true.
Proof.
  intros Hl Ho H. set (h := bw_revisions w) in *. unfold open_storage in H.
  apply bind_Ok_inv in H as (record & [p1 w1] & Hload & H). unfold on_storage in Hload. cbn in Hload.
  pose proof (load_keeps storage) as Hk. pose proof (load_exact storage) as Hx.
  destruct (storage_load storage) as [loaded st]. injection Hload as -> <- <-. cbn in Hk, Hx.
  specialize (Hx _ eq_refl).
  destruct record as [record |].
  - apply bind_Ok_inv in H as (p2 & s2 & Hp2 & H). injection Hp2 as <- <-.
    apply quiet_ok in H as (u & w1 & Hpub & Hw & H); [| auto].
    apply ensure_Ok_inv in Hpub as [Hpub _].
    apply bool_decide_eq_true in Hpub.
    apply quiet_ok in H as (d & w2 & Hcap & Hw1 & H); [| auto].
    apply on_capabilities_inv in Hcap as [k' Hcap].
    apply prepared_candidate_ok in Hcap as Hcand. rewrite Hpub in Hcand.
    apply record_of_candidate in Hcand as Hrec.
    assert (Record_from_prepared d = record) as Hsame by (rewrite Hrec, <- Hpub; by destruct record).
    unfold new_revision in H. cbn in H. injection H as <- <-. cbn [bw_revisions set_revisions].
    rewrite Hw1, Hw. fold h. change (mkArcs _ _) with (arc_new d h).2.
    destruct (created_deployed authority limits publisher domain st true h Hl Ho) as [Hd Ha]; [done |].
    pose proof (arc_get_new _ _ (fresh h) d Ho) as Hget. rewrite decide_True in Hget by done.
    split.
    + eapply (deployed_install _ h _ [] [] st _ _ d Hd Ha); try done.
      * cbn. lia.
      * by apply (owned_new h []).
      * by intros k ?%not_elem_of_nil.
      * by left.
      * cbn. rewrite (cand_source _ _ _ _ _ Hcand). by eexists.
      * by rewrite Hk, <- Hx, Hsame.
    + unfold register, record_of. cbn. cbn in Hget. by rewrite Hget, Hk, <- Hx, <- Hsame.
  - injection H as <- <-. cbn. destruct (created_deployed authority limits publisher domain st false h Hl Ho)
      as [Hd _]; [by rewrite Hk, <- Hx |]. split; [done |].
    unfold register, record_of. cbn. by rewrite Hk, <- Hx.
Qed.

Lemma opened_deployed storage D :
  opened storage D → deployed (dep_owner D) (dep_revisions D) (dep_held D) ∧
  dep_register D = mkRegister (stored storage) (stored storage) true.
Proof.
  intros (publisher & authority & limits & w & Ho & H & Hheld). unfold Provider_open, Provider_create in H.
  destruct (Limits_validate limits) as [[] | e] eqn:Hl; [| done]. apply Limits_validate_ok in Hl.
  cbn [mbind result_bind] in H. destruct (arc_new tt (bw_tokens w)) as [domain tokens] eqn:Ht.
  destruct (open_storage _) as [[[] | e] [p1 w1]] eqn:E; [| done]. injection H as Hp Hw.
  unfold dep_register, dep_revisions. rewrite Hheld, <- Hp, <- Hw.
  by apply open_storage_deployed in E.
Qed.

Lemma runs_sound D calls D' :
  deployed (dep_owner D) (dep_revisions D) (dep_held D) → runs D calls D' →
  deployed (dep_owner D') (dep_revisions D') (dep_held D').
Proof.
  intros Hd H. induction H as [D | D l D1 c D2 Hr IH Hs]; [done |].
  by destruct (deploys_sound _ _ _ (IH Hd) Hs).
Qed.
Lemma reachable_deployed D :
  reachable D → deployed (dep_owner D) (dep_revisions D) (dep_held D).
Proof.
  intros (storage & D0 & calls & Ho & Hr). eapply runs_sound; [| exact Hr].
  by apply (opened_deployed storage).
Qed.

(** ** The register over time *)

Inductive register_runs : Register → list BoardCall → Register → Prop :=
| register_runs_nil a : register_runs a [] a
| register_runs_snoc a l b c d :
    register_runs a l b → serves b c d → register_runs a (l ++ [c]) d.

(** C7: a local Board refines an atomic durable register.  Whatever the clients,
    the clock, the authority domains and the capabilities do after an owner was
    opened on an adapter that meets its contract, its calls are calls of a
    register that starts with the stored record: a publication that succeeds
    replaces the record as a whole, at once for readers and durably; one that
    is refused changes nothing; one whose commit has an unknown outcome leaves
    the old or the new record durable and stops every read and publication
    until a recovery has installed what is durable.  While the owner is
    settled, readers see exactly the durable record. *)
Theorem publication_refines storage D0 calls D :
  opened storage D0 → runs D0 calls D →
  register_runs (mkRegister (stored storage) (stored storage) true) calls (dep_register D) ∧
  (settled (dep_register D) = true → visible (dep_register D) = durable (dep_register D)).
Proof.
  intros Ho Hr. apply opened_deployed in Ho as [Hd Hreg]. split.
  - rewrite <- Hreg. clear Hreg. induction Hr as [D | D l D1 c D2 Hr IH Hs]; [constructor |].
    econstructor; [by apply IH |]. pose proof (runs_sound _ _ _ Hd Hr) as Hd1.
    by destruct (deploys_sound _ _ _ Hd1 Hs) as (_ & Hserves & _).
  - pose proof (runs_sound _ _ _ Hd Hr) as Hd1. intros Hset%negb_true_iff.
    symmetry. by apply (dp_settled _ _ _ Hd1).
Qed.

(** C28: pinned revisions are complete, immutable and bounded.  In every
    reachable deployment the revisions that are still allocated, the current
    one and those pinned by snapshots, are at most [limits.snapshots]; every
    snapshot a client holds names its owner and its publisher and keeps a
    complete publication whose Board bytes are the snapshot's, in which
    offerings and definitions have the same identifiers; and no call, whatever
    it publishes or recovers, changes the revision of a snapshot that a client
    keeps. *)
Theorem snapshots_pinned D :
  reachable D →
  N.of_nat (size (cells (dep_revisions D))) ≤ lim_snapshots (pv_limits (dep_owner D)) ∧
  (∀ s, s ∈ dep_held D → ∃ d,
     revision s (dep_world D) = Some d ∧
     snap_publisher s = pv_publisher (dep_owner D) ∧ snap_domain s = pv_domain (dep_owner D) ∧
     snap_board s = doc_source (board_document (pre_board d)) ∧
     dom (pre_definitions d) = dom (board_offerings (pre_board d))) ∧
  (∀ c D' s, deploys D c D' → s ∈ dep_held D → s ∈ dep_held D' →
     revision s (dep_world D') = revision s (dep_world D)).
Proof using Type*.
  intros Hd%reachable_deployed. split_and!.
  - pose proof (dp_owned _ _ _ Hd) as Ho. etrans; [| exact (dp_bound _ _ _ Hd)]. unfold len.
    assert (size (cells (dep_revisions D)) ≤ length (live_pins (dep_owner D) (dep_revisions D)))%nat; [| lia].
    apply (size_cells _ _ _ Ho).
    + apply NoDup_filter, (dp_nodup _ _ _ Hd).
    + intros r Hr. apply list_elem_of_filter. split; [by apply (alive_owned _ _ _ Ho) |].
      by apply (dp_pinned _ _ _ Hd).
  - intros s Hs. destruct (dp_issued _ _ _ Hd s) as [d [Hp Hdom Hrev Hb (defs & Hc)]];
      [apply elem_of_app; by right |]. exists d. split_and!; try done. by apply Hc.
  - intros c D' s Hstep Hs Hs'. by destruct (deploys_sound _ _ _ Hd Hstep) as (_ & _ & H & _); apply H.
Qed.

(** ** Selections *)

Lemma check_ok x a n (p : Pv) (w : World) u s' :
  check x a n (p, w) = (Ok u, s') →
  ctx_cancelled x = false ∧ grant_domain (ctx_grant x) = pv_authority p ∧
  grant_publisher (ctx_grant x) = pv_publisher p ∧ grant_action (ctx_grant x) = a ∧
  n ≤ grant_bytes (ctx_grant x).
Proof.
  unfold check, mbind, M_bind, self, on_control. cbn. destruct u.
  destruct (Context_check _ _ _ _ _ _) as [r c] eqn:E. intros [= -> _].
  apply Context_check_ok in E as [Hc (_ & _ & Hg & Hn)%Authority_check_ok]. by rewrite Hg.
Qed.

Lemma check_snapshot_ok s (p : Pv) (w : World) s' :
  check_snapshot s (p, w) = (Ok tt, s') →
  snap_domain s = pv_domain p ∧ snap_publisher s = pv_publisher p.
Proof.
  unfold check_snapshot. destruct (negb (alive _ _)); [done |].
  destruct (_ || _) eqn:E; [done |]. intros _. apply orb_false_iff in E as [E1 E2].
  apply negb_false_iff in E2. apply bool_decide_eq_true in E2. apply negb_false_iff, N.eqb_eq in E1. done.
Qed.

Lemma select_ok o d publisher r k sel k' :
  select o d publisher r k = (Ok sel, k') →
  off_service o = req_service r ∧ off_version o = req_version r ∧ off_description o = req_description r ∧
  sel = match off_direction o with
        | Provided => mkSelection o d publisher (req_other r) publisher
        | Wanted => mkSelection o d publisher publisher (req_other r)
        end.
Proof.
  unfold select. intros H. apply bind_Ok_inv in H as (u & k1 & Hm & H).
  apply ensure_Ok_inv in Hm as [Hm _]. apply bind_Ok_inv in H as (u' & k2 & _ & H).
  rewrite !andb_true_iff, !bool_decide_eq_true, N.eqb_eq in Hm. destruct Hm as [[H1 H2] H3].
  split_and!; try done. by destruct (off_direction o); injection H as <- _.
Qed.

Lemma current_selection_ok x sel (p : Pv) (w : World) s' :
  current_selection x sel (p, w) = (Ok tt, s') →
  pv_uncertain p = false ∧ ∃ c d o f,
    pv_current p = Some c ∧ revision c w = Some d ∧
    board_offerings (pre_board d) !! off_id (sel_offering sel) = Some o ∧
    pre_definitions d !! off_id (sel_offering sel) = Some f ∧
    off_source o = off_source (sel_offering sel) ∧
    doc_value (def_document f) = doc_value (def_document (sel_definition sel)).
Proof.
  unfold current_selection. intros H.
  apply quiet_ok in H as (u1 & w1 & _ & Hw1 & H); [| auto].
  apply quiet_ok in H as (q & w2 & Hq & Hw2 & H); [| auto]. injection Hq as <- _.
  apply quiet_ok in H as (u2 & w3 & _ & Hw3 & H); [| auto].
  apply quiet_ok in H as (u3 & w4 & _ & Hw4 & H); [| auto].
  apply quiet_ok in H as (u4 & w5 & Hu & Hw5 & H); [| auto]. apply ensure_Ok_inv in Hu as [Hu _].
  apply negb_true_iff in Hu. split; [done |].
  apply quiet_ok in H as (c & w6 & Hc & Hw6 & H); [| auto]. apply lift_Ok_inv in Hc as [Hc%ok_or_Ok _].
  apply quiet_ok in H as (od & w7 & Hod & Hw7 & H); [| auto]. injection Hod as Hod _.
  apply quiet_ok in H as (d & w8 & Hd & _ & H); [| auto]. apply lift_Ok_inv in Hd as [Hd%ok_or_Ok _].
  apply ensure_Ok_inv in H as [H _]. apply negb_true_iff, orb_false_iff in H as [H1 H2].
  destruct (board_offerings (pre_board d) !! _) as [o |] eqn:Eo; [| done].
  destruct (pre_definitions d !! _) as [f |] eqn:Ef; [| done].
  apply negb_false_iff, bool_decide_eq_true in H1, H2. exists c, d, o, f.
  split_and!; try done. unfold revision in *. rewrite <- Hd, <- Hod. by rewrite Hw6, Hw5, Hw4, Hw3, Hw2, Hw1.
Qed.

(** C8: a selection is exactly what was asked for and exactly what is published.
    When an owner selects from a client's snapshot, the call was authorized to
    select for this publisher; the offering has the requested identifier,
    service, version and description in the pinned revision, with the
    definition of that same revision; requester and provider follow the
    offering's direction, whoever asks; the owner is settled; and the durable
    current publication still offers the same terms under the same identifier
    with the same definition. *)
Theorem selection_exact D s x r sel s' :
  reachable D → s ∈ dep_held D →
  Provider_select x s r (dep_owner D, dep_world D) = (Ok sel, s') →
  let publisher := pv_publisher (dep_owner D) in
  let o := sel_offering sel in
  grant_domain (ctx_grant x) = pv_authority (dep_owner D) ∧
  grant_publisher (ctx_grant x) = publisher ∧ grant_action (ctx_grant x) = ActSelect ∧
  (∃ d, revision s (dep_world D) = Some d ∧
     board_offerings (pre_board d) !! req_id r = Some o ∧
     pre_definitions d !! req_id r = Some (sel_definition sel)) ∧
  off_id o = req_id r ∧ off_service o = req_service r ∧ off_version o = req_version r ∧
  off_description o = req_description r ∧ sel_publisher sel = publisher ∧
  roles sel = match off_direction o with
              | Provided => (req_other r, publisher, off_issuer o)
              | Wanted => (publisher, req_other r, off_issuer o)
              end ∧
  settled (dep_register D) = true ∧
  ∃ c d o' f, pv_current (dep_owner D) = Some c ∧ revision c (dep_world D) = Some d ∧
    durable (dep_register D) = Some (Record_from_prepared d) ∧
    board_offerings (pre_board d) !! req_id r = Some o' ∧ off_source o' = off_source o ∧
    pre_definitions d !! req_id r = Some f ∧
    doc_value (def_document f) = doc_value (def_document (sel_definition sel)).
Proof using Type*.
  intros Hd%reachable_deployed Hs H. destruct D as [p w held]. unfold dep_register, dep_revisions in *. cbn in *.
  destruct (dp_issued _ _ _ Hd s) as [d0 [_ _ Hrev _ (defs & Hcand)]]; [apply elem_of_app; by right |].
  unfold Provider_select in H. apply quiet_ok in H as (u1 & w1 & _ & Hw1 & H); [| auto].
  apply quiet_ok in H as (u2 & w2 & Hc & Hw2 & H); [| auto].
  apply check_ok in Hc as (_ & Hdomain & Hpub & Hact & _).
  apply quiet_ok in H as (od & w3 & Hod & Hw3 & H); [| auto]. injection Hod as <- _.
  assert (revision s w2 = Some d0) as Hd0 by (unfold revision; by rewrite Hw2, Hw1). rewrite Hd0 in H.
  apply quiet_ok in H as (d & w4 & E & Hw4 & H); [| auto]. injection E as <- _.
  apply quiet_ok in H as (o & w5 & E & Hw5 & H); [| auto]. apply lift_Ok_inv in E as [Ho%ok_or_Ok _].
  apply quiet_ok in H as (f & w6 & E & Hw6 & H); [| auto]. apply lift_Ok_inv in E as [Hf%ok_or_Ok _].
  apply quiet_ok in H as (q & w7 & E & Hw7 & H); [| auto]. injection E as <- _.
  apply quiet_ok in H as (sel' & w8 & E & Hw8 & H); [| auto].
  apply on_capabilities_inv in E as [k' E]. apply select_ok in E as (H1 & H2 & H3 & Hsel).
  apply quiet_ok in H as ([] & w9 & E & _ & H); [| auto]. injection H as <- _.
  apply current_selection_ok in E as (Hu & c & d & o' & f' & Hc & Hrc & Ho' & Hf' & Hsrc & Hval).
  destruct (cand_index _ _ _ _ _ Hcand _ _ Ho) as [Hid _ _].
  assert (sel_offering sel' = o ∧ sel_definition sel' = f ∧ sel_publisher sel' = pv_publisher p)
    as (E1 & E2 & E3) by (rewrite Hsel; by destruct (off_direction o)).
  rewrite E1 in *. rewrite E2 in *. rewrite Hid in *.
  assert (revision c w = Some d) as Hrc'
    by (rewrite <- Hrc; unfold revision; by rewrite Hw8, Hw7, Hw6, Hw5, Hw4, Hw3, Hw2, Hw1).
  split_and!; try done; [by exists d0 | | by rewrite Hu |].
  - rewrite Hsel. by destruct (off_direction o).
  - exists c, d, o', f'. split_and!; try done. rewrite (dp_settled _ _ _ Hd Hu). unfold record_of.
    rewrite Hc. cbn. unfold revision in Hrc'. destruct (snap_data c) as [k |]; [| done]. cbn in *. by rewrite Hrc'.
Qed.
End props.

(** ** A concrete deployment

    The demonstration publication on the volatile adapter. *)

#[local] Existing Instance demo_json.
#[local] Existing Instance demo_capabilities.
#[local] Instance demo_clock : MonotonicTime N := λ t, (t, t + 1).

Definition demo_world : BoardWorld N unit :=
  mkBoardWorld (snd (Authority_new (mkControl 0 Arcs_empty))) tt Arcs_empty Arcs_empty.
Definition demo_context (a : Action) : CallContext :=
  mkContext (mkGrant 0 demo_publisher a 1048576) 1000 false.
Definition demo_opened : result BoardError (Provider Memory) * BoardWorld N unit :=
  Provider_open demo_publisher 0 Limits_default Memory_default demo_world.
(** The demonstration candidate published by the opened owner. *)
Definition demo_published : option (Prepared * Provider Memory * BoardWorld N unit * Snapshot
    * Provider Memory * BoardWorld N unit) :=
  match demo_opened, demo_prepare.1 with
  | (Ok p, w), Ok cand =>
    match publish (demo_context ActPublish) cand (p, w) with
    | (Ok s, (p', w')) => Some (cand, p, w, s, p', w')
    | _ => None
    end
  | _, _ => None
  end.
Definition demo_request : SelectRequest :=
  mkRequest (lit "echo") (lit "org.example.echo") 1 (lit "Echo.") (replicate 32 x03) true.

Example demo_selects :
  match demo_published with
  | Some (_, _, _, s, p, w) => is_ok (Provider_select (demo_context ActSelect) s demo_request (p, w)).1
  | None => false
  end = true.
Proof. vm_compute. reflexivity. Qed.

Lemma demo_candidate_wf c : demo_prepare.1 = Ok c → record_wf (Record_from_prepared c).
Proof.
  intros H. unfold demo_prepare in H. destruct (Prepared_new _ _ _ _ _) as [r k] eqn:E. cbn in H. subst r.
  apply prepared_candidate_ok, record_of_candidate in E as ->. split; [done |].
  intros id [d Hd]. unfold demo_definitions in Hd. cbn [rec_definitions] in Hd.
  apply lookup_singleton_Some in Hd as [<- _]. vm_compute. reflexivity.
Qed.

Lemma demo_published_runs : ∃ cand p w s p' w',
  demo_published = Some (cand, p, w, s, p', w') ∧
  opened Memory_default (mkDeployment p w []) ∧
  runs (mkDeployment p w [])
    [CallPublish (Record_from_prepared cand) (observed (bw_revisions w') (Ok s))]
    (mkDeployment p' w' [s]).
Proof.
  assert (bool_decide (is_Some demo_published) = true) as Hsome by (vm_compute; reflexivity).
  apply bool_decide_eq_true in Hsome as [[[[[[cand p] w] s] p'] w'] E]. exists cand, p, w, s, p', w'.
  split; [done |]. unfold demo_published in E.
  destruct demo_opened as [[p0 | e] w0] eqn:Eo; [| done].
  destruct demo_prepare.1 as [c |] eqn:Ec; [| done].
  destruct (publish _ _ _) as [[s0 | e] [p1 w1]] eqn:Ep; [| done]. injection E as -> -> -> -> -> ->. split.
  - exists demo_publisher, 0, Limits_default, demo_world. by split_and!; [apply owned_empty | |].
  - apply (runs_snoc _ []  (mkDeployment p w [])); [constructor |].
    apply (deploys_publish p w [] (demo_context ActPublish) cand (Ok s)); [| exact Ep].
    by apply demo_candidate_wf.
Qed.

Lemma publication_refines_witness : ∃ (D0 D : Deployment (T := N) (K := unit) (S := Memory)) call,
  opened Memory_default D0 ∧
  register_runs (mkRegister None None true) [call] (dep_register D) ∧
  (settled (dep_register D) = true → visible (dep_register D) = durable (dep_register D)).
Proof.
  destruct demo_published_runs as (cand & p & w & s & p' & w' & _ & Ho & Hr).
  eexists (mkDeployment p w []), (mkDeployment p' w' [s]), _. split; [exact Ho |].
  exact (publication_refines Memory_default _ _ _ Ho Hr).
Defined.

Lemma snapshots_pinned_witness : ∃ (D : Deployment (T := N) (K := unit) (S := Memory)) s,
  dep_held D = [s] ∧
  N.of_nat (size (cells (dep_revisions D))) ≤ lim_snapshots (pv_limits (dep_owner D)) ∧
  ∃ d, revision s (dep_world D) = Some d.
Proof.
  destruct demo_published_runs as (cand & p & w & s & p' & w' & _ & Ho & Hr).
  exists (mkDeployment p' w' [s]), s. split; [reflexivity |].
  destruct (snapshots_pinned (mkDeployment p' w' [s])) as (Hbound & Hheld & _).
  - exists Memory_default, (mkDeployment p w []). eexists. split; [exact Ho | exact Hr].
  - split; [exact Hbound |]. destruct (Hheld s) as (d & Hd & _); [by left |]. by exists d.
Defined.

Lemma selection_exact_witness : ∃ (D : Deployment (T := N) (K := unit) (S := Memory)) s sel s',
  dep_held D = [s] ∧
  Provider_select (demo_context ActSelect) s demo_request (dep_owner D, dep_world D) = (Ok sel, s') ∧
  off_id (sel_offering sel) = lit "echo" ∧ settled (dep_register D) = true.
Proof.
  pose proof demo_selects as Hok.
  destruct demo_published_runs as (cand & p & w & s & p' & w' & E & Ho & Hr). rewrite E in Hok.
  destruct (Provider_select _ s demo_request (p', w')) as [[sel | e] s'] eqn:Hsel; [| discriminate Hok].
  exists (mkDeployment p' w' [s]), s, sel, s'. split; [reflexivity |]. split; [exact Hsel |].
  destruct (selection_exact (mkDeployment p' w' [s]) s (demo_context ActSelect) demo_request sel s')
    as (_ & _ & _ & _ & Hid & _ & _ & _ & _ & _ & Hset & _).
  - exists Memory_default, (mkDeployment p w []). eexists. split; [exact Ho | exact Hr].
  - by left.
  - exact Hsel.
  - split; [exact Hid | exact Hset].
Defined.
