(* ===== verification/Files.v ===== *)
(** * Files under an anchored directory

    The calls of [rustix::fs] and [std::fs::File] that the protected stores
    ([src/modules/board/linux.rs], [src/modules/identity/storage]) make on the
    directory they hold open, as a port; what the stores rely on of it, down to
    what a loss of power may leave of an interrupted run; and a concrete file
    system whose power fails after any chosen number of calls. *)

From S2P Require Import Prelude Bytes.

#[local] Open Scope N_scope.

(** ** The port *)

Inductive Errno : Type := NOENT | EXIST | ACCESS | PERM | LOOP | OtherErrno.
#[global] Instance Errno_eq_dec : EqDecision Errno.
Proof. solve_decision. Defined.

Record Stat : Type := mkStat { st_uid : N; st_mode : N; st_nlink : N; st_size : N }.

Abbreviation Fd := N (only parsing).

(** [open_*] stand for [openat] with the flags of the source: [open_directory]
    with [DIRECTORY|NOFOLLOW], [open_read] with [RDONLY|NOFOLLOW|NONBLOCK],
    [open_lock] with [RDWR|CREATE|NOFOLLOW|NONBLOCK], [create_new] with
    [WRONLY|CREATE|EXCL|NOFOLLOW]; [read_to_end n] is [take(n).read_to_end]. *)
Class Filesystem (F : Type) : Type := {
  open_root : bytes → M F Errno Fd;
  open_directory : Fd → bytes → M F Errno Fd;
  make_directory : Fd → bytes → M F Errno unit;
  open_read : Fd → bytes → M F Errno Fd;
  open_lock : Fd → bytes → M F Errno Fd;
  create_new : Fd → bytes → M F Errno Fd;
  lock_exclusive : Fd → M F Errno unit;
  fstat : Fd → M F Errno Stat;
  read_to_end : N → Fd → M F Errno bytes;
  write_all : Fd → bytes → M F Errno unit;
  sync_all : Fd → M F Errno unit;
  rename : Fd → bytes → bytes → bool → M F Errno unit;
  unlink : Fd → bytes → M F Errno unit;
  geteuid : F → N;
}.

(** [map_err] over a call. *)
Definition io {F E A} (f : Errno → E) (m : M F Errno A) : M F E A := λ s,
  let '(r, s') := m s in (map_err f r, s').
Lemma io_Ok_inv {F E A} (g : Errno → E) (m : M F Errno A) f a f' :
  io g m f = (Ok a, f') → m f = (Ok a, f').
Proof. unfold io. destruct (m f) as [[x | e] f1]; [by intros [= -> ->] | done]. Qed.

(** A path as [std::path::Path] splits it on Linux. *)
Inductive Component : Type := RootDir | CurDir | ParentDir | Normal (name : bytes).
Record Path : Type := mkPath { path_absolute : bool; path_components : list Component }.

(** Code that notes in a local [installed] whether its staging file has taken
    the place of the record, and that removes the staging file otherwise. *)
Definition on_files {F E A} (m : M F E A) : M (F * bool) E A := λ '(f, installed),
  let '(r, f) := m f in (r, (f, installed)).
Definition set_installed {F E} : M (F * bool) E unit := λ '(f, _), (Ok tt, (f, true)).
Definition unstage {F E A} `{!Filesystem F} (d : Fd) (st : bytes) (m : M (F * bool) E A) : M F E A := λ f,
  let '(result, (f, installed)) := m (f, false) in
  (result, if (installed : bool) then f else (unlink d st f).2).

(** ** What is known of a directory

    For every name its possible entries: the current one first, then those a
    loss of power may bring back; for every inode its content, and whether the
    content is on disk; and the inodes behind the open descriptors. *)
Record View : Type := mkView {
  v_entries : gmap bytes (option N * list (option N));
  v_data : gmap N bytes;
  v_synced : gset N;
  v_files : gmap N N;
}.

Definition entry (v : View) (n : bytes) : option N * list (option N) := default (None, []) (v_entries v !! n).
Definition current (v : View) (n : bytes) : option N := (entry v n).1.
Definition entries (v : View) (n : bytes) : list (option N) := current v n :: (entry v n).2.
Definition content (v : View) (n : bytes) : option bytes := current v n ≫= λ i, v_data v !! i.

Definition set_entry (n : bytes) (e : option N) (v : View) : View :=
  mkView (<[n := (e, entries v n)]> (v_entries v)) (v_data v) (v_synced v) (v_files v).
(** New content is not on disk yet. *)
Definition set_data (i : N) (c : bytes) (v : View) : View :=
  mkView (v_entries v) (<[i := c]> (v_data v)) (v_synced v ∖ {[i]}) (v_files v).
Definition set_file (fd : Fd) (i : N) (v : View) : View :=
  mkView (v_entries v) (v_data v) (v_synced v) (<[fd := i]> (v_files v)).
Definition mark_synced (i : N) (v : View) : View :=
  mkView (v_entries v) (v_data v) ({[i]} ∪ v_synced v) (v_files v).
(** The directory itself is on disk. *)
Definition settle_names (v : View) : View :=
  mkView ((λ x, (x.1, [])) <$> v_entries v) (v_data v) (v_synced v) (v_files v).

Definition new_inode (i : N) (v : View) : Prop :=
  v_data v !! i = None ∧ ∀ n, Some i ∉ entries v n.
Definition created_file (n : bytes) (fd : Fd) (i : N) (v : View) : View :=
  set_file fd i (set_data i [] (set_entry n (Some i) v)).

(** What the name [n] may hold when the machine comes up again: any of its
    possible entries, with the content that is on disk or, of a file that was
    not synced, with anything. *)
Definition image (v : View) (n : bytes) (o : option bytes) : Prop :=
  ∃ e, e ∈ entries v n ∧
  match e with
  | None => o = None
  | Some i => ∃ c, o = Some c ∧ (i ∈ v_synced v → v_data v !! i = Some c)
  end.

(** The view after such a restart. *)
Record restarts (v v' : View) : Prop := {
  rs_entry : ∀ n, ∃ e, entries v' n = [e] ∧ e ∈ entries v n;
  rs_file : ∀ n i, entries v' n = [Some i] → is_Some (v_data v' !! i);
  rs_data : ∀ i, i ∈ v_synced v → v_data v' !! i = v_data v !! i;
  rs_synced : ∀ i, is_Some (v_data v' !! i) → i ∈ v_synced v';
}.

(** ** The laws

    Each call either does what it says or, failing, nothing, except that a
    failed write may have written anything.  [rename] of a name onto the same
    file is not used by the stores. *)
Class FilesystemLaws (F : Type) `{FS : !Filesystem F} : Type := {
  view : Fd → F → View;
  open_read_law d n f :
    match open_read d n f with
    | (Ok fd, f') => ∃ i, current (view d f) n = Some i ∧ view d f' = set_file fd i (view d f)
    | (Err e, f') => (e = NOENT → current (view d f) n = None) ∧ view d f' = view d f
    end;
  create_new_law d n f :
    match create_new d n f with
    | (Ok fd, f') => current (view d f) n = None ∧
        ∃ i, new_inode i (view d f) ∧ view d f' = created_file n fd i (view d f)
    | (Err _, f') => view d f' = view d f
    end;
  open_lock_law d n f :
    match open_lock d n f with
    | (Ok fd, f') =>
        (∃ i, current (view d f) n = Some i ∧ view d f' = set_file fd i (view d f)) ∨
        (current (view d f) n = None ∧
         ∃ i, new_inode i (view d f) ∧ view d f' = created_file n fd i (view d f))
    | (Err _, f') => view d f' = view d f
    end;
  lock_law d fd f : view d (lock_exclusive fd f).2 = view d f;
  fstat_law d fd f : view d (fstat fd f).2 = view d f ∧
    ∀ i c s, v_files (view d f) !! fd = Some i → v_data (view d f) !! i = Some c →
      (fstat fd f).1 = Ok s → st_size s = len c;
  read_law d m fd f : view d (read_to_end m fd f).2 = view d f ∧
    ∀ i b, v_files (view d f) !! fd = Some i → (read_to_end m fd f).1 = Ok b →
      ∃ c, v_data (view d f) !! i = Some c ∧ b = take (N.to_nat m) c;
  write_law d fd b f i c :
    v_files (view d f) !! fd = Some i → v_data (view d f) !! i = Some c →
    match write_all fd b f with
    | (Ok _, f') => view d f' = set_data i (c ++ b) (view d f)
    | (Err _, f') => view d f' = view d f ∨ ∃ c', view d f' = set_data i c' (view d f)
    end;
  sync_file_law d fd f i : v_files (view d f) !! fd = Some i →
    match sync_all fd f with
    | (Ok _, f') => view d f' = mark_synced i (view d f)
    | (Err _, f') => view d f' = view d f
    end;
  sync_directory_law d f :
    match sync_all d f with
    | (Ok _, f') => view d f' = settle_names (view d f)
    | (Err _, f') => view d f' = view d f
    end;
  rename_law d a b keep f : a ≠ b → (∀ i, current (view d f) a = Some i → current (view d f) b ≠ Some i) →
    match rename d a b keep f with
    | (Ok _, f') => ∃ i, current (view d f) a = Some i ∧
        (keep = true → current (view d f) b = None) ∧
        view d f' = set_entry a None (set_entry b (Some i) (view d f))
    | (Err e, f') => (e = EXIST → keep = true → is_Some (current (view d f) b)) ∧ view d f' = view d f
    end;
  unlink_law d n f :
    match unlink d n f with
    | (Ok _, f') => is_Some (current (view d f) n) ∧ view d f' = set_entry n None (view d f)
    | (Err _, f') => view d f' = view d f
    end;
}.

(** ** Entries *)

Lemma current_set_entry n e v m :
  current (set_entry n e v) m = if decide (m = n) then e else current v m.
Proof.
  unfold current, entry, set_entry. cbn. case_decide as H; [subst; by rewrite lookup_insert_eq |].
  by rewrite lookup_insert_ne.
Qed.
Lemma entries_set_entry n e v m :
  entries (set_entry n e v) m = if decide (m = n) then e :: entries v n else entries v m.
Proof.
  unfold entries, current, entry, set_entry. cbn. case_decide as H; [subst; by rewrite lookup_insert_eq |].
  by rewrite lookup_insert_ne.
Qed.
Lemma current_settle v n : current (settle_names v) n = current v n.
Proof. unfold current, entry, settle_names. cbn. rewrite lookup_fmap. by destruct (v_entries v !! n). Qed.
Lemma entries_settle v n : entries (settle_names v) n = [current v n].
Proof.
  unfold entries. rewrite current_settle. unfold entry, settle_names. cbn. rewrite lookup_fmap.
  by destruct (v_entries v !! n).
Qed.
Lemma current_elem v n i : current v n = Some i → Some i ∈ entries v n.
Proof. intros <-. by left. Qed.
Lemma current_entries v w n : entries v n = entries w n → current v n = current w n.
Proof. unfold entries. congruence. Qed.
Lemma content_settle v n : content (settle_names v) n = content v n.
Proof. unfold content. by rewrite current_settle. Qed.

(** ** Durable names

    Every file that the name may stand for is on disk. *)
Definition durable_name (v : View) (n : bytes) : Prop :=
  ∀ i, Some i ∈ entries v n → i ∈ v_synced v ∧ is_Some (v_data v !! i).

Lemma image_content v n : durable_name v n → image v n (content v n).
Proof.
  intros Hd. exists (current v n). split; [by left |]. unfold content.
  destruct (current v n) as [i |] eqn:E; [| done]. cbn.
  destruct (Hd i) as [_ [c Hc]]; [by apply current_elem |]. by exists c.
Qed.
Lemma image_settle v n o : durable_name v n → image (settle_names v) n o ↔ o = content v n.
Proof.
  intros Hd. split.
  - intros (e & He & H). rewrite entries_settle in He. apply list_elem_of_singleton in He as ->.
    unfold content. destruct (current v n) as [i |] eqn:E; [| done]. cbn.
    destruct H as (c & -> & Hc). destruct (Hd i) as [Hs _]; [by apply current_elem |]. symmetry. exact (Hc Hs).
  - intros ->. rewrite <- content_settle. apply image_content. intros i. rewrite entries_settle.
    intros Hi%list_elem_of_singleton. apply Hd. by apply current_elem.
Qed.
Lemma image_of_settle v n o : image (settle_names v) n o → image v n o.
Proof.
  intros (e & Hin & H). exists e. split; [| exact H]. rewrite entries_settle in Hin.
  apply list_elem_of_singleton in Hin as ->. by left.
Qed.
Lemma durable_settle v n : durable_name v n → durable_name (settle_names v) n.
Proof.
  intros Hd i. rewrite entries_settle. intros Hi%list_elem_of_singleton. apply Hd. by apply current_elem.
Qed.

Lemma restarts_image v v' n : restarts v v' → image v n (content v' n) ∧ durable_name v' n.
Proof.
  intros [He Hf Hd Hs]. destruct (He n) as (e & En & Hin). split.
  - exists e. split; [done |]. unfold content. assert (current v' n = e) as -> by (unfold entries in En; congruence).
    destruct e as [i |]; [| done]. cbn. destruct (Hf n i En) as [c Hc]. exists c. split; [done |]. intros Hi. by rewrite <- (Hd i Hi).
  - intros i. rewrite En. intros [= <-]%list_elem_of_singleton. pose proof (Hf n i En). auto.
Qed.

(** ** Work beside a name

    What happens to a staging file [st] concerns no other name. *)
Record beside (st : bytes) (v v' : View) : Prop := {
  bs_entries : ∀ n, n ≠ st → entries v' n = entries v n;
  bs_file : ∀ n i, n ≠ st → Some i ∈ entries v n →
    v_data v' !! i = v_data v !! i ∧ (i ∈ v_synced v' ↔ i ∈ v_synced v);
}.
#[global] Instance beside_preorder st : PreOrder (beside st).
Proof.
  split; [by intros v; split |]. intros v1 v2 v3 [E1 F1] [E2 F2]. split.
  - intros n Hn. by rewrite E2, E1.
  - intros n i Hn Hi. destruct (F1 n i Hn Hi) as [<- <-]. apply (F2 n i Hn). by rewrite E1.
Qed.

Lemma beside_content st v v' n : beside st v v' → n ≠ st → content v' n = content v n.
Proof.
  intros [He Hf] Hn. unfold content. assert (current v' n = current v n) as ->.
  { by apply current_entries, He. }
  destruct (current v n) as [i |] eqn:Hi; [| done]. by apply (Hf n i Hn), current_elem.
Qed.
Lemma beside_image st v v' n o : beside st v v' → n ≠ st → image v' n o ↔ image v n o.
Proof.
  intros [He Hf] Hn. unfold image. rewrite He by done. split; intros (e & Hin & H); exists e.
  all: split; [done |]; destruct e as [i |]; [| done]; destruct (Hf n i Hn Hin) as [Hd Hs].
  all: destruct H as (c & -> & Hc); exists c; split; [done |]; rewrite Hd, Hs in *; done.
Qed.
Lemma beside_durable st v v' n : beside st v v' → n ≠ st → durable_name v n → durable_name v' n.
Proof.
  intros [He Hf] Hn Hd i. rewrite He by done. intros Hi.
  destruct (Hf n i Hn Hi) as [-> ->]. by apply Hd.
Qed.

Lemma beside_set_file st fd i v : beside st v (set_file fd i v).
Proof. by split. Qed.
Lemma beside_set_entry st e v : beside st v (set_entry st e v).
Proof. split; [| done]. intros n Hn. rewrite entries_set_entry. by case_decide. Qed.
Lemma beside_set_data st i c v :
  (∀ n, n ≠ st → Some i ∉ entries v n) → beside st v (set_data i c v).
Proof.
  intros Hi. split; [done |]. intros n j Hn Hj. cbn.
  assert (j ≠ i) as Hne by (intros ->; by apply (Hi n)). split; [by rewrite lookup_insert_ne | set_solver].
Qed.
Lemma beside_mark_synced st i v :
  (∀ n, n ≠ st → Some i ∉ entries v n) → beside st v (mark_synced i v).
Proof.
  intros Hi. split; [done |]. intros n j Hn Hj. cbn.
  assert (j ≠ i) as Hne by (intros ->; by apply (Hi n)). split; [done | set_solver].
Qed.

Lemma beside_created st fd i v : new_inode i v → beside st v (created_file st fd i v).
Proof.
  intros [_ Hnone]. unfold created_file. etrans; [apply (beside_set_entry st (Some i)) |].
  etrans; [| apply beside_set_file]. apply beside_set_data. intros n Hn. rewrite entries_set_entry. by case_decide.
Qed.

(** Nothing new may come back under a name, and it stays durable. *)
Record narrows (n : bytes) (v v' : View) : Prop := {
  nw_image : ∀ o, image v' n o → image v n o;
  nw_durable : durable_name v n → durable_name v' n;
}.
#[global] Instance narrows_preorder n : PreOrder (narrows n).
Proof. split; [by intros v; split |]. intros v1 v2 v3 [H1 D1] [H2 D2]. split; auto. Qed.
Lemma narrows_beside st n v v' : beside st v v' → n ≠ st → narrows n v v'.
Proof.
  intros Hb Hn. split; [| by eapply beside_durable].
  intros o. rewrite (beside_image st v v' n o Hb Hn). done.
Qed.
Lemma narrows_settle n v : narrows n v (settle_names v).
Proof. split; [intros o; apply image_of_settle | apply durable_settle]. Qed.
Lemma narrows_set_file n fd i v : narrows n v (set_file fd i v).
Proof. by split. Qed.
Lemma narrows_restarts n v v' : restarts v v' → narrows n v v'.
Proof.
  intros Hr. destruct (restarts_image v v' n Hr) as [Hi Hd]. split; [| done]. intros c Hc.
  assert (c = content v' n) as ->; [| exact Hi]. apply image_settle; [done |].
  destruct (rs_entry _ _ Hr n) as (e & En & _). destruct Hc as (e' & He' & Hc). exists e'. split; [| exact Hc].
  rewrite entries_settle. rewrite En in He'. unfold entries in En. by injection En as <- _.
Qed.

(** A staging file being written: [i] is nobody else's, open at [fd], and
    holds [c]. *)
Record staging (st : bytes) (v v' : View) (fd i : N) (c : bytes) : Prop := {
  sg_beside : beside st v v';
  sg_entry : current v' st = Some i;
  sg_file : v_files v' !! fd = Some i;
  sg_data : v_data v' !! i = Some c;
  sg_alone : ∀ n, n ≠ st → Some i ∉ entries v' n;
}.

Lemma staging_data st v v' fd i c c' : staging st v v' fd i c → staging st v (set_data i c' v') fd i c'.
Proof.
  intros [Hb He Hf Hd Ha]. split; try done.
  - etrans; [exact Hb |]. by apply beside_set_data.
  - cbn. by rewrite lookup_insert_eq.
Qed.
Lemma staging_synced st v v' fd i c : staging st v v' fd i c → staging st v (mark_synced i v') fd i c.
Proof.
  intros [Hb He Hf Hd Ha]. split; try done. etrans; [exact Hb |]. by apply beside_mark_synced.
Qed.

(** ** Staging through the port *)

Section staging.
Context {F : Type} `{FS : !Filesystem F} `{FL : !FilesystemLaws F}.

Lemma create_new_staging d st f fd f' :
  create_new d st f = (Ok fd, f') → ∃ i, staging st (view d f) (view d f') fd i [].
Proof.
  intros H. pose proof (create_new_law d st f) as L. rewrite H in L.
  destruct L as [Hc (i & [Hnew Hnone] & ->)]. exists i. unfold created_file.
  split.
  - by apply beside_created.
  - change (current (set_entry st (Some i) (view d f)) st = Some i).
    by rewrite current_set_entry, decide_True.
  - cbn. by rewrite lookup_insert_eq.
  - cbn. by rewrite lookup_insert_eq.
  - intros n Hn. change (Some i ∉ entries (set_entry st (Some i) (view d f)) n).
    rewrite entries_set_entry. by case_decide.
Qed.

(** A call that leaves the view as it is. *)
Lemma staging_view st v d f f' fd i c :
  view d f' = view d f → staging st v (view d f) fd i c → staging st v (view d f') fd i c.
Proof. by intros ->. Qed.

Lemma write_staging st v d f fd i c b r f' :
  staging st v (view d f) fd i c → write_all fd b f = (r, f') →
  ∃ c', staging st v (view d f') fd i c' ∧ (r = Ok tt → c' = c ++ b).
Proof.
  intros Hs H. pose proof (write_law d fd b f i c (sg_file _ _ _ _ _ _ Hs) (sg_data _ _ _ _ _ _ Hs)) as L.
  rewrite H in L. destruct r as [[] | e].
  - exists (c ++ b). rewrite L. split; [by eapply staging_data | done].
  - destruct L as [-> | [c' ->]]; [by exists c |]. exists c'. split; [by eapply staging_data | done].
Qed.
Lemma sync_staging st v d f fd i c r f' :
  staging st v (view d f) fd i c → sync_all fd f = (r, f') →
  staging st v (view d f') fd i c ∧ (r = Ok tt → i ∈ v_synced (view d f')).
Proof.
  intros Hs H. pose proof (sync_file_law d fd f i (sg_file _ _ _ _ _ _ Hs)) as L.
  rewrite H in L. destruct r as [[] | e]; rewrite L; [| done].
  split; [by apply staging_synced | set_solver].
Qed.

Lemma rename_staging st v d f fd i c n keep r f' :
  staging st v (view d f) fd i c → i ∈ v_synced (view d f) → n ≠ st →
  rename d st n keep f = (r, f') →
  match r with
  | Ok _ => (keep = true → current v n = None) ∧
      view d f' = set_entry st None (set_entry n (Some i) (view d f))
  | Err e => (e = EXIST → keep = true → is_Some (current v n)) ∧ view d f' = view d f
  end.
Proof.
  intros Hs Hi Hn H. pose proof (rename_law d st n keep f) as L. rewrite H in L.
  assert (∀ j, current (view d f) st = Some j → current (view d f) n ≠ Some j) as Hne.
  { intros j Hj Hj'. rewrite (sg_entry _ _ _ _ _ _ Hs) in Hj. injection Hj as <-.
    by apply (sg_alone _ _ _ _ _ _ Hs n Hn), current_elem. }
  assert (current (view d f) n = current v n) as Hc.
  { apply current_entries. by rewrite (bs_entries _ _ _ (sg_beside _ _ _ _ _ _ Hs)). }
  specialize (L (not_eq_sym Hn) Hne). rewrite Hc in L. destruct r as [u | e]; [| exact L].
  destruct L as (j & Hj & Hk & L). rewrite (sg_entry _ _ _ _ _ _ Hs) in Hj. by injection Hj as <-.
Qed.

Lemma unlink_beside d st f : beside st (view d f) (view d (unlink d st f).2).
Proof.
  pose proof (unlink_law d st f) as L. destruct (unlink d st f) as [[u | e] f']; cbn [snd].
  - destruct L as [_ ->]. apply beside_set_entry.
  - by rewrite L.
Qed.

(** *** A staged installation

    The calls both stores make between the creation of their staging file and
    its removal. *)
Section install.
Context {E : Type} (d : Fd) (st n : bytes) (keep : bool) (out : bytes)
  (check : Fd → M F E unit) (e_write e_sync e_rename e_directory : Errno → E).
Context (check_view : ∀ fd f, view d (check fd f).2 = view d f) (n_st : n ≠ st).

Definition install_body (fd : Fd) : M (F * bool) E unit :=
  on_files (check fd);;
  on_files (io e_write (write_all fd out));;
  on_files (io e_sync (sync_all fd));;
  on_files (io e_rename (rename d st n keep));;
  set_installed;;
  on_files (io e_directory (sync_all d)).

(** The record was replaced by [out]; it is on disk, and so is its name when
    the directory is known to be synced. *)
Record replaced (v v' : View) : Prop := {
  rp_content : content v' n = Some out;
  rp_image : ∀ o, image v' n o → image v n o ∨ o = Some out;
  rp_durable : durable_name v n → durable_name v' n;
  rp_empty : keep = true → current v n = None;
  rp_others : ∀ m, m ≠ n → m ≠ st → content v' m = content v m ∧ narrows m v v';
}.
(** What refused an installation that did not take place. *)
Definition refused_by (v : View) (e : E) : Prop :=
  (∃ fd f, (check fd f).1 = Err e) ∨ (∃ x, e = e_write x) ∨ (∃ x, e = e_sync x) ∨
  ∃ x, e = e_rename x ∧ (x = EXIST → keep = true → is_Some (current v n)).

Lemma replaced_install v v' fd i :
  staging st v v' fd i out → i ∈ v_synced v' → (keep = true → current v n = None) →
  replaced v (set_entry st None (set_entry n (Some i) v')).
Proof using n_st.
  intros [Hb He Hf Hd Ha] Hs Hk. set (v'' := set_entry st None _).
  assert (entries v'' n = Some i :: entries v' n) as En.
  { unfold v''. rewrite entries_set_entry, decide_False by done. by rewrite entries_set_entry, decide_True. }
  split; [| | | done |].
  - unfold content. assert (current v'' n = Some i) as -> by (unfold entries in En; congruence). done.
  - intros o. rewrite <- (beside_image st v v' n o Hb n_st). unfold image. rewrite En.
    intros (e & [-> | Hin]%elem_of_cons & H); [| left; by exists e].
    right. destruct H as (c' & -> & Hc). rewrite <- Hd. symmetry. by apply Hc.
  - intros Hdn. apply (beside_durable st v v' n Hb n_st) in Hdn as Hdn. intros j. rewrite En.
    intros [[= ->] | Hj]%elem_of_cons; [| by apply Hdn]. split; [done |]. by exists out.
  - intros m Hm Hm'. rewrite <- (beside_content st v v' m Hb Hm'). split.
    + unfold content, v''. by rewrite !current_set_entry, !decide_False by done.
    + etrans; [by eapply narrows_beside |]. etrans; [by apply (narrows_beside n m _ _ (beside_set_entry n (Some i) v')) |].
      by apply (narrows_beside st m _ _ (beside_set_entry st None _)).
Qed.
Lemma replaced_settle v v' : replaced v v' →
  replaced v (settle_names v') ∧
  (durable_name v n → ∀ o, image (settle_names v') n o → o = Some out).
Proof.
  intros [Hc Hi Hd Hk Ho]. split.
  - split; [by rewrite content_settle | | | done |].
    + intros o Hin. apply Hi. by apply image_of_settle.
    + intros Hn. by apply durable_settle, Hd.
    + intros m Hm Hm'. rewrite content_settle. destruct (Ho m Hm Hm') as [-> Hw]. split; [done |].
      etrans; [exact Hw | apply narrows_settle].
  - intros Hn o. rewrite image_settle by auto. by rewrite Hc.
Qed.

Lemma install_body_run v f fd i r f' b :
  staging st v (view d f) fd i [] → install_body fd (f, false) = (r, (f', b)) →
  if b then replaced v (view d f') ∧
    match r with
    | Ok _ => durable_name v n → ∀ o, image (view d f') n o → o = Some out
    | Err e => ∃ x, e = e_directory x
    end
  else beside st v (view d f') ∧ ∃ e, r = Err e ∧ refused_by v e.
Proof using check_view n_st.
  intros Hs H. unfold install_body, mbind, M_bind, on_files, io, set_installed in H.
  pose proof (check_view fd f) as Hv. destruct (check fd f) as [[[] | e] f1] eqn:E0; cbn [snd] in Hv.
  2: { injection H as <- <- <-. rewrite Hv. split; [apply Hs |]. exists e. split; [done |]. left.
       exists fd, f. by rewrite E0. }
  rewrite <- Hv in Hs. destruct (write_all fd out f1) as [[[] | e] f2] eqn:E1; cbn [map_err] in H.
  all: apply (write_staging _ _ _ _ _ _ _ _ _ _ Hs) in E1 as (c & Hs2 & Hc).
  2: { injection H as <- <- <-. split; [apply Hs2 |]. eexists. split; [done |]. right. left. by exists e. }
  rewrite (Hc eq_refl) in Hs2. cbn [app] in Hs2.
  destruct (sync_all fd f2) as [[[] | e] f3] eqn:E2; cbn [map_err] in H.
  all: apply (sync_staging _ _ _ _ _ _ _ _ _ Hs2) in E2 as [Hs3 Hi].
  2: { injection H as <- <- <-. split; [apply Hs3 |]. eexists. split; [done |]. do 2 right. left. by exists e. }
  specialize (Hi eq_refl).
  destruct (rename d st n keep f3) as [[[] | e] f4] eqn:E3; cbn [map_err] in H.
  all: apply (rename_staging _ _ _ _ _ _ _ _ _ _ _ Hs3 Hi n_st) in E3 as [Hk Hv4].
  2: { injection H as <- <- <-. rewrite Hv4. split; [apply Hs3 |]. eexists. split; [done |].
       do 3 right. exists e. split; [done |]. exact Hk. }
  pose proof (replaced_install _ _ _ _ Hs3 Hi Hk) as Hr. rewrite <- Hv4 in Hr.
  pose proof (sync_directory_law d f4) as L.
  destruct (sync_all d f4) as [[[] | e] f5]; cbn [map_err] in H; injection H as <- <- <-; rewrite L.
  - by apply replaced_settle.
  - split; [done |]. by exists e.
Qed.

(** The staging file goes when the installation did not take place. *)
Lemma unstage_run v f fd i r f' :
  staging st v (view d f) fd i [] → unstage d st (install_body fd) f = (r, f') →
  match r with
  | Ok _ => replaced v (view d f') ∧ (durable_name v n → ∀ o, image (view d f') n o → o = Some out)
  | Err e => (∃ x, e = e_directory x) ∧ replaced v (view d f') ∨
             refused_by v e ∧ beside st v (view d f')
  end.
Proof using check_view n_st.
  intros Hs H. unfold unstage in H. destruct (install_body fd (f, false)) as [r0 [f0 b]] eqn:Hrun.
  injection H as <- <-. apply (install_body_run _ _ _ _ _ _ _ Hs) in Hrun. destruct b.
  - destruct Hrun as [Hr He]. destruct r0 as [u | e]; [done | by left].
  - destruct Hrun as [Hb (e & -> & He)]. right. split; [done |]. etrans; [exact Hb |]. apply unlink_beside.
Qed.
End install.
End staging.

(** ** A machine whose power fails

    One directory, descriptor 0, of a machine that performs [k_power] more
    calls; every later call fails and changes nothing. *)
Record Disk : Type := mkDisk {
  k_view : View;
  k_power : nat;
}.
Definition empty_disk (power : nat) : Disk := mkDisk (mkView ∅ ∅ ∅ ∅) power.

Definition maximum_of (l : list N) : N := foldr N.max 0 l.
Definition next_file (v : View) : N := N.succ (maximum_of (elements (dom (v_files v)))).
Definition all_entries (v : View) : list N :=
  omap id (mjoin ((λ x, x.2.1 :: x.2.2) <$> map_to_list (v_entries v))).
Definition next_inode (v : View) : N :=
  N.succ (maximum_of (elements (dom (v_data v)) ++ all_entries v)).

Definition powered {A} (m : View → result Errno A * View) : M Disk Errno A := λ k,
  match k_power k with
  | O => (Err OtherErrno, k)
  | S n => let '(r, v) := m (k_view k) in (r, mkDisk v n)
  end.
(** Names are looked up in the directory only. *)
Definition at_directory {A} (d : Fd) (m : View → result Errno A * View) : M Disk Errno A :=
  if d =? 0 then powered m else λ k, (Err OtherErrno, k).
Definition behind (fd : Fd) (v : View) : option N := if fd =? 0 then None else v_files v !! fd.
Definition disk_create (n : bytes) (v : View) : result Errno Fd * View :=
  (Ok (next_file v), created_file n (next_file v) (next_inode v) v).

#[global] Instance Disk_filesystem : Filesystem Disk := {|
  open_root _ := powered (λ v, (Ok 0, v));
  open_directory d n := at_directory d (λ v, (Ok 0, v));
  make_directory d n := at_directory d (λ v, (Err EXIST, v));
  open_read d n := at_directory d (λ v,
    match current v n with
    | Some i => (Ok (next_file v), set_file (next_file v) i v)
    | None => (Err NOENT, v)
    end);
  open_lock d n := at_directory d (λ v,
    match current v n with
    | Some i => (Ok (next_file v), set_file (next_file v) i v)
    | None => disk_create n v
    end);
  create_new d n := at_directory d (λ v,
    match current v n with Some _ => (Err EXIST, v) | None => disk_create n v end);
  lock_exclusive fd := powered (λ v, (Ok tt, v));
  fstat fd := powered (λ v,
    if fd =? 0 then (Ok (mkStat 0 16832 2 0), v) else
    match behind fd v ≫= λ i, v_data v !! i with
    | Some c => (Ok (mkStat 0 33152 1 (len c)), v)
    | None => (Err OtherErrno, v)
    end);
  read_to_end m fd := powered (λ v,
    match behind fd v ≫= λ i, v_data v !! i with
    | Some c => (Ok (take (N.to_nat m) c), v)
    | None => (Err OtherErrno, v)
    end);
  write_all fd b := powered (λ v,
    match behind fd v with
    | Some i => match v_data v !! i with
                | Some c => (Ok tt, set_data i (c ++ b) v)
                | None => (Err OtherErrno, v)
                end
    | None => (Err OtherErrno, v)
    end);
  sync_all fd := powered (λ v,
    if fd =? 0 then (Ok tt, settle_names v) else
    match behind fd v with
    | Some i => (Ok tt, mark_synced i v)
    | None => (Err OtherErrno, v)
    end);
  rename d a b keep := at_directory d (λ v,
    match current v a, current v b with
    | None, _ => (Err NOENT, v)
    | Some i, Some _ => if keep : bool then (Err EXIST, v)
                        else (Ok tt, set_entry a None (set_entry b (Some i) v))
    | Some i, None => (Ok tt, set_entry a None (set_entry b (Some i) v))
    end);
  unlink d n := at_directory d (λ v,
    match current v n with Some _ => (Ok tt, set_entry n None v) | None => (Err NOENT, v) end);
  geteuid _ := 0;
|}.

Lemma maximum_of_le x l : x ∈ l → x ≤ maximum_of l.
Proof. unfold maximum_of. induction 1 as [| ???? IH]; cbn; lia. Qed.
Lemma next_inode_new v : new_inode (next_inode v) v.
Proof.
  assert (∀ i, i ∈ elements (dom (v_data v)) ++ all_entries v → i ≠ next_inode v) as Hne.
  { intros i Hi ->. apply maximum_of_le in Hi. unfold next_inode in Hi. lia. }
  split.
  - apply not_elem_of_dom. intros Hin. by apply (Hne (next_inode v)); [apply elem_of_app; left; apply elem_of_elements |].
  - intros n Hin. apply (Hne (next_inode v)); [| done]. apply elem_of_app. right.
    unfold all_entries. apply list_elem_of_omap. exists (Some (next_inode v)). split; [| done].
    apply list_elem_of_join. unfold entries, current, entry in Hin.
    destruct (v_entries v !! n) as [[e l] |] eqn:E; cbn in Hin.
    + exists (e :: l). split; [done |]. apply list_elem_of_fmap. exists (n, (e, l)). split; [done |].
      by apply elem_of_map_to_list.
    + apply list_elem_of_singleton in Hin. done.
Qed.

(** The view of the machine: descriptor 0 is never a file. *)
Definition disk_view (d : Fd) (k : Disk) : View :=
  if d =? 0 then
    mkView (v_entries (k_view k)) (v_data (k_view k)) (v_synced (k_view k)) (delete 0 (v_files (k_view k)))
  else mkView ∅ ∅ ∅ ∅.

Lemma entries_disk_view k n : entries (disk_view 0 k) n = entries (k_view k) n.
Proof. done. Qed.
Lemma disk_view_off d k : d ≠ 0 → disk_view d k = mkView ∅ ∅ ∅ ∅.
Proof. intros H. unfold disk_view. by rewrite (proj2 (N.eqb_neq d 0) H). Qed.
Lemma disk_view_set_file fd i v n :
  fd ≠ 0 → disk_view 0 (mkDisk (set_file fd i v) n) = set_file fd i (disk_view 0 (mkDisk v n)).
Proof. intros H. unfold disk_view, set_file. cbn. by rewrite delete_insert_ne. Qed.
Lemma next_file_pos v : next_file v ≠ 0.
Proof. unfold next_file. lia. Qed.
Lemma behind_disk fd v n i : v_files (disk_view 0 (mkDisk v n)) !! fd = Some i → fd ≠ 0 ∧ behind fd v = Some i.
Proof.
  unfold behind. cbn. rewrite lookup_delete_Some. intros [Hne ->].
  split; [done |]. by rewrite (proj2 (N.eqb_neq fd 0)).
Qed.

(** Every call at another descriptor than the directory's fails there. *)
#[local] Ltac off_disk := unfold at_directory; rewrite ?(proj2 (N.eqb_neq _ 0)) by done.

Lemma disk_create_law n v k :
  let '(r, v') := disk_create n v in ∃ fd i, r = Ok fd ∧ new_inode i (disk_view 0 (mkDisk v k)) ∧
  ∀ k', disk_view 0 (mkDisk v' k') = created_file n fd i (disk_view 0 (mkDisk v k)).
Proof.
  exists (next_file v), (next_inode v). split_and!; [done | apply (next_inode_new v) |].
  intros k'. unfold created_file. by rewrite disk_view_set_file by apply next_file_pos.
Qed.

(** The two ways a call on the disk ends: without power, or with it. *)
Lemma powered_cases {A} (m : View → result Errno A * View) (P : result Errno A * Disk → Prop) k :
  P (Err OtherErrno, k) →
  (∀ n, let '(r, v) := m (k_view k) in P (r, mkDisk v n)) → P (powered m k).
Proof.
  intros H0 H1. unfold powered. destruct (k_power k) as [| n]; [done |].
  specialize (H1 n). by destruct (m (k_view k)).
Qed.
Lemma at_directory_cases {A} d (m : View → result Errno A * View) (P : result Errno A * Disk → Prop) k :
  P (Err OtherErrno, k) →
  (d = 0 → ∀ n, let '(r, v) := m (k_view k) in P (r, mkDisk v n)) → P (at_directory d m k).
Proof.
  intros H0 H1. unfold at_directory. destruct (N.eqb_spec d 0) as [-> |]; [| done].
  apply powered_cases; [done | by apply H1].
Qed.

#[global, refine] Instance Disk_laws : FilesystemLaws Disk := {| view := disk_view |}.
Proof.
  - intros d n k. unfold open_read; cbn. apply at_directory_cases; [done |]. intros -> m.
    destruct (current (k_view k) n) as [i |] eqn:E.
    + exists i. split; [done |]. by rewrite disk_view_set_file by apply next_file_pos.
    + by split.
  - intros d n k. unfold create_new; cbn. apply at_directory_cases; [done |]. intros -> m.
    destruct (current (k_view k) n) as [i |] eqn:E; [done |].
    destruct (disk_create_law n (k_view k) m) as (fd & i & Hr & Hn & Hv).
    split; [done |]. exists (next_inode (k_view k)). split; [apply (next_inode_new (k_view k)) |].
    unfold created_file. by rewrite disk_view_set_file by apply next_file_pos.
  - intros d n k. unfold open_lock; cbn. apply at_directory_cases; [done |]. intros -> m.
    destruct (current (k_view k) n) as [i |] eqn:E.
    + left. exists i. split; [done |]. by rewrite disk_view_set_file by apply next_file_pos.
    + right. split; [done |]. exists (next_inode (k_view k)). split; [apply (next_inode_new (k_view k)) |].
      unfold created_file. by rewrite disk_view_set_file by apply next_file_pos.
  - intros d fd k. unfold lock_exclusive; cbn. by apply powered_cases.
  - intros d fd k. unfold fstat; cbn. apply powered_cases; [by split |]. intros m.
    destruct (N.eqb_spec fd 0) as [-> | Hfd].
    { split; [done |]. intros i c s H. unfold disk_view in H. destruct (d =? 0); cbn in H;
        by rewrite ?lookup_delete_eq in H. }
    unfold behind. rewrite (proj2 (N.eqb_neq fd 0)) by done.
    destruct (v_files (k_view k) !! fd ≫= _) as [c0 |] eqn:E; (split; [done |]); intros i c s Hi Hc; [| done].
    unfold disk_view in Hi, Hc. destruct (d =? 0); [| done]. cbn in Hi, Hc.
    rewrite lookup_delete_ne in Hi by done. rewrite Hi in E. cbn in E. rewrite Hc in E.
    injection E as <-. by intros [= <-].
  - intros d mx fd k. unfold read_to_end; cbn. apply powered_cases; [by split |]. intros m.
    destruct (behind fd (k_view k) ≫= _) as [c |] eqn:E; (split; [done |]); intros i b Hi; [| done].
    unfold disk_view in *. destruct (d =? 0); [| done].
    apply (behind_disk fd (k_view k) m i) in Hi as [_ Hi]. rewrite Hi in E. intros [= <-]. by exists c.
  - intros d fd b k i c Hi Hc. unfold write_all; cbn. apply powered_cases.
    { by left. }
    intros m. unfold disk_view in *. destruct (d =? 0); [| done].
    assert (behind fd (k_view k) = Some i) as -> by by apply (behind_disk fd (k_view k) m i).
    cbn in Hc. by rewrite Hc.
  - intros d fd k i Hi. unfold sync_all; cbn. apply powered_cases; [done |]. intros m.
    unfold disk_view in *. destruct (d =? 0); [| done].
    apply (behind_disk fd (k_view k) m i) in Hi as [Hne ->]. by rewrite (proj2 (N.eqb_neq fd 0)).
  - intros d k. unfold sync_all; cbn. apply powered_cases; [done |]. intros m.
    destruct (N.eqb_spec d 0) as [-> | Hd]; [done |].
    destruct (behind d (k_view k)); rewrite !disk_view_off by done; [| done].
    unfold settle_names. cbn. by rewrite fmap_empty.
  - intros d a b keep k Hab Hne. unfold rename; cbn. apply at_directory_cases; [done |]. intros -> m.
    change (current (disk_view 0 k)) with (current (k_view k)) in *.
    destruct (current (k_view k) a) as [i |] eqn:Ea; [| done].
    destruct (current (k_view k) b) as [j |] eqn:Eb; [destruct keep |]; [done | |]; by exists i.
  - intros d n k. unfold unlink; cbn. apply at_directory_cases; [done |]. intros -> m.
    destruct (current (k_view k) n) as [i |] eqn:E; [| done]. split; [| done].
    change (current (disk_view 0 k) n) with (current (k_view k) n). by rewrite E.
Defined.

(** A restart of the machine that finds the current names, and one that finds the names that
    were on disk when the directory was last synced. *)
Definition restarted (pick : option N * list (option N) → option N) (v : View) : View :=
  mkView ((λ x, (pick x, [])) <$> v_entries v) (v_data v) (dom (v_data v)) ∅.
Definition newest (x : option N * list (option N)) : option N := x.1.
Definition oldest (x : option N * list (option N)) : option N := default x.1 (last x.2).

Definition has_data (v : View) (e : option N) : bool :=
  match e with Some i => bool_decide (is_Some (v_data v !! i)) | None => true end.

Lemma restarted_restarts pick v :
  (∀ x, pick x ∈ x.1 :: x.2) →
  map_Forall (λ _ x, has_data v (pick x) = true) (v_entries v) →
  restarts v (restarted pick v).
Proof.
  intros Hp Hf. assert (∀ n, entries (restarted pick v) n =
    [match v_entries v !! n with Some x => pick x | None => None end]) as En.
  { intros n. unfold entries, current, entry, restarted. cbn. rewrite lookup_fmap. by destruct (v_entries v !! n). }
  split; [| | done | intros i Hi; cbn; by apply elem_of_dom].
  - intros n. eexists. split; [apply En |]. unfold entries, current, entry.
    destruct (v_entries v !! n) as [[e l] |]; [apply Hp | by left].
  - intros n i. rewrite En. intros [= E]. destruct (v_entries v !! n) as [x |] eqn:Ex; [| done].
    specialize (Hf n x Ex). cbn in Hf. rewrite E in Hf. by apply bool_decide_eq_true in Hf.
Qed.
Lemma newest_elem x : newest x ∈ x.1 :: x.2.
Proof. by left. Qed.
Lemma oldest_elem x : oldest x ∈ x.1 :: x.2.
Proof.
  unfold oldest. destruct (last x.2) as [e |] eqn:E; [| by left]. right.
  apply last_Some in E as [l ->]. apply elem_of_app. right. by left.
Qed.

Definition sound_files (pick : option N * list (option N) → option N) (v : View) : bool :=
  bool_decide (map_Forall (λ _ x, has_data v (pick x) = true) (v_entries v)).
