(* ===== verification/Durability.v ===== *)
(** * Acknowledged publications survive a loss of power

    What the durability of a persistence adapter means, which calls of an owner
    ([src/modules/board/state.rs]) touch it, and the theorem over every run of
    an owner: what a restarted store may load is the register's record. *)

From S2P Require Import Prelude Bytes Json Api Arcs BoardBase Document Offering Schema ServiceDef.
From S2P Require Import Prepared PreparedProps RecordCodec Publication PublicationInv PublicationProps.

#[local] Open Scope N_scope.

(** ** The durability of an adapter

    [recoverable s o]: a store opened on what a loss of power leaves of [s] may
    load [o].  Loading and committing only narrow this down: a successful load
    or commit leaves one possibility, a refused commit adds none. *)
Class DurabilityLaws (S : Type) `{PS : !Persistence S} `{PL : !PersistenceLaws S} : Type := {
  intact : S → Prop;
  recoverable : S → option PublicationRecord → Prop;
  load_intact s : intact s → intact (storage_load s).2;
  load_narrows s o : recoverable (storage_load s).2 o → recoverable s o;
  load_settles s r s' o : intact s → storage_load s = (Ok r, s') → recoverable s' o → o = r;
  commit_intact r s : intact s → record_wf r → intact (storage_commit r s).2;
  commit_settles r s u s' o : intact s → record_wf r →
    storage_commit r s = (Ok u, s') → recoverable s' o → o = Some r;
  commit_narrows r s e s' o : intact s → record_wf r →
    storage_commit r s = (Err e, s') → recoverable s' o → recoverable s o ∨ (e = BUnknown ∧ o = Some r);
}.

Section durability.
Context {T : Type} `{!MonotonicTime T} {K : Type} `{!Capabilities K} {S : Type} `{PS : !Persistence S}
  `{PL : !PersistenceLaws S} `{DL : !DurabilityLaws S} `{SJ : !SerdeJson}.

Abbreviation World := (BoardWorld T K) (only parsing).
Abbreviation Pv := (Provider S) (only parsing).
Abbreviation PSt := (Pv * World)%type (only parsing).
Abbreviation PM := (M PSt BoardError) (only parsing).

(** ** Calls that leave the storage alone *)

Record same_storage (s s' : PSt) : Prop := {
  ss_storage : pv_storage s'.1 = pv_storage s.1;
  ss_uncertain : pv_uncertain s'.1 = pv_uncertain s.1;
}.
#[global] Instance same_storage_preorder : PreOrder same_storage.
Proof. split; [by intros s; split |]. intros a b c [E1 E2] [E3 E4]. split; congruence. Qed.

Definition keeps {A} (m : PM A) : Prop := ∀ s, same_storage s (m s).2.

Lemma keeps_quiet {A} (m : PM A) : quiet m → keeps m.
Proof. intros H s. destruct (H s) as [E _ _]. split; by rewrite E. Qed.
Lemma keeps_bind {A B} (m : PM A) (f : A → PM B) : keeps m → (∀ a, keeps (f a)) → keeps (m ≫= f).
Proof.
  intros Hm Hf s. specialize (Hm s). unfold mbind, M_bind.
  destruct (m s) as [[a | e] s']; [etrans; [exact Hm | apply Hf] | exact Hm].
Qed.
Lemma keeps_on_provider f :
  (∀ p, pv_storage (f p) = pv_storage p ∧ pv_uncertain (f p) = pv_uncertain p) → keeps (on_provider f).
Proof. intros H [p w]. by split; apply H. Qed.
Lemma keeps_push_pin r : keeps (on_provider (push_pin r)).
Proof. by apply keeps_on_provider. Qed.
Lemma keeps_set_current c : keeps (on_provider (set_current c)).
Proof. by apply keeps_on_provider. Qed.
Lemma keeps_on_revisions f : keeps (on_revisions f).
Proof. by intros [p w]. Qed.
Lemma keeps_new_revision d : keeps (new_revision d).
Proof. intros [p w]. unfold new_revision. by destruct (arc_new _ _). Qed.
Lemma keeps_replace_current c : keeps (replace_current c).
Proof. by intros [p w]. Qed.
Lemma keeps_admit : keeps admit_revision.
Proof. intros [p w]. unfold admit_revision. by destruct (_ <=? _). Qed.
Lemma keeps_dropping {A} r (m : PM A) : keeps m → keeps (dropping r m).
Proof. intros H s. specialize (H s). unfold dropping.
  destruct (m s) as [[a | e] [p w]]; [done |]. destruct H. by split.
Qed.
Lemma keeps_ret {A} (a : A) : keeps (mret a).
Proof. by intros s. Qed.

#[local] Hint Resolve quiet_ret quiet_throw quiet_lift quiet_ensure quiet_self quiet_get_revision
  quiet_on_capabilities quiet_check quiet_lock quiet_check_snapshot : core.
#[local] Hint Resolve keeps_bind keeps_push_pin keeps_set_current keeps_on_revisions keeps_new_revision
  keeps_replace_current keeps_admit keeps_dropping keeps_ret : core.
#[local] Hint Extern 2 (keeps _) => apply keeps_quiet : core.

(** One such call of a body: it fails with the storage as it was, or the body
    goes on. *)
Lemma keeps_next {A B} (m : PM A) (f : A → PM B) s0 s r s' :
  keeps m → same_storage s0 s → (m ≫= f) s = (r, s') →
  (∃ e, r = Err e ∧ same_storage s0 s') ∨ ∃ a s1, same_storage s0 s1 ∧ m s = (Ok a, s1) ∧ f a s1 = (r, s').
Proof.
  intros Hm Hs H. specialize (Hm s). unfold mbind, M_bind in H. destruct (m s) as [[a | e] s1].
  - right. exists a, s1. split; [by etrans |]. done.
  - left. injection H as <- <-. exists e. split; [done |]. by etrans.
Qed.

(** ** What each call does to the storage *)

Inductive touches (s : PSt) (c : BoardCall) (s' : PSt) : Prop :=
| touches_not : same_storage s s' → touches s c s'
| touches_load u : c = CallRecover u →
    pv_storage s'.1 = (storage_load (pv_storage s.1)).2 →
    pv_uncertain s'.1 = pv_uncertain s.1 ∨
      (pv_uncertain s'.1 = false ∧ is_ok (storage_load (pv_storage s.1)).1 = true) → touches s c s'
| touches_commit r x : c = CallPublish r x → pv_uncertain s.1 = false →
    pv_storage s'.1 = (storage_commit r (pv_storage s.1)).2 →
    match (storage_commit r (pv_storage s.1)).1 with
    | Ok _ => pv_uncertain s'.1 = false
    | Err e => x = Err e ∧ pv_uncertain s'.1 = bool_decide (e = BUnknown)
    end → touches s c s'.

#[local] Ltac keep H a s1 Hs Hm :=
  let e := fresh "e" in
  eapply keeps_next in H; [| solve [eauto 20] | eassumption];
  destruct H as [(e & -> & H) | (a & s1 & Hs & Hm & H)];
  [by apply touches_not |].

Lemma recover_touches x s r s' : recover x s = (r, s') → touches s (CallRecover r) s'.
Proof.
  intros H. assert (same_storage s s) as H0 by done. unfold recover in H.
  keep H u1 s1 H1 Hm1. keep H u2 s2 H2 Hm2. clear H0 H1 Hm1 Hm2.
  unfold mbind at 1, M_bind at 1, on_storage in H. destruct s2 as [p2 w2].
  destruct H2 as [E1 E2]. cbn [fst] in E1, E2.
  destruct (storage_load (pv_storage p2)) as [[record | e] st] eqn:Hl.
  2: { injection H as <- <-. eapply touches_load; [done | |]; cbn; [by rewrite <- E1, Hl | by left]. }
  assert (∀ s', same_storage (set_storage st p2, w2) s' → touches s (CallRecover r) s') as Hload.
  { intros s0 [E3 E4]. eapply touches_load; [done | |]; rewrite ?E3, ?E4; cbn; [by rewrite <- E1, Hl | by left]. }
  assert (same_storage (set_storage st p2, w2) (set_storage st p2, w2)) as H3 by done.
  eapply keeps_next in H; [| auto | exact H3]. destruct H as [(e & -> & H) | (p3 & s3 & H4 & _ & H)]; [by apply Hload |].
  eapply keeps_next in H; [| destruct record; eauto 20 | exact H4].
  destruct H as [(e & -> & H) | (u & [p4 w4] & [E3 E4] & _ & H)]; [by apply Hload |].
  injection H as <- <-. cbn [fst] in E3, E4. eapply touches_load; [done | |]; cbn; rewrite ?E3; cbn; rewrite <- E1, Hl; [done |].
  by right.
Qed.

Lemma publish_touches x cand s r s' h :
  publish x cand s = (r, s') → touches s (CallPublish (Record_from_prepared cand) (observed h r)) s'.
Proof.
  intros H. assert (same_storage s s) as H0 by done. unfold publish in H.
  keep H p1 s1 H1 Hm1. keep H u2 s2 H2 Hm2. keep H u3 s3 H3 Hm3. keep H u4 s4 H4 Hm4. keep H q s5 H5 Hm5.
  keep H u6 s6 H6 Hm6. keep H u7 s7 H7 Hm7. keep H p8 s8 H8 Hm8. keep H u9 s9 H9 Hm9.
  keep H u10 s10 H10 Hm10. keep H u11 s11 H11 Hm11. keep H u12 s12 H12 Hm12.
  assert (Record_from_prepared q = Record_from_prepared cand) as Hrec.
  { apply ensure_Ok_inv in Hm3 as [Hm3 _]. apply bool_decide_eq_true in Hm3.
    destruct s4 as [p4 w4]. apply on_capabilities_inv in Hm5 as [k' Hq].
    apply prepared_candidate_ok, record_of_candidate in Hq as ->. unfold Record_from_prepared. by rewrite Hm3. }
  assert (pv_uncertain s.1 = false) as Hu.
  { apply ensure_Ok_inv in Hm9 as [Hm9 _]. apply negb_true_iff in Hm9.
    destruct s7 as [p7 w7]. injection Hm8 as <- _. destruct H7 as [_ <-]. exact Hm9. }
  rewrite <- Hrec. destruct s12 as [p w]. destruct H12 as [E1 E2]. cbn [fst] in E1, E2.
  unfold mbind at 1, M_bind at 1, try_, on_storage in H.
  destruct (storage_commit (Record_from_prepared q) (pv_storage p)) as [[[] | e] st] eqn:Ec.
  - assert (same_storage (set_storage st p, w) (set_storage st p, w)) as Hk by done.
    assert (∀ s', same_storage (set_storage st p, w) s' →
      touches s (CallPublish (Record_from_prepared q) (observed h r)) s') as Hdone.
    { intros s0 [E3 E4]. eapply touches_commit; [done | done | |]; rewrite ?E3, ?E4; cbn; rewrite <- E1, Ec; cbn; congruence. }
    apply Hdone. eapply (keeps_next _ _ _ _ _ _ (keeps_new_revision q) Hk) in H.
    destruct H as [(e & _ & H) | (d & s1' & Hk' & _ & H)]; [done |].
    etrans; [exact Hk' |]. assert (s' = (r, s').2) as -> by done. rewrite <- H.
    match goal with |- same_storage _ (?m _).2 => assert (keeps m) as Hm by eauto 20; apply Hm end.
  - injection H as <- <-. eapply touches_commit; [done | done | |]; cbn; rewrite <- E1, Ec; cbn.
    + by destruct (bool_decide (e = BUnknown)).
    + split; [done |]. destruct (bool_decide (e = BUnknown)); cbn; congruence.
Qed.

Lemma deploys_touches (D D' : Deployment (T := T) (K := K) (S := S)) c :
  deploys D c D' → touches (dep_owner D, dep_world D) c (dep_owner D', dep_world D').
Proof.
  destruct 1; cbn; try by apply touches_not.
  - by eapply publish_touches.
  - apply touches_not. assert (keeps (read x)) as Hk by (unfold read; eauto 20).
    specialize (Hk (p, w)). by rewrite H in Hk.
  - by apply recover_touches in H.
  - apply touches_not. assert (keeps (definition x s id)) as Hk by apply keeps_quiet, quiet_definition.
    specialize (Hk (p, w)). by rewrite H in Hk.
  - apply touches_not. assert (keeps (Provider_select x s q)) as Hk by apply keeps_quiet, quiet_select.
    specialize (Hk (p, w)). by rewrite H in Hk.
  - apply touches_not. assert (keeps (current_selection x sel)) as Hk by apply keeps_quiet, quiet_current_selection.
    specialize (Hk (p, w)). by rewrite H in Hk.
Qed.

(** ** Every run *)

(** The publications whose outcome nobody knows. *)
Definition attempted (calls : list BoardCall) (o : option PublicationRecord) : Prop :=
  ∃ r, o = Some r ∧ CallPublish r (Err BUnknown) ∈ calls.

Record lasting (D : Deployment (T := T) (K := K) (S := S)) (calls : list BoardCall) : Prop := {
  la_deployed : deployed (dep_owner D) (dep_revisions D) (dep_held D);
  la_intact : intact (pv_storage (dep_owner D));
  la_settled : pv_uncertain (dep_owner D) = false →
    ∀ o, recoverable (pv_storage (dep_owner D)) o → o = stored (pv_storage (dep_owner D));
  la_unsettled : pv_uncertain (dep_owner D) = true →
    ∀ o, recoverable (pv_storage (dep_owner D)) o → o = visible (dep_register D) ∨ attempted calls o;
}.

Lemma attempted_snoc calls c o : attempted calls o → attempted (calls ++ [c]) o.
Proof. intros (r & -> & H). exists r. split; [done |]. apply elem_of_app. by left. Qed.
Lemma serves_unsettled a c b : serves a c b → settled a = false → settled b = false → visible b = visible a.
Proof. by destruct 1. Qed.
Lemma serves_publish_err a r e b : serves a (CallPublish r (Err e)) b → visible b = visible a.
Proof. by inversion 1. Qed.
Lemma deploys_publish_wf (D D' : Deployment (T := T) (K := K) (S := S)) r x :
  deploys D (CallPublish r x) D' → record_wf r.
Proof. by inversion 1. Qed.

Lemma settled_uncertain (D : Deployment (T := T) (K := K) (S := S)) :
  settled (dep_register D) = negb (pv_uncertain (dep_owner D)).
Proof. done. Qed.

Lemma lasting_step D calls c D' : lasting D calls → deploys D c D' → lasting D' (calls ++ [c]).
Proof using Type*.
  intros [Hd Hi Hs Hu] Hstep. destruct (deploys_sound _ _ _ Hd Hstep) as (Hd' & Hserves & _ & _).
  assert (pv_uncertain (dep_owner D) = true → pv_uncertain (dep_owner D') = true →
    visible (dep_register D') = visible (dep_register D)) as Hvis.
  { intros E E'. eapply serves_unsettled; [exact Hserves | |]; by rewrite settled_uncertain, ?E, ?E'. }
  pose proof (deploys_touches _ _ _ Hstep) as [[E1 E2] | u -> E1 E2 | r x -> E0 E1 E2]; cbn [fst] in *.
  - split; [done | by rewrite E1 | by rewrite E1, E2 |]. rewrite E1, E2. intros Eu o Ho.
    rewrite Hvis by congruence. destruct (Hu Eu o Ho); [by left | right; by apply attempted_snoc].
  - set (s := pv_storage (dep_owner D)) in *. pose proof (load_keeps s) as Hk. pose proof (load_exact s) as Hx.
    split; [done | rewrite E1; by apply load_intact | |]; rewrite E1.
    + intros Eu o Ho. destruct E2 as [E2 | [_ Hok]].
      * rewrite Hk. apply Hs; [congruence |]. by apply load_narrows.
      * destruct (storage_load s) as [[r | e] s'] eqn:El; [| done]. cbn in Hk, Hx, Ho |- *.
        rewrite (load_settles s r s' o Hi El Ho), Hk. by apply Hx.
    + intros Eu o Ho%load_narrows. destruct E2 as [E2 | [E2 _]]; [| congruence].
      rewrite Hvis by congruence. destruct (Hu ltac:(congruence) o Ho); [by left | right; by apply attempted_snoc].
  - apply deploys_publish_wf in Hstep as Hwf. set (s := pv_storage (dep_owner D)) in *.
    destruct (storage_commit r s) as [[[] | e] s'] eqn:Ec; cbn [fst snd] in E1, E2.
    all: pose proof (commit_intact r s Hi Hwf) as Hi'; rewrite Ec in Hi'; cbn [snd] in Hi'.
    + split; [done | by rewrite E1 | | congruence]. rewrite E1. intros _ o Ho.
      rewrite (commit_ok _ _ _ Hwf Ec). exact (commit_settles r s tt s' o Hi Hwf Ec Ho).
    + destruct E2 as [-> E2]. split; [done | by rewrite E1 | |]; rewrite E1, E2; intros Ee o Ho.
      * apply bool_decide_eq_false in Ee. rewrite (commit_refused _ _ _ _ Ec Ee).
        destruct (commit_narrows _ _ _ _ _ Hi Hwf Ec Ho) as [Ho' | [-> _]]; [by apply Hs | done].
      * apply bool_decide_eq_true in Ee as ->. apply serves_publish_err in Hserves as ->.
        destruct (commit_narrows _ _ _ _ _ Hi Hwf Ec Ho) as [Ho' | [_ ->]].
        -- left. rewrite (Hs E0 o Ho'). exact (dp_settled _ _ _ Hd E0).
        -- right. exists r. split; [done |]. apply elem_of_app. right. by left.
Qed.

(** ** Opening *)

Lemma opened_storage storage (D : Deployment (T := T) (K := K) (S := S)) :
  opened storage D →
  pv_storage (dep_owner D) = (storage_load storage).2 ∧ pv_uncertain (dep_owner D) = false ∧
  is_ok (storage_load storage).1 = true.
Proof.
  intros (publisher & authority & limits & w & _ & H & _). unfold Provider_open, Provider_create in H.
  destruct (Limits_validate limits) as [[] | e]; [| done]. cbn [mbind result_bind] in H.
  destruct (arc_new tt (bw_tokens w)) as [domain tokens].
  destruct (open_storage _) as [[[] | e] [p1 w1]] eqn:E; [| done]. injection H as <- _.
  unfold open_storage in E. unfold mbind at 1, M_bind at 1, on_storage in E. cbn [pv_storage] in E.
  destruct (storage_load storage) as [[record | e] st]; [| done]. cbn [fst snd is_ok].
  match type of E with ?m ?s = _ => assert (keeps m) as Hk by (destruct record; eauto 20); specialize (Hk s) end.
  rewrite E in Hk. by destruct Hk as [E1 E2].
Qed.

Lemma lasting_opened storage D : intact storage → opened storage D → lasting D [].
Proof using Type*.
  intros Hi Ho. apply opened_storage in Ho as Hst. destruct Hst as (E1 & E2 & Hok).
  split; [by apply (opened_deployed storage) | rewrite E1; by apply load_intact | | congruence].
  intros _ o. rewrite E1, load_keeps. pose proof (load_exact storage) as Hx.
  destruct (storage_load storage) as [[r | e] s'] eqn:El; [| done]. cbn.
  intros Hr. rewrite (load_settles _ _ _ _ Hi El Hr). by apply Hx.
Qed.
Lemma lasting_runs D0 calls D : lasting D0 [] → runs D0 calls D → lasting D calls.
Proof using Type*.
  intros H0 Hr. induction Hr as [D | D l D1 c D2 Hr IH Hs]; [done |]. eapply lasting_step; [by apply IH | done].
Qed.

(** What a restarted store may load after any run. *)
Lemma runs_recoverable storage D0 calls D o :
  intact storage → opened storage D0 → runs D0 calls D →
  recoverable (pv_storage (dep_owner D)) o →
  if settled (dep_register D) then o = durable (dep_register D)
  else o = visible (dep_register D) ∨ attempted calls o.
Proof using Type*.
  intros Hi Ho Hr Hrec. pose proof (lasting_runs _ _ _ (lasting_opened _ _ Hi Ho) Hr) as [_ _ Hs Hu].
  rewrite settled_uncertain. destruct (pv_uncertain (dep_owner D)) eqn:E; cbn [negb]; [by apply Hu | by apply Hs].
Qed.
End durability.
