(* ===== verification/BoardStore.v ===== *)
(** * The Board's file storage

    [src/modules/board/linux.rs]: the persistence adapter of a Board over one
    protected directory.  The contract of the port ([PersistenceLaws]) and its
    durability ([DurabilityLaws]) are proved for it over any file system that
    keeps the laws of [Files]. *)

From S2P Require Import Prelude Bytes Json Api Arcs BoardBase Document Offering Schema ServiceDef Prepared PreparedProps RecordCodec.
From S2P Require Import Publication PublicationInv PublicationProps Durability Files.

#[local] Open Scope N_scope.

Definition WRITER_LOCK : bytes := Eval cbv in lit "writer.lock".
Definition BOARD_BIN : bytes := Eval cbv in lit "board.bin".
Definition BOARD_PENDING : bytes := Eval cbv in lit "board.pending".

Record FileStore : Type := mkFileStore {
  fs_directory : Fd;
  fs_lock : Fd;
  fs_limits : Limits;
}.

Section store.
Context {F : Type} `{FS : !Filesystem F}.

Abbreviation FM := (M F BoardError) (only parsing).

(** [protected]: the modes are [0o040700] and [0o100600] under [0o177777]. *)
Definition protected (file : Fd) (directory : bool) : FM unit :=
  m ← io (λ _, BStorage) (fstat file);
  let mode := if directory then 16832 else 33152 in
  user ← gets geteuid;
  ensure (negb (negb (st_uid m =? user) || negb (N.land (st_mode m) 65535 =? mode)
                || negb directory && negb (st_nlink m =? 1))) BDenied.

(** The loop of [directory]; [i + 1 == components.len()] when nothing is left. *)
Fixpoint walk (dir : Fd) (components : list Component) : FM Fd :=
  match components with
  | [] => mret dir
  | RootDir :: rest | CurDir :: rest => walk dir rest
  | Normal name :: rest =>
    opened ← try_ (open_directory dir name);
    fd ← match opened with
         | Ok fd => mret fd
         | Err NOENT =>
           if is_empty rest then
             made ← try_ (make_directory dir name);
             match made with
             | Ok _ | Err EXIST => mret tt
             | Err _ => throw BStorage
             end;;
             io (λ _, BUnknown) (sync_all dir);;
             io (λ _, BStorage) (open_directory dir name)
           else throw BStorage
         | Err _ => throw BStorage
         end;
    walk fd rest
  | ParentDir :: _ => throw BInvalid
  end.
Definition directory (path : Path) : FM Fd :=
  if is_empty (path_components path) then throw BInvalid else
  dir ← io (λ _, BStorage) (open_root (if path_absolute path then lit "/" else lit "."));
  walk dir (path_components path).

(** [FileStore::open], from the opened directory on. *)
Definition open_at (directory : Fd) (limits : Limits) : FM FileStore :=
  protected directory true;;
  lock ← io (λ _, BStorage) (open_lock directory WRITER_LOCK);
  protected lock false;;
  io (λ _, BDenied) (lock_exclusive lock);;
  pending ← try_ (open_read directory BOARD_PENDING);
  match pending with
  | Ok fd =>
    protected fd false;;
    io (λ _, BStorage) (unlink directory BOARD_PENDING);;
    io (λ _, BUnknown) (sync_all directory)
  | Err NOENT => mret tt
  | Err _ => throw BStorage
  end;;
  mret (mkFileStore directory lock limits).
Definition FileStore_open (path : Path) (limits : Limits) : FM FileStore :=
  lift (Limits_validate limits);;
  directory ← directory path;
  open_at directory limits.

Definition FileStore_load (s : FileStore) : FM (option PublicationRecord) :=
  opened ← try_ (open_read (fs_directory s) BOARD_BIN);
  match opened with
  | Err NOENT => mret None
  | Err _ => throw BStorage
  | Ok file =>
    protected file false;;
    maximum ← lift (maximum (fs_limits s));
    metadata ← io (λ _, BStorage) (fstat file);
    ensure (negb (maximum <? st_size metadata)) BLimit;;
    bytes ← io (λ _, BStorage) (read_to_end (maximum + 1) file);
    record ← lift (decode bytes (fs_limits s));
    io (λ _, BUnknown) (sync_all (fs_directory s));;
    mret (Some record)
  end.

(** The closure of [commit]. *)
Definition write_snapshot (s : FileStore) (file : Fd) (out : bytes) : M (F * bool) BoardError unit :=
  on_files (protected file false);;
  on_files (io (λ _, BStorage) (write_all file out));;
  on_files (io (λ _, BStorage) (sync_all file));;
  on_files (io (λ _, BStorage) (rename (fs_directory s) BOARD_PENDING BOARD_BIN false));;
  set_installed;;
  on_files (io (λ _, BUnknown) (sync_all (fs_directory s))).

Definition FileStore_commit (s : FileStore) (r : PublicationRecord) : FM unit :=
  out ← lift (encode r (fs_limits s));
  file ← io (λ _, BStorage) (create_new (fs_directory s) BOARD_PENDING);
  unstage (fs_directory s) BOARD_PENDING (write_snapshot s file out).

(** The adapter: the store with the file system it works on. *)
#[global] Instance FileStore_persistence : Persistence (F * FileStore) := {|
  storage_load '(f, s) := let '(r, f) := FileStore_load s f in (r, (f, s));
  storage_commit r '(f, s) := let '(x, f) := FileStore_commit s r f in (x, (f, s));
|}.
End store.

(** ** The contract of the port *)

Section laws.
Context {F : Type} `{FS : !Filesystem F} `{FL : !FilesystemLaws F}.

Definition store_view (s : F * FileStore) : View := view (fs_directory s.2) s.1.

(** What a record's file says. *)
Definition recorded (l : Limits) (c : option bytes) : option PublicationRecord :=
  b ← c; match decode b l with Ok r => Some r | Err _ => None end.

Lemma protected_view d file b (f : F) : view d (protected file b f).2 = view d f.
Proof.
  pose proof (fstat_law d file f) as [L _]. unfold protected, mbind, M_bind, io.
  destruct (fstat file f) as [[m | e] f']; cbn in L |- *; [| done]. by destruct (negb _).
Qed.

Lemma encoded_decodes r l out : record_wf r → encode r l = Ok out → decode out l = Ok r.
Proof.
  intros Hwf H. apply decode_ok. split; [done |]. exists (Json.entries (rec_definitions r)).
  split; [done |]. by apply encode_ok.
Qed.

(** A load: nothing there, a complete record made durable, or a failure. *)
Lemma load_run (s : FileStore) (f : F) r f' :
  FileStore_load s f = (r, f') →
  let v := view (fs_directory s) f in let v' := view (fs_directory s) f' in
  match r with
  | Ok None => current v BOARD_BIN = None ∧ v' = v
  | Ok (Some x) => ∃ fd i b, content v BOARD_BIN = Some b ∧ decode b (fs_limits s) = Ok x ∧
      v' = settle_names (set_file fd i v)
  | Err _ => v' = v ∨ ∃ fd i, v' = set_file fd i v
  end.
Proof.
  set (d := fs_directory s). intros H.
  unfold FileStore_load, mbind, M_bind, try_, mret, M_ret, throw, ensure, lift, io in H.
  fold d in H. pose proof (open_read_law d BOARD_BIN f) as L.
  destruct (open_read d BOARD_BIN f) as [[file | e] f1] eqn:Eo; cbn beta iota in H.
  2: { destruct L as [Hn L]. destruct e; injection H as <- <-; rewrite ?L; auto. }
  destruct L as (i & Hi & L). pose proof (protected_view d file false f1) as Lp.
  destruct (protected file false f1) as [[[] | e] f2]; cbn in Lp; rewrite L in Lp.
  2: { injection H as <- <-. right. by exists file, i. }
  destruct (maximum (fs_limits s)) as [m | e] eqn:Em; cbn beta iota in H.
  2: { injection H as <- <-. right. by exists file, i. }
  pose proof (fstat_law d file f2) as [Ls Hs].
  destruct (fstat file f2) as [[meta | e] f3]; cbn in Ls, Hs, H; rewrite Lp in Ls.
  2: { injection H as <- <-. right. by exists file, i. }
  destruct (N.ltb_spec m (st_size meta)) as [| Hm]; cbn in H.
  { injection H as <- <-. right. by exists file, i. }
  pose proof (read_law d (m + 1) file f3) as [Lr Hr].
  destruct (read_to_end (m + 1) file f3) as [[b | e] f4]; cbn in Lr, Hr, H; rewrite Ls in Lr.
  2: { injection H as <- <-. right. by exists file, i. }
  assert (∃ c, v_data (view d f) !! i = Some c ∧ b = c) as (c & Hc & ->).
  { destruct (Hr i b) as (c & Hc & ->); [rewrite Ls; cbn; by rewrite lookup_insert_eq | done |].
    rewrite Ls in Hc. exists c. split; [exact Hc |]. rewrite Lp in Hs.
    specialize (Hs i c meta ltac:(cbn; by rewrite lookup_insert_eq) Hc eq_refl).
    apply take_ge. unfold len in Hs. lia. }
  destruct (decode c (fs_limits s)) as [x | e] eqn:Ed; cbn beta iota in H.
  2: { injection H as <- <-. right. by exists file, i. }
  pose proof (sync_directory_law d f4) as L5. fold d in H.
  destruct (sync_all d f4) as [[u | e] f5]; cbn in H; injection H as <- <-; rewrite L5, Lr.
  - exists file, i, c. split_and!; [| done | done]. unfold content. by rewrite Hi.
  - right. by exists file, i.
Qed.

Lemma content_set_file fd i v n : content (set_file fd i v) n = content v n.
Proof. done. Qed.
Lemma image_set_file fd i v n o : image (set_file fd i v) n o ↔ image v n o.
Proof. done. Qed.

Lemma commit_run (s : FileStore) (f : F) r x f' :
  FileStore_commit s r f = (x, f') →
  let v := view (fs_directory s) f in let v' := view (fs_directory s) f' in
  match x with
  | Ok _ => ∃ out, encode r (fs_limits s) = Ok out ∧ replaced BOARD_PENDING BOARD_BIN false out v v' ∧
      (durable_name v BOARD_BIN → ∀ o, image v' BOARD_BIN o → o = Some out)
  | Err e => beside BOARD_PENDING v v' ∨
      ∃ out, e = BUnknown ∧ encode r (fs_limits s) = Ok out ∧
        replaced BOARD_PENDING BOARD_BIN false out v v'
  end.
Proof.
  set (d := fs_directory s). intros H. unfold FileStore_commit in H. unfold mbind, M_bind, lift in H.
  destruct (encode r (fs_limits s)) as [out | e] eqn:Ee; [| injection H as <- <-; by left].
  fold d in H. unfold io in H at 1.
  destruct (create_new d BOARD_PENDING f) as [[file | e] f1] eqn:Ec; cbn [map_err] in H.
  2: { pose proof (create_new_law d BOARD_PENDING f) as L. rewrite Ec in L. injection H as <- <-.
       left. by rewrite L. }
  apply create_new_staging in Ec as [i Hs].
  apply (unstage_run d BOARD_PENDING BOARD_BIN false out (λ fd, protected fd false) (λ _, BStorage)
    (λ _, BStorage) (λ _, BStorage) (λ _, BUnknown)) with (v := view d f) (i := i) in H;
    [| intros fd g; apply protected_view | done | exact Hs].
  destruct x as [u | e].
  - destruct H as [Hr Ho]. by exists out.
  - destruct H as [[[y ->] Hr] | [_ Hb]]; [right; by exists out | by left].
Qed.

(** *** The laws of the adapter *)

#[global, refine] Instance FileStore_laws : PersistenceLaws (F * FileStore) := {|
  stored s := recorded (fs_limits s.2) (content (store_view s) BOARD_BIN);
|}.
Proof using FL.
  - intros [f s] r H. cbn in H. destruct (FileStore_load s f) as [x f'] eqn:E. cbn in H. subst x.
    apply load_run in E. destruct r as [x |]; cbn -[recorded] in *.
    + destruct E as (fd & i & b & Hc & Hd & _). unfold store_view. cbn. rewrite Hc. cbn. by rewrite Hd.
    + destruct E as [Hc _]. unfold store_view, content. cbn. by rewrite Hc.
  - intros [f s]. cbn. destruct (FileStore_load s f) as [x f'] eqn:E. apply load_run in E.
    unfold store_view. cbn. f_equal. destruct x as [[x |] | e].
    + destruct E as (fd & i & b & _ & _ & ->). rewrite content_settle. apply content_set_file.
    + by destruct E as [_ ->].
    + by destruct E as [-> | (fd & i & ->)].
  - intros [f s] r s' Hwf H. cbn in H. destruct (FileStore_commit s r f) as [x f'] eqn:E.
    injection H as -> <-. apply commit_run in E as (out & Ho & [Hc _ _ _ _] & _). unfold store_view. cbn.
    rewrite Hc. cbn. by rewrite (encoded_decodes _ _ _ Hwf Ho).
  - intros [f s] r e s' H Hne. cbn in H. destruct (FileStore_commit s r f) as [x f'] eqn:E.
    injection H as -> <-. apply commit_run in E as [Hb | (out & -> & _)]; [| done]. unfold store_view. cbn.
    by rewrite (beside_content _ _ _ BOARD_BIN Hb).
  - intros [f s] r s' Hwf H. cbn in H. destruct (FileStore_commit s r f) as [x f'] eqn:E.
    injection H as -> <-. unfold store_view. cbn.
    apply commit_run in E as [Hb | (out & _ & Ho & [Hc _ _ _ _])].
    + left. by rewrite (beside_content _ _ _ BOARD_BIN Hb).
    + right. rewrite Hc. cbn. by rewrite (encoded_decodes _ _ _ Hwf Ho).
Defined.

(** ** Durability *)

(** What a load makes of the record's file. *)
Definition loads (l : Limits) (c : option bytes) (o : option PublicationRecord) : Prop :=
  match c with
  | None => o = None
  | Some b => ∃ r, decode b l = Ok r ∧ o = Some r
  end.

(** Every version of the record that may come back is on disk and complete,
    and where there is none, there was none. *)
Record intact_view (l : Limits) (v : View) : Prop := {
  iv_durable : durable_name v BOARD_BIN;
  iv_complete : ∀ c, image v BOARD_BIN c → ∃ o, loads l c o;
  iv_none : current v BOARD_BIN = None → ∀ e, e ∈ entries v BOARD_BIN → e = None;
}.

Lemma intact_settle l v : intact_view l v → intact_view l (settle_names v).
Proof.
  intros [Hd Hc Hn]. split; [by apply durable_settle | |].
  - intros c Hi%image_of_settle. by apply Hc.
  - rewrite current_settle, entries_settle. intros Hnone e ->%list_elem_of_singleton. done.
Qed.
Lemma intact_set_file l fd i v : intact_view l v → intact_view l (set_file fd i v).
Proof. intros []. by split. Qed.
Lemma intact_beside st l v v' : beside st v v' → BOARD_BIN ≠ st → intact_view l v → intact_view l v'.
Proof.
  intros Hb Hne [Hd Hc Hn]. split.
  - by eapply beside_durable.
  - intros c. rewrite (beside_image st v v' BOARD_BIN c Hb Hne). apply Hc.
  - rewrite (current_entries v' v) by by apply (bs_entries _ _ _ Hb). by rewrite (bs_entries _ _ _ Hb).
Qed.
Lemma intact_replaced st out l v v' : replaced st BOARD_BIN false out v v' → (∃ r, decode out l = Ok r) →
  intact_view l v → intact_view l v'.
Proof.
  intros [Hout Hi Hdur _ _] [r Hr] [Hd Hc Hn]. split; [by apply Hdur | |].
  - intros c [Hin | ->]%Hi; [by apply Hc | by exists (Some r), r].
  - intros Hnone. unfold content in Hout. by rewrite Hnone in Hout.
Qed.

#[global, refine] Instance FileStore_durability : DurabilityLaws (F * FileStore) := {|
  intact s := intact_view (fs_limits s.2) (store_view s);
  recoverable s o := ∃ c, image (store_view s) BOARD_BIN c ∧ loads (fs_limits s.2) c o;
|}.
Proof using FL.
  - intros [f s] H. cbn. destruct (FileStore_load s f) as [x f'] eqn:E. apply load_run in E.
    unfold store_view in *. cbn in *. destruct x as [[x |] | e].
    + destruct E as (fd & i & b & _ & _ & ->). by apply intact_settle, intact_set_file.
    + by destruct E as [_ ->].
    + destruct E as [-> | (fd & i & ->)]; [done |]. by apply intact_set_file.
  - intros [f s] o. cbn. destruct (FileStore_load s f) as [x f'] eqn:E. apply load_run in E.
    unfold store_view. cbn. intros (c & Hi & Hl). exists c. split; [| done]. destruct x as [[x |] | e].
    + destruct E as (fd & i & b & _ & _ & E). rewrite E in Hi. by apply image_of_settle in Hi.
    + destruct E as [_ E]. by rewrite E in Hi.
    + destruct E as [E | (fd & i & E)]; by rewrite E in Hi.
  - intros [f s] r s' o [Hd _ Hn] H. cbn in H. destruct (FileStore_load s f) as [x f'] eqn:E.
    injection H as -> <-. apply load_run in E. unfold store_view in *. cbn in *. intros (c & Hi & Hl).
    destruct r as [r |].
    + destruct E as (fd & i & b & Hb & Hr & E). rewrite E in Hi.
      apply image_settle in Hi as ->; [| exact Hd]. rewrite content_set_file, Hb in Hl.
      destruct Hl as (r' & Hr' & ->). congruence.
    + destruct E as [Hc E]. rewrite E in Hi. destruct Hi as (e & He & Hi). by rewrite (Hn Hc e He) in Hi; subst c.
  - intros r [f s] H Hwf. cbn. destruct (FileStore_commit s r f) as [x f'] eqn:E. apply commit_run in E.
    unfold store_view in *. cbn in *. destruct x as [u | e].
    + destruct E as (out & Ho & Hr & _). eapply intact_replaced; [exact Hr | | done].
      exists r. by apply encoded_decodes.
    + destruct E as [Hb | (out & _ & Ho & Hr)]; [by eapply intact_beside |].
      eapply intact_replaced; [exact Hr | | done]. exists r. by apply encoded_decodes.
  - intros r [f s] u s' o [Hd _ _] Hwf H. cbn in H. destruct (FileStore_commit s r f) as [x f'] eqn:E.
    injection H as -> <-. apply commit_run in E as (out & Ho & _ & Honly). unfold store_view in *. cbn in *.
    intros (c & ->%Honly & r' & Hr & ->); [| done]. rewrite (encoded_decodes _ _ _ Hwf Ho) in Hr. congruence.
  - intros r [f s] e s' o [Hd _ _] Hwf H. cbn in H. destruct (FileStore_commit s r f) as [x f'] eqn:E.
    injection H as -> <-. apply commit_run in E. unfold store_view in *. cbn in *. intros (c & Hi & Hl).
    destruct E as [Hb | (out & -> & Ho & [_ Hr _ _ _])].
    + left. exists c. split; [| done]. by apply (beside_image _ _ _ BOARD_BIN c Hb).
    + destruct (Hr _ Hi) as [Hi' | ->]; [left; by exists c |]. right. split; [done |].
      destruct Hl as (r' & Hr' & ->). rewrite (encoded_decodes _ _ _ Hwf Ho) in Hr'. congruence.
Defined.

(** Opening a directory brings nothing back that was not there. *)
Lemma open_at_run d l (f : F) s f' :
  open_at d l f = (Ok s, f') →
  s = mkFileStore d (fs_lock s) l ∧ narrows BOARD_BIN (view d f) (view d f').
Proof.
  intros H. unfold open_at in H.
  apply bind_Ok_inv in H as ([] & f1 & Hp & H). pose proof (protected_view d d true f) as V1. rewrite Hp in V1.
  apply bind_Ok_inv in H as (fd & f2 & Hl%io_Ok_inv & H). pose proof (open_lock_law d WRITER_LOCK f1) as V2. rewrite Hl in V2.
  apply bind_Ok_inv in H as ([] & f3 & Hp' & H). pose proof (protected_view d fd false f2) as V3. rewrite Hp' in V3.
  apply bind_Ok_inv in H as ([] & f4 & Hk%io_Ok_inv & H). pose proof (lock_law d fd f3) as V4. rewrite Hk in V4.
  cbn [snd] in *. assert (narrows BOARD_BIN (view d f) (view d f4)) as H4.
  { rewrite V4, V3. rewrite V1 in V2. destruct V2 as [(i & _ & ->) | (_ & i & Hi & ->)]; [apply narrows_set_file |].
    by eapply narrows_beside; [apply beside_created |]. }
  apply bind_Ok_inv in H as (pending & f5 & Ho & H). unfold try_ in Ho.
  pose proof (open_read_law d BOARD_PENDING f4) as V5.
  destruct (open_read d BOARD_PENDING f4) as [r f5']. injection Ho as <- <-.
  apply bind_Ok_inv in H as ([] & f6 & Hr & H). injection H as <- <-. cbn [fs_lock]. split; [done |].
  etrans; [exact H4 |]. destruct r as [file | []]; try done.
  - destruct V5 as (i & _ & V5). apply bind_Ok_inv in Hr as ([] & g1 & Hp1 & Hr).
    pose proof (protected_view d file false f5') as W1. rewrite Hp1 in W1. cbn [snd] in W1. rewrite V5 in W1.
    apply bind_Ok_inv in Hr as ([] & g2 & Hu%io_Ok_inv & Hs%io_Ok_inv).
    pose proof (unlink_beside d BOARD_PENDING g1) as W2. rewrite Hu in W2. cbn [snd] in W2. rewrite W1 in W2.
    pose proof (sync_directory_law d g2) as W3. rewrite Hs in W3. rewrite W3.
    etrans; [| apply narrows_settle]. etrans; [apply (narrows_set_file _ file i) |]. by eapply narrows_beside.
  - injection Hr as <-. destruct V5 as [_ ->]. done.
Qed.
End laws.

Section survival.
Context {F : Type} `{FS : !Filesystem F} `{FL : !FilesystemLaws F}
  {T : Type} `{!MonotonicTime T} {K : Type} `{!Capabilities K} `{SJ : !SerdeJson}.

(** What the register knows of a record found after a loss of power. *)
Definition accounted (D : Deployment (T := T) (K := K) (S := F * FileStore)) (calls : list BoardCall)
    (o : option PublicationRecord) : Prop :=
  if settled (dep_register D) then o = durable (dep_register D)
  else o = visible (dep_register D) ∨ attempted calls o.

(** C9: acknowledged publications survive a loss of power, whole.  Whatever an
    owner over files did after it was opened on an intact directory, and
    wherever its calls to the file system were cut off, the directory that a
    restarted machine finds holds a complete record or none, never a torn one.
    It is exactly the durable record of the register as long as the owner is
    settled; after a commit whose outcome it reported as unknown it is the
    record readers saw or one whose publication was answered [Unknown].  What a
    store opened on that directory loads is that record. *)
Theorem publications_survive (s : F * FileStore) D0 calls D v :
  intact s → opened s D0 → runs D0 calls D →
  let '(f, store) := pv_storage (dep_owner D) in
  restarts (view (fs_directory store) f) v →
  (∃ o, loads (fs_limits store) (content v BOARD_BIN) o ∧ accounted D calls o) ∧
  ∀ d f1 store' f2 o f3, view d f1 = v →
    open_at d (fs_limits store) f1 = (Ok store', f2) → FileStore_load store' f2 = (Ok o, f3) →
    accounted D calls o.
Proof using Type*.
  intros Hs Ho Hr. pose proof (lasting_runs _ _ _ (lasting_opened _ _ Hs Ho) Hr) as [_ Hi _ _].
  pose proof (λ o, runs_recoverable _ _ _ _ o Hs Ho Hr) as Hrec. unfold accounted.
  destruct (pv_storage (dep_owner D)) as [f store]. intros Hv.
  pose proof (restarts_image _ _ BOARD_BIN Hv) as [Him Hdur]. cbn in Hi, Hrec. unfold store_view in Hi, Hrec.
  cbn in Hi, Hrec. split.
  - destruct (iv_complete _ _ Hi _ Him) as [o Hl]. exists o. split; [done |]. apply Hrec. by exists (content v BOARD_BIN).
  - intros d f1 store' f2 o f3 <- Hop Hload. apply open_at_run in Hop as [Hst Hn]. rewrite Hst in Hload.
    apply load_run in Hload. cbn [fs_directory fs_limits] in Hload. set (v := view d f1) in *.
    assert (∀ c, image v BOARD_BIN c → c = content v BOARD_BIN) as Hone.
    { intros c Hc. destruct (rs_entry _ _ Hv BOARD_BIN) as (e & En & _). rewrite <- (image_settle v) by done.
      destruct Hc as (e' & He' & Hc). exists e'. split; [| exact Hc]. rewrite entries_settle.
      rewrite En in He'. unfold entries in En. injection En as <- _. done. }
    apply Hrec. destruct o as [r |].
    + destruct Hload as (fd & i & b & Hb & Hd & _). exists (Some b). split; [| by exists r].
      assert (image (view d f2) BOARD_BIN (Some b)) as Hib; [| by rewrite (Hone _ (nw_image _ _ _ Hn _ Hib))].
      unfold content in Hb. apply bind_Some in Hb as (j & Hj & Hb). exists (Some j).
      split; [by apply current_elem |]. exists b. by split.
    + destruct Hload as [Hc _]. exists None. split; [| done].
      assert (image (view d f2) BOARD_BIN None) as Hib; [| by rewrite (Hone _ (nw_image _ _ _ Hn _ Hib))].
      exists None. split; [| done]. rewrite <- Hc. by left.
Qed.
End survival.

(** ** A machine that loses power in the middle of a publication *)

Module Demo.
#[local] Existing Instance demo_json.
#[local] Existing Instance demo_capabilities.
#[local] Existing Instance demo_clock.

Definition path : Path := mkPath true [RootDir; Normal (lit "var"); Normal (lit "board")].
(** The store opened on an empty directory, with power for [n] calls in all. *)
Definition store (n : nat) : option (Disk * FileStore) :=
  match FileStore_open path Limits_default (empty_disk n) with
  | (Ok s, k) => Some (k, s)
  | (Err _, _) => None
  end.
Definition published (n : nat) : option (Prepared * (Disk * FileStore)
    * (Provider (Disk * FileStore) * BoardWorld N unit)
    * result BoardError Snapshot * (Provider (Disk * FileStore) * BoardWorld N unit)) :=
  match store n, demo_prepare.1 with
  | Some s, Ok cand =>
    match Provider_open demo_publisher 0 Limits_default s demo_world with
    | (Ok p, w) => let '(r, t) := publish (demo_context ActPublish) cand (p, w) in Some (cand, s, (p, w), r, t)
    | (Err _, _) => None
    end
  | _, _ => None
  end.
(** How the publication ends with power for [n] calls: it is refused before the
    rename, its outcome is unknown before the directory is synced. *)
Definition answer (n : nat) : option (result BoardError unit) :=
  '(_, _, _, r, _) ← published n; Some (match r with Ok _ => Ok tt | Err e => Err e end).

Example answers : map answer [12; 13; 14; 15]%nat =
  [Some (Err BStorage); Some (Err BStorage); Some (Err BUnknown); Some (Ok tt)].
Proof. vm_compute. reflexivity. Qed.

Definition lost (D : Deployment (T := N) (K := unit) (S := Disk * FileStore)) : View :=
  k_view (pv_storage (dep_owner D)).1.

Lemma published_runs n cand s p w r p' w' :
  published n = Some (cand, s, (p, w), r, (p', w')) →
  opened s (mkDeployment p w []) ∧
  runs (mkDeployment p w []) [CallPublish (Record_from_prepared cand) (observed (bw_revisions w') r)]
    (mkDeployment p' w' (issued r [])).
Proof.
  intros E. unfold published in E. destruct (store n) as [s0 |]; [| done].
  destruct demo_prepare.1 as [c |] eqn:Ec; [| done].
  destruct (Provider_open _ _ _ _ _) as [[p0 | e] w0] eqn:Eo; [| done].
  destruct (publish _ _ _) as [r0 t] eqn:Ep. injection E as -> -> -> -> -> ->. split.
  - exists demo_publisher, 0, Limits_default, demo_world. by split_and!; [apply owned_empty | |].
  - apply (runs_snoc _ [] (mkDeployment p w [])); [constructor |].
    apply (deploys_publish p w [] (demo_context ActPublish) cand r); [| exact Ep].
    by apply demo_candidate_wf.
Qed.

(** The store of the demonstration starts intact. *)
Lemma store_intact s : v_entries (k_view s.1) !! BOARD_BIN = None →
  fs_directory s.2 = 0 → intact s.
Proof.
  intros Hn Hd. unfold intact, FileStore_durability, store_view. rewrite Hd.
  assert (entries (view 0 s.1) BOARD_BIN = [None]) as En.
  { unfold entries, current, entry. cbn. by rewrite Hn. }
  split.
  - intros i. rewrite En. by intros ?%list_elem_of_singleton.
  - intros c (e & He & Hc). rewrite En in He. apply list_elem_of_singleton in He as ->. subst c. by exists None.
  - intros _ e. rewrite En. by intros ?%list_elem_of_singleton.
Qed.

(** What is computed of the interrupted run. *)
Definition interrupted : bool :=
  match published 14 with
  | Some (_, s, _, _, (p', _)) =>
    bool_decide (v_entries (k_view s.1) !! BOARD_BIN = None) && (fs_directory s.2 =? 0)
    && (fs_directory (pv_storage p').2 =? 0) && pv_uncertain p'
    && sound_files newest (k_view (pv_storage p').1) && sound_files oldest (k_view (pv_storage p').1)
  | None => false
  end.

Lemma publications_survive_witness :
  ∃ s (D0 D : Deployment (T := N) (K := unit) (S := Disk * FileStore)) calls,
  intact s ∧ opened s D0 ∧ runs D0 calls D ∧ settled (dep_register D) = false ∧
  (∃ o, loads (fs_limits (pv_storage (dep_owner D)).2) (content (restarted oldest (lost D)) BOARD_BIN) o ∧
        accounted D calls o) ∧
  ∃ o, loads (fs_limits (pv_storage (dep_owner D)).2) (content (restarted newest (lost D)) BOARD_BIN) o ∧
       accounted D calls o.
Proof.
  assert (interrupted = true) as H by (vm_compute; reflexivity). unfold interrupted in H.
  destruct (published 14) as [[[[[cand s] [p w]] r] [p' w']] |] eqn:E; [| discriminate H].
  apply published_runs in E as Hr. destruct Hr as [Ho Hr].
  rewrite !andb_true_iff in H. destruct H as [[[[[H1 H2] H3] H4] H5] H6].
  apply bool_decide_eq_true in H1, H5, H6. apply N.eqb_eq in H2, H3.
  assert (intact s) as Hs by (apply store_intact; [exact H1 | exact H2]).
  exists s, (mkDeployment p w []), (mkDeployment p' w' (issued r [])). eexists.
  split; [exact Hs |]. split; [exact Ho |]. split; [exact Hr |].
  split; [unfold settled, dep_register, register; cbn; by rewrite H4 |].
  pose proof (λ v, publications_survive s _ _ _ v Hs Ho Hr) as Hall. cbn [dep_owner] in Hall.
  unfold lost. cbn [dep_owner]. destruct (pv_storage p') as [k st]. cbn [fst snd] in *. rewrite H3 in Hall. split.
  - apply (Hall (restarted oldest (k_view k))). by apply (restarted_restarts oldest (disk_view 0 k) oldest_elem).
  - apply (Hall (restarted newest (k_view k))). by apply (restarted_restarts newest (disk_view 0 k) newest_elem).
Defined.
End Demo.
