(* ===== verification/Cache.v ===== *)
(** * The cache of remote Boards

    [src/modules/board/{cache,cache_definitions}.rs] and the cache's part of
    [selection.rs]: attributed receipts with a bounded lifetime, definitions
    attached to the receipt they were requested for, and selection from fresh
    direct receipts.  The identity of a receipt is its revision, a
    reference-counted cell without content; the shared [Arc<Board>] of a
    receipt is immutable and is modelled by the Board itself. *)

From S2P Require Import Prelude Bytes Json Api Arcs BoardBase Document Offering Schema ServiceDef.
From S2P Require Import Prepared Publication.

#[local] Open Scope N_scope.

Inductive Provenance : Type := Direct (id : IdentityId) | Forwarded (id : IdentityId).

#[global] Instance Provenance_eq_dec : EqDecision Provenance.
Proof. solve_decision. Defined.

Record Remote : Type := mkRemote {
  rem_board : Board;
  rem_provenance : Provenance;
  rem_received : N;
  rem_expires : N;
  rem_revision : N;
  rem_definitions : gmap bytes ServiceDefinition;
}.

Definition remote_bytes (r : Remote) : bytes := doc_source (board_document (rem_board r)).
Definition definition_count (r : Remote) : nat := size (rem_definitions r).
Definition times (r : Remote) : N * N := (rem_received r, rem_expires r).

Abbreviation CacheKey := (IdentityId * bool)%type (only parsing).
Definition key (p : Provenance) : CacheKey :=
  match p with Direct id => (id, true) | Forwarded id => (id, false) end.

Record Cache : Type := mkCache {
  cc_authority : Authority;
  cc_limits : Limits;
  cc_entries : gmap CacheKey Remote;
  cc_pins : list N;
}.

Definition Cache_new (authority : Authority) (limits : Limits) : result BoardError Cache :=
  _ ← Limits_validate limits;
  Ok (mkCache authority limits ∅ []).

(** The clock and authority domains, and the revisions of the receipts. *)
Record CacheWorld (T : Type) : Type := mkCacheWorld {
  cw_control : Control T;
  cw_revisions : Arcs unit;
}.
Arguments mkCacheWorld {T} _ _.
Arguments cw_control {T} _.
Arguments cw_revisions {T} _.

Definition set_entries (m : gmap CacheKey Remote) (c : Cache) : Cache :=
  mkCache (cc_authority c) (cc_limits c) m (cc_pins c).
Definition set_cache_pins (l : list N) (c : Cache) : Cache :=
  mkCache (cc_authority c) (cc_limits c) (cc_entries c) l.
Definition set_receipt (revision : N) (r : Remote) : Remote :=
  mkRemote (rem_board r) (rem_provenance r) (rem_received r) (rem_expires r) revision
    (rem_definitions r).
Definition set_definitions (m : gmap bytes ServiceDefinition) (r : Remote) : Remote :=
  mkRemote (rem_board r) (rem_provenance r) (rem_received r) (rem_expires r) (rem_revision r) m.

(** Copies and drops of a receipt are those of its revision. *)
Definition Remote_clone (r : Remote) (h : Arcs unit) : Arcs unit := arc_clone (rem_revision r) h.
Definition Remote_drop (r : Remote) (h : Arcs unit) : Arcs unit := arc_drop (rem_revision r) h.
Definition drop_remotes (l : list Remote) (h : Arcs unit) : Arcs unit := foldr Remote_drop h l.

(** [entries.retain(...)]: what is removed is dropped, in an order that does
    not matter to the counts. *)
Definition expired (now : N) (m : gmap CacheKey Remote) : list Remote :=
  (map_to_list (filter (λ e, ¬ now < rem_expires e.2) m)).*2.
Definition unexpired (now : N) (m : gmap CacheKey Remote) : gmap CacheKey Remote :=
  filter (λ e, now < rem_expires e.2) m.
(** [entries.insert(key, remote)]: the replaced receipt is dropped. *)
Definition replaced (k : CacheKey) (m : gmap CacheKey Remote) : list Remote :=
  option_list (m !! k).

Section cache.
Context {T : Type} `{!MonotonicTime T} `{SJ : !SerdeJson}.

Abbreviation CSt := (Cache * CacheWorld T)%type (only parsing).
Abbreviation CM := (M CSt BoardError) (only parsing).

Definition cache_self : CM Cache := λ '(c, w), (Ok c, (c, w)).
Definition on_cache (f : Cache → Cache) : CM unit := λ '(c, w), (Ok tt, (f c, w)).
Definition on_receipts (f : Arcs unit → Arcs unit) : CM unit := λ '(c, w),
  (Ok tt, (c, mkCacheWorld (cw_control w) (f (cw_revisions w)))).
Definition new_receipt : CM N := λ '(c, w),
  let '(r, h) := arc_new tt (cw_revisions w) in (Ok r, (c, mkCacheWorld (cw_control w) h)).

(** [context.check(&self.authority, publisher, action, bytes)]. *)
Definition cache_check (x : CallContext) (publisher : IdentityId) (action : Action) (n : N) : CM unit :=
  λ '(c, w),
  let '(r, ctl) := Context_check x (cc_authority c) publisher action n (cw_control w) in
  (r, (c, mkCacheWorld ctl (cw_revisions w))).

(** [entries.retain(...)] and [pins.retain(...)]. *)
Definition retain_fresh (now : N) : CM unit := λ '(c, w),
  (Ok tt, (set_entries (unexpired now (cc_entries c)) c,
           mkCacheWorld (cw_control w) (drop_remotes (expired now (cc_entries c)) (cw_revisions w)))).
Definition retain_pins : CM unit := λ '(c, w),
  (Ok tt, (set_cache_pins (filter (λ r, alive r (cw_revisions w) = true) (cc_pins c)) c, w)).
(** [entries.insert(key, remote.clone())]. *)
Definition insert_receipt (k : CacheKey) (r : Remote) : CM unit := λ '(c, w),
  (Ok tt, (set_entries (<[k := r]> (cc_entries c)) c,
           mkCacheWorld (cw_control w)
             (drop_remotes (replaced k (cc_entries c)) (Remote_clone r (cw_revisions w))))).
Definition strong_of (o : option Remote) : CM nat := λ '(c, w),
  (Ok (match o with Some e => strong_count (rem_revision e) (cw_revisions w) | None => O end), (c, w)).

Definition store (x : CallContext) (provenance : Provenance) (input : bytes) (now : N) : CM Remote :=
  let k := key provenance in
  cache_check x k.1 ActCache (len input);;
  c ← cache_self;
  board ← lift (Board_parse input (cc_limits c));
  expires ← lift (ok_or (checked_add u64_limit now (lim_cache_seconds (cc_limits c))) BLimit);
  cache_check x k.1 ActCache (len input);;
  retain_fresh now;;
  retain_pins;;
  c ← cache_self;
  count ← strong_of (cc_entries c !! k);
  let releases := (count =? 1)%nat in
  ensure (negb ((bool_decide (cc_entries c !! k = None)
                 && (lim_cache_entries (cc_limits c) <=? N.of_nat (size (cc_entries c))))
                || (lim_snapshots (cc_limits c) <=? len (cc_pins c) - (if releases then 1 else 0))))
    BLimit;;
  revision ← new_receipt;
  let remote := mkRemote board provenance now expires revision ∅ in
  on_cache (λ c, set_cache_pins (cc_pins c ++ [revision]) c);;
  insert_receipt k remote;;
  mret remote.

Definition cache_read (x : CallContext) (provenance : Provenance) (now : N) : CM Remote :=
  let k := key provenance in
  cache_check x k.1 ActRead 0;;
  c ← cache_self;
  remote ← lift (ok_or (cc_entries c !! k) BMissing);
  ensure (negb ((now <? rem_received remote) || (rem_expires remote <=? now))) BStale;;
  cache_check x k.1 ActRead (len (remote_bytes remote));;
  on_receipts (Remote_clone remote);;
  mret remote.

(** [current]: the receipt is the one in the cache, and fresh. *)
Definition current (remote : Remote) (now : N) : CM unit :=
  c ← cache_self;
  current ← lift (ok_or (cc_entries c !! key (rem_provenance remote)) BMissing);
  ensure (negb (negb (rem_revision current =? rem_revision remote)
                || (now <? rem_received remote) || (rem_expires remote <=? now))) BStale.

(** The bytes of a receipt with its definitions, in key order. *)
Definition remote_total (r : Remote) : option N :=
  sum_lengths (len (remote_bytes r)) (definition_source <$> (entries (rem_definitions r)).*2).

(** What [attach] does while it owns its copy [next] of the receipt; an early
    return drops the copy. *)
Definition attach_guard (x : CallContext) (k : CacheKey) (input : bytes) (next : Remote) : CM unit :=
  c ← cache_self;
  total ← lift (ok_or (remote_total next) BLimit);
  ensure (negb (lim_publication_bytes (cc_limits c) <? total)) BLimit;;
  retain_pins;;
  c ← cache_self;
  ensure (negb (lim_snapshots (cc_limits c) <=? len (cc_pins c))) BLimit;;
  cache_check x k.1 ActCache (len input).
Definition dropping_remote (r : Remote) {A} (m : CM A) : CM A := λ s,
  match m s with
  | (Ok a, s) => (Ok a, s)
  | (Err e, (c, w)) => (Err e, (c, mkCacheWorld (cw_control w) (Remote_drop r (cw_revisions w))))
  end.

Definition attach (x : CallContext) (remote : Remote) (id : bytes) (input : bytes) (now : N)
    : CM Remote :=
  let k := key (rem_provenance remote) in
  cache_check x k.1 ActCache (len input);;
  current remote now;;
  c ← cache_self;
  o ← lift (ok_or (board_offerings (rem_board remote) !! id) BMissing);
  d ← lift (Definition_parse input o (cc_limits c));
  on_receipts (Remote_clone remote);;
  let next := set_definitions (<[id := d]> (rem_definitions remote)) remote in
  dropping_remote next (attach_guard x k input next);;
  revision ← new_receipt;
  on_receipts (Remote_drop next);;
  let next := set_receipt revision next in
  on_cache (λ c, set_cache_pins (cc_pins c ++ [revision]) c);;
  insert_receipt k next;;
  mret next.

Definition cache_definition (x : CallContext) (remote : Remote) (id : bytes) (now : N)
    : CM ServiceDefinition :=
  let k := key (rem_provenance remote) in
  cache_check x k.1 ActRead 0;;
  current remote now;;
  d ← lift (ok_or (rem_definitions remote !! id) BMissing);
  cache_check x k.1 ActRead (len (definition_source d));;
  mret d.

(** [Cache::select]; the capabilities are the caller's. *)
Definition on_cache_state {K A} (m : CM A) : M (CSt * K) BoardError A :=
  λ '(s, k), let '(a, s) := m s in (a, (s, k)).
Definition on_caller {K A} (m : M K BoardError A) : M (CSt * K) BoardError A :=
  λ '(s, k), let '(a, k) := m k in (a, (s, k)).

Definition Cache_select {K} `{!Capabilities K} (x : CallContext) (remote : Remote)
    (r : SelectRequest) (now : N) : M (CSt * K) BoardError Selection :=
  on_cache_state (current remote now);;
  publisher ← lift (match rem_provenance remote with
                    | Direct id => Ok id
                    | Forwarded _ => Err BUnsupported
                    end);
  on_cache_state (cache_check x publisher ActSelect (len (remote_bytes remote)));;
  o ← lift (ok_or (board_offerings (rem_board remote) !! req_id r) BMissing);
  d ← lift (ok_or (rem_definitions remote !! req_id r) BMissing);
  on_caller (select o d publisher r).
End cache.
