(* ===== verification/CacheProps.v ===== *)
(** * The cache keeps attributed, fresh and bounded receipts

    The invariant of the cache and of the receipts its clients hold, and what
    each of its operations answers. *)

From S2P Require Import Prelude Bytes Json Api Arcs BoardBase Document Offering Schema ServiceDef.
From S2P Require Import Prepared PreparedProps Publication PublicationProps Cache.

#[local] Open Scope N_scope.

(** ** The receipts of a cache and of its clients *)

Definition map_values {K V} `{Countable K} (m : gmap K V) : list V := (map_to_list m).*2.
Lemma map_values_elem {K V} `{Countable K} (m : gmap K V) v :
  v ∈ map_values m ↔ ∃ k, m !! k = Some v.
Proof.
  unfold map_values. rewrite list_elem_of_fmap. split.
  - intros ([k v'] & -> & Hin). exists k. by apply elem_of_map_to_list.
  - intros [k Hk]. exists (k, v). split; [done |]. by apply elem_of_map_to_list.
Qed.
Lemma map_values_split {K V} `{Countable K} (P : K * V → Prop) `{!∀ e, Decision (P e)} (m : gmap K V) :
  map_values m ≡ₚ map_values (filter (λ e, ¬ P e) m) ++ map_values (filter P m).
Proof.
  unfold map_values. rewrite <- fmap_app. apply fmap_Permutation, NoDup_Permutation.
  - apply NoDup_map_to_list.
  - apply NoDup_app. split_and!; try apply NoDup_map_to_list. intros [k v] H1 H2.
    apply elem_of_map_to_list, map_lookup_filter_Some in H1 as [_ H1].
    apply elem_of_map_to_list, map_lookup_filter_Some in H2 as [_ H2]. done.
  - intros [k v]. rewrite elem_of_app, !elem_of_map_to_list, !map_lookup_filter_Some.
    destruct (decide (P (k, v))); tauto.
Qed.
Lemma map_values_delete {K V} `{Countable K} (m : gmap K V) k :
  map_values m ≡ₚ option_list (m !! k) ++ map_values (delete k m).
Proof.
  unfold map_values. destruct (m !! k) as [v |] eqn:E; cbn.
  - by rewrite <- (map_to_list_delete _ _ _ E).
  - by rewrite delete_id.
Qed.
Lemma map_values_insert {K V} `{Countable K} (m : gmap K V) k v :
  map_values (<[k := v]> m) ≡ₚ v :: map_values (delete k m).
Proof.
  rewrite <- insert_delete_eq. unfold map_values.
  by rewrite map_to_list_insert by apply lookup_delete_eq.
Qed.

Definition receipts (c : Cache) (held : list Remote) : list Remote := map_values (cc_entries c) ++ held.
Definition revisions (l : list Remote) : list N := rem_revision <$> l.

Section props.
Context `{SJ : !SerdeJson}.

(** A receipt is a parsed Board with definitions of its own offerings, small
    enough, and with the configured lifetime. *)
Record valid_receipt (limits : Limits) (r : Remote) : Prop := {
  vr_board : Board_parse (remote_bytes r) limits = Ok (rem_board r);
  vr_lifetime : rem_expires r = rem_received r + lim_cache_seconds limits;
  vr_definitions : ∀ id d, rem_definitions r !! id = Some d → ∃ o,
    board_offerings (rem_board r) !! id = Some o ∧
    Definition_parse (definition_source d) o limits = Ok d;
  vr_total : ∃ n, remote_total r = Some n ∧ n ≤ lim_publication_bytes limits;
}.

Record caching (c : Cache) (h : Arcs unit) (held : list Remote) : Prop := {
  ca_owned : owned h (revisions (receipts c held));
  ca_nodup : NoDup (cc_pins c);
  ca_pinned : ∀ r, r ∈ revisions (receipts c held) → r ∈ cc_pins c;
  ca_fresh : ∀ r, r ∈ cc_pins c → r < fresh h;
  ca_bound : len (filter (λ r, alive r h = true) (cc_pins c)) ≤ lim_snapshots (cc_limits c);
  ca_entries : N.of_nat (size (cc_entries c)) ≤ lim_cache_entries (cc_limits c);
  ca_keys : ∀ k r, cc_entries c !! k = Some r → k = key (rem_provenance r);
  ca_valid : ∀ r, r ∈ receipts c held → valid_receipt (cc_limits c) r;
  ca_unique : ∀ r s, r ∈ receipts c held → s ∈ receipts c held →
    rem_revision r = rem_revision s → r = s;
  ca_limits : limits_valid (cc_limits c);
}.

Lemma receipts_entry c held k r : cc_entries c !! k = Some r → r ∈ receipts c held.
Proof. intros H. apply elem_of_app. left. apply map_values_elem. by exists k. Qed.
Lemma receipts_held c held r : r ∈ held → r ∈ receipts c held.
Proof. intros H. apply elem_of_app. by right. Qed.

Lemma len_filter_sub {A} (P Q : A → Prop) `{!∀ x, Decision (P x), !∀ x, Decision (Q x)} (l : list A) :
  (∀ x, P x → Q x) → len (filter P l) ≤ len (filter Q l).
Proof.
  intros Hsub. rewrite <- (list_filter_filter_l P Q l Hsub).
  pose proof (length_filter P (filter Q l)). unfold len. lia.
Qed.

(** ** Fewer receipts *)

Lemma caching_fewer c h held c' h' held' :
  caching c h held → cc_limits c' = cc_limits c → cc_pins c' = cc_pins c →
  cc_entries c' ⊆ cc_entries c → (∀ r, r ∈ held' → r ∈ receipts c held) →
  owned h' (revisions (receipts c' held')) → fresh h ≤ fresh h' → caching c' h' held'.
Proof.
  intros Hc Hl Hp He Hheld Ho' Hf. pose proof (ca_owned _ _ _ Hc) as Ho.
  assert (∀ r, r ∈ receipts c' held' → r ∈ receipts c held) as Hsub.
  { intros r [(k & Hk)%map_values_elem | Hr]%elem_of_app; [| by apply Hheld].
    eapply receipts_entry, lookup_weaken; [exact Hk | exact He]. }
  assert (∀ r, r ∈ revisions (receipts c' held') → r ∈ revisions (receipts c held)) as Hrev.
  { intros r (s & -> & Hs)%list_elem_of_fmap. apply list_elem_of_fmap_2. by apply Hsub. }
  split; rewrite ?Hl, ?Hp; try apply Hc; [done | | | | | | |].
  - intros r Hr. apply (ca_pinned _ _ _ Hc). by apply Hrev.
  - intros r Hr. apply (ca_fresh _ _ _ Hc) in Hr. lia.
  - etrans; [| exact (ca_bound _ _ _ Hc)]. apply len_filter_sub. intros r Hr%(alive_owned _ _ _ Ho').
    apply (alive_owned _ _ _ Ho). by apply Hrev.
  - pose proof (map_subseteq_size _ _ He). pose proof (ca_entries _ _ _ Hc). lia.
  - intros k r Hr. apply (ca_keys _ _ _ Hc). by eapply lookup_weaken.
  - intros r Hr. apply (ca_valid _ _ _ Hc). by apply Hsub.
  - intros r s Hr Hs. apply (ca_unique _ _ _ Hc); by apply Hsub.
Qed.

Definition cache_sweep (c : Cache) (h : Arcs unit) : Cache :=
  set_cache_pins (filter (λ r, alive r h = true) (cc_pins c)) c.
Lemma caching_sweep c h held : caching c h held → caching (cache_sweep c h) h held.
Proof.
  intros Hc. pose proof (ca_owned _ _ _ Hc) as Ho. split; try apply Hc.
  - unfold cache_sweep. cbn. apply NoDup_filter, Hc.
  - intros r Hr. apply list_elem_of_filter. split; [by apply (alive_owned _ _ _ Ho) |].
    by apply (ca_pinned _ _ _ Hc).
  - intros r [_ Hr]%list_elem_of_filter. by apply (ca_fresh _ _ _ Hc).
  - unfold cache_sweep. cbn. rewrite list_filter_filter_l by done. apply Hc.
Qed.

(** Dropping a list of receipts. *)
Lemma owned_drop_remotes l h rest :
  owned h (revisions l ++ rest) → owned (drop_remotes l h) rest.
Proof.
  revert rest. induction l as [| r l IH]; intros rest Ho; [done |]. cbn.
  apply owned_drop, IH. eapply owned_perm; [| exact Ho]. cbn. by rewrite Permutation_middle.
Qed.
Lemma drop_remotes_fresh l (h : Arcs unit) : fresh (drop_remotes l h) = fresh h.
Proof. induction l as [| r l IH]; [done |]. cbn. unfold Remote_drop. by rewrite arc_drop_fresh. Qed.

Definition cache_retained (now : N) (c : Cache) : Cache := set_entries (unexpired now (cc_entries c)) c.
Lemma caching_retained now c h held :
  caching c h held →
  caching (cache_retained now c) (drop_remotes (expired now (cc_entries c)) h) held.
Proof.
  intros Hc. eapply caching_fewer; [exact Hc | done | done | | | |].
  - apply map_filter_subseteq.
  - intros r Hr. by apply receipts_held.
  - apply owned_drop_remotes. eapply owned_perm; [| exact (ca_owned _ _ _ Hc)].
    unfold revisions, receipts, expired, cache_retained, unexpired. cbn. rewrite <- fmap_app, app_assoc.
    apply fmap_Permutation. f_equiv. apply map_values_split.
  - by rewrite drop_remotes_fresh.
Qed.

(** ** One more receipt *)

(** Pins just swept, with room for one more: replacing a receipt that nobody
    else holds makes room. *)
Record receipt_room (c : Cache) (h : Arcs unit) (k : CacheKey) : Prop := {
  rr_live : ∀ r, r ∈ cc_pins c → alive r h = true;
  rr_pins : (length (cc_pins c) < N.to_nat (lim_snapshots (cc_limits c))
             + match cc_entries c !! k with
               | Some e => if decide (strong_count (rem_revision e) h = 1) then 1 else 0
               | None => 0
               end)%nat;
  rr_entries : cc_entries c !! k = None → N.of_nat (size (cc_entries c)) < lim_cache_entries (cc_limits c);
}.

Definition cache_install (k : CacheKey) (r : Remote) (c : Cache) : Cache :=
  set_entries (<[k := r]> (cc_entries c)) (set_cache_pins (cc_pins c ++ [rem_revision r]) c).

Lemma receipts_delete c held k :
  receipts c held ≡ₚ option_list (cc_entries c !! k) ++ map_values (delete k (cc_entries c)) ++ held.
Proof. unfold receipts. by rewrite (map_values_delete _ k), app_assoc. Qed.

(** The heap once the fresh receipt is in the cache and with the caller. *)
Lemma owned_insert c held h r k :
  owned h (rem_revision r :: revisions (receipts c held)) →
  owned (drop_remotes (replaced k (cc_entries c)) (Remote_clone r h))
    (rem_revision r :: rem_revision r :: revisions (map_values (delete k (cc_entries c)) ++ held)).
Proof.
  intros Ho. apply (owned_clone _ _ (rem_revision r)) in Ho; [| by left].
  apply owned_drop_remotes. eapply owned_perm; [| exact Ho]. unfold revisions, replaced.
  rewrite (receipts_delete c held k), fmap_app. by rewrite <- !Permutation_middle.
Qed.

Lemma receipt_bound c (h h' : Arcs unit) held k r :
  caching c h held → receipt_room c h k → r ∉ cc_pins c →
  owned h' (r :: r :: revisions (map_values (delete k (cc_entries c)) ++ held)) →
  len (filter (λ x, alive x h' = true) (cc_pins c ++ [r])) ≤ lim_snapshots (cc_limits c).
Proof.
  intros Hc [Hlive Hroom _] Hr Ho'. rewrite filter_app. unfold len. rewrite length_app.
  pose proof (length_filter (λ x, alive x h' = true) [r]) as H1. cbn [length] in H1.
  pose proof (length_filter (λ x, alive x h' = true) (cc_pins c)) as H2.
  destruct (cc_entries c !! k) as [e |] eqn:He; [| lia].
  destruct (decide (strong_count (rem_revision e) h = 1%nat)) as [Hone |]; [| lia].
  pose proof (ca_owned _ _ _ Hc) as Ho. eapply owned_perm in Ho;
    [| apply fmap_Permutation; apply (receipts_delete c held k)].
  rewrite He in Ho. cbn in Ho.
  assert (rem_revision e ∈ cc_pins c) as Hep.
  { apply (ca_pinned _ _ _ Hc). apply list_elem_of_fmap_2. by eapply receipts_entry. }
  assert (rem_revision e ∉ revisions (map_values (delete k (cc_entries c)) ++ held)) as Hnot.
  { intros Hin%occurrences_elem. pose proof (owned_count _ _ Ho (rem_revision e)) as E.
    rewrite occurrences_cons, decide_True in E by done. unfold revisions in Hin. lia. }
  assert (¬ alive (rem_revision e) h' = true) as Hdead.
  { rewrite (alive_owned _ _ _ Ho'), !elem_of_cons. intros [E | [E | E]]; [by rewrite E in Hep | by rewrite E in Hep | done]. }
  pose proof (length_filter_lt (λ x, alive x h' = true) (cc_pins c) _ Hep Hdead). lia.
Qed.

Lemma caching_install c h h' held k r :
  caching c h held → receipt_room c h k → k = key (rem_provenance r) →
  rem_revision r = fresh h → fresh h < fresh h' → valid_receipt (cc_limits c) r →
  owned h' (rem_revision r :: rem_revision r :: revisions (map_values (delete k (cc_entries c)) ++ held)) →
  caching (cache_install k r c) h' (r :: held).
Proof.
  intros Hc Hroom Hk Hr Hf Hv Ho'.
  assert (rem_revision r ∉ cc_pins c) as Hnew by (intros Hin%(ca_fresh _ _ _ Hc); lia).
  assert (∀ s, s ∈ receipts (cache_install k r c) (r :: held) → s = r ∨ s ∈ receipts c held) as Hsub.
  { intros s [(j & Hj)%map_values_elem | [-> | Hs]%elem_of_cons]%elem_of_app;
      [| by left | right; by apply receipts_held].
    cbn in Hj. destruct (decide (j = k)) as [-> | Hne].
    - rewrite lookup_insert_eq in Hj. left. congruence.
    - rewrite lookup_insert_ne in Hj by done. right. by eapply receipts_entry. }
  assert (∀ s, s ∈ receipts c held → rem_revision s ≠ rem_revision r) as Hother.
  { intros s Hs E. apply Hnew. rewrite <- E. apply (ca_pinned _ _ _ Hc). by apply list_elem_of_fmap_2. }
  split; try apply Hc.
  - eapply owned_perm; [| exact Ho']. unfold receipts, revisions, cache_install. cbn.
    rewrite map_values_insert. cbn. rewrite !fmap_app. cbn. by rewrite <- Permutation_middle.
  - unfold cache_install. cbn. apply NoDup_app. split_and!; [apply Hc | | apply NoDup_singleton].
    by intros x Hx ->%list_elem_of_singleton.
  - intros x (s & -> & Hs)%list_elem_of_fmap. unfold cache_install. cbn. apply elem_of_app.
    destruct (Hsub _ Hs) as [-> | Hs']; [right; by left | left].
    apply (ca_pinned _ _ _ Hc). by apply list_elem_of_fmap_2.
  - intros x [Hx | ->%list_elem_of_singleton]%elem_of_app; [| by rewrite Hr].
    apply (ca_fresh _ _ _ Hc) in Hx. lia.
  - unfold cache_install. cbn. by eapply receipt_bound.
  - unfold cache_install. cbn. rewrite map_size_insert. pose proof (ca_entries _ _ _ Hc).
    destruct (cc_entries c !! k) eqn:E; [done |]. pose proof (rr_entries _ _ _ Hroom E). cbn in *. lia.
  - intros j s. unfold cache_install. cbn. destruct (decide (j = k)) as [-> | Hne].
    + rewrite lookup_insert_eq. by intros [= <-].
    + rewrite lookup_insert_ne by done. apply (ca_keys _ _ _ Hc).
  - intros s Hs. destruct (Hsub _ Hs) as [-> | Hs']; [done |]. by apply (ca_valid _ _ _ Hc).
  - intros s t Hs Ht E. destruct (Hsub _ Hs) as [-> | Hs'], (Hsub _ Ht) as [-> | Ht']; try done.
    + by destruct (Hother _ Ht').
    + by destruct (Hother _ Hs').
    + by apply (ca_unique _ _ _ Hc).
Qed.

(** Clients copy and discard their receipts. *)
Lemma caching_clone c h held r :
  caching c h held → r ∈ receipts c held → caching c (Remote_clone r h) (r :: held).
Proof.
  intros Hc Hr. eapply caching_fewer; [exact Hc | done | done | done | | |].
  - intros s [-> | Hs]%elem_of_cons; [done | by apply receipts_held].
  - eapply owned_perm; [| apply (owned_clone _ (revisions (receipts c held)) (rem_revision r)); [| exact (ca_owned _ _ _ Hc)]].
    + unfold revisions, receipts. rewrite !fmap_app. cbn. by rewrite <- Permutation_middle.
    + by apply list_elem_of_fmap_2.
  - unfold Remote_clone. by rewrite arc_clone_fresh.
Qed.
Lemma caching_drop c h held held' r :
  caching c h held → held ≡ₚ r :: held' → caching c (Remote_drop r h) held'.
Proof.
  intros Hc Hp. eapply caching_fewer; [exact Hc | done | done | done | | |].
  - intros s Hs. apply receipts_held. rewrite Hp. by right.
  - apply owned_drop. eapply owned_perm; [| exact (ca_owned _ _ _ Hc)].
    unfold revisions, receipts. rewrite Hp, !fmap_app. cbn. by rewrite <- Permutation_middle.
  - unfold Remote_drop. by rewrite arc_drop_fresh.
Qed.
End props.

(** ** The operations *)

Section operations.
Context {T : Type} `{!MonotonicTime T} `{SJ : !SerdeJson}.

Abbreviation CSt := (Cache * CacheWorld T)%type (only parsing).
Abbreviation CM := (M CSt BoardError) (only parsing).

(** Calls that change the clock only. *)
Definition still {A} (m : CM A) : Prop := ∀ c w,
  (m (c, w)).2.1 = c ∧ cw_revisions (m (c, w)).2.2 = cw_revisions w.

Lemma still_lift {A} (r : result BoardError A) : still (lift r).
Proof. done. Qed.
Lemma still_ensure b e : still (ensure b e).
Proof. by destruct b. Qed.
Lemma still_self : still cache_self.
Proof. done. Qed.
Lemma still_strong_of o : still (strong_of o).
Proof. done. Qed.
Lemma still_check x p a n : still (cache_check x p a n).
Proof. intros c w. unfold cache_check. by destruct (Context_check _ _ _ _ _ _). Qed.
Lemma still_ret {A} (a : A) : still (mret a).
Proof. done. Qed.
Lemma still_bind {A B} (m : CM A) (f : A → CM B) : still m → (∀ a, still (f a)) → still (m ≫= f).
Proof.
  intros Hm Hf c w. specialize (Hm c w). unfold mbind, M_bind. destruct (m (c, w)) as [[a | e] [c1 w1]];
    cbn in *; destruct Hm as [-> Hw]; [| done]. destruct (Hf a c w1) as [-> ->]. done.
Qed.
#[local] Hint Resolve still_lift still_ensure still_self still_strong_of still_check still_ret
  still_bind : core.
Lemma still_current r now : still (current r now).
Proof. unfold current. eauto 10. Qed.
#[local] Hint Resolve still_current : core.
Lemma still_definition x r id now : still (cache_definition x r id now).
Proof. unfold cache_definition. eauto 20. Qed.

Lemma still_next {A B} (m : CM A) (f : A → CM B) c w h r c' w' :
  still m → cw_revisions w = h → (m ≫= f) (c, w) = (r, (c', w')) →
  (∃ e, r = Err e ∧ c' = c ∧ cw_revisions w' = h) ∨
  ∃ a w1, m (c, w) = (Ok a, (c, w1)) ∧ cw_revisions w1 = h ∧ f a (c, w1) = (r, (c', w')).
Proof.
  intros Hm <- H. specialize (Hm c w). unfold mbind, M_bind in H.
  destruct (m (c, w)) as [[a | e] [c1 w1]]; destruct Hm as [E1 E2]; cbn in E1, E2; subst c1.
  - right. by exists a, w1.
  - left. injection H as <- <- <-. by exists e.
Qed.

#[local] Ltac still_call H a Hrun tac :=
  let w1 := fresh "w" in let Hw := fresh "Hw" in let e := fresh "e" in
  match type of H with
  | _ (_, ?w) = _ =>
    match goal with
    | Hw0 : cw_revisions w = _ |- _ =>
      eapply still_next in H; [| | exact Hw0]; [| solve [eauto 20]];
      destruct H as [(e & -> & -> & Hw) | (a & w1 & Hrun & Hw & H)]; [rewrite Hw; tac |]
    end
  end.

(** What a call was authorized to do. *)
Definition authorized (c : Cache) (x : CallContext) (publisher : IdentityId) (a : Action) (n : N) : Prop :=
  ctx_cancelled x = false ∧
  ctx_grant x = mkGrant (cc_authority c) publisher a (grant_bytes (ctx_grant x)) ∧
  n ≤ grant_bytes (ctx_grant x).
Lemma cache_check_ok x p a n c (w : CacheWorld T) u s' :
  cache_check x p a n (c, w) = (Ok u, s') → authorized c x p a n.
Proof.
  unfold cache_check. destruct u. destruct (Context_check _ _ _ _ _ _) as [r ctl] eqn:E. intros [= -> _].
  by apply Context_check_ok in E as [Hc (_ & _ & Hg & Hn)%Authority_check_ok].
Qed.

Definition fresh_at (now : N) (r : Remote) : Prop := rem_received r ≤ now < rem_expires r.
Lemma current_ok remote now c (w : CacheWorld T) held u s' :
  caching c (cw_revisions w) held → remote ∈ held →
  current remote now (c, w) = (Ok u, s') →
  cc_entries c !! key (rem_provenance remote) = Some remote ∧ fresh_at now remote.
Proof.
  intros Hc Hr H. unfold current in H. apply bind_Ok_inv in H as (c1 & s1 & E & H). injection E as <- <-.
  apply bind_Ok_inv in H as (cur & s2 & E & H). apply lift_Ok_inv in E as [E%ok_or_Ok ->].
  apply ensure_Ok_inv in H as [H _]. apply negb_true_iff in H.
  apply orb_false_iff in H as [[H1%negb_false_iff%N.eqb_eq H2]%orb_false_iff H3].
  assert (cur = remote) as ->; [| by split; [| unfold fresh_at; lia]].
  apply (ca_unique _ _ _ Hc); [by eapply receipts_entry | by apply receipts_held | done].
Qed.

Lemma Board_parse_length input limits b :
  Board_parse input limits = Ok b → len input ≤ lim_document_bytes limits.
Proof.
  unfold Board_parse. intros H. apply result_bind_Ok_inv in H as (doc & Hdoc & _).
  by apply Document_parse_ok in Hdoc as (_ & _ & Hlen).
Qed.

Definition answered (r : result BoardError Remote) (held : list Remote) : list Remote :=
  match r with Ok m => m :: held | Err _ => held end.

Lemma cache_read_step x p now c w held r c' w' :
  caching c (cw_revisions w) held → cache_read x p now (c, w) = (r, (c', w')) →
  caching c' (cw_revisions w') (answered r held) ∧ c' = c ∧
  ∀ m, r = Ok m → cc_entries c !! key p = Some m ∧ fresh_at now m ∧
    authorized c x (key p).1 ActRead (len (remote_bytes m)).
Proof.
  intros Hc H. remember (cw_revisions w) as h eqn:Hh. symmetry in Hh. unfold cache_read in H.
  still_call H u1 Hc1 ltac:(by split_and!). still_call H q Hq ltac:(by split_and!). injection Hq as <- <-.
  still_call H m Hm ltac:(by split_and!). apply lift_Ok_inv in Hm as [Hm%ok_or_Ok _].
  still_call H u2 Hf ltac:(by split_and!). apply ensure_Ok_inv in Hf as [Hf%negb_true_iff%orb_false_iff _].
  still_call H u3 Hc3 ltac:(by split_and!). cbn in H. injection H as <- <- <-. cbn [cw_revisions answered].
  rewrite Hw3. split_and!; [| done |].
  - apply caching_clone; [done |]. by eapply receipts_entry.
  - intros ? [= <-]. split_and!; [done | unfold fresh_at; lia | by eapply cache_check_ok].
Qed.

(** The sweeps before a store, and the state they leave. *)
Definition store_base (now : N) (c : Cache) (h : Arcs unit) : Cache :=
  cache_sweep (cache_retained now c) (drop_remotes (expired now (cc_entries c)) h).
Lemma sweep_live c (h : Arcs unit) r : r ∈ cc_pins (cache_sweep c h) → alive r h = true.
Proof. by intros [H _]%list_elem_of_filter. Qed.

Lemma unexpired_lookup now m k e :
  unexpired now m !! k = Some e ↔ m !! k = Some e ∧ now < rem_expires e.
Proof. unfold unexpired. by rewrite map_lookup_filter_Some. Qed.

Lemma valid_receipt_new limits input b p now revision :
  limits_valid limits → Board_parse input limits = Ok b →
  valid_receipt limits (mkRemote b p now (now + lim_cache_seconds limits) revision ∅).
Proof.
  intros Hl Hb. pose proof (Board_parse_ok _ _ _ Hb) as [Hsrc _].
  split; unfold remote_bytes; cbn; [by rewrite Hsrc | done | done |].
  exists (len input). unfold remote_total, remote_bytes. cbn. rewrite Hsrc. split; [done |].
  pose proof (Board_parse_length _ _ _ Hb). pose proof (lv_publication _ Hl). lia.
Qed.

Lemma sweeps_run {A} now (m : CM A) c w :
  (retain_fresh now;; retain_pins;; m) (c, w) =
  m (store_base now c (cw_revisions w),
     mkCacheWorld (cw_control w) (drop_remotes (expired now (cc_entries c)) (cw_revisions w))).
Proof. done. Qed.

Lemma cache_store_step x p input now c w held r c' w' :
  caching c (cw_revisions w) held → store x p input now (c, w) = (r, (c', w')) →
  caching c' (cw_revisions w') (answered r held) ∧
  match r with
  | Ok m =>
    authorized c x (key p).1 ActCache (len input) ∧ Board_parse input (cc_limits c) = Ok (rem_board m) ∧
    rem_provenance m = p ∧ rem_received m = now ∧ rem_definitions m = ∅ ∧
    cc_entries c' = <[key p := m]> (unexpired now (cc_entries c))
  | Err _ => cc_entries c' = cc_entries c ∨ cc_entries c' = unexpired now (cc_entries c)
  end.
Proof.
  intros Hc H. remember (cw_revisions w) as h eqn:Hh. symmetry in Hh. unfold store in H.
  still_call H u1 Hc1 ltac:(split; [done | by left]).
  still_call H q Hq ltac:(split; [done | by left]). injection Hq as <- <-.
  still_call H b Hb ltac:(split; [done | by left]). apply lift_Ok_inv in Hb as [Hb _].
  still_call H expires He ltac:(split; [done | by left]).
  apply lift_Ok_inv in He as [[-> _]%ok_or_Ok%checked_add_Some _].
  still_call H u2 Hc2 ltac:(split; [done | by left]). apply cache_check_ok in Hc1.
  rewrite sweeps_run, Hw3 in H. set (h1 := drop_remotes (expired now (cc_entries c)) h) in *.
  pose proof (caching_sweep _ _ _ (caching_retained now _ _ _ Hc)) as Hbase. fold h1 in Hbase.
  change (cache_sweep _ _) with (store_base now c h) in Hbase.
  set (w4 := mkCacheWorld (cw_control w3) h1) in H. assert (cw_revisions w4 = h1) as Hw4 by done.
  still_call H q Hq ltac:(split; [done | by right]). injection Hq as <- <-.
  still_call H count Hcount ltac:(split; [done | by right]). injection Hcount as <- <-.
  still_call H u3 Hroom ltac:(split; [done | by right]).
  apply ensure_Ok_inv in Hroom as [Hroom _]. apply negb_true_iff, orb_false_iff in Hroom as [Hr1 Hr2].
  set (c2 := store_base now c h) in *.
  assert (receipt_room c2 h1 (key p)) as Hroom.
  { split; [apply sweep_live | |].
    - change (unexpired now (cc_entries c)) with (cc_entries c2) in Hr2. unfold len in Hr2.
      destruct (cc_entries c2 !! key p) as [e |]; [| cbn [Nat.eqb] in Hr2; lia].
      destruct (Nat.eqb_spec (strong_count (rem_revision e) h1) 1); destruct (decide _); try done; lia.
    - intros E. rewrite bool_decide_true in Hr1 by done. lia. }
  match type of H with _ (_, ?w) = _ =>
    match goal with E : cw_revisions w = _ |- _ => rename E into Hlast end end.
  unfold new_receipt in H. cbn in H. injection H as <- <- <-. cbn [cw_revisions answered].
  rewrite Hlast. set (m := mkRemote _ _ _ _ _ _).
  pose proof (owned_new _ _ tt (ca_owned _ _ _ Hbase)) as Ho. cbn [fst arc_new] in Ho.
  split; [| by split_and!].
  change (fresh h1) with (rem_revision m) in Ho.
  apply (caching_install c2 h1 _ held (key p) m Hbase Hroom); try done.
  - change (mkArcs _ _) with (arc_new tt h1).2.
    rewrite drop_remotes_fresh. unfold Remote_clone. rewrite arc_clone_fresh. cbn. lia.
  - apply (valid_receipt_new _ input); [apply Hc | done].
  - by apply (owned_insert c2 held (arc_new tt h1).2 m).
Qed.

(** ** Attaching a definition *)

Lemma attach_guard_run x k input next c (w : CacheWorld T) held r s' :
  caching c (cw_revisions w) held → attach_guard x k input next (c, w) = (r, s') →
  cw_revisions s'.2 = cw_revisions w ∧
  (s'.1 = c ∨ s'.1 = cache_sweep c (cw_revisions w)) ∧
  ∀ u, r = Ok u → s'.1 = cache_sweep c (cw_revisions w) ∧
    len (cc_pins s'.1) < lim_snapshots (cc_limits c) ∧
    ∃ n, remote_total next = Some n ∧ n ≤ lim_publication_bytes (cc_limits c).
Proof.
  intros Hc H. destruct s' as [c' w']. cbn [fst snd]. remember (cw_revisions w) as h eqn:Hh. symmetry in Hh.
  unfold attach_guard in H.
  still_call H q Hq ltac:(split_and!; [done | by left | done]). injection Hq as <- <-.
  still_call H n Ht ltac:(split_and!; [done | by left | done]). apply lift_Ok_inv in Ht as [Ht%ok_or_Ok _].
  still_call H u1 Hl ltac:(split_and!; [done | by left | done]).
  apply ensure_Ok_inv in Hl as [Hl%negb_true_iff _].
  erewrite bind_Ok in H by reflexivity. rewrite Hw1 in H.
  change (set_cache_pins (filter (λ r, alive r h = true) (cc_pins c)) c) with (cache_sweep c h) in H.
  still_call H q Hq ltac:(split_and!; [done | by right | done]). injection Hq as <- <-.
  still_call H u2 Hp ltac:(split_and!; [done | by right | done]).
  apply ensure_Ok_inv in Hp as [Hp%negb_true_iff _]. change (cc_limits (cache_sweep c h)) with (cc_limits c) in Hp.
  match type of H with _ (_, ?w) = _ =>
    match goal with E : cw_revisions w = _ |- _ => rename E into Hlast end;
    pose proof (still_check x k.1 ActCache (len input) (cache_sweep c h) w) as [E1 E2] end.
  rewrite H in E1, E2. cbn [fst snd] in E1, E2. subst c'. rewrite E2, Hlast.
  split_and!; [done | by right |]. intros u _. split_and!; [done | lia |]. exists n. split; [done | lia].
Qed.

Lemma dropping_remote_next {A B} r (m : CM A) (f : A → CM B) s res c' (w' : CacheWorld T) :
  (dropping_remote r m ≫= f) s = (res, (c', w')) →
  (∃ e w1, m s = (Err e, (c', w1)) ∧ res = Err e ∧
     cw_revisions w' = Remote_drop r (cw_revisions w1)) ∨
  ∃ a s1, m s = (Ok a, s1) ∧ f a s1 = (res, (c', w')).
Proof.
  unfold mbind, M_bind, dropping_remote. destruct (m s) as [[a | e] [c1 w1]].
  - right. by exists a, (c1, w1).
  - intros [= <- <- <-]. left. by exists e, w1.
Qed.

Lemma valid_receipt_attach limits remote id o d input n revision :
  valid_receipt limits remote → board_offerings (rem_board remote) !! id = Some o →
  Definition_parse input o limits = Ok d →
  let next := set_definitions (<[id := d]> (rem_definitions remote)) remote in
  remote_total next = Some n → n ≤ lim_publication_bytes limits →
  valid_receipt limits (set_receipt revision next).
Proof.
  intros [Hb Hl Hd _] Ho Hp next Hn Hle. split; cbn; [done | done | | by exists n].
  intros id' d'. destruct (decide (id' = id)) as [-> | Hne].
  - rewrite lookup_insert_eq. intros [= <-]. exists o. split; [done |].
    by pose proof (Definition_parse_ok _ _ _ _ Hp) as [-> _].
  - rewrite lookup_insert_ne by done. apply Hd.
Qed.

Lemma cache_attach_step x remote id input now c w held r c' w' :
  caching c (cw_revisions w) held → remote ∈ held →
  attach x remote id input now (c, w) = (r, (c', w')) →
  caching c' (cw_revisions w') (answered r held) ∧
  match r with
  | Ok m =>
    authorized c x (key (rem_provenance remote)).1 ActCache (len input) ∧
    cc_entries c !! key (rem_provenance remote) = Some remote ∧ fresh_at now remote ∧
    (∃ o d, board_offerings (rem_board remote) !! id = Some o ∧
       Definition_parse input o (cc_limits c) = Ok d ∧
       m = set_receipt (rem_revision m) (set_definitions (<[id := d]> (rem_definitions remote)) remote)) ∧
    cc_entries c' = <[key (rem_provenance remote) := m]> (cc_entries c)
  | Err _ => cc_entries c' = cc_entries c
  end.
Proof.
  intros Hc Hin H. remember (cw_revisions w) as h eqn:Hh. symmetry in Hh. unfold attach in H.
  still_call H u1 Hc1 ltac:(by split). apply cache_check_ok in Hc1.
  assert (caching c (cw_revisions w0) held) as Hc0 by by rewrite Hw.
  still_call H u2 Hcur ltac:(by split). apply (current_ok _ _ _ _ _ _ _ Hc0 Hin) in Hcur as [Hcur Hfresh].
  still_call H q Hq ltac:(by split). injection Hq as <- <-.
  still_call H o Ho ltac:(by split). apply lift_Ok_inv in Ho as [Ho%ok_or_Ok _].
  still_call H d Hd ltac:(by split). apply lift_Ok_inv in Hd as [Hd _].
  match type of H with _ (_, ?w) = _ =>
    match goal with E : cw_revisions w = _ |- _ => rename E into Hlast end end.
  erewrite bind_Ok in H by reflexivity. rewrite Hlast in H. cbn zeta in H.
  set (next := set_definitions _ _) in H. set (k := key (rem_provenance remote)) in *.
  assert (remote ∈ receipts c held) as Hrem by by apply receipts_held.
  pose proof (caching_clone _ _ _ _ Hc Hrem) as Hc1'. set (h1 := Remote_clone remote h) in *.
  apply dropping_remote_next in H as [(e & w5 & Hg & -> & Hw5) | (u3 & [c5 w5] & Hg & H)];
    apply (attach_guard_run _ _ _ _ _ _ (remote :: held)) in Hg as (Hh1 & Hst & Hg); try done;
    cbn [fst snd cw_revisions] in Hh1, Hst, Hg.
  - rewrite Hw5, Hh1. change (Remote_drop next h1) with (Remote_drop remote h1).
    destruct Hst as [-> | ->]; (split; [| done]).
    + by apply (caching_drop _ _ (remote :: held) held).
    + apply (caching_drop _ _ (remote :: held) held); [by apply caching_sweep | done].
  - destruct (Hg u3 eq_refl) as (-> & Hp & n & Hn & Hle). clear Hst Hg.
    apply caching_sweep in Hc1'. set (c2 := cache_sweep c h1) in *.
    pose proof (caching_drop _ _ (remote :: held) held _ Hc1' (Permutation_refl _)) as Hc2.
    assert (receipt_room c2 (Remote_drop remote h1) k) as Hroom.
    { split; [| | by change (cc_entries c2) with (cc_entries c); rewrite Hcur].
      - intros r' Hr'%sweep_live. apply (alive_owned _ _ _ (ca_owned _ _ _ Hc2)).
        apply (alive_owned _ _ _ (ca_owned _ _ _ Hc1')) in Hr'.
        apply list_elem_of_fmap in Hr' as (s & -> & Hs). apply list_elem_of_fmap_2.
        apply elem_of_app in Hs as [Hs | [-> | Hs]%elem_of_cons]; [| done |];
          apply elem_of_app; [by left | by right].
      - change (cc_limits c2) with (cc_limits c). unfold len in Hp. lia. }
    pose proof (owned_new _ _ tt (ca_owned _ _ _ Hc1')) as Hnew. cbn [fst arc_new] in Hnew.
    assert (owned (Remote_drop remote (arc_new tt h1).2) (fresh h1 :: revisions (receipts c2 held))) as Ho3.
    { apply owned_drop. eapply owned_perm; [| exact Hnew]. unfold revisions, receipts.
      rewrite !fmap_app. cbn. by rewrite <- Permutation_middle, Permutation_swap. }
    unfold new_receipt in H. cbn in H. injection H as <- <- <-. cbn [cw_revisions answered].
    rewrite Hh1. change (mkArcs _ _) with (arc_new tt h1).2.
    set (m := set_receipt (fresh h1) next).
    split; [| split_and!; [done | done | done | by exists o, d | done]].
    apply (caching_install c2 (Remote_drop remote h1) _ held k m Hc2 Hroom); try done.
    + unfold Remote_drop. by rewrite arc_drop_fresh.
    + rewrite drop_remotes_fresh. unfold Remote_clone, Remote_drop.
      rewrite arc_clone_fresh, !arc_drop_fresh. cbn. lia.
    + apply (valid_receipt_attach _ _ _ o _ input n); try done. by apply (ca_valid _ _ _ Hc).
    + by apply (owned_insert c2 held _ m).
Qed.

(** ** Caches over time *)

Record CacheDeployment : Type := mkCacheDeployment {
  cd_cache : Cache;
  cd_world : CacheWorld T;
  cd_held : list Remote;
}.

(** One call, one copy or disposal of a receipt by a client, or one change of
    the clock and the authority domains. *)
Inductive cache_steps : CacheDeployment → CacheDeployment → Prop :=
| steps_store c w held x p input now r c' w' : store x p input now (c, w) = (r, (c', w')) →
    cache_steps (mkCacheDeployment c w held) (mkCacheDeployment c' w' (answered r held))
| steps_read c w held x p now r c' w' : cache_read x p now (c, w) = (r, (c', w')) →
    cache_steps (mkCacheDeployment c w held) (mkCacheDeployment c' w' (answered r held))
| steps_attach c w held x remote id input now r c' w' : remote ∈ held →
    attach x remote id input now (c, w) = (r, (c', w')) →
    cache_steps (mkCacheDeployment c w held) (mkCacheDeployment c' w' (answered r held))
| steps_definition c w held x remote id now r c' w' :
    cache_definition x remote id now (c, w) = (r, (c', w')) →
    cache_steps (mkCacheDeployment c w held) (mkCacheDeployment c' w' held)
| steps_clone c w held r : r ∈ held →
    cache_steps (mkCacheDeployment c w held)
      (mkCacheDeployment c (mkCacheWorld (cw_control w) (Remote_clone r (cw_revisions w))) (r :: held))
| steps_drop c w held held' r : held ≡ₚ r :: held' →
    cache_steps (mkCacheDeployment c w held)
      (mkCacheDeployment c (mkCacheWorld (cw_control w) (Remote_drop r (cw_revisions w))) held')
| steps_environment c w held control :
    cache_steps (mkCacheDeployment c w held)
      (mkCacheDeployment c (mkCacheWorld control (cw_revisions w)) held).

Definition cache_created (D : CacheDeployment) : Prop :=
  ∃ authority limits, Cache_new authority limits = Ok (cd_cache D) ∧
    owned (cw_revisions (cd_world D)) [] ∧ cd_held D = [].
Definition cache_reachable (D : CacheDeployment) : Prop :=
  ∃ D0, cache_created D0 ∧ rtc cache_steps D0 D.

Lemma cache_steps_caching D D' :
  caching (cd_cache D) (cw_revisions (cd_world D)) (cd_held D) → cache_steps D D' →
  caching (cd_cache D') (cw_revisions (cd_world D')) (cd_held D').
Proof.
  intros Hc Hs. destruct Hs; cbn in *.
  - by eapply cache_store_step.
  - by eapply cache_read_step.
  - by eapply cache_attach_step.
  - match goal with H : cache_definition ?x ?m ?id ?now (c, w) = _ |- _ =>
      pose proof (still_definition x m id now c w) as [E1 E2]; rewrite H in E1, E2 end.
    cbn in E1, E2. subst. by rewrite E2.
  - apply caching_clone; [done |]. by apply receipts_held.
  - by eapply caching_drop.
  - done.
Qed.
Lemma cache_created_caching D :
  cache_created D → caching (cd_cache D) (cw_revisions (cd_world D)) (cd_held D).
Proof.
  intros (authority & limits & H & Ho & ->). unfold Cache_new in H.
  destruct (Limits_validate limits) as [[] |] eqn:Hl; [| done]. apply Limits_validate_ok in Hl.
  injection H as <-.
  split; unfold receipts, map_values; cbn; rewrite ?map_to_list_empty; cbn; try done;
    try apply NoDup_nil_2; try (by intros ? ?%not_elem_of_nil); try (by intros ? ? ?%not_elem_of_nil).
  - rewrite len_nil. lia.
  - rewrite map_size_empty. lia.
Qed.
Lemma cache_reachable_caching D :
  cache_reachable D → caching (cd_cache D) (cw_revisions (cd_world D)) (cd_held D).
Proof.
  intros (D0 & H0%cache_created_caching & Hr). induction Hr as [| D1 D2 D3 Hs _ IH]; [done |].
  apply IH. by eapply cache_steps_caching.
Qed.

(** The cache is bounded and every receipt is attributed and valid.  In
    every reachable cache there are at most [limits.cache_entries] entries and
    at most [limits.snapshots] receipts still allocated, those of clients
    included; each entry is stored under its own provenance, so direct and
    forwarded receipts never answer for each other; and each receipt, cached or
    held, is the parse of its exact bytes with a lifetime of
    [limits.cache_seconds], whose definitions are the validated definitions of
    its own offerings and which together fit the publication limit. *)
Theorem cache_receipts D :
  cache_reachable D →
  let c := cd_cache D in
  let limits := cc_limits c in
  N.of_nat (size (cc_entries c)) ≤ lim_cache_entries limits ∧
  N.of_nat (size (cells (cw_revisions (cd_world D)))) ≤ lim_snapshots limits ∧
  (∀ k r, cc_entries c !! k = Some r → k = key (rem_provenance r)) ∧
  ∀ r, r ∈ receipts c (cd_held D) →
    Board_parse (remote_bytes r) limits = Ok (rem_board r) ∧
    rem_expires r = rem_received r + lim_cache_seconds limits ∧
    (∀ id d, rem_definitions r !! id = Some d → ∃ o,
       board_offerings (rem_board r) !! id = Some o ∧
       Definition_parse (definition_source d) o limits = Ok d) ∧
    ∃ n, remote_total r = Some n ∧ n ≤ lim_publication_bytes limits.
Proof.
  intros Hc%cache_reachable_caching c limits. split_and!.
  - apply Hc.
  - pose proof (ca_owned _ _ _ Hc) as Ho. etrans; [| exact (ca_bound _ _ _ Hc)]. unfold len.
    assert (size (cells (cw_revisions (cd_world D))) ≤
      length (filter (λ r, alive r (cw_revisions (cd_world D)) = true) (cc_pins c)))%nat; [| subst limits c; lia].
    apply (size_cells _ _ _ Ho).
    + apply NoDup_filter, (ca_nodup _ _ _ Hc).
    + intros r Hr. apply list_elem_of_filter. split; [by apply (alive_owned _ _ _ Ho) |].
      by apply (ca_pinned _ _ _ Hc).
  - apply (ca_keys _ _ _ Hc).
  - intros r Hr. by destruct (ca_valid _ _ _ Hc _ Hr).
Qed.

(** A definition is attached only to the very receipt it was requested
    for.  When [attach] succeeds for a receipt a client holds, the call was
    authorized to cache for that receipt's peer, the receipt is the one in the
    cache and still fresh, the bytes are a valid definition of its offering,
    and the new receipt, which replaces it, differs from it by this definition
    and its revision alone: Board, attribution and lifetime stay.  A call that
    fails leaves the entries as they were. *)
Theorem attach_exact D x remote id input now r c' w' :
  cache_reachable D → remote ∈ cd_held D →
  attach x remote id input now (cd_cache D, cd_world D) = (r, (c', w')) →
  let c := cd_cache D in
  let k := key (rem_provenance remote) in
  match r with
  | Ok m =>
    authorized c x k.1 ActCache (len input) ∧ cc_entries c !! k = Some remote ∧
    rem_received remote ≤ now < rem_expires remote ∧
    (∃ o d, board_offerings (rem_board remote) !! id = Some o ∧
       Definition_parse input o (cc_limits c) = Ok d ∧
       m = set_receipt (rem_revision m) (set_definitions (<[id := d]> (rem_definitions remote)) remote)) ∧
    cc_entries c' = <[k := m]> (cc_entries c)
  | Err _ => cc_entries c' = cc_entries c
  end.
Proof.
  intros Hc%cache_reachable_caching Hr H. by destruct (cache_attach_step _ _ _ _ _ _ _ _ _ _ _ Hc Hr H).
Qed.

(** C26: a remote selection is fresh, attributed and exact.  [Cache::select]
    succeeds only for a receipt received directly from its publisher that is
    the one in the cache and within its lifetime, under a grant to select for
    that publisher; the selected offering and definition are the receipt's,
    with the requested identifier, service, version and description; and
    requester and provider follow the offering's direction. *)
Theorem cache_select_exact {K} `{!Capabilities K} D x remote q now k sel s' :
  cache_reachable D → remote ∈ cd_held D →
  Cache_select x remote q now (cd_cache D, cd_world D, k) = (Ok sel, s') →
  ∃ publisher, rem_provenance remote = Direct publisher ∧ sel_publisher sel = publisher ∧
  cc_entries (cd_cache D) !! (publisher, true) = Some remote ∧
  rem_received remote ≤ now < rem_expires remote ∧
  authorized (cd_cache D) x publisher ActSelect (len (remote_bytes remote)) ∧
  board_offerings (rem_board remote) !! req_id q = Some (sel_offering sel) ∧
  rem_definitions remote !! req_id q = Some (sel_definition sel) ∧
  off_service (sel_offering sel) = req_service q ∧ off_version (sel_offering sel) = req_version q ∧
  off_description (sel_offering sel) = req_description q ∧
  roles sel = match off_direction (sel_offering sel) with
              | Provided => (req_other q, publisher, off_issuer (sel_offering sel))
              | Wanted => (publisher, req_other q, off_issuer (sel_offering sel))
              end.
Proof.
  intros Hc%cache_reachable_caching Hr H. destruct D as [c w held]. cbn in *. unfold Cache_select in H.
  apply bind_Ok_inv in H as (u1 & [[c1 w1] k1] & E & H). unfold on_cache_state in E.
  destruct (current remote now (c, w)) as [r1 s1] eqn:Ecur. injection E as -> -> ->.
  pose proof (still_current remote now c w) as [E _]. rewrite Ecur in E. cbn in E. subst c1.
  apply (current_ok _ _ _ _ _ _ _ Hc Hr) in Ecur as [Hcur Hfresh].
  apply bind_Ok_inv in H as (publisher & s2 & E & H). apply lift_Ok_inv in E as [E ->].
  destruct (rem_provenance remote) as [id | id] eqn:Hprov; [injection E as -> | done]. cbn in Hcur.
  apply bind_Ok_inv in H as (u2 & [[c2 w2] k2] & E & H). unfold on_cache_state in E.
  destruct (cache_check _ _ _ _ _) as [r2 s2] eqn:Echeck in E. injection E as -> -> ->.
  apply cache_check_ok in Echeck.
  apply bind_Ok_inv in H as (o & s3 & E & H). apply lift_Ok_inv in E as [Ho%ok_or_Ok ->].
  apply bind_Ok_inv in H as (d & s4 & E & H). apply lift_Ok_inv in E as [Hd%ok_or_Ok ->].
  unfold on_caller in H. destruct (select o d publisher q k2) as [r3 k3] eqn:Esel. injection H as -> <-.
  exists publisher. apply select_ok in Esel as (H1 & H2 & H3 & Hs).
  assert (sel_offering sel = o ∧ sel_definition sel = d ∧ sel_publisher sel = publisher) as (-> & -> & ->)
    by (rewrite Hs; by destruct (off_direction o)).
  destruct Hfresh. split_and!; try done. rewrite Hs. by destruct (off_direction o).
Qed.
End operations.

(** ** A concrete cache

    The demonstration Board received from its publisher, with its definition
    attached. *)

#[local] Existing Instance demo_json.
#[local] Existing Instance demo_capabilities.
#[local] Instance demo_cache_clock : MonotonicTime N := λ t, (t, t + 1).

Definition demo_cache : Cache := mkCache 0 Limits_default ∅ [].
Definition demo_cache_world : CacheWorld N :=
  mkCacheWorld (snd (Authority_new (mkControl 0 Arcs_empty))) Arcs_empty.
Definition demo_cache_context (a : Action) : CallContext :=
  mkContext (mkGrant 0 demo_publisher a 1048576) 1000 false.
Definition demo_stored : result BoardError Remote * (Cache * CacheWorld N) :=
  store (demo_cache_context ActCache) (Direct demo_publisher) (print demo_board) 7
    (demo_cache, demo_cache_world).
Definition demo_attached : option (Remote * Cache * CacheWorld N * Remote * Cache * CacheWorld N) :=
  match demo_stored with
  | (Ok r, (c, w)) =>
    match attach (demo_cache_context ActCache) r (lit "echo") (print demo_definition) 8 (c, w) with
    | (Ok m, (c', w')) => Some (r, c, w, m, c', w')
    | _ => None
    end
  | _ => None
  end.
Definition demo_cache_request : SelectRequest :=
  mkRequest (lit "echo") (lit "org.example.echo") 1 (lit "Echo.") (replicate 32 x03) true.
Example demo_cache_selects :
  match demo_attached with
  | Some (_, _, _, m, c, w) =>
    is_ok (Cache_select (demo_cache_context ActSelect) m demo_cache_request 9 (c, w, tt)).1
    && is_err (Cache_select (demo_cache_context ActSelect) m demo_cache_request 307 (c, w, tt)).1
  | None => false
  end = true.
Proof. vm_compute. reflexivity. Qed.

Lemma demo_cache_reachable : ∃ r c w m c' w',
  demo_attached = Some (r, c, w, m, c', w') ∧
  attach (demo_cache_context ActCache) r (lit "echo") (print demo_definition) 8 (c, w) = (Ok m, (c', w')) ∧
  cache_reachable (mkCacheDeployment c w [r]) ∧ cache_reachable (mkCacheDeployment c' w' [m; r]).
Proof.
  assert (bool_decide (is_Some demo_attached) = true) as Hsome by (vm_compute; reflexivity).
  apply bool_decide_eq_true in Hsome as [[[[[[r c] w] m] c'] w'] E]. exists r, c, w, m, c', w'.
  split; [done |]. unfold demo_attached in E.
  destruct demo_stored as [[r0 | e] [c0 w0]] eqn:Es; [| done].
  destruct (attach _ _ _ _ _ _) as [[m0 | e] [c1 w1]] eqn:Ea; [| done]. injection E as -> -> -> -> -> ->.
  assert (cache_created (mkCacheDeployment demo_cache demo_cache_world [])) as Hcreated.
  { exists 0, Limits_default. split_and!; [done | apply owned_empty | done]. }
  assert (rtc cache_steps (mkCacheDeployment demo_cache demo_cache_world []) (mkCacheDeployment c w [r]))
    as Hr by (apply rtc_once; by eapply (steps_store _ _ [] _ _ _ _ (Ok r))).
  split; [exact Ea |]. split; [eexists; split; [exact Hcreated | exact Hr] |].
  eexists. split; [exact Hcreated |]. eapply rtc_r; [exact Hr |].
  eapply (steps_attach _ _ [r] _ r _ _ _ (Ok m)); [by left | exact Ea].
Qed.

Lemma cache_receipts_witness : ∃ (D : CacheDeployment (T := N)) r, r ∈ cd_held D ∧
  Board_parse (remote_bytes r) (cc_limits (cd_cache D)) = Ok (rem_board r).
Proof.
  destruct demo_cache_reachable as (r & c & w & m & c' & w' & _ & _ & _ & Hr).
  exists (mkCacheDeployment c' w' [m; r]), m. split; [by left |].
  destruct (cache_receipts (mkCacheDeployment c' w' [m; r]) Hr) as (_ & _ & _ & Hvalid).
  apply (Hvalid m). apply receipts_held. by left.
Defined.

Lemma attach_exact_witness : ∃ (D : CacheDeployment (T := N)) r m,
  cc_entries (cd_cache D) !! key (rem_provenance r) = Some r ∧
  ∃ o d, board_offerings (rem_board r) !! lit "echo" = Some o ∧
    Definition_parse (print demo_definition) o (cc_limits (cd_cache D)) = Ok d ∧
    m = set_receipt (rem_revision m) (set_definitions (<[lit "echo" := d]> (rem_definitions r)) r).
Proof.
  destruct demo_cache_reachable as (r & c & w & m & c' & w' & _ & Ha & Hr & _).
  exists (mkCacheDeployment c w [r]), r, m.
  assert (r ∈ [r]) as Hin by by left.
  destruct (attach_exact (mkCacheDeployment c w [r]) (demo_cache_context ActCache) r (lit "echo")
    (print demo_definition) 8 (Ok m) c' w' Hr Hin Ha) as (_ & Hcur & _ & Hd & _).
  exact (conj Hcur Hd).
Defined.

Lemma cache_select_exact_witness : ∃ (D : CacheDeployment (T := N)) m sel,
  m ∈ cd_held D ∧ rem_provenance m = Direct (sel_publisher sel) ∧
  board_offerings (rem_board m) !! lit "echo" = Some (sel_offering sel).
Proof.
  pose proof demo_cache_selects as Hok.
  destruct demo_cache_reachable as (r & c & w & m & c' & w' & E & _ & _ & Hr). rewrite E in Hok.
  apply andb_true_iff in Hok as [Hok _].
  destruct (Cache_select _ m demo_cache_request 9 (c', w', tt)) as [[sel | e] s'] eqn:Hsel;
    [| discriminate Hok].
  exists (mkCacheDeployment c' w' [m; r]), m, sel. assert (m ∈ [m; r]) as Hin by by left. split; [exact Hin |].
  destruct (cache_select_exact (mkCacheDeployment c' w' [m; r]) (demo_cache_context ActSelect) m demo_cache_request 9 tt sel s' Hr Hin Hsel)
    as (publisher & Hprov & Hpub & _ & _ & _ & Ho & _).
  split; [rewrite Hpub; exact Hprov | exact Ho].
Defined.
