(* ===== verification/Crypto.v ===== *)
(** * Cryptographic primitives

    [src/modules/cryptography/{error,config,random,ports}.rs] and
    [primitives/*.rs]: the bounded wrappers around the RustCrypto and dalek
    crates.  The crates are parameters, declared with the widths their types
    carry; a [Secret<P>] is its bytes, the purpose being a phantom type. *)

From S2P Require Import Prelude Bytes.

#[local] Open Scope N_scope.

(** ** Errors and limits *)

Inductive CryptoError : Type :=
| CInvalidInput | CAuthenticationFailed | CAccessDenied | CUnavailable | CResourceLimit.

#[global] Instance CryptoError_eq_dec : EqDecision CryptoError.
Proof. solve_decision. Defined.

Definition MINIMUM_OBJECT_BYTES : N := 148.
Record ResourceLimits : Type := mkResourceLimits {
  maximum_plaintext_bytes : N;
  maximum_object_bytes : N;
}.
Definition ResourceLimits_new (plaintext object : N) : result CryptoError ResourceLimits :=
  if (plaintext =? 0) || (object <? MINIMUM_OBJECT_BYTES) then Err CInvalidInput
  else Ok (mkResourceLimits plaintext object).

(** ** The crates *)

(** sha2, hkdf, x25519-dalek, ed25519-dalek, curve25519-dalek and
    chacha20poly1305, and the answer of the allocator to
    [try_reserve_exact]. *)
Class Crates : Type := {
  sha256_digest : bytes → bytes;
  hkdf_extract : bytes → bytes → bytes;
  hkdf_expand : bytes → bytes → nat → option bytes;
  x25519_public : bytes → bytes;
  x25519_shared : bytes → bytes → bytes;
  x25519_contributory : bytes → bool;
  ed25519_public : bytes → bytes;
  ed25519_sign : bytes → bytes → bytes;
  ed25519_verifying_key : bytes → bool;
  ed25519_signature : bytes → bool;
  ed25519_verify_strict : bytes → bytes → bytes → bool;
  edwards_recompressed : bytes → option bytes;
  edwards_small_order : bytes → bool;
  xchacha_encrypt : bytes → bytes → bytes → bytes → option (bytes * bytes);
  xchacha_decrypt : bytes → bytes → bytes → bytes → bytes → option bytes;
  try_reserve : N → bool;
  sha256_digest_32 m : length (sha256_digest m) = 32%nat;
  hkdf_expand_length k i n o : hkdf_expand k i n = Some o → length o = n;
  x25519_public_32 s : length (x25519_public s) = 32%nat;
  ed25519_public_32 s : length (ed25519_public s) = 32%nat;
  ed25519_sign_64 s m : length (ed25519_sign s m) = 64%nat;
  xchacha_encrypt_length k n a p c t :
    xchacha_encrypt k n a p = Some (c, t) → length c = length p ∧ length t = 16%nat;
}.

(** [Entropy::fill]. *)
Class Entropy (E : Type) : Type := {
  fill : nat → E → result CryptoError bytes * E;
  fill_length n e b e' : fill n e = (Ok b, e') → length b = n;
}.

Abbreviation Secret := bytes (only parsing).

Section primitives.
Context `{CR : !Crates}.

(** [slice.try_into()] for a fixed width. *)
Definition exactly (n : nat) (b : bytes) : result CryptoError bytes :=
  if (length b =? n)%nat then Ok b else Err CInvalidInput.

(** ** Hashing: [hash.rs] *)

(** The absorbed bytes stand for the hasher's state. *)
Record Sha256State : Type := mkSha256State { absorbed : bytes; remaining : N }.
Definition Sha256State_new (maximum : N) : Sha256State := mkSha256State [] maximum.
Definition Sha256State_update (b : bytes) : M Sha256State CryptoError unit := λ s,
  if remaining s <? len b then (Err CResourceLimit, s)
  else (Ok tt, mkSha256State (absorbed s ++ b) (remaining s - len b)).
Definition Sha256State_finish (s : Sha256State) : bytes := sha256_digest (absorbed s).
Definition sha256 (b : bytes) (maximum : N) : result CryptoError bytes :=
  match Sha256State_update b (Sha256State_new maximum) with
  | (Ok _, s) => Ok (Sha256State_finish s)
  | (Err e, _) => Err e
  end.

(** ** Points and signatures: [verification_key.rs], [signature.rs] *)

Definition VerificationKey_parse (encoded : bytes) : result CryptoError bytes :=
  b ← exactly 32 encoded;
  again ← ok_or (edwards_recompressed b) CInvalidInput;
  if negb (bool_decide (again = b)) || edwards_small_order b then Err CAuthenticationFailed
  else Ok b.

Definition sign (key : Secret) (message : bytes) (maximum : N) : result CryptoError bytes :=
  if maximum <? len message then Err CResourceLimit else Ok (ed25519_sign key message).

Definition verify (public message signature : bytes) (maximum : N) : result CryptoError unit :=
  if maximum <? len message then Err CResourceLimit else
  key ← exactly 32 public;
  _ ← VerificationKey_parse key;
  if negb (length signature =? 64)%nat then Err CInvalidInput else
  _ ← VerificationKey_parse (take 32 signature);
  if negb (ed25519_verifying_key key) then Err CInvalidInput else
  if negb (ed25519_signature signature) then Err CInvalidInput else
  if ed25519_verify_strict key message signature then Ok tt else Err CAuthenticationFailed.

(** ** Key derivation: [kdf.rs] *)

Definition extract (salt : bytes) (shared : Secret) (maximum : N) : result CryptoError Secret :=
  if maximum <? len salt then Err CResourceLimit else Ok (hkdf_extract salt shared).
Definition expand (prk : Secret) (info : bytes) (n : nat) (maximum : N) : result CryptoError bytes :=
  if (maximum <? len info) || (255 * 32 <? N.of_nat n) then Err CResourceLimit
  else ok_or (hkdf_expand prk info n) CResourceLimit.
Definition expand_key (prk : Secret) (info : bytes) (maximum : N) : result CryptoError Secret :=
  expand prk info 32 maximum.
Definition expand_nonce_prefix (prk : Secret) (info : bytes) (maximum : N) : result CryptoError bytes :=
  expand prk info 16 maximum.

(** ** Agreement: [agreement.rs] *)

Definition agree (secret : Secret) (remote : bytes) : result CryptoError Secret :=
  remote ← exactly 32 remote;
  let shared := x25519_shared secret remote in
  if negb (x25519_contributory shared) then Err CAuthenticationFailed else Ok shared.

(** ** Authenticated encryption: [aead.rs] *)

Definition staging (capacity : N) : result CryptoError unit :=
  if try_reserve capacity then Ok tt else Err CResourceLimit.
Definition aead_seal (key : Secret) (nonce plaintext aad : bytes) (maximum : N)
    : result CryptoError bytes :=
  nonce ← exactly 24 nonce;
  total ← ok_or (checked_add u64_limit (len plaintext) 16) CResourceLimit;
  if (maximum <? total) || (maximum <? len aad) then Err CResourceLimit else
  _ ← staging total;
  r ← ok_or (xchacha_encrypt key nonce aad plaintext) CInvalidInput;
  Ok (r.1 ++ r.2).
Definition aead_open (key : Secret) (nonce sealed aad : bytes) (maximum : N)
    : result CryptoError bytes :=
  nonce ← exactly 24 nonce;
  if (maximum <? len sealed) || (maximum <? len aad) then Err CResourceLimit else
  if len sealed <? 16 then Err CInvalidInput else
  let n := N.to_nat (len sealed - 16) in
  _ ← staging (len sealed - 16);
  ok_or (xchacha_decrypt key nonce aad (take n sealed) (drop n sealed)) CAuthenticationFailed.

(** ** Frame tags: [integrity.rs] *)

Definition tag (key : Secret) (nonce aad : bytes) (maximum : N) : result CryptoError bytes :=
  if maximum <? len aad then Err CResourceLimit else
  r ← ok_or (xchacha_encrypt key nonce aad []) CInvalidInput;
  Ok r.2.
Definition verify_tag (key : Secret) (nonce aad t : bytes) (maximum : N) : result CryptoError unit :=
  if maximum <? len aad then Err CResourceLimit else
  _ ← ok_or (xchacha_decrypt key nonce aad [] t) CAuthenticationFailed;
  Ok tt.

(** ** Randomness and keys: [random.rs], [keys.rs] *)

Section entropy.
Context {E : Type} `{!Entropy E}.

Definition MAX_RANDOM_BYTES : N := 4096.
Definition random_bytes (n : nat) : M E CryptoError bytes := λ e,
  if MAX_RANDOM_BYTES <? N.of_nat n then (Err CResourceLimit, e) else fill n e.

(** A key pair is its public key and its private capability. *)
Record KeyPair : Type := mkKeyPair { public_key : bytes; private_key : Secret }.
Definition signing_key : M E CryptoError KeyPair :=
  b ← random_bytes 32; mret (mkKeyPair (ed25519_public b) b).
Definition agreement_key : M E CryptoError KeyPair :=
  b ← random_bytes 32; mret (mkKeyPair (x25519_public b) b).
End entropy.
End primitives.
