(* ===== verification/Envelope.v ===== *)
(** * The generic identity envelope

    [src/modules/cryptography/{credential,provider}.rs] and [envelope/*.rs]:
    recipient credentials, the 132-byte header, complete objects, the
    domain-separated content key, encryption and decryption, and the bounded
    provider. *)

From S2P Require Import Prelude Bytes Json Crypto.

#[local] Open Scope N_scope.

(** ** Headers: [header.rs] *)

Definition HEADER_BYTES : N := 132.
Definition CONTEXT_BYTES : nat := 124.

Record EnvelopeHeader : Type := mkHeader {
  recipient_id : bytes;
  recipient_key : bytes;
  ephemeral_key : bytes;
  nonce : bytes;
  sealed_length : N;
}.

Definition suite : bytes := [x01; x01; x01; x01].

Definition header_encode (h : EnvelopeHeader) : result CryptoError bytes :=
  if sealed_length h <? 16 then Err CInvalidInput else
  Ok (suite ++ recipient_id h ++ recipient_key h ++ ephemeral_key h ++ nonce h
      ++ to_be 8 (sealed_length h)).

Definition header_decode (b : bytes) : result CryptoError EnvelopeHeader :=
  if negb (len b =? HEADER_BYTES) || negb (bool_decide (take 4 b = suite)) then Err CInvalidInput else
  let h := mkHeader (slice 4 36 b) (slice 36 68 b) (slice 68 100 b) (slice 100 124 b)
             (from_be (slice 124 132 b)) in
  if sealed_length h <? 16 then Err CInvalidInput else Ok h.

(** ** Objects: [object.rs] *)

Definition validate_lengths (sealed : N) (limits : ResourceLimits) : result CryptoError N :=
  if sealed <? 16 then Err CInvalidInput else
  let plaintext := sealed - 16 in
  total ← ok_or (checked_add u64_limit sealed HEADER_BYTES) CResourceLimit;
  if (maximum_object_bytes limits <? total) || (maximum_plaintext_bytes limits <? plaintext)
  then Err CResourceLimit else Ok total.
Definition object_length (h : EnvelopeHeader) (limits : ResourceLimits) : result CryptoError N :=
  validate_lengths (sealed_length h) limits.
Definition lengths_for_plaintext (n : N) (limits : ResourceLimits) : result CryptoError (N * N) :=
  sealed ← ok_or (checked_add u64_limit n 16) CResourceLimit;
  total ← validate_lengths sealed limits;
  Ok (sealed, total).

Record ParsedObject : Type := mkParsed {
  po_header : EnvelopeHeader;
  po_encoded : bytes;
  po_sealed : bytes;
}.
Definition object_parse (b : bytes) (limits : ResourceLimits) : result CryptoError ParsedObject :=
  if len b <? HEADER_BYTES then Err CInvalidInput else
  if maximum_object_bytes limits <? len b then Err CResourceLimit else
  h ← header_decode (take (N.to_nat HEADER_BYTES) b);
  n ← object_length h limits;
  if negb (len b =? n) then Err CInvalidInput else
  Ok (mkParsed h (take (N.to_nat HEADER_BYTES) b) (drop (N.to_nat HEADER_BYTES) b)).

(** ** Credentials: [credential.rs] *)

Record RecipientCredential : Type := mkCredential {
  cred_identity_id : bytes;
  cred_signing_public_key : bytes;
  cred_encryption_public_key : bytes;
  cred_binding_signature : bytes;
}.

Definition BINDING_PREFIX : bytes := lit "CR2SE-ENCRYPTION-KEY-V1".
Definition BINDING_BYTES : N := len BINDING_PREFIX + 32.

(** [SALT_PREFIX] and [KEY_PREFIX] end with a zero byte. *)
Definition SALT_PREFIX : bytes := lit "CR2SE-IDENTITY-ENCRYPTION-SALT-V1" ++ [x00].
Definition KEY_PREFIX : bytes := lit "CR2SE-IDENTITY-ENCRYPTION-KEY-V1" ++ [x00].

Section envelope.
Context `{CR : !Crates}.

Definition credential_parse (id signing encryption signature : bytes)
    : result CryptoError RecipientCredential :=
  id ← exactly 32 id;
  signing ← exactly 32 signing;
  encryption ← exactly 32 encryption;
  signature ← exactly 64 signature;
  Ok (mkCredential id signing encryption signature).

Definition identity_id (key : bytes) : result CryptoError bytes :=
  key ← exactly 32 key;
  let b := [x01; x01] ++ key in
  sha256 b (len b).
Definition binding_bytes (key : bytes) : result CryptoError bytes :=
  key ← exactly 32 key;
  Ok (BINDING_PREFIX ++ key).
Definition bind (key : Secret) (public : bytes) : result CryptoError bytes :=
  b ← binding_bytes public;
  sign key b BINDING_BYTES.

Record ValidatedRecipient : Type := mkValidated {
  val_identity_id : bytes;
  val_encryption_public_key : bytes;
}.
Definition credential_validate (c : RecipientCredential) : result CryptoError ValidatedRecipient :=
  id ← identity_id (cred_signing_public_key c);
  if negb (bool_decide (id = cred_identity_id c)) then Err CAuthenticationFailed else
  b ← binding_bytes (cred_encryption_public_key c);
  _ ← verify (cred_signing_public_key c) b (cred_binding_signature c) BINDING_BYTES;
  Ok (mkValidated (cred_identity_id c) (cred_encryption_public_key c)).

(** ** The content key: [derivation.rs] *)

Definition context (h : EnvelopeHeader) : result CryptoError bytes :=
  b ← header_encode h;
  exactly CONTEXT_BYTES (take CONTEXT_BYTES b).
Definition salt (c : bytes) : result CryptoError bytes :=
  if negb (bool_decide (take 4 c = suite)) then Err CInvalidInput else
  let b := SALT_PREFIX ++ c in
  sha256 b (len b).
Definition derive (shared : Secret) (c : bytes) : result CryptoError Secret :=
  s ← salt c;
  prk ← extract s shared 32;
  let info := KEY_PREFIX ++ c in
  expand_key prk info (len info).

(** ** Encryption: [encrypt.rs] *)

Record EncryptRequest : Type := mkEncrypt {
  enc_plaintext : bytes;
  enc_recipient : RecipientCredential;
  enc_limits : ResourceLimits;
}.

Definition encrypt {E} `{!Entropy E} (r : EncryptRequest) : M E CryptoError bytes :=
  recipient ← lift (credential_validate (enc_recipient r));
  lengths ← lift (lengths_for_plaintext (len (enc_plaintext r)) (enc_limits r));
  let '(sealed_length, total) := lengths in
  ephemeral ← agreement_key;
  nonce ← random_bytes 24;
  let header := mkHeader (val_identity_id recipient) (val_encryption_public_key recipient)
    (public_key ephemeral) nonce sealed_length in
  shared ← lift (agree (private_key ephemeral) (recipient_key header));
  c ← lift (context header);
  key ← lift (derive shared c);
  encoded ← lift (header_encode header);
  sealed ← lift (aead_seal key nonce (enc_plaintext r) encoded (maximum_object_bytes (enc_limits r)));
  lift (staging total);;
  mret (encoded ++ sealed).

(** ** Decryption: [decrypt.rs] *)

Record DecryptRequest : Type := mkDecrypt {
  dec_object : bytes;
  dec_identity_id : bytes;
  dec_encryption_public_key : bytes;
  dec_private_key : Secret;
  dec_limits : ResourceLimits;
}.

Definition decrypt (r : DecryptRequest) : result CryptoError bytes :=
  parsed ← object_parse (dec_object r) (dec_limits r);
  let h := po_header parsed in
  if negb (bool_decide (recipient_id h = dec_identity_id r))
     || negb (bool_decide (recipient_key h = dec_encryption_public_key r))
  then Err CAuthenticationFailed else
  shared ← agree (dec_private_key r) (ephemeral_key h);
  c ← context h;
  key ← derive shared c;
  aead_open key (nonce h) (po_sealed parsed) (po_encoded parsed) (maximum_object_bytes (dec_limits r)).

(** ** The provider: [provider.rs] *)

Record CryptoProvider (E : Type) : Type := mkCryptoProvider {
  prov_entropy : E;
  prov_maximum_bytes : N;
}.
Arguments mkCryptoProvider {E} _ _.
Arguments prov_entropy {E} _.
Arguments prov_maximum_bytes {E} _.

Section provider.
Context {E : Type} `{!Entropy E}.

Definition CryptoProvider_new (e : E) (maximum : N) : result CryptoError (CryptoProvider E) :=
  _ ← ResourceLimits_new maximum maximum;
  Ok (mkCryptoProvider e maximum).
Definition bounded (limits : ResourceLimits) (p : CryptoProvider E) : result CryptoError ResourceLimits :=
  ResourceLimits_new (N.min (maximum_plaintext_bytes limits) (prov_maximum_bytes p))
    (N.min (maximum_object_bytes limits) (prov_maximum_bytes p)).

Definition with_entropy {A} (m : M E CryptoError A) : M (CryptoProvider E) CryptoError A := λ p,
  let '(r, e) := m (prov_entropy p) in (r, mkCryptoProvider e (prov_maximum_bytes p)).
Definition hello_nonce : M (CryptoProvider E) CryptoError bytes := with_entropy (random_bytes 32).
Definition generate_agreement_key : M (CryptoProvider E) CryptoError KeyPair := with_entropy agreement_key.
Definition generate_signing_key : M (CryptoProvider E) CryptoError KeyPair := with_entropy signing_key.
Definition provider_sha256 (b : bytes) (p : CryptoProvider E) : result CryptoError bytes :=
  sha256 b (prov_maximum_bytes p).
Definition provider_sign (key : Secret) (m : bytes) (p : CryptoProvider E) : result CryptoError bytes :=
  sign key m (prov_maximum_bytes p).
Definition provider_verify (key m s : bytes) (p : CryptoProvider E) : result CryptoError unit :=
  verify key m s (prov_maximum_bytes p).

(** A persistent key pair is drawn like an ephemeral one, and the agreement of
    either checks the same; Rust's types keep them apart. *)
Definition generate_persistent_key : M (CryptoProvider E) CryptoError KeyPair := with_entropy agreement_key.
Definition agree_ephemeral (key : Secret) (remote : bytes) (_ : CryptoProvider E) : result CryptoError Secret :=
  agree key remote.
Definition agree_persistent (key : Secret) (remote : bytes) (_ : CryptoProvider E) : result CryptoError Secret :=
  agree key remote.
Definition provider_encrypt (r : EncryptRequest) : M (CryptoProvider E) CryptoError bytes := λ p,
  match bounded (enc_limits r) p with
  | Err e => (Err e, p)
  | Ok l => with_entropy (encrypt (mkEncrypt (enc_plaintext r) (enc_recipient r) l)) p
  end.
Definition provider_decrypt (r : DecryptRequest) (p : CryptoProvider E) : result CryptoError bytes :=
  l ← bounded (dec_limits r) p;
  decrypt (mkDecrypt (dec_object r) (dec_identity_id r) (dec_encryption_public_key r)
             (dec_private_key r) l).
End provider.
End envelope.
Arguments CryptoProvider E : clear implicits.
Arguments mkCryptoProvider {E} _ _.
Arguments prov_entropy {E} _.
Arguments prov_maximum_bytes {E} _.
