(* ===== verification/EnvelopeProps.v ===== *)
(** * The identity envelope is exact and opens for its recipient

    The accepted set of headers and objects, what decryption accepts on every
    input, and that an encrypted object decrypts to its plaintext with the
    recipient's key. *)

From S2P Require Import Prelude Bytes Json Crypto Envelope.

#[local] Open Scope N_scope.

(** ** Headers and objects *)

Record header_wf (h : EnvelopeHeader) : Prop := {
  hw_id : length (recipient_id h) = 32%nat;
  hw_key : length (recipient_key h) = 32%nat;
  hw_ephemeral : length (ephemeral_key h) = 32%nat;
  hw_nonce : length (nonce h) = 24%nat;
  hw_sealed : 16 ≤ sealed_length h < u64_limit;
}.

(** The bytes of a header, and of the context it starts with. *)
Definition context_bytes (h : EnvelopeHeader) : bytes :=
  suite ++ recipient_id h ++ recipient_key h ++ ephemeral_key h ++ nonce h.
Definition header_bytes (h : EnvelopeHeader) : bytes := context_bytes h ++ to_be 8 (sealed_length h).

Lemma header_encode_ok h b : header_encode h = Ok b ↔ 16 ≤ sealed_length h ∧ b = header_bytes h.
Proof.
  unfold header_encode, header_bytes, context_bytes. rewrite <- !app_assoc.
  destruct (N.ltb_spec (sealed_length h) 16); split; intros H0; try done.
  - lia.
  - injection H0 as <-. done.
  - by destruct H0 as [_ ->].
Qed.
Lemma context_bytes_length h : header_wf h → length (context_bytes h) = 124%nat.
Proof. intros [? ? ? ? _]. unfold context_bytes. rewrite !length_app. cbn. lia. Qed.
Lemma header_bytes_length h : header_wf h → length (header_bytes h) = 132%nat.
Proof.
  intros Hw. unfold header_bytes. rewrite length_app, context_bytes_length, to_be_length by done. done.
Qed.

Lemma slice_at (a b c : bytes) n m :
  length a = n → length b = (m - n)%nat → slice n m (a ++ b ++ c) = b.
Proof. intros <- Hb. unfold slice. by rewrite drop_app_length, take_app_length'. Qed.
Lemma take_slice n m (l : bytes) : (n ≤ m)%nat → take n l ++ slice n m l = take m l.
Proof. intros H. unfold slice. by rewrite take_take_drop, Nat.add_sub_assoc, Nat.add_comm, Nat.add_sub by done. Qed.

Lemma exactly_Ok n b a : exactly n b = Ok a ↔ a = b ∧ length b = n.
Proof.
  unfold exactly. destruct (Nat.eqb_spec (length b) n); split; try done.
  - by intros [= ->].
  - by intros [-> _].
  - by intros [_ ?].
Qed.

Lemma slice_field (l a b c : bytes) n m :
  l = a ++ b ++ c → length a = n → length b = (m - n)%nat → slice n m l = b.
Proof. intros ->. apply slice_at. Qed.
Lemma header_bytes_fields h : header_wf h →
  slice 4 36 (header_bytes h) = recipient_id h ∧ slice 36 68 (header_bytes h) = recipient_key h ∧
  slice 68 100 (header_bytes h) = ephemeral_key h ∧ slice 100 124 (header_bytes h) = nonce h ∧
  slice 124 132 (header_bytes h) = to_be 8 (sealed_length h).
Proof.
  intros [Hi Hk He Hn _]. unfold header_bytes, context_bytes.
  assert (length suite = 4%nat) as Hs by done.
  split_and!; [eapply (slice_field _ suite) | eapply (slice_field _ (suite ++ recipient_id h))
    | eapply (slice_field _ (suite ++ recipient_id h ++ recipient_key h))
    | eapply (slice_field _ (suite ++ recipient_id h ++ recipient_key h ++ ephemeral_key h))
    | eapply (slice_field _ (context_bytes h) _ [])];
    unfold context_bytes; rewrite ?length_app, ?to_be_length; try lia;
    rewrite <- ?app_assoc; try reflexivity.
Qed.

Lemma bytes_header b : length b = 132%nat → take 4 b = suite →
  b = suite ++ slice 4 36 b ++ slice 36 68 b ++ slice 68 100 b ++ slice 100 124 b ++ slice 124 132 b.
Proof.
  intros Hl Hs. rewrite <- Hs, !app_assoc, !take_slice by lia.
  symmetry. apply take_ge. lia.
Qed.

Lemma header_decode_ok b h : header_decode b = Ok h ↔ header_wf h ∧ b = header_bytes h.
Proof.
  unfold header_decode. split.
  - destruct (N.eqb_spec (len b) HEADER_BYTES) as [Hl |]; [| done].
    destruct (bool_decide_reflect (take 4 b = suite)) as [Hs |]; [| done]. cbn [negb orb].
    assert (length b = 132%nat) as Hn by (unfold len, HEADER_BYTES in Hl; lia).
    cbn [sealed_length]. destruct (N.ltb_spec (from_be (slice 124 132 b)) 16); [done |].
    intros [= <-]. split.
    + split; cbn [recipient_id recipient_key ephemeral_key nonce sealed_length];
        rewrite ?slice_length by lia; try done. split; [done |].
      pose proof (from_be_bound (slice 124 132 b)) as Hb.
      rewrite (len_length _ 8%nat) in Hb by (rewrite slice_length; lia). exact Hb.
    + unfold header_bytes, context_bytes.
      cbn [recipient_id recipient_key ephemeral_key nonce sealed_length]. rewrite to_from_be_n by (rewrite slice_length; lia).
      rewrite <- !app_assoc. by apply bytes_header.
  - intros [Hw ->]. pose proof (header_bytes_length h Hw) as Hl.
    destruct (header_bytes_fields h Hw) as (Hi & Hk & He & Hn & Hz). rewrite Hi, Hk, He, Hn, Hz.
    rewrite (len_length _ _ Hl). rewrite from_to_be_small by apply Hw.
    assert (take 4 (header_bytes h) = suite) as Ht by (unfold header_bytes, context_bytes; done).
    rewrite bool_decide_true by done. cbn [N.of_nat negb orb]. change (negb _) with false. cbn [sealed_length orb].
    destruct (N.ltb_spec (sealed_length h) 16); [pose proof (hw_sealed _ Hw); lia |].
    by destruct h.
Qed.

(** A header whose object a budget admits. *)
Record admits (l : ResourceLimits) (h : EnvelopeHeader) : Prop := {
  ad_object : HEADER_BYTES + sealed_length h ≤ maximum_object_bytes l;
  ad_plaintext : sealed_length h - 16 ≤ maximum_plaintext_bytes l;
  ad_width : HEADER_BYTES + sealed_length h < u64_limit;
}.

Lemma validate_lengths_ok n l t :
  validate_lengths n l = Ok t ↔
  16 ≤ n ∧ t = HEADER_BYTES + n ∧ t < u64_limit ∧ t ≤ maximum_object_bytes l ∧
  n - 16 ≤ maximum_plaintext_bytes l.
Proof.
  unfold validate_lengths. destruct (N.ltb_spec n 16); [split; [done | lia] |].
  destruct (checked_add u64_limit n HEADER_BYTES) as [c |] eqn:Hc; unfold_m; cbn [ok_or].
  - apply checked_add_Some in Hc as [-> ?].
    destruct (N.ltb_spec (maximum_object_bytes l) (n + HEADER_BYTES)); [split; [done | lia] |].
    destruct (N.ltb_spec (maximum_plaintext_bytes l) (n - 16)); cbn [orb]; [split; [done | lia] |].
    split; [intros [= <-]; lia |]. intros (_ & -> & _). f_equal. lia.
  - apply checked_add_None in Hc. split; [done | lia].
Qed.

Lemma object_length_ok h l t : 16 ≤ sealed_length h →
  object_length h l = Ok t ↔ admits l h ∧ t = HEADER_BYTES + sealed_length h.
Proof.
  intros H. unfold object_length. rewrite validate_lengths_ok. split.
  - intros (? & -> & ? & ? & ?). done.
  - intros [[? ? ?] ->]. done.
Qed.

Lemma object_parse_ok b l p :
  object_parse b l = Ok p ↔
  header_wf (po_header p) ∧ admits l (po_header p) ∧ po_encoded p = header_bytes (po_header p) ∧
  len (po_sealed p) = sealed_length (po_header p) ∧ b = po_encoded p ++ po_sealed p.
Proof.
  unfold object_parse. change (N.to_nat HEADER_BYTES) with 132%nat. split.
  - destruct (N.ltb_spec (len b) HEADER_BYTES) as [| Hl]; [done |].
    destruct (N.ltb_spec (maximum_object_bytes l) (len b)); [done |]. intros H0. inv_ok.
    rename x into h, x0 into t, H1 into Hh, H0 into Ht, H3 into H1.
    apply header_decode_ok in Hh as [Hw Hb]. apply object_length_ok in Ht as [Ha ->]; [| apply Hw].
    destruct (N.eqb_spec (len b) (HEADER_BYTES + sealed_length h)) as [He |]; [| done].
    injection H1 as <-. cbn [po_header po_encoded po_sealed]. split_and!; try done.
    + unfold len in *. rewrite length_drop. unfold HEADER_BYTES in *. lia.
    + by rewrite take_drop.
  - intros (Hw & Ha & He & Hs & ->). rewrite He. pose proof (header_bytes_length _ Hw) as Hl.
    assert (len (header_bytes (po_header p) ++ po_sealed p) = HEADER_BYTES + sealed_length (po_header p))
      as Hn by (rewrite len_app, Hs; unfold len; rewrite Hl; done).
    rewrite Hn, <- Hl, take_app_length, drop_app_length.
    destruct (N.ltb_spec (HEADER_BYTES + sealed_length (po_header p)) HEADER_BYTES); [lia |].
    destruct (N.ltb_spec (maximum_object_bytes l) (HEADER_BYTES + sealed_length (po_header p)));
      [pose proof (ad_object _ _ Ha); lia |].
    rewrite (proj2 (header_decode_ok _ (po_header p)) (conj Hw eq_refl)). unfold_m.
    rewrite (proj2 (object_length_ok (po_header p) l _ (proj1 (hw_sealed _ Hw))) (conj Ha eq_refl)).
    rewrite N.eqb_refl. cbn [negb]. destruct p; cbn in He. by rewrite He.
Qed.

Section envelope.
Context `{CR : !Crates}.

Lemma sha256_whole b : sha256 b (len b) = Ok (sha256_digest b).
Proof.
  unfold sha256, Sha256State_update. cbn [remaining Sha256State_new]. by rewrite N.ltb_irrefl.
Qed.

(** The content key of a shared secret and a context. *)
Definition content_key (shared : Secret) (c : bytes) : option bytes :=
  hkdf_expand (hkdf_extract (sha256_digest (SALT_PREFIX ++ c)) shared) (KEY_PREFIX ++ c) 32.

Lemma context_ok h : header_wf h → context h = Ok (context_bytes h).
Proof.
  intros Hw. unfold context. rewrite (proj2 (header_encode_ok h _) (conj (proj1 (hw_sealed _ Hw)) eq_refl)).
  pose proof (context_bytes_length h Hw) as Hl. unfold header_bytes. unfold_m.
  rewrite take_app_length' by done. by apply exactly_Ok.
Qed.
Lemma derive_ok shared h : derive shared (context_bytes h) = ok_or (content_key shared (context_bytes h)) CResourceLimit.
Proof.
  assert (∀ c, take 4 c = suite → derive shared c = ok_or (content_key shared c) CResourceLimit) as H.
  { intros c Hc. unfold derive, salt. rewrite bool_decide_true by done. cbn [negb].
    rewrite sha256_whole. unfold_m. unfold extract.
    rewrite (len_length _ 32%nat) by apply sha256_digest_32. cbn [N.of_nat N.ltb N.compare].
    change (32 <? N.of_nat 32) with false. cbv iota beta. unfold expand_key, expand.
    rewrite N.ltb_irrefl. done. }
  apply H. done.
Qed.

Lemma agree_ok secret remote s : length remote = 32%nat →
  agree secret remote = Ok s ↔ s = x25519_shared secret remote ∧ x25519_contributory s = true.
Proof.
  intros H. unfold agree. rewrite (proj2 (exactly_Ok 32 remote remote) (conj eq_refl H)). unfold_m.
  destruct (x25519_contributory _) eqn:Hc; cbn [negb].
  - split; [intros [= <-]; done | by intros [-> _]].
  - split; [done | intros [-> ?]; congruence].
Qed.

Lemma staging_ok n : staging n = Ok tt ↔ try_reserve n = true.
Proof. unfold staging. by destruct (try_reserve n). Qed.

Lemma aead_open_ok key n s aad l p : length n = 24%nat → len s ≤ l → len aad ≤ l → 16 ≤ len s →
  aead_open key n s aad l = Ok p ↔
  try_reserve (len s - 16) = true ∧
  xchacha_decrypt key n aad (take (N.to_nat (len s - 16)) s) (drop (N.to_nat (len s - 16)) s) = Some p.
Proof.
  intros Hn Hs Ha H16. unfold aead_open. rewrite (proj2 (exactly_Ok 24 n n) (conj eq_refl Hn)). unfold_m.
  destruct (N.ltb_spec l (len s)); [lia |]. destruct (N.ltb_spec l (len aad)); [lia |]. cbn [orb].
  destruct (N.ltb_spec (len s) 16); [lia |]. unfold staging. destruct (try_reserve _).
  - rewrite ok_or_Ok. naive_solver.
  - naive_solver.
Qed.

Lemma open_object key h sealed l p :
  header_wf h → admits l h → len sealed = sealed_length h →
  aead_open key (nonce h) sealed (header_bytes h) (maximum_object_bytes l) = Ok p ↔
  try_reserve (sealed_length h - 16) = true ∧
  let n := N.to_nat (sealed_length h - 16) in
  xchacha_decrypt key (nonce h) (header_bytes h) (take n sealed) (drop n sealed) = Some p.
Proof.
  intros Hw [Ho _ _] Hs. unfold HEADER_BYTES in Ho. rewrite <- Hs in *.
  pose proof (hw_sealed _ Hw). apply aead_open_ok; rewrite ?(len_length _ _ (header_bytes_length _ Hw));
    [apply Hw | lia..].
Qed.

(** C22: decryption accepts exactly the complete objects addressed to the
    recipient: [decrypt] returns a plaintext precisely when the bytes are a
    canonical header, within the budgets, followed by as many sealed bytes as
    it declares; it names the local identity and its key; the agreement is
    contributory; and the authenticator opens the sealed bytes, under the key
    derived from the 124-byte context, with the whole header as associated
    data. *)
Theorem decrypt_exact r plaintext :
  decrypt r = Ok plaintext ↔
  ∃ h sealed key,
    header_wf h ∧ admits (dec_limits r) h ∧ len sealed = sealed_length h ∧
    dec_object r = header_bytes h ++ sealed ∧
    recipient_id h = dec_identity_id r ∧ recipient_key h = dec_encryption_public_key r ∧
    (let shared := x25519_shared (dec_private_key r) (ephemeral_key h) in
     x25519_contributory shared = true ∧ content_key shared (context_bytes h) = Some key) ∧
    try_reserve (sealed_length h - 16) = true ∧
    let n := N.to_nat (sealed_length h - 16) in
    xchacha_decrypt key (nonce h) (header_bytes h) (take n sealed) (drop n sealed) = Some plaintext.
Proof.
  unfold decrypt. split.
  - intros H. inv_ok. rename x into p, H0 into Hp, H1 into H. destruct p as [h enc sealed].
    apply object_parse_ok in Hp. cbn [po_header po_encoded po_sealed] in *.
    destruct Hp as (Hw & Ha & -> & Hs & Hb).
    destruct (bool_decide_reflect (recipient_id h = dec_identity_id r)); [| done].
    destruct (bool_decide_reflect (recipient_key h = dec_encryption_public_key r)); [| done].
    cbn [negb orb] in H. inv_ok. rename x into shared, H0 into Hshared.
    apply agree_ok in Hshared as [-> Hc]; [| apply Hw].
    rewrite context_ok in H by done. injection H as <-.
    rewrite derive_ok in H1. apply ok_or_Ok in H1.
    exists h, sealed, x1. apply (open_object _ _ _ _ _ Hw Ha Hs) in H3. done.
  - intros (h & sealed & key & Hw & Ha & Hs & -> & Hi & Hk & [Hc Hkey] & Hopen).
    rewrite (proj2 (object_parse_ok _ _ (mkParsed h (header_bytes h) sealed))) by done. unfold_m.
    cbn [po_header po_encoded po_sealed]. rewrite !bool_decide_true by done. cbn [negb orb].
    rewrite (proj2 (agree_ok _ _ _ (hw_ephemeral _ Hw)) (conj eq_refl Hc)), context_ok by done.
    rewrite derive_ok, Hkey. cbn [ok_or]. by apply (open_object _ _ _ _ _ Hw Ha Hs).
Qed.
(** ** Credentials *)

(** A canonical encoding of a point that is not of small order. *)
Definition canonical (k : bytes) : Prop :=
  length k = 32%nat ∧ edwards_recompressed k = Some k ∧ edwards_small_order k = false.

Lemma VerificationKey_parse_ok k a : VerificationKey_parse k = Ok a ↔ a = k ∧ canonical k.
Proof.
  unfold VerificationKey_parse, canonical, exactly. destruct (Nat.eqb_spec (length k) 32); [| naive_solver].
  unfold_m. destruct (edwards_recompressed k) as [k' |]; [| naive_solver]. cbn [ok_or].
  case_bool_decide as Hk; [subst k' | naive_solver]. destruct (edwards_small_order k); naive_solver.
Qed.

Lemma verify_ok public m s l :
  verify public m s l = Ok tt ↔
  len m ≤ l ∧ canonical public ∧ length s = 64%nat ∧ canonical (take 32 s) ∧
  ed25519_verifying_key public = true ∧ ed25519_signature s = true ∧
  ed25519_verify_strict public m s = true.
Proof.
  unfold verify. destruct (N.ltb_spec l (len m)); [split; [done | lia] |]. split.
  - intros H0. apply result_bind_Ok_inv in H0 as (k & Hk & H0). apply exactly_Ok in Hk as [-> _].
    apply result_bind_Ok_inv in H0 as (k & Hk & H0). apply VerificationKey_parse_ok in Hk as [_ Hk].
    destruct (Nat.eqb_spec (length s) 64); [cbn [negb] in H0 | done].
    apply result_bind_Ok_inv in H0 as (k' & Hk' & H0). apply VerificationKey_parse_ok in Hk' as [_ Hk'].
    destruct (ed25519_verifying_key public); [cbn [negb] in H0 | done].
    destruct (ed25519_signature s); [cbn [negb] in H0 | done].
    destruct (ed25519_verify_strict public m s); done.
  - intros (_ & Hp & Hs & Ht & Hk & Hg & Hv).
    rewrite (proj2 (exactly_Ok 32 public public)) by (split; [done | apply Hp]). unfold_m.
    rewrite (proj2 (VerificationKey_parse_ok _ _) (conj eq_refl Hp)), Hs.
    rewrite (proj2 (VerificationKey_parse_ok _ _) (conj eq_refl Ht)), Hk, Hg, Hv. done.
Qed.

Lemma credential_validate_ok c v :
  credential_validate c = Ok v ↔
  v = mkValidated (cred_identity_id c) (cred_encryption_public_key c) ∧
  cred_identity_id c = sha256_digest ([x01; x01] ++ cred_signing_public_key c) ∧
  length (cred_encryption_public_key c) = 32%nat ∧ length (cred_signing_public_key c) = 32%nat ∧
  verify (cred_signing_public_key c) (BINDING_PREFIX ++ cred_encryption_public_key c)
    (cred_binding_signature c) BINDING_BYTES = Ok tt.
Proof.
  unfold credential_validate, identity_id, binding_bytes. split.
  - intros H. apply result_bind_Ok_inv in H as (i & Hi & H). apply result_bind_Ok_inv in Hi as (k & Hk & Hi).
    apply exactly_Ok in Hk as [-> Hs]. rewrite sha256_whole in Hi. injection Hi as <-.
    case_bool_decide as Hi; [cbn [negb] in H | done].
    apply result_bind_Ok_inv in H as (b & Hb & H). apply result_bind_Ok_inv in Hb as (k & Hk & [= <-]).
    apply exactly_Ok in Hk as [-> Hl]. apply result_bind_Ok_inv in H as ([] & Hv & [= <-]). done.
  - intros (-> & Hi & Hl & Hs & Hv).
    rewrite (proj2 (exactly_Ok 32 _ _) (conj eq_refl Hs)). unfold_m.
    rewrite sha256_whole, Hi, bool_decide_true by done. cbn [negb].
    by rewrite (proj2 (exactly_Ok 32 _ _) (conj eq_refl Hl)), Hv.
Qed.

(** A recipient credential is accepted exactly when its ID is the digest
    of two one bytes and its signing key, that key and the first half of the
    signature are canonical points not of small order, and the signature
    verifies strictly over the binding prefix and the encryption key. *)
Theorem credential_exact c v :
  credential_validate c = Ok v ↔
  v = mkValidated (cred_identity_id c) (cred_encryption_public_key c) ∧
  cred_identity_id c = sha256_digest ([x01; x01] ++ cred_signing_public_key c) ∧
  length (cred_encryption_public_key c) = 32%nat ∧
  canonical (cred_signing_public_key c) ∧ length (cred_binding_signature c) = 64%nat ∧
  canonical (take 32 (cred_binding_signature c)) ∧
  ed25519_verifying_key (cred_signing_public_key c) = true ∧
  ed25519_signature (cred_binding_signature c) = true ∧
  ed25519_verify_strict (cred_signing_public_key c)
    (BINDING_PREFIX ++ cred_encryption_public_key c) (cred_binding_signature c) = true.
Proof.
  rewrite credential_validate_ok, verify_ok. unfold BINDING_BYTES. rewrite len_app. split.
  - intros (-> & Hi & Hl & _ & _ & Hv). done.
  - intros (-> & Hi & Hl & Hs & Hv). split_and!; try apply Hv; try done; [apply Hs |].
    by rewrite (len_length _ _ Hl).
Qed.

(** ** Encryption *)

Lemma lengths_for_plaintext_ok n l s t :
  lengths_for_plaintext n l = Ok (s, t) → s = n + 16 ∧ validate_lengths s l = Ok t.
Proof.
  unfold lengths_for_plaintext. intros H.
  apply result_bind_Ok_inv in H as (x & Hx & H). apply ok_or_Ok, checked_add_Some in Hx as [-> _].
  apply result_bind_Ok_inv in H as (y & Hy & [= <- <-]). done.
Qed.

Context {E : Type} `{EN : !Entropy E}.

Lemma random_bytes_length n (e : E) b e' : random_bytes n e = (Ok b, e') → length b = n.
Proof. unfold random_bytes. destruct (_ <? _); [done | apply fill_length]. Qed.

Lemma aead_seal_ok key n p aad l s : aead_seal key n p aad l = Ok s →
  ∃ c t, xchacha_encrypt key n aad p = Some (c, t) ∧ s = c ++ t.
Proof.
  unfold aead_seal. intros H.
  apply result_bind_Ok_inv in H as (x & Hx & H). apply exactly_Ok in Hx as [-> _].
  apply result_bind_Ok_inv in H as (y & _ & H). destruct (_ || _); [done |].
  apply result_bind_Ok_inv in H as (z & _ & H). apply result_bind_Ok_inv in H as ([c t] & Hc & [= <-]).
  apply ok_or_Ok in Hc. by exists c, t.
Qed.

(** What an encryption that succeeds produced. *)
Record sealed_object (r : EncryptRequest) (object : bytes) (h : EnvelopeHeader)
    (secret key c t : bytes) : Prop := {
  so_wf : header_wf h;
  so_admits : admits (enc_limits r) h;
  so_id : recipient_id h = cred_identity_id (enc_recipient r);
  so_key : recipient_key h = cred_encryption_public_key (enc_recipient r);
  so_ephemeral : ephemeral_key h = x25519_public secret;
  so_length : sealed_length h = len (enc_plaintext r) + 16;
  so_contributory : x25519_contributory (x25519_shared secret (recipient_key h)) = true;
  so_content : content_key (x25519_shared secret (recipient_key h)) (context_bytes h) = Some key;
  so_sealed : xchacha_encrypt key (nonce h) (header_bytes h) (enc_plaintext r) = Some (c, t);
  so_object : object = header_bytes h ++ c ++ t;
}.

Lemma encrypt_ok r (e : E) object e' : encrypt r e = (Ok object, e') →
  ∃ h secret key c t, sealed_object r object h secret key c t.
Proof.
  unfold encrypt. intros H.
  apply bind_Ok_inv in H as (v & e1 & Hv & H). apply lift_Ok_inv in Hv as [Hv ->].
  apply credential_validate_ok in Hv as (-> & Hi & Hk & _). cbn [val_identity_id val_encryption_public_key] in H.
  apply bind_Ok_inv in H as ([s total] & e1 & Hn & H). apply lift_Ok_inv in Hn as [Hn ->].
  apply lengths_for_plaintext_ok in Hn as [-> Ht]. apply validate_lengths_ok in Ht as (H16 & -> & ? & ? & ?).
  apply bind_Ok_inv in H as (ephemeral & e1 & He & H).
  apply bind_Ok_inv in He as (secret & e2 & _ & He). injection He as [= <- <-].
  cbn [public_key private_key] in H.
  apply bind_Ok_inv in H as (n & e3 & Hnonce & H). apply random_bytes_length in Hnonce.
  set (h := mkHeader _ _ _ _ _) in H.
  assert (header_wf h) as Hw.
  { split; try done; [cbn [h recipient_id]; rewrite Hi; apply sha256_digest_32 | apply x25519_public_32 |]. cbn [h sealed_length]. unfold HEADER_BYTES in *. lia. }
  apply bind_Ok_inv in H as (shared & e4 & Hs & H). apply lift_Ok_inv in Hs as [Hs ->].
  apply agree_ok in Hs as [-> Hc]; [| done].
  rewrite (context_ok h Hw) in H. apply bind_Ok_inv in H as (c & e4 & Hx & H). injection Hx as [= <- <-].
  rewrite derive_ok in H. apply bind_Ok_inv in H as (key & e4 & Hkey & H).
  apply lift_Ok_inv in Hkey as [Hkey ->]. apply ok_or_Ok in Hkey.
  apply bind_Ok_inv in H as (encoded & e4 & Henc & H). apply lift_Ok_inv in Henc as [Henc ->].
  apply header_encode_ok in Henc as [_ ->].
  apply bind_Ok_inv in H as (sealed & e4 & Hseal & H). apply lift_Ok_inv in Hseal as [Hseal ->].
  apply aead_seal_ok in Hseal as (ct & t & Hct & ->).
  apply bind_Ok_inv in H as (? & e4 & _ & H). injection H as [= <- <-].
  exists h, secret, key, ct, t. by split.
Qed.

Lemma with_entropy_inv {A} (m : M E CryptoError A) p r p' :
  with_entropy m p = (r, p') → ∃ e', m (prov_entropy p) = (r, e') ∧ p' = mkCryptoProvider e' (prov_maximum_bytes p).
Proof. unfold with_entropy. destruct (m _) as [r' e']. intros [= -> <-]. by exists e'. Qed.

(** Encryption checks before it draws: when the recipient's credential is
    not valid, or the plaintext does not fit the caller's budgets or the
    provider's, or the provider's ceiling leaves no budget at all, the request
    is refused and the entropy is untouched. *)
Theorem encrypt_refuses_first r (p : CryptoProvider E) :
  (∀ l v t, bounded (enc_limits r) p = Ok l → credential_validate (enc_recipient r) = Ok v →
     lengths_for_plaintext (len (enc_plaintext r)) l ≠ Ok t) →
  ∃ err, provider_encrypt r p = (Err err, p).
Proof.
  unfold provider_encrypt. intros H. destruct (bounded _ p) as [l | err]; [| by exists err].
  destruct p as [e m]. unfold with_entropy, encrypt. cbn [enc_recipient enc_plaintext enc_limits prov_entropy prov_maximum_bytes].
  unfold_m. destruct (credential_validate _) as [v | err]; [| by exists err].
  destruct (lengths_for_plaintext _ l) as [t | err] eqn:Ht; [| by exists err].
  by destruct (H l v t).
Qed.

Lemma sealed_length_of r object h secret key c t :
  sealed_object r object h secret key c t →
  len (c ++ t) = sealed_length h ∧ len object = MINIMUM_OBJECT_BYTES + len (enc_plaintext r) ∧
  N.to_nat (sealed_length h - 16) = length c.
Proof.
  intros S. pose proof (so_length _ _ _ _ _ _ _ S) as Hl.
  destruct (xchacha_encrypt_length _ _ _ _ _ _ (so_sealed _ _ _ _ _ _ _ S)) as [Hc Ht].
  pose proof (header_bytes_length _ (so_wf _ _ _ _ _ _ _ S)) as Hh.
  rewrite (so_object _ _ _ _ _ _ _ S), !len_app, Hl. unfold len, MINIMUM_OBJECT_BYTES. lia.
Qed.
End envelope.

(** ** Opening what was sealed *)

(** What the crates document of their algorithms: agreement commutes and an
    honest key contributes; a unit opens under the key, nonce and data it was
    sealed with, and the empty unit can be sealed; expansion serves up to 255
    blocks; and a signature is accepted under its public key. *)
Class CratesLaws `(CR : !Crates) : Prop := {
  x25519_commutes a b : x25519_shared a (x25519_public b) = x25519_shared b (x25519_public a);
  x25519_honest a b : x25519_contributory (x25519_shared a (x25519_public b)) = true;
  xchacha_opens k n a p c t : xchacha_encrypt k n a p = Some (c, t) → xchacha_decrypt k n a c t = Some p;
  xchacha_empty k n a : is_Some (xchacha_encrypt k n a []);
  hkdf_expands k i n : N.of_nat n ≤ 255 * 32 → is_Some (hkdf_expand k i n);
  ed25519_accepts k m : length k = 32%nat →
    canonical (ed25519_public k) ∧ canonical (take 32 (ed25519_sign k m)) ∧
    ed25519_verifying_key (ed25519_public k) = true ∧ ed25519_signature (ed25519_sign k m) = true ∧
    ed25519_verify_strict (ed25519_public k) m (ed25519_sign k m) = true;
}.

Section laws.
Context `{CR : !Crates} `{CL : !CratesLaws CR} {E : Type} `{EN : !Entropy E}.

(** C21: an object encrypted for a recipient opens for that recipient: whatever
    the provider, its entropy and its limits, when [encrypt] returns an object
    it is 148 bytes longer than the plaintext, and [decrypt] of any provider
    returns the plaintext, given the recipient's ID and private key, under
    limits that admit the object and with memory for the plaintext. *)
Theorem envelope_roundtrip r p object p' secret limits l (q : CryptoProvider E) :
  provider_encrypt (E := E) r p = (Ok object, p') →
  cred_encryption_public_key (enc_recipient r) = x25519_public secret →
  bounded limits q = Ok l →
  len object ≤ maximum_object_bytes l → len (enc_plaintext r) ≤ maximum_plaintext_bytes l →
  try_reserve (len (enc_plaintext r)) = true →
  len object = MINIMUM_OBJECT_BYTES + len (enc_plaintext r) ∧
  provider_decrypt (mkDecrypt object (cred_identity_id (enc_recipient r)) (x25519_public secret) secret limits) q
    = Ok (enc_plaintext r).
Proof using Type*.
  unfold provider_encrypt, provider_decrypt. intros He Hpub Hq Ho Hp Hres. cbn [dec_limits]. rewrite Hq.
  destruct (bounded (enc_limits r) p) as [le |]; [| done].
  apply with_entropy_inv in He as (e' & He & _). apply encrypt_ok in He as (h & s & key & c & t & S).
  destruct (sealed_length_of _ _ _ _ _ _ _ S) as (Hs & Hl & Hn). destruct S; cbn in *.
  assert (len (enc_plaintext r) = sealed_length h - 16) as Hpl by lia.
  split; [done |]. apply decrypt_exact. exists h, (c ++ t), key. cbv zeta.
  cbn [dec_object dec_identity_id dec_encryption_public_key dec_private_key dec_limits].
  rewrite Hn, take_app_length, drop_app_length, so_ephemeral0, x25519_commutes, <- Hpub, <- so_key0, <- Hpl.
  split_and!; try done; [| by apply xchacha_opens].
  assert (len object = HEADER_BYTES + sealed_length h) as Hol by (rewrite Hl; unfold HEADER_BYTES, MINIMUM_OBJECT_BYTES; lia).
  split; [by rewrite <- Hol | lia | apply so_admits0].
Qed.
End laws.

(** ** A concrete instance

    Crates that satisfy the laws, with a counter for entropy. *)
Module Demo.
Definition pad (n : nat) (b : bytes) : bytes := take n (b ++ repeat x00 n).
Lemma pad_length n b : length (pad n b) = n.
Proof. unfold pad. rewrite length_take, length_app, repeat_length. lia. Qed.
Lemma pad_pad n b : pad n (pad n b) = pad n b.
Proof. unfold pad at 1. apply take_app_length'. symmetry. apply pad_length. Qed.

Definition mix (a b : bytes) : bytes := zip_with (λ x y, N2b (b2N x + b2N y)) (pad 32 a) (pad 32 b).
Lemma zip_with_comm {A} (f : byte → byte → A) l k :
  (∀ x y, f x y = f y x) → zip_with f l k = zip_with f k l.
Proof. intros Hf. revert k. induction l as [| x l IH]; intros [| y k]; cbn; try done. by rewrite Hf, IH. Qed.
Lemma mix_comm a b : mix a (pad 32 b) = mix b (pad 32 a).
Proof. unfold mix. rewrite !pad_pad. apply zip_with_comm. intros x y. by rewrite N.add_comm. Qed.

#[refine, local] Instance crates : Crates := {
  sha256_digest := pad 32;
  hkdf_extract := mix;
  hkdf_expand k i n := Some (pad n k);
  x25519_public := pad 32;
  x25519_shared a b := mix a b;
  x25519_contributory s := negb (is_empty s);
  ed25519_public := pad 32;
  ed25519_sign s m := pad 32 s ++ pad 32 m;
  ed25519_verifying_key k := true;
  ed25519_signature s := true;
  ed25519_verify_strict k m s := bool_decide (s = pad 32 k ++ pad 32 m);
  edwards_recompressed := Some;
  edwards_small_order k := false;
  xchacha_encrypt k n a p := Some (p, pad 16 k);
  xchacha_decrypt k n a c t := if bool_decide (t = pad 16 k) then Some c else None;
  try_reserve n := n <? 65536;
}.
Proof.
  all: intros; simplify_eq; rewrite ?length_app, ?pad_length; auto using pad_length.
Defined.
#[local] Instance crates_laws : CratesLaws crates.
Proof.
  split.
  - intros a b. apply mix_comm.
  - intros a b. cbn. assert (length (mix a (pad 32 b)) = 32%nat) as Hl.
    { unfold mix. rewrite length_zip_with, !pad_length. done. }
    by destruct (mix a (pad 32 b)).
  - intros k n a p c t [= <- <-]. cbn. by rewrite bool_decide_true.
  - intros k n a. by eexists.
  - intros k i n _. by eexists.
  - intros k m _. assert (∀ l, canonical (pad 32 l)) as Hc by (intros l; split; [apply pad_length | done]).
    split_and!; try done; [apply Hc | | ].
    2:{ apply bool_decide_eq_true. change (pad 32 k ++ pad 32 m = pad 32 (pad 32 k) ++ pad 32 m). by rewrite pad_pad. }
    cbn [ed25519_sign crates]. rewrite take_app_length' by (by rewrite pad_length). apply Hc.
Qed.

#[refine, local] Instance entropy : Entropy N := {
  fill n e := (Ok (repeat (N2b (e + 1)) n), e + 1);
}.
Proof. intros n e b e' [= <- <-]. apply repeat_length. Defined.

Definition secret : bytes := repeat x07 32.
Definition signing : bytes := repeat x05 32.
Definition recipient : RecipientCredential :=
  mkCredential (sha256_digest ([x01; x01] ++ signing)) signing (x25519_public secret)
    (ed25519_sign signing (BINDING_PREFIX ++ x25519_public secret)).
Definition limits : ResourceLimits := mkResourceLimits 1024 1172.
Definition provider : CryptoProvider N := mkCryptoProvider 0 4096.
Definition request : EncryptRequest := mkEncrypt (lit "hello") recipient limits.
Definition object : bytes :=
  match (provider_encrypt request provider).1 with Ok o => o | Err _ => [] end.

Example object_opens :
  provider_decrypt (mkDecrypt object (cred_identity_id recipient) (x25519_public secret) secret limits) provider
  = Ok (lit "hello").
Proof. vm_compute. reflexivity. Qed.

Lemma envelope_roundtrip_witness :
  len object = MINIMUM_OBJECT_BYTES + 5 ∧
  provider_decrypt (mkDecrypt object (cred_identity_id recipient) (x25519_public secret) secret limits) provider
  = Ok (lit "hello").
Proof.
  apply (envelope_roundtrip request provider object (mkCryptoProvider 2 4096) secret limits
           limits provider); vm_compute; done.
Defined.

(** A credential with a changed ID is refused without drawing entropy. *)
Definition forged : EncryptRequest :=
  mkEncrypt (lit "hello") (mkCredential (repeat x00 32) signing (x25519_public secret) []) limits.
Lemma encrypt_refuses_first_witness : ∃ err, provider_encrypt forged provider = (Err err, provider).
Proof. apply encrypt_refuses_first. intros l v t _ H. vm_compute in H. discriminate H. Defined.
End Demo.
