(* ===== verification/Keys.v ===== *)
(** * Identity keys and their protected record

    [src/modules/cryptography/identity_keys.rs] and
    [src/modules/identity/{config,crypto,record}.rs]: the two independent key
    pairs of an identity, the limits of the Identity module, and the fixed
    232-byte record that keeps both private inputs with their public
    association.  A record decodes exactly to the key pairs it encodes, with
    every cached public field checked against them. *)

From S2P Require Import Prelude Bytes Json IdentityText Crypto Envelope EnvelopeProps.

#[local] Open Scope N_scope.

(** ** Limits: [config.rs] *)

Record Limits : Type := mkLimits {
  lim_text_bytes : N;
  lim_contacts : N;
  lim_signing_bytes : N;
  lim_envelope_bytes : N;
  lim_record_bytes : N;
}.

Definition Limits_new (text contacts signing envelope record : N) : result IdentityError Limits :=
  if (text <? 58) || (contacts =? 0) || (signing =? 0) || (envelope <? 148) || (record =? 0)
  then Err IdInvalidInput
  else Ok (mkLimits text contacts signing envelope record).

(** ** Errors of the cryptographic boundary: [crypto.rs] *)

(** [From<CryptoError> for IdentityError]: the [?] operator applies it. *)
Definition from_crypto (e : CryptoError) : IdentityError :=
  match e with
  | CInvalidInput => IdInvalidInput
  | CAuthenticationFailed => IdInvalidProof
  | CAccessDenied => IdAccessDenied
  | CUnavailable => IdUnavailable
  | CResourceLimit => IdResourceLimit
  end.
Definition into {A} (r : result CryptoError A) : result IdentityError A := map_err from_crypto r.

(** ** Key pairs: [identity_keys.rs] *)

Record IdentityKeys : Type := mkKeys { ik_signing : Secret; ik_encryption : Secret }.

(** [ProtectedKeySink]. *)
Class ProtectedKeySink (K : Type) : Type := {
  sink_authorize : K → result CryptoError unit;
  store_pair : Secret → Secret → M K CryptoError unit;
}.

Section keys.
Context `{CR : !Crates}.

Definition keys_generate {E} `{!Entropy E} : M E CryptoError IdentityKeys :=
  signing ← signing_key;
  encryption ← agreement_key;
  mret (mkKeys (private_key signing) (private_key encryption)).

Definition keys_import (signing encryption : bytes) : result CryptoError IdentityKeys :=
  if negb (len signing =? 32) || negb (len encryption =? 32) then Err CInvalidInput
  else Ok (mkKeys signing encryption).

Definition keys_credential (k : IdentityKeys) : result CryptoError RecipientCredential :=
  let signing_public_key := ed25519_public (ik_signing k) in
  let encryption_public_key := x25519_public (ik_encryption k) in
  id ← identity_id signing_public_key;
  binding ← bind (ik_signing k) encryption_public_key;
  Ok (mkCredential id signing_public_key encryption_public_key binding).

Definition keys_store {K} `{!ProtectedKeySink K} (k : IdentityKeys) : M K CryptoError unit :=
  query sink_authorize;;
  store_pair (ik_signing k) (ik_encryption k).

(** ** The protected record: [record.rs] *)

Definition MAGIC : bytes := lit "TSID0001".
Definition RECORD_BYTES : N := 232.

(** A [CredentialRecord] is its guarded bytes. *)
Record CredentialRecord : Type := mkRecord { protected_bytes : bytes }.

Definition from_protected_bytes (b : bytes) (limits : Limits) : result IdentityError CredentialRecord :=
  if lim_record_bytes limits <? len b then Err IdResourceLimit else
  if negb (len b =? RECORD_BYTES) then Err IdInvalidInput else
  if negb (bool_decide (take 8 b = MAGIC)) then Err IdUnsupported else
  Ok (mkRecord b).

(** [RecordSink]. *)
#[global] Instance record_sink : ProtectedKeySink bytes := {
  sink_authorize _ := Ok tt;
  store_pair signing encryption := modify (λ b, b ++ signing ++ encryption);
}.

Definition record_encode (k : IdentityKeys) (limits : Limits) : result IdentityError CredentialRecord :=
  if lim_record_bytes limits <? RECORD_BYTES then Err IdResourceLimit else
  public ← into (keys_credential k);
  let '(r, sink) := keys_store k MAGIC in
  _ ← into r;
  from_protected_bytes
    (sink ++ cred_identity_id public ++ cred_signing_public_key public
     ++ cred_encryption_public_key public ++ cred_binding_signature public) limits.

Definition record_decode (r : CredentialRecord) : result IdentityError IdentityKeys :=
  let b := protected_bytes r in
  keys ← into (keys_import (slice 8 40 b) (slice 40 72 b));
  public ← into (keys_credential keys);
  if negb (bool_decide (slice 72 104 b = cred_identity_id public))
     || negb (bool_decide (slice 104 136 b = cred_signing_public_key public))
     || negb (bool_decide (slice 136 168 b = cred_encryption_public_key public))
     || negb (bool_decide (slice 168 232 b = cred_binding_signature public))
  then Err IdMismatch else Ok keys.
Definition record_len (r : CredentialRecord) : N := len (protected_bytes r).
End keys.

(** ** The protected record determines its identity *)


Section keys.
Context `{CR : !Crates}.

(** The two private inputs are 32 bytes wide. *)
Definition keys_wf (k : IdentityKeys) : Prop :=
  length (ik_signing k) = 32%nat ∧ length (ik_encryption k) = 32%nat.

(** The credential of a pair of keys. *)
Definition credential_of (k : IdentityKeys) : RecipientCredential :=
  let signing := ed25519_public (ik_signing k) in
  let encryption := x25519_public (ik_encryption k) in
  mkCredential (sha256_digest ([x01; x01] ++ signing)) signing encryption
    (ed25519_sign (ik_signing k) (BINDING_PREFIX ++ encryption)).

Lemma keys_credential_ok k : keys_credential k = Ok (credential_of k).
Proof.
  unfold keys_credential, identity_id, bind, binding_bytes, sign.
  rewrite (proj2 (exactly_Ok 32 _ _) (conj eq_refl (ed25519_public_32 (ik_signing k)))),
    (proj2 (exactly_Ok 32 _ _) (conj eq_refl (x25519_public_32 (ik_encryption k)))).
  unfold_m. rewrite sha256_whole. unfold BINDING_BYTES.
  rewrite len_app, (len_length _ _ (x25519_public_32 _)), N.ltb_irrefl. done.
Qed.

Lemma credential_of_lengths k :
  length (cred_identity_id (credential_of k)) = 32%nat ∧
  length (cred_signing_public_key (credential_of k)) = 32%nat ∧
  length (cred_encryption_public_key (credential_of k)) = 32%nat ∧
  length (cred_binding_signature (credential_of k)) = 64%nat.
Proof.
  repeat split; [apply sha256_digest_32 | apply ed25519_public_32 | apply x25519_public_32 | apply ed25519_sign_64].
Qed.

(** The bytes of a record. *)
Definition record_bytes (k : IdentityKeys) : bytes :=
  let c := credential_of k in
  MAGIC ++ ik_signing k ++ ik_encryption k ++ cred_identity_id c ++ cred_signing_public_key c
  ++ cred_encryption_public_key c ++ cred_binding_signature c.

Lemma record_bytes_length k : keys_wf k → length (record_bytes k) = 232%nat.
Proof.
  intros [Hs He]. destruct (credential_of_lengths k) as (Hi & Hp & Hx & Hb).
  unfold record_bytes. cbv zeta. rewrite !length_app, Hs, He, Hi, Hp, Hx, Hb. done.
Qed.

Lemma record_bytes_fields k : keys_wf k →
  let b := record_bytes k in let c := credential_of k in
  slice 8 40 b = ik_signing k ∧ slice 40 72 b = ik_encryption k ∧
  slice 72 104 b = cred_identity_id c ∧ slice 104 136 b = cred_signing_public_key c ∧
  slice 136 168 b = cred_encryption_public_key c ∧ slice 168 232 b = cred_binding_signature c.
Proof.
  intros [Hs He]. cbv zeta. unfold record_bytes. cbv zeta.
  destruct (credential_of_lengths k) as (Hi & Hp & Hx & Hb). assert (length MAGIC = 8%nat) as Hm by done.
  set (c := credential_of k) in *. clearbody c. generalize dependent MAGIC. intros m Hm.
  split_and!; [eapply (slice_field _ m) | eapply (slice_field _ (m ++ ik_signing k))
    | eapply (slice_field _ (m ++ ik_signing k ++ ik_encryption k))
    | eapply (slice_field _ (m ++ ik_signing k ++ ik_encryption k ++ cred_identity_id c))
    | eapply (slice_field _ (m ++ ik_signing k ++ ik_encryption k ++ cred_identity_id c ++ cred_signing_public_key c))
    | eapply (slice_field _ (m ++ ik_signing k ++ ik_encryption k ++ cred_identity_id c ++ cred_signing_public_key c
        ++ cred_encryption_public_key c) _ [])];
    rewrite ?length_app; try lia; rewrite <- ?app_assoc; first [reflexivity | by rewrite app_nil_r].
Qed.

Lemma from_protected_bytes_ok b l r :
  from_protected_bytes b l = Ok r ↔
  r = mkRecord b ∧ length b = 232%nat ∧ take 8 b = MAGIC ∧ 232 ≤ lim_record_bytes l.
Proof.
  unfold from_protected_bytes, RECORD_BYTES, len.
  destruct (N.ltb_spec (lim_record_bytes l) (N.of_nat (length b))); [split; [done | lia] |].
  destruct (N.eqb_spec (N.of_nat (length b)) 232); cbn [negb]; [| split; [done | lia]].
  case_bool_decide; cbn [negb]; [| naive_solver].
  split; [intros [= <-]; split_and!; [done | lia | done | lia] | by intros (-> & _)].
Qed.

Lemma record_encode_ok k l r : keys_wf k →
  record_encode k l = Ok r ↔ r = mkRecord (record_bytes k) ∧ 232 ≤ lim_record_bytes l.
Proof.
  intros Hw. unfold record_encode, RECORD_BYTES. destruct (N.ltb_spec (lim_record_bytes l) 232); [split; [done | lia] |].
  rewrite keys_credential_ok. unfold keys_store, into. unfold_m. cbn [map_err sink_authorize store_pair record_sink].
  unfold modify. cbn [map_err]. rewrite from_protected_bytes_ok. unfold record_bytes. cbv zeta. rewrite <- !app_assoc.
  pose proof (record_bytes_length k Hw) as Hl. unfold record_bytes in Hl. split; [naive_solver |].
  intros [-> ?]. split_and!; try done.
Qed.

Lemma record_decode_ok b k : length b = 232%nat → take 8 b = MAGIC →
  record_decode (mkRecord b) = Ok k ↔ keys_wf k ∧ b = record_bytes k.
Proof.
  intros Hl Hm. unfold record_decode, keys_import, into. cbn [protected_bytes].
  assert (len (slice 8 40 b) = 32 ∧ len (slice 40 72 b) = 32) as [-> ->]
    by (unfold len; rewrite !slice_length by lia; done).
  cbn [negb orb]. unfold_m. change (32 =? 32) with true. cbn [negb orb map_err]. rewrite keys_credential_ok. cbn [map_err].
  set (k' := mkKeys (slice 8 40 b) (slice 40 72 b)). destruct (credential_of_lengths k') as (? & ? & ? & ?).
  assert (keys_wf k') as Hw by (split; cbn [k' ik_signing ik_encryption]; rewrite slice_length; lia).
  split.
  - intros Hd. case_bool_decide as Hi; [| done]. case_bool_decide as Hp; [| done].
    case_bool_decide as Hx; [| done]. case_bool_decide as Hb; [| done]. injection Hd as <-. split; [done |].
    unfold record_bytes. cbv zeta. rewrite <- Hi, <- Hp, <- Hx, <- Hb, <- Hm. cbn [k' ik_signing ik_encryption].
    rewrite !app_assoc, !take_slice by lia. symmetry. apply take_ge. lia.
  - intros [Hk Hb]. destruct (record_bytes_fields k Hk) as (Hf1 & Hf2 & Hf3 & Hf4 & Hf5 & Hf6).
    assert (k' = k) as -> by (unfold k'; rewrite Hb, Hf1, Hf2; by destruct k).
    rewrite Hb, !bool_decide_true by done. done.
Qed.

(** A protected record opens exactly to what it was made from: bytes that
    pass the record's checks decode to key pairs when, and only when, these
    are 32 bytes each and the bytes are the encoding of those pairs with their
    identity, public keys and binding. *)
Theorem credential_record_exact b l k :
  from_protected_bytes b l ≫= record_decode = Ok k ↔
  keys_wf k ∧ record_encode k l = Ok (mkRecord b).
Proof.
  split.
  - intros H. apply result_bind_Ok_inv in H as (r & Hr & Hd).
    apply from_protected_bytes_ok in Hr as (-> & Hl & Hm & ?).
    apply record_decode_ok in Hd as [Hw ->]; [| done..]. split; [done |]. by apply record_encode_ok.
  - intros [Hw H]. apply record_encode_ok in H as [[= ->] Hb]; [| done].
    rewrite (proj2 (from_protected_bytes_ok _ l _)
      (conj eq_refl (conj (record_bytes_length k Hw) (conj eq_refl Hb)))).
    apply record_decode_ok; [by apply record_bytes_length | done | done].
Qed.
End keys.
