(* ===== verification/Contacts.v ===== *)
(** * The contact book

    [src/modules/identity/contacts.rs]: configured contacts by identity, behind
    the authority of the book that issued it.  The theorem: the book is a map
    that changes exactly by what an authorised call within the limits says. *)

From S2P Require Import Prelude Bytes Json Api IdentityText AddressText Contact Arcs Keys.

#[local] Open Scope N_scope.

(** [ContactAccess]: a strong reference to the book's own cell. *)
Abbreviation ContactAccess := N (only parsing).
Abbreviation Tokens := (Arcs unit) (only parsing).

Record ContactBook : Type := mkContactBook {
  cb_access : N;
  cb_limits : Limits;
  cb_entries : gmap IdentityId Contact;
}.

(** [ContactBook::new]. *)
Definition ContactBook_new (limits : Limits) (h : Tokens) : ContactBook * ContactAccess * Tokens :=
  let '(access, h) := arc_new tt h in
  let h := arc_clone access h in
  (mkContactBook access limits ∅, access, h).

Definition book_authorize (b : ContactBook) (authority : ContactAccess) : result IdentityError unit :=
  if negb (cb_access b =? authority) then Err IdAccessDenied else Ok tt.
Definition book_validate (b : ContactBook) (contact : Contact) : result IdentityError unit :=
  text ← format contact;
  if lim_text_bytes (cb_limits b) <? len text then Err IdResourceLimit else Ok tt.

Definition snapshot (b : ContactBook) (authority : ContactAccess) : result IdentityError (list Contact) :=
  _ ← book_authorize b authority;
  Ok (entries (cb_entries b)).*2.

(** The loop that builds the next map. *)
Fixpoint build_entries (b : ContactBook) (next : gmap IdentityId Contact) (contacts : list Contact)
    : result IdentityError (gmap IdentityId Contact) :=
  match contacts with
  | [] => Ok next
  | contact :: contacts =>
    _ ← book_validate b contact;
    match next !! expected_id contact with
    | Some _ => Err IdConflict
    | None => build_entries b (<[expected_id contact := contact]> next) contacts
    end
  end.
Definition set_entries (next : gmap IdentityId Contact) (b : ContactBook) : ContactBook :=
  mkContactBook (cb_access b) (cb_limits b) next.

Definition replace (authority : ContactAccess) (contacts : list Contact) : M ContactBook IdentityError unit :=
  query (λ b, book_authorize b authority);;
  query (λ b, if lim_contacts (cb_limits b) <? len contacts then Err IdResourceLimit else Ok tt);;
  next ← query (λ b, build_entries b ∅ contacts);
  modify (set_entries next).

(** The contact store port of the book. *)
Definition get (b : ContactBook) (authority : ContactAccess) (id : IdentityId)
    : result IdentityError (option Contact) :=
  _ ← book_authorize b authority;
  Ok (cb_entries b !! id).
Definition put (authority : ContactAccess) (contact : Contact) : M ContactBook IdentityError unit :=
  query (λ b, book_authorize b authority);;
  query (λ b, book_validate b contact);;
  query (λ b,
    if bool_decide (cb_entries b !! expected_id contact = None)
       && (lim_contacts (cb_limits b) <=? N.of_nat (size (cb_entries b)))
    then Err IdResourceLimit else Ok tt);;
  modify (λ b, set_entries (<[expected_id contact := contact]> (cb_entries b)) b).

(** ** The order of identities *)

#[global] Instance bytes_le_total : Total bytes_le.
Proof.
  intros l. induction l as [| a l IH]; intros k; [by left |]. destruct k as [| b k]; [by right |].
  unfold bytes_le. cbn [bytes_leb]. destruct (N.ltb_spec (b2N a) (b2N b)); [by left |].
  destruct (N.ltb_spec (b2N b) (b2N a)); [by right |].
  assert (b2N a = b2N b) as E by lia. rewrite E, N.eqb_refl. apply IH.
Qed.

(** ** What a book holds *)

(** The contact can be printed within the book's text bound. *)
Definition fits (l : Limits) (c : Contact) : Prop := ∃ t, format c = Ok t ∧ len t ≤ lim_text_bytes l.
Record book_ok (b : ContactBook) : Prop := {
  bo_entry : ∀ id c, cb_entries b !! id = Some c → expected_id c = id ∧ fits (cb_limits b) c;
  bo_size : N.of_nat (size (cb_entries b)) ≤ lim_contacts (cb_limits b);
}.
Definition by_id (cs : list Contact) : gmap IdentityId Contact := list_to_map ((λ c, (expected_id c, c)) <$> cs).

Lemma validate_ok b c u : book_validate b c = Ok u ↔ fits (cb_limits b) c.
Proof.
  unfold book_validate, fits. destruct u, (format c) as [t | e]; cbn [mbind result_bind].
  - destruct (N.ltb_spec (lim_text_bytes (cb_limits b)) (len t)); split; try done.
    + intros (t' & [= <-] & Hl). lia.
    + intros _. by exists t.
  - split; [done | by intros (t & [=] & _)].
Qed.
Lemma authorize_ok b a u : book_authorize b a = Ok u ↔ a = cb_access b.
Proof. unfold book_authorize. destruct u, (N.eqb_spec (cb_access b) a); by split. Qed.
Lemma authorize_err b a : a ≠ cb_access b → book_authorize b a = Err IdAccessDenied.
Proof. intros Ha. unfold book_authorize. by rewrite (proj2 (N.eqb_neq _ _)) by done. Qed.

Lemma by_id_None cs id : id ∉ expected_id <$> cs → by_id cs !! id = None.
Proof. intros H. apply not_elem_of_list_to_map_1. by rewrite <- list_fmap_compose. Qed.
Lemma by_id_Some cs id c : NoDup (expected_id <$> cs) → by_id cs !! id = Some c ↔ c ∈ cs ∧ expected_id c = id.
Proof.
  intros Hn. unfold by_id. rewrite <- elem_of_list_to_map by by rewrite <- list_fmap_compose.
  rewrite list_elem_of_fmap. split; [by intros (c' & [= -> ->] & H) |]. intros [H <-]. by exists c.
Qed.
Lemma by_id_size cs : NoDup (expected_id <$> cs) → size (by_id cs) = length cs.
Proof.
  intros Hn. unfold by_id. rewrite <- length_map_to_list, map_to_list_to_map by by rewrite <- list_fmap_compose.
  apply length_fmap.
Qed.

Lemma build_entries_ok b next cs m : build_entries b next cs = Ok m ↔
  Forall (fits (cb_limits b)) cs ∧ NoDup (expected_id <$> cs) ∧
  (∀ c, c ∈ cs → next !! expected_id c = None) ∧ m = by_id cs ∪ next.
Proof.
  revert next. induction cs as [| c cs IH]; intros next; cbn [build_entries fmap list_fmap].
  - unfold by_id. cbn. rewrite map_empty_union. split; [intros [= <-]; split_and!; [constructor.. | set_solver | done] | by intros (_ & _ & _ & ->)].
  - rewrite Forall_cons, NoDup_cons. destruct (book_validate b c) as [u | e] eqn:Ev; cbn [mbind result_bind].
    2: { split; [done |]. intros ([H%(validate_ok b c tt) _] & _). congruence. }
    apply validate_ok in Ev. destruct (next !! expected_id c) as [x |] eqn:En.
    { split; [done |]. intros (_ & _ & H & _). rewrite H in En; [done | by left]. }
    rewrite IH. clear IH. split.
    + intros (Hf & Hn & Hno & ->). assert (expected_id c ∉ expected_id <$> cs) as Hc.
      { rewrite list_elem_of_fmap. intros (d & E & Hd). specialize (Hno d Hd). by rewrite <- E, lookup_insert_eq in Hno. }
      split_and!; [done.. | |].
      * intros d [-> | Hd]%elem_of_cons; [done |]. specialize (Hno d Hd).
        by apply lookup_insert_None in Hno as [? _].
      * unfold by_id. cbn. fold (by_id cs). by rewrite <- insert_union_r, insert_union_l by by apply by_id_None.
    + intros ([_ Hf] & [Hc Hn] & Hno & ->). split_and!; [done.. | |].
      * intros d Hd. rewrite lookup_insert_ne; [apply Hno; by right |]. intros E. apply Hc. rewrite E. by apply list_elem_of_fmap_2.
      * unfold by_id. cbn. fold (by_id cs). by rewrite <- insert_union_r, insert_union_l by by apply by_id_None.
Qed.

Lemma snapshot_spec b : book_ok b → let l := (entries (cb_entries b)).*2 in
  expected_id <$> l = keys bytes_le (cb_entries b) ∧ (∀ c, c ∈ l ↔ cb_entries b !! expected_id c = Some c) ∧
  by_id l = cb_entries b.
Proof.
  intros [He _] l. assert (∀ p, p ∈ entries (cb_entries b) → expected_id p.2 = p.1) as Hp.
  { intros [id c] Hin. by apply entries_elem, He in Hin as [? _]. }
  assert (∀ ps : list (IdentityId * Contact), (∀ p, p ∈ ps → expected_id p.2 = p.1) →
    (λ c, (expected_id c, c)) <$> ps.*2 = ps) as Hpairs.
  { intros ps. induction ps as [| [i c] ps IH]; intros H; [done |]. cbn. f_equal.
    - f_equal. apply (H (i, c)). by left.
    - apply IH. intros p Hin. apply H. by right. }
  specialize (Hpairs _ Hp). split_and!.
  - rewrite <- entries_keys. rewrite <- Hpairs. by rewrite <- list_fmap_compose.
  - intros c. unfold l. rewrite list_elem_of_fmap. split.
    + intros ([id d] & -> & Hin). cbn. apply entries_elem in Hin as Hd. pose proof (Hp _ Hin) as E. cbn in E. by rewrite E.
    + intros Hc. exists (expected_id c, c). split; [done |]. by apply entries_elem.
  - unfold by_id, l. by rewrite Hpairs, entries_map.
Qed.

(** ** The calls *)

Lemma replace_run a cs b : a = cb_access b →
  match replace a cs b with
  | (Ok _, b') => len cs ≤ lim_contacts (cb_limits b) ∧ Forall (fits (cb_limits b)) cs ∧
      NoDup (expected_id <$> cs) ∧ b' = set_entries (by_id cs) b
  | (Err e, b') => b' = b ∧
      (lim_contacts (cb_limits b) < len cs ∨ ¬ Forall (fits (cb_limits b)) cs ∨ ¬ NoDup (expected_id <$> cs))
  end.
Proof.
  intros Ha. unfold replace, query, modify, mbind, M_bind. rewrite (proj2 (authorize_ok b a tt) Ha).
  destruct (N.ltb_spec (lim_contacts (cb_limits b)) (len cs)) as [| Hl]; [split; [done | by left] |].
  destruct (build_entries b ∅ cs) as [m | e] eqn:E.
  - apply build_entries_ok in E as (Hf & Hn & _ & ->). rewrite map_union_empty. done.
  - split; [done |]. right. destruct (decide (NoDup (expected_id <$> cs))) as [Hn |]; [left | by right].
    intros Hf. assert (build_entries b ∅ cs = Ok (by_id cs ∪ ∅)); [| congruence].
    apply build_entries_ok. by split_and!.
Qed.
Lemma put_run a c b : a = cb_access b →
  match put a c b with
  | (Ok _, b') => fits (cb_limits b) c ∧
      (is_Some (cb_entries b !! expected_id c) ∨ N.of_nat (size (cb_entries b)) < lim_contacts (cb_limits b)) ∧
      b' = set_entries (<[expected_id c := c]> (cb_entries b)) b
  | (Err e, b') => b' = b ∧
      (¬ fits (cb_limits b) c ∨
       cb_entries b !! expected_id c = None ∧ lim_contacts (cb_limits b) ≤ N.of_nat (size (cb_entries b)))
  end.
Proof.
  intros Ha. unfold put, query, modify, mbind, M_bind. rewrite (proj2 (authorize_ok b a tt) Ha).
  destruct (book_validate b c) as [u | e] eqn:Ev.
  - apply validate_ok in Ev. case_bool_decide as Hk; cbn [andb].
    + destruct (N.leb_spec (lim_contacts (cb_limits b)) (N.of_nat (size (cb_entries b)))); [split; [done | by right] |].
      split_and!; [done | by right | done].
    + split_and!; [done | | done]. left. by destruct (cb_entries b !! expected_id c).
  - split; [done |]. left. intros Hf. apply (validate_ok b c tt) in Hf. congruence.
Qed.

Lemma put_keeps_ok a c b : book_ok b → book_ok (put a c b).2.
Proof.
  intros Hb. destruct (decide (a = cb_access b)) as [Ha | Ha].
  2: { unfold put, query, mbind, M_bind. by rewrite (authorize_err b a Ha). }
  pose proof (put_run a c b Ha) as H. destruct (put a c b) as [[u | e] b']; [| by destruct H as [-> _]].
  destruct H as (Hf & Hs & ->). destruct Hb as [He Hsz]. split; cbn.
  - intros id d [[<- <-] | [_ Hd]]%lookup_insert_Some; [done | by apply He].
  - destruct Hs as [[x Hx] | Hs].
    + by rewrite map_size_insert_Some by by eexists.
    + destruct (cb_entries b !! expected_id c) eqn:E; [rewrite map_size_insert_Some by (by eexists); lia |].
      rewrite map_size_insert_None by done. lia.
Qed.
Lemma replace_ok a cs b : book_ok b → book_ok (replace a cs b).2.
Proof.
  intros Hb. destruct (decide (a = cb_access b)) as [Ha | Ha].
  2: { unfold replace, query, mbind, M_bind. by rewrite (authorize_err b a Ha). }
  pose proof (replace_run a cs b Ha) as H. destruct (replace a cs b) as [[u | e] b']; [| by destruct H as [-> _]].
  destruct H as (Hl & Hf & Hn & ->). split; cbn.
  - intros id c [Hc <-]%by_id_Some; [| done]. split; [done |]. rewrite Forall_forall in Hf. by apply Hf.
  - by rewrite by_id_size.
Qed.

(** The life of a book: any calls, under any authority. *)
Inductive book_step : ContactBook → ContactBook → Prop :=
| bs_put a c b : book_step b (put a c b).2
| bs_replace a cs b : book_step b (replace a cs b).2.

Lemma book_steps_ok b b' : rtc book_step b b' → book_ok b → book_ok b'.
Proof. induction 1 as [| b b1 b2 [] _ IH]; [done | |]; intros Hb; apply IH; [by apply put_keeps_ok | by apply replace_ok]. Qed.

Lemma book_steps_same b b' : rtc book_step b b' → cb_access b' = cb_access b ∧ cb_limits b' = cb_limits b.
Proof.
  induction 1 as [| b b1 b2 Hs _ [-> ->]]; [done |]. destruct Hs as [a c b | a cs b].
  - destruct (decide (a = cb_access b)) as [Ha | Ha].
    + pose proof (put_run a c b Ha) as H. destruct (put a c b) as [[u | e] b']; [| by destruct H as [-> _]].
      by destruct H as (_ & _ & ->).
    + unfold put, query, mbind, M_bind. by rewrite (authorize_err b a Ha).
  - destruct (decide (a = cb_access b)) as [Ha | Ha].
    + pose proof (replace_run a cs b Ha) as H. destruct (replace a cs b) as [[u | e] b']; [| by destruct H as [-> _]].
      by destruct H as (_ & _ & _ & ->).
    + unfold replace, query, mbind, M_bind. by rewrite (authorize_err b a Ha).
Qed.

(** C33: the contact book is a bounded map under its own authority.  After any
    calls on a new book, a foreign authority is denied every call and changes
    nothing; its own authority reads exactly the entries, in the order of the
    identities, each under the identity it names, printable within the text
    bound and never more than the limit of contacts; adding a contact succeeds
    exactly when it prints within the bound and its identity is known or there
    is room, and then changes this one entry; and a replacement succeeds exactly
    when the contacts are within the limit, print and have distinct identities,
    and then the book holds these; a call that fails changes nothing. *)
Theorem contact_book_exact l h b0 a h' b : ContactBook_new l h = (b0, a, h') → rtc book_step b0 b →
  (∀ x c cs id, x ≠ a → get b x id = Err IdAccessDenied ∧ snapshot b x = Err IdAccessDenied ∧
    put x c b = (Err IdAccessDenied, b) ∧ replace x cs b = (Err IdAccessDenied, b)) ∧
  (∀ id, get b a id = Ok (cb_entries b !! id)) ∧
  (∃ s, snapshot b a = Ok s ∧ Sorted bytes_le (expected_id <$> s) ∧ NoDup (expected_id <$> s) ∧
    len s ≤ lim_contacts l ∧ Forall (fits l) s ∧ ∀ c, c ∈ s ↔ cb_entries b !! expected_id c = Some c) ∧
  (∀ c, let ok := fits l c ∧ (is_Some (cb_entries b !! expected_id c) ∨ N.of_nat (size (cb_entries b)) < lim_contacts l) in
    (ok ↔ put a c b = (Ok tt, set_entries (<[expected_id c := c]> (cb_entries b)) b)) ∧ (¬ ok → (put a c b).2 = b)) ∧
  ∀ cs, let ok := len cs ≤ lim_contacts l ∧ Forall (fits l) cs ∧ NoDup (expected_id <$> cs) in
    (ok ↔ replace a cs b = (Ok tt, set_entries (by_id cs) b)) ∧ (¬ ok → (replace a cs b).2 = b).
Proof.
  intros Hnew Hr. assert (cb_access b = a ∧ cb_limits b = l ∧ book_ok b) as (Ha & Hl & Hb).
  { injection Hnew as <- <- _. destruct (book_steps_same _ _ Hr) as [-> ->]. split_and!; [done.. |].
    eapply book_steps_ok; [exact Hr |]. split; [done |]. cbn. rewrite map_size_empty. lia. }
  clear Hnew Hr. subst a l. split_and!.
  - intros x c cs id Hx. unfold get, snapshot, put, replace, query, mbind, M_bind.
    by rewrite (authorize_err b x Hx).
  - intros id. unfold get. by rewrite (proj2 (authorize_ok b _ tt) eq_refl).
  - destruct (snapshot_spec b Hb) as (Hk & Hin & _). eexists. split.
    { unfold snapshot. by rewrite (proj2 (authorize_ok b _ tt) eq_refl). }
    rewrite Hk. split_and!; [apply Sorted_merge_sort, _ | apply keys_NoDup | | | done].
    + unfold len. rewrite length_fmap, entries_length. apply Hb.
    + apply Forall_forall. intros c Hc%Hin. by apply Hb in Hc as [_ ?].
  - intros c. pose proof (put_run _ c b eq_refl) as H. destruct (put _ c b) as [[[] | e] b'].
    + destruct H as (Hf & Hs & ->). split; [by split | intros H; by destruct H].
    + destruct H as [-> H]. split; [| done]. split; [| done]. intros [Hf Hs]. exfalso.
      destruct H as [| [E H]]; [done |]. rewrite E in Hs. destruct Hs as [[? [=]] | Hs]. lia.
  - intros cs. pose proof (replace_run _ cs b eq_refl) as H. destruct (replace _ cs b) as [[[] | e] b'].
    + destruct H as (Hl & Hf & Hn & ->). split; [by split | intros H; by destruct H].
    + destruct H as [-> H]. split; [| done]. split; [| done]. intros (Hl & Hf & Hn). exfalso.
      destruct H as [| [|]]; [lia | done..].
Qed.

Module Demo.
Definition limits : Limits := mkLimits 58 2 1 148 1.
Definition hint (b : byte) : Contact := mkContact (replicate 32 b) None.
Definition start : ContactBook * ContactAccess * Tokens := ContactBook_new limits Arcs_empty.
Definition book : ContactBook := (put 0 (hint x01) start.1.1).2.
Example book_outcomes :
  (put 7 (hint x02) book).1 = Err IdAccessDenied ∧ (put 0 (hint x02) book).1 = Ok tt ∧
  (replace 0 [hint x02; hint x02] book).1 = Err IdConflict ∧
  (snapshot (replace 0 [hint x02; hint x01] book).2 0 = Ok [hint x01; hint x02]).
Proof. vm_compute. done. Qed.

Lemma contact_book_exact_witness : rtc book_step start.1.1 book ∧
  put 7 (hint x02) book = (Err IdAccessDenied, book) ∧ get book 0 (replicate 32 x01) = Ok (Some (hint x01)).
Proof.
  assert (rtc book_step start.1.1 book) as Hr by (apply rtc_once; apply bs_put).
  destruct (contact_book_exact limits Arcs_empty start.1.1 0 start.2 book eq_refl Hr) as (Hden & Hget & _).
  destruct (Hden 7 (hint x02) [] [] ltac:(done)) as (_ & _ & Hput & _).
  split; [exact Hr |]. split; [exact Hput |]. rewrite Hget. vm_compute. reflexivity.
Defined.
End Demo.
