(* ===== verification/Authority.v ===== *)
(** * Purpose-scoped local capabilities

    [src/modules/identity/authority.rs]: an issuer is an [Arc<AtomicBool>] of
    which a capability keeps a weak reference, an identity and a byte budget;
    the purpose is a phantom type.  The theorem: over any life of any number
    of issuers, a check passes exactly for the capabilities its issuer gave
    out for that identity, within budget and before it was revoked. *)

From S2P Require Import Prelude Bytes IdentityText Api Arcs.

#[local] Open Scope N_scope.

(** The marker types. *)
Inductive Purpose : Type := PAdministration | PReadPublic | PSign | PDecrypt | PBackup | PImport.

Record Capability (P : Purpose) : Type := mkCapability {
  cap_owner : N;
  cap_identity : option IdentityId;
  cap_maximum_bytes : N;
}.
Arguments mkCapability {P} _ _ _.
Arguments cap_owner {P} _.
Arguments cap_identity {P} _.
Arguments cap_maximum_bytes {P} _.

(** An [Authority] is its reference into the heap of flags. *)
Definition Authority : Type := N.
Abbreviation Flags := (Arcs bool).

Definition Authority_new (h : Flags) : Authority * Flags := arc_new true h.

(** [self.0.load(...)] of a reference that is held. *)
Definition flag (a : Authority) (h : Flags) : bool := default false (arc_get a h).

Definition issue {P} (a : Authority) (identity : option IdentityId) (maximum : N) (h : Flags)
    : result IdentityError (Capability P) :=
  if negb (flag a h) then Err IdAccessDenied else
  if maximum =? 0 then Err IdInvalidInput else
  Ok (mkCapability a identity maximum).
Definition grant {P} (a : Authority) (identity : IdentityId) (maximum : N) (h : Flags)
    : result IdentityError (Capability P) := issue a (Some identity) maximum h.
Definition administration (a : Authority) (maximum : N) (h : Flags)
    : result IdentityError (Capability PAdministration) := issue a None maximum h.
Definition revoke (a : Authority) (h : Flags) : Flags := arc_store a false h.

Definition check_scope {P} (a : Authority) (c : Capability P) (identity : option IdentityId)
    (n : N) (h : Flags) : result IdentityError unit :=
  if negb (alive (cap_owner c) h) then Err IdAccessDenied else
  if negb (cap_owner c =? a) || negb (flag (cap_owner c) h)
     || negb (bool_decide (cap_identity c = identity))
  then Err IdAccessDenied else
  if cap_maximum_bytes c <? n then Err IdResourceLimit else Ok tt.
Definition check {P} (a : Authority) (c : Capability P) (identity : IdentityId) (n : N) (h : Flags)
    : result IdentityError unit := check_scope a c (Some identity) n h.
Definition check_administration (a : Authority) (c : Capability PAdministration) (n : N) (h : Flags)
    : result IdentityError unit := check_scope a c None n h.

(** ** The functional behaviour of a check *)

Definition permits {P} (a : Authority) (c : Capability P) (identity : option IdentityId) (n : N)
    (h : Flags) : Prop :=
  cap_owner c = a ∧ alive a h = true ∧ flag a h = true ∧ cap_identity c = identity ∧
  n ≤ cap_maximum_bytes c.

Lemma check_scope_ok {P} a (c : Capability P) id n h u :
  check_scope a c id n h = Ok u ↔ permits a c id n h.
Proof.
  unfold check_scope, permits. destruct u, (N.eqb_spec (cap_owner c) a) as [-> | Hne].
  - destruct (alive a h), (flag a h); cbn [negb orb]; try naive_solver.
    case_bool_decide; cbn [negb]; [| naive_solver].
    destruct (N.ltb_spec (cap_maximum_bytes c) n); [split; [done | lia] | done].
  - destruct (alive _ h); naive_solver.
Qed.

Lemma issue_ok {P} a id m h (c : Capability P) :
  issue a id m h = Ok c ↔ flag a h = true ∧ m ≠ 0 ∧ c = mkCapability a id m.
Proof.
  unfold issue. destruct (flag a h); cbn [negb]; [| naive_solver].
  destruct (N.eqb_spec m 0); naive_solver.
Qed.

(** ** The life of issuers and capabilities

    The holders of issuers create, use, revoke and drop them in any order; the
    ghost log records who issued what, and who was revoked. *)
Record domains (P : Purpose) : Type := mkDomains {
  dm_flags : Flags;
  dm_issuers : list Authority;
  dm_issued : list (Authority * option IdentityId * N * Capability P);
  dm_revoked : list Authority;
}.
Arguments mkDomains {P} _ _ _ _.
Arguments dm_flags {P} _.
Arguments dm_issuers {P} _.
Arguments dm_issued {P} _.
Arguments dm_revoked {P} _.

Inductive domain_step {P} : domains P → domains P → Prop :=
| DNew h l i r a h' : Authority_new h = (a, h') →
    domain_step (mkDomains h l i r) (mkDomains h' (a :: l) i r)
| DIssue h l i r a id m c : a ∈ l → issue a id m h = Ok c →
    domain_step (mkDomains h l i r) (mkDomains h l ((a, id, m, c) :: i) r)
| DRevoke h l i r a : a ∈ l →
    domain_step (mkDomains h l i r) (mkDomains (revoke a h) l i (a :: r))
| DDrop h l l' i r a : l ≡ₚ a :: l' →
    domain_step (mkDomains h l i r) (mkDomains (arc_drop a h) l' i r).
Definition domains_empty {P} : domains P := mkDomains Arcs_empty [] [] [].

Record domains_inv {P} (d : domains P) : Prop := {
  di_owned : owned (dm_flags d) (dm_issuers d);
  di_nodup : NoDup (dm_issuers d);
  di_flag : ∀ a, a ∈ dm_issuers d → flag a (dm_flags d) = negb (bool_decide (a ∈ dm_revoked d));
  di_revoked : ∀ a, a ∈ dm_revoked d → a < fresh (dm_flags d);
  di_issued : ∀ a id m c, (a, id, m, c) ∈ dm_issued d → c = mkCapability a id m;
}.

Lemma flag_new_other h l a r : owned h l → r ∈ l → flag r (arc_new a h).2 = flag r h.
Proof.
  intros Ho Hr. unfold flag. rewrite (arc_get_new _ _ _ _ Ho), decide_False; [done |].
  intros ->. apply (owned_fresh _ _ Ho) in Hr. lia.
Qed.

Lemma domains_inv_step {P} (d d' : domains P) : domains_inv d → domain_step d d' → domains_inv d'.
Proof.
  intros [Ho Hn Hf Hr Hi] Hs. destruct Hs as [h l i r a h' E | h l i r a id m c Ha Hc | h l i r a Ha | h l l' i r a Hp];
    cbn in *.
  - injection E as [= <- <-]. assert (fresh h ∉ l) as Hfresh by (intros H%(owned_fresh _ _ Ho); lia).
    split; cbn; [exact (owned_new _ _ true Ho) | by constructor | | | done].
    + intros b [-> | Hb]%elem_of_cons; [| by rewrite <- (Hf b Hb); apply (flag_new_other _ _ true _ Ho Hb)].
      unfold flag, arc_get. cbn. rewrite lookup_insert_eq. cbn. rewrite bool_decide_false; [done |].
      intros H%Hr. lia.
    + intros b H%Hr. lia.
  - split; cbn; try done. intros b id' m' c' [[= -> -> -> ->] | Hin]%elem_of_cons; [| by eapply Hi].
    by apply issue_ok in Hc as (_ & _ & ->).
  - split; cbn; try done.
    + by apply owned_store.
    + intros b Hb. unfold flag, revoke. rewrite arc_get_store.
      destruct (decide (b = a)) as [-> |].
      * rewrite ?decide_True by done. destruct (owned_get _ _ _ Ho Ha) as [v ->]. symmetry. apply negb_false_iff, bool_decide_eq_true. left.
      * rewrite decide_False by done. change (default false (arc_get b h)) with (flag b h). rewrite (Hf b Hb).
        f_equal. apply bool_decide_ext. rewrite elem_of_cons. naive_solver.
    + intros b [-> | Hb]%elem_of_cons; unfold revoke; cbn; rewrite arc_store_fresh; [exact (owned_fresh _ _ Ho _ Ha) | exact (Hr _ Hb)].
  - apply (owned_perm _ _ _ Hp) in Ho. rewrite Hp in Hn. split; cbn; [by apply owned_drop | by apply NoDup_cons in Hn as [_ Hn] | | | done].
    + intros b Hb. unfold flag. rewrite (arc_get_drop _ _ _ _ Ho Hb). apply Hf. rewrite Hp. by right.
    + intros b Hb. rewrite arc_drop_fresh. by apply Hr.
Qed.

Lemma domains_inv_reach {P} (d : domains P) : rtc domain_step domains_empty d → domains_inv d.
Proof.
  intros H. assert (domains_inv (P := P) domains_empty) as H0.
  { split; cbn; try by (intros; set_solver). - apply owned_empty. - constructor. }
  induction H as [| d1 d2 d3 Hs _ IH]; [done |]. by apply IH, (domains_inv_step d1).
Qed.

(** C35: over any life of any number of issuers, a check by an issuer passes
    exactly for a capability it issued itself, for that very identity (or
    none, for administration), for no more bytes than were granted, and only
    while the issuer was not revoked: capabilities of another issuer, also of
    one that was dropped, never pass. *)
Theorem capabilities_exact {P} (d : domains P) a b id id' m c n :
  rtc domain_step domains_empty d →
  a ∈ dm_issuers d → (b, id, m, c) ∈ dm_issued d →
  check_scope a c id' n (dm_flags d) = Ok tt ↔
  b = a ∧ (a ∉ dm_revoked d) ∧ id = id' ∧ n ≤ m.
Proof.
  intros [Ho _ Hf _ Hi]%domains_inv_reach Ha Hc. apply Hi in Hc as ->.
  pose proof (proj2 (alive_owned _ _ a Ho) Ha) as Hal. specialize (Hf a Ha).
  rewrite check_scope_ok. unfold permits. cbn. rewrite Hf. case_bool_decide; naive_solver.
Qed.

(** Two issuers, one of which is revoked. *)
Lemma capabilities_exact_witness :
  ∃ d : domains PSign,
    check_scope (P := PSign) 0 (mkCapability 0 (Some [x01]) 8) (Some [x01]) 8 (dm_flags d) = Ok tt ↔
    0 = 0 ∧ (0 ∉ dm_revoked d) ∧ Some [x01] = Some [x01] ∧ 8 ≤ 8.
Proof.
  eexists. apply (capabilities_exact (P := PSign) _ 0 0 (Some [x01]) (Some [x01]) 8).
  - eapply rtc_l; [eapply DNew; reflexivity |]. eapply rtc_l; [eapply DNew; reflexivity |].
    eapply rtc_l; [eapply (DIssue _ _ _ _ 0 (Some [x01]) 8); [by right; left | vm_compute; reflexivity] |].
    eapply rtc_l; [eapply (DRevoke _ _ _ _ 1); by left |]. apply rtc_refl.
  - by right; left.
  - by left.
Defined.
