(* ===== verification/Identity.v ===== *)
(** * The local Identity provider

    [src/modules/identity/{api,ports,provider,operations,recovery}.rs]: the
    life cycle of the one local identity over a protected key store, and the
    private operations on its handles.  The store is behind [KeyStore]; the
    provider's capability flags and its domain token are reference-counted
    cells of a [World]. *)

From S2P Require Import Prelude Bytes IdentityText Api Arcs Crypto Envelope Keys Authority.

#[local] Open Scope N_scope.

(** ** Public values: [api.rs] *)

Record PublicIdentity : Type := mkPublicIdentity {
  pub_id : IdentityId;
  pub_signing_public_key : bytes;
}.
Record PublicCredential : Type := mkPublicCredential {
  pub_identity : PublicIdentity;
  pub_encryption_public_key : bytes;
  pub_binding_signature : bytes;
}.
#[global] Instance PublicIdentity_eq_dec : EqDecision PublicIdentity.
Proof. solve_decision. Defined.
#[global] Instance PublicCredential_eq_dec : EqDecision PublicCredential.
Proof. solve_decision. Defined.

Definition CONTRACT_VERSION : N := 1.
Definition validate_contract (version : N) : result IdentityError unit :=
  if negb (version =? CONTRACT_VERSION) then Err IdUnsupported else Ok tt.

(** ** The protected store: [ports.rs] *)

Class KeyStore (S A : Type) : Type := {
  authorize : S → A → N → result IdentityError unit;
  install : A → CredentialRecord → M S IdentityError unit;
  open_record : A → M S IdentityError CredentialRecord;
}.

(** ** Handles and providers: [provider.rs] *)

(** The [Arc]s of a process: the flags of authorities, the domains of
    providers. *)
Record World : Type := mkWorld { w_flags : Flags; w_domains : Arcs unit }.

Record IdentityHandle : Type := mkHandle {
  h_keys : IdentityKeys;
  h_public : PublicCredential;
  h_domain : N;
}.
Record Identity (S E : Type) : Type := mkIdentity {
  id_store : S;
  id_entropy : E;
  id_limits : Limits;
  id_authority : Authority;
  id_domain : N;
}.
Arguments mkIdentity {S E} _ _ _ _ _.
Arguments id_store {S E} _.
Arguments id_entropy {S E} _.
Arguments id_limits {S E} _.
Arguments id_authority {S E} _.
Arguments id_domain {S E} _.

Definition with_store {S E} (s : S) (i : Identity S E) : Identity S E :=
  mkIdentity s (id_entropy i) (id_limits i) (id_authority i) (id_domain i).
Definition with_entropy {S E} (e : E) (i : Identity S E) : Identity S E :=
  mkIdentity (id_store i) e (id_limits i) (id_authority i) (id_domain i).

Section provider.
Context `{CR : !Crates} {S A E : Type} `{KS : !KeyStore S A} `{EN : !Entropy E}.

Abbreviation P := (Identity S E * World)%type.

Definition Identity_new (store : S) (entropy : E) (limits : Limits) (version : N)
    : M World IdentityError (Identity S E) := λ w,
  match validate_contract version with
  | Err e => (Err e, w)
  | Ok _ =>
    if lim_record_bytes limits <? RECORD_BYTES then (Err IdResourceLimit, w) else
    let '(authority, flags) := Authority_new (w_flags w) in
    let '(domain, domains) := arc_new tt (w_domains w) in
    (Ok (mkIdentity store entropy limits authority domain), mkWorld flags domains)
  end.

Definition check_handle (i : Identity S E) (h : IdentityHandle) : result IdentityError unit :=
  if negb (id_domain i =? h_domain h) then Err IdAccessDenied else Ok tt.
Definition handle_id (h : IdentityHandle) : IdentityId := pub_id (pub_identity (h_public h)).

Definition identity_grant {Q : Purpose} (admin : A) (h : IdentityHandle) (maximum : N) (p : P)
    : result IdentityError (Capability Q) :=
  let '(i, w) := p in
  _ ← authorize (id_store i) admin 0;
  _ ← check_handle i h;
  grant (id_authority i) (handle_id h) maximum (w_flags w).

Definition public (h : IdentityHandle) (c : Capability PReadPublic) (p : P)
    : result IdentityError PublicCredential :=
  let '(i, w) := p in
  _ ← check_handle i h;
  _ ← check (id_authority i) c (handle_id h) 0 (w_flags w);
  credential ← into (keys_credential (h_keys h));
  if negb (bool_decide (cred_identity_id credential = handle_id h))
     || negb (bool_decide (cred_encryption_public_key credential = pub_encryption_public_key (h_public h)))
  then Err IdMismatch else Ok (h_public h).

(** [self.domain.clone()] into a handle, and a handle that goes out of scope. *)
Definition handle (keys : IdentityKeys) : M P IdentityError (IdentityHandle * PublicCredential) := λ p,
  let '(i, w) := p in
  match into (keys_credential keys) with
  | Err e => (Err e, p)
  | Ok c =>
    let public := mkPublicCredential (mkPublicIdentity (cred_identity_id c) (cred_signing_public_key c))
      (cred_encryption_public_key c) (cred_binding_signature c) in
    (Ok (mkHandle keys public (id_domain i), public),
     (i, mkWorld (w_flags w) (arc_clone (id_domain i) (w_domains w))))
  end.
Definition drop_handle {B} (h : IdentityHandle) (e : IdentityError) : M P IdentityError B := λ p,
  let '(i, w) := p in (Err e, (i, mkWorld (w_flags w) (arc_drop (h_domain h) (w_domains w)))).
(** A fallible step while a handle is in scope. *)
Definition holding {B} (h : IdentityHandle) (m : M P IdentityError B) : M P IdentityError B := λ p,
  match m p with
  | (Ok b, p') => (Ok b, p')
  | (Err e, p') => drop_handle h e p'
  end.

Definition store_install (admin : A) (r : CredentialRecord) : M P IdentityError unit := λ p,
  let '(i, w) := p in
  let '(x, s) := install admin r (id_store i) in (x, (with_store s i, w)).
Definition store_open (admin : A) : M P IdentityError CredentialRecord := λ p,
  let '(i, w) := p in
  let '(x, s) := open_record admin (id_store i) in (x, (with_store s i, w)).
Definition draw {B} (m : M E CryptoError B) : M P IdentityError B := λ p,
  let '(i, w) := p in
  let '(x, e) := m (id_entropy i) in (into x, (with_entropy e i, w)).

Definition load (admin : A) : M P IdentityError (IdentityHandle * PublicCredential) :=
  query (λ p, authorize (id_store p.1) admin RECORD_BYTES);;
  record ← store_open admin;
  keys ← lift (record_decode record);
  handle keys.

Definition create (admin : A) : M P IdentityError (IdentityHandle * PublicCredential) :=
  query (λ p, authorize (id_store p.1) admin RECORD_BYTES);;
  keys ← draw keys_generate;
  record ← query (λ p, record_encode keys (id_limits p.1));
  result ← handle keys;
  holding result.1 (store_install admin record);;
  mret result.

(** ** Operations: [operations.rs] *)

Inductive EnvelopeFormat : Type := GenericV1 | ServiceSpecific.

Definition identity_decrypt (h : IdentityHandle) (c : Capability PDecrypt) (format : EnvelopeFormat)
    (object : bytes) (p : P) : result IdentityError bytes :=
  let '(i, w) := p in
  _ ← check_handle i h;
  _ ← check (id_authority i) c (handle_id h) (len object) (w_flags w);
  match format with
  | ServiceSpecific => Err IdUnsupported
  | GenericV1 =>
    limits ← into (ResourceLimits_new (lim_envelope_bytes (id_limits i)) (lim_envelope_bytes (id_limits i)));
    into (decrypt (mkDecrypt object (handle_id h) (pub_encryption_public_key (h_public h))
                     (ik_encryption (h_keys h)) limits))
  end.

Definition identity_sign (h : IdentityHandle) (c : Capability PSign) (message : bytes) (p : P)
    : result IdentityError bytes :=
  let '(i, w) := p in
  _ ← check_handle i h;
  _ ← check (id_authority i) c (handle_id h) (len message) (w_flags w);
  into (sign (ik_signing (h_keys h)) message (lim_signing_bytes (id_limits i))).

(** ** Backup and restoration: [recovery.rs] *)

Definition grant_import (admin : A) (expected : IdentityId) (maximum : N) (p : P)
    : result IdentityError (Capability PImport) :=
  let '(i, w) := p in
  _ ← authorize (id_store i) admin RECORD_BYTES;
  grant (id_authority i) expected maximum (w_flags w).

Section other.
Context {D B : Type} `{KD : !KeyStore D B}.

(** The source is read once and not used again. *)
Definition restore (admin : A) (c : Capability PImport) (expected : IdentityId) (source : D)
    (source_admin : B) : M P IdentityError (IdentityHandle * PublicCredential) :=
  query (λ p, authorize (id_store p.1) admin RECORD_BYTES);;
  query (λ p, check (id_authority p.1) c expected RECORD_BYTES (w_flags p.2));;
  lift (authorize source source_admin RECORD_BYTES);;
  record ← lift (open_record source_admin source).1;
  over ← gets (λ p, lim_record_bytes (id_limits p.1) <? record_len record);
  if (over : bool) then throw IdResourceLimit else
  keys ← lift (record_decode record);
  result ← handle keys;
  if negb (bool_decide (pub_id (pub_identity result.2) = expected)) then drop_handle result.1 IdMismatch else
  holding result.1 (store_install admin record);;
  mret result.

Definition backup (h : IdentityHandle) (c : Capability PBackup) (destination_admin : B) (p : P)
    : M D IdentityError unit :=
  let '(i, w) := p in
  lift (check_handle i h);;
  lift (check (id_authority i) c (handle_id h) RECORD_BYTES (w_flags w));;
  query (λ d, authorize d destination_admin RECORD_BYTES);;
  record ← lift (record_encode (h_keys h) (id_limits i));
  install destination_admin record.
End other.
End provider.
