(* ===== verification/IdentityProps.v ===== *)
(** * One identity per store, used only through its own authority

    Over any life of any number of Identity providers in a process: a store
    keeps one record for ever and every handle is of that record's identity;
    and a handle and a capability work exactly at the provider that issued
    both, for the handle's identity and within every budget. *)

From S2P Require Import Prelude Bytes Json IdentityText Api Arcs Crypto Envelope EnvelopeProps Keys Authority Identity.

#[local] Open Scope N_scope.

(** ** What a key store promises *)

(** "Install both keys and their association once, with durable success":
    denial precedes effects, existing state conflicts, an uncertain commit is
    reported as such; opening creates nothing. *)
Class KeyStoreLaws (S A : Type) `{KS : !KeyStore S A} : Type := {
  durable : S → option CredentialRecord;
  install_ok a r s u s' : install a r s = (Ok u, s') → durable s = None ∧ durable s' = Some r;
  install_err a r s e s' : install a r s = (Err e, s') →
    durable s' = durable s ∨ (e = IdOutcomeUnknown ∧ durable s = None ∧ durable s' = Some r);
  open_ok s a r s' : open_record a s = (Ok r, s') → durable s = Some r;
  open_keeps s a : durable (open_record a s).2 = durable s;
}.

Section identity.
Context `{CR : !Crates} {S A E : Type} `{KS : !KeyStore S A} `{KL : !KeyStoreLaws S A} `{EN : !Entropy E}.

Abbreviation P := (Identity S E * World)%type.

Definition public_of (k : IdentityKeys) : PublicCredential :=
  let c := credential_of k in
  mkPublicCredential (mkPublicIdentity (cred_identity_id c) (cred_signing_public_key c))
    (cred_encryption_public_key c) (cred_binding_signature c).

(** ** The life cycle calls *)

Inductive lifecycle : M P IdentityError (IdentityHandle * PublicCredential) → Prop :=
| LCreate admin : lifecycle (create admin)
| LLoad admin : lifecycle (load admin)
| LRestore {D B} `{KD : !KeyStore D B} admin c expected (source : D) (source_admin : B) :
    lifecycle (restore admin c expected source source_admin).

(** A handle stands for the record that its store keeps. *)
Definition stands_for (i : Identity S E) (h : IdentityHandle) : Prop :=
  ∃ r, durable (id_store i) = Some r ∧ record_decode r = Ok (h_keys h) ∧
    h_public h = public_of (h_keys h).

(** What a call may do to its provider. *)
Record moves (i i' : Identity S E) (w w' : World) : Prop := {
  mv_authority : id_authority i' = id_authority i;
  mv_domain : id_domain i' = id_domain i;
  mv_limits : id_limits i' = id_limits i;
  mv_flags : w_flags w' = w_flags w;
  mv_durable : ∀ r, durable (id_store i) = Some r → durable (id_store i') = Some r;
}.

(** What it does on either outcome. *)
Definition outcome (r : result IdentityError (IdentityHandle * PublicCredential))
    (i i' : Identity S E) (w w' : World) : Prop :=
  moves i i' w w' ∧
  match r with
  | Ok (h, c) => h_domain h = id_domain i ∧ c = h_public h ∧ stands_for i' h ∧
      w_domains w' = arc_clone (id_domain i) (w_domains w)
  | Err _ => w_domains w' = w_domains w ∨
      w_domains w' = arc_drop (id_domain i) (arc_clone (id_domain i) (w_domains w))
  end.

Lemma moves_refl i w : moves i i w w.
Proof. by split. Qed.
Lemma moves_trans i i1 i2 w w1 w2 : moves i i1 w w1 → moves i1 i2 w1 w2 → moves i i2 w w2.
Proof. intros [? ? ? ? Hd] [? ? ? ? Hd']. split; try congruence. eauto. Qed.

Lemma refused e i w : outcome (Err e) i i w w.
Proof. split; [apply moves_refl | by left]. Qed.

Lemma refused_store e i s w : durable s = durable (id_store i) → outcome (Err e) i (with_store s i) w w.
Proof. intros Hs. split; [| by left]. split; try done. cbn. by rewrite Hs. Qed.

Lemma handle_run k i w :
  handle (S := S) (E := E) k (i, w) =
  (Ok (mkHandle k (public_of k) (id_domain i), public_of k),
   (i, mkWorld (w_flags w) (arc_clone (id_domain i) (w_domains w)))).
Proof. unfold handle. by rewrite keys_credential_ok. Qed.

(** Installing the record a new handle was made from. *)
Lemma install_new admin record k i w :
  record_decode record = Ok k →
  match (result ← handle k; holding result.1 (store_install (S := S) (E := E) admin record);; mret result) (i, w) with
  | (r, (i', w')) => outcome r i i' w w'
  end.
Proof.
  intros Hk. unfold_m. rewrite handle_run. unfold holding, store_install. cbn [fst].
  destruct (install admin record (id_store i)) as [[u | e] s] eqn:Hi.
  - apply install_ok in Hi as [Hn Hs]. split; [split; try done; cbn; congruence |].
    cbn. split_and!; try done. by exists record.
  - unfold drop_handle. cbn. split; [split; try done; cbn | by right].
    apply install_err in Hi as [Hs | (_ & Hs & _)]; congruence.
Qed.

Lemma keys_generate_wf (e : E) k e' : keys_generate e = (Ok k, e') → keys_wf k.
Proof.
  unfold keys_generate, signing_key, agreement_key. intros H.
  apply bind_Ok_inv in H as (s & e1 & Hs & H). apply bind_Ok_inv in Hs as (b & e2 & Hb & Hs).
  injection Hs as [= <- <-]. apply bind_Ok_inv in H as (a & e3 & Ha & H).
  apply bind_Ok_inv in Ha as (b' & e4 & Hb' & Ha). injection Ha as [= <- <-]. injection H as [= <- <-].
  apply random_bytes_length in Hb, Hb'. done.
Qed.
Lemma record_encode_decode k l r : keys_wf k → record_encode k l = Ok r → record_decode r = Ok k.
Proof.
  intros Hw H. apply record_encode_ok in H as [-> _]; [| done].
  apply record_decode_ok; [by apply record_bytes_length | done | done].
Qed.

(** Drawing entropy is no move of the store. *)
Lemma outcome_entropy e r i i' w w' : outcome r (with_entropy e i) i' w w' → outcome r i i' w w'.
Proof. intros [[? ? ? ? ?] H]. by split. Qed.

Lemma create_outcome admin i w :
  let '(r, (i', w')) := create (S := S) (E := E) admin (i, w) in outcome r i i' w w'.
Proof.
  unfold create. unfold mbind at 1, M_bind at 1, query at 1. cbn [fst].
  destruct (authorize (id_store i) admin RECORD_BYTES); [| apply refused].
  unfold mbind at 1, M_bind at 1, draw. destruct (keys_generate (id_entropy i)) as [[k | err] e] eqn:Hk;
    cbn [into map_err]; [| apply (outcome_entropy e), refused].
  unfold mbind at 1, M_bind at 1, query. cbn [fst].
  destruct (record_encode k _) as [record | err] eqn:Hr; [| apply (outcome_entropy e), refused].
  apply keys_generate_wf in Hk. apply record_encode_decode in Hr; [| done].
  pose proof (install_new admin record k (with_entropy e i) w Hr) as H.
  destruct ((handle (S := S) (E := E) k ≫= _) _) as [r [i' w']]. by apply (outcome_entropy e).
Qed.

Lemma load_outcome admin i w :
  let '(r, (i', w')) := load (S := S) (E := E) admin (i, w) in outcome r i i' w w'.
Proof.
  unfold load. unfold mbind at 1, M_bind at 1, query at 1. cbn [fst].
  destruct (authorize (id_store i) admin RECORD_BYTES); [| apply refused].
  unfold mbind at 1, M_bind at 1, store_open. pose proof (open_keeps (id_store i) admin) as Hs.
  destruct (open_record admin (id_store i)) as [[record | e] s] eqn:Ho; cbn [snd] in Hs.
  2: by apply refused_store.
  unfold mbind at 1, M_bind at 1, lift.
  destruct (record_decode record) as [k |] eqn:Hk; [| by apply refused_store].
  rewrite handle_run. split; [split; try done; cbn; by rewrite Hs |]. cbn. split_and!; try done.
  exists record. split_and!; [cbn; rewrite Hs; by eapply open_ok | done | done].
Qed.

Lemma restore_outcome {D B} `{KD : !KeyStore D B} admin c expected (source : D) (source_admin : B) i w :
  let '(r, (i', w')) := restore (S := S) (E := E) admin c expected source source_admin (i, w) in
  outcome r i i' w w'.
Proof.
  unfold restore. unfold mbind at 1, M_bind at 1, query at 1. cbn [fst].
  destruct (authorize (id_store i) admin RECORD_BYTES); [| apply refused].
  unfold mbind at 1, M_bind at 1, query. cbn [fst snd].
  destruct (check (id_authority i) c expected RECORD_BYTES (w_flags w)); [| apply refused].
  unfold mbind at 1, M_bind at 1, lift at 1.
  destruct (authorize source source_admin RECORD_BYTES); [| apply refused].
  unfold mbind at 1, M_bind at 1, lift at 1.
  destruct (open_record source_admin source).1 as [record |]; [| apply refused].
  unfold mbind at 1, M_bind at 1, gets. cbn [fst].
  destruct (lim_record_bytes (id_limits i) <? record_len record); [apply refused |].
  unfold mbind at 1, M_bind at 1, lift. destruct (record_decode record) as [k |] eqn:Hk; [| apply refused].
  pose proof (install_new admin record k i w Hk) as H.
  unfold mbind, M_bind in *. rewrite handle_run in *. cbn [fst snd] in *.
  destruct (negb _); [| exact H]. unfold drop_handle. split; [by split | by right].
Qed.

Lemma lifecycle_outcome m i w : lifecycle m → let '(r, (i', w')) := m (i, w) in outcome r i i' w w'.
Proof. intros []; [apply create_outcome | apply load_outcome | apply restore_outcome]. Qed.

(** ** Processes

    Providers, the handles they gave out and the capabilities they granted,
    each tagged with the serial number of its provider; owners call, grant and
    drop in any order. *)
Record process : Type := mkProcess {
  pr_world : World;
  pr_providers : list (nat * Identity S E);
  pr_handles : list (nat * IdentityHandle);
  pr_granted : list (nat * {Q : Purpose & Capability Q});
  pr_serial : nat;
}.
Definition process_empty : process := mkProcess (mkWorld Arcs_empty Arcs_empty) [] [] [] 0%nat.

Inductive process_step : process → process → Prop :=
| PsNew w ps hs gs n store entropy limits version i w' :
    Identity_new store entropy limits version w = (Ok i, w') →
    process_step (mkProcess w ps hs gs n) (mkProcess w' ((n, i) :: ps) hs gs (1 + n)%nat)
| PsCall w ps hs gs n k i ps' m r i' w' :
    lifecycle m → ps ≡ₚ (k, i) :: ps' → m (i, w) = (r, (i', w')) →
    process_step (mkProcess w ps hs gs n)
      (mkProcess w' ((k, i') :: ps')
         (match r with Ok (h, _) => (k, h) :: hs | Err _ => hs end) gs n)
| PsGrant w ps hs gs n k i Q admin h maximum c :
    (k, i) ∈ ps → identity_grant (Q := Q) admin h maximum (i, w) = Ok c →
    process_step (mkProcess w ps hs gs n) (mkProcess w ps hs ((k, existT Q c) :: gs) n)
| PsGrantImport w ps hs gs n k i admin expected maximum c :
    (k, i) ∈ ps → grant_import admin expected maximum (i, w) = Ok c →
    process_step (mkProcess w ps hs gs n) (mkProcess w ps hs ((k, existT PImport c) :: gs) n)
| PsDropHandle w ps hs gs n k h hs' : hs ≡ₚ (k, h) :: hs' →
    process_step (mkProcess w ps hs gs n)
      (mkProcess (mkWorld (w_flags w) (arc_drop (h_domain h) (w_domains w))) ps hs' gs n)
| PsDropProvider w ps hs gs n k i ps' : ps ≡ₚ (k, i) :: ps' →
    process_step (mkProcess w ps hs gs n)
      (mkProcess (mkWorld (arc_drop (id_authority i) (w_flags w)) (arc_drop (id_domain i) (w_domains w)))
         ps' hs gs n).

Definition granted_owner (g : {Q : Purpose & Capability Q}) : N := cap_owner (projT2 g).

(** Serial numbers name providers: their domain, their authority. *)
Record process_inv (p : process) : Prop := {
  pi_domains : owned (w_domains (pr_world p))
    (map (λ x, id_domain x.2) (pr_providers p) ++ map (λ x, h_domain x.2) (pr_handles p));
  pi_flags : owned (w_flags (pr_world p)) (map (λ x, id_authority x.2) (pr_providers p));
  pi_flag : ∀ k i, (k, i) ∈ pr_providers p → flag (id_authority i) (w_flags (pr_world p)) = true;
  pi_unique : NoDup (pr_providers p).*1;
  pi_serial : ∀ k i, (k, i) ∈ pr_providers p → (k < pr_serial p)%nat;
  pi_handle_serial : ∀ k h, (k, h) ∈ pr_handles p → (k < pr_serial p)%nat;
  pi_cap_serial : ∀ k g, (k, g) ∈ pr_granted p → (k < pr_serial p)%nat;
  pi_cap_fresh : ∀ k g, (k, g) ∈ pr_granted p → granted_owner g < fresh (w_flags (pr_world p));
  pi_provider_names : ∀ k i k' i', (k, i) ∈ pr_providers p → (k', i') ∈ pr_providers p →
    (id_domain i = id_domain i' ↔ k = k') ∧ (id_authority i = id_authority i' ↔ k = k');
  pi_handle_names : ∀ k i k' h, (k, i) ∈ pr_providers p → (k', h) ∈ pr_handles p →
    h_domain h = id_domain i ↔ k' = k;
  pi_cap_names : ∀ k i k' g, (k, i) ∈ pr_providers p → (k', g) ∈ pr_granted p →
    granted_owner g = id_authority i ↔ k' = k;
  pi_stands : ∀ k i h, (k, i) ∈ pr_providers p → (k, h) ∈ pr_handles p → stands_for i h;
}.

Lemma grant_ok {Q} i w admin h m (c : Capability Q) :
  identity_grant (S := S) (E := E) admin h m (i, w) = Ok c →
  id_domain i = h_domain h ∧ c = mkCapability (id_authority i) (Some (handle_id h)) m.
Proof.
  unfold identity_grant, check_handle, grant. intros H. apply result_bind_Ok_inv in H as (? & _ & H).
  apply result_bind_Ok_inv in H as (? & Hd & H). destruct (N.eqb_spec (id_domain i) (h_domain h)); [| done].
  by apply issue_ok in H as (_ & _ & ->).
Qed.
Lemma grant_import_ok i w admin x m c :
  grant_import (S := S) (E := E) admin x m (i, w) = Ok c → c = mkCapability (id_authority i) (Some x) m.
Proof.
  unfold grant_import, grant. intros H. apply result_bind_Ok_inv in H as (? & _ & H).
  by apply issue_ok in H as (_ & _ & ->).
Qed.

(** A capability that a provider grants is its own. *)
Lemma process_inv_granted w ps hs gs n k i g :
  process_inv (mkProcess w ps hs gs n) → (k, i) ∈ ps → granted_owner g = id_authority i →
  process_inv (mkProcess w ps hs ((k, g) :: gs) n).
Proof.
  intros [] Hk Hg. cbn in *. split; cbn; try done.
  - intros k' g' [[= -> ->] | Hin]%elem_of_cons; eauto.
  - intros k' g' [[= -> ->] | Hin]%elem_of_cons; [| eauto]. rewrite Hg.
    apply (owned_fresh _ _ pi_flags0), list_elem_of_fmap. by exists (k, i).
  - intros k' i' k2 g' Hk' [[= -> ->] | Hin]%elem_of_cons; [| eauto]. rewrite Hg.
    by destruct (pi_provider_names0 k i k' i' Hk Hk').
Qed.

Lemma Identity_new_ok store entropy limits version w (i : Identity S E) w' :
  Identity_new store entropy limits version w = (Ok i, w') →
  id_authority i = fresh (w_flags w) ∧ id_domain i = fresh (w_domains w) ∧
  w' = mkWorld (arc_new true (w_flags w)).2 (arc_new tt (w_domains w)).2.
Proof.
  unfold Identity_new. destruct (validate_contract version); [| done]. destruct (_ <? _); [done |].
  cbn. by intros [= <- <-].
Qed.

Lemma elem_of_tagged {T} (f : T → N) (k : nat) (x : T) l : (k, x) ∈ l → f x ∈ map (λ y, f y.2) l.
Proof. intros H. apply list_elem_of_fmap. by exists (k, x). Qed.

Lemma process_inv_new w ps hs gs n store entropy limits version i w' :
  process_inv (mkProcess w ps hs gs n) →
  Identity_new store entropy limits version w = (Ok i, w') →
  process_inv (mkProcess w' ((n, i) :: ps) hs gs (1 + n)%nat).
Proof.
  intros [Hd Hf Ht Hu Hs Hhs Hcs Hcf Hpn Hhn Hcn Hst] (Ha & Hdi & ->)%Identity_new_ok.
  cbn [pr_world pr_providers pr_handles pr_granted pr_serial] in *.
  assert (∀ k (j : Identity S E), (k, j) ∈ ps → id_domain j ≠ fresh (w_domains w)) as Hnd.
  { intros k j Hj Heq. pose proof (owned_fresh _ _ Hd (id_domain j)) as H.
    rewrite Heq in H. assert (fresh (w_domains w) < fresh (w_domains w)); [apply H | lia].
    apply elem_of_app. left. rewrite <- Heq. by eapply (elem_of_tagged id_domain). }
  assert (∀ k (j : Identity S E), (k, j) ∈ ps → id_authority j ≠ fresh (w_flags w)) as Hna.
  { intros k j Hj Heq. pose proof (owned_fresh _ _ Hf _ (elem_of_tagged id_authority k j ps Hj)). lia. }
  split; cbn [pr_world pr_providers pr_handles pr_granted pr_serial w_flags w_domains map app fmap list_fmap fst snd].
  - rewrite Hdi. exact (owned_new _ _ tt Hd).
  - rewrite Ha. exact (owned_new _ _ true Hf).
  - intros k j [[= -> ->] | Hj]%elem_of_cons.
    + unfold flag. rewrite (arc_get_new _ _ _ _ Hf), decide_True by done. done.
    + rewrite (flag_new_other _ _ true _ Hf); [by eapply Ht | by eapply (elem_of_tagged id_authority)].
  - constructor; [| done]. intros (x & Hx & Hin)%list_elem_of_fmap. destruct x as [k j]. cbn in Hx. subst k.
    apply Hs in Hin. lia.
  - intros k j [[= -> ->] | Hj]%elem_of_cons; [lia |]. apply Hs in Hj. lia.
  - intros k h Hh. apply Hhs in Hh. lia.
  - intros k g Hg. apply Hcs in Hg. lia.
  - intros k g Hg. apply Hcf in Hg. change (granted_owner g < fresh (w_flags w) + 1). lia.
  - intros k j k' j' [[= -> ->] | Hj]%elem_of_cons [[= -> ->] | Hj']%elem_of_cons; [done | | | by apply Hpn].
    + pose proof (Hs _ _ Hj'). pose proof (Hnd _ _ Hj'). pose proof (Hna _ _ Hj'). split; split; lia || congruence.
    + pose proof (Hs _ _ Hj). pose proof (Hnd _ _ Hj). pose proof (Hna _ _ Hj). split; split; lia || congruence.
  - intros k j k' h [[= -> ->] | Hj]%elem_of_cons Hh; [| by apply Hhn]. apply Hhs in Hh as Hlt. split; [| lia].
    intros Heq. assert (h_domain h < fresh (w_domains w)); [| lia].
    apply (owned_fresh _ _ Hd), elem_of_app. right. by eapply (elem_of_tagged h_domain).
  - intros k j k' g [[= -> ->] | Hj]%elem_of_cons Hg; [| by apply Hcn]. apply Hcs in Hg as Hlt.
    apply Hcf in Hg as Hfr. split; lia.
  - intros k j h [[= -> ->] | Hj]%elem_of_cons Hh; [apply Hhs in Hh; lia | by eapply Hst].
Qed.

Lemma process_inv_perm w ps ps' hs hs' gs n :
  ps ≡ₚ ps' → hs ≡ₚ hs' →
  process_inv (mkProcess w ps hs gs n) → process_inv (mkProcess w ps' hs' gs n).
Proof.
  intros Hp Hh [Hd Hf Ht Hu Hs Hhs Hcs Hcf Hpn Hhn Hcn Hst].
  cbn [pr_world pr_providers pr_handles pr_granted pr_serial] in *.
  split; cbn [pr_world pr_providers pr_handles pr_granted pr_serial]; try (intros *; rewrite <- ?Hp, <- ?Hh; eauto).
  - eapply owned_perm; [| exact Hd]. by rewrite Hp, Hh.
  - eapply owned_perm; [| exact Hf]. by rewrite Hp.
Qed.

Lemma process_inv_call w ps hs gs n k i r i' w' :
  process_inv (mkProcess w ((k, i) :: ps) hs gs n) → outcome r i i' w w' →
  process_inv (mkProcess w' ((k, i') :: ps)
    (match r with Ok (h, _) => (k, h) :: hs | Err _ => hs end) gs n).
Proof.
  intros [Hd Hf Ht Hu Hs Hhs Hcs Hcf Hpn Hhn Hcn Hst] [[Hma Hmd _ Hmf Hmdu] Hr].
  cbn [pr_world pr_providers pr_handles pr_granted pr_serial map app fmap list_fmap fst snd] in *.
  assert (∀ j b, (j, b) ∈ (k, i') :: ps → ∃ b0, (j, b0) ∈ (k, i) :: ps ∧
    id_domain b = id_domain b0 ∧ id_authority b = id_authority b0 ∧
    ∀ h, stands_for b0 h → stands_for b h) as Hold.
  { intros j b [[= -> ->] | Hj]%elem_of_cons; [exists i | exists b]; split_and!; try done; try (by left); try (by right).
    intros h (rc & Hrc & Hrest). exists rc. split; [by apply Hmdu | done]. }
  assert (∀ j h, (j, h) ∈ (match r with Ok (h, _) => (k, h) :: hs | Err _ => hs end) →
    (j, h) ∈ hs ∨ (j = k ∧ h_domain h = id_domain i ∧ stands_for i' h)) as Hnew.
  { destruct r as [[h c] |]; [| by left]. intros j h' [[= -> ->] | Hj]%elem_of_cons; [right | by left].
    destruct Hr as (? & _ & ? & _). done. }
  split; cbn [pr_world pr_providers pr_handles pr_granted pr_serial map app fmap list_fmap fst snd];
    rewrite ?Hmf, ?Hma, ?Hmd; try done.
  - destruct r as [[h c] |].
    + destruct Hr as (Hdh & _ & _ & ->). cbn [map snd]. rewrite Hdh.
      refine (owned_perm _ _ _ _ (owned_clone _ _ (id_domain i) ltac:(left) Hd)).
      constructor. by rewrite Permutation_middle.
    + destruct Hr as [-> | ->]; [exact Hd |]. by apply owned_drop, owned_clone; [left |].
  - intros j b (b0 & Hb & _ & Ha & _)%Hold. rewrite Ha. by eapply Ht.
  - intros j b (b0 & Hb & _)%Hold. by eapply Hs.
  - intros j h [Hh | [-> _]]%Hnew; [by eapply Hhs | by eapply (Hs k i); left].
  - intros j b j' b' (b0 & Hb & Hbd & Hba & _)%Hold (b1 & Hb' & Hbd' & Hba' & _)%Hold.
    rewrite Hbd, Hba, Hbd', Hba'. by apply Hpn.
  - intros j b j' h (b0 & Hb & Hbd & _)%Hold [Hh | (-> & Hdh & _)]%Hnew; rewrite Hbd; [by apply Hhn |].
    rewrite Hdh. apply (Hpn k i j b0); [by left | done].
  - intros j b j' g (b0 & Hb & _ & Hba & _)%Hold Hg. rewrite Hba. by apply Hcn.
  - intros j b h Hb [Hh | (-> & _ & Hsh)]%Hnew.
    + destruct (Hold _ _ Hb) as (b0 & Hb0 & _ & _ & Hst'). eapply Hst', Hst; done.
    + apply elem_of_cons in Hb as [[= ->] | Hb]; [done |]. apply NoDup_cons in Hu as [Hn _].
      destruct Hn. apply list_elem_of_fmap. by exists (k, b).
Qed.

Lemma process_inv_drop_handle w ps hs gs n k h :
  process_inv (mkProcess w ps ((k, h) :: hs) gs n) →
  process_inv (mkProcess (mkWorld (w_flags w) (arc_drop (h_domain h) (w_domains w))) ps hs gs n).
Proof.
  intros [Hd Hf Ht Hu Hs Hhs Hcs Hcf Hpn Hhn Hcn Hst].
  cbn [pr_world pr_providers pr_handles pr_granted pr_serial map app fmap list_fmap fst snd] in *.
  split; cbn [pr_world pr_providers pr_handles pr_granted pr_serial w_flags w_domains]; try done.
  - apply owned_drop. eapply owned_perm; [| exact Hd]. by rewrite Permutation_middle.
  - intros j b Hb. eapply Hhs. by right.
  - intros j b j' h' Hb Hh. apply Hhn; [done | by right].
  - intros j b h' Hb Hh. eapply Hst; [done | by right].
Qed.

Lemma process_inv_drop_provider w ps hs gs n k i :
  process_inv (mkProcess w ((k, i) :: ps) hs gs n) →
  process_inv (mkProcess (mkWorld (arc_drop (id_authority i) (w_flags w)) (arc_drop (id_domain i) (w_domains w)))
    ps hs gs n).
Proof.
  intros [Hd Hf Ht Hu Hs Hhs Hcs Hcf Hpn Hhn Hcn Hst].
  cbn [pr_world pr_providers pr_handles pr_granted pr_serial map app fmap list_fmap fst snd] in *.
  split; cbn [pr_world pr_providers pr_handles pr_granted pr_serial w_flags w_domains].
  - by apply owned_drop.
  - by apply owned_drop.
  - intros j b Hb. unfold flag. rewrite (arc_get_drop _ _ _ _ Hf); [by eapply Ht; right |].
    by eapply (elem_of_tagged id_authority).
  - by apply NoDup_cons in Hu as [_ ?].
  - intros j b Hb. eapply Hs. by right.
  - done.
  - done.
  - intros j g Hg. rewrite arc_drop_fresh. by eapply Hcf.
  - intros j b j' b' Hb Hb'. apply Hpn; by right.
  - intros j b j' h Hb Hh. apply Hhn; [by right | done].
  - intros j b j' g Hb Hg. apply Hcn; [by right | done].
  - intros j b h Hb Hh. eapply Hst; [by right | done].
Qed.

Lemma process_inv_step p p' : process_inv p → process_step p p' → process_inv p'.
Proof.
  intros Hi Hs. revert Hi. destruct Hs as [w ps hs gs n st en li ve i w' Hn | w ps hs gs n k i ps' m r i' w' Hm Hp Hr
    | w ps hs gs n k i Q admin h mx c Hk Hg | w ps hs gs n k i admin x mx c Hk Hg
    | w ps hs gs n k h hs' Hp | w ps hs gs n k i ps' Hp]; intros Hi.
  - exact (process_inv_new _ _ _ _ _ _ _ _ _ _ _ Hi Hn).
  - apply (process_inv_perm _ _ _ _ _ _ _ Hp (Permutation_refl hs)) in Hi.
    eapply process_inv_call; [exact Hi |]. pose proof (lifecycle_outcome m i w Hm) as H. by rewrite Hr in H.
  - apply grant_ok in Hg as [_ ->]. by eapply process_inv_granted.
  - apply grant_import_ok in Hg as ->. by eapply process_inv_granted.
  - apply (process_inv_perm _ _ _ _ _ _ _ (Permutation_refl ps) Hp) in Hi. by eapply process_inv_drop_handle.
  - apply (process_inv_perm _ _ _ _ _ _ _ Hp (Permutation_refl hs)) in Hi. by eapply process_inv_drop_provider.
Qed.

Lemma process_inv_reach p p' : process_inv p → rtc process_step p p' → process_inv p'.
Proof. intros Hi H. induction H as [| p1 p2 p3 Hs _ IH]; [done |]. by apply IH, (process_inv_step p1). Qed.
Lemma process_inv_empty : process_inv process_empty.
Proof. split; cbn; try (intros; set_solver); [apply owned_empty.. | constructor]. Qed.

Lemma stands_for_step k h p p' : process_step p p' → (k < pr_serial p)%nat →
  (∀ i, (k, i) ∈ pr_providers p → stands_for i h) →
  (k < pr_serial p')%nat ∧ ∀ i, (k, i) ∈ pr_providers p' → stands_for i h.
Proof.
  intros Hs. destruct Hs as [w ps hs gs n st en li ve i w' Hn | w ps hs gs n j i ps' m r i' w' Hm Hp Hr
    | | | | w ps hs gs n j i ps' Hp]; cbn [pr_serial pr_providers]; intros Hk Hst; try done.
  - split; [lia |]. intros b [[= -> ->] | Hb]%elem_of_cons; [lia | by apply Hst].
  - split; [done |]. pose proof (lifecycle_outcome m i w Hm) as H. rewrite Hr in H. destruct H as [Hmv _].
    intros b [[= -> ->] | Hb]%elem_of_cons; [| apply Hst; rewrite Hp; by right].
    destruct (Hst i) as (rc & Hrc & Hrest); [rewrite Hp; by left |]. exists rc.
    split; [by apply (mv_durable _ _ _ _ Hmv) | done].
  - split; [done |]. intros b Hb. apply Hst. rewrite Hp. by right.
Qed.

(** C19: a store keeps one identity for ever: a handle taken from a provider at
    any time stands, at any later time, for the one record that provider's
    store keeps, which decodes to the handle's private keys and to the public
    credential it showed; so no call of any provider replaces or forks an
    identity, whatever fails in between. *)
Theorem one_identity_per_store p p' k h i :
  rtc process_step process_empty p → rtc process_step p p' →
  (k, h) ∈ pr_handles p → (k, i) ∈ pr_providers p' →
  ∃ r, durable (id_store i) = Some r ∧ record_decode r = Ok (h_keys h) ∧
    h_public h = public_of (h_keys h).
Proof.
  intros Hp Hpp Hh Hi. apply (process_inv_reach _ _ process_inv_empty) in Hp as [].
  assert ((k < pr_serial p)%nat ∧ ∀ i, (k, i) ∈ pr_providers p → stands_for i h) as H0 by eauto.
  clear -H0 Hpp Hi. revert H0. induction Hpp as [| p1 p2 p3 Hs _ IH]; intros [Hk Hst].
  - by apply Hst.
  - apply IH; [done |]. by eapply stands_for_step.
Qed.

Lemma check_handle_ok p k i k' h u :
  process_inv p → (k, i) ∈ pr_providers p → (k', h) ∈ pr_handles p →
  check_handle i h = Ok u ↔ k' = k.
Proof.
  intros [] Hi Hh. rewrite <- (pi_handle_names0 k i k' h Hi Hh). unfold check_handle.
  destruct u, (N.eqb_spec (id_domain i) (h_domain h)); cbn [negb]; split; congruence.
Qed.
Lemma check_granted p k i k' Q (c : Capability Q) id n u :
  process_inv p → (k, i) ∈ pr_providers p → (k', existT Q c) ∈ pr_granted p →
  check (id_authority i) c id n (w_flags (pr_world p)) = Ok u ↔
  k' = k ∧ cap_identity c = Some id ∧ n ≤ cap_maximum_bytes c.
Proof.
  intros [] Hi Hc. unfold check. rewrite check_scope_ok. unfold permits.
  rewrite <- (pi_cap_names0 k i k' _ Hi Hc), (pi_flag0 k i Hi).
  pose proof (proj2 (alive_owned _ _ _ pi_flags0) (elem_of_tagged id_authority k i _ Hi)) as ->.
  unfold granted_owner. cbn. naive_solver.
Qed.

(** C20: private authority is confined: at a provider of any reachable process,
    a handle signs or decrypts under a capability exactly when that very
    provider issued the handle and granted the capability for that purpose and
    for the handle's identity, and the bytes are within the capability's and
    the provider's budgets; the signature and the plaintext are then those of
    the handle's own keys. *)
Theorem private_operations_confined p k i k' h :
  rtc process_step process_empty p →
  (k, i) ∈ pr_providers p → (k', h) ∈ pr_handles p →
  (∀ k'' c m s, (k'', existT PSign c) ∈ pr_granted p →
     identity_sign h c m (i, pr_world p) = Ok s ↔
     k' = k ∧ k'' = k ∧ cap_identity c = Some (handle_id h) ∧
     len m ≤ cap_maximum_bytes c ∧ len m ≤ lim_signing_bytes (id_limits i) ∧
     s = ed25519_sign (ik_signing (h_keys h)) m) ∧
  (∀ k'' c format o s, (k'', existT PDecrypt c) ∈ pr_granted p →
     identity_decrypt h c format o (i, pr_world p) = Ok s ↔
     k' = k ∧ k'' = k ∧ cap_identity c = Some (handle_id h) ∧
     len o ≤ cap_maximum_bytes c ∧ format = GenericV1 ∧
     let n := lim_envelope_bytes (id_limits i) in
     148 ≤ n ∧
     decrypt (mkDecrypt o (handle_id h) (pub_encryption_public_key (h_public h))
       (ik_encryption (h_keys h)) (mkResourceLimits n n)) = Ok s).
Proof using Type*.
  intros Hp Hi Hh. apply (process_inv_reach _ _ process_inv_empty) in Hp.
  pose proof (λ u, check_handle_ok p k i k' h u Hp Hi Hh) as Hch. split.
  - intros k'' c m s Hc. pose proof (λ id n u, check_granted p k i k'' PSign c id n u Hp Hi Hc) as Hcg.
    unfold identity_sign. split.
    + intros H. apply result_bind_Ok_inv in H as (u & Hu & H). apply Hch in Hu.
      apply result_bind_Ok_inv in H as (v & Hv & H). apply Hcg in Hv. unfold sign, into in H.
      destruct (N.ltb_spec (lim_signing_bytes (id_limits i)) (len m)); [done |]. injection H as <-. naive_solver.
    + intros (H1 & H2 & H3 & H4 & H5 & ->). rewrite (proj2 (Hch tt) H1). unfold_m.
      rewrite (proj2 (Hcg _ _ tt) (conj H2 (conj H3 H4))). unfold sign.
      destruct (N.ltb_spec (lim_signing_bytes (id_limits i)) (len m)); [lia | done].
  - intros k'' c format o s Hc. pose proof (λ id n u, check_granted p k i k'' PDecrypt c id n u Hp Hi Hc) as Hcg.
    unfold identity_decrypt. cbv zeta. set (n := lim_envelope_bytes (id_limits i)).
    assert (ResourceLimits_new n n = if n <? 148 then Err CInvalidInput else Ok (mkResourceLimits n n)) as Hl.
    { unfold ResourceLimits_new, MINIMUM_OBJECT_BYTES. destruct (N.eqb_spec n 0) as [-> |]; done. }
    rewrite Hl. split.
    + intros H. apply result_bind_Ok_inv in H as (u & Hu & H). apply Hch in Hu.
      apply result_bind_Ok_inv in H as (v & Hv & H). apply Hcg in Hv. destruct format; [| done].
      destruct (N.ltb_spec n 148); [done |]. apply map_err_Ok in H. naive_solver.
    + intros (H1 & H2 & H3 & H4 & -> & H5 & H6). rewrite (proj2 (Hch tt) H1). unfold_m.
      rewrite (proj2 (Hcg _ _ tt) (conj H2 (conj H3 H4))).
      destruct (N.ltb_spec n 148); [lia |]. cbn [into map_err]. by apply map_err_Ok.
Qed.
End identity.

(** ** A concrete instance: a store in memory *)
Module Demo.
#[local] Existing Instances EnvelopeProps.Demo.crates EnvelopeProps.Demo.entropy.

Definition memory : Type := option CredentialRecord.
#[local] Instance memory_store : KeyStore memory unit := {
  authorize _ _ _ := Ok tt;
  install _ r s := match s with None => (Ok tt, Some r) | Some _ => (Err IdConflict, s) end;
  open_record _ s := (ok_or s IdUnavailable, s);
}.
#[refine, local] Instance memory_laws : KeyStoreLaws memory unit := { durable s := s }.
Proof.
  - intros a r [] u s' [=]. done.
  - intros a r [] e s' [=]; subst; by left.
  - intros s a r s' [= H _]. by apply ok_or_Ok in H.
  - done.
Defined.

Definition limits : Limits := mkLimits 58 4 64 148 232.
Definition world : World := mkWorld (arc_new true Arcs_empty).2 (arc_new tt Arcs_empty).2.
Definition provider : Identity memory N := mkIdentity None 0 limits 0 0.
Definition created := create tt (provider, world).
Definition the_handle : IdentityHandle :=
  match created.1 with
  | Ok (h, _) => h
  | Err _ => mkHandle (mkKeys [] []) (mkPublicCredential (mkPublicIdentity [] []) [] []) 0
  end.
Definition capability : Capability PSign := mkCapability 0 (Some (handle_id the_handle)) 16.
Definition read_capability : Capability PReadPublic := mkCapability 0 (Some (handle_id the_handle)) 1.
Definition running : process :=
  mkProcess created.2.2 [(0%nat, created.2.1)] [(0%nat, the_handle)]
    [(0%nat, existT PReadPublic read_capability); (0%nat, existT PSign capability)] 1.

Lemma running_reached : rtc process_step process_empty running.
Proof.
  eapply rtc_l. { apply (PsNew _ [] [] [] 0 None 0 limits 1 provider world). vm_compute. reflexivity. }
  eapply rtc_l.
  { eapply (PsCall _ _ _ _ _ 0 provider [] (create tt) created.1 created.2.1 created.2.2); [constructor | done |].
    vm_compute. reflexivity. }
  assert (match created.1 with Ok (h, _) => [(0%nat, h)] | Err _ => [] end = [(0%nat, the_handle)]) as ->
    by (vm_compute; reflexivity).
  eapply rtc_l.
  { eapply (PsGrant _ _ _ _ _ 0 created.2.1 PSign tt the_handle 16 capability); [by left |].
    vm_compute. reflexivity. }
  eapply rtc_l; [| apply rtc_refl].
  eapply (PsGrant _ _ _ _ _ 0 created.2.1 PReadPublic tt the_handle 1 read_capability); [by left |].
  vm_compute. reflexivity.
Qed.

Lemma one_identity_per_store_witness :
  ∃ r, durable (id_store created.2.1) = Some r ∧ record_decode r = Ok (h_keys the_handle) ∧
    h_public the_handle = public_of (h_keys the_handle).
Proof.
  apply (one_identity_per_store running running 0%nat the_handle created.2.1 running_reached);
    [apply rtc_refl | by left | by left].
Defined.

Lemma private_operations_confined_witness :
  identity_sign the_handle capability [x01; x02] (created.2.1, created.2.2) =
  Ok (ed25519_sign (ik_signing (h_keys the_handle)) [x01; x02]).
Proof.
  destruct (private_operations_confined running 0%nat created.2.1 0%nat the_handle running_reached) as [H _];
    [by left | by left |].
  apply (H 0%nat capability); [by right; left |]. by vm_compute.
Defined.
End Demo.
