(* ===== verification/IdentityStore.v ===== *)
(** * The protected identity store

    [src/modules/identity/storage/{file,atomic}.rs]: the credential record in an
    owner-only directory, installed once and never replaced.  The contract of
    the key store port is proved for it over any file system that keeps the laws
    of [Files], down to a loss of power in the middle of an installation. *)

From S2P Require Import Prelude Bytes Json IdentityText Api Arcs Crypto Envelope Keys Authority Identity IdentityProps Files.

#[local] Open Scope N_scope.

Definition WRITER_LOCK : bytes := Eval cbv in lit "writer.lock".
Definition IDENTITY_BIN : bytes := Eval cbv in lit "identity.bin".
Definition IDENTITY_PENDING : bytes := Eval cbv in lit "identity.pending".
Definition CONTACTS_BIN : bytes := Eval cbv in lit "contacts.bin".
Definition CONTACTS_PENDING : bytes := Eval cbv in lit "contacts.pending".

Record FileStore : Type := mkFileStore {
  st_directory : Fd;
  st_lock : Fd;
  st_authority : Authority;
  st_limits : Limits;
}.

Definition io_error (e : Errno) : IdentityError :=
  match e with ACCESS | PERM | LOOP => IdAccessDenied | _ => IdUnavailable end.

Section store.
Context {F : Type} `{FS : !Filesystem F}.

Abbreviation FM := (M F IdentityError) (only parsing).

(** ** Opening: [file.rs] *)

(** The modes are [0o040700] and [0o100600] under [0o177777]. *)
Definition validate_metadata (file : Fd) (directory : bool) : FM unit :=
  meta ← io io_error (fstat file);
  let expected := if directory then 16832 else 33152 in
  user ← gets geteuid;
  ensure (negb (negb (st_uid meta =? user) || negb (N.land (st_mode meta) 65535 =? expected)
                || negb directory && negb (st_nlink meta =? 1))) IdAccessDenied.

(** The loop of [open_directory]; [index + 1 == components.len()] when nothing
    is left. *)
Fixpoint walk (directory : Fd) (components : list Component) : FM Fd :=
  match components with
  | [] => mret directory
  | RootDir :: rest | CurDir :: rest => walk directory rest
  | Normal name :: rest =>
    opened ← try_ (open_directory directory name);
    opened ← match opened with
             | Ok fd => mret fd
             | Err NOENT =>
               if is_empty rest then
                 made ← try_ (make_directory directory name);
                 match made with
                 | Ok _ | Err EXIST => mret tt
                 | Err error => throw (io_error error)
                 end;;
                 io (λ _, IdUnavailable) (sync_all directory);;
                 io io_error (open_directory directory name)
               else throw (io_error NOENT)
             | Err error => throw (io_error error)
             end;
    walk opened rest
  | ParentDir :: _ => throw IdInvalidInput
  end.
Definition open_protected_directory (path : Path) : FM Fd :=
  if is_empty (path_components path) then throw IdInvalidInput else
  directory ← io io_error (open_root (if path_absolute path then lit "/" else lit "."));
  walk directory (path_components path).

Fixpoint cleanup_names (directory : Fd) (names : list bytes) : FM unit :=
  match names with
  | [] => mret tt
  | name :: names =>
    opened ← try_ (open_read directory name);
    match opened with
    | Ok file =>
      validate_metadata file false;;
      io io_error (unlink directory name);;
      io (λ _, IdUnavailable) (sync_all directory)
    | Err NOENT => mret tt
    | Err error => throw (io_error error)
    end;;
    cleanup_names directory names
  end.
Definition cleanup_staging (directory : Fd) : FM unit :=
  cleanup_names directory [IDENTITY_PENDING; CONTACTS_PENDING].

(** [FileStore::open], from the opened directory on; the new authority is a
    cell of the process's heap. *)
Definition open_at (directory : Fd) (limits : Limits) (h : Flags)
    : FM (FileStore * Capability PAdministration * Flags) :=
  validate_metadata directory true;;
  lock ← io io_error (open_lock directory WRITER_LOCK);
  validate_metadata lock false;;
  io (λ _, IdConflict) (lock_exclusive lock);;
  cleanup_staging directory;;
  let '(authority, h) := Authority_new h in
  admin ← lift (administration authority (lim_record_bytes limits) h);
  mret (mkFileStore directory lock authority limits, admin, h).
Definition FileStore_open (path : Path) (limits : Limits) (h : Flags)
    : FM (FileStore * Capability PAdministration * Flags) :=
  directory ← open_protected_directory path;
  open_at directory limits h.

(** ** Reading *)

Definition read_bytes (s : FileStore) (name : bytes) (maximum : N) : FM bytes :=
  file ← io io_error (open_read (st_directory s) name);
  validate_metadata file false;;
  metadata ← io (λ _, IdUnavailable) (fstat file);
  ensure (negb (maximum <? st_size metadata)) IdResourceLimit;;
  bound ← lift (ok_or (checked_add u64_limit maximum 1) IdResourceLimit);
  bytes ← io (λ _, IdUnavailable) (read_to_end bound file);
  ensure (negb (maximum <? len bytes)) IdResourceLimit;;
  mret bytes.

Definition store_read (s : FileStore) (h : Flags) (admin : Capability PAdministration) : FM CredentialRecord :=
  lift (check_administration (st_authority s) admin RECORD_BYTES h);;
  bytes ← read_bytes s IDENTITY_BIN (lim_record_bytes (st_limits s));
  lift (from_protected_bytes bytes (st_limits s)).

(** ** Installing: [atomic.rs] *)

(** The record file of a staging name. *)
Definition staging_of (name : bytes) : bytes :=
  if bool_decide (name = IDENTITY_BIN) then IDENTITY_PENDING else CONTACTS_PENDING.
Definition rename_error (e : Errno) : IdentityError :=
  if bool_decide (e = EXIST) then IdConflict else io_error e.

Definition stage_record (s : FileStore) (name out : bytes) (replace : bool) (file : Fd)
    : M (F * bool) IdentityError unit :=
  on_files (validate_metadata file false);;
  on_files (io (λ _, IdUnavailable) (write_all file out));;
  on_files (io (λ _, IdUnavailable) (sync_all file));;
  on_files (io rename_error (rename (st_directory s) (staging_of name) name (negb replace)));;
  set_installed;;
  on_files (io (λ _, IdOutcomeUnknown) (sync_all (st_directory s))).

Definition write_record (s : FileStore) (name out : bytes) (replace : bool) : FM unit :=
  ensure (bool_decide (name = IDENTITY_BIN) && negb replace
          || bool_decide (name = CONTACTS_BIN) && replace) IdInvalidInput;;
  ensure (negb (lim_record_bytes (st_limits s) <? len out)) IdResourceLimit;;
  file ← io io_error (create_new (st_directory s) (staging_of name));
  unstage (st_directory s) (staging_of name) (stage_record s name out replace file).

(** ** The key store port *)

(** The store, its file system, and the heap its authority lives in: a check
    reads no cell but the store's own, which no other code can revoke. *)
Record Stored : Type := mkStored {
  sd_files : F;
  sd_store : FileStore;
  sd_flags : Flags;
}.
Definition on_store {A} (m : FileStore → Flags → FM A) : M Stored IdentityError A := λ s,
  let '(r, f) := m (sd_store s) (sd_flags s) (sd_files s) in (r, mkStored f (sd_store s) (sd_flags s)).

Section crates.
Context `{CR : !Crates}.

Definition store_install (admin : Capability PAdministration) (record : CredentialRecord)
    (s : FileStore) (h : Flags) : FM unit :=
  lift (check_administration (st_authority s) admin (record_len record) h);;
  lift (record_decode record);;
  write_record s IDENTITY_BIN (protected_bytes record) false.

#[global] Instance FileStore_keystore : KeyStore Stored (Capability PAdministration) := {|
  authorize s admin n := check_administration (st_authority (sd_store s)) admin n (sd_flags s);
  install admin record := on_store (store_install admin record);
  open_record admin := on_store (λ s h, store_read s h admin);
|}.

Definition reconcile (admin : Capability PAdministration) (s : FileStore) (h : Flags) : FM CredentialRecord :=
  record ← store_read s h admin;
  lift (record_decode record);;
  io (λ _, IdOutcomeUnknown) (sync_all (st_directory s));;
  mret record.
End crates.
End store.
Arguments Stored : clear implicits.

(** ** What the store promises *)

Section laws.
Context {F : Type} `{FS : !Filesystem F} `{FL : !FilesystemLaws F} `{CR : !Crates}.

Definition stored_view (s : Stored F) : View := view (st_directory (sd_store s)) (sd_files s).
(** The record on file, whatever its format. *)
Definition stored_record (v : View) : option CredentialRecord := mkRecord <$> content v IDENTITY_BIN.

Lemma validate_view d file b (f : F) : view d (validate_metadata file b f).2 = view d f.
Proof.
  pose proof (fstat_law d file f) as [L _]. unfold validate_metadata, mbind, M_bind, io.
  destruct (fstat file f) as [[m | e] f']; cbn in L |- *; [| done]. by destruct (negb _).
Qed.

Lemma validate_error fd b (f : F) e :
  (validate_metadata fd b f).1 = Err e → e = IdAccessDenied ∨ e = IdUnavailable.
Proof.
  unfold validate_metadata, mbind, M_bind, io, gets, ensure. destruct (fstat fd f) as [[m | x] f']; cbn.
  - match goal with |- context [if ?b then _ else _] => destruct b end; [done |]. intros [= <-]. by left.
  - intros [= <-]. destruct x; auto.
Qed.

(** A view that differs in its descriptors only. *)
Definition reopened (v v' : View) : Prop := v' = v ∨ ∃ fd i, v' = set_file fd i v.
Lemma reopened_content v v' n : reopened v v' → content v' n = content v n.
Proof. by intros [-> | (fd & i & ->)]. Qed.
Lemma reopened_image v v' n o : reopened v v' → image v' n o ↔ image v n o.
Proof. by intros [-> | (fd & i & ->)]. Qed.
Lemma reopened_durable v v' n : reopened v v' → durable_name v n → durable_name v' n.
Proof. by intros [-> | (fd & i & ->)]. Qed.

Lemma read_bytes_run s name m (f : F) r f' :
  read_bytes s name m f = (r, f') →
  reopened (view (st_directory s) f) (view (st_directory s) f') ∧
  ∀ b, r = Ok b → content (view (st_directory s) f) name = Some b ∧ len b ≤ m.
Proof.
  set (d := st_directory s). intros H.
  unfold read_bytes, ensure, mbind, M_bind, mret, M_ret, throw, lift, io in H. fold d in H.
  pose proof (open_read_law d name f) as L.
  destruct (open_read d name f) as [[file | e] f1]; cbn [map_err] in H.
  2: { injection H as <- <-. destruct L as [_ ->]. split; [by left | done]. }
  destruct L as (i & Hi & L). pose proof (validate_view d file false f1) as Lp.
  destruct (validate_metadata file false f1) as [[[] | e] f2]; cbn in Lp; rewrite L in Lp.
  2: { injection H as <- <-. split; [right; by exists file, i | done]. }
  pose proof (fstat_law d file f2) as [Ls _].
  destruct (fstat file f2) as [[meta | e] f3]; cbn [map_err snd] in Ls, H; rewrite Lp in Ls.
  2: { injection H as <- <-. split; [right; by exists file, i | done]. }
  destruct (N.ltb_spec m (st_size meta)) as [| Hm]; cbn [negb] in H.
  { injection H as <- <-. split; [right; by exists file, i | done]. }
  destruct (checked_add u64_limit m 1) as [bound |] eqn:Eb; cbn [ok_or] in H.
  2: { injection H as <- <-. split; [right; by exists file, i | done]. }
  apply checked_add_Some in Eb as [-> _]. pose proof (read_law d (m + 1) file f3) as [Lr Hr].
  destruct (read_to_end (m + 1) file f3) as [[b | e] f4]; cbn [map_err fst snd] in Lr, Hr, H; rewrite Ls in Lr.
  2: { injection H as <- <-. split; [right; by exists file, i | done]. }
  destruct (N.ltb_spec m (len b)) as [| Hb]; cbn [negb] in H; injection H as <- <-.
  all: split; [rewrite Lr; right; by exists file, i |]; intros b' [= <-].
  destruct (Hr i b) as (c & Hc & ->); [rewrite Ls; cbn; by rewrite lookup_insert_eq | done |].
  rewrite Ls in Hc. unfold content. rewrite Hi. cbn in Hc |- *. rewrite Hc. split; [| done]. f_equal.
  unfold len in Hb. rewrite length_take in Hb. symmetry. apply take_ge. lia.
Qed.

Lemma store_read_run s h admin (f : F) r f' :
  store_read s h admin f = (r, f') →
  reopened (view (st_directory s) f) (view (st_directory s) f') ∧
  ∀ x, r = Ok x → stored_record (view (st_directory s) f) = Some x ∧
    from_protected_bytes (protected_bytes x) (st_limits s) = Ok x.
Proof.
  intros H. unfold store_read, mbind, M_bind, lift in H.
  destruct (check_administration _ _ _ _) as [u | e]; cbn beta iota in H;
    [| injection H as <- <-; split; [by left | done]].
  destruct (read_bytes _ _ _ f) as [[b | e] f1] eqn:E; cbn beta iota in H; apply read_bytes_run in E as [Hv Hb].
  2: { by injection H as <- <-. }
  injection H as Hr <-. split; [exact Hv |]. intros x ->. destruct (Hb b eq_refl) as [Hc _].
  unfold stored_record. rewrite Hc. apply from_protected_bytes_ok in Hr as Hr'. destruct Hr' as [-> _]. done.
Qed.

Lemma write_record_run s name out replace (f : F) r f' :
  write_record s name out replace f = (r, f') →
  let v := view (st_directory s) f in let v' := view (st_directory s) f' in
  match r with
  | Ok _ => replaced (staging_of name) name (negb replace) out v v' ∧
      (durable_name v name → ∀ o, image v' name o → o = Some out)
  | Err e => e = IdOutcomeUnknown ∧ replaced (staging_of name) name (negb replace) out v v' ∨
      e ≠ IdOutcomeUnknown ∧ beside (staging_of name) v v'
  end ∧ (is_ok r = true → name = IDENTITY_BIN ∧ replace = false ∨ name = CONTACTS_BIN ∧ replace = true).
Proof.
  set (d := st_directory s). intros H. unfold write_record in H. unfold mbind at 1, M_bind at 1 in H.
  destruct (bool_decide (name = IDENTITY_BIN) && negb replace
            || bool_decide (name = CONTACTS_BIN) && replace) eqn:En; cbn in H.
  2: { injection H as <- <-. split; [right; by split | done]. }
  assert (name = IDENTITY_BIN ∧ replace = false ∨ name = CONTACTS_BIN ∧ replace = true) as Hn.
  { apply orb_true_iff in En as [E | E]; apply andb_true_iff in E as [E1%bool_decide_eq_true E2].
    - left. by destruct replace.
    - by right. }
  assert (name ≠ staging_of name) as Hne by by destruct Hn as [[-> _] | [-> _]].
  unfold mbind at 1, M_bind at 1 in H. destruct (lim_record_bytes (st_limits s) <? len out); cbn in H.
  { injection H as <- <-. split; [right; by split | done]. }
  fold d in H. unfold mbind, M_bind, io in H.
  destruct (create_new d (staging_of name) f) as [[file | e] f1] eqn:Ec; cbn [map_err] in H.
  2: { pose proof (create_new_law d (staging_of name) f) as L. rewrite Ec in L. injection H as <- <-. rewrite L.
       split; [right; split; [by destruct e | done] | done]. }
  apply create_new_staging in Ec as [i Hs].
  apply (unstage_run d (staging_of name) name (negb replace) out (λ fd, validate_metadata fd false)
    (λ _, IdUnavailable) (λ _, IdUnavailable) rename_error (λ _, IdOutcomeUnknown)) with (v := view d f) (i := i) in H;
    [| intros fd g; apply validate_view | done | exact Hs].
  split; [| by intros _]. destruct r as [u | e]; [exact H |].
  destruct H as [[[x ->] Hr] | [Hby Hb]]; [by left | right]. split; [| done].
  destruct Hby as [(fd & g & Hc) | [[x ->] | [[x ->] | (x & -> & _)]]]; [| done | done |].
  - intros ->. by apply validate_error in Hc as [[=] | [=]].
  - unfold rename_error. by destruct x.
Qed.

#[global, refine] Instance FileStore_laws : KeyStoreLaws (Stored F) (Capability PAdministration) := {|
  durable s := stored_record (stored_view s);
|}.
Proof using FL.
  - intros admin r [f s h] u s' H. cbn in H. unfold on_store, store_install in H. cbn in H.
    destruct ((lift _ ≫= _) f) as [x f'] eqn:E. injection H as -> <-.
    apply bind_Ok_inv in E as (u1 & f1 & Hc & E). apply lift_Ok_inv in Hc as [_ ->].
    apply bind_Ok_inv in E as (u2 & f2 & Hd & E). apply lift_Ok_inv in Hd as [_ ->].
    apply write_record_run in E as [[[Hout _ _ Hempty _] _] _]. unfold stored_record, stored_view, content. cbn.
    rewrite Hempty by done. split; [done |]. unfold content in Hout. cbn in Hout. rewrite Hout. cbn. by destruct r.
  - intros admin r [f s h] e s' H. cbn in H. unfold on_store, store_install in H. cbn in H.
    destruct ((lift _ ≫= _) f) as [x f'] eqn:E. injection H as -> <-.
    unfold mbind, M_bind, lift in E. destruct (check_administration _ _ _ _); cbn beta iota in E; [| injection E as -> <-; by left].
    destruct (record_decode r); cbn beta iota in E; [| injection E as -> <-; by left].
    apply write_record_run in E as [[[-> [Hout _ _ Hempty _]] | [_ Hb]] _]; unfold stored_record, stored_view; cbn.
    + right. split; [done |]. unfold content at 1. rewrite Hempty by done. split; [done |].
      rewrite Hout. cbn. by destruct r.
    + left. by rewrite (beside_content _ _ _ IDENTITY_BIN Hb).
  - intros [f s h] admin r s' H. cbn in H. unfold on_store in H. cbn in H.
    destruct (store_read s h admin f) as [x f'] eqn:E. injection H as -> <-.
    apply store_read_run in E as [_ E]. by apply E.
  - intros [f s h] admin. cbn. unfold on_store. cbn. destruct (store_read s h admin f) as [x f'] eqn:E.
    apply store_read_run in E as [E _]. unfold stored_view, stored_record. cbn. by rewrite (reopened_content _ _ _ E).
Defined.

(** ** Opening, reconciling *)

Lemma narrows_reopened n v v' : reopened v v' → narrows n v v'.
Proof. intros [-> | (fd & i & ->)]; [done | apply narrows_set_file]. Qed.

(** Opening a store changes nothing but the staging files and the lock. *)
Lemma cleanup_run d n names (f f' : F) u : n ∉ names →
  cleanup_names d names f = (Ok u, f') → narrows n (view d f) (view d f').
Proof.
  revert f. induction names as [| name names IH]; intros f Hn H; [by injection H as _ <- |].
  apply not_elem_of_cons in Hn as [Hne Hn]. cbn [cleanup_names] in H.
  apply bind_Ok_inv in H as (opened & f1 & Ho & H). unfold try_ in Ho.
  pose proof (open_read_law d name f) as L. destruct (open_read d name f) as [r f1']. injection Ho as <- <-.
  apply bind_Ok_inv in H as ([] & f2 & Hs & H). apply IH in H; [| done]. etrans; [clear H | exact H].
  destruct r as [file | []]; try done.
  - destruct L as (i & _ & L). apply bind_Ok_inv in Hs as ([] & g1 & Hv & Hs).
    pose proof (validate_view d file false f1') as V. rewrite Hv in V. cbn [snd] in V.
    apply bind_Ok_inv in Hs as ([] & g2 & Hu%io_Ok_inv & Hy%io_Ok_inv).
    pose proof (unlink_beside d name g1) as W. rewrite Hu in W. cbn [snd] in W. rewrite V, L in W.
    pose proof (sync_directory_law d g2) as Y. rewrite Hy in Y. rewrite Y.
    etrans; [apply (narrows_set_file n file i) |]. etrans; [by eapply narrows_beside | apply narrows_settle].
  - injection Hs as <-. by destruct L as [_ ->].
Qed.

Lemma open_store_run d l h (f : F) s admin h' f' :
  open_at d l h f = (Ok (s, admin, h'), f') →
  st_directory s = d ∧ st_limits s = l ∧ narrows IDENTITY_BIN (view d f) (view d f') ∧
  narrows CONTACTS_BIN (view d f) (view d f').
Proof.
  intros H. unfold open_at in H.
  apply bind_Ok_inv in H as ([] & f1 & Hp & H). pose proof (validate_view d d true f) as V1. rewrite Hp in V1.
  apply bind_Ok_inv in H as (fd & f2 & Hl%io_Ok_inv & H). pose proof (open_lock_law d WRITER_LOCK f1) as V2. rewrite Hl in V2.
  apply bind_Ok_inv in H as ([] & f3 & Hp' & H). pose proof (validate_view d fd false f2) as V3. rewrite Hp' in V3.
  apply bind_Ok_inv in H as ([] & f4 & Hk%io_Ok_inv & H). pose proof (lock_law d fd f3) as V4. rewrite Hk in V4.
  cbn [snd] in *. assert (∀ n, n ≠ WRITER_LOCK → narrows n (view d f) (view d f4)) as H4.
  { intros n Hn. rewrite V4, V3. rewrite V1 in V2. destruct V2 as [(i & _ & ->) | (_ & i & Hi & ->)].
    - apply narrows_set_file.
    - by eapply narrows_beside; [apply beside_created |]. }
  apply bind_Ok_inv in H as ([] & f5 & Hc & H).
  apply bind_Ok_inv in H as (c & f6 & Ha & H). apply lift_Ok_inv in Ha as [_ ->]. injection H as <- _ _ <-.
  split_and!; [done | done | |]; (etrans; [by apply H4 |]; eapply cleanup_run; [| exact Hc]).
  all: by rewrite !not_elem_of_cons; split_and!; [..| apply not_elem_of_nil].
Qed.

(** ** An acknowledged identity is permanent *)

(** The record [r] is the one identity this directory can ever show. *)
Record pledged (r : CredentialRecord) (v : View) : Prop := {
  pl_durable : durable_name v IDENTITY_BIN;
  pl_only : ∀ c, image v IDENTITY_BIN c → c = Some (protected_bytes r);
}.
Lemma pledged_narrows r v v' : narrows IDENTITY_BIN v v' → pledged r v → pledged r v'.
Proof. intros [Hi Hd] [Hp Ho]. split; auto. Qed.
Lemma pledged_restarts r v v' : restarts v v' → pledged r v → pledged r v'.
Proof. intros Hr. by apply pledged_narrows, narrows_restarts. Qed.
Lemma pledged_content r v : pledged r v → content v IDENTITY_BIN = Some (protected_bytes r).
Proof. intros [Hd Ho]. by apply Ho, image_content. Qed.

(** The life of a store's directory: calls on the open store, whatever they
    answer, and restarts after a loss of power at any point. *)
Inductive life : Stored F → Stored F → Prop :=
| life_install s admin r x s' : install admin r s = (x, s') → life s s'
| life_open s admin x s' : open_record admin s = (x, s') → life s s'
| life_reconcile s admin x s' : on_store (reconcile admin) s = (x, s') → life s s'
| life_write s out x s' : on_store (λ t _, write_record t CONTACTS_BIN out true) s = (x, s') → life s s'
| life_read s name maximum x s' : on_store (λ t _, read_bytes t name maximum) s = (x, s') → life s s'
| life_restart s d f l h t admin h' f' : restarts (stored_view s) (view d f) →
    open_at d l h f = (Ok (t, admin, h'), f') → life s (mkStored f' t h').

Lemma store_install_narrows admin r (f : F) s h x f' :
  store_install admin r s h f = (x, f') → current (view (st_directory s) f) IDENTITY_BIN ≠ None →
  narrows IDENTITY_BIN (view (st_directory s) f) (view (st_directory s) f').
Proof.
  intros H Hc. unfold store_install, mbind, M_bind, lift in H.
  destruct (check_administration _ _ _ _); cbn beta iota in H; [| by injection H as _ <-].
  destruct (record_decode r); cbn beta iota in H; [| by injection H as _ <-].
  apply write_record_run in H as [H _]. destruct x as [u | e].
  - destruct H as [[_ _ _ He _] _]. by destruct (Hc (He eq_refl)).
  - destruct H as [[_ [_ _ _ He _]] | [_ Hb]]; [by destruct (Hc (He eq_refl)) |]. by eapply narrows_beside.
Qed.

Lemma reconcile_run admin s h (f : F) x f' :
  reconcile admin s h f = (x, f') →
  narrows IDENTITY_BIN (view (st_directory s) f) (view (st_directory s) f') ∧
  ∀ r, x = Ok r → durable_name (view (st_directory s) f) IDENTITY_BIN →
    pledged r (view (st_directory s) f') ∧ ∃ k, record_decode r = Ok k.
Proof.
  intros H. unfold reconcile, mbind, M_bind, lift, io in H.
  destruct (store_read s h admin f) as [[r | e] f1] eqn:E; apply store_read_run in E as [Hv Hr].
  2: { injection H as <- <-. split; [by apply narrows_reopened | done]. }
  destruct (Hr r eq_refl) as [Hst _]. destruct (record_decode r) as [k | e] eqn:Ek; cbn beta iota in H.
  2: { injection H as <- <-. split; [by apply narrows_reopened | done]. }
  pose proof (sync_directory_law (st_directory s) f1) as L.
  destruct (sync_all (st_directory s) f1) as [[u | e] f2]; cbn in H; injection H as <- <-; rewrite L.
  2: { split; [by apply narrows_reopened | done]. }
  split; [etrans; [by apply narrows_reopened | apply narrows_settle] |]. intros r' [= <-] Hd.
  split; [| by exists k]. apply (reopened_durable _ _ _ Hv) in Hd. split; [by apply durable_settle |].
  intros c. rewrite image_settle by done. intros ->. rewrite (reopened_content _ _ _ Hv).
  unfold stored_record in Hst. apply fmap_Some in Hst as (b & Hb & ->). by rewrite Hb.
Qed.

Lemma life_pledged r s s' : life s s' → pledged r (stored_view s) → pledged r (stored_view s').
Proof using FL.
  intros Hl Hp. pose proof (pledged_content _ _ Hp) as Hc.
  assert (∀ t h (f f' : F), s = mkStored f t h → s' = mkStored f' t h →
    (narrows IDENTITY_BIN (view (st_directory t) f) (view (st_directory t) f')) → pledged r (stored_view s')) as Hn.
  { intros t h f f' -> -> Hw. by apply (pledged_narrows r _ _ Hw). }
  destruct Hl as [[f t h] admin x y s' H | [f t h] admin y s' H | [f t h] admin y s' H
    | [f t h] out y s' H | [f t h] name m y s' H | s d f l h t admin h' f' Hr Ho].
  1-5: cbn in H; unfold on_store in H; cbn in H.
  - destruct (store_install _ _ _ _ _) as [z f'] eqn:E. injection H as _ <-. eapply Hn; [done.. |].
    eapply store_install_narrows; [exact E |]. unfold content, stored_view in Hc. cbn in Hc.
    intros Hnone. by rewrite Hnone in Hc.
  - destruct (store_read _ _ _ _) as [z f'] eqn:E. injection H as _ <-. eapply Hn; [done.. |].
    apply store_read_run in E as [E _]. by apply narrows_reopened.
  - destruct (reconcile _ _ _ _) as [z f'] eqn:E. injection H as _ <-. eapply Hn; [done.. |].
    by apply reconcile_run in E as [E _].
  - destruct (write_record _ _ _ _ _) as [z f'] eqn:E. injection H as _ <-. eapply Hn; [done.. |].
    apply write_record_run in E as [E _]. destruct z as [u | e].
    + destruct E as [[_ _ _ _ Ho] _]. by apply Ho.
    + destruct E as [[_ [_ _ _ _ Ho]] | [_ Hb]]; [by apply Ho | by eapply narrows_beside].
  - destruct (read_bytes _ _ _ _) as [z f'] eqn:E. injection H as _ <-. eapply Hn; [done.. |].
    apply read_bytes_run in E as [E _]. by apply narrows_reopened.
  - apply open_store_run in Ho as (Hd & _ & Hw & _). unfold stored_view. cbn. rewrite Hd.
    eapply pledged_narrows; [exact Hw |]. by eapply pledged_restarts.
Qed.
Lemma lives_pledged r s s' : rtc life s s' → pledged r (stored_view s) → pledged r (stored_view s').
Proof using FL. induction 1 as [| s1 s2 s3 H _ IH]; [done |]. intros Hp. by eapply IH, life_pledged. Qed.

(** An installation or a reconciliation that was acknowledged. *)
Definition acknowledged (s : Stored F) (r : CredentialRecord) (s' : Stored F) : Prop :=
  (∃ admin, install admin r s = (Ok tt, s')) ∨ ∃ admin, on_store (reconcile admin) s = (Ok r, s').
Lemma acknowledged_pledged s r s' :
  durable_name (stored_view s) IDENTITY_BIN → acknowledged s r s' → pledged r (stored_view s').
Proof using FL.
  destruct s as [f t h]. intros Hd [[admin H] | [admin H]]; cbn in H; unfold on_store in H; cbn in H.
  - destruct (store_install _ _ _ _ _) as [z f'] eqn:E. injection H as -> <-. unfold store_install in E.
    apply bind_Ok_inv in E as (u1 & f1 & Hc & E). apply lift_Ok_inv in Hc as [_ ->].
    apply bind_Ok_inv in E as (u2 & f2 & Hk & E). apply lift_Ok_inv in Hk as [_ ->].
    apply write_record_run in E as [[[_ _ Hdur _ _] Ho] _]. split; [by apply Hdur | by apply Ho].
  - destruct (reconcile _ _ _ _) as [z f'] eqn:E. injection H as -> <-.
    apply reconcile_run in E as [_ E]. by apply E.
Qed.

(** C10: an acknowledged identity is permanent.  Once an installation or a
    reconciliation of a record has succeeded, then through any number of calls
    on the store, whatever they answer, and any number of losses of power and
    reopenings, every read of the store that succeeds returns exactly this
    record, no further installation succeeds, and the directory never shows
    another one. *)
Theorem identity_permanent s r s1 s2 :
  durable_name (stored_view s) IDENTITY_BIN → acknowledged s r s1 → rtc life s1 s2 →
  (∀ admin x s3, open_record admin s2 = (Ok x, s3) → x = r) ∧
  (∀ admin x s3, install admin x s2 ≠ (Ok tt, s3)) ∧
  ∀ v, restarts (stored_view s2) v → stored_record v = Some r.
Proof using FL.
  intros Hd Ha Hl. pose proof (lives_pledged _ _ _ Hl (acknowledged_pledged _ _ _ Hd Ha)) as Hp.
  assert (∀ v, pledged r v → stored_record v = Some r) as Hs.
  { intros v Hv. unfold stored_record. rewrite (pledged_content _ _ Hv). by destruct r. }
  split_and!.
  - intros admin x s3 H%open_ok. cbn in H. rewrite (Hs _ Hp) in H. by injection H.
  - intros admin x s3 H%install_ok. destruct H as [H _]. cbn in H. by rewrite (Hs _ Hp) in H.
  - intros v Hv. apply Hs. by eapply pledged_restarts.
Qed.
End laws.

(** ** A machine that loses power *)

Module Demo.
#[local] Existing Instance EnvelopeProps.Demo.crates.

Definition limits : Limits := mkLimits 1024 64 65548 65536 65536.
Definition path : Path := mkPath false [CurDir; Normal (lit "keys")].
Definition keys : IdentityKeys := mkKeys (replicate 32 x01) (replicate 32 x02).
Definition record : CredentialRecord :=
  match record_encode keys limits with Ok r => r | Err _ => mkRecord [] end.

(** A store opened on an empty directory with power for [n] calls, and the
    machine after it installed the record and then ran out of power writing
    contacts. *)
Definition opened (n : nat) : option (Stored Disk * Capability PAdministration) :=
  match FileStore_open path limits Arcs_empty (empty_disk n) with
  | (Ok (t, admin, h), k) => Some (mkStored k t h, admin)
  | (Err _, _) => None
  end.
Definition install_demo (n : nat) : option (result IdentityError unit) :=
  '(s, admin) ← opened n; Some (install admin record s).1.
(** Eight calls open the store, six install the record. *)
Example install_outcomes : map install_demo [9; 12; 13; 14]%nat =
  [Some (Err IdUnavailable); Some (Err IdUnavailable); Some (Err IdOutcomeUnknown); Some (Ok tt)].
Proof. vm_compute. reflexivity. Qed.

(** The record is installed, power fails while contacts are written, and the
    machine comes up with the names of the last directory sync. *)
Definition snapshot : bytes := lit "TSCON001".
Definition power_cut (s : Stored Disk) : Disk := mkDisk (restarted oldest (k_view (sd_files s))) 50.
Definition story : option (Stored Disk * Capability PAdministration * Stored Disk * Stored Disk
    * result IdentityError unit * Stored Disk * Capability PAdministration) :=
  match opened 17 with
  | Some (s, admin) =>
    let '(r, s1) := install admin record s in
    let '(x, s2) := on_store (λ t _, write_record t CONTACTS_BIN snapshot true) s1 in
    match r, open_at 0 limits Arcs_empty (power_cut s2) with
    | Ok _, (Ok (t, admin', h), k) => Some (s, admin, s1, s2, x, mkStored k t h, admin')
    | _, _ => None
    end
  | None => None
  end.
Definition story_holds : bool :=
  match story with
  | Some (s, _, _, s2, x, s3, admin) =>
    bool_decide (v_entries (k_view (sd_files s)) !! IDENTITY_BIN = None) && (st_directory (sd_store s) =? 0)
    && (st_directory (sd_store s2) =? 0) && sound_files oldest (k_view (sd_files s2))
    && bool_decide (x = Err IdUnavailable) && is_ok (open_record admin s3).1
  | None => false
  end.

Lemma identity_permanent_witness : ∃ (s s1 s2 : Stored Disk) admin x s3,
  durable_name (stored_view s) IDENTITY_BIN ∧ acknowledged s record s1 ∧ rtc life s1 s2 ∧
  open_record admin s2 = (Ok x, s3) ∧ x = record ∧
  ∀ v, restarts (stored_view s2) v → stored_record v = Some record.
Proof.
  assert (story_holds = true) as H by (vm_compute; reflexivity). unfold story_holds in H.
  destruct story as [[[[[[[s admin] s1] s2] x] s3] admin'] |] eqn:E; [| discriminate H].
  rewrite !andb_true_iff in H. destruct H as [[[[[H1 H2] H3] H4] H5] H6].
  apply bool_decide_eq_true in H1, H4. apply N.eqb_eq in H2, H3.
  unfold story in E. destruct (opened 17) as [[s0 admin0] |]; [| discriminate E].
  destruct (install admin0 record s0) as [[u | e] s1'] eqn:Ei.
  2: { destruct (on_store _ s1') as [y s2']. discriminate E. }
  destruct (on_store _ s1') as [y s2'] eqn:Ew.
  destruct (open_at _ _ _ _) as [[[[t a] h] | e] k] eqn:Eo; [| discriminate E].
  injection E as -> -> -> -> -> <- ->. destruct u.
  assert (durable_name (stored_view s) IDENTITY_BIN) as Hd.
  { intros i. unfold stored_view. rewrite H2. unfold entries, current, entry. cbn. rewrite H1.
    by intros ?%list_elem_of_singleton. }
  assert (acknowledged s record s1) as Ha by (left; by exists admin).
  assert (rtc life s1 (mkStored k t h)) as Hl.
  { eapply rtc_l; [by eapply life_write |]. eapply rtc_l; [| apply rtc_refl].
    eapply life_restart; [| exact Eo]. unfold stored_view. rewrite H3.
    exact (restarted_restarts oldest (disk_view 0 (sd_files s2)) oldest_elem H4). }
  destruct (open_record admin' (mkStored k t h)) as [[z | e] s4] eqn:Er; [| discriminate H6].
  destruct (identity_permanent s record s1 (mkStored k t h) Hd Ha Hl) as (Hread & _ & Hv).
  exists s, s1, (mkStored k t h), admin', z, s4. split_and!; try done. by eapply Hread.
Defined.
End Demo.
