(* ===== verification/ContactStore.v ===== *)
(** * Protected contact snapshots

    [src/modules/identity/storage/contacts.rs]: the configured contacts in a
    file of the identity store that is replaced as a whole.  The theorem: after
    any calls and losses of power, what is read is a snapshot that was handed to
    a replacement, the last acknowledged one or a later unknown one. *)

From S2P Require Import Prelude Bytes Json IdentityText Api AddressText Arcs Crypto Envelope Keys Authority Identity IdentityProps Files Contact Contacts IdentityStore.

#[local] Open Scope N_scope.

Definition HEADER : bytes := Eval cbv in lit "TSCON001" ++ [x0a].

(** [str::strip_prefix] and [str::split_terminator]. *)
Definition strip_prefix (prefix l : bytes) : option bytes :=
  if bool_decide (prefix `prefix_of` l) then Some (drop (length prefix) l) else None.
Definition split_terminator (c : byte) (l : bytes) : list bytes :=
  let fields := split c l in
  if bool_decide (last fields = Some []) then take (length fields - 1) fields else fields.

(** ** The snapshot as text *)

(** The loop over the lines. *)
Fixpoint read_lines (limits : Limits) (contacts : list Contact) (lines : list bytes)
    : result IdentityError (list Contact) :=
  match lines with
  | [] => Ok contacts
  | line :: lines =>
    if lim_contacts limits <=? len contacts then Err IdResourceLimit else
    entry ← parse line (lim_text_bytes limits);
    text ← format entry;
    if bool_decide (text ≠ line) then Err IdInvalidInput
    else read_lines limits (contacts ++ [entry]) lines
  end.
(** The book that both calls check and sort the contacts with; nothing else
    refers to its authority. *)
Definition sort_contacts (limits : Limits) (contacts : list Contact) : result IdentityError (list Contact) :=
  let '(book, access, _) := ContactBook_new limits Arcs_empty in
  let '(replaced, book) := replace access contacts book in
  _ ← replaced;
  snapshot book access.
(** [read_contacts] from the bytes on. *)
Definition decode_contacts (limits : Limits) (record : bytes) : result IdentityError (list Contact) :=
  if negb (from_utf8 record) then Err IdInvalidInput else
  body ← ok_or (strip_prefix HEADER record) IdUnsupported;
  if negb (is_empty body) && negb (bool_decide (last body = Some x0a)) then Err IdInvalidInput else
  contacts ← read_lines limits [] (split_terminator x0a body);
  sort_contacts limits contacts.

(** The loop over the entries. *)
Fixpoint write_lines (limits : Limits) (record : bytes) (entries : list Contact) : result IdentityError bytes :=
  match entries with
  | [] => Ok record
  | entry :: entries =>
    line ← format entry;
    if lim_record_bytes limits
       <? saturating_add u64_limit (saturating_add u64_limit (len record) (len line)) 1
    then Err IdResourceLimit else write_lines limits (record ++ line ++ [x0a]) entries
  end.
(** [replace_contacts] up to the file. *)
Definition encode_contacts (limits : Limits) (contacts : list Contact) : result IdentityError bytes :=
  entries ← sort_contacts limits contacts;
  write_lines limits HEADER entries.

(** ** The calls *)

Section store.
Context {F : Type} `{FS : !Filesystem F}.
Abbreviation FM := (M F IdentityError) (only parsing).

Definition read_contacts (admin : Capability PAdministration) (s : FileStore) (h : Flags) : FM (list Contact) :=
  lift (check_administration (st_authority s) admin (lim_record_bytes (st_limits s)) h);;
  bytes ← read_bytes s CONTACTS_BIN (lim_record_bytes (st_limits s));
  lift (decode_contacts (st_limits s) bytes).

Definition replace_contacts (admin : Capability PAdministration) (contacts : list Contact)
    (s : FileStore) (h : Flags) : FM unit :=
  lift (check_administration (st_authority s) admin (lim_record_bytes (st_limits s)) h);;
  record ← lift (encode_contacts (st_limits s) contacts);
  write_record s CONTACTS_BIN record true.

Definition reconcile_contacts (admin : Capability PAdministration) (s : FileStore) (h : Flags)
    : FM (list Contact) :=
  contacts ← read_contacts admin s h;
  io (λ _, IdOutcomeUnknown) (sync_all (st_directory s));;
  mret contacts.
End store.

(** ** What is written is read back *)

Definition printed (c : Contact) (t : bytes) : Prop := format c = Ok t.
Definition lines (ts : list bytes) : bytes := concat (map (λ t, t ++ [x0a]) ts).

Definition text_char (b : byte) : Prop := bool_decide (b ≠ x0a ∧ b2N b < 128) = true.
Lemma format_text c t : contact_typed c → format c = Ok t → Forall text_char t.
Proof.
  intros [Hid Ha] [Hc ->]%format_ok. destruct (format_spec _ Hid) as (vs & -> & Hvs & _). rewrite !Forall_app.
  split_and!; [by repeat constructor | |].
  - apply Forall_fmap. eapply Forall_impl; [exact Hvs |]. intros v Hv%alphabet_value.
    change (text_char (alphabet v)). destruct (alphabet v); done || discriminate Hv.
  - destruct (endpoint c) as [a |]; [| by constructor]. destruct (Ha a eq_refl) as [Hip Hp].
    cbn [fmap option_fmap option_map from_option Datatypes.id]. unfold endpoint_text. rewrite !Forall_app.
    split_and!; [by repeat constructor | | by repeat constructor |].
    + apply Forall_concat, Forall_map. eapply Forall_impl; [exact (display_ip_chars _ Hip) |]. intros b Hb.
      destruct b; first [by repeat constructor | discriminate Hb].
    + eapply Forall_impl; [exact (display_number_chars 10 _ (or_introl eq_refl) Hp) |]. intros b [v Hv].
      destruct b; done || discriminate Hv.
Qed.
Lemma format_line c t : contact_typed c → format c = Ok t → x0a ∉ t.
Proof. intros Hc Ht Hin. pose proof (format_text c t Hc Ht) as H. rewrite Forall_forall in H. by apply H in Hin. Qed.

Lemma split_lines ts : Forall (λ t, x0a ∉ t) ts → split_terminator x0a (lines ts) = ts.
Proof.
  intros H. assert (split x0a (lines ts) = ts ++ [[]]) as Hs.
  { induction H as [| t ts Ht _ IH]; [done |]. unfold lines. cbn [map concat]. rewrite <- app_assoc. cbn [app].
    by rewrite split_app, <- IH. }
  unfold split_terminator. rewrite Hs, last_snoc, bool_decide_eq_true_2 by done.
  rewrite length_app, take_app_le by (cbn; lia). apply take_ge. cbn. lia.
Qed.
Lemma lines_ends ts : is_empty (lines ts) = false → last (lines ts) = Some x0a.
Proof.
  destruct ts as [| t ts _] using rev_ind; [done |]. intros _. unfold lines. rewrite map_app, concat_app. cbn.
  by rewrite app_nil_r, app_assoc, last_snoc.
Qed.

Lemma read_lines_printed limits acc cs ts :
  Forall2 printed cs ts → Forall contact_typed cs → Forall (fits limits) cs → len acc + len cs ≤ lim_contacts limits →
  read_lines limits acc ts = Ok (acc ++ cs).
Proof.
  intros H. revert acc. induction H as [| c t cs ts Hc _ IH]; intros acc Ht Hf Hl; [by rewrite app_nil_r |].
  apply Forall_cons in Ht as [Hct Ht]. apply Forall_cons in Hf as [(t' & Ht' & Hlen) Hf].
  rewrite Hc in Ht'. injection Ht' as <-. rewrite len_cons in Hl. cbn [read_lines].
  rewrite (proj2 (N.leb_gt _ _)) by lia. rewrite (parse_format c t _ Hct Hc), (proj2 (N.ltb_ge _ _)) by lia.
  cbn [mbind result_bind]. rewrite Hc. cbn [mbind result_bind]. rewrite bool_decide_eq_false_2 by congruence.
  rewrite IH; [by rewrite <- app_assoc | done.. |]. rewrite len_app, len_cons, len_nil. lia.
Qed.
Lemma write_lines_ok limits record cs out : write_lines limits record cs = Ok out →
  ∃ ts, Forall2 printed cs ts ∧ out = record ++ lines ts.
Proof.
  revert record. induction cs as [| c cs IH]; intros record H; cbn [write_lines] in H.
  - injection H as <-. exists []. by rewrite app_nil_r.
  - apply result_bind_Ok_inv in H as (t & Ht & H). destruct (_ <? _); [done |].
    apply IH in H as (ts & Hts & ->). exists (t :: ts). split; [by constructor |].
    unfold lines. cbn [map concat]. by rewrite <- !app_assoc.
Qed.

(** The contacts in the order of their identities. *)
Definition sorted (cs : list Contact) : list Contact := (Json.entries (by_id cs)).*2.

Definition new_book (limits : Limits) : ContactBook := (ContactBook_new limits Arcs_empty).1.1.
Lemma new_book_ok limits cs : len cs ≤ lim_contacts limits → Forall (fits limits) cs → NoDup (expected_id <$> cs) →
  book_ok (set_entries (by_id cs) (new_book limits)).
Proof.
  intros Hl Hf Hn. split; cbn.
  - intros id c [Hc <-]%by_id_Some; [| done]. split; [done |]. rewrite Forall_forall in Hf. by apply Hf.
  - by rewrite by_id_size.
Qed.
Lemma sort_contacts_ok limits cs l : sort_contacts limits cs = Ok l ↔
  len cs ≤ lim_contacts limits ∧ Forall (fits limits) cs ∧ NoDup (expected_id <$> cs) ∧ l = sorted cs.
Proof.
  unfold sort_contacts. change (ContactBook_new limits Arcs_empty) with (new_book limits, 0, (ContactBook_new limits Arcs_empty).2).
  cbv zeta beta iota. pose proof (replace_run 0 cs (new_book limits) eq_refl) as H.
  destruct (replace 0 cs (new_book limits)) as [[u | e] b'].
  - destruct H as (Hl & Hf & Hn & ->). cbn in Hl, Hf. unfold snapshot. cbn. fold (sorted cs).
    split; [intros [= <-] | intros (_ & _ & _ & ->)]; done.
  - split; [done |]. intros (Hl & Hf & Hn & _). cbn in H. destruct H as [_ [H | [H | H]]]; [lia | done..].
Qed.
Lemma sorted_perm cs : NoDup (expected_id <$> cs) → sorted cs ≡ₚ cs.
Proof.
  intros Hn. unfold sorted, by_id. rewrite entries_permutation, map_to_list_to_map by by rewrite <- list_fmap_compose.
  rewrite <- list_fmap_compose. by rewrite list_fmap_id.
Qed.
Lemma sorted_idemp limits cs l : sort_contacts limits cs = Ok l → sort_contacts limits l = Ok l.
Proof.
  intros (Hl & Hf & Hn & ->)%sort_contacts_ok. pose proof (sorted_perm cs Hn) as Hp. apply sort_contacts_ok.
  destruct (snapshot_spec _ (new_book_ok limits cs Hl Hf Hn)) as (_ & _ & Hb). cbn in Hb. fold (sorted cs) in Hb.
  split_and!; [unfold len; by rewrite Hp | by rewrite Hp | by rewrite Hp |]. unfold sorted at 2. by rewrite Hb.
Qed.

(** A snapshot reads back as its contacts, in order. *)
Lemma encode_decode limits cs out : Forall contact_typed cs → encode_contacts limits cs = Ok out →
  NoDup (expected_id <$> cs) ∧ decode_contacts limits out = Ok (sorted cs).
Proof.
  intros Ht H. apply result_bind_Ok_inv in H as (l & Hs & H). pose proof (sorted_idemp _ _ _ Hs) as Hss.
  apply sort_contacts_ok in Hs as (Hl & Hf & Hn & ->). split; [done |]. pose proof (sorted_perm cs Hn) as Hp.
  apply write_lines_ok in H as (ts & Hts & ->).
  assert (Forall contact_typed (sorted cs) ∧ Forall (fits limits) (sorted cs) ∧ len (sorted cs) ≤ lim_contacts limits)
    as (Ht' & Hf' & Hl').
  { split_and!; [by rewrite Hp | by rewrite Hp |]. unfold len. by rewrite (Permutation_length Hp). }
  assert (Forall (Forall text_char) ts) as Hc.
  { revert Ht'. clear -Hts. induction Hts as [| c t l ts Hc _ IH]; intros Ht; [done |].
    apply Forall_cons in Ht as [Hct Ht]. constructor; [by eapply format_text | by apply IH]. }
  unfold decode_contacts. rewrite from_utf8_ascii.
  2: { apply Forall_app. split; [by repeat constructor |]. apply Forall_concat, Forall_map.
       eapply Forall_impl; [exact Hc |]. intros t Htx. apply Forall_app. split; [| by repeat constructor].
       eapply Forall_impl; [exact Htx |]. by intros b [_ Hb]%bool_decide_eq_true. }
  cbn [negb]. unfold strip_prefix. rewrite bool_decide_eq_true_2 by by eexists.
  rewrite drop_app_length. cbn [ok_or mbind result_bind].
  assert (negb (is_empty (lines ts)) && negb (bool_decide (last (lines ts) = Some x0a)) = false) as ->.
  { destruct (is_empty (lines ts)) eqn:E; [done |]. by rewrite lines_ends, bool_decide_eq_true_2. }
  rewrite split_lines.
  2: { eapply Forall_impl; [exact Hc |]. intros t Htx Hin. rewrite Forall_forall in Htx. by apply Htx in Hin. }
  rewrite (read_lines_printed limits [] (sorted cs)); [exact Hss | done.. |]. by rewrite len_nil.
Qed.

(** ** What a loss of power leaves *)

Section laws.
Context {F : Type} `{FS : !Filesystem F} `{FL : !FilesystemLaws F} `{CR : !Crates}.

(** The contents that a restart may find, as the answers of the calls tell. *)
Abbreviation Contents := (list (option bytes)) (only parsing).
Definition after_replace (limits : Limits) (cs : list Contact) (r : result IdentityError unit) (p : Contents) : Contents :=
  match encode_contacts limits cs, r with
  | Ok out, Ok _ => [Some out]
  | Ok out, Err IdOutcomeUnknown => Some out :: p
  | _, _ => p
  end.
Definition after_reconcile (limits : Limits) (r : result IdentityError (list Contact)) (p : Contents) : Contents :=
  match r with
  | Ok l => filter (λ o, (decode_contacts limits <$> o) = Some (Ok l)) p
  | Err _ => p
  end.

(** The calls on the store and the restarts of its machine. *)
Inductive contact_life : Stored F * Contents → Stored F * Contents → Prop :=
| cl_replace admin cs s p r s' : on_store (replace_contacts admin cs) s = (r, s') →
    contact_life (s, p) (s', after_replace (st_limits (sd_store s)) cs r p)
| cl_reconcile admin s p r s' : on_store (reconcile_contacts admin) s = (r, s') →
    contact_life (s, p) (s', after_reconcile (st_limits (sd_store s)) r p)
| cl_read admin s p r s' : on_store (read_contacts admin) s = (r, s') → contact_life (s, p) (s', p)
| cl_install admin k s p r s' : install admin k s = (r, s') → contact_life (s, p) (s', p)
| cl_open admin s p r s' : open_record admin s = (r, s') → contact_life (s, p) (s', p)
| cl_identity admin s p r s' : on_store (reconcile admin) s = (r, s') → contact_life (s, p) (s', p)
| cl_restart s p d (f : F) h t admin h' f' : restarts (stored_view s) (view d f) →
    open_at d (st_limits (sd_store s)) h f = (Ok (t, admin, h'), f') → contact_life (s, p) (mkStored f' t h', p).

Record kept (v : View) (p : Contents) : Prop := {
  kp_durable : durable_name v CONTACTS_BIN;
  kp_image : ∀ o, image v CONTACTS_BIN o → o ∈ p;
}.
Lemma kept_narrows v v' p : narrows CONTACTS_BIN v v' → kept v p → kept v' p.
Proof. intros [Hi Hd] [H1 H2]. split; auto. Qed.
Lemma kept_content v p : kept v p → content v CONTACTS_BIN ∈ p.
Proof. intros [Hd Hi]. by apply Hi, image_content. Qed.

Lemma read_contacts_run admin s h (f : F) r f' :
  read_contacts admin s h f = (r, f') →
  reopened (view (st_directory s) f) (view (st_directory s) f') ∧
  ∀ l, r = Ok l → ∃ b, content (view (st_directory s) f) CONTACTS_BIN = Some b ∧ decode_contacts (st_limits s) b = Ok l.
Proof.
  intros H. unfold read_contacts, mbind, M_bind, lift in H.
  destruct (check_administration _ _ _ _); cbn beta iota in H; [| injection H as <- <-; split; [by left | done]].
  destruct (read_bytes _ _ _ f) as [[b | e] f1] eqn:E; cbn beta iota in H; apply read_bytes_run in E as [Hv Hb].
  2: { injection H as <- <-. by split. }
  injection H as <- <-. split; [exact Hv |]. intros l Hl. exists b. by destruct (Hb b eq_refl) as [Hc _].
Qed.

(** A replacement leaves the old snapshot or the new one, never another. *)
Lemma replace_contacts_run admin cs s h (f : F) r f' p :
  replace_contacts admin cs s h f = (r, f') → kept (view (st_directory s) f) p →
  kept (view (st_directory s) f') (after_replace (st_limits s) cs r p).
Proof.
  intros H Hk. unfold replace_contacts, mbind, M_bind, lift in H. unfold after_replace.
  destruct (check_administration _ _ _ _) as [u | e] eqn:Ec; cbn beta iota in H.
  2: { injection H as <- <-. unfold check_administration, check_scope in Ec.
       assert (e ≠ IdOutcomeUnknown) by (intros ->; repeat case_match; done).
       destruct (encode_contacts _ cs); [by destruct e | done]. }
  destruct (encode_contacts (st_limits s) cs) as [out | e] eqn:Ee; cbn beta iota in H.
  2: { by injection H as <- <-. }
  apply write_record_run in H as [H _]. destruct r as [u' | e].
  - destruct H as [[_ _ Hd _ _] Him]. split; [by apply Hd, Hk |].
    intros o Hi. apply list_elem_of_singleton. by apply (Him (kp_durable _ _ Hk)).
  - destruct H as [[-> [_ Hi Hd _ _]] | [Hne Hb]].
    + split; [by apply Hd, Hk |]. intros o [H | ->]%Hi; [right; by apply Hk | by left].
    + assert (kept (view (st_directory s) f') p) as Hp.
      { eapply kept_narrows; [by eapply narrows_beside | done]. }
      by destruct e.
Qed.
Lemma reconcile_contacts_run admin s h (f : F) r f' p :
  reconcile_contacts admin s h f = (r, f') → kept (view (st_directory s) f) p →
  kept (view (st_directory s) f') (after_reconcile (st_limits s) r p).
Proof.
  intros H Hk. unfold reconcile_contacts, mbind, M_bind, io in H.
  destruct (read_contacts admin s h f) as [[l | e] f1] eqn:E; apply read_contacts_run in E as [Hv Hl].
  2: { injection H as <- <-. eapply kept_narrows; [by apply narrows_reopened | done]. }
  pose proof (kept_narrows _ _ p (narrows_reopened CONTACTS_BIN _ _ Hv) Hk) as Hk1.
  pose proof (sync_directory_law (st_directory s) f1) as L.
  destruct (sync_all (st_directory s) f1) as [[u | e] f2]; cbn in H; injection H as <- <-; rewrite L; [| done].
  split; [by apply durable_settle, Hk1 |]. intros o. rewrite image_settle by apply Hk1. intros ->.
  apply list_elem_of_filter. split; [| by apply kept_content]. destruct (Hl l eq_refl) as (b & Hb & Hdec).
  rewrite (reopened_content _ _ _ Hv), Hb. cbn. by rewrite Hdec.
Qed.
Lemma store_install_contacts admin k s h (f : F) x f' :
  store_install admin k s h f = (x, f') →
  narrows CONTACTS_BIN (view (st_directory s) f) (view (st_directory s) f').
Proof.
  intros H. unfold store_install, mbind, M_bind, lift in H.
  destruct (check_administration _ _ _ _); cbn beta iota in H; [| by injection H as _ <-].
  destruct (record_decode k); cbn beta iota in H; [| by injection H as _ <-].
  apply write_record_run in H as [H _]. destruct x as [u | e].
  - destruct H as [[_ _ _ _ Ho] _]. by apply Ho.
  - destruct H as [[_ [_ _ _ _ Ho]] | [_ Hb]]; [by apply Ho | by eapply narrows_beside].
Qed.
Lemma reconcile_contacts_kept admin s h (f : F) x f' :
  reconcile admin s h f = (x, f') → narrows CONTACTS_BIN (view (st_directory s) f) (view (st_directory s) f').
Proof.
  intros H. unfold reconcile, mbind, M_bind, lift, io in H.
  destruct (store_read s h admin f) as [[r | e] f1] eqn:E; apply store_read_run in E as [Hv _];
    apply (narrows_reopened CONTACTS_BIN) in Hv.
  2: { by injection H as <- <-. }
  destruct (record_decode r) as [k | e]; cbn beta iota in H; [| by injection H as <- <-].
  pose proof (sync_directory_law (st_directory s) f1) as L.
  destruct (sync_all (st_directory s) f1) as [[u | e] f2]; cbn in H; injection H as <- <-; rewrite L; [| done].
  etrans; [exact Hv | apply narrows_settle].
Qed.

Definition kept_store (s : Stored F) (p : Contents) : Prop := kept (stored_view s) p.
Lemma contact_life_kept x y : contact_life x y → kept_store x.1 x.2 →
  kept_store y.1 y.2 ∧ st_limits (sd_store y.1) = st_limits (sd_store x.1).
Proof using FL.
  intros Hl Hk. unfold kept_store, stored_view in *.
  destruct Hl as [admin cs [f t h] p r s' H | admin [f t h] p r s' H | admin [f t h] p r s' H
    | admin k [f t h] p r s' H | admin [f t h] p r s' H | admin [f t h] p r s' H | s p d f h t admin h' f' Hr Ho].
  1-6: cbn in H, Hk |- *; unfold on_store in H; cbn in H.
  - destruct (replace_contacts _ _ _ _ _) as [z f'] eqn:E. injection H as -> <-. split; [| done].
    by eapply replace_contacts_run.
  - destruct (reconcile_contacts _ _ _ _) as [z f'] eqn:E. injection H as -> <-. split; [| done].
    by eapply reconcile_contacts_run.
  - destruct (read_contacts _ _ _ _) as [z f'] eqn:E. injection H as -> <-. split; [| done].
    apply read_contacts_run in E as [E _]. eapply kept_narrows; [by apply narrows_reopened | done].
  - destruct (store_install _ _ _ _ _) as [z f'] eqn:E. injection H as -> <-. split; [| done].
    eapply kept_narrows; [by eapply store_install_contacts | done].
  - destruct (store_read _ _ _ _) as [z f'] eqn:E. injection H as -> <-. split; [| done].
    apply store_read_run in E as [E _]. eapply kept_narrows; [by apply narrows_reopened | done].
  - destruct (reconcile _ _ _ _) as [z f'] eqn:E. injection H as -> <-. split; [| done].
    eapply kept_narrows; [by eapply reconcile_contacts_kept | done].
  - apply open_store_run in Ho as (Hd & Hlim & _ & Hw). cbn in Hk |- *. rewrite Hd. split; [| exact Hlim].
    eapply kept_narrows; [exact Hw |]. eapply kept_narrows; [by apply narrows_restarts | done].
Qed.
Lemma contact_lives_kept x y : rtc contact_life x y → kept_store x.1 x.2 →
  kept_store y.1 y.2 ∧ st_limits (sd_store y.1) = st_limits (sd_store x.1).
Proof using FL.
  induction 1 as [| x y z H _ IH]; [done |]. intros Hk. apply contact_life_kept in H as [H1 H2]; [| done].
  rewrite <- H2. by apply IH.
Qed.

(** C11: contact snapshots are kept whole.  After any calls on the store,
    whatever they answer, and any losses of power and reopenings, the contacts
    file holds a possible content: one it started with or one handed to a
    replacement, where an acknowledged replacement leaves exactly its own, one
    with an unknown outcome adds its own, one that failed adds nothing, and an
    acknowledged reconciliation leaves exactly what it returned.  So every read
    that succeeds returns a whole snapshot that was handed over, and what an
    acknowledged replacement of contacts leaves reads back as these contacts, in
    the order of their identities. *)
Theorem contacts_kept (s0 s : Stored F) p0 p :
  kept_store s0 p0 → rtc contact_life (s0, p0) (s, p) →
  let limits := st_limits (sd_store s0) in
  (∀ v, restarts (stored_view s) v → content v CONTACTS_BIN ∈ p) ∧
  (∀ admin l s', on_store (read_contacts admin) s = (Ok l, s') →
     ∃ b, Some b ∈ p ∧ decode_contacts limits b = Ok l) ∧
  ∀ admin cs s', on_store (replace_contacts admin cs) s = (Ok tt, s') → Forall contact_typed cs →
    ∃ out, after_replace limits cs (Ok tt) p = [Some out] ∧ sorted cs ≡ₚ cs ∧
      decode_contacts limits out = Ok (sorted cs).
Proof using FL.
  intros Hk0 Hl. apply contact_lives_kept in Hl as [Hk Hlim]; [| exact Hk0]. cbn [fst snd] in *. rewrite <- Hlim.
  destruct s as [f t h]. unfold kept_store, stored_view in *. cbn in Hk |- *. split_and!.
  - intros v Hv. apply kept_content. eapply kept_narrows; [by apply narrows_restarts | done].
  - intros admin l s' H. unfold on_store in H. cbn in H.
    destruct (read_contacts _ _ _ _) as [z f'] eqn:E. injection H as -> <-.
    apply read_contacts_run in E as [_ E]. destruct (E l eq_refl) as (b & Hb & Hdec). exists b. split; [| done].
    rewrite <- Hb. by apply kept_content.
  - intros admin cs s' H Ht. unfold on_store in H. cbn in H.
    destruct (replace_contacts _ _ _ _ _) as [z f'] eqn:E. injection H as -> <-. unfold replace_contacts in E.
    apply bind_Ok_inv in E as (u & f1 & _ & E). apply bind_Ok_inv in E as (out & f2 & [Ho _]%lift_Ok_inv & _).
    destruct (encode_decode _ _ _ Ht Ho) as [Hn Hdec]. exists out. unfold after_replace. rewrite Ho.
    split_and!; [done | by apply sorted_perm | done].
Qed.
End laws.

(** ** A machine that loses power while its contacts are replaced *)

Module Demo.
#[local] Existing Instance EnvelopeProps.Demo.crates.
Import IdentityStore.Demo.

Definition hint (b : byte) (e : option SocketAddr) : Contact := mkContact (replicate 32 b) e.
Definition old : list Contact := [hint x02 None; hint x01 (Some (SocketAddrV4 (mkIpv4 x7f x00 x00 x01) 80))].
Definition new : list Contact := [hint x03 None].
Definition out_of (cs : list Contact) : bytes := match encode_contacts limits cs with Ok b => b | Err _ => [] end.

(** Opened on an empty directory, [old] is acknowledged, the outcome of [new] is
    unknown, and the machine comes up again. *)
Definition story (pick : option N * list (option N) → option N) : option (Stored Disk * Capability PAdministration * Stored Disk * Stored Disk
    * result IdentityError unit * Stored Disk * Capability PAdministration) :=
  match opened 19 with
  | Some (s, admin) =>
    let '(r, s1) := on_store (replace_contacts admin old) s in
    let '(x, s2) := on_store (replace_contacts admin new) s1 in
    match r, open_at 0 limits Arcs_empty (mkDisk (restarted pick (k_view (sd_files s2))) 50) with
    | Ok _, (Ok (t, admin', h), k) => Some (s, admin, s1, s2, x, mkStored k t h, admin')
    | _, _ => None
    end
  | None => None
  end.
Definition read_after (pick : option N * list (option N) → option N) : option (result IdentityError unit * result IdentityError (list Contact)) :=
  match story pick with
  | Some (_, _, _, _, x, s3, admin) => Some (x, (on_store (read_contacts admin) s3).1)
  | None => None
  end.
Example snapshot_outcomes : read_after oldest = Some (Err IdOutcomeUnknown, Ok (reverse old)) ∧
  read_after newest = Some (Err IdOutcomeUnknown, Ok new).
Proof. vm_compute. done. Qed.

#[local] Instance Limits_eq_dec : EqDecision Limits.
Proof. solve_decision. Defined.
Definition story_holds : bool :=
  match story newest with
  | Some (s, _, _, s2, x, s3, admin) =>
    bool_decide (v_entries (k_view (sd_files s)) !! CONTACTS_BIN = None) && (st_directory (sd_store s) =? 0)
    && (st_directory (sd_store s2) =? 0) && sound_files newest (k_view (sd_files s2))
    && bool_decide (x = Err IdOutcomeUnknown) && bool_decide (st_limits (sd_store s) = limits)
    && bool_decide (st_limits (sd_store s2) = limits)
    && bool_decide ((on_store (read_contacts admin) s3).1 = Ok new)
  | None => false
  end.

Lemma contacts_kept_witness : ∃ (s0 s : Stored Disk) admin b,
  kept_store s0 [None] ∧
  rtc contact_life (s0, [None]) (s, [Some (out_of new); Some (out_of old)]) ∧
  (on_store (read_contacts admin) s).1 = Ok new ∧
  Some b ∈ [Some (out_of new); Some (out_of old)] ∧ decode_contacts limits b = Ok new.
Proof.
  assert (story_holds = true) as H by (vm_compute; reflexivity). unfold story_holds in H.
  destruct (story newest) as [[[[[[[s admin] s1] s2] x] s3] admin'] |] eqn:E; [| discriminate H].
  rewrite !andb_true_iff in H. destruct H as [[[[[[[H1 H2] H3] H4] H5] H6] H7] H8].
  apply bool_decide_eq_true in H1, H4, H5, H6, H7, H8. apply N.eqb_eq in H2, H3.
  unfold story in E. destruct (opened 19) as [[s0 admin0] |]; [| discriminate E].
  destruct (on_store (replace_contacts admin0 old) s0) as [[u | e] s1'] eqn:Eo.
  2: { destruct (on_store _ s1') as [y s2']. discriminate E. }
  destruct (on_store _ s1') as [y s2'] eqn:En.
  destruct (open_at _ _ _ _) as [[[[t a] h] | e] k] eqn:Er; [| discriminate E].
  injection E as -> -> -> -> -> <- ->. destruct u. subst x.
  assert (st_limits (sd_store s1) = limits) as H6'.
  { unfold on_store in Eo. destruct (replace_contacts _ _ _ _ _). injection Eo as _ <-. exact H6. }
  assert (kept_store s [None]) as Hk.
  { split; unfold stored_view; rewrite H2.
    - intros i. unfold entries, current, entry. cbn. rewrite H1. by intros ?%list_elem_of_singleton.
    - intros o (e & He & Ho). unfold entries, current, entry in He. cbn in He. rewrite H1 in He.
      apply list_elem_of_singleton in He as ->. by apply list_elem_of_singleton. }
  pose proof (cl_replace admin old s [None] (Ok tt) s1 Eo) as L1. rewrite H6 in L1.
  pose proof (cl_replace admin new s1 [Some (out_of old)] (Err IdOutcomeUnknown) s2 En) as L2. rewrite H6' in L2.
  assert (after_replace limits old (Ok tt) [None] = [Some (out_of old)]) as A1 by (vm_compute; reflexivity).
  assert (after_replace limits new (Err IdOutcomeUnknown) [Some (out_of old)] = [Some (out_of new); Some (out_of old)])
    as A2 by (vm_compute; reflexivity).
  rewrite A1 in L1. rewrite A2 in L2.
  assert (rtc contact_life (s, [None]) (mkStored k t h, [Some (out_of new); Some (out_of old)])) as Hl.
  { eapply rtc_l; [exact L1 |]. eapply rtc_l; [exact L2 |]. eapply rtc_l, rtc_refl.
    eapply cl_restart; [| rewrite H7; exact Er]. unfold stored_view. rewrite H3.
    exact (restarted_restarts newest (disk_view 0 (sd_files s2)) newest_elem H4). }
  destruct (contacts_kept s (mkStored k t h) [None] _ Hk Hl) as (_ & Hread & _). rewrite H6 in Hread.
  destruct (on_store (read_contacts admin') (mkStored k t h)) as [r s4] eqn:Ex. cbn in H8. subst r.
  destruct (Hread admin' new s4 Ex) as (b & Hb & Hdec). exists s, (mkStored k t h), admin', b.
  split_and!; [exact Hk | exact Hl | by rewrite Ex | exact Hb | exact Hdec].
Defined.
End Demo.
