(* ===== verification/Recipients.v ===== *)
(** * Identity validation, proofs and retained recipients

    [src/modules/identity/{id,proof,crypto,selection}.rs]: the relation of a
    key and its identifier, proofs over exact bytes, selection of the local
    credential and the bounded pins of recipients. *)

From S2P Require Import Prelude Bytes IdentityText Api Crypto Envelope EnvelopeProps Keys Identity.

#[local] Open Scope N_scope.

(** ** The port of the Identity module: [ports.rs], [crypto.rs] *)

Class IdentityCryptography (C : Type) : Type := {
  port_sha256 : C → bytes → result IdentityError bytes;
  validate_signing_key : C → bytes → result IdentityError unit;
  port_verify : C → bytes → bytes → bytes → result IdentityError unit;
}.

#[global] Instance provider_port `{CR : !Crates} {E : Type} : IdentityCryptography (CryptoProvider E) := {
  port_sha256 p b := into (provider_sha256 b p);
  validate_signing_key _ b := into (_ ← VerificationKey_parse b; Ok tt);
  port_verify p key m s := into (verify key m s (prov_maximum_bytes p));
}.

(** ** Identifiers: [id.rs] *)

Section port.
Context {C : Type} `{IC : !IdentityCryptography C}.

(** [try_into] at the Identity boundary. *)
Definition fixed (n : nat) (b : bytes) : result IdentityError bytes := into (exactly n b).

Definition id_derive (c : C) (version algorithm : byte) (key : bytes) : result IdentityError IdentityId :=
  if negb (b2N version =? 1) || negb (b2N algorithm =? 1) then Err IdUnsupported else
  key ← fixed 32 key;
  port_sha256 c ([x01; x01] ++ key).

Definition id_validate (c : C) (version algorithm : byte) (key claimed : bytes)
    : result IdentityError PublicIdentity :=
  expected ← fixed 32 claimed;
  id ← id_derive c version algorithm key;
  if negb (bool_decide (id = expected)) then Err IdMismatch else
  _ ← validate_signing_key c key;
  key ← fixed 32 key;
  Ok (mkPublicIdentity id key).

(** ** Proofs: [proof.rs] *)

Record Proof : Type := mkProof {
  proof_version : byte;
  proof_algorithm : byte;
  proof_claimed_id : bytes;
  proof_public_key : bytes;
  proof_message : bytes;
  proof_signature : bytes;
}.

Definition proof_verify (c : C) (p : Proof) (maximum : N) : result IdentityError PublicIdentity :=
  if maximum <? len (proof_message p) then Err IdResourceLimit else
  if negb (len (proof_signature p) =? 64) then Err IdInvalidInput else
  identity ← id_validate c (proof_version p) (proof_algorithm p) (proof_public_key p) (proof_claimed_id p);
  _ ← port_verify c (proof_public_key p) (proof_message p) (proof_signature p);
  Ok identity.
End port.

(** ** Selection and recipients: [selection.rs] *)

Inductive KeyChange : Type := Unchanged | NewIdentity | InconsistentEncryptionKey.

Record RecipientPins : Type := mkPins {
  pins_entries : gmap IdentityId PublicCredential;
  pins_maximum : N;
}.

Section selection.
Context `{CR : !Crates}.

Definition recipient_of (v : PublicCredential) : RecipientCredential :=
  mkCredential (pub_id (pub_identity v)) (pub_signing_public_key (pub_identity v))
    (pub_encryption_public_key v) (pub_binding_signature v).
Definition selection_validate (v : PublicCredential) : result IdentityError unit :=
  _ ← into (credential_validate (recipient_of v)); Ok tt.

Definition select_configured (credentials : list PublicCredential) : result IdentityError PublicCredential :=
  match credentials with
  | [credential] => _ ← selection_validate credential; Ok credential
  | _ => Err IdInvalidInput
  end.

Definition classify (current candidate : PublicCredential) : result IdentityError KeyChange :=
  _ ← selection_validate current;
  _ ← selection_validate candidate;
  Ok (if negb (bool_decide (pub_id (pub_identity current) = pub_id (pub_identity candidate))) then NewIdentity
      else if negb (bool_decide (pub_encryption_public_key current = pub_encryption_public_key candidate))
      then InconsistentEncryptionKey else Unchanged).

Definition require_unchanged (current candidate : PublicCredential) : result IdentityError unit :=
  change ← classify current candidate;
  match change with Unchanged => Ok tt | _ => Err IdConflict end.

Definition RecipientPins_new (maximum : N) : result IdentityError RecipientPins :=
  if maximum =? 0 then Err IdInvalidInput else Ok (mkPins ∅ maximum).

Definition pins_retain (candidate : PublicCredential) : M RecipientPins IdentityError unit := λ p,
  match selection_validate candidate with
  | Err e => (Err e, p)
  | Ok _ =>
    let id := pub_id (pub_identity candidate) in
    match pins_entries p !! id with
    | Some current => (require_unchanged current candidate, p)
    | None =>
      if pins_maximum p <=? N.of_nat (size (pins_entries p)) then (Err IdResourceLimit, p)
      else (Ok tt, mkPins (<[id := candidate]> (pins_entries p)) (pins_maximum p))
    end
  end.
Definition pins_get (id : IdentityId) (p : RecipientPins) : option PublicCredential := pins_entries p !! id.
End selection.

(** ** Proofs are of the claimed identity *)

Section proofs.
Context `{CR : !Crates} {E : Type}.

Lemma into_Ok {A} (r : result CryptoError A) a : into r = Ok a ↔ r = Ok a.
Proof. apply map_err_Ok. Qed.
Lemma fixed_Ok n b a : fixed n b = Ok a ↔ a = b ∧ length b = n.
Proof. unfold fixed. by rewrite into_Ok, exactly_Ok. Qed.

Lemma sha256_ok b m d : sha256 b m = Ok d ↔ d = sha256_digest b ∧ len b ≤ m.
Proof.
  unfold sha256, Sha256State_update. cbn [remaining Sha256State_new].
  destruct (N.ltb_spec m (len b)); [split; [done | lia] |]. cbn. split; [by intros [= <-] | by intros [-> _]].
Qed.

Lemma id_validate_ok (c : CryptoProvider E) v a key claimed identity :
  id_validate c v a key claimed = Ok identity ↔
  identity = mkPublicIdentity claimed key ∧ b2N v = 1 ∧ b2N a = 1 ∧
  claimed = sha256_digest ([x01; x01] ++ key) ∧ len ([x01; x01] ++ key) ≤ prov_maximum_bytes c ∧
  canonical key.
Proof.
  unfold id_validate, id_derive. split.
  - intros H. apply result_bind_Ok_inv in H as (e & He & H). apply fixed_Ok in He as [-> _].
    apply result_bind_Ok_inv in H as (i & Hi & H).
    destruct (N.eqb_spec (b2N v) 1); [| done]. destruct (N.eqb_spec (b2N a) 1); [| done]. cbn [negb orb] in Hi.
    apply result_bind_Ok_inv in Hi as (k & Hk & Hi). apply fixed_Ok in Hk as [-> _].
    apply into_Ok, sha256_ok in Hi as [Hi Hm]. case_bool_decide as Hc; [cbn [negb] in H | done].
    apply result_bind_Ok_inv in H as (u & Hu & H). apply into_Ok, result_bind_Ok_inv in Hu as (k & Hk & _).
    apply VerificationKey_parse_ok in Hk as [_ Hk]. apply result_bind_Ok_inv in H as (k' & Hk' & [= <-]).
    apply fixed_Ok in Hk' as [-> _]. split_and!; congruence || done.
  - intros (-> & Hv & Ha & Hi & Hm & Hk). rewrite Hv, Ha. cbn [negb orb N.eqb Pos.eqb].
    rewrite (proj2 (fixed_Ok 32 claimed claimed)) by (split; [done | rewrite Hi; apply sha256_digest_32]).
    rewrite (proj2 (fixed_Ok 32 key key)) by (split; [done | apply Hk]). unfold_m.
    unfold port_sha256, provider_port, provider_sha256.
    rewrite (proj2 (into_Ok _ claimed)) by (by apply sha256_ok).
    rewrite bool_decide_true by done. cbn [negb validate_signing_key provider_port].
    unfold validate_signing_key, provider_port. by rewrite (proj2 (VerificationKey_parse_ok _ _) (conj eq_refl Hk)).
Qed.

(** A proof is accepted exactly when both selectors are one, the claimed
    identifier is the digest of two one bytes and the key, the key and the
    first half of the 64-byte signature are canonical points not of small
    order, the signature verifies strictly over the exact message, and the
    message is within the caller's and the provider's budgets. *)
Theorem proof_exact (c : CryptoProvider E) p maximum identity :
  proof_verify c p maximum = Ok identity ↔
  identity = mkPublicIdentity (proof_claimed_id p) (proof_public_key p) ∧
  b2N (proof_version p) = 1 ∧ b2N (proof_algorithm p) = 1 ∧
  proof_claimed_id p = sha256_digest ([x01; x01] ++ proof_public_key p) ∧
  len ([x01; x01] ++ proof_public_key p) ≤ prov_maximum_bytes c ∧
  len (proof_message p) ≤ maximum ∧ len (proof_message p) ≤ prov_maximum_bytes c ∧
  canonical (proof_public_key p) ∧ length (proof_signature p) = 64%nat ∧
  canonical (take 32 (proof_signature p)) ∧
  ed25519_verifying_key (proof_public_key p) = true ∧
  ed25519_signature (proof_signature p) = true ∧
  ed25519_verify_strict (proof_public_key p) (proof_message p) (proof_signature p) = true.
Proof.
  unfold proof_verify.
  destruct (N.ltb_spec maximum (len (proof_message p))); [split; [done | lia] |].
  destruct (N.eqb_spec (len (proof_signature p)) 64) as [H64 |]; cbn [negb];
    [| split; [done |]; intros (_ & _ & _ & _ & _ & _ & _ & _ & H64 & _); unfold len in *; lia].
  split.
  - intros H0. apply result_bind_Ok_inv in H0 as (i & Hi & H0). apply id_validate_ok in Hi as (-> & Hi).
    apply result_bind_Ok_inv in H0 as ([] & Hv & [= <-]). apply into_Ok, verify_ok in Hv. naive_solver.
  - intros (-> & Hv & Ha & Hi & Hl & _ & Hm & Hk & Hs).
    rewrite (proj2 (id_validate_ok c _ _ _ _ _) (conj eq_refl (conj Hv (conj Ha (conj Hi (conj Hl Hk)))))).
    unfold_m. unfold port_verify, provider_port.
    by rewrite (proj2 (into_Ok _ tt) (proj2 (verify_ok _ _ _ _) (conj Hm (conj Hk Hs)))).
Qed.
End proofs.

(** ** Pins are kept *)

Section pins.
Context `{CR : !Crates}.

Inductive pins_step : RecipientPins → RecipientPins → Prop :=
| PinsRetain c p r p' : pins_retain c p = (r, p') → pins_step p p'.

Record pins_inv (p : RecipientPins) : Prop := {
  pin_bound : N.of_nat (size (pins_entries p)) ≤ pins_maximum p;
  pin_valid : ∀ id c, pins_get id p = Some c →
    pub_id (pub_identity c) = id ∧ selection_validate c = Ok tt;
}.

Lemma pins_retain_inv c p r p' : pins_retain c p = (r, p') → pins_inv p →
  pins_inv p' ∧ pins_maximum p' = pins_maximum p ∧ pins_entries p ⊆ pins_entries p'.
Proof.
  unfold pins_retain. intros H Hi. destruct (selection_validate c) as [[] |] eqn:Hv; [| by injection H as <- <-].
  destruct (pins_entries p !! _) as [cur |] eqn:Hc; [by injection H as <- <- |].
  destruct (N.leb_spec (pins_maximum p) (N.of_nat (size (pins_entries p)))); injection H as <- <-; [done |].
  destruct Hi as [Hb Hval]. split_and!; [| done | by apply insert_subseteq].
  split; unfold pins_get; cbn.
  - rewrite map_size_insert_None by done. lia.
  - intros id c' [[<- <-] | [_ Hc']]%lookup_insert_Some; [done | by apply Hval].
Qed.

Lemma pins_steps_inv p p' : rtc pins_step p p' → pins_inv p →
  pins_inv p' ∧ pins_maximum p' = pins_maximum p ∧ pins_entries p ⊆ pins_entries p'.
Proof.
  induction 1 as [| p1 p2 p3 [c q r q' Hs] _ IH]; intros Hi; [done |].
  destruct (pins_retain_inv _ _ _ _ Hs Hi) as (Hi2 & Hm & Hsub).
  destruct (IH Hi2) as (? & ? & ?). split_and!; [done | congruence | by etrans].
Qed.

Lemma require_unchanged_ok c c' : selection_validate c = Ok tt → selection_validate c' = Ok tt →
  pub_id (pub_identity c) = pub_id (pub_identity c') →
  require_unchanged c c' = Ok tt ↔ pub_encryption_public_key c' = pub_encryption_public_key c.
Proof.
  intros Hc Hc' Hid. unfold require_unchanged, classify. rewrite Hc, Hc'. unfold_m.
  rewrite bool_decide_true by done. cbn [negb]. case_bool_decide; cbn [negb]; split; congruence.
Qed.

(** Pins are kept for ever: over any sequence of offered credentials, valid
    or not, the number of recipients stays within the limit, each was accepted
    as the credential of the identifier it is kept under, and a retained
    recipient keeps its very credential, in particular its encryption key;
    and once it is retained, offering a credential for the same identifier
    succeeds exactly when that is valid and has the same encryption key. *)
Theorem pins_kept m p0 p p' :
  RecipientPins_new m = Ok p0 → rtc pins_step p0 p → rtc pins_step p p' →
  N.of_nat (size (pins_entries p')) ≤ m ∧
  ∀ id c, pins_get id p = Some c →
    pins_get id p' = Some c ∧ pub_id (pub_identity c) = id ∧ selection_validate c = Ok tt ∧
    ∀ c', pub_id (pub_identity c') = id →
      (pins_retain c' p').1 = Ok tt ↔
      selection_validate c' = Ok tt ∧ pub_encryption_public_key c' = pub_encryption_public_key c.
Proof.
  intros H0 Hp Hp'. unfold RecipientPins_new in H0. destruct (N.eqb_spec m 0); [done |]. injection H0 as <-.
  apply pins_steps_inv in Hp as (Hi & Hm & _); [| split; [cbn; rewrite map_size_empty; lia | done]].
  destruct (pins_steps_inv _ _ Hp' Hi) as (Hi' & Hm' & Hsub). cbn in Hm. split.
  { pose proof (pin_bound _ Hi'). congruence. }
  intros id c Hc. assert (pins_get id p' = Some c) as Hc' by (by eapply lookup_weaken).
  destruct (pin_valid _ Hi id c Hc) as [Hid Hv]. split_and!; try done. intros c' Hid'.
  unfold pins_retain. destruct (selection_validate c') as [[] |] eqn:Hv'; cbn [fst]; [| naive_solver].
  unfold pins_get in Hc'. rewrite Hid', Hc'. cbn [fst]. rewrite require_unchanged_ok by congruence. naive_solver.
Qed.
End pins.

(** A credential pinned, and the same identifier with a forged binding refused. *)
Module Demo.
#[local] Existing Instance EnvelopeProps.Demo.crates.
Definition credential : PublicCredential :=
  let r := EnvelopeProps.Demo.recipient in
  mkPublicCredential (mkPublicIdentity (cred_identity_id r) (cred_signing_public_key r))
    (cred_encryption_public_key r) (cred_binding_signature r).
Definition pins0 : RecipientPins := mkPins ∅ 2.
Definition pins1 : RecipientPins := (pins_retain credential pins0).2.

Lemma pins_kept_witness :
  N.of_nat (size (pins_entries pins1)) ≤ 2 ∧
  ∀ id c, pins_get id pins1 = Some c →
    pins_get id pins1 = Some c ∧ pub_id (pub_identity c) = id ∧ selection_validate c = Ok tt ∧
    ∀ c', pub_id (pub_identity c') = id →
      (pins_retain c' pins1).1 = Ok tt ↔
      selection_validate c' = Ok tt ∧ pub_encryption_public_key c' = pub_encryption_public_key c.
Proof.
  apply (pins_kept 2 pins0); [done | | apply rtc_refl].
  apply rtc_once, (PinsRetain credential _ (Ok tt)). vm_compute. reflexivity.
Defined.
Example credential_pinned : pins_get (pub_id (pub_identity credential)) pins1 = Some credential.
Proof. by vm_compute. Qed.
End Demo.
