(* ===== verification/Adapters.v ===== *)
(** * The transport over the real Cryptography and Identity

    [src/composition/{cryptography,identity}.rs]: the adapters that serve the
    transport's two ports from the Cryptography provider and from a loaded
    identity, as instances of the ports, and the theorems that they keep the
    contracts the transport is proved against. *)

From S2P Require Import Prelude Bytes Json IdentityText Api Arcs Ports Crypto Envelope EnvelopeProps Keys Authority Identity IdentityProps.

#[local] Open Scope N_scope.

(** ** Cryptography: [composition/cryptography.rs] *)

Definition crypto_map_error (e : CryptoError) : DependencyError :=
  match e with
  | CInvalidInput | CResourceLimit => InvalidInput
  | CAuthenticationFailed => VerificationFailed
  | CAccessDenied => Denied
  | CUnavailable => Unavailable
  end.
Definition outward {A} (r : result CryptoError A) : result DependencyError A := map_err crypto_map_error r.

Section cryptography.
Context `{CR : !Crates} {E : Type} `{EN : !Entropy E}.

Definition outward_run {A} (x : result CryptoError A * CryptoProvider E)
    : result DependencyError A * CryptoProvider E := (outward x.1, x.2).

Lemma outward_Ok {A} (r : result CryptoError A) a : outward r = Ok a ↔ r = Ok a.
Proof. apply map_err_Ok. Qed.

Lemma hello_nonce_length c n : (hello_nonce c).1 = Ok n → length n = 32%nat.
Proof.
  unfold hello_nonce, Envelope.with_entropy. destruct (random_bytes 32 (prov_entropy c)) as [r e] eqn:H. cbn.
  intros ->. by eapply random_bytes_length.
Qed.

(** A generated agreement key is a secret with its public point. *)
Lemma generate_agreement_key_ok c k : (generate_agreement_key c).1 = Ok k →
  public_key k = x25519_public (private_key k).
Proof.
  unfold generate_agreement_key, Envelope.with_entropy, agreement_key. unfold_m.
  destruct (random_bytes 32 (prov_entropy c)) as [[b |] e]; cbn; [by intros [= <-] | done].
Qed.
Definition ephemeral (c : CryptoProvider E) : result DependencyError (bytes * Secret) * CryptoProvider E :=
  let '(r, c) := generate_agreement_key c in
  ((λ k, (public_key k, private_key k)) <$> outward r, c).
Lemma ephemeral_ok c p k : (ephemeral c).1 = Ok (p, k) → p = x25519_public k.
Proof.
  unfold ephemeral. pose proof (generate_agreement_key_ok c) as H.
  destruct (generate_agreement_key c) as [[kp |] c']; cbn in *; [| done].
  intros [= <- <-]. by apply H.
Qed.

Lemma expand_length k i n m o : Crypto.expand k i n m = Ok o → length o = n.
Proof. unfold expand. destruct (_ || _); [done |]. intros H%ok_or_Ok. by eapply hkdf_expand_length. Qed.
Lemma tag_length k n a m t : Crypto.tag k n a m = Ok t → length t = 16%nat.
Proof.
  unfold tag. destruct (_ <? _); [done |]. intros H. apply result_bind_Ok_inv in H as ([c t'] & H & [= <-]).
  apply ok_or_Ok in H. by apply xchacha_encrypt_length in H as [_ H].
Qed.

(** [Cryptography for TransportCrypto<E>]; the adapter is its provider. *)
#[global, refine] Instance TransportCrypto : Ports.Cryptography (CryptoProvider E) := {
  EphemeralSecret := Secret;
  SharedSecret := Secret;
  PseudorandomKey := Secret;
  IntegrityKey := Secret;
  random_nonce c := outward_run (hello_nonce c);
  ephemeral_key := ephemeral;
  Ports.sha256 c m := outward (provider_sha256 m c);
  verify_signature c key m s := outward (provider_verify key m s c);
  Ports.agree c k remote := (outward (Crypto.agree k remote), c);
  Ports.extract c salt s := (outward (Crypto.extract salt s (prov_maximum_bytes c)), c);
  Ports.expand_key c k info := (outward (Crypto.expand_key k info (prov_maximum_bytes c)), c);
  Ports.expand_nonce_prefix c k info :=
    outward (Crypto.expand_nonce_prefix k info (prov_maximum_bytes c));
  mac_tag c k n a := outward (Crypto.tag k n a (prov_maximum_bytes c));
  Ports.verify_tag c k n a t := outward (Crypto.verify_tag k n a t (prov_maximum_bytes c));
}.
Proof using CR E EN.
  - intros c n H. apply outward_Ok in H. by eapply hello_nonce_length.
  - intros c p k H. apply ephemeral_ok in H as ->. apply x25519_public_32.
  - intros c k i p H. apply outward_Ok in H. by eapply expand_length.
  - intros c k n a t H. apply outward_Ok in H. by eapply tag_length.
Defined.

(** The adapter keeps the transport's contract. *)
Section laws.
Context `{CL : !CratesLaws CR}.

Definition hkdf_total (k i : bytes) (n : nat) : bytes := default [] (hkdf_expand k i n).
Lemma expand_total k i n m : N.of_nat n ≤ 255 * 32 → len i ≤ m → Crypto.expand k i n m = Ok (hkdf_total k i n).
Proof using CR CL.
  intros Hn Hi. unfold expand, hkdf_total. destruct (N.ltb_spec m (len i)); [lia |].
  destruct (N.ltb_spec (255 * 32) (N.of_nat n)); [lia |]. cbn [orb].
  by destruct (hkdf_expands k i n Hn) as [o ->].
Qed.

#[global, refine] Instance TransportCrypto_laws : CryptographyLaws (CryptoProvider E) := {
  ceiling := prov_maximum_bytes;
  hash := sha256_digest;
  prk_of salt s := hkdf_extract salt s;
  key_of k info := hkdf_total k info 32;
  prefix_of k info := hkdf_total k info 16;
}.
Proof using CR E EN CL.
  - apply sha256_digest_32.
  - intros c m H. apply outward_Ok. unfold provider_sha256, Crypto.sha256, Sha256State_update.
    cbn [remaining Sha256State_new]. destruct (N.ltb_spec (prov_maximum_bytes c) (len m)); [lia | done].
  - intros c salt s H. apply outward_Ok. unfold Crypto.extract. destruct (N.ltb_spec (prov_maximum_bytes c) (len salt)); [lia | done].
  - intros c k info H. by apply outward_Ok, expand_total.
  - intros c k info H. by apply outward_Ok, expand_total.
  - intros c1 c2 p k q l Hp Hq c c'. apply ephemeral_ok in Hp as ->, Hq as ->.
    exists (x25519_shared k (x25519_public l)). split; apply outward_Ok, agree_ok; try apply x25519_public_32.
    + split; [done | apply x25519_honest].
    + split; [apply x25519_commutes | apply x25519_honest].
  - intros c k n a H. destruct (xchacha_empty k n a) as [[ct t] Ht]. exists t. split.
    + apply outward_Ok. unfold tag. destruct (N.ltb_spec (prov_maximum_bytes c) (len a)); [lia |]. by rewrite Ht.
    + intros c' H'. apply outward_Ok. unfold Crypto.verify_tag.
      destruct (N.ltb_spec (prov_maximum_bytes c') (len a)); [lia |].
      destruct (xchacha_encrypt_length _ _ _ _ _ _ Ht) as [Hl _]. apply nil_length_inv in Hl as ->.
      by rewrite (xchacha_opens _ _ _ _ _ _ Ht).
  - done.
  - done.
  - done.
Defined.
End laws.

End cryptography.

(** ** Identity: [composition/identity.rs] *)

Definition identity_map_error (e : IdentityError) : DependencyError :=
  match e with
  | IdAccessDenied => Denied
  | IdMismatch | IdInvalidProof => VerificationFailed
  | IdInvalidInput | IdUnsupported | IdResourceLimit => InvalidInput
  | IdUnavailable | IdConflict | IdOutcomeUnknown => Unavailable
  end.

Section identity.
Context `{CR : !Crates} {S A E : Type} `{KS : !KeyStore S A} `{EN : !Entropy E}.

(** The adapter owns its provider, handle and grants; the flags and domains
    they refer to are the process's. *)
Record TransportIdentity : Type := mkTransportIdentity {
  ti_provider : Identity S E;
  ti_handle : IdentityHandle;
  ti_read : Capability PReadPublic;
  ti_sign : Capability PSign;
}.

Definition TransportIdentity_new (provider : Identity S E) (h : IdentityHandle)
    (read : Capability PReadPublic) (sign : Capability PSign) (w : World)
    : result IdentityError TransportIdentity :=
  _ ← Identity.public h read (provider, w);
  Ok (mkTransportIdentity provider h read sign).

Abbreviation Adapter := (TransportIdentity * World)%type.

Definition inner {T} (r : result IdentityError T) : result DependencyError T := map_err identity_map_error r.

Definition ti_public_identity (i : Adapter) : result DependencyError Ports.PublicIdentity :=
  public ← inner (Identity.public (ti_handle i.1) (ti_read i.1) (ti_provider i.1, i.2));
  Ok (Ports.mkPublicIdentity (pub_id (pub_identity public)) (pub_signing_public_key (pub_identity public))).
Definition ti_identify (key : bytes) : result DependencyError IdentityId :=
  inner (into (identity_id key)).
Definition ti_sign_authentication (i : Adapter) (message : bytes) : result DependencyError bytes :=
  inner (identity_sign (ti_handle i.1) (ti_sign i.1) message (ti_provider i.1, i.2)).

(** Every handle of a provider is such. *)
Definition valid_handle (h : IdentityHandle) : Prop :=
  h_public h = public_of (h_keys h) ∧ keys_wf (h_keys h).

Lemma inner_Ok {T} (r : result IdentityError T) a : inner r = Ok a ↔ r = Ok a.
Proof. apply map_err_Ok. Qed.

Lemma public_ok i h c w p : public (S := S) (E := E) h c (i, w) = Ok p → p = h_public h.
Proof.
  unfold public. intros H. apply result_bind_Ok_inv in H as (? & _ & H).
  apply result_bind_Ok_inv in H as (? & _ & H). apply result_bind_Ok_inv in H as (? & _ & H).
  destruct (_ || _); [done | by injection H as <-].
Qed.

Lemma sign_ok i h c m w s : identity_sign (S := S) (E := E) h c m (i, w) = Ok s →
  s = ed25519_sign (ik_signing (h_keys h)) m.
Proof.
  unfold identity_sign. intros H. apply result_bind_Ok_inv in H as (? & _ & H).
  apply result_bind_Ok_inv in H as (? & _ & H). apply map_err_Ok in H. unfold sign in H.
  destruct (_ <? _); [done | by injection H as <-].
Qed.

#[global, refine] Instance TransportIdentity_port : Ports.Identity {i : Adapter | valid_handle (ti_handle i.1)} := {
  public_identity i := ti_public_identity (proj1_sig i);
  identify _ key := ti_identify key;
  sign_authentication i m := (ti_sign_authentication (proj1_sig i) m, i);
}.
Proof using CR S E.
  - intros [i [Hp Hk]] p H. apply result_bind_Ok_inv in H as (c & Hc & [= <-]). apply inner_Ok, public_ok in Hc as ->.
    cbn in *. rewrite Hp. apply ed25519_public_32.
  - intros [i Hv] m s H. cbn in H. apply inner_Ok, sign_ok in H as ->. apply ed25519_sign_64.
Defined.

(** Messages the adapter signs: none without authority. *)
Definition ti_signing_budget (i : Adapter) : N :=
  let t := i.1 in
  match _ ← check_handle (ti_provider t) (ti_handle t);
        check (id_authority (ti_provider t)) (ti_sign t) (handle_id (ti_handle t)) 0 (w_flags i.2) with
  | Ok _ => 1 + N.min (cap_maximum_bytes (ti_sign t)) (lim_signing_bytes (id_limits (ti_provider t)))
  | Err _ => 0
  end.

Lemma ti_sign_total (i : Adapter) m : len m < ti_signing_budget i →
  ti_sign_authentication i m = Ok (ed25519_sign (ik_signing (h_keys (ti_handle i.1))) m).
Proof.
  unfold ti_signing_budget, ti_sign_authentication, identity_sign. destruct i as [t w]. cbn [fst snd].
  destruct (check_handle _ _); unfold_m; [| lia].
  destruct (check _ _ _ 0 _) as [u |] eqn:Hc; [| lia]. intros H. unfold check in Hc.
  apply check_scope_ok in Hc as (H1 & H2 & H3 & H4 & _).
  assert (check (id_authority (ti_provider t)) (ti_sign t) (handle_id (ti_handle t)) (len m) (w_flags w) = Ok tt) as ->.
  { apply check_scope_ok. split_and!; try done. lia. }
  unfold sign. destruct (N.ltb_spec (lim_signing_bytes (id_limits (ti_provider t))) (len m)); [lia | done].
Qed.

#[global, refine] Instance TransportIdentity_laws `{CL : !CratesLaws CR} {E' : Type} `{EN' : !Entropy E'} :
    IdentityLaws (CryptoProvider E') {i : Adapter | valid_handle (ti_handle i.1)} := {
  signing_budget i := ti_signing_budget (proj1_sig i);
}.
Proof using CR S E.
  - intros [i [Hp Hk]] j p H. apply result_bind_Ok_inv in H as (c & Hc & [= <-]).
    apply inner_Ok, public_ok in Hc as ->. cbn -[identity_id] in *. rewrite Hp. apply inner_Ok, map_err_Ok.
    cbn -[identity_id]. unfold identity_id.
    rewrite (proj2 (exactly_Ok 32 _ _) (conj eq_refl (ed25519_public_32 _))). unfold_m. apply sha256_whole.
  - intros [i [Hp Hk]] p m H Hm. apply result_bind_Ok_inv in H as (c & Hc & [= <-]).
    apply inner_Ok, public_ok in Hc as ->. cbn -[verify] in *. rewrite (ti_sign_total i m Hm).
    eexists. split; [done |]. intros c Hl. apply outward_Ok, verify_ok. rewrite Hp. cbn.
    destruct (ed25519_accepts (ik_signing (h_keys (ti_handle i.1))) m (proj1 Hk)) as (H1 & H2 & H3 & H4 & H5).
    split_and!; try done. apply ed25519_sign_64.
Defined.

(** ** Composed from what a provider issued *)

Lemma record_decode_wf r k : record_decode r = Ok k → keys_wf k.
Proof.
  unfold record_decode. intros H. apply result_bind_Ok_inv in H as (ks & Hk & H).
  apply result_bind_Ok_inv in H as (c & _ & H). destruct (_ || _); [done |]. injection H as <-.
  apply map_err_Ok in Hk. unfold keys_import, keys_wf, len in *.
  destruct (N.eqb_spec (N.of_nat (length (slice 8 40 (protected_bytes r)))) 32); [| done].
  destruct (N.eqb_spec (N.of_nat (length (slice 40 72 (protected_bytes r)))) 32); [| done].
  injection Hk as <-. cbn [ik_signing ik_encryption]. lia.
Qed.

Context `{KL : !KeyStoreLaws S A}.

(** C12: composition keeps the identity port's contract: an adapter built from
    the handle, the read grant and the signing grant that one provider of a
    reachable process issued for one identity publishes that identity, whose
    key identifies it, and signs every message within its budgets so that any
    Cryptography provider whose ceiling takes the message verifies it under
    the published key. *)
Theorem transport_identity_serves `{CL : !CratesLaws CR} (p : process) k i h read c t :
  rtc process_step process_empty p →
  (k, i) ∈ pr_providers p → (k, h) ∈ pr_handles p →
  (k, existT PReadPublic read) ∈ pr_granted p → cap_identity read = Some (handle_id h) →
  (k, existT PSign c) ∈ pr_granted p → cap_identity c = Some (handle_id h) →
  t = mkTransportIdentity i h read c →
  TransportIdentity_new i h read c (pr_world p) = Ok t ∧ valid_handle h ∧
  ∃ published, ti_public_identity (t, pr_world p) = Ok published ∧
    pi_id published = handle_id h ∧ ti_identify (signing_public_key published) = Ok (handle_id h) ∧
    ∀ m, len m ≤ cap_maximum_bytes c → len m ≤ lim_signing_bytes (id_limits i) →
    ∃ s, ti_sign_authentication (t, pr_world p) m = Ok s ∧
      ∀ v : CryptoProvider E, len m ≤ prov_maximum_bytes v →
        verify_signature v (signing_public_key published) m s = Ok tt.
Proof using Type*.
  intros Hp Hi Hh Hr Hrid Hc Hcid ->. apply (process_inv_reach _ _ process_inv_empty) in Hp.
  destruct (pi_stands _ Hp k i h Hi Hh) as (rec & _ & Hdec & Hpub).
  pose proof (record_decode_wf _ _ Hdec) as Hwf. assert (valid_handle h) as Hv by done.
  pose proof (proj2 (check_handle_ok _ k i k h tt Hp Hi Hh) eq_refl) as Hch.
  assert (Identity.public h read (i, pr_world p) = Ok (h_public h)) as Hpublic.
  { unfold Identity.public. rewrite Hch. unfold_m.
    rewrite (proj2 (check_granted p k i k PReadPublic read (handle_id h) 0 tt Hp Hi Hr))
      by (split_and!; [done | done | lia]).
    rewrite keys_credential_ok. cbn [into map_err]. unfold handle_id. rewrite Hpub.
    by rewrite !bool_decide_true. }
  unfold TransportIdentity_new, ti_public_identity. cbn [ti_handle ti_read ti_provider fst snd].
  rewrite Hpublic. split; [done |]. split; [done |]. eexists. split; [reflexivity |]. cbn [pi_id signing_public_key].
  split; [done |]. pose proof (ed25519_accepts (ik_signing (h_keys h))) as Hacc. split.
  - apply inner_Ok, map_err_Ok. rewrite Hpub. unfold identity_id. cbn -[exactly sha256].
    rewrite (proj2 (exactly_Ok 32 _ _) (conj eq_refl (ed25519_public_32 _))). unfold_m.
    unfold handle_id. rewrite Hpub. apply sha256_whole.
  - intros m Hm Hl. eexists. split.
    + apply ti_sign_total. unfold ti_signing_budget. cbn [ti_handle ti_sign ti_provider fst snd]. rewrite Hch. unfold_m.
      rewrite (proj2 (check_granted p k i k PSign c (handle_id h) 0 tt Hp Hi Hc))
        by (split_and!; [done | done | lia]). lia.
    + intros v Hmv. apply outward_Ok, verify_ok. rewrite Hpub. cbn.
      destruct (Hacc m (proj1 Hwf)) as (H1 & H2 & H3 & H4 & H5). split_and!; try done. apply ed25519_sign_64.
Qed.
End identity.

Module Demo.
#[local] Existing Instances EnvelopeProps.Demo.crates EnvelopeProps.Demo.crates_laws EnvelopeProps.Demo.entropy
  IdentityProps.Demo.memory_store IdentityProps.Demo.memory_laws.
Import IdentityProps.Demo.

Lemma transport_identity_serves_witness :
  ∃ t : TransportIdentity (S := memory) (E := N),
    TransportIdentity_new created.2.1 the_handle read_capability capability created.2.2 = Ok t ∧
    ti_sign_authentication (t, created.2.2) [x01] = Ok (ed25519_sign (ik_signing (h_keys the_handle)) [x01]).
Proof.
  exists (mkTransportIdentity created.2.1 the_handle read_capability capability). split; [| vm_compute; reflexivity].
  apply (transport_identity_serves running 0%nat created.2.1 the_handle read_capability capability
    (mkTransportIdentity created.2.1 the_handle read_capability capability) running_reached);
    [by left | by left | by left | done | by right; left | done | done].
Defined.
End Demo.
