(* ===== verification/ServerConfig.v ===== *)
(** * Server policy and credentials

    [src/composition/server/{config,credentials}.rs] and the failures of
    [mod.rs]: the options are validated before any effect, and credentials are
    loaded from the protected store before any socket.  The theorems: exactly
    the usable options are accepted, and what is loaded is the record on file
    behind capabilities of its own provider. *)

From S2P Require Import Prelude Bytes Header IdentityText Api Arcs Crypto Envelope Keys Authority Identity IdentityProps.
From S2P Require Import Files IdentityStore Contact Contacts ContactStore Adapters.

#[local] Open Scope N_scope.

(** ** Lifecycle contracts: [mod.rs] *)

Inductive Stage : Type := StConfigured | StStarting | StReady | StStopping | StStopped.
#[global] Instance Stage_eq_dec : EqDecision Stage.
Proof. solve_decision. Defined.

Inductive ServerFailure : Type := SfUnsupported | SfIdentity | SfNetwork | SfRuntime | SfShutdownTimeout.
#[global] Instance ServerFailure_eq_dec : EqDecision ServerFailure.
Proof. solve_decision. Defined.

(** ** Options: [config.rs] *)

Record ServerOptions : Type := mkServerOptions {
  identity_store : Path;
  listen_address : SocketAddr;
  opt_contacts : list Contact;
  maximum_contacts : N;
  opt_transport : TransportConfig;
  shutdown_timeout : Duration;
}.

Definition ServerOptions_local (path : Path) : result ConfigError ServerOptions :=
  transport ← TransportConfig_new
    (Api.mkResourceLimits 64 128 (64 * MAX_FRAME_BYTES) MAX_PAYLOAD_BYTES) (10 * 10 ^ 9);
  Ok (mkServerOptions path (SocketAddrV4 (mkIpv4 x7f x00 x00 x01) 0) [] 64 transport (5 * 10 ^ 9)).

Inductive ServerConfigError : Type :=
| MissingIdentityStore | ZeroShutdownTimeout | ContactLimit | DeadlineRange | InvalidContact | DuplicateContact.
#[global] Instance ServerConfigError_eq_dec : EqDecision ServerConfigError.
Proof. solve_decision. Defined.

(** The validated options, which only [Config_new] wraps. *)
Record Config : Type := mkConfig { options : ServerOptions }.

(** The loop over the contacts. *)
Fixpoint check_contacts (ids : gset IdentityId) (contacts : list Contact) : result ServerConfigError unit :=
  match contacts with
  | [] => Ok tt
  | entry :: contacts =>
    if bool_decide (endpoint entry = None) || is_err (format entry) then Err InvalidContact else
    if bool_decide (expected_id entry ∈ ids) then Err DuplicateContact
    else check_contacts ({[expected_id entry]} ∪ ids) contacts
  end.
(** [Config::new] when the clock reads [now]. *)
Definition Config_new (now : Instant) (o : ServerOptions) : result ServerConfigError Config :=
  if is_empty (path_components (identity_store o)) then Err MissingIdentityStore else
  if shutdown_timeout o =? 0 then Err ZeroShutdownTimeout else
  if bool_decide (Instant_checked_add now (shutdown_timeout o) = None)
     || bool_decide (Instant_checked_add now (handshake_timeout (opt_transport o)) = None)
  then Err DeadlineRange else
  if (maximum_contacts o =? 0) || (maximum_contacts o <? len (opt_contacts o)) then Err ContactLimit else
  _ ← check_contacts ∅ (opt_contacts o);
  Ok (mkConfig o).

(** ** Credentials: [credentials.rs] *)

Section load.
Context {F : Type} `{FS : !Filesystem F} `{CR : !Crates} {E : Type} `{EN : !Entropy E}.
(** [Path::is_dir]. *)
Context (is_dir : F → Path → bool).

Record Credentials : Type := mkCredentials {
  cr_identity : TransportIdentity (S := Stored F) (E := E);
  cr_local_id : IdentityId;
  cr_contacts : list Contact;
}.
Definition as_identity {X A} (r : result X A) : result ServerFailure A := map_err (λ _, SfIdentity) r.

(** The contacts a server starts with; [now] is what the clock reads in the
    second validation. *)
Definition startup_contacts (o : ServerOptions) (stored_contacts : bool) (now : Instant)
    (admin : Capability PAdministration) (store : FileStore) (h : Flags) : M F ServerFailure (list Contact) :=
  if stored_contacts then
    ensure (is_empty (opt_contacts o)) SfIdentity;;
    read ← try_ (read_contacts admin store h);
    contacts ← lift (as_identity read);
    validation ← lift (as_identity (ServerOptions_local (identity_store o)));
    _ ← lift (as_identity (Config_new now (mkServerOptions (identity_store validation)
          (listen_address validation) contacts (maximum_contacts o) (opt_transport validation)
          (shutdown_timeout validation))));
    mret contacts
  else mret (opt_contacts o).

(** The provider's part, once the store is open; the provider owns the store
    and the file system behind it. *)
Definition load_identity (limits : Limits) (admin : Capability PAdministration) (contacts : list Contact)
    (entropy : E) (s : Stored F) (w : World) : result ServerFailure (Credentials * World) * F :=
  match Identity_new s entropy limits 1 w with
  | (Err _, _) => (Err SfIdentity, sd_files s)
  | (Ok provider, w) =>
    let '(loaded, (provider, w)) := load admin (provider, w) in
    ('(handle, public) ← as_identity loaded;
     read ← as_identity (identity_grant admin handle 1 (provider, w));
     sign ← as_identity (identity_grant admin handle 65548 (provider, w));
     identity ← as_identity (TransportIdentity_new provider handle read sign w);
     Ok (mkCredentials identity (pub_id (pub_identity public)) contacts, w),
     sd_files (id_store provider))
  end.
Definition load_credentials (config : Config) (stored_contacts : bool) (now : Instant) (entropy : E)
    (h : Flags) (w : World) : M F ServerFailure (Credentials * World) := λ f,
  let o := options config in
  if negb (is_dir f (identity_store o)) then (Err SfIdentity, f) else
  match Limits_new 1024 64 65548 65536 65536 with
  | Err _ => (Err SfIdentity, f)
  | Ok limits =>
    match FileStore_open (identity_store o) limits h f with
    | (Err _, f) => (Err SfIdentity, f)
    | (Ok (store, admin, h), f) =>
      match startup_contacts o stored_contacts now admin store h f with
      | (Err e, f) => (Err e, f)
      | (Ok contacts, f) => load_identity limits admin contacts entropy (mkStored f store h) w
      end
    end
  end.
End load.

(** ** Exactly the usable options are accepted *)

Record usable (now : Instant) (o : ServerOptions) : Prop := {
  us_store : path_components (identity_store o) ≠ [];
  us_timeout : 0 < shutdown_timeout o;
  us_shutdown : now + shutdown_timeout o < instant_limit;
  us_handshake : now + handshake_timeout (opt_transport o) < instant_limit;
  us_capacity : 0 < maximum_contacts o;
  us_contacts : len (opt_contacts o) ≤ maximum_contacts o;
  us_endpoints : Forall (λ c, is_Some (endpoint c) ∧ carried c) (opt_contacts o);
  us_distinct : NoDup (expected_id <$> opt_contacts o);
}.

Lemma check_contacts_ok ids cs u : check_contacts ids cs = Ok u ↔
  Forall (λ c, is_Some (endpoint c) ∧ carried c) cs ∧ NoDup (expected_id <$> cs) ∧
  ∀ c, c ∈ cs → expected_id c ∉ ids.
Proof.
  destruct u. revert ids. induction cs as [| c cs IH]; intros ids; cbn [check_contacts fmap list_fmap].
  { split; [| done]. intros _. split_and!; [constructor.. | set_solver]. }
  rewrite Forall_cons, NoDup_cons.
  destruct (bool_decide (endpoint c = None) || is_err (format c)) eqn:Eb.
  { split; [done |]. intros ([[Hs Hc] _] & _). rewrite orb_true_iff, bool_decide_eq_true in Eb. destruct Eb as [Eb | Eb].
    - rewrite Eb in Hs. by destruct Hs.
    - assert (is_Ok := proj2 (format_ok c _) (conj Hc eq_refl)). by rewrite is_Ok in Eb. }
  apply orb_false_iff in Eb as [He Hf]. apply bool_decide_eq_false in He.
  assert (is_Some (endpoint c) ∧ carried c) as Hc.
  { split; [by destruct (endpoint c) |]. destruct (format c) as [t |] eqn:E; [| done]. by apply format_ok in E as [? _]. }
  case_bool_decide as Hin.
  { split; [done |]. intros (_ & _ & H). exfalso. by apply (H c); [left |]. }
  rewrite IH. split.
  - intros (H1 & H2 & H3). split_and!; [apply Hc | apply Hc | done | | done |].
    + intros (d & E & Hd)%list_elem_of_fmap. apply (H3 d Hd). rewrite <- E. set_solver.
    + intros d [-> | Hd]%elem_of_cons; [done |]. specialize (H3 d Hd). set_solver.
  - intros ([_ H1] & [Hn H2] & H3). split_and!; [done.. |]. intros d Hd.
    assert (expected_id d ≠ expected_id c) by (intros E; apply Hn; rewrite <- E; by apply list_elem_of_fmap_2).
    assert (expected_id d ∉ ids) by (apply H3; by right). set_solver.
Qed.

(** Server policy is validated exactly.  [Config::new] accepts the options
    exactly when a store is named, the shutdown timeout is positive, both
    deadlines are representable from now, the contact capacity is positive and
    not exceeded, every contact has an endpoint that contact text can carry, and
    no identity is repeated; what it returns is what it was given. *)
Theorem config_exact now o c : Config_new now o = Ok c ↔ usable now o ∧ c = mkConfig o.
Proof.
  assert (∀ d, bool_decide (Instant_checked_add now d = None) = false ↔ now + d < instant_limit) as Hd.
  { intros d. rewrite bool_decide_eq_false. unfold Instant_checked_add, checked_add.
    destruct (N.ltb_spec (now + d) instant_limit); split; try done; lia. }
  unfold Config_new. split.
  - destruct (is_empty _) eqn:E1; [done |]. destruct (N.eqb_spec (shutdown_timeout o) 0); [done |].
    destruct (_ || _) eqn:E2; [done |]. apply orb_false_iff in E2 as [E2%Hd E3%Hd].
    destruct (_ || _) eqn:E4; [done |]. apply orb_false_iff in E4 as [E4%N.eqb_neq E5%N.ltb_ge].
    intros (u & (H1 & H2 & _)%check_contacts_ok & [= <-])%result_bind_Ok_inv. split; [| done].
    split; try done; try lia. intros E. by rewrite E in E1.
  - intros [[H1 H2 H3 H4 H5 H6 H7 H8] ->]. destruct (path_components _); [done |]. cbn [is_empty].
    rewrite (proj2 (N.eqb_neq _ _)) by lia. rewrite (proj2 (Hd _) H3), (proj2 (Hd _) H4). cbn [orb].
    rewrite (proj2 (N.eqb_neq _ _)), (proj2 (N.ltb_ge _ _)) by lia. cbn [orb].
    assert (check_contacts ∅ (opt_contacts o) = Ok tt) as ->; [| done]. apply check_contacts_ok. split_and!; [done.. |].
    set_solver.
Qed.

(** ** What is loaded *)

Section loaded.
Context {F : Type} `{FS : !Filesystem F} `{FL : !FilesystemLaws F} `{CR : !Crates} {E : Type} `{EN : !Entropy E}.
Context (is_dir : F → Path → bool).

(** Contacts a server can start with. *)
Record startable (maximum : N) (cs : list Contact) : Prop := {
  sb_count : len cs ≤ maximum;
  sb_endpoints : Forall (λ c, is_Some (endpoint c) ∧ carried c) cs;
  sb_distinct : NoDup (expected_id <$> cs);
}.
Lemma usable_startable now o c : Config_new now o = Ok c → startable (maximum_contacts o) (opt_contacts o).
Proof. intros [[] _]%config_exact. by split. Qed.

Lemma startup_contacts_ok o b now admin store h f cs f' :
  startable (maximum_contacts o) (opt_contacts o) →
  startup_contacts (F := F) o b now admin store h f = (Ok cs, f') → startable (maximum_contacts o) cs.
Proof.
  intros Ho. unfold startup_contacts. destruct b; [| by intros [= <- _]]. intros H.
  apply bind_Ok_inv in H as (u & f1 & _ & H). apply bind_Ok_inv in H as (read & f2 & _ & H).
  apply bind_Ok_inv in H as (l & f3 & _ & H). apply bind_Ok_inv in H as (v & f4 & _ & H).
  apply bind_Ok_inv in H as (x & f5 & [Hx%map_err_Ok _]%lift_Ok_inv & H). injection H as <- _.
  apply config_exact in Hx as [[_ _ _ _ _ Hl He Hn] _]. by split.
Qed.

Lemma granted_ok {P : Purpose} admin h m (i : Identity (Stored F) E) w (c : Capability P) :
  identity_grant admin h m (i, w) = Ok c → c = mkCapability (id_authority i) (Some (handle_id h)) m.
Proof. 
  unfold identity_grant, grant. intros H. apply result_bind_Ok_inv in H as (u & _ & H).
  apply result_bind_Ok_inv in H as (v & _ & H). by apply issue_ok in H as (_ & _ & ->).
Qed.

(** What is loaded: the handle stands for the record the store keeps, and the
    files are left as the store of the provider has them. *)
Lemma load_credentials_ok config stored now entropy h w f c w' f' :
  startable (maximum_contacts (options config)) (opt_contacts (options config)) →
  load_credentials (E := E) is_dir config stored now entropy h w f = (Ok (c, w'), f') →
  let t := cr_identity c in
  stands_for (ti_provider t) (ti_handle t) ∧ cr_local_id c = handle_id (ti_handle t) ∧
  (∃ published, ti_public_identity (t, w') = Ok published ∧ Ports.pi_id published = cr_local_id c) ∧
  ti_read t = mkCapability (id_authority (ti_provider t)) (Some (cr_local_id c)) 1 ∧
  ti_sign t = mkCapability (id_authority (ti_provider t)) (Some (cr_local_id c)) 65548 ∧
  startable (maximum_contacts (options config)) (cr_contacts c) ∧
  f' = sd_files (id_store (ti_provider t)).
Proof using FL.
  intros Hs H. unfold load_credentials in H. destruct (negb _); [done |].
  destruct (Limits_new _ _ _ _ _) as [limits |]; [| done].
  destruct (FileStore_open _ _ _ f) as [[[[store admin] h1] | e] f1]; [| done].
  destruct (startup_contacts _ _ _ _ _ _ f1) as [[cs | e] f2] eqn:Ec; [| done].
  apply startup_contacts_ok in Ec; [| done]. unfold load_identity in H.
  destruct (Identity_new _ _ _ _ w) as [[provider | e] w1]; [| done].
  pose proof (load_outcome admin provider w1) as Ho.
  destruct (load admin (provider, w1)) as [x [i w2]]. injection H as H <-.
  apply result_bind_Ok_inv in H as ([handle public] & ->%map_err_Ok & H).
  destruct Ho as (_ & _ & -> & Hst & _).
  apply result_bind_Ok_inv in H as (read & Hr%map_err_Ok & H).
  apply result_bind_Ok_inv in H as (sign & Hg%map_err_Ok & H).
  apply result_bind_Ok_inv in H as (identity & Ht%map_err_Ok & [= <- <-]).
  apply granted_ok in Hr, Hg. unfold TransportIdentity_new in Ht.
  apply result_bind_Ok_inv in Ht as (p & Hp & [= <-]). cbn. split_and!; try done.
  apply public_ok in Hp as Ep. subst p. eexists. unfold ti_public_identity. cbn [ti_handle ti_read ti_provider fst snd]. rewrite Hp. by split.
Qed.

(** C18: the server starts with the identity on file and nothing else.  When
    credentials load, the handle of the adapter stands for the record that the
    protected store keeps, the adapter publishes its identity, which is the
    local identity reported; its two capabilities are the provider's own, for
    this identity only, reading within one byte and signing within the bound of
    an authentication message; and the contacts, given or stored, are within
    the configured number, each with an endpoint to connect to, none repeated. *)
Theorem credentials_loaded now0 o config stored now entropy h w f c w' f' :
  Config_new now0 o = Ok config →
  load_credentials (E := E) is_dir config stored now entropy h w f = (Ok (c, w'), f') →
  let t := cr_identity c in
  stands_for (ti_provider t) (ti_handle t) ∧ cr_local_id c = handle_id (ti_handle t) ∧
  (∃ published, ti_public_identity (t, w') = Ok published ∧ Ports.pi_id published = cr_local_id c) ∧
  ti_read t = mkCapability (id_authority (ti_provider t)) (Some (cr_local_id c)) 1 ∧
  ti_sign t = mkCapability (id_authority (ti_provider t)) (Some (cr_local_id c)) 65548 ∧
  startable (maximum_contacts o) (cr_contacts c).
Proof using FL.
  intros Hc H. pose proof (usable_startable _ _ _ Hc) as Hs. apply config_exact in Hc as [_ ->].
  by apply load_credentials_ok in H as (H1 & H2 & H3 & H4 & H5 & H6 & _).
Qed.
End loaded.

Module Demo.
#[local] Existing Instances EnvelopeProps.Demo.crates EnvelopeProps.Demo.entropy.
Import IdentityStore.Demo.

(** A store with one identity, initialised before the server starts. *)
Definition initialised : Disk :=
  match opened 40 with
  | Some (s, admin) => mkDisk (restarted newest (k_view (sd_files (install admin record s).2))) 40
  | None => empty_disk 0
  end.
Definition peer : Contact :=
  mkContact (replicate 32 x01) (Some (SocketAddrV4 (mkIpv4 x7f x00 x00 x01) 4000)).
Definition config : option Config :=
  match ServerOptions_local path with
  | Ok o => match Config_new 0 (mkServerOptions path (listen_address o) [peer] 1 (opt_transport o) (shutdown_timeout o)) with
            | Ok c => Some c
            | Err _ => None
            end
  | Err _ => None
  end.
Definition world : World := mkWorld Arcs_empty Arcs_empty.
Definition loaded (f : Disk) : result ServerFailure (Credentials (F := Disk) (E := N) * World) :=
  match config with
  | Some c => (load_credentials (λ _ _, true) c false 0 5 Arcs_empty world f).1
  | None => Err SfRuntime
  end.
(** Without an identity nothing starts. *)
Example missing : is_ok (loaded initialised) = true ∧ is_ok (loaded (empty_disk 40)) = false.
Proof. vm_compute. done. Qed.

Lemma credentials_loaded_witness : ∃ o c (cr : Credentials (F := Disk) (E := N)) w' f',
  Config_new 0 o = Ok c ∧
  load_credentials (λ _ _, true) c false 0 5 Arcs_empty world initialised = (Ok (cr, w'), f') ∧
  stands_for (ti_provider (cr_identity cr)) (ti_handle (cr_identity cr)) ∧ startable 1 (cr_contacts cr).
Proof.
  assert (is_ok (loaded initialised) = true) as H by (vm_compute; reflexivity). unfold loaded in H.
  destruct config as [c |] eqn:Ec; [| discriminate H]. unfold config in Ec.
  destruct (ServerOptions_local path) as [o |]; [| discriminate Ec].
  set (o' := mkServerOptions path (listen_address o) [peer] 1 (opt_transport o) (shutdown_timeout o)) in *.
  destruct (Config_new 0 o') as [c' |] eqn:En; [| discriminate Ec]. injection Ec as ->.
  destruct (load_credentials _ _ _ _ _ _ _ initialised) as [[[cr w'] | e] f'] eqn:El; [| discriminate H].
  destruct (credentials_loaded (λ _ _, true) 0 o' c false 0 5 Arcs_empty world initialised cr w' f' En El)
    as (H1 & _ & _ & _ & _ & H2).
  exists o', c, cr, w', f'. split_and!; [exact En | exact El | exact H1 | exact H2].
Defined.
End Demo.
