(* ===== verification/Server.v ===== *)
(** * The composed server

    [src/composition/server/{transport,contacts,shutdown,routing,pump,run}.rs]:
    one owner of a transport control takes it through its stages, keeps the
    handles of its connections, routes stream events to local consumers, and
    polls in bounded turns until a shutdown has drained or run out of time.  The
    control is an interface; the driver is an instance. *)

From S2P Require Import Prelude Bytes Header Control HandshakeCodec Api Resources Framing Ports Session Connection Driver.
From S2P Require Import Contact ServerConfig.

#[local] Open Scope N_scope.

(** ** The control port: [TransportControl] of [transport/api.rs] *)

Class TransportControl (Sk X : Type) : Type := {
  tc_submit : Request Sk → M X TransportError Accepted;
  tc_poll : X → Poll (option Event) * X;
}.

(** Requests that admit new work. *)
Definition admits {Sk} (r : Request Sk) : bool :=
  match r with ReqConnect _ | ReqListen _ | ReqOpenStream _ _ | ReqAccept _ _ => true | _ => false end.
(** Requests that bring a connection. *)
Definition brings {Sk} (r : Request Sk) : bool :=
  match r with ReqConnect _ | ReqAccept _ _ => true | _ => false end.

(** A control hands out a connection only where one was asked for. *)
Class ControlLaws (Sk X : Type) `{TC : !TransportControl Sk X} : Prop :=
  connection_asked r (x : X) h x' : tc_submit r x = (Ok (AccConnection h), x') → brings r = true.

(** A control that records the requests made of it. *)
#[global] Instance recorded {Sk X} `{!TransportControl Sk X} : TransportControl Sk (X * list (Request Sk)) := {|
  tc_submit r := λ '(x, l), let '(a, x) := tc_submit r x in (a, (x, l ++ [r]));
  tc_poll := λ '(x, l), let '(e, x) := tc_poll x in (e, (x, l));
|}.

(** ** The owner of the control: [transport.rs] *)

Record Ready_ : Type := mkReady { rd_local_id : IdentityId; rd_address : SocketAddr }.

Section server.
Context {Sk X : Type} `{TC : !TransportControl Sk X}.

Record Transport : Type := mkTransport {
  t_driver : X;
  t_config : Config;
  t_local_id : IdentityId;
  t_contacts : list Contact;
  t_stage : Stage;
  t_connections : list ConnectionHandle;
  t_contacts_started : bool;
  t_shutdown_deadline : option Instant;
  t_listener : option ListenerHandle;
}.

Definition set_driver x t := mkTransport x (t_config t) (t_local_id t) (t_contacts t) (t_stage t)
  (t_connections t) (t_contacts_started t) (t_shutdown_deadline t) (t_listener t).
Definition set_stage x t := mkTransport (t_driver t) (t_config t) (t_local_id t) (t_contacts t) x
  (t_connections t) (t_contacts_started t) (t_shutdown_deadline t) (t_listener t).
Definition set_handles x t := mkTransport (t_driver t) (t_config t) (t_local_id t) (t_contacts t) (t_stage t)
  x (t_contacts_started t) (t_shutdown_deadline t) (t_listener t).
Definition set_contacts_started t := mkTransport (t_driver t) (t_config t) (t_local_id t) (t_contacts t) (t_stage t)
  (t_connections t) true (t_shutdown_deadline t) (t_listener t).
Definition set_deadline x t := mkTransport (t_driver t) (t_config t) (t_local_id t) (t_contacts t) (t_stage t)
  (t_connections t) (t_contacts_started t) (Some x) (t_listener t).
Definition set_listener x t := mkTransport (t_driver t) (t_config t) (t_local_id t) (t_contacts t) (t_stage t)
  (t_connections t) (t_contacts_started t) (t_shutdown_deadline t) x.

(** What [compose] returns around a new driver. *)
Definition compose (config : Config) (local_id : IdentityId) (contacts : list Contact) (driver : X) : Transport :=
  mkTransport driver config local_id contacts StStarting [] false None None.

(** [self.driver.submit(..)] and [self.driver.poll_event(..)]. *)
Definition driver_submit (r : Request Sk) : M Transport TransportError Accepted := λ t,
  let '(a, x) := tc_submit r (t_driver t) in (a, set_driver x t).
Definition driver_poll (t : Transport) : Poll (option Event) * Transport :=
  let '(e, x) := tc_poll (t_driver t) in (e, set_driver x t).

Definition listen : M Transport ServerFailure Ready_ :=
  starting ← gets (λ t, bool_decide (t_stage t = StStarting) && bool_decide (t_listener t = None));
  ensure starting SfRuntime;;
  address ← gets (λ t, listen_address (options (t_config t)));
  accepted ← try_ (driver_submit (ReqListen address));
  match accepted with
  | Err _ => throw SfNetwork
  | Ok (AccListener handle local_addr) =>
    modify (set_listener (Some handle));;
    modify (set_stage StReady);;
    local_id ← gets t_local_id;
    mret (mkReady local_id local_addr)
  | Ok _ => throw SfRuntime
  end.

(** ** The control of the server: [shutdown.rs] *)

Definition retain_handle (h : ConnectionHandle) (t : Transport) : Transport :=
  if bool_decide (h ∈ t_connections t) then t else set_handles (t_connections t ++ [h]) t.

(** [TransportControl] for [Transport]: what admits work is refused while
    stopping. *)
Definition server_submit (request : Request Sk) : M Transport TransportError Accepted :=
  stage ← gets t_stage;
  ensure (negb (bool_decide (stage = StStopping) && admits request)) TeClosed;;
  accepted ← driver_submit request;
  match accepted with
  | AccConnection handle => modify (retain_handle handle)
  | _ => mret tt
  end;;
  mret accepted.
#[global] Instance Transport_control : TransportControl Sk Transport := {|
  tc_submit := server_submit;
  tc_poll := driver_poll;
|}.

(** A request whose answer is discarded. *)
Definition discard (r : Request Sk) (t : Transport) : Transport := (driver_submit r t).2.

Definition observe (event : Event) : M Transport ServerFailure unit := λ t,
  match event with
  | IncomingConnection handle =>
    if bool_decide (t_stage t = StStopping) then (Ok tt, discard (ReqClose handle) t)
    else (Ok tt, retain_handle handle t)
  | ConnectionClosed connection _ =>
    (Ok tt, set_handles (filter (λ h, handle_id h ≠ connection) (t_connections t)) t)
  | ListenerClosed _ _ => if bool_decide (t_stage t = StReady) then (Err SfNetwork, t) else (Ok tt, t)
  | _ => (Ok tt, t)
  end.

(** The loop of [begin_shutdown]. *)
Fixpoint drain_all (connections : list ConnectionHandle) (t : Transport) : Transport :=
  match connections with
  | [] => t
  | connection :: connections =>
    let '(r, t) := driver_submit (ReqDrain connection SrNormal) t in
    drain_all connections (if is_err r then discard (ReqClose connection) t else t)
  end.
Definition begin_shutdown (now : Instant) : M Transport ServerFailure unit := λ t,
  if bool_decide (t_stage t = StStopping) then (Ok tt, t) else
  if negb (bool_decide (t_stage t = StReady)) then (Err SfRuntime, t) else
  match Instant_checked_add now (shutdown_timeout (options (t_config t))) with
  | None => (Err SfRuntime, t)
  | Some deadline =>
    let t := set_stage StStopping (set_deadline deadline t) in
    let t := match t_listener t with
             | Some listener => discard (ReqStopListening listener) (set_listener None t)
             | None => t
             end in
    (Ok tt, drain_all (t_connections t) t)
  end.

(** The loop of [shutdown_progress]. *)
Fixpoint close_all (connections : list ConnectionHandle) (t : Transport) : Transport :=
  match connections with
  | [] => t
  | connection :: connections => close_all connections (discard (ReqClose connection) t)
  end.
Definition shutdown_progress (now : Instant) (force : bool) : M Transport ServerFailure bool := λ t,
  match t_shutdown_deadline t with
  | None => (Err SfRuntime, t)
  | Some deadline =>
    if is_empty (t_connections t) then (Ok true, t) else
    if force || (deadline <=? now) then (Err SfShutdownTimeout, close_all (t_connections t) t)
    else (Ok false, t)
  end.

(** ** Startup connections: [contacts.rs] *)

Record Attempt_ : Type := mkAttempt_ {
  at_expected_id : IdentityId;
  at_admitted : result ServerFailure ConnectionHandle;
}.

(** One configured contact. *)
Definition attempt_contact (contact : Contact) : M Transport ServerFailure Attempt_ := λ t,
  let id := expected_id contact in
  let request :=
    a ← ok_or (Contact.endpoint contact) SfNetwork;
    map_err (λ _, SfNetwork) (ConnectRequest_new a (Known id)) in
  match request with
  | Err e => (Ok (mkAttempt_ id (Err e)), t)
  | Ok request =>
    let '(r, t) := server_submit (ReqConnect request) t in
    (Ok (mkAttempt_ id (match r with Ok (AccConnection handle) => Ok handle | _ => Err SfNetwork end)), t)
  end.
Fixpoint attempt_contacts (contacts : list Contact) : M Transport ServerFailure (list Attempt_) :=
  match contacts with
  | [] => mret []
  | contact :: contacts =>
    outcome ← attempt_contact contact;
    outcomes ← attempt_contacts contacts;
    mret (outcome :: outcomes)
  end.
Definition connect_contacts : M Transport ServerFailure (list Attempt_) :=
  ready ← gets (λ t, bool_decide (t_stage t = StReady) && negb (t_contacts_started t));
  ensure ready SfRuntime;;
  modify set_contacts_started;;
  contacts ← gets t_contacts;
  attempt_contacts contacts.
Definition connection_count (t : Transport) : N := len (t_connections t).
End server.
Arguments Transport : clear implicits.
