(* ===== verification/ServerRun.v ===== *)
(** * Routing, polling and running the server

    [src/composition/server/{routing,pump,run}.rs]: trusted consumers by the
    owner of their streams, turns of at most 64 events, the signal that other
    threads raise, and the loop over both. *)

From S2P Require Import Prelude Bytes Header Control HandshakeCodec Api Resources Framing Ports Session Connection Driver.
From S2P Require Import Contact ServerConfig Server.

#[local] Open Scope N_scope.

(** ** Routing: [routing.rs] *)

Class Consumer (K : Type) : Type :=
  consume : Event → K → result ServerFailure unit * K.

(** The stream of an event that concerns one. *)
Definition event_stream (e : Event) : option StreamHandle :=
  match e with
  | StreamOpened _ stream _ | Data stream _ | RemoteEnd stream | StreamClosed stream _ => Some stream
  | _ => None
  end.

Section routing.
Context {Sk X : Type} `{TC : !TransportControl Sk X} {K : Type} `{CO : !Consumer K}.

(** The registered consumers, in order. *)
Abbreviation Router := (list (StreamOwner * K)) (only parsing).

Definition register (protocol : Protocol) (consumer : K) : M (X * Router) ServerFailure StreamOwner :=
  λ '(x, r),
  if 256 <=? len r then (Err SfRuntime, (x, r)) else
  match tc_submit (ReqRegisterProtocol protocol) x with
  | (Ok (AccRegistration owner), x) => (Ok owner, (x, r ++ [(owner, consumer)]))
  | (_, x) => (Err SfRuntime, (x, r))
  end.

(** The first consumer that owns the stream. *)
Definition owns (stream : StreamHandle) (p : StreamOwner * K) : bool :=
  is_ok (StreamHandle_authorize stream (sh_connection stream) p.1).
Definition route (event : Event) : M (X * Router) ServerFailure (option Event) := λ '(x, r),
  match event_stream event with
  | None => (Ok (Some event), (x, r))
  | Some stream =>
    match list_find (λ p, owns stream p = true) r with
    | None => (Err SfRuntime, (x, r))
    | Some (i, (owner, consumer)) =>
      let '(result, consumer) := consume event consumer in
      let r := <[i := (owner, consumer)]> r in
      let x := if is_err result
               then (tc_submit (ReqStream owner stream (ActCancel CrInternalError)) x).2 else x in
      (Ok None, (x, r))
    end
  end.
End routing.

(** ** Notifications and turns: [pump.rs] *)

Definition EVENTS_PER_TURN : N := 64.

(** What the threads of the process share. *)
Record Signal : Type := mkSignal { sg_pending : bool; sg_shutdown : bool; sg_force : bool }.
Definition Signal_default : Signal := mkSignal false false false.
Definition notify (s : Signal) : Signal := mkSignal true (sg_shutdown s) (sg_force s).
Definition shutdown (s : Signal) : Signal :=
  notify (mkSignal (sg_pending s) true (sg_force s || sg_shutdown s)).
Definition forcing (s : Signal) : bool := sg_force s.
Definition stopping (s : Signal) : bool := sg_shutdown s.

(** Calls of other threads, and of wakers. *)
Inductive SignalCall : Type := CallShutdown | CallNotify.
Definition signal_call (s : Signal) (c : SignalCall) : Signal :=
  match c with CallShutdown => shutdown s | CallNotify => notify s end.
Definition signal_calls (cs : list SignalCall) (s : Signal) : Signal := foldl signal_call s cs.

(** [wait_timeout_while] sleeps while nothing is pending and no shutdown was
    requested; [during] arrives in its sleep.  The lock is never poisoned: no
    thread panics while it holds it. *)
Definition sleeps (s : Signal) : bool := negb (sg_pending s) && negb (stopping s).
Definition wait (during : list SignalCall) (s : Signal) : Signal :=
  let s := if sleeps s then signal_calls during s else s in
  mkSignal false (sg_shutdown s) (sg_force s).

(** The polling loop of [turn_with] over what it owns. *)
Section turn.
Context {W : Type} (poll : W → Poll (option Event) * W) (handle : Event → M W ServerFailure unit).
Fixpoint turn_loop (n : nat) (count : N) : M W ServerFailure N := λ s,
  match n with
  | O => (Ok EVENTS_PER_TURN, s)
  | S n =>
    match poll s with
    | (Pending, s) => (Ok count, s)
    | (Ready None, s) => (Err SfRuntime, s)
    | (Ready (Some event), s) => (handle event;; turn_loop n (count + 1)) s
    end
  end.
Definition turn_with : M W ServerFailure N := turn_loop (N.to_nat EVENTS_PER_TURN) 0.
End turn.

(** ** Running: [run.rs] *)

Inductive Status : Type :=
| StatReady (r : Ready_) | StatAuthenticated (c : PeerContext) | StatContactFailed | StatConnectionClosed | StatStopped.

Section run.
Context {Sk X : Type} `{TC : !TransportControl Sk X} {K : Type} `{CO : !Consumer K}.

Record Server : Type := mkServer {
  sv_node : Transport X;
  sv_router : list (StreamOwner * K);
  sv_signal : Signal;
  sv_reports : list Status;
}.
Definition report (x : Status) (s : Server) : Server :=
  mkServer (sv_node s) (sv_router s) (sv_signal s) (sv_reports s ++ [x]).
Definition set_signal (f : Signal → Signal) (s : Server) : Server :=
  mkServer (sv_node s) (sv_router s) (f (sv_signal s)) (sv_reports s).
Definition on_node {E A} (m : M (Transport X) E A) : M Server E A := λ s,
  let '(r, n) := m (sv_node s) in (r, mkServer n (sv_router s) (sv_signal s) (sv_reports s)).
(** [router.route(&mut node.driver, ..)] works on the driver itself. *)
Definition on_router {E A} (m : M (X * list (StreamOwner * K)) E A) : M Server E A := λ s,
  let '(r, (x, router)) := m (t_driver (sv_node s), sv_router s) in
  (r, mkServer (set_driver x (sv_node s)) router (sv_signal s) (sv_reports s)).
Definition poll_server (s : Server) : Poll (option Event) * Server :=
  let '(e, n) := driver_poll (sv_node s) in (e, mkServer n (sv_router s) (sv_signal s) (sv_reports s)).

(** What the loop does with one event. *)
Definition report_event (event : Event) : M Server ServerFailure unit :=
  match event with
  | Authenticated context => modify (report (StatAuthenticated context))
  | ConnectionClosed _ _ => modify (report StatConnectionClosed)
  | _ => mret tt
  end.
Definition handle_event (event : Event) : M Server ServerFailure unit :=
  on_node (observe event);;
  report_event event;;
  on_router (route event);;
  mret tt.

(** What happens around one round: the calls on the signal before the round,
    before its progress check and while it waits, and what the clock reads. *)
Record Round : Type := mkRound {
  rd_before : list SignalCall;
  rd_begin : Instant;
  rd_during : list SignalCall;
  rd_now : Instant;
  rd_waiting : list SignalCall;
}.

(** One round of the loop; [true] is its [break]. *)
Definition begin_round (e : Round) : M Server ServerFailure unit :=
  modify (set_signal (signal_calls (rd_before e)));;
  stop ← gets (λ s, stopping (sv_signal s) && bool_decide (t_stage (sv_node s) = StReady));
  (if stop : bool then on_node (begin_shutdown (rd_begin e)) else mret tt).
Definition end_round (e : Round) (count : N) : M Server ServerFailure bool :=
  modify (set_signal (signal_calls (rd_during e)));;
  stage ← gets (λ s, t_stage (sv_node s));
  force ← gets (λ s, forcing (sv_signal s));
  drained ← (if bool_decide (stage = StStopping) then on_node (shutdown_progress (rd_now e) force) else mret false);
  if drained : bool then mret true else
  (if count <? EVENTS_PER_TURN then modify (set_signal (wait (rd_waiting e))) else mret tt);;
  mret false.
Definition round (e : Round) : M Server ServerFailure bool :=
  begin_round e;;
  count ← turn_with poll_server handle_event;
  end_round e count.

(** The loop for as many rounds as are given; [None] when it goes on. *)
Fixpoint serve (rounds : list Round) (s : Server) : option (result ServerFailure unit) * Server :=
  match rounds with
  | [] => (None, s)
  | e :: rounds =>
    match round e s with
    | (Err e, s) => (Some (Err e), s)
    | (Ok true, s) => (Some (Ok tt), s)
    | (Ok false, s) => serve rounds s
    end
  end.

(** Binding the listener and trying the contacts. *)
Definition report_failures (attempts : list Attempt_) (s : Server) : Server :=
  foldl (λ s a, if is_err (at_admitted a) then report StatContactFailed s else s) s attempts.
Definition start_server : M Server ServerFailure unit :=
  ready ← on_node listen;
  modify (report (StatReady ready));;
  attempts ← on_node connect_contacts;
  modify (report_failures attempts).
(** [run]; when it returns, the node and all it owns are dropped. *)
Definition run_server (rounds : list Round) (s : Server) : option (result ServerFailure unit) * Server :=
  if stopping (sv_signal s) then (Some (Ok tt), report StatStopped s) else
  match start_server s with
  | (Err e, s) => (Some (Err e), s)
  | (Ok _, s) =>
    match serve rounds s with
    | (Some (Ok _), s) => (Some (Ok tt), report StatStopped s)
    | r => r
    end
  end.
End run.
Arguments Server : clear implicits.
