(* ===== verification/ServerProps.v ===== *)
(** * The life of a server

    The driver is a transport control that hands out connections only where one
    was asked for, so everything proved of a server holds over it.  What the
    owner of a control may have asked of it at any point of its life: the
    stages, the handles it keeps, and a shutdown that admits nothing, drains
    everything once and closes what is left. *)

From S2P Require Import Prelude Bytes Header Control HandshakeCodec Api Resources Framing Ports Handshake Integrity StreamIds Registry Session Connection ConnectionRuns Driver DriverProps.
From S2P Require Import Json Files Contact ServerConfig Server ServerRun.

#[local] Open Scope N_scope.

Section driver.
Context {Sk : Type} `{!Socket Sk} {C : Type} `{!Cryptography C} {I : Type} `{!Identity I}.
Context {P At Li T : Type} `{!SocketProvider P At Li, !Connecting At Sk, !Listener Li Sk, !Clock T}.

Abbreviation DSt := (Driver (Sk := Sk) (C := C) (I := I) (P := P) (At := At) (Li := Li) (T := T) * World Sk)%type.

#[global] Instance Driver_control : TransportControl Sk DSt := {|
  tc_submit := submit;
  tc_poll x := match poll_event x with (Ready e, x) => (Ready (Some e), x) | (Pending, x) => (Pending, x) end;
|}.

(** An answer that is no connection. *)
Definition no_connection (r : result TransportError Accepted) : Prop := ∀ h, r ≠ Ok (AccConnection h).
Lemma then_queued {A} (m : M DSt TransportError A) (x : DSt) : no_connection ((m ≫= λ _, mret AccQueued) x).1.
Proof. intros h. unfold mbind, M_bind, mret, M_ret. by destruct (m x) as [[a | e] y]. Qed.
Lemma request_no_connection r (x : DSt) : brings r = false → no_connection (request r x).1.
Proof.
  destruct x as [d w]. destruct r as [r | a | s e | l | p | c o | o s a | c t tm | c re | h]; cbn [brings request]; try done; intros _.
  - intros h. unfold request_listen. destruct (_ <=? _); [done |]. destruct (provider_listen _ _) as [[li | e] ps]; [| done].
    destruct (local_addr li); [| done]. by destruct (alloc _).
  - intros h. unfold request_stop. by destruct (list_find _ _) as [[i [k li]] |].
  - intros h. unfold request_register. destruct (_ <=? _); [done |].
    by destruct (Registry.register p _) as [[o | e] [g st]].
  - intros h. unfold mbind, M_bind, gets, mret, M_ret. by destruct (on_session_of _ _ _) as [[s | e] y].
  - apply then_queued.
  - intros h. unfold mbind at 1, M_bind at 1, run. destruct (clock_now _) as [now t']. apply then_queued.
  - apply then_queued.
  - intros k. unfold request_close. destruct (list_find _ (pending d)) as [[i p] |]; [done |].
    destruct (list_find _ (connections d)) as [[i c] |]; [| done]. by destruct (Connection_close _).
Qed.
#[global] Instance Driver_laws : ControlLaws Sk DSt.
Proof.
  intros r [d w] h x' H. cbn in H. unfold submit in H. destruct (_ <=? len _); [by injection H as [=] |].
  destruct (brings r) eqn:Eb; [done | exfalso]. pose proof (request_no_connection r (d, w) Eb) as Hn.
  destruct (request r (d, w)) as [a [d' w']]. apply (Hn h). cbn. by destruct (is_ok a && waker d'); injection H as -> _.
Qed.
End driver.

(** ** A server on the driver of a small machine

    Its one contact hangs up as soon as it is polled; its one consumer counts
    what it is given. *)
Module DriverDemo.
Definition address (port : N) : SocketAddr := SocketAddrV4 (mkIpv4 x7f x00 x00 x01) port.
Definition peer : Contact := mkContact (replicate 32 x01) (Some (address 4321)).
Definition config : Config := mkConfig
  (mkServerOptions (mkPath false [Normal (lit "keys")]) (address 0) [peer] 4 demo_config 100).
Definition control : Type := (Driver (Sk := Script) (C := N) (I := N) (P := N)
  (At := Poll (result ErrorKind Script)) (Li := N) (T := N) * World Script)%type.
Definition start : control * list (Request Script) := ((demo_driver.1, mkWorld demo_driver.2 [] 0), []).
Definition node : Transport (control * list (Request Script)) := compose config (replicate 32 x02) [peer] start.

#[global] Instance counter : Consumer N := λ _ k, (Ok tt, k + 1).
Definition server (s : Signal) : Server (control * list (Request Script)) N := mkServer node [] s [].
Definition idle (now : Instant) : Round := mkRound [] now [] now [].
Definition told_at (now : Instant) : Round := mkRound [CallShutdown] now [] now [].

(** What a run answered, reported and asked. *)
Definition outcome (rounds : list Round) (s : Signal)
    : option (result ServerFailure unit) * list Status * nat :=
  let '(r, s) := run_server rounds (server s) in (r, sv_reports s, length (t_driver (sv_node s)).2).
Example runs :
  (outcome [idle 0; idle 1] Signal_default).1.1 = None ∧
  outcome [idle 0; told_at 1; idle 2] Signal_default =
    (Some (Ok tt), [StatReady (mkReady (replicate 32 x02) (address 1)); StatConnectionClosed; StatStopped], 3%nat) ∧
  outcome [idle 0] (shutdown Signal_default) = (Some (Ok tt), [StatStopped], 0%nat).
Proof. vm_compute. done. Qed.
End DriverDemo.

(** ** The life of a node *)


Section life.
Context {Sk X : Type} `{TC : !TransportControl Sk X} `{CL : !ControlLaws Sk X}.

(** The control records what it is asked. *)
Abbreviation Y := (X * list (Request Sk))%type.
Abbreviation Node := (Transport Y) (only parsing).
Definition asked (t : Node) : list (Request Sk) := (t_driver t).2.

(** ** One request *)

Record unchanged (t t' : Node) : Prop := {
  un_config : t_config t' = t_config t;
  un_stage : t_stage t' = t_stage t;
  un_connections : t_connections t' = t_connections t;
  un_deadline : t_shutdown_deadline t' = t_shutdown_deadline t;
  un_listener : t_listener t' = t_listener t;
}.
#[global] Instance unchanged_preorder : PreOrder unchanged.
Proof. split; [by intros t; split |]. intros a b c [] []. split; congruence. Qed.

Lemma driver_submit_run q (t : Node) r t' : driver_submit q t = (r, t') →
  unchanged t t' ∧ asked t' = asked t ++ [q].
Proof.
  unfold driver_submit. destruct t as [[x l] c i cs st cn b d ls]. cbn.
  destruct (tc_submit q x) as [a x']. by intros [= <- <-].
Qed.
Lemma driver_submit_brings q (t : Node) h t' : driver_submit q t = (Ok (AccConnection h), t') → brings q = true.
Proof using CL.
  unfold driver_submit. destruct t as [[x l] c i cs st cn b d ls]. cbn.
  destruct (tc_submit q x) as [a x'] eqn:E. intros [= -> _]. by eapply connection_asked.
Qed.
Lemma discard_run q (t : Node) : unchanged t (discard q t) ∧ asked (discard q t) = asked t ++ [q].
Proof.
  unfold discard. destruct (driver_submit q t) as [r t'] eqn:E. by apply driver_submit_run in E.
Qed.
Lemma driver_poll_run (t : Node) : unchanged t (driver_poll t).2 ∧ asked (driver_poll t).2 = asked t.
Proof.
  unfold driver_poll. destruct t as [[x l] c i cs st cn b d ls]. cbn. by destruct (tc_poll x) as [e x'].
Qed.

(** The requests of draining, by the answers of the control: every connection is
    asked to drain, in order; one whose drain was accepted is asked nothing
    more, and one whose drain was refused is asked to close before the next. *)
Inductive drains : list ConnectionHandle → X → list (Request Sk) → X → Prop :=
| drains_nil x : drains [] x [] x
| drains_accepted c cs x a x1 l x' :
    tc_submit (ReqDrain c SrNormal) x = (Ok a, x1) → drains cs x1 l x' →
    drains (c :: cs) x (ReqDrain c SrNormal :: l) x'
| drains_refused c cs x e x1 r x2 l x' :
    tc_submit (ReqDrain c SrNormal) x = (Err e, x1) → tc_submit (ReqClose c) x1 = (r, x2) →
    drains cs x2 l x' →
    drains (c :: cs) x (ReqDrain c SrNormal :: ReqClose c :: l) x'.

(** The control itself, without the record. *)
Definition control_of (t : Node) : X := (t_driver t).1.
Lemma driver_submit_control q (t : Node) r t' : driver_submit q t = (r, t') →
  tc_submit q (control_of t) = (r, control_of t').
Proof.
  unfold driver_submit, control_of. destruct t as [[x l] c i cs st cn b d ls]. cbn.
  destruct (tc_submit q x) as [a x']. by intros [= <- <-].
Qed.
Lemma discard_control q (t : Node) : ∃ r, tc_submit q (control_of t) = (r, control_of (discard q t)).
Proof.
  unfold discard. destruct (driver_submit q t) as [r t'] eqn:E. exists r. by apply driver_submit_control.
Qed.
Lemma drain_all_run cs (t : Node) :
  unchanged t (drain_all cs t) ∧
  ∃ l, drains cs (control_of t) l (control_of (drain_all cs t)) ∧ asked (drain_all cs t) = asked t ++ l ∧
       Forall (λ q, admits q = false) l.
Proof.
  revert t. induction cs as [| c cs IH]; intros t; cbn [drain_all].
  { split; [done |]. exists []. split; [constructor |]. by rewrite app_nil_r. }
  destruct (driver_submit (ReqDrain c SrNormal) t) as [r t1] eqn:E.
  apply driver_submit_control in E as C1. apply driver_submit_run in E as [U1 L1].
  destruct r as [a | e]; cbv [is_err]; cbn [negb is_ok]; cbv iota.
  - destruct (IH t1) as [U2 (l & D & L2 & A)]. split; [by etrans |]. eexists. split; [by eapply drains_accepted |].
    rewrite L2, L1, <- app_assoc. split; [done | by constructor].
  - destruct (discard_run (ReqClose c) t1) as [U2 L2]. destruct (discard_control (ReqClose c) t1) as [r C2].
    destruct (IH (discard (ReqClose c) t1)) as [U3 (l & D & L3 & A)].
    split; [etrans; [exact U1 |]; by etrans |]. eexists. split; [by eapply drains_refused |].
    rewrite L3, L2, L1, <- !app_assoc. split; [done | by repeat constructor].
Qed.
Lemma close_all_run cs (t : Node) :
  unchanged t (close_all cs t) ∧ asked (close_all cs t) = asked t ++ (ReqClose <$> cs).
Proof.
  revert t. induction cs as [| c cs IH]; intros t; cbn [close_all fmap list_fmap]; [by rewrite app_nil_r |].
  destruct (discard_run (ReqClose c) t) as [U1 L1]. destruct (IH (discard (ReqClose c) t)) as [U2 L2].
  split; [by etrans |]. by rewrite L2, L1, <- app_assoc.
Qed.

(** ** The stages and the handles *)

Record node_ok (t : Node) : Prop := {
  no_handles : NoDup (t_connections t);
  no_stage : match t_stage t with
             | StStarting => t_listener t = None ∧ t_shutdown_deadline t = None
             | StReady => is_Some (t_listener t) ∧ t_shutdown_deadline t = None
             | StStopping => t_listener t = None ∧ is_Some (t_shutdown_deadline t)
             | _ => False
             end;
}.
Lemma node_ok_unchanged t t' : unchanged t t' → node_ok t → node_ok t'.
Proof. intros [? Es Ec Ed El] [H1 H2]. split; [by rewrite Ec |]. by rewrite Es, Ed, El. Qed.
Lemma compose_ok config id cs (y : Y) : node_ok (compose config id cs y).
Proof. split; [constructor | done]. Qed.

(** Calls on the node, and requests of trusted local code on the driver itself,
    which admit nothing: a registration, or the cancellation of a stream. *)
Inductive node_step : Node → Node → Prop :=
| ns_listen t r t' : listen t = (r, t') → node_step t t'
| ns_contacts t r t' : connect_contacts t = (r, t') → node_step t t'
| ns_submit q t r t' : server_submit q t = (r, t') → node_step t t'
| ns_poll t e t' : driver_poll t = (e, t') → node_step t t'
| ns_observe e t r t' : observe e t = (r, t') → node_step t t'
| ns_begin now t r t' : begin_shutdown now t = (r, t') → node_step t t'
| ns_progress now force t r t' : shutdown_progress now force t = (r, t') → node_step t t'
| ns_direct q t : admits q = false → brings q = false → node_step t (discard q t).

(** What one step does to a node. *)
Record steps_to (t t' : Node) : Prop := {
  sx_config : t_config t' = t_config t;
  sx_ok : node_ok t → node_ok t';
  sx_asked : ∃ l, asked t' = asked t ++ l ∧ (t_stage t = StStopping → Forall (λ q, admits q = false) l);
  sx_stopping : t_stage t = StStopping →
    t_stage t' = StStopping ∧ t_shutdown_deadline t' = t_shutdown_deadline t ∧
    ∀ h, h ∈ t_connections t' → h ∈ t_connections t;
  sx_stage : t_stage t' = t_stage t ∨ (t_stage t = StStarting ∧ t_stage t' = StReady) ∨
    (t_stage t = StReady ∧ t_stage t' = StStopping);
}.
Lemma steps_to_unchanged t t' l : unchanged t t' → asked t' = asked t ++ l →
  (t_stage t = StStopping → Forall (λ q, admits q = false) l) → steps_to t t'.
Proof.
  intros U L H. split; [apply U | by apply node_ok_unchanged | by exists l | | left; apply U].
  intros Hs. destruct U as [? Es Ec Ed El]. by rewrite Es, Ec, Ed.
Qed.

Lemma steps_to_refl t : steps_to t t.
Proof using CL. apply (steps_to_unchanged t t []); [done | by rewrite app_nil_r | done]. Qed.
Lemma steps_to_trans t1 t2 t3 : steps_to t1 t2 → steps_to t2 t3 → t_stage t2 = t_stage t1 → steps_to t1 t3.
Proof using CL.
  intros [C1 O1 (l1 & L1 & A1) S1 G1] [C2 O2 (l2 & L2 & A2) S2 G2] Es. split; [congruence | auto | | | congruence].
  - exists (l1 ++ l2). rewrite L2, L1, <- app_assoc. split; [done |]. intros H. apply Forall_app. split; [auto |].
    apply A2. congruence.
  - intros H. destruct (S1 H) as (H1 & D1 & I1). destruct (S2 H1) as (H2 & D2 & I2). split_and!; [done | congruence | auto].
Qed.

Lemma observe_step e t r t' : observe e t = (r, t') → steps_to t t' ∧ t_stage t' = t_stage t.
Proof using CL.
  unfold observe. destruct e as [h | ctx | ctx s p | s b | s | s o | c k el | c f | l f]; try (intros [= <- <-]; split; [apply steps_to_refl | done]).
  - case_bool_decide as Hs; intros [= <- <-].
    + destruct (discard_run (ReqClose h) t) as [U L]. split; [| apply U].
      apply (steps_to_unchanged t _ _ U L). intros _. by repeat constructor.
    + unfold retain_handle. case_bool_decide as Hin; [by split; [apply steps_to_refl |] |]. split; [| done].
      split; try done; [| | by left].
      * intros [H1 H2]. split; [| done]. cbn. apply NoDup_app. split_and!; [done | set_solver | apply NoDup_singleton].
      * exists []. by rewrite app_nil_r.
  - intros [= <- <-]. split; [| done]. split; try done; [| | | by left].
    + intros [H1 H2]. split; [| done]. cbn. by apply NoDup_filter.
    + exists []. by rewrite app_nil_r.
    + intros Hs. split_and!; [done.. |]. intros h [_ Hh]%list_elem_of_filter. done.
  - case_bool_decide; intros [= <- <-]; (split; [apply steps_to_refl | done]).
Qed.

Lemma server_submit_step q t r t' : server_submit q t = (r, t') →
  steps_to t t' ∧ t_stage t' = t_stage t ∧ (t_stage t = StStopping → admits q = true → r = Err TeClosed ∧ t' = t).
Proof using CL.
  unfold server_submit, ensure. unfold_m. case_bool_decide as Hs; cbn [negb andb].
  - destruct (admits q) eqn:Ea; cbn [negb]; [intros [= <- <-]; by split; [apply steps_to_refl |] |].
    destruct (driver_submit q t) as [[a | e] t1] eqn:E.
    2: { intros [= <- <-]. apply driver_submit_run in E as [U L]. split; [| by split; [apply U |]].
         apply (steps_to_unchanged t _ _ U L). intros _. by constructor. }
    pose proof E as E'. apply driver_submit_run in E as [U L]. intros H.
    assert (∀ h, a ≠ AccConnection h) as Hno.
    { intros h ->. apply driver_submit_brings in E'. by destruct q. }
    assert (r = Ok a ∧ t' = t1) as [-> ->] by (destruct a; [by destruct (Hno h) | by injection H as <- <-..]).
    split; [| by split; [apply U |]]. apply (steps_to_unchanged t _ _ U L). intros _. by constructor.
  - destruct (driver_submit q t) as [[a | e] t1] eqn:E; apply driver_submit_run in E as [U L].
    2: { intros [= <- <-]. split; [| by split; [apply U |]]. by apply (steps_to_unchanged t _ _ U L). }
    intros H. assert (steps_to t t1) as H1 by by apply (steps_to_unchanged t _ _ U L).
    assert (t' = t1 ∨ ∃ h, t' = retain_handle h t1) as Ht by (destruct a; injection H as _ <-; eauto).
    assert (t_stage t1 = t_stage t) as Es by apply U. clear H.
    destruct Ht as [-> | [h ->]]; [by split_and! |]. unfold retain_handle.
    case_bool_decide as Hin; [by split_and! |]. split_and!; [| done | done].
    apply (steps_to_trans t t1); [done | | done]. split; try done; [| | congruence | by left].
    + intros [N1 N2]. split; [| done]. cbn. apply NoDup_app. split_and!; [done | set_solver | apply NoDup_singleton].
    + exists []. by rewrite app_nil_r.
Qed.

Lemma listen_step t r t' : listen t = (r, t') →
  steps_to t t' ∧ (is_ok r = true → t_stage t = StStarting ∧ t_stage t' = StReady).
Proof using CL.
  unfold listen, ensure. unfold_m. case_bool_decide as Hs; cbn [andb].
  2: { intros [= <- <-]. by split; [apply steps_to_refl |]. }
  case_bool_decide as Hl; [| intros [= <- <-]; by split; [apply steps_to_refl |]].
  destruct (driver_submit _ t) as [a t1] eqn:E. apply driver_submit_run in E as [U L]. cbn beta iota.
  assert (steps_to t t1) as H1 by (apply (steps_to_unchanged t _ _ U L); intros H; congruence).
  destruct a as [[h | h addr | o | h |] | e]; intros [= <- <-]; try by split.
  split; [| by split; [| done]]. destruct U as [Uc Us Un Ud Ul]. split; cbn.
  - done.
  - intros [N1 N2]. rewrite Hs in N2. destruct N2 as [_ N2]. split; cbn; [by rewrite Un |]. split; [by eexists | congruence].
  - eexists. split; [exact L |]. congruence.
  - congruence.
  - auto.
Qed.

Lemma attempt_contact_step c t r t' : attempt_contact c t = (r, t') → steps_to t t' ∧ t_stage t' = t_stage t ∧ is_ok r = true.
Proof using CL.
  unfold attempt_contact. destruct (_ ≫= _) as [q | e]; [| intros [= <- <-]; by split; [apply steps_to_refl |]].
  destruct (server_submit (ReqConnect q) t) as [a t1] eqn:E. apply server_submit_step in E as (H1 & H2 & _).
  by intros [= <- <-].
Qed.
Lemma attempt_contacts_step cs t r t' : attempt_contacts cs t = (r, t') →
  steps_to t t' ∧ t_stage t' = t_stage t ∧ is_ok r = true.
Proof using CL.
  revert t r t'. induction cs as [| c cs IH]; intros t r t'; cbn [attempt_contacts]; unfold_m.
  { intros [= <- <-]. by split; [apply steps_to_refl |]. }
  destruct (attempt_contact c t) as [a t1] eqn:E. apply attempt_contact_step in E as (H1 & H2 & H3).
  destruct a as [a | e]; [| done]. destruct (attempt_contacts cs t1) as [b t2] eqn:E2.
  apply IH in E2 as (H4 & H5 & H6). destruct b as [b | e]; [| done]. intros [= <- <-].
  split_and!; [by apply (steps_to_trans t t1) | congruence | done].
Qed.
Lemma connect_contacts_step t r t' : connect_contacts t = (r, t') →
  steps_to t t' ∧ t_stage t' = t_stage t ∧
  (t_stage t = StReady → t_contacts_started t = false → is_ok r = true).
Proof using CL.
  unfold connect_contacts, ensure. unfold_m. case_bool_decide as Hs; cbn [andb].
  2: { intros [= <- <-]. by split; [apply steps_to_refl |]. }
  destruct (t_contacts_started t) eqn:Et; cbn [negb]; [intros [= <- <-]; by split; [apply steps_to_refl |] |].
  intros E. apply attempt_contacts_step in E as (H1 & H2 & H3). split_and!; [| done | done].
  apply (steps_to_trans t (set_contacts_started t)); [| done | done].
  apply (steps_to_unchanged t _ []); [by split | by rewrite app_nil_r | by constructor].
Qed.

Lemma begin_shutdown_step now t r t' : begin_shutdown now t = (r, t') → node_ok t →
  steps_to t t' ∧
  (is_ok r = true → t_stage t = StReady →
   t_stage t' = StStopping ∧ t_shutdown_deadline t' = Some (now + shutdown_timeout (options (t_config t))) ∧
   t_connections t' = t_connections t ∧
   ∃ listener r x l, t_listener t = Some listener ∧
     tc_submit (ReqStopListening listener) (control_of t) = (r, x) ∧
     drains (t_connections t) x l (control_of t') ∧ asked t' = asked t ++ ReqStopListening listener :: l) ∧
  (is_ok r = false → t' = t).
Proof using CL.
  intros H Hok. unfold begin_shutdown in H. case_bool_decide as Hs.
  { injection H as <- <-. split_and!; [apply steps_to_refl | congruence | done]. }
  case_bool_decide as Hr; cbn [negb] in H; [| injection H as <- <-; by split_and!; [apply steps_to_refl | |]].
  destruct (Instant_checked_add now _) as [d |] eqn:Ed;
    [| injection H as <- <-; by split_and!; [apply steps_to_refl | |]].
  unfold Instant_checked_add in Ed. apply checked_add_Some in Ed as [-> _].
  destruct Hok as [N1 N2]. rewrite Hr in N2. destruct N2 as [[listener Hl] Hd]. cbn in H. rewrite Hl in H.
  injection H as <- <-. set (d := now + _). set (t1 := set_stage StStopping (set_deadline d t)).
  set (t2 := discard (ReqStopListening listener) (set_listener None t1)).
  destruct (discard_run (ReqStopListening listener) (set_listener None t1)) as [U2 L2]. fold t2 in U2, L2.
  assert (t_connections t2 = t_connections t) as Ec by apply U2. rewrite Ec.
  destruct (discard_control (ReqStopListening listener) (set_listener None t1)) as [r C2].
  destruct (drain_all_run (t_connections t) t2) as [U3 (l & Hdr & L3 & Hadm)].
  set (t3 := drain_all (t_connections t) t2) in *. pose proof (transitivity U2 U3) as [C3 S3 N3 D3 K3]. cbn in C3, S3, N3, D3, K3.
  split_and!; [| intros _ _; split_and!; [done.. |] | done].
  - split; [exact C3 | | | congruence | auto].
    + intros _. split; [by rewrite N3 |]. rewrite S3, K3, D3. split; [done | by eexists].
    + eexists. rewrite L3, L2, <- app_assoc. split; [reflexivity | congruence].
  - exists listener, r, (control_of t2), l. split_and!; [exact Hl | exact C2 | exact Hdr |].
    rewrite L3, L2, <- app_assoc. done.
Qed.

Lemma shutdown_progress_step now force t r t' : shutdown_progress now force t = (r, t') →
  steps_to t t' ∧ t_stage t' = t_stage t ∧ unchanged t t' ∧
  match t_shutdown_deadline t with
  | None => r = Err SfRuntime ∧ t' = t
  | Some d =>
    (t_connections t = [] ∧ r = Ok true ∧ t' = t) ∨
    (t_connections t ≠ [] ∧ (force = true ∨ d ≤ now) ∧ r = Err SfShutdownTimeout ∧
     asked t' = asked t ++ (ReqClose <$> t_connections t)) ∨
    (t_connections t ≠ [] ∧ force = false ∧ now < d ∧ r = Ok false ∧ t' = t)
  end.
Proof using CL.
  unfold shutdown_progress. destruct (t_shutdown_deadline t) as [d |].
  2: { intros [= <- <-]. by split_and!; [apply steps_to_refl | ..]. }
  destruct (t_connections t) as [| c cs] eqn:Ec; cbn [is_empty].
  { intros [= <- <-]. split_and!; [apply steps_to_refl | done | done |]. by left. }
  destruct (force || (d <=? now)) eqn:Ef; intros [= <- <-].
  - destruct (close_all_run (c :: cs) t) as [U L].
    split_and!; [| apply U | exact U | right; left; split_and!; try done].
    + apply (steps_to_unchanged t _ _ U L). intros _. apply Forall_fmap. by apply Forall_true.
    + apply orb_true_iff in Ef as [-> | Ef%N.leb_le]; [by left | by right].
  - apply orb_false_iff in Ef as [-> Ef%N.leb_gt]. split_and!; [apply steps_to_refl | done | done |].
    right; right. by split_and!.
Qed.

Lemma node_step_to t t' : node_step t t' → node_ok t → steps_to t t'.
Proof using CL.
  intros H Hok. destruct H.
  - by eapply listen_step.
  - by eapply connect_contacts_step.
  - by eapply server_submit_step.
  - destruct (driver_poll_run t) as [U L]. rewrite H in U, L.
    apply (steps_to_unchanged t t' [] U); [by rewrite app_nil_r | by constructor].
  - by eapply observe_step.
  - by eapply begin_shutdown_step.
  - by eapply shutdown_progress_step.
  - destruct (discard_run q t) as [U L]. apply (steps_to_unchanged t _ _ U L). intros _. by constructor.
Qed.
Lemma node_steps_ok t t' : rtc node_step t t' → node_ok t → node_ok t' ∧ t_config t' = t_config t.
Proof using CL.
  induction 1 as [| t t1 t' H _ IH]; [done |]. intros Hok. apply node_step_to in H as Hs; [| done].
  destruct (IH (sx_ok _ _ Hs Hok)) as [? ->]. split; [done | apply Hs].
Qed.

Lemma stopping_kept t t' : rtc node_step t t' → node_ok t → t_stage t = StStopping →
  t_stage t' = StStopping ∧ t_shutdown_deadline t' = t_shutdown_deadline t ∧
  (∀ h, h ∈ t_connections t' → h ∈ t_connections t) ∧
  ∃ l, asked t' = asked t ++ l ∧ Forall (λ q, admits q = false) l.
Proof using CL.
  induction 1 as [t | t t1 t' H _ IH]; intros Hok Hs.
  { split_and!; [done.. |]. exists []. by rewrite app_nil_r. }
  apply node_step_to in H as [_ Ho (l & L & A) S _]; [| done].
  destruct (S Hs) as (H1 & D1 & I1). destruct (IH (Ho Hok) H1) as (H2 & D2 & I2 & k & K & B).
  split_and!; [done | congruence | auto |]. exists (l ++ k). rewrite K, L, <- app_assoc. split; [done |].
  apply Forall_app. split; [auto | done].
Qed.

(** C13: shutdown is controlled.  At any point of the life of a node, beginning a
    shutdown while it is ready stops its listener and then asks every retained
    connection once to drain, in order: exactly those whose drain the driver
    refused are asked to close at once, the others are left to drain; and it
    fixes the deadline at the configured distance; from then on, whatever is
    called, the node stays stopping with that deadline, no request that admits
    work reaches the driver and a submitted one is answered [Closed], and no
    connection is retained that was not; and progress is reported exactly: done
    when no connection is left, a timeout that closes all that are left once the
    deadline is reached or the closure forced, and otherwise not yet. *)
Theorem shutdown_controlled config id cs y t1 t2 t3 now :
  rtc node_step (compose config id cs y) t1 → t_stage t1 = StReady →
  begin_shutdown now t1 = (Ok tt, t2) → rtc node_step t2 t3 →
  let deadline := now + shutdown_timeout (options config) in
  (∃ listener r x l, t_listener t1 = Some listener ∧
     tc_submit (ReqStopListening listener) (control_of t1) = (r, x) ∧
     drains (t_connections t1) x l (control_of t2) ∧ asked t2 = asked t1 ++ ReqStopListening listener :: l) ∧
  t_stage t3 = StStopping ∧ NoDup (t_connections t3) ∧ (∀ h, h ∈ t_connections t3 → h ∈ t_connections t1) ∧
  (∃ l, asked t3 = asked t2 ++ l ∧ Forall (λ q, admits q = false) l) ∧
  (∀ q, admits q = true → server_submit q t3 = (Err TeClosed, t3)) ∧
  ∀ later force, match shutdown_progress later force t3 with
    | (Ok true, t4) => t_connections t3 = [] ∧ t4 = t3
    | (Ok false, t4) => t_connections t3 ≠ [] ∧ force = false ∧ later < deadline ∧ t4 = t3
    | (Err e, t4) => e = SfShutdownTimeout ∧ t_connections t3 ≠ [] ∧ (force = true ∨ deadline ≤ later) ∧
        asked t4 = asked t3 ++ (ReqClose <$> t_connections t3)
    end.
Proof using CL.
  intros H1 Hr Hb H3. destruct (node_steps_ok _ _ H1 (compose_ok _ _ _ _)) as [Ok1 Hc]. cbn in Hc.
  destruct (begin_shutdown_step _ _ _ _ Hb Ok1) as (S2 & B & _).
  destruct (B eq_refl Hr) as (Hs2 & Hd2 & Hn2 & Hreq). pose proof (sx_ok _ _ S2 Ok1) as Ok2.
  destruct (stopping_kept _ _ H3 Ok2 Hs2) as (Hs3 & Hd3 & Hi3 & Hl). rewrite Hd2, Hc in Hd3. rewrite Hn2 in Hi3.
  destruct (node_steps_ok _ _ H3 Ok2) as [Ok3 _]. split_and!; [done | done | apply Ok3 | done | done | |].
  - intros q Hq. destruct (server_submit q t3) as [r t4] eqn:E.
    apply server_submit_step in E as (_ & _ & E). by destruct (E Hs3 Hq) as [-> ->].
  - intros later force. destruct (shutdown_progress later force t3) as [r t4] eqn:E.
    apply shutdown_progress_step in E as (_ & _ & _ & E). rewrite Hd3 in E.
    destruct E as [(? & -> & ->) | [(? & ? & -> & ?) | (? & ? & ? & -> & ->)]]; by split_and!.
Qed.
End life.

Module Demo.
Import DriverDemo.
Definition bound : Transport (control * list (Request Script)) := (listen node).2.
Definition dialled : Transport (control * list (Request Script)) := (connect_contacts bound).2.
Definition stopped : Transport (control * list (Request Script)) := (begin_shutdown 10 dialled).2.

Lemma shutdown_controlled_witness :
  t_stage dialled = StReady ∧ (begin_shutdown 10 dialled).1 = Ok tt ∧ length (t_connections stopped) = 1%nat ∧
  (∃ listener r x l, t_listener dialled = Some listener ∧
     tc_submit (ReqStopListening listener) (control_of dialled) = (r, x) ∧
     drains (t_connections dialled) x l (control_of stopped) ∧
     asked stopped = asked dialled ++ ReqStopListening listener :: l) ∧
  server_submit (ReqListen (address 1)) stopped = (Err TeClosed, stopped) ∧
  (shutdown_progress 110 false stopped).1 = Err SfShutdownTimeout.
Proof.
  assert (rtc node_step node dialled) as H1.
  { eapply rtc_l; [eapply ns_listen, surjective_pairing |]. apply rtc_once. eapply ns_contacts, surjective_pairing. }
  assert (t_stage dialled = StReady) as H2 by (vm_compute; reflexivity).
  assert (begin_shutdown 10 dialled = (Ok tt, stopped)) as H3.
  { unfold stopped. rewrite (surjective_pairing (begin_shutdown 10 dialled)) at 1. f_equal; vm_compute; reflexivity. }
  destruct (shutdown_controlled config (replicate 32 x02) [peer] start dialled stopped stopped 10 H1 H2 H3 (rtc_refl _ _))
    as (Hd & _ & _ & _ & _ & Hq & _).
  split; [exact H2 |]. split; [by rewrite H3 |]. split; [vm_compute; reflexivity |]. split; [exact Hd |].
  split; [by apply Hq |]. vm_compute. reflexivity.
Defined.
End Demo.
