(* ===== verification/ServerRunProps.v ===== *)
(** * Runs of the server

    Routing reaches the owner of a stream only; signals are never lost; every
    run of the loop is a life of its node, reports its end truthfully, and ends
    once a shutdown was requested and its deadline has passed. *)

From S2P Require Import Prelude Bytes Header Control HandshakeCodec Api Resources Framing Ports Session Connection ConnectionRuns Driver DriverProps.
From S2P Require Import Contact ServerConfig Server ServerRun ServerProps.

#[local] Open Scope N_scope.

(** ** Signals *)

Lemma signal_calls_stopping cs s : stopping s = true → stopping (signal_calls cs s) = true.
Proof.
  unfold signal_calls. revert s. induction cs as [| c cs IH]; intros s Hs; cbn; [done |]. apply IH. by destruct c.
Qed.
Lemma signal_calls_shutdown cs s : CallShutdown ∈ cs → stopping (signal_calls cs s) = true.
Proof.
  unfold signal_calls. revert s. induction cs as [| c cs IH]; intros s; [by intros ?%not_elem_of_nil |].
  intros [<- | Hc]%elem_of_cons; [| by apply IH]. cbn. by apply (signal_calls_stopping cs (shutdown s)).
Qed.
Lemma wait_stopping during s : stopping s = true → wait during s = mkSignal false (sg_shutdown s) (sg_force s).
Proof. unfold wait, sleeps. intros ->. by rewrite andb_false_r. Qed.
Lemma wait_keeps during s : stopping s = true → stopping (wait during s) = true.
Proof. intros H. by rewrite wait_stopping. Qed.

(** The calls on a signal and the returns of its waits, in the order they take
    effect; a wait that sleeps lets the calls of other threads go first. *)
Inductive SignalOp : Type := OpCall (c : SignalCall) | OpReturn.
Definition signal_op (s : Signal) (o : SignalOp) : Signal :=
  match o with OpCall c => signal_call s c | OpReturn => mkSignal false (sg_shutdown s) (sg_force s) end.
Definition signal_ops (os : list SignalOp) (s : Signal) : Signal := foldl signal_op s os.
Definition wait_ops (during : list SignalCall) (s : Signal) : list SignalOp :=
  (if sleeps s then OpCall <$> during else []) ++ [OpReturn].
Fixpoint shutdowns (os : list SignalOp) : nat :=
  match os with
  | [] => 0
  | OpCall CallShutdown :: os => S (shutdowns os)
  | _ :: os => shutdowns os
  end.

Lemma wait_is_ops during s : wait during s = signal_ops (wait_ops during s) s.
Proof.
  unfold wait, wait_ops, signal_ops. destruct (sleeps s); [| done]. rewrite foldl_app. cbn. f_equal; [f_equal |].
  all: unfold signal_calls; clear; revert s; induction during as [| c cs IH]; intros s; cbn; done.
Qed.
Lemma shutdowns_app os k : shutdowns (os ++ k) = (shutdowns os + shutdowns k)%nat.
Proof. induction os as [| [[] |] os IH]; cbn; lia. Qed.

(** Notifications and shutdown requests are never lost.  After any calls on
    a new signal and any waits, in any order, a stop is seen exactly when one was
    requested and a forced one exactly when it was requested again; and a wait
    sleeps exactly when no stop was requested and nothing was called since the
    last wait returned. *)
Theorem signals_kept os : let s := signal_ops os Signal_default in
  (stopping s = true ↔ (1 ≤ shutdowns os)%nat) ∧ (forcing s = true ↔ (2 ≤ shutdowns os)%nat) ∧
  (sleeps s = true ↔ shutdowns os = 0%nat ∧ ∀ c, last os ≠ Some (OpCall c)).
Proof.
  assert (∀ os, sg_shutdown (signal_ops os Signal_default) = (1 <=? shutdowns os)%nat ∧
    sg_force (signal_ops os Signal_default) = (2 <=? shutdowns os)%nat ∧
    sg_pending (signal_ops os Signal_default) = match last os with Some (OpCall _) => true | _ => false end) as H.
  { clear. intros os. induction os as [| o os IH] using rev_ind; [done |]. destruct IH as (H1 & H2 & H3).
    unfold signal_ops in *. rewrite foldl_app, shutdowns_app, last_snoc. cbn. destruct o as [[] |]; cbn.
    all: rewrite ?Nat.add_0_r, ?H1, ?H2; split_and!; try done.
    - by destruct (shutdowns os) as [| [| n]].
    - by destruct (shutdowns os) as [| [| n]]. }
  intros s. destruct (H os) as (H1 & H2 & H3). unfold stopping, forcing, sleeps. fold s in H1, H2, H3.
  rewrite H1, H2, H3. rewrite !Nat.leb_le. split_and!; [done | done |].
  unfold stopping. rewrite H1. destruct (shutdowns os) as [| n]; cbn [Nat.leb].
  - destruct (last os) as [[c |] |]; cbn; naive_solver.
  - rewrite andb_false_r. naive_solver.
Qed.

(** ** Routing *)

Section routing.
Context {Sk X : Type} `{TC : !TransportControl Sk X} {K : Type} `{CO : !Consumer K}.

Lemma owns_spec (stream : StreamHandle) (p : StreamOwner * K) : owns stream p = true ↔ p.1 = sh_owner stream.
Proof.
  unfold owns. destruct (StreamHandle_authorize stream (sh_connection stream) p.1) as [u | e] eqn:E; cbn.
  - by apply StreamHandle_authorize_Ok in E as [_ ->].
  - split; [done |]. intros Ho. assert (StreamHandle_authorize stream (sh_connection stream) p.1 = Ok tt); [| congruence].
    by apply StreamHandle_authorize_Ok.
Qed.

(** C17: events reach the owner of their stream only.  An event of no stream goes
    back to the server and touches no consumer and no request; an event of a
    stream that no registered consumer owns ends the server and reaches nobody;
    otherwise exactly the first consumer registered under the stream's owner
    consumes it and no other consumer changes, and the control is asked nothing
    unless that consumer failed, and then only to cancel this stream for this
    owner. *)
Theorem routed_to_owner (event : Event) (x : X) (r : list (StreamOwner * K)) :
  match event_stream event with
  | None => route event (x, r) = (Ok (Some event), (x, r))
  | Some stream =>
    (Forall (λ p, p.1 ≠ sh_owner stream) r ∧ route event (x, r) = (Err SfRuntime, (x, r))) ∨
    ∃ before consumer after, r = before ++ (sh_owner stream, consumer) :: after ∧
      Forall (λ p, p.1 ≠ sh_owner stream) before ∧
      let '(result, consumer') := consume event consumer in
      route event (x, r) = (Ok None,
        (if is_err result then (tc_submit (ReqStream (sh_owner stream) stream (ActCancel CrInternalError)) x).2 else x,
         before ++ (sh_owner stream, consumer') :: after))
  end.
Proof.
  unfold route. destruct (event_stream event) as [stream |]; [| done].
  destruct (list_find (λ p, owns stream p = true) r) as [[i [owner consumer]] |] eqn:Ef.
  - right. apply list_find_Some in Ef as (Hi & Ho & Hb). apply owns_spec in Ho. cbn in Ho. subst owner.
    exists (take i r), consumer, (drop (S i) r). apply take_drop_middle in Hi as Hr. split_and!; [done | |].
    + apply Forall_forall. intros p Hp. apply list_elem_of_lookup in Hp as [j Hj].
      apply lookup_take_Some in Hj as [Hj Hlt]. intros E. apply (Hb j p Hj Hlt). by apply owns_spec.
    + destruct (consume event consumer) as [result consumer']. f_equal. f_equal.
      rewrite insert_take_drop; [done |]. by apply lookup_lt_Some in Hi.
  - left. split; [| done]. apply list_find_None in Ef. eapply Forall_impl; [exact Ef |].
    intros p Hp E. apply Hp. by apply owns_spec.
Qed.
End routing.

(** ** Turns and rounds *)

Section runs.
Context {Sk X : Type} `{TC : !TransportControl Sk X} `{CL : !ControlLaws Sk X} {K : Type} `{CO : !Consumer K}.

Abbreviation Y := (X * list (Request Sk))%type.
Abbreviation Sv := (Server Y K).
Abbreviation node s := (sv_node s).

(** What a step leaves of a server between the phases of its life. *)
Record runs_on (s s' : Sv) : Prop := {
  ro_life : rtc node_step (node s) (node s');
  ro_stage : t_stage (node s') = t_stage (node s);
  ro_deadline : t_shutdown_deadline (node s') = t_shutdown_deadline (node s);
  ro_signal : sv_signal s' = sv_signal s;
  ro_reports : ∃ l, sv_reports s' = sv_reports s ++ l ∧
    Forall (λ x, match x with StatReady _ | StatStopped => False | _ => True end) l;
}.
#[global] Instance runs_on_preorder : PreOrder runs_on.
Proof using Type.
  split; [intros s; split; try done; exists []; by rewrite app_nil_r |].
  intros a b c [L1 S1 D1 G1 (l1 & R1 & F1)] [L2 S2 D2 G2 (l2 & R2 & F2)].
  split; [by etrans | congruence.. |]. exists (l1 ++ l2). rewrite R2, R1, <- app_assoc.
  split; [done | by apply Forall_app].
Qed.
Lemma runs_on_node (s : Sv) n : rtc node_step (node s) n → t_stage n = t_stage (node s) →
  t_shutdown_deadline n = t_shutdown_deadline (node s) →
  runs_on s (mkServer n (sv_router s) (sv_signal s) (sv_reports s)).
Proof using Type. intros H1 H2 H3. split; try done. exists []. by rewrite app_nil_r. Qed.

Lemma observe_deadline e (t : Transport Y) : t_shutdown_deadline (observe e t).2 = t_shutdown_deadline t.
Proof using Type.
  unfold observe. destruct e; try done.
  - case_bool_decide; [apply (discard_run (TC := TC)) |]. cbn. unfold retain_handle. by case_bool_decide.
  - by case_bool_decide.
Qed.
Lemma set_driver_same (t : Transport Y) : set_driver (t_driver t) t = t.
Proof using Type. by destruct t. Qed.

Lemma handle_event_run e (s : Sv) r s' : handle_event e s = (r, s') → runs_on s s'.
Proof using CL.
  unfold handle_event. unfold mbind at 1, M_bind at 1, on_node at 1.
  destruct (observe e (node s)) as [o n] eqn:Eo. pose proof (observe_deadline e (node s)) as Hd. rewrite Eo in Hd. cbn in Hd.
  apply observe_step in Eo as Es. destruct Es as [_ Hs].
  assert (runs_on s (mkServer n (sv_router s) (sv_signal s) (sv_reports s))) as H1.
  { apply runs_on_node; [eapply rtc_once, ns_observe, Eo | done | done]. }
  destruct o as [u | f]; [| intros [= _ <-]; done].
  set (s1 := mkServer n _ _ _) in *. intros H.
  unfold mbind at 1, M_bind at 1 in H.
  destruct (report_event e s1) as [x s2] eqn:E2.
  assert (runs_on s1 s2 ∧ x = Ok tt) as [H2 ->].
  { destruct e; injection E2 as <- <-; (split; [| done]); try done; (split; try done);
      eexists; (split; [reflexivity |]); by repeat constructor. }
  cbn beta iota in H. etrans; [exact H1 |]. etrans; [exact H2 |]. clear H1 H2 E2 Eo Hd Hs.
  unfold mbind, M_bind, mret, M_ret, on_router in H. destruct s2 as [t router g l].
  cbn [sv_node sv_router sv_signal sv_reports] in H.
  assert (∀ r' x' o, route (TC := recorded) e (t_driver t, router) = (o, (x', r')) →
    ∃ q, (x' = t_driver t ∨ x' = (tc_submit q (t_driver t)).2 ∧ admits q = false ∧ brings q = false)) as Hr.
  { intros r' x' o Ho. unfold route in Ho. exists (match event_stream e with
      | Some st => match list_find (λ p, owns st p = true) router with
                   | Some (_, (owner, _)) => ReqStream owner st (ActCancel CrInternalError)
                   | None => ReqStream 0 st ActEnd end
      | None => ReqStopListening 0 end).
    destruct (event_stream e) as [st |]; [| injection Ho as _ <- _; by left].
    destruct (list_find _ router) as [[i [owner k]] |]; [| injection Ho as _ <- _; by left].
    destruct (consume e k) as [c k']. destruct (is_err c); injection Ho as _ <- _; [right; by split_and! | by left]. }
  destruct (route (TC := recorded) e (t_driver t, router)) as [o [x' r']] eqn:Eo. destruct (Hr _ _ _ eq_refl) as [q Hq].
  assert (runs_on (mkServer t router g l) (mkServer (set_driver x' t) r' g l)) as Hon.
  { destruct Hq as [-> | (-> & Ha & Hb)].
    - rewrite set_driver_same. split; try done. exists []. by rewrite app_nil_r.
    - assert (set_driver (tc_submit q (t_driver t)).2 t = discard q t) as ->.
      { unfold discard, driver_submit. by destruct (tc_submit q (t_driver t)). }
      destruct (discard_run q t) as [U _]. split; cbn; try apply U; [| done |].
      + by eapply rtc_once, ns_direct.
      + exists []. by rewrite app_nil_r. }
  by destruct o; injection H as _ <-.
Qed.

Lemma handle_event_error e (s : Sv) : (handle_event e s).1 ≠ Err SfShutdownTimeout.
Proof using Type.
  unfold handle_event, mbind, M_bind, mret, M_ret, on_node, on_router.
  destruct (observe e (node s)) as [[u | f] n] eqn:Eo; cbn beta iota.
  2: { unfold observe in Eo. destruct e; try done; case_bool_decide; by injection Eo as <- _. }
  destruct (report_event e _) as [[u' | f] s2] eqn:Er; [| by destruct e; discriminate Er].
  destruct (route e (t_driver (node s2), sv_router s2)) as [[o | f] [x r]] eqn:Ero; cbn; [done |].
  unfold route in Ero. destruct (event_stream e); [| done]. destruct (list_find _ _) as [[i [owner k]] |].
  - by destruct (consume e k).
  - by injection Ero as <- _.
Qed.
Lemma turn_error n count (s : Sv) : (turn_loop poll_server handle_event n count s).1 ≠ Err SfShutdownTimeout.
Proof using Type.
  revert count s. induction n as [| n IH]; intros count s; cbn [turn_loop]; [done |].
  destruct (poll_server s) as [[[e |] |] s1]; [| done..]. unfold mbind, M_bind.
  pose proof (handle_event_error e s1) as H. destruct (handle_event e s1) as [[u | f] s2]; [apply IH |].
  cbn in H |- *. congruence.
Qed.
Lemma turn_run n count (s : Sv) r s' : turn_loop poll_server handle_event n count s = (r, s') → runs_on s s'.
Proof using CL.
  revert count s. induction n as [| n IH]; intros count s; cbn [turn_loop]; [by intros [= _ <-] |].
  unfold poll_server. destruct (driver_poll (node s)) as [p t] eqn:Ep.
  pose proof (driver_poll_run (node s)) as [U _]. rewrite Ep in U. cbn in U.
  assert (runs_on s (mkServer t (sv_router s) (sv_signal s) (sv_reports s))) as H1.
  { apply runs_on_node; [by eapply rtc_once, ns_poll | apply U | apply U]. }
  destruct p as [[e |] |]; [| by intros [= _ <-].. ].
  unfold mbind, M_bind. destruct (handle_event e _) as [[u | f] s2] eqn:Eh; apply handle_event_run in Eh.
  - intros H. apply IH in H. etrans; [exact H1 |]. by etrans.
  - intros [= _ <-]. by etrans.
Qed.

Definition timeout_of (s : Sv) : Duration := shutdown_timeout (options (t_config (node s))).
Definition alerted (e : Round) (s : Sv) : bool := stopping (signal_calls (rd_before e) (sv_signal s)).

(** Whether the shutdown has begun once a round has looked at the signal. *)
Definition begins (e : Round) (s : Sv) : Prop :=
  t_stage (node s) = StStopping ∨ t_stage (node s) = StReady ∧ alerted e s = true.
Record round_outcome (e : Round) (s : Sv) (r : result ServerFailure bool) (s' : Sv) : Prop := {
  rr_life : rtc node_step (node s) (node s');
  rr_reports : ∃ l, sv_reports s' = sv_reports s ++ l ∧
    Forall (λ x, match x with StatReady _ | StatStopped => False | _ => True end) l;
  rr_alerted : alerted e s = true → stopping (sv_signal s') = true;
  rr_during : r = Ok false → CallShutdown ∈ rd_during e → stopping (sv_signal s') = true;
  rr_drained : r = Ok true → begins e s ∧ t_connections (node s') = [] ∧ t_stage (node s') = StStopping;
  rr_begun : r = Ok false → begins e s ↔ t_stage (node s') = StStopping;
  rr_kept : r = Ok false → t_stage (node s) = StStopping → t_shutdown_deadline (node s') = t_shutdown_deadline (node s);
  rr_before : r = Ok false → ∀ d, t_shutdown_deadline (node s') = Some d → rd_now e < d ∧
    (t_shutdown_deadline (node s) = Some d ∨ d = rd_begin e + timeout_of s);
  rr_forced : r = Err SfShutdownTimeout → ∃ l, asked (node s') = l ++ (ReqClose <$> t_connections (node s'));
}.

Lemma begin_round_run e (s : Sv) r s1 : begin_round e s = (r, s1) → node_ok (node s) →
  rtc node_step (node s) (node s1) ∧ sv_reports s1 = sv_reports s ∧
  sv_signal s1 = signal_calls (rd_before e) (sv_signal s) ∧ r ≠ Err SfShutdownTimeout ∧
  (t_stage (node s) = StStopping → t_shutdown_deadline (node s1) = t_shutdown_deadline (node s)) ∧
  (r = Ok tt → (begins e s → t_stage (node s1) = StStopping) ∧ (t_stage (node s1) = StStopping → begins e s) ∧
   ∀ d, t_shutdown_deadline (node s1) = Some d →
     t_shutdown_deadline (node s) = Some d ∨ d = rd_begin e + timeout_of s).
Proof using CL.
  intros H Hok. unfold begin_round, begins, alerted, timeout_of in *. unfold_m. cbn in H.
  destruct (stopping _) eqn:Eg; cbn [andb] in H.
  2: { injection H as <- <-. cbn. split_and!; try done. intros _. split_and!; [by intros [? | [_ ?]] | by left | by left]. }
  case_bool_decide as Hs; cbn in H.
  2: { injection H as <- <-. cbn. split_and!; try done. intros _. split_and!; [by intros [? | [? _]] | by left | by left]. }
  unfold on_node in H. cbn in H. destruct (begin_shutdown (rd_begin e) (node s)) as [o n] eqn:Eb.
  injection H as <- <-. cbn. pose proof (begin_shutdown_step _ _ _ _ Eb Hok) as (_ & Hb & _).
  split_and!; [by eapply rtc_once, ns_begin | done | done | | congruence |].
  - unfold begin_shutdown in Eb. intros ->. repeat case_match; discriminate.
  - intros ->. destruct (Hb eq_refl Hs) as (H1 & H2 & _). split_and!; [done | by right |].
    rewrite H2. intros d [= <-]. by right.
Qed.

(** The end of a round, after its turn. *)
Lemma end_round_run e count (s : Sv) r s' : end_round e count s = (r, s') → node_ok (node s) →
  rtc node_step (node s) (node s') ∧ sv_reports s' = sv_reports s ∧
  t_stage (node s') = t_stage (node s) ∧ t_shutdown_deadline (node s') = t_shutdown_deadline (node s) ∧
  (stopping (signal_calls (rd_during e) (sv_signal s)) = true → stopping (sv_signal s') = true) ∧
  (r = Ok true → t_connections (node s') = [] ∧ t_stage (node s') = StStopping) ∧
  (r = Ok false → ∀ d, t_shutdown_deadline (node s') = Some d → rd_now e < d) ∧
  (r = Err SfShutdownTimeout → ∃ l, asked (node s') = l ++ (ReqClose <$> t_connections (node s'))).
Proof using CL.
  intros H [_ Hst]. unfold end_round in H. unfold_m. cbn [set_signal sv_node sv_signal] in H.
  set (s1 := set_signal (signal_calls (rd_during e)) s) in *.
  assert (∀ s2 : Sv, stopping (sv_signal s1) = true → sv_signal s2 = sv_signal s1 →
    stopping (sv_signal (set_signal (wait (rd_waiting e)) s2)) = true) as Hw.
  { intros s2 Hs E. cbn. rewrite E. by apply wait_keeps. }
  case_bool_decide as Hs.
  - unfold on_node in H. destruct (shutdown_progress (rd_now e) _ (node s1)) as [o n] eqn:Ep.
    apply shutdown_progress_step in Ep as Ep'. destruct Ep' as (_ & Es & U & Hp).
    rewrite Hs in Hst. destruct Hst as [_ [d Hd]]. change (node s1) with (node s) in *. rewrite Hd in Hp.
    assert (rtc node_step (node s) n) as Hl by by eapply rtc_once, ns_progress.
    destruct Hp as [(Hc & -> & ->) | [(Hc & _ & -> & Ha) | (Hc & _ & Hlt & -> & ->)]].
    + injection H as <- <-. cbn. by split_and!.
    + injection H as <- <-. cbn. split_and!; try done; try apply U. intros _. exists (asked (node s)). by rewrite Ha, (un_connections _ _ U).
    + destruct (count <? EVENTS_PER_TURN); injection H as <- <-; cbn.
      all: split_and!; try done; try (intros _ d' E; rewrite Hd in E; by injection E as <-).
      intros Hg. by apply (Hw s1).
  - assert (t_shutdown_deadline (node s) = None ∨ t_stage (node s) = StStopping) as Hd by (destruct (t_stage (node s)); naive_solver).
    destruct Hd as [Hd |]; [| done].
    destruct (count <? EVENTS_PER_TURN); injection H as <- <-; cbn; split_and!; try done; try (intros _ d' E; by rewrite Hd in E).
    intros Hg. by apply (Hw s1).
Qed.

Lemma round_run e (s : Sv) r s' : round e s = (r, s') → node_ok (node s) → round_outcome e s r s'.
Proof using CL.
  intros H Hok. unfold round in H. unfold mbind at 1, M_bind at 1 in H.
  destruct (begin_round e s) as [[[] | f] s1] eqn:Eb; apply begin_round_run in Eb as (L1 & R1 & G1 & N1 & K1 & B1); try done.
  2: { injection H as <- <-. split; try done; try congruence; [exists []; by rewrite app_nil_r |]. by unfold alerted; rewrite G1. }
  destruct (B1 eq_refl) as (Bg & Bs & Bd). clear B1 N1. unfold mbind at 1, M_bind at 1 in H.
  destruct (turn_with poll_server handle_event s1) as [[count | f] s2] eqn:Et;
    pose proof (turn_error (N.to_nat EVENTS_PER_TURN) 0 s1) as Hne; unfold turn_with in Et; rewrite Et in Hne;
    apply turn_run in Et as [L2 S2 D2 G2 (l & R2 & F2)].
  2: { injection H as <- <-. split; try done; [by etrans | exists l; by rewrite R2, R1 | by unfold alerted; rewrite G2, G1 |].
       intros [= ->]. by destruct Hne. }
  assert (rtc node_step (node s) (node s2)) as L12 by by etrans.
  destruct (node_steps_ok _ _ L12 Hok) as [Ok2 _].
  apply end_round_run in H as (L3 & R3 & S3 & D3 & G3 & T3 & F3 & E3); [| done].
  rewrite G2, G1 in G3. split; try done.
  - by etrans.
  - exists l. by rewrite R3, R2, R1.
  - intros Ha. apply G3. by apply signal_calls_stopping.
  - intros _ Hc. apply G3. by apply signal_calls_shutdown.
  - intros ->. destruct (T3 eq_refl) as [Hc Hs]. split_and!; [| done | done]. apply Bs. congruence.
  - intros _. rewrite S3, S2. by split.
  - intros _ Hs. rewrite D3, D2. by apply K1.
  - intros Hr d Hd. split; [by apply F3 |]. apply Bd. congruence.
Qed.

(** ** The loop *)

Lemma serve_app rs ks (s : Sv) :
  serve (rs ++ ks) s = match serve rs s with (None, s1) => serve ks s1 | x => x end.
Proof using Type.
  revert s. induction rs as [| e rs IH]; intros s; [done |]. cbn [app serve].
  destruct (round e s) as [[[] | f] s1]; [done | apply IH | done].
Qed.

(** A node that stops was told to. *)
Definition told (s : Sv) : Prop := t_stage (node s) = StStopping → stopping (sv_signal s) = true.
Lemma begins_alerted e s : told s → begins e s → alerted e s = true.
Proof using Type. intros Ht [Hs | [_ ?]]; [by apply signal_calls_stopping, Ht | done]. Qed.

Definition ordinary : list Status → Prop :=
  Forall (λ x, match x with StatReady _ | StatStopped => False | _ => True end).
Lemma serve_run rs (s : Sv) o s' : serve rs s = (o, s') → node_ok (node s) → told s →
  rtc node_step (node s) (node s') ∧ (∃ l, sv_reports s' = sv_reports s ++ l ∧ ordinary l) ∧
  (o = Some (Ok tt) → t_stage (node s') = StStopping ∧ t_connections (node s') = [] ∧ stopping (sv_signal s') = true) ∧
  (o = Some (Err SfShutdownTimeout) → ∃ l, asked (node s') = l ++ (ReqClose <$> t_connections (node s'))).
Proof using CL.
  revert s. induction rs as [| e rs IH]; intros s; cbn [serve].
  { intros [= <- <-] _ _. split_and!; try done. exists []. split; [by rewrite app_nil_r | constructor]. }
  intros H Hok Ht. destruct (round e s) as [r s1] eqn:Er. apply round_run in Er as [L (l & R & F) A D T B _ Q E]; [| done].
  destruct r as [[] | f].
  - injection H as <- <-. split_and!; [done | by exists l | | done]. intros _.
    destruct (T eq_refl) as (Hb & Hc & Hs). split_and!; try done. by apply A, begins_alerted.
  - apply IH in H as (L' & (l' & R' & F') & T' & E').
    + split_and!; [by etrans | | done | done]. exists (l ++ l'). rewrite R', R, <- app_assoc. split; [done |]. by apply Forall_app.
    + by apply (node_steps_ok _ _ L).
    + intros Hs. apply A, begins_alerted; [done |]. by apply B.
  - injection H as <- <-. split_and!; [done | by exists l | done |]. intros [= ->]. by apply E.
Qed.

Lemma serve_goes_on rs (s s' : Sv) bound : serve rs s = (None, s') → node_ok (node s) →
  (∀ d, t_shutdown_deadline (node s) = Some d → d ≤ bound) →
  (∀ e, e ∈ rs → rd_begin e + timeout_of s ≤ bound) →
  timeout_of s' = timeout_of s ∧ node_ok (node s') ∧ (∀ d, t_shutdown_deadline (node s') = Some d → d ≤ bound) ∧
  (stopping (sv_signal s) = true ∨ (∃ e, e ∈ rs ∧ CallShutdown ∈ rd_before e ++ rd_during e) → stopping (sv_signal s') = true) ∧
  (t_stage (node s) ≠ StStarting → t_stage (node s') ≠ StStarting) ∧
  (t_stage (node s) = StStopping → t_stage (node s') = StStopping) ∧
  (rs ≠ [] → t_stage (node s) = StReady → stopping (sv_signal s) = true → t_stage (node s') = StStopping).
Proof using CL.
  revert s. induction rs as [| e rs IH]; intros s; cbn [serve].
  { intros [= <-] Hok Hd _. split_and!; try done. intros [? | (e & ?%not_elem_of_nil & _)]; done. }
  intros H Hok Hd Hr. destruct (round e s) as [r s1] eqn:Er.
  apply round_run in Er as [L _ A D _ B _ Q _]; [| done]. destruct r as [[] | f]; try done.
  destruct (node_steps_ok _ _ L Hok) as [Ok1 Hc].
  assert (timeout_of s1 = timeout_of s) as Et by (unfold timeout_of; by rewrite Hc).
  assert (stopping (sv_signal s) = true → alerted e s = true) as Ha by apply signal_calls_stopping.
  assert (t_stage (node s) ≠ StStarting → t_stage (node s1) ≠ StStarting) as Hn.
  { intros Hn. clear -CL L Hok Hn. induction L as [| t1 t2 t3 Hs _ IHL]; [done |]. apply node_step_to in Hs; [| done].
    apply IHL; [by apply Hs |]. destruct (sx_stage _ _ Hs) as [-> | [[? ?] | [_ ->]]]; done. }
  apply IH in H as (T' & Ok' & D' & G' & N' & S' & B').
  - split_and!; [congruence | done | done | | auto | |].
    + intros [Hs | (x & [-> | Hx]%elem_of_cons & Hin)]; apply G'; [left; auto | left | right; by exists x].
      apply elem_of_app in Hin as [Hin | Hin]; [by apply A, signal_calls_shutdown | by apply D].
    + intros Hs. apply S', B; [done |]. by left.
    + intros _ Hs Hg. apply S', B; [done |]. right. auto.
  - done.
  - intros d E. destruct (Q eq_refl d E) as [_ [Hd' | ->]]; [by apply Hd |]. apply Hr. by left.
  - intros x Hx. rewrite Et. apply Hr. by right.
Qed.

(** ** The whole run *)

Lemma report_failures_run attempts (s : Sv) :
  node (report_failures attempts s) = node s ∧ sv_signal (report_failures attempts s) = sv_signal s ∧
  ∃ l, sv_reports (report_failures attempts s) = sv_reports s ++ l ∧ ordinary l.
Proof using Type.
  unfold report_failures. revert s. induction attempts as [| a attempts IH]; intros s; cbn.
  { split_and!; try done. exists []. split; [by rewrite app_nil_r | constructor]. }
  destruct (is_err (at_admitted a)); [| apply IH]. destruct (IH (report StatContactFailed s)) as (-> & -> & l & -> & F).
  split_and!; try done. exists (StatContactFailed :: l). split; [cbn; by rewrite <- app_assoc | by constructor].
Qed.

Lemma start_server_run (s s' : Sv) r : start_server s = (r, s') → node_ok (node s) → t_stage (node s) = StStarting →
  rtc node_step (node s) (node s') ∧ sv_signal s' = sv_signal s ∧ r ≠ Err SfShutdownTimeout ∧
  match r with
  | Ok _ => t_stage (node s') = StReady ∧
      ∃ ready l, sv_reports s' = sv_reports s ++ StatReady ready :: l ∧ ordinary l
  | Err _ => ∃ l, sv_reports s' = sv_reports s ++ l ∧ StatStopped ∉ l
  end.
Proof using CL.
  unfold start_server. intros H Hok Hs. unfold mbind at 1, M_bind at 1, on_node at 1 in H.
  destruct (listen (node s)) as [a n] eqn:El. apply listen_step in El as El'. destruct El' as [S1 R1].
  destruct a as [ready | f]; cbn beta iota in H.
  2: { injection H as <- <-. split_and!; [by eapply rtc_once, ns_listen | done | | exists []; split; [by rewrite app_nil_r | apply not_elem_of_nil]].
       intros [= ->]. unfold listen, ensure in El. unfold_m. destruct (_ && _); [| done].
       destruct (driver_submit _ _) as [[[] |] ?]; done. }
  destruct (R1 eq_refl) as [_ Hr]. unfold mbind, M_bind, modify, on_node in H. cbn in H.
  destruct (connect_contacts n) as [b n2] eqn:Ec. apply connect_contacts_step in Ec as Ec'. destruct Ec' as (S2 & E2 & _).
  assert (rtc node_step (node s) n2) as L by (eapply rtc_l; [by eapply ns_listen | by eapply rtc_once, ns_contacts]).
  destruct b as [attempts | f]; injection H as <- <-.
  - destruct (report_failures_run attempts (mkServer n2 (sv_router s) (sv_signal s) (sv_reports s ++ [StatReady ready])))
      as (-> & -> & l & -> & F). cbn. split_and!; try done; [congruence |]. exists ready, l. by rewrite <- app_assoc.
  - cbn. split_and!; try done.
    + intros [= ->]. unfold connect_contacts, ensure in Ec. unfold_m. destruct (_ && _); [| done].
      by apply attempt_contacts_step in Ec as (_ & _ & ?).
    + exists [StatReady ready]. split; [done |]. by intros ?%list_elem_of_singleton.
Qed.

Lemma node_ok_told (s : Sv) : t_stage (node s) ≠ StStopping → told s.
Proof using Type. by intros H ?. Qed.

Lemma run_server_returns config id cs y (s : Sv) rs1 rs2 e :
  node s = compose config id cs y →
  (∃ e1, e1 ∈ rs1 ∧ CallShutdown ∈ rd_before e1 ++ rd_during e1) → rs2 ≠ [] →
  (∀ e1, e1 ∈ rs1 ++ rs2 → rd_begin e1 + shutdown_timeout (options config) ≤ rd_now e) →
  ∃ r s', run_server (rs1 ++ rs2 ++ [e]) s = (Some r, s').
Proof using CL.
  intros Hn Hreq Hne Hb. unfold run_server. destruct (stopping (sv_signal s)); [by eexists _, _ |].
  destruct (start_server s) as [r s1] eqn:Es.
  assert (node_ok (node s)) as Hok by (rewrite Hn; apply compose_ok).
  apply start_server_run in Es as (L & G & _ & Hr); [| done | by rewrite Hn].
  destruct r as [u | f]; [| by eexists _, _]. destruct Hr as [Hs _].
  destruct (node_steps_ok _ _ L Hok) as [Ok1 Hc]. rewrite Hn in Hc. cbn in Hc.
  assert (timeout_of s1 = shutdown_timeout (options config)) as Ht by (unfold timeout_of; by rewrite Hc).
  assert (∀ d, t_shutdown_deadline (node s1) = Some d → d ≤ rd_now e) as Hd.
  { intros d E. destruct Ok1 as [_ N]. rewrite Hs in N. destruct N as [_ N]. congruence. }
  destruct (serve (rs1 ++ rs2 ++ [e]) s1) as [[[[] | f] |] s'] eqn:E; [by eexists _, _.. | exfalso].
  rewrite serve_app in E. destruct (serve rs1 s1) as [[x |] s2] eqn:E1; [done |].
  apply (serve_goes_on rs1 s1 s2 (rd_now e)) in E1 as (T2 & Ok2 & D2 & G2 & N2 & S2 & _); [| done.. |].
  2: { intros x Hx. rewrite Ht. apply Hb, elem_of_app. by left. }
  assert (t_stage (node s2) ≠ StStarting) as Hn2 by (apply N2; congruence).
  specialize (G2 (or_intror Hreq)). rewrite serve_app in E. destruct (serve rs2 s2) as [[x |] s3] eqn:E2; [done |].
  apply (serve_goes_on rs2 s2 s3 (rd_now e)) in E2 as (T3 & Ok3 & D3 & _ & _ & S3 & B3); [| done.. |].
  2: { intros x Hx. rewrite T2, Ht. apply Hb, elem_of_app. by right. }
  assert (t_stage (node s3) = StStopping) as Hs3.
  { destruct (t_stage (node s2)) eqn:Eq; destruct Ok2 as [_ N]; rewrite Eq in N; try done; [by apply B3 | by apply S3]. }
  cbn in E. destruct (round e s3) as [r s4] eqn:Er. apply round_run in Er as [L4 _ _ _ _ B4 K4 Q4 _]; [| done].
  destruct r as [[] | f]; try done. assert (begins e s3) as Hbeg by by left. apply (B4 eq_refl) in Hbeg.
  destruct Ok3 as [_ N3]. rewrite Hs3 in N3. destruct N3 as [_ [d Hd3]].
  specialize (K4 eq_refl Hs3). rewrite Hd3 in K4. destruct (Q4 eq_refl d K4) as [Hlt _]. specialize (D3 d Hd3). lia.
Qed.

(** A server that was told to stop does stop.  For any control, consumers,
    peers and failures: once some round has seen a shutdown request, and after at
    least one more round, no later than the first round whose progress check
    reads the clock past every possible deadline the run has returned. *)
Theorem server_terminates config id cs y (s : Sv) rs1 rs2 e :
  node s = compose config id cs y →
  (∃ e1, e1 ∈ rs1 ∧ CallShutdown ∈ rd_before e1 ++ rd_during e1) → rs2 ≠ [] →
  (∀ e1, e1 ∈ rs1 ++ rs2 → rd_begin e1 + shutdown_timeout (options config) ≤ rd_now e) →
  ∃ r s', run_server (rs1 ++ rs2 ++ [e]) s = (Some r, s').
Proof using CL. apply run_server_returns. Qed.

Lemma listen_ready (t n : Transport Y) ready : listen t = (Ok ready, n) → rd_local_id ready = t_local_id t.
Proof using Type.
  unfold listen, ensure, driver_submit. unfold_m. destruct (_ && _); [| done].
  destruct (tc_submit _ _) as [[[] |] x]; try done. by intros [= <- _].
Qed.
Lemma start_server_ready (s s' : Sv) r : start_server s = (r, s') → sv_reports s = [] →
  ∀ x, StatReady x ∈ sv_reports s' → rd_local_id x = t_local_id (node s).
Proof using Type.
  unfold start_server. intros H E. unfold mbind at 1, M_bind at 1, on_node at 1 in H.
  destruct (listen (node s)) as [[ready | f] n] eqn:El; cbn beta iota in H.
  2: { injection H as _ <-. cbn. rewrite E. by intros x ?%not_elem_of_nil. }
  apply listen_ready in El. unfold mbind, M_bind, modify, on_node in H. cbn in H.
  rewrite E in H. destruct (connect_contacts n) as [[attempts | f] n2]; injection H as _ <-.
  - destruct (report_failures_run attempts (mkServer n2 (sv_router s) (sv_signal s) [StatReady ready]))
      as (_ & _ & l & -> & F). unfold ordinary in F. rewrite Forall_forall in F.
    intros x [[[= ->] | Hx]%elem_of_cons | Hx%F]%elem_of_app; [done | by apply not_elem_of_nil in Hx | done].
  - intros x [[= ->] | Hx]%elem_of_cons; [done | by apply not_elem_of_nil in Hx].
Qed.

(** What a run comes to, and the identity it reports. *)
Lemma run_server_run config id cs y (s s' : Sv) rounds o :
  node s = compose config id cs y → sv_reports s = [] → run_server rounds s = (o, s') →
  rtc node_step (node s) (node s') ∧
  (∀ x, StatReady x ∈ sv_reports s' → rd_local_id x = id) ∧
  match o with
  | Some (Ok _) => stopping (sv_signal s') = true ∧ t_connections (node s') = [] ∧
      (stopping (sv_signal s) = true ∧ s' = report StatStopped s ∨
       t_stage (node s') = StStopping ∧
       ∃ ready l, sv_reports s' = StatReady ready :: l ++ [StatStopped] ∧ ordinary l)
  | Some (Err f) => (StatStopped ∉ sv_reports s') ∧
      (f = SfShutdownTimeout → ∃ l, asked (node s') = l ++ (ReqClose <$> t_connections (node s')))
  | None => True
  end.
Proof using CL.
  intros Hn Hr. unfold run_server. destruct (stopping (sv_signal s)) eqn:Eg.
  { intros [= <- <-]. cbn. rewrite Hn, Hr. split; [done |]. split; [by intros x [?%not_elem_of_nil | [[=] | ?%not_elem_of_nil]%elem_of_cons]%elem_of_app |].
    split_and!; [done | done | by left]. }
  assert (node_ok (node s)) as Hok by (rewrite Hn; apply compose_ok).
  destruct (start_server s) as [a s1] eqn:Es. pose proof (start_server_ready _ _ _ Es Hr) as Hid.
  rewrite Hn in Hid. cbn [t_local_id compose] in Hid.
  apply start_server_run in Es as (L & G & Hne & H1); [| done | by rewrite Hn].
  rewrite Hr in H1. cbn in H1. destruct a as [u | f].
  2: { intros [= <- <-]. destruct H1 as (l & E & Hl). split; [done |]. split; [done |]. rewrite E. by split; [| intros ->]. }
  destruct H1 as [Hs (ready & l & R1 & F1)]. destruct (serve rounds s1) as [o2 s2] eqn:E. intros H.
  apply serve_run in E as (L2 & (k & R2 & F2) & T2 & E2); [| by apply (node_steps_ok _ _ L) | apply node_ok_told; congruence].
  unfold ordinary in F2. assert (∀ x, x ∈ k → match x with StatReady _ | StatStopped => False | _ => True end) as Fk by by apply Forall_forall.
  assert (∀ x, StatReady x ∈ sv_reports s2 → rd_local_id x = id) as Hid2.
  { intros x. rewrite R2. intros [Hx | Hx%Fk]%elem_of_app; [by apply Hid | done]. }
  assert (StatStopped ∉ sv_reports s2) as Hno.
  { rewrite R2, R1. unfold ordinary in F1. rewrite Forall_forall in F1.
    intros [[[=] | Hin]%elem_of_cons | Hin]%elem_of_app; [by apply F1 in Hin | by apply Fk in Hin]. }
  destruct o2 as [[[] | f] |]; injection H as <- <-.
  - destruct (T2 eq_refl) as (Hs2 & Hc2 & Hg2). split; [by etrans |]. cbn. split.
    { intros x [Hx | [[=] | Hx]%elem_of_cons]%elem_of_app; [by apply Hid2 | by apply not_elem_of_nil in Hx]. }
    split_and!; [done | done |]. right. split; [done |].
    exists ready, (l ++ k). rewrite R2, R1. cbn. split; [by rewrite <- app_assoc | by apply Forall_app].
  - split; [by etrans |]. split; [done |]. split; [done |]. intros ->. by apply E2.
  - split; [by etrans | done].
Qed.

(** C16: a run reports its end truthfully.  Whatever the control, the peers and the
    consumers do, what a run does to its node is a life of that node; it reports
    [Stopped] exactly when it returns without an error, and last; then it either
    never started because a stop was already requested, or it reported [Ready]
    first and once, a stop was requested, and no connection is left; and when it
    returns [ShutdownTimeout] every connection left was asked to close. *)
Theorem server_run_sound config id cs y (s s' : Sv) rounds r :
  node s = compose config id cs y → sv_reports s = [] → run_server rounds s = (Some r, s') →
  rtc node_step (node s) (node s') ∧
  match r with
  | Ok _ => stopping (sv_signal s') = true ∧ t_connections (node s') = [] ∧
      (stopping (sv_signal s) = true ∧ s' = report StatStopped s ∨
       t_stage (node s') = StStopping ∧
       ∃ ready l, sv_reports s' = StatReady ready :: l ++ [StatStopped] ∧ ordinary l)
  | Err f => (StatStopped ∉ sv_reports s') ∧
      (f = SfShutdownTimeout → ∃ l, asked (node s') = l ++ (ReqClose <$> t_connections (node s')))
  end.
Proof using CL.
  intros Hn Hr H. by destruct (run_server_run _ _ _ _ _ _ _ _ Hn Hr H) as (L & _ & Ho).
Qed.
End runs.

Module Demo.
Import ServerProps.DriverDemo.
#[local] Existing Instance counter.

Lemma server_terminates_witness :
  ∃ r s', run_server ([idle 0; told_at 1] ++ [idle 2] ++ [idle 200]) (server Signal_default) = (Some r, s').
Proof.
  apply (server_terminates config (replicate 32 x02) [peer] start (server Signal_default) [idle 0; told_at 1] [idle 2] (idle 200)).
  - reflexivity.
  - exists (told_at 1). split; [right; left | left].
  - discriminate.
  - intros e He. cbn [app] in He. rewrite !elem_of_cons in He.
    destruct He as [-> | [-> | [-> | He]]]; [cbn; lia.. | by apply not_elem_of_nil in He].
Defined.

Lemma server_run_sound_witness : let s' := (run_server [idle 0; told_at 1; idle 2] (server Signal_default)).2 in
  (run_server [idle 0; told_at 1; idle 2] (server Signal_default)).1 = Some (Ok tt) ∧
  rtc node_step node (sv_node s') ∧ t_connections (sv_node s') = [].
Proof.
  destruct (run_server [idle 0; told_at 1; idle 2] (server Signal_default)) as [o s'] eqn:E. cbn.
  assert (o = Some (Ok tt)) as ->.
  { transitivity (run_server [idle 0; told_at 1; idle 2] (server Signal_default)).1; [by rewrite E | vm_compute; reflexivity]. }
  destruct (server_run_sound config (replicate 32 x02) [peer] start (server Signal_default) s' [idle 0; told_at 1; idle 2] (Ok tt)
    eq_refl eq_refl E) as (Hl & _ & Hc & _).
  split; [reflexivity |]. split; [exact Hl | exact Hc].
Defined.
End Demo.
