(* ===== verification/Ledger.v ===== *)
(** * The Ledger's local contract

    [src/modules/ledger/{mod,authority,contract}.rs]: the grants of trusted
    composition, the check every call makes before effects, and the admission
    limits.  A grant keeps a weak reference to its issuer's flag; the heap of
    flags and the clock are those of the Board's [Control].  The theorems: over
    any life of any number of issuers exactly the grants of a live, unrevoked
    issuer pass for their identity, action and budget (by a simulation in the
    capabilities of the Identity module); a call passes exactly when its
    version, lifetime and grant do. *)

From S2P Require Import Prelude Bytes IdentityText Api Arcs Authority BoardBase.

#[local] Open Scope N_scope.

(** ** Errors: [mod.rs] *)

Inductive LedgerError : Type :=
| LInvalid | LUnsupported | LDenied | LLimit | LCancelled | LConflict | LInsufficient | LStorage | LUnknown.
#[global] Instance LedgerError_eq_dec : EqDecision LedgerError.
Proof. solve_decision. Defined.

(** ** Authority: [authority.rs] *)

Inductive LedgerAction : Type := LAdminister | LRead | LCoordinate | LControl | LSpend.
#[global] Instance LedgerAction_eq_dec : EqDecision LedgerAction.
Proof. solve_decision. Defined.

Record LedgerGrant : Type := mkLedgerGrant {
  lg_domain : N;
  lg_identity : IdentityId;
  lg_action : LedgerAction;
  lg_bytes : N;
}.

(** An issuer is its reference into the heap of flags; [new] and [revoke] are
    those of every [Arc<AtomicBool>]. *)
Definition ledger_new (h : Arcs bool) : N * Arcs bool := arc_new true h.
Definition ledger_flag (a : N) (h : Arcs bool) : bool := default false (arc_get a h).
Definition ledger_grant (a : N) (local_identity : IdentityId) (action : LedgerAction) (bytes : N)
    (h : Arcs bool) : result LedgerError LedgerGrant :=
  if negb (ledger_flag a h) then Err LDenied else
  if bytes =? 0 then Err LLimit else
  Ok (mkLedgerGrant a local_identity action bytes).
Definition ledger_check (a : N) (g : LedgerGrant) (local_identity : IdentityId) (action : LedgerAction)
    (bytes : N) (h : Arcs bool) : result LedgerError unit :=
  if negb (alive (lg_domain g) h) then Err LDenied else
  if negb (bool_decide (a = lg_domain g)) || negb (ledger_flag (lg_domain g) h)
     || negb (bool_decide (lg_identity g = local_identity))
     || negb (bool_decide (lg_action g = action))
  then Err LDenied else
  if lg_bytes g <? bytes then Err LLimit else Ok tt.
Definition ledger_revoke (a : N) (h : Arcs bool) : Arcs bool := arc_store a false h.

(** ** Operations, call contexts, limits: [contract.rs] *)

Definition CONTRACT_VERSION : N := 1.

Record OperationKey : Type := mkOperationKey {
  ok_requester : IdentityId;
  ok_connection : list byte;
  ok_stream : N;
}.
#[global] Instance OperationKey_eq_dec : EqDecision OperationKey.
Proof. solve_decision. Defined.

Section context.
Context {T : Type} `{!MonotonicTime T}.

Record LedgerContext : Type := mkLedgerContext {
  lc_version : N;
  lc_grant : LedgerGrant;
  lc_deadline : Instant;
  lc_cancelled : bool;
}.

(** The clock is read only for a call that was not cancelled. *)
Definition LedgerContext_check (x : LedgerContext) (authority : N) (local_identity : IdentityId)
    (action : LedgerAction) (bytes : N) : M (Control T) LedgerError unit := λ c,
  if negb (lc_version x =? CONTRACT_VERSION) then (Err LUnsupported, c) else
  if lc_cancelled x then (Err LCancelled, c) else
  let '(now, t) := instant_now (ctl_clock c) in
  let c := mkControl t (ctl_domains c) in
  if lc_deadline x <=? now then (Err LCancelled, c) else
  (ledger_check authority (lc_grant x) local_identity action bytes (ctl_domains c), c).
End context.

Record LedgerLimits : Type := mkLedgerLimits {
  ll_accounts : N;
  ll_operations : N;
  ll_transfers : N;
  ll_claims : N;
  ll_quotes : N;
  ll_state_bytes : N;
}.
Definition LedgerLimits_validate (l : LedgerLimits) : result LedgerError unit :=
  if bool_decide (0 ∈ [ll_accounts l; ll_operations l; ll_transfers l; ll_claims l; ll_quotes l; ll_state_bytes l])
     || bool_decide (checked_add u64_limit (ll_state_bytes l) 64 = None)
  then Err LInvalid else Ok tt.

(** ** Limits *)

(** Ledger limits are accepted exactly when all six are positive and the
    record framing of 64 bytes does not overflow the width. *)
Theorem ledger_limits_exact l : LedgerLimits_validate l = Ok tt ↔
  Forall (λ n, 0 < n) [ll_accounts l; ll_operations l; ll_transfers l; ll_claims l; ll_quotes l; ll_state_bytes l] ∧
  ll_state_bytes l + 64 < u64_limit.
Proof.
  unfold LedgerLimits_validate, checked_add. destruct l as [a b c d e f]. cbn [ll_accounts ll_operations ll_transfers ll_claims ll_quotes ll_state_bytes].
  case_bool_decide as Hz; cbn [orb].
  - split; [done |]. rewrite Forall_forall. intros [H _]. specialize (H _ Hz). lia.
  - destruct (N.ltb_spec (f + 64) u64_limit); cbn [bool_decide].
    + split; [| by rewrite bool_decide_false]. intros _. split; [| done]. apply Forall_forall. intros x Hx.
      destruct (decide (x = 0)) as [-> |]; [done | lia].
    + rewrite bool_decide_true by done. split; [done | lia].
Qed.

(** ** A check is the Identity module's, for the grant's action *)

Definition to_capability (P : Authority.Purpose) (g : LedgerGrant) : Authority.Capability P :=
  Authority.mkCapability (lg_domain g) (Some (lg_identity g)) (lg_bytes g).

Lemma ledger_check_ok P a g id act n h :
  ledger_check a g id act n h = Ok tt ↔
  lg_action g = act ∧ Authority.check a (to_capability P g) id n h = Ok tt.
Proof.
  unfold Authority.check. rewrite Authority.check_scope_ok. unfold Authority.permits, ledger_check, to_capability.
  cbn [Authority.cap_owner Authority.cap_identity Authority.cap_maximum_bytes]. change (Authority.flag a h) with (ledger_flag a h).
  destruct (decide (lg_domain g = a)) as [<- | Hne].
  - rewrite (bool_decide_true (lg_domain g = lg_domain g)) by done.
    destruct (alive _ h), (ledger_flag _ h); cbn [negb orb]; try naive_solver.
    repeat case_bool_decide; cbn [negb orb]; try naive_solver.
    destruct (N.ltb_spec (lg_bytes g) n); [split; [done | naive_solver lia] | naive_solver].
  - rewrite (bool_decide_false (a = lg_domain g)) by done. cbn [negb orb].
    destruct (alive _ h); cbn [negb orb]; naive_solver.
Qed.
Lemma ledger_grant_ok P a id act n h g :
  ledger_grant a id act n h = Ok g ↔
  g = mkLedgerGrant a id act n ∧ Authority.grant a id n h = Ok (to_capability P g).
Proof.
  unfold Authority.grant. rewrite Authority.issue_ok. unfold ledger_grant. change (Authority.flag a h) with (ledger_flag a h).
  destruct (ledger_flag a h); cbn [negb]; [| naive_solver].
  destruct (N.eqb_spec n 0); [naive_solver |]. split; [intros [= <-]; by repeat split | by intros [-> _]].
Qed.

(** ** The life of issuers and grants *)

Record ledgers : Type := mkLedgers {
  ls_flags : Arcs bool;
  ls_issuers : list N;
  ls_issued : list (N * LedgerGrant);
  ls_revoked : list N;
}.
Inductive ledger_step : ledgers → ledgers → Prop :=
| LNew h l i r a h' : ledger_new h = (a, h') →
    ledger_step (mkLedgers h l i r) (mkLedgers h' (a :: l) i r)
| LGrant h l i r a id act n g : a ∈ l → ledger_grant a id act n h = Ok g →
    ledger_step (mkLedgers h l i r) (mkLedgers h l ((a, g) :: i) r)
| LRevoke h l i r a : a ∈ l →
    ledger_step (mkLedgers h l i r) (mkLedgers (ledger_revoke a h) l i (a :: r))
| LDrop h l l' i r a : l ≡ₚ a :: l' →
    ledger_step (mkLedgers h l i r) (mkLedgers (arc_drop a h) l' i r).
Definition ledgers_empty : ledgers := mkLedgers Arcs_empty [] [] [].

(** The same life, of the capabilities of any purpose. *)
Definition as_domains P (s : ledgers) : Authority.domains P :=
  Authority.mkDomains (ls_flags s) (ls_issuers s)
    ((λ '(a, g), (a, Some (lg_identity g), lg_bytes g, to_capability P g)) <$> ls_issued s) (ls_revoked s).
Lemma ledger_step_simulated P s s' : ledger_step s s' → Authority.domain_step (as_domains P s) (as_domains P s').
Proof.
  intros [h l i r a h' E | h l i r a id act n g Ha Hg | h l i r a Ha | h l l' i r a Hp]; unfold as_domains; cbn.
  - by apply Authority.DNew.
  - apply (ledger_grant_ok P) in Hg as [-> Hg]. by apply (Authority.DIssue h l _ r a (Some id) n).
  - by apply Authority.DRevoke.
  - by apply Authority.DDrop.
Qed.
Lemma ledgers_simulated P s : rtc ledger_step ledgers_empty s →
  rtc Authority.domain_step Authority.domains_empty (as_domains P s).
Proof.
  change (Authority.domains_empty (P := P)) with (as_domains P ledgers_empty). generalize ledgers_empty.
  induction 1 as [| s1 s2 s3 Hs _ IH]; [done |]. eapply rtc_l; [by apply ledger_step_simulated | exact IH].
Qed.

(** Over any life of any number of Ledger issuers, and any clock, a call passes
    exactly when it speaks the contract's version, was not cancelled, its
    deadline lies ahead, and its grant was issued by this very authority, which
    was not revoked, for this identity and action and at least these bytes. *)
Theorem ledger_calls_exact {T} `{!MonotonicTime T} s a b g v d x id act n (t : T) :
  rtc ledger_step ledgers_empty s → a ∈ ls_issuers s → (b, g) ∈ ls_issued s →
  (LedgerContext_check (mkLedgerContext v g d x) a id act n (mkControl t (ls_flags s))).1 = Ok tt ↔
  v = CONTRACT_VERSION ∧ x = false ∧ (instant_now t).1 < d ∧
  b = a ∧ (a ∉ ls_revoked s) ∧ lg_identity g = id ∧ lg_action g = act ∧ n ≤ lg_bytes g.
Proof.
  intros Hs Ha Hg. set (P := Authority.PSign).
  apply (ledgers_simulated P) in Hs as [Ho _ Hf _ Hi]%Authority.domains_inv_reach. cbn in Ho, Hf, Hi.
  assert (lg_domain g = b) as Hb.
  { assert ((b, Some (lg_identity g), lg_bytes g, to_capability P g) = (b, Some (lg_identity g), lg_bytes g,
      Authority.mkCapability b (Some (lg_identity g)) (lg_bytes g))) as [= ->]; [| done]. f_equal.
    apply Hi. apply list_elem_of_fmap. by exists (b, g). }
  assert (ledger_check a g id act n (ls_flags s) = Ok tt ↔
    b = a ∧ (a ∉ ls_revoked s) ∧ lg_identity g = id ∧ lg_action g = act ∧ n ≤ lg_bytes g) as Hc.
  { rewrite (ledger_check_ok P). unfold Authority.check. rewrite Authority.check_scope_ok. unfold Authority.permits, to_capability.
    cbn [Authority.cap_owner Authority.cap_identity Authority.cap_maximum_bytes]. rewrite (proj2 (alive_owned _ _ a Ho) Ha), (Hf a Ha), Hb. case_bool_decide; naive_solver. }
  unfold LedgerContext_check. cbn [lc_version lc_cancelled lc_deadline lc_grant ctl_clock ctl_domains].
  destruct (N.eqb_spec v CONTRACT_VERSION); cbn [negb]; [| naive_solver].
  destruct x; [naive_solver |]. destruct (instant_now t) as [now t']; cbn [fst].
  destruct (N.leb_spec d now); cbn [fst]; [split; [done | lia] |]. rewrite Hc. naive_solver.
Qed.

(** Two issuers, one of which is revoked; the clock reads 5 before a deadline
    of 6, and a call at the deadline is late. *)
Module Demo.
#[local] Instance clock : MonotonicTime N := λ t, (t, t + 1).

Lemma ledger_calls_exact_witness : ∃ s g,
  (LedgerContext_check (mkLedgerContext 1 g 6 false) 0 [x01] LSpend 8 (mkControl 5 (ls_flags s))).1 = Ok tt ∧
  (LedgerContext_check (mkLedgerContext 1 g 6 false) 0 [x01] LSpend 8 (mkControl 6 (ls_flags s))).1 = Err LCancelled.
Proof.
  set (g := mkLedgerGrant 0 [x01] LSpend 8).
  assert (∃ s, rtc ledger_step ledgers_empty s ∧ ls_issuers s = [1; 0] ∧ ls_issued s = [(0, g)] ∧ ls_revoked s = [1])
    as (s & Hs & Hi & Hg & Hr).
  { eexists. split.
    - eapply rtc_l; [eapply LNew; reflexivity |]. eapply rtc_l; [eapply LNew; reflexivity |].
      eapply rtc_l; [eapply (LGrant _ _ _ _ 0 [x01] LSpend 8); [by right; left | vm_compute; reflexivity] |].
      eapply rtc_l; [eapply (LRevoke _ _ _ _ 1); by left |]. apply rtc_refl.
    - done. }
  exists s, g.
  assert (0 ∈ ls_issuers s) as H0 by (rewrite Hi; by right; left).
  assert ((0, g) ∈ ls_issued s) as H1 by (rewrite Hg; by left).
  split.
  - apply (ledger_calls_exact s 0 0 g 1 6 false [x01] LSpend 8 5 Hs H0 H1). rewrite Hr.
    split_and!; try done. by intros ?%list_elem_of_singleton.
  - reflexivity.
Defined.
End Demo.
