(* ===== verification/Help.v ===== *)
(** * Help

    [src/cli/help.rs]: the topics with their names and texts, and what is printed
    for each of them.  The theorems: every documented name resolves to its own
    topic, and the overview shows every topic. *)

From S2P Require Import Prelude Bytes Json.

#[local] Open Scope N_scope.

Inductive Topic : Type :=
| TopOverview | TopHelp | TopVersion | TopServe | TopIdentity | TopBoard | TopServerOptions | TopLogging.
#[global] Instance Topic_eq_dec : EqDecision Topic.
Proof. solve_decision. Defined.

Record HelpTopic : Type := mkHelpTopic {
  ht_topic : Topic;
  ht_names : list bytes;
  ht_label : bytes;
  ht_summary : bytes;
  ht_details : bytes;
}.

(** ** Texts *)

Definition board_details : bytes := lit "Usage: talksphere board-validate --board-file FILE | talksphere board-show --board-store DIRECTORY --publisher CR2SE_ID

--board-file selects one public UTF-8 JSON document, bounded to 1048576 bytes and depth 31.
Validation checks Board format and exact prices, not separately supplied definitions or local publishability.
--board-store selects an existing owner-only Linux Board directory, separate from the identity store.
--publisher supplies its exact expected CR2SE identity; mismatch is refused. Inspection locks and validates stored documents, then prints original public Board JSON.
No command publishes offerings, registers services, spends credits or opens a network connection.
Invalid syntax exits with status 2; invalid/missing/corrupt documents, contention and unsupported platforms exit with status 1; success exits with status 0.
See plans/5_Board_module/PLAN.md and src/modules/board/README.md.
".
Definition logging_details : bytes := lit "Usage: RUST_LOG=info talksphere serve --identity-store DIRECTORY
RUST_LOG defaults to info; off disables logs; target filters such as talksphere=trace enable diagnosis.
Operational logs use stderr; stdout contains intentional public CLI results. Never include secrets in diagnostics.
Help/version ignore logging configuration and exit with status 0; malformed filters prevent runtime startup with status 1.
".
Definition server_details : bytes := lit "Usage: talksphere serve --identity-store DIRECTORY [OPTION VALUE]...

--listen IP:PORT defaults to 127.0.0.1:0; zero selects an assigned listening port.
--contact CONTACT repeats up to 64 times; requires a canonical ID with an IP/port, no Discovery.
--stored-contacts yes|no defaults to no; yes selects the protected snapshot instead of explicit contacts.
--max-connections COUNT defaults to 64; --max-streams COUNT defaults to 128 per connection.
--outbound-bytes BYTES defaults to 4196096; --buffered-bytes BYTES defaults to 65536 per stream.
--handshake-ms MILLISECONDS defaults to 10000; --shutdown-ms MILLISECONDS defaults to 5000.
Budgets must support maximum protocol frames, durations must be positive; duplicate non-contact options are invalid.
Options are validated before I/O; invalid arguments exit with status 2. SIGINT/SIGTERM stop admission and drain to --shutdown-ms; a repeated signal forces closure.
".
Definition identity_details : bytes := lit "Usage: talksphere identity-init --identity-store DIRECTORY | talksphere identity-show --identity-store DIRECTORY

Explicit initialization installs both key pairs without overwrite; inspection never generates keys.
--identity-store requires an explicit owner-only Linux directory; parents must exist.
The same --identity-store option is required by serve, which only loads existing keys.
Output from identity administration is only the public canonical CR2SE ID. Files are permission-protected, not encrypted.
Missing/corrupt/insecure stores and conflicting initialization exit with status 1; invalid syntax exits with status 2.
Help exits with status 0. See plans/4_Transport_integration/PLAN.md.
".
Definition serve_details : bytes := lit "Usage: talksphere serve --identity-store DIRECTORY [OPTION VALUE]...

Requesting help opens no sockets and exits with status 0.
Loads existing protected keys; missing or inconsistent credentials never generate replacements.
Reports ready <PUBLIC_ID> <ACTUAL_ADDRESS> and verified authenticated peer IDs.
Frame payloads remain visible; application encryption and services are separate modules.
Production registers no application protocol; unsupported OPEN requests are refused.
Use talksphere help --listen for contacts, defaults, limits and timeouts.
SIGINT/SIGTERM stop admission and drain; repeated signals force remaining connections closed.
Invalid syntax exits with status 2, startup/runtime failure with status 1, normal shutdown with status 0.
See plans/4_Transport_integration/PLAN.md and docs/transport-integration/ACCEPTANCE.md.
".
Definition help_details : bytes := lit "Usage: talksphere --help | talksphere -h | talksphere help [TOPIC]

With no arguments, or with --help, -h or help alone, show the overview.
Use 'talksphere help <topic>' for details on any command or option.
Topics accept option spellings: 'talksphere help --version' and
'talksphere help version' show the same details.
Use 'talksphere serve --help' for command-specific help.
Help exits with status 0 and does not start the server. Unknown topics
and unsupported argument combinations exit with status 2.
".
Definition version_details : bytes := lit "Usage: talksphere --version | talksphere -V

Print 'talksphere <version>' from the Cargo package metadata and exit
with status 0. This is the application version, not a CR2SE protocol
version or a claim of conformance. The server is not started.
This option takes no value and must be used on its own.
".

Definition TOPICS : list HelpTopic := Eval cbv -[board_details logging_details server_details identity_details serve_details help_details version_details] in [
  mkHelpTopic TopBoard [lit "board-validate"; lit "board-show"; lit "--board-file"; lit "--board-store"; lit "--publisher"]
    (lit "board-validate | board-show")
    (lit "Validate a public Board file or inspect a protected snapshot.") board_details;
  mkHelpTopic TopLogging [lit "logging"; lit "RUST_LOG"]
    (lit "RUST_LOG")
    (lit "Filter structured operational logs on stderr.") logging_details;
  mkHelpTopic TopServerOptions [lit "--listen"; lit "--contact"; lit "--stored-contacts"; lit "--max-connections";
    lit "--max-streams"; lit "--outbound-bytes"; lit "--buffered-bytes"; lit "--handshake-ms"; lit "--shutdown-ms"]
    (lit "serve options")
    (lit "Configure listening, contacts, limits and shutdown.") server_details;
  mkHelpTopic TopIdentity [lit "identity-init"; lit "identity-show"; lit "--identity-store"]
    (lit "identity-init | identity-show")
    (lit "Create or inspect a protected local identity.") identity_details;
  mkHelpTopic TopServe [lit "serve"]
    (lit "serve")
    (lit "Run authenticated Transport connections (Linux).") serve_details;
  mkHelpTopic TopHelp [lit "help"; lit "--help"; lit "-h"]
    (lit "help [TOPIC], -h, --help")
    (lit "Show the overview or detailed topic help.") help_details;
  mkHelpTopic TopVersion [lit "version"; lit "--version"; lit "-V"]
    (lit "-V, --version")
    (lit "Print the TalkSphere application version.") version_details].

Definition find_topic (name : bytes) : option Topic :=
  ht_topic <$> List.find (λ entry, bool_decide (name ∈ ht_names entry)) TOPICS.

(** ** Rendering *)

(** [CARGO_PKG_VERSION], from the manifest. *)
Definition PKG_VERSION : bytes := Eval cbv in lit "0.1.0".
Definition newline : bytes := [x0a].
(** The format [{:<n}] of a text. *)
Definition left_aligned (n : nat) (s : bytes) : bytes := s ++ replicate (n - length s) x20.
(** [join]. *)
Fixpoint join (sep : bytes) (l : list bytes) : bytes :=
  match l with
  | [] => []
  | [s] => s
  | s :: l => s ++ sep ++ join sep l
  end.

Definition overview_head : bytes :=
  lit "TalkSphere " ++ PKG_VERSION ++ lit " - Rust server and proof of concept for CR2SE
Protocol: https://github.com/beothorn/CR2SE
Status: authenticated Transport server available on Linux; application services pending.

Usage: talksphere [COMMAND | OPTION]

Commands and options:
".
Definition overview_line (entry : HelpTopic) : bytes :=
  lit "  " ++ left_aligned 28 (ht_label entry) ++ lit "  " ++ ht_summary entry ++ newline.
Definition overview_tail (names : list bytes) : bytes :=
  lit "
Detailed help: talksphere help <topic>
Topics: " ++ join (lit ", ") names ++ lit " (option spellings also work).
Examples: talksphere help serve | talksphere help --version
".
Definition overview : bytes :=
  overview_head ++ concat (map overview_line TOPICS) ++
  overview_tail (map (λ entry, nth 0 (ht_names entry) []) TOPICS).
Definition render (topic : Topic) : bytes :=
  match List.find (λ entry, bool_decide (ht_topic entry = topic)) TOPICS with
  | Some entry => ht_summary entry ++ lit "

" ++ ht_details entry
  | None => overview
  end.

(** ** What is found and shown *)

(** Help is complete: every name of every topic resolves to that topic. *)
Theorem help_complete entry name :
  entry ∈ TOPICS → name ∈ ht_names entry → find_topic name = Some (ht_topic entry).
Proof.
  intros He Hn.
  assert (Forall (λ e, Forall (λ n, find_topic n = Some (ht_topic e)) (ht_names e)) TOPICS) as H.
  { repeat constructor. }
  rewrite Forall_forall in H. specialize (H entry He). rewrite Forall_forall in H. by apply H.
Qed.

(** A text within another. *)
Definition shown_in (s t : bytes) : Prop := ∃ before after, t = before ++ s ++ after.
Lemma shown_app s t u v : shown_in s t → shown_in s (u ++ t ++ v).
Proof. intros (b & a & ->). exists (u ++ b), (a ++ v). by rewrite <- !app_assoc. Qed.
Lemma shown_right s t u : shown_in s t → shown_in s (u ++ t).
Proof. intros (b & a & ->). exists (u ++ b), a. by rewrite <- !app_assoc. Qed.
Lemma shown_concat s t l : shown_in s t → t ∈ l → shown_in s (concat l).
Proof.
  intros Hs (l1 & l2 & ->)%list_elem_of_split. rewrite concat_app. cbn [concat]. by apply shown_app.
Qed.
Lemma shown_join s sep l : s ∈ l → shown_in s (join sep l).
Proof.
  intros (l1 & l2 & ->)%list_elem_of_split. induction l1 as [| t l1 IH].
  - destruct l2 as [| u l2]; [exists [], []; by rewrite app_nil_r | by exists [], (sep ++ join sep (u :: l2))].
  - assert (join sep ((t :: l1) ++ s :: l2) = t ++ sep ++ join sep (l1 ++ s :: l2)) as ->.
    { cbn [app join]. by destruct (l1 ++ s :: l2) eqn:E; [destruct l1 |]. }
    destruct IH as (b & a & ->). exists (t ++ sep ++ b), a. by rewrite <- !app_assoc.
Qed.

(** The overview shows the label, the summary and the first name of every topic,
    and each topic but the overview prints its own summary and details. *)
Theorem overview_complete entry : entry ∈ TOPICS →
  shown_in (ht_label entry) overview ∧ shown_in (ht_summary entry) overview ∧
  shown_in (nth 0 (ht_names entry) []) overview ∧
  render (ht_topic entry) = ht_summary entry ++ newline ++ newline ++ ht_details entry.
Proof.
  intros He. assert (overview_line entry ∈ map overview_line TOPICS) as Hl by by apply list_elem_of_fmap_2.
  split_and!.
  - apply shown_app. eapply shown_concat; [| exact Hl]. unfold overview_line, left_aligned. rewrite <- app_assoc.
    by exists (lit "  "), (replicate (28 - length (ht_label entry)) x20 ++ lit "  " ++ ht_summary entry ++ newline).
  - apply shown_app. eapply shown_concat; [| exact Hl]. unfold overview_line. rewrite 2!app_assoc. by eexists _, newline.
  - apply shown_right, shown_right, shown_app, shown_join.
    by apply (list_elem_of_fmap_2 (λ e, nth 0 (ht_names e) [])).
  - unfold TOPICS in He. repeat (apply elem_of_cons in He as [-> | He]; [reflexivity |]). by apply not_elem_of_nil in He.
Qed.
