(* ===== verification/Cli.v ===== *)
(** * The command line

    [src/cli/{args,server_args}.rs]: which words form a command and which option
    pairs form a server policy.  The words are
    UTF-8 texts; an error carries what its message shows.  The theorems: exactly
    the documented forms are commands, and a server starts from exactly the
    finite option lists whose every pair is a known option with a value of its
    type. *)

From S2P Require Import Prelude Bytes Header Json Api IdentityText AddressText Contact Keys Files ServerConfig Help.

#[local] Open Scope N_scope.

(** ** The standard library: socket addresses and paths as text *)

(** [SocketAddr::from_str]; a number without a digit limit has at most as many
    digits as the input. *)
Definition read_port : Reader N := λ rest,
  '(_, rest) ← read_given_char x3a rest; read_number 10 (len rest) true u16_limit rest.
Definition read_scope_id : Reader N := λ rest,
  '(_, rest) ← read_given_char x25 rest; read_number 10 (len rest) true u32_limit rest.
Definition read_socket_addr_v4 : Reader SocketAddr := λ rest,
  '(ip, rest) ← read_ipv4_addr rest;
  '(port, rest) ← read_port rest;
  Some (SocketAddrV4 ip port, rest).
Definition read_socket_addr_v6 : Reader SocketAddr := λ rest,
  '(_, rest) ← read_given_char x5b rest;
  '(ip, rest) ← read_ipv6_addr rest;
  let '(scope_id, rest) := default (0, rest) (read_scope_id rest) in
  '(_, rest) ← read_given_char x5d rest;
  '(port, rest) ← read_port rest;
  Some (SocketAddrV6 ip port 0 scope_id, rest).
Definition parse_socket_addr (s : bytes) : option SocketAddr :=
  match (match read_socket_addr_v4 s with Some r => Some r | None => read_socket_addr_v6 s end) with
  | Some (a, []) => Some a
  | _ => None
  end.
Example parse_socket_addr_examples :
  parse_socket_addr (lit "127.0.0.1:0") = Some (SocketAddrV4 (mkIpv4 x7f x00 x00 x01) 0) ∧
  parse_socket_addr (lit "[::1%7]:08000") = Some (SocketAddrV6 [0; 0; 0; 0; 0; 0; 0; 1] 8000 0 7) ∧
  parse_socket_addr (lit "127.0.0.1:65536") = None ∧ parse_socket_addr (lit "hostname:42") = None ∧
  parse_socket_addr (lit "::1:80") = None.
Proof. vm_compute. done. Qed.

(** [Display] of a socket address; the flow label has no text. *)
Definition display_socket_addr (a : SocketAddr) : bytes :=
  match a with
  | SocketAddrV4 ip port => display_ipv4 ip ++ x3a :: display_number 10 port
  | SocketAddrV6 ip port _ scope_id =>
    x5b :: display_ipv6 ip ++ (if scope_id =? 0 then [] else x25 :: display_number 10 scope_id) ++
    x5d :: x3a :: display_number 10 port
  end.
(** The values of the type, without a flow label. *)
Definition addr_wf (a : SocketAddr) : Prop :=
  match a with
  | SocketAddrV4 _ port => port < u16_limit
  | SocketAddrV6 ip port flowinfo scope_id =>
    ip_wf (IpV6 ip) ∧ port < u16_limit ∧ flowinfo = 0 ∧ scope_id < u32_limit
  end.

Lemma read_number_unbounded n limit rest : n < limit → limit ≤ 10 ^ 20 → stops 10 rest →
  read_number 10 (len (display_number 10 n ++ rest)) true limit (display_number 10 n ++ rest) = Some (n, rest).
Proof.
  intros Hn Hl Hs. destruct (digits_of_spec 20 10 n ltac:(lia) ltac:(change (N.of_nat 20) with 20; lia) ltac:(lia))
    as (Hd & Hall & Hlen & _). unfold read_number, display_number. set (ds := digits_of 20 10 n) in *.
  rewrite read_digits_app by (first [by left | done | rewrite len_app; unfold len; rewrite length_fmap; lia]).
  cbn [mbind option_bind negb andb]. rewrite N.add_0_l. change (foldl _ 0 ds) with (digits 10 ds). rewrite Hd.
  rewrite (proj2 (N.eqb_neq _ _)) by (unfold len; lia). by rewrite (proj2 (N.ltb_lt _ _)).
Qed.
Lemma read_port_display port rest : port < u16_limit → stops 10 rest →
  read_port (x3a :: display_number 10 port ++ rest) = Some (port, rest).
Proof.
  intros Hp Hs. unfold read_port. cbn [read_given_char]. rewrite bool_decide_eq_true_2 by done.
  cbn [mbind option_bind]. by apply read_number_unbounded.
Qed.
Lemma read_scope_display scope rest : scope < u32_limit → stops 10 rest →
  read_scope_id (x25 :: display_number 10 scope ++ rest) = Some (scope, rest).
Proof.
  intros Hp Hs. unfold read_scope_id. cbn [read_given_char]. rewrite bool_decide_eq_true_2 by done.
  cbn [mbind option_bind]. by apply read_number_unbounded.
Qed.
(** Every socket address is read back from its text. *)
Lemma parse_display_socket_addr a : addr_wf a → parse_socket_addr (display_socket_addr a) = Some a.
Proof.
  unfold parse_socket_addr. destruct a as [ip port | ip port flowinfo scope]; cbn [addr_wf display_socket_addr].
  - intros Hp. unfold read_socket_addr_v4. rewrite read_ipv4_display by done. cbn [mbind option_bind].
    rewrite <- (app_nil_r (display_number 10 port)), read_port_display by done. done.
  - intros (Hip & Hp & -> & Hs). unfold read_socket_addr_v4 at 1. rewrite read_ipv4_undotted by done.
    cbn [mbind option_bind]. unfold read_socket_addr_v6. cbn [read_given_char]. rewrite bool_decide_eq_true_2 by done.
    cbn [mbind option_bind]. destruct (N.eqb_spec scope 0) as [-> | Hn].
    + cbn [app]. destruct (read_ipv6_display ip (x5d :: x3a :: display_number 10 port) Hip) as [-> _].
      { right. eexists. by left. }
      cbn [mbind option_bind]. change (read_scope_id (x5d :: _)) with (@None (N * bytes)). cbn [default read_given_char].
      rewrite bool_decide_eq_true_2 by done. cbn [mbind option_bind].
      rewrite <- (app_nil_r (display_number 10 port)), read_port_display by done. done.
    + cbn [app]. destruct (read_ipv6_display ip (x25 :: display_number 10 scope ++ x5d :: x3a :: display_number 10 port) Hip) as [-> _].
      { right. eexists. by right. }
      cbn [mbind option_bind]. rewrite read_scope_display by done. unfold default, id; cbn [read_given_char].
      rewrite bool_decide_eq_true_2 by done. cbn [mbind option_bind].
      rewrite <- (app_nil_r (display_number 10 port)), read_port_display by done. done.
Qed.

(** [Path::components] of a text. *)
Definition component (name : bytes) : option Component :=
  if bool_decide (name = [] ∨ name = [x2e]) then None
  else if bool_decide (name = [x2e; x2e]) then Some ParentDir else Some (Normal name).
Definition path_of (text : bytes) : Path :=
  match split x2f text with
  | [] => mkPath false []
  | first :: names =>
    if bool_decide (head text = Some x2f) then mkPath true (RootDir :: omap component names)
    else if bool_decide (first = [x2e]) then mkPath false (CurDir :: omap component names)
    else mkPath false (omap component (first :: names))
  end.
Example path_examples :
  path_of (lit "./keys") = mkPath false [CurDir; Normal (lit "keys")] ∧
  path_of (lit "/var//board/./x/") = mkPath true [RootDir; Normal (lit "var"); Normal (lit "board"); Normal (lit "x")] ∧
  path_of (lit "a/../.") = mkPath false [Normal (lit "a"); ParentDir].
Proof. vm_compute. done. Qed.

Lemma split_nonempty c l : l ≠ [] → head l ≠ Some c → ∃ f fs, split c l = f :: fs ∧ f ≠ [].
Proof.
  destruct l as [| b l]; [done |]. intros _ Hh. cbn in Hh |- *. rewrite bool_decide_false by congruence.
  destruct (split c l); eauto.
Qed.
(** A text that is not empty is a path that is not. *)
Lemma path_of_nonempty t : t ≠ [] → path_components (path_of t) ≠ [].
Proof.
  intros Ht. unfold path_of. case_bool_decide as Hh.
  - by destruct (split x2f t) eqn:E; [destruct t as [| b t]; [done |]; cbn in E;
      destruct (bool_decide _); [| destruct (split x2f t)] |].
  - destruct (split_nonempty x2f t Ht Hh) as (f & fs & -> & Hf). case_bool_decide; [done |]. cbn [omap list_omap].
    unfold component at 1. rewrite bool_decide_false by naive_solver. by case_bool_decide.
Qed.

(** ** Server options: [server_args.rs] *)

Record ServerArgs : Type := mkServerArgs {
  sa_store : Path;
  sa_listen : SocketAddr;
  sa_contacts : list Contact;
  sa_stored_contacts : bool;
  sa_connections : N;
  sa_streams : N;
  sa_outbound : N;
  sa_buffered : N;
  sa_handshake_ms : N;
  sa_shutdown_ms : N;
}.

(** The usage errors of this file and of [args.rs]. *)
Inductive UsageError : Type :=
| UnboundedPairs | EmptyOrDuplicate | InvalidValue (flag : bytes) | TooManyContacts | UnknownServerOption (flag : bytes)
| BothContacts | StoreRequired | InvalidPolicy (e : ConfigError) | InvalidServer (e : ServerConfigError)
| InvalidPublisher | UnknownCommand (word : bytes) | UnknownTopic (word : bytes) | Unsupported (words : list bytes).

(** [ServerArgs::config] when the clock reads [now]; durations in nanoseconds. *)
Definition from_millis (ms : N) : Duration := ms * 1000000.
Definition args_config (now : Instant) (a : ServerArgs) : result UsageError Config :=
  o ← map_err InvalidPolicy (ServerOptions_local (sa_store a));
  transport ← map_err InvalidPolicy (TransportConfig_new
    (Api.mkResourceLimits (sa_connections a) (sa_streams a) (sa_outbound a) (sa_buffered a))
    (from_millis (sa_handshake_ms a)));
  map_err InvalidServer (Config_new now (mkServerOptions (identity_store o) (sa_listen a) (sa_contacts a)
    (maximum_contacts o) transport (from_millis (sa_shutdown_ms a)))).

Definition IDENTITY_STORE : bytes := Eval cbv in lit "--identity-store".
Definition LISTEN : bytes := Eval cbv in lit "--listen".
Definition CONTACT : bytes := Eval cbv in lit "--contact".
Definition STORED_CONTACTS : bytes := Eval cbv in lit "--stored-contacts".
Definition MAX_CONNECTIONS : bytes := Eval cbv in lit "--max-connections".
Definition MAX_STREAMS : bytes := Eval cbv in lit "--max-streams".
Definition OUTBOUND_BYTES : bytes := Eval cbv in lit "--outbound-bytes".
Definition BUFFERED_BYTES : bytes := Eval cbv in lit "--buffered-bytes".
Definition HANDSHAKE_MS : bytes := Eval cbv in lit "--handshake-ms".
Definition SHUTDOWN_MS : bytes := Eval cbv in lit "--shutdown-ms".

Definition default_args : ServerArgs :=
  mkServerArgs (mkPath false []) (SocketAddrV4 (mkIpv4 x7f x00 x00 x01) 0) [] false
    64 128 (64 * MAX_FRAME_BYTES) MAX_PAYLOAD_BYTES 10000 5000.

Definition yes_no (value : bytes) : option bool :=
  if bool_decide (value = lit "yes") then Some true else if bool_decide (value = lit "no") then Some false else None.

(** The [match flag] of the loop. *)
Definition set_option (a : ServerArgs) (flag value : bytes) : result UsageError ServerArgs :=
  let '(mkServerArgs store listen contacts stored connections streams outbound buffered handshake shutdown) := a in
  let number := ok_or (parse_decimal u64_limit value) (InvalidValue flag) in
  if bool_decide (flag = IDENTITY_STORE) then
    Ok (mkServerArgs (path_of value) listen contacts stored connections streams outbound buffered handshake shutdown)
  else if bool_decide (flag = LISTEN) then
    listen ← ok_or (parse_socket_addr value) (InvalidValue flag);
    Ok (mkServerArgs store listen contacts stored connections streams outbound buffered handshake shutdown)
  else if bool_decide (flag = CONTACT) then
    if 64 <=? len contacts then Err TooManyContacts else
    c ← map_err (λ _, InvalidValue flag) (Contact.parse value 1024);
    Ok (mkServerArgs store listen (contacts ++ [c]) stored connections streams outbound buffered handshake shutdown)
  else if bool_decide (flag = STORED_CONTACTS) then
    stored ← ok_or (yes_no value) (InvalidValue flag);
    Ok (mkServerArgs store listen contacts stored connections streams outbound buffered handshake shutdown)
  else if bool_decide (flag = MAX_CONNECTIONS) then
    connections ← number;
    Ok (mkServerArgs store listen contacts stored connections streams outbound buffered handshake shutdown)
  else if bool_decide (flag = MAX_STREAMS) then
    streams ← number;
    Ok (mkServerArgs store listen contacts stored connections streams outbound buffered handshake shutdown)
  else if bool_decide (flag = OUTBOUND_BYTES) then
    outbound ← number;
    Ok (mkServerArgs store listen contacts stored connections streams outbound buffered handshake shutdown)
  else if bool_decide (flag = BUFFERED_BYTES) then
    buffered ← number;
    Ok (mkServerArgs store listen contacts stored connections streams outbound buffered handshake shutdown)
  else if bool_decide (flag = HANDSHAKE_MS) then
    handshake ← number;
    Ok (mkServerArgs store listen contacts stored connections streams outbound buffered handshake shutdown)
  else if bool_decide (flag = SHUTDOWN_MS) then
    shutdown ← number;
    Ok (mkServerArgs store listen contacts stored connections streams outbound buffered handshake shutdown)
  else Err (UnknownServerOption flag).

(** [as_chunks::<2>]. *)
Fixpoint chunks (words : list bytes) : list (bytes * bytes) :=
  match words with flag :: value :: words => (flag, value) :: chunks words | _ => [] end.
(** The loop; only flags other than the contact's are remembered. *)
Fixpoint read_options (seen : gset bytes) (a : ServerArgs) (pairs : list (bytes * bytes))
    : result UsageError ServerArgs :=
  match pairs with
  | [] => Ok a
  | (flag, value) :: pairs =>
    if is_empty value || bool_decide (flag ≠ CONTACT) && bool_decide (flag ∈ seen) then Err EmptyOrDuplicate else
    a ← set_option a flag value;
    read_options (if bool_decide (flag = CONTACT) then seen else {[flag]} ∪ seen) a pairs
  end.
Definition parse_server (now : Instant) (words : list bytes) : result UsageError ServerArgs :=
  if (160 <? len words) || negb (len words mod 2 =? 0) then Err UnboundedPairs else
  a ← read_options ∅ default_args (chunks words);
  if sa_stored_contacts a && negb (is_empty (sa_contacts a)) then Err BothContacts else
  if is_empty (path_components (sa_store a)) then Err StoreRequired else
  _ ← args_config now a;
  Ok a.

(** ** Commands: [args.rs] *)

Inductive Command : Type :=
| CmdHelp (topic : Topic)
| CmdVersion
| CmdServe (args : ServerArgs)
| CmdBoard (path : Path) (publisher : option IdentityId)
| CmdIdentity (path : Path) (create : bool).

Definition is_word (w : bytes) (names : list bytes) : bool := bool_decide (w ∈ names).
Definition HELP_FLAGS : list bytes := Eval cbv in [lit "--help"; lit "-h"].
Definition BOARD_COMMANDS : list bytes := Eval cbv in [lit "board-validate"; lit "board-show"].
Definition IDENTITY_COMMANDS : list bytes := Eval cbv in [lit "identity-init"; lit "identity-show"].
Definition SERVE : bytes := Eval cbv in lit "serve".
Definition HELP : bytes := Eval cbv in lit "help".

(** The last arms, for more words than any other form. *)
Definition parse_serve (now : Instant) (command : bytes) (tail : list bytes) : result UsageError Command :=
  if bool_decide (command = SERVE) then CmdServe <$> parse_server now tail
  else Err (Unsupported (command :: tail)).
(** The arms of each length in the order of the source. *)
Definition parse_command (now : Instant) (arguments : list bytes) : result UsageError Command :=
  match arguments with
  | [] => Ok (CmdHelp TopOverview)
  | [argument] =>
    if is_word argument [HELP; lit "--help"; lit "-h"] then Ok (CmdHelp TopOverview)
    else if is_word argument [lit "--version"; lit "-V"] then Ok CmdVersion
    else if bool_decide (argument = SERVE) then CmdServe <$> parse_server now []
    else Err (UnknownCommand argument)
  | [command; option] =>
    if is_word command BOARD_COMMANDS && is_word option HELP_FLAGS then Ok (CmdHelp TopBoard)
    else if is_word command IDENTITY_COMMANDS && is_word option HELP_FLAGS then Ok (CmdHelp TopIdentity)
    else if bool_decide (command = HELP) then ok_or (CmdHelp <$> find_topic option) (UnknownTopic option)
    else if bool_decide (command = SERVE) && is_word option HELP_FLAGS then Ok (CmdHelp TopServe)
    else Err (Unsupported arguments)
  | [command; option; path] =>
    if bool_decide (command = lit "board-validate") && bool_decide (option = lit "--board-file") && negb (is_empty path)
    then Ok (CmdBoard (path_of path) None)
    else if is_word command IDENTITY_COMMANDS && bool_decide (option = IDENTITY_STORE) && negb (is_empty path)
    then Ok (CmdIdentity (path_of path) (bool_decide (command = lit "identity-init")))
    else parse_serve now command [option; path]
  | [command; option; path; id_option; id] =>
    if bool_decide (command = lit "board-show") && bool_decide (option = lit "--board-store") && negb (is_empty path)
       && bool_decide (id_option = lit "--publisher")
    then publisher ← map_err (λ _, InvalidPublisher) (IdentityText.parse id);
         Ok (CmdBoard (path_of path) (Some publisher))
    else parse_serve now command [option; path; id_option; id]
  | command :: tail => parse_serve now command tail
  end.

(** ** What an option list says *)

Definition OPTIONS : list bytes :=
  [IDENTITY_STORE; LISTEN; CONTACT; STORED_CONTACTS; MAX_CONNECTIONS; MAX_STREAMS; OUTBOUND_BYTES; BUFFERED_BYTES;
   HANDSHAKE_MS; SHUTDOWN_MS].

(** The value given for an option, the values given for the contacts, and what
    a value denotes: that of its text, or the default when there is none. *)
Fixpoint given (k : bytes) (pairs : list (bytes * bytes)) : option bytes :=
  match pairs with
  | [] => None
  | (flag, value) :: pairs => if decide (flag = k) then Some value else given k pairs
  end.
Definition contact_values (pairs : list (bytes * bytes)) : list bytes := (filter (λ p, p.1 = CONTACT) pairs).*2.
Definition option_flags (pairs : list (bytes * bytes)) : list bytes := filter (λ f, f ≠ CONTACT) pairs.*1.
Definition denotes {A} (read : bytes → option A) (d a : A) (o : option bytes) : Prop :=
  match o with None => a = d | Some t => read t = Some a end.

Record says (d : ServerArgs) (pairs : list (bytes * bytes)) (a : ServerArgs) : Prop := {
  sy_store : denotes (λ t, Some (path_of t)) (sa_store d) (sa_store a) (given IDENTITY_STORE pairs);
  sy_listen : denotes parse_socket_addr (sa_listen d) (sa_listen a) (given LISTEN pairs);
  sy_contacts : ∃ cs, sa_contacts a = sa_contacts d ++ cs ∧
    Forall2 (λ t c, Contact.parse t 1024 = Ok c) (contact_values pairs) cs;
  sy_stored : denotes yes_no (sa_stored_contacts d) (sa_stored_contacts a) (given STORED_CONTACTS pairs);
  sy_connections : denotes (parse_decimal u64_limit) (sa_connections d) (sa_connections a) (given MAX_CONNECTIONS pairs);
  sy_streams : denotes (parse_decimal u64_limit) (sa_streams d) (sa_streams a) (given MAX_STREAMS pairs);
  sy_outbound : denotes (parse_decimal u64_limit) (sa_outbound d) (sa_outbound a) (given OUTBOUND_BYTES pairs);
  sy_buffered : denotes (parse_decimal u64_limit) (sa_buffered d) (sa_buffered a) (given BUFFERED_BYTES pairs);
  sy_handshake : denotes (parse_decimal u64_limit) (sa_handshake_ms d) (sa_handshake_ms a) (given HANDSHAKE_MS pairs);
  sy_shutdown : denotes (parse_decimal u64_limit) (sa_shutdown_ms d) (sa_shutdown_ms a) (given SHUTDOWN_MS pairs);
}.

(** Every pair is a known option with a value, and only contacts repeat. *)
Record well_formed (seen : gset bytes) (pairs : list (bytes * bytes)) : Prop := {
  wl_values : Forall (λ p, p.2 ≠ []) pairs;
  wl_known : Forall (λ p, p.1 ∈ OPTIONS) pairs;
  wl_once : NoDup (option_flags pairs);
  wl_unseen : ∀ f, f ∈ option_flags pairs → f ∉ seen;
}.

Lemma given_None k pairs : k ∉ pairs.*1 → given k pairs = None.
Proof.
  induction pairs as [| [f v] pairs IH]; [done |]. cbn. intros [Hn Hp]%not_elem_of_cons.
  rewrite decide_False by done. by apply IH.
Qed.
Lemma given_other k f v pairs : f ≠ k → given k ((f, v) :: pairs) = given k pairs.
Proof. intros Hn. cbn. by rewrite decide_False. Qed.
Lemma given_here k v pairs : given k ((k, v) :: pairs) = Some v.
Proof. cbn. by rewrite decide_True. Qed.
Lemma contact_values_other f v pairs : f ≠ CONTACT → contact_values ((f, v) :: pairs) = contact_values pairs.
Proof. intros Hn. unfold contact_values. by rewrite filter_cons_False. Qed.

(** One pair: an option given once sets its own field. *)
Ltac one_option :=
  unfold set_option; repeat first
    [ rewrite bool_decide_eq_false_2 by (vm_compute; discriminate) | rewrite bool_decide_eq_true_2 by reflexivity ].
Ltac read_value :=
  repeat match goal with
  | |- context [ok_or ?o _] => let E := fresh "Er" in destruct o eqn:E; cbn [ok_or mbind result_bind]
  end.

Lemma says_option f v pairs d a : f ≠ CONTACT → f ∉ pairs.*1 → f ∈ OPTIONS →
  says d ((f, v) :: pairs) a ↔ ∃ d', set_option d f v = Ok d' ∧ says d' pairs a.
Proof.
  intros Hc Hn Hin. pose proof (given_None f pairs Hn) as Hg. destruct d as [d1 d2 d3 d4 d5 d6 d7 d8 d9 d10].
  unfold OPTIONS in Hin. rewrite !elem_of_cons, elem_of_nil in Hin.
  destruct_or! Hin; subst f; try done; clear Hn Hc; one_option; read_value.
  all: split; [intros [H1 H2 H3 H4 H5 H6 H7 H8 H9 H10] | intros (d' & Hd & [H1 H2 H3 H4 H5 H6 H7 H8 H9 H10])].
  all: rewrite ?given_here, ?given_other in * by (vm_compute; discriminate);
       rewrite ?contact_values_other in * by (vm_compute; discriminate).
  all: try (injection Hd as <-); rewrite ?Hg in *.
  all: cbn [denotes sa_store sa_listen sa_contacts sa_stored_contacts sa_connections sa_streams sa_outbound sa_buffered
         sa_handshake_ms sa_shutdown_ms] in *; try congruence.
  all: try (eexists; split; [done |]); split;
    rewrite ?given_here, ?given_other, ?contact_values_other by (vm_compute; discriminate); rewrite ?Hg;
    cbn [denotes sa_store sa_listen sa_contacts sa_stored_contacts sa_connections sa_streams sa_outbound sa_buffered
         sa_handshake_ms sa_shutdown_ms]; congruence || done.
Qed.

Lemma says_contact v pairs d a : len (sa_contacts a) ≤ 64 →
  says d ((CONTACT, v) :: pairs) a ↔ ∃ d', set_option d CONTACT v = Ok d' ∧ says d' pairs a.
Proof.
  intros Hlen. destruct d as [d1 d2 d3 d4 d5 d6 d7 d8 d9 d10]. one_option.
  assert (contact_values ((CONTACT, v) :: pairs) = v :: contact_values pairs) as Hv.
  { unfold contact_values. by rewrite filter_cons_True. }
  split.
  - intros [H1 H2 (cs & Ha & Hcs) H4 H5 H6 H7 H8 H9 H10]. rewrite Hv in Hcs.
    apply Forall2_cons_inv_l in Hcs as (c & cs' & Hc & Hcs & ->). cbn [sa_contacts] in Ha.
    rewrite (proj2 (N.leb_gt _ _)). 2: { rewrite Ha, len_app, len_cons in Hlen. lia. }
    rewrite Hc. eexists. split; [done |].
    rewrite ?given_other in * by (vm_compute; discriminate). split; try done. exists cs'.
    cbn [sa_contacts]. by rewrite <- app_assoc.
  - destruct (_ <=? _); [by intros (? & ? & _) |]. intros (d' & Hd & [H1 H2 (cs & Ha & Hcs) H4 H5 H6 H7 H8 H9 H10]).
    apply result_bind_Ok_inv in Hd as (c & Hc & [= <-]). apply map_err_Ok in Hc.
    split; rewrite ?given_other by (vm_compute; discriminate); try done. exists (c :: cs).
    cbn [sa_contacts] in Ha |- *. rewrite Ha, <- app_assoc. split; [done |]. rewrite Hv. by constructor.
Qed.

Lemma set_option_known d f v d' : set_option d f v = Ok d' → f ∈ OPTIONS.
Proof.
  unfold set_option, OPTIONS. destruct d. repeat case_bool_decide; subst; try done; intros _; set_solver.
Qed.
Lemma set_option_count d f v d' : set_option d f v = Ok d' → len (sa_contacts d) ≤ 64 → len (sa_contacts d') ≤ 64.
Proof.
  unfold set_option. destruct d as [d1 d2 d3 d4 d5 d6 d7 d8 d9 d10]. cbn [sa_contacts].
  repeat case_bool_decide; try destruct (N.leb_spec 64 (len d3)); intros H'; try done.
  all: try (apply result_bind_Ok_inv in H' as (x & _ & H')); injection H' as <-; cbn [sa_contacts]; try done.
  intros _. rewrite len_app, len_cons. change (len []) with 0. lia.
Qed.

Lemma well_formed_cons seen f v pairs :
  well_formed seen ((f, v) :: pairs) ↔
  v ≠ [] ∧ f ∈ OPTIONS ∧ (f ≠ CONTACT → (f ∉ seen) ∧ (f ∉ pairs.*1)) ∧
  well_formed (if bool_decide (f = CONTACT) then seen else {[f]} ∪ seen) pairs.
Proof.
  unfold option_flags. split.
  - intros [H1 H2 H3 H4]. apply Forall_cons in H1 as [Hv H1], H2 as [Hf H2]. unfold option_flags in *. cbn [fmap list_fmap fst] in *.
    split_and!; [done | done | |].
    + intros Hc. rewrite filter_cons_True in * by done. apply NoDup_cons in H3 as [H3 _]. split; [apply H4; by left |].
      intros Hin. apply H3, list_elem_of_filter. done.
    + case_bool_decide as Hc; [rewrite filter_cons_False in * by naive_solver; by split |].
      rewrite filter_cons_True in * by done. apply NoDup_cons in H3 as [H3 H3']. split; try done.
      intros g Hg. assert (g ≠ f) by (intros ->; done). assert (g ∉ seen) by (apply H4; by right). set_solver.
  - intros (Hv & Hf & Hn & [H1 H2 H3 H4]). unfold option_flags in *. split; [by constructor | by constructor | |];
      unfold option_flags; cbn [fmap list_fmap fst].
    all: case_bool_decide as Hc; [rewrite filter_cons_False by naive_solver; done |].
    all: rewrite filter_cons_True by done; destruct (Hn Hc) as [Hs Hp].
    + constructor; [| done]. intros [_ Hin]%list_elem_of_filter. done.
    + intros g [-> | Hg]%elem_of_cons; [done |]. specialize (H4 g Hg). set_solver.
Qed.

Lemma read_options_ok seen d pairs a : len (sa_contacts d) ≤ 64 →
  read_options seen d pairs = Ok a ↔ well_formed seen pairs ∧ says d pairs a ∧ len (sa_contacts a) ≤ 64.
Proof.
  revert seen d. induction pairs as [| [f v] pairs IH]; intros seen d Hd; cbn [read_options].
  - split.
    + intros [= <-]. split_and!; [split; try constructor; set_solver | | done]. split; try done. exists [].
      by rewrite app_nil_r.
    + intros (_ & [H1 H2 (cs & H3 & Hcs) H4 H5 H6 H7 H8 H9 H10] & _). apply Forall2_nil_inv_l in Hcs as ->.
      rewrite app_nil_r in H3. cbn in *. f_equal. destruct a, d; cbn in *; congruence.
  - rewrite well_formed_cons. split.
    + destruct (is_empty v || _) eqn:E; [done |]. apply orb_false_iff in E as [Ev Es].
      intros (d' & Hs & H)%result_bind_Ok_inv. pose proof (set_option_known _ _ _ _ Hs) as Hk.
      pose proof (set_option_count _ _ _ _ Hs Hd) as Hd'. apply IH in H as (Hw & Hsay & Ha); [| done].
      assert (f ≠ CONTACT → (f ∉ seen) ∧ (f ∉ pairs.*1)) as Hf.
      { intros Hc. rewrite (bool_decide_eq_true_2 _ Hc) in Es. cbn in Es. apply bool_decide_eq_false in Es.
        split; [done |]. rewrite bool_decide_eq_false_2 in Hw by done. intros Hin.
        apply (wl_unseen _ _ Hw f); [by apply list_elem_of_filter | set_solver]. }
      split_and!; try done; [by destruct v |]. destruct (decide (f = CONTACT)) as [-> | Hc].
      * apply says_contact; eauto.
      * apply says_option; [done | by apply Hf | done | eauto].
    + intros ((Hv & Hk & Hf & Hw) & Hsay & Ha).
      assert (∃ d', set_option d f v = Ok d' ∧ says d' pairs a) as (d' & Hs & Hsay').
      { destruct (decide (f = CONTACT)) as [-> | Hc].
        - by apply says_contact.
        - apply says_option in Hsay; try done. by apply Hf. }
      assert (is_empty v || bool_decide (f ≠ CONTACT) && bool_decide (f ∈ seen) = false) as ->.
      { apply orb_false_iff. split; [by destruct v |]. apply andb_false_iff.
        destruct (decide (f = CONTACT)) as [-> | Hc]; [by left |]. right. apply bool_decide_eq_false_2. by apply Hf. }
      rewrite Hs. cbn [mbind result_bind]. apply IH; [by eapply set_option_count | done].
Qed.

(** ** Exactly the documented forms *)

(** A server policy in words. *)
Fixpoint words_of (pairs : list (bytes * bytes)) : list bytes :=
  match pairs with [] => [] | (flag, value) :: pairs => flag :: value :: words_of pairs end.
Record server_words (now : Instant) (words : list bytes) (a : ServerArgs) : Prop := {
  sw_pairs : ∃ pairs, words = words_of pairs ∧ len pairs ≤ 80 ∧
    well_formed ∅ pairs ∧ says default_args pairs a;
  sw_contacts : len (sa_contacts a) ≤ 64;
  sw_source : sa_stored_contacts a = true → sa_contacts a = [];
  sw_store : path_components (sa_store a) ≠ [];
  sw_policy : ∃ c, args_config now a = Ok c;
}.

Lemma chunks_pairs pairs : chunks (words_of pairs) = pairs.
Proof. induction pairs as [| [f v] pairs IH]; [done |]. cbn. by f_equal. Qed.
Lemma pairs_len pairs : len (words_of pairs) = len pairs * 2.
Proof. induction pairs as [| [f v] pairs IH]; [done |]. cbn [words_of]. rewrite !len_cons, IH. lia. Qed.
Lemma even_pairs words : len words mod 2 = 0 → words = words_of (chunks words).
Proof.
  induction words as [words IH] using (induction_ltof1 _ length). unfold ltof in IH.
  destruct words as [| f [| v words]]; [done | by intros H |]. rewrite !len_cons. intros Hm.
  cbn. do 2 f_equal. apply IH; [cbn; lia |]. rewrite <- Hm, N.add_assoc.
  replace (1 + 1 + len words) with (len words + 1 * 2) by lia. by rewrite N.Div0.mod_add.
Qed.

(** C39: the server starts from exactly the finite option lists: at most 80 pairs of
    a known option and a value that is not empty, no option but the contact's
    repeated, every value read as its type, at most 64 contacts, given or stored
    but not both, a store, and a policy the server accepts; what it starts from
    is what the options say, and the documented defaults otherwise. *)
Theorem server_words_exact now words a : parse_server now words = Ok a ↔ server_words now words a.
Proof.
  unfold parse_server. assert (len (sa_contacts default_args) ≤ 64) as Hd by done. split.
  - destruct (_ || _) eqn:E; [done |]. apply orb_false_iff in E as [E1%N.ltb_ge E2%negb_false_iff%N.eqb_eq].
    intros (x & Hx & H)%result_bind_Ok_inv. apply read_options_ok in Hx as (Hw & Hs & Hl); [| done].
    destruct (_ && _) eqn:E3; [done |]. destruct (is_empty (path_components _)) eqn:E4; [done |].
    apply result_bind_Ok_inv in H as (c & Hc & [= <-]). split; [| done | | | by exists c].
    + exists (chunks words). rewrite <- even_pairs by done. split_and!; try done.
      rewrite (even_pairs words E2), pairs_len in E1. lia.
    + intros Hst. rewrite Hst in E3. by destruct (sa_contacts x).
    + intros Hp. by rewrite Hp in E4.
  - intros [(pairs & -> & Hp & Hw & Hs) Hl Hb Hst (c & Hc)]. rewrite pairs_len, chunks_pairs.
    rewrite (proj2 (N.ltb_ge _ _)) by lia. rewrite N.Div0.mod_mul. cbn [orb negb N.eqb].
    rewrite (proj2 (read_options_ok ∅ default_args pairs a Hd)) by done. cbn [mbind result_bind].
    assert (sa_stored_contacts a && negb (is_empty (sa_contacts a)) = false) as ->.
    { destruct (sa_stored_contacts a); [| done]. by rewrite Hb. }
    destruct (path_components (sa_store a)); [done |]. cbn [is_empty]. by rewrite Hc.
Qed.

(** The forms of commands. *)
Inductive form (now : Instant) : list bytes → Command → Prop :=
| FormOverview ws : ws = [] ∨ (∃ w, w ∈ [HELP; lit "--help"; lit "-h"] ∧ ws = [w]) → form now ws (CmdHelp TopOverview)
| FormVersion w : w ∈ [lit "--version"; lit "-V"] → form now [w] CmdVersion
| FormTopic w t : find_topic w = Some t → form now [HELP; w] (CmdHelp t)
| FormServeHelp w : w ∈ HELP_FLAGS → form now [SERVE; w] (CmdHelp TopServe)
| FormBoardHelp c w : c ∈ BOARD_COMMANDS → w ∈ HELP_FLAGS → form now [c; w] (CmdHelp TopBoard)
| FormIdentityHelp c w : c ∈ IDENTITY_COMMANDS → w ∈ HELP_FLAGS → form now [c; w] (CmdHelp TopIdentity)
| FormValidate p : p ≠ [] → form now [lit "board-validate"; lit "--board-file"; p] (CmdBoard (path_of p) None)
| FormShow p t i : p ≠ [] → IdentityText.parse t = Ok i →
    form now [lit "board-show"; lit "--board-store"; p; lit "--publisher"; t] (CmdBoard (path_of p) (Some i))
| FormInit p : p ≠ [] → form now [lit "identity-init"; IDENTITY_STORE; p] (CmdIdentity (path_of p) true)
| FormShowIdentity p : p ≠ [] → form now [lit "identity-show"; IDENTITY_STORE; p] (CmdIdentity (path_of p) false)
| FormServe words a : parse_server now words = Ok a → form now (SERVE :: words) (CmdServe a).

(** A command is read from exactly the words of its form: a store is created,
    shown or served only where it was named with its own option. *)
Theorem command_forms_exact now words c : parse_command now words = Ok c ↔ form now words c.
Proof.
  assert (∀ o ws, parse_serve now o ws = Ok c → form now (o :: ws) c) as Hserve.
  { unfold parse_serve. intros o ws. case_bool_decide as E; [subst o | done].
    destruct (parse_server now ws) eqn:Es; [intros [= <-] | done]. by constructor. }
  split.
  - destruct words as [| w1 [| w2 [| w3 [| w4 [| w5 [| w6 ws]]]]]]; cbn [parse_command]; auto.
    + intros [= <-]. constructor. by left.
    + unfold is_word. repeat case_bool_decide; subst; intros Hc; try done.
      * injection Hc as <-. constructor. right. eauto.
      * injection Hc as <-. by constructor.
    + unfold is_word. repeat case_bool_decide; cbn [andb]; subst; intros Hc; try done; try (injection Hc as <-); try by constructor.
      all: destruct (find_topic w2) eqn:Et; [injection Hc as <-; by constructor | done].
    + destruct (_ && _) eqn:E1.
      { intros [= <-]. rewrite !andb_true_iff, !bool_decide_eq_true in E1. destruct E1 as [[-> ->] Ep].
        constructor. by destruct w3. }
      destruct (is_word w1 _ && _ && _) eqn:E2; [| apply Hserve]. intros [= <-].
      unfold is_word in E2. rewrite !andb_true_iff, !bool_decide_eq_true in E2. destruct E2 as [[Hw ->] Ep].
      assert (w3 ≠ []) as Hp by by destruct w3.
      unfold IDENTITY_COMMANDS in Hw. rewrite !elem_of_cons, elem_of_nil in Hw. destruct_or! Hw; subst; try done; by constructor.
    + destruct (_ && _) eqn:E1; [| apply Hserve]. intros (i & Hi%map_err_Ok & [= <-])%result_bind_Ok_inv.
      rewrite !andb_true_iff, !bool_decide_eq_true in E1. destruct E1 as [[[-> ->] Ep] ->]. constructor; [by destruct w3 | done].
  - intros [ws Hw | w Hw | w t Ht | w Hw | k w Hk Hw | k w Hk Hw | p Hp | p t i Hp Hi | p Hp | p Hp | ws a Hs];
      rewrite ?elem_of_cons, ?elem_of_nil in *.
    all: try (destruct p as [| x p]; [done |]).
    + destruct Hw as [-> | (w & Hw & ->)]; [done |]. rewrite !elem_of_cons, elem_of_nil in Hw. by destruct_or! Hw; subst.
    + by destruct_or! Hw; subst.
    + change (ok_or (CmdHelp <$> find_topic w) (UnknownTopic w) = Ok (CmdHelp t)). by rewrite Ht.
    + unfold HELP_FLAGS in Hw. rewrite !elem_of_cons, elem_of_nil in Hw. by destruct_or! Hw; subst.
    + unfold HELP_FLAGS, BOARD_COMMANDS in *. rewrite !elem_of_cons, elem_of_nil in *. by destruct_or! Hw; destruct_or! Hk; subst.
    + unfold HELP_FLAGS, IDENTITY_COMMANDS in *. rewrite !elem_of_cons, elem_of_nil in *. by destruct_or! Hw; destruct_or! Hk; subst.
    + done.
    + change ((publisher ← map_err (λ _, InvalidPublisher) (IdentityText.parse t);
        Ok (CmdBoard (path_of (x :: p)) (Some publisher))) = Ok (CmdBoard (path_of (x :: p)) (Some i)) :> result UsageError Command). by rewrite Hi.
    + done.
    + done.
    + destruct ws as [| w1 [| w2 [| w3 [| w4 [| w5 ws]]]]]; try discriminate Hs.
      all: match goal with |- _ _ (_ :: ?ws) = _ => change (CmdServe <$> parse_server now ws = Ok (CmdServe a)); by rewrite Hs end.
Qed.

(** Names of commands and options, some refused words, and a whole policy. *)
Example command_examples :
  map (is_ok ∘ parse_command 0)
    [[lit "help"; lit "--contact"]; [lit "serve"]; [lit "serve"; lit "extra"]; [lit "identity-init"; lit "--identity-store"; []];
     [lit "serve"; IDENTITY_STORE; lit "fixture"]; [lit "serve"; IDENTITY_STORE; lit "fixture"; SHUTDOWN_MS; lit "0"];
     [lit "serve"; IDENTITY_STORE; lit "fixture"; IDENTITY_STORE; lit "other"];
     [lit "serve"; IDENTITY_STORE; lit "fixture"; LISTEN; lit "[::1]:80"; MAX_STREAMS; lit "+7"]]
  = [true; false; false; false; true; false; false; true].
Proof. vm_compute. reflexivity. Qed.
