(* ===== verification/CliRun.v ===== *)
(** * Commands of the command line

    [src/cli/{identity,board}.rs]: creating and showing the protected identity,
    validating a public Board file and inspecting the protected snapshot.  The
    theorems: an identity that was acknowledged once is the only one these
    commands can ever leave or print, and what an inspection prints is the
    complete record on file of the expected publisher. *)

From S2P Require Import Prelude Bytes IdentityText Api Arcs Crypto Envelope Keys Authority Identity IdentityProps.
From S2P Require Import Files IdentityStore.

#[local] Open Scope N_scope.

(** ** [identity.rs] *)

Inductive IdentityCommandError : Type := StoreUnavailable | IdentityFailed (e : IdentityError).

Section identity.
Context {F : Type} `{FS : !Filesystem F} `{CR : !Crates} {E : Type} `{EN : !Entropy E}.
(** [Path::is_dir]. *)
Context (is_dir : F → Path → bool).

(** The provider's part, once the store is open. *)
Definition run_provider (create : bool) (limits : Limits) (admin : Capability PAdministration)
    (entropy : E) (w : World) : M (Stored F) IdentityCommandError bytes := λ s,
  match Identity_new s entropy limits 1 w with
  | (Err e, _) => (Err (IdentityFailed e), s)
  | (Ok provider, w) =>
    let '(r, (provider, _)) := (if create then Identity.create admin else load admin) (provider, w) in
    ((λ x : IdentityHandle * PublicCredential, IdentityText.format (pub_id (pub_identity x.2)))
       <$> map_err IdentityFailed r, id_store provider)
  end.
Definition execute_identity (path : Path) (create : bool) (entropy : E) (h : Flags) (w : World)
    : M F IdentityCommandError bytes := λ f,
  if negb create && negb (is_dir f path) then (Err StoreUnavailable, f) else
  match Limits_new 1024 64 65548 65536 65536 with
  | Err e => (Err (IdentityFailed e), f)
  | Ok limits =>
    match FileStore_open path limits h f with
    | (Err e, f) => (Err (IdentityFailed e), f)
    | (Ok (store, admin, h), f) =>
      let '(r, s) := run_provider create limits admin entropy w (mkStored f store h) in (r, sd_files s)
    end
  end.
End identity.

(** ** Calls that take no version of a record away

    Whatever they answer, they bring no version of the file [n] back and keep
    its names on disk. *)
Section calm.
Context {F : Type} `{FS : !Filesystem F} `{FL : !FilesystemLaws F} (d : Fd) (n : bytes).

Definition calm {E A} (m : M F E A) : Prop := ∀ f, narrows n (view d f) (view d (m f).2).

Lemma calm_ret {E A} (a : A) : calm (mret a : M F E A).
Proof. by intros f. Qed.
Lemma calm_throw {E A} (e : E) : calm (throw e : M F E A).
Proof. by intros f. Qed.
Lemma calm_lift {E A} (r : result E A) : calm (lift r).
Proof. by intros f. Qed.
Lemma calm_bind {E A B} (m : M F E A) (g : A → M F E B) : calm m → (∀ a, calm (g a)) → calm (m ≫= g).
Proof.
  intros Hm Hg f. specialize (Hm f). unfold mbind, M_bind. destruct (m f) as [[a | e] f1]; [| done].
  etrans; [exact Hm | apply Hg].
Qed.
Lemma calm_io {E A} (g : Errno → E) (m : M F Errno A) : calm m → calm (io g m).
Proof. intros Hm f. specialize (Hm f). unfold io. by destruct (m f). Qed.
Lemma calm_try {E E' A} (m : M F E A) : calm m → calm (try_ m : M F E' _).
Proof. intros Hm f. specialize (Hm f). unfold try_. by destruct (m f). Qed.

Lemma calm_open_read name : calm (open_read d name).
Proof.
  intros f. pose proof (open_read_law d name f) as L. destruct (open_read d name f) as [[fd | e] f']; cbn.
  - destruct L as (i & _ & ->). apply narrows_set_file.
  - by destruct L as [_ ->].
Qed.
Lemma calm_open_lock name : name ≠ n → calm (open_lock d name).
Proof.
  intros Hn f. pose proof (open_lock_law d name f) as L. destruct (open_lock d name f) as [[fd | e] f']; cbn.
  - destruct L as [(i & _ & ->) | (_ & i & Hi & ->)]; [apply narrows_set_file |].
    by eapply narrows_beside; [apply beside_created |].
  - by rewrite L.
Qed.
Lemma calm_lock fd : calm (lock_exclusive fd).
Proof. intros f. by rewrite lock_law. Qed.
Lemma calm_unlink name : name ≠ n → calm (unlink d name).
Proof. intros Hn f. eapply narrows_beside; [apply unlink_beside | done]. Qed.
Lemma calm_sync : calm (sync_all d).
Proof.
  intros f. pose proof (sync_directory_law d f) as L. destruct (sync_all d f) as [[u | e] f']; cbn; rewrite L; [| done].
  apply narrows_settle.
Qed.
Lemma calm_validate fd b : calm (validate_metadata fd b).
Proof. intros f. by rewrite validate_view. Qed.

Lemma calm_cleanup names : n ∉ names → calm (cleanup_names d names).
Proof.
  induction names as [| name names IH]; intros Hn; [apply calm_ret |]. apply not_elem_of_cons in Hn as [Hne Hn].
  cbn [cleanup_names]. apply calm_bind; [apply calm_try, calm_open_read |]. intros opened.
  apply calm_bind; [| by intros _; apply IH]. destruct opened as [file | []]; try apply calm_throw; try apply calm_ret.
  apply calm_bind; [apply calm_validate | intros _].
  apply calm_bind; [by apply calm_io, calm_unlink | intros _]. apply calm_io, calm_sync.
Qed.
Lemma calm_open_at limits h : n ≠ WRITER_LOCK → n ∉ [IDENTITY_PENDING; CONTACTS_PENDING] → calm (open_at d limits h).
Proof.
  intros Hl Hn. unfold open_at. apply calm_bind; [apply calm_validate | intros _].
  apply calm_bind; [by apply calm_io, calm_open_lock | intros lock].
  apply calm_bind; [apply calm_validate | intros _]. apply calm_bind; [apply calm_io, calm_lock | intros _].
  apply calm_bind; [by apply calm_cleanup | intros _]. destruct (Authority_new h).
  apply calm_bind; [apply calm_lift | intros admin]. apply calm_ret.
Qed.
End calm.

Section permanent.
Context {F : Type} `{FS : !Filesystem F} `{FL : !FilesystemLaws F} `{CR : !Crates} {E : Type} `{EN : !Entropy E}.
Context (is_dir : F → Path → bool).

(** A provider touches its store by one call of the port at most. *)
Lemma create_store admin (i : Identity (Stored F) E) w :
  let '(r, (i', _)) := Identity.create admin (i, w) in
  id_store i' = id_store i ∧ is_err r = true ∨
  ∃ record x, install admin record (id_store i) = (x, id_store i') ∧ (is_ok r = true → x = Ok tt).
Proof.
  unfold Identity.create. unfold mbind at 1, M_bind at 1, query at 1. cbn [fst].
  destruct (authorize _ _ _); [| by left]. unfold mbind at 1, M_bind at 1, draw.
  destruct (keys_generate _) as [[k | err] e]; cbn [into map_err]; [| by left].
  unfold mbind at 1, M_bind at 1, query. cbn [fst]. destruct (record_encode _ _) as [record | err]; [| by left].
  unfold_m. rewrite handle_run. unfold holding, Identity.store_install. cbn [fst id_store with_entropy].
  destruct (install admin record (id_store i)) as [[[] | err] s] eqn:Hi; cbn; right; exists record; [by exists (Ok tt) | by exists (Err err)].
Qed.
Lemma load_store admin (i : Identity (Stored F) E) w :
  let '(_, (i', _)) := load admin (i, w) in
  id_store i' = id_store i ∨ ∃ x, open_record admin (id_store i) = (x, id_store i').
Proof.
  unfold load. unfold mbind at 1, M_bind at 1, query at 1. cbn [fst].
  destruct (authorize _ _ _); [| by left]. unfold mbind at 1, M_bind at 1, store_open.
  destruct (open_record admin (id_store i)) as [[record | e] s] eqn:Ho; [| right; by exists (Err e)].
  unfold mbind at 1, M_bind at 1, lift.
  destruct (record_decode record) as [k |]; [| right; by exists (Ok record)].
  rewrite handle_run. right. by exists (Ok record).
Qed.

Lemma run_provider_run create limits admin (entropy : E) w s x s' :
  run_provider (F := F) create limits admin entropy w s = (x, s') →
  (∀ t, x = Ok t → ∃ r keys, stored_record (stored_view s') = Some r ∧ record_decode r = Ok keys ∧
    t = IdentityText.format (pub_id (pub_identity (public_of keys)))) ∧
  ∀ r, pledged r (stored_view s) → pledged r (stored_view s') ∧ (create = true → is_err x = true).
Proof using FL.
  unfold run_provider. destruct (Identity_new s entropy limits 1 w) as [[i | e] w1] eqn:En.
  2: { intros [= <- <-]. split; [done |]. by intros r Hr. }
  assert (id_store i = s) as Hs.
  { unfold Identity_new in En. destruct (validate_contract 1); [| done]. destruct (_ <? _); [done |].
    destruct (Authority_new _). destruct (arc_new _ _). by injection En as <- _. }
  destruct create.
  - pose proof (create_outcome admin i w1) as Ho. pose proof (create_store admin i w1) as Hc.
    destruct (Identity.create admin (i, w1)) as [y [i' w2]]. intros [= <- <-]. split.
    + intros t Ht. destruct y as [[hd pub] | e]; [| done]. injection Ht as <-.
      destruct Ho as (_ & _ & -> & (r & Hr & Hk & Hp) & _). exists r, (h_keys hd). by rewrite <- Hp.
    + intros r Hp. destruct Hc as [[-> He] | (record & z & Hi & Hz)].
      * rewrite Hs. split; [done |]. intros _. by destruct y.
      * rewrite Hs in Hi. split; [by eapply life_pledged; [eapply life_install |] |]. intros _.
        destruct y as [y | e]; [| done]. specialize (Hz eq_refl). subst z. apply install_ok in Hi as [Hi _].
        cbn in Hi. unfold stored_record in Hi. by rewrite (pledged_content _ _ Hp) in Hi.
  - pose proof (load_outcome admin i w1) as Ho. pose proof (load_store admin i w1) as Hc.
    destruct (load admin (i, w1)) as [y [i' w2]]. intros [= <- <-]. split.
    + intros t Ht. destruct y as [[hd pub] | e]; [| done]. injection Ht as <-.
      destruct Ho as (_ & _ & -> & (r & Hr & Hk & Hp) & _). exists r, (h_keys hd). by rewrite <- Hp.
    + intros r Hp. split; [| done]. destruct Hc as [-> | (z & Hi)]; [by rewrite Hs |].
      rewrite Hs in Hi. by eapply life_pledged; [eapply life_open |].
Qed.

(** The store of a provider stays the store it was given. *)
Lemma on_store_same {A} (m : FileStore → Flags → M F IdentityError A) (s : Stored F) : sd_store (on_store m s).2 = sd_store s.
Proof. unfold on_store. by destruct (m _ _ _). Qed.
Lemma run_provider_store create limits admin (entropy : E) w s x s' :
  run_provider (F := F) create limits admin entropy w s = (x, s') → sd_store s' = sd_store s.
Proof.
  unfold run_provider, Identity_new. destruct (validate_contract 1) as [u |]; [| by intros [= _ <-]].
  destruct (_ <? _); [by intros [= _ <-] |]. destruct (Authority_new _) as [au h]. destruct (arc_new _ _) as [dom k].
  set (i := mkIdentity _ _ _ _ _). destruct create.
  - pose proof (create_store admin i (mkWorld h k)) as Hc. destruct (Identity.create _ _) as [y [i' w2]].
    intros [= _ <-]. destruct Hc as [[-> _] | (record & z & Hi & _)]; [done |].
    change s with (id_store i). rewrite <- (on_store_same (store_install admin record) (id_store i)).
    cbn in Hi |- *. by rewrite Hi.
  - pose proof (load_store admin i (mkWorld h k)) as Hc. destruct (load _ _) as [y [i' w2]].
    intros [= _ <-]. destruct Hc as [-> | (z & Hi)]; [done |].
    change s with (id_store i). rewrite <- (on_store_same (λ t g, store_read t g admin) (id_store i)).
    cbn in Hi |- *. by rewrite Hi.
Qed.

(** The identity commands never replace an identity.  What they print on
    success is the identity of the record on file; and in a directory where a
    record was acknowledged, whatever the command, its outcome and its
    entropy, the directory keeps promising that record alone, also after a loss
    of power, [identity-init] is refused and [identity-show] prints nothing
    else. *)
Theorem identity_commands_keep path create (entropy : E) h w (f : F) d f1 x f' :
  create = true ∨ is_dir f path = true →
  open_protected_directory path f = (Ok d, f1) →
  execute_identity is_dir path create entropy h w f = (x, f') →
  (∀ t, x = Ok t → ∃ r keys, stored_record (view d f') = Some r ∧ record_decode r = Ok keys ∧
    t = IdentityText.format (pub_id (pub_identity (public_of keys)))) ∧
  ∀ r, pledged r (view d f1) → pledged r (view d f') ∧ (create = true → is_err x = true).
Proof using FL.
  intros Hc Hd. unfold execute_identity.
  assert (negb create && negb (is_dir f path) = false) as -> by (destruct Hc as [-> | ->]; [done | by rewrite andb_false_r]).
  destruct (Limits_new _ _ _ _ _) as [limits |] eqn:El; [| vm_compute in El; discriminate El].
  unfold FileStore_open. unfold mbind, M_bind. rewrite Hd.
  assert (∀ r, pledged r (view d f1) → pledged r (view d (open_at d limits h f1).2)) as Hq.
  { intros r. apply pledged_narrows. apply calm_open_at; [done |].
    by rewrite !not_elem_of_cons; split_and!; [..| apply not_elem_of_nil]. }
  destruct (open_at d limits h f1) as [[[[store admin] h'] | e] f2] eqn:Eo; cbn [snd] in Hq.
  2: { intros [= <- <-]. split; [done |]. intros r Hr. split; [by apply Hq | done]. }
  apply open_store_run in Eo as (Hst & _ & _). subst d.
  destruct (run_provider _ _ _ _ _ _) as [y s'] eqn:Er. intros [= <- <-].
  pose proof (run_provider_store _ _ _ _ _ _ _ _ Er) as Hs.
  apply run_provider_run in Er as [Hp Hk]. unfold stored_view in Hp, Hk. rewrite Hs in Hp, Hk. cbn in Hp, Hk.
  split; [exact Hp |]. intros r Hr. apply Hk. by apply Hq.
Qed.
End permanent.

Module Demo.
#[local] Existing Instances EnvelopeProps.Demo.crates EnvelopeProps.Demo.entropy.
Import IdentityStore.Demo.

Definition world : World := mkWorld Arcs_empty Arcs_empty.
Definition run (create : bool) (seed : N) (f : Disk) : result IdentityCommandError bytes * Disk :=
  execute_identity (λ _ _, true) path create seed Arcs_empty world f.
(** The next process, on the machine with the same files. *)
Definition next (f : Disk) : Disk := mkDisk (restarted newest (k_view f)) 40.
Definition initialised : Disk := next (run true 5 (empty_disk 40)).2.
(** Created once, shown in a later process; neither created again nor shown
    where there is none. *)
Example command_outcomes :
  let r := (run true 5 (empty_disk 40)).1 in
  [ is_empty <$> r; is_empty <$> (run false 9 (empty_disk 40)).1; is_empty <$> (run true 9 initialised).1;
    (λ t, match r with Ok t' => bool_decide (t = t') | Err _ => false end) <$> (run false 9 initialised).1 ]
  = [Ok false; Err (IdentityFailed IdUnavailable); Err (IdentityFailed IdConflict); Ok true].
Proof. vm_compute. reflexivity. Qed.

Definition walked (f : Disk) : option (Fd * Disk) :=
  match open_protected_directory path f with (Ok d, f1) => Some (d, f1) | _ => None end.
Lemma identity_commands_keep_witness : ∃ d f1 x f',
  open_protected_directory path initialised = (Ok d, f1) ∧ run false 9 initialised = (Ok x, f') ∧
  ∃ r keys, stored_record (view d f') = Some r ∧ record_decode r = Ok keys ∧
    x = IdentityText.format (pub_id (pub_identity (public_of keys))).
Proof.
  assert (match walked initialised with Some _ => is_ok (run false 9 initialised).1 | None => false end = true) as H
    by (vm_compute; reflexivity).
  destruct (walked initialised) as [[d f1] |] eqn:Ew; [| discriminate H]. unfold walked in Ew.
  destruct (open_protected_directory path initialised) as [[d' | e] f1'] eqn:Ed; [| discriminate Ew].
  injection Ew as -> ->. destruct (run false 9 initialised) as [[x | e] f'] eqn:Er; [| discriminate H].
  destruct (identity_commands_keep (λ _ _, true) path false 9 Arcs_empty world initialised d f1 (Ok x) f'
    (or_intror eq_refl) Ed Er) as [Hx _].
  exists d, f1, x, f'. split; [reflexivity |]. split; [reflexivity |]. exact (Hx x eq_refl).
Defined.
End Demo.
