(* ===== verification/CliBoard.v ===== *)
(** * Board commands of the command line

    [src/cli/board.rs]: validating a public Board file and inspecting the
    protected snapshot of a store.  The theorems: every publication can be
    inspected by its publisher's identifier, and what an inspection prints is
    the whole board of a complete record on disk, whose file it leaves alone. *)

From S2P Require Import Prelude Bytes Json IdentityText Api Arcs BoardBase Document Offering Schema ServiceDef.
From S2P Require Import Prepared PreparedProps RecordCodec Files BoardStore Publication.

#[local] Open Scope N_scope.

Section commands.
Context {F : Type} `{FS : !Filesystem F} `{SJ : !SerdeJson}.
(** [Path::is_dir], and [std::fs::File::open] of a path. *)
Context (is_dir : F → Path → bool) (file_open : Path → M F Errno Fd).

Abbreviation FM := (M F BoardError) (only parsing).

(** [Metadata::is_file]: the type bits of the mode, [0o170000], are [0o100000]. *)
Definition is_file (m : Stat) : bool := N.land (st_mode m) 61440 =? 32768.

Definition read_file (path : Path) (maximum : N) : FM bytes :=
  file ← io (λ _, BStorage) (file_open path);
  m ← io (λ _, BStorage) (fstat file);
  ensure (negb (negb (is_file m) || (maximum <? st_size m))) BLimit;;
  bytes ← io (λ _, BStorage) (read_to_end (maximum + 1) file);
  ensure (negb (maximum <? len bytes)) BLimit;;
  mret bytes.

(** The number of offerings the message states. *)
Definition validate (path : Path) : FM N :=
  let l := Limits_default in
  bytes ← read_file path (lim_document_bytes l);
  board ← lift (Board_parse bytes l);
  mret (N.of_nat (size (board_offerings board))).

(** The loop over the offerings, in key order. *)
Fixpoint check_definitions (definitions : gmap bytes bytes) (l : Limits) (offerings : list (bytes * Offering))
    : result BoardError unit :=
  match offerings with
  | [] => Ok tt
  | (id, o) :: offerings =>
    raw ← ok_or (definitions !! id) BMissing;
    _ ← Definition_parse raw o l;
    check_definitions definitions l offerings
  end.
(** What [show] makes of the record it loaded. *)
Definition inspect (record : PublicationRecord) (publisher : IdentityId) (l : Limits) : result BoardError bytes :=
  if negb (bool_decide (rec_publisher record = publisher)) then Err BDenied else
  board ← Board_parse (rec_board record) l;
  if negb (size (rec_definitions record) =? size (board_offerings board))%nat then Err BInvalid else
  _ ← check_definitions (rec_definitions record) l (Json.entries (board_offerings board));
  if negb (from_utf8 (rec_board record)) then Err BInvalid else Ok (rec_board record ++ [x0a]).
Definition show (path : Path) (publisher : IdentityId) : FM bytes := λ f,
  if negb (is_dir f path) then (Err BMissing, f) else
  let l := Limits_default in
  (store ← FileStore_open path l;
   loaded ← FileStore_load store;
   record ← lift (ok_or loaded BMissing);
   lift (inspect record publisher l)) f.
End commands.

(** ** A publication can be inspected *)

Section props.
Context `{SJ : !SerdeJson}.

Lemma check_definitions_ok definitions l os u : check_definitions definitions l os = Ok u ↔
  ∀ id o, (id, o) ∈ os → ∃ raw d, definitions !! id = Some raw ∧ Definition_parse raw o l = Ok d.
Proof.
  destruct u. induction os as [| [id o] os IH]; cbn [check_definitions]; [set_solver |]. split.
  - intros (raw & Hr%ok_or_Ok & (d & Hd & H)%result_bind_Ok_inv)%result_bind_Ok_inv i p.
    intros [[= -> ->] | Hin]%elem_of_cons; [by exists raw, d | by apply IH].
  - intros H. destruct (H id o) as (raw & d & -> & Hd); [by left |]. cbn. rewrite Hd. cbn. apply IH.
    intros i p Hin. apply H. by right.
Qed.

Lemma Board_parse_utf8 raw l b : Board_parse raw l = Ok b → from_utf8 raw = true.
Proof.
  unfold Board_parse. intros (doc & H & _)%result_bind_Ok_inv. unfold Document_parse, Document_parse_with in H.
  apply result_bind_Ok_inv in H as (u & _ & H). destruct (_ <? _); [done |]. by destruct (from_utf8 raw).
Qed.

(** An inspection prints the board, whole, exactly when the record is the
    expected publisher's and complete: a board that parses with one parsing
    definition for each of its offerings and no more. *)
Record presentable (publisher : IdentityId) (l : Limits) (r : PublicationRecord) : Prop := {
  ps_publisher : rec_publisher r = publisher;
  ps_complete : ∃ board, Board_parse (rec_board r) l = Ok board ∧
    size (rec_definitions r) = size (board_offerings board) ∧
    ∀ id o, board_offerings board !! id = Some o →
      ∃ raw d, rec_definitions r !! id = Some raw ∧ Definition_parse raw o l = Ok d;
}.
Lemma inspect_ok r publisher l t : inspect r publisher l = Ok t ↔
  presentable publisher l r ∧ t = rec_board r ++ [x0a].
Proof.
  unfold inspect. split.
  - case_bool_decide as Hp; cbn [negb]; [| done]. intros (board & Hb & H)%result_bind_Ok_inv.
    destruct (Nat.eqb_spec (size (rec_definitions r)) (size (board_offerings board))) as [Hs |]; cbn [negb] in H; [| done].
    apply result_bind_Ok_inv in H as (u & Hc & H). destruct (negb (from_utf8 _)); [done |]. injection H as <-.
    split; [| done]. split; [done |]. exists board. split_and!; [done | done |]. intros id o Ho.
    by apply (proj1 (check_definitions_ok _ _ _ _) Hc), entries_elem.
  - intros [[Hp (board & Hb & Hs & Hd)] ->]. rewrite bool_decide_eq_true_2 by done. cbn [negb]. rewrite Hb. cbn.
    rewrite Hs, Nat.eqb_refl. cbn.
    rewrite (proj2 (check_definitions_ok _ _ _ tt)) by (intros id o Ho%entries_elem; by apply Hd). cbn.
    by rewrite (Board_parse_utf8 _ _ _ Hb).
Qed.
Lemma candidate_presentable publisher board definitions l p :
  prepare_candidate publisher board definitions l = Ok p → presentable publisher l (Record_from_prepared p).
Proof.
  intros H. pose proof (prepare_candidate_ok _ _ _ _ _ H) as Hc. rewrite (record_of_candidate _ _ _ _ _ Hc).
  split; [done |]. cbn. unfold prepare_candidate in H. apply result_bind_Ok_inv in H as (u & _ & H).
  destruct (_ <? _); [done |]. apply result_bind_Ok_inv in H as (total & _ & H). destruct (_ <? _); [done |].
  apply result_bind_Ok_inv in H as (b & Hb & H). apply result_bind_Ok_inv in H as (r & _ & H).
  destruct (negb _) eqn:En; [done |]. apply negb_false_iff, Nat.eqb_eq in En.
  apply result_bind_Ok_inv in H as (validated & _ & [= <-]). exists b. split_and!; [done | done |].
  intros id o Ho. destruct (cand_defined _ _ _ _ _ Hc id o Ho) as (raw & d & Hraw & _ & Hd). exists raw, d. by destruct Hd.
Qed.
End props.

(** The content of a name is one of its versions. *)
Lemma content_image v n b : content v n = Some b → image v n (Some b).
Proof.
  intros H. unfold content in H. apply bind_Some in H as (i & Hi & Hb). exists (Some i).
  split; [by apply current_elem |]. exists b. by split.
Qed.

Section shown.
Context {F : Type} `{FS : !Filesystem F} `{FL : !FilesystemLaws F} `{SJ : !SerdeJson}.
Context (is_dir : F → Path → bool).

(** Board inspection is sound and complete.  What [board-show] prints is, with
    a newline, the board of a record that is on disk in the directory, of the
    expected publisher, complete and parsing as a whole; and the calls bring no
    other version of the record's file back.  And if the only version on disk
    is the record of a publication as it was prepared, then a store that
    can be opened and read prints exactly that board. *)
Theorem inspection_exact path publisher (f : F) d f1 x f' :
  is_dir f path = true → directory path f = (Ok d, f1) →
  show is_dir path publisher f = (x, f') →
  (∀ t, x = Ok t → ∃ b r, image (view d f1) BOARD_BIN (Some b) ∧ decode b Limits_default = Ok r ∧
    presentable publisher Limits_default r ∧ t = rec_board r ++ [x0a] ∧
    narrows BOARD_BIN (view d f1) (view d f')) ∧
  ∀ board definitions p b,
    prepare_candidate publisher board definitions Limits_default = Ok p →
    decode b Limits_default = Ok (Record_from_prepared p) →
    (∀ c, image (view d f1) BOARD_BIN c → c = Some b) →
    ∀ s f2 r f3, open_at d Limits_default f1 = (Ok s, f2) → FileStore_load s f2 = (Ok r, f3) →
    x = Ok (board ++ [x0a]).
Proof using FL.
  intros Hi Hd. unfold show. rewrite Hi. cbn [negb]. unfold FileStore_open. 
  rewrite (proj2 (Limits_validate_ok _)) by (apply Limits_validate_ok; reflexivity).
  unfold mbind, M_bind, lift. rewrite Hd.
  destruct (open_at d Limits_default f1) as [[s | e] f2] eqn:Eo.
  2: { intros [= <- <-]. by split. }
  apply open_at_run in Eo as [Hs Hn].
  assert (fs_directory s = d ∧ fs_limits s = Limits_default) as [Hsd Hsl] by by rewrite Hs.
  destruct (FileStore_load s f2) as [[loaded | e] f3] eqn:El.
  2: { intros [= <- <-]. split; [done |]. intros ? ? ? ? _ _ _ ? ? ? ? [= <- <-] E. congruence. }
  apply load_run in El as Hl. rewrite Hsd, Hsl in Hl. destruct loaded as [r |]; cbn [ok_or].
  - destruct Hl as (fd & i & b & Hb & Hr & Hv). intros [= <- <-]. apply content_image in Hb.
    apply (nw_image _ _ _ Hn) in Hb. split.
    + intros t [Hp ->]%inspect_ok. exists b, r. split_and!; [done | done | done | done |]. rewrite Hv.
      etrans; [exact Hn |]. etrans; [apply narrows_set_file | apply narrows_settle].
    + intros board definitions p b' Hc Hr' Hone s' f2' r' f3' [= <- <-] E. apply Hone in Hb as [= ->].
      rewrite Hr in Hr'. injection Hr' as ->. apply inspect_ok. split; [by eapply candidate_presentable |].
      apply prepare_candidate_ok, record_of_candidate in Hc as ->. done.
  - destruct Hl as [Hc _]. intros [= <- <-]. split; [done |]. intros ? ? ? b' _ _ Hone ? ? ? ? _ _. exfalso.
    assert (image (view d f2) BOARD_BIN None) as Him; [| by apply (nw_image _ _ _ Hn), Hone in Him].
    exists None. split; [| done]. rewrite <- Hc. by left.
Qed.
End shown.

Module Demo.
#[local] Existing Instance demo_json.
Import BoardStore.Demo.

(** The machine after a publication, started again. *)
Definition published_disk : Disk :=
  match published 20 with
  | Some (_, _, _, _, (p, _)) => mkDisk (restarted newest (k_view (pv_storage p).1)) 40
  | None => empty_disk 0
  end.
Definition run (publisher : IdentityId) (f : Disk) : result BoardError bytes * Disk :=
  show (λ _ _, true) path publisher f.
(** Its publisher is shown the board, another is refused, and where nothing was
    published there is nothing. *)
Example inspections :
  [(run demo_publisher published_disk).1; (run [] published_disk).1; (run demo_publisher (empty_disk 40)).1]
  = [Ok (print demo_board ++ [x0a]); Err BDenied; Err BMissing].
Proof. vm_compute. reflexivity. Qed.

Lemma inspection_exact_witness : ∃ d f1 t f',
  directory path published_disk = (Ok d, f1) ∧ run demo_publisher published_disk = (Ok t, f') ∧
  ∃ b r, image (view d f1) BOARD_BIN (Some b) ∧ decode b Limits_default = Ok r ∧
    presentable demo_publisher Limits_default r ∧ t = rec_board r ++ [x0a] ∧
    narrows BOARD_BIN (view d f1) (view d f').
Proof.
  assert (is_ok (directory path published_disk).1 && is_ok (run demo_publisher published_disk).1 = true) as H
    by (vm_compute; reflexivity).
  destruct (directory path published_disk) as [[d | e] f1] eqn:Ed; [| discriminate H].
  destruct (run demo_publisher published_disk) as [[t | e] f'] eqn:Er; [| discriminate H].
  exists d, f1, t, f'. split; [reflexivity |]. split; [reflexivity |].
  unfold run in Er. revert Ed Er. generalize published_disk. intros f Ed Er.
  destruct (inspection_exact (λ _ _, true) path demo_publisher f d f1 (Ok t) f' eq_refl Ed Er) as [Hx _].
  exact (Hx t eq_refl).
Defined.
End Demo.
