(* ===== verification/Main.v ===== *)
(** * The process

    [src/main.rs], [src/cli/{mod,serve}.rs], [src/composition/logging.rs] and the
    construction of the driver in [src/composition/server/transport.rs]: from the
    arguments of the process to its exit status, what it prints and what it leaves
    in the file system.  The theorems: refused arguments exit with status 2 before
    any effect, and what a process prints on its standard output is true. *)

From S2P Require Import Prelude Bytes Header Json Api Arcs BoardBase Document Offering Prepared PreparedProps RecordCodec BoardStore CliBoard.
From S2P Require Import IdentityText AddressText Resources Framing Ports.
From S2P Require Import Crypto Envelope Keys Authority Identity IdentityProps Files IdentityStore Contact Contacts Adapters.
From S2P Require Import Session Connection Driver ServerConfig Server DriverProps ServerRun ServerProps ServerRunProps Help Cli CliRun.

#[local] Open Scope N_scope.

(** ** Logging: [logging.rs] *)

Inductive LoggingError : Type := NotUnicode | InvalidFilter | SubscriberInstalled.

(** The variable [RUST_LOG] as the environment has it; [installed] tells whether
    a global subscriber is already there. *)
Definition logging_initialize (parse_filter : bytes → bool) (installed : bool) (rust_log : option bytes)
    : result LoggingError unit :=
  input ← match rust_log with
          | Some value => if from_utf8 value then Ok value else Err NotUnicode
          | None => Ok (lit "info")
          end;
  if negb (parse_filter input) then Err InvalidFilter
  else if installed then Err SubscriberInstalled else Ok tt.

(** ** What is printed *)

Definition display_role (r : ConnectionRole) : bytes :=
  match r with Initiator => lit "Initiator" | Acceptor => lit "Acceptor" end.
(** The lines of [serve.rs]. *)
Definition ready_line (r : Ready_) : bytes :=
  lit "ready " ++ IdentityText.format (rd_local_id r) ++ lit " " ++ display_socket_addr (rd_address r) ++ newline.
Definition status_line (s : Status) : bytes :=
  match s with
  | StatReady ready => ready_line ready
  | StatAuthenticated context =>
    lit "authenticated " ++ IdentityText.format (pc_peer_identity context) ++ lit " " ++ display_role (pc_role context) ++ newline
  | StatContactFailed => lit "contact-failed" ++ newline
  | StatConnectionClosed => lit "connection-closed" ++ newline
  | StatStopped => lit "stopped" ++ newline
  end.
(** The text [validate] returns. *)
Definition validation_text (offerings : N) : bytes :=
  lit "Board format valid: " ++ display_number 10 offerings ++
  lit " offerings; definitions not checked; local publishability not established." ++ newline.
Definition version_line : bytes := lit "talksphere " ++ PKG_VERSION ++ newline.

(** What announces a server can be read back: between single spaces, the
    identity and the address in their own texts. *)
Theorem ready_line_exact r : length (rd_local_id r) = 32%nat → addr_wf (rd_address r) →
  ∃ id_text addr_text,
    ready_line r = lit "ready " ++ id_text ++ x20 :: addr_text ++ newline ∧ (x20 ∉ id_text) ∧
    IdentityText.parse id_text = Ok (rd_local_id r) ∧ parse_socket_addr addr_text = Some (rd_address r).
Proof.
  intros Hl Ha. exists (IdentityText.format (rd_local_id r)), (display_socket_addr (rd_address r)). split_and!.
  - done.
  - destruct (format_spec _ Hl) as (vs & -> & Hvs & _).
    intros [Hin | (v & E & Hv)%list_elem_of_fmap]%elem_of_app; [by vm_compute in Hin; repeat apply elem_of_cons in Hin as [[=] | Hin]; apply not_elem_of_nil in Hin |].
    rewrite Forall_forall in Hvs. specialize (Hvs v Hv). apply alphabet_value in Hvs. by rewrite <- E in Hvs.
  - by apply parse_format_id.
  - by apply parse_display_socket_addr.
Qed.

(** ** What the help says of the options *)

Fixpoint occurs (s t : bytes) : bool :=
  bool_decide (take (length s) t = s) || match t with [] => false | _ :: t => occurs s t end.
Lemma occurs_shown s t : occurs s t = true → shown_in s t.
Proof.
  induction t as [| b t IH]; cbn [occurs]; intros [H%bool_decide_eq_true | H]%orb_true_iff.
  - exists [], (drop (length s) []). cbn [app]. rewrite <- H at 1. by rewrite take_drop.
  - done.
  - exists [], (drop (length s) (b :: t)). cbn [app]. rewrite <- H at 1. by rewrite take_drop.
  - destruct (IH H) as (x & y & ->). by exists (b :: x), y.
Qed.

(** Every default and bound that the help states is the one in force. *)
Theorem documented_defaults :
  Forall (λ p, shown_in (p.1 ++ display_number 10 p.2) server_details)
    [(lit "--max-connections COUNT defaults to ", sa_connections default_args);
     (lit "--max-streams COUNT defaults to ", sa_streams default_args);
     (lit "--outbound-bytes BYTES defaults to ", sa_outbound default_args);
     (lit "--buffered-bytes BYTES defaults to ", sa_buffered default_args);
     (lit "--handshake-ms MILLISECONDS defaults to ", sa_handshake_ms default_args);
     (lit "--shutdown-ms MILLISECONDS defaults to ", sa_shutdown_ms default_args)] ∧
  shown_in (lit "--listen IP:PORT defaults to " ++ display_socket_addr (sa_listen default_args) ++ lit ";") server_details ∧
  shown_in (lit "bounded to " ++ display_number 10 (lim_document_bytes Limits_default) ++ lit " bytes and depth " ++
    display_number 10 (lim_depth Limits_default)) board_details.
Proof. repeat constructor; apply occurs_shown; vm_compute; reflexivity. Qed.

(** ** Exit statuses *)

Definition SUCCESS : N := 0.
Definition FAILURE : N := 1.
Definition USAGE : N := 2.

Inductive ServeError : Type :=
| ServeConfig (e : UsageError) | ServeStartup (e : ServerFailure) | ServeRuntime (e : ServerFailure).

(** What goes to the standard error, if the filter lets it through. *)
Inductive Diagnostic : Type :=
| DiagArguments | DiagUsage (e : UsageError) | DiagLogging (e : LoggingError)
| DiagBoard (e : BoardError) | DiagIdentity (e : IdentityCommandError) | DiagServer (e : ServeError).

(** ** The signal thread: [Signals] of [shutdown.rs] *)

(** The signals it registers; other signals keep their default action. *)
Inductive OsSignal : Type := SIGINT | SIGTERM.
(** What reaches the shared signal from other threads: a signal the thread
    forwards, or a waker. *)
Inductive Arrival : Type := ArriveSignal (s : OsSignal) | ArriveWake.
Definition Signals_forward (a : Arrival) : SignalCall :=
  match a with ArriveSignal _ => CallShutdown | ArriveWake => CallNotify end.
(** A round of the server with what arrives around it. *)
Record Arrivals : Type := mkArrivals {
  ar_before : list Arrival;
  ar_begin : Instant;
  ar_during : list Arrival;
  ar_now : Instant;
  ar_waiting : list Arrival;
}.
Definition round_of (a : Arrivals) : Round :=
  mkRound (Signals_forward <$> ar_before a) (ar_begin a) (Signals_forward <$> ar_during a) (ar_now a)
    (Signals_forward <$> ar_waiting a).

(** A server without application protocols has no consumers. *)
#[global] Instance no_consumer : Consumer Empty_set := λ _ k, match k with end.

Section process.
Context {F : Type} `{FS : !Filesystem F} `{CR : !Crates} `{SJ : !SerdeJson} {E : Type} `{EN : !Entropy E}.
Context {Sk : Type} `{!Socket Sk} {P At Li T : Type}.
Context `{!SocketProvider P At Li, !Connecting At Sk, !Listener Li Sk, !Clock T}.
(** [Path::is_dir], [std::fs::File::open] and the filters [tracing] reads. *)
Context (is_dir : F → Path → bool) (file_open : Path → M F Errno Fd) (parse_filter : bytes → bool).

(** What a process meets: its environment, the clock when it is read, the
    entropy of its two providers, the outcome of creating the readiness worker,
    its clock and the signal thread, and the rounds of a running server. *)
Record Surroundings : Type := mkSurroundings {
  sr_rust_log : option bytes;
  sr_subscriber : bool;
  sr_parsed : Instant;
  sr_configured : Instant;
  sr_loaded : Instant;
  sr_entropy : E;
  sr_nonces : E;
  sr_tcp : result ErrorKind P;
  sr_clock : result ErrorKind T;
  sr_signals : result ErrorKind unit;
  sr_rounds : list Arrivals;
}.

(** ** The server *)

Abbreviation Adapter := (TransportIdentity (S := Stored F) (E := E) * Identity.World)%type.
Abbreviation RealIdentity := {i : Adapter | valid_handle (ti_handle i.1)}.
Abbreviation RealDriver := (Driver (Sk := Sk) (C := CryptoProvider E) (I := RealIdentity) (P := P) (At := At) (Li := Li) (T := T)).
(** The driver with the log of the requests made of it, which nothing reads. *)
Abbreviation Control := (RealDriver * Connection.World Sk * list (Request Sk))%type.

Definition fresh_world : Identity.World := Identity.mkWorld Arcs_empty Arcs_empty.

Lemma load_valid admin (p : Identity (Stored F) E * Identity.World) x p' :
  load admin p = (Ok x, p') → valid_handle x.1.
Proof.
  unfold load. intros H. apply bind_Ok_inv in H as (u & p1 & _ & H). apply bind_Ok_inv in H as (record & p2 & _ & H).
  apply bind_Ok_inv in H as (keys & p3 & [Hk ->]%lift_Ok_inv & H). destruct p2 as [i w].
  rewrite handle_run in H. injection H as <- _. split; [done |]. by eapply record_decode_wf.
Qed.
Lemma load_credentials_valid config stored now entropy h w f c w' f' :
  load_credentials (E := E) is_dir config stored now entropy h w f = (Ok (c, w'), f') →
  valid_handle (ti_handle (cr_identity c)).
Proof.
  unfold load_credentials. destruct (negb _); [done |]. destruct (Limits_new _ _ _ _ _) as [limits |]; [| done].
  destruct (IdentityStore.FileStore_open _ _ _ f) as [[[[store admin] h1] | e] f1]; [| done].
  destruct (startup_contacts _ _ _ _ _ _ f1) as [[cs | e] f2]; [| done]. unfold load_identity.
  destruct (Identity_new _ _ _ _ w) as [[provider | e] w1]; [| done].
  destruct (load admin (provider, w1)) as [x [i w2]] eqn:El.
  intros [= H _]. apply result_bind_Ok_inv in H as ([handle public] & ->%map_err_Ok & H). apply load_valid in El.
  apply result_bind_Ok_inv in H as (read & _ & H). apply result_bind_Ok_inv in H as (sign & _ & H).
  apply result_bind_Ok_inv in H as (identity & Ht%map_err_Ok & [= <- _]).
  unfold TransportIdentity_new in Ht. by apply result_bind_Ok_inv in Ht as (p & _ & [= <-]).
Qed.

(** The credentials as the adapter of the transport's identity port. *)
Definition load_real (config : Config) (stored : bool) (o : Surroundings)
    : M F ServerFailure (RealIdentity * IdentityId * list Contact) := λ f,
  match load_credentials is_dir config stored (sr_loaded o) (sr_entropy o) Arcs_empty fresh_world f as x
    return load_credentials is_dir config stored (sr_loaded o) (sr_entropy o) Arcs_empty fresh_world f = x → _ with
  | (Ok (c, w), f) => λ H,
    (Ok (exist _ (cr_identity c, w) (load_credentials_valid _ _ _ _ _ _ _ _ _ _ H), cr_local_id c, cr_contacts c), f)
  | (Err e, f) => λ _, (Err e, f)
  end eq_refl.

Definition as_runtime {X A} (r : result X A) : result ServerFailure A := map_err (λ _, SfRuntime) r.
(** [transport::compose]. *)
Definition compose_real (o : Surroundings) (config : Config) (credentials : RealIdentity * IdentityId * list Contact)
    : result ServerFailure (Transport Control) :=
  let '(adapter, local_id, contacts) := credentials in
  sockets ← as_runtime (sr_tcp o);
  clock ← as_runtime (sr_clock o);
  crypto ← as_runtime (CryptoProvider_new (sr_nonces o) 65548);
  let '(driver, store) := Driver_new (opt_transport (options config)) sockets clock adapter crypto Store_empty in
  Ok (compose config local_id contacts (driver, Connection.mkWorld store [] 0, [])).

(** [serve::execute]: its answer, unless the given rounds leave it running, the
    statuses reported so far and the files. *)
Definition execute_server (o : Surroundings) (args : ServerArgs) (f : F)
    : option (result ServeError unit) * list Status * F :=
  match args_config (sr_configured o) args with
  | Err e => (Some (Err (ServeConfig e)), [], f)
  | Ok config =>
    match load_real config (sa_stored_contacts args) o f with
    | (Err e, f) => (Some (Err (ServeStartup e)), [], f)
    | (Ok credentials, f) =>
      match compose_real o config credentials, as_runtime (sr_signals o) with
      | Err e, _ | Ok _, Err e => (Some (Err (ServeStartup e)), [], f)
      | Ok node, Ok _ =>
        let '(x, s) := run_server (K := Empty_set) (round_of <$> sr_rounds o) (mkServer node [] Signal_default []) in
        (map_err ServeRuntime <$> x, sv_reports s, f)
      end
    end
  end.

(** ** The process: [cli::run] *)

(** What it comes to: the exit status, unless it still runs, the standard output,
    the diagnostics and the files. *)
Record Outcome : Type := mkOutcome {
  oc_status : option N;
  oc_stdout : bytes;
  oc_stderr : list Diagnostic;
  oc_files : F;
}.

(** The words, if every argument is UTF-8. *)
Fixpoint utf8_words (arguments : list bytes) : option (list bytes) :=
  match arguments with
  | [] => Some []
  | argument :: arguments => if from_utf8 argument then cons argument <$> utf8_words arguments else None
  end.
Definition command_of (now : Instant) (arguments : list bytes) : result Diagnostic Command :=
  match utf8_words arguments with
  | Some arguments => map_err DiagUsage (parse_command now arguments)
  | None => Err DiagArguments
  end.
(** The commands that log. *)
Definition operational (c : Command) : bool :=
  match c with CmdServe _ | CmdIdentity _ _ | CmdBoard _ _ => true | CmdHelp _ | CmdVersion => false end.

Definition finish {X} (diagnostic : X → Diagnostic) (x : result X bytes * F) : Outcome :=
  match x with
  | (Ok output, f) => mkOutcome (Some SUCCESS) output [] f
  | (Err e, f) => mkOutcome (Some FAILURE) [] [diagnostic e] f
  end.
Definition execute (o : Surroundings) (c : Command) (f : F) : Outcome :=
  match c with
  | CmdHelp topic => mkOutcome (Some SUCCESS) (render topic) [] f
  | CmdVersion => mkOutcome (Some SUCCESS) version_line [] f
  | CmdBoard path (Some publisher) => finish DiagBoard (show is_dir path publisher f)
  | CmdBoard path None => finish DiagBoard (let '(r, f) := validate file_open path f in (validation_text <$> r, f))
  | CmdIdentity path create =>
    finish DiagIdentity
      (let '(r, f) := execute_identity is_dir path create (sr_entropy o) Arcs_empty fresh_world f in
       ((λ public, public ++ newline) <$> r, f))
  | CmdServe args =>
    let '(x, reports, f) := execute_server o args f in
    mkOutcome ((λ r, if is_ok r then SUCCESS else FAILURE) <$> x) (concat (map status_line reports))
      match x with Some (Err e) => [DiagServer e] | _ => [] end f
  end.
Definition run (o : Surroundings) (arguments : list bytes) (f : F) : Outcome :=
  let command := command_of (sr_parsed o) arguments in
  let logging := if match command with Ok c => operational c | Err _ => false end
                 then logging_initialize parse_filter (sr_subscriber o) (sr_rust_log o) else Ok tt in
  match command, logging with
  | Err e, _ => mkOutcome (Some USAGE) [] [e] f
  | Ok _, Err e => mkOutcome (Some FAILURE) [] [DiagLogging e] f
  | Ok c, Ok _ => execute o c f
  end.
End process.

(** ** What a process prints is true *)

(** Output and files that answer a command. *)
Section justified.
Context {F : Type} `{FS : !Filesystem F} `{FL : !FilesystemLaws F} `{CR : !Crates} `{SJ : !SerdeJson}.
Context (file_open : Path → M F Errno Fd).

(** The directory of a path keeps, in the files [f'], the record of an identity. *)
Definition keeps_identity (path : Path) (f f' : F) (id : IdentityId) : Prop :=
  ∃ d f1 r keys, open_protected_directory path f = (Ok d, f1) ∧ stored_record (view d f') = Some r ∧
    record_decode r = Ok keys ∧ id = pub_id (pub_identity (public_of keys)).
(** The directory of a path has, in the files [f], a complete record of a
    publisher on disk. *)
Definition has_publication (path : Path) (f : F) (publisher : IdentityId) (board : bytes) : Prop :=
  ∃ d f1 b r, directory path f = (Ok d, f1) ∧ image (view d f1) BOARD_BIN (Some b) ∧
    decode b Limits_default = Ok r ∧ presentable publisher Limits_default r ∧ board = rec_board r.

Definition justified (c : Command) (f : F) (o : Outcome (F := F)) : Prop :=
  let '(mkOutcome status out _ f') := o in
  match c with
  | CmdHelp topic => status = Some SUCCESS ∧ out = render topic ∧ f' = f
  | CmdVersion => status = Some SUCCESS ∧ out = version_line ∧ f' = f
  | CmdIdentity path create =>
    status = Some FAILURE ∧ out = [] ∨
    status = Some SUCCESS ∧ ∃ id, keeps_identity path f f' id ∧ out = IdentityText.format id ++ newline
  | CmdBoard path None =>
    status = Some FAILURE ∧ out = [] ∨
    status = Some SUCCESS ∧ ∃ raw board, (read_file file_open path (lim_document_bytes Limits_default) f).1 = Ok raw ∧
      Board_parse raw Limits_default = Ok board ∧ out = validation_text (N.of_nat (size (board_offerings board)))
  | CmdBoard path (Some publisher) =>
    status = Some FAILURE ∧ out = [] ∨
    status = Some SUCCESS ∧ ∃ board, has_publication path f publisher board ∧ out = board ++ newline
  | CmdServe args => ∃ reports,
    out = concat (map status_line reports) ∧
    (∀ ready, StatReady ready ∈ reports → keeps_identity (sa_store args) f f' (rd_local_id ready)) ∧
    match status with
    | Some c => c = SUCCESS ∧ (∃ ready l, reports = StatReady ready :: l ++ [StatStopped] ∧ ordinary l) ∨
        c = FAILURE ∧ (StatStopped ∉ reports)
    | None => True
    end
  end.
End justified.

Section truth.
Context {F : Type} `{FS : !Filesystem F} `{FL : !FilesystemLaws F} `{CR : !Crates} `{SJ : !SerdeJson} {E : Type} `{EN : !Entropy E}.
Context {Sk : Type} `{!Socket Sk} {P At Li T : Type}.
Context `{!SocketProvider P At Li, !Connecting At Sk, !Listener Li Sk, !Clock T}.
Context (is_dir : F → Path → bool) (file_open : Path → M F Errno Fd) (parse_filter : bytes → bool).

Abbreviation Surroundings := (Surroundings (E := E) (P := P) (T := T)).

Lemma load_credentials_store config stored now (entropy : E) h w (f : F) c w' f' :
  load_credentials is_dir config stored now entropy h w f = (Ok (c, w'), f') →
  ∃ f1, open_protected_directory (identity_store (options config)) f =
    (Ok (st_directory (sd_store (id_store (ti_provider (cr_identity c))))), f1).
Proof using FL.
  unfold load_credentials. destruct (negb _); [done |]. destruct (Limits_new _ _ _ _ _) as [limits |]; [| done].
  unfold IdentityStore.FileStore_open, mbind, M_bind.
  destruct (open_protected_directory _ f) as [[d | e] f1]; [| done].
  destruct (open_at d limits h f1) as [[[[store admin] h1] | e] f2] eqn:Eo; [| done].
  apply open_store_run in Eo as (Hd & _).
  destruct (startup_contacts _ _ _ _ _ _ f2) as [[cs | e] f3]; [| done]. unfold load_identity, Identity_new.
  destruct (validate_contract 1) as [u |]; [| done]. destruct (_ <? _); [done |].
  destruct (Authority_new _) as [au h2]. destruct (arc_new _ _) as [dom k].
  set (i := mkIdentity _ _ _ _ _). pose proof (load_store admin i (Identity.mkWorld h2 k)) as Hs.
  destruct (load admin _) as [x [i' w2]]. intros [= H _].
  apply result_bind_Ok_inv in H as ([handle public] & _ & H).
  apply result_bind_Ok_inv in H as (read & _ & H). apply result_bind_Ok_inv in H as (sign & _ & H).
  apply result_bind_Ok_inv in H as (identity & Ht%map_err_Ok & [= <- _]).
  unfold TransportIdentity_new in Ht. apply result_bind_Ok_inv in Ht as (p & _ & [= <-]). cbn. exists f1.
  assert (sd_store (id_store i') = store) as ->; [| by rewrite Hd].
  destruct Hs as [-> | (z & Hz)]; [done |].
  pose proof (on_store_same (λ t g, store_read t g admin) (id_store i)) as Hk. cbn in Hz, Hk. by rewrite Hz in Hk.
Qed.

Lemma args_config_startable now a config : args_config now a = Ok config →
  startable (maximum_contacts (options config)) (opt_contacts (options config)) ∧
  identity_store (options config) = sa_store a ∧
  shutdown_timeout (options config) = from_millis (sa_shutdown_ms a).
Proof.
  unfold args_config. intros H. apply result_bind_Ok_inv in H as (o & Ho%map_err_Ok & H).
  apply result_bind_Ok_inv in H as (t & _ & H%map_err_Ok).
  split; [eapply usable_startable; by apply config_exact in H as H'; destruct H' as [_ ->] |].
  apply config_exact in H as [_ ->]. split; [| done]. cbn. unfold ServerOptions_local in Ho.
  by apply result_bind_Ok_inv in Ho as (x & _ & [= <-]).
Qed.

Lemma load_real_ok config stored (o : Surroundings) (f : F) adapter id cs f' :
  startable (maximum_contacts (options config)) (opt_contacts (options config)) →
  load_real is_dir config stored o f = (Ok (adapter, id, cs), f') →
  keeps_identity (identity_store (options config)) f f' id.
Proof using FL.
  intros Hs. unfold load_real. generalize (load_credentials_valid is_dir config stored (sr_loaded o) (sr_entropy o) Arcs_empty fresh_world f).
  destruct (load_credentials _ _ _ _ _ _ _ f) as [[[c w] | e] f2] eqn:El; [| done].
  intros Hv [= _ <- _ <-]. destruct (load_credentials_store _ _ _ _ _ _ _ _ _ _ El) as [f1 Hd].
  apply load_credentials_ok in El as ((r & Hr & Hk & Hp) & Hid & _ & _ & _ & _ & ->); [| done].
  exists (st_directory (sd_store (id_store (ti_provider (cr_identity c))))), f1, r, (h_keys (ti_handle (cr_identity c))).
  split_and!; [done | exact Hr | done |]. rewrite Hid. unfold handle_id. by rewrite Hp.
Qed.

Lemma execute_server_true (o : Surroundings) args (f : F) x reports f' :
  execute_server (Sk := Sk) (At := At) (Li := Li) is_dir o args f = (x, reports, f') →
  (∀ ready, StatReady ready ∈ reports → keeps_identity (sa_store args) f f' (rd_local_id ready)) ∧
  match x with
  | Some (Ok _) => ∃ ready l, reports = StatReady ready :: l ++ [StatStopped] ∧ ordinary l
  | Some (Err _) => StatStopped ∉ reports
  | None => True
  end.
Proof using FL.
  assert (∀ g, (∀ ready, StatReady ready ∈ @nil Status → keeps_identity (sa_store args) f g (rd_local_id ready)) ∧ StatStopped ∉ @nil Status) as Hnil.
  { intros g. split; [by intros ready ?%not_elem_of_nil | apply not_elem_of_nil]. }
  unfold execute_server. destruct (args_config _ args) as [config |] eqn:Ea; [| intros [= <- <- <-]; apply Hnil].
  apply args_config_startable in Ea as (Hs & Hp & _).
  destruct (load_real is_dir config _ o f) as [[[[adapter id] cs] | e] f1] eqn:El; [| intros [= <- <- <-]; apply Hnil].
  apply load_real_ok in El; [| done]. rewrite Hp in El.
  destruct (compose_real o config (adapter, id, cs)) as [node |] eqn:Ec; [| intros [= <- <- <-]; apply Hnil].
  destruct (as_runtime (sr_signals o)); [| intros [= <- <- <-]; apply Hnil].
  unfold compose_real in Ec. apply result_bind_Ok_inv in Ec as (ps & _ & Ec). apply result_bind_Ok_inv in Ec as (t & _ & Ec).
  apply result_bind_Ok_inv in Ec as (crypto & _ & Ec). destruct (Driver_new _ _ _ _ _ _) as [driver store].
  injection Ec as <-. set (control := (driver, _, [])). set (s0 := mkServer _ [] Signal_default []).
  destruct (run_server _ s0) as [y s'] eqn:Er. intros [= <- <- <-].
  destruct (run_server_run (TC := Driver_control) config id cs control s0 s' (round_of <$> sr_rounds o) y eq_refl eq_refl Er)
    as (_ & Hid & Hy).
  split; [by intros ready ->%Hid |]. destruct y as [[u | e] |]; cbn; [| by destruct Hy | done].
  destruct Hy as (_ & _ & [[[=] _] | [_ H]]). done.
Qed.

(** C14: what a process prints on its standard output is true and its exit status
    says what came of it.  Whatever the arguments, the files, the environment, the
    peers and the failures: words that form no command exit with status 2, print
    nothing and touch no file, as does with status 1 a command whose log cannot be
    set up; help and the version print their text and touch no file; otherwise a
    command that fails prints nothing, an identity that is printed is that of the
    record which the directory keeps when the process ends, a board that is
    printed is that of a complete record of the expected publisher on disk; and of
    a server, the identity of a ready line is the one its directory keeps, and it
    exits with status 0 exactly when it said it was ready first and stopped last. *)
Theorem process_sound (o : Surroundings) arguments (f : F) :
  let r := run (Sk := Sk) (At := At) (Li := Li) is_dir file_open parse_filter o arguments f in
  match command_of (sr_parsed o) arguments with
  | Err _ => oc_status r = Some USAGE ∧ oc_stdout r = [] ∧ oc_files r = f
  | Ok c =>
    (operational c = true ∧ is_err (logging_initialize parse_filter (sr_subscriber o) (sr_rust_log o)) = true ∧
     oc_status r = Some FAILURE ∧ oc_stdout r = [] ∧ oc_files r = f) ∨
    justified file_open c f r
  end.
Proof using FL.
  unfold run. destruct (command_of (sr_parsed o) arguments) as [c | e]; [| done].
  set (logging := if operational c then _ else _).
  assert (is_err logging = true ∧ operational c = true ∨ logging = Ok tt) as [[He Hc] | ->].
  { unfold logging. destruct (operational c); [| by right]. destruct (logging_initialize _ _ _) as [[] | e]; [by right | by left]. }
  { left. unfold logging in He |- *. rewrite Hc in He |- *. cbn in He |- *.
    by destruct (logging_initialize _ _ _) as [[] | e]. }
  right. destruct c as [topic | | args | path [publisher |] | path create]; cbn [execute justified]; try done.
  - destruct (execute_server is_dir o args f) as [[x reports] f'] eqn:Ex. apply execute_server_true in Ex as [H1 H2].
    exists reports. split_and!; [done | done |]. destruct x as [[u | e] |]; cbn; [by left | by right | done].
  - destruct (show is_dir path publisher f) as [x f'] eqn:Ex.
    destruct x as [t | e]; cbn [finish]; [| by left]. right. split; [done |].
    unfold show in Ex. destruct (is_dir f path) eqn:Hi; cbn [negb] in Ex; [| done].
    destruct (directory path f) as [[d | e] f1] eqn:Ed.
    + destruct (inspection_exact is_dir path publisher f d f1 (Ok t) f' Hi Ed) as [H _]; [unfold show; by rewrite Hi |].
      destruct (H t eq_refl) as (b & r & Hb & Hr & Hp & -> & _). exists (rec_board r). split; [| done]. by exists d, f1, b, r.
    + unfold BoardStore.FileStore_open, mbind, M_bind, lift in Ex. destruct (Limits_validate _); [| done].
      by rewrite Ed in Ex.
  - destruct (validate file_open path f) as [[n | e] f'] eqn:Ex; [| by left]. right. split; [done |].
    unfold validate in Ex. apply bind_Ok_inv in Ex as (raw & f1 & Hraw & Ex). apply bind_Ok_inv in Ex as (board & f2 & [Hb ->]%lift_Ok_inv & Ex).
    injection Ex as <- <-. exists raw, board. split_and!; [by rewrite Hraw | done | done].
  - destruct (execute_identity is_dir path create (sr_entropy o) Arcs_empty fresh_world f) as [[t | e] f'] eqn:Ex; [| by left].
    right. split; [done |]. assert (create = true ∨ is_dir f path = true) as Hc.
    { unfold execute_identity in Ex. destruct create; [by left |]. right. cbn in Ex. by destruct (is_dir f path). }
    assert (∃ d f1, open_protected_directory path f = (Ok d, f1)) as (d & f1 & Hd).
    { unfold execute_identity in Ex. destruct (_ && _); [done |]. destruct (Limits_new _ _ _ _ _); [| done].
      unfold IdentityStore.FileStore_open, mbind, M_bind in Ex.
      destruct (open_protected_directory path f) as [[d | e] f1]; [by exists d, f1 | done]. }
    destruct (identity_commands_keep is_dir path create _ _ _ f d f1 (Ok t) f' Hc Hd Ex) as [H _].
    destruct (H t eq_refl) as (r & keys & Hr & Hk & ->). eexists. split; [| done]. by exists d, f1, r, keys.
Qed.

(** C15: a server that is signalled ends.  Whatever its peers and its control do:
    once SIGINT or SIGTERM arrives around one of its rounds, and at least one more
    round has begun, the process has exited no later than the first round whose
    progress check reads the clock past every deadline the shutdown can have. *)
Theorem process_stops (o : Surroundings) arguments args (f : F) a1 a2 a :
  command_of (sr_parsed o) arguments = Ok (CmdServe args) →
  sr_rounds o = a1 ++ a2 ++ [a] → a2 ≠ [] →
  (∃ e s, e ∈ a1 ∧ ArriveSignal s ∈ ar_before e ++ ar_during e) →
  (∀ e, e ∈ a1 ++ a2 → ar_begin e + from_millis (sa_shutdown_ms args) ≤ ar_now a) →
  ∃ c, oc_status (run (Sk := Sk) (At := At) (Li := Li) is_dir file_open parse_filter o arguments f) = Some c ∧
    (c = SUCCESS ∨ c = FAILURE).
Proof.
  intros Hc Hr Hne (e & sg & He & Hs) Hb. unfold run. rewrite Hc.
  destruct (if operational (CmdServe args) then _ else _) as [[] | le]; [| exists FAILURE; by split; [| right]]. cbn [execute].
  assert (∃ x reports f', execute_server (Sk := Sk) (At := At) (Li := Li) is_dir o args f = (Some x, reports, f')) as (x & reports & f' & ->).
  2: { cbn. eexists. split; [done |]. destruct (is_ok x); [by left | by right]. }
  unfold execute_server. destruct (args_config _ args) as [config |] eqn:Ea; [| by eexists _, _, _].
  apply args_config_startable in Ea as (_ & _ & Ht).
  destruct (load_real is_dir config _ o f) as [[[[adapter id] cs] | le] f1]; [| by eexists _, _, _].
  destruct (compose_real o config (adapter, id, cs)) as [node |] eqn:Ec; [| by eexists _, _, _].
  destruct (as_runtime (sr_signals o)); [| by eexists _, _, _].
  unfold compose_real in Ec. apply result_bind_Ok_inv in Ec as (ps & _ & Ec). apply result_bind_Ok_inv in Ec as (t & _ & Ec).
  apply result_bind_Ok_inv in Ec as (crypto & _ & Ec). destruct (Driver_new _ _ _ _ _ _) as [driver store].
  injection Ec as <-. set (control := (driver, _, [])). set (s0 := mkServer _ [] Signal_default []).
  rewrite Hr, !fmap_app.
  destruct (run_server_returns (TC := Driver_control) config id cs control s0 (round_of <$> a1) (round_of <$> a2) (round_of a))
    as (y & s' & Hy).
  - done.
  - exists (round_of e). split; [by apply list_elem_of_fmap_2 |]. cbn. rewrite <- fmap_app.
    by apply (list_elem_of_fmap_2 Signals_forward) in Hs.
  - by destruct a2.
  - intros e1 He1. rewrite <- fmap_app in He1. apply list_elem_of_fmap in He1 as (e2 & -> & He2). rewrite Ht. by apply Hb.
  - cbn [fmap list_fmap] in *. rewrite Hy. by eexists _, _, _.
Qed.
End truth.

Module Demo.
#[local] Existing Instances EnvelopeProps.Demo.crates EnvelopeProps.Demo.entropy demo_json.
Import IdentityStore.Demo.

Definition surroundings (rounds : list Arrivals) : Surroundings (E := N) (P := N) (T := N) :=
  mkSurroundings None false 0 0 0 5 9 (Ok 0) (Ok 100) (Ok tt) rounds.
(** A machine whose only directory is the store. *)
Definition start (rounds : list Arrivals) (words : list bytes) (f : Disk) : Outcome (F := Disk) :=
  run (Sk := Script) (At := Poll (result ErrorKind Script)) (Li := N) (λ _ _, true) (λ _ f, (Err NOENT, f)) (λ _, true)
    (surroundings rounds) words f.
Definition next (f : Disk) : Disk := mkDisk (restarted newest (k_view f)) 40.
Definition store_words (command : bytes) : list bytes := [command; IDENTITY_STORE; lit "./keys"].
Definition initialised : Disk := next (oc_files (start [] (store_words (lit "identity-init")) (empty_disk 40))).
Definition idle (now : Instant) : Arrivals := mkArrivals [] now [] now [].
Definition signalled (now : Instant) : Arrivals := mkArrivals [ArriveSignal SIGTERM] now [] now [].
Definition summary (o : Outcome (F := Disk)) : option N * bytes := (oc_status o, oc_stdout o).
Definition id_text : bytes := take 58 (oc_stdout (start [] (store_words (lit "identity-show")) initialised)).

(** The identity is created once and shown; a server announces it, and says
    that it stopped when it was told to. *)
Example processes :
  map summary [start [] (store_words (lit "identity-show")) initialised;
               start [] (store_words (lit "identity-init")) initialised;
               start [] (store_words SERVE) initialised; start [] [[xff]] initialised]
  = [(Some SUCCESS, id_text ++ newline); (Some FAILURE, []);
     (None, lit "ready " ++ id_text ++ lit " 127.0.0.1:1" ++ newline); (Some USAGE, [])] ∧
  summary (start [signalled 0; idle 1] (store_words SERVE) initialised) =
    (Some SUCCESS, lit "ready " ++ id_text ++ lit " 127.0.0.1:1" ++ newline ++ lit "stopped" ++ newline).
Proof. vm_compute. done. Qed.

Lemma process_sound_witness : ∃ id,
  keeps_identity path initialised (oc_files (start [] (store_words (lit "identity-show")) initialised)) id ∧
  oc_stdout (start [] (store_words (lit "identity-show")) initialised) = IdentityText.format id ++ newline.
Proof.
  assert (oc_status (start [] (store_words (lit "identity-show")) initialised) = Some SUCCESS) as Hs
    by (vm_compute; reflexivity).
  assert (command_of 0 (store_words (lit "identity-show")) = Ok (CmdIdentity path false)) as Hc
    by (vm_compute; reflexivity).
  revert Hs Hc. generalize (store_words (lit "identity-show")), initialised. intros words f Hs Hc.
  pose proof (process_sound (Sk := Script) (At := Poll (result ErrorKind Script)) (Li := N) (λ _ _, true)
    (λ _ f, (Err NOENT, f)) (λ _, true) (surroundings []) words f) as H.
  cbv zeta in H. change (sr_parsed (surroundings [])) with 0%N in H. rewrite Hc in H.
  destruct H as [(_ & _ & Hf & _) | H]; [unfold start in Hs; rewrite Hs in Hf; discriminate Hf |].
  unfold start in *. destruct (run _ _ _ _ _ _) as [status out err f']. cbn [oc_status oc_stdout oc_files] in *.
  destruct H as [[Hf _] | [_ H]]; [rewrite Hs in Hf; discriminate Hf |]. exact H.
Defined.

Lemma process_stops_witness : ∃ c,
  oc_status (start [signalled 0; idle 1; idle 5000000001] (store_words SERVE) initialised) = Some c ∧
  (c = SUCCESS ∨ c = FAILURE).
Proof.
  assert (match command_of 0 (store_words SERVE) with
          | Ok (CmdServe a) => from_millis (sa_shutdown_ms a) + 1 =? 5000000001 | _ => false end = true) as H
    by (vm_compute; reflexivity).
  destruct (command_of 0 (store_words SERVE)) as [[] |] eqn:Hc; try discriminate H. apply N.eqb_eq in H.
  unfold start. apply (process_stops (λ _ _, true) (λ _ f, (Err NOENT, f)) (λ _, true) (surroundings [signalled 0; idle 1; idle 5000000001])
    (store_words SERVE) args initialised [signalled 0] [idle 1] (idle 5000000001)).
  - exact Hc.
  - reflexivity.
  - discriminate.
  - exists (signalled 0), SIGTERM. split; left.
  - intros e [-> | [-> | He]%elem_of_cons]%elem_of_cons; [cbn; lia | cbn; lia | exfalso; by apply not_elem_of_nil in He].
Defined.
End Demo.
