(* ===== verification/Reactor.v ===== *)
(** * The readiness worker

    [src/modules/transport/adapters/reactor.rs]: one worker thread waits for the
    operating system and for the nearest deadline, and wakes the tasks that
    armed a socket or a timer.  Its state is shared with the adapters of every
    socket, so what one lock protects is one definition here: [ReactorProps]
    interleaves them.  The operating system is a port. *)

From S2P Require Import Prelude Bytes Api.

#[local] Open Scope N_scope.

(** A file descriptor, and a task's waker. *)
Abbreviation Fd := N (only parsing).
Abbreviation Waker := N (only parsing).

(** The kinds of errors these adapters tell apart from the rest, numbered as
    [std::io::ErrorKind] numbers them. *)
Definition NotConnected : ErrorKind := OtherKind 7.
Definition WouldBlock : ErrorKind := OtherKind 13.
Definition OtherError : ErrorKind := OtherKind 40.

(** ** The port: [mio] and the monotonic clock *)

(** The predicates of a [mio::event::Event]. *)
Record Event : Type := mkEvent {
  ev_token : N;
  is_readable : bool;
  is_writable : bool;
  is_error : bool;
  is_read_closed : bool;
  is_write_closed : bool;
}.

Class Mio (O : Type) : Type := {
  os_now : O → Instant * O;
  mio_register : Fd → N → bool → bool → M O ErrorKind unit;
  mio_deregister : Fd → M O ErrorKind unit;
  mio_wake : O → O;
  mio_poll : option Duration → M O ErrorKind (list Event);
}.

(** ** State *)

Record Waiters : Type := mkWaiters {
  w_read : option Waker;
  w_write : option Waker;
  w_timer : option (Instant * Waker);
}.
Definition Waiters_default : Waiters := mkWaiters None None None.

(** The shared [State]; the locks hold no invariant of their own. *)
Record ReactorState : Type := mkReactorState {
  rs_entries : gmap N Waiters;
  rs_stop : bool;
  rs_error : option ErrorKind;
}.
(** [Inner]: the registry, its waker and the thread are the port's; token zero
    is the interrupter's. *)
Record Reactor (O : Type) : Type := mkReactor {
  ra_os : O;
  ra_state : ReactorState;
  ra_next : N;
}.
Arguments mkReactor {O} _ _ _.
Arguments ra_os {O} _.
Arguments ra_state {O} _.
Arguments ra_next {O} _.

Definition with_entries (f : gmap N Waiters → gmap N Waiters) (s : ReactorState) : ReactorState :=
  mkReactorState (f (rs_entries s)) (rs_stop s) (rs_error s).

Section reactor.
Context {O : Type} `{MO : !Mio O}.
Implicit Types r : Reactor O.

Definition on_state (f : ReactorState → ReactorState) r : Reactor O := mkReactor (ra_os r) (f (ra_state r)) (ra_next r).
Definition on_os {E A} (m : M O E A) : M (Reactor O) E A := λ r,
  let '(x, o) := m (ra_os r) in (x, mkReactor o (ra_state r) (ra_next r)).

Definition Reactor_new (o : O) : Reactor O := mkReactor o (mkReactorState ∅ false None) 1.

(** ** Registrations *)

Definition token : M (Reactor O) ErrorKind N := λ r,
  match checked_add u64_limit (ra_next r) 1 with
  | None => (Err OtherError, r)
  | Some next =>
    (Ok (ra_next r),
     mkReactor (ra_os r) (with_entries <[ra_next r := Waiters_default]> (ra_state r)) next)
  end.
Definition remove (t : N) : Reactor O → Reactor O := on_state (with_entries (delete t)).
Definition register (source : Fd) (readable writable : bool) : M (Reactor O) ErrorKind N :=
  t ← token;
  registered ← try_ (on_os (mio_register source t readable writable));
  match registered with
  | Ok _ => mret t
  | Err error => modify (remove t);; throw error
  end.
Definition deregister (source : Fd) (t : N) : M (Reactor O) ErrorKind unit :=
  _ ← try_ (on_os (mio_deregister source));
  modify (remove t).

(** ** Arming *)

(** The two critical sections of [arm]: reading the worker's failure, and
    storing the waker. *)
Definition arm_check (s : ReactorState) : result ErrorKind unit :=
  match rs_error s with Some error => Err error | None => Ok tt end.
Definition set_waker (write : bool) (w : Waker) (e : Waiters) : Waiters :=
  if write then mkWaiters (w_read e) (Some w) (w_timer e) else mkWaiters (Some w) (w_write e) (w_timer e).
Definition arm_store (t : N) (write : bool) (w : Waker) : M ReactorState ErrorKind unit := λ s,
  match rs_entries s !! t with
  | None => (Err NotConnected, s)
  | Some e => (Ok tt, with_entries <[t := set_waker write w e]> s)
  end.
Definition shared {A} (m : M ReactorState ErrorKind A) : M (Reactor O) ErrorKind A := λ r,
  let '(x, s) := m (ra_state r) in (x, mkReactor (ra_os r) s (ra_next r)).
Definition arm (t : N) (write : bool) (w : Waker) : M (Reactor O) ErrorKind unit :=
  shared (λ s, (arm_check s, s));;
  shared (arm_store t write w).

(** The critical section of [timer], and the interrupt that follows it. *)
Definition timer_store (t : N) (deadline : Instant) (w : Waker) (s : ReactorState) : ReactorState :=
  with_entries (alter (λ e, mkWaiters (w_read e) (w_write e) (Some (deadline, w))) t) s.
Definition interrupt r : Reactor O := mkReactor (mio_wake (ra_os r)) (ra_state r) (ra_next r).
Definition timer (t : N) (deadline : Instant) (w : Waker) r : Reactor O :=
  interrupt (on_state (timer_store t deadline w) r).

(** [Drop for Inner] tells the worker to stop. *)
Definition stop_worker r : Reactor O :=
  interrupt (on_state (λ s, mkReactorState (rs_entries s) true (rs_error s)) r).

(** ** The worker *)

(** The nearest deadline, as a time to wait; the clock is read for each timer. *)
Fixpoint nearest_of (best : option Duration) (timers : list (Instant * Waker)) (o : O) : option Duration * O :=
  match timers with
  | [] => (best, o)
  | (deadline, _) :: timers =>
    let '(now, o) := os_now o in
    let wait := deadline - now in
    nearest_of (Some (match best with Some b => N.min b wait | None => wait end)) timers o
  end.
Definition entry_list (m : gmap N Waiters) : list (N * Waiters) :=
  omap (λ t, (λ e, (t, e)) <$> m !! t) (keys N.le m).
Definition timeout r : option Duration * Reactor O :=
  let '(t, o) := nearest_of None (omap (λ e, w_timer e.2) (entry_list (rs_entries (ra_state r)))) (ra_os r) in
  (t, mkReactor o (ra_state r) (ra_next r)).

(** What one event takes of its entry. *)
Definition wakes_read (e : Event) : bool := is_readable e || is_error e || is_read_closed e.
Definition wakes_write (e : Event) : bool := is_writable e || is_error e || is_write_closed e.
Definition take_wakers (r w : bool) (e : Waiters) : list Waker * Waiters :=
  ((if r then option_list (w_read e) else []) ++ (if w then option_list (w_write e) else []),
   mkWaiters (if r then None else w_read e) (if w then None else w_write e) (w_timer e)).
Fixpoint dispatch_events (events : list Event) (entries : gmap N Waiters) : list Waker * gmap N Waiters :=
  match events with
  | [] => ([], entries)
  | event :: events =>
    match entries !! ev_token event with
    | None => dispatch_events events entries
    | Some e =>
      let '(wake, e) := take_wakers (wakes_read event) (wakes_write event) e in
      let '(rest, entries) := dispatch_events events (<[ev_token event := e]> entries) in
      (wake ++ rest, entries)
    end
  end.
(** The timers that are due. *)
Definition due (now : Instant) (e : Waiters) : bool :=
  match w_timer e with Some (deadline, _) => deadline <=? now | None => false end.
Definition take_timer (e : Waiters) : Waiters := mkWaiters (w_read e) (w_write e) None.
Definition dispatch_timers (now : Instant) (entries : gmap N Waiters) : list Waker * gmap N Waiters :=
  (omap (λ e, if due now e.2 then snd <$> w_timer e.2 else None) (entry_list entries),
   (λ e, if due now e then take_timer e else e) <$> entries).
(** The critical section of a turn: the wakers to wake once it is over. *)
Definition dispatch (events : list Event) r : list Waker * Reactor O :=
  let '(wake, entries) := dispatch_events events (rs_entries (ra_state r)) in
  let '(now, o) := os_now (ra_os r) in
  let '(timers, entries) := dispatch_timers now entries in
  (wake ++ timers, mkReactor o (with_entries (λ _, entries) (ra_state r)) (ra_next r)).

(** [fail_waiters]: two critical sections. *)
Definition record_failure (error : ErrorKind) (s : ReactorState) : ReactorState :=
  mkReactorState (rs_entries s) (rs_stop s) (Some error).
Definition all_wakers (e : Waiters) : list Waker :=
  option_list (w_read e) ++ option_list (w_write e) ++ option_list (snd <$> w_timer e).
Definition take_all (s : ReactorState) : list Waker * ReactorState :=
  (concat (map (λ e, all_wakers e.2) (entry_list (rs_entries s))),
   with_entries (fmap (λ _, Waiters_default)) s).
Definition fail_waiters (error : ErrorKind) (s : ReactorState) : list Waker * ReactorState :=
  take_all (record_failure error s).

(** One iteration of [run]: the wakers it wakes, and whether the loop goes on. *)
Definition turn r : (list Waker * bool) * Reactor O :=
  if rs_stop (ra_state r) then (([], false), r) else
  let '(t, r) := timeout r in
  match on_os (mio_poll t) r with
  | (Ok events, r) => let '(wake, r) := dispatch events r in ((wake, true), r)
  | (Err Interrupted, r) => (([], true), r)
  | (Err error, r) =>
    let '(wake, s) := fail_waiters error (ra_state r) in
    ((wake, false), mkReactor (ra_os r) s (ra_next r))
  end.
End reactor.
