(* ===== verification/Tcp.v ===== *)
(** * TCP sockets and the system clock

    [src/modules/transport/adapters/{tcp,clock}.rs]: nonblocking sockets over
    the readiness worker.  An operation arms its waker first and then tries the
    operating system once; [WouldBlock] becomes [Pending].  Sockets share the
    reactor, so an operation is a function of the reactor and of the fields of
    the adapter it belongs to.  [Drop] is the explicit call where an owner lets
    go of an adapter. *)

From S2P Require Import Prelude Bytes Api Reactor.

#[local] Open Scope N_scope.

(** ** The port: the sockets of [mio::net] *)

(** [tcp_drop] closes a descriptor; [tcp_read] is given the buffer's length and
    gives the bytes read into it. *)
Class Net (O : Type) : Type := {
  tcp_connect : SocketAddr → M O ErrorKind Fd;
  tcp_bind : SocketAddr → M O ErrorKind Fd;
  tcp_read : Fd → N → M O ErrorKind bytes;
  tcp_write : Fd → bytes → M O ErrorKind N;
  tcp_accept : Fd → M O ErrorKind Fd;
  tcp_take_error : Fd → M O ErrorKind (option ErrorKind);
  tcp_peer_addr : Fd → M O ErrorKind SocketAddr;
  tcp_local_addr : Fd → O → result ErrorKind SocketAddr;
  tcp_shutdown : Fd → M O ErrorKind unit;
  tcp_drop : Fd → O → O;
}.

(** [pending]. *)
Definition pending {A} (r : result ErrorKind A) : Poll (result ErrorKind A) :=
  match r with
  | Err e => if decide (e = WouldBlock) then Pending else Ready (Err e)
  | Ok a => Ready (Ok a)
  end.

Section tcp.
Context {O : Type} `{MO : !Mio O, NT : !Net O}.

Abbreviation R := (Reactor O) (only parsing).
(** What [poll_*] gives: [?] on an error is [Ready(Err)]. *)
Abbreviation Polled A := (Poll (result ErrorKind A) * Reactor O)%type (only parsing).

Definition drop_fd (fd : Fd) (r : R) : R := mkReactor (tcp_drop fd (ra_os r)) (ra_state r) (ra_next r).

(** ** Streams *)

Record TcpSocket : Type := mkTcpSocket { ts_socket : option Fd; ts_token : N }.

(** The stream is dropped when it cannot be registered. *)
Definition TcpSocket_new (fd : Fd) : M R ErrorKind TcpSocket := λ r,
  match register fd true true r with
  | (Ok t, r) => (Ok (mkTcpSocket (Some fd) t), r)
  | (Err e, r) => (Err e, drop_fd fd r)
  end.

(** Arm, find the handle, try once. *)
Definition armed {A} (t : N) (write : bool) (w : Waker) (socket : option Fd)
    (attempt : Fd → R → Polled A) (r : R) : Polled A :=
  match arm t write w r with
  | (Err e, r) => (Ready (Err e), r)
  | (Ok _, r) =>
    match socket with
    | None => (Ready (Err NotConnected), r)
    | Some fd => attempt fd r
    end
  end.
Definition try_read (n : N) (fd : Fd) (r : R) : Polled bytes :=
  let '(x, r) := on_os (tcp_read fd n) r in (pending x, r).
Definition try_write (b : bytes) (fd : Fd) (r : R) : Polled N :=
  let '(x, r) := on_os (tcp_write fd b) r in (pending x, r).
Definition TcpSocket_poll_read (s : TcpSocket) (w : Waker) (n : N) : R → Polled bytes :=
  armed (ts_token s) false w (ts_socket s) (try_read n).
Definition TcpSocket_poll_write (s : TcpSocket) (w : Waker) (b : bytes) : R → Polled N :=
  armed (ts_token s) true w (ts_socket s) (try_write b).

(** [close], also what [Drop] does; the stream is dropped at the end. *)
Definition TcpSocket_close (s : TcpSocket) (r : R) : result ErrorKind unit * TcpSocket * R :=
  match ts_socket s with
  | None => (Ok tt, s, r)
  | Some fd =>
    let '(_, r) := deregister fd (ts_token s) r in
    let '(_, r) := on_os (tcp_shutdown fd) r in
    (Ok tt, mkTcpSocket None (ts_token s), drop_fd fd r)
  end.
Definition drop_socket (s : TcpSocket) (r : R) : R := (TcpSocket_close s r).2.

(** ** Outgoing attempts *)

(** [self.0.take()] gives the socket away, [self.0 = None] drops it. *)
Definition poll_connected (a : option TcpSocket) (w : Waker) (r : R)
    : Poll (result ErrorKind TcpSocket) * option TcpSocket * R :=
  match a with
  | None => (Ready (Err NotConnected), a, r)
  | Some s =>
    match arm (ts_token s) true w r with
    | (Err e, r) => (Ready (Err e), a, r)
    | (Ok _, r) =>
      match ts_socket s with
      | None => (Ready (Err NotConnected), a, r)
      | Some fd =>
        match on_os (tcp_take_error fd) r with
        | (Err e, r) => (Ready (Err e), a, r)
        | (Ok (Some error), r) => (Ready (Err error), None, drop_socket s r)
        | (Ok None, r) =>
          match on_os (tcp_peer_addr fd) r with
          | (Ok _, r) => (Ready (Ok s), None, r)
          | (Err e, r) =>
            if decide (e = NotConnected ∨ e = WouldBlock) then (Pending, a, r)
            else (Ready (Err e), None, drop_socket s r)
          end
        end
      end
    end
  end.

(** ** Listeners *)

Record TcpAcceptor : Type := mkTcpAcceptor { ta_socket : option Fd; ta_token : N }.

Definition TcpAcceptor_local_addr (a : TcpAcceptor) (r : R) : result ErrorKind SocketAddr :=
  match ta_socket a with None => Err NotConnected | Some fd => tcp_local_addr fd (ra_os r) end.
Definition try_accept (fd : Fd) (r : R) : Polled TcpSocket :=
  match on_os (tcp_accept fd) r with
  | (Ok stream, r) => let '(x, r) := TcpSocket_new stream r in (Ready x, r)
  | (Err e, r) => if decide (e = WouldBlock) then (Pending, r) else (Ready (Err e), r)
  end.
Definition TcpAcceptor_poll_accept (a : TcpAcceptor) (w : Waker) : R → Polled TcpSocket :=
  armed (ta_token a) false w (ta_socket a) try_accept.
Definition TcpAcceptor_close (a : TcpAcceptor) (r : R) : result ErrorKind unit * TcpAcceptor * R :=
  match ta_socket a with
  | None => (Ok tt, a, r)
  | Some fd =>
    let '(_, r) := deregister fd (ta_token a) r in
    (Ok tt, mkTcpAcceptor None (ta_token a), drop_fd fd r)
  end.

(** ** The provider *)

Definition TcpProvider_connect (endpoint : SocketAddr) : M R ErrorKind (option TcpSocket) :=
  fd ← on_os (tcp_connect endpoint);
  s ← TcpSocket_new fd;
  mret (Some s).
Definition TcpAcceptor_new (fd : Fd) : M R ErrorKind TcpAcceptor := λ r,
  match register fd true false r with
  | (Ok t, r) => (Ok (mkTcpAcceptor (Some fd) t), r)
  | (Err e, r) => (Err e, drop_fd fd r)
  end.
Definition TcpProvider_listen (endpoint : SocketAddr) : M R ErrorKind TcpAcceptor :=
  fd ← on_os (tcp_bind endpoint);
  TcpAcceptor_new fd.

(** ** The clock: [clock.rs] *)

Record SystemClock : Type := mkSystemClock { sc_token : N }.
(** [shared], also of [TcpProvider::clock]. *)
Definition SystemClock_shared : M R ErrorKind SystemClock := t ← token; mret (mkSystemClock t).
Definition SystemClock_now (r : R) : Instant * R :=
  let '(now, o) := os_now (ra_os r) in (now, mkReactor o (ra_state r) (ra_next r)).
(** Whether the deadline has been reached; otherwise the timer is armed. *)
Definition SystemClock_poll_deadline (c : SystemClock) (w : Waker) (deadline : Instant) (r : R) : Poll unit * R :=
  let '(now, r) := SystemClock_now r in
  if deadline <=? now then (Ready tt, r) else (Pending, timer (sc_token c) deadline w r).
Definition SystemClock_drop (c : SystemClock) : R → R := remove (sc_token c).

(** ** One attempt of the operating system

    What an operation does after arming, and whether its answer is [Pending]. *)
Inductive Call : Type := CRead (n : N) | CWrite (b : bytes) | CAccept | CConnected.
Definition call_write (c : Call) : bool :=
  match c with CWrite _ | CConnected => true | CRead _ | CAccept => false end.
Definition blocks {A} (x : result ErrorKind A) : bool :=
  match x with Err e => bool_decide (e = WouldBlock) | Ok _ => false end.
Definition attempt (c : Call) (fd : Fd) (o : O) : bool * O :=
  match c with
  | CRead n => let '(x, o) := tcp_read fd n o in (blocks x, o)
  | CWrite b => let '(x, o) := tcp_write fd b o in (blocks x, o)
  | CAccept => let '(x, o) := tcp_accept fd o in (blocks x, o)
  | CConnected =>
    match tcp_take_error fd o with
    | (Ok None, o) =>
      let '(x, o) := tcp_peer_addr fd o in
      (match x with Err e => bool_decide (e = NotConnected ∨ e = WouldBlock) | Ok _ => false end, o)
    | (_, o) => (false, o)
    end
  end.
Definition is_pending {A} (p : Poll A) : bool := match p with Pending => true | Ready _ => false end.

(** A polling operation is its arming followed by the attempt: it is pending
    exactly when both critical sections of [arm] passed and the attempt
    blocked, in the state the attempt left. *)
Lemma is_pending_pending {A} (x : result ErrorKind A) : is_pending (pending x) = blocks x.
Proof. destruct x as [a | e]; [done |]. cbn. rewrite bool_decide_decide. by destruct (decide (e = WouldBlock)). Qed.

Definition sections (t : N) (c : Call) (w : Waker) (fd : Fd) (r : R) : bool * R :=
  match arm_check (ra_state r) with
  | Err _ => (false, r)
  | Ok _ =>
    match arm_store t (call_write c) w (ra_state r) with
    | (Err _, s) => (false, mkReactor (ra_os r) s (ra_next r))
    | (Ok _, s) => let '(b, o) := attempt c fd (ra_os r) in (b, mkReactor o s (ra_next r))
    end
  end.
Lemma arm_sections t c w (r : R) :
  arm t (call_write c) w r =
  match arm_check (ra_state r) with
  | Err e => (Err e, r)
  | Ok _ => let '(x, s) := arm_store t (call_write c) w (ra_state r) in (x, mkReactor (ra_os r) s (ra_next r))
  end.
Proof.
  unfold arm, shared, mbind, M_bind. destruct r as [o s n]. cbn. destruct (arm_check s); cbn; [| done].
  by destruct (arm_store _ _ _ _).
Qed.

(** The operations with a handle are these sections, with what the reactor is
    left in when they are pending. *)
Lemma poll_read_sections s w n fd (r : R) : ts_socket s = Some fd →
  let p := TcpSocket_poll_read s w n r in (is_pending p.1, p.2) = sections (ts_token s) (CRead n) w fd r.
Proof.
  intros E. unfold TcpSocket_poll_read, armed, sections. rewrite (arm_sections _ (CRead n)), E. cbn [call_write].
  destruct (arm_check _); [| done]. destruct (arm_store _ _ _ _) as [[u | e] st]; [| done].
  cbn. unfold try_read, on_os. cbn. destruct (tcp_read fd n (ra_os r)). cbn. by rewrite is_pending_pending.
Qed.
Lemma poll_write_sections s w b fd (r : R) : ts_socket s = Some fd →
  let p := TcpSocket_poll_write s w b r in (is_pending p.1, p.2) = sections (ts_token s) (CWrite b) w fd r.
Proof.
  intros E. unfold TcpSocket_poll_write, armed, sections. rewrite (arm_sections _ (CWrite b)), E. cbn [call_write].
  destruct (arm_check _); [| done]. destruct (arm_store _ _ _ _) as [[u | e] st]; [| done].
  cbn. unfold try_write, on_os. cbn. destruct (tcp_write fd b (ra_os r)). cbn. by rewrite is_pending_pending.
Qed.
Lemma poll_accept_pending a w fd (r r' : R) : ta_socket a = Some fd →
  TcpAcceptor_poll_accept a w r = (Pending, r') → sections (ta_token a) CAccept w fd r = (true, r').
Proof.
  intros E. unfold TcpAcceptor_poll_accept, armed, sections. rewrite (arm_sections _ CAccept), E. cbn [call_write].
  destruct (arm_check _); [| done]. destruct (arm_store _ _ _ _) as [[u | e] st]; [| done].
  cbn. unfold try_accept, on_os. cbn. destruct (tcp_accept fd (ra_os r)) as [[x | e] o].
  - by destruct (TcpSocket_new _ _).
  - cbn. destruct (decide (e = WouldBlock)) as [-> |]; [| done]. by intros [= <-].
Qed.
Lemma poll_connected_pending s w fd (r r' : R) a : ts_socket s = Some fd →
  poll_connected (Some s) w r = (Pending, a, r') →
  a = Some s ∧ sections (ts_token s) CConnected w fd r = (true, r').
Proof.
  intros E. unfold poll_connected, sections. rewrite (arm_sections _ CConnected), E. cbn [call_write].
  destruct (arm_check _); [| done]. destruct (arm_store _ _ _ _) as [[u | e] st]; [| done].
  unfold on_os. cbn. destruct (tcp_take_error fd (ra_os r)) as [[[e |] | e] o]; try done. cbn.
  destruct (tcp_peer_addr fd o) as [[x | e] o']; [done |].
  destruct (decide (e = NotConnected ∨ e = WouldBlock)) as [He |]; [| done]. intros [= <- <-].
  by rewrite bool_decide_eq_true_2.
Qed.
End tcp.
