(* ===== verification/ReactorProps.v ===== *)
(** * No lost wakeups

    The tasks that own sockets and clocks and the readiness worker, interleaved
    at every critical section of [Reactor].  The theorem: while the worker lives
    and waits with nothing to deliver, no task sleeps on a ready socket and none
    sleeps past the time the worker waits for.  What the code does not exclude
    is shown as well: a task whose arming overlaps the worker's failure, and a
    timer set after it, are never woken. *)

From S2P Require Import Prelude Bytes Api Reactor Tcp.

#[local] Open Scope N_scope.

(** ** What the port promises

    Readiness is edge-triggered, as documented by [mio]: what becomes ready is
    queued as an event of its token, and stays queued until a poll returns it;
    a call that blocks found its socket not ready.  [None] or the token whose
    registration a call may end. *)
Class PortLaws (O : Type) `{MO : !Mio O, NT : !Net O} : Type := {
  ready : O → N → bool → bool;
  queued : O → N → bool → bool;
  interrupted : O → bool;
  time : O → Instant;
  token_of : O → Fd → option N;
  evolves (but : option N) (o o' : O) : Prop :=
    (∀ t w, but ≠ Some t → ready o' t w = true → ready o t w = true ∨ queued o' t w = true) ∧
    (∀ t w, but ≠ Some t → queued o t w = true → queued o' t w = true) ∧
    (∀ fd t, but ≠ Some t → token_of o fd = Some t → token_of o' fd = Some t) ∧
    (interrupted o = true → interrupted o' = true) ∧ time o ≤ time o';
  now_law o : let '(now, o') := os_now o in time o ≤ now ∧ now ≤ time o' ∧ evolves None o o';
  register_law fd t r w o : evolves None o (mio_register fd t r w o).2 ∧
    ((mio_register fd t r w o).1 = Ok tt → token_of (mio_register fd t r w o).2 fd = Some t);
  deregister_law fd o : evolves (token_of o fd) o (mio_deregister fd o).2;
  wake_law o : evolves None o (mio_wake o) ∧ interrupted (mio_wake o) = true;
  poll_law tmo o : let '(x, o') := mio_poll tmo o in
    (∀ t w, ready o' t w = true → ready o t w = true ∨ queued o' t w = true) ∧
    (∀ t w, queued o t w = true → queued o' t w = true ∨
      ∃ events e, x = Ok events ∧ e ∈ events ∧ ev_token e = t ∧ (if w then wakes_write e else wakes_read e) = true) ∧
    (∀ fd t, token_of o fd = Some t → token_of o' fd = Some t) ∧ time o ≤ time o';
  call_law c fd t o : token_of o fd = Some t → let '(b, o') := attempt c fd o in
    evolves None o o' ∧
    (b = true → ready o' t (call_write c) = true → queued o' t (call_write c) = true);
}.

Section system.
Context {O : Type} `{MO : !Mio O, NT : !Net O, PL : !PortLaws O}.

(** ** The interleaving

    An operation in flight is between the critical sections of [arm], or between
    [arm] and its attempt; whether its task was woken meanwhile decides whether
    it goes to sleep, since a task woken while it runs is polled again. *)
Inductive OpPc : Type := Checked (w : Waker) (woken : bool) | Stored (w : Waker) (woken : bool) | Waiting (w : Waker).
Inductive TimerPc : Type :=
| TimerStored (deadline : Instant) (w : Waker) (woken : bool) | TimerWaiting (deadline : Instant) (w : Waker).
(** The worker: at the loop's head; in [poll], with the time it read the clock
    from and the time it waits; with events; waking; and on its way out. *)
Inductive WorkerPc : Type :=
| AtHead | Polling (since : Instant) (timeout : option Duration) | HasEvents (events : list Event)
| Waking (wake : list Waker) | Failing (error : ErrorKind) | Taking | LastWaking (wake : list Waker) | Exited.

Record Sys : Type := mkSys {
  sy_reactor : Reactor O;
  sy_worker : WorkerPc;
  sy_sockets : gmap N Fd;
  sy_clocks : gset N;
  sy_ops : gmap (N * bool) OpPc;
  sy_timers : gmap N TimerPc;
}.

(** Waking a task: it is polled again, so it waits for nothing. *)
Definition wake_op (w : Waker) (p : OpPc) : option OpPc :=
  match p with
  | Checked w' b => Some (Checked w' (b || (w =? w')))
  | Stored w' b => Some (Stored w' (b || (w =? w')))
  | Waiting w' => if w =? w' then None else Some p
  end.
Definition wake_timer (w : Waker) (p : TimerPc) : option TimerPc :=
  match p with
  | TimerStored d w' b => Some (TimerStored d w' (b || (w =? w')))
  | TimerWaiting d w' => if w =? w' then None else Some p
  end.

(** An operation can start unless one is in flight: its adapter is borrowed. *)
Definition idle (p : option OpPc) : bool :=
  match p with None | Some (Waiting _) => true | Some _ => false end.
Definition timer_idle (p : option TimerPc) : bool :=
  match p with None | Some (TimerWaiting _ _) => true | Some _ => false end.

Definition put_os (o : O) (r : Reactor O) : Reactor O := mkReactor o (ra_state r) (ra_next r).
Definition put_state (st : ReactorState) (r : Reactor O) : Reactor O := mkReactor (ra_os r) st (ra_next r).

(** Who acts: the owner of a token, or the worker and the machine. *)
Inductive sys_step : option N → Sys → Sys → Prop :=
| SyEnvironment r k ss cs ops ts o : evolves None (ra_os r) o →
    sys_step None (mkSys r k ss cs ops ts) (mkSys (put_os o r) k ss cs ops ts)
(* tokens, registration, removal *)
| SyToken r k ss cs ops ts t r' : token r = (Ok t, r') →
    sys_step (Some t) (mkSys r k ss cs ops ts) (mkSys r' k ss cs ops ts)
| SyRegister r k ss cs ops ts t fd rd wr x o :
    t < ra_next r → ss !! t = None → t ∉ cs → mio_register fd t rd wr (ra_os r) = (x, o) →
    sys_step (Some t) (mkSys r k ss cs ops ts)
      (mkSys (put_os o r) k (if is_ok x then <[t := fd]> ss else ss) cs ops ts)
| SyClock r k ss cs ops ts t : t < ra_next r → ss !! t = None → t ∉ cs → is_Some (rs_entries (ra_state r) !! t) →
    sys_step (Some t) (mkSys r k ss cs ops ts) (mkSys r k ss ({[t]} ∪ cs) ops ts)
| SyRemove r k ss cs ops ts t : ss !! t = None → t ∉ cs →
    sys_step (Some t) (mkSys r k ss cs ops ts) (mkSys (remove t r) k ss cs ops ts)
| SyClose r k ss cs ops ts t fd x o :
    ss !! t = Some fd → idle (ops !! (t, false)) = true → idle (ops !! (t, true)) = true →
    mio_deregister fd (ra_os r) = (x, o) →
    sys_step (Some t) (mkSys r k ss cs ops ts)
      (mkSys (put_os o r) k (delete t ss) cs (delete (t, false) (delete (t, true) ops)) ts)
| SyDropClock r k ss cs ops ts t : t ∈ cs → timer_idle (ts !! t) = true →
    sys_step (Some t) (mkSys r k ss cs ops ts) (mkSys r k ss (cs ∖ {[t]}) ops (delete t ts))
(* an operation of a socket: the sections of [arm], the attempt *)
| SyCheck r k ss cs ops ts t fd c w : ss !! t = Some fd → idle (ops !! (t, c)) = true →
    arm_check (ra_state r) = Ok tt →
    sys_step (Some t) (mkSys r k ss cs ops ts) (mkSys r k ss cs (<[(t, c) := Checked w false]> ops) ts)
| SyStore r k ss cs ops ts t c w b x st : ops !! (t, c) = Some (Checked w b) →
    arm_store t c w (ra_state r) = (x, st) →
    sys_step (Some t) (mkSys r k ss cs ops ts)
      (mkSys (put_state st r) k ss cs (if is_ok x then <[(t, c) := Stored w b]> ops else delete (t, c) ops) ts)
| SyAttempt r k ss cs ops ts t fd w b c x o : ss !! t = Some fd → ops !! (t, call_write c) = Some (Stored w b) →
    attempt c fd (ra_os r) = (x, o) →
    sys_step (Some t) (mkSys r k ss cs ops ts)
      (mkSys (put_os o r) k ss cs
        (if x && negb b then <[(t, call_write c) := Waiting w]> ops else delete (t, call_write c) ops) ts)
(* a clock: the deadline has passed, or the timer is stored and the worker interrupted *)
| SyDue r k ss cs ops ts t now o : t ∈ cs → timer_idle (ts !! t) = true → os_now (ra_os r) = (now, o) →
    sys_step (Some t) (mkSys r k ss cs ops ts) (mkSys (put_os o r) k ss cs ops (delete t ts))
| SyTimer r k ss cs ops ts t deadline w : t ∈ cs → timer_idle (ts !! t) = true →
    sys_step (Some t) (mkSys r k ss cs ops ts)
      (mkSys (on_state (timer_store t deadline w) r) k ss cs ops (<[t := TimerStored deadline w false]> ts))
| SyInterrupt r k ss cs ops ts t deadline w b : ts !! t = Some (TimerStored deadline w b) →
    sys_step (Some t) (mkSys r k ss cs ops ts)
      (mkSys (interrupt r) k ss cs ops (if b then delete t ts else <[t := TimerWaiting deadline w]> ts))
(* the worker *)
| SyTimeout r ss cs ops ts tmo r' since : rs_stop (ra_state r) = false → timeout r = (tmo, r') →
    since = time (ra_os r) →
    sys_step None (mkSys r AtHead ss cs ops ts) (mkSys r' (Polling since tmo) ss cs ops ts)
| SyPoll r ss cs ops ts since tmo x o : mio_poll tmo (ra_os r) = (x, o) →
    sys_step None (mkSys r (Polling since tmo) ss cs ops ts)
      (mkSys (put_os o r)
        (match x with Ok events => HasEvents events | Err Interrupted => AtHead | Err e => Failing e end) ss cs ops ts)
| SyDispatch r ss cs ops ts events wake r' : dispatch events r = (wake, r') →
    sys_step None (mkSys r (HasEvents events) ss cs ops ts) (mkSys r' (Waking wake) ss cs ops ts)
| SyWake r ss cs ops ts w wake : 
    sys_step None (mkSys r (Waking (w :: wake)) ss cs ops ts)
      (mkSys r (Waking wake) ss cs (omap (wake_op w) ops) (omap (wake_timer w) ts))
| SyAgain r ss cs ops ts : sys_step None (mkSys r (Waking []) ss cs ops ts) (mkSys r AtHead ss cs ops ts)
| SyRecord r ss cs ops ts e :
    sys_step None (mkSys r (Failing e) ss cs ops ts) (mkSys (on_state (record_failure e) r) Taking ss cs ops ts)
| SyTake r ss cs ops ts wake st : take_all (ra_state r) = (wake, st) →
    sys_step None (mkSys r Taking ss cs ops ts) (mkSys (put_state st r) (LastWaking wake) ss cs ops ts)
| SyLastWake r ss cs ops ts w wake :
    sys_step None (mkSys r (LastWaking (w :: wake)) ss cs ops ts)
      (mkSys r (LastWaking wake) ss cs (omap (wake_op w) ops) (omap (wake_timer w) ts))
| SyExit r ss cs ops ts : sys_step None (mkSys r (LastWaking []) ss cs ops ts) (mkSys r Exited ss cs ops ts).

Definition any_step (s s' : Sys) : Prop := ∃ who, sys_step who s s'.
Definition sys_start (o : O) : Sys := mkSys (Reactor_new o) AtHead ∅ ∅ ∅ ∅.

(** ** The invariant *)

Definition slot (c : bool) (e : Waiters) : option Waker := if c then w_write e else w_read e.
(** The worker is about to wake [w]. *)
Definition coming (k : WorkerPc) (w : Waker) : Prop :=
  match k with Waking l | LastWaking l => w ∈ l | _ => False end.
(** The worker holds an event for this side of a token. *)
Definition covers (events : list Event) (t : N) (c : bool) : Prop :=
  ∃ e, e ∈ events ∧ ev_token e = t ∧ (if c then wakes_write e else wakes_read e) = true.
Definition announced (o : O) (k : WorkerPc) (t : N) (c : bool) : Prop :=
  queued o t c = true ∨ ∃ events, k = HasEvents events ∧ covers events t c.

Definition op_ok (o : O) (e : option Waiters) (k : WorkerPc) (t : N) (c : bool) (p : OpPc) : Prop :=
  match p with
  | Checked _ _ => True
  | Stored w b => b = true ∨ coming k w ∨ e ≫= slot c = Some w
  | Waiting w => coming k w ∨ e ≫= slot c = Some w ∧ (ready o t c = true → announced o k t c)
  end.
(** The wait of the worker ends by the deadline, counted from its reading. *)
Definition in_time (o : O) (k : WorkerPc) (deadline : Instant) : Prop :=
  ∀ since tmo, k = Polling since tmo →
    interrupted o = true ∨ ∃ x, tmo = Some x ∧ since + x ≤ N.max deadline since.
Definition timer_ok (o : O) (e : option Waiters) (k : WorkerPc) (p : TimerPc) : Prop :=
  match p with
  | TimerStored d w b => b = true ∨ coming k w ∨ e ≫= w_timer = Some (d, w)
  | TimerWaiting d w => coming k w ∨ e ≫= w_timer = Some (d, w) ∧ in_time o k d
  end.

Record sys_inv (s : Sys) : Prop := {
  iv_ops : ∀ t c p, sy_ops s !! (t, c) = Some p →
    is_Some (sy_sockets s !! t) ∧
    op_ok (ra_os (sy_reactor s)) (rs_entries (ra_state (sy_reactor s)) !! t) (sy_worker s) t c p;
  iv_timers : ∀ t p, sy_timers s !! t = Some p →
    t ∈ sy_clocks s ∧ timer_ok (ra_os (sy_reactor s)) (rs_entries (ra_state (sy_reactor s)) !! t) (sy_worker s) p;
  iv_sockets : ∀ t fd, sy_sockets s !! t = Some fd →
    token_of (ra_os (sy_reactor s)) fd = Some t ∧ t < ra_next (sy_reactor s);
  iv_clocks : ∀ t, t ∈ sy_clocks s →
    is_Some (rs_entries (ra_state (sy_reactor s)) !! t) ∧ t < ra_next (sy_reactor s) ∧ sy_sockets s !! t = None;
}.

(** Calls of the port. *)
Lemma op_ok_evolves but o o' e k t c p :
  evolves but o o' → but ≠ Some t → op_ok o e k t c p → op_ok o' e k t c p.
Proof.
  intros (Hr & Hq & _ & _ & _) Hb. destruct p as [w b | w b | w]; cbn; [done | done |].
  intros [H | [H1 H2]]; [by left | right]. split; [done |]. intros H. destruct (Hr _ _ Hb H) as [H' | H']; [| by left].
  destruct (H2 H') as [? | ?]; [left; by apply Hq | by right].
Qed.
Lemma timer_ok_evolves but o o' e k p : evolves but o o' → timer_ok o e k p → timer_ok o' e k p.
Proof.
  intros (_ & _ & _ & Hi & _). destruct p as [d w b | d w]; cbn; [done |].
  intros [H | [H1 H2]]; [by left | right]. split; [done |]. intros since tmo E.
  destruct (H2 _ _ E) as [? | ?]; [left; by apply Hi | by right].
Qed.

(** A step that leaves the worker and the entries alone. *)
Lemma sys_inv_os r o k ss cs ops ts :
  evolves None (ra_os r) o → sys_inv (mkSys r k ss cs ops ts) → sys_inv (mkSys (put_os o r) k ss cs ops ts).
Proof.
  intros He [H1 H2 H3 H4]. split; cbn in *; [| | | done].
  - intros t c p Hp. destruct (H1 t c p Hp) as [Hs Ho]. split; [done |]. by eapply op_ok_evolves.
  - intros t p Hp. destruct (H2 t p Hp) as [Hs Ho]. split; [done |]. by eapply timer_ok_evolves.
  - intros t fd Hs. destruct (H3 t fd Hs) as [Ht Hn]. split; [| done]. by apply He.
Qed.
(** Replacing an operation, or forgetting it. *)
Lemma sys_inv_op r k ss cs ops ts t c p :
  is_Some (ss !! t) → op_ok (ra_os r) (rs_entries (ra_state r) !! t) k t c p →
  sys_inv (mkSys r k ss cs ops ts) → sys_inv (mkSys r k ss cs (<[(t, c) := p]> ops) ts).
Proof.
  intros Hs Ho [H1 H2 H3 H4]. split; cbn in *; try done. intros t' c' p'.
  rewrite lookup_insert. case_decide as E; [by intros [= <-]; injection E as <- <- | apply H1].
Qed.
Lemma sys_inv_forget r k ss cs ops ops' ts ts' :
  (∀ i p, ops' !! i = Some p → ops !! i = Some p) → (∀ i p, ts' !! i = Some p → ts !! i = Some p) →
  sys_inv (mkSys r k ss cs ops ts) → sys_inv (mkSys r k ss cs ops' ts').
Proof.
  intros Ho Ht [H1 H2 H3 H4]. split; cbn in *; try done.
  - intros t c p Hp. by apply H1, Ho.
  - intros t p Hp. by apply H2, Ht.
Qed.
Lemma sys_inv_timer r k ss cs ops ts t p :
  t ∈ cs → timer_ok (ra_os r) (rs_entries (ra_state r) !! t) k p →
  sys_inv (mkSys r k ss cs ops ts) → sys_inv (mkSys r k ss cs ops (<[t := p]> ts)).
Proof.
  intros Hs Ho [H1 H2 H3 H4]. split; cbn in *; try done. intros t' p'.
  rewrite lookup_insert. case_decide as E; [by intros [= <-]; subst | apply H2].
Qed.

(** A step of the worker: what it does to an entry's slots and its own list. *)
Lemma sys_inv_worker r r' k k' ss cs ops ops' ts ts' :
  ra_next r' = ra_next r →
  (∀ t, is_Some (rs_entries (ra_state r) !! t) → is_Some (rs_entries (ra_state r') !! t)) →
  (∀ fd t, token_of (ra_os r) fd = Some t → token_of (ra_os r') fd = Some t) →
  (∀ t c p, ops' !! (t, c) = Some p → ∃ q, ops !! (t, c) = Some q ∧
     (op_ok (ra_os r) (rs_entries (ra_state r) !! t) k t c q → op_ok (ra_os r') (rs_entries (ra_state r') !! t) k' t c p)) →
  (∀ t p, ts' !! t = Some p → ∃ q, ts !! t = Some q ∧
     (timer_ok (ra_os r) (rs_entries (ra_state r) !! t) k q → timer_ok (ra_os r') (rs_entries (ra_state r') !! t) k' p)) →
  sys_inv (mkSys r k ss cs ops ts) → sys_inv (mkSys r' k' ss cs ops' ts').
Proof.
  intros Hn He Hf Ho Ht [H1 H2 H3 H4]. split; cbn in *; rewrite ?Hn.
  - intros t c p (q & Hq & Hp)%Ho. destruct (H1 t c q Hq). by split; [| apply Hp].
  - intros t p (q & Hq & Hp)%Ht. destruct (H2 t q Hq). by split; [| apply Hp].
  - intros t fd Hs. destruct (H3 t fd Hs). split; [by apply Hf | done].
  - intros t Hc. destruct (H4 t Hc) as (? & ? & ?). split_and!; [by apply He | done | done].
Qed.

(** ** The worker's sections *)

Lemma port_refl o : evolves None o o.
Proof. by split_and!; auto. Qed.
Lemma port_trans o1 o2 o3 : evolves None o1 o2 → evolves None o2 o3 → evolves None o1 o3.
Proof.
  intros (R1 & Q1 & F1 & I1 & T1) (R2 & Q2 & F2 & I2 & T2). split_and!; [| auto.. | lia].
  intros t w Hb H. destruct (R2 _ _ Hb H) as [H' |]; [| by right]. destruct (R1 _ _ Hb H'); [by left | right; auto].
Qed.

Lemma entry_list_elem (m : gmap N Waiters) t e : (t, e) ∈ entry_list m ↔ m !! t = Some e.
Proof.
  unfold entry_list. rewrite list_elem_of_omap. split.
  - intros (t' & _ & H). apply fmap_Some in H as (e' & He & [= -> ->]). done.
  - intros H. exists t. rewrite keys_elem, H. by split; [eexists |].
Qed.

Lemma nearest_of_run best timers o res o' : nearest_of best timers o = (res, o') →
  evolves None o o' ∧ (∀ b, best = Some b → ∃ x, res = Some x ∧ x ≤ b) ∧
  ∀ d w, (d, w) ∈ timers → ∃ x, res = Some x ∧ time o + x ≤ N.max d (time o).
Proof.
  revert best o. induction timers as [| [d w] timers IH]; intros best o; cbn [nearest_of].
  { intros [= -> ->]. split_and!; [apply port_refl | intros b ->; by exists b | by intros ? ? ?%not_elem_of_nil]. }
  pose proof (now_law o) as L. destruct (os_now o) as [now o1]. destruct L as (Hn & Hn' & Hev).
  intros (He & Hb & Ht)%IH. pose proof Hev as (_ & _ & _ & _ & Htime).
  destruct (Hb _ eq_refl) as (x & -> & Hx). split_and!.
  - by eapply port_trans.
  - intros b ->. exists x. split; [done | lia].
  - intros d' w' [[= -> ->] | Hin]%elem_of_cons; exists x; (split; [done |]).
    + destruct best; lia.
    + destruct (Ht _ _ Hin) as (y & [= <-] & Hy). lia.
Qed.
Lemma timeout_run (r : Reactor O) tmo r' : timeout r = (tmo, r') →
  evolves None (ra_os r) (ra_os r') ∧ ra_state r' = ra_state r ∧ ra_next r' = ra_next r ∧
  ∀ t d w, rs_entries (ra_state r) !! t ≫= w_timer = Some (d, w) →
    ∃ x, tmo = Some x ∧ time (ra_os r) + x ≤ N.max d (time (ra_os r)).
Proof.
  unfold timeout. destruct (nearest_of _ _ _) as [res o] eqn:E. intros [= <- <-].
  apply nearest_of_run in E as (He & _ & Ht). split_and!; [done.. |]. intros t d w H.
  apply bind_Some in H as (e & Hm & He'). apply (Ht d w), list_elem_of_omap. exists (t, e).
  by rewrite entry_list_elem.
Qed.

(** Dispatching takes a waker only to wake it, and every waker it has an event for. *)
Lemma dispatch_events_run events m wake m' t : dispatch_events events m = (wake, m') →
  match m !! t with
  | None => m' !! t = None
  | Some e => ∃ e', m' !! t = Some e' ∧ w_timer e' = w_timer e ∧
      ∀ c w, slot c e = Some w → w ∈ wake ∨ slot c e' = Some w ∧ ¬ covers events t c
  end.
Proof.
  revert m wake. induction events as [| ev events IH]; intros m wake; cbn [dispatch_events].
  { intros [= <- <-]. destruct (m !! t) as [e |]; [| done]. exists e. split_and!; [done.. |]. intros c w Hw.
    right. split; [done |]. by intros (? & ?%not_elem_of_nil & _). }
  assert (∀ c, ev_token ev ≠ t → covers (ev :: events) t c → covers events t c) as Hcov.
  { intros c Hne (e & [-> | He]%elem_of_cons & Ht & H); [done |]. by exists e. }
  destruct (m !! ev_token ev) as [e |] eqn:Em.
  - destruct (take_wakers _ _ e) as [wk e1] eqn:Et. destruct (dispatch_events events _) as [rest m1] eqn:Ed.
    intros [= <- <-]. apply IH in Ed. unfold take_wakers in Et. injection Et as <- <-.
    destruct (decide (ev_token ev = t)) as [Htok | Hne].
    + rewrite Htok, lookup_insert_eq in Ed. rewrite Htok in Em. rewrite Em.
      destruct Ed as (e' & He' & Hti & Hs). exists e'. split_and!; [done | done |]. intros c w Hw.
      specialize (Hs c w). destruct (if c then wakes_write ev else wakes_read ev) eqn:Ec.
      * left. rewrite !elem_of_app. left. destruct c; rewrite Ec; cbn in Hw; rewrite Hw; [right | left]; left.
      * destruct Hs as [Hs | [Hs Hn]]; [by destruct c; cbn; rewrite Ec | left; rewrite elem_of_app; by right | right].
        split; [done |]. intros (x & [-> | Hx]%elem_of_cons & Hxt & Hxc); [by rewrite Ec in Hxc |].
        apply Hn. by exists x.
    + rewrite lookup_insert_ne in Ed by done. destruct (m !! t) as [e0 |]; [| done].
      destruct Ed as (e' & He' & Hti & Hs). exists e'. split_and!; [done | done |]. intros c w Hw.
      destruct (Hs c w Hw) as [H | [H Hn]]; [left; rewrite elem_of_app; by right | right]. split; [done |].
      intros Hc. by apply Hn, Hcov.
  - intros Ed%IH. destruct (decide (ev_token ev = t)) as [<- | Hne]; [by rewrite Em in Ed |- * |].
    destruct (m !! t) as [e0 |]; [| done]. destruct Ed as (e' & He' & Hti & Hs). exists e'.
    split_and!; [done | done |]. intros c w Hw. destruct (Hs c w Hw) as [H | [H Hn]]; [by left | right].
    split; [done |]. intros Hc. by apply Hn, Hcov.
Qed.
Lemma dispatch_timers_run now m wake m' t e : dispatch_timers now m = (wake, m') → m !! t = Some e →
  ∃ e', m' !! t = Some e' ∧ (∀ c, slot c e' = slot c e) ∧
  ∀ d w, w_timer e = Some (d, w) → w ∈ wake ∨ w_timer e' = Some (d, w).
Proof.
  intros [= <- <-] Hm. rewrite lookup_fmap, Hm. cbn. eexists. split; [done |].
  destruct (due now e) eqn:Ed; [| by split; [intros c | intros d w ->; right]]. split; [by intros [] |].
  intros d w Hw. left. apply list_elem_of_omap. exists (t, e). rewrite entry_list_elem. split; [done |]. cbn. by rewrite Ed, Hw.
Qed.
Lemma dispatch_run events (r : Reactor O) wake r' : dispatch events r = (wake, r') →
  evolves None (ra_os r) (ra_os r') ∧ ra_next r' = ra_next r ∧
  ∀ t e, rs_entries (ra_state r) !! t = Some e → ∃ e', rs_entries (ra_state r') !! t = Some e' ∧
    (∀ c w, slot c e = Some w → w ∈ wake ∨ slot c e' = Some w ∧ ¬ covers events t c) ∧
    ∀ d w, w_timer e = Some (d, w) → w ∈ wake ∨ w_timer e' = Some (d, w).
Proof.
  unfold dispatch. destruct (dispatch_events events _) as [wk m1] eqn:Ee.
  pose proof (now_law (ra_os r)) as L. destruct (os_now (ra_os r)) as [now o]. destruct L as (_ & _ & L).
  destruct (dispatch_timers now m1) as [wt m2] eqn:Et. intros [= <- <-]. split_and!; [done.. |].
  intros t e He. pose proof (dispatch_events_run _ _ _ _ t Ee) as H. rewrite He in H.
  destruct H as (e1 & H1 & Hti & Hs). destruct (dispatch_timers_run _ _ _ _ _ _ Et H1) as (e2 & H2 & Hsl & Ht).
  exists e2. split_and!; [done | |].
  - intros c w Hw. rewrite elem_of_app, Hsl. destruct (Hs c w Hw); [by left; left | by right].
  - intros d w Hw. rewrite elem_of_app. rewrite <- Hti in Hw. destruct (Ht d w Hw); [by left; right | by right].
Qed.
Lemma take_all_run st wake st' t e : take_all st = (wake, st') → rs_entries st !! t = Some e →
  is_Some (rs_entries st' !! t) ∧ (∀ c w, slot c e = Some w → w ∈ wake) ∧
  ∀ d w, w_timer e = Some (d, w) → w ∈ wake.
Proof.
  intros [= <- <-] He. cbn. rewrite lookup_fmap, He. split; [by eexists |].
  assert (∀ w, w ∈ all_wakers e → w ∈ concat (map (λ e, all_wakers e.2) (entry_list (rs_entries st)))) as H.
  { intros w Hw. apply list_elem_of_In, in_concat. exists (all_wakers e). split; [| by apply list_elem_of_In].
    apply in_map_iff. exists (t, e). split; [done |]. by apply list_elem_of_In, entry_list_elem. }
  unfold all_wakers in H. split.
  - intros c w Hw. apply H. rewrite !elem_of_app. destruct c; cbn in Hw; rewrite Hw; [right; left | left]; left.
  - intros d w Hw. apply H. rewrite !elem_of_app, Hw. right; right; left.
Qed.

(** ** Every step keeps the invariant *)

Lemma wake_op_ok o e k k' t c w p q :
  (∀ x, coming k x → x = w ∨ coming k' x) → (∀ events, k ≠ HasEvents events) →
  wake_op w q = Some p → op_ok o e k t c q → op_ok o e k' t c p.
Proof.
  intros Hc Hk. destruct q as [w' b | w' b | w']; cbn.
  - by intros [= <-].
  - intros [= <-] [-> | [H | H]]; cbn; [by left | | by right; right].
    destruct (Hc _ H) as [-> | ?]; [left | by right; left]. by rewrite N.eqb_refl, orb_true_r.
  - destruct (N.eqb_spec w w'); [done |]. intros [= <-] [H | [H1 H2]]; cbn.
    + destruct (Hc _ H) as [? | ?]; [by subst | by left].
    + right. split; [done |]. intros Hr. destruct (H2 Hr) as [? | (evs & E & _)]; [by left | by destruct (Hk evs)].
Qed.
Lemma wake_timer_ok o e k k' w p q :
  (∀ x, coming k x → x = w ∨ coming k' x) → (∀ since tmo, k' ≠ Polling since tmo) →
  wake_timer w q = Some p → timer_ok o e k q → timer_ok o e k' p.
Proof.
  intros Hc Hk. destruct q as [d w' b | d w']; cbn.
  - intros [= <-] [-> | [H | H]]; cbn; [by left | | by right; right].
    destruct (Hc _ H) as [-> | ?]; [left | by right; left]. by rewrite N.eqb_refl, orb_true_r.
  - destruct (N.eqb_spec w w'); [done |]. intros [= <-] [H | [H1 H2]]; cbn.
    + destruct (Hc _ H) as [? | ?]; [by subst | by left].
    + right. split; [done |]. intros since tmo E. by destruct (Hk since tmo).
Qed.
Lemma sys_inv_wake r k k' ss cs ops ts w :
  (∀ x, coming k x → x = w ∨ coming k' x) → (∀ events, k ≠ HasEvents events) →
  (∀ since tmo, k' ≠ Polling since tmo) →
  sys_inv (mkSys r k ss cs ops ts) → sys_inv (mkSys r k' ss cs (omap (wake_op w) ops) (omap (wake_timer w) ts)).
Proof.
  intros Hc Hk Hk'. apply sys_inv_worker; try done.
  - intros t c p. rewrite lookup_omap. intros (q & Hq & Hp)%bind_Some. exists q. split; [done |]. by apply (wake_op_ok _ _ _ _ _ _ w).
  - intros t p. rewrite lookup_omap. intros (q & Hq & Hp)%bind_Some. exists q. split; [done |]. by apply (wake_timer_ok _ _ _ _ w).
Qed.

(** A worker step that takes wakers only into the list it is about to wake. *)
Lemma sys_inv_taken r r' k k' ss cs ops ts :
  ra_next r' = ra_next r →
  (∀ fd t, token_of (ra_os r) fd = Some t → token_of (ra_os r') fd = Some t) →
  (∀ w, coming k w → coming k' w) →
  (∀ t e, rs_entries (ra_state r) !! t = Some e → ∃ e', rs_entries (ra_state r') !! t = Some e' ∧
    (∀ c w, slot c e = Some w → coming k' w ∨ slot c e' = Some w ∧
      ((ready (ra_os r) t c = true → announced (ra_os r) k t c) →
       ready (ra_os r') t c = true → announced (ra_os r') k' t c)) ∧
    ∀ d w, w_timer e = Some (d, w) → coming k' w ∨ w_timer e' = Some (d, w) ∧
      (in_time (ra_os r) k d → in_time (ra_os r') k' d)) →
  sys_inv (mkSys r k ss cs ops ts) → sys_inv (mkSys r' k' ss cs ops ts).
Proof.
  intros Hn Hf Hk He. apply sys_inv_worker; [done | | done | |].
  - intros t [e Ht]. destruct (He t e Ht) as (e' & -> & _). by eexists.
  - intros t c p Hp. exists p. split; [done |]. destruct p as [w b | w b | w]; cbn; [done | |].
    + intros [H | [H | (e & Ht & Hw)%bind_Some]]; [by left | right; left; by apply Hk |].
      destruct (He t e Ht) as (e' & -> & Hs & _). destruct (Hs c w Hw) as [? | [? _]]; [by right; left | by right; right].
    + intros [H | [(e & Ht & Hw)%bind_Some Hr]]; [left; by apply Hk |].
      destruct (He t e Ht) as (e' & -> & Hs & _). destruct (Hs c w Hw) as [? | [? Ha]]; [by left | right]. split; [done |]. by apply Ha.
  - intros t p Hp. exists p. split; [done |]. destruct p as [d w b | d w]; cbn.
    + intros [H | [H | (e & Ht & Hw)%bind_Some]]; [by left | right; left; by apply Hk |].
      destruct (He t e Ht) as (e' & -> & _ & Hs). destruct (Hs d w Hw) as [? | [? _]]; [by right; left | by right; right].
    + intros [H | [(e & Ht & Hw)%bind_Some Hr]]; [left; by apply Hk |].
      destruct (He t e Ht) as (e' & -> & _ & Hs). destruct (Hs d w Hw) as [? | [? Ha]]; [by left | right]. split; [done |]. by apply Ha.
Qed.

(** Changing one entry: the operations and timers of other tokens do not see
    it; those of its own must be accounted for. *)
Lemma sys_inv_entry r k ss cs ops ts t m' next :
  ra_next r ≤ next →
  (∀ t', t' ≠ t → m' !! t' = rs_entries (ra_state r) !! t') →
  (∀ c p, ops !! (t, c) = Some p → is_Some (ss !! t) →
     op_ok (ra_os r) (rs_entries (ra_state r) !! t) k t c p → op_ok (ra_os r) (m' !! t) k t c p) →
  (∀ p, ts !! t = Some p → t ∈ cs →
     timer_ok (ra_os r) (rs_entries (ra_state r) !! t) k p → timer_ok (ra_os r) (m' !! t) k p) →
  (t ∈ cs → is_Some (rs_entries (ra_state r) !! t) → is_Some (m' !! t)) →
  sys_inv (mkSys r k ss cs ops ts) →
  sys_inv (mkSys (mkReactor (ra_os r) (with_entries (λ _, m') (ra_state r)) next) k ss cs ops ts).
Proof.
  intros Hn Hm Ho Ht Hc [H1 H2 H3 H4]. split; cbn in *.
  - intros t' c p Hp. destruct (H1 t' c p Hp) as [Hs Hok]. split; [done |].
    destruct (decide (t' = t)) as [-> | Hne]; [by apply Ho | by rewrite Hm].
  - intros t' p Hp. destruct (H2 t' p Hp) as [Hs Hok]. split; [done |].
    destruct (decide (t' = t)) as [-> | Hne]; [by apply Ht | by rewrite Hm].
  - intros t' fd Hs. destruct (H3 t' fd Hs). split; [done | lia].
  - intros t' Hs. destruct (H4 t' Hs) as (He & ? & ?). split_and!; [| lia | done].
    destruct (decide (t' = t)) as [-> | Hne]; [by apply Hc | by rewrite Hm].
Qed.

(** The steps, one by one. *)
Lemma inv_token r k ss cs ops ts t r' :
  token r = (Ok t, r') → sys_inv (mkSys r k ss cs ops ts) → sys_inv (mkSys r' k ss cs ops ts).
Proof.
  intros Ht Hi. unfold token in Ht. destruct (checked_add _ _ _) as [next |] eqn:En; [| done]. injection Ht as <- <-.
  apply checked_add_Some in En as [-> _].
  assert (ss !! ra_next r = None ∧ (ra_next r ∉ cs)) as [Hs Hc].
  { destruct Hi as [_ _ H3 H4]. cbn in *. split.
    - destruct (ss !! ra_next r) as [fd |] eqn:E; [| done]. destruct (H3 _ _ E). lia.
    - intros E. destruct (H4 _ E) as (_ & ? & _). lia. }
  apply (sys_inv_entry r k ss cs ops ts (ra_next r) (<[ra_next r := Waiters_default]> (rs_entries (ra_state r)))); [lia | | | | | done].
  - intros t' Hne. by rewrite lookup_insert_ne.
  - intros c p _ [fd E]. by rewrite Hs in E.
  - by intros p _ ?.
  - by intros ?.
Qed.
Lemma inv_register r k ss cs ops ts t fd rd wr x o :
  t < ra_next r → t ∉ cs → mio_register fd t rd wr (ra_os r) = (x, o) →
  sys_inv (mkSys r k ss cs ops ts) → sys_inv (mkSys (put_os o r) k (if is_ok x then <[t := fd]> ss else ss) cs ops ts).
Proof.
  intros Hn Hc Hr Hi. pose proof (register_law fd t rd wr (ra_os r)) as [L1 L2]. rewrite Hr in L1, L2. cbn in L1, L2.
  apply (sys_inv_os r o) in Hi; [| done]. destruct x as [[] | e]; cbn [is_ok]; [| done].
  destruct Hi as [H1 H2 H3 H4]. split; cbn in *; [| done | |].
  - intros t' c p Hp. destruct (H1 t' c p Hp) as [Hs' Hok]. split; [| done]. rewrite lookup_insert. case_decide; [by eexists | done].
  - intros t' fd'. rewrite lookup_insert. case_decide as E; [intros [= <-]; subst; auto | apply H3].
  - intros t' Hc'. destruct (H4 t' Hc') as (? & ? & ?). split_and!; [done.. |]. rewrite lookup_insert_ne; [done |]. by intros ->.
Qed.
Lemma inv_remove r k ss cs ops ts t :
  ss !! t = None → t ∉ cs → sys_inv (mkSys r k ss cs ops ts) → sys_inv (mkSys (remove t r) k ss cs ops ts).
Proof.
  intros Hs Hc. apply (sys_inv_entry r k ss cs ops ts t (delete t (rs_entries (ra_state r)))); [done | | | |].
  - intros t' Hne. by rewrite lookup_delete_ne.
  - intros c p _ [fd E]. by rewrite Hs in E.
  - by intros p _ ?.
  - by intros ?.
Qed.
Lemma inv_close r k ss cs ops ts t fd x o :
  ss !! t = Some fd → mio_deregister fd (ra_os r) = (x, o) → sys_inv (mkSys r k ss cs ops ts) →
  sys_inv (mkSys (put_os o r) k (delete t ss) cs (delete (t, false) (delete (t, true) ops)) ts).
Proof.
  intros Hs Hd [H1 H2 H3 H4]. pose proof (deregister_law fd (ra_os r)) as L. rewrite Hd in L. cbn in *.
  destruct (H3 t fd Hs) as [Htok _]. rewrite Htok in L. split; cbn.
  - intros t' c p. rewrite !lookup_delete_Some. intros (Hne & Hne' & Hp). destruct (H1 t' c p Hp) as [Hs' Hok].
    assert (t' ≠ t) as Htt by (intros ->; destruct c; congruence).
    split; [by rewrite lookup_delete_ne |]. eapply op_ok_evolves; [exact L | congruence | done].
  - intros t' p Hp. destruct (H2 t' p Hp). split; [done |]. by eapply timer_ok_evolves.
  - intros t' fd'. rewrite lookup_delete_Some. intros [Hne Hs']. destruct (H3 t' fd' Hs') as [Ht' ?]. split; [| done].
    apply L; [congruence | done].
  - intros t' Hc'. destruct (H4 t' Hc') as (? & ? & ?). split_and!; [done.. |]. rewrite lookup_delete_None. by right.
Qed.
Lemma inv_store r k ss cs ops ts t c w b x st :
  ops !! (t, c) = Some (Checked w b) → arm_store t c w (ra_state r) = (x, st) → sys_inv (mkSys r k ss cs ops ts) →
  sys_inv (mkSys (put_state st r) k ss cs (if is_ok x then <[(t, c) := Stored w b]> ops else delete (t, c) ops) ts).
Proof.
  intros Hop Hst Hi. destruct (iv_ops _ Hi t c _ Hop) as [Hsk _]. cbn in Hsk.
  assert (sys_inv (mkSys r k ss cs (delete (t, c) ops) ts)) as Hd.
  { eapply sys_inv_forget; [| done | exact Hi]. intros j p. by intros [_ ?]%lookup_delete_Some. }
  unfold arm_store in Hst. destruct (rs_entries (ra_state r) !! t) as [e |] eqn:Ee; injection Hst as <- <-; cbn [is_ok].
  2: by replace (put_state (ra_state r) r) with r by by destruct r.
  rewrite <- insert_delete_eq. apply sys_inv_op; [done | |].
  - cbn. right. right. rewrite lookup_insert_eq. by destruct c.
  - apply (sys_inv_entry r k ss cs (delete (t, c) ops) ts t (<[t := set_waker c w e]> (rs_entries (ra_state r))) (ra_next r)); [done | | | | | done].
    + intros t' Hne. by rewrite lookup_insert_ne.
    + intros c' p Hp _. apply lookup_delete_Some in Hp as [Hne _]. rewrite lookup_insert_eq, Ee.
      assert (slot c' (set_waker c w e) = slot c' e) as E by by destruct c, c'.
      unfold op_ok. cbn. by rewrite E.
    + intros p _ _. rewrite lookup_insert_eq, Ee. unfold timer_ok. cbn. by destruct c.
    + intros _ _. rewrite lookup_insert_eq. by eexists.
Qed.
Lemma inv_attempt r k ss cs ops ts t fd w b c x o :
  ss !! t = Some fd → ops !! (t, call_write c) = Some (Stored w b) → attempt c fd (ra_os r) = (x, o) →
  sys_inv (mkSys r k ss cs ops ts) →
  sys_inv (mkSys (put_os o r) k ss cs
    (if x && negb b then <[(t, call_write c) := Waiting w]> ops else delete (t, call_write c) ops) ts).
Proof.
  intros Hs Hop Ha Hi. destruct (iv_sockets _ Hi t fd Hs) as [Htok _]. cbn in Htok.
  pose proof (call_law c fd t (ra_os r) Htok) as L. rewrite Ha in L.
  destruct L as [Lev Lb]. destruct (iv_ops _ Hi _ _ _ Hop) as [Hsk Hok]. cbn in Hok.
  destruct (x && negb b) eqn:Eb.
  - apply andb_true_iff in Eb as [-> Eb]. destruct b; [done |]. apply sys_inv_op; [done | | by apply sys_inv_os].
    cbn. destruct Hok as [[=] | [? | ?]]; [by left | right]. split; [done |]. intros Hr. left. by apply Lb.
  - apply (sys_inv_forget _ _ _ _ ops _ ts ts); [by intros j p [_ ?]%lookup_delete_Some | done | by apply sys_inv_os].
Qed.
Lemma inv_timer_store r k ss cs ops ts t d w :
  t ∈ cs → sys_inv (mkSys r k ss cs ops ts) →
  sys_inv (mkSys (on_state (timer_store t d w) r) k ss cs ops (<[t := TimerStored d w false]> ts)).
Proof.
  intros Hc Hi. destruct (iv_clocks _ Hi t Hc) as ([e Ee] & _ & Hns). cbn in Ee, Hns.
  assert (sys_inv (mkSys r k ss cs ops (delete t ts))) as Hd.
  { eapply sys_inv_forget; [done | | exact Hi]. intros j p. by intros [_ ?]%lookup_delete_Some. }
  rewrite <- insert_delete_eq. apply sys_inv_timer; [done | |].
  - cbn. right. right. by rewrite lookup_alter_eq, Ee.
  - apply (sys_inv_entry r k ss cs ops (delete t ts) t (alter (λ e, mkWaiters (w_read e) (w_write e) (Some (d, w))) t
      (rs_entries (ra_state r))) (ra_next r)); [done | | | | | done].
    + intros t' Hne. by rewrite lookup_alter_ne.
    + intros c p _ [fd E]. congruence.
    + intros p Hp. by rewrite lookup_delete_eq in Hp.
    + intros _ _. rewrite lookup_alter_eq, Ee. by eexists.
Qed.
Lemma inv_interrupt r k ss cs ops ts t d w b :
  ts !! t = Some (TimerStored d w b) → sys_inv (mkSys r k ss cs ops ts) →
  sys_inv (mkSys (interrupt r) k ss cs ops (if b then delete t ts else <[t := TimerWaiting d w]> ts)).
Proof.
  intros Ht Hi. pose proof (wake_law (ra_os r)) as [Lev Li]. destruct (iv_timers _ Hi t _ Ht) as [Hc Hok]. cbn in Hc, Hok.
  apply (sys_inv_os r (mio_wake (ra_os r))) in Hi; [| done].
  change (interrupt r) with (put_os (mio_wake (ra_os r)) r). destruct b.
  - eapply sys_inv_forget; [done | | exact Hi]. intros j p. by intros [_ ?]%lookup_delete_Some.
  - apply sys_inv_timer; [done | | done]. cbn. destruct Hok as [[=] | [? | ?]]; [by left | right].
    split; [done |]. intros since tmo _. by left.
Qed.

(** The worker's steps. *)
Lemma inv_timeout r ss cs ops ts tmo r' :
  timeout r = (tmo, r') → sys_inv (mkSys r AtHead ss cs ops ts) →
  sys_inv (mkSys r' (Polling (time (ra_os r)) tmo) ss cs ops ts).
Proof.
  intros (Hev & Est & En & Hall)%timeout_run. apply sys_inv_taken; [done | | done |].
  - intros fd t. by apply Hev.
  - intros t e He. rewrite Est. exists e. split_and!; [done | |].
    + intros c w Hw. right. split; [done |]. intros Hr Hr'. destruct Hev as (Re & Qe & _).
      destruct (Re t c ltac:(done) Hr') as [H | H]; [| by left].
      destruct (Hr H) as [? | (? & [=] & _)]. left. by apply Qe.
    + intros d w Hw. right. split; [done |]. intros _ since tmo' [= <- <-]. right. apply (Hall t d w). by rewrite He.
Qed.
Lemma inv_poll r ss cs ops ts since tmo x o :
  mio_poll tmo (ra_os r) = (x, o) → sys_inv (mkSys r (Polling since tmo) ss cs ops ts) →
  sys_inv (mkSys (put_os o r)
    (match x with Ok events => HasEvents events | Err Interrupted => AtHead | Err e => Failing e end) ss cs ops ts).
Proof.
  intros Hp. pose proof (poll_law tmo (ra_os r)) as L. rewrite Hp in L. destruct L as (Lr & Lq & Lt & _).
  apply sys_inv_taken; [done | done | done |].
  intros t e He. exists e. split_and!; [done | |].
  - intros c w Hw. right. split; [done |]. intros Hr Hr'. destruct (Lr t c Hr') as [H | H]; [| by left].
    destruct (Hr H) as [Hq | (? & [=] & _)]. destruct (Lq t c Hq) as [? | (evs & ev & -> & Hev)]; [by left | right].
    exists evs. split; [done |]. by exists ev.
  - intros d w Hw. right. split; [done |]. intros _ since' tmo' E. by destruct x as [| []].
Qed.
Lemma inv_dispatch r ss cs ops ts evs wake r' :
  dispatch evs r = (wake, r') → sys_inv (mkSys r (HasEvents evs) ss cs ops ts) →
  sys_inv (mkSys r' (Waking wake) ss cs ops ts).
Proof.
  intros (Hev & En & Hall)%dispatch_run. apply sys_inv_taken; [done | | done |].
  - intros fd t. by apply Hev.
  - intros t e He. destruct (Hall t e He) as (e' & He' & Hs & Ht). exists e'. split_and!; [done | |].
    + intros c w Hw. destruct (Hs c w Hw) as [? | [Hsl Hnc]]; [by left | right]. split; [done |]. intros Hr Hr'.
      destruct Hev as (Re & Qe & _). destruct (Re t c ltac:(done) Hr') as [H | H]; [| by left].
      destruct (Hr H) as [? | (? & [= <-] & Hcov)]; [left; by apply Qe | done].
    + intros d w Hw. destruct (Ht d w Hw); [by left | right]. split; [done |]. by intros _ ? ? [=].
Qed.
Lemma inv_take r ss cs ops ts wake st :
  take_all (ra_state r) = (wake, st) → sys_inv (mkSys r Taking ss cs ops ts) →
  sys_inv (mkSys (put_state st r) (LastWaking wake) ss cs ops ts).
Proof.
  intros Ht. apply sys_inv_taken; try done. intros t e He.
  destruct (take_all_run _ _ _ _ _ Ht He) as ([e' He'] & Hs & Hti). exists e'. split_and!; [done | |].
  - intros c w Hw. left. by apply (Hs c).
  - intros d w Hw. left. by apply (Hti d).
Qed.
(** A step that takes and wakes nothing. *)
Lemma inv_moves r r' k k' ss cs ops ts :
  ra_os r' = ra_os r → ra_next r' = ra_next r → rs_entries (ra_state r') = rs_entries (ra_state r) →
  (∀ w, coming k w → coming k' w) → (∀ events, k ≠ HasEvents events) → (∀ since tmo, k' ≠ Polling since tmo) →
  sys_inv (mkSys r k ss cs ops ts) → sys_inv (mkSys r' k' ss cs ops ts).
Proof.
  intros Ho Hn He Hc Hk Hk'. apply sys_inv_taken; [done | by rewrite Ho | done |].
  intros t e Ht. rewrite Ho, He. exists e. split_and!; [done | |].
  - intros c w Hw. right. split; [done |]. intros Hr Hr'. destruct (Hr Hr') as [? | (evs & E & _)]; [by left | by destruct (Hk evs)].
  - intros d w Hw. right. split; [done |]. intros _ since tmo E. by destruct (Hk' since tmo).
Qed.

Lemma sys_inv_step who s s' : sys_step who s s' → sys_inv s → sys_inv s'.
Proof.
  intros [r k ss cs ops ts o He | r k ss cs ops ts t r' Ht | r k ss cs ops ts t fd rd wr x o Hn Hs Hc Hr
    | r k ss cs ops ts t Hn Hs Hc He | r k ss cs ops ts t Hs Hc | r k ss cs ops ts t fd x o Hs Hf Ht Hd
    | r k ss cs ops ts t Hc Ht | r k ss cs ops ts t fd c w Hs Hid Hck | r k ss cs ops ts t c w b x st Hop Hst
    | r k ss cs ops ts t fd w b c x o Hs Hop Ha | r k ss cs ops ts t now o Hc Ht Hnow | r k ss cs ops ts t d w Hc Ht
    | r k ss cs ops ts t d w b Ht | r ss cs ops ts tmo r' since Hst Ht -> | r ss cs ops ts since tmo x o Hp
    | r ss cs ops ts evs wake r' Hd | r ss cs ops ts w wake | r ss cs ops ts | r ss cs ops ts e
    | r ss cs ops ts wake st Ht | r ss cs ops ts w wake | r ss cs ops ts] Hi.
  - by apply sys_inv_os.
  - by eapply inv_token.
  - by eapply inv_register.
  - destruct Hi as [H1 H2 H3 H4]. split; cbn in *; [done | | done |].
    + intros t' p Hp. destruct (H2 t' p Hp). split; [set_solver | done].
    + intros t' [->%elem_of_singleton | Hc']%elem_of_union; [done | by apply H4].
  - by apply inv_remove.
  - by eapply inv_close.
  - destruct Hi as [H1 H2 H3 H4]. split; cbn in *; [done | | done |].
    + intros t' p. rewrite lookup_delete_Some. intros [Hne Hp]. destruct (H2 t' p Hp). split; [set_solver | done].
    + intros t' Hc'. apply H4. set_solver.
  - by apply sys_inv_op; [eexists | |].
  - by eapply inv_store.
  - by eapply inv_attempt.
  - pose proof (now_law (ra_os r)) as L. rewrite Hnow in L. destruct L as (_ & _ & L).
    apply (sys_inv_forget _ _ _ _ ops _ ts _); [done | by intros j p [_ ?]%lookup_delete_Some | by apply sys_inv_os].
  - by apply inv_timer_store.
  - by eapply inv_interrupt.
  - by apply inv_timeout.
  - by eapply inv_poll.
  - by eapply inv_dispatch.
  - by apply (sys_inv_wake _ (Waking (w :: wake))); [intros x Hx; apply elem_of_cons in Hx | ..].
  - apply (inv_moves r r (Waking [])); try done. by intros w ?%not_elem_of_nil.
  - by apply (inv_moves r _ (Failing e)).
  - by eapply inv_take.
  - by apply (sys_inv_wake _ (LastWaking (w :: wake))); [intros x Hx; apply elem_of_cons in Hx | ..].
  - apply (inv_moves r r (LastWaking [])); try done. by intros w ?%not_elem_of_nil.
Qed.
Lemma sys_inv_reach o s : rtc any_step (sys_start o) s → sys_inv s.
Proof.
  intros H. assert (sys_inv (sys_start o)) as H0 by by split; cbn; set_solver.
  induction H as [| s1 s2 s3 [who Hs] _ IH]; [done |]. by apply IH, (sys_inv_step who s1).
Qed.

(** ** Nobody sleeps on readiness *)

(** C6: no wakeup is lost while the worker lives.  Let sockets, clocks, their
    tasks and the worker run interleaved at every critical section, under any
    behaviour of the machine, from a fresh reactor.  Whenever the worker waits
    in its poll, with no event queued and no interrupt pending, every task that
    went to sleep on a socket sleeps on one that is not ready, with its waker
    armed; and for every sleeping timer the poll's own time limit ends by the
    timer's deadline, counted from when the worker read the clock.  So as long
    as polls return, whoever sleeps is woken. *)
Theorem no_lost_wakeup o s since tmo :
  rtc any_step (sys_start o) s → sy_worker s = Polling since tmo →
  (∀ t c, queued (ra_os (sy_reactor s)) t c = false) → interrupted (ra_os (sy_reactor s)) = false →
  (∀ t c w, sy_ops s !! (t, c) = Some (Waiting w) →
     ready (ra_os (sy_reactor s)) t c = false ∧
     ∃ e, rs_entries (ra_state (sy_reactor s)) !! t = Some e ∧ slot c e = Some w) ∧
  (∀ t d w, sy_timers s !! t = Some (TimerWaiting d w) →
     (∃ e, rs_entries (ra_state (sy_reactor s)) !! t = Some e ∧ w_timer e = Some (d, w)) ∧
     ∃ x, tmo = Some x ∧ since + x ≤ N.max d since).
Proof.
  intros Hi%sys_inv_reach Hk Hq Hint. destruct Hi as [H1 H2 _ _]. rewrite Hk in *. split.
  - intros t c w Hp. destruct (H1 t c _ Hp) as [_ [[] | [(e & He & Hw)%bind_Some Hr]]]. split; [| by exists e].
    destruct (ready _ t c); [| done]. destruct (Hr eq_refl) as [E | (? & [=] & _)]. by rewrite Hq in E.
  - intros t d w Hp. destruct (H2 t _ Hp) as [_ [[] | [(e & He & Hw)%bind_Some Hr]]]. split; [by exists e |].
    destruct (Hr since tmo eq_refl) as [E | ?]; [by rewrite Hint in E | done].
Qed.

(** ** After the worker has failed *)

(** A step of anyone but the owner of the token. *)
Definition other_step (t : N) (s s' : Sys) : Prop := ∃ who, who ≠ Some t ∧ sys_step who s s'.

(** A worker that left its loop wakes nobody. *)
Lemma exited_step t s s' : other_step t s s' → sy_worker s = Exited →
  sy_worker s' = Exited ∧ (∀ c, sy_ops s' !! (t, c) = sy_ops s !! (t, c)) ∧ sy_timers s' !! t = sy_timers s !! t.
Proof.
  intros (who & Hw & Hs) Hk. destruct Hs; cbn in *; try done.
  all: split_and!; [done | intros c' | try done].
  all: repeat match goal with |- context [if ?b then _ else _] => destruct b end.
  all: rewrite ?lookup_insert_ne, ?lookup_delete_ne by congruence; done.
Qed.
Lemma exited_stays t s s' : rtc (other_step t) s s' → sy_worker s = Exited →
  (∀ c, sy_ops s' !! (t, c) = sy_ops s !! (t, c)) ∧ sy_timers s' !! t = sy_timers s !! t.
Proof.
  induction 1 as [| s1 s2 s3 Hs _ IH]; [done |]. intros Hk.
  destruct (exited_step t _ _ Hs Hk) as (Hk' & Ho & Ht). destruct (IH Hk') as [Ho' Ht']. split; [| by rewrite Ht'].
  intros c. by rewrite Ho'.
Qed.
End system.

(** ** A machine *)

Module Demo.

Record Machine : Type := mkMachine {
  mc_now : Instant;
  mc_registered : gmap Fd N;
  mc_ready : gset (N * bool);
  mc_queue : gset (N * bool);
  mc_interrupt : bool;
  mc_fault : bool;
}.
Definition with_ready (x : gset (N * bool)) (o : Machine) : Machine :=
  mkMachine (mc_now o) (mc_registered o) x (mc_queue o) (mc_interrupt o) (mc_fault o).
Definition side (b : N * bool) : Event := mkEvent b.1 (negb b.2) b.2 false false false.
Definition fault : ErrorKind := OtherKind 9.

#[local] Instance mio : Mio Machine := {|
  os_now o := (mc_now o, o);
  mio_register fd t r w o :=
    match mc_registered o !! fd with
    | Some _ => (Err OtherError, o)
    | None => (Ok tt, mkMachine (mc_now o) (<[fd := t]> (mc_registered o)) (mc_ready o) (mc_queue o) (mc_interrupt o) (mc_fault o))
    end;
  mio_deregister fd o :=
    (Ok tt, mkMachine (mc_now o) (delete fd (mc_registered o)) (mc_ready o) (mc_queue o) (mc_interrupt o) (mc_fault o));
  mio_wake o := mkMachine (mc_now o) (mc_registered o) (mc_ready o) (mc_queue o) true (mc_fault o);
  mio_poll _ o :=
    if mc_fault o then (Err fault, o)
    else (Ok (side <$> elements (mc_queue o)), mkMachine (mc_now o) (mc_registered o) (mc_ready o) ∅ false false);
|}.
(** A ready side serves one call. *)
Definition serve {A} (c : bool) (a : result ErrorKind A) (fd : Fd) (o : Machine) : result ErrorKind A * Machine :=
  match mc_registered o !! fd with
  | None => (Err OtherError, o)
  | Some t => if decide ((t, c) ∈ mc_ready o) then (a, with_ready (mc_ready o ∖ {[(t, c)]}) o) else (Err WouldBlock, o)
  end.
Definition peer : SocketAddr := SocketAddrV4 (mkIpv4 x7f x00 x00 x01) 80.
#[local] Instance net : Net Machine := {|
  tcp_connect _ o := (Ok 5, o);
  tcp_bind _ o := (Ok 6, o);
  tcp_read fd _ := serve false (Ok [x00]) fd;
  tcp_write fd b := serve true (Ok (len b)) fd;
  tcp_accept fd := serve false (Err OtherError) fd;
  tcp_take_error _ o := (Ok None, o);
  tcp_peer_addr fd := serve true (Ok peer) fd;
  tcp_local_addr _ _ := Ok peer;
  tcp_shutdown _ o := (Ok tt, o);
  tcp_drop _ o := o;
|}.

Definition m_ready (o : Machine) (t : N) (c : bool) : bool := bool_decide ((t, c) ∈ mc_ready o).
Definition m_queued (o : Machine) (t : N) (c : bool) : bool := bool_decide ((t, c) ∈ mc_queue o).

#[local, refine] Instance laws : PortLaws Machine := {|
  ready := m_ready;
  queued := m_queued;
  interrupted := mc_interrupt;
  time := mc_now;
  token_of o fd := mc_registered o !! fd;
|}.
Proof.
  - intros o. cbn. split_and!; auto; done.
  - intros fd t r w o. cbn. destruct (mc_registered o !! fd) as [t' |] eqn:E; cbn; split; try done.
    + split_and!; auto; done.
    + split_and!; auto; try done. intros fd' t' _ H. rewrite lookup_insert. case_decide; [subst; congruence | done].
    + intros _. by rewrite lookup_insert_eq.
  - intros fd o. cbn. split_and!; auto; try done. intros fd' t' Hb H. rewrite lookup_delete_ne; [done | congruence].
  - intros o. cbn. split; [split_and!; auto; done | done].
  - intros tmo o. cbn. destruct (mc_fault o); cbn; split_and!; auto; try done.
    intros t w Hq. right. exists (side <$> elements (mc_queue o)), (side (t, w)). split_and!; [done | | done | by destruct w].
    apply list_elem_of_fmap. exists (t, w). split; [done |]. apply elem_of_elements. by apply bool_decide_eq_true in Hq.
  - intros c fd t o Ht. cbn in Ht.
    assert (∀ A (a : result ErrorKind A) b (blocked : result ErrorKind A → bool), blocked a = false →
      let '(x, o') := serve b a fd o in
      ((∀ t w, None ≠ Some t → m_ready o' t w = true → m_ready o t w = true ∨ m_queued o' t w = true) ∧
       (∀ t w, None ≠ Some t → m_queued o t w = true → m_queued o' t w = true) ∧
       (∀ fd t, None ≠ Some t → mc_registered o !! fd = Some t → mc_registered o' !! fd = Some t) ∧
       (mc_interrupt o = true → mc_interrupt o' = true) ∧ mc_now o ≤ mc_now o') ∧
      (blocked x = true → m_ready o' t b = true → m_queued o' t b = true)) as H.
    { intros A a b blocked Ha. unfold serve. rewrite Ht. unfold m_ready, m_queued.
      destruct (decide ((t, b) ∈ mc_ready o)) as [Hin | Hin]; cbn; split; try congruence.
      - split_and!; auto; try done. intros t' w _. rewrite !bool_decide_eq_true. left. set_solver.
      - split_and!; auto; done.
      - intros _. by rewrite bool_decide_eq_true. }
    destruct c; unfold attempt; cbn.
    + specialize (H bytes (Ok [x00]) false blocks eq_refl). by destruct (serve _ _ _ _).
    + specialize (H N (Ok (len b)) true blocks eq_refl). by destruct (serve _ _ _ _).
    + specialize (H Fd (Err OtherError) false blocks eq_refl). by destruct (serve _ _ _ _).
    + specialize (H SocketAddr (Ok peer) true (λ x, match x with Err e => bool_decide (e = NotConnected ∨ e = WouldBlock) | Ok _ => false end) eq_refl).
      by destruct (serve _ _ _ _).
Defined.

Definition machine (faulty : bool) : Machine := mkMachine 5 ∅ ∅ ∅ false faulty.
Ltac compute_step := first [vm_compute; reflexivity | vm_compute; by eexists | vm_compute; done].
Ltac computed := lazymatch goal with |- rtc _ ?s _ => let s' := eval vm_compute in s in change s with s' | |- _ => idtac end.
Ltac task t := computed; eapply rtc_l; [exists (Some t) |].
Ltac worker := computed; eapply rtc_l; [exists None |].

(** A task asleep on a silent socket, and a clock's asleep until a deadline of
    9, beside a worker that waits for 4. *)
Lemma sleeping : ∃ s, rtc any_step (sys_start (machine false)) s ∧ sy_worker s = Polling 5 (Some 4) ∧
    ra_os (sy_reactor s) = mkMachine 5 {[5 := 1]} ∅ ∅ false false ∧
    sy_ops s !! (1, false) = Some (Waiting 7) ∧ sy_timers s !! 2 = Some (TimerWaiting 9 8).
Proof.
  eexists. split.
  - task 1; [eapply SyToken; compute_step |]. task 1; [eapply (SyRegister _ _ _ _ _ _ 1 5 true true); compute_step |].
    task 1; [eapply (SyCheck _ _ _ _ _ _ 1 5 false 7); compute_step |].
    task 1; [eapply (SyStore _ _ _ _ _ _ 1 false 7); compute_step |].
    task 1; [eapply (SyAttempt _ _ _ _ _ _ 1 5 7 false (CRead 1)); compute_step |].
    task 2; [eapply SyToken; compute_step |]. task 2; [eapply (SyClock _ _ _ _ _ _ 2); compute_step |].
    task 2; [eapply (SyTimer _ _ _ _ _ _ 2 9 8); compute_step |].
    task 2; [eapply (SyInterrupt _ _ _ _ _ _ 2 9 8 false); compute_step |].
    worker; [eapply SyTimeout; compute_step |]. worker; [eapply SyPoll; compute_step |].
    worker; [eapply SyDispatch; compute_step |]. worker; [eapply SyAgain |].
    worker; [eapply SyTimeout; compute_step |]. computed. apply rtc_refl.
  - vm_compute. done.
Qed.
Lemma no_lost_wakeup_witness : ∃ s w d v,
  sy_ops s !! (1, false) = Some (Waiting w) ∧ sy_timers s !! 2 = Some (TimerWaiting d v) ∧
  ready (ra_os (sy_reactor s)) 1 false = false ∧ ∃ x, Some 4 = Some x ∧ 5 + x ≤ N.max d 5.
Proof.
  destruct sleeping as (s & Hs & Hk & Ho & Hop & Ht).
  exists s, 7, 9, 8. split; [exact Hop |]. split; [exact Ht |].
  destruct (no_lost_wakeup (machine false) s 5 (Some 4) Hs Hk) as [H1 H2].
  - intros t c. rewrite Ho. reflexivity.
  - by rewrite Ho.
  - split; [by apply (H1 1 false 7 Hop) | by apply (H2 2 9 8 Ht)].
Defined.

(** C34: a failure can strand a task.  There is a run in which the worker records a
    failure, takes the wakers there are and leaves, while an operation that had
    already looked for a failure stores its waker after that, blocks, and
    sleeps: from then on no step of anyone but its own task wakes it, although
    its socket is ready. *)
Theorem arming_races_failure : ∃ s w,
  rtc any_step (sys_start (machine true)) s ∧ rs_error (ra_state (sy_reactor s)) = Some fault ∧
  ready (ra_os (sy_reactor s)) 1 false = true ∧ queued (ra_os (sy_reactor s)) 1 false = true ∧
  ∀ s', rtc (other_step 1) s s' → sy_ops s' !! (1, false) = Some (Waiting w).
Proof.
  assert (∃ s, rtc any_step (sys_start (machine true)) s ∧ sy_worker s = Exited ∧
    rs_error (ra_state (sy_reactor s)) = Some fault ∧ m_ready (ra_os (sy_reactor s)) 1 false = true ∧
    m_queued (ra_os (sy_reactor s)) 1 false = true ∧ sy_ops s !! (1, false) = Some (Waiting 7)) as (s & Hs & Hk & He & Hr & Hq & Hop).
  { eexists. split.
    - task 1; [eapply SyToken; compute_step |]. task 1; [eapply (SyRegister _ _ _ _ _ _ 1 5 true true); compute_step |].
      task 1; [eapply (SyCheck _ _ _ _ _ _ 1 5 false 7); compute_step |].
      worker; [eapply SyTimeout; compute_step |]. worker; [eapply SyPoll; compute_step |].
      worker; [eapply SyRecord |]. worker; [eapply SyTake; compute_step |]. worker; [eapply SyExit |].
      task 1; [eapply (SyStore _ _ _ _ _ _ 1 false 7); compute_step |].
      task 1; [eapply (SyAttempt _ _ _ _ _ _ 1 5 7 false (CRead 1)); compute_step |].
      worker; [eapply (SyEnvironment _ _ _ _ _ _ (mkMachine 5 {[5 := 1]} {[(1, false)]} {[(1, false)]} false true)) |].
      + split_and!; [| | auto | auto | done]; intros t c _.
        * intros H. right. exact H.
        * intros H. vm_compute in H. discriminate H.
      + apply rtc_refl.
    - vm_compute. done. }
  exists s, 7. split_and!; [done | done | exact Hr | exact Hq |]. intros s' Hs'.
  destruct (exited_stays 1 _ _ Hs' Hk) as [E _]. by rewrite E.
Qed.

(** Nor does a clock observe the failure: a timer set after the worker has
    left is stored, its task sleeps, and no step of anyone else wakes it. *)
Theorem timers_ignore_failure : ∃ s w,
  rtc any_step (sys_start (machine true)) s ∧ rs_error (ra_state (sy_reactor s)) = Some fault ∧
  ∀ s', rtc (other_step 1) s s' → sy_timers s' !! 1 = Some (TimerWaiting 9 w).
Proof.
  assert (∃ s, rtc any_step (sys_start (machine true)) s ∧ sy_worker s = Exited ∧
    rs_error (ra_state (sy_reactor s)) = Some fault ∧ sy_timers s !! 1 = Some (TimerWaiting 9 8)) as (s & Hs & Hk & He & Ht).
  { eexists. split.
    - task 1; [eapply SyToken; compute_step |]. task 1; [eapply (SyClock _ _ _ _ _ _ 1); compute_step |].
      worker; [eapply SyTimeout; compute_step |]. worker; [eapply SyPoll; compute_step |].
      worker; [eapply SyRecord |]. worker; [eapply SyTake; compute_step |]. worker; [eapply SyExit |].
      task 1; [eapply (SyTimer _ _ _ _ _ _ 1 9 8); compute_step |].
      task 1; [eapply (SyInterrupt _ _ _ _ _ _ 1 9 8 false); compute_step |]. computed. apply rtc_refl.
    - vm_compute. done. }
  exists s, 8. split_and!; [done | done |]. intros s' Hs'.
  destruct (exited_stays 1 _ _ Hs' Hk) as [_ E]. by rewrite E.
Qed.
End Demo.
