(* ===== verification/Doubles.v ===== *)
(** * The test doubles of the Transport

    [src/modules/transport/test_support/{script,socket,network,clock,wake,consumer,
    crypto,identity}.rs]: what the unit tests put behind the ports.  A double that
    is shared with the test through an [Arc] is a state both sides step; a failed
    assertion is a [Panic], which keeps what was written before it; an operation
    that wakes tasks answers the wakers it woke.  The theorems say what makes the
    doubles fit to test against: scripts are exact, sockets deliver what was pushed
    to them in order whatever the buffers, and nobody who was told to wait is
    forgotten. *)

From S2P Require Import Prelude Bytes Header Api Resources Framing FramingProps Ports Session Connection Driver Reactor.

#[local] Open Scope N_scope.

(** What an assertion of the test support says when it fails. *)
Inductive Panic : Type :=
| UnexpectedCall | CallMismatch | UnconsumedExpectations | UseEof | ReadAfterClosure | WriteAfterClosure
| UnconsumedSteps | CompletionAfterClosure | AlreadyCompleted | WrongReply | LabelReused | NoCapacity.

(** [Option::take] *)
Definition woken {W} (w : option W) : list W := match w with Some w => [w] | None => [] end.

(** ** Exact scripts: [script.rs] *)
Module Calls.
Section script.
Context {C R : Type} `{!EqDecision C}.

Record Script : Type := mkScript { expected : list (C * R); calls : list C }.

Definition new (l : list (C * R)) : Script := mkScript l [].
(** The call is recorded and the expectation consumed before they are compared. *)
Definition call (actual : C) : M Script Panic R := λ s,
  let log := calls s ++ [actual] in
  match expected s with
  | [] => (Err UnexpectedCall, mkScript [] log)
  | (c, reply) :: l => (if bool_decide (actual = c) then Ok reply else Err CallMismatch, mkScript l log)
  end.
Definition push (c : C) (reply : R) (s : Script) : Script := mkScript (expected s ++ [(c, reply)]) (calls s).
Definition assert_finished (s : Script) : result Panic unit :=
  if is_empty (expected s) then Ok tt else Err UnconsumedExpectations.

(** The code under test makes calls one after the other. *)
Fixpoint calling (cs : list C) : M Script Panic (list R) :=
  match cs with
  | [] => mret []
  | c :: cs => r ← call c; rs ← calling cs; mret (r :: rs)
  end.
(** A whole test: the calls, and the script used up. *)
Definition test (l : list (C * R)) (cs : list C) : result Panic (list R) :=
  let '(x, s) := calling cs (new l) in
  rs ← x; _ ← assert_finished s; Ok rs.

Lemma calling_ok cs : ∀ l log rs s',
  calling cs (mkScript l log) = (Ok rs, s') ↔
  take (length cs) l = zip cs rs ∧ length rs = length cs ∧ s' = mkScript (drop (length cs) l) (log ++ cs).
Proof.
  induction cs as [| c cs IH]; intros l log rs s'; cbn [calling].
  - cbn. rewrite app_nil_r. split; [by intros [= <- <-] |]. intros (_ & H & ->). by destruct rs.
  - unfold_m. unfold call. cbn [expected calls]. destruct l as [| [d r] l]; [split; [done |]; intros (H1 & H2 & _); by destruct rs |].
    case_bool_decide as Hc.
    + subst d. destruct (calling cs (mkScript l (log ++ [c]))) as [[rs1 | e] s1] eqn:E.
      * apply IH in E as (H1 & H2 & ->). rewrite <- app_assoc. cbn. split.
        -- intros [= <- <-]. cbn. by rewrite H1, H2.
        -- intros (H3 & H4 & ->). destruct rs as [| r1 rs]; [done |]. cbn in H3, H4. injection H3 as -> H3.
           rewrite H1 in H3. do 3 f_equal. apply (f_equal (map snd)) in H3. injection H4 as H4.
           change (map snd (zip cs rs1)) with ((zip cs rs1).*2) in H3.
           change (map snd (zip cs rs)) with ((zip cs rs).*2) in H3. rewrite !snd_zip in H3 by lia. done.
      * split; [done |]. intros (H3 & H4 & ->). destruct rs as [| r1 rs]; [done |]. cbn in H3, H4.
        injection H3 as -> H3. injection H4 as H4. discriminate (eq_trans (eq_sym E) (proj2 (IH _ _ rs _) (conj H3 (conj H4 eq_refl)))).
    + split; [done |]. intros (H1 & _). destruct rs as [| r1 rs]; [done |]. cbn in H1. by injection H1.
Qed.

(** A test passes exactly when the code makes the scripted calls, all of them and
    in order, and then each was answered with its own reply. *)
Theorem script_exact l cs rs : test l cs = Ok rs ↔ l = zip cs rs ∧ length rs = length cs.
Proof.
  unfold test, new. destruct (calling cs (mkScript l [])) as [[rs1 | e] s1] eqn:E; unfold_m.
  - apply calling_ok in E as (H1 & H2 & ->). unfold assert_finished. cbn [expected].
    destruct (drop (length cs) l) as [| x k] eqn:E; cbn [is_empty].
    + assert (l = zip cs rs1) as -> by (by rewrite <- H1, <- (take_drop (length cs) l), E, app_nil_r at 1).
      split; [by intros [= <-] |]. intros [H3 H4]. f_equal. apply (f_equal (λ k, k.*2)) in H3.
      rewrite !snd_zip in H3 by lia. done.
    + split; [done |]. intros [-> H3]. exfalso. apply (f_equal length) in E. rewrite length_drop, length_zip_with in E. cbn in E. lia.
  - split; [done |]. intros [-> H3]. exfalso.
    assert (take (length cs) (zip cs rs) = zip cs rs) as Ht by (rewrite take_ge; [done | rewrite length_zip_with; lia]).
    discriminate (eq_trans (eq_sym E) (proj2 (calling_ok cs (zip cs rs) [] rs _) (conj Ht (conj H3 eq_refl)))).
Qed.
End script.
Arguments Script : clear implicits.
Arguments mkScript {C R} _ _.
End Calls.

(** ** Scripted sockets: [socket.rs] *)
Module Sockets.
Inductive ReadStep : Type := Bytes (b : bytes) | ReadError (k : ErrorKind) | Eof.
Inductive WriteStep : Type := Accept (n : N) | WriteFailed (k : ErrorKind).

Section socket.
Context {W : Type}.

(** Between a socket and its control. *)
Record State : Type := mkState {
  reads : list ReadStep;
  writes : list WriteStep;
  written : bytes;
  read_waker : option W;
  write_waker : option W;
  eof_queued : bool;
  eof : bool;
  closed : bool;
}.
Definition State_default : State := mkState [] [] [] None None false false false.

(** [SocketControl] *)
Definition push_read (step : ReadStep) : M State Panic (list W) := λ s,
  if match step with Bytes [] => true | _ => false end then (Err UseEof, s)
  else if closed s || eof_queued s then (Err ReadAfterClosure, s)
  else (Ok (woken (read_waker s)),
        mkState (reads s ++ [step]) (writes s) (written s) None (write_waker s)
          match step with Eof => true | _ => false end (eof s) (closed s)).
Definition push_write (step : WriteStep) : M State Panic (list W) := λ s,
  if closed s then (Err WriteAfterClosure, s)
  else (Ok (woken (write_waker s)),
        mkState (reads s) (writes s ++ [step]) (written s) (read_waker s) None (eof_queued s) (eof s) (closed s)).
Definition replace_writes (steps : list WriteStep) (s : State) : list W * State :=
  (woken (write_waker s),
   mkState (reads s) steps (written s) (read_waker s) None (eof_queued s) (eof s) (closed s)).
Definition assert_finished (s : State) : result Panic unit :=
  if is_empty (reads s) && is_empty (writes s) then Ok tt else Err UnconsumedSteps.

(** [ScriptedSocket], polled by the task [cx]; a buffer comes back as it was
    left. *)
Definition with_reads (l : list ReadStep) (at_end : bool) (s : State) : State :=
  mkState l (writes s) (written s) (read_waker s) (write_waker s) (eof_queued s) at_end (closed s).
Definition poll_read (cx : W) (s : State) (buffer : bytes) : Poll (result ErrorKind N) * bytes * State :=
  if closed s then (Ready (Err NotConnected), buffer, s)
  else if is_empty buffer || eof s then (Ready (Ok 0), buffer, s)
  else match reads s with
       | Bytes b :: l =>
         let count := Nat.min (length buffer) (length b) in
         (Ready (Ok (N.of_nat count)), take count b ++ drop count buffer,
          with_reads (if (count <? length b)%nat then Bytes (drop count b) :: l else l) (eof s) s)
       | ReadError k :: l => (Ready (Err k), buffer, with_reads l (eof s) s)
       | Eof :: l => (Ready (Ok 0), buffer, with_reads l true s)
       | [] => (Pending, buffer,
                mkState [] (writes s) (written s) (Some cx) (write_waker s) (eof_queued s) (eof s) (closed s))
       end.
Definition with_writes (l : list WriteStep) (out : bytes) (s : State) : State :=
  mkState (reads s) l (written s ++ out) (read_waker s) (write_waker s) (eof_queued s) (eof s) (closed s).
Definition poll_write (cx : W) (s : State) (b : bytes) : Poll (result ErrorKind N) * State :=
  if closed s then (Ready (Err NotConnected), s)
  else if is_empty b then (Ready (Ok 0), s)
  else match writes s with
       | Accept limit :: l =>
         let count := Nat.min (N.to_nat limit) (length b) in
         (Ready (Ok (N.of_nat count)), with_writes l (take count b) s)
       | WriteFailed k :: l => (Ready (Err k), with_writes l [] s)
       | [] => (Pending, mkState (reads s) [] (written s) (read_waker s) (Some cx) (eof_queued s) (eof s) (closed s))
       end.
(** [close], which dropping the socket calls too. *)
Definition close (s : State) : list W * State :=
  (woken (read_waker s) ++ woken (write_waker s),
   mkState (reads s) (writes s) (written s) None None (eof_queued s) (eof s) true).

Lemma poll_read_keeps_length cx s buffer : length (poll_read cx s buffer).1.2 = length buffer.
Proof.
  unfold poll_read. destruct (closed s); [done |]. destruct (is_empty buffer || eof s); [done |].
  destruct (reads s) as [| [b | k |] l]; try done. cbn. rewrite length_app, length_take, length_drop. lia.
Qed.

(** *** Runs

    What the test and the code under test do to a socket. *)
Inductive Action : Type :=
| Read (cx : W) (buffer : bytes) | Write (cx : W) (b : bytes) | Close
| PushRead (step : ReadStep) | PushWrite (step : WriteStep) | ReplaceWrites (steps : list WriteStep).
(** The state after it, the bytes it read and wrote, and the tasks it woke. *)
Definition act (a : Action) (s : State) : State * bytes * list W :=
  match a with
  | Read cx buffer =>
    let '(x, buffer, s) := poll_read cx s buffer in
    (s, match x with Ready (Ok n) => take (N.to_nat n) buffer | _ => [] end, [])
  | Write cx b => ((poll_write cx s b).2, [], [])
  | Close => let '(ws, s) := close s in (s, [], ws)
  | PushRead step => let '(x, s) := push_read step s in (s, [], match x with Ok ws => ws | Err _ => [] end)
  | PushWrite step => let '(x, s) := push_write step s in (s, [], match x with Ok ws => ws | Err _ => [] end)
  | ReplaceWrites steps => let '(ws, s) := replace_writes steps s in (s, [], ws)
  end.
Fixpoint acts (l : list Action) (s : State) : State * bytes * list W :=
  match l with
  | [] => (s, [], [])
  | a :: l =>
    let '(s, got, ws) := act a s in
    let '(s, more, vs) := acts l s in
    (s, got ++ more, ws ++ vs)
  end.

(** What is queued for the reader, and what an action queues. *)
Definition queued (l : list ReadStep) : bytes := concat (map (λ r, match r with Bytes b => b | _ => [] end) l).
Definition pushed (a : Action) (s : State) : bytes :=
  match a with
  | PushRead step => if is_ok (push_read step s).1 then queued [step] else []
  | _ => []
  end.
Fixpoint all_pushed (l : list Action) (s : State) : bytes :=
  match l with [] => [] | a :: l => pushed a s ++ all_pushed l (act a s).1.1 end.

(** Whoever waits, waits with reason; the end of input comes last. *)
Record waiting (s : State) : Prop := {
  wt_read : is_Some (read_waker s) → reads s = [] ∧ eof s = false ∧ closed s = false;
  wt_write : is_Some (write_waker s) → writes s = [] ∧ closed s = false;
  wt_eof : eof s = true → reads s = [] ∧ eof_queued s = true;
  wt_last l k : reads s = l ++ Eof :: k → k = [] ∧ eof_queued s = true;
  wt_bytes : Forall (λ r, r ≠ Bytes []) (reads s);
}.
Lemma waiting_default : waiting State_default.
Proof. split; cbn; [by intros [] | by intros [] | done | by intros [] | done]. Qed.
Lemma act_waiting a s : waiting s → waiting (act a s).1.1.
Proof.
  intros Hs. pose proof Hs as [Hr Hw He Hl Hb].
  destruct a as [cx buffer | cx b | | step | step | steps]; cbn [act].
  - unfold poll_read. destruct (closed s) eqn:Hc; [exact Hs |].
    destruct (is_empty buffer || eof s) eqn:Hi; [exact Hs |].
    apply orb_false_iff in Hi as [_ Hi]. destruct (reads s) as [| step l] eqn:E.
    { split; cbn; try assumption; rewrite ?Hc; try done; by intros []. }
    assert (read_waker s = None) as Hn by (destruct (read_waker s); [by destruct Hr as [[=] _] | done]).
    assert (∀ k m, l = k ++ Eof :: m → m = [] ∧ eof_queued s = true) as Ht.
    { intros k m ->. by apply (Hl (step :: k)). }
    apply Forall_cons in Hb as [Hx Hb]. destruct step as [b | k |]; cbn -[Nat.ltb].
    + destruct (Nat.ltb_spec (Nat.min (length buffer) (length b)) (length b)) as [H | H];
        split; cbn; rewrite ?Hn, ?Hi, ?Hc; try assumption; try done; try (by intros []).
      * intros [| x k] m; cbn; intros H1; [discriminate H1 |]. injection H1 as _ H1. by eapply Ht.
      * apply Forall_cons. split; [| done]. intros [= Hd]. apply (f_equal length) in Hd. rewrite length_drop in Hd. cbn in Hd. lia.
    + split; cbn; rewrite ?Hn, ?Hc, ?Hi; try assumption; try done; by intros [].
    + destruct (Hl [] l eq_refl) as [-> Hq]. split; cbn; rewrite ?Hn, ?Hc; try assumption; try done; by intros [].
  - unfold poll_write. destruct (closed s) eqn:Hc; [exact Hs |]. destruct (is_empty b); [exact Hs |].
    destruct (writes s) as [| step l] eqn:E; [split; cbn; rewrite ?Hc; try assumption; done |].
    assert (write_waker s = None) as Hn by (destruct (write_waker s); [by destruct Hw as [[=] _] | done]).
    destruct step; split; cbn; rewrite ?Hn, ?Hc; try assumption; by intros [].
  - split; cbn; try assumption; by intros [].
  - unfold push_read. destruct (match step with Bytes [] => true | _ => false end) eqn:Hb'; [exact Hs |].
    destruct (closed s || eof_queued s) eqn:Hc; [exact Hs |]. apply orb_false_iff in Hc as [Hc Hq].
    rewrite Hq in *. split; cbn; try assumption.
    + by intros [].
    + intros H. by destruct (He H) as [_ [=]].
    + intros l k H. destruct k as [| x k _] using rev_ind.
      * apply app_inj_tail in H as [_ ->]. done.
      * rewrite app_comm_cons, app_assoc in H. apply app_inj_tail in H as [H _]. by destruct (Hl _ _ H) as [_ [=]].
    + apply Forall_app. split; [done |]. apply Forall_singleton. by intros ->.
  - unfold push_write. destruct (closed s); [exact Hs |]. split; cbn; try assumption. by intros [].
  - split; cbn; try assumption. by intros [].
Qed.

Lemma act_reads a s : queued (reads s) ++ pushed a s = (act a s).1.2 ++ queued (reads (act a s).1.1).
Proof.
  destruct a as [cx buffer | cx b | | step | step | steps]; cbn [act pushed]; rewrite ?app_nil_r.
  - unfold poll_read. destruct (closed s); [done |]. destruct (is_empty buffer || eof s); [done |].
    destruct (reads s) as [| [b | k |] l] eqn:E; cbn -[Nat.ltb]; rewrite ?E; try done.
    rewrite Nat2N.id. set (n := Nat.min (length buffer) (length b)).
    rewrite take_app_length' by (rewrite length_take; lia).
    destruct (Nat.ltb_spec n (length b)); unfold queued; cbn; fold (queued l).
    + by rewrite app_assoc, take_drop.
    + by rewrite take_ge by lia.
  - unfold poll_write. destruct (closed s); [done |]. destruct (is_empty b); [done |].
    by destruct (writes s) as [| [] l].
  - done.
  - destruct (push_read step s) as [x s'] eqn:E. cbn. unfold push_read in E.
    destruct (match step with Bytes [] => true | _ => false end); [injection E as <- <-; by rewrite app_nil_r |].
    destruct (closed s || eof_queued s); injection E as <- <-; cbn; [by rewrite app_nil_r |].
    unfold queued. by rewrite map_app, concat_app.
  - unfold push_write. by destruct (closed s).
  - done.
Qed.

Lemma acts_waiting l : ∀ s, waiting s → waiting (acts l s).1.1.
Proof.
  induction l as [| a l IH]; intros s Hs; [done |]. cbn [acts]. apply (act_waiting a) in Hs.
  destruct (act a s) as [[s1 got] ws]. specialize (IH s1 Hs). by destruct (acts l s1) as [[s2 more] vs].
Qed.

(** The bytes that were read, whatever the buffers, and those still queued are
    those that were pushed, in their order. *)
Theorem reads_in_order (l : list Action) :
  let '(s, got, _) := acts l State_default in got ++ queued (reads s) = all_pushed l State_default.
Proof.
  assert (∀ l s, let '(s', got, _) := acts l s in got ++ queued (reads s') = queued (reads s) ++ all_pushed l s) as H.
  { clear l. induction l as [| a l IH]; intros s; cbn [acts all_pushed]; [by rewrite app_nil_r |].
    pose proof (act_reads a s) as Ha. destruct (act a s) as [[s1 got] ws]. cbn [fst snd] in *. specialize (IH s1).
    destruct (acts l s1) as [[s2 more] vs]. by rewrite <- app_assoc, IH, !app_assoc, Ha. }
  by specialize (H l State_default).
Qed.

Definition reads_again (a : Action) : bool := match a with Read _ _ => true | _ => false end.
Definition writes_again (a : Action) : bool := match a with Write _ _ => true | _ => false end.

(** Nobody who was told to wait is forgotten: from the read, or write, that
    answered [Pending] on, until the next of its kind, either the task has been
    woken or the socket is still not ready. *)
Theorem sleepers_woken (before later : list Action) cx b :
  b ≠ [] →
  let s := (acts before State_default).1.1 in
  ((poll_read cx s b).1.1 = Pending → Forall (λ a, reads_again a = false) later →
   let '(s', _, ws) := acts later (poll_read cx s b).2 in
   cx ∈ ws ∨ ∀ cx' b', b' ≠ [] → (poll_read cx' s' b').1.1 = Pending) ∧
  ((poll_write cx s b).1 = Pending → Forall (λ a, writes_again a = false) later →
   let '(s', _, ws) := acts later (poll_write cx s b).2 in
   cx ∈ ws ∨ ∀ cx' b', b' ≠ [] → (poll_write cx' s' b').1 = Pending).
Proof.
  intros Hb. cbv zeta. pose proof (acts_waiting before _ waiting_default) as Hs.
  generalize dependent (acts before State_default).1.1. intros s Hs.
  assert (∀ l s, waiting s → waiting (acts l s).1.1 ∧
    (Forall (λ a, reads_again a = false) l → read_waker s = Some cx →
     cx ∈ (acts l s).2 ∨ read_waker (acts l s).1.1 = Some cx) ∧
    (Forall (λ a, writes_again a = false) l → write_waker s = Some cx →
     cx ∈ (acts l s).2 ∨ write_waker (acts l s).1.1 = Some cx)) as Hl.
  { clear. induction l as [| a l IH]; intros s Hs; [by split_and!; [| right | right] |]. cbn [acts].
    pose proof (act_waiting a s Hs) as H1.
    assert ((reads_again a = false → read_waker s = Some cx → cx ∈ (act a s).2 ∨ read_waker (act a s).1.1 = Some cx) ∧
            (writes_again a = false → write_waker s = Some cx → cx ∈ (act a s).2 ∨ write_waker (act a s).1.1 = Some cx)) as [Hr Hw].
    { clear IH H1. split; intros Ha Hx; destruct a as [cx' buffer | cx' b | | step | step | steps]; try done;
        cbn [act]; unfold poll_read, poll_write, close, push_read, push_write, replace_writes;
        repeat case_match; simplify_eq; cbn; rewrite ?Hx; cbn; set_solver. }
    destruct (act a s) as [[s1 got] ws]. cbn [fst snd] in *. destruct (IH s1 H1) as (H2 & H3 & H4).
    destruct (acts l s1) as [[s2 more] vs]. cbn [fst snd] in *. split_and!; [done | |].
    - intros [Ha Hf]%Forall_cons Hx. destruct (Hr Ha Hx); set_solver.
    - intros [Ha Hf]%Forall_cons Hx. destruct (Hw Ha Hx); set_solver. }
  split; intros Hp Hf.
  - assert (read_waker (poll_read cx s b).2 = Some cx) as Hx.
    { revert Hp. unfold poll_read. by repeat case_match. }
    pose proof (act_waiting (Read cx b) s Hs) as Hs'. cbn [act] in Hs'.
    destruct (poll_read cx s b) as [[x buffer] s1]. cbn [fst snd] in *.
    destruct (Hl later s1 Hs') as (Hw & Hr & _). destruct (acts later s1) as [[s2 got] ws]. cbn [fst snd] in *.
    destruct (Hr Hf Hx) as [| Hx']; [by left | right]. intros cx' b' Hb'.
    destruct (wt_read _ Hw) as (H1 & H2 & H3); [by rewrite Hx' |]. unfold poll_read. rewrite H1, H2, H3. by destruct b'.
  - assert (write_waker (poll_write cx s b).2 = Some cx) as Hx.
    { revert Hp. unfold poll_write. by repeat case_match. }
    pose proof (act_waiting (Write cx b) s Hs) as Hs'. cbn [act fst] in Hs'.
    destruct (poll_write cx s b) as [x s1]. cbn [fst snd] in *.
    destruct (Hl later s1 Hs') as (Hw & _ & Hr). destruct (acts later s1) as [[s2 got] ws]. cbn [fst snd] in *.
    destruct (Hr Hf Hx) as [| Hx']; [by left | right]. intros cx' b' Hb'.
    destruct (wt_write _ Hw) as (H1 & H2); [by rewrite Hx' |]. unfold poll_write. rewrite H1, H2. by destruct b'.
Qed.
End socket.
Arguments State : clear implicits.
Arguments Action : clear implicits.
End Sockets.

(** *** A socket that a task polls serves the port *)
Module Polled.
Import Sockets.

Section polled.
Context {W : Type}.

Record Polled : Type := mkPolled { task : W; socket : State W }.

Definition polled_read (p : Polled) (b : bytes) : Poll (result ErrorKind N) * bytes * Polled :=
  let '(x, b, s) := poll_read (task p) (socket p) b in (x, b, mkPolled (task p) s).
Definition polled_write (p : Polled) (b : bytes) : Poll (result ErrorKind N) * Polled :=
  let '(x, s) := poll_write (task p) (socket p) b in (x, mkPolled (task p) s).
#[global] Program Instance Polled_socket : Socket Polled := {|
  Framing.poll_read := polled_read;
  Framing.poll_write := polled_write;
  socket_close p := (Ok tt, mkPolled (task p) (close (socket p)).2);
|}.
Next Obligation.
  intros p b. pose proof (poll_read_keeps_length (task p) (socket p) b) as H. unfold polled_read.
  by destruct (poll_read (task p) (socket p) b) as [[x b'] s].
Qed.

(** Read one frame, polling at most [n] times. *)
Fixpoint poll_frames (n : nat) (phase : FrameProtection) (r : FrameReader) (p : Polled) (cx : Context)
    : Poll (result FramingError (option WireFrame)) * FrameReader * Polled * Context :=
  match n with
  | O => (Pending, r, p, cx)
  | S n =>
    match FrameReader_poll_frame r p cx phase with
    | (Pending, r, p, cx) => poll_frames n phase r p cx
    | done => done
    end
  end.

(** The adversarial stream of the framing theorems that such a socket is. *)
Definition as_step (r : ReadStep) : Framing.ReadStep :=
  match r with
  | Bytes (b :: l) => RBytes b l
  | Bytes [] => RPending
  | ReadError _ => RInterrupted
  | Eof => REof
  end.
Definition as_script (p : Polled) : Framing.Script :=
  let s := socket p in
  Framing.mkScript (map as_step (reads s) ++ (if eof s then [REof] else [])) [] [] false.
(** Open, with its end queued, and no failure but interruptions. *)
Definition readable (p : Polled) : Prop :=
  waiting (socket p) ∧ closed (socket p) = false ∧ (Eof ∈ reads (socket p) ∨ eof (socket p) = true) ∧
  Forall (λ r, match r with ReadError k => k = Interrupted | _ => True end) (reads (socket p)).

Lemma poll_read_as_script p buffer : readable p → buffer ≠ [] →
  let '(x, b, p') := Framing.poll_read p buffer in
  script_read (as_script p) buffer = (x, b, as_script p') ∧ readable p'.
Proof.
  destruct p as [cx s]. intros (Hw & Hc & He & Hf) Hb. cbn in Hc, He, Hf.
  pose proof (act_waiting (Read cx buffer) s Hw) as Hw'. cbn in Hw'.
  unfold Framing.poll_read, Polled_socket, polled_read, as_script, readable. cbn [task socket] in *.
  unfold poll_read in *. rewrite Hc in *. destruct buffer as [| x0 buffer]; [done |]. cbn [is_empty orb] in *.
  destruct (eof s) eqn:Hi.
  { destruct (wt_eof _ Hw Hi) as [Hr _]. cbn [socket]. rewrite Hi, Hr. split; [done |].
    split_and!; [done | done | by right | done]. }
  destruct He as [He | He]; [| done]. destruct (reads s) as [| [b | k |] l] eqn:E; [by apply elem_of_nil in He | | |].
  - apply elem_of_cons in He as [[=] | He]. apply Forall_cons in Hf as [_ Hf].
    pose proof (wt_bytes _ Hw) as Hne. rewrite E in Hne. apply Forall_cons in Hne as [Hne _].
    destruct b as [| b0 b]; [done |]. cbn -[Nat.min Nat.ltb] in Hw' |- *.
    set (n := Nat.min (S (length buffer)) (S (length b))) in *. clearbody n. rewrite Hc.
    destruct (Nat.ltb_spec n (S (length b))) as [Hlt | Hge].
    + destruct (drop n (b0 :: b)) as [| y ys] eqn:Ed.
      { apply (f_equal length) in Ed. rewrite length_drop in Ed. cbn in Ed. lia. }
      split; [done |]. split_and!; [done | done | left; by right | by apply Forall_cons].
    + rewrite (drop_ge (b0 :: b) n) by (cbn; lia). split; [done |]. split_and!; [done | done | by left | done].
  - apply Forall_cons in Hf as [-> Hf]. apply elem_of_cons in He as [[=] | He]. cbn in *. rewrite Hc.
    split; [done |]. split_and!; [done | done | by left | done].
  - destruct (wt_last _ Hw [] l E) as [-> _]. cbn in *. rewrite Hc. split; [done |].
    split_and!; [done | done | by right | done].
Qed.

Lemma read_loop_as_script phase fuel : ∀ r p cx,
  readable p → (rd_offset r ≤ length (rd_bytes r))%nat →
  let '(x, r', p', cx') := read_loop fuel phase r p cx in
  read_loop fuel phase r (as_script p) cx = (x, r', as_script p', cx') ∧ readable p' ∧
  (x = Pending → (rd_offset r' ≤ length (rd_bytes r'))%nat).
Proof.
  induction fuel as [| fuel IH]; intros r p cx Hp Ho; [done |]. cbn [read_loop].
  destruct (Nat.eqb_spec (rd_offset r) (length (rd_bytes r))) as [Heq | Hne].
  - destruct (rd_header r) as [h |]; [by destruct (bool_decide _) |].
    destruct (FrameHeader_decode (rd_bytes r)) as [h | e] eqn:Hd; [| done].
    destruct (FrameHeader_frame_len h phase) as [n | e] eqn:Hn; [| done]. apply IH; [done |].
    cbn. apply FrameHeader_decode_length in Hd. unfold FrameHeader_frame_len in Hn. apply ok_or_Ok in Hn.
    apply bind_Some in Hn as (m & Hm%checked_add_Some & Hn%checked_add_Some). unfold HEADER_BYTES in *.
    unfold vec_resize. rewrite length_app, length_take, length_replicate. lia.
  - pose proof (poll_read_as_script p (drop (rd_offset r) (rd_bytes r)) Hp) as H.
    pose proof (poll_read_length p (drop (rd_offset r) (rd_bytes r))) as Hl.
    destruct (Framing.poll_read p _) as [[x b] p']. destruct H as [H Hp'].
    { intros H%(f_equal length). rewrite length_drop in H. cbn in H. lia. }
    cbn [fst snd] in Hl. rewrite length_drop in Hl.
    unfold Framing.poll_read, Script_socket. rewrite H.
    assert (∀ off, (off ≤ length (rd_bytes r))%nat → (off ≤ length (take (rd_offset r) (rd_bytes r) ++ b))%nat) as Hoff.
    { intros off Hoff. rewrite length_app, length_take. lia. }
    destruct x as [[count | k] |]; [| | by split_and!; [| | intros _; apply Hoff]].
    + destruct (N.eqb_spec count 0); [by destruct (_ =? _)%nat |].
      destruct (N.leb_spec count (N.of_nat (length (rd_bytes r) - rd_offset r))); [| done].
      apply IH; [done |]. cbn. apply Hoff. lia.
    + destruct k; try done. apply IH; [done |]. cbn. by apply Hoff.
Qed.

Lemma poll_frames_as_script n phase : ∀ r p cx,
  readable p → (rd_offset r ≤ length (rd_bytes r))%nat →
  let '(x, r', p', cx') := poll_frames n phase r p cx in
  poll_reader n phase r (as_script p) cx = (x, r', as_script p', cx').
Proof.
  induction n as [| n IH]; intros r p cx Hp Ho; [done |]. cbn [poll_frames poll_reader].
  unfold FrameReader_poll_frame, poll_frame_within. destruct (rd_failed r); [done |]. destruct (rd_eof r); [done |].
  destruct (match rd_phase r with Some old => bool_decide (old ≠ phase) | None => false end); [done |].
  match goal with |- context [read_loop 64 phase ?x p cx] => set (r0 := x) end.
  assert (rd_offset r0 ≤ length (rd_bytes r0))%nat as Ho0.
  { unfold r0. cbn. destruct (rd_bytes r) eqn:E; cbn [is_empty]; [| done].
    cbn in Ho. lia. }
  pose proof (read_loop_as_script phase 64 r0 p cx Hp Ho0) as H.
  destruct (read_loop 64 phase r0 p cx) as [[[x r'] p'] cx']. destruct H as (-> & Hp' & Hx).
  destruct x as [x |]; [done |]. by apply IH, Hx.
Qed.

(** A frame read through a scripted socket, however the test cut the bytes up and
    interrupted the reads, is the frame, or the error, that parsing the queued
    bytes at once gives. *)
Theorem scripted_frames phase p cx n : readable p → (read_cost (Framing.reads (as_script p)) + 1 < n)%nat →
  ∃ x r' p' cx', poll_frames n phase FrameReader_default p cx = (Ready x, r', p', cx') ∧
    outcome phase (queued (reads (socket p))) x r' (as_script p').
Proof.
  intros Hp Hn. pose proof (poll_frames_as_script n phase FrameReader_default p cx Hp (le_n 0)) as H.
  destruct (poll_frames n phase FrameReader_default p cx) as [[[x r'] p'] cx'].
  assert (REof ∈ Framing.reads (as_script p)) as He.
  { destruct Hp as (_ & _ & [He | He] & _); cbn.
    - apply elem_of_app. left. apply list_elem_of_fmap. by exists Eof.
    - rewrite He. apply elem_of_app. right. by left. }
  assert (stream (Framing.reads (as_script p)) = queued (reads (socket p))) as Hs.
  { destruct Hp as (Hw & _ & _ & _). cbn. destruct (eof (socket p)) eqn:Hi.
    { by destruct (wt_eof _ Hw Hi) as [-> _]. }
    rewrite app_nil_r. pose proof (wt_last _ Hw) as Hl. revert Hl. clear. induction (reads (socket p)) as [| r l IH]; [done |].
    intros Hl. assert (stream (map as_step l) = queued l) as IH'.
    { apply IH. intros k m ->. by apply (Hl (r :: k)). }
    destruct r as [[| b0 b] | k |]; cbn; unfold queued; cbn; fold (queued l); rewrite ?IH'; try done.
    by destruct (Hl [] l eq_refl) as [-> _]. }
  destruct (poll_reader_refines n phase (stream (Framing.reads (as_script p))) FrameReader_default (as_script p) cx)
    as (x0 & r0 & s0 & cx0 & Hx & Ho); [by right | unfold reading_cost; cbn [rd_header FrameReader_default]; lia |].
  rewrite H in Hx. injection Hx as -> -> Hx ->. rewrite Hs in Ho. exists x0, r0, p', cx0. split; [done |]. by rewrite Hx.
Qed.
End polled.
End Polled.

(** ** Connect, listen and accept: [network.rs] *)
Module Networks.
Section queue.
Context {W Sk : Type}.

Record QueueState : Type := mkQueue {
  results : list (result ErrorKind Sk);
  waker : option W;
  closed : bool;
  single_result : bool;
}.
Definition queue_new (single : bool) : QueueState := mkQueue [] None false single.
Definition queue_poll (cx : W) (q : QueueState) : Poll (result ErrorKind Sk) * QueueState :=
  if closed q then (Ready (Err NotConnected), q)
  else match results q with
       | r :: l => (Ready r, mkQueue l (waker q) (closed q) (single_result q))
       | [] => (Pending, mkQueue [] (Some cx) (closed q) (single_result q))
       end.
(** Results that nobody took are dropped. *)
Definition queue_close (q : QueueState) : list W * QueueState :=
  (woken (waker q), mkQueue [] None true (single_result q)).
Definition queue_push (r : result ErrorKind Sk) : M QueueState Panic (list W) := λ q,
  if closed q then (Err CompletionAfterClosure, q)
  else if single_result q && negb (is_empty (results q)) then (Err AlreadyCompleted, q)
  else (Ok (woken (waker q)), mkQueue (results q ++ [r]) None (closed q) (single_result q)).

Record ScriptedConnecting : Type := mkConnecting { cn_queue : QueueState; cn_done : bool }.
Definition ScriptedConnecting_new : ScriptedConnecting := mkConnecting (queue_new true) false.
Definition poll_connected (cx : W) (c : ScriptedConnecting) : Poll (result ErrorKind Sk) * list W * ScriptedConnecting :=
  if cn_done c then (Ready (Err NotConnected), [], c)
  else match queue_poll cx (cn_queue c) with
       | (Ready r, q) => let '(ws, q) := queue_close q in (Ready r, ws, mkConnecting q true)
       | (Pending, q) => (Pending, [], mkConnecting q false)
       end.

Record ScriptedListener : Type := mkListener { ln_address : SocketAddr; ln_queue : QueueState }.
Definition ScriptedListener_new (address : SocketAddr) : ScriptedListener := mkListener address (queue_new false).
Definition scripted_accept (cx : W) (l : ScriptedListener) : Poll (result ErrorKind Sk) * ScriptedListener :=
  let '(x, q) := queue_poll cx (ln_queue l) in (x, mkListener (ln_address l) q).
Definition scripted_close (l : ScriptedListener) : list W * ScriptedListener :=
  let '(ws, q) := queue_close (ln_queue l) in (ws, mkListener (ln_address l) q).

(** The ports of the driver, polled by one task. *)
#[global] Instance ScriptedConnecting_port : Connecting (W * ScriptedConnecting) Sk := λ '(cx, c),
  let '(x, _, c) := poll_connected cx c in (x, (cx, c)).
#[global] Instance ScriptedListener_port : Listener (W * ScriptedListener) Sk := {|
  local_addr '(_, l) := Ok (ln_address l);
  poll_accept '(cx, l) := let '(x, l) := scripted_accept cx l in (x, (cx, l));
  listener_close '(cx, l) := (Ok tt, (cx, (scripted_close l).2));
|}.

(** What the code under test and the test do to a queue, and the results taken
    from it. *)
Inductive QueueAction : Type := QPoll (cx : W) | QPush (r : result ErrorKind Sk).
Fixpoint queue_run (l : list QueueAction) (q : QueueState) : list (result ErrorKind Sk) * list W * QueueState :=
  match l with
  | [] => ([], [], q)
  | QPoll cx :: l =>
    let '(x, q) := queue_poll cx q in
    let '(taken, ws, q) := queue_run l q in
    (match x with Ready r => [r] | Pending => [] end ++ taken, ws, q)
  | QPush r :: l =>
    let '(x, q) := queue_push r q in
    let '(taken, vs, q) := queue_run l q in
    (taken, match x with Ok ws => ws | Err _ => [] end ++ vs, q)
  end.
Definition pushes (l : list QueueAction) : list (result ErrorKind Sk) :=
  omap (λ a, match a with QPush r => Some r | QPoll _ => None end) l.

(** An open listener hands out every connection that was pushed, in order; a task
    that found nothing is woken by the next push. *)
Theorem accepts_in_order l q taken ws q' : closed q = false → single_result q = false →
  queue_run l q = (taken, ws, q') →
  taken ++ results q' = results q ++ pushes l ∧
  (∀ cx, waker q = Some cx → pushes l ≠ [] → Forall (λ a, ∀ cx', a ≠ QPoll cx') l → cx ∈ ws).
Proof.
  revert q taken ws q'. induction l as [| [cx | r] l IH]; intros q taken ws q' Hc Hs; cbn [queue_run].
  - intros [= <- <- <-]. by rewrite app_nil_r.
  - unfold queue_poll. rewrite Hc. destruct (results q) as [| r k] eqn:E;
      destruct (queue_run l _) as [[taken1 ws1] q1] eqn:El; intros [= <- <- <-];
      apply IH in El as [H _]; try done; cbn in H |- *; rewrite H; split; try done;
      intros cx' _ _ Hf%Forall_cons; by destruct (proj1 Hf cx).
  - unfold queue_push. rewrite Hc, Hs. cbn [andb]. destruct (queue_run l _) as [[taken1 ws1] q1] eqn:El.
    intros [= <- <- <-]. apply IH in El as [H _]; [| done | done]. cbn in H. rewrite H, <- app_assoc. split; [done |].
    intros cx -> _ _. cbn. by left.
Qed.

(** A connection attempt is answered once: after its answer every poll says that
    it is not connected and nothing more can be pushed. *)
Theorem attempt_answers_once cx c r ws c' : poll_connected cx c = (Ready r, ws, c') → cn_done c = false →
  (closed (cn_queue c) = false → head (results (cn_queue c)) = Some r) ∧
  (∀ cx', poll_connected cx' c' = (Ready (Err NotConnected), [], c')) ∧
  ∀ x, queue_push x (cn_queue c') = (Err CompletionAfterClosure, cn_queue c').
Proof.
  unfold poll_connected. intros H Hd. rewrite Hd in H. unfold queue_poll in H.
  destruct (closed (cn_queue c)) eqn:Hc.
  - injection H as <- <- <-. done.
  - destruct (results (cn_queue c)) as [| r1 l] eqn:E; [done |]. by injection H as -> <- <-.
Qed.
End queue.
Arguments QueueState : clear implicits.
Arguments ScriptedConnecting : clear implicits.
Arguments ScriptedListener : clear implicits.

Inductive NetworkCall : Type := ConnectCall (a : SocketAddr) | ListenCall (a : SocketAddr).
#[global] Instance NetworkCall_eq_dec : EqDecision NetworkCall.
Proof. solve_decision. Defined.

Section network.
Context {At Li : Type}.

Inductive NetworkReply : Type := ConnectReply (r : result ErrorKind At) | ListenReply (r : result ErrorKind Li).
Abbreviation Network := (M (Calls.Script NetworkCall NetworkReply) Panic).

(** [SocketProvider for ScriptedNetwork] *)
Definition connect (endpoint : SocketAddr) : Network (result ErrorKind At) :=
  reply ← Calls.call (ConnectCall endpoint);
  match reply with ConnectReply r => mret r | ListenReply _ => throw WrongReply end.
Definition listen (endpoint : SocketAddr) : Network (result ErrorKind Li) :=
  reply ← Calls.call (ListenCall endpoint);
  match reply with ListenReply r => mret r | ConnectReply _ => throw WrongReply end.
End network.
End Networks.

(** ** Time: [clock.rs] *)
Module Clocks.
Section clock.
Context {W : Type}.

Record ManualClock : Type := mkClock { now : Instant; timer : option (Instant * W) }.
Inductive ClockOverflow : Type := clock_overflow.

Definition new (origin : Instant) : ManualClock := mkClock origin None.
Definition advance (delta : Duration) : M ManualClock ClockOverflow (list W) := λ c,
  match Instant_checked_add (now c) delta with
  | None => (Err clock_overflow, c)
  | Some t =>
    match timer c with
    | Some (deadline, w) => if deadline <=? t then (Ok [w], mkClock t None) else (Ok [], mkClock t (timer c))
    | None => (Ok [], mkClock t None)
    end
  end.
Definition poll_deadline (cx : W) (deadline : Instant) (c : ManualClock) : Poll unit * ManualClock :=
  if deadline <=? now c then (Ready tt, mkClock (now c) None)
  else (Pending, mkClock (now c) (Some (deadline, cx))).

(** The port, polled by one task. *)
#[global] Instance ManualClock_port : Clock (W * ManualClock) := {|
  clock_now '(cx, c) := (now c, (cx, c));
  Driver.poll_deadline '(cx, c) deadline :=
    let '(x, c) := poll_deadline cx deadline c in (bool_decide (x = Ready tt), (cx, c));
|}.

(** The test advances the clock several times. *)
Fixpoint advances (l : list Duration) (c : ManualClock) : list W * ManualClock :=
  match l with
  | [] => ([], c)
  | d :: l =>
    let '(x, c) := advance d c in
    let '(vs, c) := advances l c in
    (match x with Ok ws => ws | Err _ => [] end ++ vs, c)
  end.

(** The task that waits for a deadline is woken once, when the clock reaches it,
    and nobody else is; time never goes back and never passes the largest
    instant. *)
Theorem deadline_wakes_once cx deadline c c1 l ws c2 :
  poll_deadline cx deadline c = (Pending, c1) → advances l c1 = (ws, c2) → now c < instant_limit →
  now c ≤ now c2 < instant_limit ∧ ws = (if deadline <=? now c2 then [cx] else []) ∧
  (poll_deadline cx deadline c2).1 = (if bool_decide (ws = []) then Pending else Ready tt).
Proof.
  unfold poll_deadline at 1. destruct (N.leb_spec deadline (now c)) as [| Hd]; [done |]. intros [= <-].
  assert (∀ l c c2 ws, now c < instant_limit → advances l c = (ws, c2) → now c ≤ now c2 < instant_limit ∧
    (timer c = None → ws = []) ∧
    (timer c = Some (deadline, cx) → now c < deadline → ws = if deadline <=? now c2 then [cx] else [])) as H.
  { clear. induction l as [| d l IH]; intros c c2 ws Hn; cbn [advances].
    { intros [= <- <-]. split_and!; [done | done | done |]. intros _ H. by rewrite (proj2 (N.leb_gt _ _) H). }
    unfold advance. destruct (Instant_checked_add (now c) d) as [t |] eqn:Et.
    - apply checked_add_Some in Et as [-> Ht]. destruct (timer c) as [[d1 w] |] eqn:Eq.
      + destruct (N.leb_spec d1 (now c + d)) as [Hle | Hgt]; destruct (advances l _) as [vs c3] eqn:El; intros [= <- <-];
          apply IH in El as (H1 & H2 & H3); cbn in *; try lia.
        * split_and!; [lia | lia | done |]. intros [= -> ->] _. rewrite H2 by done.
          by rewrite (proj2 (N.leb_le _ _)) by lia.
        * split_and!; [lia | lia | done |]. intros [= -> ->] _. by apply H3.
      + destruct (advances l _) as [vs c3] eqn:El; intros [= <- <-]. apply IH in El as (H1 & H2 & H3); cbn in *; [| lia].
        split_and!; [lia | lia | auto | done].
    - destruct (advances l c) as [vs c3] eqn:El. intros [= <- <-]. by apply IH in El. }
  intros Hl Hn. apply H in Hl as (H1 & _ & H2); [| done]. cbn in H1, H2. specialize (H2 eq_refl Hd).
  split; [done |]. split; [done |]. unfold poll_deadline. rewrite H2. by destruct (N.leb_spec deadline (now c2)).
Qed.
End clock.
End Clocks.

(** ** Consumers: [consumer.rs] *)
Module Consumers.
Record RecordingConsumer : Type := mkConsumer { capacity : nat; events : list Event }.

Definition new (capacity : nat) : result Panic RecordingConsumer :=
  if (capacity =? 0)%nat then Err NoCapacity else Ok (mkConsumer capacity []).
(** A full recorder gives the event back. *)
Definition try_record (event : Event) : M RecordingConsumer Event unit := λ c,
  if (length (events c) =? capacity c)%nat then (Err event, c)
  else (Ok tt, mkConsumer (capacity c) (events c ++ [event])).
Definition take_events (c : RecordingConsumer) : list Event * RecordingConsumer :=
  (events c, mkConsumer (capacity c) []).

Inductive ConsumerAction : Type := Deliver (e : Event) | Take.
(** What was taken, and what was given back. *)
Fixpoint deliveries (l : list ConsumerAction) (c : RecordingConsumer) : list Event * list Event * RecordingConsumer :=
  match l with
  | [] => ([], [], c)
  | Deliver e :: l =>
    let '(x, c) := try_record e c in
    let '(taken, back, c) := deliveries l c in
    (taken, match x with Err e => [e] | Ok _ => [] end ++ back, c)
  | Take :: l =>
    let '(es, c) := take_events c in
    let '(taken, back, c) := deliveries l c in
    (es ++ taken, back, c)
  end.

(** Every delivered event is taken or held, in order, or was given back; never
    more are held than fit. *)
Theorem deliveries_kept l : ∀ c taken back c', (length (events c) ≤ capacity c)%nat →
  deliveries l c = (taken, back, c') →
  (length (events c') ≤ capacity c' ∧ capacity c' = capacity c)%nat ∧
  ∃ kept, taken ++ events c' = events c ++ kept ∧
    kept ++ back ≡ₚ omap (λ a, match a with Deliver e => Some e | Take => None end) l.
Proof.
  induction l as [| [e |] l IH]; intros c taken back c' Hc; cbn [deliveries].
  - intros [= <- <- <-]. split; [done |]. exists []. by rewrite app_nil_r.
  - unfold try_record. destruct (Nat.eqb_spec (length (events c)) (capacity c)) as [Hf | Hf].
    + destruct (deliveries l c) as [[taken1 back1] c1] eqn:E. intros [= <- <- <-].
      apply IH in E as (Hle & kept & Hk & Hp); [| done]. split; [done |]. exists kept. split; [done |]. cbn.
      by rewrite <- Hp, Permutation_middle.
    + destruct (deliveries l _) as [[taken1 back1] c1] eqn:E. intros [= <- <- <-].
      apply IH in E as (Hle & kept & Hk & Hp); cbn in *; [| rewrite length_app; cbn; lia]. split; [done |].
      exists (e :: kept). rewrite Hk, <- app_assoc. by rewrite <- Hp.
  - cbn [take_events]. destruct (deliveries l _) as [[taken1 back1] c1] eqn:E. intros [= <- <- <-].
    apply IH in E as (Hle & kept & Hk & Hp); cbn in *; [| lia]. split; [done |].
    exists kept. split; [by rewrite <- app_assoc, Hk | done].
Qed.
End Consumers.

(** ** Scripted cryptography and identity: [crypto.rs], [identity.rs] *)
Module ScriptedCrypto.
(** Secrets are labels; a [TestSecret] reports to its log when it is dropped. *)
Record SecretLog : Type := mkLog { issued : gset N; released : list N }.
Definition SecretLog_default : SecretLog := mkLog ∅ [].
Definition issue (label : N) : M SecretLog Panic N := λ s,
  if bool_decide (label ∈ issued s) then (Err LabelReused, s)
  else (Ok label, mkLog ({[label]} ∪ issued s) (released s)).
Definition drop_secret (label : N) (s : SecretLog) : SecretLog := mkLog (issued s) (released s ++ [label]).

Inductive CryptoCall : Type :=
| RandomNonce | EphemeralKeyCall | Sha256 (b : bytes)
| VerifySignature (public_key message signature : bytes)
| Agree (private_key : N) (remote_key : bytes)
| Extract (salt : bytes) (shared : N)
| ExpandKey (key : N) (info : bytes)
| ExpandNoncePrefix (key : N) (info : bytes)
| Tag (key : N) (nonce authenticated_data : bytes)
| VerifyTag (key : N) (nonce authenticated_data tag : bytes).
#[global] Instance CryptoCall_eq_dec : EqDecision CryptoCall.
Proof. solve_decision. Defined.

Inductive CryptoReply : Type :=
| Bytes32 (r : result DependencyError bytes)
| EphemeralKeyReply (r : result DependencyError (bytes * N))
| SecretReply (r : result DependencyError N)
| Bytes16 (r : result DependencyError bytes)
| Verified (r : result DependencyError unit).

Definition Script : Type := Calls.Script CryptoCall CryptoReply.
(** The adapter, with the log its secrets report to. *)
Abbreviation Adapter := (Script * SecretLog)%type.
Abbreviation Double := (M Adapter Panic).

Definition asking {X} (c : CryptoCall) (expect : CryptoReply → option X) : Double X := λ '(s, log),
  match Calls.call c s with
  | (Ok reply, s) => (ok_or (expect reply) WrongReply, (s, log))
  | (Err e, s) => (Err e, (s, log))
  end.
Definition bytes32 (r : CryptoReply) : option (result DependencyError bytes) := match r with Bytes32 r => Some r | _ => None end.
Definition bytes16 (r : CryptoReply) : option (result DependencyError bytes) := match r with Bytes16 r => Some r | _ => None end.
Definition secret (r : CryptoReply) : option (result DependencyError N) := match r with SecretReply r => Some r | _ => None end.
Definition verified (r : CryptoReply) : option (result DependencyError unit) := match r with Verified r => Some r | _ => None end.
(** A secret passed by value is dropped when the call ends, by a panic too. *)
Definition consuming {X} (label : N) (m : Double X) : Double X := λ a,
  let '(x, (s, log)) := m a in (x, (s, drop_secret label log)).

Definition random_nonce : Double (result DependencyError bytes) := asking RandomNonce bytes32.
Definition ephemeral_key : Double (result DependencyError (bytes * N)) :=
  asking EphemeralKeyCall (λ r, match r with EphemeralKeyReply r => Some r | _ => None end).
Definition sha256 (b : bytes) : Double (result DependencyError bytes) := asking (Sha256 b) bytes32.
Definition verify_signature (public_key message signature : bytes) : Double (result DependencyError unit) :=
  asking (VerifySignature public_key message signature) verified.
Definition agree (private_key : N) (remote_key : bytes) : Double (result DependencyError N) :=
  consuming private_key (asking (Agree private_key remote_key) secret).
Definition extract (salt : bytes) (shared : N) : Double (result DependencyError N) :=
  consuming shared (asking (Extract salt shared) secret).
Definition expand_key (key : N) (info : bytes) : Double (result DependencyError N) :=
  asking (ExpandKey key info) secret.
Definition expand_nonce_prefix (key : N) (info : bytes) : Double (result DependencyError bytes) :=
  asking (ExpandNoncePrefix key info) bytes16.
Definition tag (key : N) (nonce authenticated_data : bytes) : Double (result DependencyError bytes) :=
  asking (Tag key nonce authenticated_data) bytes16.
Definition verify_tag (key : N) (nonce authenticated_data tag : bytes) : Double (result DependencyError unit) :=
  asking (VerifyTag key nonce authenticated_data tag) verified.

Inductive IdentityCall : Type := PublicIdentityCall | Identify (key : bytes) | Sign (message : bytes).
#[global] Instance IdentityCall_eq_dec : EqDecision IdentityCall.
Proof. solve_decision. Defined.
Inductive IdentityReply : Type :=
| PublicIdentityReply (r : result DependencyError Ports.PublicIdentity)
| IdentityIdReply (r : result DependencyError IdentityId)
| SignatureReply (r : result DependencyError bytes).
Abbreviation IdentityDouble := (M (Calls.Script IdentityCall IdentityReply) Panic).

Definition public_identity : IdentityDouble (result DependencyError Ports.PublicIdentity) :=
  reply ← Calls.call PublicIdentityCall;
  match reply with PublicIdentityReply r => mret r | _ => throw WrongReply end.
Definition identify (key : bytes) : IdentityDouble (result DependencyError IdentityId) :=
  reply ← Calls.call (Identify key);
  match reply with IdentityIdReply r => mret r | _ => throw WrongReply end.
Definition sign_authentication (message : bytes) : IdentityDouble (result DependencyError bytes) :=
  reply ← Calls.call (Sign message);
  match reply with SignatureReply r => mret r | _ => throw WrongReply end.

(** A secret is released exactly by the calls that take it by value, once and
    whatever they come to. *)
Lemma asking_log {X} c (expect : CryptoReply → option X) a : (asking c expect a).2.2 = a.2.
Proof. destruct a as [s log]. unfold asking. by destruct (Calls.call c s) as [[r | e] s']. Qed.
Theorem secrets_released (a : Adapter) :
  (∀ private remote, released (agree private remote a).2.2 = released a.2 ++ [private]) ∧
  (∀ salt shared, released (extract salt shared a).2.2 = released a.2 ++ [shared]) ∧
  (∀ key info, (expand_key key info a).2.2 = a.2 ∧ (expand_nonce_prefix key info a).2.2 = a.2) ∧
  (∀ key nonce ad t, (tag key nonce ad a).2.2 = a.2 ∧ (verify_tag key nonce ad t a).2.2 = a.2).
Proof.
  assert (∀ X label (m : Double X), (consuming label m a).2.2 = drop_secret label (m a).2.2) as H.
  { intros X label m. unfold consuming. by destruct (m a) as [x [s log]]. }
  split_and!; intros; unfold agree, extract; rewrite ?H, ?asking_log; try done; split; apply asking_log.
Qed.
End ScriptedCrypto.
