(* ===== verification/Fixtures.v ===== *)
(** * The fixtures and store doubles of the tests

    [src/modules/transport/test_support/{vectors,handshake}.rs] with the published
    vectors they load, and [test_support/mod.rs] of Cryptography, Identity, Board
    and Ledger.  The theorems: the handshake and the sealing of frames, run on the
    scripts built from the vectors, produce the published bytes; the doubles of the
    stores keep what the ports promise. *)

From S2P Require Import Prelude Bytes Header HandshakeCodec Api Resources Framing FramingProps Ports Handshake HandshakeProps Integrity.
From S2P Require Import BoardBase Json Document ServiceDef IdentityText AddressText Contact Crypto Keys Authority Identity IdentityProps ContactStore Recipients Ledger Reactor Doubles.

#[local] Open Scope N_scope.

(** ** Published vectors: [vectors.rs] *)
Module Vectors.
(** [fixtures/transport-v1.md], as it stands. *)
Definition DOCUMENT : bytes := lit "# Transport version 1 test vectors

These deterministic values test the handshake, identity derivation, session-key
derivation, and first protected frame defined by [Transport specification](../README.md).
All byte strings are lowercase hexadecimal. Private values here are test data
only and must never be used by a real identity or connection.

## 1. Fixed inputs

```text
initiator Ed25519 seed:
000102030405060708090a0b0c0d0e0f101112131415161718191a1b1c1d1e1f

acceptor Ed25519 seed:
202122232425262728292a2b2c2d2e2f303132333435363738393a3b3c3d3e3f

initiator raw X25519 private-key input:
404142434445464748494a4b4c4d4e4f505152535455565758595a5b5c5d5e5f

acceptor raw X25519 private-key input:
606162636465666768696a6b6c6d6e6f707172737475767778797a7b7c7d7e7f

initiator HELLO nonce:
808182838485868788898a8b8c8d8e8f909192939495969798999a9b9c9d9e9f

acceptor HELLO nonce:
a0a1a2a3a4a5a6a7a8a9aaabacadaeafb0b1b2b3b4b5b6b7b8b9babbbcbdbebf
```

The standard X25519 operation performs its required scalar clamping internally.

## 2. Public keys and CR2SE IDs

```text
initiator Ed25519 public key:
03a107bff3ce10be1d70dd18e74bc09967e4d6309ba50d5f1ddc8664125531b8

acceptor Ed25519 public key:
29acbae141bccaf0b22e1a94d34d0bc7361e526d0bfe12c89794bc9322966dd7

initiator ephemeral X25519 public key:
79a631eede1bf9c98f12032cdeadd0e7a079398fc786b88cc846ec89af85a51a

acceptor ephemeral X25519 public key:
675dd574ed7789310b3d2e7681f3790b466c773b1521fecf36577958371ea52f

initiator CR2SE ID:
d948a9a847999305be609db39d9ca50b7c93184ec36bdf080f6f46415e19925d

acceptor CR2SE ID:
774504edf47bae28a4f1154bf4516ae74f090ee5b032464586d0c21d24d9b249
```

Each CR2SE ID is `SHA-256(0x01 || 0x01 || ed25519PublicKey)`.

## 3. HELLO payloads

Both payloads are exactly 100 bytes.

```text
initiator HELLO:
01010103a107bff3ce10be1d70dd18e74bc09967e4d6309ba50d5f1ddc8664125531b80179a631eede1bf9c98f12032cdeadd0e7a079398fc786b88cc846ec89af85a51a808182838485868788898a8b8c8d8e8f909192939495969798999a9b9c9d9e9f

acceptor HELLO:
01010129acbae141bccaf0b22e1a94d34d0bc7361e526d0bfe12c89794bc9322966dd701675dd574ed7789310b3d2e7681f3790b466c773b1521fecf36577958371ea52fa0a1a2a3a4a5a6a7a8a9aaabacadaeafb0b1b2b3b4b5b6b7b8b9babbbcbdbebf
```

For an additional transcript check:

```text
SHA-256(helloTranscript):
b8179c941632a1945354cafc2eb7b9e892239e2165efdd1c770898e8fa0cbd39
```

## 4. AUTH signatures

```text
initiator AUTH payload:
ee7fd684c9ffe4be9690028ae6cc95fab3e08a3d0f1c1e011125bfe0f7519360b9f361d495d9d3f76c8b6afd8e9e681f3f7726d02c26bebd952ca62f196b7904

acceptor AUTH payload:
bdfdbe34c927de4efd3e6625f4a58f95f78fa2091dec580aaf52a22e9a39dfe7e46d8cbf83752608d1d4246da4c5b9d68df5d47104ba9ac7a1e58269c1dada01
```

These signatures use the role-specific `authMessage` defined by Transport specification.

## 5. Shared and derived material

```text
X25519 shared secret:
d6fb939511b2381bc8599b4b8edc5968829450dfd7a87aebe78a703cd04cd54e

HKDF salt:
8aefb9765055e4bd0df062bdfe80308fc8798c984e8de4349fad5ea4012b9bb2

HKDF extract PRK:
02c069957c9eb792641672c5f6ab502061c24d2532f442e2c5ff44246f5e8827

initiator-to-acceptor key:
c08a898e59badb2806465fa3fe2efcf16ede0f6f55212413a0f583f991d54225

acceptor-to-initiator key:
f94e68d81bafb537b6b910aae2e65a2b3dc747244309de4ba3d9c1200045a892

initiator-to-acceptor nonce prefix:
812a8007edee5869f7312364c75b45d1

acceptor-to-initiator nonce prefix:
7f474199ecdeb802f8b97a725916ece8
```

## 6. First protected frame

The initiator sends a `PING` on stream `0`. This is its first protected frame,
so the implicit initiator-to-acceptor sequence number is `0`.

```text
header:
010300000000000000000008

payload:
0001020304050607

nonce prefix || uint64_be(0):
812a8007edee5869f7312364c75b45d10000000000000000

integrity tag:
2d72a6c440a960b2a6282450f9fb7ac1

complete bytes written to TCP:
01030000000000000000000800010203040506072d72a6c440a960b2a6282450f9fb7ac1
```

The tag is the XChaCha20-Poly1305 result for empty plaintext with
`header || payload` as authenticated data. Changing any header byte, payload
byte, key byte, nonce-prefix byte, or sequence number must make verification
fail.

The acceptor answers with its first protected frame, a `PONG` using its own
directional sequence `0`:

```text
header:
010400000000000000000008

payload:
0001020304050607

nonce prefix || uint64_be(0):
7f474199ecdeb802f8b97a725916ece80000000000000000

integrity tag:
5feb9216750a6618af80f39b7f813ea6

complete bytes written to TCP:
01040000000000000000000800010203040506075feb9216750a6618af80f39b7f813ea6
```
".

Inductive FixturePanic : Type :=
| MissingFixture | MissingBytes | WrongLength | OddLength | InvalidHex | BadHello | BadHeader | LabelUsed.

(** [str::lines] *)
Definition lines (t : bytes) : list bytes :=
  map (λ l, if bool_decide (last l = Some x0d) then take (length l - 1) l else l) (split_terminator x0a t).

Definition digit (b : byte) : result FixturePanic N :=
  let n := b2N b in
  if (48 <=? n) && (n <=? 57) then Ok (n - 48)
  else if (97 <=? n) && (n <=? 102) then Ok (n - 97 + 10)
  else Err InvalidHex.
Fixpoint decode_pairs (value : bytes) : result FixturePanic bytes :=
  match value with
  | a :: b :: value =>
    hi ← digit a; lo ← digit b; rest ← decode_pairs value;
    Ok (N2b (hi * 16 + lo) :: rest)
  | _ => Ok []
  end.
Definition decode_hex (value : bytes) : result FixturePanic bytes :=
  if negb (len value mod 2 =? 0) then Err OddLength else decode_pairs value.

(** The lines after those that are the label. *)
Fixpoint after_labels (label : bytes) (ls : list bytes) : list (list bytes) :=
  match ls with
  | [] => []
  | l :: ls => (if bool_decide (l = label) then [ls] else []) ++ after_labels label ls
  end.
(** [bytes] *)
Definition fixture (label : bytes) (occurrence : nat) : result FixturePanic bytes :=
  rest ← ok_or (after_labels (label ++ lit ":") (lines DOCUMENT) !! occurrence) MissingFixture;
  line ← ok_or (head rest) MissingBytes;
  decode_hex line.
Definition array (n : nat) (label : bytes) : result FixturePanic bytes :=
  b ← fixture label 0;
  if (length b =? n)%nat then Ok b else Err WrongLength.

(** *** Hexadecimal is exact *)
Definition nibble (n : N) : byte := N2b (if n <? 10 then 48 + n else 87 + n).
Definition hex_byte (b : byte) : bytes := [nibble (b2N b / 16); nibble (b2N b mod 16)].

Lemma decode_hex_byte (b : byte) :
  match hex_byte b with [h; l] => digit h = Ok (b2N b / 16) ∧ digit l = Ok (b2N b mod 16) | _ => False end.
Proof. destruct b; split; reflexivity. Qed.
Lemma digit_nibble b n : digit b = Ok n → n < 16 ∧ nibble n = b.
Proof. destruct b; intros [= <-]; split; reflexivity. Qed.
Lemma N2b_nibbles h l : h < 16 → l < 16 → hex_byte (N2b (h * 16 + l)) = [nibble h; nibble l].
Proof.
  intros Hh Hl. unfold hex_byte. rewrite b2N_N2b, (N.mod_small _ 256) by lia. rewrite N.div_add_l, N.div_small, N.add_0_r by lia.
  do 2 f_equal. rewrite N.add_comm, N.Div0.mod_add, N.mod_small by lia. done.
Qed.

(** The fixture decoder reads exactly the lower-case hexadecimal spelling of
    bytes, and the spelling of no two byte strings is the same. *)
Theorem decode_hex_exact value b : decode_hex value = Ok b ↔ value = concat (map hex_byte b).
Proof.
  assert (∀ b, decode_pairs (concat (map hex_byte b)) = Ok b) as Hd.
  { clear. induction b as [| b l IH]; [done |]. cbn [map concat]. pose proof (decode_hex_byte b) as Hb.
    change (hex_byte b) with [nibble (b2N b / 16); nibble (b2N b mod 16)] in *. cbn [app decode_pairs]. destruct Hb as [-> ->]. unfold_m. rewrite IH.
    assert (b2N b / 16 * 16 + b2N b mod 16 = b2N b) as -> by (rewrite N.mul_comm, <- N.div_mod'; done).
    by rewrite N2b_b2N. }
  unfold decode_hex. split.
  - destruct (N.eqb_spec (len value mod 2) 0) as [Hl |]; [| done]. cbn [negb].
    assert (∃ n, length value = (2 * n)%nat) as [n Hn].
    { exists (N.to_nat (len value / 2)). pose proof (N.div_mod' (len value) 2). unfold len in *. lia. }
    clear Hl. revert value b Hn. induction n as [| n IH]; intros [| x [| y value]] b Hn; try (cbn in Hn; lia).
    { by intros [= <-]. }
    cbn [decode_pairs]. intros H. apply result_bind_Ok_inv in H as (hi & Hh & H). apply result_bind_Ok_inv in H as (lo & Hlo & H).
    apply result_bind_Ok_inv in H as (rest & Hr & [= <-]).
    apply digit_nibble in Hh as [Hh <-], Hlo as [Hlo <-]. cbn [map concat]. rewrite N2b_nibbles by done. cbn.
    do 2 f_equal. apply IH; [cbn in Hn; lia | done].
  - intros ->. assert (len (concat (map hex_byte b)) = len b * 2) as ->.
    { induction b as [| x b IH]; [done |]. cbn [map concat]. rewrite len_app, IH, len_cons. change (len (hex_byte x)) with 2. lia. }
    rewrite N.Div0.mod_mul. apply Hd.
Qed.

Example published : (length <$> array 32 (lit "HKDF salt")) = Ok 32%nat ∧
  array 99 (lit "initiator HELLO") = Err WrongLength ∧ fixture (lit "not a fixture") 0 = Err MissingFixture ∧
  decode_hex (lit "0g") = Err InvalidHex ∧ decode_hex (lit "abc") = Err OddLength.
Proof. vm_compute. done. Qed.
End Vectors.

(** ** Handshake scripts: [handshake.rs] *)
Module Scripts.
Import Vectors ScriptedCrypto.

Definition unwrap {E X} (p : FixturePanic) (r : result E X) : result FixturePanic X := map_err (λ _, p) r.
Definition side (role : ConnectionRole) : bytes := match role with Initiator => lit "initiator" | Acceptor => lit "acceptor" end.
Definition hello_of (role : ConnectionRole) : result FixturePanic Hello :=
  b ← fixture (side role ++ lit " HELLO") 0; unwrap BadHello (Hello_decode b).

(** What the identity of an endpoint is asked, and answers. *)
Definition identity_calls (local remote : Hello) (local_id remote_id : IdentityId) (message local_auth : bytes)
    : list (IdentityCall * IdentityReply) :=
  [(PublicIdentityCall, PublicIdentityReply (Ok (Ports.mkPublicIdentity local_id (identity_public_key local))));
   (Identify (identity_public_key remote), IdentityIdReply (Ok remote_id));
   (Sign message, SignatureReply (Ok local_auth))].
(** The same of its cryptography; secrets are the labels 1 to 5. *)
Definition crypto_calls (local remote : Hello) (transcript message auth salt : bytes) : list (CryptoCall * CryptoReply) :=
  [(EphemeralKeyCall, EphemeralKeyReply (Ok (ephemeral_public_key local, 1)));
   (RandomNonce, Bytes32 (Ok (hello_nonce local)));
   (VerifySignature (identity_public_key remote) message auth, Verified (Ok tt));
   (Agree 1 (ephemeral_public_key remote), SecretReply (Ok 2));
   (Sha256 (lit "CR2SE-NETWORK-KEYS-V1" ++ [x00] ++ transcript), Bytes32 (Ok salt));
   (Extract salt 2, SecretReply (Ok 3));
   (ExpandKey 3 (lit "CR2SE-NETWORK-V1-I2A-KEY"), SecretReply (Ok 4));
   (ExpandKey 3 (lit "CR2SE-NETWORK-V1-A2I-KEY"), SecretReply (Ok 5));
   (ExpandNoncePrefix 3 (lit "CR2SE-NETWORK-V1-I2A-NONCE"), Bytes16 (Ok (replicate 16 x06)));
   (ExpandNoncePrefix 3 (lit "CR2SE-NETWORK-V1-A2I-NONCE"), Bytes16 (Ok (replicate 16 x07)))].
(** The frames the peer sends. *)
Definition incoming (remote : Hello) (auth : bytes) : result FixturePanic bytes :=
  hello ← unwrap BadHeader (FrameHeader_new Hello_t 0 100);
  authentication ← unwrap BadHeader (FrameHeader_new Auth_t 0 64);
  Ok (FrameHeader_encode hello ++ Hello_encode remote ++ FrameHeader_encode authentication ++ Auth_encode auth).
Definition issue_all (labels : list N) : result FixturePanic SecretLog :=
  unwrap LabelUsed (foldl (λ r label, log ← r; let '(x, log) := issue label log in _ ← x; Ok log) (Ok SecretLog_default) labels).

(** The adapters of one endpoint, the log of its secrets and what its peer sends. *)
Definition handshake (role : ConnectionRole)
    : result FixturePanic (list (IdentityCall * IdentityReply) * list (CryptoCall * CryptoReply) * SecretLog * bytes) :=
  local ← hello_of role;
  remote ← hello_of (opposite role);
  local_id ← array 32 (side role ++ lit " CR2SE ID");
  remote_id ← array 32 (side (opposite role) ++ lit " CR2SE ID");
  let transcript := match role with
                    | Initiator => Transcript_new local remote
                    | Acceptor => Transcript_new remote local
                    end in
  local_auth ← array 64 (side role ++ lit " AUTH payload");
  auth ← array 64 (side (opposite role) ++ lit " AUTH payload");
  salt ← array 32 (lit "HKDF salt");
  log ← issue_all [1; 2; 3; 4; 5];
  sent ← incoming remote auth;
  Ok (identity_calls local remote local_id remote_id (Transcript_authentication transcript role) local_auth,
      crypto_calls local remote transcript (Transcript_authentication transcript (opposite role)) auth salt, log, sent).

(** *** Adapters that answer what is in a script

    The ports answer read-only calls as functions of their state, so these
    adapters look a call up in the script, wherever it stands; what is not in the
    script is refused. *)
Definition answer {C R} `{!EqDecision C} (script : list (C * R)) (c : C) : option R :=
  snd <$> head (filter (λ p, p.1 = c) script).
Definition asked {C R X} `{!EqDecision C} (script : list (C * R)) (c : C)
    (expect : R → option (result DependencyError X)) : result DependencyError X :=
  default (Err Api.Unavailable) (answer script c ≫= expect).
Definition wide (n : nat) (r : result DependencyError bytes) : result DependencyError bytes :=
  b ← r; if (length b =? n)%nat then Ok b else Err InvalidInput.
Lemma wide_length n r b : wide n r = Ok b → length b = n.
Proof. unfold wide. intros H. apply result_bind_Ok_inv in H as (x & _ & H). destruct (Nat.eqb_spec (length x) n); [| done]. by injection H as <-. Qed.

Definition script_key (s : list (CryptoCall * CryptoReply)) : result DependencyError (bytes * N) :=
  '(p, k) ← asked s EphemeralKeyCall (λ r, match r with EphemeralKeyReply r => Some r | _ => None end);
  p ← wide 32 (Ok p); Ok (p, k).
Definition script_public (s : list (IdentityCall * IdentityReply)) : result DependencyError Ports.PublicIdentity :=
  p ← asked s PublicIdentityCall (λ r, match r with PublicIdentityReply r => Some r | _ => None end);
  key ← wide 32 (Ok (Ports.signing_public_key p)); Ok (Ports.mkPublicIdentity (pi_id p) key).
Definition script_id (s : list (IdentityCall * IdentityReply)) (key : bytes) : result DependencyError IdentityId :=
  asked s (Identify key) (λ r, match r with IdentityIdReply r => Some r | _ => None end).
Definition script_sign (s : list (IdentityCall * IdentityReply)) (m : bytes) : result DependencyError bytes :=
  wide 64 (asked s (Sign m) (λ r, match r with SignatureReply r => Some r | _ => None end)).

#[local] Obligation Tactic := idtac.
#[local] Program Instance script_crypto : Cryptography (list (CryptoCall * CryptoReply)) := {|
  EphemeralSecret := N; SharedSecret := N; PseudorandomKey := N; IntegrityKey := N;
  Ports.random_nonce s := (wide 32 (asked s RandomNonce bytes32), s);
  Ports.ephemeral_key s := (script_key s, s);
  Ports.sha256 s b := asked s (Sha256 b) bytes32;
  Ports.verify_signature s p m x := asked s (VerifySignature p m x) verified;
  Ports.agree s k p := (asked s (Agree k p) secret, s);
  Ports.extract s salt k := (asked s (Extract salt k) secret, s);
  Ports.expand_key s k i := (asked s (ExpandKey k i) secret, s);
  Ports.expand_nonce_prefix s k i := wide 16 (asked s (ExpandNoncePrefix k i) bytes16);
  Ports.mac_tag s k n a := wide 16 (asked s (Tag k n a) bytes16);
  Ports.verify_tag s k n a t := asked s (VerifyTag k n a t) verified;
|}.
Next Obligation. intros s n H. by eapply wide_length. Qed.
Next Obligation.
  intros s p k H. apply result_bind_Ok_inv in H as ([q l] & _ & H). apply result_bind_Ok_inv in H as (x & Hx & [= <- _]).
  by apply wide_length in Hx.
Qed.
Next Obligation. intros s k i p. apply wide_length. Qed.
Next Obligation. intros s k n a t. apply wide_length. Qed.
#[local] Program Instance script_identity : Ports.Identity (list (IdentityCall * IdentityReply)) := {|
  Ports.public_identity := script_public;
  Ports.identify := script_id;
  Ports.sign_authentication s m := (script_sign s m, s);
|}.
Next Obligation.
  intros s p H. apply result_bind_Ok_inv in H as (q & _ & H). apply result_bind_Ok_inv in H as (x & Hx & [= <-]).
  by apply wide_length in Hx.
Qed.
Next Obligation. intros s m x. apply wide_length. Qed.

(** A whole handshake over what the peer sends: the payloads it sends itself, and
    what it establishes. *)
Definition exchange (role : ConnectionRole) (identity : list (IdentityCall * IdentityReply))
    (crypto : list (CryptoCall * CryptoReply)) (sent : bytes) : result FixturePanic (bytes * bytes * Established N) :=
  match Handshake_begin role Unpinned identity crypto, parse_frame Untagged sent with
  | (Ok (h, hello), crypto), PFrame peer_hello rest =>
    match greet peer_hello (h, identity, crypto), parse_frame Untagged rest with
    | (Ok (Some auth), s), PFrame peer_auth [] =>
      match (conclude peer_auth s).1 with
      | Ok (Some e) => Ok (payload hello, payload auth, e)
      | _ => Err MissingFixture
      end
    | _, _ => Err MissingFixture
    end
  | _, _ => Err MissingFixture
  end.
Definition perform (role : ConnectionRole) : result FixturePanic (bytes * bytes * Established N) :=
  '(identity, crypto, _, sent) ← handshake role; exchange role identity crypto sent.
(** What the vectors say of it. *)
Definition published_handshake (role : ConnectionRole) : result FixturePanic (bytes * bytes * Established N) :=
  hello ← fixture (side role ++ lit " HELLO") 0;
  auth ← fixture (side role ++ lit " AUTH payload") 0;
  local_id ← fixture (side role ++ lit " CR2SE ID") 0;
  peer_id ← fixture (side (opposite role) ++ lit " CR2SE ID") 0;
  let i2a := mkDirectionKeys 4 (replicate 16 x06) in
  let a2i := mkDirectionKeys 5 (replicate 16 x07) in
  Ok (hello, auth, mkEstablished role local_id peer_id
        (match role with Initiator => mkSessionKeys i2a a2i | Acceptor => mkSessionKeys a2i i2a end)).

(** Both endpoints, asking nothing but what the script has, send the published
    HELLO and AUTH, identify the published peer and hold the keys of their own
    directions. *)
Theorem handshake_reproduces_vectors role : perform role = published_handshake role ∧ is_ok (perform role) = true.
Proof. destruct role; vm_compute; split; reflexivity. Qed.

(** *** The first protected frames *)
(** The published frame of a direction: PING is [0], PONG is [1]. *)
Definition clear_frame (occurrence : nat) : result FixturePanic WireFrame :=
  h ← fixture (lit "header") occurrence;
  h ← unwrap BadHeader (FrameHeader_decode h);
  p ← fixture (lit "payload") occurrence;
  unwrap BadHeader (WireFrame_new h p None).
Definition direction (occurrence : nat) : bytes :=
  match occurrence with O => lit "initiator-to-acceptor" | _ => lit "acceptor-to-initiator" end.
(** Seal it with the first nonce of its direction, over a script that holds only
    the published tag for the published header, payload and nonce. *)
Definition sealed_bytes (occurrence : nat) : result FixturePanic bytes :=
  prefix ← array 16 (direction occurrence ++ lit " nonce prefix");
  nonce ← fixture (lit "nonce prefix || uint64_be(0)") occurrence;
  h ← fixture (lit "header") occurrence;
  p ← fixture (lit "payload") occurrence;
  t ← fixture (lit "integrity tag") occurrence;
  f ← clear_frame occurrence;
  let session := mkIntegrity (Some (mkDirectionKeys 1 prefix)) None 0 0 false in
  f ← unwrap MissingFixture (Integrity_seal f [(Tag 1 nonce (h ++ p), Bytes16 (Ok t))] (session, Store_empty)).1;
  Ok (frame_bytes f).

Theorem sealing_reproduces_vectors occurrence : (occurrence < 2)%nat →
  sealed_bytes occurrence = fixture (lit "complete bytes written to TCP") occurrence ∧
  is_ok (sealed_bytes occurrence) = true.
Proof. destruct occurrence as [| [| n]]; [vm_compute; split; reflexivity .. | lia]. Qed.
End Scripts.

(** ** Doubles of Cryptography and Identity *)
Module IdentityDoubles.
(** [ScriptedEntropy]: one answer per request, of its width. *)
Definition ScriptedEntropy : Type := list (result CryptoError bytes).
Definition scripted_fill (n : nat) (e : ScriptedEntropy) : result CryptoError bytes * ScriptedEntropy :=
  match e with
  | [] => (Err CUnavailable, [])
  | r :: e => (b ← r; if (length b =? n)%nat then Ok b else Err CInvalidInput, e)
  end.
#[global] Program Instance ScriptedEntropy_entropy : Entropy ScriptedEntropy := {| fill := scripted_fill |}.
Next Obligation.
  intros n [| r e] b e'; cbn; [done |]. intros H. injection H as H _.
  apply result_bind_Ok_inv in H as (x & _ & H). destruct (Nat.eqb_spec (length x) n); [| done]. by injection H as <-.
Qed.

(** [ScriptedCrypto]: expected operations with their exact inputs.  The outer
    [option] is [None] where the assertion fails. *)
Inductive Operation : Type := OpHash | OpKey | OpVerify.
#[global] Instance Operation_eq_dec : EqDecision Operation.
Proof. solve_decision. Defined.
Record CryptoCall : Type := mkCryptoCall {
  cc_operation : Operation;
  cc_inputs : list bytes;
  cc_result : result IdentityError bytes;
}.
Definition scripted_call (operation : Operation) (inputs : list bytes) (s : list CryptoCall)
    : option (result IdentityError bytes) * list CryptoCall :=
  match s with
  | [] => (Some (Err IdUnavailable), [])
  | c :: s => (if bool_decide (cc_operation c = operation ∧ cc_inputs c = inputs) then Some (cc_result c) else None, s)
  end.
Definition scripted_sha256 (input : bytes) (s : list CryptoCall) : option (result IdentityError bytes) * list CryptoCall :=
  let '(x, s) := scripted_call OpHash [input] s in
  ((λ r, b ← r; if (length b =? 32)%nat then Ok b else Err IdInvalidInput) <$> x, s).
Definition scripted_validate (input : bytes) (s : list CryptoCall) : option (result IdentityError unit) * list CryptoCall :=
  let '(x, s) := scripted_call OpKey [input] s in (fmap (M := result IdentityError) (λ _, tt) <$> x, s).
Definition scripted_verify (key message signature : bytes) (s : list CryptoCall)
    : option (result IdentityError unit) * list CryptoCall :=
  let '(x, s) := scripted_call OpVerify [key; message; signature] s in (fmap (M := result IdentityError) (λ _, tt) <$> x, s).

(** [MemoryStore]: what is durable is shared with a restarted process. *)
Record MemoryStore : Type := mkMemory { durable_record : option CredentialRecord; faults : list IdentityError }.
Definition MemoryStore_default : MemoryStore := mkMemory None [].
Definition restart (s : MemoryStore) : MemoryStore := mkMemory (durable_record s) [].
Definition memory_authorize (_ : MemoryStore) (authority : bool) (_ : N) : result IdentityError unit :=
  if authority then Ok tt else Err IdAccessDenied.
Definition memory_install (authority : bool) (r : CredentialRecord) : M MemoryStore IdentityError unit := λ s,
  if negb authority then (Err IdAccessDenied, s)
  else match faults s with
       | e :: faults => (Err e, mkMemory (durable_record s) faults)
       | [] => if bool_decide (is_Some (durable_record s)) then (Err IdConflict, s)
               else (Ok tt, mkMemory (Some r) [])
       end.
Definition memory_open (authority : bool) : M MemoryStore IdentityError CredentialRecord := λ s,
  (if negb authority then Err IdAccessDenied else ok_or (durable_record s) IdUnavailable, s).
#[global] Instance MemoryStore_keystore : KeyStore MemoryStore bool := {|
  authorize := memory_authorize;
  install := memory_install;
  open_record := memory_open;
|}.

(** The double keeps what the port promises, so whatever is proved of providers
    over any store holds of the providers the tests run. *)
#[global] Program Instance MemoryStore_laws : KeyStoreLaws MemoryStore bool := {| durable := durable_record |}.
Next Obligation.
  intros a r s u s'. cbn. unfold memory_install. destruct a; [| done]. destruct (faults s); [| done]. cbn.
  case_bool_decide as H; [done |]. intros [= _ <-]. split; [| done]. by apply eq_None_not_Some.
Qed.
Next Obligation.
  intros a r s e s'. cbn. unfold memory_install. destruct a; cbn; [| by intros [= _ <-]; left].
  destruct (faults s); [| by intros [= _ <-]; left]. case_bool_decide; [by intros [= _ <-]; left | done].
Qed.
Next Obligation. intros s a r s'. cbn. unfold memory_open. destruct a; [| done]. by intros [= H%ok_or_Ok _]. Qed.
Next Obligation. done. Qed.

(** A restart forgets the faults and nothing else: what a provider loads in the new
    process are the keys that the old one acknowledged. *)
Theorem restarted_identity `{CR : !Crates} {E} `{EN : !Entropy E} admin limits entropy au domain
    (i i' : Identity.Identity MemoryStore E) w w' w2 h p h2 p2 s2 :
  create admin (i, w) = (Ok (h, p), (i', w')) →
  load (E := E) true (mkIdentity (restart (id_store i')) entropy limits au domain, w2) = (Ok (h2, p2), s2) →
  h_keys h2 = h_keys h ∧ p2 = p.
Proof.
  intros Hc Hl. pose proof (create_outcome admin i w) as H. rewrite Hc in H. destruct H as (_ & _ & -> & (r & Hr & Hk & Hp) & _).
  destruct s2 as [j w3]. set (i2 := mkIdentity _ _ _ _ _) in Hl. pose proof (load_outcome true i2 w2) as H. rewrite Hl in H.
  destruct H as (Hm & _ & -> & (r2 & Hr2 & Hk2 & Hp2) & _). apply (mv_durable _ _ _ _ Hm) in Hr. rewrite Hr2 in Hr.
  injection Hr as ->. assert (h_keys h2 = h_keys h) as He by congruence. split; [done |]. by rewrite Hp, Hp2, He.
Qed.

(** [MemoryContacts] *)
Definition MemoryContacts : Type := gmap IdentityId Contact.
Definition memory_get (authority : bool) (id : IdentityId) (m : MemoryContacts) : result IdentityError (option Contact) :=
  if authority then Ok (m !! id) else Err IdAccessDenied.
Definition memory_put (authority : bool) (contact : Contact) : M MemoryContacts IdentityError unit := λ m,
  if authority then (Ok tt, <[expected_id contact := contact]> m) else (Err IdAccessDenied, m).

(** *** Labelled vectors *)
Definition whitespace (b : byte) : bool := let n := b2N b in (n =? 32) || ((9 <=? n) && (n <=? 13)).
Definition hexdigit (b : byte) : option N :=
  let n := b2N b in
  if (48 <=? n) && (n <=? 57) then Some (n - 48)
  else if (97 <=? n) && (n <=? 102) then Some (n - 97 + 10)
  else if (65 <=? n) && (n <=? 70) then Some (n - 65 + 10)
  else None.
(** [u8::from_str_radix] of two characters: a plus sign may come first. *)
Definition radix_pair (a b : byte) : option byte :=
  lo ← hexdigit b;
  if bool_decide (a = x2b) then Some (N2b lo) else hi ← hexdigit a; Some (N2b (hi * 16 + lo)).
Fixpoint radix_pairs (t : bytes) : option bytes :=
  match t with
  | a :: b :: t => x ← radix_pair a b; cons x <$> radix_pairs t
  | _ => Some []
  end.
(** [hex] of an ASCII text; [None] where it panics. *)
Definition hex (value : bytes) : option bytes :=
  let compact := filter (λ b, whitespace b = false) value in
  if (length compact mod 2 =? 0)%nat then radix_pairs compact else None.

(** The text before and after the first occurrence of a pattern. *)
Fixpoint cut (pattern t : bytes) : option (bytes * bytes) :=
  if bool_decide (take (length pattern) t = pattern) then Some ([], drop (length pattern) t)
  else match t with
       | [] => None
       | b :: t => '(x, y) ← cut pattern t; Some (b :: x, y)
       end.
(** [source.split(label).nth(1)] *)
Definition second_part (pattern source : bytes) : option bytes :=
  '(_, rest) ← cut pattern source;
  Some (match cut pattern rest with Some (part, _) => part | None => rest end).
Fixpoint take_while {A} (p : A → bool) (l : list A) : list A :=
  match l with x :: l => if p x then x :: take_while p l else [] | [] => [] end.
Definition vector (source label : bytes) : option bytes :=
  tail ← second_part (x0a :: label ++ lit ":" ++ [x0a]) source;
  hex (concat (take_while (λ l, negb (is_empty l) && forallb (λ b, bool_decide (is_Some (hexdigit b))) l) (Vectors.lines tail))).

(** The two readers of vectors agree where the lines are those of the published
    document. *)
Example same_vectors :
  map (λ l, vector Vectors.DOCUMENT (lit l)) ["initiator HELLO"; "HKDF salt"; "acceptor AUTH payload"; "not a fixture"]%string =
  map (λ l, match Vectors.fixture (lit l) 0 with Ok b => Some b | Err _ => None end)
    ["initiator HELLO"; "HKDF salt"; "acceptor AUTH payload"; "not a fixture"]%string.
Proof. vm_compute. reflexivity. Qed.
End IdentityDoubles.

(** ** Doubles of Board *)
Module BoardDoubles.
Inductive Cut : Type := BeforeCommit | AfterCommit | Acknowledged.
(** [Store] *)
Record Store : Type := mkStore {
  st_bytes : option bytes;
  attempts : N;
  acknowledgements : N;
  cuts : list Cut;
}.
Definition Store_default : Store := mkStore None 0 0 [].
Definition commit (b : bytes) : M Store BoardError unit := λ s,
  match cuts s with
  | [] => (Err BStorage, mkStore (st_bytes s) (attempts s + 1) (acknowledgements s) [])
  | BeforeCommit :: cs => (Err BStorage, mkStore (st_bytes s) (attempts s + 1) (acknowledgements s) cs)
  | AfterCommit :: cs => (Err BUnknown, mkStore (Some b) (attempts s + 1) (acknowledgements s) cs)
  | Acknowledged :: cs => (Ok tt, mkStore (Some b) (attempts s + 1) (acknowledgements s + 1) cs)
  end.
Definition restart (s : Store) : Store := mkStore (st_bytes s) 0 0 [].

(** [Clock] *)
Definition advance (seconds : N) : M N BoardError unit := λ now,
  match checked_add u64_limit now seconds with Some t => (Ok tt, t) | None => (Err BLimit, now) end.

(** [Capabilities] *)
Record FixtureCapabilities : Type := mkCapabilities {
  services : gset (bytes * N);
  preconditions : gset bytes;
  fixed_price : option (result BoardError N);
}.
Definition usable (c : FixtureCapabilities) (service : bytes) (version : N) (required : list bytes) : bool :=
  bool_decide ((service, version) ∈ services c) && forallb (λ name, bool_decide (name ∈ preconditions c)) required.
Definition price (c : FixtureCapabilities) : result BoardError N := default (Err BUnsupported) (fixed_price c).

(** The last commit that took effect is what a restarted owner finds: one that
    was acknowledged or whose acknowledgement was lost, never one that is known to
    have failed. *)
Fixpoint commits (l : list bytes) (s : Store) : list (bytes * result BoardError unit) * Store :=
  match l with
  | [] => ([], s)
  | b :: l => let '(r, s) := commit b s in let '(rs, s) := commits l s in ((b, r) :: rs, s)
  end.
Definition took_effect (r : result BoardError unit) : bool :=
  match r with Ok _ | Err BUnknown => true | Err _ => false end.
Theorem cuts_keep_durable_effects l s : let '(rs, s') := commits l s in
  st_bytes (restart s') = default (st_bytes s) (Some <$> last (filter (λ p, took_effect p.2 = true) rs).*1) ∧
  attempts s' = attempts s + len l ∧
  acknowledgements s' = acknowledgements s + len (filter (λ p, p.2 = Ok tt) rs).
Proof.
  revert s. induction l as [| b l IH]; intros s; cbn [commits]; [rewrite !len_nil, !N.add_0_r; done |].
  destruct (commit b s) as [r s1] eqn:E. specialize (IH s1). destruct (commits l s1) as [rs s2].
  destruct IH as (Hb & Ha & Hk). rewrite len_cons, Hb, Ha, Hk, !filter_cons. cbn [snd].
  assert (∀ o k, default (Some b) (Some <$> last k) = default o (Some <$> last (b :: k))) as Hlast.
  { intros o [| x k]; [done |]. rewrite last_cons_cons. destruct (last (x :: k)) eqn:El; [done | by apply last_None in El]. }
  unfold commit in E. destruct (cuts s) as [| [] cs]; injection E as <- <-; cbn [took_effect st_bytes attempts acknowledgements].
  - rewrite !decide_False by done. split_and!; [done | lia | done].
  - rewrite !decide_False by done. split_and!; [done | lia | done].
  - rewrite decide_True, decide_False by done. cbn. split_and!; [apply Hlast | lia | done].
  - rewrite !decide_True by done. cbn. rewrite len_cons. split_and!; [apply Hlast | lia | lia].
Qed.
(** *** Literal documents *)
Definition PRICES : list N := [7; 9007199254740993; 18446744073709551615].
(** JSON with its quotation marks written as apostrophes. *)
Definition quoted (s : bytes) : bytes := map (λ b, if bool_decide (b = x27) then x22 else b) s.
Definition definition : bytes := quoted (lit
  "{'id':'fixture','service':'org.example.echo','serviceVersion':1,'description':'Return the supplied label.','input':{'type':'string'},'output':{'type':'string'},'check':{'description':'Compare the original label with the returned label.','input':{'type':'string'},'output':{'type':'bool'}}}").
(** [identity/test_support/fixtures/transport.md], as it stands. *)
Definition TRANSPORT : bytes := lit "# Transport version 1 test vectors

These deterministic values test the handshake, identity derivation, session-key
derivation, and first protected frame defined by [Transport specification](../README.md).
All byte strings are lowercase hexadecimal. Private values here are test data
only and must never be used by a real identity or connection.

## 1. Fixed inputs

```text
initiator Ed25519 seed:
000102030405060708090a0b0c0d0e0f101112131415161718191a1b1c1d1e1f

acceptor Ed25519 seed:
202122232425262728292a2b2c2d2e2f303132333435363738393a3b3c3d3e3f

initiator raw X25519 private-key input:
404142434445464748494a4b4c4d4e4f505152535455565758595a5b5c5d5e5f

acceptor raw X25519 private-key input:
606162636465666768696a6b6c6d6e6f707172737475767778797a7b7c7d7e7f

initiator HELLO nonce:
808182838485868788898a8b8c8d8e8f909192939495969798999a9b9c9d9e9f

acceptor HELLO nonce:
a0a1a2a3a4a5a6a7a8a9aaabacadaeafb0b1b2b3b4b5b6b7b8b9babbbcbdbebf
```

The standard X25519 operation performs its required scalar clamping internally.

Shared-secret calculation (distinct from generating the local ephemeral key
pair) and HKDF are performed only after peer AUTH verification. These fixed
cryptographic outputs are unchanged by that ordering requirement.

## 2. Public keys and CR2SE IDs

```text
initiator Ed25519 public key:
03a107bff3ce10be1d70dd18e74bc09967e4d6309ba50d5f1ddc8664125531b8

acceptor Ed25519 public key:
29acbae141bccaf0b22e1a94d34d0bc7361e526d0bfe12c89794bc9322966dd7

initiator ephemeral X25519 public key:
79a631eede1bf9c98f12032cdeadd0e7a079398fc786b88cc846ec89af85a51a

acceptor ephemeral X25519 public key:
675dd574ed7789310b3d2e7681f3790b466c773b1521fecf36577958371ea52f

initiator CR2SE ID:
d948a9a847999305be609db39d9ca50b7c93184ec36bdf080f6f46415e19925d

acceptor CR2SE ID:
774504edf47bae28a4f1154bf4516ae74f090ee5b032464586d0c21d24d9b249
```

Each CR2SE ID is `SHA-256(0x01 || 0x01 || ed25519PublicKey)`.

## 3. HELLO payloads

Both payloads are exactly 100 bytes.

```text
initiator HELLO:
01010103a107bff3ce10be1d70dd18e74bc09967e4d6309ba50d5f1ddc8664125531b80179a631eede1bf9c98f12032cdeadd0e7a079398fc786b88cc846ec89af85a51a808182838485868788898a8b8c8d8e8f909192939495969798999a9b9c9d9e9f

acceptor HELLO:
01010129acbae141bccaf0b22e1a94d34d0bc7361e526d0bfe12c89794bc9322966dd701675dd574ed7789310b3d2e7681f3790b466c773b1521fecf36577958371ea52fa0a1a2a3a4a5a6a7a8a9aaabacadaeafb0b1b2b3b4b5b6b7b8b9babbbcbdbebf
```

For an additional transcript check:

```text
SHA-256(helloTranscript):
b8179c941632a1945354cafc2eb7b9e892239e2165efdd1c770898e8fa0cbd39
```

## 4. AUTH signatures

```text
initiator AUTH payload:
ee7fd684c9ffe4be9690028ae6cc95fab3e08a3d0f1c1e011125bfe0f7519360b9f361d495d9d3f76c8b6afd8e9e681f3f7726d02c26bebd952ca62f196b7904

acceptor AUTH payload:
bdfdbe34c927de4efd3e6625f4a58f95f78fa2091dec580aaf52a22e9a39dfe7e46d8cbf83752608d1d4246da4c5b9d68df5d47104ba9ac7a1e58269c1dada01
```

These signatures use the role-specific `authMessage` defined by Transport specification.

## 5. Shared and derived material

```text
X25519 shared secret:
d6fb939511b2381bc8599b4b8edc5968829450dfd7a87aebe78a703cd04cd54e

HKDF salt:
8aefb9765055e4bd0df062bdfe80308fc8798c984e8de4349fad5ea4012b9bb2

HKDF extract PRK:
02c069957c9eb792641672c5f6ab502061c24d2532f442e2c5ff44246f5e8827

initiator-to-acceptor key:
c08a898e59badb2806465fa3fe2efcf16ede0f6f55212413a0f583f991d54225

acceptor-to-initiator key:
f94e68d81bafb537b6b910aae2e65a2b3dc747244309de4ba3d9c1200045a892

initiator-to-acceptor nonce prefix:
812a8007edee5869f7312364c75b45d1

acceptor-to-initiator nonce prefix:
7f474199ecdeb802f8b97a725916ece8
```

## 6. First protected frame

The initiator sends a `PING` on stream `0`. This is its first protected frame,
so the implicit initiator-to-acceptor sequence number is `0`.

```text
header:
010300000000000000000008

payload:
0001020304050607

nonce prefix || uint64_be(0):
812a8007edee5869f7312364c75b45d10000000000000000

integrity tag:
2d72a6c440a960b2a6282450f9fb7ac1

complete bytes written to TCP:
01030000000000000000000800010203040506072d72a6c440a960b2a6282450f9fb7ac1
```

The tag is the XChaCha20-Poly1305 result for empty plaintext with
`header || payload` as authenticated data. Changing any header byte, payload
byte, key byte, nonce-prefix byte, or sequence number must make verification
fail.

The acceptor answers with its first protected frame, a `PONG` using its own
directional sequence `0`:

```text
header:
010400000000000000000008

payload:
0001020304050607

nonce prefix || uint64_be(0):
7f474199ecdeb802f8b97a725916ece80000000000000000

integrity tag:
5feb9216750a6618af80f39b7f813ea6

complete bytes written to TCP:
01040000000000000000000800010203040506075feb9216750a6618af80f39b7f813ea6
```

## 7. Diagnostic reason vectors

`diagnosticReasons` below uses `PROTOCOL_ERROR` (`0001`) for ERROR, CANCEL and
GOAWAY. All entries are payloads without frame headers or tags. GOAWAY has
`lastAcceptedRemoteStreamId = 0`. The reason column is the exact UTF-8 input to
the encoder and the exact bytes to preserve on successful decoding.

| Reason bytes | ERROR / CANCEL payload | GOAWAY payload | Result |
|---|---|---|---|
| empty | `00010000` | `0000000000010000` | accept |
| `efbbbf` | `00010003efbbbf` | `0000000000010003efbbbf` | reject leading BOM |
| `efbbbf61` | `00010004efbbbf61` | `0000000000010004efbbbf61` | reject leading BOM before text |
| `61efbbbf62` | `0001000561efbbbf62` | `000000000001000561efbbbf62` | accept interior U+FEFF |
| `65cc81` | `0001000365cc81` | `000000000001000365cc81` | accept decomposed text unchanged |

For a byte-limit boundary case, use `61` repeated 1021 times followed by
`efbbbf`: the 1024-byte reason is accepted with length `0400`. Using 1022
copies instead yields 1025 bytes and must be rejected, even though U+FEFF is
interior. These rules apply to outgoing codecs as well as incoming parsers.
".
(** [None] where the fixture is missing or has another length. *)
Definition issuer : option bytes :=
  b ← IdentityDoubles.vector TRANSPORT (lit "initiator CR2SE ID");
  if (length b =? 32)%nat then Some (IdentityText.format b) else None.
Definition board (wanted : bool) (price : N) : option bytes :=
  i ← issuer;
  let offering := quoted (lit "{'id':'fixture','service':'org.example.echo','serviceVersion':1,'description':'Return the supplied label.','creditIssuer':'")
    ++ i ++ quoted (lit "','price':") ++ display_number 10 price ++ lit "}" in
  let '(provided, wanted) := if wanted then ([], offering) else (offering, []) in
  Some (quoted (lit "{'version':1,'providedServices':[") ++ provided ++ quoted (lit "],'wantedServices':[") ++ wanted ++ lit "]}").
(** The handler's own check of a definition; [None] where the literal does not
    parse. *)
Definition contract `{SJ : !SerdeJson} (d : ServiceDefinition) : option (result BoardError unit) :=
  expected ← from_slice definition;
  Some (if forallb (λ key, bool_decide (get key (doc_value (def_document d)) = get key expected)) [lit "input"; lit "output"; lit "check"]
        then Ok tt else Err BInvalid).

Definition literals : list bytes := definition :: omap (λ p, board p.1 p.2) (cprod [true; false] PRICES).
(** A library for texts without escapes, which takes every token for a value. *)
#[local] Instance plain_json : SerdeJson := {|
  from_slice _ := Some JNull; string_from_slice b := Some (removelast (tail b)); to_string _ := [];
|}.

(** The literal documents are documents: all of them pass the bounded scan under the
    default limits; and the pinned identity reads back. *)
Example literals_scan : length literals = 7%nat ∧
  forallb (λ t, is_ok (Document_parse t Limits_default)) literals = true.
Proof. vm_compute. done. Qed.
Example issuer_reads_back : is_ok (ok_or issuer tt ≫= λ i, map_err (λ _, tt) (IdentityText.parse i)) = true.
Proof. vm_compute. reflexivity. Qed.
End BoardDoubles.

(** ** Doubles of Ledger *)
Module LedgerDoubles.
Inductive Cut : Type := Before | After | NoCut.
(** [Store]; the outer [option] of a commit is [None] when the script is
    exhausted. *)
Record Store : Type := mkStore { durable_bytes : bytes; cuts : list Cut }.
Definition new (initial : bytes) (cs : list Cut) : Store := mkStore initial cs.
Definition commit (b : bytes) (s : Store) : option (result LedgerError unit) * Store :=
  match cuts s with
  | [] => (None, s)
  | Before :: cs => (Some (Err LStorage), mkStore (durable_bytes s) cs)
  | After :: cs => (Some (Err LUnknown), mkStore b cs)
  | NoCut :: cs => (Some (Ok tt), mkStore b cs)
  end.
Definition reopen (s : Store) : bytes := durable_bytes s.

Theorem ledger_cuts_exact b s r s' : commit b s = (Some r, s') →
  match r with
  | Ok _ => reopen s' = b
  | Err e => (e = LStorage ∧ reopen s' = reopen s) ∨ (e = LUnknown ∧ reopen s' = b)
  end.
Proof. unfold commit. destruct (cuts s) as [| [] cs]; intros [= <- <-]; [by left | by right | done]. Qed.
End LedgerDoubles.

(** ** Probes of the server runtime: [composition/server/test_support/mod.rs] *)
Module RuntimeDoubles.
(** The counter is a [usize]. *)
Record Control : Type := mkControl { wakes : N; stopped : bool }.
Definition Control_default : Control := mkControl 0 false.
Definition wake_by_ref (c : Control) : Control := mkControl ((wakes c + 1) mod u64_limit) (stopped c).
Definition stop (c : Control) : Control := mkControl (wakes c) true.

(** [wake.rs] of the Transport: the counter alone. *)
Definition WakeCounter_wake (count : N) : N := (count + 1) mod u64_limit.

(** *** Observed releases: [cryptography/test_support/mod.rs]

    The counters that tests opened, by number, and the one of the innermost scope,
    which a secret made in it attaches to. *)
Record Releases : Type := mkReleases { active : option N; counters : gmap N N }.
Definition release_probe (s : Releases) : option N := active s.
(** Dropping a probe. *)
Definition release (probe : N) (s : Releases) : Releases :=
  mkReleases (active s) (alter (λ n, (n + 1) mod u64_limit) probe (counters s)).
(** The surrounding scope is restored however the operation ends. *)
Definition observe_releases {X} (operation : Releases → X * Releases) (s : Releases) : X * N * Releases :=
  let counter := fresh (dom (counters s)) in
  let '(x, s') := operation (mkReleases (Some counter) (<[counter := 0]> (counters s))) in
  (x, counter, mkReleases (active s) (counters s')).

(** A secret of an outer and one of an inner scope, dropped in the inner one: each
    counter has its own, and the outer scope is active again. *)
Example scopes_nest :
  let nested s :=
    let outer := release_probe s in
    let '(_, inner, s) := observe_releases (λ s,
      (tt, foldr release s (omap id [outer; release_probe s]))) s in
    (inner, s) in
  let '(inner, outer, s) := observe_releases nested (mkReleases None ∅) in
  counters s !! outer = Some 1 ∧ counters s !! inner = Some 1 ∧ inner ≠ outer ∧ active s = None.
Proof. vm_compute. done. Qed.

(** Deliveries and requests are independent of each other and of their order. *)
Lemma stop_wake c : stop (wake_by_ref c) = wake_by_ref (stop c).
Proof. done. Qed.
End RuntimeDoubles.
